(* ===== verification/_CoqProject ===== *)
-Q . S2P
Prelude.v
Ring.v
RingFacts.v
RingClaims.v
FixedVector.v
FixedVectorFacts.v
FixedVectorClaims.v
PriorityQueue.v
PriorityQueueFacts.v
PriorityQueueClaims.v
Flat.v
FlatFacts.v
FlatClaims.v
Span.v
Text.v
TextClaims.v
Words.v
Monotonic.v
Arena.v
ArenaFacts.v
ArenaClaims.v
Bits.v
BitsFacts.v
BitsClaims.v
HandlePool.v
HandlePoolFacts.v
HandlePoolClaims.v
ObjectPool.v
ObjectPoolFacts.v
ObjectPoolClaims.v
IntrusiveList.v
IntrusiveListFacts.v
IntrusiveListSims.v
IntrusiveListClaims.v
ForwardList.v
ForwardListFacts.v
ForwardListClaims.v
Scheduler.v
SchedulerFacts.v
SchedulerClaims.v
Deadline.v
DeadlineFacts.v
DeadlineClaims.v
Fsm.v
Dispatcher.v
Tick.v
OnceFlag.v
Spsc.v
Positions.v
SpscClaims.v
Mpmc.v
MpmcFacts.v
MpmcClaims.v
ByteRing.v
ByteRingFacts.v
ByteRingClaims.v
Hash.v
FixedString.v
FixedStringClaims.v
HashTable.v
HashTableFacts.v
HashTableOps.v
HashTablePairs.v
HashTableClaims.v
Crc.v
World.v
Optional.v
OptionalClaims.v
Expected.v
ExpectedFacts.v
ExpectedClaims.v
ExpectedVoidClaims.v
