(* ===== verification/Prelude.v ===== *)
(** * METL: a verification library for the fixed-capacity C++17 template library

    METL ([src/include/metl/]) is a header-only library for embedded programs:
    containers with inline storage and a compile-time capacity, allocators, text
    and bit helpers, vocabulary types and lock-free queues.  Nothing in it
    allocates; what a program gets instead of a reallocation is a check, a
    [false] or a trap.  This development models its containers and the queue
    between threads member by member and proves what they promise.

    ** How the code is modelled

    A member function is a computation in the monad [M] of this file: it runs on
    the state of its object and ends in one of five ways ([outcome]).  It
    returns; an element operation throws, and the state is the one that the
    exception leaves; a check fails and the program aborts ([Trap]); it does
    something undefined in C++, such as reading an element that is not alive
    ([Fault]); or the fuel of a loop ran out ([Spin]).  Theorems name the outcome,
    so each also says that the others do not happen.

    - [METL_ASSERT] and [METL_HARDEN] ([assert.hpp], [config.hpp]) are
      [metl_assert] and [metl_harden]; the hardening level is an argument [h].
    - [scope_exit] is [guarded].
    - [storage_for] and [detail::array_storage] are a list of slots, [Some v] for a live
      object and [None] for raw bytes.  Constructing over a live object,
      destroying or reading a dead one, and an index out of range are [Fault].
    - [std::size_t] has the width that the class [SizeT] gives, and arithmetic on
      it wraps at that width; [CapacityOk] is what an array of a given capacity
      says about it.
    - An element constructor is itself a computation on the container, so that it
      may throw or call back into the container.  What a move leaves in its source
      is an arbitrary function [moved].

    ** The parts

    - [Ring.v]: [detail/ring_core.hpp] (module [RingCore]) and the containers on
      it, [ring_buffer.hpp], [fixed_deque.hpp], [fixed_queue.hpp].
      [RingFacts.v] relates a ring to the sequence it holds; [RingClaims.v] has
      the abstract deque and the theorems.
    - [FixedVector.v]: [fixed_vector.hpp] and the adapter [fixed_stack.hpp], with
      [FixedVectorFacts.v] and [FixedVectorClaims.v].
    - [PriorityQueue.v]: [fixed_priority_queue.hpp], the binary heap over the
      storage of a [fixed_vector], with [PriorityQueueFacts.v] and
      [PriorityQueueClaims.v].
    - [Flat.v]: the sorted arrays [flat_set.hpp] and [flat_map.hpp], with
      [FlatFacts.v] and [FlatClaims.v].  Here element moves throw by a script
      that is part of the state.
    - [Span.v]: [span.hpp], the view over an array that the text functions use.
    - [Text.v]: [parse.hpp] and [format.hpp], with [TextClaims.v].
    - [Words.v]: [endian.hpp] and [bitfield.hpp], with their theorems.
    - [Monotonic.v]: [monotonic_buffer.hpp], with its theorem.
    - [Arena.v]: [arena_allocator.hpp], with client code that runs in it; [ArenaFacts.v]
      shows that the bytes are a stack of blocks, [ArenaClaims.v] has the theorems.
    - [Bits.v]: [bit.hpp], on every path that the preprocessor may take, and
      [detail/bitset.hpp], with [BitsFacts.v] and [BitsClaims.v].
    - [HandlePool.v]: [versioned_handle.hpp], [detail/low_bits.hpp] and
      [handle_pool.hpp], with [HandlePoolFacts.v] and [HandlePoolClaims.v].
    - [ObjectPool.v]: [object_pool.hpp], over the bitsets of [Bits.v], and client code
      that runs against any pool (the class [Pool]); [ObjectPoolFacts.v] has the
      abstract pool and that the two cannot be told apart, [ObjectPoolClaims.v] the
      theorem.
    - [IntrusiveList.v]: [intrusive_list.hpp] and [detail/dlist_link.hpp], over the links
      of all the lists and hooks that are alive.  [IntrusiveListFacts.v] has the abstract
      lists and the rings of links that make them, [IntrusiveListSims.v] that each
      operation keeps the two together, [IntrusiveListClaims.v] the theorems.
    - [ForwardList.v]: [intrusive_forward_list.hpp] and [detail/slist_link.hpp].
      [ForwardListFacts.v] shows that it is the doubly linked list with the way back
      forgotten, [ForwardListClaims.v] has the theorem.
    - [Scheduler.v]: [coro/scheduler.hpp], over the [fixed_vector] of [FixedVector.v], and
      [coro/stepper.hpp]; client code runs against any table of tasks (the class
      [TaskTable]).  [SchedulerFacts.v] has the table whose numbers never come round
      again and that the two cannot be told apart, [SchedulerClaims.v] the theorems.
    - [Deadline.v]: [coro/deadline_scheduler.hpp], over the heap of [PriorityQueue.v];
      [DeadlineFacts.v] has the agenda that it cannot be told from, [DeadlineClaims.v]
      the theorems.
    - [Fsm.v]: [fsm.hpp], and [Dispatcher.v]: [event_dispatcher.hpp], each with its
      theorems; the handlers are client code that reaches back into the machine or the
      dispatcher.
    - [Tick.v]: [tick_extender.hpp], and [OnceFlag.v]: [once_flag.hpp], as steps of any
      number of callers, with their theorems.
    - [Spsc.v]: [spsc_queue.hpp] and [detail/index_distance.hpp], with
      [SpscClaims.v].  The two threads are a step relation in which an acquire
      load may return any value that coherence allows, and an access that does
      not happen after the other side's is a data race, hence a [Fault].
      [Positions.v] has what the values of a counter that wraps tell of positions.
    - [Mpmc.v]: [mpmc_queue.hpp], as steps of any number of threads, with
      [MpmcFacts.v] (tickets, the stages of a cell, the invariant) and
      [MpmcClaims.v].
    - [ByteRing.v]: [spsc_byte_ring.hpp], in the manner of [Spsc.v], with callers that
      fill and drain spans in place; [ByteRingFacts.v] and [ByteRingClaims.v].
    - [Hash.v]: [hash.hpp], with the theorem on its finalizer.
    - [HashTable.v]: [static_unordered_map.hpp] and [static_unordered_set.hpp],
      whose shared machinery is the module [HashTable], over the bitsets of
      [Bits.v].  [HashTableFacts.v] sees a table as the list of its cells and has
      its invariant, probing and the placing of elements; [HashTableOps.v] the
      rebuild and the operations, [HashTablePairs.v] swapping and assigning,
      [HashTableClaims.v] the abstract table and the theorems.
    - [FixedString.v]: [fixed_string.hpp], with [FixedStringClaims.v]; a pointer
      argument may point into the string itself.
    - [Crc.v]: [detail/crc.hpp], [crc8.hpp], [crc16.hpp], [crc32.hpp], with their
      theorem.
    - [World.v]: objects with addresses, a script of the element operations that
      throw, arguments that refer into objects, and programs that catch every
      exception; the ground on which the next two stand.
    - [Optional.v]: [optional.hpp], with [OptionalClaims.v]; a destructor may reach
      back into its object.
    - [Expected.v]: [expected.hpp], both templates.  [ExpectedFacts.v] has how each
      step changes the world; [ExpectedClaims.v] and [ExpectedVoidClaims.v] the
      theorems.

    In each of these a definition has the name of the member it models; one
    definition is one member, with its checks, its early returns and the order of
    its writes.

    ** What the theorems show

    - Refinement.  Each container has an abstract specification, a list, a bag,
      an ordered list of pairs or a table of slots, with an operation per member.
      Every sequence of operations ends, at every hardening level that the
      theorem names, with the result and the contents that the specification
      gives: [deque_refines_list], [vector_refines_sequence], [flat_map_refines],
      [priority_queue_refines], [unordered_map_refines],
      [unordered_set_refines], [fixed_string_refines], [handle_pool_refines],
      [object_pool_refines] (for whole programs, destructors and constructors included),
      [intrusive_list_refines] and [forward_list_refines] (for any number of lists at
      once), [scheduler_refines] and [deadline_refines] (whatever the polls do with the
      scheduler),
      [optional_refines], [expected_refines], [expected_void_refines].  Contracts that are broken
      trap where the documentation says so ([deque_harden_floor],
      [vector_harden_floor]).
    - Exceptions.  A constructor that throws changes nothing where the strong
      guarantee is documented and clears the container where that is
      ([emplace_throw_unchanged], [flat_set_exceptions]); the heap and the hash
      tables refine their specifications whatever throws, and the one case that
      can leave a heap out of order, an assignment that throws, is
      [priority_queue_assign_exact].  An [expected] keeps one live member whatever throws, as long as the move that
      rolls back does not ([expected_refines], [expected_double_throw]); its copy
      and move constructors do not ([expected_construct_exact]), while those of
      [optional] do ([optional_construct_exact]).
    - Invariants and termination: every state a hash table gets to is one that
      probes work on ([unordered_map_invariant]), and its rebuild, whose loops have
      no bound in the code, ends with the same elements
      ([rehash_in_place_correct]).  The links of every intrusive list can be walked from
      either end ([intrusive_list_walks]).  The hooks of a state machine alternate
      ([fsm_hooks_alternate]), and a round polls every task once
      ([scheduler_round_exact]).  Running what is due ends ([deadline_run_due_ends]).
    - Allocators: [monotonic_buffer_exact]; an arena whose constructors and destructors use
      it stays well formed ([arena_safe]), and a mark undoes what follows it
      ([arena_rewind_exact]).
    - Reentrancy: listeners that subscribe and dispatch ([dispatcher_hears]),
      constructors and destructors that call back
      ([emplace_back_constructor], [handle_pool_reentrancy], [optional_reentrancy],
      [expected_reentrancy]), and the one case
      that the checks miss ([emplace_reentrant_overflow]).
    - Exactness of the numeric code: [parse_exact], [format_exact], their round
      trip, [endian_exact], [bitfield_exact], [bit_operations_exact], [bitset_updates],
      [hash_mix_bijective], and [crc_exact] for the table-driven checksums against
      division bit by bit.
    - Concurrency: under every interleaving the queue delivers what was pushed, in
      order, once, with no race ([spsc_fifo]); each call takes a fixed number of
      steps of its own ([spsc_wait_free]).  The queue of many threads is an atomic
      bounded queue ([mpmc_linearizable]) over any stretch of calls that starts when
      no call is running and is shorter than the range of its counters, and within such
      a stretch no call waits for another ([mpmc_solo_ends]).  The byte ring is a stream however its spans are used
      ([byte_ring_stream]), and its calls are exact when nothing disturbs them
      ([byte_ring_calls_exact]).  An initializer runs once ([once_flag_once]) and a widened
      counter tells the time ([tick_extender_exact]) whatever interrupts what.
    - Whole-object operations (copy, move, assignment, [swap]) and comparison
      ([optional_comparison] for the order that all the operators share).

    ** Loops and their fuel

    A loop that is not a recursion on a list takes fuel, and the theorems state
    that the loop returns, so the fuel is proved to be enough.  Binary search has
    [log2 size + 1] turns; digit loops 64, the width of [unsigned long long];
    bit loops the width of the word; the loops that run while the container is
    not empty, or up to its size, have [Capacity] turns.  A sift has
    [log2 Capacity] turns; the placement of one element in a rebuild, and each of
    its probes, [bucket_count].  Clearing a list and searching it for
    a link have as many turns as links are alive.  Rewinding an
    arena nests in the destructors that it runs: [Capacity] levels and
    [Capacity ^ 2 + Capacity + 1] turns are enough.

    ** What is not modelled

    The AddressSanitizer annotations and compile-time checks ([static_assert],
    [noexcept], SFINAE) have no state.  Compiler intrinsics are
    a parameter: the class [Bit.Compiler] of [Bits.v], with the documented behaviour in
    the class [Intrinsics] of [BitsFacts.v]; the hash tables call [bit.hpp] by its
    portable loops, which [bit_ceil_portable] and [countr_zero_portable] show to be no
    restriction.  Iterators are positions.
    The reference types of the standard library, [constexpr] and the choice of
    overloads between copies and moves are represented by the value that they
    deliver.

    Parts not modelled: [intrusive_ptr], the locks and waits,
    [coro::protothread], [lookup_table] and the atomic references and handles, which could be
    added in this manner; the type-erased callables and the accesses to hardware
    registers, whose meaning is a representation or a device. *)

From Stdlib Require Import ZArith Lia.
From stdpp Require Import base numbers list option tactics.

Local Open Scope Z_scope.

(** ** The outcome monad

    A member function runs on the state of its object (or objects) and ends in
    one of five ways. *)

Inductive outcome (S A : Type) : Type :=
  | Ret (a : A) (s : S)   (** returns [a], leaving the state [s] *)
  | Throw (s : S)         (** an element operation threw; the state is [s] *)
  | Trap                  (** a check failed: [assertion_failed], then abort *)
  | Fault                 (** a lifetime or bounds error, undefined in C++ *)
  | Spin.                 (** the fuel of a loop ran out *)
Arguments Ret {S A} a s.
Arguments Throw {S A} s.
Arguments Trap {S A}.
Arguments Fault {S A}.
Arguments Spin {S A}.

Definition M (S A : Type) : Type := S -> outcome S A.

Definition ret {S A} (a : A) : M S A := fun s => Ret a s.
Definition bind {S A B} (m : M S A) (k : A -> M S B) : M S B := fun s =>
  match m s with
  | Ret a s' => k a s'
  | Throw s' => Throw s'
  | Trap => Trap
  | Fault => Fault
  | Spin => Spin
  end.
Definition get {S A} (f : S -> A) : M S A := fun s => Ret (f s) s.
Definition modify {S} (f : S -> S) : M S unit := fun s => Ret tt (f s).
Definition throw {S A} : M S A := fun s => Throw s.
Definition trap {S A} : M S A := fun _ => Trap.
Definition fault {S A} : M S A := fun _ => Fault.

Declare Scope metl_scope.
Delimit Scope metl_scope with metl.
Notation "'let!' x := m 'in' k" := (bind m (fun x => k))
  (at level 10, x binder, m at level 100, k at level 200,
   format "'[v' 'let!'  x  :=  m  'in' '/' k ']'") : metl_scope.
Notation "m ;;; k" := (bind m (fun _ => k))
  (at level 100, right associativity, format "'[v' m ;;; '/' k ']'") : metl_scope.
Open Scope metl_scope.

(** [METL_HARDENING]: which checks stay compiled in. *)
Inductive hardening : Set := HARDENING_NONE | HARDENING_FAST | HARDENING_DEBUG.

#[export] Instance hardening_eq_dec : EqDecision hardening.
Proof. solve_decision. Defined.

(** [METL_ASSERT]: active at FAST and above, nothing at NONE. *)
Definition metl_assert {S} (h : hardening) (b : bool) : M S unit :=
  match h with
  | HARDENING_NONE => ret tt
  | HARDENING_FAST | HARDENING_DEBUG => if b then ret tt else trap
  end.

(** [METL_HARDEN]: active at every level. *)
Definition metl_harden {S} (b : bool) : M S unit := if b then ret tt else trap.

(** A [scope_exit] guard around one statement, released when the statement
    returns: [undo] runs exactly when an exception leaves [m]. *)
Definition guarded {S A} (m : M S A) (undo : M S unit) : M S A := fun s =>
  match m s with
  | Throw s' =>
      match undo s' with
      | Ret _ s'' => Throw s''
      | Throw _ => Trap          (* the guard's destructor is noexcept *)
      | Trap => Trap
      | Fault => Fault
      | Spin => Spin
      end
  | o => o
  end.

(** [try { m } catch (...) { handler; throw; }]. *)
Definition catching {S A} (m : M S A) (handler : M S unit) : M S A := fun s =>
  match m s with
  | Throw s' => (bind handler (fun _ => throw)) s'
  | o => o
  end.

(** An operation of one object, run in a state that holds two. *)
Definition on_fst {S S' A} (m : M S A) : M (S * S') A := fun p =>
  match m p.1 with
  | Ret a s => Ret a (s, p.2)
  | Throw s => Throw (s, p.2)
  | Trap => Trap
  | Fault => Fault
  | Spin => Spin
  end.
Definition on_snd {S S' A} (m : M S' A) : M (S * S') A := fun p =>
  match m p.2 with
  | Ret a s => Ret a (p.1, s)
  | Throw s => Throw (p.1, s)
  | Trap => Trap
  | Fault => Fault
  | Spin => Spin
  end.

(** An operation on two objects of one type, run with their roles exchanged. *)
Definition swapped {S A} (m : M (S * S) A) : M (S * S) A := fun p =>
  match m (p.2, p.1) with
  | Ret a s => Ret a (s.2, s.1)
  | Throw s => Throw (s.2, s.1)
  | Trap => Trap
  | Fault => Fault
  | Spin => Spin
  end.

(** [for (i = from; i < from + n; ++i) body(i)]. *)
Fixpoint for_up {S} (n : nat) (from : Z) (body : Z -> M S unit) : M S unit :=
  match n with
  | O => ret tt
  | S n' => body from ;;; for_up n' (from + 1) body
  end.

(** [for (i = from; i > from - n; --i) body(i)]. *)
Fixpoint for_down {S} (n : nat) (from : Z) (body : Z -> M S unit) : M S unit :=
  match n with
  | O => ret tt
  | S n' => body from ;;; for_down n' (from - 1) body
  end.

(** [while (cond) body], with fuel. *)
Fixpoint while_loop {S} (fuel : nat) (cond : S -> bool) (body : M S unit) : M S unit :=
  fun s =>
    if cond s then
      match fuel with
      | O => Spin
      | S fuel' => (body ;;; while_loop fuel' cond body) s
      end
    else Ret tt s.

(** ** [std::size_t] at its width *)

Class SizeT : Set := {
  size_bits : Z;
  size_bits_min : 16 <= size_bits
}.

Definition size_t_32 : SizeT := {| size_bits := 32; size_bits_min := ltac:(lia) |}.
Definition size_t_64 : SizeT := {| size_bits := 64; size_bits_min := ltac:(lia) |}.

Definition wrap `{SizeT} (z : Z) : Z := z mod 2 ^ size_bits.

(** An object's size is at most [PTRDIFF_MAX], so an array's length is too. *)
Class CapacityOk `{SizeT} (C : Z) : Prop := capacity_ok : 0 <= C < 2 ^ (size_bits - 1).

(** ** Comparators *)

(** [comp_(a, b)], at one pair of argument types. *)
Class Comparator (Cmp A B : Type) : Type := less : Cmp -> A -> B -> bool.

Class StrictWeakOrder (Cmp K : Type) `{!Comparator Cmp K K} : Prop := {
  order_irrefl : forall (c : Cmp) (a : K), less c a a = false;
  order_trans : forall (c : Cmp) (a b d : K), less c a b = true -> less c b d = true -> less c a d = true;
  order_cotrans : forall (c : Cmp) (a b d : K), less c a d = true -> less c a b = true \/ less c b d = true
}.

(** ** Slot arrays: [storage_for] and [array_storage]

    A slot holds [Some v] while an object lives in it and [None] otherwise. *)

Abbreviation slots T := (list (option T)).

Definition slot_lookup {T} (st : slots T) (i : Z) : option (option T) :=
  if i <? 0 then None else st !! Z.to_nat i.
Definition slot_set {T} (st : slots T) (i : Z) (x : option T) : slots T :=
  <[Z.to_nat i := x]> st.

(** An object whose elements live in a slot array. *)
Class HasSlots (S T : Type) : Type := {
  get_slots : S -> slots T;
  set_slots : slots T -> S -> S;
  get_set_slots : forall st s, get_slots (set_slots st s) = st
}.

Section slot_operations.
  Context {S T : Type} `{HasSlots S T}.

  (** [items[i].ref()]: only a live object may be named. *)
Definition slot_ref (i : Z) : M S T := fun s =>
  match slot_lookup (get_slots s) i with
  | Some (Some v) => Ret v s
  | _ => Fault
  end.

  (** [::new (items[i].addr()) T(...)], once the value is known: the slot must
      exist and hold no object (one that did would leak). *)
Definition slot_construct (i : Z) (v : T) : M S unit := fun s =>
  match slot_lookup (get_slots s) i with
  | Some None => Ret tt (set_slots (slot_set (get_slots s) i (Some v)) s)
  | _ => Fault
  end.

  (** [items[i].ref().~T()]. *)
Definition slot_destroy (i : Z) : M S unit := fun s =>
  match slot_lookup (get_slots s) i with
  | Some (Some _) => Ret tt (set_slots (slot_set (get_slots s) i None) s)
  | _ => Fault
  end.

  (** [items[i].ref() = v]. *)
Definition slot_assign (i : Z) (v : T) : M S unit := fun s =>
  match slot_lookup (get_slots s) i with
  | Some (Some _) => Ret tt (set_slots (slot_set (get_slots s) i (Some v)) s)
  | _ => Fault
  end.

  (** [static_cast<T&&>(items[i].ref())] given to a constructor or an
      assignment: the value goes out, the moved-from one stays behind. *)
Definition slot_move_out (moved : T -> T) (i : Z) : M S T := fun s =>
  match slot_lookup (get_slots s) i with
  | Some (Some v) => Ret v (set_slots (slot_set (get_slots s) i (Some (moved v))) s)
  | _ => Fault
  end.
End slot_operations.

(** ** Lemmas and automation *)

Create HintDb metl.
Create Rewrite HintDb metl_slots.

Section monad_lemmas.
  Context {S A B : Type}.

Lemma bind_Ret (m : M S A) (k : A -> M S B) s a s' :
  m s = Ret a s' -> bind m k s = k a s'.
Proof. by intros H; unfold bind; rewrite H. Qed.

Lemma bind_Throw (m : M S A) (k : A -> M S B) s s' :
  m s = Throw s' -> bind m k s = Throw s'.
Proof. by intros H; unfold bind; rewrite H. Qed.

Lemma bind_Trap (m : M S A) (k : A -> M S B) s :
  m s = Trap -> bind m k s = Trap.
Proof. by intros H; unfold bind; rewrite H. Qed.

Lemma bind_Fault (m : M S A) (k : A -> M S B) s :
  m s = Fault -> bind m k s = Fault.
Proof. by intros H; unfold bind; rewrite H. Qed.

Lemma bind_assoc {D} (m : M S A) (k : A -> M S B) (k' : B -> M S D) s :
  bind (bind m k) k' s = bind m (fun a => bind (k a) k') s.
Proof. unfold bind. by destruct (m s). Qed.

(** Two ways to go on that agree on every state that the first step can leave. *)
Lemma bind_ext (m : M S A) (k k' : A -> M S B) s :
  (forall a s', m s = Ret a s' -> k a s' = k' a s') -> bind m k s = bind m k' s.
Proof. intros Hk. unfold bind. destruct (m s) eqn:E; try done. by apply Hk. Qed.

Lemma bind_alike (m m' : M S A) (k : A -> M S B) s : m s = m' s -> bind m k s = bind m' k s.
Proof. unfold bind. by intros ->. Qed.

Lemma guarded_Ret (m : M S A) undo s a s' :
  m s = Ret a s' -> guarded m undo s = Ret a s'.
Proof. by intros H; unfold guarded; rewrite H. Qed.

Lemma guarded_Throw (m : M S A) undo s s' s'' :
  m s = Throw s' -> undo s' = Ret tt s'' -> guarded m undo s = Throw s''.
Proof. by intros H H'; unfold guarded; rewrite H, H'. Qed.

Lemma guarded_undo_Trap (m : M S A) undo s s' :
  m s = Throw s' -> undo s' = Trap -> guarded m undo s = Trap.
Proof. by intros H H'; unfold guarded; rewrite H, H'. Qed.
End monad_lemmas.

Lemma on_fst_Ret {S S' A} (m : M S A) (p : S * S') a s :
  m p.1 = Ret a s -> on_fst m p = Ret a (s, p.2).
Proof. by intros H; unfold on_fst; rewrite H. Qed.

Lemma on_fst_bind {S S' A B} (m : M S A) (k : A -> M S B) (p : S * S') :
  bind (on_fst m) (fun a => on_fst (k a)) p = on_fst (bind m k) p.
Proof. unfold on_fst, bind. by destruct (m p.1). Qed.

Lemma on_snd_Ret {S S' A} (m : M S' A) (p : S * S') a s :
  m p.2 = Ret a s -> on_snd m p = Ret a (p.1, s).
Proof. by intros H; unfold on_snd; rewrite H. Qed.

Lemma metl_assert_true {S} h (s : S) : metl_assert h true s = Ret tt s.
Proof. by destruct h. Qed.

Lemma metl_assert_false {S} h (s : S) :
  h <> HARDENING_NONE -> metl_assert h false s = Trap.
Proof. by destruct h. Qed.

(** A counting loop satisfies an invariant that each iteration carries on. *)
Lemma for_up_inv {S} (I : Z -> S -> Prop) (body : Z -> M S unit) (n : nat) from s :
  I from s ->
  (forall i s, from <= i < from + Z.of_nat n -> I i s ->
    exists s', body i s = Ret tt s' /\ I (i + 1) s') ->
  exists s', for_up n from body s = Ret tt s' /\ I (from + Z.of_nat n) s'.
Proof.
  revert from s. induction n as [|n IH]; intros from s HI Hb.
  { exists s. rewrite Z.add_0_r. done. }
  destruct (Hb from s) as (s1 & E1 & H1); [lia|done|].
  destruct (IH (from + 1) s1 H1) as (s2 & E2 & H2).
  { intros i s0 Hi. apply Hb. lia. }
  exists s2. cbn [for_up]. rewrite (bind_Ret _ _ _ _ _ E1). split; [done|].
  by replace (from + Z.of_nat (Datatypes.S n)) with (from + 1 + Z.of_nat n) by lia.
Qed.

Lemma for_down_inv {S} (I : Z -> S -> Prop) (body : Z -> M S unit) (n : nat) from s :
  I from s ->
  (forall i s, from - Z.of_nat n < i <= from -> I i s ->
    exists s', body i s = Ret tt s' /\ I (i - 1) s') ->
  exists s', for_down n from body s = Ret tt s' /\ I (from - Z.of_nat n) s'.
Proof.
  revert from s. induction n as [|n IH]; intros from s HI Hb.
  { exists s. rewrite Z.sub_0_r. done. }
  destruct (Hb from s) as (s1 & E1 & H1); [lia|done|].
  destruct (IH (from - 1) s1 H1) as (s2 & E2 & H2).
  { intros i s0 Hi. apply Hb. lia. }
  exists s2. cbn [for_down]. rewrite (bind_Ret _ _ _ _ _ E1). split; [done|].
  by replace (from - Z.of_nat (Datatypes.S n)) with (from - 1 - Z.of_nat n) by lia.
Qed.

(** A while loop whose body decreases a measure ends, with the invariant and
    the negation of its condition, given at least that much fuel. *)
Lemma while_loop_inv {S} (I : S -> Prop) (mu : S -> nat) cond body fuel (s : S) :
  I s -> (mu s <= fuel)%nat ->
  (forall s, I s -> cond s = true ->
    exists s', body s = Ret tt s' /\ I s' /\ (mu s' < mu s)%nat) ->
  exists s', while_loop fuel cond body s = Ret tt s' /\ I s' /\ cond s' = false.
Proof.
  revert s. induction fuel as [|fuel IH]; intros s HI Hf Hb; cbn [while_loop];
    destruct (cond s) eqn:Hc; [ | by eauto | | by eauto].
  - destruct (Hb s HI Hc) as (s' & _ & _ & Hmu). lia.
  - destruct (Hb s HI Hc) as (s' & E & HI' & Hmu).
    rewrite (bind_Ret _ _ _ _ _ E). apply IH; [done|lia|done].
Qed.

(** *** Outcomes of computations that may throw

    [m] ends, from [s], with a value and state that satisfy [Q] or with an
    exception and a state that satisfies [E]; it does not trap, fault or spin. *)
Definition wp {S A} (m : M S A) (Q : A -> S -> Prop) (E : S -> Prop) (s : S) : Prop :=
  match m s with
  | Ret a s' => Q a s'
  | Throw s' => E s'
  | _ => False
  end.

Section wp_rules.
  Context {S A B : Type}.
  Implicit Types (E : S -> Prop) (s : S).

Lemma wp_Ret (m : M S A) (Q : A -> S -> Prop) E s a s' : m s = Ret a s' -> Q a s' -> wp m Q E s.
Proof. by unfold wp; intros ->. Qed.

Lemma wp_bind (m : M S A) (k : A -> M S B) (Q : B -> S -> Prop) E s :
  wp m (fun a => wp (k a) Q E) E s -> wp (bind m k) Q E s.
Proof. unfold wp, bind. by destruct (m s). Qed.

Lemma wp_bind_Ret (m : M S A) (k : A -> M S B) (Q : B -> S -> Prop) E s a s' :
  m s = Ret a s' -> wp (k a) Q E s' -> wp (bind m k) Q E s.
Proof. intros Em Hk. unfold wp. by rewrite (bind_Ret _ _ _ _ _ Em). Qed.

Lemma wp_mono (m : M S A) (Q Q' : A -> S -> Prop) E E' s :
  wp m Q E s -> (forall a s, Q a s -> Q' a s) -> (forall s, E s -> E' s) -> wp m Q' E' s.
Proof. unfold wp. destruct (m s); naive_solver. Qed.

Lemma wp_catching (m : M S A) handler (Q : A -> S -> Prop) E s :
  wp m Q (wp handler (fun _ => E) E) s -> wp (catching m handler) Q E s.
Proof.
  unfold wp, catching, bind, throw. destruct (m s) as [|s'| | |]; try done. by destruct (handler s').
Qed.

Lemma wp_guarded (m : M S A) undo (Q : A -> S -> Prop) E s :
  wp m Q (fun s' => exists s'', undo s' = Ret tt s'' /\ E s'') s -> wp (guarded m undo) Q E s.
Proof.
  unfold wp, guarded. destruct (m s) as [| s' | | |]; try done. by intros (s'' & -> & ?).
Qed.
End wp_rules.

Lemma wp_on_fst {S S' A} (m : M S A) (Q : A -> S * S' -> Prop) E s s' :
  wp m (fun a s1 => Q a (s1, s')) (fun s1 => E (s1, s')) s -> wp (on_fst m) Q E (s, s').
Proof. unfold wp, on_fst. cbn. by destruct (m s). Qed.

Lemma wp_on_snd {S S' A} (m : M S' A) (Q : A -> S * S' -> Prop) E s s' :
  wp m (fun a s1 => Q a (s, s1)) (fun s1 => E (s, s1)) s' -> wp (on_snd m) Q E (s, s').
Proof. unfold wp, on_snd. cbn. by destruct (m s'). Qed.

Lemma wp_swapped {S A} (m : M (S * S) A) (Q : A -> S * S -> Prop) E s s' :
  wp m (fun a p => Q a (p.2, p.1)) (fun p => E (p.2, p.1)) (s', s) -> wp (swapped m) Q E (s, s').
Proof. unfold wp, swapped. cbn. by destruct (m (s', s)). Qed.

Lemma wp_no_throw {S A} (m : M S A) Q E s :
  wp m Q E s -> (forall s, ~ E s) -> exists a s', m s = Ret a s' /\ Q a s'.
Proof. unfold wp. intros Hw HE. destruct (m s) as [a s'|s'| | |]; try done; [by exists a, s'|by destruct (HE s')]. Qed.

Lemma wp_for_up {S} (I : Z -> S -> Prop) E (body : Z -> M S unit) (n : nat) from s :
  I from s ->
  (forall i s, from <= i < from + Z.of_nat n -> I i s -> wp (body i) (fun _ => I (i + 1)) E s) ->
  wp (for_up n from body) (fun _ => I (from + Z.of_nat n)) E s.
Proof.
  revert from s. induction n as [|n IH]; intros from s HI Hb; cbn [for_up].
  { by rewrite Z.add_0_r. }
  apply wp_bind. eapply wp_mono; [apply Hb; [lia|done]| |done]. cbn. intros _ s' HI'.
  replace (from + Z.of_nat (Datatypes.S n)) with (from + 1 + Z.of_nat n) by lia.
  apply IH; [done|]. intros i s0 Hi. apply Hb. lia.
Qed.

Lemma wp_for_down {S} (I : Z -> S -> Prop) E (body : Z -> M S unit) (n : nat) from s :
  I from s ->
  (forall i s, from - Z.of_nat n < i <= from -> I i s -> wp (body i) (fun _ => I (i - 1)) E s) ->
  wp (for_down n from body) (fun _ => I (from - Z.of_nat n)) E s.
Proof.
  revert from s. induction n as [|n IH]; intros from s HI Hb; cbn [for_down].
  { by rewrite Z.sub_0_r. }
  apply wp_bind. eapply wp_mono; [apply Hb; [lia|done]| |done]. cbn. intros _ s' HI'.
  replace (from - Z.of_nat (Datatypes.S n)) with (from - 1 - Z.of_nat n) by lia.
  apply IH; [done|]. intros i s0 Hi. apply Hb. lia.
Qed.

(** *** Scripts of exceptions *)

(** A step may throw later only if it might have thrown before. *)
Definition later (t t' : list bool) : Prop := true ∈ t' -> true ∈ t.

Lemma later_refl t : later t t.
Proof. by intros ?. Qed.

Lemma later_trans t t' t'' : later t t' -> later t' t'' -> later t t''.
Proof. unfold later. auto. Qed.

(** *** Arithmetic *)

Section size_t_lemmas.
  Context `{SizeT}.

Lemma size_modulus_pos : 0 < 2 ^ size_bits.
Proof. apply Z.pow_pos_nonneg; pose proof size_bits_min; lia. Qed.

Lemma wrap_small z : 0 <= z < 2 ^ size_bits -> wrap z = z.
Proof. apply Z.mod_small. Qed.

Lemma wrap_range z : 0 <= wrap z < 2 ^ size_bits.
Proof. apply Z.mod_pos_bound, size_modulus_pos. Qed.

Lemma size_modulus_double : 2 ^ size_bits = 2 * 2 ^ (size_bits - 1).
Proof.
  pose proof size_bits_min. rewrite <- Z.pow_succ_r by lia. f_equal; lia.
Qed.

Lemma capacity_bounds C `{!CapacityOk C} : 0 <= C /\ 2 * C < 2 ^ size_bits.
Proof. rewrite size_modulus_double. destruct CapacityOk0. lia. Qed.
End size_t_lemmas.

(** A positive [x] with [x & (x - 1) == 0] is a power of two. *)
Lemma land_pred_pow2 x :
  0 < x -> Z.land x (x - 1) = 0 -> exists k, 0 <= k /\ x = 2 ^ k.
Proof.
  intros Hx Hl. exists (Z.log2 x). pose proof (Z.log2_nonneg x). split; [done|].
  destruct (Z.log2_spec x Hx) as [Hlo Hhi].
  rewrite Z.pow_succ_r in Hhi by done.
  destruct (decide (x = 2 ^ Z.log2 x)) as [|Hne]; [done|exfalso].
  assert (Z.testbit (Z.land x (x - 1)) (Z.log2 x) = true) as Hb; [|by rewrite Hl, Z.bits_0 in Hb].
  rewrite Z.land_spec, Z.bit_log2 by done.
  replace (Z.log2 x) with (Z.log2 (x - 1)) at 1; [by apply Z.bit_log2; lia|].
  apply Z.log2_unique; [done|]. rewrite Z.pow_succ_r by done. lia.
Qed.

Lemma land_pow2_mask x c :
  0 < c -> Z.land c (c - 1) = 0 -> Z.land x (c - 1) = x mod c.
Proof.
  intros Hc Hp. destruct (land_pred_pow2 c Hc Hp) as (k & Hk & ->).
  rewrite Z.sub_1_r, <- Z.ones_equiv. by apply Z.land_ones.
Qed.

Lemma land_pow2_testbit v n : 0 <= n -> (Z.land v (2 ^ n) =? 0) = negb (Z.testbit v n).
Proof.
  intros Hn. destruct (Z.testbit v n) eqn:E; cbn [negb].
  - apply Z.eqb_neq. intros E0. assert (Z.testbit (Z.land v (2 ^ n)) n = false) as Hf by (by rewrite E0, Z.bits_0).
    by rewrite Z.land_spec, E, Z.pow2_bits_true in Hf.
  - apply Z.eqb_eq. apply Z.bits_inj'. intros i Hi. rewrite Z.land_spec, Z.bits_0.
    destruct (decide (i = n)) as [->|Hne]; [by rewrite E|]. by rewrite Z.pow2_bits_false, andb_false_r by congruence.
Qed.

(** *** Slots *)

Section slot_lemmas.
  Context {T : Type}.
  Implicit Types (st : slots T) (i j : Z).

Lemma slot_lookup_nonneg st i : 0 <= i -> slot_lookup st i = st !! Z.to_nat i.
Proof. unfold slot_lookup. intros. by rewrite (proj2 (Z.ltb_ge _ _)). Qed.

Lemma slot_lookup_of_nat st n : slot_lookup st (Z.of_nat n) = st !! n.
Proof. rewrite slot_lookup_nonneg, Nat2Z.id by lia. done. Qed.

Lemma slot_lookup_Some_range st i x :
  slot_lookup st i = Some x -> 0 <= i < Z.of_nat (length st).
Proof.
  unfold slot_lookup. destruct (Z.ltb_spec i 0); [done|].
  intros ?%lookup_lt_Some. lia.
Qed.

Lemma slot_lookup_set_eq st i x :
  0 <= i < Z.of_nat (length st) -> slot_lookup (slot_set st i x) i = Some x.
Proof.
  intros. unfold slot_set. rewrite slot_lookup_nonneg by lia.
  apply list_lookup_insert_eq. lia.
Qed.

Lemma slot_lookup_set_ne st i j x :
  0 <= i -> i <> j -> slot_lookup (slot_set st i x) j = slot_lookup st j.
Proof.
  intros. unfold slot_lookup, slot_set. destruct (Z.ltb_spec j 0); [done|].
  apply list_lookup_insert_ne. lia.
Qed.

Lemma length_slot_set st i x : length (slot_set st i x) = length st.
Proof. apply length_insert. Qed.
End slot_lemmas.

#[export] Hint Rewrite @length_slot_set @get_set_slots : metl_slots.

Section slot_operation_lemmas.
  Context {S T : Type} `{HasSlots S T}.

Lemma slot_ref_live i v (s : S) :
  slot_lookup (get_slots s) i = Some (Some v) -> slot_ref i s = Ret v s.
Proof. by unfold slot_ref; intros ->. Qed.

Lemma slot_construct_dead i v (s : S) :
  slot_lookup (get_slots s) i = Some None ->
  slot_construct i v s = Ret tt (set_slots (slot_set (get_slots s) i (Some v)) s).
Proof. by unfold slot_construct; intros ->. Qed.

Lemma slot_destroy_live i v (s : S) :
  slot_lookup (get_slots s) i = Some (Some v) ->
  slot_destroy i s = Ret tt (set_slots (slot_set (get_slots s) i None) s).
Proof. by unfold slot_destroy; intros ->. Qed.

Lemma slot_assign_live i v w (s : S) :
  slot_lookup (get_slots s) i = Some (Some w) ->
  slot_assign i v s = Ret tt (set_slots (slot_set (get_slots s) i (Some v)) s).
Proof. by unfold slot_assign; intros ->. Qed.

Lemma slot_move_out_live moved i v (s : S) :
  slot_lookup (get_slots s) i = Some (Some v) ->
  slot_move_out moved i s = Ret v (set_slots (slot_set (get_slots s) i (Some (moved v))) s).
Proof. by unfold slot_move_out; intros ->. Qed.
End slot_operation_lemmas.

#[export] Hint Resolve slot_ref_live slot_construct_dead slot_destroy_live
  slot_assign_live slot_move_out_live : metl.

(** *** Lists worked through from the front *)

Section list_lemmas.
  Context {A : Type}.
  Implicit Types (a b : list A).

Lemma take_drop_lookup a b i :
  (i <= length a)%nat -> (take i a ++ drop i b) !! i = b !! i.
Proof.
  intros. rewrite lookup_app_r by (rewrite length_take; lia).
  rewrite length_take, lookup_drop. f_equal. lia.
Qed.

Lemma take_drop_insert a b i x y :
  a !! i = Some x -> b !! i = Some y ->
  <[i := x]> (take i a ++ drop i b) = take (S i) a ++ drop (S i) b.
Proof.
  intros Ha Hb. pose proof (lookup_lt_Some _ _ _ Ha).
  rewrite (drop_S b y i Hb), insert_app_r_alt by (rewrite length_take; lia).
  rewrite length_take, Nat.min_l, Nat.sub_diag by lia. cbn.
  rewrite (take_S_r a i x Ha), <- app_assoc. done.
Qed.

Lemma insert_middle_at a b n x y :
  n = length a -> <[n := y]> (a ++ x :: b) = a ++ y :: b.
Proof. intros ->. by rewrite insert_app_r_alt, Nat.sub_diag by done. Qed.

(** An element further on changes, then the one in front of it. *)
Lemma insert_two_ends a b c m n x y u v :
  m = length a -> n = (length a + S (length b))%nat ->
  <[m := u]> (<[n := v]> (a ++ x :: b ++ y :: c)) = a ++ u :: b ++ v :: c.
Proof.
  intros Hm Hn. replace (a ++ x :: b ++ y :: c) with ((a ++ x :: b) ++ y :: c) by (by rewrite <- app_assoc).
  rewrite (insert_middle_at (a ++ x :: b) c n y v) by (rewrite length_app; done).
  rewrite <- app_assoc. by apply insert_middle_at.
Qed.
End list_lemmas.

(** Runs the first statement of a block, given how it ends. *)
Ltac mstep :=
  match goal with
  | |- context [bind (bind _ _) _ _] => rewrite bind_assoc
  | H : ?m ?s = Ret _ _ |- context [bind ?m _ ?s] => rewrite (bind_Ret _ _ _ _ _ H)
  | |- context [bind (get _) _ ?s] => rewrite (bind_Ret (get _) _ s _ _ eq_refl)
  | |- context [bind (modify _) _ ?s] => rewrite (bind_Ret (modify _) _ s _ _ eq_refl)
  | |- context [bind (ret _) _ ?s] => rewrite (bind_Ret (ret _) _ s _ _ eq_refl)
  | |- context [bind (metl_assert _ true) _ ?s] =>
      rewrite (bind_Ret _ _ s _ _ (metl_assert_true _ s))
  | |- context [bind (metl_assert HARDENING_NONE _) _ ?s] =>
      rewrite (bind_Ret (metl_assert HARDENING_NONE _) _ s _ _ eq_refl)
  | |- context [bind (metl_harden true) _ ?s] =>
      rewrite (bind_Ret (metl_harden true) _ s _ _ eq_refl)
  end; cbv beta; cbn [ret get modify].

(** Decides the boolean comparisons of [Z] in the goal that [lia] settles. *)
Ltac zbool :=
  repeat match goal with
  | |- context [?a <? ?b] => first
      [ rewrite (proj2 (Z.ltb_lt a b)) by lia | rewrite (proj2 (Z.ltb_ge a b)) by lia ]
  | |- context [?a <=? ?b] => first
      [ rewrite (proj2 (Z.leb_le a b)) by lia | rewrite (proj2 (Z.leb_gt a b)) by lia ]
  | |- context [?a =? ?b] => first
      [ rewrite (proj2 (Z.eqb_eq a b)) by lia | rewrite (proj2 (Z.eqb_neq a b)) by lia ]
  | |- context [wrap ?z] => rewrite (wrap_small z) by lia
  end.
