(* ===== verification/Ring.v ===== *)
(** * The ring: [detail::ring_core], and the containers built on it

    [include/metl/detail/ring_core.hpp], [ring_buffer.hpp], [fixed_deque.hpp]
    and [fixed_queue.hpp].  A ring is a slot array with [head_] and [size_];
    a reference result is the physical slot it names.  An element constructor
    is a computation on the ring: it may return the new value, throw, or call
    back into the ring before doing either. *)

From Stdlib Require Import ZArith Lia.
From stdpp Require Import base numbers list option tactics.
From S2P Require Import Prelude.
Local Open Scope Z_scope.

Record ring (T : Type) : Type := mk_ring {
  storage_ : slots T;
  head_ : Z;
  size_ : Z
}.
Arguments mk_ring {T} _ _ _.
Arguments storage_ {T} _.
Arguments head_ {T} _.
Arguments size_ {T} _.

#[export] Instance ring_has_slots T : HasSlots (ring T) T := {|
  get_slots := storage_;
  set_slots st r := mk_ring st (head_ r) (size_ r);
  get_set_slots st r := eq_refl
|}.

Definition set_head {T} (x : Z) (r : ring T) : ring T := mk_ring (storage_ r) x (size_ r).
Definition set_size {T} (n : Z) (r : ring T) : ring T := mk_ring (storage_ r) (head_ r) n.

Module RingCore.
Section ring_core.
  Context `{SizeT} {T : Type} (h : hardening) (Capacity : Z) (moved : T -> T).

  (** [ring_core()]. *)
Definition ring_core : ring T :=
  mk_ring (replicate (Z.to_nat (if Capacity =? 0 then 1 else Capacity)) None) 0 0.

Definition power_of_two_capacity : bool :=
  negb (Capacity =? 0) && (Z.land Capacity (Capacity - 1) =? 0).

Definition advance (index : Z) : Z :=
  if Capacity =? 0 then 0
  else if power_of_two_capacity then Z.land (wrap (index + 1)) (Capacity - 1)
  else if wrap (index + 1) =? Capacity then 0 else wrap (index + 1).

Definition retreat (index : Z) : Z :=
  if Capacity =? 0 then 0
  else if index =? 0 then Capacity - 1 else wrap (index - 1).

Definition physical_index (r : ring T) (logical_index : Z) : Z :=
  if Capacity =? 0 then 0
  else if power_of_two_capacity then
    Z.land (wrap (head_ r + logical_index)) (Capacity - 1)
  else
    let sum := wrap (head_ r + logical_index) in
    if Capacity <=? sum then wrap (sum - Capacity) else sum.

Definition storage_at (index : Z) : M (ring T) Z :=
  slot_ref index ;;; ret index.

Definition front : M (ring T) Z :=
  let! n := get size_ in
  metl_assert h (0 <? n) ;;;
  let! hd := get head_ in
  storage_at hd.

Definition back : M (ring T) Z :=
  let! n := get size_ in
  metl_assert h (0 <? n) ;;;
  let! p := get (fun r => physical_index r (wrap (n - 1))) in
  storage_at p.

Definition at_ (index : Z) : M (ring T) Z :=
  let! n := get size_ in
  metl_assert h (index <? n) ;;;
  let! p := get (fun r => physical_index r index) in
  storage_at p.

Definition try_emplace_back (ctor : M (ring T) T) : M (ring T) bool :=
  let! n := get size_ in
  if n =? Capacity then ret false
  else
    modify (fun r => set_size (wrap (size_ r + 1)) r) ;;;
    let! claimed := get size_ in
    let! slot := get (fun r => physical_index r (wrap (claimed - 1))) in
    guarded (let! v := ctor in slot_construct slot v)
      (let! n' := get size_ in
       metl_harden (n' =? claimed) ;;;
       modify (fun r => set_size (wrap (size_ r - 1)) r)) ;;;
    ret true.

Definition emplace_back (ctor : M (ring T) T) : M (ring T) Z :=
  let! slot := get (fun r => physical_index r (size_ r)) in
  let! inserted := try_emplace_back ctor in
  metl_assert h inserted ;;;
  if negb inserted then
    let! n := get size_ in
    metl_harden (0 <? n) ;;;
    back
  else storage_at slot.

Definition try_push_back (value : T) : M (ring T) bool := try_emplace_back (ret value).
Definition push_back (value : T) : M (ring T) Z := emplace_back (ret value).

Definition pop_front : M (ring T) unit :=
  let! n := get size_ in
  metl_harden (0 <? n) ;;;
  let! hd := get head_ in
  let! leaving := storage_at hd in
  modify (fun r => set_head (advance (head_ r)) r) ;;;
  modify (fun r => set_size (wrap (size_ r - 1)) r) ;;;
  slot_destroy leaving.

  (** Each turn removes one element, so [size_] turns are enough. *)
Definition clear : M (ring T) unit := fun r =>
  while_loop (Z.to_nat (size_ r)) (fun r => negb (size_ r =? 0)) pop_front r.

  (** The copy loop of the copy constructor and of copy assignment: the state
      holds [*this] and [other]. *)
Definition append_copies : M (ring T * ring T) unit :=
  let! n := on_snd (get size_) in
  for_up (Z.to_nat n) 0 (fun i =>
    let! p := on_snd (at_ i) in
    let! v := on_snd (slot_ref p) in
    on_fst (emplace_back (ret v)) ;;; ret tt).

  (** The move loop: each element of [other] is moved from, then all go. *)
Definition append_moves : M (ring T * ring T) unit :=
  let! n := on_snd (get size_) in
  for_up (Z.to_nat n) 0 (fun i =>
    let! p := on_snd (at_ i) in
    let! v := on_snd (slot_move_out moved p) in
    on_fst (emplace_back (ret v)) ;;; ret tt) ;;;
  on_snd clear.

Definition copy_construct (other : ring T) : outcome (ring T * ring T) unit :=
  append_copies (ring_core, other).
Definition move_construct (other : ring T) : outcome (ring T * ring T) unit :=
  append_moves (ring_core, other).

  (** [operator=]: [self] tells whether [this == &other]. *)
Definition copy_assign (self : bool) : M (ring T * ring T) unit :=
  if self then ret tt else on_fst clear ;;; append_copies.
Definition move_assign (self : bool) : M (ring T * ring T) unit :=
  if self then ret tt else on_fst clear ;;; append_moves.

  (** [std::swap(at(i), other.at(i))]. *)
Definition swap_elements (p q : Z) : M (ring T * ring T) unit :=
  let! x := on_fst (slot_move_out moved p) in
  let! y := on_snd (slot_move_out moved q) in
  on_fst (slot_assign p y) ;;; on_snd (slot_assign q x).

  (** The tail of [swap_core]: the elements from [common] on move from the
      longer ring, second in the state, to the shorter one, first. *)
Definition move_tail (common : Z) : M (ring T * ring T) unit :=
  let! n := on_snd (get size_) in
  for_up (Z.to_nat (n - common)) common (fun i =>
    let! p := on_snd (at_ i) in
    let! v := on_snd (slot_move_out moved p) in
    on_fst (emplace_back (ret v)) ;;; ret tt) ;;;
  fun s =>
    while_loop (Z.to_nat (size_ s.2 - common)) (fun s => common <? size_ s.2)
      (on_snd (
        modify (fun r => set_size (wrap (size_ r - 1)) r) ;;;
        let! p := get (fun r => physical_index r (size_ r)) in
        slot_destroy p)) s.

Definition swap_core (self : bool) : M (ring T * ring T) unit :=
  if self then ret tt
  else
    let! n1 := on_fst (get size_) in
    let! n2 := on_snd (get size_) in
    let common := if n1 <? n2 then n1 else n2 in
    for_up (Z.to_nat common) 0 (fun i =>
      let! p := on_fst (at_ i) in
      let! q := on_snd (at_ i) in
      swap_elements p q) ;;;
    if n1 =? n2 then ret tt
    else if n1 <? n2 then move_tail common
    else swapped (move_tail common).
End ring_core.
End RingCore.

Module RingBuffer.
Import RingCore.
Section ring_buffer.
  Context `{SizeT} {T : Type} (h : hardening) (Capacity : Z) (moved : T -> T).

Definition empty (r : ring T) : bool := size_ r =? 0.
Definition full (r : ring T) : bool := size_ r =? Capacity.
Definition size (r : ring T) : Z := size_ r.

  (** [movable] is [std::is_move_constructible_v<T>]; [Capacity > 0] is a
      [static_assert]. *)
Definition push_overwrite (movable : bool) (ctor : M (ring T) T) : M (ring T) Z :=
  let! f := get full in
  if f then
    if movable then
      let! value := ctor in
      pop_front Capacity ;;;
      emplace_back h Capacity (ret value)
    else
      pop_front Capacity ;;;
      emplace_back h Capacity ctor
  else emplace_back h Capacity ctor.

Definition swap (self : bool) : M (ring T * ring T) unit := swap_core h Capacity moved self.
End ring_buffer.
End RingBuffer.

Module FixedDeque.
Import RingCore.
Section fixed_deque.
  Context `{SizeT} {T : Type} (h : hardening) (Capacity : Z) (moved : T -> T).

Definition empty (r : ring T) : bool := size_ r =? 0.
Definition full (r : ring T) : bool := size_ r =? Capacity.
Definition size (r : ring T) : Z := size_ r.

Definition try_emplace_front (ctor : M (ring T) T) : M (ring T) bool :=
  let! f := get full in
  if f then ret false
  else
    let! previous_head := get head_ in
    let! slot := get (fun r => retreat Capacity (head_ r)) in
    modify (set_head slot) ;;;
    modify (fun r => set_size (wrap (size_ r + 1)) r) ;;;
    let! claimed := get size_ in
    guarded (let! v := ctor in slot_construct slot v)
      (let! ok := get (fun r => (head_ r =? slot) && (size_ r =? claimed)) in
       metl_harden ok ;;;
       modify (set_head previous_head) ;;;
       modify (fun r => set_size (wrap (size_ r - 1)) r)) ;;;
    ret true.

Definition emplace_front (ctor : M (ring T) T) : M (ring T) Z :=
  let! slot := get (fun r => retreat Capacity (head_ r)) in
  let! inserted := try_emplace_front ctor in
  metl_assert h inserted ;;;
  if negb inserted then
    let! n := get size_ in
    metl_harden (0 <? n) ;;;
    front h
  else storage_at slot.

Definition try_push_front (value : T) : M (ring T) bool := try_emplace_front (ret value).
Definition push_front (value : T) : M (ring T) Z := emplace_front (ret value).

Definition pop_back : M (ring T) unit :=
  let! n := get size_ in
  metl_harden (0 <? n) ;;;
  modify (fun r => set_size (wrap (size_ r - 1)) r) ;;;
  let! p := get (fun r => physical_index Capacity r (size_ r)) in
  let! leaving := storage_at p in
  slot_destroy leaving.

Definition swap (self : bool) : M (ring T * ring T) unit := swap_core h Capacity moved self.
End fixed_deque.
End FixedDeque.

(** [fixed_queue] holds one [ring_buffer] and forwards to it. *)
Module FixedQueue.
Section fixed_queue.
  Context `{SizeT} {T : Type} (h : hardening) (Capacity : Z) (moved : T -> T).

Definition empty (q : ring T) : bool := RingBuffer.empty q.
Definition full (q : ring T) : bool := RingBuffer.full Capacity q.
Definition size (q : ring T) : Z := RingBuffer.size q.
Definition front : M (ring T) Z := RingCore.front h.
Definition back : M (ring T) Z := RingCore.back h Capacity.
Definition try_emplace (ctor : M (ring T) T) : M (ring T) bool :=
  RingCore.try_emplace_back Capacity ctor.
Definition emplace (ctor : M (ring T) T) : M (ring T) Z := RingCore.emplace_back h Capacity ctor.
Definition try_push (value : T) : M (ring T) bool := RingCore.try_push_back Capacity value.
Definition push (value : T) : M (ring T) Z := RingCore.emplace_back h Capacity (ret value).
Definition pop : M (ring T) unit := RingCore.pop_front Capacity.
Definition clear : M (ring T) unit := RingCore.clear Capacity.
Definition swap (self : bool) : M (ring T * ring T) unit := RingBuffer.swap h Capacity moved self.
End fixed_queue.
End FixedQueue.
