(* ===== verification/RingFacts.v ===== *)
(** * The ring: representation and correctness *)

From Stdlib Require Import ZArith Lia.
From stdpp Require Import base numbers list option tactics.
From S2P Require Import Prelude Ring.
Local Open Scope Z_scope.

(** A sequence of elements, none of them only claimed. *)
Abbreviation live vs := (fmap (M:=list) Some vs).

Section ring_facts.
  Context `{SizeT} {T : Type} (h : hardening) (C : Z) (moved : T -> T) `{!CapacityOk C}.
  Implicit Types (r : ring T) (l k : list (option T)).

  (** The slot [j] places after [hd], going round. *)
Definition ring_slot (hd j : Z) : Z := if C <=? hd + j then hd + j - C else hd + j.

  (** What a list of live and claimed elements holds at position [j]; [None]
      both for a claimed slot and past the end. *)
Definition at_pos l (j : Z) : option T := mjoin (l !! Z.to_nat j).

  (** The ring [r] holds the sequence [l], front first: [Some v] is an element,
      [None] a slot that has been claimed and not yet constructed.  Every slot
      outside the sequence holds no object. *)
Record repr r l : Prop := {
  repr_len : length (storage_ r) = Z.to_nat (if C =? 0 then 1 else C);
  repr_size : size_ r = Z.of_nat (length l);
  repr_cap : Z.of_nat (length l) <= C;
  repr_head : 0 <= head_ r /\ (head_ r < C \/ head_ r = 0 /\ C = 0);
  repr_slots : forall j, 0 <= j < C ->
    slot_lookup (storage_ r) (ring_slot (head_ r) j) = Some (at_pos l j)
}.

Ltac ring_lia := pose proof (capacity_bounds C); lia.

Lemma ring_slot_range hd j : 0 <= hd < C -> 0 <= j <= C -> 0 <= ring_slot hd j < C.
Proof. unfold ring_slot. destruct (Z.leb_spec C (hd + j)); lia. Qed.

Lemma ring_slot_inj hd i j :
  0 <= hd < C -> 0 <= i < C -> 0 <= j < C -> ring_slot hd i = ring_slot hd j -> i = j.
Proof.
  unfold ring_slot. destruct (Z.leb_spec C (hd + i)), (Z.leb_spec C (hd + j)); lia.
Qed.

Lemma ring_slot_mod hd j : 0 <= hd < C -> 0 <= j <= C -> ring_slot hd j = (hd + j) mod C.
Proof.
  intros. unfold ring_slot. destruct (Z.leb_spec C (hd + j)).
  - apply (Z.mod_unique _ _ 1); lia.
  - symmetry. apply Z.mod_small. lia.
Qed.

Lemma power_of_two_capacity_spec :
  RingCore.power_of_two_capacity C = true -> 0 < C /\ Z.land C (C - 1) = 0.
Proof.
  unfold RingCore.power_of_two_capacity. intros [?%negb_true_iff ?]%andb_true_iff.
  ring_lia.
Qed.

(** The three index helpers agree with arithmetic modulo the capacity. *)
Lemma physical_index_spec r i :
  0 <= head_ r < C -> 0 <= i <= C ->
  RingCore.physical_index C r i = ring_slot (head_ r) i.
Proof.
  intros. pose proof (capacity_bounds C). unfold RingCore.physical_index.
  destruct (RingCore.power_of_two_capacity C) eqn:E; zbool.
  - destruct (power_of_two_capacity_spec E) as [? Hp].
    rewrite land_pow2_mask by done. symmetry. by apply ring_slot_mod.
  - unfold ring_slot. destruct (Z.leb_spec C (head_ r + i)); zbool; done.
Qed.

Lemma advance_spec i : 0 <= i < C -> RingCore.advance C i = ring_slot i 1.
Proof.
  intros. pose proof (capacity_bounds C). unfold RingCore.advance.
  destruct (RingCore.power_of_two_capacity C) eqn:E; zbool.
  - destruct (power_of_two_capacity_spec E) as [? Hp].
    rewrite land_pow2_mask by done. symmetry. apply ring_slot_mod; lia.
  - unfold ring_slot. destruct (Z.leb_spec C (i + 1)); zbool; lia.
Qed.

Lemma retreat_spec i : 0 <= i < C -> RingCore.retreat C i = ring_slot i (C - 1).
Proof.
  intros. pose proof (capacity_bounds C). unfold RingCore.retreat, ring_slot.
  destruct (Z.eqb_spec i 0), (Z.leb_spec C (i + (C - 1))); zbool; lia.
Qed.

Lemma ring_slot_next hd j :
  0 <= hd < C -> 0 <= j < C - 1 -> ring_slot (ring_slot hd 1) j = ring_slot hd (j + 1).
Proof.
  intros. unfold ring_slot. destruct (Z.leb_spec C (hd + 1));
    [destruct (Z.leb_spec C (hd + 1 - C + j))|destruct (Z.leb_spec C (hd + 1 + j))];
    destruct (Z.leb_spec C (hd + (j + 1))); lia.
Qed.

Lemma ring_slot_next_last hd :
  0 <= hd < C -> ring_slot (ring_slot hd 1) (C - 1) = hd.
Proof.
  intros. unfold ring_slot. destruct (Z.leb_spec C (hd + 1));
    [destruct (Z.leb_spec C (hd + 1 - C + (C - 1)))|destruct (Z.leb_spec C (hd + 1 + (C - 1)))];
    lia.
Qed.

Lemma ring_slot_prev hd j :
  0 <= hd < C -> 0 <= j < C - 1 -> ring_slot (ring_slot hd (C - 1)) (j + 1) = ring_slot hd j.
Proof.
  intros. unfold ring_slot. destruct (Z.leb_spec C (hd + (C - 1)));
    [destruct (Z.leb_spec C (hd + (C - 1) - C + (j + 1)))
    |destruct (Z.leb_spec C (hd + (C - 1) + (j + 1)))];
    destruct (Z.leb_spec C (hd + j)); lia.
Qed.

Lemma ring_slot_0 hd : 0 <= hd < C -> ring_slot hd 0 = hd.
Proof. intros. unfold ring_slot. destruct (Z.leb_spec C (hd + 0)); lia. Qed.

(** *** Positions of a sequence *)

Lemma at_pos_app_l l k j : 0 <= j < Z.of_nat (length l) -> at_pos (l ++ k) j = at_pos l j.
Proof. intros. unfold at_pos. by rewrite lookup_app_l by lia. Qed.

Lemma at_pos_app_r l k j :
  Z.of_nat (length l) <= j -> at_pos (l ++ k) j = at_pos k (j - Z.of_nat (length l)).
Proof. intros. unfold at_pos. rewrite lookup_app_r by lia. do 2 f_equal. lia. Qed.

Lemma at_pos_cons_0 x l : at_pos (x :: l) 0 = x.
Proof. done. Qed.

Lemma at_pos_cons x l j : 0 < j -> at_pos (x :: l) j = at_pos l (j - 1).
Proof.
  intros. unfold at_pos. replace (Z.to_nat j) with (S (Z.to_nat (j - 1))) by lia. done.
Qed.

Lemma at_pos_nil j : at_pos [] j = None.
Proof. done. Qed.

Lemma at_pos_past l j : Z.of_nat (length l) <= j -> at_pos l j = None.
Proof. intros. unfold at_pos. by rewrite lookup_ge_None_2 by lia. Qed.

Lemma at_pos_Some l j v : at_pos l j = Some v -> l !! Z.to_nat j = Some (Some v).
Proof. unfold at_pos. by destruct (l !! Z.to_nat j) as [[]|]; cbn; intros; simplify_eq. Qed.

(** *** The representation under the ring's primitive updates *)

Lemma repr_nonempty r l : repr r l -> l <> [] -> 0 <= head_ r < C.
Proof.
  intros R Hl. pose proof (repr_cap _ _ R).
  destruct l; [done|]. destruct (repr_head _ _ R) as [? []]; cbn in *; ring_lia.
Qed.

Lemma repr_room r l : repr r l -> Z.of_nat (length l) < C -> 0 <= head_ r < C.
Proof. intros R ?. destruct (repr_head _ _ R) as [? [|]]; lia. Qed.

Lemma repr_storage_range r l j :
  repr r l -> 0 <= head_ r < C -> 0 <= j < C ->
  0 <= ring_slot (head_ r) j < Z.of_nat (length (storage_ r)).
Proof.
  intros R Hh Hj. pose proof (ring_slot_range (head_ r) j Hh).
  rewrite (repr_len _ _ R). destruct (Z.eqb_spec C 0); lia.
Qed.

(** One slot [j] of the sequence changes, and perhaps the length. *)
Lemma repr_set_slot r l l' j x :
  repr r l -> 0 <= head_ r < C -> 0 <= j < C -> Z.of_nat (length l') <= C ->
  at_pos l' j = x ->
  (forall i, 0 <= i < C -> i <> j -> at_pos l' i = at_pos l i) ->
  repr (mk_ring (slot_set (storage_ r) (ring_slot (head_ r) j) x) (head_ r)
          (Z.of_nat (length l'))) l'.
Proof.
  intros R Hh Hj Hl Hx Hs. pose proof (repr_storage_range r l j R Hh Hj).
  split; cbn [storage_ head_ size_]; autorewrite with metl_slots;
    [apply R|done|done|apply R|].
  intros i Hi. destruct (decide (i = j)) as [->|Hne].
  - rewrite slot_lookup_set_eq by done. by rewrite Hx.
  - rewrite slot_lookup_set_ne; [|lia|intros ?%ring_slot_inj; lia].
    rewrite (repr_slots _ _ R) by done. by rewrite Hs.
Qed.

(** A sequence that differs only in its length: a claimed slot comes or goes
    at the back. *)
Lemma repr_resize r l l' :
  repr r l -> Z.of_nat (length l') <= C ->
  (forall i, 0 <= i < C -> at_pos l' i = at_pos l i) ->
  repr (set_size (Z.of_nat (length l')) r) l'.
Proof.
  intros R Hl Hs. split; cbn; [apply R|done|done|apply R|].
  intros j Hj. rewrite (repr_slots _ _ R) by done. by rewrite Hs.
Qed.

Lemma repr_claim_back r l :
  repr r l -> Z.of_nat (length l) < C ->
  repr (set_size (Z.of_nat (length l) + 1) r) (l ++ [None]).
Proof.
  intros R ?. replace (Z.of_nat (length l) + 1) with (Z.of_nat (length (l ++ [@None T])))
    by (rewrite length_app; cbn; lia).
  apply (repr_resize r l); [done|rewrite length_app; cbn; lia|].
  intros i Hi. destruct (decide (i < Z.of_nat (length l))).
  - apply at_pos_app_l; lia.
  - rewrite at_pos_app_r, (at_pos_past l) by lia.
    destruct (decide (i = Z.of_nat (length l))) as [->|]; [by rewrite Z.sub_diag|].
    by rewrite at_pos_past by (cbn; lia).
Qed.

Lemma repr_unclaim_back r l :
  repr r (l ++ [None]) -> repr (set_size (Z.of_nat (length l)) r) l.
Proof.
  intros R. pose proof (repr_cap _ _ R) as Hc. rewrite length_app in Hc. cbn in Hc.
  apply (repr_resize r (l ++ [None])); [done|lia|].
  intros i Hi. destruct (decide (i < Z.of_nat (length l))).
  - by rewrite at_pos_app_l by lia.
  - rewrite at_pos_app_r, (at_pos_past l) by lia.
    destruct (decide (i = Z.of_nat (length l))) as [->|]; [by rewrite Z.sub_diag|].
    by rewrite at_pos_past by (cbn; lia).
Qed.

(** *** Operations *)

Lemma repr_lookup r l j v :
  repr r l -> l !! Z.to_nat j = Some (Some v) -> 0 <= j ->
  0 <= head_ r < C /\ j < C /\
  slot_lookup (storage_ r) (ring_slot (head_ r) j) = Some (Some v).
Proof.
  intros R Hl Hj. pose proof (lookup_lt_Some _ _ _ Hl). pose proof (repr_cap _ _ R).
  split; [|split; [lia|]].
  - apply (repr_nonempty r l R). by intros ->.
  - rewrite (repr_slots _ _ R) by lia. unfold at_pos. by rewrite Hl.
Qed.

(** The slot operations on a ring's own storage. *)
Lemma ref_live p v r : slot_lookup (storage_ r) p = Some (Some v) -> slot_ref p r = Ret v r.
Proof. exact (slot_ref_live p v r). Qed.

Lemma move_live p v r :
  slot_lookup (storage_ r) p = Some (Some v) ->
  slot_move_out moved p r = Ret v (set_slots (slot_set (storage_ r) p (Some (moved v))) r).
Proof. exact (slot_move_out_live moved p v r). Qed.

Lemma assign_live p v w r :
  slot_lookup (storage_ r) p = Some (Some w) ->
  slot_assign p v r = Ret tt (set_slots (slot_set (storage_ r) p (Some v)) r).
Proof. exact (slot_assign_live p v w r). Qed.

Lemma storage_at_live p v r :
  slot_lookup (storage_ r) p = Some (Some v) -> RingCore.storage_at p r = Ret p r.
Proof. intros E. unfold RingCore.storage_at. rewrite (bind_Ret _ _ r v r); [done|by apply slot_ref_live]. Qed.

Lemma at_spec r l i v :
  repr r l -> 0 <= i -> l !! Z.to_nat i = Some (Some v) ->
  RingCore.at_ h C i r = Ret (ring_slot (head_ r) i) r /\
  slot_lookup (storage_ r) (ring_slot (head_ r) i) = Some (Some v).
Proof.
  intros R Hi Hl. destruct (repr_lookup r l i v R Hl Hi) as (Hh & HC & E).
  pose proof (lookup_lt_Some _ _ _ Hl).
  split; [|done]. unfold RingCore.at_. mstep. rewrite (repr_size _ _ R). zbool. do 2 mstep.
  rewrite physical_index_spec by lia. by apply (storage_at_live _ v).
Qed.

Lemma at_out_of_range r l i :
  h <> HARDENING_NONE -> repr r l -> Z.of_nat (length l) <= i -> RingCore.at_ h C i r = Trap.
Proof.
  intros Hh R Hi. unfold RingCore.at_. mstep. rewrite (repr_size _ _ R). zbool.
  apply bind_Trap. by apply metl_assert_false.
Qed.

Lemma front_live r l v :
  repr r (Some v :: l) -> slot_lookup (storage_ r) (head_ r) = Some (Some v).
Proof.
  intros R. destruct (repr_lookup r _ 0 v R eq_refl) as (Hh & HC & E); [lia|].
  by rewrite ring_slot_0 in E.
Qed.

Lemma back_live r l v :
  repr r (l ++ [Some v]) ->
  slot_lookup (storage_ r) (ring_slot (head_ r) (Z.of_nat (length l))) = Some (Some v).
Proof.
  intros R. destruct (repr_lookup r _ (Z.of_nat (length l)) v R) as (_ & _ & E);
    [by rewrite Nat2Z.id, list_lookup_middle|lia|done].
Qed.

Lemma front_spec r l v :
  repr r (Some v :: l) ->
  RingCore.front h r = Ret (head_ r) r /\
  slot_lookup (storage_ r) (head_ r) = Some (Some v).
Proof.
  intros R. pose proof (front_live r l v R) as E. split; [|done].
  unfold RingCore.front. mstep. rewrite (repr_size _ _ R). cbn [length]. zbool. do 2 mstep.
  by apply (storage_at_live _ v).
Qed.

Lemma back_spec r l v :
  repr r (l ++ [Some v]) ->
  RingCore.back h C r = Ret (ring_slot (head_ r) (Z.of_nat (length l))) r /\
  slot_lookup (storage_ r) (ring_slot (head_ r) (Z.of_nat (length l))) = Some (Some v).
Proof.
  intros R. pose proof (capacity_bounds C). pose proof (repr_cap _ _ R) as Hc.
  pose proof (back_live r l v R) as E.
  assert (0 <= head_ r < C) as Hh by (apply (repr_nonempty r _ R); by destruct l).
  rewrite length_app in Hc; cbn in Hc. split; [|done].
  unfold RingCore.back. mstep. rewrite (repr_size _ _ R), length_app. cbn [length].
  replace (Z.of_nat (length l + 1)) with (Z.of_nat (length l) + 1) by lia. zbool. do 2 mstep.
  rewrite Z.add_simpl_r, physical_index_spec by lia. by apply (storage_at_live _ v).
Qed.

Lemma try_emplace_back_full r l ctor :
  repr r l -> Z.of_nat (length l) = C -> RingCore.try_emplace_back C ctor r = Ret false r.
Proof.
  intros R E. unfold RingCore.try_emplace_back. mstep. rewrite (repr_size _ _ R). by zbool.
Qed.

(** How [try_emplace_back] goes on once there is room: the slot is claimed, and
    the constructor runs with the claim in place. *)
Lemma try_emplace_back_room r l ctor :
  repr r l -> Z.of_nat (length l) < C ->
  let n := Z.of_nat (length l) in
  RingCore.try_emplace_back C ctor r =
    (guarded (let! v := ctor in slot_construct (ring_slot (head_ r) n) v)
      (let! n' := get size_ in
       metl_harden (n' =? n + 1) ;;;
       modify (fun r => set_size (wrap (size_ r - 1)) r)) ;;;
     ret true) (set_size (n + 1) r).
Proof.
  intros R Hl n. pose proof (capacity_bounds C). unfold RingCore.try_emplace_back. mstep.
  rewrite (repr_size _ _ R). fold n. zbool. do 3 mstep. cbn [size_ set_size].
  rewrite (repr_size _ _ R). fold n. zbool.
  rewrite Z.add_simpl_r, physical_index_spec; [done|apply (repr_room r l R)|]; cbn; lia.
Qed.

Lemma repr_fill r l k v :
  repr r (l ++ None :: k) ->
  let p := ring_slot (head_ r) (Z.of_nat (length l)) in
  slot_lookup (storage_ r) p = Some None /\
  repr (set_slots (slot_set (storage_ r) p (Some v)) r) (l ++ Some v :: k).
Proof.
  intros R p. pose proof (repr_cap _ _ R) as Hc. rewrite length_app in Hc. cbn in Hc.
  assert (0 <= head_ r < C) as Hh by (apply (repr_nonempty r _ R); by destruct l).
  split.
  - unfold p. rewrite (repr_slots _ _ R) by lia. unfold at_pos.
    by rewrite Nat2Z.id, list_lookup_middle.
  - cbn. rewrite (repr_size _ _ R).
    replace (length (l ++ None :: k)) with (length (l ++ Some v :: k)) by (by rewrite !length_app).
    apply (repr_set_slot r (l ++ None :: k)); [done|done|lia|rewrite length_app; cbn; lia| |].
    + unfold at_pos. by rewrite Nat2Z.id, list_lookup_middle.
    + intros i Hi Hne. destruct (decide (i < Z.of_nat (length l))).
      * by rewrite !at_pos_app_l by lia.
      * by rewrite !at_pos_app_r, !at_pos_cons by lia.
Qed.

(** The constructor returns [v], having perhaps appended [k] behind its own
    slot: the new element stands before them. *)
Lemma try_emplace_back_ret r l k v ctor r2 :
  repr r l -> Z.of_nat (length l) < C ->
  ctor (set_size (Z.of_nat (length l) + 1) r) = Ret v r2 ->
  head_ r2 = head_ r -> repr r2 (l ++ None :: k) ->
  exists r', RingCore.try_emplace_back C ctor r = Ret true r' /\ head_ r' = head_ r /\
    repr r' (l ++ Some v :: k).
Proof.
  intros R Hl E Hh R2. rewrite (try_emplace_back_room r l ctor R Hl). cbv zeta.
  destruct (repr_fill r2 l k v R2) as [Hd R3]. rewrite Hh in Hd, R3.
  eexists. split_and!; [|shelve|exact R3].
  erewrite bind_Ret; [done|]. apply guarded_Ret.
  erewrite bind_Ret; [|exact E]. exact (slot_construct_dead _ _ r2 Hd).
  Unshelve. done.
Qed.

(** The constructor throws and has left the ring as it found it: so does
    [try_emplace_back]. *)
Lemma try_emplace_back_throw r l ctor r2 :
  repr r l -> Z.of_nat (length l) < C ->
  ctor (set_size (Z.of_nat (length l) + 1) r) = Throw r2 ->
  repr r2 (l ++ [None]) ->
  exists r', RingCore.try_emplace_back C ctor r = Throw r' /\ head_ r' = head_ r2 /\
    storage_ r' = storage_ r2 /\ repr r' l.
Proof.
  intros R Hl E R2. pose proof (capacity_bounds C). pose proof (repr_size _ _ R2) as Hs.
  rewrite length_app in Hs; cbn in Hs.
  rewrite (try_emplace_back_room r l ctor R Hl). cbv zeta.
  eexists. split_and!; [|shelve|shelve|exact (repr_unclaim_back r2 l R2)].
  apply bind_Throw. apply (guarded_Throw _ _ _ r2).
  - by apply bind_Throw.
  - mstep. rewrite Hs. zbool. mstep. unfold modify. do 2 f_equal.
    rewrite Hs, wrap_small by lia. lia.
  Unshelve. done. done.
Qed.

(** The constructor throws after inserting: stopped by [METL_HARDEN]. *)
Lemma try_emplace_back_throw_trap r l ctor r2 :
  repr r l -> Z.of_nat (length l) < C ->
  ctor (set_size (Z.of_nat (length l) + 1) r) = Throw r2 ->
  size_ r2 <> Z.of_nat (length l) + 1 ->
  RingCore.try_emplace_back C ctor r = Trap.
Proof.
  intros R Hl E Hs. rewrite (try_emplace_back_room r l ctor R Hl). cbv zeta.
  apply bind_Trap. apply (guarded_undo_Trap _ _ _ r2); [by apply bind_Throw|].
  mstep. zbool. by apply bind_Trap.
Qed.

Lemma emplace_back_ret r l k v ctor r2 :
  repr r l -> Z.of_nat (length l) < C ->
  ctor (set_size (Z.of_nat (length l) + 1) r) = Ret v r2 ->
  head_ r2 = head_ r -> repr r2 (l ++ None :: k) ->
  exists r', RingCore.emplace_back h C ctor r = Ret (ring_slot (head_ r) (Z.of_nat (length l))) r' /\
    head_ r' = head_ r /\ repr r' (l ++ Some v :: k).
Proof.
  intros R Hl E Hh R2.
  destruct (try_emplace_back_ret r l k v ctor r2 R Hl E Hh R2) as (r' & E' & Hh' & R').
  exists r'. split_and!; [|done|done].
  unfold RingCore.emplace_back. do 3 mstep. cbn [negb].
  rewrite (repr_size _ _ R), physical_index_spec; [|by apply (repr_room r l R)|lia].
  apply (storage_at_live _ v). rewrite <- Hh'.
  apply (repr_lookup r' (l ++ Some v :: k)); [done|by rewrite Nat2Z.id, list_lookup_middle|lia].
Qed.

(** A constructor that returns at once. *)
Lemma push_back_spec r l v :
  repr r l -> Z.of_nat (length l) < C ->
  exists r', RingCore.push_back h C v r = Ret (ring_slot (head_ r) (Z.of_nat (length l))) r' /\
    head_ r' = head_ r /\ repr r' (l ++ [Some v]).
Proof.
  intros R Hl. eapply (emplace_back_ret r l []); [done|done|done|done|].
  by apply repr_claim_back.
Qed.

Lemma try_push_back_spec r l v :
  repr r l ->
  if decide (Z.of_nat (length l) = C) then RingCore.try_push_back C v r = Ret false r
  else exists r', RingCore.try_push_back C v r = Ret true r' /\ head_ r' = head_ r /\
    repr r' (l ++ [Some v]).
Proof.
  intros R. pose proof (repr_cap _ _ R). case_decide.
  - by apply (try_emplace_back_full r l).
  - eapply (try_emplace_back_ret r l []); [done|lia|done|done|]. apply repr_claim_back; [done|lia].
Qed.

Lemma repr_unlink_front r x l :
  repr r (x :: l) ->
  repr (mk_ring (slot_set (storage_ r) (head_ r) None) (ring_slot (head_ r) 1)
    (Z.of_nat (length l))) l.
Proof.
  intros R. pose proof (repr_cap _ _ R) as Hc. cbn in Hc.
  assert (0 <= head_ r < C) as Hh by (by apply (repr_nonempty r _ R)).
  split; cbn [storage_ head_ size_]; autorewrite with metl_slots; [apply R|done|lia| |].
  { pose proof (ring_slot_range (head_ r) 1 Hh). lia. }
  intros j Hj. destruct (decide (j = C - 1)) as [->|Hne].
  - rewrite ring_slot_next_last, at_pos_past by lia.
    apply slot_lookup_set_eq. rewrite <- (ring_slot_0 (head_ r) Hh) at 1 2.
    apply (repr_storage_range r _ _ R Hh). lia.
  - rewrite ring_slot_next by lia. rewrite slot_lookup_set_ne; [|lia|].
    + rewrite (repr_slots _ _ R) by lia. rewrite at_pos_cons by lia. do 2 f_equal. lia.
    + rewrite <- (ring_slot_0 (head_ r) Hh) at 1. intros ?%ring_slot_inj; lia.
Qed.

Lemma pop_front_spec r v l :
  repr r (Some v :: l) ->
  exists r', RingCore.pop_front C r = Ret tt r' /\ repr r' l.
Proof.
  intros R. pose proof (capacity_bounds C). pose proof (repr_cap _ _ R) as Hc. cbn in Hc.
  pose proof (front_live r l v R) as Hv.
  assert (0 <= head_ r < C) as Hh by (by apply (repr_nonempty r _ R)).
  pose proof (repr_size _ _ R) as Hs. cbn [length] in Hs.
  eexists. split; [|exact (repr_unlink_front r _ l R)].
  unfold RingCore.pop_front. mstep. rewrite Hs. zbool. do 2 mstep.
  rewrite (bind_Ret _ _ _ _ _ (storage_at_live _ _ _ Hv)). do 2 mstep.
  rewrite (slot_destroy_live _ v) by done. cbn. rewrite advance_spec, Hs, wrap_small by lia.
  do 2 f_equal. lia.
Qed.

Lemma pop_front_empty r : repr r [] -> RingCore.pop_front C r = Trap.
Proof.
  intros R. unfold RingCore.pop_front. mstep. rewrite (repr_size _ _ R). cbn. by apply bind_Trap.
Qed.

Lemma clear_spec r vs : repr r (live vs) -> exists r', RingCore.clear C r = Ret tt r' /\ repr r' [].
Proof.
  intros R. unfold RingCore.clear.
  destruct (while_loop_inv (fun r => exists vs, repr r (live vs)) (fun r => Z.to_nat (size_ r))
    (fun r => negb (size_ r =? 0)) (RingCore.pop_front C) (Z.to_nat (size_ r)) r)
    as (r' & E & [ws R'] & Hc); [by eauto|done| |].
  - intros r0 [[|w ws] R0] Hc0; rewrite (repr_size _ _ R0) in Hc0; [done|].
    destruct (pop_front_spec r0 w (live ws) R0) as (r1 & E1 & R1).
    exists r1. split_and!; [done|by eauto|].
    rewrite (repr_size _ _ R0), (repr_size _ _ R1). cbn. lia.
  - exists r'. split; [done|]. apply negb_false_iff, Z.eqb_eq in Hc.
    rewrite (repr_size _ _ R'), length_fmap in Hc. destruct ws; [done|]. cbn in Hc. lia.
Qed.

(** *** [fixed_deque]: the other two ends *)

Lemma repr_claim_front r l :
  repr r l -> Z.of_nat (length l) < C ->
  repr (mk_ring (storage_ r) (ring_slot (head_ r) (C - 1)) (Z.of_nat (length l) + 1)) (None :: l).
Proof.
  intros R Hl. pose proof (repr_room r l R Hl) as Hh.
  pose proof (ring_slot_range (head_ r) (C - 1) Hh).
  split; cbn [storage_ head_ size_ length]; [apply R|lia|lia|lia|].
  intros j Hj. destruct (decide (j = 0)) as [->|Hne].
  - rewrite ring_slot_0, at_pos_cons_0, (repr_slots _ _ R) by lia.
    by rewrite at_pos_past by lia.
  - replace j with (j - 1 + 1) at 1 by lia. rewrite ring_slot_prev, at_pos_cons by lia.
    apply R. lia.
Qed.

Lemma repr_unclaim_front r l hd :
  0 <= hd < C -> head_ r = ring_slot hd (C - 1) -> repr r (None :: l) ->
  repr (mk_ring (storage_ r) hd (Z.of_nat (length l))) l.
Proof.
  intros Hh Er R. pose proof (repr_cap _ _ R) as Hc. cbn in Hc.
  split; cbn [storage_ head_ size_]; [apply R|done|lia|lia|].
  intros j Hj. destruct (decide (j = C - 1)) as [->|Hne].
  - rewrite <- Er, at_pos_past by lia. rewrite <- (ring_slot_0 (head_ r)).
    + by rewrite (repr_slots _ _ R) by lia.
    + apply (repr_nonempty r _ R). done.
  - rewrite <- ring_slot_prev, <- Er by lia. rewrite (repr_slots _ _ R) by lia.
    rewrite at_pos_cons by lia. do 2 f_equal. lia.
Qed.

Lemma try_emplace_front_full r l ctor :
  repr r l -> Z.of_nat (length l) = C -> FixedDeque.try_emplace_front C ctor r = Ret false r.
Proof.
  intros R E. unfold FixedDeque.try_emplace_front, FixedDeque.full. mstep.
  rewrite (repr_size _ _ R). by zbool.
Qed.

Lemma try_emplace_front_room r l ctor :
  repr r l -> Z.of_nat (length l) < C ->
  let n := Z.of_nat (length l) in
  let slot := ring_slot (head_ r) (C - 1) in
  FixedDeque.try_emplace_front C ctor r =
    (guarded (let! v := ctor in slot_construct slot v)
      (let! ok := get (fun r => (head_ r =? slot) && (size_ r =? n + 1)) in
       metl_harden ok ;;;
       modify (set_head (head_ r)) ;;;
       modify (fun r => set_size (wrap (size_ r - 1)) r)) ;;;
     ret true) (mk_ring (storage_ r) slot (n + 1)).
Proof.
  intros R Hl n slot. pose proof (capacity_bounds C).
  unfold FixedDeque.try_emplace_front, FixedDeque.full. mstep.
  rewrite (repr_size _ _ R). fold n. zbool. do 5 mstep. cbn [size_ head_ storage_ set_size set_head].
  rewrite retreat_spec by (apply (repr_room r l R); lia). fold slot.
  rewrite (repr_size _ _ R). fold n. zbool. done.
Qed.

(** The constructor returns [v]; it may have added elements on both sides of
    its own slot. *)
Lemma try_emplace_front_ret r l a b v ctor r2 :
  repr r l -> Z.of_nat (length l) < C ->
  let slot := ring_slot (head_ r) (C - 1) in
  ctor (mk_ring (storage_ r) slot (Z.of_nat (length l) + 1)) = Ret v r2 ->
  repr r2 (a ++ None :: b) -> ring_slot (head_ r2) (Z.of_nat (length a)) = slot ->
  exists r', FixedDeque.try_emplace_front C ctor r = Ret true r' /\ head_ r' = head_ r2 /\
    repr r' (a ++ Some v :: b).
Proof.
  intros R Hl slot E R2 Hslot. rewrite (try_emplace_front_room r l ctor R Hl). cbv zeta.
  destruct (repr_fill r2 a b v R2) as [Hd R3]. rewrite Hslot in Hd, R3.
  eexists. split_and!; [|shelve|exact R3].
  erewrite bind_Ret; [done|]. apply guarded_Ret.
  erewrite bind_Ret; [|exact E]. exact (slot_construct_dead _ _ r2 Hd).
  Unshelve. done.
Qed.

Lemma try_emplace_front_throw r l ctor r2 :
  repr r l -> Z.of_nat (length l) < C ->
  let slot := ring_slot (head_ r) (C - 1) in
  ctor (mk_ring (storage_ r) slot (Z.of_nat (length l) + 1)) = Throw r2 ->
  repr r2 (None :: l) -> head_ r2 = slot ->
  exists r', FixedDeque.try_emplace_front C ctor r = Throw r' /\ head_ r' = head_ r /\
    storage_ r' = storage_ r2 /\ repr r' l.
Proof.
  intros R Hl slot E R2 Hslot. pose proof (capacity_bounds C). pose proof (repr_size _ _ R2) as Hs.
  cbn [length] in Hs. rewrite (try_emplace_front_room r l ctor R Hl). cbv zeta.
  eexists. split_and!; [|shelve|shelve|].
  2: exact (repr_unclaim_front r2 l (head_ r) (repr_room r l R Hl) Hslot R2).
  apply bind_Throw. apply (guarded_Throw _ _ _ r2).
  - by apply bind_Throw.
  - mstep. rewrite Hs, Hslot. fold slot. zbool. cbn [andb]. do 2 mstep. unfold modify. do 2 f_equal.
    unfold set_size, set_head. cbn. f_equal. rewrite Hs, wrap_small by lia. lia.
  Unshelve. done. done.
Qed.

Lemma emplace_front_ret r l a b v ctor r2 :
  repr r l -> Z.of_nat (length l) < C ->
  let slot := ring_slot (head_ r) (C - 1) in
  ctor (mk_ring (storage_ r) slot (Z.of_nat (length l) + 1)) = Ret v r2 ->
  repr r2 (a ++ None :: b) -> ring_slot (head_ r2) (Z.of_nat (length a)) = slot ->
  exists r', FixedDeque.emplace_front h C ctor r = Ret slot r' /\ head_ r' = head_ r2 /\
    repr r' (a ++ Some v :: b).
Proof.
  intros R Hl slot E R2 Hslot.
  destruct (try_emplace_front_ret r l a b v ctor r2 R Hl E R2 Hslot) as (r' & E' & Hh' & R').
  exists r'. split_and!; [|done|done]. unfold FixedDeque.emplace_front. do 3 mstep. cbn [negb].
  rewrite retreat_spec by (by apply (repr_room r l R)). apply (storage_at_live _ v).
  fold slot. rewrite <- Hslot, <- Hh'.
  apply (repr_lookup r' (a ++ Some v :: b)); [done|by rewrite Nat2Z.id, list_lookup_middle|lia].
Qed.

Lemma push_front_spec r l v :
  repr r l -> Z.of_nat (length l) < C ->
  exists r', FixedDeque.push_front h C v r = Ret (ring_slot (head_ r) (C - 1)) r' /\
    head_ r' = ring_slot (head_ r) (C - 1) /\ repr r' (Some v :: l).
Proof.
  intros R Hl.
  apply (emplace_front_ret r l [] l v (ret v) _ R Hl eq_refl (repr_claim_front r l R Hl)).
  apply ring_slot_0. apply ring_slot_range; [by apply (repr_room r l)|lia].
Qed.

Lemma try_push_front_spec r l v :
  repr r l ->
  if decide (Z.of_nat (length l) = C) then FixedDeque.try_push_front C v r = Ret false r
  else exists r', FixedDeque.try_push_front C v r = Ret true r' /\ repr r' (Some v :: l).
Proof.
  intros R. pose proof (repr_cap _ _ R). case_decide; [by apply (try_emplace_front_full r l)|].
  assert (Z.of_nat (length l) < C) as Hl by lia.
  destruct (try_emplace_front_ret r l [] l v (ret v) _ R Hl eq_refl (repr_claim_front r l R Hl))
    as (r' & E & _ & R'); [|by exists r'].
  apply ring_slot_0. apply ring_slot_range; [by apply (repr_room r l)|lia].
Qed.

Lemma pop_back_spec r v l :
  repr r (l ++ [Some v]) ->
  exists r', FixedDeque.pop_back C r = Ret tt r' /\ repr r' l.
Proof.
  intros R. pose proof (capacity_bounds C). pose proof (repr_cap _ _ R) as Hc.
  pose proof (back_live r l v R) as Hv. pose proof (repr_size _ _ R) as Hs.
  rewrite length_app in Hc, Hs; cbn [length] in Hc, Hs.
  assert (0 <= head_ r < C) as Hh by (apply (repr_nonempty r _ R); by destruct l).
  eexists. split.
  2: { apply (repr_set_slot r (l ++ [Some v]) l (Z.of_nat (length l)) None);
         [done|done|lia|lia|apply at_pos_past; lia|].
       intros i Hi Hne. destruct (decide (i < Z.of_nat (length l))).
       - by rewrite at_pos_app_l by lia.
       - rewrite at_pos_app_r, !at_pos_past; cbn; [done|lia..]. }
  unfold FixedDeque.pop_back. mstep. rewrite Hs. zbool. do 3 mstep.
  replace (wrap (size_ r - 1)) with (Z.of_nat (length l)) by (rewrite Hs, wrap_small; lia).
  cbn [size_ set_size]. rewrite physical_index_spec by (cbn; lia). cbn [head_ set_size].
  rewrite (bind_Ret _ _ (set_size _ r) _ _ (storage_at_live _ v (set_size _ r) Hv)).
  exact (slot_destroy_live _ v (set_size _ r) Hv).
Qed.

Lemma pop_back_empty r : repr r [] -> FixedDeque.pop_back C r = Trap.
Proof.
  intros R. unfold FixedDeque.pop_back. mstep. rewrite (repr_size _ _ R). cbn. by apply bind_Trap.
Qed.

(** *** Element assignment, copying, moving and swapping *)

Lemma live_lookup (vs : list T) i v : vs !! i = Some v -> live vs !! i = Some (Some v).
Proof. intros E. by rewrite list_lookup_fmap, E. Qed.

Lemma repr_assign r l (i : nat) v x :
  repr r l -> l !! i = Some (Some v) ->
  let p := ring_slot (head_ r) (Z.of_nat i) in
  slot_lookup (storage_ r) p = Some (Some v) /\
  repr (set_slots (slot_set (storage_ r) p (Some x)) r) (<[i := Some x]> l).
Proof.
  intros R Hl p. pose proof (lookup_lt_Some _ _ _ Hl). pose proof (repr_cap _ _ R).
  destruct (repr_lookup r l (Z.of_nat i) v R) as (Hh & HC & E); [by rewrite Nat2Z.id|lia|].
  split; [done|]. cbn. rewrite (repr_size _ _ R), <- (length_insert l i (Some x)).
  apply (repr_set_slot r l); [done|done|lia|by rewrite length_insert| |].
  - unfold at_pos. by rewrite Nat2Z.id, list_lookup_insert_eq by lia.
  - intros j Hj Hne. unfold at_pos. by rewrite list_lookup_insert_ne by lia.
Qed.

(** [at(i)] of a ring whose elements are [vs], and moving or assigning there. *)
Lemma at_live r (vs : list T) (i : nat) v :
  repr r (live vs) -> vs !! i = Some v ->
  let p := ring_slot (head_ r) (Z.of_nat i) in
  RingCore.at_ h C (Z.of_nat i) r = Ret p r /\
  slot_lookup (storage_ r) p = Some (Some v).
Proof.
  intros R Hv p. apply (at_spec r (live vs)); [done|lia|rewrite Nat2Z.id; by apply live_lookup].
Qed.

Lemma repr_assign_live r (vs : list T) (i : nat) v x :
  repr r (live vs) -> vs !! i = Some v ->
  let p := ring_slot (head_ r) (Z.of_nat i) in
  repr (set_slots (slot_set (storage_ r) p (Some x)) r) (live (<[i := x]> vs)).
Proof.
  intros R Hv p. rewrite list_fmap_insert. by eapply repr_assign, live_lookup.
Qed.

Lemma push_back_live r (vs : list T) v :
  repr r (live vs) -> Z.of_nat (length vs) < C ->
  exists p r', RingCore.emplace_back h C (ret v) r = Ret p r' /\ repr r' (live (vs ++ [v])).
Proof.
  intros R Hl. destruct (push_back_spec r (live vs) v R) as (r' & E & _ & R');
    [by rewrite length_fmap|]. eexists _, r'. split; [exact E|]. by rewrite fmap_app.
Qed.

Lemma append_copies_spec r o (us vs : list T) :
  repr r (live us) -> repr o (live vs) -> Z.of_nat (length us + length vs) <= C ->
  exists r', RingCore.append_copies h C (r, o) = Ret tt (r', o) /\ repr r' (live (us ++ vs)).
Proof.
  intros R Ro Hl. unfold RingCore.append_copies.
  rewrite (bind_Ret _ _ _ (Z.of_nat (length vs)) (r, o)).
  2: { unfold on_snd, get; cbn. by rewrite (repr_size _ _ Ro), length_fmap. }
  destruct (for_up_inv (fun i p => p.2 = o /\ repr p.1 (live (us ++ take (Z.to_nat i) vs)))
    (fun i => let! p := on_snd (RingCore.at_ h C i) in
      let! v := on_snd (slot_ref p) in on_fst (RingCore.emplace_back h C (ret v)) ;;; ret tt)
    (length vs) 0 (r, o)) as ([r' o'] & E & [? R']); cbn [fst snd] in *; subst.
  - rewrite take_0, app_nil_r. done.
  - intros i [r1 o1] Hi [? R1]; cbn [fst snd] in *; subst o1.
    destruct (lookup_lt_is_Some_2 vs (Z.to_nat i)) as [v Hv]; [lia|].
    destruct (at_live o vs (Z.to_nat i) v Ro Hv) as [Ea Es]. rewrite Z2Nat.id in Ea, Es by lia.
    destruct (push_back_live r1 (us ++ take (Z.to_nat i) vs) v R1) as (p & r2 & E2 & R2).
    { rewrite length_app, length_take. lia. }
    exists (r2, o). rewrite (bind_Ret _ _ _ _ _ (on_snd_Ret _ (r1, o) _ _ Ea)).
    rewrite (bind_Ret _ _ _ _ _ (on_snd_Ret _ (r1, o) _ _ (ref_live _ _ o Es))).
    rewrite (bind_Ret _ _ _ _ _ (on_fst_Ret _ (r1, o) _ _ E2)). split_and!; [done|done|].
    rewrite <- app_assoc, <- (take_S_r vs (Z.to_nat i) v Hv) in R2.
    by replace (Z.to_nat (i + 1)) with (S (Z.to_nat i)) by lia.
  - exists r'. rewrite Nat2Z.id, E. split; [done|].
    by rewrite Z.add_0_l, Nat2Z.id, take_ge in R' by lia.
Qed.

(** The loop both kinds of move share: elements [from] on go over from the
    second ring, each leaving its moved-from value behind. *)
Lemma move_loop_spec r o (us vs : list T) (from n : nat) :
  repr r (live us) -> repr o (live vs) ->
  length vs = (from + n)%nat -> Z.of_nat (length us + n) <= C ->
  exists r' o',
    for_up n (Z.of_nat from) (fun i => let! p := on_snd (RingCore.at_ h C i) in
      let! v := on_snd (slot_move_out moved p) in
      on_fst (RingCore.emplace_back h C (ret v)) ;;; ret tt) (r, o) = Ret tt (r', o') /\
    repr r' (live (us ++ drop from vs)) /\
    exists ws, repr o' (live (take from vs ++ ws)) /\ length ws = n.
Proof.
  revert r o us vs from. induction n as [|n IH]; intros r o us vs from R Ro Hlen Hl.
  { exists r, o. rewrite drop_ge, take_ge by lia. split_and!; [done|by rewrite app_nil_r|].
    exists []. by rewrite app_nil_r. }
  destruct (lookup_lt_is_Some_2 vs from) as [v Hv]; [lia|].
  destruct (at_live o vs from v Ro Hv) as [Ea Es].
  pose proof (repr_assign_live o vs from v (moved v) Ro Hv) as Ro1.
  destruct (push_back_live r us v R) as (p & r2 & E2 & R2); [lia|].
  destruct (IH r2 _ (us ++ [v]) (<[from := moved v]> vs) (S from) R2 Ro1)
    as (r' & o' & E' & R' & ws & Ro' & Hw); [by rewrite length_insert; lia|rewrite length_app; cbn; lia|].
  exists r', o'. split_and!.
  - cbn [for_up]. rewrite !bind_assoc.
    rewrite (bind_Ret _ _ _ _ _ (on_snd_Ret _ (r, o) _ _ Ea)), bind_assoc.
    rewrite (bind_Ret _ _ _ _ _ (on_snd_Ret _ (r, o) _ _ (move_live _ _ o Es))).
    rewrite bind_assoc, (bind_Ret _ _ _ _ _ (on_fst_Ret _ (r, _) _ _ E2)). mstep.
    replace (Z.of_nat from + 1) with (Z.of_nat (S from)) by lia. exact E'.
  - rewrite drop_insert_lt, <- app_assoc in R' by lia. by rewrite (drop_S vs v from Hv).
  - exists (moved v :: ws). split; [|cbn; lia].
    rewrite (take_S_r _ from (moved v)), take_insert_ge, <- app_assoc in Ro';
      [done|lia|by apply list_lookup_insert_eq; lia].
Qed.

Lemma on_snd_size (r o : ring T) (vs : list T) :
  repr o (live vs) -> on_snd (get size_) (r, o) = Ret (Z.of_nat (length vs)) (r, o).
Proof. intros R. unfold on_snd, get; cbn. by rewrite (repr_size _ _ R), length_fmap. Qed.

Lemma on_fst_size (r o : ring T) (vs : list T) :
  repr r (live vs) -> on_fst (get size_) (r, o) = Ret (Z.of_nat (length vs)) (r, o).
Proof. intros R. unfold on_fst, get; cbn. by rewrite (repr_size _ _ R), length_fmap. Qed.

Lemma append_moves_spec r o (us vs : list T) :
  repr r (live us) -> repr o (live vs) -> Z.of_nat (length us + length vs) <= C ->
  exists r' o', RingCore.append_moves h C moved (r, o) = Ret tt (r', o') /\
    repr r' (live (us ++ vs)) /\ repr o' [].
Proof.
  intros R Ro Hl. unfold RingCore.append_moves.
  rewrite (bind_Ret _ _ _ _ _ (on_snd_size r o vs Ro)), Nat2Z.id.
  destruct (move_loop_spec r o us vs 0 (length vs) R Ro) as (r1 & o1 & E1 & R1 & ws & Ro1 & _);
    [done|done|].
  destruct (clear_spec o1 ws) as (o2 & E2 & Ro2); [done|].
  exists r1, o2. rewrite (bind_Ret _ _ _ _ _ E1), (on_snd_Ret _ (r1, o1) _ _ E2). done.
Qed.

(** Destroying from the back down to [common] elements. *)
Lemma shrink_spec r o (us ws : list T) :
  repr o (live (us ++ ws)) ->
  exists o', while_loop (length ws) (fun s : ring T * ring T => Z.of_nat (length us) <? size_ s.2)
    (on_snd (modify (fun r => set_size (wrap (size_ r - 1)) r) ;;;
      let! p := get (fun r => RingCore.physical_index C r (size_ r)) in slot_destroy p)) (r, o)
    = Ret tt (r, o') /\ repr o' (live us).
Proof.
  revert o. induction ws as [|w ws IH] using rev_ind; intros o Ro; pose proof (repr_size _ _ Ro) as Hs;
    rewrite length_fmap, !length_app in Hs.
  { exists o. rewrite app_nil_r in Ro. cbn. rewrite Hs. cbn. rewrite Nat.add_0_r. by zbool. }
  rewrite length_app, Nat.add_1_r. cbn [while_loop snd length] in *. rewrite Hs. zbool.
  rewrite app_assoc, fmap_app in Ro. destruct (pop_back_spec o w _ Ro) as (o1 & E1 & Ro1).
  destruct (IH o1 Ro1) as (o2 & E2 & Ro2). exists o2. split; [|done].
  rewrite (bind_Ret _ _ _ tt (r, o1)); [done|].
  apply (on_snd_Ret _ (r, o)). cbn [snd].
  unfold FixedDeque.pop_back in E1.
  rewrite (bind_Ret (get size_) _ o _ _ eq_refl), Hs in E1. revert E1. zbool. mstep.
  intros <-. do 4 mstep. unfold RingCore.storage_at. rewrite bind_assoc.
  unfold bind at 1. unfold slot_ref, slot_destroy. cbn [get_slots ring_has_slots].
  destruct (slot_lookup _ _) as [[]|] eqn:Es; [|done..]. mstep. by rewrite Es.
Qed.

Lemma move_tail_spec r o (us vs : list T) (common : nat) :
  repr r (live us) -> repr o (live vs) -> (common <= length vs)%nat ->
  Z.of_nat (length us + (length vs - common)) <= C ->
  exists r' o', RingCore.move_tail h C moved (Z.of_nat common) (r, o) = Ret tt (r', o') /\
    repr r' (live (us ++ drop common vs)) /\ repr o' (live (take common vs)).
Proof.
  intros R Ro Hc Hl. unfold RingCore.move_tail.
  rewrite (bind_Ret _ _ _ _ _ (on_snd_size r o vs Ro)).
  replace (Z.to_nat (Z.of_nat (length vs) - Z.of_nat common)) with (length vs - common)%nat by lia.
  destruct (move_loop_spec r o us vs common (length vs - common) R Ro)
    as (r1 & o1 & E1 & R1 & ws & Ro1 & Hw); [lia|done|].
  destruct (shrink_spec r1 o1 (take common vs) ws Ro1) as (o2 & E2 & Ro2).
  exists r1, o2. split_and!; [|done|done].
  rewrite (bind_Ret _ _ _ _ _ E1). cbn [snd]. rewrite (repr_size _ _ Ro1), length_fmap, length_app.
  rewrite length_take, Nat.min_l in * by lia.
  by replace (Z.to_nat (Z.of_nat (common + length ws) - Z.of_nat common)) with (length ws) by lia.
Qed.

Lemma swap_elements_spec r o (us vs : list T) (i : nat) u v :
  repr r (live us) -> repr o (live vs) -> us !! i = Some u -> vs !! i = Some v ->
  exists r' o', (let! p := on_fst (RingCore.at_ h C (Z.of_nat i)) in
      let! q := on_snd (RingCore.at_ h C (Z.of_nat i)) in
      RingCore.swap_elements moved p q) (r, o) = Ret tt (r', o') /\
    repr r' (live (<[i := v]> us)) /\ repr o' (live (<[i := u]> vs)).
Proof.
  intros R Ro Hu Hv.
  destruct (at_live r us i u R Hu) as [Ea Es]. destruct (at_live o vs i v Ro Hv) as [Eb Et].
  pose proof (repr_assign_live r us i u (moved u) R Hu) as R1.
  pose proof (repr_assign_live o vs i v (moved v) Ro Hv) as Ro1.
  destruct (at_live _ _ i (moved u) R1) as [_ Es1];
    [apply list_lookup_insert_eq; by eapply lookup_lt_Some|].
  destruct (at_live _ _ i (moved v) Ro1) as [_ Et1];
    [apply list_lookup_insert_eq; by eapply lookup_lt_Some|].
  pose proof (repr_assign_live _ _ i (moved u) v R1) as R2.
  pose proof (repr_assign_live _ _ i (moved v) u Ro1) as Ro2.
  rewrite list_insert_insert_eq in R2, Ro2.
  eexists _, _. split_and!; [|apply R2|apply Ro2];
    [|apply list_lookup_insert_eq; by eapply lookup_lt_Some..].
  rewrite (bind_Ret _ _ _ _ _ (on_fst_Ret _ (r, o) _ _ Ea)).
  rewrite (bind_Ret _ _ _ _ _ (on_snd_Ret _ (r, o) _ _ Eb)). unfold RingCore.swap_elements.
  rewrite (bind_Ret _ _ _ _ _ (on_fst_Ret _ (r, o) _ _ (move_live _ _ r Es))).
  rewrite (bind_Ret _ _ _ _ _ (on_snd_Ret _ (_, o) _ _ (move_live _ _ o Et))).
  rewrite (bind_Ret _ _ _ _ _ (on_fst_Ret _ (_, _) _ _ (assign_live _ v _ _ Es1))).
  exact (on_snd_Ret _ (_, _) _ _ (assign_live _ u _ _ Et1)).
Qed.

Lemma swap_prefix_spec r o (us vs : list T) (n : nat) :
  repr r (live us) -> repr o (live vs) -> (n <= length us)%nat -> (n <= length vs)%nat ->
  exists r' o', for_up n 0 (fun i => let! p := on_fst (RingCore.at_ h C i) in
      let! q := on_snd (RingCore.at_ h C i) in
      RingCore.swap_elements moved p q) (r, o) = Ret tt (r', o') /\
    repr r' (live (take n vs ++ drop n us)) /\ repr o' (live (take n us ++ drop n vs)).
Proof.
  intros R Ro Hu Hv.
  destruct (for_up_inv (fun i p => repr p.1 (live (take (Z.to_nat i) vs ++ drop (Z.to_nat i) us)) /\
      repr p.2 (live (take (Z.to_nat i) us ++ drop (Z.to_nat i) vs)))
    (fun i => let! p := on_fst (RingCore.at_ h C i) in
      let! q := on_snd (RingCore.at_ h C i) in RingCore.swap_elements moved p q) n 0 (r, o))
    as ([r' o'] & E & R'); [by rewrite !take_0, !drop_0| |].
  - intros i [r1 o1] Hi [R1 Ro1]; cbn [fst snd] in *.
    destruct (lookup_lt_is_Some_2 us (Z.to_nat i)) as [u Eu]; [lia|].
    destruct (lookup_lt_is_Some_2 vs (Z.to_nat i)) as [v Ev]; [lia|].
    destruct (swap_elements_spec r1 o1 _ _ (Z.to_nat i) u v R1 Ro1) as (r2 & o2 & E2 & R2 & Ro2);
      [by rewrite take_drop_lookup by lia..|].
    rewrite Z2Nat.id in E2 by lia. exists (r2, o2). split; [done|]. cbn [fst snd].
    rewrite (take_drop_insert _ _ _ _ _ Ev Eu) in R2. rewrite (take_drop_insert _ _ _ _ _ Eu Ev) in Ro2.
    by replace (Z.to_nat (i + 1)) with (S (Z.to_nat i)) by lia.
  - exists r', o'. rewrite Z.add_0_l, Nat2Z.id in R'. done.
Qed.

(** [swap_core] exchanges the two sequences, whatever their lengths and heads. *)
Lemma swap_core_spec r o (us vs : list T) :
  repr r (live us) -> repr o (live vs) ->
  exists r' o', RingCore.swap_core h C moved false (r, o) = Ret tt (r', o') /\
    repr r' (live vs) /\ repr o' (live us).
Proof.
  intros R Ro. pose proof (repr_cap _ _ R) as Hu. pose proof (repr_cap _ _ Ro) as Hv.
  rewrite length_fmap in Hu, Hv. unfold RingCore.swap_core.
  rewrite (bind_Ret _ _ _ _ _ (on_fst_size r o us R)), (bind_Ret _ _ _ _ _ (on_snd_size r o vs Ro)).
  replace (Z.to_nat (if Z.of_nat (length us) <? Z.of_nat (length vs)
    then Z.of_nat (length us) else Z.of_nat (length vs)))
    with (min (length us) (length vs)) by (destruct (Z.ltb_spec (Z.of_nat (length us)) (Z.of_nat (length vs))); lia).
  destruct (swap_prefix_spec r o us vs (min (length us) (length vs)) R Ro) as (r1 & o1 & E1 & R1 & Ro1);
    [lia|lia|]. rewrite (bind_Ret _ _ _ _ _ E1).
  destruct (Z.eqb_spec (Z.of_nat (length us)) (Z.of_nat (length vs)));
    [|destruct (Z.ltb_spec (Z.of_nat (length us)) (Z.of_nat (length vs)))].
  - rewrite !take_ge, !drop_ge, !app_nil_r in R1, Ro1 by lia. by exists r1, o1.
  - rewrite Nat.min_l in R1, Ro1 by lia.
    rewrite (drop_ge us), app_nil_r in R1 by lia. rewrite (take_ge us) in Ro1 by lia.
    destruct (move_tail_spec r1 o1 _ _ (length us) R1 Ro1) as (r2 & o2 & E2 & R2 & Ro2);
      [rewrite length_app; lia|rewrite length_app, length_take, length_drop; lia|].
    rewrite drop_app_length in R2. rewrite take_app_length in Ro2. exists r2, o2.
    by rewrite take_drop in R2.
  - rewrite Nat.min_r in R1, Ro1 by lia.
    rewrite (drop_ge vs), app_nil_r in Ro1 by lia. rewrite (take_ge vs) in R1 by lia.
    destruct (move_tail_spec o1 r1 _ _ (length vs) Ro1 R1) as (o2 & r2 & E2 & Ro2 & R2);
      [rewrite length_app; lia|rewrite length_app, length_take, length_drop; lia|].
    rewrite drop_app_length in Ro2. rewrite take_app_length in R2. exists r2, o2.
    unfold swapped. cbn [fst snd]. rewrite E2. by rewrite take_drop in Ro2.
Qed.

Lemma push_overwrite_spec r (vs : list T) v movable :
  repr r (live vs) -> 0 < C ->
  exists p r', RingBuffer.push_overwrite h C movable (ret v) r = Ret p r' /\
    repr r' (live (if decide (Z.of_nat (length vs) = C) then tail vs ++ [v] else vs ++ [v])) /\
    slot_lookup (storage_ r') p = Some (Some v).
Proof.
  intros R HC. pose proof (repr_cap _ _ R) as Hc. rewrite length_fmap in Hc.
  assert (forall r (vs : list T), repr r (live vs) -> Z.of_nat (length vs) < C ->
    exists p r', RingCore.emplace_back h C (ret v) r = Ret p r' /\ repr r' (live (vs ++ [v])) /\
      slot_lookup (storage_ r') p = Some (Some v)) as Hpush.
  { intros r0 ws R0 Hl. destruct (push_back_spec r0 (live ws) v R0) as (r1 & E1 & Hh & R1);
      [by rewrite length_fmap|]. eexists _, r1. split_and!; [exact E1|by rewrite fmap_app|].
    rewrite <- Hh. by apply back_live. }
  unfold RingBuffer.push_overwrite, RingBuffer.full. mstep. rewrite (repr_size _ _ R), length_fmap.
  case_decide; zbool; [|by apply Hpush; [|lia]].
  destruct vs as [|w vs]; [cbn in *; lia|]. destruct (pop_front_spec r w (live vs) R) as (r1 & E1 & R1).
  cbn [length tail] in *. destruct (Hpush r1 vs R1) as (p & r2 & E2 & R2 & Es); [lia|].
  exists p, r2. destruct movable; repeat mstep; by rewrite E2.
Qed.
End ring_facts.
