(* ===== verification/RingClaims.v ===== *)
(** * What the ring containers promise

    An abstract bounded double-ended queue over lists, the operations of
    [fixed_deque] run against it, and the theorems about [ring_core],
    [ring_buffer], [fixed_deque] and [fixed_queue]. *)

From Stdlib Require Import ZArith Lia.
From stdpp Require Import base numbers list option tactics.
From S2P Require Import Prelude Ring RingFacts.
Local Open Scope Z_scope.

(** ** The abstract deque *)

Module DequeSpec.

Inductive op (T : Type) : Type :=
  | TryPushBack (v : T) | PushBack (v : T) | TryPushFront (v : T) | PushFront (v : T)
  | PopFront | PopBack | Clear | Front | Back | At (i : nat) | Size | Empty | Full.
Arguments TryPushBack {T} v.
Arguments PushBack {T} v.
Arguments TryPushFront {T} v.
Arguments PushFront {T} v.
Arguments PopFront {T}.
Arguments PopBack {T}.
Arguments Clear {T}.
Arguments Front {T}.
Arguments Back {T}.
Arguments At {T} i.
Arguments Size {T}.
Arguments Empty {T}.
Arguments Full {T}.

Inductive result (T : Type) : Type :=
  | RUnit | RBool (b : bool) | RVal (v : T) | RSize (n : Z).
Arguments RUnit {T}.
Arguments RBool {T} b.
Arguments RVal {T} v.
Arguments RSize {T} n.

(** One operation on the list of elements; [None] when the program stops. *)
Definition step {T} (C : Z) (o : op T) (l : list T) : option (result T * list T) :=
  let full := Z.of_nat (length l) =? C in
  match o with
  | TryPushBack v => Some (RBool (negb full), if full then l else l ++ [v])
  | PushBack v => if full then None else Some (RVal v, l ++ [v])
  | TryPushFront v => Some (RBool (negb full), if full then l else v :: l)
  | PushFront v => if full then None else Some (RVal v, v :: l)
  | PopFront => match l with [] => None | _ :: l' => Some (RUnit, l') end
  | PopBack => match l with [] => None | _ => Some (RUnit, take (length l - 1) l) end
  | Clear => Some (RUnit, [])
  | Front => match l with [] => None | v :: _ => Some (RVal v, l) end
  | Back => match list.last l with None => None | Some v => Some (RVal v, l) end
  | At i => match l !! i with None => None | Some v => Some (RVal v, l) end
  | Size => Some (RSize (Z.of_nat (length l)), l)
  | Empty => Some (RBool (Z.of_nat (length l) =? 0), l)
  | Full => Some (RBool full, l)
  end.

Inductive behaviour (T : Type) : Type :=
  | Finished (rs : list (result T))  (** every operation returned *)
  | Stopped (rs : list (result T))   (** these results, then a check failed *)
  | Wrong.                           (** undefined behaviour or a stray exception *)
Arguments Finished {T} rs.
Arguments Stopped {T} rs.
Arguments Wrong {T}.

Definition add_result {T} (x : result T) (b : behaviour T) : behaviour T :=
  match b with
  | Finished rs => Finished (x :: rs)
  | Stopped rs => Stopped (x :: rs)
  | Wrong => Wrong
  end.

Fixpoint run {T} (C : Z) (ops : list (op T)) (l : list T) : behaviour T :=
  match ops with
  | [] => Finished []
  | o :: ops' =>
      match step C o l with
      | Some (x, l') => add_result x (run C ops' l')
      | None => Stopped []
      end
  end.
End DequeSpec.

(** ** The concrete deque, observed the same way *)

Module DequeRun.
Import DequeSpec.
Section deque_run.
  Context `{SizeT} {T : Type} (h : hardening) (C : Z).

  (** Reads through the reference an accessor returned. *)
Definition read (m : M (ring T) Z) : M (ring T) (result T) :=
  let! p := m in let! v := slot_ref p in ret (RVal v).

Definition exec (o : op T) : M (ring T) (result T) :=
  match o with
  | TryPushBack v => let! b := RingCore.try_push_back C v in ret (RBool b)
  | PushBack v => read (RingCore.push_back h C v)
  | TryPushFront v => let! b := FixedDeque.try_push_front C v in ret (RBool b)
  | PushFront v => read (FixedDeque.push_front h C v)
  | PopFront => RingCore.pop_front C ;;; ret RUnit
  | PopBack => FixedDeque.pop_back C ;;; ret RUnit
  | Clear => RingCore.clear C ;;; ret RUnit
  | Front => read (RingCore.front h)
  | Back => read (RingCore.back h C)
  | At i => read (RingCore.at_ h C (Z.of_nat i))
  | Size => let! n := get FixedDeque.size in ret (RSize n)
  | Empty => let! b := get FixedDeque.empty in ret (RBool b)
  | Full => let! b := get (FixedDeque.full C) in ret (RBool b)
  end.

Fixpoint run (ops : list (op T)) (r : ring T) : behaviour T :=
  match ops with
  | [] => Finished []
  | o :: ops' =>
      match exec o r with
      | Ret x r' => add_result x (run ops' r')
      | Trap => Stopped []
      | _ => Wrong
      end
  end.
End deque_run.
End DequeRun.

Section ring_claims.
  Context `{SizeT} {T : Type} (h : hardening) (C : Z) (moved : T -> T) `{!CapacityOk C}.
  Implicit Types (r : ring T) (vs : list T).

Lemma ring_core_repr : repr C (RingCore.ring_core C) ([] : list (option T)).
Proof.
  pose proof (capacity_bounds C). split; cbn; [by rewrite length_replicate|done|lia|lia|].
  intros j Hj. unfold ring_slot. zbool. rewrite slot_lookup_nonneg by lia.
  rewrite lookup_replicate_2; [done|]. lia.
Qed.

Lemma exec_read (m : M (ring T) Z) r p r' v :
  m r = Ret p r' -> slot_lookup (storage_ r') p = Some (Some v) ->
  DequeRun.read m r = Ret (DequeSpec.RVal v) r'.
Proof.
  intros E Es. unfold DequeRun.read.
  by rewrite (bind_Ret _ _ _ _ _ E), (bind_Ret _ _ _ _ _ (ref_live p v r' Es)).
Qed.

Lemma emplace_back_full_trap r (l : list (option T)) ctor :
  h <> HARDENING_NONE -> repr C r l -> Z.of_nat (length l) = C ->
  RingCore.emplace_back h C ctor r = Trap.
Proof.
  intros Hh R E. unfold RingCore.emplace_back. mstep.
  rewrite (bind_Ret _ _ _ _ _ (try_emplace_back_full C r l ctor R E)).
  apply bind_Trap. by apply metl_assert_false.
Qed.

Lemma emplace_front_full_trap r (l : list (option T)) ctor :
  h <> HARDENING_NONE -> repr C r l -> Z.of_nat (length l) = C ->
  FixedDeque.emplace_front h C ctor r = Trap.
Proof.
  intros Hh R E. unfold FixedDeque.emplace_front. mstep.
  rewrite (bind_Ret _ _ _ _ _ (try_emplace_front_full C r l ctor R E)).
  apply bind_Trap. by apply metl_assert_false.
Qed.

Lemma read_trap (m : M (ring T) Z) r : m r = Trap -> DequeRun.read m r = Trap.
Proof. apply bind_Trap. Qed.

(** One operation of the concrete deque does what the abstract one does; where
    the abstract one stops, so does the concrete one while its checks are in. *)
Definition refines (o : DequeSpec.op T) r vs : Prop :=
  match DequeSpec.step C o vs with
  | Some (x, vs') => exists r', DequeRun.exec h C o r = Ret x r' /\ repr C r' (live vs')
  | None => h <> HARDENING_NONE -> DequeRun.exec h C o r = Trap
  end.

Lemma refines_push_back v r vs :
  repr C r (live vs) ->
  refines (DequeSpec.TryPushBack v) r vs /\ refines (DequeSpec.PushBack v) r vs.
Proof.
  intros R. pose proof (repr_cap _ _ _ R) as Hc. rewrite length_fmap in Hc.
  unfold refines; split; cbn [DequeSpec.step DequeRun.exec].
  - pose proof (try_push_back_spec C r _ v R) as S. rewrite length_fmap in S.
    case_decide; zbool; [exists r|destruct S as (r' & S & _ & R'); exists r'];
      rewrite (bind_Ret _ _ _ _ _ S); by rewrite ?fmap_app.
  - destruct (Z.eqb_spec (Z.of_nat (length vs)) C).
    + intros Hh. apply read_trap. apply (emplace_back_full_trap r (live vs)); by rewrite ?length_fmap.
    + destruct (push_back_spec h C r _ v R) as (r' & S & Hhd & R'); [rewrite length_fmap; lia|].
      exists r'. rewrite fmap_app. split; [|done]. apply (exec_read _ _ _ _ _ S).
      rewrite <- Hhd. by apply back_live.
Qed.

Lemma refines_push_front v r vs :
  repr C r (live vs) ->
  refines (DequeSpec.TryPushFront v) r vs /\ refines (DequeSpec.PushFront v) r vs.
Proof.
  intros R. pose proof (repr_cap _ _ _ R) as Hc. rewrite length_fmap in Hc.
  unfold refines; split; cbn [DequeSpec.step DequeRun.exec].
  - pose proof (try_push_front_spec C r _ v R) as S. rewrite length_fmap in S.
    case_decide; zbool; [exists r|destruct S as (r' & S & R'); exists r'];
      by rewrite (bind_Ret _ _ _ _ _ S).
  - destruct (Z.eqb_spec (Z.of_nat (length vs)) C).
    + intros Hh. apply read_trap. apply (emplace_front_full_trap r (live vs)); by rewrite ?length_fmap.
    + destruct (push_front_spec h C r _ v R) as (r' & S & Hhd & R'); [rewrite length_fmap; lia|].
      exists r'. split; [|done]. apply (exec_read _ _ _ _ _ S).
      rewrite <- Hhd. by apply front_live in R'.
Qed.

Lemma refines_pop r vs :
  repr C r (live vs) -> refines DequeSpec.PopFront r vs /\ refines DequeSpec.PopBack r vs.
Proof.
  intros R. unfold refines; split; cbn [DequeSpec.step DequeRun.exec].
  - destruct vs as [|v vs]; [intros _; apply bind_Trap; by apply (pop_front_empty C)|].
    destruct (pop_front_spec C r v _ R) as (r' & E & R'). exists r'.
    by rewrite (bind_Ret _ _ _ _ _ E).
  - destruct vs as [|v vs _] using rev_ind; [intros _; apply bind_Trap; by apply (pop_back_empty C)|].
    rewrite fmap_app in R. destruct (pop_back_spec C r v _ R) as (r' & E & R').
    rewrite length_app, Nat.add_sub, take_app_length.
    destruct (vs ++ [v]) eqn:Ev; [by destruct vs|]. exists r'. by rewrite (bind_Ret _ _ _ _ _ E).
Qed.

Lemma refines_access i r vs :
  repr C r (live vs) ->
  refines DequeSpec.Front r vs /\ refines DequeSpec.Back r vs /\ refines (DequeSpec.At i) r vs.
Proof.
  intros R. pose proof (repr_size _ _ _ R) as Hs. rewrite length_fmap in Hs.
  unfold refines; split_and!; cbn [DequeSpec.step DequeRun.exec].
  - destruct vs as [|v vs]; [intros Hh; apply read_trap; unfold RingCore.front|exists r].
    + mstep. rewrite Hs. by apply bind_Trap, metl_assert_false.
    + destruct (front_spec h C r _ v R) as [E Es]. split; [|done]. by apply (exec_read _ _ _ _ _ E).
  - destruct vs as [|v vs _] using rev_ind; [intros Hh; apply read_trap; unfold RingCore.back|].
    + mstep. rewrite Hs. by apply bind_Trap, metl_assert_false.
    + rewrite last_snoc. exists r. split; [|done]. rewrite fmap_app in R.
      destruct (back_spec h C r _ v R) as [E Es]. by apply (exec_read _ _ _ _ _ E).
  - destruct (vs !! i) as [v|] eqn:Ev.
    + exists r. split; [|done]. destruct (at_live h C r vs i v R Ev) as [E Es].
      by apply (exec_read _ _ _ _ _ E).
    + intros Hh. apply read_trap. apply (at_out_of_range h C r (live vs)); [done|done|].
      rewrite length_fmap. apply lookup_ge_None in Ev. lia.
Qed.

Lemma exec_refines o r vs : repr C r (live vs) -> refines o r vs.
Proof.
  intros R. destruct o; try by (apply refines_push_back || apply refines_push_front).
  1-2: by apply refines_pop.
  2-4: by (apply (refines_access 0) || apply refines_access).
  - unfold refines. cbn. destruct (clear_spec C r vs R) as (r' & E & R').
    exists r'. by rewrite (bind_Ret _ _ _ _ _ E).
  - exists r. cbn. unfold FixedDeque.size. rewrite (repr_size _ _ _ R), length_fmap. done.
  - exists r. cbn. unfold FixedDeque.empty. rewrite (repr_size _ _ _ R), length_fmap. done.
  - exists r. cbn. unfold FixedDeque.full. rewrite (repr_size _ _ _ R), length_fmap. done.
Qed.

Lemma run_refines ops r vs :
  h <> HARDENING_NONE -> repr C r (live vs) -> DequeRun.run h C ops r = DequeSpec.run C ops vs.
Proof.
  intros Hh. revert r vs. induction ops as [|o ops IH]; intros r vs R; [done|].
  pose proof (exec_refines o r vs R) as S. cbn [DequeRun.run DequeSpec.run].
  unfold refines in S. destruct (DequeSpec.step C o vs) as [[x vs']|].
  - destruct S as (r' & E & R'). rewrite E. f_equal. by apply IH.
  - by rewrite (S Hh).
Qed.
End ring_claims.

(** ** Properties *)

Section ring_properties.
  Context `{SizeT} {T : Type}.

(** C1. Refinement: whatever sequence of operations a program performs on a
    fresh [fixed_deque] (checks compiled in), the deque returns what a bounded
    list returns and stops exactly where the list's preconditions fail; no
    operation reads or destroys a dead slot, leaks an element or leaves the
    storage. *)
Theorem deque_refines_list (h : hardening) (C : Z) (ops : list (DequeSpec.op T)) :
  CapacityOk C -> h <> HARDENING_NONE ->
  DequeRun.run h C ops (RingCore.ring_core C) = DequeSpec.run C ops [].
Proof. intros HC Hh. exact (run_refines h C ops _ [] Hh (ring_core_repr C)). Qed.

(** The operations that change the deque, and [clear]. *)
Definition mutator (o : DequeSpec.op T) : bool :=
  match o with
  | DequeSpec.TryPushBack _ | DequeSpec.PushBack _ | DequeSpec.TryPushFront _
  | DequeSpec.PushFront _ | DequeSpec.PopFront | DequeSpec.PopBack | DequeSpec.Clear => true
  | _ => false
  end.

(** With [METL_ASSERT] stripped, the asserting pushes meet a full deque. *)
Lemma push_back_full_none C `{!CapacityOk C} r (vs : list T) v :
  repr C r (live vs) -> Z.of_nat (length vs) = C ->
  DequeRun.exec HARDENING_NONE C (DequeSpec.PushBack v) r = Trap \/
  exists x, DequeRun.exec HARDENING_NONE C (DequeSpec.PushBack v) r = Ret x r.
Proof.
  intros R E. cbn [DequeRun.exec]. unfold RingCore.push_back, DequeRun.read, RingCore.emplace_back.
  do 2 mstep. rewrite bind_assoc.
  rewrite (bind_Ret _ _ _ _ _ (try_emplace_back_full C r _ (ret v) R ltac:(by rewrite length_fmap))).
  do 2 mstep. cbn [negb]. do 2 mstep. rewrite (repr_size _ _ _ R), length_fmap, bind_assoc.
  destruct vs as [|w vs _] using rev_ind; [by left; apply bind_Trap|right].
  rewrite fmap_app in R. destruct (back_spec HARDENING_NONE C r _ w R) as [Eb Es].
  exists (DequeSpec.RVal w). rewrite length_app, Nat.add_1_r. zbool. do 2 mstep.
  by rewrite (bind_Ret _ _ _ _ _ (ref_live _ _ _ Es)).
Qed.

Lemma push_front_full_none C `{!CapacityOk C} r (vs : list T) v :
  repr C r (live vs) -> Z.of_nat (length vs) = C ->
  DequeRun.exec HARDENING_NONE C (DequeSpec.PushFront v) r = Trap \/
  exists x, DequeRun.exec HARDENING_NONE C (DequeSpec.PushFront v) r = Ret x r.
Proof.
  intros R E. cbn [DequeRun.exec]. unfold FixedDeque.push_front, DequeRun.read, FixedDeque.emplace_front.
  do 2 mstep. rewrite bind_assoc.
  rewrite (bind_Ret _ _ _ _ _ (try_emplace_front_full C r _ (ret v) R ltac:(by rewrite length_fmap))).
  do 2 mstep. cbn [negb]. do 2 mstep. rewrite (repr_size _ _ _ R), length_fmap, bind_assoc.
  destruct vs as [|w vs]; [by left; apply bind_Trap|right].
  destruct (front_spec HARDENING_NONE C r _ w R) as [Eb Es].
  exists (DequeSpec.RVal w). cbn [length]. zbool. do 2 mstep.
  by rewrite (bind_Ret _ _ _ _ _ (ref_live _ _ _ Es)).
Qed.

(** The hardening floor: at every [METL_HARDENING] level, with
    [METL_ASSERT] compiled out too, an operation that changes the deque either
    does what the bounded list does, or stops, or - a push onto a full deque at
    NONE - leaves the contents alone.  It never corrupts the ring. *)
Theorem deque_harden_floor (h : hardening) (C : Z) (o : DequeSpec.op T) (r : ring T) (vs : list T) :
  CapacityOk C -> mutator o = true -> repr C r (live vs) ->
  match DequeSpec.step C o vs with
  | Some (x, vs') => exists r', DequeRun.exec h C o r = Ret x r' /\ repr C r' (live vs')
  | None => DequeRun.exec h C o r = Trap \/
      exists x r', DequeRun.exec h C o r = Ret x r' /\ repr C r' (live vs)
  end.
Proof.
  intros HC Ho R. pose proof (exec_refines h C o r vs R) as S. unfold refines in S.
  destruct (DequeSpec.step C o vs) as [[x vs']|] eqn:E; [done|].
  destruct (decide (h = HARDENING_NONE)) as [->|]; [|by left; apply S].
  destruct o; try done; cbn [DequeSpec.step] in E.
  - destruct (Z.eqb_spec (Z.of_nat (length vs)) C) as [Hf|]; [|done].
    destruct (push_back_full_none C r vs v R Hf) as [|[x ?]]; [by left|right; by exists x, r].
  - destruct (Z.eqb_spec (Z.of_nat (length vs)) C) as [Hf|]; [|done].
    destruct (push_front_full_none C r vs v R Hf) as [|[x ?]]; [by left|right; by exists x, r].
  - destruct vs; [|done]. left. apply bind_Trap. by apply pop_front_empty.
  - destruct vs; [|done]. left. apply bind_Trap. by apply pop_back_empty.
Qed.

(** Element constructors that throw or call back.  [try_emplace_back] claims
    its slot first; then a constructor that appended [k] meanwhile leaves them
    behind its own element, one that throws leaves the ring exactly as it was
    (the strong guarantee), and one that inserts and then throws is stopped. *)
Theorem emplace_back_constructor (C : Z) (r r2 : ring T) (l k : list (option T))
    (ctor : M (ring T) T) :
  CapacityOk C -> repr C r l -> Z.of_nat (length l) < C ->
  let claimed := set_size (Z.of_nat (length l) + 1) r in
  repr C claimed (l ++ [None]) /\
  (forall v, ctor claimed = Ret v r2 -> head_ r2 = head_ r -> repr C r2 (l ++ None :: k) ->
    exists r', RingCore.try_emplace_back C ctor r = Ret true r' /\ repr C r' (l ++ Some v :: k)) /\
  (ctor claimed = Throw claimed ->
    exists r', RingCore.try_emplace_back C ctor r = Throw r' /\ r' = r) /\
  (ctor claimed = Throw r2 -> k <> [] -> repr C r2 (l ++ None :: k) ->
    RingCore.try_emplace_back C ctor r = Trap).
Proof.
  intros HC R Hl claimed. pose proof (repr_claim_back C r l R Hl) as Rc. split_and!; [done|..].
  - intros v E Hh R2. destruct (try_emplace_back_ret C r l k v ctor r2 R Hl E Hh R2) as (r' & ? & _ & ?).
    by exists r'.
  - intros E. destruct (try_emplace_back_throw C r l ctor claimed R Hl E Rc) as (r' & E' & Hh & Hst & R').
    exists r'. split; [done|]. pose proof (repr_size _ _ _ R) as Hs.
    pose proof (repr_size _ _ _ R') as Hs'. destruct r, r'; cbn in *; congruence.
  - intros E Hk R2. apply (try_emplace_back_throw_trap C r l ctor r2 R Hl E).
    rewrite (repr_size _ _ _ R2), length_app. destruct k; [done|]. cbn. lia.
Qed.

(** Value semantics: copy assignment makes the target hold the source's
    sequence and leaves the source alone, move assignment also empties the
    source, and [swap] exchanges two sequences of any lengths, whatever value
    a moved-from element holds and wherever the two heads stand. *)
Theorem ring_assign_swap (h : hardening) (C : Z) (moved : T -> T) (r o : ring T) (us vs : list T) :
  CapacityOk C -> repr C r (live us) -> repr C o (live vs) ->
  (exists r', RingCore.copy_assign h C false (r, o) = Ret tt (r', o) /\ repr C r' (live vs)) /\
  (exists r' o', RingCore.move_assign h C moved false (r, o) = Ret tt (r', o') /\
    repr C r' (live vs) /\ repr C o' []) /\
  (exists r' o', RingBuffer.swap h C moved false (r, o) = Ret tt (r', o') /\
    repr C r' (live vs) /\ repr C o' (live us)).
Proof.
  intros HC R Ro. pose proof (repr_cap _ _ _ Ro) as Hc. rewrite length_fmap in Hc.
  destruct (clear_spec C r us R) as (r1 & E1 & R1). split_and!.
  - destruct (append_copies_spec h C r1 o [] vs R1 Ro) as (r2 & E2 & R2); [done|].
    exists r2. unfold RingCore.copy_assign. by rewrite (bind_Ret _ _ _ _ _ (on_fst_Ret _ (r, o) _ _ E1)).
  - destruct (append_moves_spec h C moved r1 o [] vs R1 Ro) as (r2 & o2 & E2 & R2); [done|].
    exists r2, o2. unfold RingCore.move_assign.
    by rewrite (bind_Ret _ _ _ _ _ (on_fst_Ret _ (r, o) _ _ E1)).
  - by apply swap_core_spec.
Qed.

(** [push_overwrite] of each value in turn. *)
Fixpoint overwrite_all (h : hardening) (C : Z) (movable : bool) (ws : list T) : M (ring T) unit :=
  match ws with
  | [] => ret tt
  | w :: ws' => RingBuffer.push_overwrite h C movable (ret w) ;;; overwrite_all h C movable ws'
  end.

Lemma overwrite_all_spec h C `{!CapacityOk C} movable r (vs ws : list T) :
  0 < C -> repr C r (live vs) ->
  exists r', overwrite_all h C movable ws r = Ret tt r' /\
    repr C r' (live (drop (length vs + length ws - Z.to_nat C) (vs ++ ws))).
Proof.
  intros HC. revert r vs. induction ws as [|w ws IH]; intros r vs R.
  - pose proof (repr_cap _ _ _ R) as Hc. rewrite length_fmap in Hc.
    exists r. split; [done|]. rewrite app_nil_r.
    by replace (length vs + length [] - Z.to_nat C)%nat with 0%nat by (cbn; lia).
  - destruct (push_overwrite_spec h C r vs w movable R HC) as (p & r1 & E1 & R1 & _).
    destruct (IH _ _ R1) as (r2 & E2 & R2). exists r2. cbn [overwrite_all].
    rewrite (bind_Ret _ _ _ _ _ E1). split; [done|]. pose proof (repr_cap _ _ _ R) as Hc.
    rewrite length_fmap in Hc. case_decide; rewrite <- app_assoc in R2; cbn [app] in R2.
    + destruct vs as [|v vs]; [cbn in *; lia|]. cbn [tail length] in *. rewrite length_app in R2.
      replace (S (length vs) + S (length ws) - Z.to_nat C)%nat
        with (S (length vs + length [w] + length ws - Z.to_nat C)) by (cbn; lia). done.
    + rewrite length_app in R2. cbn [length] in *.
      by replace (length vs + S (length ws) - Z.to_nat C)%nat
        with (length vs + 1 + length ws - Z.to_nat C)%nat by lia.
Qed.

(** [ring_buffer::push_overwrite] keeps the newest [Capacity] elements, in
    order: after any number of them a fresh buffer holds the last [Capacity]
    values pushed, and it never stops or leaks the evicted ones. *)
Theorem push_overwrite_keeps_newest (h : hardening) (C : Z) (movable : bool) (ws : list T) :
  CapacityOk C -> 0 < C ->
  exists r', overwrite_all h C movable ws (RingCore.ring_core C) = Ret tt r' /\
    repr C r' (live (drop (length ws - Z.to_nat C) ws)).
Proof. intros HC Hp. by apply (overwrite_all_spec h C movable _ []), ring_core_repr. Qed.

(** The index helpers wrap without a division, by a mask for a power of two
    and by a comparison otherwise; on every valid index they compute the
    remainder modulo the capacity, and nothing overflows [size_t]. *)
Theorem ring_index_is_mod (C : Z) (r : ring T) (i j : Z) :
  CapacityOk C -> 0 <= head_ r < C -> 0 <= i < C -> 0 <= j <= C ->
  RingCore.physical_index C r j = (head_ r + j) mod C /\
  RingCore.advance C i = (i + 1) mod C /\
  RingCore.retreat C i = (i - 1) mod C.
Proof.
  intros HC Hh Hi Hj. rewrite physical_index_spec, advance_spec, retreat_spec by done.
  rewrite !ring_slot_mod by lia. split_and!; [done|done|].
  replace (i + (C - 1)) with (i - 1 + 1 * C) by lia. apply Z.mod_add. lia.
Qed.
End ring_properties.

(** ** The properties at concrete inputs *)

Section ring_witnesses.
  #[local] Existing Instance size_t_32.

Lemma capacity_ok_3 : CapacityOk 3.
Proof. split; cbn; lia. Qed.

Lemma deque_refines_list_witness :
  DequeRun.run HARDENING_FAST 3 [DequeSpec.PushBack 1; DequeSpec.PushFront 2; DequeSpec.PushBack 3;
    DequeSpec.TryPushBack 4; DequeSpec.PopFront; DequeSpec.PushBack 5; DequeSpec.Back;
    DequeSpec.At 0; DequeSpec.PushFront 6] (RingCore.ring_core 3)
  = DequeSpec.Stopped [DequeSpec.RVal 1; DequeSpec.RVal 2; DequeSpec.RVal 3; DequeSpec.RBool false;
      DequeSpec.RUnit; DequeSpec.RVal 5; DequeSpec.RVal 5; DequeSpec.RVal 1].
Proof.
  rewrite (deque_refines_list HARDENING_FAST 3 _ capacity_ok_3); [reflexivity|done].
Defined.

Definition ring_3 (vs : list Z) : ring Z :=
  match overwrite_all HARDENING_FAST 3 true vs (RingCore.ring_core 3) with
  | Ret _ r => r
  | _ => RingCore.ring_core 3
  end.

Lemma ring_3_repr (vs : list Z) :
  repr 3 (ring_3 vs) (live (drop (length vs - 3) vs)).
Proof.
  unfold ring_3. destruct (overwrite_all_spec HARDENING_FAST 3 (CapacityOk0 := capacity_ok_3) true
    (RingCore.ring_core 3) [] vs) as (r' & E & R); [lia|apply (ring_core_repr 3 (CapacityOk0 := capacity_ok_3))|].
  rewrite E. exact R.
Qed.

Lemma deque_harden_floor_witness :
  DequeRun.exec HARDENING_NONE 3 (DequeSpec.PushBack 9) (ring_3 [1; 2; 3; 4]) = Trap \/
  exists x r', DequeRun.exec HARDENING_NONE 3 (DequeSpec.PushBack 9) (ring_3 [1; 2; 3; 4]) = Ret x r' /\
    repr 3 r' (live [2; 3; 4]).
Proof.
  exact (deque_harden_floor HARDENING_NONE 3 (DequeSpec.PushBack 9) (ring_3 [1; 2; 3; 4]) [2; 3; 4]
    capacity_ok_3 eq_refl (ring_3_repr [1; 2; 3; 4])).
Defined.

Lemma emplace_back_constructor_witness :
  exists r', RingCore.try_emplace_back 3 throw (ring_3 [1; 2]) = Throw r' /\ r' = ring_3 [1; 2].
Proof.
  destruct (emplace_back_constructor 3 (ring_3 [1; 2]) (ring_3 []) (live [1; 2]) [] throw
    capacity_ok_3 (ring_3_repr [1; 2]) ltac:(cbn; lia)) as (_ & _ & Ht & _).
  by apply Ht.
Defined.

Lemma ring_assign_swap_witness :
  exists r' o', RingBuffer.swap HARDENING_FAST 3 (fun _ => 0) false (ring_3 [1; 2; 3; 4], ring_3 [5])
    = Ret tt (r', o') /\ repr 3 r' (live [5]) /\ repr 3 o' (live [2; 3; 4]).
Proof.
  exact (proj2 (proj2 (ring_assign_swap HARDENING_FAST 3 (fun _ => 0) _ _ [2; 3; 4] [5]
    capacity_ok_3 (ring_3_repr [1; 2; 3; 4]) (ring_3_repr [5])))).
Defined.

Lemma push_overwrite_keeps_newest_witness :
  exists r', overwrite_all HARDENING_FAST 3 true [1; 2; 3; 4; 5] (RingCore.ring_core 3) = Ret tt r' /\
    repr 3 r' (live [3; 4; 5]).
Proof.
  exact (push_overwrite_keeps_newest HARDENING_FAST 3 true [1; 2; 3; 4; 5] capacity_ok_3 eq_refl).
Defined.

Lemma ring_index_is_mod_witness :
  RingCore.physical_index 3 (mk_ring ([] : list (option Z)) 2 0) 2 = 1 /\
  RingCore.advance 3 2 = 0 /\ RingCore.retreat 3 0 = 2.
Proof.
  destruct (ring_index_is_mod 3 (mk_ring ([] : list (option Z)) 2 0) 2 2 capacity_ok_3)
    as (E1 & E2 & _); [cbn; lia..|].
  destruct (ring_index_is_mod 3 (mk_ring ([] : list (option Z)) 2 0) 0 2 capacity_ok_3)
    as (_ & _ & E3); [cbn; lia..|].
  rewrite E1, E2, E3. by split_and!.
Defined.
End ring_witnesses.
