(* ===== verification/FixedVector.v ===== *)
(** * [fixed_vector], and the adapter [fixed_stack]

    [include/metl/fixed_vector.hpp] and [include/metl/fixed_stack.hpp].  The
    vector is an array of slots and [size_]; an iterator is its distance from
    [begin()], so a position argument is any integer and the code's own checks
    decide whether it is in range.  A value argument is a computation on the
    vector: [ret v] for an object elsewhere, [slot_ref i] for a reference to one
    of the vector's own elements, and for [emplace] any constructor, which may
    throw or call back.  The AddressSanitizer annotations do not change the
    state and are left out. *)

From Stdlib Require Import ZArith Lia.
From stdpp Require Import base numbers list option tactics.
From S2P Require Import Prelude.
Local Open Scope Z_scope.

Record vec (T : Type) : Type := mk_vec {
  vstorage_ : slots T;
  vsize_ : Z
}.
Arguments mk_vec {T} _ _.
Arguments vstorage_ {T} _.
Arguments vsize_ {T} _.

#[export] Instance vec_has_slots T : HasSlots (vec T) T := {|
  get_slots := vstorage_;
  set_slots st v := mk_vec st (vsize_ v);
  get_set_slots st v := eq_refl
|}.

Definition set_vsize {T} (n : Z) (v : vec T) : vec T := mk_vec (vstorage_ v) n.

(** A range [first, last) given to [insert] or [assign]: pointers into this
    vector, or a sequence of values kept elsewhere. *)
Inductive range (T : Type) : Type :=
  | OwnRange (first last : Z)
  | ExternalRange (values : list T).
Arguments OwnRange {T} first last.
Arguments ExternalRange {T} values.

Module FixedVector.
Section fixed_vector.
  Context `{SizeT} {T : Type} (h : hardening) (Capacity : Z) (moved : T -> T).

Definition slot_count : nat := Z.to_nat (if Capacity =? 0 then 1 else Capacity).

Definition fixed_vector : vec T := mk_vec (replicate slot_count None) 0.

Definition empty (v : vec T) : bool := vsize_ v =? 0.
Definition full (v : vec T) : bool := vsize_ v =? Capacity.
Definition size (v : vec T) : Z := vsize_ v.

  (** [operator[]] and [at]: the reference is the index of the element. *)
Definition at_ (index : Z) : M (vec T) Z :=
  let! n := get vsize_ in
  metl_assert h (index <? n) ;;;
  slot_ref index ;;; ret index.

Definition front : M (vec T) Z :=
  let! n := get vsize_ in
  metl_assert h (0 <? n) ;;;
  slot_ref 0 ;;; ret 0.

Definition back : M (vec T) Z :=
  let! n := get vsize_ in
  metl_assert h (0 <? n) ;;;
  slot_ref (wrap (n - 1)) ;;; ret (wrap (n - 1)).

Definition try_emplace_back (ctor : M (vec T) T) : M (vec T) bool :=
  let! f := get full in
  if f then ret false
  else
    let! index := get vsize_ in
    modify (fun v => set_vsize (wrap (vsize_ v + 1)) v) ;;;
    guarded (let! x := ctor in slot_construct index x)
      (let! n := get vsize_ in
       metl_harden (n =? wrap (index + 1)) ;;;
       modify (fun v => set_vsize (wrap (vsize_ v - 1)) v)) ;;;
    ret true.

Definition emplace_back (ctor : M (vec T) T) : M (vec T) Z :=
  let! index := get vsize_ in
  let! inserted := try_emplace_back ctor in
  metl_assert h inserted ;;;
  if negb inserted then
    let! n := get vsize_ in
    metl_harden (0 <? n) ;;;
    back
  else slot_ref index ;;; ret index.

Definition try_push_back (value : M (vec T) T) : M (vec T) bool := try_emplace_back value.
Definition push_back (value : M (vec T) T) : M (vec T) Z := emplace_back value.

Definition pop_back : M (vec T) unit :=
  let! n := get vsize_ in
  metl_harden (0 <? n) ;;;
  modify (fun v => set_vsize (wrap (vsize_ v - 1)) v) ;;;
  let! n' := get vsize_ in
  slot_destroy n'.

  (** Each turn removes one element, so [size_] turns are enough. *)
Definition clear : M (vec T) unit := fun v =>
  while_loop (Z.to_nat (vsize_ v)) (fun v => 0 <? vsize_ v) pop_back v.

Definition check_position (pos : Z) : M (vec T) unit :=
  let! n := get vsize_ in
  metl_harden ((0 <=? pos) && (pos <=? n)).

  (** [data()[i] = static_cast<T&&>(data()[j])]. *)
Definition move_element (i j : Z) : M (vec T) unit :=
  let! x := slot_move_out moved j in slot_assign i x.

Definition emplace (pos : Z) (ctor : M (vec T) T) : M (vec T) Z :=
  check_position pos ;;;
  let! n := get vsize_ in
  metl_harden (n <? Capacity) ;;;
  let index := pos in
  if index =? n then emplace_back ctor ;;; ret index
  else
    let! value := ctor in
    let! n := get vsize_ in
    let! last := slot_move_out moved (wrap (n - 1)) in
    slot_construct n last ;;;
    modify (fun v => set_vsize (wrap (vsize_ v + 1)) v) ;;;
    let! n' := get vsize_ in
    for_down (Z.to_nat (wrap (n' - 2) - index)) (wrap (n' - 2)) (fun i => move_element i (i - 1)) ;;;
    slot_assign index value ;;;
    ret index.

Definition insert (pos : Z) (value : M (vec T) T) : M (vec T) Z := emplace pos value.

Definition try_emplace (pos : Z) (ctor : M (vec T) T) : M (vec T) Z :=
  check_position pos ;;;
  let! n := get vsize_ in
  if n =? Capacity then ret n else emplace pos ctor.

Definition try_insert (pos : Z) (value : M (vec T) T) : M (vec T) Z := try_emplace pos value.

Definition insert_n (pos n : Z) (value : M (vec T) T) : M (vec T) Z :=
  check_position pos ;;;
  let! sz := get vsize_ in
  metl_assert h (n <=? wrap (Capacity - sz)) ;;;
  let index := pos in
  if n =? 0 then ret index
  else
    let! copy := value in
    for_up (Z.to_nat n) 0 (fun i => emplace (index + i) (ret copy) ;;; ret tt) ;;;
    ret index.

Definition try_insert_n (pos n : Z) (value : M (vec T) T) : M (vec T) Z :=
  check_position pos ;;;
  let! sz := get vsize_ in
  if wrap (Capacity - sz) <? n then ret sz else insert_n pos n value.

Definition aliases_own_storage (rg : range T) : bool :=
  match rg with
  | OwnRange first last => negb (first =? last) && ((0 <=? first) && (first <? Capacity))
  | ExternalRange _ => false
  end.

  (** [std::distance(first, last)], converted to [size_type]. *)
Definition range_length (rg : range T) : Z :=
  match rg with
  | OwnRange first last => wrap (last - first)
  | ExternalRange values => Z.of_nat (length values)
  end.

  (** The elements as the loop reads them, through [*it]. *)
Definition range_reads (rg : range T) : list (M (vec T) T) :=
  match rg with
  | OwnRange first last => (fun i => slot_ref (first + Z.of_nat i)) <$> seq 0 (Z.to_nat (last - first))
  | ExternalRange values => ret <$> values
  end.

Fixpoint insert_reads (pos : Z) (reads : list (M (vec T) T)) : M (vec T) unit :=
  match reads with
  | [] => ret tt
  | x :: reads' => emplace pos x ;;; insert_reads (pos + 1) reads'
  end.

Definition insert_range (pos : Z) (rg : range T) : M (vec T) Z :=
  check_position pos ;;;
  metl_assert h (negb (aliases_own_storage rg)) ;;;
  insert_reads pos (range_reads rg) ;;;
  ret pos.

Definition try_insert_range (pos : Z) (rg : range T) : M (vec T) Z :=
  check_position pos ;;;
  let! sz := get vsize_ in
  if wrap (Capacity - sz) <? range_length rg then ret sz else insert_range pos rg.

Definition erase (pos : Z) : M (vec T) Z :=
  let! n := get vsize_ in
  metl_harden ((0 <=? pos) && (pos <? n)) ;;;
  let index := pos in
  for_up (Z.to_nat (n - 1 - index)) index (fun i => move_element i (i + 1)) ;;;
  modify (fun v => set_vsize (wrap (vsize_ v - 1)) v) ;;;
  let! n' := get vsize_ in
  slot_destroy n' ;;;
  ret index.

Definition erase_range (first last : Z) : M (vec T) Z :=
  let! n := get vsize_ in
  metl_harden (((0 <=? first) && (last <=? n)) && (first <=? last)) ;;;
  let erase_count := wrap (last - first) in
  if erase_count =? 0 then ret first
  else
    for_up (Z.to_nat (n - last)) last (fun i => move_element (i - erase_count) i) ;;;
    let! old_size := get vsize_ in
    modify (fun v => set_vsize (wrap (vsize_ v - erase_count)) v) ;;;
    let! n' := get vsize_ in
    for_up (Z.to_nat (old_size - n')) n' (fun i => slot_destroy i) ;;;
    ret first.

  (** [resize]; [value] is what each new element is built from, [T()] or a
      copy of the argument. *)
Definition resize (n : Z) (value : M (vec T) T) : M (vec T) unit :=
  metl_harden (n <=? Capacity) ;;;
  let! sz := get vsize_ in
  if n <? sz then
    fun v => while_loop (Z.to_nat (vsize_ v - n)) (fun v => n <? vsize_ v) pop_back v
  else
    fun v => while_loop (Z.to_nat (n - vsize_ v)) (fun v => vsize_ v <? n)
      (emplace_back value ;;; ret tt) v.

Definition try_resize (n : Z) (value : M (vec T) T) : M (vec T) bool :=
  if Capacity <? n then ret false else resize n value ;;; ret true.

Definition assign (n : Z) (value : M (vec T) T) : M (vec T) unit :=
  metl_assert h (n <=? Capacity) ;;;
  let! copy := value in
  clear ;;;
  for_up (Z.to_nat n) 0 (fun _ => emplace_back (ret copy) ;;; ret tt).

Definition try_assign (n : Z) (value : M (vec T) T) : M (vec T) bool :=
  if Capacity <? n then ret false else assign n value ;;; ret true.

Fixpoint append_reads (reads : list (M (vec T) T)) : M (vec T) unit :=
  match reads with
  | [] => ret tt
  | x :: reads' =>
      let! n := get vsize_ in
      metl_assert h (n <? Capacity) ;;;
      emplace_back x ;;;
      append_reads reads'
  end.

Definition assign_range (rg : range T) : M (vec T) unit :=
  metl_harden (negb (aliases_own_storage rg)) ;;;
  clear ;;;
  append_reads (range_reads rg).

Definition try_assign_range (rg : range T) : M (vec T) bool :=
  if Capacity <? range_length rg then ret false else assign_range rg ;;; ret true.

  (** [fixed_vector(std::initializer_list<T>)]. *)
Definition from_list (il : list T) : outcome (vec T) unit :=
  (metl_assert h (Z.of_nat (length il) <=? Capacity) ;;;
   foldr (fun x k => emplace_back (ret x) ;;; k) (ret tt) il) fixed_vector.

  (** The copy and move loops, over a state that holds [*this] and [other]. *)
Definition append_copies : M (vec T * vec T) unit :=
  let! n := on_snd (get vsize_) in
  for_up (Z.to_nat n) 0 (fun i =>
    let! x := on_snd (slot_ref i) in
    on_fst (emplace_back (ret x)) ;;; ret tt).

Definition append_moves : M (vec T * vec T) unit :=
  let! n := on_snd (get vsize_) in
  for_up (Z.to_nat n) 0 (fun i =>
    let! x := on_snd (slot_move_out moved i) in
    on_fst (emplace_back (ret x)) ;;; ret tt) ;;;
  on_snd clear.

Definition copy_construct (other : vec T) : outcome (vec T * vec T) unit :=
  append_copies (fixed_vector, other).
Definition move_construct (other : vec T) : outcome (vec T * vec T) unit :=
  append_moves (fixed_vector, other).
Definition copy_assign (self : bool) : M (vec T * vec T) unit :=
  if self then ret tt else on_fst clear ;;; append_copies.
Definition move_assign (self : bool) : M (vec T * vec T) unit :=
  if self then ret tt else on_fst clear ;;; append_moves.

  (** [std::swap(data()[i], other.data()[i])]. *)
Definition swap_elements (i : Z) : M (vec T * vec T) unit :=
  let! x := on_fst (slot_move_out moved i) in
  let! y := on_snd (slot_move_out moved i) in
  on_fst (slot_assign i y) ;;; on_snd (slot_assign i x).

  (** The tail of [swap]: the shorter vector is first in the state. *)
Definition move_tail : M (vec T * vec T) unit :=
  let! old_shorter := on_fst (get vsize_) in
  let! n := on_snd (get vsize_) in
  for_up (Z.to_nat (n - old_shorter)) old_shorter (fun i =>
    let! x := on_snd (slot_move_out moved i) in
    on_fst (slot_construct i x) ;;;
    on_fst (modify (fun v => set_vsize (wrap (vsize_ v + 1)) v))) ;;;
  for_down (Z.to_nat (n - old_shorter)) n (fun i => on_snd (slot_destroy (i - 1))) ;;;
  on_snd (modify (set_vsize old_shorter)).

Definition swap (self : bool) : M (vec T * vec T) unit :=
  if self then ret tt
  else
    let! n1 := on_fst (get vsize_) in
    let! n2 := on_snd (get vsize_) in
    let common := if n1 <? n2 then n1 else n2 in
    for_up (Z.to_nat common) 0 swap_elements ;;;
    if n1 =? n2 then ret tt
    else if n1 <? n2 then move_tail
    else swapped move_tail.

  (** [operator==]; [eqb] is the element's. *)
Fixpoint equal_from (eqb : T -> T -> bool) (n : nat) (i : Z) : M (vec T * vec T) bool :=
  match n with
  | O => ret true
  | S n' =>
      let! p := on_fst (at_ i) in let! x := on_fst (slot_ref p) in
      let! q := on_snd (at_ i) in let! y := on_snd (slot_ref q) in
      if negb (eqb x y) then ret false else equal_from eqb n' (i + 1)
  end.
Definition equal (eqb : T -> T -> bool) : M (vec T * vec T) bool :=
  let! n1 := on_fst (get size) in
  let! n2 := on_snd (get size) in
  if negb (n1 =? n2) then ret false else equal_from eqb (Z.to_nat n1) 0.

  (** [operator<]; [ltb] is the element's. *)
Fixpoint less_from (ltb : T -> T -> bool) (n : nat) (i : Z) (otherwise : bool) : M (vec T * vec T) bool :=
  match n with
  | O => ret otherwise
  | S n' =>
      let! p := on_fst (at_ i) in let! x := on_fst (slot_ref p) in
      let! q := on_snd (at_ i) in let! y := on_snd (slot_ref q) in
      if ltb x y then ret true
      else if ltb y x then ret false
      else less_from ltb n' (i + 1) otherwise
  end.
Definition less (ltb : T -> T -> bool) : M (vec T * vec T) bool :=
  let! n1 := on_fst (get size) in
  let! n2 := on_snd (get size) in
  less_from ltb (Z.to_nat (if n1 <? n2 then n1 else n2)) 0 (n1 <? n2).

  (** The compacting loop of [erase_if]; the result is the final [write]. *)
Fixpoint compact (pred : T -> bool) (n : nat) (write read : Z) : M (vec T) Z :=
  match n with
  | O => ret write
  | S n' =>
      let! p := at_ read in let! x := slot_ref p in
      if negb (pred x) then
        (if negb (write =? read) then
           let! p := at_ read in let! y := slot_move_out moved p in
           let! w := at_ write in slot_assign w y
         else ret tt) ;;;
        compact pred n' (write + 1) (read + 1)
      else compact pred n' write (read + 1)
  end.
Definition erase_if (pred : T -> bool) : M (vec T) Z :=
  let! old_size := get size in
  let! write := compact pred (Z.to_nat old_size) 0 0 in
  (fun v => while_loop (Z.to_nat (vsize_ v - write)) (fun v => write <? vsize_ v) pop_back v) ;;;
  ret (old_size - write).
End fixed_vector.
End FixedVector.

(** [fixed_stack] holds one [fixed_vector] and forwards to it. *)
Module FixedStack.
Section fixed_stack.
  Context `{SizeT} {T : Type} (h : hardening) (Capacity : Z) (moved : T -> T).

Definition empty (s : vec T) : bool := FixedVector.empty s.
Definition full (s : vec T) : bool := FixedVector.full Capacity s.
Definition size (s : vec T) : Z := FixedVector.size s.
Definition top : M (vec T) Z := FixedVector.back h.
Definition try_emplace (ctor : M (vec T) T) : M (vec T) bool :=
  FixedVector.try_emplace_back Capacity ctor.
Definition emplace (ctor : M (vec T) T) : M (vec T) Z := FixedVector.emplace_back h Capacity ctor.
Definition try_push (value : M (vec T) T) : M (vec T) bool := FixedVector.try_push_back Capacity value.
Definition push (value : M (vec T) T) : M (vec T) Z := FixedVector.push_back h Capacity value.
Definition pop : M (vec T) unit := FixedVector.pop_back.
Definition clear : M (vec T) unit := FixedVector.clear.
Definition swap (self : bool) : M (vec T * vec T) unit := FixedVector.swap moved self.
End fixed_stack.
End FixedStack.
