(* ===== verification/FixedVectorFacts.v ===== *)
(** * [fixed_vector]: representation and correctness of its operations *)

From Stdlib Require Import ZArith Lia.
From stdpp Require Import base numbers list option tactics.
From S2P Require Import Prelude FixedVector.
Local Open Scope Z_scope.

Section vector_facts.
  Context `{SizeT} {T : Type} (h : hardening) (C : Z) (moved : T -> T) `{!CapacityOk C}.
  Implicit Types (l k : list (option T)) (vs ws : list T) (x y : T).

  (** The vector that holds the sequence [l] and nothing else: [Some v] is an
      element, [None] a slot claimed and not yet constructed. *)
Definition vec_of l : vec T :=
  mk_vec (l ++ replicate (FixedVector.slot_count C - length l) None) (Z.of_nat (length l)).

Definition fits l : Prop := Z.of_nat (length l) <= C.

Lemma slot_count_spec :
  0 <= C /\ 2 * C < 2 ^ size_bits /\ C <= Z.of_nat (FixedVector.slot_count C) /\
  (0 < C -> Z.of_nat (FixedVector.slot_count C) = C).
Proof.
  pose proof (capacity_bounds C). unfold FixedVector.slot_count.
  destruct (Z.eqb_spec C 0); lia.
Qed.

Ltac vec_lia := pose proof slot_count_spec; unfold fits in *; lia.

Lemma vec_init : FixedVector.fixed_vector C = vec_of [].
Proof. unfold FixedVector.fixed_vector, vec_of. by rewrite Nat.sub_0_r. Qed.

Lemma vsize_vec_of l : vsize_ (vec_of l) = Z.of_nat (length l).
Proof. done. Qed.

(** *** Slots *)

Lemma vec_slot l (i : nat) o :
  l !! i = Some o -> slot_lookup (vstorage_ (vec_of l)) (Z.of_nat i) = Some o.
Proof.
  intros E. rewrite slot_lookup_of_nat. cbn. rewrite lookup_app_l; [done|]. by eapply lookup_lt_Some.
Qed.

Lemma vec_slot_set l (i : nat) o :
  (i < length l)%nat ->
  set_slots (slot_set (vstorage_ (vec_of l)) (Z.of_nat i) o) (vec_of l) = vec_of (<[i := o]> l).
Proof.
  intros. unfold vec_of, slot_set; cbn. rewrite Nat2Z.id, insert_app_l, length_insert by done. done.
Qed.

Lemma vec_ref l (i : nat) x :
  l !! i = Some (Some x) -> slot_ref (Z.of_nat i) (vec_of l) = Ret x (vec_of l).
Proof. intros E. exact (slot_ref_live _ x (vec_of l) (vec_slot l i _ E)). Qed.

Lemma vec_assign l (i : nat) x y :
  l !! i = Some (Some x) ->
  slot_assign (Z.of_nat i) y (vec_of l) = Ret tt (vec_of (<[i := Some y]> l)).
Proof.
  intros E. rewrite <- vec_slot_set by (by eapply lookup_lt_Some).
  exact (slot_assign_live _ y x (vec_of l) (vec_slot l i _ E)).
Qed.

Lemma vec_move l (i : nat) x :
  l !! i = Some (Some x) ->
  slot_move_out moved (Z.of_nat i) (vec_of l) = Ret x (vec_of (<[i := Some (moved x)]> l)).
Proof.
  intros E. rewrite <- vec_slot_set by (by eapply lookup_lt_Some).
  exact (slot_move_out_live moved _ x (vec_of l) (vec_slot l i _ E)).
Qed.

Lemma vec_construct l (i : nat) y :
  l !! i = Some None ->
  slot_construct (Z.of_nat i) y (vec_of l) = Ret tt (vec_of (<[i := Some y]> l)).
Proof.
  intros E. rewrite <- vec_slot_set by (by eapply lookup_lt_Some).
  exact (slot_construct_dead _ y (vec_of l) (vec_slot l i _ E)).
Qed.

(** Claiming a slot at the back, and giving it up. *)
Lemma vec_claim l :
  fits (l ++ [None]) -> set_vsize (Z.of_nat (length l) + 1) (vec_of l) = vec_of (l ++ [None]).
Proof.
  intros Hf. unfold fits in Hf. rewrite length_app in Hf. cbn in Hf.
  unfold vec_of, set_vsize; cbn [vstorage_]. rewrite length_app, <- app_assoc. cbn [length app].
  f_equal; [|lia]. f_equal.
  replace (FixedVector.slot_count C - length l)%nat
    with (S (FixedVector.slot_count C - (length l + 1))) by vec_lia. done.
Qed.

Lemma vec_unclaim l :
  fits (l ++ [None]) -> set_vsize (Z.of_nat (length l)) (vec_of (l ++ [None])) = vec_of l.
Proof. intros Hf. by rewrite <- vec_claim by done. Qed.

(** A constructor that reads [x], perhaps from one of the elements [vs], and
    changes nothing. *)
Definition reads (m : M (vec T) T) x vs : Prop :=
  forall l, m (vec_of ((Some <$> vs) ++ l)) = Ret x (vec_of ((Some <$> vs) ++ l)).

Lemma reads_ret x vs : reads (ret x) x vs.
Proof. done. Qed.

Lemma reads_element (i : nat) x vs : vs !! i = Some x -> reads (slot_ref (Z.of_nat i)) x vs.
Proof.
  intros E l. apply vec_ref. rewrite lookup_app_l; [by rewrite list_lookup_fmap, E|].
  rewrite length_fmap. by eapply lookup_lt_Some.
Qed.

(** *** Appending *)

Lemma vec_try_emplace_full l ctor :
  Z.of_nat (length l) = C -> FixedVector.try_emplace_back C ctor (vec_of l) = Ret false (vec_of l).
Proof.
  intros E. unfold FixedVector.try_emplace_back, FixedVector.full. mstep.
  rewrite vsize_vec_of. by zbool.
Qed.

Lemma vec_try_emplace_room l ctor :
  fits (l ++ [None]) ->
  FixedVector.try_emplace_back C ctor (vec_of l) =
    (guarded (let! x := ctor in slot_construct (Z.of_nat (length l)) x)
      (let! n := get vsize_ in
       metl_harden (n =? Z.of_nat (length l) + 1) ;;;
       modify (fun v => set_vsize (wrap (vsize_ v - 1)) v)) ;;;
     ret true) (vec_of (l ++ [None])).
Proof.
  intros Hf. rewrite <- vec_claim by done. unfold fits in Hf. rewrite length_app in Hf. cbn in Hf.
  pose proof slot_count_spec. unfold FixedVector.try_emplace_back, FixedVector.full.
  mstep. rewrite vsize_vec_of. zbool. do 2 mstep. rewrite vsize_vec_of. by zbool.
Qed.

Lemma vec_fill l k x :
  slot_construct (Z.of_nat (length l)) x (vec_of (l ++ None :: k)) = Ret tt (vec_of (l ++ Some x :: k)).
Proof.
  rewrite vec_construct by (by rewrite list_lookup_middle).
  do 2 f_equal. rewrite insert_app_r_alt, Nat.sub_diag by done. done.
Qed.

Lemma vec_try_emplace_ret l k x ctor :
  fits (l ++ [None]) -> ctor (vec_of (l ++ [None])) = Ret x (vec_of (l ++ None :: k)) ->
  FixedVector.try_emplace_back C ctor (vec_of l) = Ret true (vec_of (l ++ Some x :: k)).
Proof.
  intros Hf E. rewrite vec_try_emplace_room by done. erewrite bind_Ret; [done|].
  apply guarded_Ret. rewrite (bind_Ret _ _ _ _ _ E). apply vec_fill.
Qed.

Lemma vec_try_emplace_throw l ctor :
  fits (l ++ [None]) -> ctor (vec_of (l ++ [None])) = Throw (vec_of (l ++ [None])) ->
  FixedVector.try_emplace_back C ctor (vec_of l) = Throw (vec_of l).
Proof.
  intros Hf E. rewrite vec_try_emplace_room by done. apply bind_Throw.
  eapply guarded_Throw; [by apply bind_Throw|]. mstep. rewrite vsize_vec_of, length_app. cbn [length].
  zbool. mstep. unfold modify. rewrite <- (vec_unclaim l) by done. rewrite vsize_vec_of, length_app.
  pose proof (length_app l [@None T]). unfold fits in Hf. cbn [length] in *.
  do 2 f_equal. rewrite wrap_small; vec_lia.
Qed.

Lemma vec_try_emplace_trap l k ctor :
  fits (l ++ [None]) -> k <> [] -> ctor (vec_of (l ++ [None])) = Throw (vec_of (l ++ None :: k)) ->
  FixedVector.try_emplace_back C ctor (vec_of l) = Trap.
Proof.
  intros Hf Hk E. rewrite vec_try_emplace_room by done. apply bind_Trap.
  eapply guarded_undo_Trap; [by apply bind_Throw|]. mstep. rewrite vsize_vec_of, length_app.
  destruct k; [done|]. cbn [length]. zbool. by apply bind_Trap.
Qed.

Lemma vec_emplace_back_ret l k x ctor :
  fits (l ++ [None]) -> ctor (vec_of (l ++ [None])) = Ret x (vec_of (l ++ None :: k)) ->
  FixedVector.emplace_back h C ctor (vec_of l) = Ret (Z.of_nat (length l)) (vec_of (l ++ Some x :: k)).
Proof.
  intros Hf E. unfold FixedVector.emplace_back. mstep.
  rewrite (bind_Ret _ _ _ _ _ (vec_try_emplace_ret l k x ctor Hf E)). mstep. cbn [negb].
  rewrite vsize_vec_of. erewrite bind_Ret; [done|]. apply vec_ref. by rewrite list_lookup_middle.
Qed.

Lemma vec_push vs x ctor :
  Z.of_nat (length vs) < C -> reads ctor x vs ->
  FixedVector.emplace_back h C ctor (vec_of (Some <$> vs)) =
    Ret (Z.of_nat (length vs)) (vec_of (Some <$> vs ++ [x])).
Proof.
  intros Hl Hr. rewrite fmap_app. rewrite <- (length_fmap Some vs).
  apply (vec_emplace_back_ret _ []); [|apply Hr].
  unfold fits. rewrite length_app, length_fmap. cbn. lia.
Qed.

(** *** Removing from the back *)

Lemma vec_drop_last l x : 
  fits (l ++ [Some x]) ->
  (modify (fun v => set_vsize (wrap (vsize_ v - 1)) v) ;;;
   let! n := get vsize_ in slot_destroy n) (vec_of (l ++ [Some x])) = Ret tt (vec_of l).
Proof.
  intros Hf. unfold fits in Hf. rewrite length_app in Hf. cbn in Hf. pose proof slot_count_spec.
  do 2 mstep. cbn [vsize_ set_vsize]. rewrite vsize_vec_of, length_app. cbn [length].
  rewrite wrap_small by lia. replace (Z.of_nat (length l + 1) - 1) with (Z.of_nat (length l)) by lia.
  rewrite (slot_destroy_live _ x).
  - cbn. unfold slot_set. rewrite Nat2Z.id, <- app_assoc, insert_app_r_alt by done.
    rewrite Nat.sub_diag, length_app. cbn. unfold vec_of.
    replace (FixedVector.slot_count C - length l)%nat
      with (S (FixedVector.slot_count C - (length l + 1))) by lia. done.
  - apply (vec_slot (l ++ [Some x])). by rewrite list_lookup_middle.
Qed.

Lemma vec_pop_back l x :
  fits (l ++ [Some x]) -> FixedVector.pop_back (vec_of (l ++ [Some x])) = Ret tt (vec_of l).
Proof.
  intros Hf. rewrite <- (vec_drop_last l x Hf). unfold FixedVector.pop_back.
  mstep. rewrite vsize_vec_of, length_app. cbn [length]. zbool. by mstep.
Qed.

Lemma vec_pop_back_empty : FixedVector.pop_back (vec_of []) = Trap.
Proof. done. Qed.

(** Popping down to the elements [l]. *)
Lemma vec_shrink l ws :
  fits (l ++ (Some <$> ws)) ->
  while_loop (length ws) (fun v => Z.of_nat (length l) <? vsize_ v) FixedVector.pop_back
    (vec_of (l ++ (Some <$> ws))) = Ret tt (vec_of l).
Proof.
  induction ws as [|w ws IH] using rev_ind; intros Hf.
  - rewrite app_nil_r. cbn. by zbool.
  - rewrite fmap_app, app_assoc in Hf |- *. change (Some <$> [w]) with [Some w] in *.
    rewrite length_app, Nat.add_1_r. cbn [while_loop].
    pose proof (vec_pop_back _ w Hf) as E. unfold fits in *. rewrite length_app in Hf.
    rewrite vsize_vec_of, !length_app. cbn [length] in *. zbool.
    rewrite (bind_Ret _ _ _ _ _ E). apply IH. lia.
Qed.

Lemma vec_clear vs :
  fits (Some <$> vs) -> FixedVector.clear (vec_of (Some <$> vs)) = Ret tt (vec_of []).
Proof.
  intros Hf. unfold FixedVector.clear. rewrite vsize_vec_of, Nat2Z.id, length_fmap.
  exact (vec_shrink [] vs Hf).
Qed.

(** *** A vector with no claimed slot *)

Definition hold vs : vec T := vec_of (Some <$> vs).

Lemma vsize_hold vs : vsize_ (hold vs) = Z.of_nat (length vs).
Proof. unfold hold. by rewrite vsize_vec_of, length_fmap. Qed.

Lemma hold_ref vs (i : nat) x :
  vs !! i = Some x -> slot_ref (Z.of_nat i) (hold vs) = Ret x (hold vs).
Proof. intros E. apply vec_ref. by rewrite list_lookup_fmap, E. Qed.

Lemma hold_assign vs (i : nat) y :
  (i < length vs)%nat -> slot_assign (Z.of_nat i) y (hold vs) = Ret tt (hold (<[i := y]> vs)).
Proof.
  intros Hi. destruct (lookup_lt_is_Some_2 vs i Hi) as [x E]. unfold hold.
  rewrite list_fmap_insert. apply (vec_assign _ _ x). by rewrite list_lookup_fmap, E.
Qed.

Lemma hold_move vs (i : nat) x :
  vs !! i = Some x -> slot_move_out moved (Z.of_nat i) (hold vs) = Ret x (hold (<[i := moved x]> vs)).
Proof.
  intros E. unfold hold. rewrite list_fmap_insert. apply vec_move. by rewrite list_lookup_fmap, E.
Qed.

Lemma hold_move_element vs (i j : nat) x :
  vs !! j = Some x -> (i < length vs)%nat ->
  FixedVector.move_element moved (Z.of_nat i) (Z.of_nat j) (hold vs) =
    Ret tt (hold (<[i := x]> (<[j := moved x]> vs))).
Proof.
  intros E Hi. unfold FixedVector.move_element. rewrite (bind_Ret _ _ _ _ _ (hold_move vs j x E)).
  apply hold_assign. by rewrite length_insert.
Qed.

(** *** Inserting in the middle *)

(** The shift of [emplace]: a gap opens at the back and moves down to [i]. *)
Lemma shift_right vs (i : nat) m :
  (i < length vs)%nat ->
  exists m', for_down (length vs - 1 - i) (Z.of_nat (length vs) - 1)
    (fun j => FixedVector.move_element moved j (j - 1))
    (hold (take (length vs - 1) vs ++ m :: drop (length vs - 1) vs)) =
    Ret tt (hold (take i vs ++ m' :: drop i vs)).
Proof.
  intros Hi.
  destruct (for_down_inv (fun j s => exists m, s = hold (take (Z.to_nat j) vs ++ m :: drop (Z.to_nat j) vs))
    (fun j => FixedVector.move_element moved j (j - 1)) (length vs - 1 - i) (Z.of_nat (length vs) - 1)
    (hold (take (length vs - 1) vs ++ m :: drop (length vs - 1) vs))) as (s' & E & m' & ->).
  - exists m. by replace (Z.to_nat (Z.of_nat (length vs) - 1)) with (length vs - 1)%nat by lia.
  - intros j s Hj [m0 ->]. set (n := Z.to_nat (j - 1)).
    destruct (lookup_lt_is_Some_2 vs n) as [x Ex]; [lia|].
    replace (Z.to_nat j) with (S n) by lia.
    rewrite (take_S_r vs n x Ex), <- app_assoc. cbn [app].
    exists (hold (take n vs ++ moved x :: x :: drop (S n) vs)). split.
    + replace j with (Z.of_nat (S n)) by lia. replace (Z.of_nat (S n) - 1) with (Z.of_nat n) by lia.
      assert (length (take n vs) = n) as Hn by (rewrite length_take; lia).
      rewrite (hold_move_element _ _ _ x); [|by rewrite list_lookup_middle|rewrite length_app; cbn; lia].
      do 2 f_equal. rewrite insert_middle_at by done.
      replace (take n vs ++ moved x :: m0 :: drop (S n) vs)
        with ((take n vs ++ [moved x]) ++ m0 :: drop (S n) vs) by (by rewrite <- app_assoc).
      rewrite insert_middle_at by (rewrite length_app; cbn; lia). by rewrite <- app_assoc.
    + exists (moved x). by rewrite (drop_S vs x n Ex).
  - exists m'. rewrite E.
    by replace (Z.to_nat (Z.of_nat (length vs) - 1 - Z.of_nat (length vs - 1 - i))) with i by lia.
Qed.

(** Constructing in the first spare slot, then counting it. *)
Lemma vec_construct_spare l x :
  fits (l ++ [None]) ->
  (slot_construct (Z.of_nat (length l)) x ;;;
   modify (fun v => set_vsize (wrap (vsize_ v + 1)) v)) (vec_of l) = Ret tt (vec_of (l ++ [Some x])).
Proof.
  intros Hf. pose proof slot_count_spec. pose proof (vec_claim l Hf) as Ecl.
  assert (vstorage_ (vec_of l) = vstorage_ (vec_of (l ++ [None]))) as Est by (by rewrite <- Ecl).
  assert (slot_lookup (vstorage_ (vec_of (l ++ [None]))) (Z.of_nat (length l)) = Some None) as Es
    by (apply (vec_slot (l ++ [None])); by rewrite list_lookup_middle).
  unfold fits in Hf. rewrite length_app in Hf. cbn in Hf.
  rewrite (bind_Ret _ _ _ tt (mk_vec (slot_set (vstorage_ (vec_of (l ++ [None]))) (Z.of_nat (length l)) (Some x))
    (Z.of_nat (length l)))).
  - unfold modify, set_vsize. cbn [vsize_ vstorage_]. rewrite wrap_small by lia.
    rewrite <- (insert_middle_at l [] (length l) None (Some x)) by done.
    rewrite <- vec_slot_set by (rewrite length_app; cbn; lia). cbn. rewrite length_app. cbn.
    do 2 f_equal. lia.
  - rewrite <- Est in Es |- *. exact (slot_construct_dead _ x (vec_of l) Es).
Qed.

Lemma hold_emplace vs (i : nat) x ctor :
  Z.of_nat (length vs) < C -> (i <= length vs)%nat -> reads ctor x vs ->
  FixedVector.emplace h C moved (Z.of_nat i) ctor (hold vs) =
    Ret (Z.of_nat i) (hold (take i vs ++ x :: drop i vs)).
Proof.
  intros Hl Hi Hr. pose proof slot_count_spec as Hsc.
  unfold FixedVector.emplace, FixedVector.check_position.
  do 2 mstep. rewrite vsize_hold. zbool. cbn [andb]. do 2 mstep. rewrite vsize_hold. zbool. mstep.
  destruct (Z.eqb_spec (Z.of_nat i) (Z.of_nat (length vs))).
  { rewrite (bind_Ret _ _ _ _ _ (vec_push vs x ctor Hl Hr)). by rewrite take_ge, drop_ge by lia. }
  pose proof (Hr []) as E. rewrite app_nil_r in E. fold (hold vs) in E. do 2 mstep.
  destruct (lookup_lt_is_Some_2 vs (length vs - 1)) as [z Ez]; [lia|]. rewrite vsize_hold. zbool.
  replace (Z.of_nat (length vs) - 1) with (Z.of_nat (length vs - 1)) by lia.
  rewrite (bind_Ret _ _ _ _ _ (hold_move vs _ z Ez)), <- bind_assoc.
  pose proof (vec_construct_spare (Some <$> <[(length vs - 1)%nat := moved z]> vs) z) as Ec.
  rewrite length_fmap, length_insert in Ec. rewrite (bind_Ret _ _ _ _ _ (Ec ltac:(
    unfold fits; rewrite length_app, length_fmap, length_insert; cbn; lia))). clear Ec.
  change [Some z] with (Some <$> [z]). rewrite <- fmap_app. fold (hold (<[(length vs - 1)%nat := moved z]> vs ++ [z])).
  mstep. rewrite vsize_hold, length_app, length_insert. cbn [length].
  destruct (shift_right vs i (moved z)) as [m' Es]; [lia|].
  replace (<[(length vs - 1)%nat := moved z]> vs ++ [z])
    with (take (length vs - 1) vs ++ moved z :: drop (length vs - 1) vs).
  2: { rewrite (drop_S vs z _ Ez), (insert_take_drop vs), drop_ge by lia. by rewrite <- app_assoc. }
  replace (Z.of_nat (length vs + 1) - 2) with (Z.of_nat (length vs) - 1) by lia. zbool.
  replace (Z.to_nat (Z.of_nat (length vs) - 1 - Z.of_nat i)) with (length vs - 1 - i)%nat by lia.
  rewrite (bind_Ret _ _ _ _ _ Es).
  erewrite bind_Ret; [|apply hold_assign; rewrite length_app, length_take; cbn; lia].
  unfold ret. do 2 f_equal. apply insert_middle_at. rewrite length_take. lia.
Qed.

Lemma hold_push vs x :
  Z.of_nat (length vs) < C ->
  FixedVector.emplace_back h C (ret x) (hold vs) = Ret (Z.of_nat (length vs)) (hold (vs ++ [x])).
Proof. intros. by apply vec_push. Qed.

(** Inserting [n] copies one after the other. *)
Lemma hold_insert_copies vs (i n : nat) x :
  Z.of_nat (length vs + n) <= C -> (i <= length vs)%nat ->
  for_up n 0 (fun j => FixedVector.emplace h C moved (Z.of_nat i + j) (ret x) ;;; ret tt) (hold vs) =
    Ret tt (hold (take i vs ++ replicate n x ++ drop i vs)).
Proof.
  intros Hl Hi.
  destruct (for_up_inv (fun j s => s = hold (take i vs ++ replicate (Z.to_nat j) x ++ drop i vs))
    (fun j => FixedVector.emplace h C moved (Z.of_nat i + j) (ret x) ;;; ret tt) n 0 (hold vs))
    as (s' & E & ->).
  - change (replicate (Z.to_nat 0) x) with (@nil T). cbn [app]. by rewrite take_drop.
  - intros j s Hj ->. eexists. split; [|done].
    set (m := Z.to_nat j). set (us := take i vs ++ replicate m x).
    assert (length us = (i + m)%nat) as Hus by (unfold us; rewrite length_app, length_take, length_replicate; lia).
    replace (Z.of_nat i + j) with (Z.of_nat (length us)) by lia.
    replace (take i vs ++ replicate m x ++ drop i vs) with (us ++ drop i vs) by (unfold us; by rewrite <- app_assoc).
    rewrite (bind_Ret _ _ _ _ _ (hold_emplace (us ++ drop i vs) (length us) x (ret x)
      ltac:(rewrite length_app, length_drop; lia) ltac:(rewrite length_app; lia) (reads_ret x _))).
    rewrite take_app_length, drop_app_length. unfold ret. do 2 f_equal.
    replace (Z.to_nat (j + 1)) with (S m) by lia. rewrite replicate_S_end. unfold us.
    by rewrite <- !app_assoc.
  - rewrite E. by replace (Z.to_nat (0 + Z.of_nat n)) with n by lia.
Qed.

Lemma hold_check_position vs (i : nat) :
  (i <= length vs)%nat -> FixedVector.check_position (Z.of_nat i) (hold vs) = Ret tt (hold vs).
Proof.
  intros. unfold FixedVector.check_position. mstep. rewrite vsize_hold. zbool. done.
Qed.

Lemma check_position_bad vs pos :
  ~ (0 <= pos <= Z.of_nat (length vs)) -> FixedVector.check_position pos (hold vs) = Trap.
Proof.
  intros Hp. unfold FixedVector.check_position. mstep. rewrite vsize_hold.
  destruct (Z.leb_spec 0 pos), (Z.leb_spec pos (Z.of_nat (length vs))); [lia|done..].
Qed.

Lemma hold_insert_n vs (i n : nat) x value :
  Z.of_nat (length vs + n) <= C -> (i <= length vs)%nat -> reads value x vs ->
  FixedVector.insert_n h C moved (Z.of_nat i) (Z.of_nat n) value (hold vs) =
    Ret (Z.of_nat i) (hold (take i vs ++ replicate n x ++ drop i vs)).
Proof.
  intros Hl Hi Hr. pose proof slot_count_spec. unfold FixedVector.insert_n.
  rewrite (bind_Ret _ _ _ _ _ (hold_check_position vs i Hi)). mstep. rewrite vsize_hold. zbool. mstep.
  destruct (Z.eqb_spec (Z.of_nat n) 0) as [E|].
  - assert (n = 0%nat) as -> by lia. cbn [replicate app]. by rewrite take_drop.
  - pose proof (Hr []) as E. rewrite app_nil_r in E. fold (hold vs) in E. mstep. rewrite Nat2Z.id.
    rewrite (bind_Ret _ _ _ _ _ (hold_insert_copies vs i n x Hl Hi)). done.
Qed.

Lemma hold_insert_reads vs (i : nat) ws :
  Z.of_nat (length vs + length ws) <= C -> (i <= length vs)%nat ->
  FixedVector.insert_reads h C moved (Z.of_nat i) (ret <$> ws) (hold vs) =
    Ret tt (hold (take i vs ++ ws ++ drop i vs)).
Proof.
  revert vs i. induction ws as [|w ws IH]; intros vs i Hl Hi; cbn [fmap list_fmap FixedVector.insert_reads].
  - cbn [app]. by rewrite take_drop.
  - cbn [length] in Hl. rewrite (bind_Ret _ _ _ _ _ (hold_emplace vs i w (ret w) ltac:(lia) Hi (reads_ret w vs))).
    replace (Z.of_nat i + 1) with (Z.of_nat (S i)) by lia.
    assert (length (take i vs) = i) as Hti by (rewrite length_take; lia).
    assert (take i vs ++ w :: drop i vs = (take i vs ++ [w]) ++ drop i vs) as Ea by (by rewrite <- app_assoc).
    assert (S i = length (take i vs ++ [w])) as El by (rewrite length_app, Hti; cbn; lia).
    rewrite IH; [|rewrite length_app; cbn; rewrite length_drop; lia|rewrite length_app; cbn; lia].
    rewrite Ea, El, take_app_length, drop_app_length. do 2 f_equal. by rewrite <- app_assoc.
Qed.

Lemma hold_insert_range vs (i : nat) ws :
  Z.of_nat (length vs + length ws) <= C -> (i <= length vs)%nat ->
  FixedVector.insert_range h C moved (Z.of_nat i) (ExternalRange ws) (hold vs) =
    Ret (Z.of_nat i) (hold (take i vs ++ ws ++ drop i vs)).
Proof.
  intros Hl Hi. unfold FixedVector.insert_range.
  rewrite (bind_Ret _ _ _ _ _ (hold_check_position vs i Hi)). cbn [FixedVector.aliases_own_storage negb]. mstep.
  by rewrite (bind_Ret _ _ _ _ _ (hold_insert_reads vs i ws Hl Hi)).
Qed.

(** *** Erasing *)

(** The shift of [erase]: the gap at [i] moves to the back. *)
Lemma shift_left vs (i : nat) :
  (i < length vs)%nat ->
  exists m, for_up (length vs - 1 - i) (Z.of_nat i) (fun j => FixedVector.move_element moved j (j + 1))
    (hold vs) = Ret tt (hold (delete i vs ++ [m])).
Proof.
  intros Hi. assert (length (delete i vs) = length vs - 1)%nat as Hd by (rewrite length_delete; [lia|by apply lookup_lt_is_Some_2]).
  destruct (for_up_inv (fun j s => exists m, s = hold (take (Z.to_nat j) (delete i vs) ++ m :: drop (S (Z.to_nat j)) vs)
      /\ Z.of_nat i <= j)
    (fun j => FixedVector.move_element moved j (j + 1)) (length vs - 1 - i) (Z.of_nat i) (hold vs))
    as (s' & E & m & -> & _).
  - destruct (lookup_lt_is_Some_2 vs i Hi) as [x Ex]. exists x. split; [|lia]. rewrite Nat2Z.id.
    f_equal. rewrite <- (take_drop_middle vs i x Ex) at 1. f_equal.
    rewrite delete_take_drop, take_app_le by (rewrite length_take; lia). by rewrite take_take, Nat.min_id.
  - intros j s Hj (m & -> & Hij). set (n := Z.to_nat j).
    destruct (lookup_lt_is_Some_2 vs (S n)) as [x Ex]; [lia|].
    assert (delete i vs !! n = Some x) as Ed by (rewrite list_lookup_delete_ge by lia; done).
    assert (length (take n (delete i vs)) = n) as Hn by (rewrite length_take; lia).
    rewrite (drop_S vs x (S n) Ex).
    exists (hold (take n (delete i vs) ++ x :: moved x :: drop (S (S n)) vs)). split.
    + replace j with (Z.of_nat n) by lia. replace (Z.of_nat n + 1) with (Z.of_nat (S n)) by lia.
      rewrite (hold_move_element _ _ _ x); [|by rewrite lookup_app_r, Hn, Nat.sub_succ_l, Nat.sub_diag by lia
        |rewrite length_app; cbn; lia].
      do 2 f_equal. exact (insert_two_ends (take n (delete i vs)) [] _ n (S n) m x x (moved x)
        (eq_sym Hn) ltac:(cbn; lia)).
    + exists (moved x). split; [|lia]. replace (Z.to_nat (j + 1)) with (S n) by lia.
      by rewrite (take_S_r _ n x Ed), <- app_assoc.
  - exists m. rewrite E. replace (Z.to_nat (Z.of_nat i + Z.of_nat (length vs - 1 - i))) with (length vs - 1)%nat by lia.
    by rewrite take_ge, drop_ge by lia.
Qed.

Lemma hold_drop_last vs x :
  Z.of_nat (length vs) < C ->
  (modify (fun v => set_vsize (wrap (vsize_ v - 1)) v) ;;;
   let! n := get vsize_ in slot_destroy n) (hold (vs ++ [x])) = Ret tt (hold vs).
Proof.
  intros. unfold hold. rewrite fmap_app. apply vec_drop_last. unfold fits.
  rewrite length_app, length_fmap. cbn. lia.
Qed.

Lemma hold_erase vs (i : nat) :
  Z.of_nat (length vs) <= C -> (i < length vs)%nat ->
  FixedVector.erase moved (Z.of_nat i) (hold vs) = Ret (Z.of_nat i) (hold (delete i vs)).
Proof.
  intros Hl Hi. unfold FixedVector.erase. mstep. rewrite vsize_hold. zbool. cbn [andb]. mstep.
  replace (Z.to_nat (Z.of_nat (length vs) - 1 - Z.of_nat i)) with (length vs - 1 - i)%nat by lia.
  destruct (shift_left vs i Hi) as [m E]. rewrite (bind_Ret _ _ _ _ _ E).
  assert (length (delete i vs) = length vs - 1)%nat by (rewrite length_delete; [lia|by apply lookup_lt_is_Some_2]).
  assert (Z.of_nat (length (delete i vs)) < C) as Hd by lia.
  pose proof (hold_drop_last (delete i vs) m Hd) as Ed. revert Ed.
  unfold bind, modify, get. by intros ->.
Qed.

Lemma hold_erase_bad vs pos :
  ~ (0 <= pos < Z.of_nat (length vs)) -> FixedVector.erase moved pos (hold vs) = Trap.
Proof.
  intros Hp. unfold FixedVector.erase. mstep. rewrite vsize_hold.
  destruct (Z.leb_spec 0 pos), (Z.ltb_spec pos (Z.of_nat (length vs))); [lia|by apply bind_Trap..].
Qed.

(** The shift of [erase(first, last)]: the gap [b] moves past [c]. *)
Lemma close_gap (a b c : list T) :
  b <> [] ->
  exists b', for_up (length c) (Z.of_nat (length a + length b))
      (fun j => FixedVector.move_element moved (j - Z.of_nat (length b)) j) (hold (a ++ b ++ c)) =
    Ret tt (hold ((a ++ c) ++ b')) /\ length b' = length b.
Proof.
  revert a b. induction c as [|x c IH]; intros a b Hb.
  { exists b. rewrite !app_nil_r. done. }
  destruct b as [|b0 bs]; [done|].
  destruct (IH (a ++ [x]) (bs ++ [moved x])) as (b' & E & Hb'); [by destruct bs|].
  assert (length (bs ++ [moved x]) = length (b0 :: bs)) as Hlb by (rewrite length_app; cbn; lia).
  rewrite Hlb in E, Hb'.
  exists b'. split; [|done]. cbn [length for_up].
  rewrite (bind_Ret _ _ _ tt (hold ((a ++ [x]) ++ (bs ++ [moved x]) ++ c))).
  - replace (Z.of_nat (length a + S (length bs)) + 1) with (Z.of_nat (length (a ++ [x]) + length (b0 :: bs)))
      by (rewrite length_app; cbn; lia). etransitivity; [exact E|]. by rewrite <- !app_assoc.
  - replace (Z.of_nat (length a + S (length bs)) - Z.of_nat (S (length bs))) with (Z.of_nat (length a)) by lia.
    rewrite (hold_move_element _ _ _ x).
    + do 2 f_equal. rewrite <- !app_assoc. cbn [app]. by apply insert_two_ends.
    + rewrite app_assoc. rewrite lookup_app_r, length_app by (rewrite length_app; cbn; lia).
      cbn. by rewrite Nat.sub_diag.
    + rewrite length_app. cbn. lia.
Qed.

Lemma destroy_run (pre post : list (option T)) ws n :
  for_up (length ws) (Z.of_nat (length pre)) (fun i => slot_destroy i) (mk_vec (pre ++ (Some <$> ws) ++ post) n) =
  Ret tt (mk_vec (pre ++ replicate (length ws) None ++ post) n).
Proof.
  revert pre. induction ws as [|w ws IH]; intros pre; [done|]. cbn [length for_up fmap list_fmap replicate app].
  rewrite (bind_Ret _ _ _ tt (mk_vec ((pre ++ [None]) ++ (Some <$> ws) ++ post) n)).
  - replace (Z.of_nat (length pre) + 1) with (Z.of_nat (length (pre ++ [@None T]))) by (rewrite length_app; cbn; lia).
    rewrite IH. by rewrite <- app_assoc.
  - rewrite (slot_destroy_live _ w).
    + cbn. unfold slot_set. rewrite Nat2Z.id, insert_middle_at by done. by rewrite <- app_assoc.
    + cbn. rewrite slot_lookup_of_nat. by rewrite list_lookup_middle.
Qed.

Lemma vec_destroy_tail l ws :
  fits (l ++ (Some <$> ws)) ->
  for_up (length ws) (Z.of_nat (length l)) (fun i => slot_destroy i)
    (set_vsize (Z.of_nat (length l)) (vec_of (l ++ (Some <$> ws)))) = Ret tt (vec_of l).
Proof.
  intros Hf. unfold fits in Hf. rewrite length_app, length_fmap in Hf. pose proof slot_count_spec.
  unfold vec_of, set_vsize. cbn [vstorage_]. rewrite <- app_assoc, destroy_run, <- replicate_add, length_app, length_fmap.
  do 4 f_equal. lia.
Qed.

Lemma hold_erase_range (a b c : list T) :
  Z.of_nat (length (a ++ b ++ c)) <= C ->
  FixedVector.erase_range moved (Z.of_nat (length a)) (Z.of_nat (length a + length b)) (hold (a ++ b ++ c)) =
    Ret (Z.of_nat (length a)) (hold (a ++ c)).
Proof.
  intros Hl. rewrite !length_app in Hl. pose proof slot_count_spec.
  unfold FixedVector.erase_range. mstep. rewrite vsize_hold, !length_app. zbool. cbn [andb]. mstep.
  replace (Z.of_nat (length a + length b) - Z.of_nat (length a)) with (Z.of_nat (length b)) by lia.
  destruct (Z.eqb_spec (Z.of_nat (length b)) 0) as [Eb|].
  { by destruct b. }
  replace (Z.to_nat (Z.of_nat (length a + (length b + length c)) - Z.of_nat (length a + length b)))
    with (length c) by lia.
  destruct (close_gap a b c) as (b' & E & Hb'); [by destruct b|]. rewrite (bind_Ret _ _ _ _ _ E). do 3 mstep.
  pose proof (vec_destroy_tail (Some <$> a ++ c) b') as Ed. rewrite <- fmap_app in Ed. fold (hold ((a ++ c) ++ b')) in Ed.
  rewrite vsize_hold, !length_app, Hb'. cbn [vsize_ set_vsize]. rewrite wrap_small by lia.
  replace (Z.of_nat (length a + length c + length b) - Z.of_nat (length b)) with (Z.of_nat (length a + length c)) by lia.
  replace (Z.to_nat (Z.of_nat (length a + length c + length b) - Z.of_nat (length a + length c))) with (length b') by lia.
  rewrite length_fmap, length_app in Ed. rewrite (bind_Ret _ _ _ _ _ (Ed ltac:(unfold fits; rewrite length_fmap, !length_app; lia))).
  done.
Qed.

(** *** Resizing and assigning *)

Lemma reads_app m x vs ws : reads m x vs -> reads m x (vs ++ ws).
Proof. intros Hr l. rewrite fmap_app, <- app_assoc. apply Hr. Qed.

Lemma hold_grow vs (n : nat) x value :
  Z.of_nat (length vs + n) <= C -> reads value x vs ->
  while_loop n (fun v => vsize_ v <? Z.of_nat (length vs + n)) (FixedVector.emplace_back h C value ;;; ret tt)
    (hold vs) = Ret tt (hold (vs ++ replicate n x)).
Proof.
  revert vs. induction n as [|n IH]; intros vs Hl Hr; cbn [while_loop replicate]; rewrite vsize_hold.
  - zbool. by rewrite app_nil_r.
  - zbool. rewrite bind_assoc, (bind_Ret _ _ _ _ _ (vec_push vs x value ltac:(lia) Hr)). mstep.
    fold (hold (vs ++ [x])). specialize (IH (vs ++ [x])). rewrite length_app, <- app_assoc in IH. cbn [length app] in IH.
    replace (length vs + S n)%nat with (length vs + 1 + n)%nat by lia. apply IH; [lia|by apply reads_app].
Qed.

Lemma hold_resize vs (n : nat) x value :
  Z.of_nat n <= C -> Z.of_nat (length vs) <= C -> reads value x vs ->
  FixedVector.resize h C (Z.of_nat n) value (hold vs) =
    Ret tt (hold (take n vs ++ replicate (n - length vs) x)).
Proof.
  intros Hn Hl Hr. unfold FixedVector.resize. zbool. do 2 mstep. rewrite vsize_hold.
  destruct (Z.ltb_spec (Z.of_nat n) (Z.of_nat (length vs))).
  - rewrite vsize_hold. replace (Z.to_nat (Z.of_nat (length vs) - Z.of_nat n)) with (length (drop n vs))
      by (rewrite length_drop; lia).
    pose proof (vec_shrink (Some <$> take n vs) (drop n vs)) as E. rewrite <- fmap_app, take_drop in E.
    rewrite length_fmap, length_take, Nat.min_l in E by lia.
    replace (n - length vs)%nat with 0%nat by lia. rewrite app_nil_r. apply E. unfold fits. by rewrite length_fmap.
  - rewrite vsize_hold. replace (Z.to_nat (Z.of_nat n - Z.of_nat (length vs))) with (n - length vs)%nat by lia.
    pose proof (hold_grow vs (n - length vs) x value) as E. replace (length vs + (n - length vs))%nat with n in E by lia.
    rewrite (take_ge vs) by lia. by apply E.
Qed.

Lemma hold_clear vs : Z.of_nat (length vs) <= C -> FixedVector.clear (hold vs) = Ret tt (hold []).
Proof. intros. apply vec_clear. unfold fits. by rewrite length_fmap. Qed.

Lemma hold_assign_n vs (n : nat) x value :
  Z.of_nat n <= C -> Z.of_nat (length vs) <= C -> reads value x vs ->
  FixedVector.assign h C (Z.of_nat n) value (hold vs) = Ret tt (hold (replicate n x)).
Proof.
  intros Hn Hl Hr. unfold FixedVector.assign. zbool. mstep.
  pose proof (Hr []) as E. rewrite app_nil_r in E. fold (hold vs) in E. mstep.
  rewrite (bind_Ret _ _ _ _ _ (hold_clear vs Hl)), Nat2Z.id.
  destruct (for_up_inv (fun j s => s = hold (replicate (Z.to_nat j) x))
    (fun _ => FixedVector.emplace_back h C (ret x) ;;; ret tt) n 0 (hold [])) as (s' & E' & ->); [done| |].
  - intros j s Hj ->. eexists. split; [|done].
    rewrite (bind_Ret _ _ _ _ _ (hold_push (replicate (Z.to_nat j) x) x ltac:(rewrite length_replicate; lia))). unfold ret.
    rewrite <- replicate_S_end. by replace (Z.to_nat (j + 1)) with (S (Z.to_nat j)) by lia.
  - rewrite E'. by rewrite Z.add_0_l, Nat2Z.id.
Qed.

Lemma hold_append_reads vs ws :
  Z.of_nat (length vs + length ws) <= C ->
  FixedVector.append_reads h C (ret <$> ws) (hold vs) = Ret tt (hold (vs ++ ws)).
Proof.
  revert vs. induction ws as [|w ws IH]; intros vs Hl; cbn [fmap list_fmap FixedVector.append_reads length] in *.
  - by rewrite app_nil_r.
  - mstep. rewrite vsize_hold. zbool. mstep.
    rewrite (bind_Ret _ _ _ _ _ (hold_push vs w ltac:(lia))), IH by (rewrite length_app; cbn; lia).
    by rewrite <- app_assoc.
Qed.

(** *** Two vectors *)

Lemma hold_fst_size us vs :
  on_fst (get vsize_) (hold us, hold vs) = Ret (Z.of_nat (length us)) (hold us, hold vs).
Proof. unfold on_fst, get; cbn [fst]. by rewrite vsize_hold. Qed.

Lemma hold_snd_size us vs :
  on_snd (get vsize_) (hold us, hold vs) = Ret (Z.of_nat (length vs)) (hold us, hold vs).
Proof. unfold on_snd, get; cbn [snd]. by rewrite vsize_hold. Qed.

Lemma hold_append_copies us vs :
  Z.of_nat (length us + length vs) <= C ->
  FixedVector.append_copies h C (hold us, hold vs) = Ret tt (hold (us ++ vs), hold vs).
Proof.
  intros Hl. unfold FixedVector.append_copies.
  rewrite (bind_Ret _ _ _ _ _ (hold_snd_size us vs)), Nat2Z.id.
  destruct (for_up_inv (fun i p => p = (hold (us ++ take (Z.to_nat i) vs), hold vs))
    (fun i => let! x := on_snd (slot_ref i) in on_fst (FixedVector.emplace_back h C (ret x)) ;;; ret tt)
    (length vs) 0 (hold us, hold vs)) as (p' & E & ->).
  - by rewrite take_0, app_nil_r.
  - intros i p Hi ->. eexists. split; [|done].
    destruct (lookup_lt_is_Some_2 vs (Z.to_nat i)) as [v Hv]; [lia|].
    pose proof (hold_ref vs _ v Hv) as Er. rewrite Z2Nat.id in Er by lia.
    pose proof (hold_push (us ++ take (Z.to_nat i) vs) v) as Ep. rewrite length_app, length_take in Ep.
    specialize (Ep ltac:(lia)).
    rewrite (bind_Ret _ _ _ _ _ (on_snd_Ret _ (_, hold vs) _ _ Er)).
    rewrite (bind_Ret _ _ _ _ _ (on_fst_Ret _ (_, hold vs) _ _ Ep)). unfold ret. cbn [snd].
    replace (Z.to_nat (i + 1)) with (S (Z.to_nat i)) by lia.
    by rewrite (take_S_r vs _ v Hv), <- app_assoc.
  - rewrite E. by rewrite Z.add_0_l, Nat2Z.id, take_ge by lia.
Qed.

Lemma hold_append_moves us vs :
  Z.of_nat (length us + length vs) <= C ->
  FixedVector.append_moves h C moved (hold us, hold vs) = Ret tt (hold (us ++ vs), hold []).
Proof.
  intros Hl. unfold FixedVector.append_moves.
  rewrite (bind_Ret _ _ _ _ _ (hold_snd_size us vs)), Nat2Z.id.
  destruct (for_up_inv (fun i p => p = (hold (us ++ take (Z.to_nat i) vs),
      hold (take (Z.to_nat i) (moved <$> vs) ++ drop (Z.to_nat i) vs)))
    (fun i => let! x := on_snd (slot_move_out moved i) in
      on_fst (FixedVector.emplace_back h C (ret x)) ;;; ret tt)
    (length vs) 0 (hold us, hold vs)) as (p' & E & ->).
  - by rewrite !take_0, drop_0, app_nil_r.
  - intros i p Hi ->. eexists. split; [|done].
    destruct (lookup_lt_is_Some_2 vs (Z.to_nat i)) as [v Hv]; [lia|].
    pose proof (hold_move (take (Z.to_nat i) (moved <$> vs) ++ drop (Z.to_nat i) vs) (Z.to_nat i) v) as Er.
    rewrite Z2Nat.id, take_drop_lookup in Er by (rewrite ?length_fmap; lia).
    rewrite (take_drop_insert _ _ _ (moved v) v) in Er; [|by rewrite list_lookup_fmap, Hv|done].
    pose proof (hold_push (us ++ take (Z.to_nat i) vs) v) as Ep. rewrite length_app, length_take in Ep.
    specialize (Ep ltac:(lia)).
    rewrite (bind_Ret _ _ _ _ _ (on_snd_Ret _ (_, _) _ _ (Er Hv))).
    rewrite (bind_Ret _ _ _ _ _ (on_fst_Ret _ (_, _) _ _ Ep)). unfold ret. cbn [snd].
    replace (Z.to_nat (i + 1)) with (S (Z.to_nat i)) by lia.
    by rewrite (take_S_r vs _ v Hv), <- app_assoc.
  - rewrite (bind_Ret _ _ _ _ _ E). rewrite Z.add_0_l, Nat2Z.id, (take_ge vs), drop_ge, app_nil_r by lia.
    rewrite take_ge by (rewrite length_fmap; lia).
    by rewrite (on_snd_Ret _ (_, _) _ _ (hold_clear (moved <$> vs) ltac:(rewrite length_fmap; lia))).
Qed.

Lemma hold_swap_elements us vs (i : nat) u v :
  us !! i = Some u -> vs !! i = Some v ->
  FixedVector.swap_elements moved (Z.of_nat i) (hold us, hold vs) =
    Ret tt (hold (<[i := v]> us), hold (<[i := u]> vs)).
Proof.
  intros Hu Hv. unfold FixedVector.swap_elements.
  rewrite (bind_Ret _ _ _ _ _ (on_fst_Ret _ (hold us, hold vs) _ _ (hold_move us i u Hu))).
  rewrite (bind_Ret _ _ _ _ _ (on_snd_Ret _ (_, hold vs) _ _ (hold_move vs i v Hv))). cbn [fst snd].
  assert (forall (ws : list T) w x, ws !! i = Some w ->
    slot_assign (Z.of_nat i) x (hold (<[i := moved w]> ws)) = Ret tt (hold (<[i := x]> ws))) as Ha.
  { intros ws w x Hw. rewrite hold_assign by (rewrite length_insert; by eapply lookup_lt_Some).
    by rewrite list_insert_insert_eq. }
  rewrite (bind_Ret _ _ _ _ _ (on_fst_Ret _ (_, _) _ _ (Ha us u v Hu))).
  by rewrite (on_snd_Ret _ (_, _) _ _ (Ha vs v u Hv)).
Qed.

Lemma hold_swap_prefix us vs (n : nat) :
  (n <= length us)%nat -> (n <= length vs)%nat ->
  for_up n 0 (FixedVector.swap_elements moved) (hold us, hold vs) =
    Ret tt (hold (take n vs ++ drop n us), hold (take n us ++ drop n vs)).
Proof.
  intros Hu Hv.
  destruct (for_up_inv (fun i p => p = (hold (take (Z.to_nat i) vs ++ drop (Z.to_nat i) us),
      hold (take (Z.to_nat i) us ++ drop (Z.to_nat i) vs)))
    (FixedVector.swap_elements moved) n 0 (hold us, hold vs)) as (p' & E & ->).
  - by rewrite !take_0, !drop_0.
  - intros i p Hi ->. eexists. split; [|done].
    destruct (lookup_lt_is_Some_2 us (Z.to_nat i)) as [u Eu]; [lia|].
    destruct (lookup_lt_is_Some_2 vs (Z.to_nat i)) as [v Ev]; [lia|].
    replace i with (Z.of_nat (Z.to_nat i)) at 1 by lia.
    rewrite (hold_swap_elements _ _ _ u v) by (by rewrite take_drop_lookup by lia).
    rewrite (take_drop_insert _ _ _ _ _ Ev Eu), (take_drop_insert _ _ _ _ _ Eu Ev).
    by replace (Z.to_nat (i + 1)) with (S (Z.to_nat i)) by lia.
  - rewrite E. by rewrite Z.add_0_l, Nat2Z.id.
Qed.

(** Destroying from the back while [size_] still counts the elements. *)
Lemma vec_destroy_down l ws s1 :
  fits (l ++ (Some <$> ws)) ->
  (for_down (length ws) (Z.of_nat (length l + length ws)) (fun i => on_snd (slot_destroy (i - 1))) ;;;
   on_snd (modify (set_vsize (Z.of_nat (length l))))) (s1, vec_of (l ++ (Some <$> ws))) =
  Ret tt (s1 : vec T, vec_of l).
Proof.
  intros Hf. unfold fits in Hf. rewrite length_app, length_fmap in Hf. pose proof slot_count_spec.
  set (post := replicate (FixedVector.slot_count C - length (l ++ (Some <$> ws))) (@None T)).
  set (sz := Z.of_nat (length (l ++ (Some <$> ws)))).
  assert (forall us (k : nat), for_down (length us) (Z.of_nat (length l + length us)) (fun i => on_snd (slot_destroy (i - 1)))
    (s1, mk_vec (l ++ (Some <$> us) ++ replicate k None ++ post) sz) =
    Ret tt (s1 : vec T, mk_vec (l ++ replicate (length us + k) None ++ post) sz)) as Hd.
  { intros us. induction us as [|w us IH] using rev_ind; intros k; [done|].
    rewrite length_app, Nat.add_1_r. cbn [for_down].
    rewrite (bind_Ret _ _ _ tt (s1, mk_vec (l ++ (Some <$> us) ++ replicate (S k) None ++ post) sz)).
    - replace (Z.of_nat (length l + S (length us)) - 1) with (Z.of_nat (length l + length us)) by lia.
      rewrite IH. do 4 f_equal. by rewrite Nat.add_succ_r.
    - replace (Z.of_nat (length l + S (length us)) - 1) with (Z.of_nat (length (l ++ (Some <$> us))))
        by (rewrite length_app, length_fmap; lia).
      apply (on_snd_Ret _ (s1, _)). cbn [snd]. rewrite fmap_app, <- app_assoc, app_assoc. cbn [app].
      rewrite (slot_destroy_live _ w).
      + cbn. unfold slot_set. rewrite Nat2Z.id, insert_middle_at by done. by rewrite <- app_assoc.
      + cbn. rewrite slot_lookup_of_nat. by rewrite list_lookup_middle. }
  specialize (Hd ws 0%nat). cbn [replicate app] in Hd. rewrite app_assoc in Hd.
  unfold vec_of at 1. fold post sz. rewrite (bind_Ret _ _ _ _ _ Hd).
  unfold on_snd, modify, set_vsize, vec_of. cbn. do 3 f_equal. unfold post.
  rewrite <- replicate_add, length_app, length_fmap, Nat.add_0_r. do 3 f_equal. lia.
Qed.

(** One element of the tail. *)
Lemma hold_move_one us ws v :
  ws !! length us = Some v -> Z.of_nat (length us) < C ->
  (let! x := on_snd (slot_move_out moved (Z.of_nat (length us))) in
   on_fst (slot_construct (Z.of_nat (length us)) x) ;;;
   on_fst (modify (fun v => set_vsize (wrap (vsize_ v + 1)) v))) (hold us, hold ws) =
  Ret tt (hold (us ++ [v]), hold (<[length us := moved v]> ws)).
Proof.
  intros Hv Hl. rewrite (bind_Ret _ _ _ _ _ (on_snd_Ret _ (_, _) _ _ (hold_move ws _ v Hv))). cbn [fst snd].
  pose proof (vec_construct_spare (Some <$> us) v) as Ec. rewrite length_fmap in Ec.
  specialize (Ec ltac:(unfold fits; rewrite length_app, length_fmap; cbn; lia)).
  rewrite on_fst_bind. unfold hold at 3. rewrite fmap_app. exact (on_fst_Ret _ (hold us, _) _ _ Ec).
Qed.

Lemma hold_move_tail us vs :
  (length us < length vs)%nat -> Z.of_nat (length vs) <= C ->
  FixedVector.move_tail moved (hold us, hold vs) =
    Ret tt (hold (us ++ drop (length us) vs), hold (take (length us) vs)).
Proof.
  intros Hlt Hl. unfold FixedVector.move_tail.
  rewrite (bind_Ret _ _ _ _ _ (hold_fst_size us vs)), (bind_Ret _ _ _ _ _ (hold_snd_size us vs)).
  replace (Z.to_nat (Z.of_nat (length vs) - Z.of_nat (length us))) with (length vs - length us)%nat by lia.
  destruct (for_up_inv (fun i p => exists ws, p = (hold (us ++ take (Z.to_nat i - length us) (drop (length us) vs)),
      hold (take (length us) vs ++ ws)) /\ length ws = (length vs - length us)%nat /\
      drop (Z.to_nat i - length us) ws = drop (Z.to_nat i) vs)
    (fun i => let! x := on_snd (slot_move_out moved i) in
      on_fst (slot_construct i x) ;;; on_fst (modify (fun v => set_vsize (wrap (vsize_ v + 1)) v)))
    (length vs - length us) (Z.of_nat (length us)) (hold us, hold vs)) as (p' & E & ws & -> & Hw & _).
  - exists (drop (length us) vs). rewrite Nat2Z.id, Nat.sub_diag, take_0, app_nil_r, take_drop, drop_0, length_drop. done.
  - intros i p Hi (ws & -> & Hw & Hd). set (n := Z.to_nat i) in *.
    destruct (lookup_lt_is_Some_2 vs n) as [v Hv]; [lia|].
    assert (ws !! (n - length us)%nat = Some v) as Hwv.
    { rewrite <- (Nat.add_0_r (n - length us)), <- lookup_drop, Hd, lookup_drop, Nat.add_0_r. done. }
    exists (hold (us ++ take (S n - length us) (drop (length us) vs)),
      hold (take (length us) vs ++ <[(n - length us)%nat := moved v]> ws)). split.
    + set (as_ := us ++ take (n - length us) (drop (length us) vs)).
      assert (length as_ = n) as Has by (unfold as_; rewrite length_app, length_take, length_drop; lia).
      pose proof (hold_move_one as_ (take (length us) vs ++ ws) v) as Em. rewrite Has in Em.
      rewrite lookup_app_r in Em by (rewrite length_take; lia). rewrite length_take, Nat.min_l in Em by lia.
      rewrite (insert_app_r_alt _ ws n) in Em by (rewrite length_take; lia). rewrite length_take, Nat.min_l in Em by lia.
      replace (Z.of_nat n) with i in Em by lia. rewrite (Em Hwv ltac:(lia)). do 3 f_equal.
      unfold as_. rewrite <- app_assoc. f_equal. replace (S n - length us)%nat with (S (n - length us)) by lia.
      symmetry. apply take_S_r. rewrite lookup_drop. rewrite <- Hv. f_equal. lia.
    + exists (<[(n - length us)%nat := moved v]> ws). replace (Z.to_nat (i + 1)) with (S n) by lia.
      split_and!; [done|by rewrite length_insert|].
      rewrite drop_insert_lt by lia. replace (S n - length us)%nat with (S (n - length us)) by lia.
      rewrite (drop_S vs v n Hv), (drop_S ws v _ Hwv) in Hd. by simplify_eq.
  - rewrite (bind_Ret _ _ _ _ _ E).
    replace (Z.to_nat (Z.of_nat (length us) + Z.of_nat (length vs - length us)) - length us)%nat
      with (length vs - length us)%nat by lia.
    rewrite (take_ge (drop (length us) vs)) by (rewrite length_drop; lia).
    pose proof (vec_destroy_down (Some <$> take (length us) vs) ws (hold (us ++ drop (length us) vs))) as Ed.
    rewrite <- fmap_app, length_fmap, length_take, Nat.min_l, Hw in Ed by lia.
    replace (Z.of_nat (length us + (length vs - length us))) with (Z.of_nat (length vs)) in Ed by lia.
    apply Ed. unfold fits. rewrite length_fmap, length_app, length_take. lia.
Qed.

Lemma hold_swap us vs :
  Z.of_nat (length us) <= C -> Z.of_nat (length vs) <= C ->
  FixedVector.swap moved false (hold us, hold vs) = Ret tt (hold vs, hold us).
Proof.
  intros Hu Hv. unfold FixedVector.swap.
  rewrite (bind_Ret _ _ _ _ _ (hold_fst_size us vs)), (bind_Ret _ _ _ _ _ (hold_snd_size us vs)).
  replace (Z.to_nat (if Z.of_nat (length us) <? Z.of_nat (length vs)
    then Z.of_nat (length us) else Z.of_nat (length vs))) with (min (length us) (length vs))
    by (destruct (Z.ltb_spec (Z.of_nat (length us)) (Z.of_nat (length vs))); lia).
  rewrite (bind_Ret _ _ _ _ _ (hold_swap_prefix us vs (min (length us) (length vs)) ltac:(lia) ltac:(lia))).
  destruct (Z.eqb_spec (Z.of_nat (length us)) (Z.of_nat (length vs)));
    [|destruct (Z.ltb_spec (Z.of_nat (length us)) (Z.of_nat (length vs)))].
  - by rewrite !take_ge, !drop_ge, !app_nil_r by lia.
  - rewrite Nat.min_l, (drop_ge us), app_nil_r, (take_ge us) by lia.
    rewrite hold_move_tail; rewrite ?length_app, ?length_take, ?length_drop; [|lia|lia].
    by rewrite Nat.min_l, drop_app_length, take_app_length, take_drop by lia.
  - rewrite Nat.min_r, (drop_ge vs), app_nil_r, (take_ge vs) by lia. unfold swapped. cbn [fst snd].
    rewrite hold_move_tail; rewrite ?length_app, ?length_take, ?length_drop; [|lia|lia].
    cbn [fst snd]. by rewrite Nat.min_l, drop_app_length, take_app_length, take_drop by lia.
Qed.

(** *** Comparing *)

Lemma hold_at vs (i : nat) x :
  vs !! i = Some x -> FixedVector.at_ h (Z.of_nat i) (hold vs) = Ret (Z.of_nat i) (hold vs).
Proof.
  intros E. pose proof (lookup_lt_Some _ _ _ E). unfold FixedVector.at_. mstep. rewrite vsize_hold. zbool.
  mstep. by rewrite (bind_Ret _ _ _ _ _ (hold_ref vs i x E)).
Qed.

(** Reading the elements at one index of both vectors. *)
Lemma hold_read_both us vs (i : nat) x y {A} (k : T -> T -> M (vec T * vec T) A) :
  us !! i = Some x -> vs !! i = Some y ->
  (let! p := on_fst (FixedVector.at_ h (Z.of_nat i)) in let! a := on_fst (slot_ref p) in
   let! q := on_snd (FixedVector.at_ h (Z.of_nat i)) in let! b := on_snd (slot_ref q) in k a b)
    (hold us, hold vs) = k x y (hold us, hold vs).
Proof.
  intros Hx Hy.
  rewrite (bind_Ret _ _ _ _ _ (on_fst_Ret _ (hold us, hold vs) _ _ (hold_at us i x Hx))).
  rewrite (bind_Ret _ _ _ _ _ (on_fst_Ret _ (hold us, hold vs) _ _ (hold_ref us i x Hx))).
  rewrite (bind_Ret _ _ _ _ _ (on_snd_Ret _ (hold us, hold vs) _ _ (hold_at vs i y Hy))).
  by rewrite (bind_Ret _ _ _ _ _ (on_snd_Ret _ (hold us, hold vs) _ _ (hold_ref vs i y Hy))).
Qed.

Fixpoint list_eqb (eqb : T -> T -> bool) us vs : bool :=
  match us, vs with
  | [], [] => true
  | x :: us', y :: vs' => if negb (eqb x y) then false else list_eqb eqb us' vs'
  | _, _ => false
  end.

Fixpoint list_lex (ltb : T -> T -> bool) us vs : bool :=
  match us, vs with
  | x :: us', y :: vs' => if ltb x y then true else if ltb y x then false else list_lex ltb us' vs'
  | [], _ :: _ => true
  | _, [] => false
  end.

Lemma hold_equal_from eqb a b us vs :
  length a = length b -> length us = length vs ->
  FixedVector.equal_from h eqb (length us) (Z.of_nat (length a)) (hold (a ++ us), hold (b ++ vs)) =
    Ret (list_eqb eqb us vs) (hold (a ++ us), hold (b ++ vs)).
Proof.
  revert a b vs. induction us as [|x us IH]; intros a b vs Hab Hl; destruct vs as [|y vs]; try done.
  cbn [length FixedVector.equal_from list_eqb].
  rewrite (hold_read_both _ _ _ x y) by (by rewrite ?Hab, list_lookup_middle).
  destruct (negb (eqb x y)); [done|].
  specialize (IH (a ++ [x]) (b ++ [y]) vs). rewrite !length_app, <- !app_assoc in IH.
  replace (Z.of_nat (length a) + 1) with (Z.of_nat (length a + length [x])) by (cbn; lia).
  apply IH; cbn in *; lia.
Qed.

Lemma hold_equal eqb us vs :
  FixedVector.equal h eqb (hold us, hold vs) = Ret (list_eqb eqb us vs) (hold us, hold vs).
Proof.
  unfold FixedVector.equal, FixedVector.size.
  rewrite (bind_Ret _ _ _ _ _ (hold_fst_size us vs)), (bind_Ret _ _ _ _ _ (hold_snd_size us vs)).
  destruct (Z.eqb_spec (Z.of_nat (length us)) (Z.of_nat (length vs))); cbn [negb].
  - rewrite Nat2Z.id. apply (hold_equal_from eqb [] []); [done|lia].
  - unfold ret. f_equal. revert vs n. induction us as [|x us IH]; intros [|y vs] Hl; cbn in *; try done.
    destruct (negb (eqb x y)); [done|]. apply IH. lia.
Qed.

Lemma hold_less_from ltb a b us vs :
  length a = length b ->
  FixedVector.less_from h ltb (min (length us) (length vs)) (Z.of_nat (length a))
    (Z.of_nat (length us) <? Z.of_nat (length vs)) (hold (a ++ us), hold (b ++ vs)) =
    Ret (list_lex ltb us vs) (hold (a ++ us), hold (b ++ vs)).
Proof.
  revert a b vs. induction us as [|x us IH]; intros a b vs Hab; destruct vs as [|y vs]; try done.
  cbn [length Nat.min FixedVector.less_from list_lex].
  rewrite (hold_read_both _ _ _ x y) by (by rewrite ?Hab, list_lookup_middle).
  destruct (ltb x y); [done|]. destruct (ltb y x); [done|].
  specialize (IH (a ++ [x]) (b ++ [y]) vs). rewrite !length_app, <- !app_assoc in IH.
  replace (Z.of_nat (length a) + 1) with (Z.of_nat (length a + length [x])) by (cbn; lia).
  replace (Z.of_nat (S (length us)) <? Z.of_nat (S (length vs)))
    with (Z.of_nat (length us) <? Z.of_nat (length vs))
    by (destruct (Z.ltb_spec (Z.of_nat (length us)) (Z.of_nat (length vs))); by zbool).
  apply IH. cbn. lia.
Qed.

Lemma hold_less ltb us vs :
  FixedVector.less h ltb (hold us, hold vs) = Ret (list_lex ltb us vs) (hold us, hold vs).
Proof.
  unfold FixedVector.less, FixedVector.size.
  rewrite (bind_Ret _ _ _ _ _ (hold_fst_size us vs)), (bind_Ret _ _ _ _ _ (hold_snd_size us vs)).
  replace (Z.to_nat (if Z.of_nat (length us) <? Z.of_nat (length vs)
    then Z.of_nat (length us) else Z.of_nat (length vs))) with (min (length us) (length vs))
    by (destruct (Z.ltb_spec (Z.of_nat (length us)) (Z.of_nat (length vs))); lia).
  by apply (hold_less_from ltb [] []).
Qed.

(** *** [erase_if] *)

(** The gap after one kept element has been moved down. *)
Definition next_gap x (junk : list T) : list T :=
  match junk with [] => [] | _ :: js => js ++ [moved x] end.

Lemma length_next_gap x junk : length (next_gap x junk) = length junk.
Proof. destruct junk; [done|]. cbn. rewrite length_app. cbn. lia. Qed.

Lemma hold_keep_one (kept junk rest : list T) x :
  (if negb (Z.of_nat (length kept) =? Z.of_nat (length kept + length junk)) then
     let! p := FixedVector.at_ h (Z.of_nat (length kept + length junk)) in
     let! y := slot_move_out moved p in
     let! w := FixedVector.at_ h (Z.of_nat (length kept)) in slot_assign w y
   else ret tt) (hold (kept ++ junk ++ x :: rest)) =
  Ret tt (hold ((kept ++ [x]) ++ next_gap x junk ++ rest)).
Proof.
  assert ((kept ++ junk ++ x :: rest) !! (length kept + length junk)%nat = Some x) as Hx
    by (by rewrite app_assoc, <- length_app, list_lookup_middle).
  destruct junk as [|j js]; cbn [next_gap].
  - cbn [length app]. zbool. cbn [negb]. by rewrite <- app_assoc.
  - cbn [length]. zbool. cbn [negb].
    rewrite (bind_Ret _ _ _ _ _ (hold_at _ _ x Hx)), (bind_Ret _ _ _ _ _ (hold_move _ _ x Hx)).
    cbn [app]. rewrite (insert_app_r_alt kept (j :: js ++ x :: rest)) by lia.
    replace (length kept + length (j :: js) - length kept)%nat with (S (length js)) by (cbn; lia).
    cbn [list_insert insert]. rewrite (insert_middle_at js rest (length js)) by done.
    rewrite (bind_Ret _ _ _ _ _ (hold_at _ (length kept) j ltac:(by rewrite list_lookup_middle))).
    rewrite hold_assign by (rewrite length_app; cbn; lia). rewrite insert_middle_at by done.
    by rewrite <- !app_assoc.
Qed.

Lemma hold_compact pred (kept junk rest : list T) :
  let kept' := kept ++ List.filter (fun x => negb (pred x)) rest in
  exists junk', FixedVector.compact h moved pred (length rest) (Z.of_nat (length kept))
      (Z.of_nat (length kept + length junk)) (hold (kept ++ junk ++ rest)) =
    Ret (Z.of_nat (length kept')) (hold (kept' ++ junk')) /\
    (length kept' + length junk' = length kept + length junk + length rest)%nat.
Proof.
  revert kept junk. induction rest as [|x rest IH]; intros kept junk.
  { exists junk. cbn. rewrite !app_nil_r. split; [done|lia]. }
  cbn [length FixedVector.compact List.filter].
  assert ((kept ++ junk ++ x :: rest) !! (length kept + length junk)%nat = Some x) as Hx
    by (by rewrite app_assoc, <- length_app, list_lookup_middle).
  rewrite (bind_Ret _ _ _ _ _ (hold_at _ _ x Hx)), (bind_Ret _ _ _ _ _ (hold_ref _ _ x Hx)).
  destruct (negb (pred x)).
  - rewrite (bind_Ret _ _ _ _ _ (hold_keep_one kept junk rest x)).
    destruct (IH (kept ++ [x]) (next_gap x junk)) as (junk' & E & Hl).
    change (x :: List.filter ?f rest) with ([x] ++ List.filter f rest). rewrite (app_assoc kept [x]).
    exists junk'. rewrite length_next_gap in E, Hl.
    rewrite (length_app kept [x]) in E, Hl. cbn [length] in E, Hl.
    replace (Z.of_nat (length kept) + 1) with (Z.of_nat (length kept + 1)) by lia.
    replace (Z.of_nat (length kept + length junk) + 1) with (Z.of_nat (length kept + 1 + length junk)) by lia.
    split; [exact E|]. cbn [length]. lia.
  - destruct (IH kept (junk ++ [x])) as (junk' & E & Hl). exists junk'.
    rewrite length_app, <- app_assoc in E. rewrite (length_app junk) in Hl. cbn [length app] in E, Hl.
    replace (Z.of_nat (length kept + length junk) + 1) with (Z.of_nat (length kept + (length junk + 1))) by lia.
    split; [done|lia].
Qed.

Lemma hold_erase_if pred vs :
  Z.of_nat (length vs) <= C ->
  let kept := List.filter (fun x => negb (pred x)) vs in
  FixedVector.erase_if h moved pred (hold vs) =
    Ret (Z.of_nat (length vs) - Z.of_nat (length kept)) (hold kept).
Proof.
  intros Hl kept. unfold FixedVector.erase_if, FixedVector.size. mstep. rewrite vsize_hold, Nat2Z.id.
  destruct (hold_compact pred [] [] vs) as (junk & E & Hj). cbn [app length] in E, Hj. fold kept in E, Hj.
  rewrite (bind_Ret _ _ _ _ _ E).
  rewrite (bind_Ret _ _ _ tt (hold kept)); [done|].
  rewrite vsize_hold, length_app.
  replace (Z.to_nat (Z.of_nat (length kept + length junk) - Z.of_nat (length kept))) with (length junk) by lia.
  pose proof (vec_shrink (Some <$> kept) junk) as Es. rewrite length_fmap, <- fmap_app in Es. apply Es.
  unfold fits. rewrite length_fmap, length_app. lia.
Qed.
End vector_facts.
