(* ===== verification/FixedVectorClaims.v ===== *)
(** * What [fixed_vector] promises

    An abstract bounded sequence, the operations of [fixed_vector] run against
    it, and the theorems about [fixed_vector]. *)

From Stdlib Require Import ZArith Lia.
From stdpp Require Import base numbers list option tactics.
From S2P Require Import Prelude FixedVector FixedVectorFacts.
Local Open Scope Z_scope.

(** ** The abstract bounded sequence *)

Module VecSpec.

(** Where a [const T&] argument points: to an object elsewhere, or to an
    element of the vector itself. *)
Inductive source (T : Type) : Type := Val (v : T) | Own (i : nat).
Arguments Val {T} v.
Arguments Own {T} i.

Definition resolve {T} (s : source T) (l : list T) : option T :=
  match s with Val v => Some v | Own i => l !! i end.

Inductive op (T : Type) : Type :=
  | TryPushBack (s : source T) | PushBack (s : source T) | PopBack | Clear
  | Insert (pos : Z) (s : source T) | TryInsert (pos : Z) (s : source T)
  | InsertN (pos : Z) (n : nat) (s : source T) | TryInsertN (pos : Z) (n : nat) (s : source T)
  | InsertRange (pos : Z) (vs : list T) | TryInsertRange (pos : Z) (vs : list T)
  | Erase (pos : Z) | EraseRange (first last : Z)
  | Resize (n : nat) (s : source T) | TryResize (n : nat) (s : source T)
  | Assign (n : nat) (s : source T) | TryAssign (n : nat) (s : source T)
  | AssignRange (vs : list T) | TryAssignRange (vs : list T)
  | EraseIf (pred : T -> bool)
  | Front | Back | At (i : nat) | Size | Empty | Full.
Arguments TryPushBack {T} s.
Arguments PushBack {T} s.
Arguments PopBack {T}.
Arguments Clear {T}.
Arguments Insert {T} pos s.
Arguments TryInsert {T} pos s.
Arguments InsertN {T} pos n s.
Arguments TryInsertN {T} pos n s.
Arguments InsertRange {T} pos vs.
Arguments TryInsertRange {T} pos vs.
Arguments Erase {T} pos.
Arguments EraseRange {T} first last.
Arguments Resize {T} n s.
Arguments TryResize {T} n s.
Arguments Assign {T} n s.
Arguments TryAssign {T} n s.
Arguments AssignRange {T} vs.
Arguments TryAssignRange {T} vs.
Arguments EraseIf {T} pred.
Arguments Front {T}.
Arguments Back {T}.
Arguments At {T} i.
Arguments Size {T}.
Arguments Empty {T}.
Arguments Full {T}.

(** A position returned is an iterator, a size is a number, a value is read
    through the reference returned. *)
Inductive result (T : Type) : Type :=
  | RUnit | RBool (b : bool) | RVal (v : T) | RSize (n : Z) | RPos (p : Z).
Arguments RUnit {T}.
Arguments RBool {T} b.
Arguments RVal {T} v.
Arguments RSize {T} n.
Arguments RPos {T} p.

Inductive verdict (T : Type) : Type :=
  | Go (x : result T) (l : list T)  (** returns [x] and leaves [l] *)
  | Stop                            (** a check stops the program *)
  | Undefined.                      (** the caller's reference dangles *)
Arguments Go {T} x l.
Arguments Stop {T}.
Arguments Undefined {T}.

Section step.
  Context {T : Type} (C : Z).
  Implicit Types l : list T.

Definition size l : Z := Z.of_nat (length l).

(** Inserts [ws] at [pos] if the position is valid and there is room. *)
Definition insert_at (pos : Z) (ws l : list T) : verdict T :=
  if ((0 <=? pos) && (pos <=? size l)) && (size l + size ws <=? C) then
    Go (RPos pos) (take (Z.to_nat pos) l ++ ws ++ drop (Z.to_nat pos) l)
  else Stop.

(** The [try_] form: the position is still checked, but lack of room is
    reported by the end iterator. *)
Definition try_insert_at (pos : Z) (ws l : list T) : verdict T :=
  if (0 <=? pos) && (pos <=? size l) then
    if size l + size ws <=? C then
      Go (RPos pos) (take (Z.to_nat pos) l ++ ws ++ drop (Z.to_nat pos) l)
    else Go (RPos (size l)) l
  else Stop.

Definition with_source (s : source T) l (k : T -> verdict T) : verdict T :=
  match resolve s l with Some v => k v | None => Undefined end.

Definition become (l' : list T) : verdict T :=
  if size l' <=? C then Go RUnit l' else Stop.

Definition try_become (l' l : list T) : verdict T :=
  if size l' <=? C then Go (RBool true) l' else Go (RBool false) l.

Definition resized (n : nat) (v : T) l : list T := take n l ++ replicate (n - length l) v.

Definition step (o : op T) l : verdict T :=
  match o with
  | PushBack s => with_source s l (fun v => if size l <? C then Go (RVal v) (l ++ [v]) else Stop)
  | TryPushBack s => with_source s l (fun v => try_become (l ++ [v]) l)
  | PopBack => match l with [] => Stop | _ => Go RUnit (take (length l - 1) l) end
  | Clear => Go RUnit []
  | Insert pos s => with_source s l (fun v => insert_at pos [v] l)
  | TryInsert pos s => with_source s l (fun v => try_insert_at pos [v] l)
  | InsertN pos n s => with_source s l (fun v => insert_at pos (replicate n v) l)
  | TryInsertN pos n s => with_source s l (fun v => try_insert_at pos (replicate n v) l)
  | InsertRange pos vs => insert_at pos vs l
  | TryInsertRange pos vs => try_insert_at pos vs l
  | Erase pos =>
      if (0 <=? pos) && (pos <? size l) then Go (RPos pos) (delete (Z.to_nat pos) l) else Stop
  | EraseRange first last =>
      if ((0 <=? first) && (last <=? size l)) && (first <=? last) then
        Go (RPos first) (take (Z.to_nat first) l ++ drop (Z.to_nat last) l)
      else Stop
  | Resize n s => with_source s l (fun v => become (resized n v l))
  | TryResize n s => with_source s l (fun v => try_become (resized n v l) l)
  | Assign n s => with_source s l (fun v => become (replicate n v))
  | TryAssign n s => with_source s l (fun v => try_become (replicate n v) l)
  | AssignRange vs => become vs
  | TryAssignRange vs => try_become vs l
  | EraseIf pred =>
      let kept := List.filter (fun x => negb (pred x)) l in Go (RSize (size l - size kept)) kept
  | Front => match head l with Some v => Go (RVal v) l | None => Stop end
  | Back => match list.last l with Some v => Go (RVal v) l | None => Stop end
  | At i => match l !! i with Some v => Go (RVal v) l | None => Stop end
  | Size => Go (RSize (size l)) l
  | Empty => Go (RBool (size l =? 0)) l
  | Full => Go (RBool (size l =? C)) l
  end.
End step.

Inductive behaviour (T : Type) : Type :=
  | Finished (rs : list (result T)) (l : list T)  (** every operation returned *)
  | Stopped (rs : list (result T))                (** these results, then a check failed *)
  | Wrong.                                        (** undefined behaviour *)
Arguments Finished {T} rs l.
Arguments Stopped {T} rs.
Arguments Wrong {T}.

Definition add_result {T} (x : result T) (b : behaviour T) : behaviour T :=
  match b with
  | Finished rs l => Finished (x :: rs) l
  | Stopped rs => Stopped (x :: rs)
  | Wrong => Wrong
  end.

Fixpoint run {T} (C : Z) (ops : list (op T)) (l : list T) : behaviour T :=
  match ops with
  | [] => Finished [] l
  | o :: ops' =>
      match step C o l with
      | Go x l' => add_result x (run C ops' l')
      | Stop => Stopped []
      | Undefined => Wrong
      end
  end.
End VecSpec.

(** ** The concrete vector, observed the same way *)

Module VecRun.
Import VecSpec.
Section vec_run.
  Context `{SizeT} {T : Type} (h : hardening) (C : Z) (moved : T -> T).

Definition reader (s : source T) : M (vec T) T :=
  match s with Val v => ret v | Own i => slot_ref (Z.of_nat i) end.

Definition read (m : M (vec T) Z) : M (vec T) (result T) :=
  let! p := m in let! v := slot_ref p in ret (RVal v).
Definition pos (m : M (vec T) Z) : M (vec T) (result T) := let! p := m in ret (RPos p).
Definition bool_of (m : M (vec T) bool) : M (vec T) (result T) := let! b := m in ret (RBool b).

Definition exec (o : op T) : M (vec T) (result T) :=
  match o with
  | TryPushBack s => bool_of (FixedVector.try_push_back C (reader s))
  | PushBack s => read (FixedVector.push_back h C (reader s))
  | PopBack => FixedVector.pop_back ;;; ret RUnit
  | Clear => FixedVector.clear ;;; ret RUnit
  | Insert p s => pos (FixedVector.insert h C moved p (reader s))
  | TryInsert p s => pos (FixedVector.try_insert h C moved p (reader s))
  | InsertN p n s => pos (FixedVector.insert_n h C moved p (Z.of_nat n) (reader s))
  | TryInsertN p n s => pos (FixedVector.try_insert_n h C moved p (Z.of_nat n) (reader s))
  | InsertRange p vs => pos (FixedVector.insert_range h C moved p (ExternalRange vs))
  | TryInsertRange p vs => pos (FixedVector.try_insert_range h C moved p (ExternalRange vs))
  | Erase p => pos (FixedVector.erase moved p)
  | EraseRange f l => pos (FixedVector.erase_range moved f l)
  | Resize n s => FixedVector.resize h C (Z.of_nat n) (reader s) ;;; ret RUnit
  | TryResize n s => bool_of (FixedVector.try_resize h C (Z.of_nat n) (reader s))
  | Assign n s => FixedVector.assign h C (Z.of_nat n) (reader s) ;;; ret RUnit
  | TryAssign n s => bool_of (FixedVector.try_assign h C (Z.of_nat n) (reader s))
  | AssignRange vs => FixedVector.assign_range h C (ExternalRange vs) ;;; ret RUnit
  | TryAssignRange vs => bool_of (FixedVector.try_assign_range h C (ExternalRange vs))
  | EraseIf pred => let! n := FixedVector.erase_if h moved pred in ret (RSize n)
  | Front => read (FixedVector.front h)
  | Back => read (FixedVector.back h)
  | At i => read (FixedVector.at_ h (Z.of_nat i))
  | Size => let! n := get FixedVector.size in ret (RSize n)
  | Empty => let! b := get FixedVector.empty in ret (RBool b)
  | Full => let! b := get (FixedVector.full C) in ret (RBool b)
  end.

(** The elements a finished program leaves, [None] if some slot in the
    occupied range is dead. *)
Definition contents (v : vec T) : option (list T) :=
  mapM id (take (Z.to_nat (vsize_ v)) (vstorage_ v)).

Fixpoint run (ops : list (op T)) (v : vec T) : behaviour T :=
  match ops with
  | [] => match contents v with Some l => Finished [] l | None => Wrong end
  | o :: ops' =>
      match exec o v with
      | Ret x v' => add_result x (run ops' v')
      | Trap => Stopped []
      | _ => Wrong
      end
  end.
End vec_run.
End VecRun.

(** ** Refinement, operation by operation *)

Section vec_refinement.
  Context `{SizeT} {T : Type} (h : hardening) (C : Z) (moved : T -> T) `{!CapacityOk C}.
  Implicit Types (vs ws : list T) (x : T).
  Abbreviation hold := (hold C).
  Abbreviation bounded vs := (Z.of_nat (length vs) <= C).

Definition valid_pos (pos : Z) vs : bool := (0 <=? pos) && (pos <=? Z.of_nat (length vs)).

Definition spliced (pos : Z) ws vs : list T := take (Z.to_nat pos) vs ++ ws ++ drop (Z.to_nat pos) vs.

Lemma valid_pos_cases pos vs :
  if valid_pos pos vs then (Z.to_nat pos <= length vs)%nat /\ pos = Z.of_nat (Z.to_nat pos)
  else ~ (0 <= pos <= Z.of_nat (length vs)).
Proof.
  unfold valid_pos. destruct (Z.leb_spec 0 pos), (Z.leb_spec pos (Z.of_nat (length vs))); cbn; lia.
Qed.

Lemma check_position_spec pos vs :
  FixedVector.check_position pos (hold vs) = if valid_pos pos vs then Ret tt (hold vs) else Trap.
Proof.
  pose proof (valid_pos_cases pos vs) as Hp. destruct (valid_pos pos vs).
  - destruct Hp as [Hi ->]. by apply hold_check_position.
  - by apply check_position_bad.
Qed.

Lemma emplace_spec pos x ctor vs :
  bounded vs -> reads C ctor x vs ->
  FixedVector.emplace h C moved pos ctor (hold vs) =
    if valid_pos pos vs && (Z.of_nat (length vs) <? C) then Ret pos (hold (spliced pos [x] vs)) else Trap.
Proof.
  intros Hb Hr. pose proof (valid_pos_cases pos vs) as Hp. pose proof (check_position_spec pos vs) as Hc.
  destruct (valid_pos pos vs); cbn [andb].
  - destruct Hp as [Hi Ep]. destruct (Z.ltb_spec (Z.of_nat (length vs)) C) as [Hl|Hl].
    + rewrite Ep at 1. rewrite (hold_emplace h C moved vs _ x ctor Hl Hi Hr), <- Ep. done.
    + unfold FixedVector.emplace. rewrite (bind_Ret _ _ _ _ _ Hc). mstep. rewrite vsize_hold. zbool. done.
  - by apply bind_Trap.
Qed.

Lemma length_spliced pos ws vs : length (spliced pos ws vs) = (length vs + length ws)%nat.
Proof. unfold spliced. rewrite !length_app, length_take, length_drop. lia. Qed.

(** Two adjacent insertions are one. *)
Lemma spliced_next pos x ws vs :
  valid_pos pos vs = true -> spliced (pos + 1) ws (spliced pos [x] vs) = spliced pos (x :: ws) vs.
Proof.
  intros Hv. pose proof (valid_pos_cases pos vs) as Hp. rewrite Hv in Hp. destruct Hp as [Hi _].
  assert (Z.to_nat (pos + 1) = S (Z.to_nat pos)) as E
    by (unfold valid_pos in Hv; apply andb_prop in Hv; lia).
  unfold spliced. rewrite E, (app_assoc (take _ vs) [x]).
  assert (length (take (Z.to_nat pos) vs ++ [x]) = S (Z.to_nat pos)) as El
    by (rewrite length_app, length_take; cbn; lia).
  rewrite <- El at 1. rewrite take_app_length, <- El, drop_app_length, <- !app_assoc. done.
Qed.

Lemma valid_pos_next pos x vs : valid_pos pos vs = true -> valid_pos (pos + 1) (spliced pos [x] vs) = true.
Proof.
  unfold valid_pos. rewrite length_spliced. cbn [length]. rewrite !andb_true_iff, !Z.leb_le. lia.
Qed.

(** A run of insertions gets as far as there is room. *)
Lemma insert_copies_overflow pos (k m : nat) j x us :
  (k < m)%nat -> valid_pos (pos + j) us = true -> Z.of_nat (length us + k) = C ->
  for_up m j (fun j => FixedVector.emplace h C moved (pos + j) (ret x) ;;; ret tt) (hold us) = Trap.
Proof.
  revert m j us. induction k as [|k IH]; intros [|m] j us Hkm Hv Hk; [lia| |lia|]; cbn [for_up];
    pose proof (emplace_spec (pos + j) x (ret x) us ltac:(lia) (reads_ret C x us)) as E; rewrite Hv in E;
    revert E; zbool; cbn [andb]; intros E.
  - by apply bind_Trap, bind_Trap.
  - rewrite bind_assoc, (bind_Ret _ _ _ _ _ E). mstep. apply IH; [lia| |].
    + rewrite Z.add_assoc. by apply valid_pos_next.
    + rewrite length_spliced. cbn. lia.
Qed.

Lemma insert_copies_spec pos (n : nat) x vs :
  bounded vs -> valid_pos pos vs = true ->
  for_up n 0 (fun j => FixedVector.emplace h C moved (pos + j) (ret x) ;;; ret tt) (hold vs) =
    if Z.of_nat (length vs + n) <=? C then Ret tt (hold (spliced pos (replicate n x) vs)) else Trap.
Proof.
  intros Hb Hv. pose proof (valid_pos_cases pos vs) as Hp. rewrite Hv in Hp. destruct Hp as [Hi Ep].
  destruct (Z.leb_spec (Z.of_nat (length vs + n)) C) as [Hl|Hl].
  - rewrite Ep. unfold spliced. rewrite Nat2Z.id. by apply hold_insert_copies.
  - pose proof (capacity_bounds C).
    apply (insert_copies_overflow pos (Z.to_nat C - length vs)); rewrite ?Z.add_0_r; [lia|done|lia].
Qed.

Lemma insert_reads_spec pos ws vs :
  bounded vs -> valid_pos pos vs = true ->
  FixedVector.insert_reads h C moved pos (ret <$> ws) (hold vs) =
    if Z.of_nat (length vs + length ws) <=? C then Ret tt (hold (spliced pos ws vs)) else Trap.
Proof.
  revert pos vs. induction ws as [|w ws IH]; intros pos vs Hb Hv; cbn [fmap list_fmap FixedVector.insert_reads].
  { cbn [length]. rewrite Nat.add_0_r. zbool. unfold spliced. cbn [app]. by rewrite take_drop. }
  pose proof (emplace_spec pos w (ret w) vs Hb (reads_ret C w vs)) as E. rewrite Hv in E. revert E.
  destruct (Z.ltb_spec (Z.of_nat (length vs)) C); cbn [andb length]; intros E.
  - rewrite (bind_Ret _ _ _ _ _ E), IH by (by apply valid_pos_next || (rewrite length_spliced; cbn; lia)).
    rewrite length_spliced, spliced_next by done. cbn [length].
    by replace (length vs + 1 + length ws)%nat with (length vs + S (length ws))%nat by lia.
  - zbool. by apply bind_Trap.
Qed.

Lemma insert_n_spec pos (n : nat) x value vs :
  bounded vs -> reads C value x vs ->
  FixedVector.insert_n h C moved pos (Z.of_nat n) value (hold vs) =
    if valid_pos pos vs && (Z.of_nat (length vs + n) <=? C)
    then Ret pos (hold (spliced pos (replicate n x) vs)) else Trap.
Proof.
  intros Hb Hr. pose proof (check_position_spec pos vs) as Hc. unfold FixedVector.insert_n.
  destruct (valid_pos pos vs) eqn:Hv; cbn [andb]; [|by apply bind_Trap].
  rewrite (bind_Ret _ _ _ _ _ Hc). mstep. rewrite vsize_hold. pose proof (capacity_bounds C). zbool.
  pose proof (insert_copies_spec pos n x vs Hb Hv) as E.
  destruct (Z.leb_spec (Z.of_nat (length vs + n)) C) as [Hl|Hl].
  - zbool. mstep. destruct (Z.eqb_spec (Z.of_nat n) 0).
    + replace n with 0%nat by lia. unfold spliced. cbn [replicate app]. by rewrite take_drop.
    + pose proof (Hr []) as Hr0. rewrite app_nil_r in Hr0. rewrite (bind_Ret _ _ _ _ _ Hr0), Nat2Z.id.
      by rewrite (bind_Ret _ _ _ _ _ E).
  - zbool. destruct (decide (h = HARDENING_NONE)) as [->|]; [|by apply bind_Trap, metl_assert_false].
    mstep. zbool. pose proof (Hr []) as Hr0. rewrite app_nil_r in Hr0.
    rewrite (bind_Ret _ _ _ _ _ Hr0), Nat2Z.id. by apply bind_Trap.
Qed.

Lemma insert_range_spec pos ws vs :
  bounded vs ->
  FixedVector.insert_range h C moved pos (ExternalRange ws) (hold vs) =
    if valid_pos pos vs && (Z.of_nat (length vs + length ws) <=? C)
    then Ret pos (hold (spliced pos ws vs)) else Trap.
Proof.
  intros Hb. pose proof (check_position_spec pos vs) as Hc. unfold FixedVector.insert_range.
  destruct (valid_pos pos vs) eqn:Hv; cbn [andb]; [|by apply bind_Trap].
  rewrite (bind_Ret _ _ _ _ _ Hc). cbn [FixedVector.aliases_own_storage negb]. mstep.
  pose proof (insert_reads_spec pos ws vs Hb Hv) as E. cbn [FixedVector.range_reads].
  destruct (Z.leb_spec (Z.of_nat (length vs + length ws)) C).
  - by rewrite (bind_Ret _ _ _ _ _ E).
  - by apply bind_Trap.
Qed.

(** The three [try_] insertions share their checks. *)
Lemma try_insert_shape pos (n : nat) ws vs (body : M (vec T) Z) :
  bounded vs -> n = length ws ->
  body (hold vs) = (if valid_pos pos vs && (Z.of_nat (length vs + n) <=? C)
    then Ret pos (hold (spliced pos ws vs)) else Trap) ->
  (FixedVector.check_position pos ;;;
   let! sz := get vsize_ in
   if wrap (C - sz) <? Z.of_nat n then ret sz else body) (hold vs) =
  if valid_pos pos vs then
    if Z.of_nat (length vs + n) <=? C then Ret pos (hold (spliced pos ws vs))
    else Ret (Z.of_nat (length vs)) (hold vs)
  else Trap.
Proof.
  intros Hb -> E. pose proof (check_position_spec pos vs) as Hc. revert E.
  destruct (valid_pos pos vs); cbn [andb]; intros E; [|by apply bind_Trap].
  rewrite (bind_Ret _ _ _ _ _ Hc). mstep. rewrite vsize_hold. pose proof (capacity_bounds C). zbool.
  revert E. destruct (Z.leb_spec (Z.of_nat (length vs + length ws)) C); zbool; by intros E.
Qed.

Lemma resize_spec (n : nat) x value vs :
  bounded vs -> reads C value x vs ->
  FixedVector.resize h C (Z.of_nat n) value (hold vs) =
    if Z.of_nat n <=? C then Ret tt (hold (VecSpec.resized n x vs)) else Trap.
Proof.
  intros Hb Hr. destruct (Z.leb_spec (Z.of_nat n) C).
  - by apply hold_resize.
  - unfold FixedVector.resize. zbool. done.
Qed.

Lemma length_resized (n : nat) x vs : length (VecSpec.resized n x vs) = n.
Proof. unfold VecSpec.resized. rewrite length_app, length_take, length_replicate. lia. Qed.

Lemma assign_range_fits ws vs :
  bounded vs -> bounded ws ->
  FixedVector.assign_range h C (ExternalRange ws) (hold vs) = Ret tt (hold ws).
Proof.
  intros Hb Hw. unfold FixedVector.assign_range. cbn [FixedVector.aliases_own_storage negb].
  mstep. rewrite (bind_Ret _ _ _ _ _ (hold_clear C vs Hb)). by apply (hold_append_reads h C []).
Qed.

Lemma erase_range_spec first last vs :
  bounded vs ->
  FixedVector.erase_range moved first last (hold vs) =
    if ((0 <=? first) && (last <=? Z.of_nat (length vs))) && (first <=? last)
    then Ret first (hold (take (Z.to_nat first) vs ++ drop (Z.to_nat last) vs)) else Trap.
Proof.
  intros Hb. destruct (((0 <=? first) && (last <=? Z.of_nat (length vs))) && (first <=? last)) eqn:E.
  - rewrite !andb_true_iff, !Z.leb_le in E.
    set (a := take (Z.to_nat first) vs). set (c := drop (Z.to_nat last) vs).
    set (b := take (Z.to_nat last - Z.to_nat first) (drop (Z.to_nat first) vs)).
    assert (vs = a ++ b ++ c) as Ev.
    { unfold a, b, c. rewrite <- (take_drop (Z.to_nat first) vs) at 1. f_equal.
      rewrite <- (take_drop (Z.to_nat last - Z.to_nat first) (drop (Z.to_nat first) vs)) at 1. f_equal.
      rewrite drop_drop. f_equal. lia. }
    assert (first = Z.of_nat (length a)) as Ef by (unfold a; rewrite length_take; lia).
    assert (last = Z.of_nat (length a + length b)) as El
      by (unfold a, b; rewrite !length_take, length_drop; lia).
    clearbody a b c. subst first last vs. by apply hold_erase_range.
  - unfold FixedVector.erase_range. mstep. by rewrite vsize_hold, E.
Qed.

Lemma resolve_reads s x vs : VecSpec.resolve s vs = Some x -> reads C (VecRun.reader s) x vs.
Proof. destruct s; cbn; [intros [= ->]; apply reads_ret|apply reads_element]. Qed.

(** The operations that change the vector. *)
Definition vec_mutator (o : VecSpec.op T) : bool :=
  match o with
  | VecSpec.Front | VecSpec.Back | VecSpec.At _ | VecSpec.Size | VecSpec.Empty | VecSpec.Full => false
  | _ => true
  end.

(** What the concrete operation must do, given the abstract verdict.  A stop is
    a trap while the checks are in; without [METL_ASSERT] an operation that
    changes the vector still traps or leaves a well-formed one. *)
Definition meets (o : VecSpec.op T) (d : VecSpec.verdict T) vs : Prop :=
  match d with
  | VecSpec.Go r vs' => VecRun.exec h C moved o (hold vs) = Ret r (hold vs') /\ bounded vs'
  | VecSpec.Stop =>
      (h <> HARDENING_NONE -> VecRun.exec h C moved o (hold vs) = Trap) /\
      (vec_mutator o = true -> VecRun.exec h C moved o (hold vs) = Trap \/
        exists (r : VecSpec.result T) vs', VecRun.exec h C moved o (hold vs) = Ret r (hold vs') /\ bounded vs')
  | VecSpec.Undefined => True
  end.

Lemma meets_trap o vs : VecRun.exec h C moved o (hold vs) = Trap -> meets o VecSpec.Stop vs.
Proof. intros E. split; [done|by left]. Qed.

Lemma meets_source o s k vs :
  (forall x, reads C (VecRun.reader s) x vs -> VecSpec.resolve s vs = Some x -> meets o (k x) vs) ->
  meets o (VecSpec.with_source s vs k) vs.
Proof.
  intros Hk. unfold VecSpec.with_source. destruct (VecSpec.resolve s vs) eqn:E; [|done].
  by apply Hk; [apply resolve_reads|].
Qed.

Lemma meets_insert o pos ws vs (m : M (vec T) Z) :
  VecRun.exec h C moved o = VecRun.pos m ->
  m (hold vs) = (if valid_pos pos vs && (Z.of_nat (length vs + length ws) <=? C)
    then Ret pos (hold (spliced pos ws vs)) else Trap) ->
  meets o (VecSpec.insert_at C pos ws vs) vs.
Proof.
  intros Eo Em. unfold VecSpec.insert_at, VecSpec.size. rewrite <- Nat2Z.inj_add.
  fold (valid_pos pos vs). revert Em.
  destruct (Z.leb_spec (Z.of_nat (length vs + length ws)) C), (valid_pos pos vs); cbn [andb]; intros Em;
    try (apply meets_trap; rewrite Eo; by apply bind_Trap).
  cbn [meets]. rewrite Eo. unfold VecRun.pos. rewrite (bind_Ret _ _ _ _ _ Em). split; [done|].
  fold (spliced pos ws vs). rewrite length_spliced. lia.
Qed.

Lemma meets_try_insert o pos ws vs (m : M (vec T) Z) :
  bounded vs -> VecRun.exec h C moved o = VecRun.pos m ->
  m (hold vs) = (if valid_pos pos vs then
    if Z.of_nat (length vs + length ws) <=? C then Ret pos (hold (spliced pos ws vs))
    else Ret (Z.of_nat (length vs)) (hold vs) else Trap) ->
  meets o (VecSpec.try_insert_at C pos ws vs) vs.
Proof.
  intros Hb Eo Em. unfold VecSpec.try_insert_at, VecSpec.size. rewrite <- Nat2Z.inj_add.
  fold (valid_pos pos vs). revert Em.
  destruct (valid_pos pos vs); intros Em; [|apply meets_trap; rewrite Eo; by apply bind_Trap].
  revert Em. destruct (Z.leb_spec (Z.of_nat (length vs + length ws)) C); intros Em;
    cbn [meets]; rewrite Eo; unfold VecRun.pos; rewrite (bind_Ret _ _ _ _ _ Em); split; try done.
  fold (spliced pos ws vs). rewrite length_spliced. lia.
Qed.

Lemma meets_inserting s pos (n : nat) vs ws :
  bounded vs ->
  meets (VecSpec.Insert pos s) (VecSpec.step C (VecSpec.Insert pos s) vs) vs /\
  meets (VecSpec.InsertN pos n s) (VecSpec.step C (VecSpec.InsertN pos n s) vs) vs /\
  meets (VecSpec.InsertRange pos ws) (VecSpec.step C (VecSpec.InsertRange pos ws) vs) vs.
Proof.
  intros Hb. split_and!; cbn [VecSpec.step].
  - apply meets_source. intros x Hr _. eapply meets_insert; [reflexivity|].
    unfold FixedVector.insert. rewrite (emplace_spec pos x _ vs Hb Hr). cbn [length].
    by destruct (Z.ltb_spec (Z.of_nat (length vs)) C); zbool.
  - apply meets_source. intros x Hr _. eapply meets_insert; [reflexivity|].
    rewrite length_replicate. by apply insert_n_spec.
  - eapply meets_insert; [reflexivity|]. by apply insert_range_spec.
Qed.

Lemma meets_try_inserting s pos (n : nat) vs ws :
  bounded vs ->
  meets (VecSpec.TryInsert pos s) (VecSpec.step C (VecSpec.TryInsert pos s) vs) vs /\
  meets (VecSpec.TryInsertN pos n s) (VecSpec.step C (VecSpec.TryInsertN pos n s) vs) vs /\
  meets (VecSpec.TryInsertRange pos ws) (VecSpec.step C (VecSpec.TryInsertRange pos ws) vs) vs.
Proof.
  intros Hb. split_and!; cbn [VecSpec.step].
  - apply meets_source. intros x Hr _. eapply meets_try_insert; [done|reflexivity|].
    pose proof (emplace_spec pos x _ vs Hb Hr) as E. cbn [length].
    unfold FixedVector.try_insert, FixedVector.try_emplace. pose proof (check_position_spec pos vs) as Hc.
    revert E. destruct (valid_pos pos vs); cbn [andb]; intros E; [|by apply bind_Trap].
    rewrite (bind_Ret _ _ _ _ _ Hc). mstep. rewrite vsize_hold. revert E.
    destruct (Z.eqb_spec (Z.of_nat (length vs)) C); zbool; by intros E.
  - apply meets_source. intros x Hr _. eapply meets_try_insert; [done|reflexivity|].
    rewrite length_replicate. apply try_insert_shape; [done|by rewrite length_replicate|].
    by apply insert_n_spec.
  - eapply meets_try_insert; [done|reflexivity|]. apply try_insert_shape; [done|done|].
    by apply insert_range_spec.
Qed.

(** *** What holds without [METL_ASSERT]

    A computation is tame when it stops or leaves a well-formed vector. *)

Definition tame {A} (m : M (vec T) A) : Prop := forall vs, bounded vs ->
  m (hold vs) = Trap \/ exists a vs', m (hold vs) = Ret a (hold vs') /\ bounded vs'.

Lemma tame_ret {A} (a : A) : tame (ret a).
Proof. intros vs Hb. right. by exists a, vs. Qed.

Lemma tame_bind {A B} (m : M (vec T) A) (k : A -> M (vec T) B) :
  tame m -> (forall a, tame (k a)) -> tame (bind m k).
Proof.
  intros Hm Hk vs Hb. destruct (Hm vs Hb) as [E|(a & vs' & E & Hb')].
  - left. by apply bind_Trap.
  - rewrite (bind_Ret _ _ _ _ _ E). by apply Hk.
Qed.

Lemma tame_for_up (n : nat) from body : (forall i, tame (body i)) -> tame (for_up n from body).
Proof.
  intros Hb. revert from. induction n as [|n IH]; intros from; cbn [for_up]; [apply tame_ret|].
  by apply tame_bind.
Qed.

Lemma tame_assert b : tame (metl_assert h b).
Proof. intros vs Hb. destruct h, b; cbn; (by left) || (right; by exists tt, vs). Qed.

(** [emplace_back], at any level: the reference it returns is to an element. *)
Lemma emplace_back_any x ctor vs :
  bounded vs -> reads C ctor x vs ->
  FixedVector.emplace_back h C ctor (hold vs) = Trap \/
  exists (i : nat) v vs', FixedVector.emplace_back h C ctor (hold vs) = Ret (Z.of_nat i) (hold vs') /\
    bounded vs' /\ vs' !! i = Some v.
Proof.
  intros Hb Hr. destruct (decide (Z.of_nat (length vs) = C)) as [E|].
  2: { right. exists (length vs), x, (vs ++ [x]). split_and!; [|rewrite length_app; cbn; lia|].
       - apply (vec_push h C vs x ctor); [lia|done].
       - by rewrite list_lookup_middle. }
  unfold FixedVector.emplace_back. mstep.
  pose proof (vec_try_emplace_full C (Some <$> vs) ctor ltac:(by rewrite length_fmap)) as Et.
  fold (hold vs) in Et. rewrite (bind_Ret _ _ _ _ _ Et). cbn [negb].
  destruct (decide (h = HARDENING_NONE)) as [->|]; [|left; by apply bind_Trap, metl_assert_false].
  do 2 mstep. rewrite vsize_hold. destruct vs as [|v vs _] using rev_ind; [by left|right].
  pose proof (capacity_bounds C). rewrite length_app in E |- *. cbn [length] in E |- *. zbool. mstep.
  unfold FixedVector.back. do 2 mstep. rewrite vsize_hold, length_app. cbn [length]. zbool.
  replace (Z.of_nat (length vs + 1) - 1) with (Z.of_nat (length vs)) by lia.
  assert ((vs ++ [v]) !! length vs = Some v) as Ev by (by rewrite list_lookup_middle).
  exists (length vs), v, (vs ++ [v]). rewrite (bind_Ret _ _ _ _ _ (hold_ref C _ _ v Ev)).
  split_and!; [done| |done]. rewrite length_app. cbn [length]. lia.
Qed.

Lemma tame_emplace_back x : tame (FixedVector.emplace_back h C (ret x)).
Proof.
  intros vs Hb. destruct (emplace_back_any x (ret x) vs Hb (reads_ret C x vs)) as [|(i & v & vs' & E & Hb' & _)];
    [by left|right; by eexists _, vs'].
Qed.

Lemma tame_append_reads ws : tame (FixedVector.append_reads h C (ret <$> ws)).
Proof.
  induction ws as [|w ws IH]; cbn [fmap list_fmap FixedVector.append_reads]; [apply tame_ret|].
  apply tame_bind; [intros vs Hb; right; by eexists _, vs|]. intros n.
  apply tame_bind; [apply tame_assert|intros _]. apply tame_bind; [apply tame_emplace_back|done].
Qed.

Lemma emplace_back_full_stops ctor vs :
  h <> HARDENING_NONE -> Z.of_nat (length vs) = C ->
  FixedVector.emplace_back h C ctor (hold vs) = Trap.
Proof.
  intros Hh E. unfold FixedVector.emplace_back. mstep.
  pose proof (vec_try_emplace_full C (Some <$> vs) ctor ltac:(by rewrite length_fmap)) as Et.
  fold (hold vs) in Et. rewrite (bind_Ret _ _ _ _ _ Et). by apply bind_Trap, metl_assert_false.
Qed.

Lemma read_element (m : M (vec T) Z) vs vs' (i : nat) v :
  m (hold vs) = Ret (Z.of_nat i) (hold vs') -> vs' !! i = Some v ->
  VecRun.read m (hold vs) = Ret (VecSpec.RVal v) (hold vs').
Proof.
  intros E Ei. unfold VecRun.read.
  by rewrite (bind_Ret _ _ _ _ _ E), (bind_Ret _ _ _ _ _ (hold_ref C _ i v Ei)).
Qed.

Lemma meets_push_back s vs :
  bounded vs -> meets (VecSpec.PushBack s) (VecSpec.step C (VecSpec.PushBack s) vs) vs.
Proof.
  intros Hb. cbn [VecSpec.step]. apply meets_source. intros x Hr _. unfold VecSpec.size.
  destruct (Z.ltb_spec (Z.of_nat (length vs)) C) as [Hl|Hl]; cbn [meets VecRun.exec].
  - split; [|rewrite length_app; cbn; lia].
    apply (read_element _ _ _ _ _ (vec_push h C vs x _ Hl Hr)). by rewrite list_lookup_middle.
  - split; [intros Hh; apply bind_Trap, emplace_back_full_stops; [done|lia]|intros _].
    destruct (emplace_back_any x _ vs Hb Hr) as [E|(i & v & vs' & E & Hb' & Hi)]; [left; by apply bind_Trap|].
    right. eexists _, vs'. split; [|done]. by apply (read_element _ _ _ i v).
Qed.

Lemma try_push_spec s x vs :
  bounded vs -> reads C (VecRun.reader s) x vs ->
  FixedVector.try_push_back C (VecRun.reader s) (hold vs) =
    if Z.of_nat (length vs) <? C then Ret true (hold (vs ++ [x])) else Ret false (hold vs).
Proof.
  intros Hb Hr. unfold FixedVector.try_push_back. destruct (Z.ltb_spec (Z.of_nat (length vs)) C).
  - unfold FixedVectorFacts.hold. rewrite fmap_app. apply (vec_try_emplace_ret C (Some <$> vs) [] x); [|apply Hr].
    unfold fits. rewrite length_app, length_fmap. cbn. lia.
  - apply (vec_try_emplace_full C (Some <$> vs)). rewrite length_fmap. lia.
Qed.

Lemma meets_become o vs vs' (m : M (vec T) unit) :
  VecRun.exec h C moved o = (m ;;; ret VecSpec.RUnit) ->
  (bounded vs' -> m (hold vs) = Ret tt (hold vs')) ->
  (~ bounded vs' -> meets o VecSpec.Stop vs) ->
  meets o (VecSpec.become C vs') vs.
Proof.
  intros Eo Hm Hs. unfold VecSpec.become, VecSpec.size.
  destruct (Z.leb_spec (Z.of_nat (length vs')) C) as [Hl|Hl]; [|apply Hs; lia].
  cbn [meets]. rewrite Eo, (bind_Ret _ _ _ _ _ (Hm Hl)). done.
Qed.

Lemma meets_try_become o vs vs' (m : M (vec T) bool) :
  bounded vs -> VecRun.exec h C moved o = VecRun.bool_of m ->
  m (hold vs) = (if Z.of_nat (length vs') <=? C then Ret true (hold vs') else Ret false (hold vs)) ->
  meets o (VecSpec.try_become C vs' vs) vs.
Proof.
  intros Hb Eo. unfold VecSpec.try_become, VecSpec.size.
  destruct (Z.leb_spec (Z.of_nat (length vs')) C) as [Hl|Hl]; intros Em; cbn [meets]; rewrite Eo;
    unfold VecRun.bool_of; by rewrite (bind_Ret _ _ _ _ _ Em).
Qed.

Lemma meets_tame o vs (m : M (vec T) unit) :
  bounded vs -> VecRun.exec h C moved o = (m ;;; ret VecSpec.RUnit) ->
  (h <> HARDENING_NONE -> m (hold vs) = Trap) ->
  m (hold vs) = Trap \/ (exists a vs', m (hold vs) = Ret a (hold vs') /\ bounded vs') ->
  meets o VecSpec.Stop vs.
Proof.
  intros Hb Eo Hm Ht. cbn [meets]. rewrite Eo. split; [intros Hh; by apply bind_Trap, Hm|intros _].
  destruct Ht as [E|([] & vs' & E & Hb')]; [left; by apply bind_Trap|right].
  rewrite (bind_Ret _ _ _ _ _ E). by eexists _, vs'.
Qed.

Lemma tame_clear : tame FixedVector.clear.
Proof. intros vs Hb. right. exists tt, []. rewrite hold_clear by done. pose proof (capacity_bounds C). cbn. split; [done|lia]. Qed.

Lemma append_reads_overflow ws vs :
  h <> HARDENING_NONE -> bounded vs -> C < Z.of_nat (length vs + length ws) ->
  FixedVector.append_reads h C (ret <$> ws) (hold vs) = Trap.
Proof.
  intros Hh. revert vs. induction ws as [|w ws IH]; intros vs Hb Ho; cbn [length] in Ho; [lia|].
  cbn [fmap list_fmap FixedVector.append_reads]. mstep. rewrite vsize_hold.
  destruct (Z.ltb_spec (Z.of_nat (length vs)) C); [|by apply bind_Trap, metl_assert_false].
  mstep. rewrite (bind_Ret _ _ _ _ _ (hold_push h C vs w ltac:(lia))). apply IH; rewrite length_app; cbn; lia.
Qed.

Lemma tame_refill (n : nat) x :
  tame (FixedVector.clear ;;; for_up n 0 (fun _ => FixedVector.emplace_back h C (ret x) ;;; ret tt)).
Proof.
  apply tame_bind; [apply tame_clear|intros _]. apply tame_for_up. intros _.
  apply tame_bind; [apply tame_emplace_back|intros _; apply tame_ret].
Qed.

Lemma assign_overflow s (n : nat) x vs :
  bounded vs -> reads C (VecRun.reader s) x vs -> C < Z.of_nat n -> meets (VecSpec.Assign n s) VecSpec.Stop vs.
Proof.
  intros Hb Hr Hl. eapply meets_tame; [done|reflexivity|..]; unfold FixedVector.assign; zbool.
  - intros Hh. by apply bind_Trap, metl_assert_false.
  - destruct (decide (h = HARDENING_NONE)) as [Eh|Hh]; [|left; by apply bind_Trap, metl_assert_false].
    assert (metl_assert h false (hold vs) = Ret tt (hold vs)) as Ea by (by rewrite Eh).
    pose proof (Hr []) as Hr0. rewrite app_nil_r in Hr0.
    rewrite (bind_Ret _ _ _ _ _ Ea), (bind_Ret _ _ _ _ _ Hr0), Nat2Z.id.
    by apply tame_refill.
Qed.

Lemma assign_range_overflow ws vs :
  bounded vs -> C < Z.of_nat (length ws) -> meets (VecSpec.AssignRange ws) VecSpec.Stop vs.
Proof.
  intros Hb Hl. eapply meets_tame; [done|reflexivity|..]; unfold FixedVector.assign_range;
    cbn [FixedVector.aliases_own_storage negb FixedVector.range_reads].
  - intros Hh. mstep. rewrite (bind_Ret _ _ _ _ _ (hold_clear C vs Hb)).
    pose proof (capacity_bounds C). apply append_reads_overflow; cbn; [done|lia..].
  - apply (tame_bind (metl_harden true)); [apply tame_ret| |done]. intros _.
    apply tame_bind; [apply tame_clear|intros _; apply tame_append_reads].
Qed.

Lemma meets_assigning s (n : nat) ws vs :
  bounded vs ->
  meets (VecSpec.Assign n s) (VecSpec.step C (VecSpec.Assign n s) vs) vs /\
  meets (VecSpec.AssignRange ws) (VecSpec.step C (VecSpec.AssignRange ws) vs) vs /\
  meets (VecSpec.Resize n s) (VecSpec.step C (VecSpec.Resize n s) vs) vs.
Proof.
  intros Hb. split_and!; cbn [VecSpec.step].
  - apply meets_source. intros x Hr _. eapply meets_become; [reflexivity| |]; rewrite length_replicate; intros Hl.
    + by apply hold_assign_n.
    + apply (assign_overflow s n x); [done|done|lia].
  - eapply meets_become; [reflexivity|intros; by apply assign_range_fits|intros Hl].
    apply assign_range_overflow; [done|lia].
  - apply meets_source. intros x Hr _. eapply meets_become; [reflexivity| |]; rewrite length_resized; intros Hl.
    + by apply hold_resize.
    + apply meets_trap. apply bind_Trap. rewrite (resize_spec n x) by done. by zbool.
Qed.

(** The [try_] forms refuse what does not fit before they touch anything. *)
Lemma meets_try_assigning s (n : nat) ws vs :
  bounded vs ->
  meets (VecSpec.TryPushBack s) (VecSpec.step C (VecSpec.TryPushBack s) vs) vs /\
  meets (VecSpec.TryAssign n s) (VecSpec.step C (VecSpec.TryAssign n s) vs) vs /\
  meets (VecSpec.TryAssignRange ws) (VecSpec.step C (VecSpec.TryAssignRange ws) vs) vs /\
  meets (VecSpec.TryResize n s) (VecSpec.step C (VecSpec.TryResize n s) vs) vs.
Proof.
  intros Hb. split_and!; cbn [VecSpec.step]; try (apply meets_source; intros x Hr _);
    eapply meets_try_become; [done|reflexivity| |done|reflexivity| |done|reflexivity| |done|reflexivity|].
  - rewrite (try_push_spec s x vs Hb Hr), length_app. cbn [length].
    by destruct (Z.ltb_spec (Z.of_nat (length vs)) C); zbool.
  - rewrite length_replicate. unfold FixedVector.try_assign.
    destruct (Z.leb_spec (Z.of_nat n) C); zbool; [|done].
    by rewrite (bind_Ret _ _ _ _ _ (hold_assign_n h C vs n x _ ltac:(done) Hb Hr)).
  - unfold FixedVector.try_assign_range. cbn [FixedVector.range_length].
    destruct (Z.leb_spec (Z.of_nat (length ws)) C); zbool; [|done].
    by rewrite (bind_Ret _ _ _ _ _ (assign_range_fits ws vs Hb ltac:(done))).
  - rewrite length_resized. unfold FixedVector.try_resize.
    destruct (Z.leb_spec (Z.of_nat n) C); zbool; [|done].
    by rewrite (bind_Ret _ _ _ _ _ (hold_resize h C vs n x _ ltac:(done) Hb Hr)).
Qed.
Lemma meets_erasing pred pos first last vs :
  bounded vs ->
  meets VecSpec.PopBack (VecSpec.step C VecSpec.PopBack vs) vs /\
  meets (VecSpec.Erase pos) (VecSpec.step C (VecSpec.Erase pos) vs) vs /\
  meets (VecSpec.EraseRange first last) (VecSpec.step C (VecSpec.EraseRange first last) vs) vs /\
  meets (VecSpec.EraseIf pred) (VecSpec.step C (VecSpec.EraseIf pred) vs) vs.
Proof.
  intros Hb. split_and!; cbn [VecSpec.step]; unfold VecSpec.size.
  - destruct vs as [|v vs _] using rev_ind; [by apply meets_trap|].
    rewrite length_app, Nat.add_sub, take_app_length. rewrite length_app in Hb. cbn [length] in Hb.
    destruct (vs ++ [v]) eqn:Ev; [by destruct vs|]. rewrite <- Ev. cbn [meets VecRun.exec].
    split; [|lia]. unfold FixedVectorFacts.hold at 1. rewrite fmap_app.
    rewrite (bind_Ret _ _ _ _ _ (vec_pop_back C (Some <$> vs) v
      ltac:(unfold fits; rewrite length_app, length_fmap; cbn; lia))). done.
  - destruct ((0 <=? pos) && (pos <? Z.of_nat (length vs))) eqn:E.
    + rewrite andb_true_iff, Z.leb_le, Z.ltb_lt in E. cbn [meets VecRun.exec]. unfold VecRun.pos.
      pose proof (hold_erase C moved vs (Z.to_nat pos) Hb ltac:(lia)) as Ee. rewrite Z2Nat.id in Ee by lia.
      rewrite (bind_Ret _ _ _ _ _ Ee). split; [done|]. rewrite length_delete by (apply lookup_lt_is_Some; lia). lia.
    + apply meets_trap, bind_Trap, hold_erase_bad. intros ?. by revert E; zbool.
  - pose proof (erase_range_spec first last vs Hb) as Ee. revert Ee.
    destruct (((0 <=? first) && (last <=? Z.of_nat (length vs))) && (first <=? last)) eqn:E; intros Ee.
    + rewrite !andb_true_iff, !Z.leb_le in E. cbn [meets VecRun.exec]. unfold VecRun.pos. rewrite (bind_Ret _ _ _ _ _ Ee). split; [done|].
      rewrite length_app, length_take, length_drop. lia.
    + by apply meets_trap, bind_Trap.
  - cbn [meets VecRun.exec]. rewrite (bind_Ret _ _ _ _ _ (hold_erase_if h C moved pred vs Hb)). split; [done|].
    pose proof (List.filter_length_le (fun x => negb (pred x)) vs). lia.
Qed.

Lemma meets_accessing (i : nat) vs :
  bounded vs ->
  meets VecSpec.Front (VecSpec.step C VecSpec.Front vs) vs /\
  meets VecSpec.Back (VecSpec.step C VecSpec.Back vs) vs /\
  meets (VecSpec.At i) (VecSpec.step C (VecSpec.At i) vs) vs.
Proof.
  intros Hb. pose proof (capacity_bounds C). split_and!; cbn [VecSpec.step].
  - destruct vs as [|v vs]; cbn [head].
    + split; [intros Hh|done]. apply bind_Trap. unfold FixedVector.front. mstep.
      by apply bind_Trap, metl_assert_false.
    + split; [|done]. apply (read_element _ _ _ 0 v); [|done]. unfold FixedVector.front. mstep.
      rewrite vsize_hold. cbn [length]. zbool. mstep.
      by rewrite (bind_Ret _ _ _ _ _ (hold_ref C (v :: vs) 0 v eq_refl)).
  - destruct vs as [|v vs _] using rev_ind; cbn [list.last].
    + split; [intros Hh|done]. apply bind_Trap. unfold FixedVector.back. mstep.
      by apply bind_Trap, metl_assert_false.
    + rewrite last_snoc. split; [|done].
      assert ((vs ++ [v]) !! length vs = Some v) as Ev by (by rewrite list_lookup_middle).
      apply (read_element _ _ _ (length vs) v); [|done]. rewrite length_app in Hb. cbn [length] in Hb.
      unfold FixedVector.back. mstep. rewrite vsize_hold, length_app. cbn [length]. zbool. mstep.
      replace (Z.of_nat (length vs + 1) - 1) with (Z.of_nat (length vs)) by lia.
      by rewrite (bind_Ret _ _ _ _ _ (hold_ref C _ _ v Ev)).
  - destruct (vs !! i) as [v|] eqn:Ev.
    + split; [|done]. apply (read_element _ _ _ i v); [|done]. by apply (hold_at h C vs i v).
    + split; [intros Hh|done]. apply bind_Trap. unfold FixedVector.at_. mstep. rewrite vsize_hold.
      apply lookup_ge_None in Ev. zbool. by apply bind_Trap, metl_assert_false.
Qed.

Lemma exec_meets o vs : bounded vs -> meets o (VecSpec.step C o vs) vs.
Proof.
  intros Hb. pose proof (capacity_bounds C). destruct o.
  1: by apply (meets_try_assigning s 0 []).
  1: by apply meets_push_back.
  1: by apply (meets_erasing (fun _ => true) 0 0 0).
  1: { cbn. rewrite (bind_Ret _ _ _ _ _ (hold_clear C vs Hb)). split; [done|cbn; lia]. }
  1: by apply (meets_inserting s pos 0 vs []).
  1: by apply (meets_try_inserting s pos 0 vs []).
  1: by apply (meets_inserting s pos n vs []).
  1: by apply (meets_try_inserting s pos n vs []).
  1: by apply (meets_inserting (VecSpec.Own 0) pos 0 vs vs0).
  1: by apply (meets_try_inserting (VecSpec.Own 0) pos 0 vs vs0).
  1: by apply (meets_erasing (fun _ => true) pos 0 0).
  1: by apply (meets_erasing (fun _ => true) 0 first last).
  1: by apply (meets_assigning s n []).
  1: by apply (meets_try_assigning s n []).
  1: by apply (meets_assigning s n []).
  1: by apply (meets_try_assigning s n []).
  1: by apply (meets_assigning (VecSpec.Own 0) 0 vs0).
  1: by apply (meets_try_assigning (VecSpec.Own 0) 0 vs0).
  1: by apply (meets_erasing pred 0 0 0).
  1-3: by (apply (meets_accessing 0) || apply meets_accessing).
  all: split; [|done]; cbn [VecRun.exec]; rewrite (bind_Ret (get _) _ _ _ _ eq_refl);
    unfold FixedVector.size, FixedVector.empty, FixedVector.full; by rewrite vsize_hold.
Qed.

Lemma contents_hold vs : VecRun.contents (hold vs) = Some vs.
Proof.
  unfold VecRun.contents. rewrite vsize_hold, Nat2Z.id. unfold FixedVectorFacts.hold, vec_of. cbn.
  rewrite take_app_le by (by rewrite length_fmap). rewrite take_ge by (by rewrite length_fmap).
  apply mapM_Some. induction vs; cbn; by constructor.
Qed.

Lemma vec_run_refines ops vs :
  h <> HARDENING_NONE -> bounded vs -> VecSpec.run C ops vs <> VecSpec.Wrong ->
  VecRun.run h C moved ops (hold vs) = VecSpec.run C ops vs.
Proof.
  intros Hh. revert vs. induction ops as [|o ops IH]; intros vs Hb; cbn [VecRun.run VecSpec.run].
  { by rewrite contents_hold. }
  pose proof (exec_meets o vs Hb) as S. unfold meets in S.
  destruct (VecSpec.step C o vs) as [x vs'| |]; [|by rewrite (proj1 S Hh)|done].
  destruct S as [E Hb']. rewrite E. intros Hw. f_equal. apply IH; [done|].
  intros Ew. by rewrite Ew in Hw.
Qed.
End vec_refinement.

(** ** Properties *)

Section vector_properties.
  Context `{SizeT} {T : Type}.
  Implicit Types (vs us : list T).

(** C2. Refinement: any sequence of operations on a fresh [fixed_vector]
    (checks compiled in), with arguments that may refer to the vector's own
    elements, returns what a bounded sequence returns, stops exactly where the
    sequence's preconditions fail, and leaves the sequence's elements; nothing
    reads a dead slot, leaks an element or leaves the storage. *)
Theorem vector_refines_sequence (h : hardening) (C : Z) (moved : T -> T) (ops : list (VecSpec.op T)) :
  CapacityOk C -> h <> HARDENING_NONE -> VecSpec.run C ops [] <> VecSpec.Wrong ->
  VecRun.run h C moved ops (FixedVector.fixed_vector C) = VecSpec.run C ops [].
Proof.
  intros HC Hh Hw. rewrite vec_init. pose proof (capacity_bounds C).
  exact (vec_run_refines h C moved ops [] Hh (proj1 HC) Hw).
Qed.

(** The hardening floor: with [METL_ASSERT] compiled out, an operation that
    changes the vector does what the bounded sequence does, or stops, or leaves
    a well-formed vector of at most [Capacity] elements; a position, a count or
    a range that does not fit never corrupts the storage. *)
Theorem vector_harden_floor (C : Z) (moved : T -> T) (o : VecSpec.op T) vs :
  CapacityOk C -> Z.of_nat (length vs) <= C -> vec_mutator o = true ->
  VecSpec.step C o vs <> VecSpec.Undefined ->
  match VecSpec.step C o vs with
  | VecSpec.Go x vs' => VecRun.exec HARDENING_NONE C moved o (hold C vs) = Ret x (hold C vs')
  | _ => VecRun.exec HARDENING_NONE C moved o (hold C vs) = Trap \/
      exists x vs', VecRun.exec HARDENING_NONE C moved o (hold C vs) = Ret x (hold C vs') /\
        Z.of_nat (length vs') <= C
  end.
Proof.
  intros HC Hb Hm Hu. pose proof (exec_meets HARDENING_NONE C moved o vs Hb) as S. unfold meets in S.
  destruct (VecSpec.step C o vs); [apply S|by apply S|done].
Qed.

(** Copy, move and swap of whole vectors: copy assignment copies, move
    assignment takes the elements and leaves the source empty, [swap] exchanges
    sequences of any two lengths; whatever the moved-from state of an element
    is, none of it shows. *)
Theorem vector_assign_swap (h : hardening) (C : Z) (moved : T -> T) us vs :
  CapacityOk C -> Z.of_nat (length us) <= C -> Z.of_nat (length vs) <= C ->
  FixedVector.copy_assign h C false (hold C us, hold C vs) = Ret tt (hold C vs, hold C vs) /\
  FixedVector.move_assign h C moved false (hold C us, hold C vs) = Ret tt (hold C vs, hold C []) /\
  FixedVector.swap moved false (hold C us, hold C vs) = Ret tt (hold C vs, hold C us).
Proof.
  intros HC Hu Hv. split_and!; [| |by apply hold_swap].
  - unfold FixedVector.copy_assign.
    rewrite (bind_Ret _ _ _ _ _ (on_fst_Ret _ (hold C us, hold C vs) _ _ (hold_clear C us Hu))).
    by apply (hold_append_copies h C []).
  - unfold FixedVector.move_assign.
    rewrite (bind_Ret _ _ _ _ _ (on_fst_Ret _ (hold C us, hold C vs) _ _ (hold_clear C us Hu))).
    by apply (hold_append_moves h C moved []).
Qed.

Lemma list_eqb_spec (eqb : T -> T -> bool) us vs :
  list_eqb eqb us vs = true <-> Forall2 (fun x y => eqb x y = true) us vs.
Proof.
  revert vs. induction us as [|x us IH]; intros [|y vs]; cbn.
  - split; [constructor|done].
  - split; [done|inversion 1].
  - split; [done|inversion 1].
  - specialize (IH vs). destruct (eqb x y) eqn:E; cbn.
    + rewrite IH. split; [by constructor|by inversion 1].
    + split; [done|inversion 1; congruence].
Qed.

(** [us] is before [vs]: after a stretch where neither element is less, [us]
    ends first or has the lesser element. *)
Definition lex_before (ltb : T -> T -> bool) us vs : Prop := exists n,
  (forall i, (i < n)%nat -> exists x y, us !! i = Some x /\ vs !! i = Some y /\ ltb x y = false /\ ltb y x = false) /\
  exists y, vs !! n = Some y /\ (us !! n = None \/ exists x, us !! n = Some x /\ ltb x y = true).

Lemma list_lex_spec (ltb : T -> T -> bool) us vs : list_lex ltb us vs = true <-> lex_before ltb us vs.
Proof.
  revert vs. induction us as [|x us IH]; intros [|y vs]; cbn.
  - split; [done|]. intros (n & _ & y & ? & _). by destruct n.
  - split; [|done]. intros _. exists 0%nat. split; [lia|]. exists y. cbn. eauto.
  - split; [done|]. intros (n & _ & y & ? & _). by destruct n.
  - destruct (ltb x y) eqn:Exy; [|destruct (ltb y x) eqn:Eyx].
    + split; [|done]. intros _. exists 0%nat. split; [lia|]. exists y. cbn. eauto.
    + split; [done|]. intros ([|n] & Hn & y' & Hy & Hx); cbn in *.
      * destruct Hx as [|(x' & [= <-] & Hx)]; [done|congruence].
      * destruct (Hn 0%nat ltac:(lia)) as (? & ? & [= <-] & [= <-] & _ & Hf). congruence.
    + rewrite IH. split.
      * intros (n & Hn & Hy). exists (S n). split; [|done]. intros [|i] Hi; [by exists x, y|apply (Hn i); lia].
      * intros ([|n] & Hn & y' & Hy & Hx); cbn in *.
        { destruct Hx as [|(x' & [= <-] & Hx)]; [done|congruence]. }
        exists n. split; [|by exists y']. intros i Hi. apply (Hn (S i)). lia.
Qed.

(** Comparison: [operator==] decides whether the two sequences agree
    element by element and [operator<] their lexicographic order, for any two
    lengths, at every level, and neither vector changes. *)
Theorem vector_comparison (h : hardening) (C : Z) (eqb ltb : T -> T -> bool) us vs :
  exists be bl,
    FixedVector.equal h eqb (hold C us, hold C vs) = Ret be (hold C us, hold C vs) /\
    (be = true <-> Forall2 (fun x y => eqb x y = true) us vs) /\
    FixedVector.less h ltb (hold C us, hold C vs) = Ret bl (hold C us, hold C vs) /\
    (bl = true <-> lex_before ltb us vs).
Proof.
  eexists _, _. rewrite hold_equal, hold_less. split_and!; try reflexivity;
    [apply list_eqb_spec|apply list_lex_spec].
Qed.

Lemma emplace_middle_start (h : hardening) C `{!CapacityOk C} moved (i : nat) ctor vs :
  Z.of_nat (length vs) < C -> (i < length vs)%nat ->
  FixedVector.emplace h C moved (Z.of_nat i) ctor (hold C vs) =
    (let! value := ctor in
     let! n := get vsize_ in
     let! last := slot_move_out moved (wrap (n - 1)) in
     slot_construct n last ;;;
     modify (fun v => set_vsize (wrap (vsize_ v + 1)) v) ;;;
     let! n' := get vsize_ in
     for_down (Z.to_nat (wrap (n' - 2) - Z.of_nat i)) (wrap (n' - 2))
       (fun j => FixedVector.move_element moved j (j - 1)) ;;;
     slot_assign (Z.of_nat i) value ;;;
     ret (Z.of_nat i)) (hold C vs).
Proof.
  intros Hl Hi. unfold FixedVector.emplace.
  rewrite (bind_Ret _ _ _ _ _ (hold_check_position C vs i ltac:(lia))). mstep. rewrite vsize_hold.
  zbool. mstep. zbool. done.
Qed.

(** Strong exception guarantee of insertion: if the element's constructor
    throws and leaves the vector alone, [emplace] at any position and
    [try_emplace_back] rethrow with the vector exactly as it was. *)
Theorem emplace_throw_unchanged (h : hardening) (C : Z) (moved : T -> T) (i : nat) vs :
  CapacityOk C -> Z.of_nat (length vs) < C -> (i <= length vs)%nat ->
  FixedVector.emplace h C moved (Z.of_nat i) throw (hold C vs) = Throw (hold C vs) /\
  FixedVector.try_emplace_back C throw (hold C vs) = Throw (hold C vs).
Proof.
  intros HC Hl Hi.
  assert (FixedVector.try_emplace_back C throw (hold C vs) = Throw (hold C vs)) as Et.
  { apply (vec_try_emplace_throw C (Some <$> vs)); [|done]. unfold fits. rewrite length_app, length_fmap. cbn. lia. }
  split; [|done]. destruct (decide (i = length vs)) as [->|]; [|by rewrite emplace_middle_start by (done || lia)].
  unfold FixedVector.emplace. rewrite (bind_Ret _ _ _ _ _ (hold_check_position C vs _ (le_n _))).
  mstep. rewrite vsize_hold. zbool. mstep. zbool. apply bind_Throw.
  unfold FixedVector.emplace_back. mstep. by apply bind_Throw.
Qed.

(** C39. A defect: [emplace] checks for room before the element's constructor
    runs and not again after it.  On a vector with one free slot, inserting
    before an element with a constructor that itself appends to the vector
    passes every check, at every level, and then constructs past the storage. *)
Theorem emplace_reentrant_overflow (h : hardening) (C : Z) (moved : T -> T) (i : nat) vs x y :
  CapacityOk C -> Z.of_nat (length vs) + 1 = C -> (i < length vs)%nat ->
  FixedVector.emplace h C moved (Z.of_nat i)
    (FixedVector.emplace_back h C (ret y) ;;; ret x) (hold C vs) = Fault.
Proof.
  intros HC Hl Hi. rewrite emplace_middle_start by (done || lia).
  rewrite bind_assoc, (bind_Ret _ _ _ _ _ (hold_push h C vs y ltac:(lia))). mstep.
  rewrite (bind_Ret (get vsize_) _ _ _ _ eq_refl). rewrite vsize_hold, length_app. cbn [length].
  pose proof (capacity_bounds C). zbool.
  replace (Z.of_nat (length vs + 1) - 1) with (Z.of_nat (length vs)) by lia.
  rewrite (bind_Ret _ _ _ _ _ (hold_move C moved (vs ++ [y]) (length vs) y ltac:(by rewrite list_lookup_middle))).
  unfold bind at 1. unfold slot_construct. cbn [get_slots vec_has_slots].
  rewrite slot_lookup_of_nat, lookup_ge_None_2; [done|].
  unfold FixedVectorFacts.hold, vec_of, FixedVector.slot_count. cbn [vstorage_].
  rewrite length_app, length_replicate, length_fmap, length_insert, length_app. cbn [length]. zbool. lia.
Qed.
End vector_properties.

(** ** The properties at concrete inputs *)

Section vector_witnesses.
  #[local] Existing Instance size_t_32.
  Import VecSpec.

Lemma vec_capacity_ok_4 : CapacityOk 4.
Proof. split; cbn; lia. Qed.

Lemma vector_refines_sequence_witness :
  VecRun.run HARDENING_FAST 4 (fun _ => 0)
    [PushBack (Val 1); PushBack (Val 2); Insert 0 (Own 1); InsertN 1 1 (Own 0); TryInsert 2 (Val 9);
     Erase 0; EraseIf (Z.eqb 1); TryResize 4 (Own 1); AssignRange [5; 6]; EraseRange 1 2; Insert 2 (Val 7)]
    (FixedVector.fixed_vector 4)
  = Stopped [RVal 1; RVal 2; RPos 0; RPos 1; RPos 4; RPos 0; RSize 1; RBool true; RUnit; RPos 1].
Proof.
  rewrite (vector_refines_sequence HARDENING_FAST 4 (fun _ => 0) _ vec_capacity_ok_4); [reflexivity|done..].
Defined.

Lemma vector_harden_floor_witness :
  VecRun.exec HARDENING_NONE 4 (fun _ => 0) (Assign 9 (Own 0)) (hold 4 [1; 2]) = Trap \/
  exists x vs', VecRun.exec HARDENING_NONE 4 (fun _ => 0) (Assign 9 (Own 0)) (hold 4 [1; 2]) = Ret x (hold 4 vs') /\
    Z.of_nat (length vs') <= 4.
Proof.
  refine (vector_harden_floor 4 (fun _ => 0) (Assign 9 (Own 0)) [1; 2] vec_capacity_ok_4 _ eq_refl _);
    [cbn; lia|done].
Defined.

Lemma vector_assign_swap_witness :
  FixedVector.swap (fun _ => 0) false (hold 4 [1; 2; 3], hold 4 [4]) = Ret tt (hold 4 [4], hold 4 [1; 2; 3]).
Proof.
  apply (vector_assign_swap HARDENING_FAST 4 (fun _ => 0) [1; 2; 3] [4] vec_capacity_ok_4); cbn; lia.
Defined.

Lemma emplace_throw_unchanged_witness :
  FixedVector.emplace HARDENING_FAST 4 (fun _ => 0) 1 throw (hold 4 [1; 2]) = Throw (hold 4 [1; 2]).
Proof.
  apply (emplace_throw_unchanged HARDENING_FAST 4 (fun _ => 0) 1 [1; 2] vec_capacity_ok_4); cbn; lia.
Defined.

Lemma emplace_reentrant_overflow_witness :
  FixedVector.emplace HARDENING_DEBUG 4 (fun _ => 0) 0
    (FixedVector.emplace_back HARDENING_DEBUG 4 (ret 8) ;;; ret 9) (hold 4 [1; 2; 3]) = Fault.
Proof.
  apply (emplace_reentrant_overflow HARDENING_DEBUG 4 (fun _ => 0) 0 [1; 2; 3] 9 8 vec_capacity_ok_4); cbn; lia.
Defined.
End vector_witnesses.
