(* ===== verification/PriorityQueue.v ===== *)
(** * [fixed_priority_queue]

    [include/metl/fixed_priority_queue.hpp]: a binary heap in the storage of a
    [fixed_vector].  An element's move, a call of the comparator and a call of
    the predicate of [erase_if] may each throw.  [qthrows_] is the environment's
    script: for each of these still to come, whether it throws; after its end none
    do.  A move that returns leaves [moved x] in its source; one that throws leaves
    [torn x] in every object it touches.  The element constructor of [emplace] is a
    computation on the storage, as in [fixed_vector].

    The sifts take [log2 Capacity] turns of fuel, the number of levels that the
    header's progress guarantee names. *)

From Stdlib Require Import ZArith Lia.
From stdpp Require Import base numbers list option tactics.
From S2P Require Import Prelude FixedVector.
Local Open Scope Z_scope.

Record pqueue (Cmp T : Type) : Type := mk_pqueue {
  qstorage_ : vec T;
  qcomp_ : Cmp;
  qthrows_ : list bool
}.
Arguments mk_pqueue {Cmp T} _ _ _.
Arguments qstorage_ {Cmp T} _.
Arguments qcomp_ {Cmp T} _.
Arguments qthrows_ {Cmp T} _.

Section pqueue_setters.
  Context {Cmp T : Type}.
Definition set_qstorage (v : vec T) (q : pqueue Cmp T) : pqueue Cmp T := mk_pqueue v (qcomp_ q) (qthrows_ q).
Definition set_qcomp (c : Cmp) (q : pqueue Cmp T) : pqueue Cmp T := mk_pqueue (qstorage_ q) c (qthrows_ q).
Definition set_qthrows (t : list bool) (q : pqueue Cmp T) : pqueue Cmp T := mk_pqueue (qstorage_ q) (qcomp_ q) t.

(** A call on [storage_]. *)
Definition on_storage {A} (m : M (vec T) A) : M (pqueue Cmp T) A := fun q =>
  match m (qstorage_ q) with
  | Ret a v => Ret a (set_qstorage v q)
  | Throw v => Throw (set_qstorage v q)
  | Trap => Trap
  | Fault => Fault
  | Spin => Spin
  end.

(** Whether the next step that may throw does. *)
Definition next_throws : M (pqueue Cmp T) bool :=
  let! t := get qthrows_ in
  modify (set_qthrows (tail t)) ;;;
  ret (match t with b :: _ => b | [] => false end).
End pqueue_setters.

Module PriorityQueue.
Section priority_queue.
  Context `{SizeT} {Cmp T : Type} `{!Comparator Cmp T T}.
  Context (h : hardening) (Capacity : Z) (moved torn : T -> T).
  Abbreviation pq := (pqueue Cmp T).

Definition priority_queue (comp : Cmp) (throws : list bool) : pq :=
  mk_pqueue (FixedVector.fixed_vector Capacity) comp throws.

Definition empty (q : pq) : bool := FixedVector.empty (qstorage_ q).
Definition full (q : pq) : bool := FixedVector.full Capacity (qstorage_ q).
Definition size (q : pq) : Z := FixedVector.size (qstorage_ q).

Definition top : M pq Z := on_storage (FixedVector.front h).

(** *** Steps that may throw *)

(** [comp_(storage_[a], storage_[b])]. *)
Definition compare (a b : Z) : M pq bool :=
  let! i := on_storage (FixedVector.at_ h a) in
  let! x := on_storage (slot_ref i) in
  let! j := on_storage (FixedVector.at_ h b) in
  let! y := on_storage (slot_ref j) in
  let! t := next_throws in
  if t then throw else let! c := get qcomp_ in ret (less c x y).

(** [T temporary = std::move(storage_[a])]. *)
Definition move_out (a : Z) : M pq T :=
  let! i := on_storage (FixedVector.at_ h a) in
  let! x := on_storage (slot_ref i) in
  let! t := next_throws in
  if t then on_storage (slot_assign i (torn x)) ;;; throw
  else on_storage (slot_assign i (moved x)) ;;; ret x.

(** [storage_[a] = std::move(temporary)]. *)
Definition move_in (a : Z) (temporary : T) : M pq unit :=
  let! i := on_storage (FixedVector.at_ h a) in
  let! y := on_storage (slot_ref i) in
  let! t := next_throws in
  if t then on_storage (slot_assign i (torn y)) ;;; throw
  else on_storage (slot_assign i temporary).

(** [storage_[a] = std::move(storage_[b])]. *)
Definition move_assign_slot (a b : Z) : M pq unit :=
  let! j := on_storage (FixedVector.at_ h b) in
  let! i := on_storage (FixedVector.at_ h a) in
  let! x := on_storage (slot_ref j) in
  let! y := on_storage (slot_ref i) in
  let! t := next_throws in
  if t then on_storage (slot_assign j (torn x)) ;;; on_storage (slot_assign i (torn y)) ;;; throw
  else on_storage (slot_assign j (moved x)) ;;; on_storage (slot_assign i x).

Definition swap_slots (a b : Z) : M pq unit :=
  let! temporary := move_out a in
  move_assign_slot a b ;;;
  move_in b temporary.

(** *** The heap *)

Definition levels : nat := Z.to_nat (Z.log2 Capacity).

Fixpoint sift_up_loop (fuel : nat) (index : Z) : M pq unit :=
  if 0 <? index then
    match fuel with
    | O => fun _ => Spin
    | S fuel' =>
        let parent := wrap (index - 1) / 2 in
        let! below := compare parent index in
        if negb below then ret tt
        else swap_slots parent index ;;; sift_up_loop fuel' parent
    end
  else ret tt.
Definition sift_up (index : Z) : M pq unit := sift_up_loop levels index.

Fixpoint sift_down_loop (fuel : nat) (count index : Z) : M pq unit :=
  let left := wrap (2 * index + 1) in
  if count <=? left then ret tt
  else
    match fuel with
    | O => fun _ => Spin
    | S fuel' =>
        let right := wrap (left + 1) in
        let! best :=
          (if right <? count then
             let! below := compare left right in ret (if below then right else left)
           else ret left) in
        let! below := compare index best in
        if negb below then ret tt
        else swap_slots index best ;;; sift_down_loop fuel' count best
    end.
Definition sift_down (index : Z) : M pq unit :=
  let! count := get size in sift_down_loop levels count index.

Definition heapify : M pq unit :=
  let! n := get size in
  for_down (Z.to_nat (n / 2)) (n / 2 - 1) sift_down.

(** *** Operations *)

Definition clear : M pq unit := on_storage FixedVector.clear.

(** [try { step(); } catch (...) { clear(); throw; }]. *)
Definition keep_heap_or_clear (step : M pq unit) : M pq unit := guarded step clear.

Definition try_emplace (ctor : M (vec T) T) : M pq bool :=
  let! inserted := on_storage (FixedVector.try_emplace_back Capacity ctor) in
  if negb inserted then ret false
  else
    keep_heap_or_clear (let! n := get size in sift_up (wrap (n - 1))) ;;;
    ret true.

Definition emplace (ctor : M (vec T) T) : M pq unit :=
  on_storage (FixedVector.emplace_back h Capacity ctor) ;;;
  keep_heap_or_clear (let! n := get size in sift_up (wrap (n - 1))).

Definition try_push (value : M (vec T) T) : M pq bool := try_emplace value.
Definition push (value : M (vec T) T) : M pq unit := emplace value.

Definition pop : M pq unit :=
  let! e := get empty in
  metl_harden (negb e) ;;;
  keep_heap_or_clear
    (let! n := get size in
     let last := wrap (n - 1) in
     (if negb (last =? 0) then move_assign_slot 0 last else ret tt) ;;;
     on_storage FixedVector.pop_back ;;;
     let! e := get empty in
     if negb e then sift_down 0 else ret tt).

(** The loop of [erase_if] over the elements; the result is the final [write]. *)
Fixpoint compact (pred : T -> bool) (n : nat) (write read : Z) : M pq Z :=
  match n with
  | O => ret write
  | S n' =>
      let! i := on_storage (FixedVector.at_ h read) in
      let! x := on_storage (slot_ref i) in
      let! t := next_throws in
      if t then throw
      else if negb (pred x) then
        (if negb (write =? read) then move_assign_slot write read else ret tt) ;;;
        compact pred n' (write + 1) (read + 1)
      else compact pred n' write (read + 1)
  end.

(** [keep_heap_or_clear] with the local [write] as its result. *)
Definition erase_if (pred : T -> bool) : M pq Z :=
  let! before := get size in
  let! write := guarded
    (let! write := compact pred (Z.to_nat before) 0 0 in
     on_storage (fun v => while_loop (Z.to_nat (vsize_ v - write)) (fun v => write <? FixedVector.size v)
       FixedVector.pop_back v) ;;;
     heapify ;;;
     ret write) clear in
  ret (wrap (before - write)).

(** *** Two queues

    The script that decides is that of [*this], the first. *)

(** A step on the two [storage_] members. *)
Definition on_storages {A} (m : M (vec T * vec T) A) : M (pq * pq) A := fun p =>
  match m (qstorage_ p.1, qstorage_ p.2) with
  | Ret a v => Ret a (set_qstorage v.1 p.1, set_qstorage v.2 p.2)
  | Throw v => Throw (set_qstorage v.1 p.1, set_qstorage v.2 p.2)
  | Trap => Trap
  | Fault => Fault
  | Spin => Spin
  end.

(** [swap(comp_, other.comp_)]; one that throws leaves [torn_comp]. *)
Definition swap_comparators (torn_comp : Cmp -> Cmp) : M (pq * pq) unit :=
  let! c1 := on_fst (get qcomp_) in
  let! c2 := on_snd (get qcomp_) in
  let! t := on_fst next_throws in
  if t then
    on_fst (modify (set_qcomp (torn_comp c1))) ;;; on_snd (modify (set_qcomp (torn_comp c2))) ;;; throw
  else on_fst (modify (set_qcomp c2)) ;;; on_snd (modify (set_qcomp c1)).

(** [swap(data()[i], other.data()[i])], which may throw. *)
Definition swap_elements (i : Z) : M (pq * pq) unit :=
  let! x := on_storages (on_fst (slot_ref i)) in
  let! y := on_storages (on_snd (slot_ref i)) in
  let! t := on_fst next_throws in
  if t then
    on_storages (on_fst (slot_assign i (torn x)) ;;; on_snd (slot_assign i (torn y))) ;;; throw
  else on_storages (FixedVector.swap_elements moved i).

(** The tail of [storage_.swap]: the queue with the shorter storage is first in
    the state, and [throws] asks the script. *)
Definition move_tail (throws : M (pq * pq) bool) : M (pq * pq) unit :=
  let! old_shorter := on_storages (on_fst (get vsize_)) in
  let! n := on_storages (on_snd (get vsize_)) in
  for_up (Z.to_nat (n - old_shorter)) old_shorter (fun i =>
    let! x := on_storages (on_snd (slot_ref i)) in
    let! t := throws in
    if t then on_storages (on_snd (slot_assign i (torn x))) ;;; throw
    else on_storages
      (let! x := on_snd (slot_move_out moved i) in
       on_fst (slot_construct i x) ;;;
       on_fst (modify (fun v => set_vsize (wrap (vsize_ v + 1)) v)))) ;;;
  on_storages
    (for_down (Z.to_nat (n - old_shorter)) n (fun i => on_snd (slot_destroy (i - 1))) ;;;
     on_snd (modify (set_vsize old_shorter))).

Definition swap_storage : M (pq * pq) unit :=
  let! n1 := on_storages (on_fst (get vsize_)) in
  let! n2 := on_storages (on_snd (get vsize_)) in
  let common := if n1 <? n2 then n1 else n2 in
  for_up (Z.to_nat common) 0 swap_elements ;;;
  if n1 =? n2 then ret tt
  else if n1 <? n2 then move_tail (on_fst next_throws)
  else swapped (move_tail (on_snd next_throws)).

Definition swap_contents (torn_comp : Cmp -> Cmp) : M (pq * pq) unit :=
  swap_comparators torn_comp ;;; swap_storage.

Definition swap (torn_comp : Cmp -> Cmp) (swap_cannot_throw self : bool) : M (pq * pq) unit :=
  if self then ret tt
  else if swap_cannot_throw then swap_contents torn_comp
  else guarded (swap_contents torn_comp) (on_fst clear ;;; on_snd clear).

(** The implicit assignment operators: member by member, [storage_] first. *)
Definition append_copies : M (pq * pq) unit :=
  let! n := on_storages (on_snd (get vsize_)) in
  for_up (Z.to_nat n) 0 (fun i =>
    let! t := on_fst next_throws in
    on_storages
      (let! x := on_snd (slot_ref i) in
       on_fst (FixedVector.emplace_back h Capacity (if t then throw else ret x)) ;;; ret tt)).

Definition append_moves : M (pq * pq) unit :=
  let! n := on_storages (on_snd (get vsize_)) in
  for_up (Z.to_nat n) 0 (fun i =>
    let! t := on_fst next_throws in
    on_storages
      (let! x := on_snd (slot_move_out (if t then torn else moved) i) in
       on_fst (FixedVector.emplace_back h Capacity (if t then throw else ret x)) ;;; ret tt)) ;;;
  on_storages (on_snd FixedVector.clear).

Definition copy_assign (self : bool) : M (pq * pq) unit :=
  if self then ret tt
  else
    on_storages (on_fst FixedVector.clear) ;;;
    append_copies ;;;
    let! c := on_snd (get qcomp_) in
    on_fst (modify (set_qcomp c)).

(** [moved_comp] is what the move leaves in the other queue's comparator. *)
Definition move_assign (moved_comp : Cmp -> Cmp) (self : bool) : M (pq * pq) unit :=
  if self then ret tt
  else
    on_storages (on_fst FixedVector.clear) ;;;
    append_moves ;;;
    let! c := on_snd (get qcomp_) in
    on_snd (modify (set_qcomp (moved_comp c))) ;;;
    on_fst (modify (set_qcomp c)).
End priority_queue.
End PriorityQueue.
