(* ===== verification/PriorityQueueFacts.v ===== *)
(** * Facts on the binary heap

    Heaps as lists: what a sift preserves and repairs; then that each step of
    [fixed_priority_queue] is one on the list that its storage holds, or throws. *)

From Stdlib Require Import ZArith Lia.
From stdpp Require Import base numbers list option tactics.
From S2P Require Import Prelude FixedVector FixedVectorFacts PriorityQueue.
Local Open Scope Z_scope.

(** ** Heaps as lists *)

Definition parent (j : nat) : nat := ((j - 1) / 2)%nat.

Lemma parent_lt j : (0 < j)%nat -> (parent j < j)%nat.
Proof. intros. unfold parent. pose proof (Nat.div_mod_eq (j - 1) 2). lia. Qed.

Lemma parent_children i j : (0 < j)%nat -> parent j = i <-> j = (2 * i + 1)%nat \/ j = (2 * i + 2)%nat.
Proof.
  intros. unfold parent. pose proof (Nat.div_mod_eq (j - 1) 2). pose proof (Nat.mod_upper_bound (j - 1) 2).
  lia.
Qed.

(** The index that an exchange of [i] and [j] takes the element at [k] from. *)
Definition transpose (i j k : nat) : nat := if decide (k = i) then j else if decide (k = j) then i else k.

Definition exchange {T} (i j : nat) (vs : list T) : list T :=
  match vs !! i, vs !! j with
  | Some x, Some y => <[j := x]> (<[i := y]> vs)
  | _, _ => vs
  end.

Section exchange.
  Context {T : Type}.
  Implicit Types (vs : list T) (i j k : nat).

Lemma length_exchange i j vs : length (exchange i j vs) = length vs.
Proof. unfold exchange. by destruct (vs !! i), (vs !! j); rewrite ?length_insert. Qed.

Lemma lookup_exchange i j k vs :
  (i < length vs)%nat -> (j < length vs)%nat -> exchange i j vs !! k = vs !! transpose i j k.
Proof.
  intros Hi Hj. unfold exchange, transpose.
  destruct (lookup_lt_is_Some_2 vs i Hi) as [x Ex], (lookup_lt_is_Some_2 vs j Hj) as [y Ey]. rewrite Ex, Ey.
  destruct (decide (k = j)) as [->|].
  { rewrite list_lookup_insert_eq by (by rewrite length_insert). case_decide; congruence. }
  rewrite list_lookup_insert_ne by done. case_decide; subst.
  - by rewrite list_lookup_insert_eq.
  - by rewrite list_lookup_insert_ne.
Qed.

Lemma exchange_eq i j x y vs :
  vs !! i = Some x -> vs !! j = Some y -> <[j := x]> (<[i := y]> vs) = exchange i j vs.
Proof. intros Ex Ey. unfold exchange. by rewrite Ex, Ey. Qed.

Lemma exchange_perm i j vs : i <> j -> exchange i j vs ≡ₚ vs.
Proof.
  intros Hne. unfold exchange. destruct (vs !! i) as [x|] eqn:Ex; [|done]. destruct (vs !! j) as [y|] eqn:Ey; [|done].
  assert (forall k a b (us : list T), us !! k = Some a -> b :: us ≡ₚ a :: <[k := b]> us) as Hins.
  { intros k a b us Ea. rewrite (insert_take_drop us) by (by eapply lookup_lt_Some).
    rewrite <- (take_drop_middle us k a Ea) at 1. rewrite <- !Permutation_middle. constructor. }
  apply (Permutation_cons_inv (a := y)). pose proof (lookup_lt_Some _ _ _ Ex).
  rewrite (Hins i x y vs Ex), (Hins j y x) by (by rewrite list_lookup_insert_ne). done.
Qed.
End exchange.

Section heaps.
  Context {Cmp T : Type} `{!Comparator Cmp T T, !StrictWeakOrder Cmp T} (c : Cmp).
  Implicit Types (vs us : list T) (x y z : T) (i j k : nat).

(** [x] need not come out after [y]. *)
Definition outranks x y : Prop := less c x y = false.

Lemma outranks_refl x : outranks x x.
Proof. apply order_irrefl. Qed.

Lemma outranks_trans x y z : outranks x y -> outranks y z -> outranks x z.
Proof.
  unfold outranks. intros Hxy Hyz. destruct (less c x z) eqn:E; [|done].
  destruct (order_cotrans c x y z E); congruence.
Qed.

Lemma less_outranks x y : less c x y = true -> outranks y x.
Proof.
  intros E. unfold outranks. destruct (less c y x) eqn:E'; [|done].
  pose proof (order_irrefl c x). pose proof (order_trans c x y x E E'). congruence.
Qed.

(** The element at [j] does not outrank its parent. *)
Definition ordered_at vs j : Prop :=
  forall x y, (0 < j)%nat -> vs !! parent j = Some x -> vs !! j = Some y -> outranks x y.

Definition heap vs : Prop := forall j, ordered_at vs j.

(** A heap below index [k]. *)
Definition heap_from k vs : Prop := forall j, (k <= parent j)%nat -> ordered_at vs j.

(** The children of [i] do not outrank the parent of [i]. *)
Definition grandchildren vs i : Prop :=
  forall j x y, (0 < j)%nat -> (0 < i)%nat -> parent j = i ->
    vs !! parent i = Some x -> vs !! j = Some y -> outranks x y.

(** A heap but for the element at [i], which may outrank its parent, or which
    its children may outrank. *)
Definition up_ok vs i : Prop := (forall j, j <> i -> ordered_at vs j) /\ grandchildren vs i.
Definition down_ok k vs i : Prop :=
  (forall j, (k <= parent j)%nat -> parent j <> i -> ordered_at vs j) /\ ((k <= parent i)%nat -> grandchildren vs i).

Lemma heap_from_0 vs : heap_from 0 vs <-> heap vs.
Proof. split; intros Hh j; [apply Hh; lia|intros _; apply Hh]. Qed.

Lemma heap_root vs x : heap vs -> vs !! 0%nat = Some x -> forall y, y ∈ vs -> outranks x y.
Proof.
  intros Hh Ex y [j Hj]%list_elem_of_lookup. revert y Hj. induction j as [j IH] using lt_wf_ind. intros y Hj.
  destruct (decide (j = 0%nat)) as [->|]. { simplify_eq. apply outranks_refl. }
  pose proof (parent_lt j ltac:(lia)).
  destruct (lookup_lt_is_Some_2 vs (parent j)) as [z Ez]; [apply lookup_lt_Some in Hj; lia|].
  apply (outranks_trans _ z); [by eapply IH|]. by apply (Hh j); [lia|..].
Qed.

Lemma heap_prefix vs us : heap (vs ++ us) -> heap vs.
Proof.
  intros Hh j x y Hj Hx Hy. apply (Hh j); [done|..];
    (rewrite lookup_app_l; [done|by eapply lookup_lt_Some]).
Qed.

Lemma heap_snoc vs x : heap vs -> up_ok (vs ++ [x]) (length vs).
Proof.
  intros Hh. split.
  - intros j Hj a b Hpos Ha Hb. apply lookup_app_Some in Hb as [Hb|[? Hb]].
    + apply (Hh j); [done| |done]. rewrite lookup_app_l in Ha; [done|].
      pose proof (parent_lt j Hpos). apply lookup_lt_Some in Hb. lia.
    + apply lookup_lt_Some in Hb. cbn in Hb. lia.
  - intros j a b Hpos _ Hp _ Hb. apply lookup_lt_Some in Hb. rewrite length_app in Hb. cbn in Hb.
    pose proof (parent_lt j Hpos). lia.
Qed.

Lemma up_ok_done vs i : up_ok vs i -> ordered_at vs i -> heap vs.
Proof. intros [Ho _] Hi j. destruct (decide (j = i)) as [->|]; auto. Qed.

Lemma up_ok_step vs i x y :
  (0 < i)%nat -> up_ok vs i -> vs !! parent i = Some x -> vs !! i = Some y -> less c x y = true ->
  up_ok (exchange (parent i) i vs) (parent i).
Proof.
  intros Hi [Ho Hg] Ex Ey Hl. pose proof (parent_lt i Hi). pose proof (less_outranks _ _ Hl) as Hyx.
  pose proof (lookup_lt_Some _ _ _ Ex). pose proof (lookup_lt_Some _ _ _ Ey).
  split.
  - intros j Hj a b Hpos. rewrite !lookup_exchange by done. unfold transpose. pose proof (parent_lt j Hpos).
    destruct (decide (j = parent i)) as [|_]; [done|].
    destruct (decide (j = i)) as [->|].
    { rewrite decide_True by done. intros; by simplify_eq. }
    destruct (decide (parent j = parent i)) as [E|].
    { intros Ha Hb. simplify_eq. apply (outranks_trans _ x); [done|]. apply (Ho j); [done|done|congruence|done]. }
    destruct (decide (parent j = i)) as [E|].
    + intros Ha Hb. simplify_eq. by apply (Hg j).
    + intros Ha Hb. by apply (Ho j).
  - intros j a b Hpos Hp Hpj. rewrite !lookup_exchange by done. unfold transpose.
    pose proof (parent_lt (parent i) Hp). pose proof (parent_lt j Hpos).
    rewrite (decide_False (P := parent (parent i) = parent i)), (decide_False (P := parent (parent i) = i)) by lia.
    rewrite (decide_False (P := j = parent i)) by lia. intros Ha Hb.
    assert (outranks a x) as Hax by (by apply (Ho (parent i)); [lia|..]).
    destruct (decide (j = i)) as [->|]; [by simplify_eq|].
    apply (outranks_trans _ x); [done|]. apply (Ho j); [done|done|congruence|done].
Qed.

Lemma down_ok_done k vs i :
  down_ok k vs i -> (forall j, (0 < j)%nat -> parent j = i -> ordered_at vs j) -> heap_from k vs.
Proof.
  intros [Ho _] Hi j Hk x y Hpos. destruct (decide (parent j = i)) as [E|]; [by apply Hi|by apply Ho].
Qed.

Lemma down_ok_step k vs i b x y :
  (k <= i)%nat -> (0 < b)%nat -> parent b = i -> down_ok k vs i ->
  vs !! i = Some x -> vs !! b = Some y -> less c x y = true ->
  (forall j z, (0 < j)%nat -> parent j = i -> vs !! j = Some z -> outranks y z) ->
  down_ok k (exchange i b vs) b.
Proof.
  intros Hki Hb Hp [Ho Hg] Ex Ey Hl Hbest. pose proof (parent_lt b Hb). pose proof (less_outranks _ _ Hl) as Hyx.
  pose proof (lookup_lt_Some _ _ _ Ex). pose proof (lookup_lt_Some _ _ _ Ey).
  split.
  - intros j Hkj Hj a d Hpos. rewrite !lookup_exchange by done. unfold transpose. pose proof (parent_lt j Hpos).
    destruct (decide (parent j = i)) as [E|]; [|rewrite (decide_False (P := parent j = b)) by done].
    + rewrite (decide_False (P := j = i)) by lia. destruct (decide (j = b)) as [->|].
      * intros; by simplify_eq.
      * intros Ha Hd. simplify_eq. by apply (Hbest j).
    + destruct (decide (j = i)) as [->|].
      * intros Ha Hd. simplify_eq. apply (Hg Hkj b); [done|lia|done..].
      * destruct (decide (j = b)) as [->|]; [congruence|]. intros Ha Hd. by apply (Ho j).
  - intros _ j a d Hpos _ Hpj. rewrite !lookup_exchange by done. unfold transpose. pose proof (parent_lt j Hpos).
    rewrite (decide_True (P := parent b = i)) by done.
    rewrite (decide_False (P := j = i)), (decide_False (P := j = b)) by lia. intros Ha Hd. simplify_eq.
    apply (Ho j); [lia|lia|done|done|done].
Qed.

Lemma heap_from_half vs : heap_from (length vs / 2) vs.
Proof.
  intros j Hj x y Hpos _ Hy%lookup_lt_Some. pose proof (proj1 (parent_children _ j Hpos) eq_refl).
  pose proof (Nat.div_mod_eq (length vs) 2). pose proof (Nat.mod_upper_bound (length vs) 2). lia.
Qed.

Lemma heap_from_down_ok k vs : heap_from (S k) vs -> down_ok k vs k.
Proof.
  intros Hh. split.
  - intros j Hk Hne. apply Hh. lia.
  - intros Hk j x y Hpos Hk0. pose proof (parent_lt k Hk0). lia.
Qed.

Lemma heap_replace_root x y vs : heap (x :: vs) -> down_ok 0 (y :: vs) 0.
Proof.
  intros Hh. split.
  - intros j _ Hp a b Hpos. specialize (Hh j a b Hpos). destruct j; [lia|]. by destruct (parent (S j)).
  - intros _ j a b Hpos Hlt. lia.
Qed.
End heaps.

(** ** Loops whose states are known *)

Lemma for_up_run {S} (f : nat -> S) (body : Z -> M S unit) (n : nat) :
  (forall i, (i < n)%nat -> body (Z.of_nat i) (f i) = Ret tt (f (Datatypes.S i))) -> for_up n 0 body (f 0%nat) = Ret tt (f n).
Proof.
  intros Hb. destruct (for_up_inv (fun i s => 0 <= i /\ s = f (Z.to_nat i)) body n 0 (f 0%nat)) as (s & E & _ & Es); [done| |].
  - intros i s Hi [Hi0 ->]. exists (f (Datatypes.S (Z.to_nat i))). rewrite <- (Z2Nat.id i) at 1 by done.
    split; [apply Hb; lia|]. split; [lia|]. f_equal. lia.
  - rewrite E, Es. do 2 f_equal. lia.
Qed.

Lemma for_up_app {S} (body : Z -> M S unit) n m from s :
  for_up (n + m) from body s = (for_up n from body ;;; for_up m (from + Z.of_nat n) body) s.
Proof.
  revert from s. induction n as [|n IH]; intros from s; cbn [for_up Nat.add]; [by rewrite Z.add_0_r|].
  unfold bind at 1 2 3. destruct (body from s); [|done..]. rewrite IH. unfold bind.
  by replace (from + 1 + Z.of_nat n) with (from + Z.of_nat (Datatypes.S n)) by lia.
Qed.

Lemma for_up_throw {S} (f : nat -> S) (body : Z -> M S unit) (n k : nat) s :
  (k < n)%nat -> (forall i, (i < k)%nat -> body (Z.of_nat i) (f i) = Ret tt (f (Datatypes.S i))) ->
  body (Z.of_nat k) (f k) = Throw s -> for_up n 0 body (f 0%nat) = Throw s.
Proof.
  intros Hk Hb Ht. replace n with (k + Datatypes.S (n - k - 1))%nat by lia. rewrite for_up_app.
  rewrite (bind_Ret _ _ _ _ _ (for_up_run f body k Hb)). cbn [for_up]. by apply bind_Throw.
Qed.

(** ** The queue over the list that it holds *)

Section queue_facts.
  Context `{SizeT} {Cmp T : Type} `{!Comparator Cmp T T, !StrictWeakOrder Cmp T}.
  Context (h : hardening) (C : Z) (moved torn : T -> T) `{!CapacityOk C}.
  Implicit Types (vs us : list T) (x y z : T) (i j k : nat) (c : Cmp) (t : list bool).

Definition pq_of c t vs : pqueue Cmp T := mk_pqueue (hold C vs) c t.

(** The queue holds [vs]; and it holds at most [n] objects after a throw. *)
Definition holding c t vs (q : pqueue Cmp T) : Prop := exists t', later t t' /\ q = pq_of c t' vs.
Definition broken c t (n : nat) (q : pqueue Cmp T) : Prop :=
  true ∈ t /\ exists us t', (length us <= n)%nat /\ q = pq_of c t' us.

Lemma broken_later c t t' n q : later t t' -> broken c t' n q -> broken c t n q.
Proof. intros Hl [Ht Hq]. split; auto. Qed.

Lemma broken_weaken c t t' n n' q : later t t' -> (n' <= n)%nat -> broken c t' n' q -> broken c t n q.
Proof.
  intros Hl Hn (Ht & us & t'' & Hus & ->). split; [auto|]. exists us, t''. split; [lia|done].
Qed.

Lemma holding_later c t t' vs q : later t t' -> holding c t' vs q -> holding c t vs q.
Proof. intros Hl (t'' & Hl' & ->). exists t''. split; [by eapply later_trans|done]. Qed.

Lemma on_storage_Ret {A} (m : M (vec T) A) c t vs us a :
  m (hold C vs) = Ret a (hold C us) -> on_storage m (pq_of c t vs) = Ret a (pq_of c t us).
Proof. intros E. unfold on_storage. cbn. by rewrite E. Qed.

Lemma at_Ret c t vs i x :
  vs !! i = Some x -> on_storage (FixedVector.at_ h (Z.of_nat i)) (pq_of c t vs) = Ret (Z.of_nat i) (pq_of c t vs).
Proof. intros E. apply on_storage_Ret. by eapply hold_at. Qed.

Lemma ref_Ret c t vs i x :
  vs !! i = Some x -> on_storage (slot_ref (Z.of_nat i)) (pq_of c t vs) = Ret x (pq_of c t vs).
Proof. intros E. apply on_storage_Ret. by apply hold_ref. Qed.

Lemma assign_Ret c t vs i y :
  (i < length vs)%nat ->
  on_storage (slot_assign (Z.of_nat i) y) (pq_of c t vs) = Ret tt (pq_of c t (<[i := y]> vs)).
Proof. intros. apply on_storage_Ret. by apply hold_assign. Qed.

(** The rule for the script. *)
Lemma wp_throws {A} (k : bool -> M (pqueue Cmp T) A) (Q : A -> pqueue Cmp T -> Prop) E c t vs :
  (forall t', later t t' -> wp (k false) Q E (pq_of c t' vs)) ->
  (forall t', true ∈ t -> wp (k true) Q E (pq_of c t' vs)) ->
  wp (bind next_throws k) Q E (pq_of c t vs).
Proof.
  intros Hf Ht. unfold next_throws. apply wp_bind. destruct t as [|b t].
  - apply (wp_Ret _ _ _ _ false (pq_of c [] vs)); [done|]. apply Hf. by intros ?.
  - apply (wp_Ret _ _ _ _ b (pq_of c t vs)); [done|]. destruct b.
    + apply Ht. by left.
    + apply Hf. intros ?. by right.
Qed.

(** A step with exact outcome in a [wp]. *)
Ltac wstep L := eapply wp_bind_Ret; [exact L|].

Lemma wp_compare c t vs i j x y :
  vs !! i = Some x -> vs !! j = Some y ->
  wp (PriorityQueue.compare h (Z.of_nat i) (Z.of_nat j))
    (fun b q => b = less c x y /\ holding c t vs q) (broken c t (length vs)) (pq_of c t vs).
Proof.
  intros Ex Ey. unfold PriorityQueue.compare.
  wstep (at_Ret c t vs i x Ex). wstep (ref_Ret c t vs i x Ex).
  wstep (at_Ret c t vs j y Ey). wstep (ref_Ret c t vs j y Ey).
  apply wp_throws; intros t' Ht.
  - apply (wp_Ret _ _ _ _ (less c x y) (pq_of c t' vs)); [done|]. split; [done|]. by exists t'.
  - split; [done|]. by exists vs, t'.
Qed.

Lemma broken_insert c t t' vs i z :
  true ∈ t -> broken c t (length vs) (pq_of c t' (<[i := z]> vs)).
Proof. intros. split; [done|]. exists (<[i := z]> vs), t'. by rewrite length_insert. Qed.

Lemma wp_take_out c t vs i x :
  vs !! i = Some x ->
  wp (PriorityQueue.move_out h moved torn (Z.of_nat i))
    (fun a q => a = x /\ holding c t (<[i := moved x]> vs) q) (broken c t (length vs)) (pq_of c t vs).
Proof.
  intros Ex. pose proof (lookup_lt_Some _ _ _ Ex) as Hi. unfold PriorityQueue.move_out.
  wstep (at_Ret c t vs i x Ex). wstep (ref_Ret c t vs i x Ex). apply wp_throws; intros t' Ht.
  - wstep (assign_Ret c t' vs i (moved x) Hi). split; [done|]. by exists t'.
  - wstep (assign_Ret c t' vs i (torn x) Hi). by apply broken_insert.
Qed.

Lemma wp_move_in c t vs i x y :
  vs !! i = Some y ->
  wp (PriorityQueue.move_in h torn (Z.of_nat i) x)
    (fun _ q => holding c t (<[i := x]> vs) q) (broken c t (length vs)) (pq_of c t vs).
Proof.
  intros Ey. pose proof (lookup_lt_Some _ _ _ Ey) as Hi. unfold PriorityQueue.move_in.
  wstep (at_Ret c t vs i y Ey). wstep (ref_Ret c t vs i y Ey). apply wp_throws; intros t' Ht.
  - apply (wp_Ret _ _ _ _ _ _ (assign_Ret c t' vs i x Hi)). by exists t'.
  - wstep (assign_Ret c t' vs i (torn y) Hi). by apply broken_insert.
Qed.

Lemma wp_move_assign_slot c t vs i j x :
  (i < length vs)%nat -> vs !! j = Some x ->
  wp (PriorityQueue.move_assign_slot h moved torn (Z.of_nat i) (Z.of_nat j))
    (fun _ q => holding c t (<[i := x]> (<[j := moved x]> vs)) q) (broken c t (length vs)) (pq_of c t vs).
Proof.
  intros Hi Ex. pose proof (lookup_lt_Some _ _ _ Ex) as Hj. destruct (lookup_lt_is_Some_2 vs i Hi) as [y Ey].
  unfold PriorityQueue.move_assign_slot.
  wstep (at_Ret c t vs j x Ex). wstep (at_Ret c t vs i y Ey). wstep (ref_Ret c t vs j x Ex).
  wstep (ref_Ret c t vs i y Ey). apply wp_throws; intros t' Ht.
  - wstep (assign_Ret c t' vs j (moved x) Hj).
    eapply wp_Ret; [apply assign_Ret; by rewrite length_insert|]. by exists t'.
  - wstep (assign_Ret c t' vs j (torn x) Hj).
    eapply wp_bind_Ret; [apply assign_Ret; by rewrite length_insert|].
    split; [done|]. eexists _, t'. split; [|done]. by rewrite !length_insert.
Qed.

Lemma wp_swap_slots c t vs i j :
  i <> j -> (i < length vs)%nat -> (j < length vs)%nat ->
  wp (PriorityQueue.swap_slots h moved torn (Z.of_nat i) (Z.of_nat j))
    (fun _ q => holding c t (exchange i j vs) q) (broken c t (length vs)) (pq_of c t vs).
Proof.
  intros Hne Hi Hj. destruct (lookup_lt_is_Some_2 vs i Hi) as [x Ex], (lookup_lt_is_Some_2 vs j Hj) as [y Ey].
  unfold PriorityQueue.swap_slots. apply wp_bind. eapply wp_mono; [by apply wp_take_out| |done].
  intros a q [-> (t1 & Hl1 & ->)]. set (vs1 := <[i := moved x]> vs).
  assert (length vs1 = length vs) as Hn1 by apply length_insert.
  apply wp_bind. eapply wp_mono.
  { apply (wp_move_assign_slot c t1 vs1 i j y); [by rewrite Hn1|]. unfold vs1. by rewrite list_lookup_insert_ne. }
  2: { rewrite Hn1. intros q. by apply broken_later. }
  intros _ q (t2 & Hl2 & ->). set (vs2 := <[i := y]> (<[j := moved y]> vs1)).
  assert (length vs2 = length vs) as Hn2 by (unfold vs2; by rewrite !length_insert).
  pose proof (later_trans _ _ _ Hl1 Hl2) as Hl. destruct (lookup_lt_is_Some_2 vs2 j) as [w Ew]; [lia|].
  eapply wp_mono; [exact (wp_move_in c t2 vs2 j x w Ew)| |].
  - intros ? q Hq. apply (holding_later _ _ t2); [done|]. rewrite <- (exchange_eq i j x y) by done.
    replace (<[j := x]> (<[i := y]> vs)) with (<[j := x]> vs2); [done|]. unfold vs2, vs1.
    rewrite (list_insert_insert_ne _ i j) by done. by rewrite !list_insert_insert_eq.
  - rewrite Hn2. intros q. by apply broken_later.
Qed.

(** The outcome of reordering: the queue holds some [us] that satisfies [P] and
    has the elements of [vs], or a step threw. *)
Definition reorders {A} (m : M (pqueue Cmp T) A) (P : list T -> Prop) c t vs : Prop :=
  wp m (fun _ q => exists us, us ≡ₚ vs /\ P us /\ holding c t us q) (broken c t (length vs)) (pq_of c t vs).

Lemma reorders_ret (P : list T -> Prop) c t vs : P vs -> reorders (ret tt) P c t vs.
Proof. intros HP. exists vs. split_and!; [done|done|]. exists t. split; [apply later_refl|done]. Qed.

(** One level of a sift: a comparison, then an exchange and the rest, if it says so. *)
Lemma reorders_compare {A} (k : bool -> M (pqueue Cmp T) A) P c t vs i j x y :
  vs !! i = Some x -> vs !! j = Some y ->
  (forall t', reorders (k (less c x y)) P c t' vs) ->
  reorders (let! b := PriorityQueue.compare h (Z.of_nat i) (Z.of_nat j) in k b) P c t vs.
Proof.
  intros Ex Ey Hk. apply wp_bind. eapply wp_mono; [by apply wp_compare| |done].
  intros b q [-> (t' & Hl & ->)]. eapply wp_mono; [apply Hk| |].
  - intros a q (us & Hp & HP & Hq). exists us. split_and!; [done|done|by eapply holding_later].
  - intros q. by apply broken_later.
Qed.

Lemma reorders_swap (m : M (pqueue Cmp T) unit) P c t vs i j :
  i <> j -> (i < length vs)%nat -> (j < length vs)%nat ->
  (forall t', reorders m P c t' (exchange i j vs)) ->
  reorders (PriorityQueue.swap_slots h moved torn (Z.of_nat i) (Z.of_nat j) ;;; m) P c t vs.
Proof.
  intros Hne Hi Hj Hm. apply wp_bind. eapply wp_mono; [by apply wp_swap_slots| |done].
  intros a q (t' & Hl & ->). eapply wp_mono; [apply Hm| |].
  - intros [] q (us & Hp & HP & Hq). exists us. split_and!; [|done|by eapply holding_later].
    by rewrite Hp, exchange_perm.
  - intros q. rewrite length_exchange. by apply broken_later.
Qed.

Lemma parent_div i : (0 < i)%nat -> (Z.of_nat i - 1) / 2 = Z.of_nat (parent i).
Proof. intros. unfold parent. rewrite Nat2Z.inj_div, Nat2Z.inj_sub by lia. done. Qed.

Lemma sift_up_loop_ok fuel c t vs i :
  Z.of_nat (length vs) <= C -> (i < length vs)%nat -> (i + 1 < 2 * 2 ^ fuel)%nat -> up_ok c vs i ->
  reorders (PriorityQueue.sift_up_loop h moved torn fuel (Z.of_nat i)) (heap c) c t vs.
Proof.
  pose proof (capacity_bounds C). revert t vs i. induction fuel as [|fuel IH]; intros t vs i HC Hi Hf Hup.
  { cbn in Hf. assert (i = 0%nat) as -> by lia. apply reorders_ret. eapply up_ok_done; [done|].
    intros x y Hlt. lia. }
  cbn [PriorityQueue.sift_up_loop]. destruct (decide (i = 0%nat)) as [->|].
  { apply reorders_ret. eapply up_ok_done; [done|]. intros x y Hlt. lia. }
  zbool. rewrite parent_div by lia. pose proof (parent_lt i ltac:(lia)).
  destruct (lookup_lt_is_Some_2 vs i Hi) as [y Ey], (lookup_lt_is_Some_2 vs (parent i)) as [x Ex]; [lia|].
  eapply reorders_compare; [done..|]. intros t'. destruct (less c x y) eqn:El; cbn [negb].
  - apply reorders_swap; [lia..|]. intros t''. apply IH; rewrite ?length_exchange; [done|lia| |].
    + rewrite Nat.pow_succ_r' in Hf. pose proof (proj1 (parent_children _ i ltac:(lia)) eq_refl). lia.
    + apply (up_ok_step c vs i x y); [lia|done..].
  - apply reorders_ret. eapply up_ok_done; [done|]. intros ?? _ ??. by simplify_eq.
Qed.

Lemma sift_down_loop_ok fuel c t vs k i :
  Z.of_nat (length vs) <= C -> (length vs < 2 * 2 ^ fuel * (i + 1))%nat -> (i < length vs)%nat ->
  (k <= i)%nat -> down_ok c k vs i ->
  reorders (PriorityQueue.sift_down_loop h moved torn fuel (Z.of_nat (length vs)) (Z.of_nat i))
    (heap_from c k) c t vs.
Proof.
  pose proof (capacity_bounds C). revert t vs i. induction fuel as [|fuel IH]; intros t vs i HC Hf Hi Hk Hd;
    cbn [PriorityQueue.sift_down_loop]; rewrite (wrap_small (2 * Z.of_nat i + 1)) by lia.
  { cbn in Hf. zbool. apply reorders_ret. eapply down_ok_done; [done|].
    intros j Hj [->| ->]%parent_children x y _ _ Hy%lookup_lt_Some; lia. }
  destruct (Z.leb_spec (Z.of_nat (length vs)) (2 * Z.of_nat i + 1)).
  { apply reorders_ret. eapply down_ok_done; [done|].
    intros j Hj [->| ->]%parent_children x y _ _ Hy%lookup_lt_Some; lia. }
  rewrite wrap_small by lia.
  destruct (lookup_lt_is_Some_2 vs i Hi) as [x Ex].
  assert (forall t' b z, (0 < b)%nat -> parent b = i -> vs !! b = Some z ->
    (forall j w, (0 < j)%nat -> parent j = i -> vs !! j = Some w -> outranks c z w) ->
    reorders (let! below := PriorityQueue.compare h (Z.of_nat i) (Z.of_nat b) in
      if negb below then ret tt
      else PriorityQueue.swap_slots h moved torn (Z.of_nat i) (Z.of_nat b) ;;;
        PriorityQueue.sift_down_loop h moved torn fuel (Z.of_nat (length vs)) (Z.of_nat b))
      (heap_from c k) c t' vs) as Hbest.
  { intros t' b z Hb Hp Ez Hz. pose proof (lookup_lt_Some _ _ _ Ez). pose proof (parent_lt b Hb).
    eapply reorders_compare; [done..|]. intros t2. destruct (less c x z) eqn:El; cbn [negb].
    - apply reorders_swap; [lia..|]. intros t3. rewrite <- (length_exchange i b vs).
      apply IH; rewrite ?length_exchange; [done| |lia|lia|by eapply down_ok_step].
      rewrite Nat.pow_succ_r' in Hf. apply parent_children in Hp; [nia|done].
    - apply reorders_ret. eapply down_ok_done; [done|]. intros j Hj Hpj a w _ Ea Ew. simplify_eq.
      rewrite Hpj in Ea. simplify_eq. apply (outranks_trans c _ z); [done|by eapply Hz]. }
  replace (2 * Z.of_nat i + 1) with (Z.of_nat (2 * i + 1)) by lia.
  replace (Z.of_nat (2 * i + 1) + 1) with (Z.of_nat (2 * i + 2)) by lia.
  destruct (lookup_lt_is_Some_2 vs (2 * i + 1)) as [l El]; [lia|].
  destruct (Z.ltb_spec (Z.of_nat (2 * i + 2)) (Z.of_nat (length vs))).
  - destruct (lookup_lt_is_Some_2 vs (2 * i + 2)) as [r Er]; [lia|].
    unfold reorders, wp. rewrite bind_assoc. fold (@wp (pqueue Cmp T) unit).
    eapply reorders_compare; [done..|]. intros t'. unfold reorders, wp. mstep. fold (@wp (pqueue Cmp T) unit).
    destruct (less c l r) eqn:Elr.
    + apply (Hbest t' _ r); [lia|apply parent_children; lia|done|].
      intros j w Hj [->| ->]%parent_children Ew; [|simplify_eq; by apply outranks_refl|done].
      simplify_eq. by apply less_outranks.
    + apply (Hbest t' _ l); [lia|apply parent_children; lia|done|].
      intros j w Hj [->| ->]%parent_children Ew; [simplify_eq; by apply outranks_refl|by simplify_eq|done].
  - unfold reorders, wp. mstep. fold (@wp (pqueue Cmp T) unit).
    apply (Hbest t _ l); [lia|apply parent_children; lia|done|].
    intros j w Hj [->| ->]%parent_children Ew; [simplify_eq; by apply outranks_refl| |done].
    apply lookup_lt_Some in Ew. lia.
Qed.

Lemma levels_enough n : Z.of_nat n <= C -> (n < 2 * 2 ^ PriorityQueue.levels C)%nat.
Proof.
  intros Hn. pose proof (capacity_bounds C). unfold PriorityQueue.levels.
  destruct (decide (C = 0)) as [->|]; [change (Z.to_nat (Z.log2 0)) with 0%nat; cbn [Nat.pow]; lia|].
  pose proof (Z.log2_spec C ltac:(lia)) as [_ Hlt]. pose proof (Z.log2_nonneg C).
  rewrite Z.pow_succ_r in Hlt by done. apply Nat2Z.inj_lt. rewrite Nat2Z.inj_mul, Nat2Z.inj_pow, Z2Nat.id by done.
  cbn [Z.of_nat]. lia.
Qed.

Lemma pq_size c t vs : PriorityQueue.size (pq_of c t vs) = Z.of_nat (length vs).
Proof. apply vsize_hold. Qed.

Lemma sift_up_ok c t vs i :
  Z.of_nat (length vs) <= C -> (i < length vs)%nat -> up_ok c vs i ->
  reorders (PriorityQueue.sift_up h C moved torn (Z.of_nat i)) (heap c) c t vs.
Proof. intros HC Hi. apply sift_up_loop_ok; [done..|]. pose proof (levels_enough (length vs) HC). lia. Qed.

Lemma sift_down_ok c t vs k i :
  Z.of_nat (length vs) <= C -> (i < length vs)%nat -> (k <= i)%nat -> down_ok c k vs i ->
  reorders (PriorityQueue.sift_down h C moved torn (Z.of_nat i)) (heap_from c k) c t vs.
Proof.
  intros HC Hi Hk Hd. unfold reorders, PriorityQueue.sift_down.
  eapply wp_bind_Ret; [done|]. rewrite pq_size. apply sift_down_loop_ok; [done| |done..].
  pose proof (levels_enough (length vs) HC). nia.
Qed.

Lemma heapify_ok c t vs :
  Z.of_nat (length vs) <= C -> reorders (PriorityQueue.heapify h C moved torn) (heap c) c t vs.
Proof.
  intros HC. unfold reorders, PriorityQueue.heapify. eapply wp_bind_Ret; [done|]. rewrite pq_size.
  set (n := (length vs / 2)%nat). replace (Z.of_nat (length vs) / 2) with (Z.of_nat n)
    by (unfold n; by rewrite Nat2Z.inj_div). rewrite Nat2Z.id.
  eapply wp_mono; [apply (wp_for_down (fun (j : Z) q => exists us, us ≡ₚ vs /\ heap_from c (Z.to_nat (j + 1)) us /\
    holding c t us q)) with (E := broken c t (length vs))| |done].
  - exists vs. replace (Z.to_nat (Z.of_nat n - 1 + 1)) with n by lia.
    split_and!; [done|apply heap_from_half|]. exists t. split; [apply later_refl|done].
  - intros j q Hj (us & Hp & Hh & t' & Hl & ->). pose proof (Permutation_length Hp) as Hn.
    pose proof (Nat.div_mod_eq (length vs) 2) as Hdiv. fold n in Hdiv.
    replace j with (Z.of_nat (Z.to_nat j)) at 1 by lia. rewrite <- Hn in *.
    eapply wp_mono; [apply (sift_down_ok c t' us (Z.to_nat j) (Z.to_nat j)); [lia..|]| |].
    + apply heap_from_down_ok. by replace (S (Z.to_nat j)) with (Z.to_nat (j + 1)) by lia.
    + intros ? q (us' & Hp' & Hh' & Hq). exists us'. replace (Z.to_nat (j - 1 + 1)) with (Z.to_nat j) by lia.
      split_and!; [by rewrite Hp'|done|by eapply holding_later].
    + intros q. by apply broken_later.
  - intros ? q (us & Hp & Hh & Hq). exists us. split_and!; [done| |done]. apply heap_from_0.
    by replace (Z.to_nat (Z.of_nat n - 1 - Z.of_nat n + 1)) with 0%nat in Hh by lia.
Qed.

(** *** The operations *)

Definition emptied c t (q : pqueue Cmp T) : Prop := true ∈ t /\ exists t', q = pq_of c t' [].

Lemma pq_clear c t vs :
  Z.of_nat (length vs) <= C -> PriorityQueue.clear (pq_of c t vs) = Ret tt (pq_of c t []).
Proof. intros. apply on_storage_Ret. by apply hold_clear. Qed.

Lemma wp_or_clear {A} (m : M (pqueue Cmp T) A) Q c t n s :
  Z.of_nat n <= C -> wp m Q (broken c t n) s -> wp (guarded m PriorityQueue.clear) Q (emptied c t) s.
Proof.
  intros Hn Hm. apply wp_guarded. eapply wp_mono; [exact Hm|done|].
  intros q (Ht & us & t' & Hus & ->). exists (pq_of c t' []). split; [apply pq_clear; lia|].
  split; [done|by exists t'].
Qed.

Lemma pq_top c t x vs : PriorityQueue.top h (pq_of c t (x :: vs)) = Ret 0 (pq_of c t (x :: vs)).
Proof.
  apply on_storage_Ret. unfold FixedVector.front. mstep. rewrite vsize_hold. cbn [length]. zbool. mstep.
  erewrite bind_Ret; [done|]. by apply (hold_ref C (x :: vs) 0).
Qed.

(** The element that [sift_up] settles after a push. *)
Lemma wp_settle c t x vs :
  Z.of_nat (length vs) < C -> heap c vs ->
  wp (PriorityQueue.keep_heap_or_clear
       (let! n := get PriorityQueue.size in PriorityQueue.sift_up h C moved torn (wrap (n - 1))))
    (fun _ q => exists us, us ≡ₚ x :: vs /\ heap c us /\ holding c t us q) (emptied c t) (pq_of c t (vs ++ [x])).
Proof.
  intros Hl Hh. pose proof (capacity_bounds C). assert (length (vs ++ [x]) = S (length vs)) as Hn
    by (rewrite length_app; cbn; lia).
  apply (wp_or_clear _ _ _ _ (length (vs ++ [x]))); [lia|].
  eapply wp_bind_Ret; [done|]. rewrite pq_size. zbool.
  replace (Z.of_nat (length (vs ++ [x])) - 1) with (Z.of_nat (length vs)) by lia.
  eapply wp_mono; [apply (sift_up_ok c t (vs ++ [x]) (length vs)); [lia..|by apply heap_snoc]| |done].
  intros ? q (us & Hp & Hq). exists us. split; [|done]. by rewrite Hp, <- Permutation_cons_append.
Qed.

Lemma pq_try_emplace_full c t vs ctor :
  Z.of_nat (length vs) = C ->
  PriorityQueue.try_emplace h C moved torn ctor (pq_of c t vs) = Ret false (pq_of c t vs).
Proof.
  intros E. unfold PriorityQueue.try_emplace. erewrite bind_Ret; [|apply on_storage_Ret, vec_try_emplace_full;
    by rewrite length_fmap]. done.
Qed.

Lemma wp_try_emplace c t vs x ctor :
  Z.of_nat (length vs) < C -> heap c vs -> reads C ctor x vs ->
  wp (PriorityQueue.try_emplace h C moved torn ctor)
    (fun b q => b = true /\ exists us, us ≡ₚ x :: vs /\ heap c us /\ holding c t us q) (emptied c t) (pq_of c t vs).
Proof.
  intros Hl Hh Hr. unfold PriorityQueue.try_emplace.
  eapply wp_bind_Ret; [apply (on_storage_Ret _ c t vs (vs ++ [x]) true)|].
  { unfold hold. rewrite fmap_app. apply (vec_try_emplace_ret C (Some <$> vs) []); [|apply Hr].
    unfold fits. rewrite length_app, length_fmap. cbn. lia. }
  cbn [negb]. apply wp_bind. eapply wp_mono; [by apply (wp_settle c t x vs)| |done].
  intros ? q Hq. by split.
Qed.

Lemma wp_emplace c t vs x ctor :
  Z.of_nat (length vs) < C -> heap c vs -> reads C ctor x vs ->
  wp (PriorityQueue.emplace h C moved torn ctor)
    (fun _ q => exists us, us ≡ₚ x :: vs /\ heap c us /\ holding c t us q) (emptied c t) (pq_of c t vs).
Proof.
  intros Hl Hh Hr. unfold PriorityQueue.emplace.
  eapply wp_bind_Ret; [apply (on_storage_Ret _ c t vs (vs ++ [x])); by apply vec_push|]. by apply wp_settle.
Qed.

(** A constructor that throws, in a storage with room. *)
Lemma pq_try_emplace_throw c t vs :
  Z.of_nat (length vs) < C ->
  PriorityQueue.try_emplace h C moved torn throw (pq_of c t vs) = Throw (pq_of c t vs).
Proof.
  intros Hl. unfold PriorityQueue.try_emplace. apply bind_Throw. unfold on_storage. cbn [pq_of qstorage_]. unfold hold.
  rewrite (vec_try_emplace_throw C); [done| |done]. unfold fits. rewrite length_app, length_fmap. cbn. lia.
Qed.

Lemma pq_emplace_throw c t vs :
  Z.of_nat (length vs) < C ->
  PriorityQueue.emplace h C moved torn throw (pq_of c t vs) = Throw (pq_of c t vs).
Proof.
  intros Hl. unfold PriorityQueue.emplace. apply bind_Throw. unfold on_storage. cbn [pq_of qstorage_].
  unfold FixedVector.emplace_back. mstep. erewrite bind_Throw; [done|]. unfold hold. rewrite (vec_try_emplace_throw C); [done| |done].
  unfold fits. rewrite length_app, length_fmap. cbn. lia.
Qed.

Lemma wp_pop c t x vs :
  Z.of_nat (length (x :: vs)) <= C -> heap c (x :: vs) ->
  wp (PriorityQueue.pop h C moved torn)
    (fun _ q => exists us, us ≡ₚ vs /\ heap c us /\ holding c t us q) (emptied c t) (pq_of c t (x :: vs)).
Proof.
  intros Hl Hh. pose proof (capacity_bounds C). unfold PriorityQueue.pop.
  eapply wp_bind_Ret; [done|]. unfold PriorityQueue.empty, FixedVector.empty. cbn [pq_of qstorage_].
  rewrite vsize_hold. cbn [length] in *. zbool. cbn [negb]. eapply wp_bind_Ret; [done|].
  apply (wp_or_clear _ _ _ _ (S (length vs))); [done|].
  eapply wp_bind_Ret; [done|]. rewrite pq_size. cbn [length]. zbool.
  replace (Z.of_nat (S (length vs)) - 1) with (Z.of_nat (length vs)) by lia.
  destruct vs as [|z vs _] using rev_ind.
  - cbn [length]. eapply wp_bind_Ret; [done|].
    eapply wp_bind_Ret; [apply (on_storage_Ret _ c t [x] []); by apply (vec_pop_back C [])|].
    eapply wp_bind_Ret; [done|]. exists []. split_and!; [done|by intros j ????|]. exists t.
    split; [apply later_refl|done].
  - rewrite length_app in *. cbn [length] in *. zbool. cbn [negb].
    apply wp_bind. eapply wp_mono.
    { apply (wp_move_assign_slot c t (x :: vs ++ [z]) 0 (length vs + 1) z); [cbn; lia|].
      rewrite Nat.add_1_r. exact (list_lookup_middle vs [] z (length vs) eq_refl). }
    2: { cbn [length]. rewrite length_app. cbn [length]. intros q. apply broken_weaken; [apply later_refl|lia]. }
    intros ? q (t1 & Hl1 & ->). rewrite Nat.add_1_r.
    change (<[0%nat := z]> (<[S (length vs) := moved z]> (x :: vs ++ [z])))
      with (z :: <[length vs := moved z]> (vs ++ [z])).
    rewrite (insert_middle_at vs []) by done.
    eapply wp_bind_Ret; [apply (on_storage_Ret _ c t1 _ (z :: vs))|].
    { unfold hold. rewrite app_comm_cons, fmap_app. apply (vec_pop_back C). unfold fits.
      rewrite length_app, length_fmap. cbn. lia. }
    eapply wp_bind_Ret; [done|]. unfold PriorityQueue.empty, FixedVector.empty. cbn [pq_of qstorage_].
    rewrite vsize_hold. cbn [length]. zbool. cbn [negb].
    eapply wp_mono; [apply (sift_down_ok c t1 (z :: vs) 0 0); cbn; [lia..|]| |].
    + apply (heap_replace_root c x). rewrite app_comm_cons in Hh. by eapply heap_prefix.
    + intros ? q (us & Hp & Hh' & Hq). exists us. split_and!; [|by apply heap_from_0|by eapply holding_later].
      by rewrite Hp, Permutation_cons_append.
    + cbn [length]. intros q. apply broken_weaken; [done|lia].
Qed.
Lemma insert_gap (kept js rest : list T) (j0 x y : T) :
  <[length kept := x]> (<[(length kept + S (length js))%nat := y]> (kept ++ (j0 :: js) ++ x :: rest)) =
  (kept ++ [x]) ++ (js ++ [y]) ++ rest.
Proof.
  rewrite (insert_app_r kept). cbn [app]. change (<[S (length js) := y]> (j0 :: js ++ x :: rest))
    with (j0 :: <[length js := y]> (js ++ x :: rest)).
  rewrite (insert_middle_at js rest) by done. rewrite insert_middle_at by done. by rewrite <- !app_assoc.
Qed.

(** The first elements are [ks], of [n] in all, and [w] is their number. *)
Definition compacted c t (ks : list T) (n : nat) (w : Z) (q : pqueue Cmp T) : Prop :=
  w = Z.of_nat (length ks) /\ exists junk, (length ks + length junk = n)%nat /\ holding c t (ks ++ junk) q.

Lemma wp_compact_later {m : M (pqueue Cmp T) Z} c t t' ks n q :
  later t t' -> wp m (compacted c t' ks n) (broken c t' n) q -> wp m (compacted c t ks n) (broken c t n) q.
Proof.
  intros Hl Hm. eapply wp_mono; [exact Hm| |intros q'; by apply broken_later].
  intros w q' (-> & junk & Hj & Hq). split; [done|]. exists junk. split; [done|by eapply holding_later].
Qed.

Lemma wp_compact pred c t (kept junk rest : list T) (n : nat) :
  n = (length kept + length junk + length rest)%nat ->
  wp (PriorityQueue.compact h moved torn pred (length rest) (Z.of_nat (length kept)) (Z.of_nat (length kept + length junk)))
    (compacted c t (kept ++ List.filter (fun x => negb (pred x)) rest) n) (broken c t n) (pq_of c t (kept ++ junk ++ rest)).
Proof.
  revert t kept junk. induction rest as [|x rest IH]; intros t kept junk Hn.
  { cbn in *. rewrite !app_nil_r. split; [done|]. exists junk. split; [lia|]. exists t. split; [apply later_refl|done]. }
  cbn [length PriorityQueue.compact List.filter] in *.
  assert ((kept ++ junk ++ x :: rest) !! (length kept + length junk)%nat = Some x) as Hx
    by (by rewrite app_assoc, <- length_app, list_lookup_middle).
  assert (length (kept ++ junk ++ x :: rest) = n) as Hlen by (rewrite !length_app; cbn; lia).
  wstep (at_Ret c t _ _ x Hx). wstep (ref_Ret c t _ _ x Hx). apply wp_throws; intros t' Ht.
  2: { split; [done|]. eexists _, t'. split; [|done]. by rewrite Hlen. }
  replace (Z.of_nat (length kept + length junk) + 1) with (Z.of_nat (length kept + (length junk + 1))) by lia.
  destruct (negb (pred x)).
  - replace (kept ++ x :: List.filter (fun x => negb (pred x)) rest)
      with ((kept ++ [x]) ++ List.filter (fun x => negb (pred x)) rest) by (by rewrite <- app_assoc).
    assert (forall t2 junk2, later t t2 -> length junk2 = length junk ->
      wp (PriorityQueue.compact h moved torn pred (length rest) (Z.of_nat (length kept) + 1)
        (Z.of_nat (length kept + (length junk + 1))))
      (compacted c t ((kept ++ [x]) ++ List.filter (fun x => negb (pred x)) rest) n)
      (broken c t n) (pq_of c t2 ((kept ++ [x]) ++ junk2 ++ rest))) as Hgo.
    { intros t2 junk2 Hl2 Hj2. apply (wp_compact_later c t t2); [done|].
      specialize (IH t2 (kept ++ [x]) junk2). rewrite (length_app kept [x]), Hj2 in IH. cbn [length] in IH.
      replace (Z.of_nat (length kept) + 1) with (Z.of_nat (length kept + 1)) by lia.
      replace (length kept + (length junk + 1))%nat with (length kept + 1 + length junk)%nat by lia. apply IH. lia. }
    destruct junk as [|j0 js].
    + cbn [length]. rewrite Nat.add_0_r. zbool. cbn [negb]. eapply wp_bind_Ret; [done|]. cbn [app].
      specialize (Hgo t' [] Ht eq_refl). cbn [app] in Hgo. rewrite <- (app_assoc kept [x] rest) in Hgo. exact Hgo.
    + cbn [length] in Hx, Hn, Hgo |- *. zbool. cbn [negb]. apply wp_bind.
      eapply wp_mono; [apply (wp_move_assign_slot c t' _ (length kept) (length kept + S (length js)) x); [lia|exact Hx]| |].
      * intros ? q (t2 & Hl2 & ->). rewrite insert_gap. apply Hgo; [by eapply later_trans|].
        rewrite length_app. cbn. lia.
      * rewrite Hlen. intros q. by apply broken_later.
  - specialize (IH t' kept (junk ++ [x])). rewrite length_app, <- app_assoc in IH.
    apply (wp_compact_later c t t'); [done|]. apply IH. cbn. lia.
Qed.

Lemma wp_erase_if pred c t vs :
  Z.of_nat (length vs) <= C ->
  let kept := List.filter (fun x => negb (pred x)) vs in
  wp (PriorityQueue.erase_if h C moved torn pred)
    (fun n q => n = Z.of_nat (length vs) - Z.of_nat (length kept) /\
      exists us, us ≡ₚ kept /\ heap c us /\ holding c t us q) (emptied c t) (pq_of c t vs).
Proof.
  intros HC kept. pose proof (capacity_bounds C). unfold PriorityQueue.erase_if.
  assert (length kept <= length vs)%nat as Hk by (unfold kept; clear; induction vs as [|y vs IH]; cbn;
    [lia|destruct (negb (pred y)); cbn; lia]).
  eapply wp_bind_Ret; [done|]. rewrite pq_size, Nat2Z.id. apply wp_bind.
  eapply wp_mono; [apply (wp_or_clear _ (fun w q => w = Z.of_nat (length kept) /\
    exists us, us ≡ₚ kept /\ heap c us /\ holding c t us q) c t (length vs)); [done|]| |done].
  - apply wp_bind. eapply wp_mono; [by apply (wp_compact pred c t [] [] vs (length vs))| |done].
    cbn [app length]. fold kept. intros w q (-> & junk & Hj & t1 & Hl1 & ->).
    eapply wp_bind_Ret; [apply (on_storage_Ret _ c t1 _ kept tt)|].
    { rewrite vsize_hold, length_app.
      replace (Z.to_nat (Z.of_nat (length kept + length junk) - Z.of_nat (length kept))) with (length junk) by lia.
      pose proof (vec_shrink C (Some <$> kept) junk) as Es. rewrite length_fmap, <- fmap_app in Es. apply Es.
      unfold fits. rewrite length_fmap, length_app. lia. }
    apply wp_bind. eapply wp_mono; [apply (heapify_ok c t1 kept); lia| |].
    + intros ? q (us & Hp & Hh & Hq). split; [done|]. exists us. split_and!; [done|done|by eapply holding_later].
    + intros q. apply broken_weaken; [done|lia].
  - intros w q [-> Hq]. split; [|exact Hq]. rewrite wrap_small by lia. done.
Qed.


(** *** Two queues *)

Definition pair_of c1 c2 t1 t2 us vs : pqueue Cmp T * pqueue Cmp T := (pq_of c1 t1 us, pq_of c2 t2 vs).

Definition holding2 c1 c2 t1 t2 us vs (s : pqueue Cmp T * pqueue Cmp T) : Prop :=
  exists t1' t2', later (t1 ++ t2) (t1' ++ t2') /\ s = pair_of c1 c2 t1' t2' us vs.
Definition broken2 t1 t2 (s : pqueue Cmp T * pqueue Cmp T) : Prop :=
  true ∈ t1 ++ t2 /\ exists c1 c2 t1' t2' us vs, Z.of_nat (length us) <= C /\ Z.of_nat (length vs) <= C /\
    s = pair_of c1 c2 t1' t2' us vs.

Lemma holding2_start c1 c2 t1 t2 us vs : holding2 c1 c2 t1 t2 us vs (pair_of c1 c2 t1 t2 us vs).
Proof. exists t1, t2. split; [apply later_refl|done]. Qed.

Lemma broken2_later t1 t2 t1' t2' s : later (t1 ++ t2) (t1' ++ t2') -> broken2 t1' t2' s -> broken2 t1 t2 s.
Proof. intros Hl [Ht Hs]. split; auto. Qed.

Lemma broken2_now c1 c2 t1 t2 t1' t2' us vs :
  true ∈ t1 ++ t2 -> Z.of_nat (length us) <= C -> Z.of_nat (length vs) <= C ->
  broken2 t1 t2 (pair_of c1 c2 t1' t2' us vs).
Proof. intros Ht Hu Hv. split; [done|]. by exists c1, c2, t1', t2', us, vs. Qed.

Lemma on_storages_Ret {A} (m : M (vec T * vec T) A) c1 c2 t1 t2 us vs us' vs' a :
  m (hold C us, hold C vs) = Ret a (hold C us', hold C vs') ->
  PriorityQueue.on_storages m (pair_of c1 c2 t1 t2 us vs) = Ret a (pair_of c1 c2 t1 t2 us' vs').
Proof. intros E. unfold PriorityQueue.on_storages. cbn [pair_of pq_of fst snd qstorage_]. by rewrite E. Qed.

Lemma ref_fst c1 c2 t1 t2 us vs i x :
  us !! i = Some x -> PriorityQueue.on_storages (on_fst (slot_ref (Z.of_nat i))) (pair_of c1 c2 t1 t2 us vs) =
    Ret x (pair_of c1 c2 t1 t2 us vs).
Proof. intros E. apply on_storages_Ret. apply (on_fst_Ret _ (_, _)), hold_ref, E. Qed.

Lemma ref_snd c1 c2 t1 t2 us vs i x :
  vs !! i = Some x -> PriorityQueue.on_storages (on_snd (slot_ref (Z.of_nat i))) (pair_of c1 c2 t1 t2 us vs) =
    Ret x (pair_of c1 c2 t1 t2 us vs).
Proof. intros E. apply on_storages_Ret. apply (on_snd_Ret _ (_, _)), hold_ref, E. Qed.

Lemma size_fst c1 c2 t1 t2 us vs :
  PriorityQueue.on_storages (on_fst (get vsize_)) (pair_of c1 c2 t1 t2 us vs) =
    Ret (Z.of_nat (length us)) (pair_of c1 c2 t1 t2 us vs).
Proof. apply on_storages_Ret, hold_fst_size. Qed.

Lemma size_snd c1 c2 t1 t2 us vs :
  PriorityQueue.on_storages (on_snd (get vsize_)) (pair_of c1 c2 t1 t2 us vs) =
    Ret (Z.of_nat (length vs)) (pair_of c1 c2 t1 t2 us vs).
Proof. apply on_storages_Ret, hold_snd_size. Qed.

(** What the two ways of asking the script have in common. *)
Definition asks (m : M (pqueue Cmp T * pqueue Cmp T) bool) : Prop :=
  forall (k : bool -> M (pqueue Cmp T * pqueue Cmp T) unit) Q E c1 c2 t1 t2 us vs,
  (forall t1' t2', later (t1 ++ t2) (t1' ++ t2') -> wp (k false) Q E (pair_of c1 c2 t1' t2' us vs)) ->
  (forall t1' t2', true ∈ t1 ++ t2 -> wp (k true) Q E (pair_of c1 c2 t1' t2' us vs)) ->
  wp (bind m k) Q E (pair_of c1 c2 t1 t2 us vs).

Lemma asks_fst : asks (on_fst next_throws).
Proof.
  intros k Q E c1 c2 t1 t2 us vs Hf Ht. destruct t1 as [|b t1].
  - eapply wp_bind_Ret; [done|]. apply Hf, later_refl.
  - eapply wp_bind_Ret; [done|]. destruct b; [apply (Ht t1 t2); by left|].
    apply (Hf t1 t2). intros ?. by right.
Qed.

Lemma asks_snd : asks (on_snd next_throws).
Proof.
  intros k Q E c1 c2 t1 t2 us vs Hf Ht. destruct t2 as [|b t2].
  - eapply wp_bind_Ret; [done|]. apply Hf, later_refl.
  - eapply wp_bind_Ret; [done|]. destruct b.
    + apply (Ht t1 t2). apply elem_of_app. right. by left.
    + apply (Hf t1 t2). unfold later. rewrite !elem_of_app. intros [?|?]; [by left|]. right. by right.
Qed.

Lemma wp_swap_elements c1 c2 t1 t2 us vs i u v :
  Z.of_nat (length us) <= C -> Z.of_nat (length vs) <= C -> us !! i = Some u -> vs !! i = Some v ->
  wp (PriorityQueue.swap_elements moved torn (Z.of_nat i))
    (fun _ => holding2 c1 c2 t1 t2 (<[i := v]> us) (<[i := u]> vs)) (broken2 t1 t2) (pair_of c1 c2 t1 t2 us vs).
Proof.
  intros Hu Hv Eu Ev. pose proof (lookup_lt_Some _ _ _ Eu). pose proof (lookup_lt_Some _ _ _ Ev).
  unfold PriorityQueue.swap_elements. wstep (ref_fst c1 c2 t1 t2 us vs i u Eu).
  wstep (ref_snd c1 c2 t1 t2 us vs i v Ev). apply asks_fst; intros t1' t2' Ht.
  - eapply wp_Ret; [apply on_storages_Ret; by apply hold_swap_elements|]. by exists t1', t2'.
  - eapply wp_bind_Ret; [apply (on_storages_Ret _ _ _ _ _ _ _ (<[i := torn u]> us) (<[i := torn v]> vs) tt)|].
    { erewrite bind_Ret; [|apply (on_fst_Ret _ (_, _)), hold_assign; lia].
      by apply (on_snd_Ret _ (_, _)), hold_assign. }
    by apply broken2_now; rewrite ?length_insert.
Qed.

Lemma wp_swap_prefix c1 c2 t1 t2 us vs (n : nat) :
  Z.of_nat (length us) <= C -> Z.of_nat (length vs) <= C -> (n <= length us)%nat -> (n <= length vs)%nat ->
  wp (for_up n 0 (PriorityQueue.swap_elements moved torn))
    (fun _ => holding2 c1 c2 t1 t2 (take n vs ++ drop n us) (take n us ++ drop n vs)) (broken2 t1 t2)
    (pair_of c1 c2 t1 t2 us vs).
Proof.
  intros HC1 HC2 Hu Hv.
  eapply wp_mono; [apply (wp_for_up (fun (i : Z) => holding2 c1 c2 t1 t2
    (take (Z.to_nat i) vs ++ drop (Z.to_nat i) us) (take (Z.to_nat i) us ++ drop (Z.to_nat i) vs)) (broken2 t1 t2))| |done].
  - rewrite !take_0, !drop_0. apply holding2_start.
  - intros i s Hi (t1' & t2' & Hl & ->).
    destruct (lookup_lt_is_Some_2 us (Z.to_nat i)) as [u Eu]; [lia|].
    destruct (lookup_lt_is_Some_2 vs (Z.to_nat i)) as [v Ev]; [lia|].
    replace i with (Z.of_nat (Z.to_nat i)) at 1 by lia.
    eapply wp_mono; [apply (wp_swap_elements c1 c2 t1' t2' _ _ _ u v);
      rewrite ?take_drop_lookup, ?length_app, ?length_take, ?length_drop by lia; try done; lia| |].
    + intros ? s (t1'' & t2'' & Hl' & ->). exists t1'', t2''. split; [by eapply later_trans|].
      rewrite (take_drop_insert _ _ _ _ _ Ev Eu), (take_drop_insert _ _ _ _ _ Eu Ev).
      by replace (Z.to_nat (i + 1)) with (S (Z.to_nat i)) by lia.
    + intros s. by apply broken2_later.
  - intros ? s. by rewrite Z.add_0_l, Nat2Z.id.
Qed.

(** One element of the tail, from a vector that [ws] says has lost the ones before. *)
Lemma wp_move_one throws c1 c2 t1 t2 us ws v (i : Z) :
  i = Z.of_nat (length us) -> asks throws -> ws !! length us = Some v -> Z.of_nat (length us) < C -> Z.of_nat (length ws) <= C ->
  wp (let! x := PriorityQueue.on_storages (on_snd (slot_ref i)) in
      let! thrown := throws in
      if thrown then PriorityQueue.on_storages (on_snd (slot_assign i (torn x))) ;;; throw
      else PriorityQueue.on_storages
        (let! x := on_snd (slot_move_out moved i) in
         on_fst (slot_construct i x) ;;;
         on_fst (modify (fun v => set_vsize (wrap (vsize_ v + 1)) v))))
    (fun _ => holding2 c1 c2 t1 t2 (us ++ [v]) (<[length us := moved v]> ws)) (broken2 t1 t2)
    (pair_of c1 c2 t1 t2 us ws).
Proof.
  intros -> Hask Ev Hu Hw. wstep (ref_snd c1 c2 t1 t2 us ws _ v Ev). apply Hask; intros t1' t2' Ht.
  - eapply wp_Ret; [apply on_storages_Ret; by apply hold_move_one|]. by exists t1', t2'.
  - eapply wp_bind_Ret; [apply on_storages_Ret; apply (on_snd_Ret _ (_, _)), hold_assign; by eapply lookup_lt_Some|].
    apply broken2_now; rewrite ?length_insert; [done|lia|lia].
Qed.

Lemma wp_move_tail throws c1 c2 t1 t2 us vs :
  asks throws -> (length us < length vs)%nat -> Z.of_nat (length vs) <= C ->
  wp (PriorityQueue.move_tail moved torn throws)
    (fun _ => holding2 c1 c2 t1 t2 (us ++ drop (length us) vs) (take (length us) vs)) (broken2 t1 t2)
    (pair_of c1 c2 t1 t2 us vs).
Proof.
  intros Hask Hlt Hl. unfold PriorityQueue.move_tail. wstep (size_fst c1 c2 t1 t2 us vs).
  wstep (size_snd c1 c2 t1 t2 us vs). set (n := length us) in *.
  replace (Z.to_nat (Z.of_nat (length vs) - Z.of_nat n)) with (length vs - n)%nat by lia.
  apply wp_bind. eapply wp_mono; [apply (wp_for_up (fun (i : Z) s => exists ws,
    length ws = (length vs - n)%nat /\ drop (Z.to_nat i - n) ws = drop (Z.to_nat i) vs /\
    holding2 c1 c2 t1 t2 (us ++ take (Z.to_nat i - n) (drop n vs)) (take n vs ++ ws) s) (broken2 t1 t2))| |done].
  - exists (drop n vs). rewrite Nat2Z.id, Nat.sub_diag, take_0, app_nil_r, take_drop, drop_0, length_drop.
    split_and!; [done|done|apply holding2_start].
  - intros i s Hi (ws & Hw & Hd & t1' & t2' & Hlt' & ->). set (m := Z.to_nat i) in *.
    destruct (lookup_lt_is_Some_2 vs m) as [v Hv]; [lia|].
    assert (ws !! (m - n)%nat = Some v) as Hwv.
    { rewrite <- (Nat.add_0_r (m - n)), <- lookup_drop, Hd, lookup_drop, Nat.add_0_r. done. }
    set (as_ := us ++ take (m - n) (drop n vs)).
    assert (length as_ = m) as Has by (unfold as_; rewrite length_app, length_take, length_drop; lia).
    eapply wp_mono; [apply (wp_move_one throws c1 c2 t1' t2' as_ (take n vs ++ ws) v i ltac:(lia) Hask)| |].
    + rewrite Has, lookup_app_r by (rewrite length_take; lia). by rewrite length_take, Nat.min_l by lia.
    + lia.
    + rewrite length_app, length_take. lia.
    + intros ? s (t1'' & t2'' & Hlt'' & ->). exists (<[(m - n)%nat := moved v]> ws).
      replace (Z.to_nat (i + 1)) with (S m) by lia. replace (S m - n)%nat with (S (m - n)) by lia.
      split_and!; [by rewrite length_insert| |].
      * rewrite drop_insert_lt by lia. rewrite (drop_S vs v m Hv), (drop_S ws v _ Hwv) in Hd. by simplify_eq.
      * exists t1'', t2''. split; [by eapply later_trans|]. f_equal.
        -- unfold as_. rewrite <- app_assoc. f_equal. symmetry. apply take_S_r. rewrite lookup_drop, <- Hv. f_equal. lia.
        -- rewrite (insert_app_r_alt _ ws) by (rewrite length_take; lia). rewrite Has, length_take, Nat.min_l by lia. done.
    + intros s. by apply broken2_later.
  - intros ? s (ws & Hw & _ & t1' & t2' & Hlt' & ->).
    replace (Z.to_nat (Z.of_nat n + Z.of_nat (length vs - n)) - n)%nat with (length vs - n)%nat by lia.
    rewrite (take_ge (drop n vs)) by (rewrite length_drop; lia).
    eapply wp_Ret; [apply (on_storages_Ret _ _ _ _ _ _ _ (us ++ drop n vs) (take n vs) tt)|by exists t1', t2'].
    pose proof (vec_destroy_down C (Some <$> take n vs) ws (hold C (us ++ drop n vs))) as Ed.
    rewrite <- fmap_app, length_fmap, length_take, Nat.min_l, Hw in Ed by lia.
    replace (Z.of_nat (n + (length vs - n))) with (Z.of_nat (length vs)) in Ed by lia.
    apply Ed. unfold fits. rewrite length_fmap, length_app, length_take. lia.
Qed.


Lemma wp_swap_storage c1 c2 t1 t2 us vs :
  Z.of_nat (length us) <= C -> Z.of_nat (length vs) <= C ->
  wp (PriorityQueue.swap_storage moved torn) (fun _ => holding2 c1 c2 t1 t2 vs us) (broken2 t1 t2)
    (pair_of c1 c2 t1 t2 us vs).
Proof.
  intros Hu Hv. unfold PriorityQueue.swap_storage. wstep (size_fst c1 c2 t1 t2 us vs).
  wstep (size_snd c1 c2 t1 t2 us vs).
  replace (Z.to_nat (if Z.of_nat (length us) <? Z.of_nat (length vs)
    then Z.of_nat (length us) else Z.of_nat (length vs))) with (min (length us) (length vs))
    by (destruct (Z.ltb_spec (Z.of_nat (length us)) (Z.of_nat (length vs))); lia).
  apply wp_bind. eapply wp_mono; [apply (wp_swap_prefix c1 c2 t1 t2 us vs (min (length us) (length vs))); lia| |done].
  intros ? s (t1' & t2' & Hl & ->).
  destruct (Z.eqb_spec (Z.of_nat (length us)) (Z.of_nat (length vs)));
    [|destruct (Z.ltb_spec (Z.of_nat (length us)) (Z.of_nat (length vs)))].
  - rewrite !take_ge, !drop_ge, !app_nil_r by lia. by exists t1', t2'.
  - rewrite Nat.min_l, (drop_ge us), app_nil_r, (take_ge us) by lia.
    eapply wp_mono; [apply (wp_move_tail _ c1 c2 t1' t2' _ _ asks_fst);
      rewrite ?length_app, ?length_take, ?length_drop; lia| |intros s; by apply broken2_later].
    intros ? s (t1'' & t2'' & Hl' & ->). exists t1'', t2''. split; [by eapply later_trans|].
    by rewrite length_take, Nat.min_l, drop_app_length, take_app_length, take_drop by lia.
  - rewrite Nat.min_r, (drop_ge vs), app_nil_r, (take_ge vs) by lia. apply wp_swapped.
    eapply wp_mono; [apply (wp_move_tail _ c2 c1 t2' t1' _ _ asks_snd);
      rewrite ?length_app, ?length_take, ?length_drop; lia| |].
    + intros ? s (t2'' & t1'' & Hl' & ->). exists t1'', t2''. split.
      { eapply later_trans; [exact Hl|]. unfold later in *. rewrite !elem_of_app in *. tauto. }
      cbn [pair_of fst snd].
      by rewrite length_take, Nat.min_l, drop_app_length, take_app_length, take_drop by lia.
    + intros s (Ht & d1 & d2 & x1 & x2 & ws & zs & Hw & Hz & ->).
      apply (broken2_now d2 d1); [|done|done]. apply Hl. rewrite elem_of_app in *. tauto.
Qed.

Lemma wp_swap torn_comp cannot c1 c2 t1 t2 us vs :
  Z.of_nat (length us) <= C -> Z.of_nat (length vs) <= C -> (cannot = true -> true ∉ t1 ++ t2) ->
  wp (PriorityQueue.swap moved torn torn_comp cannot false) (fun _ => holding2 c2 c1 t1 t2 vs us)
    (fun s => true ∈ t1 ++ t2 /\ exists d1 d2 t1' t2', s = pair_of d1 d2 t1' t2' [] []) (pair_of c1 c2 t1 t2 us vs).
Proof.
  intros Hu Hv Hc.
  assert (wp (PriorityQueue.swap_contents moved torn torn_comp) (fun _ => holding2 c2 c1 t1 t2 vs us)
    (broken2 t1 t2) (pair_of c1 c2 t1 t2 us vs)) as Hsw.
  { unfold PriorityQueue.swap_contents. apply wp_bind. unfold PriorityQueue.swap_comparators.
    eapply wp_bind_Ret; [done|]. eapply wp_bind_Ret; [done|]. cbn [pair_of pq_of fst snd qcomp_].
    apply asks_fst; intros t1' t2' Ht.
    - apply (wp_Ret _ _ _ _ tt (pair_of c2 c1 t1' t2' us vs)); [done|].
      eapply wp_mono; [by apply wp_swap_storage| |intros s; by apply broken2_later].
      intros ? s (t1'' & t2'' & Hl & ->). exists t1'', t2''. split; [by eapply later_trans|done].
    - by apply (broken2_now (torn_comp c1) (torn_comp c2) t1 t2 t1' t2' us vs). }
  unfold PriorityQueue.swap. destruct cannot.
  - eapply wp_mono; [exact Hsw|done|]. intros s [Ht _]. by destruct (Hc eq_refl).
  - apply wp_guarded. eapply wp_mono; [exact Hsw|done|].
    intros s (Ht & d1 & d2 & t1' & t2' & us' & vs' & Hu' & Hv' & ->).
    exists (pair_of d1 d2 t1' t2' [] []). split; [|split; [done|by exists d1, d2, t1', t2']].
    erewrite bind_Ret; [|by apply (on_fst_Ret _ (_, _)), pq_clear].
    by apply (on_snd_Ret _ (_, _)), pq_clear.
Qed.

(** Copying and moving into a queue that is empty, element by element. *)
Lemma ask_nth c1 c2 t1 t2 us vs i :
  on_fst next_throws (pair_of c1 c2 (drop i t1) t2 us vs) =
    Ret (default false (t1 !! i)) (pair_of c1 c2 (drop (S i) t1) t2 us vs).
Proof.
  rewrite <- (Nat.add_0_r i) at 2. rewrite <- lookup_drop. replace (S i) with (i + 1)%nat by lia. rewrite <- drop_drop.
  by destruct (drop i t1).
Qed.

Lemma hold_push_throw vs :
  Z.of_nat (length vs) < C -> FixedVector.emplace_back h C throw (hold C vs) = Throw (hold C vs).
Proof.
  intros Hl. unfold FixedVector.emplace_back. erewrite bind_Ret; [|reflexivity]. apply bind_Throw.
  apply (vec_try_emplace_throw C); [|done]. unfold fits. rewrite length_app, length_fmap. cbn. lia.
Qed.

(** What is left of [vs] when its first [i] elements have been moved away. *)
Definition moved_away i vs : list T := take i (moved <$> vs) ++ drop i vs.

Lemma moved_away_lookup i vs : moved_away i vs !! i = vs !! i.
Proof.
  unfold moved_away. destruct (decide (i <= length vs)%nat); [by rewrite take_drop_lookup by (rewrite ?length_fmap; lia)|].
  rewrite !lookup_ge_None_2; [done|lia|]. rewrite length_app, length_take, length_fmap, length_drop. lia.
Qed.

Lemma moved_away_step i vs v : vs !! i = Some v -> <[i := moved v]> (moved_away i vs) = moved_away (S i) vs.
Proof. intros Hv. apply (take_drop_insert _ _ _ (moved v) v); [by rewrite list_lookup_fmap, Hv|done]. Qed.

Lemma moved_away_all vs : moved_away (length vs) vs = moved <$> vs.
Proof. unfold moved_away. by rewrite drop_ge, app_nil_r, take_ge by (rewrite ?length_fmap; lia). Qed.

Lemma append_copies_body c1 c2 t1 t2 vs i v :
  Z.of_nat (length vs) <= C -> vs !! i = Some v ->
  (let! b := on_fst next_throws in
   PriorityQueue.on_storages
     (let! x := on_snd (slot_ref (Z.of_nat i)) in
      on_fst (FixedVector.emplace_back h C (if b : bool then throw else ret x)) ;;; ret tt))
    (pair_of c1 c2 (drop i t1) t2 (take i vs) vs) =
  (if default false (t1 !! i) then Throw (pair_of c1 c2 (drop (S i) t1) t2 (take i vs) vs)
   else Ret tt (pair_of c1 c2 (drop (S i) t1) t2 (take (S i) vs) vs)).
Proof.
  intros Hl Hv. pose proof (lookup_lt_Some _ _ _ Hv). assert (length (take i vs) = i) as Ei by (rewrite length_take; lia).
  rewrite (bind_Ret _ _ _ _ _ (ask_nth c1 c2 t1 t2 (take i vs) vs i)). unfold PriorityQueue.on_storages at 1.
  cbn [pair_of pq_of qstorage_ fst snd]. rewrite (bind_Ret _ _ _ _ _ (on_snd_Ret _ (_, _) _ _ (hold_ref C vs i v Hv))).
  cbn [snd fst]. destruct (default false (t1 !! i)).
  - unfold bind at 1, on_fst at 1. cbn [fst snd]. by rewrite hold_push_throw by lia.
  - rewrite (bind_Ret _ _ _ _ _ (on_fst_Ret _ (_, _) _ _ (hold_push h C (take i vs) v ltac:(lia)))).
    by rewrite <- (take_S_r vs i v Hv).
Qed.

Lemma append_moves_body c1 c2 t1 t2 vs i v :
  Z.of_nat (length vs) <= C -> vs !! i = Some v ->
  (let! b := on_fst next_throws in
   PriorityQueue.on_storages
     (let! x := on_snd (slot_move_out (if b : bool then torn else moved) (Z.of_nat i)) in
      on_fst (FixedVector.emplace_back h C (if b : bool then throw else ret x)) ;;; ret tt))
    (pair_of c1 c2 (drop i t1) t2 (take i vs) (moved_away i vs)) =
  (if default false (t1 !! i)
   then Throw (pair_of c1 c2 (drop (S i) t1) t2 (take i vs) (<[i := torn v]> (moved_away i vs)))
   else Ret tt (pair_of c1 c2 (drop (S i) t1) t2 (take (S i) vs) (moved_away (S i) vs))).
Proof.
  intros Hl Hv. pose proof (lookup_lt_Some _ _ _ Hv). assert (length (take i vs) = i) as Ei by (rewrite length_take; lia).
  rewrite (bind_Ret _ _ _ _ _ (ask_nth c1 c2 t1 t2 (take i vs) (moved_away i vs) i)). unfold PriorityQueue.on_storages at 1.
  cbn [pair_of pq_of qstorage_ fst snd]. assert (moved_away i vs !! i = Some v) as Hm by (by rewrite moved_away_lookup).
  rewrite (bind_Ret _ _ _ _ _ (on_snd_Ret _ (_, _) _ _ (hold_move C _ (moved_away i vs) i v Hm))).
  cbn [snd fst]. destruct (default false (t1 !! i)).
  - unfold bind at 1, on_fst at 1. cbn [fst snd]. by rewrite hold_push_throw by lia.
  - rewrite (bind_Ret _ _ _ _ _ (on_fst_Ret _ (_, _) _ _ (hold_push h C (take i vs) v ltac:(lia)))).
    by rewrite <- (take_S_r vs i v Hv), moved_away_step.
Qed.

(** Neither loop throws before the [n]th element. *)
Definition quiet_until (t : list bool) n : Prop := forall i, (i < n)%nat -> default false (t !! i) = false.

Lemma append_copies_ret c1 c2 t1 t2 vs :
  Z.of_nat (length vs) <= C -> quiet_until t1 (length vs) ->
  PriorityQueue.append_copies h C (pair_of c1 c2 t1 t2 [] vs) = Ret tt (pair_of c1 c2 (drop (length vs) t1) t2 vs vs).
Proof.
  intros Hl Hq. unfold PriorityQueue.append_copies. rewrite (bind_Ret _ _ _ _ _ (size_snd c1 c2 t1 t2 [] vs)), Nat2Z.id.
  rewrite <- (take_ge vs (length vs)) at 4 by done.
  apply (for_up_run (fun i => pair_of c1 c2 (drop i t1) t2 (take i vs) vs)). intros i Hi.
  destruct (lookup_lt_is_Some_2 vs i Hi) as [v Hv]. by rewrite (append_copies_body c1 c2 t1 t2 vs i v Hl Hv), Hq.
Qed.

Lemma append_copies_throw c1 c2 t1 t2 vs k v :
  Z.of_nat (length vs) <= C -> quiet_until t1 k -> t1 !! k = Some true -> vs !! k = Some v ->
  PriorityQueue.append_copies h C (pair_of c1 c2 t1 t2 [] vs) =
    Throw (pair_of c1 c2 (drop (S k) t1) t2 (take k vs) vs).
Proof.
  intros Hl Hq Hk Hv. pose proof (lookup_lt_Some _ _ _ Hv). unfold PriorityQueue.append_copies.
  rewrite (bind_Ret _ _ _ _ _ (size_snd c1 c2 t1 t2 [] vs)), Nat2Z.id.
  apply (for_up_throw (fun i => pair_of c1 c2 (drop i t1) t2 (take i vs) vs) _ _ k); [lia| |].
  - intros i Hi. destruct (lookup_lt_is_Some_2 vs i) as [u Hu]; [lia|].
    by rewrite (append_copies_body c1 c2 t1 t2 vs i u Hl Hu), Hq.
  - by rewrite (append_copies_body c1 c2 t1 t2 vs k v Hl Hv), Hk.
Qed.

Lemma append_moves_ret c1 c2 t1 t2 vs :
  Z.of_nat (length vs) <= C -> quiet_until t1 (length vs) ->
  PriorityQueue.append_moves h C moved torn (pair_of c1 c2 t1 t2 [] vs) =
    Ret tt (pair_of c1 c2 (drop (length vs) t1) t2 vs []).
Proof.
  intros Hl Hq. unfold PriorityQueue.append_moves. rewrite (bind_Ret _ _ _ _ _ (size_snd c1 c2 t1 t2 [] vs)), Nat2Z.id.
  erewrite bind_Ret.
  2: { apply (for_up_run (fun i => pair_of c1 c2 (drop i t1) t2 (take i vs) (moved_away i vs))). intros i Hi.
       destruct (lookup_lt_is_Some_2 vs i Hi) as [v Hv]. by rewrite (append_moves_body c1 c2 t1 t2 vs i v Hl Hv), Hq. }
  rewrite moved_away_all, take_ge by done. apply on_storages_Ret, (on_snd_Ret _ (_, _)), (hold_clear C).
  rewrite length_fmap. lia.
Qed.

Lemma append_moves_throw c1 c2 t1 t2 vs k v :
  Z.of_nat (length vs) <= C -> quiet_until t1 k -> t1 !! k = Some true -> vs !! k = Some v ->
  PriorityQueue.append_moves h C moved torn (pair_of c1 c2 t1 t2 [] vs) =
    Throw (pair_of c1 c2 (drop (S k) t1) t2 (take k vs) (<[k := torn v]> (moved_away k vs))).
Proof.
  intros Hl Hq Hk Hv. pose proof (lookup_lt_Some _ _ _ Hv). unfold PriorityQueue.append_moves.
  rewrite (bind_Ret _ _ _ _ _ (size_snd c1 c2 t1 t2 [] vs)), Nat2Z.id. apply bind_Throw.
  apply (for_up_throw (fun i => pair_of c1 c2 (drop i t1) t2 (take i vs) (moved_away i vs)) _ _ k); [lia| |].
  - intros i Hi. destruct (lookup_lt_is_Some_2 vs i) as [u Hu]; [lia|].
    by rewrite (append_moves_body c1 c2 t1 t2 vs i u Hl Hu), Hq.
  - by rewrite (append_moves_body c1 c2 t1 t2 vs k v Hl Hv), Hk.
Qed.

Lemma assign_start c1 c2 t1 t2 us vs :
  Z.of_nat (length us) <= C ->
  PriorityQueue.on_storages (on_fst FixedVector.clear) (pair_of c1 c2 t1 t2 us vs) = Ret tt (pair_of c1 c2 t1 t2 [] vs).
Proof. intros Hu. apply on_storages_Ret, (on_fst_Ret _ (_, _)). exact (hold_clear C us Hu). Qed.

Lemma copy_assign_ret c1 c2 t1 t2 us vs :
  Z.of_nat (length us) <= C -> Z.of_nat (length vs) <= C -> quiet_until t1 (length vs) ->
  PriorityQueue.copy_assign h C false (pair_of c1 c2 t1 t2 us vs) =
    Ret tt (pair_of c2 c2 (drop (length vs) t1) t2 vs vs).
Proof.
  intros Hu Hl Hq. unfold PriorityQueue.copy_assign. rewrite (bind_Ret _ _ _ _ _ (assign_start c1 c2 t1 t2 us vs Hu)).
  by rewrite (bind_Ret _ _ _ _ _ (append_copies_ret c1 c2 t1 t2 vs Hl Hq)).
Qed.

Lemma move_assign_ret moved_comp c1 c2 t1 t2 us vs :
  Z.of_nat (length us) <= C -> Z.of_nat (length vs) <= C -> quiet_until t1 (length vs) ->
  PriorityQueue.move_assign h C moved torn moved_comp false (pair_of c1 c2 t1 t2 us vs) =
    Ret tt (pair_of c2 (moved_comp c2) (drop (length vs) t1) t2 vs []).
Proof.
  intros Hu Hl Hq. unfold PriorityQueue.move_assign. rewrite (bind_Ret _ _ _ _ _ (assign_start c1 c2 t1 t2 us vs Hu)).
  by rewrite (bind_Ret _ _ _ _ _ (append_moves_ret c1 c2 t1 t2 vs Hl Hq)).
Qed.

Lemma copy_assign_throw c1 c2 t1 t2 us vs k v :
  Z.of_nat (length us) <= C -> Z.of_nat (length vs) <= C ->
  quiet_until t1 k -> t1 !! k = Some true -> vs !! k = Some v ->
  PriorityQueue.copy_assign h C false (pair_of c1 c2 t1 t2 us vs) =
    Throw (pair_of c1 c2 (drop (S k) t1) t2 (take k vs) vs).
Proof.
  intros Hu Hl Hq Hk Hv. unfold PriorityQueue.copy_assign. rewrite (bind_Ret _ _ _ _ _ (assign_start c1 c2 t1 t2 us vs Hu)).
  by apply bind_Throw, (append_copies_throw c1 c2 t1 t2 vs k v).
Qed.

Lemma move_assign_throw moved_comp c1 c2 t1 t2 us vs k v :
  Z.of_nat (length us) <= C -> Z.of_nat (length vs) <= C ->
  quiet_until t1 k -> t1 !! k = Some true -> vs !! k = Some v ->
  PriorityQueue.move_assign h C moved torn moved_comp false (pair_of c1 c2 t1 t2 us vs) =
    Throw (pair_of c1 c2 (drop (S k) t1) t2 (take k vs) (<[k := torn v]> (moved_away k vs))).
Proof.
  intros Hu Hl Hq Hk Hv. unfold PriorityQueue.move_assign. rewrite (bind_Ret _ _ _ _ _ (assign_start c1 c2 t1 t2 us vs Hu)).
  by apply bind_Throw, append_moves_throw.
Qed.

Lemma quiet_never t n : true ∉ t -> quiet_until t n.
Proof.
  intros Ht i _. destruct (t !! i) as [[]|] eqn:E; [|done|done]. destruct Ht. by eapply list_elem_of_lookup_2.
Qed.

End queue_facts.
