(* ===== verification/PriorityQueueClaims.v ===== *)
(** * What [fixed_priority_queue] promises

    The abstract priority queue is a bag.  Its history says what each operation
    may answer; the theorems say that the heap answers so, whatever throws, and
    what whole queues do when they are swapped and assigned. *)

From Stdlib Require Import ZArith Lia.
From stdpp Require Import base numbers list option tactics.
From S2P Require Import Prelude FixedVector FixedVectorFacts PriorityQueue PriorityQueueFacts.
Local Open Scope Z_scope.

(** ** Operations and their answers *)

(** What the element constructor does: yield an element, or throw. *)
Inductive pq_op (T : Type) : Type :=
  | PqPush (r : option T)
  | PqTryPush (r : option T)
  | PqPop
  | PqTop
  | PqEraseIf (pred : T -> bool)
  | PqClear
  | PqSize.
Arguments PqPush {T} r.
Arguments PqTryPush {T} r.
Arguments PqPop {T}.
Arguments PqTop {T}.
Arguments PqEraseIf {T} pred.
Arguments PqClear {T}.
Arguments PqSize {T}.

Inductive pq_answer (T : Type) : Type :=
  | PqUnit
  | PqBool (b : bool)
  | PqElement (x : T)
  | PqNumber (n : Z)
  | PqThrown
  | PqAborted.
Arguments PqUnit {T}.
Arguments PqBool {T} b.
Arguments PqElement {T} x.
Arguments PqNumber {T} n.
Arguments PqThrown {T}.
Arguments PqAborted {T}.

Section priority_queue_claims.
  Context `{SizeT} {Cmp T : Type} `{!Comparator Cmp T T, !StrictWeakOrder Cmp T}.
  Context (h : hardening) (C : Z) (moved torn : T -> T) `{!CapacityOk C}.
  Implicit Types (vs us bag : list T) (x y : T) (c : Cmp) (t : list bool).

Definition ctor_of (r : option T) : M (vec T) T := match r with Some x => ret x | None => throw end.

Definition pq_exec (op : pq_op T) : M (pqueue Cmp T) (pq_answer T) :=
  match op with
  | PqPush r => PriorityQueue.push h C moved torn (ctor_of r) ;;; ret PqUnit
  | PqTryPush r => let! b := PriorityQueue.try_push h C moved torn (ctor_of r) in ret (PqBool b)
  | PqPop => PriorityQueue.pop h C moved torn ;;; ret PqUnit
  | PqTop => let! i := PriorityQueue.top h in let! x := on_storage (slot_ref i) in ret (PqElement x)
  | PqEraseIf pred => let! n := PriorityQueue.erase_if h C moved torn pred in ret (PqNumber n)
  | PqClear => PriorityQueue.clear ;;; ret PqUnit
  | PqSize => let! n := get PriorityQueue.size in ret (PqNumber n)
  end.

(** A client that catches what is thrown and goes on; an abort ends the run. *)
Fixpoint pq_run (ops : list (pq_op T)) (q : pqueue Cmp T) : option (list (pq_answer T)) :=
  match ops with
  | [] => Some []
  | op :: ops' =>
      match pq_exec op q with
      | Ret a q' => cons a <$> pq_run ops' q'
      | Throw q' => cons PqThrown <$> pq_run ops' q'
      | Trap => Some [PqAborted]
      | Fault | Spin => None
      end
  end.

(** ** The bag *)

(** [x] is in the bag and nothing in it should come out before. *)
Definition greatest c x bag : Prop := x ∈ bag /\ forall y, y ∈ bag -> less c x y = false.

(** [fails] is whether an element operation may throw.  One that does while the
    heap is being reordered empties the queue. *)
Inductive pq_step c (fails : Prop) bag : pq_op T -> pq_answer T -> list T -> Prop :=
  | StepPush x bag' :
      Z.of_nat (length bag) < C -> bag' ≡ₚ x :: bag -> pq_step c fails bag (PqPush (Some x)) PqUnit bag'
  | StepTryPush x bag' :
      Z.of_nat (length bag) < C -> bag' ≡ₚ x :: bag ->
      pq_step c fails bag (PqTryPush (Some x)) (PqBool true) bag'
  | StepTryFull r : Z.of_nat (length bag) = C -> pq_step c fails bag (PqTryPush r) (PqBool false) bag
  | StepPushThrows : Z.of_nat (length bag) < C -> pq_step c fails bag (PqPush None) PqThrown bag
  | StepTryPushThrows : Z.of_nat (length bag) < C -> pq_step c fails bag (PqTryPush None) PqThrown bag
  | StepPop x bag' : greatest c x bag -> bag ≡ₚ x :: bag' -> pq_step c fails bag PqPop PqUnit bag'
  | StepTop x : greatest c x bag -> pq_step c fails bag PqTop (PqElement x) bag
  | StepEraseIf pred bag' :
      bag' ≡ₚ List.filter (fun x => negb (pred x)) bag ->
      pq_step c fails bag (PqEraseIf pred) (PqNumber (Z.of_nat (length bag) - Z.of_nat (length bag'))) bag'
  | StepClear : pq_step c fails bag PqClear PqUnit []
  | StepSize : pq_step c fails bag PqSize (PqNumber (Z.of_nat (length bag))) bag
  | StepReorderThrows op :
      fails -> (op = PqPop \/ (exists x, op = PqPush (Some x) \/ op = PqTryPush (Some x)) \/
        exists pred, op = PqEraseIf pred) -> pq_step c fails bag op PqThrown [].

(** The contracts: a push needs room, [pop] and [top] an element. *)
Definition pq_forbidden bag (op : pq_op T) : Prop :=
  match op with
  | PqPush _ => Z.of_nat (length bag) = C
  | PqPop | PqTop => bag = []
  | _ => False
  end.

Inductive pq_history c (fails : Prop) : list T -> list (pq_op T) -> list (pq_answer T) -> Prop :=
  | HistoryEnd bag : pq_history c fails bag [] []
  | HistoryAbort bag op ops : pq_forbidden bag op -> pq_history c fails bag (op :: ops) [PqAborted]
  | HistoryStep bag op a bag' ops answers :
      pq_step c fails bag op a bag' -> pq_history c fails bag' ops answers ->
      pq_history c fails bag (op :: ops) (a :: answers).

(** ** The heap implements the bag *)

Definition heap_holds c (fails : Prop) bag (q : pqueue Cmp T) : Prop :=
  exists vs t, q = pq_of C c t vs /\ heap c vs /\ vs ≡ₚ bag /\ Z.of_nat (length bag) <= C /\ (true ∈ t -> fails).

(** One operation: what it does is a step of the bag, or an abort of a
    forbidden call. *)
Definition simulates c (fails : Prop) bag (op : pq_op T) (q : pqueue Cmp T) : Prop :=
  match pq_exec op q with
  | Ret a q' => exists bag', pq_step c fails bag op a bag' /\ heap_holds c fails bag' q'
  | Throw q' => exists bag', pq_step c fails bag op PqThrown bag' /\ heap_holds c fails bag' q'
  | Trap => pq_forbidden bag op
  | Fault | Spin => False
  end.

Lemma heap_holds_now c (fails : Prop) t vs bag :
  heap c vs -> vs ≡ₚ bag -> Z.of_nat (length bag) <= C -> (true ∈ t -> fails) ->
  heap_holds c fails bag (pq_of C c t vs).
Proof. intros. by exists vs, t. Qed.

Lemma wp_simulates {A} (m : M (pqueue Cmp T) A) (f : A -> pq_answer T) Q c (fails : Prop) t bag op q :
  wp m Q (emptied C c t) q -> pq_exec op = bind m (fun a => ret (f a)) -> (true ∈ t -> fails) ->
  (fails -> pq_step c fails bag op PqThrown []) ->
  (forall a q', Q a q' -> exists bag', pq_step c fails bag op (f a) bag' /\ heap_holds c fails bag' q') ->
  simulates c fails bag op q.
Proof.
  unfold wp, simulates. intros Hw -> Ht Hthrow Hret. unfold bind. destruct (m q) as [a q'|q'| | |]; [by apply Hret| |done..].
  destruct Hw as (Htt & t' & ->). exists []. split; [auto|]. pose proof (capacity_bounds C).
  apply heap_holds_now; [by intros j ????|done|cbn; lia|auto].
Qed.

Lemma reordered c (fails : Prop) t vs bag q :
  (true ∈ t -> fails) -> Z.of_nat (length bag) <= C ->
  (exists us, us ≡ₚ vs /\ heap c us /\ holding C c t us q) -> vs ≡ₚ bag -> heap_holds c fails bag q.
Proof.
  intros Hf Hl (us & Hp & Hh & t' & Hlt & ->) Hb. apply heap_holds_now; [done|by rewrite Hp|done|auto].
Qed.

Lemma simulates_push c (fails : Prop) t vs bag r :
  h <> HARDENING_NONE -> heap c vs -> vs ≡ₚ bag -> Z.of_nat (length bag) <= C -> (true ∈ t -> fails) ->
  simulates c fails bag (PqPush r) (pq_of C c t vs) /\ simulates c fails bag (PqTryPush r) (pq_of C c t vs).
Proof.
  intros Hh Hhp Hp Hl Hf. pose proof (Permutation_length Hp) as Hn. rewrite <- Hn in Hl.
  destruct (decide (Z.of_nat (length vs) = C)) as [E|].
  { split; unfold simulates, pq_exec.
    - unfold PriorityQueue.push, PriorityQueue.emplace. rewrite !bind_assoc.
      erewrite bind_Trap; [cbn; lia|]. unfold on_storage. cbn [pq_of qstorage_]. unfold FixedVector.emplace_back. mstep.
      erewrite bind_Ret; [|apply vec_try_emplace_full; by rewrite length_fmap].
      by rewrite (bind_Trap _ _ _ (metl_assert_false h _ Hh)).
    - unfold PriorityQueue.try_push. erewrite bind_Ret; [|by apply pq_try_emplace_full]. cbn.
      exists bag. split; [apply StepTryFull; lia|by apply heap_holds_now; [..|lia|]]. }
  assert (Z.of_nat (length vs) < C) as Hlt by lia. destruct r as [x|].
  - assert (x :: vs ≡ₚ x :: bag) as Hx by (by rewrite Hp). split.
    + eapply (wp_simulates _ (fun _ => PqUnit)); [by apply (wp_emplace h C moved torn c t vs x)|done|done|..].
      * intros. apply StepReorderThrows; [done|]. right. left. exists x. by left.
      * intros ? q Hq. exists (x :: bag). split; [apply StepPush; [lia|done]|]. eapply reordered; [exact Hf| |exact Hq|done].
        cbn. lia.
    + eapply (wp_simulates _ PqBool); [by apply (wp_try_emplace h C moved torn c t vs x)|done|done|..].
      * intros. apply StepReorderThrows; [done|]. right. left. exists x. by right.
      * intros b q [-> Hq]. exists (x :: bag). split; [apply StepTryPush; [lia|done]|].
        eapply reordered; [exact Hf| |exact Hq|done]. cbn. lia.
  - split; unfold simulates, pq_exec.
    + erewrite bind_Throw; [|by apply pq_emplace_throw]. exists bag.
      split; [apply StepPushThrows; lia|by apply heap_holds_now; [..|lia|]].
    + erewrite bind_Throw; [|by apply pq_try_emplace_throw]. exists bag.
      split; [apply StepTryPushThrows; lia|by apply heap_holds_now; [..|lia|]].
Qed.

Lemma simulates_pop c (fails : Prop) t vs bag :
  h <> HARDENING_NONE -> heap c vs -> vs ≡ₚ bag -> Z.of_nat (length bag) <= C -> (true ∈ t -> fails) ->
  simulates c fails bag PqPop (pq_of C c t vs) /\ simulates c fails bag PqTop (pq_of C c t vs).
Proof.
  intros Hh Hhp Hp Hl Hf. destruct vs as [|x vs].
  { apply Permutation_nil_l in Hp as <-. split; unfold simulates, pq_exec.
    - by erewrite bind_Trap.
    - erewrite bind_Trap; [done|]. unfold PriorityQueue.top, on_storage, FixedVector.front. cbn [pq_of qstorage_].
      mstep. rewrite vsize_hold. cbn [length]. zbool. by rewrite (bind_Trap _ _ _ (metl_assert_false h _ Hh)). }
  pose proof (Permutation_length Hp) as Hn. assert (greatest c x bag) as Hg.
  { split; [rewrite <- Hp; by left|]. intros y Hy. rewrite <- Hp in Hy. by apply (heap_root c (x :: vs) x Hhp eq_refl). }
  split.
  - eapply (wp_simulates _ (fun _ => PqUnit)); [apply (wp_pop h C moved torn c t x vs); [by rewrite Hn|done]|done|done|..].
    + intros. apply StepReorderThrows; [done|by left].
    + intros ? q Hq. exists vs. split; [by apply (StepPop _ _ _ x)|].
      eapply reordered; [exact Hf| |exact Hq|done]. cbn in Hn. lia.
  - unfold simulates, pq_exec. erewrite bind_Ret; [|apply pq_top]. erewrite bind_Ret; [|by apply (ref_Ret C c t _ 0 x)].
    exists bag. split; [by apply StepTop|by apply heap_holds_now].
Qed.

Lemma filter_perm (f : T -> bool) vs us : vs ≡ₚ us -> List.filter f vs ≡ₚ List.filter f us.
Proof.
  induction 1 as [|x xs ys _ IH|x y xs|xs ys zs _ IH1 _ IH2]; cbn; [done| | |by etrans].
  - destruct (f x); [by constructor|done].
  - destruct (f x), (f y); try done. constructor.
Qed.

Lemma simulates_rest c (fails : Prop) t vs bag op :
  heap c vs -> vs ≡ₚ bag -> Z.of_nat (length bag) <= C -> (true ∈ t -> fails) ->
  (exists pred, op = PqEraseIf pred) \/ op = PqClear \/ op = PqSize ->
  simulates c fails bag op (pq_of C c t vs).
Proof.
  intros Hhp Hp Hl Hf Hop. pose proof (Permutation_length Hp) as Hn. pose proof (capacity_bounds C).
  destruct Hop as [[pred ->]|[->| ->]].
  - eapply (wp_simulates _ PqNumber); [apply (wp_erase_if h C moved torn pred c t vs); lia|done|done|..].
    + intros. apply StepReorderThrows; [done|]. right. right. by exists pred.
    + intros n q [-> Hq]. pose proof (filter_perm (fun x => negb (pred x)) vs bag Hp) as Hk.
      exists (List.filter (fun x => negb (pred x)) bag). split.
      { rewrite (Permutation_length Hk), Hn. by apply StepEraseIf. }
      eapply reordered; [exact Hf| |exact Hq|done]. pose proof (List.filter_length_le (fun x => negb (pred x)) bag). lia.
  - unfold simulates, pq_exec. erewrite bind_Ret; [|apply (pq_clear C); lia]. exists []. split; [apply StepClear|].
    apply heap_holds_now; [by intros j ????|done|cbn; lia|done].
  - unfold simulates, pq_exec. mstep. exists bag. rewrite pq_size, Hn. split; [apply StepSize|by apply heap_holds_now].
Qed.

Lemma simulates_all c (fails : Prop) bag op q :
  h <> HARDENING_NONE -> heap_holds c fails bag q -> simulates c fails bag op q.
Proof.
  intros Hh (vs & t & -> & Hhp & Hp & Hl & Hf).
  destruct op as [r|r| | |pred| |];
    [by eapply simulates_push|by eapply simulates_push|by eapply simulates_pop|by eapply simulates_pop|
     apply simulates_rest; naive_solver..].
Qed.
End priority_queue_claims.

(** C6. Whatever operations a client calls on a new [fixed_priority_queue], whatever
    their element constructors do, and whichever element moves, comparisons and
    predicate calls throw, each call answers as a bag does that yields a greatest
    element first: [push] and [try_push] add one, or throw and leave the bag as it
    was if the constructor throws; [top] and [pop] are about an element that no
    other one should come out before; [erase_if] removes what the predicate says
    and counts it.  An exception while the heap is being reordered leaves the queue
    empty, and there is none unless an element operation throws.  A [push] into a
    full queue and a [top] or [pop] of an empty one abort, where checks are on.
    No run faults, and none exceeds the [log2 Capacity] levels that a sift may
    touch. *)
Theorem priority_queue_refines `{SizeT} {Cmp T : Type} `{!Comparator Cmp T T, !StrictWeakOrder Cmp T}
    (h : hardening) (C : Z) (moved torn : T -> T) `{!CapacityOk C} (c : Cmp) (throws : list bool) (ops : list (pq_op T)) :
  h <> HARDENING_NONE ->
  exists answers, pq_run h C moved torn ops (PriorityQueue.priority_queue C c throws) = Some answers /\
    pq_history C c (true ∈ throws) [] ops answers.
Proof.
  intros Hh. assert (heap_holds C c (true ∈ throws) [] (PriorityQueue.priority_queue C c throws)) as Hq.
  { pose proof (capacity_bounds C). exists [], throws. split_and!; [|by intros j ????|done|cbn; lia|done].
    unfold PriorityQueue.priority_queue, pq_of, hold. by rewrite (vec_init C). }
  revert Hq. generalize (PriorityQueue.priority_queue (T := T) C c throws) as q, (@nil T) as bag.
  induction ops as [|op ops IH]; intros q bag Hq; cbn [pq_run]; [exists []; split; [done|constructor]|].
  pose proof (simulates_all h C moved torn c _ bag op q Hh Hq) as Hs. unfold simulates in Hs.
  destruct (pq_exec h C moved torn op q) as [a q'|q'| | |]; [| | |done|done].
  - destruct Hs as (bag' & Hst & Hq'). destruct (IH q' bag' Hq') as (answers & -> & Hr).
    exists (a :: answers). split; [done|by econstructor].
  - destruct Hs as (bag' & Hst & Hq'). destruct (IH q' bag' Hq') as (answers & -> & Hr).
    exists (PqThrown :: answers). split; [done|by econstructor].
  - exists [PqAborted]. split; [done|by constructor].
Qed.

(** *** A comparator with a state, for examples: whether the order is reversed *)

#[local] Instance reversible_less : Comparator bool Z Z := fun (reversed : bool) a b => if reversed then b <? a else a <? b.

#[local] Instance reversible_order : StrictWeakOrder bool Z.
Proof.
  split; unfold less, reversible_less; intros [] *; try rewrite !Z.ltb_lt; try lia.
  all: try apply Z.ltb_irrefl; destruct (Z.ltb_spec a b), (Z.ltb_spec b d); lia.
Qed.

Lemma priority_queue_refines_witness :
  HARDENING_FAST <> HARDENING_NONE /\
  let _ := size_t_32 in let ops := [PqPush (Some 3); PqTryPush (Some 5); PqPush (Some 4); PqTop; PqPop; PqPush None;
    PqPush (Some 9); PqPop; PqPop] in
  exists answers, pq_run HARDENING_FAST 4 (fun _ => 0) (fun _ => 0) ops (PriorityQueue.priority_queue 4 false []) = Some answers /\
    pq_history 4 false (true ∈ []) [] ops answers.
Proof.
  split; [done|]. cbn zeta.
  exact (priority_queue_refines (H := size_t_32) HARDENING_FAST 4 (fun _ => 0) (fun _ => 0)
    (CapacityOk0 := ltac:(split; cbn; lia)) false [] _ ltac:(done)).
Defined.

(** A run in which the sixth comparison throws: the queue is empty afterwards. *)
Example priority_queue_run :
  let _ := size_t_32 in
  pq_run HARDENING_FAST 4 (fun _ => 0) (fun _ => 0)
    [PqPush (Some 3); PqPush (Some 5); PqPush (Some 4); PqTop; PqPop; PqTop; PqSize; PqTryPush (Some 8); PqSize]
    (PriorityQueue.priority_queue 4 false [false; false; false; false; false; false; false; true]) =
  Some [PqUnit; PqUnit; PqUnit; PqElement 5; PqUnit; PqElement 4; PqNumber 2; PqThrown; PqNumber 0].
Proof. vm_compute. reflexivity. Qed.

(** Whole queues.  [swap] of two queues exchanges their elements, slot by slot,
    and their comparators, so that each is a heap if the other was; if a move or a
    swap of an element or of the comparators throws, both queues are left empty.
    Assignment, when nothing throws, gives a queue the elements and the comparator
    of the other, which a copy leaves as it is and a move leaves empty. *)
Theorem priority_queue_swap_assign `{SizeT} {Cmp T : Type} `{!Comparator Cmp T T, !StrictWeakOrder Cmp T}
    (h : hardening) (C : Z) (moved torn : T -> T) `{!CapacityOk C} (torn_comp moved_comp : Cmp -> Cmp)
    (c1 c2 : Cmp) (t1 t2 : list bool) (us vs : list T) :
  Z.of_nat (length us) <= C -> Z.of_nat (length vs) <= C ->
  (forall swap_cannot_throw : bool, (swap_cannot_throw = true -> true ∉ t1 ++ t2) ->
    match PriorityQueue.swap moved torn torn_comp swap_cannot_throw false (pq_of C c1 t1 us, pq_of C c2 t2 vs) with
    | Ret _ s => exists t1' t2', s = (pq_of C c2 t1' vs, pq_of C c1 t2' us) /\
        (heap c1 us -> heap c2 vs -> heap (qcomp_ s.1) vs /\ heap (qcomp_ s.2) us)
    | Throw s => true ∈ t1 ++ t2 /\ exists d1 d2 t1' t2', s = (pq_of C d1 t1' [], pq_of C d2 t2' [])
    | _ => False
    end) /\
  (true ∉ t1 ++ t2 ->
    (exists t1' t2', PriorityQueue.copy_assign h C false (pq_of C c1 t1 us, pq_of C c2 t2 vs) =
      Ret tt (pq_of C c2 t1' vs, pq_of C c2 t2' vs)) /\
    exists t1' t2', PriorityQueue.move_assign h C moved torn moved_comp false (pq_of C c1 t1 us, pq_of C c2 t2 vs) =
      Ret tt (pq_of C c2 t1' vs, pq_of C (moved_comp c2) t2' [])).
Proof.
  intros Hu Hv. split.
  - intros cannot Hc. pose proof (wp_swap C moved torn torn_comp cannot c1 c2 t1 t2 us vs Hu Hv Hc) as Hw.
    unfold wp, pair_of in Hw. destruct (PriorityQueue.swap _ _ _ _ _ _) as [[] s|s| | |]; [|done|done..].
    destruct Hw as (t1' & t2' & _ & ->). exists t1', t2'. split; [done|]. intros. by split.
  - intros Ht. assert (quiet_until t1 (length vs)) as Hq by (apply quiet_never; contradict Ht; apply elem_of_app; by left).
    split; eexists _, _; [by apply copy_assign_ret|by apply move_assign_ret].
Qed.

Lemma priority_queue_swap_assign_witness :
  let _ := size_t_32 in
  Z.of_nat (length [5; 4]) <= 4 /\ Z.of_nat (length [1; 2; 3]) <= 4 /\ (true ∉ @nil bool ++ []) /\
  exists t1' t2', PriorityQueue.copy_assign HARDENING_FAST 4 false (pq_of 4 false [] [5; 4], pq_of 4 true [] [1; 2; 3]) =
      Ret tt (pq_of 4 true t1' [1; 2; 3], pq_of 4 true t2' [1; 2; 3]).
Proof.
  cbn zeta. assert (true ∉ @nil bool ++ []) as Hn by (by intros ?%elem_of_nil).
  split; [cbn; lia|split; [cbn; lia|split; [exact Hn|]]].
  exact (proj1 (proj2 (priority_queue_swap_assign (H := size_t_32) HARDENING_FAST 4 (fun _ => 0) (fun _ => 0)
    (CapacityOk0 := ltac:(split; cbn; lia)) id id false true [] [] [5; 4] [1; 2; 3] ltac:(cbn; lia) ltac:(cbn; lia)) Hn)).
Defined.

Lemma prefix_heap `{!Comparator Cmp T T} (c : Cmp) (k : nat) (vs : list T) :
  heap c (take k vs) <->
  (forall j x y, (0 < j < k)%nat -> vs !! parent j = Some x -> vs !! j = Some y -> less c x y = false).
Proof.
  split.
  - intros Hh j x y [Hj Hk] Hx Hy. pose proof (parent_lt j Hj). apply (Hh j); [done|by rewrite lookup_take_lt by lia..].
  - intros Ho j x y Hj [Hx _]%lookup_take_Some [Hy ?]%lookup_take_Some. by apply (Ho j).
Qed.

(** C40. The implicit assignment operators, whatever throws.  Where none of the
    element copies or moves throws, the queue has the elements and the comparator of
    the other, which is left as it was or empty.  Where the first to throw is that of
    the [k]th element, the operator does not keep the rule that an exception leaves
    a heap or an empty queue: it leaves the first [k] elements of the other queue
    under the old comparator, which is a heap exactly if that comparator happens to
    order them so, and a move leaves [k] moved-from elements in front of the others,
    which is no heap as soon as one of them, as the parent of an element that was not
    moved, ranks below it. *)
Theorem priority_queue_assign_exact `{SizeT} {Cmp T : Type} `{!Comparator Cmp T T}
    (h : hardening) (C : Z) (moved torn : T -> T) `{!CapacityOk C} (moved_comp : Cmp -> Cmp)
    (c1 c2 : Cmp) (t1 t2 : list bool) (us vs : list T) :
  Z.of_nat (length us) <= C -> Z.of_nat (length vs) <= C ->
  let copy := PriorityQueue.copy_assign h C false (pq_of C c1 t1 us, pq_of C c2 t2 vs) in
  let move := PriorityQueue.move_assign h C moved torn moved_comp false (pq_of C c1 t1 us, pq_of C c2 t2 vs) in
  (quiet_until t1 (length vs) ->
    copy = Ret tt (pq_of C c2 (drop (length vs) t1) vs, pq_of C c2 t2 vs) /\
    move = Ret tt (pq_of C c2 (drop (length vs) t1) vs, pq_of C (moved_comp c2) t2 [])) /\
  (forall (k : nat) v, quiet_until t1 k -> t1 !! k = Some true -> vs !! k = Some v ->
    let left := (moved <$> take k vs) ++ torn v :: drop (S k) vs in
    copy = Throw (pq_of C c1 (drop (S k) t1) (take k vs), pq_of C c2 t2 vs) /\
    move = Throw (pq_of C c1 (drop (S k) t1) (take k vs), pq_of C c2 t2 left) /\
    (heap c1 (take k vs) <->
      forall j x y, (0 < j < k)%nat -> vs !! parent j = Some x -> vs !! j = Some y -> less c1 x y = false) /\
    (forall j x y, (parent j < k < j)%nat -> vs !! parent j = Some x -> vs !! j = Some y ->
      less c2 (moved x) y = true -> ~ heap c2 left)).
Proof.
  intros Hu Hl copy move. split.
  - intros Hq. split; [by apply copy_assign_ret|by apply move_assign_ret].
  - intros k v Hq Ht Hv left. pose proof (lookup_lt_Some _ _ _ Hv).
    assert (<[k := torn v]> (moved_away moved k vs) = left) as El.
    { unfold moved_away, left. rewrite fmap_take, (drop_S _ _ _ Hv). rewrite insert_app_r_alt; rewrite length_take, length_fmap; [|lia].
      by replace (k - k `min` length vs)%nat with 0%nat by lia. }
    split; [by apply (copy_assign_throw h C c1 c2 t1 t2 us vs k v)|].
    split; [rewrite <- El; by apply (move_assign_throw h C moved torn moved_comp c1 c2 t1 t2 us vs k v)|].
    split; [apply prefix_heap|]. intros j x y [Hp Hj] Hx Hy Hless Hh. assert (outranks c2 (moved x) y); [|unfold outranks in *; congruence].
    apply (Hh j); [lia| |].
    + unfold left. rewrite lookup_app_l by (rewrite length_fmap, length_take; lia). by rewrite list_lookup_fmap, lookup_take_lt, Hx by lia.
    + rewrite <- El, list_lookup_insert_ne by lia. unfold moved_away.
      rewrite lookup_app_r by (rewrite length_take, length_fmap; lia). rewrite lookup_drop, length_take, length_fmap, <- Hy. f_equal. lia.
Qed.

(** The heap [5; 4; 3] copied to a queue that yields the least element first, where
    the third copy throws with [5; 4] in it; and moved, where the second move throws
    with 0, the moved-from 5, in front of [4; 3]. *)
Lemma priority_queue_assign_exact_witness :
  let _ := size_t_32 in
  let heap543 := pq_of 4 false [] [5; 4; 3] in
  heap (T := Z) false [5; 4; 3] /\
  (PriorityQueue.copy_assign HARDENING_DEBUG 4 false (pq_of 4 true [false; false; true] [], heap543) =
     Throw (pq_of 4 true [] [5; 4], heap543) /\ ~ heap true [5; 4]) /\
  (PriorityQueue.move_assign HARDENING_DEBUG 4 (fun _ => 0) (fun x => x) id false (pq_of 4 false [false; true] [], heap543) =
     Throw (pq_of 4 false [] [5], pq_of 4 false [] [0; 4; 3]) /\ ~ heap false [0; 4; 3]).
Proof.
  cbn zeta. assert (heap (T := Z) false [5; 4; 3]) as H543.
  { intros [|[|[|j]]] x y Hj Hx Hy; cbn in *; simplify_eq; [lia|done|done]. }
  pose (ok := ltac:(split; cbn; lia) : CapacityOk (H := size_t_32) 4).
  destruct (priority_queue_assign_exact (H := size_t_32) HARDENING_DEBUG 4 (fun _ => 0) (fun x => x) (CapacityOk0 := ok) id
    true false [false; false; true] [] [] [5; 4; 3] ltac:(cbn; lia) ltac:(cbn; lia)) as [_ Hc].
  destruct (priority_queue_assign_exact (H := size_t_32) HARDENING_DEBUG 4 (fun _ => 0) (fun x => x) (CapacityOk0 := ok) id
    false false [false; true] [] [] [5; 4; 3] ltac:(cbn; lia) ltac:(cbn; lia)) as [_ Hm].
  destruct (Hc 2%nat 3) as (Ec & _ & Hh & _); [by intros [|[|i]] Hi; [done|done|lia]|done|done|].
  destruct (Hm 1%nat 4) as (_ & Em & _ & Hn); [by intros [|i] Hi; [done|lia]|done|done|].
  split; [exact H543|split; split; [exact Ec| |exact Em|]].
  - intros Hp. by pose proof (proj1 Hh Hp 1%nat 5 4 ltac:(lia) eq_refl eq_refl).
  - by apply (Hn 2%nat 5 3); [cbn; lia|..].
Defined.
