(* ===== verification/Flat.v ===== *)
(** * [flat_set] and [flat_map]

    [include/metl/flat_set.hpp] and [include/metl/flat_map.hpp]: sorted arrays
    of unique keys.  The two headers have the same machinery; [FlatCore] is it,
    over entries [V] with a key [key_of], and [FlatSet] and [FlatMap] are the two
    classes ([key_of] is the identity in one and the first field in the other).

    An element's move may throw.  [fthrows_] is the environment's script: for
    each coming element move, whether it throws; after its end none do.  A move
    that returns leaves [moved v] in its source, one that throws leaves [torn v],
    both arbitrary.  [moves_assign] is [std::is_move_assignable_v<value_type>],
    [relocate_cannot_throw] the constant of that name.  The comparator is an
    object in the container; its call operator, at the types it is called with,
    is the class [Comparator].  An iterator is an index, except in
    [erase(const_iterator)], whose checks compare addresses. *)

From Stdlib Require Import ZArith Lia.
From stdpp Require Import base numbers list option tactics.
From S2P Require Import Prelude.
Local Open Scope Z_scope.

Record flat (Cmp V : Type) : Type := mk_flat {
  fcomp_ : Cmp;
  fstorage_ : slots V;
  fsize_ : Z;
  fthrows_ : list bool
}.
Arguments mk_flat {Cmp V} _ _ _ _.
Arguments fcomp_ {Cmp V} _.
Arguments fstorage_ {Cmp V} _.
Arguments fsize_ {Cmp V} _.
Arguments fthrows_ {Cmp V} _.

#[export] Instance flat_has_slots Cmp V : HasSlots (flat Cmp V) V := {|
  get_slots := fstorage_;
  set_slots st f := mk_flat (fcomp_ f) st (fsize_ f) (fthrows_ f);
  get_set_slots st f := eq_refl
|}.

Section setters.
  Context {Cmp V : Type}.
Definition set_fsize (n : Z) (f : flat Cmp V) : flat Cmp V := mk_flat (fcomp_ f) (fstorage_ f) n (fthrows_ f).
Definition set_fcomp (c : Cmp) (f : flat Cmp V) : flat Cmp V := mk_flat c (fstorage_ f) (fsize_ f) (fthrows_ f).
Definition set_fthrows (t : list bool) (f : flat Cmp V) : flat Cmp V :=
  mk_flat (fcomp_ f) (fstorage_ f) (fsize_ f) t.
End setters.

Module FlatCore.
Section flat_core.
  Context `{SizeT} {Cmp K V : Type} (key_of : V -> K) (Capacity : Z).
  Context (moved torn : V -> V) (moves_assign relocate_cannot_throw : bool).

Definition slot_count : nat := Z.to_nat (if Capacity =? 0 then 1 else Capacity).

(** [flat_set(comp)]; [throws] is what the moves to come will do. *)
Definition flat_with (comp : Cmp) (throws : list bool) : flat Cmp V :=
  mk_flat comp (replicate slot_count None) 0 throws.

Definition full (f : flat Cmp V) : bool := fsize_ f =? Capacity.

(** *** Element moves *)

(** Whether the next move throws. *)
Definition next_throws : M (flat Cmp V) bool :=
  let! t := get fthrows_ in
  modify (set_fthrows (tail t)) ;;;
  ret (match t with b :: _ => b | [] => false end).

(** The argument [static_cast<value_type&&>(data()[j])] of a move. *)
Definition move_from (j : Z) : M (flat Cmp V) V :=
  let! v := slot_ref j in
  let! b := next_throws in
  if b then slot_assign j (torn v) ;;; throw
  else slot_assign j (moved v) ;;; ret v.

(** The argument [static_cast<value_type&&>(entry)], a local. *)
Definition move_entry (entry : V) : M (flat Cmp V) V :=
  let! b := next_throws in if b then throw else ret entry.

(** A copy of an element of another container, which may throw as a move may. *)
Definition copy_of (x : V) : M (flat Cmp V) V := move_entry x.

(** [::new (storage_.slot(i)) value_type(static_cast<value_type&&>(data()[j]))]. *)
Definition construct_from (i j : Z) : M (flat Cmp V) unit :=
  let! v := move_from j in slot_construct i v.

(** [data()[i] = static_cast<value_type&&>(data()[j])]. *)
Definition assign_from (i j : Z) : M (flat Cmp V) unit :=
  let! v := move_from j in slot_assign i v.

Definition grow : M (flat Cmp V) unit := modify (fun f => set_fsize (wrap (fsize_ f + 1)) f).

(** *** Removal *)

Definition clear : M (flat Cmp V) unit := fun f =>
  while_loop (Z.to_nat (fsize_ f)) (fun f => 0 <? fsize_ f)
    (modify (fun f => set_fsize (wrap (fsize_ f - 1)) f) ;;;
     let! n := get fsize_ in slot_destroy n) f.

(** The handlers: destroy [0, i) and [i + 1, last), and empty the container. *)
Definition destroy_around (i last : Z) : M (flat Cmp V) unit :=
  for_up (Z.to_nat i) 0 (fun j => slot_destroy j) ;;;
  for_up (Z.to_nat (last - (i + 1))) (i + 1) (fun j => slot_destroy j) ;;;
  modify (set_fsize 0).

(** The loop that closes the gap at [index]; its handler runs for the [i] at
    which a move threw. *)
Definition close_gap (index : Z) : M (flat Cmp V) unit :=
  let! n := get fsize_ in
  for_up (Z.to_nat (n - 1 - index)) index (fun i =>
    let relocate := construct_from i (i + 1) ;;; slot_destroy (i + 1) in
    if relocate_cannot_throw then relocate else guarded relocate (destroy_around i n)).

Definition erase_at (index : Z) : M (flat Cmp V) unit :=
  let! leaving := move_from index in
  slot_destroy index ;;;
  close_gap index ;;;
  modify (fun f => set_fsize (wrap (fsize_ f - 1)) f).

(** *** Insertion *)

Definition shift_right_from (index : Z) : M (flat Cmp V) unit :=
  let! n := get fsize_ in
  for_down (Z.to_nat (n - index)) n (fun i =>
    guarded (construct_from i (i - 1) ;;; slot_destroy (i - 1)) (destroy_around i (n + 1))).

Definition insert_shifting (index : Z) (entry : V) : M (flat Cmp V) unit :=
  let! n := get fsize_ in
  if moves_assign then
    if index =? n then
      (let! v := move_entry entry in slot_construct n v) ;;; grow
    else
      construct_from n (wrap (n - 1)) ;;;
      grow ;;;
      let! n' := get fsize_ in
      guarded
        (for_down (Z.to_nat (wrap (n' - 2) - index)) (wrap (n' - 2)) (fun i => assign_from i (i - 1)) ;;;
         let! v := move_entry entry in slot_assign index v)
        clear
  else
    shift_right_from index ;;;
    guarded (let! v := move_entry entry in slot_construct index v) (destroy_around index (n + 1)) ;;;
    grow.

(** [try_insert_at]; [entry] is how the entry is built from the arguments,
    which may refer to elements of the container. *)
Definition try_insert_at (index : Z) (entry : M (flat Cmp V) V) : M (flat Cmp V) bool :=
  let! f := get full in
  if f then ret false
  else
    let! e := entry in
    insert_shifting index e ;;;
    ret true.

(** *** Binary search

    [right] is the loop's condition for continuing to the right of [index].  The
    fuel is the number of comparisons the header documents,
    [floor(log2(count)) + 1]. *)
Fixpoint search (fuel : nat) (right : Cmp -> V -> bool) (first count : Z) : M (flat Cmp V) Z :=
  if count <=? 0 then ret first
  else
    match fuel with
    | O => fun _ => Spin
    | S fuel' =>
        let step := count / 2 in
        let index := wrap (first + step) in
        let! v := slot_ref index in
        let! c := get fcomp_ in
        if right c v then search fuel' right (wrap (index + 1)) (wrap (count - wrap (step + 1)))
        else search fuel' right first step
    end.

Definition search_fuel (count : Z) : nat := Z.to_nat (Z.log2 count + 1).

Section lookup.
  Context {Q : Type} `{!Comparator Cmp K Q, !Comparator Cmp Q K}.
  Implicit Types key : Q.

Definition lower_bound_index key : M (flat Cmp V) Z :=
  let! n := get fsize_ in
  search (search_fuel n) (fun c v => less c (key_of v) key) 0 n.

Definition upper_bound_index key : M (flat Cmp V) Z :=
  let! n := get fsize_ in
  search (search_fuel n) (fun c v => negb (less c key (key_of v))) 0 n.

Definition upper_bound_index_from key (lo : Z) : M (flat Cmp V) Z :=
  let! n := get fsize_ in
  search (search_fuel (wrap (n - lo))) (fun c v => negb (less c key (key_of v))) lo (wrap (n - lo)).

Definition equal_range key : M (flat Cmp V) (Z * Z) :=
  let! lo := lower_bound_index key in
  let! hi := upper_bound_index_from key lo in
  ret (lo, hi).

(** [index < size_ && !comp_(key, data()[index])]. *)
Definition found_at key (index : Z) : M (flat Cmp V) bool :=
  let! n := get fsize_ in
  if index <? n then
    let! v := slot_ref index in
    let! c := get fcomp_ in
    ret (negb (less c key (key_of v)))
  else ret false.

(** [nullptr] is [None]. *)
Definition find key : M (flat Cmp V) (option Z) :=
  let! index := lower_bound_index key in
  let! b := found_at key index in
  ret (if b then Some index else None).

Definition contains key : M (flat Cmp V) bool :=
  let! p := find key in ret (match p with Some _ => true | None => false end).

Definition erase key : M (flat Cmp V) bool :=
  let! index := lower_bound_index key in
  let! b := found_at key index in
  if negb b then ret false
  else erase_at index ;;; ret true.
End lookup.

(** *** Positions as addresses *)

Section position.
  Context (data sizeof_value : Z).

Definition position_index (pos : Z) : M (flat Cmp V) Z :=
  let! n := get fsize_ in
  let offset := wrap (pos - data) in
  metl_harden (offset <? n * sizeof_value) ;;;
  metl_harden (offset mod sizeof_value =? 0) ;;;
  ret (offset / sizeof_value).

Definition erase_pos (pos : Z) : M (flat Cmp V) Z :=
  let! index := position_index pos in
  erase_at index ;;;
  let! n := get fsize_ in
  ret (data + (if index <? n then index else n) * sizeof_value).

(** [erase_if]; each turn erases an element or steps over one, so [size_] turns
    are enough. *)
Fixpoint erase_if_from (pred : V -> bool) (fuel : nat) (it erased : Z) : M (flat Cmp V) Z :=
  let! n := get fsize_ in
  if it =? data + n * sizeof_value then ret erased
  else
    match fuel with
    | O => fun _ => Spin
    | S fuel' =>
        let! v := slot_ref ((it - data) / sizeof_value) in
        if pred v then
          let! it' := erase_pos it in erase_if_from pred fuel' it' (erased + 1)
        else erase_if_from pred fuel' (it + sizeof_value) erased
    end.
Definition erase_if (pred : V -> bool) : M (flat Cmp V) Z := fun f =>
  erase_if_from pred (Z.to_nat (fsize_ f)) data 0 f.
End position.

(** *** Whole containers: [*this] and [other] *)

Definition append_copies_from : M (flat Cmp V * flat Cmp V) unit :=
  let! n := on_snd (get fsize_) in
  for_up (Z.to_nat n) 0 (fun i =>
    let! x := on_snd (slot_ref i) in
    let! sz := on_fst (get fsize_) in
    on_fst (let! v := copy_of x in slot_construct sz v) ;;; on_fst grow).

Definition append_sorted_from : M (flat Cmp V * flat Cmp V) unit :=
  let! n := on_snd (get fsize_) in
  for_up (Z.to_nat n) 0 (fun i =>
    let! x := on_snd (move_from i) in
    let! sz := on_fst (get fsize_) in
    on_fst (slot_construct sz x) ;;; on_fst grow).

Definition copy_assign (self : bool) : M (flat Cmp V * flat Cmp V) unit :=
  if self then ret tt
  else
    on_fst clear ;;;
    let! c := on_snd (get fcomp_) in
    on_fst (modify (set_fcomp c)) ;;;
    append_copies_from.

Definition move_assign (moved_comp : Cmp -> Cmp) (self : bool) : M (flat Cmp V * flat Cmp V) unit :=
  if self then ret tt
  else
    on_fst clear ;;;
    let! c := on_snd (get fcomp_) in
    on_snd (modify (set_fcomp (moved_comp c))) ;;;
    on_fst (modify (set_fcomp c)) ;;;
    append_sorted_from ;;;
    on_snd clear.

(** The tail of [swap_contents]: the shorter container is first in the state. *)
Definition move_tail (common : Z) : M (flat Cmp V * flat Cmp V) unit :=
  let! n := on_snd (get fsize_) in
  for_up (Z.to_nat (n - common)) common (fun i =>
    let! x := on_snd (move_from i) in
    on_fst (slot_construct i x) ;;; on_fst grow) ;;;
  (fun p => while_loop (Z.to_nat (fsize_ p.2 - common)) (fun p => common <? fsize_ p.2)
    (on_snd (modify (fun f => set_fsize (wrap (fsize_ f - 1)) f) ;;;
             let! n := get fsize_ in slot_destroy n)) p).

Section swap.
  Context (swap_elements : Z -> M (flat Cmp V * flat Cmp V) unit).

Definition swap_contents : M (flat Cmp V * flat Cmp V) unit :=
  let! c1 := on_fst (get fcomp_) in
  let! c2 := on_snd (get fcomp_) in
  on_fst (modify (set_fcomp c2)) ;;; on_snd (modify (set_fcomp c1)) ;;;
  let! n1 := on_fst (get fsize_) in
  let! n2 := on_snd (get fsize_) in
  let common := if n1 <? n2 then n1 else n2 in
  for_up (Z.to_nat common) 0 swap_elements ;;;
  if n1 =? n2 then ret tt
  else if n1 <? n2 then move_tail common
  else swapped (move_tail common).

Definition swap (swap_cannot_throw self : bool) : M (flat Cmp V * flat Cmp V) unit :=
  if self then ret tt
  else if swap_cannot_throw then swap_contents
  else guarded swap_contents (on_fst clear ;;; on_snd clear).
End swap.
End flat_core.
End FlatCore.

Module FlatSet.
Section flat_set.
  Context `{SizeT} {Cmp Key : Type} `{!Comparator Cmp Key Key} (h : hardening) (Capacity : Z).
  Context (moved torn : Key -> Key) (moves_assign relocate_cannot_throw : bool).

Definition empty (f : flat Cmp Key) : bool := fsize_ f =? 0.
Definition full (f : flat Cmp Key) : bool := FlatCore.full Capacity f.
Definition size (f : flat Cmp Key) : Z := fsize_ f.

Definition nth (index : Z) : M (flat Cmp Key) Z :=
  let! n := get fsize_ in
  metl_assert h (index <? n) ;;;
  slot_ref index ;;; ret index.

Section lookup.
  Context {Q : Type} `{!Comparator Cmp Key Q, !Comparator Cmp Q Key}.

Definition lower_bound (key : Q) : M (flat Cmp Key) Z := FlatCore.lower_bound_index id key.
Definition upper_bound (key : Q) : M (flat Cmp Key) Z := FlatCore.upper_bound_index id key.
Definition equal_range (key : Q) : M (flat Cmp Key) (Z * Z) := FlatCore.equal_range id key.
Definition find (key : Q) : M (flat Cmp Key) (option Z) := FlatCore.find id key.
Definition contains (key : Q) : M (flat Cmp Key) bool := FlatCore.contains id key.
Definition erase (key : Q) : M (flat Cmp Key) bool :=
  FlatCore.erase id moved torn relocate_cannot_throw key.
End lookup.

Definition try_insert_at (index : Z) (key : Key) : M (flat Cmp Key) bool :=
  FlatCore.try_insert_at Capacity moved torn moves_assign index (FlatCore.move_entry key).

Definition try_emplace (key : Key) : M (flat Cmp Key) bool :=
  let! index := FlatCore.lower_bound_index id key in
  let! b := FlatCore.found_at id key index in
  if b then ret false else try_insert_at index key.

Definition emplace (key : Key) : M (flat Cmp Key) Z :=
  let! index := FlatCore.lower_bound_index id key in
  let! b := FlatCore.found_at id key index in
  metl_harden (negb b) ;;;
  let! inserted := try_insert_at index key in
  metl_harden inserted ;;;
  slot_ref index ;;; ret index.

(** An argument of another type is converted to a key first. *)
Definition try_emplace_from {A} (convert : A -> Key) (key : A) : M (flat Cmp Key) bool :=
  try_emplace (convert key).
Definition emplace_from {A} (convert : A -> Key) (key : A) : M (flat Cmp Key) Z := emplace (convert key).

Definition erase_pos (data sizeof_value pos : Z) : M (flat Cmp Key) Z :=
  FlatCore.erase_pos moved torn relocate_cannot_throw data sizeof_value pos.
Definition erase_if (data sizeof_value : Z) (pred : Key -> bool) : M (flat Cmp Key) Z :=
  FlatCore.erase_if moved torn relocate_cannot_throw data sizeof_value pred.
Definition clear : M (flat Cmp Key) unit := FlatCore.clear.

(** [swap(data()[i], other.data()[i])]: [std::swap], three moves. *)
Definition swap_elements (i : Z) : M (flat Cmp Key * flat Cmp Key) unit :=
  let! x := on_fst (FlatCore.move_from moved torn i) in
  let! y := on_snd (FlatCore.move_from moved torn i) in
  on_fst (slot_assign i y) ;;;
  let! x' := on_snd (FlatCore.move_entry x) in
  on_snd (slot_assign i x').

Definition swap (swap_cannot_throw self : bool) : M (flat Cmp Key * flat Cmp Key) unit :=
  FlatCore.swap moved torn swap_elements swap_cannot_throw self.
Definition copy_assign (self : bool) : M (flat Cmp Key * flat Cmp Key) unit := FlatCore.copy_assign self.
Definition move_assign (moved_comp : Cmp -> Cmp) (self : bool) : M (flat Cmp Key * flat Cmp Key) unit :=
  FlatCore.move_assign moved torn moved_comp self.
Definition copy_construct (other : flat Cmp Key) : outcome (flat Cmp Key * flat Cmp Key) unit :=
  FlatCore.append_copies_from (FlatCore.flat_with Capacity (fcomp_ other) (fthrows_ other), other).
Definition move_construct (moved_comp : Cmp -> Cmp) (other : flat Cmp Key) :
    outcome (flat Cmp Key * flat Cmp Key) unit :=
  (FlatCore.append_sorted_from moved torn ;;; on_snd FlatCore.clear)
    (FlatCore.flat_with Capacity (fcomp_ other) [], set_fcomp (moved_comp (fcomp_ other)) other).
End flat_set.
End FlatSet.

(** [flat_map<Key, T>::value_type]. *)
Record entry (Key T : Type) : Type := mk_entry { key : Key; value : T }.
Arguments mk_entry {Key T} _ _.
Arguments key {Key T} _.
Arguments value {Key T} _.

Module FlatMap.
Section flat_map.
  Context `{SizeT} {Cmp Key T : Type} `{!Comparator Cmp Key Key} (h : hardening) (Capacity : Z).
  Context (moved torn : entry Key T -> entry Key T) (moves_assign relocate_cannot_throw : bool).
  Abbreviation map := (flat Cmp (entry Key T)).

Definition empty (f : map) : bool := fsize_ f =? 0.
Definition full (f : map) : bool := FlatCore.full Capacity f.
Definition size (f : map) : Z := fsize_ f.

Definition nth (index : Z) : M map Z :=
  let! n := get fsize_ in
  metl_assert h (index <? n) ;;;
  slot_ref index ;;; ret index.

Section lookup.
  Context {Q : Type} `{!Comparator Cmp Key Q, !Comparator Cmp Q Key}.

Definition lower_bound (k : Q) : M map Z := FlatCore.lower_bound_index key k.
Definition upper_bound (k : Q) : M map Z := FlatCore.upper_bound_index key k.
Definition equal_range (k : Q) : M map (Z * Z) := FlatCore.equal_range key k.
(** The pointer to the mapped value, by the index of its entry. *)
Definition find (k : Q) : M map (option Z) := FlatCore.find key k.
Definition contains (k : Q) : M map bool := FlatCore.contains key k.
Definition erase (k : Q) : M map bool := FlatCore.erase key moved torn relocate_cannot_throw k.
End lookup.

(** [value] is how the mapped value is built or read; it may refer to one of
    the map's own. *)
Definition try_insert_at (index : Z) (k : Key) (v : M map T) : M map bool :=
  FlatCore.try_insert_at Capacity moved torn moves_assign index (let! x := v in ret (mk_entry k x)).

Definition try_emplace (k : Key) (v : M map T) : M map bool :=
  let! index := FlatCore.lower_bound_index key k in
  let! b := FlatCore.found_at key k index in
  if b then ret false else try_insert_at index k v.

Definition emplace (k : Key) (v : M map T) : M map Z :=
  let! index := FlatCore.lower_bound_index key k in
  let! b := FlatCore.found_at key k index in
  metl_harden (negb b) ;;;
  let! inserted := try_insert_at index k v in
  metl_harden inserted ;;;
  slot_ref index ;;; ret index.

(** [data()[index].value = std::forward<V>(value)]. *)
Definition assign_value (index : Z) (v : M map T) : M map unit :=
  let! x := v in
  let! e := slot_ref index in
  slot_assign index (mk_entry (key e) x).

Definition try_insert_or_assign (k : Key) (v : M map T) : M map bool :=
  let! index := FlatCore.lower_bound_index key k in
  let! b := FlatCore.found_at key k index in
  if b then assign_value index v ;;; ret true
  else try_insert_at index k v.

Definition insert_or_assign (k : Key) (v : M map T) : M map Z :=
  let! index := FlatCore.lower_bound_index key k in
  let! b := FlatCore.found_at key k index in
  if b then assign_value index v ;;; slot_ref index ;;; ret index
  else
    let! stored := try_insert_at index k v in
    metl_harden stored ;;;
    slot_ref index ;;; ret index.

(** An argument of another type is converted to a key first. *)
Section convert.
  Context {A : Type} (convert : A -> Key).

Definition try_emplace_from (k : A) (v : M map T) : M map bool := try_emplace (convert k) v.
Definition emplace_from (k : A) (v : M map T) : M map Z := emplace (convert k) v.
Definition try_insert_or_assign_from (k : A) (v : M map T) : M map bool := try_insert_or_assign (convert k) v.
Definition insert_or_assign_from (k : A) (v : M map T) : M map Z := insert_or_assign (convert k) v.
End convert.

Definition erase_pos (data sizeof_value pos : Z) : M map Z :=
  FlatCore.erase_pos moved torn relocate_cannot_throw data sizeof_value pos.
Definition erase_if (data sizeof_value : Z) (pred : entry Key T -> bool) : M map Z :=
  FlatCore.erase_if moved torn relocate_cannot_throw data sizeof_value pred.
Definition clear : M map unit := FlatCore.clear.

(** [swap] of one field of an entry: [std::swap], three moves. *)
Section swap_field.
  Context {A : Type} (field : entry Key T -> A) (set_field : A -> entry Key T -> entry Key T)
    (moved_field torn_field : A -> A).

Definition move_field (i : Z) : M map A :=
  let! e := slot_ref i in
  let! b := FlatCore.next_throws in
  if b then slot_assign i (set_field (torn_field (field e)) e) ;;; throw
  else slot_assign i (set_field (moved_field (field e)) e) ;;; ret (field e).

Definition assign_field (i : Z) (a : A) : M map unit :=
  let! e := slot_ref i in slot_assign i (set_field a e).

Definition swap_field (i : Z) : M (map * map) unit :=
  let! x := on_fst (move_field i) in
  let! y := on_snd (move_field i) in
  on_fst (assign_field i y) ;;;
  let! b := on_snd FlatCore.next_throws in
  if b then throw else on_snd (assign_field i x).
End swap_field.

Definition set_key (k : Key) (e : entry Key T) : entry Key T := mk_entry k (value e).
Definition set_value (v : T) (e : entry Key T) : entry Key T := mk_entry (key e) v.

Section swap.
  Context (moved_key torn_key : Key -> Key) (moved_value torn_value : T -> T).

Definition swap_elements (i : Z) : M (map * map) unit :=
  swap_field key set_key moved_key torn_key i ;;;
  swap_field value set_value moved_value torn_value i.

Definition swap (swap_cannot_throw self : bool) : M (map * map) unit :=
  FlatCore.swap moved torn swap_elements swap_cannot_throw self.
End swap.

Definition copy_assign (self : bool) : M (map * map) unit := FlatCore.copy_assign self.
Definition move_assign (moved_comp : Cmp -> Cmp) (self : bool) : M (map * map) unit :=
  FlatCore.move_assign moved torn moved_comp self.
Definition copy_construct (other : map) : outcome (map * map) unit :=
  FlatCore.append_copies_from (FlatCore.flat_with Capacity (fcomp_ other) (fthrows_ other), other).
Definition move_construct (moved_comp : Cmp -> Cmp) (other : map) : outcome (map * map) unit :=
  (FlatCore.append_sorted_from moved torn ;;; on_snd FlatCore.clear)
    (FlatCore.flat_with Capacity (fcomp_ other) [], set_fcomp (moved_comp (fcomp_ other)) other).
End flat_map.
End FlatMap.
