(* ===== verification/FlatFacts.v ===== *)
(** * [flat_set] and [flat_map]: the sorted array and its operations *)

From Stdlib Require Import ZArith Lia Sorted.
From stdpp Require Import base numbers list option sorting tactics.
From S2P Require Import Prelude Flat.
Local Open Scope Z_scope.

Section flat_facts.
  Context `{SizeT} {Cmp K V : Type} (key_of : V -> K) (C : Z) `{!CapacityOk C}.
  Context (moved torn : V -> V) (moves_assign relocate_cannot_throw : bool).
  Implicit Types (c : Cmp) (t : list bool) (vs us ws : list V) (x v : V).

Definition spare (n : nat) : slots V := replicate (FlatCore.slot_count C - n) None.

(** The container that holds [vs] and nothing else. *)
Definition holds c t vs : flat Cmp V :=
  mk_flat c ((Some <$> vs) ++ spare (length vs)) (Z.of_nat (length vs)) t.

(** The container with elements on both sides of a dead slot. *)
Definition holed c t us ws (n : Z) : flat Cmp V :=
  mk_flat c ((Some <$> us) ++ None :: (Some <$> ws) ++ spare (S (length us + length ws))) n t.

Lemma flat_slot_count :
  0 <= C /\ 2 * C < 2 ^ size_bits /\ C <= Z.of_nat (FlatCore.slot_count C) /\
  (0 < C -> Z.of_nat (FlatCore.slot_count C) = C).
Proof.
  pose proof (capacity_bounds C). unfold FlatCore.slot_count. destruct (Z.eqb_spec C 0); lia.
Qed.

Ltac flat_lia := pose proof flat_slot_count; lia.

Lemma spare_S n : (n < FlatCore.slot_count C)%nat -> spare n = None :: spare (S n).
Proof.
  intros. unfold spare. by replace (FlatCore.slot_count C - n)%nat with (S (FlatCore.slot_count C - S n)) by lia.
Qed.

(** *** Slots of a state written out *)

Lemma slot_middle (a b : slots V) (i : Z) o :
  i = Z.of_nat (length a) -> slot_lookup (a ++ o :: b) i = Some o.
Proof. intros ->. rewrite slot_lookup_of_nat. by apply list_lookup_middle. Qed.

Lemma slot_set_middle (a b : slots V) (i : Z) o o' :
  i = Z.of_nat (length a) -> slot_set (a ++ o :: b) i o' = a ++ o' :: b.
Proof. intros ->. unfold slot_set. apply insert_middle_at. by rewrite Nat2Z.id. Qed.

Lemma flat_ref c n t a b i v :
  i = Z.of_nat (length a) ->
  slot_ref i (mk_flat c (a ++ Some v :: b) n t) = Ret v (mk_flat c (a ++ Some v :: b) n t).
Proof. intros E. apply (slot_ref_live i v (mk_flat c (a ++ Some v :: b) n t)). by apply slot_middle. Qed.

Lemma flat_construct c n t a b i v :
  i = Z.of_nat (length a) ->
  slot_construct i v (mk_flat c (a ++ None :: b) n t) = Ret tt (mk_flat c (a ++ Some v :: b) n t).
Proof.
  intros E. rewrite (slot_construct_dead i v (mk_flat c (a ++ None :: b) n t)) by (by apply slot_middle).
  cbn. by rewrite slot_set_middle.
Qed.

Lemma flat_destroy c n t a b i v :
  i = Z.of_nat (length a) ->
  slot_destroy i (mk_flat c (a ++ Some v :: b) n t) = Ret tt (mk_flat c (a ++ None :: b) n t).
Proof.
  intros E. rewrite (slot_destroy_live i v (mk_flat c (a ++ Some v :: b) n t)) by (by apply slot_middle).
  cbn. by rewrite slot_set_middle.
Qed.

Lemma flat_assign c n t a b i v w :
  i = Z.of_nat (length a) ->
  slot_assign i w (mk_flat c (a ++ Some v :: b) n t) = Ret tt (mk_flat c (a ++ Some w :: b) n t).
Proof.
  intros E. rewrite (slot_assign_live i w v (mk_flat c (a ++ Some v :: b) n t)) by (by apply slot_middle).
  cbn. by rewrite slot_set_middle.
Qed.

(** *** Moves *)

(** A rest of the script: the moves still to come. *)
Definition rest_of (t' t : list bool) : Prop := t' `suffix_of` t.

Lemma rest_refl t : rest_of t t.
Proof. done. Qed.

Lemma rest_tail t : rest_of (tail t) t.
Proof. destruct t; [done|]. by apply suffix_cons_r. Qed.

Lemma rest_tail_of t' t : rest_of t' t -> rest_of (tail t') t.
Proof. intros. by etrans; [apply rest_tail|]. Qed.

Lemma rest_head t' t : rest_of t' t -> head t' = Some true -> true ∈ t.
Proof.
  intros [k ->]. destruct t' as [|b t']; intros [= ->]. apply elem_of_app. right. by left.
Qed.

Lemma wp_move_from c n t a b i v Q E :
  i = Z.of_nat (length a) ->
  (head t <> Some true -> Q v (mk_flat c (a ++ Some (moved v) :: b) n (tail t))) ->
  (head t = Some true -> E (mk_flat c (a ++ Some (torn v) :: b) n (tail t))) ->
  wp (FlatCore.move_from moved torn i) Q E (mk_flat c (a ++ Some v :: b) n t).
Proof.
  intros Ei HQ HE. unfold wp, FlatCore.move_from, FlatCore.next_throws.
  rewrite (bind_Ret _ _ _ _ _ (flat_ref c n t a b i v Ei)). repeat mstep. unfold set_fthrows.
  destruct t as [|[] t]; cbn [head tail fcomp_ fstorage_ fsize_ fthrows_] in *;
    rewrite (bind_Ret _ _ _ _ _ (flat_assign c n _ a b i v _ Ei)); cbn; by apply HE || by apply HQ.
Qed.

Lemma wp_move_entry f x Q E :
  (head (fthrows_ f) <> Some true -> Q x (set_fthrows (tail (fthrows_ f)) f)) ->
  (head (fthrows_ f) = Some true -> E (set_fthrows (tail (fthrows_ f)) f)) ->
  wp (FlatCore.move_entry (Cmp := Cmp) x) Q E f.
Proof.
  intros HQ HE. unfold wp, FlatCore.move_entry, FlatCore.next_throws. repeat mstep.
  destruct (fthrows_ f) as [|[] t]; cbn in *; by apply HE || by apply HQ.
Qed.

(** *** Destruction *)

Lemma flat_destroy_run c n t (a b : slots V) vs (i : Z) (k : nat) :
  i = Z.of_nat (length a) -> k = length vs ->
  for_up k i (fun j => slot_destroy j) (mk_flat c (a ++ (Some <$> vs) ++ b) n t) =
    Ret tt (mk_flat c (a ++ replicate k None ++ b) n t).
Proof.
  intros -> ->. revert a. induction vs as [|v vs IH]; intros a; [done|].
  cbn [length for_up fmap list_fmap app replicate].
  rewrite (bind_Ret _ _ _ _ _ (flat_destroy c n t a _ _ v eq_refl)).
  specialize (IH (a ++ [None])). rewrite length_app, <- !app_assoc in IH. cbn [app length] in IH.
  by replace (Z.of_nat (length a) + 1) with (Z.of_nat (length a + 1)) by lia.
Qed.

Lemma none_run (i j k n : nat) :
  (i + S j + k = n)%nat ->
  replicate i (None : option V) ++ None :: replicate j None ++ replicate k None = replicate n None.
Proof. intros <-. by rewrite !replicate_add, <- !app_assoc. Qed.

(** All slots dead, none counted. *)
Lemma holds_nil c t : holds c t [] = mk_flat c (replicate (FlatCore.slot_count C) None) 0 t.
Proof. unfold holds, spare. cbn. by rewrite Nat.sub_0_r. Qed.

Lemma destroy_around_holed c t us ws (i last n : Z) :
  (length us + length ws < FlatCore.slot_count C)%nat ->
  i = Z.of_nat (length us) -> last = Z.of_nat (S (length us + length ws)) ->
  FlatCore.destroy_around i last (holed c t us ws n) = Ret tt (holds c t []).
Proof.
  intros Hl Hi Hlast. unfold FlatCore.destroy_around, holed.
  set (rest := spare (S (length us + length ws))).
  pose proof (flat_destroy_run c n t [] (None :: (Some <$> ws) ++ rest) us 0 (Z.to_nat i) eq_refl ltac:(lia)) as E1.
  pose proof (flat_destroy_run c n t (replicate (Z.to_nat i) None ++ [None]) rest ws (i + 1)
    (Z.to_nat (last - (i + 1))) ltac:(rewrite length_app, length_replicate; cbn; lia) ltac:(lia)) as E2.
  rewrite <- !app_assoc in E2. cbn [app] in E1, E2.
  rewrite (bind_Ret _ _ _ _ _ E1), (bind_Ret _ _ _ _ _ E2), holds_nil.
  unfold modify, set_fsize. cbn [fcomp_ fstorage_ fthrows_]. do 2 f_equal. apply none_run. lia.
Qed.

Lemma holds_snoc c t vs v :
  holds c t (vs ++ [v]) =
  mk_flat c ((Some <$> vs) ++ Some v :: spare (S (length vs))) (Z.of_nat (length vs) + 1) t.
Proof.
  unfold holds. rewrite fmap_app, length_app, <- app_assoc, Nat.add_1_r. f_equal. lia.
Qed.

Lemma holds_dead c t vs :
  Z.of_nat (length vs) < C ->
  mk_flat c ((Some <$> vs) ++ None :: spare (S (length vs))) (Z.of_nat (length vs)) t = holds c t vs.
Proof. intros. unfold holds. rewrite (spare_S (length vs)); [done|flat_lia]. Qed.

Lemma flat_drop_last c t vs v :
  Z.of_nat (length vs) < C ->
  (modify (fun f => set_fsize (wrap (fsize_ f - 1)) f) ;;;
   let! n := get fsize_ in slot_destroy n) (holds c t (vs ++ [v])) = Ret tt (holds c t vs).
Proof.
  intros Hl. rewrite holds_snoc, <- holds_dead by done. repeat mstep. unfold set_fsize.
  cbn [fsize_ fcomp_ fstorage_ fthrows_]. rewrite Z.add_simpl_r. pose proof flat_slot_count. zbool.
  apply flat_destroy. by rewrite length_fmap.
Qed.

Lemma fsize_holds c t vs : fsize_ (holds c t vs) = Z.of_nat (length vs).
Proof. done. Qed.

Lemma flat_shrink c t us vs :
  Z.of_nat (length (us ++ vs)) <= C ->
  while_loop (length vs) (fun f => Z.of_nat (length us) <? fsize_ f)
    (modify (fun f => set_fsize (wrap (fsize_ f - 1)) f) ;;;
     let! n := get fsize_ in slot_destroy n) (holds c t (us ++ vs)) = Ret tt (holds c t us).
Proof.
  induction vs as [|v vs IH] using rev_ind; intros Hl.
  { rewrite app_nil_r. cbn [length while_loop]. rewrite fsize_holds. by zbool. }
  rewrite length_app, Nat.add_1_r. cbn [while_loop]. rewrite fsize_holds, app_assoc, !length_app in *.
  cbn [length] in *. zbool. rewrite (bind_Ret _ _ _ _ _ (flat_drop_last c t (us ++ vs) v ltac:(rewrite length_app; lia))).
  apply IH. lia.
Qed.

Lemma flat_clear c t vs :
  Z.of_nat (length vs) <= C -> FlatCore.clear (holds c t vs) = Ret tt (holds c t []).
Proof.
  intros Hl. unfold FlatCore.clear. rewrite fsize_holds, Nat2Z.id. exact (flat_shrink c t [] vs Hl).
Qed.

(** *** The hole moves *)

Lemma hole_left c t us ws x n (E : flat Cmp V -> Prop) (t0 : list bool) (i : Z) :
  rest_of t t0 -> i = Z.of_nat (S (length us)) ->
  (forall t', rest_of t' t0 -> true ∈ t0 -> E (holed c t' (us ++ [torn x]) ws n)) ->
  wp (FlatCore.construct_from moved torn i (i - 1) ;;; slot_destroy (i - 1))
    (fun _ s => exists t', rest_of t' t0 /\ s = holed c t' us (x :: ws) n) E
    (holed c t (us ++ [x]) ws n).
Proof.
  intros Ht Hi HE. unfold holed at 2. rewrite fmap_app, length_app, <- app_assoc. cbn [fmap list_fmap app length].
  apply wp_bind, wp_bind. apply wp_move_from; [rewrite length_fmap; lia| |].
  - intros _.
    pose proof (flat_construct c n (tail t) ((Some <$> us) ++ [Some (moved x)])
      ((Some <$> ws) ++ spare (S (length us + 1 + length ws))) i x
      ltac:(rewrite length_app, length_fmap; cbn; lia)) as E1.
    rewrite <- !app_assoc in E1. apply (wp_Ret _ _ _ _ _ _ E1).
    pose proof (flat_destroy c n (tail t) (Some <$> us)
      (Some x :: (Some <$> ws) ++ spare (S (length us + 1 + length ws))) (i - 1) (moved x)
      ltac:(rewrite length_fmap; lia)) as E2.
    apply (wp_Ret _ _ _ _ _ _ E2). exists (tail t). split; [by apply rest_tail_of|].
    unfold holed. cbn [fmap list_fmap app length]. do 6 f_equal. lia.
  - intros Hh. specialize (HE (tail t) (rest_tail_of _ _ Ht) (rest_head _ _ Ht Hh)).
    unfold holed in HE. by rewrite fmap_app, length_app, <- app_assoc in HE.
Qed.

Lemma hole_right c t us ws x n (E : flat Cmp V -> Prop) (t0 : list bool) (i : Z) :
  rest_of t t0 -> i = Z.of_nat (length us) ->
  (forall t', rest_of t' t0 -> true ∈ t0 -> E (holed c t' us (torn x :: ws) n)) ->
  wp (FlatCore.construct_from moved torn i (i + 1) ;;; slot_destroy (i + 1))
    (fun _ s => exists t', rest_of t' t0 /\ s = holed c t' (us ++ [x]) ws n) E
    (holed c t us (x :: ws) n).
Proof.
  intros Ht Hi HE. unfold holed at 2. cbn [fmap list_fmap app length].
  apply wp_bind, wp_bind.
  assert ((Some <$> us) ++ None :: Some x :: (Some <$> ws) ++ spare (S (length us + S (length ws))) =
    ((Some <$> us) ++ [None]) ++ Some x :: (Some <$> ws) ++ spare (S (length us + S (length ws)))) as ->
    by (by rewrite <- app_assoc).
  apply wp_move_from; [rewrite length_app, length_fmap; cbn; lia| |]; rewrite <- app_assoc; cbn [app].
  - intros _. apply (wp_Ret _ _ _ _ _ _ (flat_construct c n (tail t) (Some <$> us) _ i x ltac:(rewrite length_fmap; lia))).
    pose proof (flat_destroy c n (tail t) ((Some <$> us) ++ [Some x])
      ((Some <$> ws) ++ spare (S (length us + S (length ws)))) (i + 1) (moved x)
      ltac:(rewrite length_app, length_fmap; cbn; lia)) as E2.
    rewrite <- !app_assoc in E2. apply (wp_Ret _ _ _ _ _ _ E2). exists (tail t). split; [by apply rest_tail_of|].
    unfold holed. rewrite fmap_app, length_app, <- app_assoc. cbn [fmap list_fmap app length]. do 6 f_equal. lia.
  - intros Hh. exact (HE (tail t) (rest_tail_of _ _ Ht) (rest_head _ _ Ht Hh)).
Qed.

(** *** Erasing *)

(** After an exception from the middle of a shift the container is empty. *)
Definition emptied c t0 (s : flat Cmp V) : Prop :=
  true ∈ t0 /\ exists t', rest_of t' t0 /\ s = holds c t' [].

Lemma close_gap_spec c t t0 a b :
  rest_of t t0 -> Z.of_nat (length a + length b) < C ->
  (relocate_cannot_throw = true -> true ∉ t0) ->
  let n := Z.of_nat (S (length a + length b)) in
  wp (FlatCore.close_gap moved torn relocate_cannot_throw (Z.of_nat (length a)))
    (fun _ s => exists t', rest_of t' t0 /\ s = holed c t' (a ++ b) [] n)
    (emptied c t0) (holed c t a b n).
Proof.
  intros Ht Hl Hnt n. unfold FlatCore.close_gap.
  apply (wp_bind_Ret (get fsize_) _ _ _ (holed c t a b n) n (holed c t a b n) eq_refl).
  replace (Z.to_nat (n - 1 - Z.of_nat (length a))) with (length b) by lia.
  eapply wp_mono; [apply (wp_for_up (fun i s => exists t' (k : nat), rest_of t' t0 /\
    i = Z.of_nat (length a + k) /\ s = holed c t' (a ++ take k b) (drop k b) n) (emptied c t0))| |done].
  - exists t, 0%nat. rewrite Nat.add_0_r, take_0, app_nil_r. done.
  - intros i s Hi (t' & k & Ht' & Ei & ->).
    assert (k < length b)%nat as Hk by lia. destruct (lookup_lt_is_Some_2 b k Hk) as [y Hy].
    rewrite (drop_S b y k Hy).
    assert (length (a ++ take k b) = (length a + k)%nat) as Hlen by (rewrite length_app, length_take; lia).
    assert (forall E, (forall t'', rest_of t'' t0 -> true ∈ t0 -> E (holed c t'' (a ++ take k b) (torn y :: drop (S k) b) n)) ->
      wp (FlatCore.construct_from moved torn i (i + 1) ;;; slot_destroy (i + 1))
        (fun _ s => exists t' (k : nat), rest_of t' t0 /\ i + 1 = Z.of_nat (length a + k) /\
          s = holed c t' (a ++ take k b) (drop k b) n) E (holed c t' (a ++ take k b) (y :: drop (S k) b) n)) as Hstep.
    { intros E HE. eapply wp_mono; [apply (hole_right _ _ _ _ _ _ E t0 i Ht'); [lia|done]| |done]. cbn.
      intros _ s (t'' & Ht'' & ->). exists t'', (S k). split_and!; [done|lia|].
      by rewrite (take_S_r b k y Hy), <- app_assoc. }
    destruct relocate_cannot_throw; [apply Hstep; intros ? ? Hin; by destruct (Hnt eq_refl)|].
    apply wp_guarded, Hstep. intros t'' Ht'' Hin. exists (holds c t'' []).
    split; [|by split; [|exists t'']]. apply destroy_around_holed; rewrite Hlen; cbn [length]; rewrite ?length_drop;
      pose proof flat_slot_count; lia.
  - cbn. intros _ s (t' & k & Ht' & Ek & ->). exists t'. split; [done|].
    assert (k = length b) as -> by lia. by rewrite take_ge, drop_ge by done.
Qed.

Lemma holed_dead c t vs n : 
  Z.of_nat (length vs) < C -> n = Z.of_nat (length vs) -> holed c t vs [] n = holds c t vs.
Proof.
  intros Hl ->. rewrite <- holds_dead by done. unfold holed. cbn [fmap list_fmap app length].
  by rewrite Nat.add_0_r.
Qed.

(** Destroying an element leaves a hole. *)
Lemma holds_split c t a x b :
  holds c t (a ++ x :: b) =
  mk_flat c ((Some <$> a) ++ Some x :: (Some <$> b) ++ spare (S (length a + length b)))
    (Z.of_nat (S (length a + length b))) t.
Proof.
  unfold holds. rewrite fmap_app, length_app, <- app_assoc. cbn [fmap list_fmap app length].
  by rewrite Nat.add_succ_r.
Qed.

Lemma erase_at_spec c t a x b :
  Z.of_nat (length (a ++ x :: b)) <= C -> (relocate_cannot_throw = true -> true ∉ t) ->
  wp (FlatCore.erase_at moved torn relocate_cannot_throw (Z.of_nat (length a)))
    (fun _ s => exists t', rest_of t' t /\ s = holds c t' (a ++ b))
    (fun s => emptied c t s \/ true ∈ t /\ exists t', rest_of t' t /\ s = holds c t' (a ++ torn x :: b))
    (holds c t (a ++ x :: b)).
Proof.
  intros Hl Hnt. rewrite length_app in Hl. cbn [length] in Hl. unfold FlatCore.erase_at.
  rewrite holds_split. apply wp_bind, wp_move_from; [by rewrite length_fmap| |].
  - intros _. 
    apply (wp_bind_Ret _ _ _ _ _ _ _ (flat_destroy c _ (tail t) (Some <$> a) _ _ (moved x) ltac:(by rewrite length_fmap))).
    apply wp_bind. eapply wp_mono;
      [apply (close_gap_spec c (tail t) t a b (rest_tail t) ltac:(lia) Hnt)| |intros s Hs; by left].
    cbn. intros _ s (t' & Ht' & ->). exists t'. split; [done|].
    unfold set_fsize, holed. cbn [fsize_ fcomp_ fstorage_ fthrows_]. pose proof flat_slot_count. zbool.
    rewrite <- (holed_dead c t' (a ++ b) (Z.of_nat (length a + length b)))
      by (rewrite ?length_app; lia). unfold holed. f_equal. lia.
  - intros Hh. right. split; [by apply (rest_head _ _ (rest_refl t))|]. exists (tail t).
    split; [apply rest_tail|]. by rewrite holds_split.
Qed.

(** *** Inserting *)

Lemma shift_right_from_spec c t a b :
  Z.of_nat (length a + length b) < C ->
  let n := Z.of_nat (length a + length b) in
  wp (FlatCore.shift_right_from moved torn (Z.of_nat (length a)))
    (fun _ s => exists t', rest_of t' t /\ s = holed c t' a b n) (emptied c t) (holds c t (a ++ b)).
Proof.
  intros Hl n. unfold FlatCore.shift_right_from.
  rewrite <- (holed_dead c t (a ++ b) n) by (rewrite length_app; lia).
  apply (wp_bind_Ret (get fsize_) _ _ _ (holed c t (a ++ b) [] n) n (holed c t (a ++ b) [] n) eq_refl).
  replace (Z.to_nat (n - Z.of_nat (length a))) with (length b) by lia.
  eapply wp_mono; [apply (wp_for_down (fun i s => exists t' (k : nat), rest_of t' t /\ (k <= length b)%nat /\
    i = Z.of_nat (length a + k) /\ s = holed c t' (a ++ take k b) (drop k b) n) (emptied c t))| |done].
  - exists t, (length b). rewrite take_ge, drop_ge by done. split_and!; [apply rest_refl|done|lia|done].
  - intros i s Hi (t' & k & Ht' & Hk & Ei & ->).
    destruct k as [|k]; [lia|]. destruct (lookup_lt_is_Some_2 b k Hk) as [y Hy].
    rewrite (take_S_r b k y Hy), app_assoc.
    assert (length (a ++ take k b) = (length a + k)%nat) as Hlen by (rewrite length_app, length_take; lia).
    apply wp_guarded. refine (wp_mono _ _ _ _ _ _ (hole_left c t' (a ++ take k b) (drop (S k) b) y n _ t i Ht' _ _) _ (fun _ HE => HE)).
    + lia.
    + intros t'' Ht'' Hin. exists (holds c t'' []). split; [|by split; [|exists t'']].
      apply destroy_around_holed; rewrite length_app, Hlen, ?length_drop; cbn [length];
        pose proof flat_slot_count; lia.
    + cbn. intros _ s (t'' & Ht'' & ->). exists t'', k. split_and!; [done|lia|lia|].
      by rewrite (drop_S b y k Hy).
  - cbn. intros _ s (t' & k & Ht' & Hk & Ek & ->). exists t'. split; [done|].
    assert (k = 0%nat) as -> by lia. by rewrite take_0, app_nil_r.
Qed.

Lemma flat_grow c n t st :
  0 <= n -> n < C -> FlatCore.grow (mk_flat c st n t) = Ret tt (mk_flat (V := V) c st (n + 1) t).
Proof.
  intros. unfold FlatCore.grow, modify, set_fsize. cbn. pose proof flat_slot_count. by zbool.
Qed.

(** The entry goes into the hole. *)
Lemma fill_hole c t a b e :
  Z.of_nat (length a + length b) < C ->
  (slot_construct (Z.of_nat (length a)) e ;;; FlatCore.grow)
    (holed c t a b (Z.of_nat (length a + length b))) = Ret tt (holds c t (a ++ e :: b)).
Proof.
  intros Hl. unfold holed.
  rewrite (bind_Ret _ _ _ _ _ (flat_construct c _ t (Some <$> a) _ _ e ltac:(by rewrite length_fmap))).
  rewrite flat_grow by lia. rewrite holds_split. do 2 f_equal. lia.
Qed.

Lemma insert_relocating c t a b e :
  Z.of_nat (length a + length b) < C -> moves_assign = false ->
  wp (FlatCore.insert_shifting moved torn moves_assign (Z.of_nat (length a)) e)
    (fun _ s => exists t', rest_of t' t /\ s = holds c t' (a ++ e :: b)) (emptied c t) (holds c t (a ++ b)).
Proof.
  intros Hl ->. unfold FlatCore.insert_shifting.
  eapply wp_bind_Ret; [reflexivity|]. rewrite fsize_holds, length_app. cbv match.
  apply wp_bind. eapply wp_mono; [by apply shift_right_from_spec| |done]. cbn.
  intros _ s (t' & Ht' & ->). set (n := Z.of_nat (length a + length b)).
  apply wp_bind, wp_guarded, wp_bind, wp_move_entry; cbn [holed fthrows_].
  - intros _. pose proof (fill_hole c (tail t') a b e Hl) as E. unfold wp. revert E. unfold bind at 1.
    change (set_fthrows (tail t') (holed c t' a b n)) with (holed c (tail t') a b n).
    destruct (slot_construct _ e _) as [[] s| | | |]; try done. intros E. cbv beta match. rewrite E.
    exists (tail t'). split; [by apply rest_tail_of|done].
  - intros Hh. change (set_fthrows (tail t') (holed c t' a b n)) with (holed c (tail t') a b n).
    exists (holds c (tail t') []). split; [|split; [by eapply rest_head|exists (tail t'); split; [by apply rest_tail_of|done]]].
    apply destroy_around_holed; pose proof flat_slot_count; lia.
Qed.

(** Some full-size sequence: what a throw inside the assignment loop leaves. *)
Definition scrambled c t0 (n : nat) (s : flat Cmp V) : Prop :=
  true ∈ t0 /\ exists t' ws, rest_of t' t0 /\ length ws = n /\ s = holds c t' ws.

Lemma wp_move_from_holds c t t0 n a x b i Q E :
  rest_of t t0 -> i = Z.of_nat (length a) -> n = S (length a + length b) ->
  (Q x (holds c (tail t) (a ++ moved x :: b))) ->
  (forall s, scrambled c t0 n s -> E s) ->
  wp (FlatCore.move_from moved torn i) Q E (holds c t (a ++ x :: b)).
Proof.
  intros Ht -> -> HQ HE. rewrite holds_split in *. apply wp_move_from; [by rewrite length_fmap|done|].
  intros Hh. apply HE. split; [by eapply rest_head|]. exists (tail t), (a ++ torn x :: b).
  rewrite holds_split, length_app. cbn [length]. split_and!; [by apply rest_tail_of|lia|done].
Qed.

Lemma holds_assign c t a x b y i :
  i = Z.of_nat (length a) ->
  slot_assign i y (holds c t (a ++ x :: b)) = Ret tt (holds c t (a ++ y :: b)).
Proof. intros ->. rewrite !holds_split. apply flat_assign. by rewrite length_fmap. Qed.

Lemma assign_loop c t t0 vs m (i : nat) :
  rest_of t t0 -> (i < length vs)%nat ->
  wp (for_down (length vs - 1 - i) (Z.of_nat (length vs) - 1) (fun j => FlatCore.assign_from moved torn j (j - 1)))
    (fun _ s => exists t' m', rest_of t' t0 /\ s = holds c t' (take i vs ++ m' :: drop i vs))
    (scrambled c t0 (S (length vs)))
    (holds c t (take (length vs - 1) vs ++ m :: drop (length vs - 1) vs)).
Proof.
  intros Ht Hi.
  eapply wp_mono; [apply (wp_for_down (fun j s => exists t' m' (k : nat), j = Z.of_nat k /\ (k < length vs)%nat /\
    rest_of t' t0 /\ s = holds c t' (take k vs ++ m' :: drop k vs)) (scrambled c t0 (S (length vs))))| |done].
  - exists t, m, (length vs - 1)%nat. split_and!; [lia|lia|done|done].
  - intros j s Hj (t' & m' & k & -> & Hk & Ht' & ->). destruct k as [|k]; [lia|].
    destruct (lookup_lt_is_Some_2 vs k ltac:(lia)) as [x Hx].
    assert (length (take k vs) = k) as Hlk by (rewrite length_take; lia).
    rewrite (take_S_r vs k x Hx), <- app_assoc. cbn [app]. unfold FlatCore.assign_from.
    apply wp_bind. apply (wp_move_from_holds c t' t0 (S (length vs))); [done|lia| | |done].
    + rewrite Hlk. cbn [length]. rewrite length_drop. lia.
    + pose proof (holds_assign c (tail t') (take k vs ++ [moved x]) m' (drop (S k) vs) x (Z.of_nat (S k))
        ltac:(rewrite length_app, Hlk; cbn; lia)) as E. rewrite <- !app_assoc in E.
      apply (wp_Ret _ _ _ _ _ _ E). exists (tail t'), (moved x), k. split_and!; [lia|lia|by apply rest_tail_of|].
      by rewrite (drop_S vs x k Hx).
  - cbn. intros _ s (t' & m' & k & Hk & _ & Ht' & ->). assert (k = i) as -> by lia. by exists t', m'.
Qed.

Lemma holds_take_drop (a b : list V) : take (length a) (a ++ b) = a /\ drop (length a) (a ++ b) = b.
Proof. by rewrite take_app_length, drop_app_length. Qed.

(** The slot after the last element is built, then counted. *)
Lemma append_spare c t vs y :
  Z.of_nat (length vs) < C ->
  exists s, slot_construct (Z.of_nat (length vs)) y (holds c t vs) = Ret tt s /\
    FlatCore.grow s = Ret tt (holds c t (vs ++ [y])).
Proof.
  intros Hl. rewrite <- holds_dead by done. eexists.
  rewrite (flat_construct c _ t (Some <$> vs)) by (by rewrite length_fmap). split; [done|].
  rewrite flat_grow by lia. by rewrite holds_snoc.
Qed.

Lemma append_entry c t vs e :
  Z.of_nat (length vs) < C ->
  wp ((let! v := FlatCore.move_entry e in slot_construct (Z.of_nat (length vs)) v) ;;; FlatCore.grow)
    (fun _ s => exists t', rest_of t' t /\ s = holds c t' (vs ++ [e]))
    (fun s => true ∈ t /\ exists t', rest_of t' t /\ s = holds c t' vs) (holds c t vs).
Proof.
  intros Hl. apply wp_bind, wp_bind, wp_move_entry; cbn [holds fthrows_];
    change (set_fthrows ?t' (mk_flat c _ _ t)) with (holds c t' vs).
  - intros _. destruct (append_spare c (tail t) vs e Hl) as (s & E1 & E2).
    apply (wp_Ret _ _ _ _ _ _ E1), (wp_Ret _ _ _ _ _ _ E2). exists (tail t). split; [apply rest_tail|done].
  - intros Hh. split; [by apply (rest_head _ _ (rest_refl t))|]. exists (tail t). split; [apply rest_tail|done].
Qed.

(** The loop, the entry's own move, and the handler. *)
Lemma insert_loop c t t0 a b m e :
  b <> [] -> rest_of t t0 -> Z.of_nat (length a + length b) < C ->
  let vs := a ++ b in
  let n' := Z.of_nat (S (length vs)) in
  wp (guarded
       (for_down (Z.to_nat (wrap (n' - 2) - Z.of_nat (length a))) (wrap (n' - 2))
          (fun i => FlatCore.assign_from moved torn i (i - 1)) ;;;
        let! v := FlatCore.move_entry e in slot_assign (Z.of_nat (length a)) v)
       FlatCore.clear)
    (fun _ s => exists t', rest_of t' t0 /\ s = holds c t' (a ++ e :: b)) (emptied c t0)
    (holds c t (take (length vs - 1) vs ++ m :: drop (length vs - 1) vs)).
Proof.
  intros Hb Ht Hl vs n'. assert (0 < length b)%nat by (destruct b; [done|cbn; lia]).
  assert (length vs = (length a + length b)%nat) as Hlen by apply length_app.
  assert (forall s, scrambled c t0 (S (length vs)) s ->
    exists s'', FlatCore.clear s = Ret tt s'' /\ emptied c t0 s'') as Hclear.
  { intros s (Hin & t' & ws & Ht' & Hw & ->). exists (holds c t' []). split; [apply flat_clear; lia|].
    split; [done|by exists t']. }
  pose proof flat_slot_count. zbool. replace (n' - 2) with (Z.of_nat (length vs) - 1) by lia.
  replace (Z.to_nat (Z.of_nat (length vs) - 1 - Z.of_nat (length a))) with (length vs - 1 - length a)%nat by lia.
  apply wp_guarded, wp_bind. eapply wp_mono; [apply (assign_loop c t t0 vs m (length a) Ht ltac:(lia))| |done].
  cbn. intros _ s (t' & m' & Ht' & ->). destruct (holds_take_drop a b) as [Ea Eb]. fold vs in Ea, Eb. rewrite Ea, Eb.
  apply wp_bind, wp_move_entry; cbn [holds fthrows_];
    change (set_fthrows ?t'' (mk_flat c _ _ t')) with (holds c t'' (a ++ m' :: b)).
  - intros _. apply (wp_Ret _ _ _ _ _ _ (holds_assign c (tail t') a m' b e _ eq_refl)).
    exists (tail t'). split; [by apply rest_tail_of|done].
  - intros Hh. apply Hclear. split; [by eapply rest_head|]. exists (tail t'), (a ++ m' :: b).
    split_and!; [by apply rest_tail_of|rewrite length_app; cbn; lia|done].
Qed.

(** The elements as they were, but for what a throwing move did to the last. *)
Definition last_torn c t0 vs (s : flat Cmp V) : Prop :=
  true ∈ t0 /\ exists t' us y, rest_of t' t0 /\ vs = us ++ [y] /\ s = holds c t' (us ++ [torn y]).

(** The insertion by assignment: first move, then the guarded loop. *)
Lemma insert_before c t a b e :
  b <> [] -> Z.of_nat (length a + length b) < C -> moves_assign = true ->
  wp (FlatCore.insert_shifting moved torn moves_assign (Z.of_nat (length a)) e)
    (fun _ s => exists t', rest_of t' t /\ s = holds c t' (a ++ e :: b))
    (fun s => emptied c t s \/ last_torn c t (a ++ b) s) (holds c t (a ++ b)).
Proof.
  intros Hb Hl ->. unfold FlatCore.insert_shifting. eapply wp_bind_Ret; [reflexivity|].
  rewrite fsize_holds. cbv match. assert (0 < length b)%nat by (destruct b; [done|cbn; lia]).
  set (vs := a ++ b). assert (length vs = (length a + length b)%nat) as Hlen by apply length_app.
  destruct (lookup_lt_is_Some_2 vs (length vs - 1) ltac:(lia)) as [y Hy].
  assert (length (take (length vs - 1) vs) = (length vs - 1)%nat) as Hlt by (rewrite length_take; lia).
  pose proof (take_drop_middle vs _ y Hy) as Ev. replace (S (length vs - 1)) with (length vs) in Ev by lia.
  rewrite drop_ge in Ev by done. set (us := take (length vs - 1) vs) in *.
  pose proof flat_slot_count. zbool. unfold FlatCore.construct_from. apply wp_bind, wp_bind.
  replace (holds c t vs) with (holds c t (us ++ [y])) by (by rewrite Ev). 
  rewrite holds_split. apply wp_move_from; [rewrite length_fmap; lia| |].
  2: { intros Hh. right. split; [by apply (rest_head _ _ (rest_refl t))|]. exists (tail t), us, y.
       rewrite holds_split. split_and!; [apply rest_tail|done|done]. }
  intros _. rewrite <- holds_split.
  destruct (append_spare c (tail t) (us ++ [moved y]) y ltac:(rewrite length_app; cbn; lia)) as (s & E1 & E2).
  rewrite length_app in E1. cbn [length] in E1.
  replace (Z.of_nat (length us + 1)) with (Z.of_nat (length vs)) in E1 by lia.
  apply (wp_Ret _ _ _ _ _ _ E1). apply (wp_bind_Ret _ _ _ _ _ _ _ E2). eapply wp_bind_Ret; [reflexivity|].
  rewrite fsize_holds, <- app_assoc, !length_app. cbn [app length].
  replace (length us + (1 + 1))%nat with (S (length vs)) by lia.
  refine (wp_mono _ _ _ _ _ _ _ (fun _ _ HQ => HQ) (fun _ HE => or_introl HE)).
  pose proof (insert_loop c (tail t) t a b (moved y) e Hb (rest_tail t) Hl) as Hloop. fold vs us in Hloop. cbv zeta in Hloop.
  rewrite (drop_S vs y (length vs - 1) Hy) in Hloop.
  replace (S (length vs - 1)) with (length vs) in Hloop by lia. rewrite drop_ge in Hloop by done. exact Hloop.
Qed.

Lemma insert_shifting_spec c t a b e :
  Z.of_nat (length a + length b) < C ->
  wp (FlatCore.insert_shifting moved torn moves_assign (Z.of_nat (length a)) e)
    (fun _ s => exists t', rest_of t' t /\ s = holds c t' (a ++ e :: b))
    (fun s => emptied c t s \/ last_torn c t (a ++ b) s \/
      true ∈ t /\ exists t', rest_of t' t /\ s = holds c t' (a ++ b)) (holds c t (a ++ b)).
Proof.
  intros Hl. destruct (decide (moves_assign = false)).
  { refine (wp_mono _ _ _ _ _ _ (insert_relocating c t a b e Hl _) (fun _ _ HQ => HQ) (fun _ HE => or_introl HE)). done. }
  assert (moves_assign = true) as Hm by (by destruct moves_assign).
  destruct (decide (b = [])) as [->|Hb].
  - unfold FlatCore.insert_shifting. eapply wp_bind_Ret; [reflexivity|].
    rewrite Hm, fsize_holds, app_nil_r. zbool. cbn [length] in Hl.
    refine (wp_mono _ _ _ _ _ _ (append_entry c t a e ltac:(lia)) (fun _ _ HQ => HQ) (fun _ HE => or_intror (or_intror HE))).
  - refine (wp_mono _ _ _ _ _ _ (insert_before c t a b e Hb Hl Hm) (fun _ _ HQ => HQ) _).
    intros s [|]; [by left|by right; left].
Qed.

(** *** Binary search *)

Lemma holds_ref c t vs (i : nat) v :
  vs !! i = Some v -> slot_ref (Z.of_nat i) (holds c t vs) = Ret v (holds c t vs).
Proof.
  intros Hv. rewrite <- (take_drop_middle vs i v Hv), holds_split. apply flat_ref.
  rewrite length_fmap, length_take. apply lookup_lt_Some in Hv. lia.
Qed.

(** [p] elements satisfy the condition and the rest do not. *)
Definition split_at (right : V -> bool) vs (p : nat) : Prop :=
  (p <= length vs)%nat /\ forall i v, vs !! i = Some v -> right v = true <-> (i < p)%nat.

Lemma search_spec c t vs right (p fuel : nat) (first count : nat) :
  Z.of_nat (length vs) <= C -> split_at (right c) vs p ->
  (first <= p)%nat -> (p <= first + count)%nat -> (first + count <= length vs)%nat ->
  Z.of_nat count < 2 ^ Z.of_nat fuel ->
  FlatCore.search fuel right (Z.of_nat first) (Z.of_nat count) (holds c t vs) =
    Ret (Z.of_nat p) (holds c t vs).
Proof.
  intros Hl Hp. revert first count. induction fuel as [|fuel IH]; intros first count H1 H2 H3 Hf;
    cbn [FlatCore.search]; destruct (decide (count = 0%nat)) as [->|Hc]; zbool.
  - unfold ret. do 2 f_equal. lia.
  - cbn in Hf. lia.
  - unfold ret. do 2 f_equal. lia.
  - pose proof flat_slot_count. set (step := (count / 2)%nat).
    assert (step < count)%nat as Hs by (apply Nat.div_lt; lia).
    assert (Z.of_nat count / 2 = Z.of_nat step) as -> by (unfold step; by rewrite Nat2Z.inj_div).
    zbool. rewrite <- Nat2Z.inj_add.
    destruct (lookup_lt_is_Some_2 vs (first + step)%nat ltac:(lia)) as [v Hv].
    rewrite (bind_Ret _ _ _ _ _ (holds_ref c t vs _ v Hv)). mstep. change (fcomp_ (holds c t vs)) with c.
    pose proof (proj2 Hp _ _ Hv) as Hr. rewrite Nat2Z.inj_succ, Z.pow_succ_r in Hf by lia.
    assert (2 * Z.of_nat step <= Z.of_nat count < 2 * Z.of_nat step + 2) as Hhalf.
    { unfold step. rewrite Nat2Z.inj_div. pose proof (Z.div_mod (Z.of_nat count) 2).
      pose proof (Z.mod_pos_bound (Z.of_nat count) 2). lia. }
    destruct (right c v); zbool.
    + replace (Z.of_nat (first + step) + 1) with (Z.of_nat (first + step + 1)) by lia.
      replace (Z.of_nat count - (Z.of_nat step + 1)) with (Z.of_nat (count - step - 1)) by lia.
      assert (first + step < p)%nat by (by apply Hr). apply IH; lia.
    + assert (~ (first + step < p)%nat) by (intros ?; by apply Hr in H4). apply IH; lia.
Qed.
End flat_facts.

(** ** Orders

    What the comparator promises: a strict weak order of the keys, and queries
    of another type that agree with it. *)

Class QueryOrder (Cmp K Q : Type) `{!Comparator Cmp K K, !Comparator Cmp K Q, !Comparator Cmp Q K} : Prop := {
  query_below : forall (c : Cmp) (a b : K) (q : Q), less c a b = true -> less c b q = true -> less c a q = true;
  query_above : forall (c : Cmp) (a b : K) (q : Q), less c a b = true -> less c q a = true -> less c q b = true;
  query_asym : forall (c : Cmp) (a : K) (q : Q), less c a q = true -> less c q a = false
}.

#[export] Instance key_query_order {Cmp K} `{!Comparator Cmp K K} :
  StrictWeakOrder Cmp K -> QueryOrder Cmp K K.
Proof.
  intros HO. split; [apply order_trans|intros c a b q Hab Hqa; by apply (order_trans c q a b)|].
  intros c a q H1. destruct (less c q a) eqn:H2; [|done].
  pose proof (order_trans c a q a H1 H2). by rewrite order_irrefl in *.
Qed.

Section ordered_facts.
  Context `{SizeT} {Cmp K V : Type} (key_of : V -> K) (C : Z) `{!CapacityOk C}.
  Context `{!Comparator Cmp K K}.
  Implicit Types (c : Cmp) (t : list bool) (vs us ws : list V) (x v : V).

Definition sorted c vs : Prop := StronglySorted (fun a b => less c (key_of a) (key_of b) = true) vs.

Lemma sorted_lookup c vs (i j : nat) a b :
  sorted c vs -> (i < j)%nat -> vs !! i = Some a -> vs !! j = Some b -> less c (key_of a) (key_of b) = true.
Proof.
  intros Hs. revert i j. induction Hs as [|x vs Hs IH Hx]; intros i j Hij Ha Hb; [done|].
  destruct j as [|j]; [lia|]. destruct i as [|i]; cbn in *; [|apply (IH i j); [lia|done..]].
  injection Ha as <-. rewrite Forall_lookup in Hx. by eapply Hx.
Qed.

(** A condition that holds of an initial segment holds of exactly the elements
    that satisfy it. *)
Lemma split_at_filter (right : V -> bool) vs :
  (forall (i j : nat) a b, (i < j)%nat -> vs !! i = Some a -> vs !! j = Some b -> right b = true -> right a = true) ->
  split_at right vs (length (List.filter right vs)).
Proof.
  intros Hm. split; [apply List.filter_length_le|].
  induction vs as [|x vs IH]; intros i v Hv; [done|]. cbn [List.filter].
  assert (forall (i j : nat) a b, (i < j)%nat -> vs !! i = Some a -> vs !! j = Some b -> right b = true -> right a = true) as Hm'
    by (intros i' j' a b Hij Ha Hb; apply (Hm (S i') (S j')); [lia|done..]).
  destruct (right x) eqn:Ex; cbn [length].
  - destruct i as [|i]; cbn in Hv; [injection Hv as <-; split; [lia|done]|]. rewrite (IH Hm' i v Hv). lia.
  - assert (List.filter right vs = []) as ->.
    { destruct (List.filter right vs) as [|y l] eqn:El; [done|exfalso].
      assert (List.In y (List.filter right vs)) as Hy by (rewrite El; by left).
      apply List.filter_In in Hy as [Hy Ey]. apply list_elem_of_In, list_elem_of_lookup in Hy as [j Hj].
      by rewrite (Hm 0%nat (S j) x y ltac:(lia) eq_refl Hj Ey) in Ex. }
    cbn [length]. split; [|lia]. intros Ev. destruct i as [|i]; cbn in Hv; [congruence|].
    by rewrite (Hm 0%nat (S i) x v ltac:(lia) eq_refl Hv Ev) in Ex.
Qed.

Lemma split_at_take (right : V -> bool) vs p :
  split_at right vs p -> List.filter right vs = take p vs /\ List.filter (fun v => negb (right v)) vs = drop p vs.
Proof.
  intros [Hp Hr]. revert p Hp Hr. induction vs as [|x vs IH]; intros p Hp Hr; [by destruct p|].
  cbn [List.filter]. pose proof (Hr 0%nat x eq_refl) as Hx. destruct p as [|p].
  - destruct (right x); [pose proof (proj1 Hx eq_refl); lia|]. cbn [negb take drop].
    destruct (IH 0%nat ltac:(lia)) as [-> ->]; [|done].
    intros i v Hv. rewrite (Hr (S i) v Hv). lia.
  - destruct (right x); [|by discriminate (proj2 Hx ltac:(lia))]. cbn [negb take drop].
    destruct (IH p ltac:(cbn in Hp; lia)) as [-> ->]; [|done].
    intros i v Hv. rewrite (Hr (S i) v Hv). lia.
Qed.

Section queries.
  Context {Q : Type} `{!Comparator Cmp K Q, !Comparator Cmp Q K, !QueryOrder Cmp K Q}.
  Implicit Types q : Q.

(** The elements before [q], not after [q], and neither. *)
Definition below c q vs : list V := List.filter (fun v => less c (key_of v) q) vs.
Definition not_above c q vs : list V := List.filter (fun v => negb (less c q (key_of v))) vs.
Definition equiv c q (v : V) : bool := negb (less c (key_of v) q) && negb (less c q (key_of v)).

Lemma below_split c q vs : sorted c vs -> split_at (fun v => less c (key_of v) q) vs (length (below c q vs)).
Proof.
  intros Hs. apply split_at_filter. intros i j a b Hij Ha Hb Hr.
  apply (query_below c (key_of a) (key_of b) q); [|done]. by apply (sorted_lookup c vs i j).
Qed.

Lemma not_above_split c q vs :
  sorted c vs -> split_at (fun v => negb (less c q (key_of v))) vs (length (not_above c q vs)).
Proof.
  intros Hs. apply split_at_filter. intros i j a b Hij Ha Hb Hr.
  destruct (less c q (key_of a)) eqn:Ea; [|done].
  by rewrite (query_above c _ _ q (sorted_lookup c vs i j a b Hs Hij Ha Hb) Ea) in Hr.
Qed.

Lemma fuel_enough (n : nat) : Z.of_nat n < 2 ^ Z.of_nat (FlatCore.search_fuel (Z.of_nat n)).
Proof.
  unfold FlatCore.search_fuel. pose proof (Z.log2_nonneg (Z.of_nat n)). rewrite Z2Nat.id by lia.
  destruct n as [|n]; [done|]. rewrite Z.add_1_r. apply Z.log2_spec. lia.
Qed.

Lemma lower_bound_index_spec c t q vs :
  Z.of_nat (length vs) <= C -> sorted c vs ->
  FlatCore.lower_bound_index key_of q (holds C c t vs) = Ret (Z.of_nat (length (below c q vs))) (holds C c t vs).
Proof.
  intros Hl Hs. unfold FlatCore.lower_bound_index. mstep. rewrite fsize_holds.
  pose proof (below_split c q vs Hs) as Hp. destruct Hp as [Hle _].
  apply (search_spec C c t vs _ _ _ 0 (length vs)); [done|by apply below_split|lia|lia|lia|apply fuel_enough].
Qed.

Lemma upper_bound_index_spec c t q vs :
  Z.of_nat (length vs) <= C -> sorted c vs ->
  FlatCore.upper_bound_index key_of q (holds C c t vs) =
    Ret (Z.of_nat (length (not_above c q vs))) (holds C c t vs).
Proof.
  intros Hl Hs. unfold FlatCore.upper_bound_index. mstep. rewrite fsize_holds.
  pose proof (not_above_split c q vs Hs) as Hp. destruct Hp as [Hle _].
  apply (search_spec C c t vs _ _ _ 0 (length vs)); [done|by apply not_above_split|lia|lia|lia|apply fuel_enough].
Qed.

Lemma below_not_above c q vs : sorted c vs -> (length (below c q vs) <= length (not_above c q vs))%nat.
Proof.
  intros Hs. induction vs as [|v vs IH]; [done|]. cbn.
  destruct (less c (key_of v) q) eqn:E; [rewrite (query_asym c _ q E); cbn|destruct (negb _); cbn];
    inversion Hs; specialize (IH ltac:(done)); unfold below, not_above in IH; lia.
Qed.

Lemma equal_range_spec c t q vs :
  Z.of_nat (length vs) <= C -> sorted c vs ->
  FlatCore.equal_range key_of q (holds C c t vs) =
    Ret (Z.of_nat (length (below c q vs)), Z.of_nat (length (not_above c q vs))) (holds C c t vs).
Proof.
  intros Hl Hs. unfold FlatCore.equal_range. rewrite (bind_Ret _ _ _ _ _ (lower_bound_index_spec c t q vs Hl Hs)).
  unfold FlatCore.upper_bound_index_from. rewrite bind_assoc. mstep. rewrite fsize_holds.
  pose proof (not_above_split c q vs Hs) as Hp. pose proof (below_not_above c q vs Hs).
  pose proof (proj1 Hp). pose proof (flat_slot_count C). zbool.
  replace (Z.of_nat (length vs) - Z.of_nat (length (below c q vs)))
    with (Z.of_nat (length vs - length (below c q vs))) by lia.
  by rewrite (bind_Ret _ _ _ _ _ (search_spec C c t vs _ _ _ (length (below c q vs)) (length vs - length (below c q vs))
    Hl Hp ltac:(lia) ltac:(lia) ltac:(lia) (fuel_enough _))).
Qed.

Lemma found_at_spec c t q vs :
  sorted c vs ->
  FlatCore.found_at key_of q (Z.of_nat (length (below c q vs))) (holds C c t vs) =
    Ret (match vs !! length (below c q vs) with Some v => equiv c q v | None => false end) (holds C c t vs).
Proof.
  intros Hs. unfold FlatCore.found_at. mstep. rewrite fsize_holds.
  destruct (below_split c q vs Hs) as [Hle Hr].
  destruct (vs !! length (below c q vs)) as [v|] eqn:Ev.
  - pose proof (lookup_lt_Some _ _ _ Ev). zbool. rewrite (bind_Ret _ _ _ _ _ (holds_ref C c t vs _ v Ev)). mstep.
    unfold equiv. change (fcomp_ (holds C c t vs)) with c.
    pose proof (Hr _ _ Ev) as Hv. destruct (less c (key_of v) q); [|done]. lia.
  - apply lookup_ge_None in Ev. zbool. done.
Qed.
End queries.

(** *** Where a key is, or would go *)

Context `{!StrictWeakOrder Cmp K}.
Implicit Types k : K.

Definition above c k vs : list V := List.filter (fun v => less c k (key_of v)) vs.

(** The elements around the place of [k]: [mid] is the element with an
    equivalent key, if there is one. *)
Record located c k vs (a mid b : list V) : Prop := {
  loc_split : vs = a ++ mid ++ b;
  loc_before : forall y, y ∈ a -> less c (key_of y) k = true;
  loc_mid : mid = [] \/ exists x, mid = [x] /\ equiv c k x = true;
  loc_after : forall y, y ∈ b -> less c k (key_of y) = true
}.

Lemma locate c k vs : sorted c vs -> exists a mid b, located c k vs a mid b.
Proof.
  intros Hs. pose proof (below_split c k vs Hs) as Hp.
  destruct (split_at_take _ _ _ Hp) as [Ea Eb]. fold (below c k vs) in Ea.
  set (p := length (below c k vs)) in *.
  assert (forall y, y ∈ take p vs -> less c (key_of y) k = true) as Hbefore.
  { intros y. rewrite <- Ea. unfold below. rewrite list_elem_of_In, List.filter_In. by intros [_ Hy]. }
  assert (forall y, y ∈ drop p vs -> less c (key_of y) k = false) as Hnot.
  { intros y. rewrite <- Eb, list_elem_of_In, List.filter_In. intros [_ Hy]. by destruct (less c (key_of y) k). }
  assert (sorted c (drop p vs)) as Hd.
  { eapply StronglySorted_app_1_r. by rewrite take_drop. }
  destruct (drop p vs) as [|x b] eqn:Ed.
  { exists (take p vs), [], []. split; [cbn [app]; by rewrite <- Ed, take_drop|done|by left|intros y Hy; by apply not_elem_of_nil in Hy]. }
  pose proof (Hnot x ltac:(by left)) as Hx. apply StronglySorted_cons in Hd as [Hxb Hd]. rewrite list.Forall_forall in Hxb.
  destruct (less c k (key_of x)) eqn:Ekx.
  - exists (take p vs), [], (x :: b). split; [cbn [app]; by rewrite <- Ed, take_drop|done|by left|].
    intros y [->|Hy]%elem_of_cons; [done|]. apply (order_trans c k (key_of x)); [done|by apply Hxb].
  - exists (take p vs), [x], b. split; [cbn [app]; by rewrite <- Ed, take_drop|done| |].
    + right. exists x. unfold equiv. by rewrite Hx, Ekx.
    + intros y Hy. destruct (order_cotrans c (key_of x) k (key_of y) (Hxb y Hy)); [congruence|done].
Qed.

Lemma filter_all (P : V -> bool) (l : list V) : (forall y, y ∈ l -> P y = true) -> List.filter P l = l.
Proof.
  induction l as [|x l IH]; intros Hl; [done|]. cbn. rewrite (Hl x) by (by left).
  f_equal. apply IH. intros y Hy. apply Hl. by right.
Qed.

Lemma filter_none (P : V -> bool) (l : list V) : (forall y, y ∈ l -> P y = false) -> List.filter P l = [].
Proof.
  induction l as [|x l IH]; intros Hl; [done|]. cbn. rewrite (Hl x) by (by left).
  apply IH. intros y Hy. apply Hl. by right.
Qed.

Lemma order_asym c a b : less c a b = true -> less c b a = false.
Proof. apply (query_asym (K := K) (Q := K)). Qed.

Lemma located_filters c k vs a mid b :
  located c k vs a mid b ->
  below c k vs = a /\ above c k vs = b /\ List.filter (fun v => negb (equiv c k v)) vs = a ++ b /\
  List.filter (equiv c k) vs = mid.
Proof.
  intros [-> Ha Hm Hb]. unfold below, above. rewrite !List.filter_app.
  assert (forall y, y ∈ mid -> less c (key_of y) k = false /\ less c k (key_of y) = false) as Hmid.
  { intros y Hy. destruct Hm as [->|(x & -> & Hx)]; [by apply not_elem_of_nil in Hy|].
    apply list_elem_of_singleton in Hy as ->. unfold equiv in Hx. by destruct (less c (key_of x) k), (less c k (key_of x)). }
  assert (forall y, y ∈ a -> less c k (key_of y) = false) as Ha' by (intros; by apply order_asym, Ha).
  assert (forall y, y ∈ b -> less c (key_of y) k = false) as Hb' by (intros; by apply order_asym, Hb).
  split_and!.
  - rewrite (filter_all _ a), (filter_none _ mid), (filter_none _ b), !app_nil_r; try done. intros; by apply Hmid.
  - rewrite (filter_none _ a), (filter_none _ mid), (filter_all _ b); try done. intros; by apply Hmid.
  - rewrite (filter_all _ a), (filter_none _ mid), (filter_all _ b); try done; unfold equiv.
    + intros y Hy. by rewrite (Hb y Hy), andb_false_r.
    + intros y Hy. by destruct (Hmid y Hy) as [-> ->].
    + intros y Hy. by rewrite (Ha y Hy).
  - rewrite (filter_none _ a), (filter_all _ mid), (filter_none _ b), app_nil_r; try done; unfold equiv.
    + intros y Hy. by rewrite (Hb y Hy), andb_false_r.
    + intros y Hy. by destruct (Hmid y Hy) as [-> ->].
    + intros y Hy. by rewrite (Ha y Hy).
Qed.

Lemma sorted_around c k vs a mid b e :
  sorted c vs -> located c k vs a mid b -> key_of e = k -> sorted c (a ++ e :: b).
Proof.
  intros Hs [-> Ha _ Hb] <-. unfold sorted in *.
  apply StronglySorted_app in Hs as (Hab & Hsa & Hmb). apply StronglySorted_app in Hmb as (_ & _ & Hsb).
  apply StronglySorted_app_2; [|done|].
  - intros x y Hx [->|Hy]%elem_of_cons; [by apply Ha|]. apply (order_trans c _ (key_of e)); [by apply Ha|by apply Hb].
  - apply StronglySorted_cons. by rewrite list.Forall_forall.
Qed.

Lemma sorted_without c a mid b : sorted c (a ++ mid ++ b) -> sorted c (a ++ b).
Proof.
  unfold sorted. rewrite !StronglySorted_app. intros (H1 & Ha & H2 & Hm & Hb).
  split_and!; [|done|done]. intros x y Hx Hy. apply H1; [done|]. apply elem_of_app. by right.
Qed.

Lemma sorted_filter c (P : V -> bool) vs : sorted c vs -> sorted c (List.filter P vs).
Proof.
  induction 1 as [|x vs Hs IH Hx]; cbn; [constructor|]. destruct (P x); [|done].
  constructor; [done|]. rewrite list.Forall_forall in Hx |- *. intros y.
  rewrite list_elem_of_In, List.filter_In, <- list_elem_of_In. intros [Hy _]. by apply Hx.
Qed.
End ordered_facts.
