(* ===== verification/FlatClaims.v ===== *)
(** * What [flat_map] and [flat_set] promise

    An abstract ordered map over lists, the operations of [flat_map] run against
    it, and the theorems about both containers: lookup, refinement, exceptions,
    and copy, move and swap of whole containers. *)

From Stdlib Require Import ZArith Lia Sorted.
From stdpp Require Import base numbers list option sorting tactics.
From S2P Require Import Prelude Flat FlatFacts.
Local Open Scope Z_scope.

(** ** The abstract ordered map *)

Module MapSpec.

(** Where a mapped value comes from: an object elsewhere, or the value of the
    map's own entry at a position. *)
Inductive source (T : Type) : Type := Val (v : T) | Own (i : nat).
Arguments Val {T} v.
Arguments Own {T} i.

Inductive op (Key T : Type) : Type :=
  | TryEmplace (k : Key) (s : source T) | Emplace (k : Key) (s : source T)
  | TryInsertOrAssign (k : Key) (s : source T) | InsertOrAssign (k : Key) (s : source T)
  | Erase (k : Key) | ErasePos (p : Z) | EraseIf (pred : entry Key T -> bool) | Clear
  | Find (k : Key) | Contains (k : Key) | LowerBound (k : Key) | UpperBound (k : Key) | EqualRange (k : Key)
  | Nth (i : nat) | Size | Empty | Full.
Arguments TryEmplace {Key T} k s.
Arguments Emplace {Key T} k s.
Arguments TryInsertOrAssign {Key T} k s.
Arguments InsertOrAssign {Key T} k s.
Arguments Erase {Key T} k.
Arguments ErasePos {Key T} p.
Arguments EraseIf {Key T} pred.
Arguments Clear {Key T}.
Arguments Find {Key T} k.
Arguments Contains {Key T} k.
Arguments LowerBound {Key T} k.
Arguments UpperBound {Key T} k.
Arguments EqualRange {Key T} k.
Arguments Nth {Key T} i.
Arguments Size {Key T}.
Arguments Empty {Key T}.
Arguments Full {Key T}.

Inductive result (Key T : Type) : Type :=
  | RUnit | RBool (b : bool) | REntry (e : entry Key T) | RFound (v : option T)
  | RNum (n : Z) | RRange (lo hi : Z).
Arguments RUnit {Key T}.
Arguments RBool {Key T} b.
Arguments REntry {Key T} e.
Arguments RFound {Key T} v.
Arguments RNum {Key T} n.
Arguments RRange {Key T} lo hi.

Inductive verdict (Key T : Type) : Type :=
  | Go (x : result Key T) (l : list (entry Key T)) | Stop | Undefined.
Arguments Go {Key T} x l.
Arguments Stop {Key T}.
Arguments Undefined {Key T}.

Section step.
  Context `{SizeT} {Cmp Key T : Type} `{!Comparator Cmp Key Key} (C data sizeof_value : Z) (c : Cmp).
  Implicit Types (l : list (entry Key T)) (k : Key).

Definition size l : Z := Z.of_nat (length l).
Definition matching k l : list (entry Key T) := List.filter (equiv key c k) l.
Definition has k l : bool := match matching k l with [] => false | _ => true end.

(** The entries before the key, the new one, the entries after the key. *)
Definition put (e : entry Key T) l : list (entry Key T) := below key c (key e) l ++ e :: above key c (key e) l.
(** The entry of [k] keeps its key and gets the value [v]. *)
Definition update k v l : list (entry Key T) :=
  (fun e => if equiv key c k e then mk_entry (key e) v else e) <$> l.
Definition remove k l : list (entry Key T) := List.filter (fun e => negb (equiv key c k e)) l.

Definition with_source (s : source T) l (f : T -> verdict Key T) : verdict Key T :=
  match s with
  | Val v => f v
  | Own i => match l !! i with Some e => f (value e) | None => Undefined end
  end.

Definition step (o : op Key T) l : verdict Key T :=
  match o with
  | TryEmplace k s => with_source s l (fun v =>
      if has k l || (size l =? C) then Go (RBool false) l else Go (RBool true) (put (mk_entry k v) l))
  | Emplace k s => with_source s l (fun v =>
      if has k l || (size l =? C) then Stop else Go (REntry (mk_entry k v)) (put (mk_entry k v) l))
  | TryInsertOrAssign k s => with_source s l (fun v =>
      if has k l then Go (RBool true) (update k v l)
      else if size l =? C then Go (RBool false) l else Go (RBool true) (put (mk_entry k v) l))
  | InsertOrAssign k s => with_source s l (fun v =>
      match matching k l with
      | e :: _ => Go (REntry (mk_entry (key e) v)) (update k v l)
      | [] => if size l =? C then Stop else Go (REntry (mk_entry k v)) (put (mk_entry k v) l)
      end)
  | Erase k => Go (RBool (has k l)) (remove k l)
  | ErasePos p =>
      let offset := wrap (p - data) in
      if (offset <? size l * sizeof_value) && (offset mod sizeof_value =? 0) then
        Go (RNum (data + offset)) (delete (Z.to_nat (offset / sizeof_value)) l)
      else Stop
  | EraseIf pred =>
      let kept := List.filter (fun e => negb (pred e)) l in Go (RNum (size l - size kept)) kept
  | Clear => Go RUnit []
  | Find k => Go (RFound (value <$> head (matching k l))) l
  | Contains k => Go (RBool (has k l)) l
  | LowerBound k => Go (RNum (size (below key c k l))) l
  | UpperBound k => Go (RNum (size (not_above key c k l))) l
  | EqualRange k => Go (RRange (size (below key c k l)) (size (not_above key c k l))) l
  | Nth i => match l !! i with Some e => Go (REntry e) l | None => Stop end
  | Size => Go (RNum (size l)) l
  | Empty => Go (RBool (size l =? 0)) l
  | Full => Go (RBool (size l =? C)) l
  end.

Inductive behaviour : Type :=
  | Finished (rs : list (result Key T)) (l : list (entry Key T))
  | Stopped (rs : list (result Key T))
  | Wrong.

Definition add_result (x : result Key T) (b : behaviour) : behaviour :=
  match b with
  | Finished rs l => Finished (x :: rs) l
  | Stopped rs => Stopped (x :: rs)
  | Wrong => Wrong
  end.

Fixpoint run (ops : list (op Key T)) l : behaviour :=
  match ops with
  | [] => Finished [] l
  | o :: ops' =>
      match step o l with
      | Go x l' => add_result x (run ops' l')
      | Stop => Stopped []
      | Undefined => Wrong
      end
  end.
End step.
Arguments behaviour : clear implicits.
End MapSpec.

(** ** The concrete map, observed the same way *)

Module MapRun.
Import MapSpec.
Section map_run.
  Context `{SizeT} {Cmp Key T : Type} `{!Comparator Cmp Key Key} (h : hardening) (C data sizeof_value : Z).
  Context (moved torn : entry Key T -> entry Key T) (moves_assign relocate_cannot_throw : bool).
  Abbreviation map := (flat Cmp (entry Key T)).

Definition reader (s : source T) : M map T :=
  match s with Val v => ret v | Own i => let! e := slot_ref (Z.of_nat i) in ret (value e) end.

Definition at_entry (m : M map Z) : M map (result Key T) :=
  let! i := m in let! e := slot_ref i in ret (REntry e).
Definition bool_of (m : M map bool) : M map (result Key T) := let! b := m in ret (RBool b).
Definition num (m : M map Z) : M map (result Key T) := let! n := m in ret (RNum n).

Definition exec (o : op Key T) : M map (result Key T) :=
  match o with
  | TryEmplace k s => bool_of (FlatMap.try_emplace C moved torn moves_assign k (reader s))
  | Emplace k s => at_entry (FlatMap.emplace C moved torn moves_assign k (reader s))
  | TryInsertOrAssign k s => bool_of (FlatMap.try_insert_or_assign C moved torn moves_assign k (reader s))
  | InsertOrAssign k s => at_entry (FlatMap.insert_or_assign C moved torn moves_assign k (reader s))
  | Erase k => bool_of (FlatMap.erase moved torn relocate_cannot_throw k)
  | ErasePos p => num (FlatMap.erase_pos moved torn relocate_cannot_throw data sizeof_value p)
  | EraseIf pred => num (FlatMap.erase_if moved torn relocate_cannot_throw data sizeof_value pred)
  | Clear => FlatMap.clear ;;; ret RUnit
  | Find k =>
      let! p := FlatMap.find k in
      match p with
      | Some i => let! e := slot_ref i in ret (RFound (Some (value e)))
      | None => ret (RFound None)
      end
  | Contains k => bool_of (FlatMap.contains k)
  | LowerBound k => num (FlatMap.lower_bound k)
  | UpperBound k => num (FlatMap.upper_bound k)
  | EqualRange k => let! r := FlatMap.equal_range k in ret (RRange r.1 r.2)
  | Nth i => at_entry (FlatMap.nth h (Z.of_nat i))
  | Size => let! n := get FlatMap.size in ret (RNum n)
  | Empty => let! b := get FlatMap.empty in ret (RBool b)
  | Full => let! b := get (FlatMap.full C) in ret (RBool b)
  end.

Definition contents (f : map) : option (list (entry Key T)) :=
  mapM id (take (Z.to_nat (fsize_ f)) (fstorage_ f)).

Fixpoint run (ops : list (op Key T)) (f : map) : behaviour Key T :=
  match ops with
  | [] => match contents f with Some l => Finished [] l | None => Wrong end
  | o :: ops' =>
      match exec o f with
      | Ret x f' => add_result x (run ops' f')
      | Trap => Stopped []
      | _ => Wrong
      end
  end.
End map_run.
End MapRun.

(** ** Shared steps of the operations *)

Section flat_steps.
  Context `{SizeT} {Cmp K V : Type} (key_of : V -> K) (C : Z) `{!CapacityOk C}.
  Context `{!Comparator Cmp K K, !StrictWeakOrder Cmp K}.
  Context (moved torn : V -> V) (moves_assign relocate_cannot_throw : bool).
  Implicit Types (c : Cmp) (k : K) (vs a b mid : list V) (t : list bool).

(** The search and the test that every keyed operation starts with. *)
Lemma locate_step {A} c t k vs a mid b (f : Z -> bool -> M (flat Cmp V) A) :
  Z.of_nat (length vs) <= C -> sorted key_of c vs -> located key_of c k vs a mid b ->
  (let! index := FlatCore.lower_bound_index key_of k in
   let! found := FlatCore.found_at key_of k index in f index found) (holds C c t vs) =
  f (Z.of_nat (length a)) (match mid with [] => false | _ => true end) (holds C c t vs).
Proof.
  intros Hl Hs Hloc. destruct (located_filters key_of c k vs a mid b Hloc) as (Eb & _).
  pose proof (lower_bound_index_spec key_of C c t k vs Hl Hs) as E1.
  pose proof (found_at_spec key_of C c t k vs Hs) as E2. rewrite Eb in E1, E2.
  rewrite (bind_Ret _ _ _ _ _ E1), (bind_Ret _ _ _ _ _ E2). f_equal.
  destruct Hloc as [-> _ [->|(x & -> & Hx)] Hb]; cbn [app].
  - destruct b as [|y b]; [by rewrite lookup_ge_None_2 by (by rewrite app_nil_r)|].
    rewrite list_lookup_middle by done. unfold equiv. by rewrite (Hb y ltac:(by left)), andb_false_r.
  - by rewrite list_lookup_middle.
Qed.

Lemma rest_nil t' : rest_of t' [] -> t' = [].
Proof. intros [k Hk]. symmetry in Hk. by apply app_nil in Hk as [_ ->]. Qed.

Lemma nothing_throws : true ∉ ([] : list bool).
Proof. apply not_elem_of_nil. Qed.

Lemma insert_shifting_ret c a b e :
  Z.of_nat (length a + length b) < C ->
  FlatCore.insert_shifting moved torn moves_assign (Z.of_nat (length a)) e (holds C c [] (a ++ b)) =
    Ret tt (holds C c [] (a ++ e :: b)).
Proof.
  intros Hl.
  destruct (wp_no_throw _ _ _ _ (insert_shifting_spec C moved torn moves_assign c [] a b e Hl)) as ([] & s & E & t' & Ht & ->).
  - intros s [[Hin _]|[[Hin _]|[Hin _]]]; by apply nothing_throws in Hin.
  - by rewrite E, (rest_nil t' Ht).
Qed.

Lemma erase_at_ret c a x b :
  Z.of_nat (length (a ++ x :: b)) <= C ->
  FlatCore.erase_at moved torn relocate_cannot_throw (Z.of_nat (length a)) (holds C c [] (a ++ x :: b)) =
    Ret tt (holds C c [] (a ++ b)).
Proof.
  intros Hl.
  destruct (wp_no_throw _ _ _ _ (erase_at_spec C moved torn relocate_cannot_throw c [] a x b Hl (fun _ => nothing_throws)))
    as ([] & s & E & t' & Ht & ->).
  - intros s [[Hin _]|[Hin _]]; by apply nothing_throws in Hin.
  - by rewrite E, (rest_nil t' Ht).
Qed.

Lemma try_insert_at_ret c a b e entry :
  Z.of_nat (length a + length b) <= C -> entry (holds C c [] (a ++ b)) = Ret e (holds C c [] (a ++ b)) ->
  FlatCore.try_insert_at C moved torn moves_assign (Z.of_nat (length a)) entry (holds C c [] (a ++ b)) =
    if Z.of_nat (length a + length b) =? C then Ret false (holds C c [] (a ++ b))
    else Ret true (holds C c [] (a ++ e :: b)).
Proof.
  intros Hl He. unfold FlatCore.try_insert_at. mstep. unfold FlatCore.full.
  rewrite fsize_holds, length_app. destruct (Z.eqb_spec (Z.of_nat (length a + length b)) C); [done|].
  rewrite (bind_Ret _ _ _ _ _ He), (bind_Ret _ _ _ _ _ (insert_shifting_ret c a b e ltac:(lia))). done.
Qed.

Lemma flat_erase_ret c k vs :
  Z.of_nat (length vs) <= C -> sorted key_of c vs ->
  FlatCore.erase key_of moved torn relocate_cannot_throw k (holds C c [] vs) =
    Ret (match List.filter (equiv key_of c k) vs with [] => false | _ => true end)
      (holds C c [] (List.filter (fun v => negb (equiv key_of c k v)) vs)).
Proof.
  intros Hl Hs. destruct (locate key_of c k vs Hs) as (a & mid & b & Hloc). unfold FlatCore.erase.
  rewrite (locate_step c [] k vs a mid b _ Hl Hs Hloc).
  destruct (located_filters key_of c k vs a mid b Hloc) as (_ & _ & -> & ->).
  destruct Hloc as [-> _ [->|(x & -> & _)] _]; cbn [negb app]; [done|].
  by rewrite (bind_Ret _ _ _ _ _ (erase_at_ret c a x b Hl)).
Qed.

Section positions.
  Context (data sizeof_value : Z) (Hsz : 0 < sizeof_value) (Hobj : C * sizeof_value < 2 ^ size_bits).

Lemma position_index_spec c t p vs :
  FlatCore.position_index data sizeof_value p (holds C c t vs) =
    let offset := wrap (p - data) in
    if (offset <? Z.of_nat (length vs) * sizeof_value) && (offset mod sizeof_value =? 0)
    then Ret (offset / sizeof_value) (holds C c t vs) else Trap.
Proof.
  unfold FlatCore.position_index. mstep. rewrite fsize_holds. cbv zeta.
  destruct (_ <? _); [|done]. mstep. by destruct (_ mod _ =? 0).
Qed.

(** The address of the element at an index is accepted and gives it back. *)
Lemma position_index_at c t vs (i : nat) :
  (i < length vs)%nat -> Z.of_nat (length vs) <= C ->
  FlatCore.position_index data sizeof_value (data + Z.of_nat i * sizeof_value) (holds C c t vs) =
    Ret (Z.of_nat i) (holds C c t vs).
Proof.
  intros Hi Hl. rewrite position_index_spec. cbv zeta.
  replace (data + Z.of_nat i * sizeof_value - data) with (Z.of_nat i * sizeof_value) by lia.
  assert (0 <= Z.of_nat i * sizeof_value < Z.of_nat (length vs) * sizeof_value) by nia.
  rewrite wrap_small by nia. zbool. rewrite Z.mod_mul, Z.div_mul by lia. done.
Qed.

Lemma erase_pos_at c a x b :
  Z.of_nat (length (a ++ x :: b)) <= C ->
  FlatCore.erase_pos moved torn relocate_cannot_throw data sizeof_value
    (data + Z.of_nat (length a) * sizeof_value) (holds C c [] (a ++ x :: b)) =
    Ret (data + Z.of_nat (length a) * sizeof_value) (holds C c [] (a ++ b)).
Proof.
  intros Hl. unfold FlatCore.erase_pos.
  rewrite (bind_Ret _ _ _ _ _ (position_index_at c [] (a ++ x :: b) (length a) ltac:(rewrite length_app; cbn; lia) Hl)).
  rewrite (bind_Ret _ _ _ _ _ (erase_at_ret c a x b Hl)). mstep. rewrite fsize_holds, length_app.
  unfold ret. do 3 f_equal. destruct (Z.ltb_spec (Z.of_nat (length a)) (Z.of_nat (length a + length b))); lia.
Qed.

Lemma erase_if_from_spec c pred kept rest (erased : Z) :
  Z.of_nat (length (kept ++ rest)) <= C ->
  FlatCore.erase_if_from moved torn relocate_cannot_throw data sizeof_value pred (length rest)
    (data + Z.of_nat (length kept) * sizeof_value) erased (holds C c [] (kept ++ rest)) =
    Ret (erased + Z.of_nat (length rest) - Z.of_nat (length (List.filter (fun v => negb (pred v)) rest)))
      (holds C c [] (kept ++ List.filter (fun v => negb (pred v)) rest)).
Proof.
  revert kept erased. induction rest as [|x rest IH]; intros kept erased Hl; cbn [length FlatCore.erase_if_from List.filter].
  { mstep. rewrite fsize_holds, !app_nil_r. zbool. unfold ret. f_equal. cbn. lia. }
  mstep. rewrite fsize_holds. rewrite length_app in Hl |- *. cbn [length] in Hl |- *.
  replace (_ =? _) with false by (symmetry; apply Z.eqb_neq; nia).
  replace (data + Z.of_nat (length kept) * sizeof_value - data) with (Z.of_nat (length kept) * sizeof_value) by lia.
  rewrite Z.div_mul by lia. rewrite (bind_Ret _ _ _ _ _ (holds_ref C c [] _ (length kept) x ltac:(by rewrite list_lookup_middle))).
  destruct (pred x); cbn [negb].
  - rewrite (bind_Ret _ _ _ _ _ (erase_pos_at c kept x rest ltac:(rewrite length_app; cbn; lia))).
    rewrite IH by (rewrite length_app; lia). f_equal. lia.
  - specialize (IH (kept ++ [x]) erased). rewrite <- !app_assoc, (length_app kept [x]) in IH. cbn [app length] in IH.
    replace (data + Z.of_nat (length kept) * sizeof_value + sizeof_value)
      with (data + Z.of_nat (length kept + 1) * sizeof_value) by lia.
    rewrite IH by (rewrite length_app; cbn; lia). f_equal. cbn [length]. lia.
Qed.

Lemma flat_erase_if_ret c pred vs :
  Z.of_nat (length vs) <= C ->
  let kept := List.filter (fun v => negb (pred v)) vs in
  FlatCore.erase_if moved torn relocate_cannot_throw data sizeof_value pred (holds C c [] vs) =
    Ret (Z.of_nat (length vs) - Z.of_nat (length kept)) (holds C c [] kept).
Proof.
  intros Hl kept. unfold FlatCore.erase_if. rewrite fsize_holds, Nat2Z.id.
  pose proof (erase_if_from_spec c pred [] vs 0 Hl) as E. cbn [length app] in E.
  by rewrite Z.mul_0_l, Z.add_0_r in E.
Qed.
End positions.
End flat_steps.

(** ** Refinement of the map, operation by operation *)

Section map_refinement.
  Context `{SizeT} {Cmp Key T : Type} `{!Comparator Cmp Key Key, !StrictWeakOrder Cmp Key}.
  Context (h : hardening) (C data sizeof_value : Z) `{!CapacityOk C}.
  Context (Hsz : 0 < sizeof_value) (Hobj : C * sizeof_value < 2 ^ size_bits).
  Context (moved torn : entry Key T -> entry Key T) (moves_assign relocate_cannot_throw : bool) (c : Cmp).
  Implicit Types (l a b mid : list (entry Key T)) (k : Key) (e : entry Key T).
  Import MapSpec.
  Abbreviation map_exec := (MapRun.exec h C data sizeof_value moved torn moves_assign relocate_cannot_throw).
  Abbreviation map_step := (MapSpec.step C data sizeof_value c).
  Abbreviation bounded l := (Z.of_nat (length l) <= C).

Definition map_meets (o : op Key T) l : Prop :=
  match map_step o l with
  | Go x l' => map_exec o (holds C c [] l) = Ret x (holds C c [] l') /\ bounded l' /\ sorted key c l'
  | Stop => h <> HARDENING_NONE -> map_exec o (holds C c [] l) = Trap
  | Undefined => True
  end.

Lemma reader_spec s l (f : T -> verdict Key T) (P : verdict Key T -> Prop) :
  P Undefined ->
  (forall v, MapRun.reader s (holds C c [] l) = Ret v (holds C c [] l) -> P (f v)) ->
  P (with_source s l f).
Proof.
  intros HU Hv. destruct s as [v|i]; cbn in *; [by apply Hv|]. destruct (l !! i) as [e|] eqn:E; [|done].
  apply Hv. by rewrite (bind_Ret _ _ _ _ _ (holds_ref C c [] l i e E)).
Qed.

(** Where [k] is, in the terms of the abstract operations. *)
Lemma locate_map k l :
  sorted key c l -> exists a mid b, located key c k l a mid b /\
    has c k l = (match mid with [] => false | _ => true end) /\ matching c k l = mid /\
    remove c k l = a ++ b /\ (forall v, put c (mk_entry k v) l = a ++ mk_entry k v :: b).
Proof.
  intros Hs. destruct (locate key c k l Hs) as (a & mid & b & Hloc). exists a, mid, b.
  destruct (located_filters key c k l a mid b Hloc) as (E1 & E2 & E3 & E4).
  unfold has, matching, remove, put. cbn [key]. by rewrite E1, E2, E3, E4.
Qed.

Lemma read_entry (m : M (flat Cmp (entry Key T)) Z) l a e b :
  m (holds C c [] l) = Ret (Z.of_nat (length a)) (holds C c [] (a ++ e :: b)) ->
  MapRun.at_entry m (holds C c [] l) = Ret (REntry e) (holds C c [] (a ++ e :: b)).
Proof.
  intros E. unfold MapRun.at_entry. rewrite (bind_Ret _ _ _ _ _ E).
  by rewrite (bind_Ret _ _ _ _ _ (holds_ref C c [] _ (length a) e ltac:(by rewrite list_lookup_middle))).
Qed.

Lemma slot_ref_at a e b :
  slot_ref (Z.of_nat (length a)) (holds C c [] (a ++ e :: b)) = Ret e (holds C c [] (a ++ e :: b)).
Proof. apply holds_ref. by rewrite list_lookup_middle. Qed.

(** The insertion, once the place is known and the key is absent. *)
Lemma map_insert_at k v s a b :
  bounded (a ++ b) -> MapRun.reader s (holds C c [] (a ++ b)) = Ret v (holds C c [] (a ++ b)) ->
  FlatMap.try_insert_at C moved torn moves_assign (Z.of_nat (length a)) k (MapRun.reader s) (holds C c [] (a ++ b)) =
    if size (a ++ b) =? C then Ret false (holds C c [] (a ++ b))
    else Ret true (holds C c [] (a ++ mk_entry k v :: b)).
Proof.
  intros Hb Hr. unfold FlatMap.try_insert_at, size. rewrite length_app in Hb |- *.
  apply try_insert_at_ret; [done|lia|]. by rewrite (bind_Ret _ _ _ _ _ Hr).
Qed.

Lemma put_fine k v l a mid b :
  bounded l -> sorted key c l -> located key c k l a mid b -> size l <> C \/ mid <> [] ->
  bounded (a ++ mk_entry k v :: b) /\ sorted key c (a ++ mk_entry k v :: b).
Proof.
  intros Hb Hs Hloc Hne. split; [|by apply (sorted_around key c k l a mid b)].
  destruct Hloc as [-> _ _ _]. unfold size in Hne. rewrite !length_app in *. cbn [length].
  destruct mid; cbn in *; [destruct Hne; [|done]|]; lia.
Qed.

Lemma meets_try_emplace k s l : bounded l -> sorted key c l -> map_meets (TryEmplace k s) l.
Proof.
  intros Hb Hs. unfold map_meets. cbn [step]. apply (reader_spec s l); [done|]. intros v Hr.
  destruct (locate_map k l Hs) as (a & mid & b & Hloc & -> & _ & _ & ->). cbn [MapRun.exec].
  unfold MapRun.bool_of, FlatMap.try_emplace. unfold bind at 1. rewrite (locate_step key C c [] k l a mid b _ Hb Hs Hloc).
  pose proof (put_fine k v l a mid b Hb Hs Hloc) as Hp.
  destruct (loc_mid _ _ _ _ _ _ _ Hloc) as [->|(x & -> & Hx)]; cbn [orb]; [|done].
  pose proof (loc_split _ _ _ _ _ _ _ Hloc) as ->. cbn [app] in *.
  rewrite (map_insert_at k v s a b Hb Hr). destruct (Z.eqb_spec (size (a ++ b)) C); [done|].
  split; [done|]. apply Hp. by left.
Qed.

Lemma meets_emplace k s l : bounded l -> sorted key c l -> map_meets (Emplace k s) l.
Proof.
  intros Hb Hs. unfold map_meets. cbn [step]. apply (reader_spec s l); [done|]. intros v Hr.
  destruct (locate_map k l Hs) as (a & mid & b & Hloc & -> & _ & _ & ->). cbn [MapRun.exec].
  pose proof (locate_step key C c [] k l a mid b (fun index found => metl_harden (negb found) ;;;
    let! inserted := FlatMap.try_insert_at C moved torn moves_assign index k (MapRun.reader s) in
    metl_harden inserted ;;; slot_ref index ;;; ret index) Hb Hs Hloc) as E.
  pose proof (put_fine k v l a mid b Hb Hs Hloc) as Hp.
  destruct (loc_mid _ _ _ _ _ _ _ Hloc) as [->|(x & -> & Hx)]; cbn [orb negb] in *; [|intros _; by apply bind_Trap].
  pose proof (loc_split _ _ _ _ _ _ _ Hloc) as ->. cbn [app] in *. revert E. mstep.
  pose proof (map_insert_at k v s a b Hb Hr) as Ei. revert Ei.
  destruct (Z.eqb_spec (size (a ++ b)) C); intros Ei; rewrite (bind_Ret _ _ _ _ _ Ei); intros E.
  - intros _. by apply bind_Trap.
  - split; [|apply Hp; by left]. apply read_entry. unfold FlatMap.emplace. rewrite E. mstep.
    by rewrite (bind_Ret _ _ _ _ _ (slot_ref_at a (mk_entry k v) b)).
Qed.

Lemma sorted_same_key a x b e :
  sorted key c (a ++ x :: b) -> key e = key x -> sorted key c (a ++ e :: b).
Proof.
  unfold sorted. intros Hs Ek. apply StronglySorted_app in Hs as (H1 & Ha & Hb).
  apply StronglySorted_cons in Hb as [Hx Hb]. apply StronglySorted_app_2; [|done|].
  - intros y z Hy [->|Hz]%elem_of_cons; [rewrite Ek|]; apply H1; try done; by (left || right).
  - apply StronglySorted_cons. by rewrite Ek.
Qed.

Lemma update_located k v l a x b :
  located key c k l a [x] b -> update c k v l = a ++ mk_entry (key x) v :: b.
Proof.
  intros Hloc. destruct Hloc as [-> Ha Hm Hb]. unfold update. rewrite !fmap_app. cbn [fmap list_fmap app].
  destruct Hm as [|(x' & [= <-] & ->)]; [done|].
  assert (forall l', (forall y, y ∈ l' -> equiv key c k y = false) ->
    (fun e => if equiv key c k e then mk_entry (key e) v else e) <$> l' = l') as Hid.
  { intros l' Hl'. rewrite <- (list_fmap_id l') at 2. apply list_fmap_ext. intros i y Hy.
    by rewrite (Hl' y (list_elem_of_lookup_2 _ _ _ Hy)). }
  rewrite !Hid; [done|..]; unfold equiv; intros y Hy.
  - by rewrite (Hb y Hy), andb_false_r.
  - by rewrite (Ha y Hy).
Qed.

Lemma assign_value_spec s v a x b :
  MapRun.reader s (holds C c [] (a ++ x :: b)) = Ret v (holds C c [] (a ++ x :: b)) ->
  FlatMap.assign_value (Z.of_nat (length a)) (MapRun.reader s) (holds C c [] (a ++ x :: b)) =
    Ret tt (holds C c [] (a ++ mk_entry (key x) v :: b)).
Proof.
  intros Hr. unfold FlatMap.assign_value.
  rewrite (bind_Ret _ _ _ _ _ Hr), (bind_Ret _ _ _ _ _ (slot_ref_at a x b)). by apply holds_assign.
Qed.

Lemma meets_try_insert_or_assign k s l : bounded l -> sorted key c l -> map_meets (TryInsertOrAssign k s) l.
Proof.
  intros Hb Hs. unfold map_meets. cbn [step]. apply (reader_spec s l); [done|]. intros v Hr.
  destruct (locate_map k l Hs) as (a & mid & b & Hloc & -> & _ & _ & ->). cbn [MapRun.exec].
  unfold MapRun.bool_of, FlatMap.try_insert_or_assign. unfold bind at 1.
  rewrite (locate_step key C c [] k l a mid b _ Hb Hs Hloc).
  pose proof (put_fine k v l a mid b Hb Hs Hloc) as Hp.
  destruct (loc_mid _ _ _ _ _ _ _ Hloc) as [->|(x & -> & Hx)].
  - pose proof (loc_split _ _ _ _ _ _ _ Hloc) as ->. cbn [app] in *.
    rewrite (map_insert_at k v s a b Hb Hr). destruct (Z.eqb_spec (size (a ++ b)) C); [done|].
    split; [done|]. apply Hp. by left.
  - rewrite (update_located k v l a x b Hloc). pose proof (loc_split _ _ _ _ _ _ _ Hloc) as ->. cbn [app] in *.
    rewrite (bind_Ret _ _ _ _ _ (assign_value_spec s v a x b Hr)). cbn. split; [done|].
    split; [by rewrite length_app in *|by apply (sorted_same_key a x)].
Qed.

Lemma meets_insert_or_assign k s l : bounded l -> sorted key c l -> map_meets (InsertOrAssign k s) l.
Proof.
  intros Hb Hs. unfold map_meets. cbn [step]. apply (reader_spec s l); [done|]. intros v Hr.
  destruct (locate_map k l Hs) as (a & mid & b & Hloc & _ & -> & _ & ->). cbn [MapRun.exec].
  pose proof (locate_step key C c [] k l a mid b (fun index found =>
    if found then FlatMap.assign_value index (MapRun.reader s) ;;; slot_ref index ;;; ret index
    else let! stored := FlatMap.try_insert_at C moved torn moves_assign index k (MapRun.reader s) in
      metl_harden stored ;;; slot_ref index ;;; ret index) Hb Hs Hloc) as E.
  pose proof (put_fine k v l a mid b Hb Hs Hloc) as Hp.
  destruct (loc_mid _ _ _ _ _ _ _ Hloc) as [->|(x & -> & Hx)]; cbv match in E |- *.
  - pose proof (loc_split _ _ _ _ _ _ _ Hloc) as ->. cbn [app] in *.
    pose proof (map_insert_at k v s a b Hb Hr) as Ei. revert Ei E.
    destruct (Z.eqb_spec (size (a ++ b)) C); intros Ei; rewrite (bind_Ret _ _ _ _ _ Ei); intros E.
    + intros _. by apply bind_Trap.
    + split; [|apply Hp; by left]. apply read_entry. unfold FlatMap.insert_or_assign. rewrite E. mstep.
      by rewrite (bind_Ret _ _ _ _ _ (slot_ref_at a (mk_entry k v) b)).
  - rewrite (update_located k v l a x b Hloc). pose proof (loc_split _ _ _ _ _ _ _ Hloc) as ->. cbn [app] in *.
    rewrite (bind_Ret _ _ _ _ _ (assign_value_spec s v a x b Hr)) in E.
    rewrite (bind_Ret _ _ _ _ _ (slot_ref_at a (mk_entry (key x) v) b)) in E.
    split; [by apply read_entry|]. split; [by rewrite length_app in *|by apply (sorted_same_key a x)].
Qed.

Lemma meets_erase_key k l : bounded l -> sorted key c l -> map_meets (Erase k) l.
Proof.
  intros Hb Hs. unfold map_meets. cbn [step MapRun.exec]. unfold MapRun.bool_of, FlatMap.erase.
  rewrite (bind_Ret _ _ _ _ _ (flat_erase_ret key C moved torn relocate_cannot_throw c k l Hb Hs)).
  split_and!; [done| |by apply sorted_filter].
  unfold remove. pose proof (List.filter_length_le (fun e => negb (equiv key c k e)) l). lia.
Qed.

Lemma meets_erase_pos p l : bounded l -> sorted key c l -> map_meets (ErasePos p) l.
Proof.
  intros Hb Hs. unfold map_meets. cbn [step MapRun.exec]. unfold size.
  pose proof (position_index_spec C data sizeof_value c [] p l) as E. cbv zeta in E |- *.
  set (offset := wrap (p - data)) in *. unfold MapRun.num, FlatMap.erase_pos, FlatCore.erase_pos.
  destruct ((offset <? Z.of_nat (length l) * sizeof_value) && (offset mod sizeof_value =? 0)) eqn:Ec.
  2: { intros _. by do 2 apply bind_Trap. }
  rewrite andb_true_iff, Z.ltb_lt, Z.eqb_eq in Ec. destruct Ec as [H1 H2].
  pose proof (wrap_range (p - data)) as Hw. fold offset in Hw.
  assert (offset = sizeof_value * (offset / sizeof_value)) as Eo by (apply Z.div_exact; lia).
  set (i := Z.to_nat (offset / sizeof_value)).
  assert (offset / sizeof_value = Z.of_nat i) as Ei by (unfold i; rewrite Z2Nat.id; [done|apply Z.div_pos; lia]).
  assert (i < length l)%nat as Hi by nia. destruct (lookup_lt_is_Some_2 l i Hi) as [x Hx].
  rewrite bind_assoc, (bind_Ret _ _ _ _ _ E), Ei.
  pose proof (take_drop_middle l i x Hx) as El. assert (length (take i l) = i) as Ht by (rewrite length_take; lia).
  rewrite delete_take_drop. set (a := take i l) in *. set (b := drop (S i) l) in *.
  rewrite <- El in Hb, Hs |- *. rewrite bind_assoc.
  replace i with (length a) by done.
  rewrite (bind_Ret _ _ _ _ _ (erase_at_ret C moved torn relocate_cannot_throw c a x b Hb)).
  repeat mstep. rewrite fsize_holds. rewrite !length_app in *. cbn [length] in *. split_and!.
  - unfold ret. do 3 f_equal. rewrite Eo, Ei, <- Ht.
    destruct (Z.ltb_spec (Z.of_nat (length a)) (Z.of_nat (length a + length b))); nia.
  - lia.
  - by apply (sorted_without key c a [x] b).
Qed.

Lemma meets_erase_if pred l : bounded l -> sorted key c l -> map_meets (EraseIf pred) l.
Proof.
  intros Hb Hs. unfold map_meets. cbn [step MapRun.exec]. unfold MapRun.num, FlatMap.erase_if.
  rewrite (bind_Ret _ _ _ _ _ (flat_erase_if_ret C moved torn relocate_cannot_throw data sizeof_value Hsz Hobj c pred l Hb)).
  split_and!; [done| |by apply sorted_filter].
  pose proof (List.filter_length_le (fun e => negb (pred e)) l). lia.
Qed.

Lemma flat_find_spec k l a mid b :
  bounded l -> sorted key c l -> located key c k l a mid b ->
  FlatCore.find key k (holds C c [] l) =
    Ret (match mid with [] => None | _ => Some (Z.of_nat (length a)) end) (holds C c [] l).
Proof.
  intros Hb Hs Hloc. unfold FlatCore.find. rewrite (locate_step key C c [] k l a mid b _ Hb Hs Hloc).
  by destruct mid.
Qed.

Lemma meets_lookups k l :
  bounded l -> sorted key c l ->
  map_meets (Find k) l /\ map_meets (Contains k) l /\ map_meets (LowerBound k) l /\
  map_meets (UpperBound k) l /\ map_meets (EqualRange k) l.
Proof.
  intros Hb Hs. destruct (locate_map k l Hs) as (a & mid & b & Hloc & Eh & Em & _).
  pose proof (flat_find_spec k l a mid b Hb Hs Hloc) as Ef. unfold map_meets. cbn [step MapRun.exec].
  refine (conj _ (conj _ (conj _ (conj _ _)))).
  - unfold FlatMap.find. rewrite (bind_Ret _ _ _ _ _ Ef), Em.
    destruct (loc_mid _ _ _ _ _ _ _ Hloc) as [->|(x & -> & Hx)]; [done|]. split; [|done].
    pose proof (loc_split _ _ _ _ _ _ _ Hloc) as ->. cbn [app]. by rewrite (bind_Ret _ _ _ _ _ (slot_ref_at a x b)).
  - unfold MapRun.bool_of, FlatMap.contains, FlatCore.contains. rewrite bind_assoc, (bind_Ret _ _ _ _ _ Ef), Eh.
    by destruct mid.
  - unfold MapRun.num, FlatMap.lower_bound. by rewrite (bind_Ret _ _ _ _ _ (lower_bound_index_spec key C c [] k l Hb Hs)).
  - unfold MapRun.num, FlatMap.upper_bound. by rewrite (bind_Ret _ _ _ _ _ (upper_bound_index_spec key C c [] k l Hb Hs)).
  - unfold FlatMap.equal_range. by rewrite (bind_Ret _ _ _ _ _ (equal_range_spec key C c [] k l Hb Hs)).
Qed.

Lemma meets_observers (i : nat) l :
  bounded l -> sorted key c l ->
  map_meets (Nth i) l /\ map_meets Clear l /\ map_meets Size l /\ map_meets Empty l /\ map_meets Full l.
Proof.
  intros Hb Hs. unfold map_meets. cbn [step MapRun.exec].
  refine (conj _ (conj _ (conj _ (conj _ _)))).
  - unfold MapRun.at_entry, FlatMap.nth. destruct (l !! i) as [e|] eqn:E.
    + pose proof (lookup_lt_Some _ _ _ E). rewrite !bind_assoc. mstep. rewrite fsize_holds. zbool. rewrite bind_assoc. mstep.
      rewrite bind_assoc, !(bind_Ret _ _ _ _ _ (holds_ref C c [] l i e E)). mstep.
      by rewrite !(bind_Ret _ _ _ _ _ (holds_ref C c [] l i e E)).
    + intros Hh. apply lookup_ge_None in E. apply bind_Trap. mstep. rewrite fsize_holds. zbool.
      by apply bind_Trap, metl_assert_false.
  - unfold FlatMap.clear. rewrite (bind_Ret _ _ _ _ _ (flat_clear C c [] l Hb)).
    pose proof (capacity_bounds C). split_and!; [done|cbn; lia|constructor].
  - mstep. by unfold FlatMap.size; rewrite fsize_holds.
  - mstep. by unfold FlatMap.empty; rewrite fsize_holds.
  - mstep. by unfold FlatMap.full, FlatCore.full; rewrite fsize_holds.
Qed.

Lemma exec_map_meets o l : bounded l -> sorted key c l -> map_meets o l.
Proof.
  intros Hb Hs. destruct o;
    first [by apply meets_try_emplace | by apply meets_emplace | by apply meets_try_insert_or_assign
      | by apply meets_insert_or_assign | by apply meets_erase_key | by apply meets_erase_pos
      | by apply meets_erase_if | by apply meets_lookups | by apply (meets_observers 0) | by apply meets_observers].
Qed.

Lemma contents_holds l : MapRun.contents (holds C c [] l) = Some l.
Proof.
  unfold MapRun.contents. rewrite fsize_holds, Nat2Z.id. unfold holds. cbn [fstorage_].
  rewrite take_app_le by (by rewrite length_fmap). rewrite take_ge by (by rewrite length_fmap).
  apply mapM_Some. induction l; cbn; by constructor.
Qed.

Lemma map_run_refines ops l :
  h <> HARDENING_NONE -> bounded l -> sorted key c l ->
  MapSpec.run C data sizeof_value c ops l <> Wrong ->
  MapRun.run h C data sizeof_value moved torn moves_assign relocate_cannot_throw ops (holds C c [] l) =
    MapSpec.run C data sizeof_value c ops l.
Proof.
  intros Hh. revert l. induction ops as [|o ops IH]; intros l Hb Hs; cbn [MapRun.run MapSpec.run].
  { by rewrite contents_holds. }
  pose proof (exec_map_meets o l Hb Hs) as S. unfold map_meets in S.
  destruct (map_step o l) as [x l'| |]; [|by rewrite (S Hh)|done].
  destruct S as (E & Hb' & Hs'). rewrite E. intros Hw. f_equal. apply IH; [done|done|].
  intros Ew. by rewrite Ew in Hw.
Qed.

Lemma map_run_sorted ops l :
  bounded l -> sorted key c l ->
  match MapSpec.run C data sizeof_value c ops l with Finished _ l' => sorted key c l' | _ => True end.
Proof.
  revert l. induction ops as [|o ops IH]; intros l Hb Hs; cbn [MapSpec.run]; [done|].
  pose proof (exec_map_meets o l Hb Hs) as S. unfold map_meets in S.
  destruct (map_step o l) as [x l'| |]; [|done|done]. destruct S as (_ & Hb' & Hs').
  specialize (IH l' Hb' Hs'). by destruct (MapSpec.run C data sizeof_value c ops l').
Qed.
End map_refinement.

(** ** Two containers *)

Section flat_pairs.
  Context `{SizeT} {Cmp K V : Type} (key_of : V -> K) (C : Z) `{!CapacityOk C}.
  Context (moved torn : V -> V).
  Implicit Types (c : Cmp) (us vs ws : list V) (t : list bool).
  Abbreviation bounded vs := (Z.of_nat (length vs) <= C).

(** Two containers with these comparators and contents; what is left of each
    script is a rest of it. *)
Definition pair_of c1 c2 (t1 t2 : list bool) us vs (p : flat Cmp V * flat Cmp V) : Prop :=
  exists t1' t2', rest_of t1' t1 /\ rest_of t2' t2 /\ p = (holds C c1 t1' us, holds C c2 t2' vs).

(** An exception left each container with as many elements as its size says. *)
Definition pair_broken c1 c2 (t1 t2 : list bool) (p : flat Cmp V * flat Cmp V) : Prop :=
  (true ∈ t1 \/ true ∈ t2) /\ exists us vs, bounded us /\ bounded vs /\ pair_of c1 c2 t1 t2 us vs p.

Lemma pair_refl c1 c2 t1 t2 us vs : pair_of c1 c2 t1 t2 us vs (holds C c1 t1 us, holds C c2 t2 vs).
Proof. exists t1, t2. split_and!; [apply rest_refl..|done]. Qed.

Lemma pair_broken_intro c1 c2 t1 t2 t1' t2' us vs :
  true ∈ t1 \/ true ∈ t2 -> bounded us -> bounded vs -> rest_of t1' t1 -> rest_of t2' t2 ->
  pair_broken c1 c2 t1 t2 (holds C c1 t1' us, holds C c2 t2' vs).
Proof. intros Hin Hu Hv H1 H2. split; [done|]. exists us, vs. split_and!; [done|done|]. by exists t1', t2'. Qed.

(** A move out of an element of a container that holds [vs]. *)
Lemma wp_move_out c t t0 vs (i : nat) v Q E :
  rest_of t t0 -> vs !! i = Some v ->
  (forall t', rest_of t' t0 -> Q v (holds C c t' (<[i := moved v]> vs))) ->
  (forall t', rest_of t' t0 -> true ∈ t0 -> E (holds C c t' (<[i := torn v]> vs))) ->
  wp (FlatCore.move_from moved torn (Z.of_nat i)) Q E (holds C c t vs).
Proof.
  intros Ht Hv HQ HE. pose proof (lookup_lt_Some _ _ _ Hv).
  assert (length (take i vs) = i) as Hl by (rewrite length_take; lia).
  rewrite <- (take_drop_middle vs i v Hv) in HQ, HE |- *.
  rewrite holds_split. apply wp_move_from; [by rewrite length_fmap, Hl|intros _|intros Hh];
    [specialize (HQ (tail t) (rest_tail_of _ _ Ht))|specialize (HE (tail t) (rest_tail_of _ _ Ht) (rest_head _ _ Ht Hh))];
    rewrite insert_middle_at in * by done; by rewrite holds_split in *.
Qed.

Lemma holds_assign_at c t vs (i : nat) y :
  (i < length vs)%nat -> slot_assign (Z.of_nat i) y (holds C c t vs) = Ret tt (holds C c t (<[i := y]> vs)).
Proof.
  intros Hi. destruct (lookup_lt_is_Some_2 vs i Hi) as [v Hv].
  assert (length (take i vs) = i) as Hl by (rewrite length_take; lia).
  rewrite <- (take_drop_middle vs i v Hv). rewrite insert_middle_at by done. apply holds_assign. by rewrite Hl.
Qed.

Lemma holds_fst_size c1 c2 t1 t2 us vs :
  on_fst (get fsize_) (holds C c1 t1 us, holds C c2 t2 vs) =
    Ret (Z.of_nat (length us)) (holds C c1 t1 us, holds C c2 t2 vs).
Proof. done. Qed.

Lemma holds_snd_size c1 c2 t1 t2 us vs :
  on_snd (get fsize_) (holds C c1 t1 us, holds C c2 t2 vs) =
    Ret (Z.of_nat (length vs)) (holds C c1 t1 us, holds C c2 t2 vs).
Proof. done. Qed.

(** The longer container gives up its tail. *)
Lemma shrink_snd c1 c2 t1 t2 us vs ws :
  bounded (vs ++ ws) ->
  while_loop (length ws) (fun p => Z.of_nat (length vs) <? fsize_ p.2)
    (on_snd (modify (fun f => set_fsize (wrap (fsize_ f - 1)) f) ;;;
             let! n := get fsize_ in slot_destroy n)) (holds C c1 t1 us, holds C c2 t2 (vs ++ ws)) =
  Ret tt (holds C c1 t1 us, holds C c2 t2 vs).
Proof.
  induction ws as [|w ws IH] using rev_ind; intros Hl; rewrite ?app_nil_r, ?app_assoc in *.
  { cbn [length while_loop snd]. rewrite fsize_holds. by zbool. }
  rewrite (length_app ws), Nat.add_1_r. cbn [while_loop snd]. rewrite fsize_holds, !length_app in *. cbn [length] in *. zbool.
  pose proof (flat_drop_last C c2 t2 (vs ++ ws) w ltac:(rewrite length_app; lia)) as E.
  rewrite (bind_Ret _ _ _ _ _ (on_snd_Ret _ (holds C c1 t1 us, _) _ _ E)). apply IH. lia.
Qed.

(** *** The tail that only the longer container has *)

Lemma flat_move_tail_spec c1 c2 t1 t2 us vs :
  (length us < length vs)%nat -> bounded vs ->
  wp (FlatCore.move_tail moved torn (Z.of_nat (length us)))
    (fun _ => pair_of c1 c2 t1 t2 (us ++ drop (length us) vs) (take (length us) vs))
    (pair_broken c1 c2 t1 t2) (holds C c1 t1 us, holds C c2 t2 vs).
Proof.
  intros Hlt Hb. unfold FlatCore.move_tail. apply (wp_bind_Ret _ _ _ _ _ _ _ (holds_snd_size c1 c2 t1 t2 us vs)).
  replace (Z.to_nat (Z.of_nat (length vs) - Z.of_nat (length us))) with (length vs - length us)%nat by lia.
  set (n := length us). apply wp_bind.
  eapply wp_mono; [apply (wp_for_up (fun i p => exists (k : nat) ws t1' t2', i = Z.of_nat k /\ (n <= k)%nat /\
    length ws = length vs /\ take n ws = take n vs /\ drop k ws = drop k vs /\ rest_of t1' t1 /\ rest_of t2' t2 /\
    p = (holds C c1 t1' (us ++ take (k - n) (drop n vs)), holds C c2 t2' ws)) (pair_broken c1 c2 t1 t2))| |done].
  - exists n, vs, t1, t2. rewrite Nat.sub_diag, take_0, app_nil_r. split_and!; try apply rest_refl; done.
  - intros i p Hi (k & ws & t1' & t2' & -> & Hk & Hw & Htk & Hdk & Ht1 & Ht2 & ->).
    destruct (lookup_lt_is_Some_2 vs k ltac:(lia)) as [v Hv].
    assert (ws !! k = Some v) as Hwk by (rewrite <- (Nat.add_0_r k), <- lookup_drop, Hdk, lookup_drop, Nat.add_0_r; done).
    set (us' := us ++ take (k - n) (drop n vs)).
    assert (length us' = k) as Hu' by (unfold us'; rewrite length_app, length_take, length_drop; fold n; lia).
    apply wp_bind, wp_on_snd. apply (wp_move_out c2 t2' t2 ws k v); [done|done| |].
    + intros t2'' Ht2''.
      destruct (append_spare C c1 t1' us' v ltac:(lia)) as (s & E1 & E2). rewrite Hu' in E1.
      apply (wp_bind_Ret _ _ _ _ _ _ _ (on_fst_Ret _ (holds C c1 t1' us', _) _ _ E1)).
      apply (wp_Ret _ _ _ _ _ _ (on_fst_Ret _ (s, holds C c2 t2'' (<[k := moved v]> ws)) _ _ E2)).
      exists (S k), (<[k := moved v]> ws), t1', t2''. split_and!; try done; [lia|lia|by rewrite length_insert| | |].
      * by rewrite take_insert_ge by lia.
      * rewrite drop_insert_lt by lia.
        pose proof (f_equal (drop 1) Hdk) as Hd1. by rewrite !drop_drop, Nat.add_1_r in Hd1.
      * do 2 f_equal. unfold us'. rewrite <- app_assoc. f_equal.
        replace (S k - n)%nat with (S (k - n)) by lia. symmetry. apply take_S_r.
        rewrite lookup_drop. by replace (n + (k - n))%nat with k by lia.
    + intros t2'' Ht2'' Hin. apply pair_broken_intro; [by right|lia|rewrite length_insert; lia|done|done].
  - cbn. intros _ p (k & ws & t1' & t2' & Ek & Hk & Hw & Htk & _ & Ht1 & Ht2 & ->).
    assert (k = length vs) as -> by lia. rewrite (take_ge (drop n vs)) by (rewrite length_drop; lia).
    assert (length (take n ws) = n) as Hn by (rewrite length_take; lia).
    pose proof (shrink_snd c1 c2 t1' t2' (us ++ drop n vs) (take n ws) (drop n ws)
      ltac:(rewrite take_drop; lia)) as E. rewrite take_drop, Hn in E.
    apply (wp_Ret _ _ _ _ tt (holds C c1 t1' (us ++ drop n vs), holds C c2 t2' (take n ws))).
    + cbn [snd]. rewrite fsize_holds. replace (Z.to_nat (Z.of_nat (length ws) - Z.of_nat n)) with (length (drop n ws)); [done|].
      rewrite length_drop. lia.
    + rewrite Htk. by exists t1', t2'.
Qed.

(** *** [swap] *)

Section swap.
  Context (swap_elements : Z -> M (flat Cmp V * flat Cmp V) unit).

(** What the class's element swap does, or how it fails. *)
Definition swaps_elements : Prop := forall c1 c2 t1 t2 us vs (i : nat) u v,
  us !! i = Some u -> vs !! i = Some v ->
  wp (swap_elements (Z.of_nat i))
    (fun _ => pair_of c1 c2 t1 t2 (<[i := v]> us) (<[i := u]> vs))
    (fun p => (true ∈ t1 \/ true ∈ t2) /\ exists us' vs', length us' = length us /\ length vs' = length vs /\
      pair_of c1 c2 t1 t2 us' vs' p) (holds C c1 t1 us, holds C c2 t2 vs).

Hypothesis Hswap : swaps_elements.

Lemma pair_rest c1 c2 t1 t2 t1' t2' us vs p :
  rest_of t1' t1 -> rest_of t2' t2 -> pair_of c1 c2 t1' t2' us vs p -> pair_of c1 c2 t1 t2 us vs p.
Proof.
  intros H1 H2 (s1 & s2 & Hs1 & Hs2 & ->). exists s1, s2. split_and!; [by etrans|by etrans|done].
Qed.

Lemma rest_in t' t : rest_of t' t -> true ∈ t' -> true ∈ t.
Proof. intros [k ->] Hin. apply elem_of_app. by right. Qed.

Lemma swap_prefix c1 c2 t1 t2 us vs (n : nat) :
  (n <= length us)%nat -> (n <= length vs)%nat -> bounded us -> bounded vs ->
  wp (for_up n 0 swap_elements)
    (fun _ => pair_of c1 c2 t1 t2 (take n vs ++ drop n us) (take n us ++ drop n vs))
    (pair_broken c1 c2 t1 t2) (holds C c1 t1 us, holds C c2 t2 vs).
Proof.
  intros Hu Hv Hbu Hbv.
  eapply wp_mono; [apply (wp_for_up (fun i p => exists k : nat, i = Z.of_nat k /\ (k <= n)%nat /\
    pair_of c1 c2 t1 t2 (take k vs ++ drop k us) (take k us ++ drop k vs) p) (pair_broken c1 c2 t1 t2))| |done].
  - exists 0%nat. split_and!; [done|lia|apply pair_refl].
  - intros i p Hi (k & -> & Hk & t1' & t2' & Ht1 & Ht2 & ->).
    destruct (lookup_lt_is_Some_2 us k ltac:(lia)) as [u Hu']. destruct (lookup_lt_is_Some_2 vs k ltac:(lia)) as [v Hv'].
    eapply wp_mono; [apply (Hswap c1 c2 t1' t2' _ _ k u v); by rewrite take_drop_lookup by lia| |].
    + cbn. intros _ p Hp. exists (S k). split_and!; [lia|lia|].
      rewrite (take_drop_insert vs us k v u), (take_drop_insert us vs k u v) in Hp by done. by eapply pair_rest.
    + cbn. intros p (Hin & us' & vs' & Hl1 & Hl2 & Hp). split.
      { destruct Hin; [left|right]; by eapply rest_in. }
      exists us', vs'. rewrite Hl1, Hl2, !length_app, !length_take, !length_drop.
      split_and!; [lia|lia|by eapply pair_rest].
  - cbn. intros _ p (k & Ek & Hk & Hp). assert (k = n) as -> by lia. done.
Qed.

Lemma pair_broken_rest c1 c2 t1 t2 t1' t2' p :
  rest_of t1' t1 -> rest_of t2' t2 -> pair_broken c1 c2 t1' t2' p -> pair_broken c1 c2 t1 t2 p.
Proof.
  intros H1 H2 (Hin & us & vs & Hu & Hv & Hp). split; [destruct Hin; [left|right]; by eapply rest_in|].
  exists us, vs. split_and!; [done|done|by eapply pair_rest].
Qed.

(** The tail, after the common part has been swapped. *)
Lemma move_tail_after c1 c2 t1 t2 (short long : list V) :
  (length short < length long)%nat -> bounded long ->
  wp (FlatCore.move_tail moved torn (Z.of_nat (length short)))
    (fun _ => pair_of c1 c2 t1 t2 long short) (pair_broken c1 c2 t1 t2)
    (holds C c1 t1 (take (length short) long), holds C c2 t2 (short ++ drop (length short) long)).
Proof.
  intros Hlt Hb. assert (length (take (length short) long) = length short) as Hl by (rewrite length_take; lia).
  pose proof (flat_move_tail_spec c1 c2 t1 t2 (take (length short) long) (short ++ drop (length short) long)) as Hm.
  rewrite Hl, take_app_length, drop_app_length, take_drop in Hm.
  apply Hm; rewrite length_app, length_drop; lia.
Qed.

Lemma swap_contents_spec c1 c2 t1 t2 us vs :
  bounded us -> bounded vs ->
  wp (FlatCore.swap_contents moved torn swap_elements)
    (fun _ => pair_of c2 c1 t1 t2 vs us) (pair_broken c2 c1 t1 t2) (holds C c1 t1 us, holds C c2 t2 vs).
Proof.
  intros Hbu Hbv. unfold FlatCore.swap_contents. do 4 (eapply wp_bind_Ret; [reflexivity|]).
  change (wp (?m) ?Q ?E _) with (wp m Q E (holds C c2 t1 us, holds C c1 t2 vs)).
  apply (wp_bind_Ret _ _ _ _ _ _ _ (holds_fst_size c2 c1 t1 t2 us vs)).
  apply (wp_bind_Ret _ _ _ _ _ _ _ (holds_snd_size c2 c1 t1 t2 us vs)). cbv zeta.
  set (n := min (length us) (length vs)).
  replace (if Z.of_nat (length us) <? Z.of_nat (length vs) then Z.of_nat (length us) else Z.of_nat (length vs))
    with (Z.of_nat n) by (destruct (Z.ltb_spec (Z.of_nat (length us)) (Z.of_nat (length vs))); lia).
  rewrite Nat2Z.id. apply wp_bind. eapply wp_mono; [apply (swap_prefix c2 c1 t1 t2 us vs n); [lia|lia|done|done]| |done].
  cbn. intros _ p (t1' & t2' & Ht1 & Ht2 & ->).
  assert (length (take n vs ++ drop n us) = length us) as H1 by (rewrite length_app, length_take, length_drop; lia).
  assert (length (take n us ++ drop n vs) = length vs) as H2 by (rewrite length_app, length_take, length_drop; lia).
  destruct (Nat.lt_trichotomy (length us) (length vs)) as [Hlt|[Heq|Hgt]]; zbool.
  - assert (n = length us) as -> by lia. rewrite (drop_ge us), (take_ge us), app_nil_r by done.
    eapply wp_mono; [by apply (move_tail_after c2 c1 t1' t2' us vs)|cbn; intros _ p Hp; by eapply pair_rest|].
    intros p Hp. by eapply pair_broken_rest.
  - rewrite (drop_ge us), (take_ge us), (drop_ge vs), (take_ge vs), !app_nil_r by lia. by exists t1', t2'.
  - assert (n = length vs) as -> by lia. rewrite (drop_ge vs), (take_ge vs), app_nil_r by done.
    apply wp_swapped. eapply wp_mono; [by apply (move_tail_after c1 c2 t2' t1' vs us)| |].
    + cbn. intros _ p (s1 & s2 & Hs1 & Hs2 & ->). exists s2, s1. split_and!; [by etrans|by etrans|done].
    + intros p (Hin & ws & xs & Hw & Hx & s1 & s2 & Hs1 & Hs2 & ->).
      split; [destruct Hin; [right|left]; by eapply rest_in|]. exists xs, ws. split_and!; [done|done|].
      exists s2, s1. split_and!; [by etrans|by etrans|done].
Qed.

(** Both containers are emptied when an element's swap or move throws. *)
Lemma swap_spec c1 c2 t1 t2 us vs (swap_cannot_throw : bool) :
  bounded us -> bounded vs -> (swap_cannot_throw = true -> (true ∉ t1) /\ (true ∉ t2)) ->
  wp (FlatCore.swap moved torn swap_elements swap_cannot_throw false)
    (fun _ => pair_of c2 c1 t1 t2 vs us)
    (fun p => (true ∈ t1 \/ true ∈ t2) /\ pair_of c2 c1 t1 t2 [] [] p) (holds C c1 t1 us, holds C c2 t2 vs).
Proof.
  intros Hu Hv Hnt. unfold FlatCore.swap. pose proof (swap_contents_spec c1 c2 t1 t2 us vs Hu Hv) as Hs.
  destruct swap_cannot_throw.
  - destruct (Hnt eq_refl) as [H1 H2]. eapply wp_mono; [exact Hs|done|]. by intros p ([Hin|Hin] & _).
  - apply wp_guarded. eapply wp_mono; [exact Hs|done|].
    intros p (Hin & xs & ys & Hx & Hy & t1' & t2' & Ht1 & Ht2 & ->).
    exists (holds C c2 t1' [], holds C c1 t2' []). split; [|by split; [|exists t1', t2']].
    rewrite (bind_Ret _ _ _ _ _ (on_fst_Ret _ (holds C c2 t1' xs, _) _ _ (flat_clear C c2 t1' xs Hx))).
    exact (on_snd_Ret _ (holds C c2 t1' [], holds C c1 t2' ys) _ _ (flat_clear C c1 t2' ys Hy)).
Qed.
End swap.

(** *** Copy and move *)

Lemma flat_append_copies_spec c1 c2 t1 t2 vs :
  bounded vs ->
  wp FlatCore.append_copies_from (fun _ => pair_of c1 c2 t1 t2 vs vs)
    (fun p => (true ∈ t1) /\ exists k, pair_of c1 c2 t1 t2 (take k vs) vs p) (holds C c1 t1 [], holds C c2 t2 vs).
Proof.
  intros Hb. unfold FlatCore.append_copies_from. apply (wp_bind_Ret _ _ _ _ _ _ _ (holds_snd_size c1 c2 t1 t2 [] vs)).
  rewrite Nat2Z.id.
  eapply wp_mono; [apply (wp_for_up (fun i p => exists k : nat, i = Z.of_nat k /\ (k <= length vs)%nat /\
    pair_of c1 c2 t1 t2 (take k vs) vs p) (fun p => (true ∈ t1) /\ exists k, pair_of c1 c2 t1 t2 (take k vs) vs p))| |done].
  - exists 0%nat. split_and!; [done|lia|apply pair_refl].
  - intros i p Hi (k & -> & Hk & t1' & t2' & Ht1 & Ht2 & ->).
    destruct (lookup_lt_is_Some_2 vs k ltac:(lia)) as [v Hv].
    apply (wp_bind_Ret _ _ _ _ _ _ _ (on_snd_Ret _ (holds C c1 t1' (take k vs), _) _ _ (holds_ref C c2 t2' vs k v Hv))).
    apply (wp_bind_Ret _ _ _ _ _ _ _ (holds_fst_size c1 c2 t1' t2' (take k vs) vs)).
    assert (length (take k vs) = k) as Hlk by (rewrite length_take; lia).
    pose proof (append_entry C c1 t1' (take k vs) v ltac:(lia)) as Ha.
    unfold wp at 1. rewrite (on_fst_bind _ (fun _ => FlatCore.grow)). apply wp_on_fst.
    eapply wp_mono; [exact Ha| |]; cbn.
    + intros _ s (t1'' & Ht1'' & ->). exists (S k). split_and!; [lia|lia|]. exists t1'', t2'.
      rewrite (take_S_r vs k v Hv). split_and!; [by etrans|done|done].
    + intros s (Hin & t1'' & Ht1'' & ->). split; [by eapply rest_in|]. exists k, t1'', t2'.
      split_and!; [by etrans|done|done].
  - cbn. intros _ p (k & Ek & _ & Hp). assert (k = length vs) as -> by lia. by rewrite take_ge in Hp.
Qed.

Lemma copy_assign_spec c1 c2 t1 t2 us vs :
  bounded us -> bounded vs ->
  wp (FlatCore.copy_assign false) (fun _ => pair_of c2 c2 t1 t2 vs vs)
    (fun p => (true ∈ t1) /\ exists k, pair_of c2 c2 t1 t2 (take k vs) vs p) (holds C c1 t1 us, holds C c2 t2 vs).
Proof.
  intros Hu Hv. unfold FlatCore.copy_assign.
  apply (wp_bind_Ret _ _ _ _ _ _ _ (on_fst_Ret _ (holds C c1 t1 us, _) _ _ (flat_clear C c1 t1 us Hu))).
  do 2 (eapply wp_bind_Ret; [reflexivity|]). by apply flat_append_copies_spec.
Qed.

Lemma append_sorted_spec c1 c2 t1 t2 vs :
  bounded vs ->
  wp (FlatCore.append_sorted_from moved torn)
    (fun _ p => exists ws, length ws = length vs /\ pair_of c1 c2 t1 t2 vs ws p)
    (fun p => (true ∈ t2) /\ exists k ws, length ws = length vs /\ pair_of c1 c2 t1 t2 (take k vs) ws p)
    (holds C c1 t1 [], holds C c2 t2 vs).
Proof.
  intros Hb. unfold FlatCore.append_sorted_from. apply (wp_bind_Ret _ _ _ _ _ _ _ (holds_snd_size c1 c2 t1 t2 [] vs)).
  rewrite Nat2Z.id.
  eapply wp_mono; [apply (wp_for_up (fun i p => exists (k : nat) ws, i = Z.of_nat k /\ (k <= length vs)%nat /\
    length ws = length vs /\ drop k ws = drop k vs /\ pair_of c1 c2 t1 t2 (take k vs) ws p)
    (fun p => (true ∈ t2) /\ exists k ws, length ws = length vs /\ pair_of c1 c2 t1 t2 (take k vs) ws p))| |done].
  - exists 0%nat, vs. split_and!; [done|lia|done|done|apply pair_refl].
  - intros i p Hi (k & ws & -> & Hk & Hw & Hd & t1' & t2' & Ht1 & Ht2 & ->).
    destruct (lookup_lt_is_Some_2 vs k ltac:(lia)) as [v Hv].
    assert (ws !! k = Some v) as Hwk by (rewrite <- (Nat.add_0_r k), <- lookup_drop, Hd, lookup_drop, Nat.add_0_r; done).
    assert (length (take k vs) = k) as Hlk by (rewrite length_take; lia).
    apply wp_bind, wp_on_snd. apply (wp_move_out c2 t2' t2 ws k v); [done|done| |].
    + intros t2'' Ht2''. set (ws' := <[k := moved v]> ws).
      apply (wp_bind_Ret _ _ _ _ _ _ _ (holds_fst_size c1 c2 t1' t2'' (take k vs) ws')).
      destruct (append_spare C c1 t1' (take k vs) v ltac:(lia)) as (s & E1 & E2).
      apply (wp_bind_Ret _ _ _ _ _ _ _ (on_fst_Ret _ (holds C c1 t1' (take k vs), _) _ _ E1)).
      apply (wp_Ret _ _ _ _ _ _ (on_fst_Ret _ (s, holds C c2 t2'' ws') _ _ E2)).
      exists (S k), ws'. split_and!; [lia|lia|unfold ws'; by rewrite length_insert| |].
      * unfold ws'. rewrite drop_insert_lt by lia. pose proof (f_equal (drop 1) Hd) as Hd1.
        by rewrite !drop_drop, Nat.add_1_r in Hd1.
      * rewrite (take_S_r vs k v Hv). by exists t1', t2''.
    + intros t2'' Ht2'' Hin. split; [done|]. exists k, (<[k := torn v]> ws). rewrite length_insert.
      split; [done|]. by exists t1', t2''.
  - cbn. intros _ p (k & ws & Ek & _ & Hw & _ & Hp). assert (k = length vs) as -> by lia.
    rewrite take_ge in Hp by done. by exists ws.
Qed.

Lemma move_assign_spec c1 c2 t1 t2 us vs (moved_comp : Cmp -> Cmp) :
  bounded us -> bounded vs ->
  wp (FlatCore.move_assign moved torn moved_comp false) (fun _ => pair_of c2 (moved_comp c2) t1 t2 vs [])
    (fun p => (true ∈ t2) /\ exists k ws, length ws = length vs /\ pair_of c2 (moved_comp c2) t1 t2 (take k vs) ws p)
    (holds C c1 t1 us, holds C c2 t2 vs).
Proof.
  intros Hu Hv. unfold FlatCore.move_assign.
  apply (wp_bind_Ret _ _ _ _ _ _ _ (on_fst_Ret _ (holds C c1 t1 us, _) _ _ (flat_clear C c1 t1 us Hu))).
  do 3 (eapply wp_bind_Ret; [reflexivity|]). apply wp_bind.
  eapply wp_mono; [by apply (append_sorted_spec c2 (moved_comp c2) t1 t2 vs)| |done].
  cbn. intros _ p (ws & Hw & t1' & t2' & Ht1 & Ht2 & ->).
  apply (wp_Ret _ _ _ _ _ _ (on_snd_Ret _ (holds C c2 t1' vs, _) _ _ (flat_clear C (moved_comp c2) t2' ws ltac:(lia)))).
  by exists t1', t2'.
Qed.
End flat_pairs.

(** ** Element swaps of the two classes *)

Section element_swaps.
  Context `{SizeT} {Cmp : Type} (C : Z) `{!CapacityOk C}.
  Implicit Types (c : Cmp) (t : list bool).

Lemma set_swaps_elements {V} (moved torn : V -> V) :
  swaps_elements C (FlatSet.swap_elements (Cmp := Cmp) moved torn).
Proof.
  intros c1 c2 t1 t2 us vs i u v Hu Hv. pose proof (lookup_lt_Some _ _ _ Hu). pose proof (lookup_lt_Some _ _ _ Hv).
  unfold FlatSet.swap_elements. apply wp_bind, wp_on_fst. apply (wp_move_out C moved torn c1 t1 t1 us i u); [apply rest_refl|done| |].
  2: { intros t1' Ht1 Hin. split; [by left|]. exists (<[i := torn u]> us), vs. rewrite length_insert.
       split_and!; [done|done|]. exists t1', t2. split_and!; [done|apply rest_refl|done]. }
  intros t1' Ht1. apply wp_bind, wp_on_snd. apply (wp_move_out C moved torn c2 t2 t2 vs i v); [apply rest_refl|done| |].
  2: { intros t2' Ht2 Hin. split; [by right|]. exists (<[i := moved u]> us), (<[i := torn v]> vs). rewrite !length_insert.
       split_and!; [done|done|]. by exists t1', t2'. }
  intros t2' Ht2.
  pose proof (holds_assign_at C c1 t1' (<[i := moved u]> us) i v ltac:(by rewrite length_insert)) as E1.
  rewrite list_insert_insert_eq in E1.
  apply (wp_bind_Ret _ _ _ _ _ _ _ (on_fst_Ret _ (holds C c1 t1' (<[i := moved u]> us), _) _ _ E1)).
  apply wp_bind, wp_on_snd, wp_move_entry; cbn [holds fthrows_ snd];
    change (set_fthrows ?t' (mk_flat c2 _ _ t2')) with (holds C c2 t' (<[i := moved v]> vs)).
  - intros _.
    pose proof (holds_assign_at C c2 (tail t2') (<[i := moved v]> vs) i u ltac:(by rewrite length_insert)) as E2.
    rewrite list_insert_insert_eq in E2.
    apply (wp_Ret _ _ _ _ _ _ (on_snd_Ret _ (holds C c1 t1' (<[i := v]> us), _) _ _ E2)).
    exists t1', (tail t2'). split_and!; [done|by apply rest_tail_of|done].
  - intros Hh. split; [right; by eapply rest_head|]. exists (<[i := v]> us), (<[i := moved v]> vs). rewrite !length_insert.
    split_and!; [done|done|]. exists t1', (tail t2'). split_and!; [done|by apply rest_tail_of|done].
Qed.

Section fields.
  Context {Key T A : Type} (field : entry Key T -> A) (set_field : A -> entry Key T -> entry Key T).
  Context (moved_field torn_field : A -> A).
  Context (set_set : forall x y e, set_field x (set_field y e) = set_field x e).
  Implicit Types (us vs : list (entry Key T)).

Lemma move_field_spec c t t0 us (i : nat) u Q E :
  rest_of t t0 -> us !! i = Some u ->
  (forall t', rest_of t' t0 -> Q (field u) (holds C c t' (<[i := set_field (moved_field (field u)) u]> us))) ->
  (forall t', rest_of t' t0 -> true ∈ t0 -> E (holds C c t' (<[i := set_field (torn_field (field u)) u]> us))) ->
  wp (FlatMap.move_field (Cmp := Cmp) field set_field moved_field torn_field (Z.of_nat i)) Q E (holds C c t us).
Proof.
  intros Ht Hu HQ HE. pose proof (lookup_lt_Some _ _ _ Hu). unfold wp, FlatMap.move_field, FlatCore.next_throws.
  rewrite (bind_Ret _ _ _ _ _ (holds_ref C c t us i u Hu)). repeat mstep.
  change (set_fthrows (tail (fthrows_ (holds C c t us))) (holds C c t us)) with (holds C c (tail t) us).
  cbn [holds fthrows_]. destruct t as [|[] t]; cbn [tail] in *; rewrite (bind_Ret _ _ _ _ _ (holds_assign_at C c _ us i _ ltac:(lia))); cbn.
  - by apply HQ.
  - apply HE; [by apply (rest_tail_of (true :: t))|by apply (rest_head (true :: t))].
  - apply HQ. by apply (rest_tail_of (false :: t)).
Qed.

Lemma assign_field_spec c t us (i : nat) e x :
  us !! i = Some e ->
  FlatMap.assign_field (Cmp := Cmp) set_field (Z.of_nat i) x (holds C c t us) = Ret tt (holds C c t (<[i := set_field x e]> us)).
Proof.
  intros He. unfold FlatMap.assign_field. rewrite (bind_Ret _ _ _ _ _ (holds_ref C c t us i e He)).
  apply holds_assign_at. by eapply lookup_lt_Some.
Qed.

Lemma swap_field_spec c1 c2 t1 t2 us vs (i : nat) u v :
  us !! i = Some u -> vs !! i = Some v ->
  wp (FlatMap.swap_field (Cmp := Cmp) field set_field moved_field torn_field (Z.of_nat i))
    (fun _ => pair_of C c1 c2 t1 t2 (<[i := set_field (field v) u]> us) (<[i := set_field (field u) v]> vs))
    (fun p => (true ∈ t1 \/ true ∈ t2) /\ exists us' vs', length us' = length us /\ length vs' = length vs /\
      pair_of C c1 c2 t1 t2 us' vs' p) (holds C c1 t1 us, holds C c2 t2 vs).
Proof.
  intros Hu Hv. pose proof (lookup_lt_Some _ _ _ Hu). pose proof (lookup_lt_Some _ _ _ Hv).
  unfold FlatMap.swap_field. apply wp_bind, wp_on_fst.
  apply (move_field_spec c1 t1 t1 us i u); [apply rest_refl|done| |].
  2: { intros t1' Ht1 Hin. split; [by left|]. eexists _, vs. split_and!; [by apply length_insert|done|].
       exists t1', t2. split_and!; [done|apply rest_refl|done]. }
  intros t1' Ht1. apply wp_bind, wp_on_snd. apply (move_field_spec c2 t2 t2 vs i v); [apply rest_refl|done| |].
  2: { intros t2' Ht2 Hin. split; [by right|]. eexists _, _. split_and!; [by apply length_insert|by apply length_insert|].
       by exists t1', t2'. }
  intros t2' Ht2. set (u' := set_field (moved_field (field u)) u). set (v' := set_field (moved_field (field v)) v).
  pose proof (assign_field_spec c1 t1' (<[i := u']> us) i u' (field v) ltac:(by rewrite list_lookup_insert_eq)) as E1.
  rewrite list_insert_insert_eq in E1. unfold u' at 2 in E1. rewrite set_set in E1.
  apply (wp_bind_Ret _ _ _ _ _ _ _ (on_fst_Ret _ (holds C c1 t1' (<[i := u']> us), holds C c2 t2' (<[i := v']> vs)) _ _ E1)).
  assert (forall s, on_snd FlatCore.next_throws (s : flat Cmp (entry Key T), holds C c2 t2' (<[i := v']> vs)) =
    Ret (match t2' with b :: _ => b | [] => false end) (s, holds C c2 (tail t2') (<[i := v']> vs))) as En by done.
  apply (wp_bind_Ret _ _ _ _ _ _ _ (En _)). clear En.
  destruct t2' as [|[] t2'].
  2: { split; [right; by apply (rest_head _ _ Ht2)|]. eexists _, _. split_and!; [by apply length_insert|by apply length_insert|].
       exists t1', t2'. split_and!; [done|by apply (rest_tail_of _ _ Ht2)|done]. }
  all: pose proof (assign_field_spec c2 t2' (<[i := v']> vs) i v' (field u) ltac:(by rewrite list_lookup_insert_eq)) as E2 ||
    pose proof (assign_field_spec c2 [] (<[i := v']> vs) i v' (field u) ltac:(by rewrite list_lookup_insert_eq)) as E2.
  all: rewrite list_insert_insert_eq in E2; unfold v' at 2 in E2; rewrite set_set in E2.
  all: apply (wp_Ret _ _ _ _ _ _ (on_snd_Ret _ (holds C c1 t1' (<[i := set_field (field v) u]> us), _) _ _ E2)).
  all: eexists t1', _; split_and!; [done| |reflexivity].
  - done.
  - by apply (rest_tail_of _ _ Ht2).
Qed.
End fields.

Lemma map_swaps_elements {Key T} (moved_key torn_key : Key -> Key) (moved_value torn_value : T -> T) :
  swaps_elements C (FlatMap.swap_elements (Cmp := Cmp) moved_key torn_key moved_value torn_value).
Proof.
  intros c1 c2 t1 t2 us vs i u v Hu Hv. pose proof (lookup_lt_Some _ _ _ Hu). pose proof (lookup_lt_Some _ _ _ Hv).
  unfold FlatMap.swap_elements. apply wp_bind.
  eapply wp_mono; [by apply (swap_field_spec key FlatMap.set_key moved_key torn_key ltac:(done) c1 c2 t1 t2 us vs i u v)| |done].
  cbn. intros _ p (t1' & t2' & Ht1 & Ht2 & ->).
  set (u1 := FlatMap.set_key (key v) u). set (v1 := FlatMap.set_key (key u) v).
  eapply wp_mono; [apply (swap_field_spec value FlatMap.set_value moved_value torn_value ltac:(done) c1 c2 t1' t2'
    (<[i := u1]> us) (<[i := v1]> vs) i u1 v1); by rewrite list_lookup_insert_eq| |].
  - cbn. intros _ p Hp. rewrite !list_insert_insert_eq in Hp. unfold FlatMap.set_value, u1, v1, FlatMap.set_key in Hp.
    cbn in Hp. destruct u as [ku xu], v as [kv xv]. cbn in Hp. by eapply pair_rest.
  - intros p (Hin & us' & vs' & Hl1 & Hl2 & Hp). rewrite length_insert in Hl1, Hl2. split.
    { destruct Hin; [left|right]; by eapply rest_in. }
    exists us', vs'. split_and!; [done|done|by eapply pair_rest].
Qed.
End element_swaps.

(** ** Properties *)

Section flat_properties.
  Context `{SizeT}.

(** C3. Refinement: whatever sequence of operations a program performs on a
    fresh [flat_map] whose moves do not throw, with mapped values that may refer
    to the map's own entries, the map returns what an ordered association list
    returns and stops exactly where its preconditions fail; the entries it is
    left with are sorted, so their keys are unique.  Holds for assignable and
    for non-assignable entries, whatever a move leaves behind. *)
Theorem flat_map_refines {Cmp Key T} `{!Comparator Cmp Key Key} (h : hardening) (C data sizeof_value : Z)
    (moved torn : entry Key T -> entry Key T) (moves_assign relocate_cannot_throw : bool) (c : Cmp)
    (ops : list (MapSpec.op Key T)) :
  StrictWeakOrder Cmp Key -> CapacityOk C -> 0 < sizeof_value -> C * sizeof_value < 2 ^ size_bits ->
  h <> HARDENING_NONE -> MapSpec.run C data sizeof_value c ops [] <> MapSpec.Wrong ->
  MapRun.run h C data sizeof_value moved torn moves_assign relocate_cannot_throw ops
    (FlatCore.flat_with C c []) = MapSpec.run C data sizeof_value c ops [] /\
  match MapSpec.run C data sizeof_value c ops [] with
  | MapSpec.Finished _ l => sorted key c l
  | _ => True
  end.
Proof.
  intros HO HC Hsz Hobj Hh Hw. pose proof (capacity_bounds C).
  assert (sorted key c ([] : list (entry Key T))) as Hs by constructor.
  assert (Z.of_nat (length ([] : list (entry Key T))) <= C) as Hb by (cbn; lia).
  pose proof (holds_nil (V := entry Key T) C c []) as E. unfold FlatCore.flat_with. rewrite <- E. split.
  - by apply (map_run_refines h C data sizeof_value Hsz Hobj moved torn moves_assign relocate_cannot_throw c ops []).
  - by apply (map_run_sorted h C data sizeof_value Hsz Hobj moved torn moves_assign relocate_cannot_throw c ops []).
Qed.

(** Lookup: on a sorted [flat_set], for a key or a query of another type
    that agrees with the order, [lower_bound] and [upper_bound] end within the
    documented [floor(log2(size)) + 1] comparisons (the fuel of the search) and
    delimit exactly the elements that are neither before nor after the query;
    [equal_range] is both, [find] the first of them or nothing, and [contains]
    says whether there is one.  Nothing changes. *)
Theorem flat_set_lookup {Cmp Key Q} `{!Comparator Cmp Key Key, !Comparator Cmp Key Q, !Comparator Cmp Q Key}
    (C : Z) (c : Cmp) (t : list bool) (q : Q) (vs : list Key) :
  StrictWeakOrder Cmp Key -> QueryOrder Cmp Key Q -> CapacityOk C -> Z.of_nat (length vs) <= C ->
  sorted id c vs ->
  let f := holds C c t vs in
  exists lo hi : nat,
    FlatSet.lower_bound q f = Ret (Z.of_nat lo) f /\ FlatSet.upper_bound q f = Ret (Z.of_nat hi) f /\
    FlatSet.equal_range q f = Ret (Z.of_nat lo, Z.of_nat hi) f /\
    FlatSet.find q f = Ret (if (lo <? hi)%nat then Some (Z.of_nat lo) else None) f /\
    FlatSet.contains q f = Ret (lo <? hi)%nat f /\
    (lo <= hi)%nat /\
    (forall i v, vs !! i = Some v -> (less c v q = true <-> (i < lo)%nat) /\ (less c q v = true <-> (hi <= i)%nat)).
Proof.
  intros HO HQ HC Hb Hs f. exists (length (below id c q vs)), (length (not_above id c q vs)).
  pose proof (below_not_above id c q vs Hs) as Hle.
  destruct (below_split id c q vs Hs) as [Hlo Hbelow]. destruct (not_above_split id c q vs Hs) as [Hhi Habove].
  set (lo := length (below id c q vs)) in *. set (hi := length (not_above id c q vs)) in *.
  assert (forall i v, vs !! i = Some v -> (less c v q = true <-> (i < lo)%nat) /\ (less c q v = true <-> (hi <= i)%nat)) as Hall.
  { intros i v Hv. split; [exact (Hbelow i v Hv)|]. pose proof (Habove i v Hv) as Ha. cbn in Ha.
    split; [intros E; rewrite E in Ha|intros Hge; destruct (less c q v); [done|]]; cbn in Ha.
    - destruct (decide (i < hi)%nat) as [Hi|]; [by apply Ha in Hi|lia].
    - pose proof (proj1 Ha eq_refl). lia. }
  assert (FlatSet.find q f = Ret (if (lo <? hi)%nat then Some (Z.of_nat lo) else None) f) as Ef.
  { unfold FlatSet.find, FlatCore.find. rewrite (bind_Ret _ _ _ _ _ (lower_bound_index_spec id C c t q vs Hb Hs)).
    pose proof (found_at_spec id C c t q vs Hs) as E. rewrite (bind_Ret _ _ _ _ _ E). fold lo. unfold ret, f. f_equal.
    destruct (vs !! lo) as [v|] eqn:Ev.
    - destruct (Hall lo v Ev) as [H1 H2]. unfold equiv. unfold id at 1 2.
      destruct (less c v q); [by pose proof (proj1 H1 eq_refl); lia|].
      destruct (less c q v); cbn [negb andb]; destruct (Nat.ltb_spec lo hi); try done.
      + by pose proof (proj1 H2 eq_refl); lia.
      + by pose proof (proj2 H2 ltac:(lia)).
    - apply lookup_ge_None in Ev. destruct (Nat.ltb_spec lo hi); [lia|done]. }
  split_and!; [exact (lower_bound_index_spec id C c t q vs Hb Hs)|exact (upper_bound_index_spec id C c t q vs Hb Hs)
    |exact (equal_range_spec id C c t q vs Hb Hs)|done| |done|done].
  unfold FlatSet.contains, FlatCore.contains. unfold FlatSet.find in Ef. rewrite (bind_Ret _ _ _ _ _ Ef).
  by destruct (lo <? hi)%nat.
Qed.

(** What an exception may leave of the elements: none, or all of them but for
    one, which the throwing move itself was reading. *)
Definition survivors {V} (torn : V -> V) (vs vs' : list V) : Prop :=
  vs' = [] \/ exists i, vs' = alter torn i vs.

Lemma survivors_same {V} (torn : V -> V) vs : survivors torn vs vs.
Proof. right. exists (length vs). induction vs; cbn; congruence. Qed.

Lemma survivors_middle {V} (torn : V -> V) a x b : survivors torn (a ++ x :: b) (a ++ torn x :: b).
Proof. right. exists (length a). induction a; cbn; congruence. Qed.

Lemma wp_steps {S A} (m m' : M S A) Q E s : m s = m' s -> wp m' Q E s -> wp m Q E s.
Proof. unfold wp. by intros ->. Qed.

Lemma try_insert_exceptions {Cmp V} (C : Z) `{!CapacityOk C} (moved torn : V -> V) moves_assign (c : Cmp) t a b e :
  Z.of_nat (length (a ++ b)) <= C ->
  wp (FlatCore.try_insert_at C moved torn moves_assign (Z.of_nat (length a)) (FlatCore.move_entry e))
    (fun inserted s => exists t', s = holds C c t' (if (inserted : bool) then a ++ e :: b else a ++ b))
    (fun s => (true ∈ t) /\ exists t' vs', s = holds C c t' vs' /\ survivors torn (a ++ b) vs') (holds C c t (a ++ b)).
Proof.
  intros Hb. unfold FlatCore.try_insert_at. apply (wp_bind_Ret (get _) _ _ _ _ _ (holds C c t (a ++ b)) eq_refl).
  unfold FlatCore.full. rewrite fsize_holds, length_app in *.
  destruct (Z.eqb_spec (Z.of_nat (length a + length b)) C); [by exists t|].
  apply wp_bind, wp_move_entry; cbn [holds fthrows_]; change (set_fthrows ?t' (mk_flat c _ _ t)) with (holds C c t' (a ++ b)).
  2: { intros Hh. split; [by apply (rest_head _ _ (rest_refl t))|]. eexists _, _. split; [done|apply survivors_same]. }
  intros _. apply wp_bind.
  eapply wp_mono; [apply (insert_shifting_spec C moved torn moves_assign c (tail t) a b e); lia| |]; cbn.
  - intros _ s (t' & _ & ->). by exists t'.
  - intros s [(Hin & t' & _ & ->)|[(Hin & t' & us & y & _ & -> & ->)|(Hin & t' & _ & ->)]];
      (split; [by apply (rest_in (tail t)), Hin; apply rest_tail|]); eexists t', _; (split; [done|]).
    + by left.
    + apply survivors_middle.
    + apply survivors_same.
Qed.

(** Exceptions: whichever of the element moves of [try_emplace] or [erase]
    throws (and only if one does), for assignable and for non-assignable elements, the exception finds
    a container whose live slots are exactly its first [size_] ones - nothing is
    leaked, destroyed twice or counted while dead - and that is empty or holds
    all its elements but for the one the move was reading. *)
Theorem flat_set_exceptions {Cmp Key} `{!Comparator Cmp Key Key} (C : Z) (moved torn : Key -> Key)
    (moves_assign relocate_cannot_throw : bool) (c : Cmp) (t : list bool) (k : Key) (vs : list Key) :
  StrictWeakOrder Cmp Key -> CapacityOk C -> Z.of_nat (length vs) <= C -> sorted id c vs ->
  (relocate_cannot_throw = true -> true ∉ t) ->
  let thrown (s : flat Cmp Key) := (true ∈ t) /\ exists t' vs', s = holds C c t' vs' /\ survivors torn vs vs' in
  wp (FlatSet.try_emplace C moved torn moves_assign k)
    (fun inserted s => exists t' vs', s = holds C c t' vs' /\ sorted id c vs' /\
      if (inserted : bool) then vs' ≡ₚ k :: vs else vs' = vs) thrown (holds C c t vs) /\
  wp (FlatSet.erase moved torn relocate_cannot_throw k)
    (fun erased s => exists t' vs', s = holds C c t' vs' /\ sorted id c vs' /\
      if (erased : bool) then exists x, equiv id c k x = true /\ vs ≡ₚ x :: vs' else vs' = vs) thrown (holds C c t vs).
Proof.
  intros HO HC Hb Hs Hnt thrown. destruct (locate id c k vs Hs) as (a & mid & b & Hloc).
  pose proof (loc_split _ _ _ _ _ _ _ Hloc) as Ev. pose proof (loc_mid _ _ _ _ _ _ _ Hloc) as Hmid. split.
  - eapply wp_steps; [exact (locate_step id C c t k vs a mid b _ Hb Hs Hloc)|].
    destruct Hmid as [->|(x & -> & _)]; [|by exists t, vs]. cbn [app] in Ev.
    pose proof (sorted_around id c k vs a [] b k Hs Hloc eq_refl) as Hsk. subst vs.
    eapply wp_mono; [exact (try_insert_exceptions C moved torn moves_assign c t a b k Hb)| |done]. cbn.
    intros [] s (t' & ->); eexists t', _; (split; [done|]); [|done]. split; [done|]. by rewrite Permutation_middle.
  - eapply wp_steps; [exact (locate_step id C c t k vs a mid b _ Hb Hs Hloc)|].
    destruct Hmid as [->|(x & -> & Hx)]; [by exists t, vs|]. cbn [app negb] in *. subst vs.
    apply wp_bind. eapply wp_mono; [exact (erase_at_spec C moved torn relocate_cannot_throw c t a x b Hb Hnt)| |]; cbn.
    + intros _ s (t' & _ & ->). exists t', (a ++ b). split_and!; [done|by apply (sorted_without id c a [x] b)|].
      exists x. by rewrite Permutation_middle.
    + intros s [(Hin & t' & _ & ->)|(Hin & t' & _ & ->)]; (split; [done|]); eexists t', _; (split; [done|]);
        [by left|apply survivors_middle].
Qed.

(** Whole containers: [swap] of two [flat_map]s exchanges entries and
    comparators, for any two sizes, or, if a move of it throws, leaves both
    empty; copy assignment copies entries and comparator, and a copy that throws
    leaves a prefix; move assignment leaves the source empty. *)
Theorem flat_map_assign_swap {Cmp Key T} (C : Z) (moved torn : entry Key T -> entry Key T)
    (moved_key torn_key : Key -> Key) (moved_value torn_value : T -> T) (moved_comp : Cmp -> Cmp)
    (swap_cannot_throw : bool) (c1 c2 : Cmp) (t1 t2 : list bool) (us vs : list (entry Key T)) :
  CapacityOk C -> Z.of_nat (length us) <= C -> Z.of_nat (length vs) <= C ->
  (swap_cannot_throw = true -> (true ∉ t1) /\ (true ∉ t2)) ->
  let s := (holds C c1 t1 us, holds C c2 t2 vs) in
  wp (FlatMap.swap moved torn moved_key torn_key moved_value torn_value swap_cannot_throw false)
    (fun _ => pair_of C c2 c1 t1 t2 vs us) (fun p => (true ∈ t1 \/ true ∈ t2) /\ pair_of C c2 c1 t1 t2 [] [] p) s /\
  wp (FlatMap.copy_assign false)
    (fun _ => pair_of C c2 c2 t1 t2 vs vs) (fun p => (true ∈ t1) /\ exists k, pair_of C c2 c2 t1 t2 (take k vs) vs p) s /\
  wp (FlatMap.move_assign moved torn moved_comp false)
    (fun _ => pair_of C c2 (moved_comp c2) t1 t2 vs [])
    (fun p => (true ∈ t2) /\ exists k ws, length ws = length vs /\
      pair_of C c2 (moved_comp c2) t1 t2 (take k vs) ws p) s.
Proof.
  intros HC Hu Hv Hnt s. split_and!.
  - by apply (swap_spec C moved torn _ (map_swaps_elements C moved_key torn_key moved_value torn_value)).
  - by apply copy_assign_spec.
  - by apply move_assign_spec.
Qed.
End flat_properties.

(** ** The properties at concrete inputs *)

(** A comparator with a state: [true] is the reverse order. *)
#[local] Instance direction : Comparator bool Z Z := fun c a b => if c then b <? a else a <? b.

#[local] Instance direction_order : StrictWeakOrder bool Z.
Proof.
  split; unfold less, direction; intros [] *; rewrite ?Z.ltb_lt, ?Z.ltb_irrefl; try done; lia.
Qed.

Section flat_witnesses.
  #[local] Existing Instance size_t_32.
  Import MapSpec.

Lemma flat_capacity_ok_3 : CapacityOk 3.
Proof. split; cbn; lia. Qed.

Definition wmoved (e : entry Z Z) : entry Z Z := mk_entry (key e) 0.

Definition wops : list (op Z Z) :=
  [Emplace 5 (Val 50); TryEmplace 3 (Own 0); TryEmplace 5 (Val 1); InsertOrAssign 5 (Val 55); Emplace 9 (Own 1);
   TryEmplace 1 (Val 10); Find 5; EqualRange 4; Erase 3; ErasePos 1008; LowerBound 6; EraseIf (fun e => key e =? 5); Emplace 2 (Val 2)].

Lemma flat_map_refines_witness :
  MapRun.run HARDENING_FAST 3 1000 8 wmoved wmoved true true wops (FlatCore.flat_with 3 false []) =
    Finished [REntry (mk_entry 5 50); RBool true; RBool false; REntry (mk_entry 5 55); REntry (mk_entry 9 55);
      RBool false; RFound (Some 55); RRange 1 1; RBool true; RNum 1008; RNum 1; RNum 1; REntry (mk_entry 2 2)]
      [mk_entry 2 2].
Proof.
  refine (proj1 (flat_map_refines HARDENING_FAST 3 1000 8 wmoved wmoved true true false wops
    direction_order flat_capacity_ok_3 _ _ _ _)); [lia|cbn; lia|done|by vm_compute].
Defined.

Lemma sorted_135 : sorted id false [1; 3; 5].
Proof. repeat constructor. Qed.

Lemma flat_set_lookup_witness :
  exists lo hi : nat, FlatSet.equal_range 3 (holds 3 false [] [1; 3; 5]) =
    Ret (Z.of_nat lo, Z.of_nat hi) (holds 3 false [] [1; 3; 5]) /\ (lo <= hi)%nat.
Proof.
  destruct (flat_set_lookup 3 false [] 3 [1; 3; 5] direction_order _ flat_capacity_ok_3 ltac:(done) sorted_135)
    as (lo & hi & _ & _ & E & _ & _ & Hle & _). by exists lo, hi.
Defined.

Lemma flat_set_exceptions_witness :
  wp (FlatSet.try_emplace 3 (fun _ => 0) (fun _ => -1) false 2) (fun _ _ => True)
    (fun s => exists t' vs', s = holds 3 false t' vs' /\ survivors (fun _ => -1) [1; 3] vs')
    (holds 3 false [false; false; true] [1; 3]).
Proof.
  refine (wp_mono _ _ _ _ _ _ (proj1 (flat_set_exceptions 3 (fun _ => 0) (fun _ => -1) false false false
    [false; false; true] 2 [1; 3] direction_order flat_capacity_ok_3 _ _ _)) (fun _ _ _ => I) (fun _ HE => proj2 HE));
    [done|repeat constructor|done].
Defined.

Lemma flat_map_assign_swap_witness :
  wp (FlatMap.swap wmoved wmoved (fun _ => 0) (fun _ => 0) (fun _ => 0) (fun _ => 0) true false)
    (fun _ => pair_of 3 true false [] [] [mk_entry 7 7] [mk_entry 1 1; mk_entry 2 2]) (fun _ => False)
    (holds 3 false [] [mk_entry 1 1; mk_entry 2 2], holds 3 true [] [mk_entry 7 7]).
Proof.
  refine (wp_mono _ _ _ _ _ _ (proj1 (flat_map_assign_swap 3 wmoved wmoved (fun _ => 0) (fun _ => 0) (fun _ => 0) (fun _ => 0)
    id true false true [] [] [mk_entry 1 1; mk_entry 2 2] [mk_entry 7 7] flat_capacity_ok_3 _ _ _)) (fun _ _ HQ => HQ) _);
    [done|done|intros _; split; apply not_elem_of_nil|].
  intros p [[Hin|Hin] _]; by apply not_elem_of_nil in Hin.
Defined.
End flat_witnesses.
