(* ===== verification/Span.v ===== *)
(** * [span]

    [include/metl/span.hpp]: a view of consecutive elements of an array.  The
    state is the array; a span is where its [data] points in it and its [size].
    A span with a static extent is one whose size is that constant. *)

From Stdlib Require Import ZArith Lia.
From stdpp Require Import base numbers list option tactics.
From S2P Require Import Prelude.
Local Open Scope Z_scope.

Record span : Set := mk_span { sdata : Z; ssize : Z }.

Module Span.
Section span.
  Context `{SizeT} {T : Type} (h : hardening).
  Abbreviation mem := (list T).

(** [dynamic_extent] is the largest [size_t]. *)
Definition dynamic_extent : Z := 2 ^ size_bits - 1.

(** The array element [data[i]]. *)
Definition load (i : Z) : M mem T := fun m =>
  if i <? 0 then Fault else match m !! Z.to_nat i with Some v => Ret v m | None => Fault end.
Definition store (i : Z) (v : T) : M mem unit := fun m =>
  if (0 <=? i) && (i <? Z.of_nat (length m)) then Ret tt (<[Z.to_nat i := v]> m) else Fault.

Definition empty (s : span) : bool := ssize s =? 0.

(** [operator[]]: the address of the element, checked. *)
Definition index (s : span) (i : Z) : M mem Z :=
  metl_assert h (i <? ssize s) ;;; ret (sdata s + i).
Definition front (s : span) : M mem Z := metl_assert h (0 <? ssize s) ;;; ret (sdata s).
Definition back (s : span) : M mem Z := metl_assert h (0 <? ssize s) ;;; ret (sdata s + wrap (ssize s - 1)).

(** Reading and writing through [operator[]]. *)
Definition get_at (s : span) (i : Z) : M mem T := let! p := index s i in load p.
Definition set_at (s : span) (i : Z) (v : T) : M mem unit := let! p := index s i in store p v.

Definition first (s : span) (count : Z) : M mem span :=
  metl_harden (count <=? ssize s) ;;; ret (mk_span (sdata s) count).
Definition last (s : span) (count : Z) : M mem span :=
  metl_harden (count <=? ssize s) ;;; ret (mk_span (sdata s + wrap (ssize s - count)) count).
Definition subspan (s : span) (offset count : Z) : M mem span :=
  metl_harden (offset <=? ssize s) ;;;
  let actual_count := if count =? dynamic_extent then wrap (ssize s - offset) else count in
  metl_harden (actual_count <=? wrap (ssize s - offset)) ;;;
  ret (mk_span (sdata s + offset) actual_count).
End span.
End Span.

(** ** A span and the elements it shows *)

Section span_facts.
  Context `{SizeT} {T : Type} (h : hardening).
  Implicit Types (m xs ys zs : list T) (s : span).

(** [s] shows [xs] in [m]. *)
Definition shows s xs m : Prop :=
  0 <= sdata s /\ ssize s = Z.of_nat (length xs) /\ Z.of_nat (length xs) < 2 ^ size_bits - 1 /\
  exists before after, m = before ++ xs ++ after /\ sdata s = Z.of_nat (length before).

Lemma span_get s xs m (i : nat) x :
  shows s xs m -> xs !! i = Some x -> Span.get_at h s (Z.of_nat i) m = Ret x m.
Proof.
  intros (H0 & Hs & Hm & before & after & -> & Hd) Hx. pose proof (lookup_lt_Some _ _ _ Hx).
  unfold Span.get_at, Span.index. rewrite Hs. zbool. rewrite bind_assoc. mstep. mstep. unfold Span.load. zbool.
  rewrite Hd, <- Nat2Z.inj_add, Nat2Z.id, lookup_app_r by lia.
  replace (length before + i - length before)%nat with i by lia. by rewrite lookup_app_l, Hx.
Qed.

Lemma span_set s xs before after (i : nat) y :
  shows s xs (before ++ xs ++ after) -> sdata s = Z.of_nat (length before) -> (i < length xs)%nat ->
  Span.set_at h s (Z.of_nat i) y (before ++ xs ++ after) = Ret tt (before ++ <[i := y]> xs ++ after).
Proof.
  intros (H0 & Hs & Hm & _) Hd Hi. unfold Span.set_at, Span.index. rewrite Hs. zbool. rewrite bind_assoc. do 2 mstep.
  unfold Span.store. rewrite Hd, !length_app. zbool. cbn [andb].
  rewrite <- Nat2Z.inj_add, Nat2Z.id, insert_app_r_alt by lia.
  replace (length before + i - length before)%nat with i by lia. by rewrite insert_app_l.
Qed.

Lemma span_first s xs ys m :
  shows s (xs ++ ys) m ->
  Span.first s (Z.of_nat (length xs)) m = Ret (mk_span (sdata s) (Z.of_nat (length xs))) m /\
  shows (mk_span (sdata s) (Z.of_nat (length xs))) xs m.
Proof.
  intros (H0 & Hs & Hm & before & after & -> & Hd). rewrite length_app in *. unfold Span.first. rewrite Hs. zbool.
  split; [done|]. split_and!; [done|done|lia|]. exists before, (ys ++ after). by rewrite <- !app_assoc.
Qed.

(** [subspan(offset)], to the end. *)
Lemma span_subspan s xs ys m :
  shows s (xs ++ ys) m ->
  let s' := mk_span (sdata s + Z.of_nat (length xs)) (Z.of_nat (length ys)) in
  Span.subspan s (Z.of_nat (length xs)) Span.dynamic_extent m = Ret s' m /\ shows s' ys m.
Proof.
  intros (H0 & Hs & Hm & before & after & -> & Hd) s'. rewrite length_app in *. unfold Span.subspan. rewrite Hs.
  rewrite Z.eqb_refl. zbool. mstep.
  replace (Z.of_nat (length xs + length ys) - Z.of_nat (length xs)) with (Z.of_nat (length ys)) by lia. zbool. mstep.
  split; [done|]. split_and!; cbn [sdata ssize s']; [lia|done|lia|].
  exists (before ++ xs), after. rewrite <- !app_assoc, length_app. split; [done|lia].
Qed.
End span_facts.
