(* ===== verification/Text.v ===== *)
(** * [parse] and [format]

    [include/metl/parse.hpp] and [include/metl/format.hpp]: integers to and from
    text.  The state is the array of characters, each its code; the integer type
    [T] is its width in bits, and a value is kept at its width: the accumulator
    of the parsers is [T]'s unsigned counterpart or [unsigned], whichever is
    wider, and the formatters work in [unsigned long long]. *)

From Stdlib Require Import ZArith Lia.
From stdpp Require Import base numbers list option tactics.
From S2P Require Import Prelude Span.
Local Open Scope Z_scope.

(** [static_cast] to an unsigned and to a signed type of [bits] bits. *)
Definition to_unsigned (bits z : Z) : Z := z mod 2 ^ bits.
Definition to_signed (bits z : Z) : Z :=
  let u := z mod 2 ^ bits in if u <? 2 ^ (bits - 1) then u else u - 2 ^ bits.

Inductive parse_error : Set := empty | not_a_number | out_of_range.

#[export] Instance parse_error_eq_dec : EqDecision parse_error.
Proof. solve_decision. Defined.

Record parsed : Set := mk_parsed { value : Z; tail : span }.

Record digit_run : Set := mk_run { run_value : Z; consumed : Z; overflowed : bool }.

Module Parse.
Section parse.
  Context `{SizeT} (h : hardening) (uint_bits : Z).
  Abbreviation mem := (list Z).

Definition is_decimal_digit (character : Z) : bool := (48 <=? character) && (character <=? 57).

Definition hex_digit_value (character : Z) : Z :=
  if (48 <=? character) && (character <=? 57) then character - 48
  else if (97 <=? character) && (character <=? 102) then character - 97 + 10
  else if (65 <=? character) && (character <=? 70) then character - 65 + 10
  else 16.

(** The width of [parse_accumulator_t<T>]. *)
Definition parse_accumulator_bits (bits : Z) : Z := if uint_bits <? bits then bits else uint_bits.

(** The loops; [n] characters are left. *)
Fixpoint fold_decimal_from (acc_bits : Z) (n : nat) (text : span) (limit_head limit_tail : Z)
    (value index : Z) (over : bool) : M mem digit_run :=
  match n with
  | O => ret (mk_run value index over)
  | S n' =>
      let! c := Span.get_at h text index in
      if is_decimal_digit c then
        let digit := to_unsigned acc_bits (c - 48) in
        if (limit_head <? value) || ((value =? limit_head) && (limit_tail <? digit)) then
          fold_decimal_from acc_bits n' text limit_head limit_tail value (index + 1) true
        else
          fold_decimal_from acc_bits n' text limit_head limit_tail
            (to_unsigned acc_bits (value * 10 + digit)) (index + 1) over
      else ret (mk_run value index over)
  end.
Definition fold_decimal (acc_bits : Z) (text : span) (limit_head limit_tail : Z) : M mem digit_run :=
  fold_decimal_from acc_bits (Z.to_nat (ssize text)) text limit_head limit_tail 0 0 false.

Fixpoint fold_hex_from (acc_bits : Z) (n : nat) (text : span) (limit_head : Z)
    (value index : Z) (over : bool) : M mem digit_run :=
  match n with
  | O => ret (mk_run value index over)
  | S n' =>
      let! c := Span.get_at h text index in
      if hex_digit_value c <? 16 then
        let digit := to_unsigned acc_bits (hex_digit_value c) in
        if limit_head <? value then fold_hex_from acc_bits n' text limit_head value (index + 1) true
        else
          fold_hex_from acc_bits n' text limit_head (to_unsigned acc_bits (value * 16 + digit)) (index + 1) over
      else ret (mk_run value index over)
  end.
Definition fold_hex (acc_bits : Z) (text : span) (limit_head : Z) : M mem digit_run :=
  fold_hex_from acc_bits (Z.to_nat (ssize text)) text limit_head 0 0 false.

(** [std::numeric_limits<T>::max()] of an unsigned and of a signed type, and
    the signed [min()]. *)
Definition unsigned_max (bits : Z) : Z := 2 ^ bits - 1.
Definition signed_max (bits : Z) : Z := 2 ^ (bits - 1) - 1.
Definition signed_min (bits : Z) : Z := - 2 ^ (bits - 1).

Definition negative_limit_of (bits : Z) : Z :=
  to_unsigned (parse_accumulator_bits bits) (to_unsigned (parse_accumulator_bits bits) (signed_max bits) + 1).

Definition try_parse_uint (bits : Z) (text : span) : M mem (parse_error + parsed) :=
  if Span.empty text then ret (inl empty)
  else
    let acc := parse_accumulator_bits bits in
    let limit := to_unsigned acc (unsigned_max bits) in
    let! run := fold_decimal acc text (limit / 10) (limit mod 10) in
    if consumed run =? 0 then ret (inl not_a_number)
    else if overflowed run then ret (inl out_of_range)
    else
      let! rest := Span.subspan text (consumed run) Span.dynamic_extent in
      ret (inr (mk_parsed (to_unsigned bits (run_value run)) rest)).

Definition try_parse_int (bits : Z) (text : span) : M mem (parse_error + parsed) :=
  if Span.empty text then ret (inl empty)
  else
    let! c := Span.get_at h text 0 in
    let negative := c =? 45 in
    let! digits := if negative then Span.subspan text 1 Span.dynamic_extent else ret text in
    let acc := parse_accumulator_bits bits in
    let positive_limit := to_unsigned acc (signed_max bits) in
    let negative_limit := negative_limit_of bits in
    let limit_head := if negative then negative_limit / 10 else positive_limit / 10 in
    let limit_tail := if negative then negative_limit mod 10 else positive_limit mod 10 in
    let! run := fold_decimal acc digits limit_head limit_tail in
    if consumed run =? 0 then ret (inl not_a_number)
    else if overflowed run then ret (inl out_of_range)
    else
      let! rest := Span.subspan digits (consumed run) Span.dynamic_extent in
      if negb negative then ret (inr (mk_parsed (to_signed bits (run_value run)) rest))
      else if run_value run =? negative_limit then ret (inr (mk_parsed (signed_min bits) rest))
      else ret (inr (mk_parsed (to_signed bits (- to_signed bits (run_value run))) rest)).

Definition try_parse_hex (bits : Z) (text : span) : M mem (parse_error + parsed) :=
  if Span.empty text then ret (inl empty)
  else
    let acc := parse_accumulator_bits bits in
    let limit := to_unsigned acc (unsigned_max bits) in
    let! run := fold_hex acc text (limit / 16) in
    if consumed run =? 0 then ret (inl not_a_number)
    else if overflowed run then ret (inl out_of_range)
    else
      let! rest := Span.subspan text (consumed run) Span.dynamic_extent in
      ret (inr (mk_parsed (to_unsigned bits (run_value run)) rest)).

(** [METL_HARDEN(result.has_value()); return result.value();] *)
Definition value_or_trap (r : parse_error + parsed) : M mem parsed :=
  match r with
  | inr p => ret p
  | inl _ => trap
  end.
Definition parse_uint (bits : Z) (text : span) : M mem parsed :=
  let! r := try_parse_uint bits text in value_or_trap r.
Definition parse_int (bits : Z) (text : span) : M mem parsed :=
  let! r := try_parse_int bits text in value_or_trap r.
Definition parse_hex (bits : Z) (text : span) : M mem parsed :=
  let! r := try_parse_hex bits text in value_or_trap r.
End parse.
End Parse.

Inductive hex_case : Set := lower | upper.

Module Format.
Section format.
  Context `{SizeT} (h : hardening).
  Abbreviation mem := (list Z).

(** [unsigned long long] has 64 bits. *)
Definition ull_bits : Z := 64.

(** A value of [n] bits has at most [n] digits, so 64 turns are enough. *)
Fixpoint decimal_digits_from (fuel : nat) (magnitude digits : Z) : M mem Z :=
  if 10 <=? magnitude then
    match fuel with
    | O => fun _ => Spin
    | S fuel' => decimal_digits_from fuel' (magnitude / 10) (digits + 1)
    end
  else ret digits.
Definition decimal_digits (magnitude : Z) : M mem Z := decimal_digits_from 64 magnitude 1.

Fixpoint hex_digits_from (fuel : nat) (value digits : Z) : M mem Z :=
  if 16 <=? value then
    match fuel with
    | O => fun _ => Spin
    | S fuel' => hex_digits_from fuel' (Z.shiftr value 4) (digits + 1)
    end
  else ret digits.
Definition hex_digits (value : Z) : M mem Z := hex_digits_from 64 value 1.

Fixpoint write_decimal (out : span) (count : nat) (magnitude : Z) : M mem unit :=
  match count with
  | O => ret tt
  | S index =>
      Span.set_at h out (Z.of_nat index) (48 + magnitude mod 10) ;;;
      write_decimal out index (magnitude / 10)
  end.

Fixpoint write_hex (out : span) (count : nat) (value : Z) (letters : hex_case) : M mem unit :=
  match count with
  | O => ret tt
  | S index =>
      let alphabet_offset := match letters with upper => 65 | lower => 97 end in
      let nibble := Z.land value 15 in
      Span.set_at h out (Z.of_nat index) (if nibble <? 10 then 48 + nibble else alphabet_offset + (nibble - 10)) ;;;
      write_hex out index (Z.shiftr value 4) letters
  end.

Definition magnitude_of (value : Z) : Z :=
  let unsigned_value := to_unsigned ull_bits value in
  if value <? 0 then to_unsigned ull_bits (0 - unsigned_value) else unsigned_value.

Definition try_format_uint (out : span) (value : Z) : M mem span :=
  let magnitude := to_unsigned ull_bits value in
  let! count := decimal_digits magnitude in
  if ssize out <? count then Span.first out 0
  else write_decimal out (Z.to_nat count) magnitude ;;; Span.first out count.

Definition try_format_int (is_unsigned : bool) (out : span) (value : Z) : M mem span :=
  if is_unsigned then try_format_uint out value
  else
    let widened := value in
    let magnitude := magnitude_of widened in
    let! digits := decimal_digits magnitude in
    let count := digits + (if widened <? 0 then 1 else 0) in
    if ssize out <? count then Span.first out 0
    else
      (if widened <? 0 then
         Span.set_at h out 0 45 ;;;
         let! rest := Span.subspan out 1 Span.dynamic_extent in
         write_decimal rest (Z.to_nat digits) magnitude
       else write_decimal out (Z.to_nat digits) magnitude) ;;;
      Span.first out count.

Definition try_format_hex (out : span) (value digits : Z) (letters : hex_case) : M mem span :=
  let widened := to_unsigned ull_bits value in
  let! needed := hex_digits widened in
  let count := if digits =? 0 then needed else digits in
  if (ssize out <? count) || (count <? needed) then Span.first out 0
  else write_hex out (Z.to_nat count) widened letters ;;; Span.first out count.

(** [METL_ASSERT(!text.empty()); return text;] *)
Definition nonempty (m : M mem span) : M mem span :=
  let! text := m in metl_assert h (negb (Span.empty text)) ;;; ret text.
Definition format_uint (out : span) (value : Z) : M mem span := nonempty (try_format_uint out value).
Definition format_int (is_unsigned : bool) (out : span) (value : Z) : M mem span :=
  nonempty (try_format_int is_unsigned out value).
Definition format_hex (out : span) (value digits : Z) (letters : hex_case) : M mem span :=
  nonempty (try_format_hex out value digits letters).
End format.
End Format.
