(* ===== verification/TextClaims.v ===== *)
(** * What the parsers and formatters promise

    The value of a sequence of digits, what the parsers and formatters must do in
    its terms, and that they do it, for every width and every text. *)

From Stdlib Require Import ZArith Lia.
From stdpp Require Import base numbers list option tactics.
From S2P Require Import Prelude Span Text.
Local Open Scope Z_scope.

(** ** Numbers as digits *)

Section digits.
  Context (base : Z) (Hbase : 2 <= base).
  Implicit Types (ds : list Z) (v : Z) (n : nat).

(** The digits [ds] read after a value [v]. *)
Definition value_after v ds : Z := foldl (fun v d => v * base + d) v ds.

(** The last [n] digits of [v], most significant first. *)
Fixpoint digits_of n v : list Z :=
  match n with
  | O => []
  | S n' => digits_of n' (v / base) ++ [v mod base]
  end.

Lemma length_digits_of n v : length (digits_of n v) = n.
Proof. revert v. induction n as [|n IH]; intros v; [done|]. cbn. rewrite length_app, IH. cbn. lia. Qed.

Lemma digits_of_range n v d : d ∈ digits_of n v -> 0 <= d < base.
Proof.
  revert v. induction n as [|n IH]; intros v; cbn; [by intros ?%not_elem_of_nil|].
  intros [Hd|Hd]%elem_of_app; [by eapply IH|]. apply list_elem_of_singleton in Hd as ->. apply Z.mod_pos_bound. lia.
Qed.

Lemma value_digits_of n v : 0 <= v -> value_after 0 (digits_of n v) = v mod base ^ Z.of_nat n.
Proof.
  revert v. induction n as [|n IH]; intros v Hv; [by rewrite Z.mod_1_r|]. cbn [digits_of].
  unfold value_after in *. rewrite foldl_app. cbn. rewrite IH by (apply Z.div_pos; lia).
  rewrite Nat2Z.inj_succ, Z.pow_succ_r, Z.rem_mul_r by lia. lia.
Qed.

Lemma value_after_ge v ds : 0 <= v -> (forall d, d ∈ ds -> 0 <= d) -> v <= value_after v ds.
Proof.
  revert v. induction ds as [|d ds IH]; intros v Hv Hd; cbn; [lia|].
  pose proof (Hd d ltac:(by left)). specialize (IH (v * base + d) ltac:(nia) (fun d' H' => Hd d' ltac:(by right))).
  unfold value_after in IH. nia.
Qed.
End digits.

(** ** Parsing *)

(** The digits at the front of a text. *)
Fixpoint leading (dig : Z -> option Z) (xs : list Z) : list Z :=
  match xs with
  | c :: xs' => match dig c with Some d => d :: leading dig xs' | None => [] end
  | [] => []
  end.

Definition decimal_digit (c : Z) : option Z := if (48 <=? c) && (c <=? 57) then Some (c - 48) else None.
Definition hex_digit (c : Z) : option Z :=
  if Parse.hex_digit_value c <? 16 then Some (Parse.hex_digit_value c) else None.

(** What a text is as a number of at most [limit]: why it is not one, or its
    value and its length. *)
Definition number (dig : Z -> option Z) (base limit : Z) (xs : list Z) : parse_error + (Z * nat) :=
  let ds := leading dig xs in
  match ds with
  | [] => inl not_a_number
  | _ => if limit <? value_after base 0 ds then inl out_of_range else inr (value_after base 0 ds, length ds)
  end.

(** The parsed value and the rest of the span. *)
Definition answer (s : span) (sign : Z) (r : parse_error + (Z * nat)) : parse_error + parsed :=
  match r with
  | inl e => inl e
  | inr (v, k) => inr (mk_parsed (sign * v) (mk_span (sdata s + Z.of_nat k) (ssize s - Z.of_nat k)))
  end.

Section fold.
  Context `{SizeT} (h : hardening) (acc_bits : Z) (dig : Z -> option Z) (base limit : Z) (refuse : Z -> Z -> bool).

(** The loop the two folds share. *)
Fixpoint fold_from (n : nat) (text : span) (v index : Z) (over : bool) : M (list Z) digit_run :=
  match n with
  | O => ret (mk_run v index over)
  | S n' =>
      let! c := Span.get_at h text index in
      match dig c with
      | Some d =>
          if refuse v d then fold_from n' text v (index + 1) true
          else fold_from n' text (to_unsigned acc_bits (v * base + d)) (index + 1) over
      | None => ret (mk_run v index over)
      end
  end.

Hypothesis Hbase : 2 <= base.
Hypothesis Hlimit : 0 <= limit < 2 ^ acc_bits.
Hypothesis Hdig : forall c d, dig c = Some d -> 0 <= d < base.
Hypothesis Hrefuse : forall v d, 0 <= v <= limit -> 0 <= d < base -> refuse v d = (limit <? v * base + d).

Lemma leading_range xs d : d ∈ leading dig xs -> 0 <= d < base.
Proof.
  induction xs as [|c xs IH]; cbn; [by intros ?%not_elem_of_nil|]. destruct (dig c) as [d'|] eqn:E.
  - intros [->|Hd]%elem_of_cons; [by eapply Hdig|by apply IH].
  - by intros ?%not_elem_of_nil.
Qed.

(** One character, and the loop over the rest. *)
Lemma fold_step text xs ys c m v over :
  shows text (xs ++ c :: ys) m ->
  fold_from (S (length ys)) text v (Z.of_nat (length xs)) over m =
    match dig c with
    | Some d =>
        if refuse v d then fold_from (length ys) text v (Z.of_nat (length (xs ++ [c]))) true m
        else fold_from (length ys) text (to_unsigned acc_bits (v * base + d)) (Z.of_nat (length (xs ++ [c]))) over m
    | None => Ret (mk_run v (Z.of_nat (length xs)) over) m
    end.
Proof.
  intros Hs. cbn [fold_from]. rewrite (bind_Ret _ _ _ _ _ (span_get h text _ m (length xs) c Hs ltac:(by rewrite list_lookup_middle))).
  rewrite length_app. cbn [length]. replace (Z.of_nat (length xs + 1)) with (Z.of_nat (length xs) + 1) by lia.
  destruct (dig c) as [d|]; [|done]. by destruct (refuse v d).
Qed.

(** Once refused, the digits are consumed and the report stands. *)
Lemma fold_over text xs ys m v :
  shows text (xs ++ ys) m ->
  exists v', fold_from (length ys) text v (Z.of_nat (length xs)) true m =
    Ret (mk_run v' (Z.of_nat (length xs + length (leading dig ys))) true) m.
Proof.
  revert xs v. induction ys as [|c ys IH]; intros xs v Hs.
  { exists v. cbn. by rewrite Nat.add_0_r. }
  cbn [length leading]. rewrite (fold_step text xs ys c m v true Hs). destruct (dig c) as [d|].
  2: { exists v. cbn. by rewrite Nat.add_0_r. }
  specialize (IH (xs ++ [c])). rewrite <- app_assoc in IH. cbn [app] in IH.
  destruct (refuse v d); [destruct (IH v Hs) as (v' & E)|destruct (IH (to_unsigned acc_bits (v * base + d)) Hs) as (v' & E)];
    exists v'; rewrite E, length_app; cbn [length]; do 3 f_equal; lia.
Qed.

Lemma fold_spec text xs ys m v :
  0 <= v <= limit -> shows text (xs ++ ys) m ->
  exists v', fold_from (length ys) text v (Z.of_nat (length xs)) false m =
    Ret (mk_run v' (Z.of_nat (length xs + length (leading dig ys))) (limit <? value_after base v (leading dig ys))) m /\
    (value_after base v (leading dig ys) <= limit -> v' = value_after base v (leading dig ys)).
Proof.
  revert xs v. induction ys as [|c ys IH]; intros xs v Hv Hs.
  { exists v. cbn. rewrite Nat.add_0_r. zbool. done. }
  cbn [length leading]. rewrite (fold_step text xs ys c m v false Hs). destruct (dig c) as [d|] eqn:Ed.
  2: { exists v. cbn. rewrite Nat.add_0_r. zbool. done. }
  pose proof (Hdig c d Ed) as Hd. rewrite (Hrefuse v d Hv Hd). cbn [value_after foldl].
  fold (value_after base (v * base + d) (leading dig ys)).
  assert (v * base + d <= value_after base (v * base + d) (leading dig ys)) as Hge.
  { apply value_after_ge; [done|nia|]. intros d' Hd'. apply leading_range in Hd'. lia. }
  assert (shows text ((xs ++ [c]) ++ ys) m) as Hs' by (by rewrite <- app_assoc).
  destruct (Z.ltb_spec limit (v * base + d)) as [Ho|Ho].
  - destruct (fold_over text (xs ++ [c]) ys m v Hs') as (v' & E). exists v'. rewrite E, length_app. cbn [length].
    zbool. split; [do 3 f_equal; lia|lia].
  - unfold to_unsigned. rewrite Z.mod_small by nia.
    destruct (IH (xs ++ [c]) (v * base + d) ltac:(nia) Hs') as (v' & E & Hv'). exists v'. rewrite E, length_app. cbn [length].
    split; [do 3 f_equal; lia|done].
Qed.
End fold.

Section parse_facts.
  Context `{SizeT} (h : hardening) (uint_bits bits : Z) (Huint : 16 <= uint_bits) (Hbits : 8 <= bits).
  Implicit Types (xs ys : list Z) (s : span).
  Abbreviation acc := (Parse.parse_accumulator_bits uint_bits bits).

Lemma acc_bits_spec : bits <= acc /\ 16 <= acc.
Proof. unfold Parse.parse_accumulator_bits. destruct (Z.ltb_spec uint_bits bits); lia. Qed.

Lemma pow_le_acc k : 0 <= k <= bits -> 0 < 2 ^ k <= 2 ^ acc.
Proof. intros. pose proof acc_bits_spec. split; [apply Z.pow_pos_nonneg; lia|apply Z.pow_le_mono_r; lia]. Qed.

Lemma acc_holds_byte : 2 ^ 8 <= 2 ^ acc.
Proof. pose proof acc_bits_spec. apply Z.pow_le_mono_r; lia. Qed.

Definition refuse_decimal (limit v d : Z) : bool :=
  (limit / 10 <? v) || ((v =? limit / 10) && (limit mod 10 <? d)).

Lemma refuse_decimal_spec limit v d : 0 <= d < 10 -> refuse_decimal limit v d = (limit <? v * 10 + d).
Proof.
  intros Hd. unfold refuse_decimal. pose proof (Z.div_mod limit 10 ltac:(lia)). pose proof (Z.mod_pos_bound limit 10 ltac:(lia)).
  destruct (Z.ltb_spec (limit / 10) v); cbn [orb]; [symmetry; apply Z.ltb_lt; lia|].
  destruct (Z.eqb_spec v (limit / 10)); cbn [andb].
  - destruct (Z.ltb_spec (limit mod 10) d); symmetry; [apply Z.ltb_lt|apply Z.ltb_ge]; lia.
  - symmetry. apply Z.ltb_ge. lia.
Qed.

Lemma refuse_hex_spec limit v d :
  limit mod 16 = 15 -> 0 <= d < 16 -> (limit / 16 <? v) = (limit <? v * 16 + d).
Proof.
  intros Hl Hd. pose proof (Z.div_mod limit 16 ltac:(lia)).
  destruct (Z.ltb_spec (limit / 16) v); symmetry; [apply Z.ltb_lt|apply Z.ltb_ge]; lia.
Qed.

Lemma decimal_digit_range c d : decimal_digit c = Some d -> 0 <= d < 10.
Proof.
  unfold decimal_digit. destruct (Z.leb_spec 48 c), (Z.leb_spec c 57); cbn; intros [= <-]; lia.
Qed.

Lemma hex_value_range c : 0 <= Parse.hex_digit_value c <= 16.
Proof.
  unfold Parse.hex_digit_value.
  repeat match goal with |- context [?a <=? ?b] => destruct (Z.leb_spec a b) end; cbn; lia.
Qed.

Lemma hex_digit_range c d : hex_digit c = Some d -> 0 <= d < 16.
Proof.
  unfold hex_digit. pose proof (hex_value_range c).
  destruct (Z.ltb_spec (Parse.hex_digit_value c) 16); intros [= <-]; lia.
Qed.

Lemma fold_decimal_loop n text limit v index over m :
  Parse.fold_decimal_from h acc n text (limit / 10) (limit mod 10) v index over m =
    fold_from h acc decimal_digit 10 (refuse_decimal limit) n text v index over m.
Proof.
  revert v index over m. induction n as [|n IH]; intros v index over m; [done|].
  cbn [Parse.fold_decimal_from fold_from]. unfold bind. destruct (Span.get_at h text index m) as [c m'| | | |]; try done.
  unfold decimal_digit, Parse.is_decimal_digit.
  destruct (Z.leb_spec 48 c), (Z.leb_spec c 57); cbn [andb]; try done. pose proof acc_holds_byte.
  assert (to_unsigned acc (c - 48) = c - 48) as -> by (apply Z.mod_small; lia).
  fold (refuse_decimal limit v (c - 48)). by destruct (refuse_decimal limit v (c - 48)).
Qed.

Lemma fold_hex_loop n text limit_head v index over m :
  Parse.fold_hex_from h acc n text limit_head v index over m =
    fold_from h acc hex_digit 16 (fun v _ => limit_head <? v) n text v index over m.
Proof.
  revert v index over m. induction n as [|n IH]; intros v index over m; [done|].
  cbn [Parse.fold_hex_from fold_from]. unfold bind. destruct (Span.get_at h text index m) as [c m'| | | |]; try done.
  unfold hex_digit. destruct (Z.ltb_spec (Parse.hex_digit_value c) 16); try done. pose proof acc_holds_byte.
  pose proof (hex_value_range c).
  assert (to_unsigned acc (Parse.hex_digit_value c) = Parse.hex_digit_value c) as -> by (apply Z.mod_small; lia).
  by destruct (limit_head <? v).
Qed.

(** The end of each parser: what the run of digits becomes. *)
Definition finish (s : span) (f : Z -> M (list Z) (parse_error + parsed)) (run : digit_run) : M (list Z) (parse_error + parsed) :=
  if consumed run =? 0 then ret (inl not_a_number)
  else if overflowed run then ret (inl out_of_range)
  else f (run_value run).

Lemma fold_decimal_spec limit s ys m :
  0 <= limit < 2 ^ acc -> shows s ys m ->
  exists v, Parse.fold_decimal h acc s (limit / 10) (limit mod 10) m =
    Ret (mk_run v (Z.of_nat (length (leading decimal_digit ys))) (limit <? value_after 10 0 (leading decimal_digit ys))) m /\
    (value_after 10 0 (leading decimal_digit ys) <= limit -> v = value_after 10 0 (leading decimal_digit ys)).
Proof.
  intros Hl Hs. unfold Parse.fold_decimal. rewrite fold_decimal_loop, (proj1 (proj2 Hs)), Nat2Z.id.
  apply (fold_spec h acc decimal_digit 10 limit (refuse_decimal limit) ltac:(lia) Hl decimal_digit_range
    (fun v d _ Hd => refuse_decimal_spec limit v d Hd) s [] ys m 0); [lia|done].
Qed.

Lemma fold_hex_spec limit s ys m :
  0 <= limit < 2 ^ acc -> limit mod 16 = 15 -> shows s ys m ->
  exists v, Parse.fold_hex h acc s (limit / 16) m =
    Ret (mk_run v (Z.of_nat (length (leading hex_digit ys))) (limit <? value_after 16 0 (leading hex_digit ys))) m /\
    (value_after 16 0 (leading hex_digit ys) <= limit -> v = value_after 16 0 (leading hex_digit ys)).
Proof.
  intros Hl H15 Hs. unfold Parse.fold_hex. rewrite fold_hex_loop, (proj1 (proj2 Hs)), Nat2Z.id.
  apply (fold_spec h acc hex_digit 16 limit (fun v _ => limit / 16 <? v) ltac:(lia) Hl hex_digit_range
    (fun v d _ Hd => refuse_hex_spec limit v d H15 Hd) s [] ys m 0); [lia|done].
Qed.

Lemma length_leading dig ys : (length (leading dig ys) <= length ys)%nat.
Proof. induction ys as [|c ys IH]; cbn; [lia|]. destruct (dig c); cbn; lia. Qed.

(** After [k] characters of the span. *)
Lemma subspan_after s ys m (k : nat) :
  shows s ys m -> (k <= length ys)%nat ->
  Span.subspan s (Z.of_nat k) Span.dynamic_extent m =
    Ret (mk_span (sdata s + Z.of_nat k) (ssize s - Z.of_nat k)) m.
Proof.
  intros Hs Hk. pose proof (proj1 (proj2 Hs)) as Hz.
  rewrite <- (take_drop k ys) in Hs. destruct (span_subspan s _ _ m Hs) as [E _].
  rewrite length_take, length_drop, Nat.min_l in E by done. rewrite E, Hz. do 2 f_equal. lia.
Qed.

Lemma try_parse_unsigned_end dig base limit s ys m v (bits' : Z) (over : bool) :
  shows s ys m -> limit < 2 ^ bits' -> (limit <? value_after base 0 (leading dig ys)) = over ->
  (value_after base 0 (leading dig ys) <= limit -> v = value_after base 0 (leading dig ys)) ->
  (forall d, d ∈ leading dig ys -> 0 <= d) -> 0 <= base ->
  finish s (fun v => let! rest := Span.subspan s (Z.of_nat (length (leading dig ys))) Span.dynamic_extent in
    ret (inr (mk_parsed (to_unsigned bits' v) rest)))
    (mk_run v (Z.of_nat (length (leading dig ys))) over) m = Ret (answer s 1 (number dig base limit ys)) m.
Proof.
  intros Hs Hlim Ho Hv Hd Hb. unfold finish, number. cbn [consumed overflowed run_value].
  pose proof (length_leading dig ys) as Hle.
  destruct (leading dig ys) as [|d0 ds] eqn:E; [done|]. rewrite Ho. cbn [length]. zbool. subst over.
  destruct (Z.ltb_spec limit (value_after base 0 (d0 :: ds))) as [|Hle']; [done|].
  rewrite (bind_Ret _ _ _ _ _ (subspan_after s ys m (S (length ds)) Hs Hle)). unfold ret, answer.
  rewrite (Hv Hle'). unfold to_unsigned. rewrite Z.mod_small, Z.mul_1_l; [done|]. split; [|lia].
  clear -Hd Hb.
  assert (forall v, 0 <= v -> 0 <= value_after base v (d0 :: ds)) as Hpos; [|by apply Hpos].
  revert Hd. generalize (d0 :: ds). clear d0 ds. intros ds Hd. induction ds as [|d ds IH]; intros v Hv; [done|].
  cbn. apply IH; [intros d' Hd'; apply Hd; by right|]. specialize (Hd d ltac:(by left)). nia.
Qed.

Lemma nonempty_match {A} xs (x y : A) : xs <> [] -> match xs with [] => x | _ => y end = y.
Proof. by destruct xs. Qed.

Lemma parse_uint_exact s xs m :
  shows s xs m ->
  Parse.try_parse_uint h uint_bits bits s m =
    Ret (match xs with [] => inl empty | _ => answer s 1 (number decimal_digit 10 (2 ^ bits - 1) xs) end) m.
Proof.
  intros Hs. unfold Parse.try_parse_uint, Span.empty. rewrite (proj1 (proj2 Hs)).
  destruct (decide (xs = [])) as [->|Hne]; [done|]. rewrite nonempty_match by done.
  assert (0 < length xs)%nat by (destruct xs; [done|cbn; lia]). zbool.
  pose proof (pow_le_acc bits ltac:(lia)). cbv zeta. unfold Parse.unsigned_max.
  assert (to_unsigned acc (2 ^ bits - 1) = 2 ^ bits - 1) as -> by (apply Z.mod_small; lia).
  destruct (fold_decimal_spec (2 ^ bits - 1) s xs m ltac:(lia) Hs) as (v & E & Hv). rewrite (bind_Ret _ _ _ _ _ E).
  apply (try_parse_unsigned_end decimal_digit 10 (2 ^ bits - 1) s xs m v bits); try done; [lia|].
  intros d Hd. apply (leading_range decimal_digit 10 decimal_digit_range) in Hd. lia.
Qed.

Lemma parse_hex_exact s xs m :
  bits mod 4 = 0 -> shows s xs m ->
  Parse.try_parse_hex h uint_bits bits s m =
    Ret (match xs with [] => inl empty | _ => answer s 1 (number hex_digit 16 (2 ^ bits - 1) xs) end) m.
Proof.
  intros H4 Hs. unfold Parse.try_parse_hex, Span.empty. rewrite (proj1 (proj2 Hs)).
  destruct (decide (xs = [])) as [->|Hne]; [done|]. rewrite nonempty_match by done.
  assert (0 < length xs)%nat by (destruct xs; [done|cbn; lia]). zbool.
  pose proof (pow_le_acc bits ltac:(lia)). cbv zeta. unfold Parse.unsigned_max.
  assert (to_unsigned acc (2 ^ bits - 1) = 2 ^ bits - 1) as -> by (apply Z.mod_small; lia).
  assert ((2 ^ bits - 1) mod 16 = 15) as H15.
  { replace bits with (4 + (bits - 4)) by lia. rewrite Z.pow_add_r by lia.
    replace (2 ^ 4 * 2 ^ (bits - 4) - 1) with (15 + (2 ^ (bits - 4) - 1) * 16) by lia.
    by rewrite Z.mod_add by lia. }
  destruct (fold_hex_spec (2 ^ bits - 1) s xs m ltac:(lia) H15 Hs) as (v & E & Hv). rewrite (bind_Ret _ _ _ _ _ E).
  apply (try_parse_unsigned_end hex_digit 16 (2 ^ bits - 1) s xs m v bits); try done; [lia|].
  intros d Hd. apply (leading_range hex_digit 16 hex_digit_range) in Hd. lia.
Qed.

(** A sign, and the limit it sets. *)
Lemma to_signed_small z : - 2 ^ (bits - 1) <= z < 2 ^ (bits - 1) -> to_signed bits z = z.
Proof.
  intros Hz. unfold to_signed. assert (2 ^ bits = 2 * 2 ^ (bits - 1)) as E
    by (rewrite <- Z.pow_succ_r by lia; f_equal; lia).
  destruct (decide (0 <= z)).
  - rewrite Z.mod_small by lia. zbool. done.
  - replace (z mod 2 ^ bits) with (z + 2 ^ bits); [zbool; lia|].
    rewrite <- (Z.mod_add z 1) by lia. rewrite Z.mul_1_l, Z.mod_small; lia.
Qed.

Lemma parse_signed_end (negative : bool) s ys m v over (limit : Z) :
  limit = (if negative then 2 ^ (bits - 1) else 2 ^ (bits - 1) - 1) ->
  shows s ys m -> (limit <? value_after 10 0 (leading decimal_digit ys)) = over ->
  (value_after 10 0 (leading decimal_digit ys) <= limit -> v = value_after 10 0 (leading decimal_digit ys)) ->
  finish s (fun v => let! rest := Span.subspan s (Z.of_nat (length (leading decimal_digit ys))) Span.dynamic_extent in
    if negb negative then ret (inr (mk_parsed (to_signed bits v) rest))
    else if v =? 2 ^ (bits - 1) then ret (inr (mk_parsed (Parse.signed_min bits) rest))
    else ret (inr (mk_parsed (to_signed bits (- to_signed bits v)) rest)))
    (mk_run v (Z.of_nat (length (leading decimal_digit ys))) over) m =
  Ret (answer s (if negative then -1 else 1) (number decimal_digit 10 limit ys)) m.
Proof.
  intros Hlim Hs Ho Hv. unfold finish, number. cbn [consumed overflowed run_value].
  pose proof (length_leading decimal_digit ys) as Hle.
  assert (0 <= value_after 10 0 (leading decimal_digit ys)) as Hpos.
  { apply value_after_ge; [lia|lia|]. intros d Hd. apply (leading_range decimal_digit 10 decimal_digit_range) in Hd. lia. }
  destruct (leading decimal_digit ys) as [|d0 ds] eqn:E; [done|]. rewrite Ho. cbn [length]. zbool. subst over.
  destruct (Z.ltb_spec limit (value_after 10 0 (d0 :: ds))) as [|Hle']; [done|].
  rewrite (bind_Ret _ _ _ _ _ (subspan_after s ys m (S (length ds)) Hs Hle)). rewrite (Hv Hle'). unfold answer.
  set (w := value_after 10 0 (d0 :: ds)) in *. unfold Parse.signed_min. destruct negative; cbn [negb]; subst limit.
  - destruct (Z.eqb_spec w (2 ^ (bits - 1))) as [Ew|].
    + replace (-1 * w) with (- 2 ^ (bits - 1)) by lia. done.
    + rewrite (to_signed_small w), to_signed_small by lia. by replace (-1 * w) with (- w) by lia.
  - rewrite to_signed_small by lia. by rewrite Z.mul_1_l.
Qed.

Lemma parse_int_exact s xs m :
  shows s xs m ->
  Parse.try_parse_int h uint_bits bits s m =
    Ret (match xs with
         | [] => inl empty
         | c :: ys =>
             if c =? 45 then answer (mk_span (sdata s + 1) (ssize s - 1)) (-1) (number decimal_digit 10 (2 ^ (bits - 1)) ys)
             else answer s 1 (number decimal_digit 10 (2 ^ (bits - 1) - 1) xs)
         end) m.
Proof.
  intros Hs. unfold Parse.try_parse_int, Span.empty. pose proof (proj1 (proj2 Hs)) as Hz.
  destruct xs as [|c ys]; [by rewrite Hz|]. cbn [length] in Hz. zbool.
  rewrite (bind_Ret _ _ _ _ _ (span_get h s _ m 0 c Hs eq_refl)).
  pose proof (pow_le_acc (bits - 1) ltac:(lia)) as Hp. pose proof (pow_le_acc bits ltac:(lia)) as Hp'.
  assert (2 ^ bits = 2 * 2 ^ (bits - 1)) as Epow by (rewrite <- Z.pow_succ_r by lia; f_equal; lia).
  assert (to_unsigned acc (Parse.signed_max bits) = 2 ^ (bits - 1) - 1) as Emax by (apply Z.mod_small; unfold Parse.signed_max; lia).
  assert (Parse.negative_limit_of uint_bits bits = 2 ^ (bits - 1)) as Eneg.
  { unfold Parse.negative_limit_of. rewrite Emax. unfold to_unsigned. rewrite Z.mod_small; lia. }
  cbv zeta. rewrite Emax, Eneg. destruct (Z.eqb_spec c 45).
  - pose proof (subspan_after s (c :: ys) m 1 Hs ltac:(cbn; lia)) as Esub.
    assert (shows (mk_span (sdata s + 1) (ssize s - 1)) ys m) as Hs'.
    { destruct (span_subspan s [c] ys m Hs) as [E' Hs']. change (Z.of_nat (length [c])) with 1 in *.
      change (Z.of_nat 1) with 1 in Esub. rewrite Esub in E'. injection E' as Ez. by rewrite Ez. }
    rewrite (bind_Ret _ _ _ _ _ Esub).
    destruct (fold_decimal_spec (2 ^ (bits - 1)) _ ys m ltac:(lia) Hs') as (v & E & Hv).
    rewrite (bind_Ret _ _ _ _ _ E). by apply (parse_signed_end true _ ys m v).
  - mstep. destruct (fold_decimal_spec (2 ^ (bits - 1) - 1) s (c :: ys) m ltac:(lia) Hs) as (v & E & Hv).
    rewrite (bind_Ret _ _ _ _ _ E). by apply (parse_signed_end false s (c :: ys) m v).
Qed.
End parse_facts.

(** ** Formatting *)

Definition decimal_char (d : Z) : Z := 48 + d.
Definition hex_char (letters : hex_case) (d : Z) : Z :=
  if d <? 10 then 48 + d else (match letters with upper => 65 | lower => 97 end) + (d - 10).

Section format_facts.
  Context `{SizeT} (h : hardening).
  Implicit Types (xs before after : list Z) (s : span) (v : Z) (n : nat).

(** [s] is the part [xs] of an array that starts after [before]. *)
Definition spans s before xs : Prop :=
  sdata s = Z.of_nat (length before) /\ ssize s = Z.of_nat (length xs) /\ Z.of_nat (length xs) < 2 ^ size_bits - 1.

Lemma spans_shows s before xs after : spans s before xs -> shows s xs (before ++ xs ++ after).
Proof. intros (Hd & Hs & Hm). split_and!; [lia|done|done|]. by exists before, after. Qed.

Lemma spans_resize s before xs ys : length ys = length xs -> spans s before xs -> spans s before ys.
Proof. unfold spans. intros ->. done. Qed.

(** [n] is the number of digits of [v]. *)
Definition digit_count (base v : Z) n : Prop :=
  (1 <= n)%nat /\ v < base ^ Z.of_nat n /\ (n = 1%nat \/ base ^ (Z.of_nat n - 1) <= v).

Lemma digit_count_step base v n :
  2 <= base -> base <= v -> digit_count base (v / base) n -> digit_count base v (S n).
Proof.
  intros Hb Hv (H1 & H2 & H3). pose proof (Z.div_mod v base ltac:(lia)). pose proof (Z.mod_pos_bound v base ltac:(lia)).
  split_and!; [lia| |right].
  - rewrite Nat2Z.inj_succ, Z.pow_succ_r by lia. nia.
  - replace (Z.of_nat (S n) - 1) with (Z.succ (Z.of_nat n - 1)) by lia. rewrite Z.pow_succ_r by lia.
    destruct H3 as [->|H3]; [cbn; lia|nia].
Qed.

Lemma digit_count_one base v : v < base -> digit_count base v 1.
Proof. intros. split_and!; [lia|by rewrite Z.pow_1_r|by left]. Qed.

Lemma decimal_digits_spec v d m fuel :
  0 <= v < 10 ^ (Z.of_nat fuel + 1) ->
  exists n, digit_count 10 v n /\ Format.decimal_digits_from fuel v d m = Ret (d + Z.of_nat n - 1) m.
Proof.
  revert v d. induction fuel as [|fuel IH]; intros v d Hv; cbn [Format.decimal_digits_from];
    destruct (Z.leb_spec 10 v) as [Hge|Hlt].
  - cbn in Hv. lia.
  - exists 1%nat. split; [by apply digit_count_one|unfold ret; f_equal; lia].
  - destruct (IH (v / 10) (d + 1)) as (n & Hn & E).
    { split; [apply Z.div_pos; lia|]. apply Z.div_lt_upper_bound; [lia|].
      rewrite <- Z.pow_succ_r by lia. replace (Z.succ (Z.of_nat fuel + 1)) with (Z.of_nat (S fuel) + 1) by lia. lia. }
    exists (S n). split; [by apply digit_count_step|]. rewrite E. f_equal. lia.
  - exists 1%nat. split; [by apply digit_count_one|unfold ret; f_equal; lia].
Qed.

Lemma hex_digits_spec v d m fuel :
  0 <= v < 16 ^ (Z.of_nat fuel + 1) ->
  exists n, digit_count 16 v n /\ Format.hex_digits_from fuel v d m = Ret (d + Z.of_nat n - 1) m.
Proof.
  revert v d. induction fuel as [|fuel IH]; intros v d Hv; cbn [Format.hex_digits_from];
    destruct (Z.leb_spec 16 v) as [Hge|Hlt].
  - cbn in Hv. lia.
  - exists 1%nat. split; [by apply digit_count_one|unfold ret; f_equal; lia].
  - rewrite Z.shiftr_div_pow2 by lia. change (2 ^ 4) with 16. destruct (IH (v / 16) (d + 1)) as (n & Hn & E).
    { split; [apply Z.div_pos; lia|]. apply Z.div_lt_upper_bound; [lia|].
      rewrite <- Z.pow_succ_r by lia. replace (Z.succ (Z.of_nat fuel + 1)) with (Z.of_nat (S fuel) + 1) by lia. lia. }
    exists (S n). split; [by apply digit_count_step|]. rewrite E. f_equal. lia.
  - exists 1%nat. split; [by apply digit_count_one|unfold ret; f_equal; lia].
Qed.

(** Writing one digit, at the end of what is still to be written. *)
Lemma write_one s before xs after n c :
  spans s before xs -> (n < length xs)%nat ->
  Span.set_at h s (Z.of_nat n) c (before ++ xs ++ after) = Ret tt (before ++ <[n := c]> xs ++ after).
Proof. intros Hs Hn. apply span_set; [by apply spans_shows|apply Hs|done]. Qed.

Lemma take_insert_drop n c xs ds :
  (n < length xs)%nat -> length ds = n -> ds ++ drop n (<[n := c]> xs) = (ds ++ [c]) ++ drop (S n) xs.
Proof.
  intros Hn Hd. rewrite <- app_assoc. f_equal.
  rewrite (drop_S (<[n := c]> xs) c) by (by apply list_lookup_insert_eq). cbn [app]. by rewrite drop_insert_lt by lia.
Qed.

Lemma write_decimal_spec s before xs after n v :
  spans s before xs -> (n <= length xs)%nat ->
  Format.write_decimal h s n v (before ++ xs ++ after) =
    Ret tt (before ++ ((decimal_char <$> digits_of 10 n v) ++ drop n xs) ++ after).
Proof.
  revert v xs. induction n as [|n IH]; intros v xs Hs Hn; [done|]. cbn [Format.write_decimal digits_of].
  rewrite (bind_Ret _ _ _ _ _ (write_one s before xs after n _ Hs Hn)).
  rewrite IH; [|by eapply spans_resize; [apply length_insert|]|rewrite length_insert; lia].
  do 2 f_equal. f_equal. rewrite take_insert_drop by (done || by rewrite length_fmap, length_digits_of).
  by rewrite fmap_app.
Qed.

Lemma write_hex_spec s before xs after n v letters :
  0 <= v -> spans s before xs -> (n <= length xs)%nat ->
  Format.write_hex h s n v letters (before ++ xs ++ after) =
    Ret tt (before ++ ((hex_char letters <$> digits_of 16 n v) ++ drop n xs) ++ after).
Proof.
  revert v xs. induction n as [|n IH]; intros v xs Hv Hs Hn; [done|]. cbn [Format.write_hex digits_of].
  rewrite (bind_Ret _ _ _ _ _ (write_one s before xs after n _ Hs Hn)).
  assert (Z.land v 15 = v mod 16) as -> by (by apply (Z.land_ones v 4)).
  rewrite Z.shiftr_div_pow2 by lia. change (2 ^ 4) with 16.
  rewrite IH; [|apply Z.div_pos; lia|by eapply spans_resize; [apply length_insert|]|rewrite length_insert; lia].
  do 2 f_equal. f_equal. rewrite take_insert_drop by (done || by rewrite length_fmap, length_digits_of).
  by rewrite fmap_app.
Qed.

Lemma first_of s before xs after (k : nat) :
  spans s before xs -> (k <= length xs)%nat ->
  Span.first s (Z.of_nat k) (before ++ xs ++ after) = Ret (mk_span (sdata s) (Z.of_nat k)) (before ++ xs ++ after).
Proof.
  intros Hs Hk. pose proof (spans_shows s before xs after Hs) as Hsh.
  rewrite <- (take_drop k xs) in Hsh at 1. destruct (span_first s _ _ _ Hsh) as [E _].
  by rewrite length_take, Nat.min_l in E by done.
Qed.

(** The first [n] characters of [xs] become [txt]. *)
Lemma length_overwritten n xs (txt : list Z) :
  length txt = n -> (n <= length xs)%nat -> length (txt ++ drop n xs) = length xs.
Proof. intros. rewrite length_app, length_drop. lia. Qed.

Definition decimal_text (n : nat) v : list Z := decimal_char <$> digits_of 10 n v.
Definition hex_text (letters : hex_case) (n : nat) v : list Z := hex_char letters <$> digits_of 16 n v.

Lemma length_decimal_text n v : length (decimal_text n v) = n.
Proof. unfold decimal_text. by rewrite length_fmap, length_digits_of. Qed.

Lemma length_hex_text letters n v : length (hex_text letters n v) = n.
Proof. unfold hex_text. by rewrite length_fmap, length_digits_of. Qed.

(** What formatting [txt] into [s] does: all of it, or nothing. *)
Definition written (s : span) before xs after (fits : bool) (txt : list Z) : outcome (list Z) span :=
  if fits then Ret (mk_span (sdata s) (Z.of_nat (length txt))) (before ++ (txt ++ drop (length txt) xs) ++ after)
  else Ret (mk_span (sdata s) 0) (before ++ xs ++ after).

Lemma write_then_first s before xs after (n : nat) (txt : list Z) (m : M (list Z) unit) :
  spans s before xs -> (n <= length xs)%nat -> length txt = n ->
  m (before ++ xs ++ after) = Ret tt (before ++ (txt ++ drop n xs) ++ after) ->
  (m ;;; Span.first s (Z.of_nat n)) (before ++ xs ++ after) = written s before xs after true txt.
Proof.
  intros Hs Hn Ht E. rewrite (bind_Ret _ _ _ _ _ E). unfold written. rewrite Ht.
  pose proof (length_overwritten n xs txt Ht Hn) as Hl.
  apply first_of; [by apply (spans_resize _ _ xs)|by rewrite Hl].
Qed.

Lemma fits_bool (n : nat) xs : (Z.of_nat (length xs) <? Z.of_nat n) = negb (n <=? length xs)%nat.
Proof. destruct (Nat.leb_spec n (length xs)); cbn; [apply Z.ltb_ge|apply Z.ltb_lt]; lia. Qed.

Lemma format_uint_exact s before xs after v :
  0 <= v < 2 ^ 64 -> spans s before xs ->
  exists n, digit_count 10 v n /\
    Format.try_format_uint h s v (before ++ xs ++ after) =
      written s before xs after (n <=? length xs)%nat (decimal_text n v).
Proof.
  intros Hv Hs. unfold Format.try_format_uint, Format.decimal_digits, Format.ull_bits. cbv zeta.
  assert (to_unsigned 64 v = v) as -> by (by apply Z.mod_small).
  destruct (decimal_digits_spec v 1 (before ++ xs ++ after) 64 ltac:(cbn in *; lia)) as (n & Hn & E).
  exists n. split; [done|]. rewrite (bind_Ret _ _ _ _ _ E). replace (1 + Z.of_nat n - 1) with (Z.of_nat n) by lia.
  rewrite (proj1 (proj2 Hs)), fits_bool, Nat2Z.id. destruct (Nat.leb_spec n (length xs)); cbn [negb].
  - apply write_then_first; [done|done|apply length_decimal_text|]. by apply write_decimal_spec.
  - by apply (first_of s before xs after 0); [|lia].
Qed.

Lemma format_hex_exact s before xs after v digits letters :
  0 <= v < 2 ^ 64 -> 0 <= digits -> spans s before xs ->
  exists n, digit_count 16 v n /\
    let count := if digits =? 0 then n else Z.to_nat digits in
    Format.try_format_hex h s v digits letters (before ++ xs ++ after) =
      written s before xs after ((n <=? count)%nat && (count <=? length xs)%nat) (hex_text letters count v).
Proof.
  intros Hv Hd Hs. unfold Format.try_format_hex, Format.hex_digits, Format.ull_bits. cbv zeta.
  assert (to_unsigned 64 v = v) as -> by (by apply Z.mod_small).
  destruct (hex_digits_spec v 1 (before ++ xs ++ after) 64 ltac:(cbn in *; lia)) as (n & Hn & E).
  exists n. split; [done|]. rewrite (bind_Ret _ _ _ _ _ E). replace (1 + Z.of_nat n - 1) with (Z.of_nat n) by lia.
  set (count := if digits =? 0 then n else Z.to_nat digits).
  assert ((if digits =? 0 then Z.of_nat n else digits) = Z.of_nat count) as ->
    by (unfold count; destruct (Z.eqb_spec digits 0); lia).
  rewrite (proj1 (proj2 Hs)), fits_bool, Nat2Z.id.
  assert ((Z.of_nat count <? Z.of_nat n) = negb (n <=? count)%nat) as ->
    by (destruct (Nat.leb_spec n count); cbn; [apply Z.ltb_ge|apply Z.ltb_lt]; lia).
  destruct (Nat.leb_spec n count), (Nat.leb_spec count (length xs)); cbn [negb orb andb];
    try (by apply (first_of s before xs after 0); [|lia]).
  apply write_then_first; [done|done|apply length_hex_text|]. apply write_hex_spec; [lia|done|done].
Qed.

Lemma magnitude_of_abs v : - 2 ^ 63 <= v < 2 ^ 63 -> Format.magnitude_of v = Z.abs v.
Proof.
  intros Hv. unfold Format.magnitude_of, Format.ull_bits, to_unsigned.
  destruct (Z.ltb_spec v 0).
  - replace (v mod 2 ^ 64) with (v + 2 ^ 64).
    + replace (0 - (v + 2 ^ 64)) with (- v + (-1) * 2 ^ 64) by lia. rewrite Z.mod_add, Z.mod_small; lia.
    + rewrite <- (Z.mod_add v 1) by lia. rewrite Z.mul_1_l, Z.mod_small; lia.
  - rewrite Z.mod_small; lia.
Qed.

(** The text of a signed value. *)
Definition signed_text (n : nat) v : list Z := (if v <? 0 then [45] else []) ++ decimal_text n (Z.abs v).

(** A minus sign, and the digits after it. *)
Lemma write_negative s before xs after n v :
  spans s before xs -> (S n <= length xs)%nat ->
  (Span.set_at h s 0 45 ;;;
   let! rest := Span.subspan s 1 Span.dynamic_extent in Format.write_decimal h rest n v) (before ++ xs ++ after) =
    Ret tt (before ++ ((45 :: decimal_text n v) ++ drop (S n) xs) ++ after).
Proof.
  intros Hs Hn. destruct xs as [|c xs]; [cbn in Hn; lia|]. cbn [length] in Hn.
  rewrite (bind_Ret _ _ _ _ _ (write_one s before (c :: xs) after 0 45 Hs ltac:(cbn; lia))). cbn [insert list_insert].
  assert (spans s before (45 :: xs)) as Hs' by (by apply (spans_resize _ _ (c :: xs))).
  destruct (span_subspan s [45] xs _ (spans_shows s before (45 :: xs) after Hs')) as [E _].
  change (Z.of_nat (length [45])) with 1 in E. rewrite (bind_Ret _ _ _ _ _ E).
  replace (before ++ (45 :: xs) ++ after) with ((before ++ [45]) ++ xs ++ after) by (by rewrite <- app_assoc).
  rewrite (write_decimal_spec _ (before ++ [45]) xs after n v); [by rewrite <- app_assoc| |lia].
  destruct Hs as (Hd & Hz & Hm). cbn [length] in *. split_and!; cbn [sdata ssize]; [rewrite length_app; cbn; lia|done|lia].
Qed.

Lemma format_int_exact s before xs after v :
  - 2 ^ 63 <= v < 2 ^ 63 -> spans s before xs ->
  exists n, digit_count 10 (Z.abs v) n /\
    Format.try_format_int h false s v (before ++ xs ++ after) =
      written s before xs after (length (signed_text n v) <=? length xs)%nat (signed_text n v).
Proof.
  intros Hv Hs. unfold Format.try_format_int, Format.decimal_digits. cbv zeta. rewrite (magnitude_of_abs v Hv).
  destruct (decimal_digits_spec (Z.abs v) 1 (before ++ xs ++ after) 64 ltac:(cbn in *; lia)) as (n & Hn & E).
  exists n. split; [done|]. rewrite (bind_Ret _ _ _ _ _ E). replace (1 + Z.of_nat n - 1) with (Z.of_nat n) by lia.
  unfold signed_text. destruct (Z.ltb_spec v 0) as [Hneg|Hpos]; cbn [app length]; rewrite length_decimal_text.
  - replace (Z.of_nat n + 1) with (Z.of_nat (S n)) by lia. rewrite (proj1 (proj2 Hs)), fits_bool, Nat2Z.id.
    destruct (Nat.leb_spec (S n) (length xs)); cbn [negb]; [|by apply (first_of s before xs after 0); [|lia]].
    apply write_then_first; [done|done|cbn; by rewrite length_decimal_text|by apply write_negative].
  - rewrite Z.add_0_r, (proj1 (proj2 Hs)), fits_bool, Nat2Z.id.
    destruct (Nat.leb_spec n (length xs)); cbn [negb]; [|by apply (first_of s before xs after 0); [|lia]].
    apply write_then_first; [done|done|apply length_decimal_text|by apply write_decimal_spec].
Qed.
End format_facts.

(** ** Formatting and parsing back *)

Section round_trip.
  Context `{SizeT} (h : hardening) (uint_bits bits : Z) (Huint : 16 <= uint_bits) (Hbits : 8 <= bits <= 64).
  Implicit Types (xs before after txt : list Z) (s : span) (v : Z) (n : nat).

Lemma leading_chars dig char base ds :
  (forall d, 0 <= d < base -> dig (char d) = Some d) -> (forall d, d ∈ ds -> 0 <= d < base) ->
  leading dig (char <$> ds) = ds.
Proof.
  intros Hchar. induction ds as [|d ds IH]; intros Hr; [done|]. cbn [fmap list_fmap leading].
  rewrite Hchar by (apply Hr; by left). f_equal. apply IH. intros d' Hd'. apply Hr. by right.
Qed.

Lemma number_of_text dig char base n v limit :
  2 <= base -> (forall d, 0 <= d < base -> dig (char d) = Some d) ->
  (1 <= n)%nat -> 0 <= v < base ^ Z.of_nat n -> v <= limit ->
  number dig base limit (char <$> digits_of base n v) = inr (v, n).
Proof.
  intros Hb Hchar Hn Hv Hl. unfold number. rewrite (leading_chars dig char base) by (done || by apply digits_of_range).
  rewrite value_digits_of, Z.mod_small, length_digits_of by lia. zbool.
  pose proof (length_digits_of base n v) as Hlen. destruct (digits_of base n v); [cbn in Hlen; lia|done].
Qed.

Lemma decimal_char_digit d : 0 <= d < 10 -> decimal_digit (decimal_char d) = Some d.
Proof. intros. unfold decimal_digit, decimal_char. zbool. cbn. f_equal. lia. Qed.

Lemma hex_char_digit letters d : 0 <= d < 16 -> hex_digit (hex_char letters d) = Some d.
Proof.
  intros Hd. unfold hex_digit, hex_char, Parse.hex_digit_value.
  destruct (Z.ltb_spec d 10); destruct letters; zbool; cbn [andb]; zbool; cbn [andb]; zbool; f_equal; lia.
Qed.

Lemma digit_count_bound base v n k : 2 <= base -> (1 <= k)%nat -> v < base ^ Z.of_nat k -> digit_count base v n -> (n <= k)%nat.
Proof.
  intros Hb Hk Hv (H1 & H2 & [->|H3]); [done|].
  destruct (Nat.le_gt_cases n k) as [|Hgt]; [done|].
  pose proof (Z.pow_le_mono_r base (Z.of_nat k) (Z.of_nat n - 1) ltac:(lia) ltac:(lia)). lia.
Qed.

(** The text that was written is what the returned span shows. *)
Lemma written_shows s before xs after txt :
  spans s before xs -> (length txt <= length xs)%nat ->
  shows (mk_span (sdata s) (Z.of_nat (length txt))) txt (before ++ (txt ++ drop (length txt) xs) ++ after).
Proof.
  intros (Hd & Hz & Hm) Hl. split_and!; cbn [sdata ssize]; [lia|done|lia|].
  exists before, (drop (length txt) xs ++ after). by rewrite <- app_assoc.
Qed.

(** [parse] reads [v] from all of [s]. *)
Definition reads (parse : span -> M (list Z) (parse_error + parsed)) s v (m : list Z) : Prop :=
  parse s m = Ret (inr (mk_parsed v (mk_span (sdata s + ssize s) 0))) m.

(** From what formatting does and what parsing the text gives, the round trip. *)
Lemma round_trip_written s before xs after txt (fits : bool) (room : Prop) v (parse : span -> M (list Z) (parse_error + parsed)) :
  spans s before xs -> (fits = true -> length txt <= length xs)%nat -> (room -> fits = true) -> (1 <= length txt)%nat ->
  (fits = true -> forall s m, shows s txt m -> reads parse s v m) ->
  exists s' m', written s before xs after fits txt = Ret s' m' /\ (room -> Span.empty s' = false) /\
    (Span.empty s' = false -> reads parse s' v m').
Proof.
  intros Hs Hfit Hroom H1 Hp. destruct fits; cbn [written]; eexists _, _; (split; [reflexivity|]).
  - split; [intros _; unfold Span.empty; cbn [ssize]; by zbool|]. intros _. apply Hp, written_shows; [done|done|by apply Hfit].
  - split; [intros Hr; by specialize (Hroom Hr)|done].
Qed.

Lemma parse_unsigned_text dig char base n v s m (limit : Z) :
  2 <= base -> (forall d, 0 <= d < base -> dig (char d) = Some d) ->
  (1 <= n)%nat -> 0 <= v < base ^ Z.of_nat n -> v <= limit -> shows s (char <$> digits_of base n v) m ->
  match char <$> digits_of base n v with [] => inl empty | _ => answer s 1 (number dig base limit (char <$> digits_of base n v)) end =
    inr (mk_parsed v (mk_span (sdata s + ssize s) 0)).
Proof.
  intros Hb Hc Hn Hv Hl Hs. pose proof (proj1 (proj2 Hs)) as Hz.
  assert (length (char <$> digits_of base n v) = n) as Elen by (by rewrite length_fmap, length_digits_of).
  rewrite nonempty_match by (intros E'; rewrite E' in Elen; cbn in Elen; lia).
  rewrite (number_of_text dig char base n v limit Hb Hc Hn Hv Hl). cbn [answer]. rewrite Hz, Elen.
  replace (1 * v) with v by lia. do 3 f_equal. lia.
Qed.

Lemma round_trip_uint s before xs after v :
  spans s before xs -> 0 <= v < 2 ^ bits -> exists s' m',
    Format.try_format_uint h s v (before ++ xs ++ after) = Ret s' m' /\
    ((20 <= length xs)%nat -> Span.empty s' = false) /\
    (Span.empty s' = false -> reads (Parse.try_parse_uint h uint_bits bits) s' v m').
Proof.
  intros Hs Hv. pose proof (Z.pow_le_mono_r 2 bits 64 ltac:(lia) ltac:(lia)) as Hp.
  destruct (format_uint_exact h s before xs after v ltac:(lia) Hs) as (n & Hn & ->).
  assert (n <= 20)%nat by (apply (digit_count_bound 10 v n 20); [lia|lia|cbn in *; lia|done]).
  apply round_trip_written; rewrite ?length_decimal_text; try done.
  - intros. by apply Nat.leb_le.
  - intros. apply Nat.leb_le. lia.
  - apply Hn.
  - intros _ s' m' Hs'. unfold reads. rewrite (parse_uint_exact h uint_bits bits Huint ltac:(lia) s' _ m' Hs'). f_equal.
    apply (parse_unsigned_text _ _ _ _ _ s' m'); try done; [by apply decimal_char_digit|apply Hn|split; [lia|apply Hn]|lia].
Qed.

Lemma round_trip_hex s before xs after v digits letters :
  spans s before xs -> bits mod 4 = 0 -> 0 <= v < 2 ^ bits -> 0 <= digits -> exists s' m',
    Format.try_format_hex h s v digits letters (before ++ xs ++ after) = Ret s' m' /\
    ((16 <= length xs)%nat /\ (digits = 0 \/ 16 <= digits <= Z.of_nat (length xs)) -> Span.empty s' = false) /\
    (Span.empty s' = false -> reads (Parse.try_parse_hex h uint_bits bits) s' v m').
Proof.
  intros Hs H4 Hv Hd. pose proof (Z.pow_le_mono_r 2 bits 64 ltac:(lia) ltac:(lia)) as Hp.
  destruct (format_hex_exact h s before xs after v digits letters ltac:(lia) Hd Hs) as (n & Hn & ->).
  assert (n <= 16)%nat by (apply (digit_count_bound 16 v n 16); [lia|lia|cbn in *; lia|done]).
  cbv zeta. set (count := if digits =? 0 then n else Z.to_nat digits).
  assert (1 <= count)%nat by (destruct Hn as (? & _); unfold count; destruct (Z.eqb_spec digits 0); lia).
  apply round_trip_written; rewrite ?length_hex_text; try done.
  - intros [_ ?%Nat.leb_le]%andb_true_iff. done.
  - intros Hr. apply andb_true_iff. rewrite !Nat.leb_le. unfold count. destruct (Z.eqb_spec digits 0); lia.
  - intros [Hle%Nat.leb_le _]%andb_true_iff s' m' Hs'. unfold reads.
    rewrite (parse_hex_exact h uint_bits bits Huint ltac:(lia) s' _ m' H4 Hs'). f_equal.
    destruct Hn as (_ & Hn & _). pose proof (Z.pow_le_mono_r 16 (Z.of_nat n) (Z.of_nat count) ltac:(lia) ltac:(lia)).
    apply (parse_unsigned_text _ _ _ _ _ s' m'); try done; [by apply hex_char_digit|lia|lia].
Qed.

Lemma parse_signed_text n v s m :
  - 2 ^ (bits - 1) <= v < 2 ^ (bits - 1) -> digit_count 10 (Z.abs v) n -> shows s (signed_text n v) m ->
  reads (Parse.try_parse_int h uint_bits bits) s v m.
Proof.
  intros Hv (Hn1 & Hn & _) Hs. unfold reads. rewrite (parse_int_exact h uint_bits bits Huint ltac:(lia) s _ m Hs). f_equal.
  pose proof (proj1 (proj2 Hs)) as Hz. unfold signed_text in *. destruct (Z.ltb_spec v 0); cbn [app] in *.
  - change (45 =? 45) with true. cbv iota. unfold decimal_text at 1.
    rewrite (number_of_text decimal_digit decimal_char) by (done || lia || apply decimal_char_digit).
    cbn [length] in Hz. rewrite length_decimal_text in Hz. cbn [answer sdata ssize]. rewrite Hz.
    do 2 f_equal; [lia|f_equal; lia].
  - assert (length (decimal_text n (Z.abs v)) = n) as El by apply length_decimal_text.
    assert (number decimal_digit 10 (2 ^ (bits - 1) - 1) (decimal_text n (Z.abs v)) = inr (Z.abs v, n)) as En
      by (apply number_of_text; (done || lia || apply decimal_char_digit)).
    destruct (decimal_text n (Z.abs v)) as [|c cs] eqn:E; [cbn in El; lia|].
    assert (c <> 45) as Hc.
    { intros ->. unfold number in En. cbn in En. done. }
    zbool. rewrite En. cbn [answer]. rewrite Hz, El. do 2 f_equal; [lia|f_equal; lia].
Qed.

Lemma round_trip_int s before xs after v :
  spans s before xs -> - 2 ^ (bits - 1) <= v < 2 ^ (bits - 1) -> exists s' m',
    Format.try_format_int h false s v (before ++ xs ++ after) = Ret s' m' /\
    ((20 <= length xs)%nat -> Span.empty s' = false) /\
    (Span.empty s' = false -> reads (Parse.try_parse_int h uint_bits bits) s' v m').
Proof.
  intros Hs Hv. pose proof (Z.pow_le_mono_r 2 (bits - 1) 63 ltac:(lia) ltac:(lia)) as Hp.
  destruct (format_int_exact h s before xs after v ltac:(lia) Hs) as (n & Hn & ->).
  assert (n <= 19)%nat by (apply (digit_count_bound 10 (Z.abs v) n 19); [lia|lia|cbn in *; lia|done]).
  assert (length (signed_text n v) = (if v <? 0 then S n else n)) as El
    by (unfold signed_text; destruct (v <? 0); cbn [app length]; by rewrite length_decimal_text).
  apply round_trip_written; rewrite ?El; try done.
  - intros. by apply Nat.leb_le.
  - intros. apply Nat.leb_le. destruct (v <? 0); lia.
  - destruct Hn as (? & _). destruct (v <? 0); lia.
  - intros _ s' m' Hs'. by apply (parse_signed_text n).
Qed.
End round_trip.

(** ** The properties *)

Section claims.
  Context `{SizeT} (h : hardening).

(** C33. The parsers are exact: for a span that shows the text [xs], at every
    width, [try_parse_uint] answers with the number the text starts with - its
    value, and the rest of the span - when it is at most the largest [T]; with
    [empty], [not_a_number] or [out_of_range] when there is no text, no digit or
    no room for the value; nothing is written and nothing outside the span is
    read.  [try_parse_int] does the same after an optional minus sign, down to
    and including the least [T], and [try_parse_hex] in base 16. *)
Theorem parse_exact uint_bits bits s (xs m : list Z) :
  16 <= uint_bits -> 8 <= bits -> shows s xs m ->
  Parse.try_parse_uint h uint_bits bits s m =
    Ret (match xs with [] => inl empty | _ => answer s 1 (number decimal_digit 10 (2 ^ bits - 1) xs) end) m /\
  Parse.try_parse_int h uint_bits bits s m =
    Ret (match xs with
         | [] => inl empty
         | c :: ys =>
             if c =? 45 then answer (mk_span (sdata s + 1) (ssize s - 1)) (-1) (number decimal_digit 10 (2 ^ (bits - 1)) ys)
             else answer s 1 (number decimal_digit 10 (2 ^ (bits - 1) - 1) xs)
         end) m /\
  (bits mod 4 = 0 ->
   Parse.try_parse_hex h uint_bits bits s m =
     Ret (match xs with [] => inl empty | _ => answer s 1 (number hex_digit 16 (2 ^ bits - 1) xs) end) m).
Proof.
  intros Hu Hb Hs. split; [by apply parse_uint_exact|]. split; [by apply parse_int_exact|].
  intros H4. by apply parse_hex_exact.
Qed.

(** The formatters are exact and write all of the text or none of it: into
    the part [xs] of an array, [try_format_uint] writes the decimal digits of the
    value without a leading zero and returns the span of what it wrote when they
    fit, and otherwise returns the empty span and writes nothing; no character
    after the text or outside the span changes.  So do [try_format_int], with a
    minus sign for a negative value - the least one included - and
    [try_format_hex], padded with zeros to the width asked for and refusing a
    width that would cut off digits. *)
Theorem format_exact s (before xs after : list Z) :
  spans s before xs ->
  (forall v, 0 <= v < 2 ^ 64 -> exists n, digit_count 10 v n /\
    Format.try_format_uint h s v (before ++ xs ++ after) =
      written s before xs after (n <=? length xs)%nat (decimal_text n v)) /\
  (forall v, - 2 ^ 63 <= v < 2 ^ 63 -> exists n, digit_count 10 (Z.abs v) n /\
    Format.try_format_int h false s v (before ++ xs ++ after) =
      written s before xs after (length (signed_text n v) <=? length xs)%nat (signed_text n v)) /\
  (forall v digits letters, 0 <= v < 2 ^ 64 -> 0 <= digits -> exists n, digit_count 16 v n /\
    let count := if digits =? 0 then n else Z.to_nat digits in
    Format.try_format_hex h s v digits letters (before ++ xs ++ after) =
      written s before xs after ((n <=? count)%nat && (count <=? length xs)%nat) (hex_text letters count v)).
Proof.
  intros Hs. split; [intros v Hv; by apply format_uint_exact|]. split; [intros v Hv; by apply format_int_exact|].
  intros v digits letters Hv Hd. by apply format_hex_exact.
Qed.

(** C32. Parsing what was formatted gives the value back: a value of a type of
    [bits] bits that [try_format_uint], [try_format_int] or [try_format_hex] (in
    either case, padded or not) wrote to the buffer is what the matching parser
    of that type reads from the returned span, to its end; and a buffer of 20
    characters for the decimal forms, or of 16 and the width asked for in
    hexadecimal, always has room. *)
Theorem format_parse_round_trip uint_bits bits s (before xs after : list Z) :
  16 <= uint_bits -> 8 <= bits <= 64 -> spans s before xs ->
  (forall v, 0 <= v < 2 ^ bits -> exists s' m',
    Format.try_format_uint h s v (before ++ xs ++ after) = Ret s' m' /\
    ((20 <= length xs)%nat -> Span.empty s' = false) /\
    (Span.empty s' = false -> reads (Parse.try_parse_uint h uint_bits bits) s' v m')) /\
  (forall v, - 2 ^ (bits - 1) <= v < 2 ^ (bits - 1) -> exists s' m',
    Format.try_format_int h false s v (before ++ xs ++ after) = Ret s' m' /\
    ((20 <= length xs)%nat -> Span.empty s' = false) /\
    (Span.empty s' = false -> reads (Parse.try_parse_int h uint_bits bits) s' v m')) /\
  (forall v digits letters, bits mod 4 = 0 -> 0 <= v < 2 ^ bits -> 0 <= digits -> exists s' m',
    Format.try_format_hex h s v digits letters (before ++ xs ++ after) = Ret s' m' /\
    ((16 <= length xs)%nat /\ (digits = 0 \/ 16 <= digits <= Z.of_nat (length xs)) -> Span.empty s' = false) /\
    (Span.empty s' = false -> reads (Parse.try_parse_hex h uint_bits bits) s' v m')).
Proof.
  intros Hu Hb Hs. split; [intros v Hv; by apply round_trip_uint|]. split; [intros v Hv; by apply round_trip_int|].
  intros v digits letters H4 Hv Hd. by apply round_trip_hex.
Qed.
End claims.

Section witnesses.
  #[local] Existing Instance size_t_32.

(** ["-128;"] is the least [signed char], and its rest is [";"]. *)
Lemma parse_exact_witness :
  Parse.try_parse_int HARDENING_FAST 32 8 (mk_span 0 5) [45; 49; 50; 56; 59] =
    Ret (inr (mk_parsed (-128) (mk_span 4 1))) [45; 49; 50; 56; 59].
Proof.
  assert (shows (mk_span 0 5) [45; 49; 50; 56; 59] [45; 49; 50; 56; 59]) as Hs.
  { split_and!; [done|done|done|]. by exists [], []. }
  destruct (parse_exact HARDENING_FAST 32 8 _ _ _ ltac:(lia) ltac:(lia) Hs) as (_ & E & _). rewrite E. by vm_compute.
Defined.

(** ["2a"] in upper case, with two leading zeros, after one other character. *)
Lemma format_exact_witness :
  exists s' m', Format.try_format_hex HARDENING_FAST (mk_span 1 4) 42 4 upper ([7] ++ [0; 0; 0; 0] ++ [9]) = Ret s' m' /\
    ssize s' = 4 /\ m' = [7; 48; 48; 50; 65; 9].
Proof.
  destruct (format_exact HARDENING_FAST (mk_span 1 4) [7] [0; 0; 0; 0] [9]) as (_ & _ & Hx); [by split_and!|].
  destruct (Hx 42 4 upper ltac:(lia) ltac:(lia)) as (n & (Hn1 & Hn & Hn') & E).
  assert (n <= 2)%nat. { destruct Hn' as [|Hn']; [lia|]. destruct (Nat.le_gt_cases n 2) as [|Hgt]; [done|].
    pose proof (Z.pow_le_mono_r 16 2 (Z.of_nat n - 1) ltac:(lia) ltac:(lia)). lia. }
  rewrite E. change (if 4 =? 0 then n else Z.to_nat 4) with 4%nat. cbv zeta.
  destruct n as [|[|[|n]]]; [lia| | |lia]; (eexists _, _; split; [reflexivity|split; reflexivity]).
Defined.

Lemma format_parse_round_trip_witness :
  exists s' m', Format.try_format_int HARDENING_FAST false (mk_span 0 20) (-128) ([] ++ replicate 20 0 ++ []) = Ret s' m' /\
    Span.empty s' = false /\ reads (Parse.try_parse_int HARDENING_FAST 32 8) s' (-128) m'.
Proof.
  destruct (format_parse_round_trip HARDENING_FAST 32 8 (mk_span 0 20) [] (replicate 20 0) []) as (_ & Hi & _);
    [lia|lia|by split_and!|].
  destruct (Hi (-128) ltac:(cbn; lia)) as (s' & m' & E & Hroom & Hr). exists s', m'.
  rewrite E. split; [done|]. split; [by apply Hroom|by apply Hr, Hroom].
Defined.
End witnesses.
