(* ===== verification/Words.v ===== *)
(** * [endian] and [bitfield]

    [include/metl/endian.hpp] and [include/metl/bitfield.hpp]: words whose bytes are put
    in order and words whose bits are fields.  An integer type is its size in bytes and
    its sign; a value is kept at its width. *)

From Stdlib Require Import ZArith Lia.
From stdpp Require Import base numbers list option tactics.
From S2P Require Import Prelude Text.
Local Open Scope Z_scope.

Module Endian.

(** [endian]; the value of [endian::native] is the target's. *)
Inductive endian : Set := little | big.
#[export] Instance endian_eq_dec : EqDecision endian.
Proof. solve_decision. Defined.

Record integral : Set := mk_integral { size_of : nat; signed : bool }.
Definition bits (T : integral) : Z := 8 * Z.of_nat (size_of T).
Definition cast (T : integral) (z : Z) : Z := if signed T then to_signed (bits T) z else to_unsigned (bits T) z.

(** The loop over the bytes. *)
Fixpoint swap_loop (n : nat) (w result value : Z) : Z :=
  match n with
  | O => result
  | S n' => swap_loop n' w (Z.lor (to_unsigned w (Z.shiftl result 8)) (to_unsigned w (Z.land value 255))) (Z.shiftr value 8)
  end.
Definition byteswap_unsigned (T : integral) (value : Z) : Z :=
  if (size_of T =? 1)%nat then value else swap_loop (size_of T) (bits T) 0 value.
Definition byteswap (T : integral) (value : Z) : Z := cast T (byteswap_unsigned T (to_unsigned (bits T) value)).

Definition to_little_endian (native : endian) (T : integral) (value : Z) : Z :=
  if (size_of T =? 1)%nat || bool_decide (native = little) then value else byteswap T value.
Definition to_big_endian (native : endian) (T : integral) (value : Z) : Z :=
  if (size_of T =? 1)%nat || bool_decide (native = big) then value else byteswap T value.
Definition from_little_endian := to_little_endian.
Definition from_big_endian := to_big_endian.
End Endian.

Module Bitfield.
Section bitfield.
  Context (w Lsb Width : Z).

(** [detail::low_bits<T>] at the width [w]. *)
Definition low_bits (count : Z) : Z :=
  if w <=? count then to_unsigned w (Z.lnot 0) else to_unsigned w (to_unsigned w (Z.shiftl 1 count) - 1).
Definition mask : Z := to_unsigned w (Z.shiftl (low_bits Width) Lsb).
Definition extract (value : Z) : Z := to_unsigned w (Z.shiftr (Z.land value mask) Lsb).
Definition insert (value field_val : Z) : Z :=
  to_unsigned w (Z.lor (Z.land value (to_unsigned w (Z.lnot mask))) (Z.land (to_unsigned w (Z.shiftl field_val Lsb)) mask)).
Definition encode (field_val : Z) : Z := to_unsigned w (Z.land (to_unsigned w (Z.shiftl field_val Lsb)) mask).
Definition encode_enum (e : Z) : Z := encode (to_unsigned w e).
(** [E] has the underlying type [U]. *)
Definition extract_enum (U : Endian.integral) (value : Z) : Z := Endian.cast U (extract value).
End bitfield.
End Bitfield.

(** ** The bytes of a number *)

Fixpoint le_bytes (n : nat) (v : Z) : list Z := match n with O => [] | S n' => v mod 256 :: le_bytes n' (v / 256) end.
Fixpoint of_le (bs : list Z) : Z := match bs with [] => 0 | b :: bs' => b + 256 * of_le bs' end.
Definition byte (b : Z) : Prop := 0 <= b < 256.

Section bytes.
  Import Endian.

Lemma le_bytes_length n v : length (le_bytes n v) = n.
Proof. revert v. induction n; intros v; cbn; auto. Qed.
Lemma le_bytes_ok n v : Forall byte (le_bytes n v).
Proof. revert v. induction n; intros v; cbn; constructor; auto. by apply Z.mod_pos_bound. Qed.
Lemma of_le_range bs : Forall byte bs -> 0 <= of_le bs < 256 ^ Z.of_nat (length bs).
Proof.
  induction 1 as [|b bs Hb _ IH]; [done|]. cbn [of_le length]. rewrite Nat2Z.inj_succ, Z.pow_succ_r by lia. unfold byte in Hb. nia.
Qed.
Lemma le_bytes_of_le bs : Forall byte bs -> le_bytes (length bs) (of_le bs) = bs.
Proof.
  induction 1 as [|b bs Hb _ IH]; [done|]. cbn [of_le length le_bytes]. unfold byte in Hb. rewrite (Z.mul_comm 256), Z.mod_add, Z.mod_small by lia.
  rewrite Z.div_add, Z.div_small, Z.add_0_l by lia. by rewrite IH.
Qed.
Lemma of_le_bytes n v : 0 <= v < 256 ^ Z.of_nat n -> of_le (le_bytes n v) = v.
Proof.
  revert v. induction n as [|n IH]; intros v Hv; [cbn in *; lia|]. cbn [le_bytes of_le]. rewrite Nat2Z.inj_succ, Z.pow_succ_r in Hv by lia.
  rewrite IH; [pose proof (Z.div_mod v 256 ltac:(lia)); lia|]. split; [apply Z.div_pos; lia|]. apply Z.div_lt_upper_bound; lia.
Qed.
Lemma of_le_app bs cs : of_le (bs ++ cs) = of_le bs + 256 ^ Z.of_nat (length bs) * of_le cs.
Proof.
  induction bs as [|b bs IH]; cbn [app of_le length]; [lia|]. rewrite IH, Nat2Z.inj_succ, Z.pow_succ_r by lia. lia.
Qed.

Lemma pow256 n : 0 <= n -> 2 ^ (8 * n) = 256 ^ n.
Proof. intros Hn. by rewrite Z.pow_mul_r. Qed.

(** Shifting in a byte. *)
Lemma shift_in r b : byte b -> Z.lor (Z.shiftl r 8) b = 256 * r + b.
Proof.
  intros Hb. unfold byte in Hb. assert (Z.land (Z.shiftl r 8) b = 0) as Hd.
  { apply Z.bits_inj'. intros i Hi. rewrite Z.land_spec, Z.bits_0. destruct (decide (i < 8)).
    - by rewrite Z.shiftl_spec_low.
    - destruct (decide (b = 0)) as [->|]; [by rewrite Z.bits_0, andb_false_r|]. rewrite (Z.bits_above_log2 b i), andb_false_r; [done|lia|].
      apply Z.log2_lt_pow2; [lia|]. apply (Z.lt_le_trans _ (2 ^ 8)); [lia|]. apply Z.pow_le_mono_r; lia. }
  rewrite <- Z.lxor_lor, <- Z.add_nocarry_lxor by done. rewrite Z.shiftl_mul_pow2 by lia. lia.
Qed.

Lemma swap_loop_value (N : nat) : forall n k r v,
  (k + n <= N)%nat -> (0 < N)%nat -> 0 <= r < 256 ^ Z.of_nat k -> 0 <= v ->
  swap_loop n (8 * Z.of_nat N) r v = r * 256 ^ Z.of_nat n + of_le (rev (le_bytes n v)).
Proof.
  induction n as [|n IH]; intros k r v Hn HN Hr Hv; [cbn; lia|]. cbn [swap_loop le_bytes rev].
  assert (256 ^ Z.of_nat (S k) <= 256 ^ Z.of_nat N) as Hp by (apply Z.pow_le_mono_r; lia).
  assert (256 ^ 1 <= 256 ^ Z.of_nat N) as H1 by (apply Z.pow_le_mono_r; lia).
  rewrite Nat2Z.inj_succ, Z.pow_succ_r in Hp by lia. unfold to_unsigned. rewrite pow256 by lia.
  rewrite Z.shiftl_mul_pow2 at 1 by lia. rewrite (Z.mod_small (r * 2 ^ 8)) by lia. rewrite <- (Z.shiftl_mul_pow2 r 8) by lia.
  pose proof (Z.mod_pos_bound v 256 ltac:(lia)) as Hm. change 255 with (Z.ones 8). rewrite Z.land_ones by lia. change (2 ^ 8) with 256. rewrite (Z.mod_small (v mod 256)) by lia.
  rewrite shift_in by (by apply Z.mod_pos_bound). rewrite Z.shiftr_div_pow2 by lia. change (2 ^ 8) with 256.
  rewrite (IH (S k)); [|lia|lia| |apply Z.div_pos; lia].
  - rewrite of_le_app, length_rev, le_bytes_length, Nat2Z.inj_succ, Z.pow_succ_r by lia. cbn [of_le]. lia.
  - rewrite Nat2Z.inj_succ, Z.pow_succ_r by lia. lia.
Qed.

Lemma byteswap_unsigned_value T v :
  (0 < size_of T)%nat -> 0 <= v < 2 ^ bits T -> byteswap_unsigned T v = of_le (rev (le_bytes (size_of T) v)).
Proof.
  intros HT Hv. unfold byteswap_unsigned. destruct (Nat.eqb_spec (size_of T) 1) as [E|_].
  - rewrite E. unfold bits in Hv. rewrite E in Hv. cbn in *. rewrite Z.mod_small by lia. lia.
  - rewrite (swap_loop_value (size_of T) (size_of T) 0); lia.
Qed.

(** ** Objects in memory *)

(** The bytes of an object of type [T], in the order of their addresses. *)
Definition stored (native : endian) (T : integral) (v : Z) : list Z :=
  let bs := le_bytes (size_of T) (to_unsigned (bits T) v) in match native with little => bs | big => rev bs end.
(** The values of [T]. *)
Definition in_range (T : integral) (v : Z) : Prop := cast T v = v.

Lemma cast_unsigned T z : (0 < size_of T)%nat -> to_unsigned (bits T) (cast T z) = to_unsigned (bits T) z.
Proof.
  intros HT. assert (2 ^ bits T <> 0) as Hp by (apply Z.pow_nonzero; unfold bits; lia). unfold cast, to_signed, to_unsigned.
  destruct (signed T); [|by rewrite Z.mod_mod]. case (_ <? _); [by rewrite Z.mod_mod|].
  by rewrite Zminus_mod, Z_mod_same_full, Z.sub_0_r, !Z.mod_mod.
Qed.

(** A type's value is known by its bits. *)
Lemma cast_same T x y : to_unsigned (bits T) x = to_unsigned (bits T) y -> cast T x = cast T y.
Proof. unfold cast, to_signed, to_unsigned. by intros ->. Qed.

Lemma unsigned_range T z : 0 <= to_unsigned (bits T) z < 2 ^ bits T.
Proof. apply Z.mod_pos_bound, Z.pow_pos_nonneg; unfold bits; lia. Qed.

Lemma byteswap_bytes T v :
  (0 < size_of T)%nat -> le_bytes (size_of T) (to_unsigned (bits T) (byteswap T v)) = rev (le_bytes (size_of T) (to_unsigned (bits T) v)).
Proof.
  intros HT. unfold byteswap. rewrite cast_unsigned by done. pose proof (unsigned_range T v) as Hu.
  rewrite (byteswap_unsigned_value T _ HT Hu). set (bs := rev _).
  assert (Forall byte bs) as Hb by (apply Forall_rev, le_bytes_ok). assert (length bs = size_of T) as Hl by (unfold bs; by rewrite length_rev, le_bytes_length).
  rewrite <- Hl at 1. unfold to_unsigned, bits. rewrite pow256, <- Hl, Z.mod_small by (try apply of_le_range; done || lia). by apply le_bytes_of_le.
Qed.
Lemma bytes_decide T x y :
  (0 < size_of T)%nat -> in_range T x -> in_range T y ->
  le_bytes (size_of T) (to_unsigned (bits T) x) = le_bytes (size_of T) (to_unsigned (bits T) y) -> x = y.
Proof.
  intros HT Hx Hy E. rewrite <- Hx, <- Hy. apply cast_same. apply (f_equal of_le) in E.
  rewrite !of_le_bytes in E; [done|..]; unfold bits; rewrite <- pow256 by lia; apply unsigned_range.
Qed.
Lemma cast_in_range T z : (0 < size_of T)%nat -> in_range T (cast T z).
Proof. intros HT. unfold in_range. apply cast_same. by apply cast_unsigned. Qed.
Lemma byteswap_twice T v : (0 < size_of T)%nat -> in_range T v -> byteswap T (byteswap T v) = v.
Proof.
  intros HT Hv. apply (bytes_decide T); [done|by apply cast_in_range|done|]. by rewrite !byteswap_bytes, rev_involutive.
Qed.
Lemma one_byte T v : size_of T = 1%nat -> rev (le_bytes (size_of T) v) = le_bytes (size_of T) v.
Proof. by intros ->. Qed.

(** On a target of either byte order and for every integer type, [to_little_endian]
    gives a value whose object holds the bytes of the number lowest first, and
    [to_big_endian] highest first; [from_little_endian] and [from_big_endian] undo
    them, and [byteswap] undoes itself. *)
Theorem endian_exact native T v :
  (0 < size_of T)%nat -> in_range T v ->
  let number := le_bytes (size_of T) (to_unsigned (bits T) v) in
  stored native T (to_little_endian native T v) = number /\ stored native T (to_big_endian native T v) = rev number /\
  from_little_endian native T (to_little_endian native T v) = v /\ from_big_endian native T (to_big_endian native T v) = v /\
  byteswap T (byteswap T v) = v.
Proof.
  intros HT Hv number. unfold from_little_endian, from_big_endian, to_little_endian, to_big_endian, stored.
  destruct (Nat.eqb_spec (size_of T) 1) as [E|E]; cbn [orb].
  - subst number. rewrite one_byte by done. split_and!; [by destruct native|by destruct native|done|done|by apply byteswap_twice].
  - destruct native; cbn [bool_decide decide]; rewrite ?bool_decide_eq_true_2, ?bool_decide_eq_false_2 by done; fold number;
      rewrite ?byteswap_bytes by done; rewrite ?byteswap_twice, ?rev_involutive by done; done.
Qed.
End bytes.

(** The bytes of 0x01020304 on a big-endian target. *)
Lemma endian_exact_witness :
  stored Endian.big (Endian.mk_integral 4 false) (Endian.to_little_endian Endian.big (Endian.mk_integral 4 false) 16909060) = [4; 3; 2; 1].
Proof. destruct (endian_exact Endian.big (Endian.mk_integral 4 false) 16909060) as (E & _); [cbn; lia|reflexivity|]. rewrite E. reflexivity. Defined.

(** ** Fields *)

Section fields.
  Import Bitfield.
  Context (w Lsb Width : Z) (HL : 0 <= Lsb) (HW : 0 < Width) (Hw : Lsb + Width <= w).

Lemma low_bits_ones : low_bits w Width = Z.ones Width.
Proof.
  unfold low_bits, to_unsigned. assert (2 ^ Width <= 2 ^ w) by (apply Z.pow_le_mono_r; lia). assert (0 < 2 ^ Width) by (apply Z.pow_pos_nonneg; lia).
  destruct (Z.leb_spec w Width).
  - replace w with Width by lia. change (Z.lnot 0) with (-1). rewrite Z.ones_equiv. replace (-1) with (Z.pred (2 ^ Width) + (-1) * 2 ^ Width) by lia.
    rewrite Z.mod_add by lia. apply Z.mod_small. lia.
  - assert (2 ^ Width < 2 ^ w) by (apply Z.pow_lt_mono_r; lia). rewrite Z.shiftl_1_l, (Z.mod_small (2 ^ Width)), Z.ones_equiv by lia. apply Z.mod_small. lia.
Qed.
Lemma unsigned_bit z i : 0 <= i -> Z.testbit (to_unsigned w z) i = (i <? w) && Z.testbit z i.
Proof.
  intros Hi. unfold to_unsigned. destruct (Z.ltb_spec i w); [by rewrite Z.mod_pow2_bits_low by lia|]. by rewrite Z.mod_pow2_bits_high by lia.
Qed.
Lemma mask_bit i : 0 <= i -> Z.testbit (mask w Lsb Width) i = (Lsb <=? i) && (i <? Lsb + Width).
Proof.
  intros Hi. unfold mask. rewrite unsigned_bit, low_bits_ones, Z.shiftl_spec by lia.
  destruct (Z.leb_spec Lsb i).
  - rewrite Z.testbit_ones by lia. destruct (Z.ltb_spec i w), (Z.ltb_spec i (Lsb + Width)), (Z.leb_spec 0 (i - Lsb)), (Z.ltb_spec (i - Lsb) Width); (done || lia).
  - rewrite Z.testbit_neg_r by lia. by rewrite andb_false_r.
Qed.

(** What each operation does to each bit. *)
Lemma extract_bit v i : 0 <= i -> Z.testbit (extract w Lsb Width v) i = (i <? Width) && Z.testbit v (i + Lsb).
Proof.
  intros Hi. unfold extract. rewrite unsigned_bit, Z.shiftr_spec, Z.land_spec, mask_bit by lia.
  destruct (Z.testbit v (i + Lsb)); rewrite ?andb_false_r; [|done]. destruct (Z.ltb_spec i w), (Z.leb_spec Lsb (i + Lsb)), (Z.ltb_spec (i + Lsb) (Lsb + Width)), (Z.ltb_spec i Width); (done || lia).
Qed.
Lemma encode_bit f i : 0 <= i -> Z.testbit (encode w Lsb Width f) i = (Lsb <=? i) && (i <? Lsb + Width) && Z.testbit f (i - Lsb).
Proof.
  intros Hi. unfold encode. rewrite unsigned_bit, Z.land_spec, unsigned_bit, mask_bit, Z.shiftl_spec by lia.
  destruct (Z.leb_spec Lsb i), (Z.ltb_spec i (Lsb + Width)), (Z.ltb_spec i w); cbn; rewrite ?andb_false_r, ?andb_true_r; (done || lia).
Qed.
Lemma insert_bit v f i :
  0 <= i < w -> Z.testbit (insert w Lsb Width v f) i = if (Lsb <=? i) && (i <? Lsb + Width) then Z.testbit f (i - Lsb) else Z.testbit v i.
Proof.
  intros Hi. unfold insert. rewrite unsigned_bit, Z.lor_spec, !Z.land_spec, !unsigned_bit, Z.lnot_spec, mask_bit, Z.shiftl_spec by lia.
  destruct (Z.leb_spec Lsb i), (Z.ltb_spec i (Lsb + Width)), (Z.ltb_spec i w); cbn; rewrite ?andb_false_r, ?andb_true_r, ?orb_false_r; (done || lia).
Qed.
Lemma insert_high v f i : w <= i -> Z.testbit (insert w Lsb Width v f) i = false.
Proof. intros Hi. unfold insert. rewrite unsigned_bit by lia. by destruct (Z.ltb_spec i w); [lia|]. Qed.

End fields.

(** A field that was inserted is extracted again, cut to its width; inserting what
    was extracted changes nothing; [encode] is inserting into zero; and no bit outside
    the field changes, so that fields that do not overlap do not disturb each other. *)
Theorem bitfield_exact w Lsb Width v f :
  0 <= Lsb -> 0 < Width -> Lsb + Width <= w -> 0 <= v < 2 ^ w ->
  Bitfield.extract w Lsb Width (Bitfield.insert w Lsb Width v f) = f mod 2 ^ Width /\
  Bitfield.insert w Lsb Width v (Bitfield.extract w Lsb Width v) = v /\
  Bitfield.insert w Lsb Width 0 f = Bitfield.encode w Lsb Width f /\
  Bitfield.extract w Lsb Width (Bitfield.encode w Lsb Width f) = f mod 2 ^ Width /\
  forall Lsb' Width', 0 <= Lsb' -> 0 < Width' -> Lsb' + Width' <= w -> Lsb + Width <= Lsb' \/ Lsb' + Width' <= Lsb ->
    Bitfield.extract w Lsb' Width' (Bitfield.insert w Lsb Width v f) = Bitfield.extract w Lsb' Width' v.
Proof.
  intros HL HW Hw Hv.
  assert (forall i, w <= i -> Z.testbit v i = false) as Hh.
  { intros i Hi. destruct (decide (v = 0)) as [->|]; [apply Z.bits_0|]. apply Z.bits_above_log2; [lia|].
    apply Z.log2_lt_pow2; [lia|]. apply (Z.lt_le_trans _ (2 ^ w)); [lia|]. apply Z.pow_le_mono_r; lia. }
  assert (forall i, 0 <= i -> Z.testbit (f mod 2 ^ Width) i = (i <? Width) && Z.testbit f i) as Hf.
  { intros i Hi. destruct (Z.ltb_spec i Width); [by rewrite Z.mod_pow2_bits_low by lia|by rewrite Z.mod_pow2_bits_high by lia]. }
  split_and!; [..|intros Lsb' Width' HL' HW' Hw' Hd]; apply Z.bits_inj'; intros i Hi.
  - rewrite extract_bit, Hf by lia. destruct (Z.ltb_spec i Width); [|done]. cbn [andb]. rewrite insert_bit by lia. zbool. cbn [andb]. f_equal. lia.
  - destruct (decide (i < w)); [|rewrite insert_high, Hh by lia; done]. rewrite insert_bit by lia. destruct (_ && _) eqn:E; [|done].
    apply andb_true_iff in E as [E1%Z.leb_le E2%Z.ltb_lt]. rewrite extract_bit by lia. zbool. cbn [andb]. f_equal. lia.
  - rewrite encode_bit by lia. destruct (decide (i < w)).
    + rewrite insert_bit by lia. rewrite Z.bits_0. by destruct (_ && _).
    + rewrite insert_high by lia. zbool. by rewrite andb_false_r.
  - rewrite extract_bit, Hf, encode_bit by lia. destruct (Z.ltb_spec i Width); [|done]. zbool. cbn [andb]. f_equal. lia.
  - rewrite !extract_bit by lia. destruct (Z.ltb_spec i Width'); [|done]. cbn [andb]. rewrite insert_bit by lia.
    destruct (_ && _) eqn:E; [|done]. apply andb_true_iff in E as [E1%Z.leb_le E2%Z.ltb_lt]. lia.
Qed.

Lemma bitfield_exact_witness : Bitfield.extract 32 4 3 (Bitfield.insert 32 4 3 4294967295 13) = 5.
Proof. destruct (bitfield_exact 32 4 3 4294967295 13) as (E & _); [lia..|]. rewrite E. reflexivity. Defined.
