(* ===== verification/Monotonic.v ===== *)
(** * [monotonic_buffer]

    [include/metl/monotonic_buffer.hpp]: blocks from an array of bytes, by moving an
    offset up.  [base] is the address of the array, an integer at the width of
    [std::size_t]; a pointer into the array is its offset. *)

From Stdlib Require Import ZArith Lia.
From stdpp Require Import base numbers list option tactics.
From S2P Require Import Prelude.
Local Open Scope Z_scope.

(** [(value + (alignment - 1)) & ~(alignment - 1)], shared with [arena_allocator]. *)
Definition align_up `{SizeT} (value alignment : Z) : Z :=
  Z.land (wrap (value + wrap (alignment - 1))) (wrap (Z.lnot (wrap (alignment - 1)))).
Definition power_of_two `{SizeT} (alignment : Z) : bool := negb (alignment =? 0) && (Z.land alignment (wrap (alignment - 1)) =? 0).

Module Monotonic.
Section monotonic.
  Context `{SizeT} (Capacity base : Z) (h : hardening).
  (** The state is [offset_]. *)
  Abbreviation MB := (M Z).

Definition fresh : Z := 0.
Definition capacity : Z := Capacity.
Definition used : MB Z := get (fun offset => offset).
Definition remaining : MB Z := get (fun offset => wrap (Capacity - offset)).
Definition empty : MB bool := get (fun offset => offset =? 0).

Definition try_allocate (bytes alignment : Z) : MB (option Z) :=
  metl_harden (power_of_two alignment) ;;;
  if bytes =? 0 then ret None
  else
    let! offset := used in
    let current := wrap (base + offset) in
    let aligned := align_up current alignment in
    let padding := wrap (aligned - current) in
    let! room := remaining in
    if (room <? padding) || (wrap (room - padding) <? bytes) then ret None
    else
      modify (fun o => wrap (o + padding)) ;;;
      let! result := used in
      modify (fun o => wrap (o + bytes)) ;;;
      ret (Some result).
Definition allocate (bytes alignment : Z) : MB (option Z) :=
  let! memory := try_allocate bytes alignment in
  metl_assert h (match memory with Some _ => true | None => false end) ;;;
  ret memory.

(** The type [T] is its size and its alignment. *)
Definition try_allocate_n (size align count : Z) : MB (option Z) :=
  if (count =? 0) || (wrap (-1) / size <? count) then ret None
  else try_allocate (wrap (size * count)) align.
(** The constructor may use the buffer and may throw. *)
Definition try_emplace (size align : Z) (construct : Z -> MB unit) : MB (option Z) :=
  let! memory := try_allocate size align in
  match memory with
  | None => ret None
  | Some p => construct p ;;; ret (Some p)
  end.
Definition emplace (size align : Z) (construct : Z -> MB unit) : MB (option Z) :=
  let! object := try_emplace size align construct in
  metl_assert h (match object with Some _ => true | None => false end) ;;;
  ret object.
Definition reset : MB unit := modify (fun _ => 0).
End monotonic.
End Monotonic.

(** ** Alignment *)

Section alignment.
  Context `{SizeT}.

(** The bytes from [value] up to the next multiple of [alignment]. *)
Definition pad (value alignment : Z) : Z := (- value) mod alignment.

Lemma power_of_two_spec a : 0 <= a < 2 ^ size_bits -> power_of_two a = true <-> exists k, 0 <= k < size_bits /\ a = 2 ^ k.
Proof.
  intros Ha. pose proof size_bits_min. unfold power_of_two. rewrite andb_true_iff, negb_true_iff, Z.eqb_neq, Z.eqb_eq. split.
  - intros [Hne Hl]. rewrite wrap_small in Hl by lia. destruct (land_pred_pow2 a ltac:(lia) Hl) as (k & Hk & ->). exists k. split; [|done].
    split; [done|]. destruct (decide (k < size_bits)); [done|]. assert (2 ^ size_bits <= 2 ^ k) by (apply Z.pow_le_mono_r; lia). lia.
  - intros (k & Hk & ->). assert (0 < 2 ^ k) by (apply Z.pow_pos_nonneg; lia). split; [lia|]. rewrite wrap_small by lia.
    rewrite Z.sub_1_r, <- Z.ones_equiv, Z.land_ones by lia. apply Z_mod_same_full.
Qed.

(** The padding is right even where rounding up leaves the address space. *)
Lemma align_up_padding v k : 0 <= k < size_bits -> 0 <= v < 2 ^ size_bits -> wrap (align_up v (2 ^ k) - v) = pad v (2 ^ k).
Proof.
  intros Hk Hv. assert (0 < 2 ^ k) as Hp by (apply Z.pow_pos_nonneg; lia). assert (2 ^ k < 2 ^ size_bits) as Hlt by (apply Z.pow_lt_mono_r; lia).
  unfold align_up. rewrite (wrap_small (2 ^ k - 1)) by lia. set (s := wrap (v + (2 ^ k - 1))).
  assert (Z.land s (wrap (Z.lnot (2 ^ k - 1))) = s - s mod 2 ^ k) as ->.
  { rewrite <- (Z.land_ones s k) by lia. rewrite Z.sub_1_r, <- Z.ones_equiv. pose proof (wrap_range (v + (2 ^ k - 1))) as Hs. fold s in Hs.
    assert (Z.land s (wrap (Z.lnot (Z.ones k))) = Z.ldiff s (Z.ones k)) as ->.
    { apply Z.bits_inj'. intros i Hi. rewrite Z.land_spec, Z.ldiff_spec. unfold wrap. destruct (decide (i < size_bits)).
      - by rewrite Z.mod_pow2_bits_low, Z.lnot_spec by lia.
      - replace (Z.testbit s i) with false; [done|]. symmetry. destruct (decide (s = 0)) as [->|]; [apply Z.bits_0|].
        apply Z.bits_above_log2; [lia|]. apply Z.log2_lt_pow2; [lia|]. apply (Z.lt_le_trans _ (2 ^ size_bits)); [lia|]. apply Z.pow_le_mono_r; lia. }
    pose proof (Z.lor_ldiff_and s (Z.ones k)) as E. rewrite Z.lor_comm in E. rewrite <- E at 2.
    rewrite <- Z.lxor_lor, <- Z.add_nocarry_lxor; [lia|..]; apply Z.bits_inj'; intros i Hi; rewrite !Z.land_spec, Z.ldiff_spec, Z.bits_0;
      destruct (Z.testbit s i), (Z.testbit (Z.ones k) i); done. }
  assert (s mod 2 ^ k = (v + (2 ^ k - 1)) mod 2 ^ k) as ->.
  { unfold s, wrap. apply Z.mod_mod_divide. exists (2 ^ (size_bits - k)). rewrite <- Z.pow_add_r by lia. f_equal. lia. }
  unfold s, wrap. rewrite <- Z.sub_add_distr, Zminus_mod_idemp_l, Z.sub_add_distr.
  assert ((v + (2 ^ k - 1)) mod 2 ^ k = 2 ^ k - 1 - pad v (2 ^ k)) as ->.
  { unfold pad. destruct (decide (v mod 2 ^ k = 0)) as [E|E].
    - rewrite Z.mod_opp_l_z by lia. rewrite Zplus_mod, E, Z.add_0_l, Z.mod_mod, Z.mod_small; lia.
    - rewrite Z.mod_opp_l_nz by lia. pose proof (Z.mod_pos_bound v (2 ^ k) Hp). rewrite Zplus_mod, (Z.mod_small (2 ^ k - 1)) by lia.
      replace (v mod 2 ^ k + (2 ^ k - 1)) with (v mod 2 ^ k - 1 + 1 * 2 ^ k) by lia. rewrite Z.mod_add, Z.mod_small; lia. }
  replace (v + (2 ^ k - 1) - (2 ^ k - 1 - pad v (2 ^ k)) - v) with (pad v (2 ^ k)) by lia. apply Z.mod_small. unfold pad. pose proof (Z.mod_pos_bound (- v) (2 ^ k) Hp). lia.
Qed.
(** The padding of an address that is past the address space is that of its remainder. *)
Lemma padding_exact v k : 0 <= k < size_bits -> wrap (align_up (wrap v) (2 ^ k) - wrap v) = pad v (2 ^ k).
Proof.
  intros Hk. rewrite align_up_padding by (done || apply wrap_range). unfold pad, wrap.
  assert (0 < 2 ^ k) by (apply Z.pow_pos_nonneg; lia). rewrite <- (Z.sub_0_l (v mod _)), <- (Z.sub_0_l v), <- Zminus_mod_idemp_r, (Z.mod_mod_divide v).
  - by rewrite Zminus_mod_idemp_r.
  - exists (2 ^ (size_bits - k)). rewrite <- Z.pow_add_r by lia. f_equal. lia.
Qed.
Lemma pad_aligns v k : 0 <= k -> (v + pad v (2 ^ k)) mod 2 ^ k = 0.
Proof.
  intros Hk. assert (0 < 2 ^ k) as Hp by (apply Z.pow_pos_nonneg; lia). unfold pad. rewrite Zplus_mod, Z.mod_mod, <- Zplus_mod by lia.
  by rewrite Z.add_opp_diag_r, Z.mod_0_l by lia.
Qed.
Lemma pad_range v k : 0 <= k -> 0 <= pad v (2 ^ k) < 2 ^ k.
Proof. intros Hk. apply Z.mod_pos_bound, Z.pow_pos_nonneg; lia. Qed.
End alignment.

(** ** The blocks *)

(** A request for bytes, for [count] objects, or for one object; or the end of all. *)
Inductive request : Set := Bytes (bytes alignment : Z) | Objects (size align count : Z) | Object (size align : Z) | Reset.

Section blocks.
  Context `{SizeT} (C base : Z) `{!CapacityOk C}.

Definition ask (r : request) : M Z (option Z) :=
  match r with
  | Bytes bytes alignment => Monotonic.try_allocate C base bytes alignment
  | Objects size align count => Monotonic.try_allocate_n C base size align count
  | Object size align => Monotonic.try_emplace C base size align (fun _ => ret tt)
  | Reset => Monotonic.reset ;;; ret None
  end.
Fixpoint asks (rs : list request) : M Z (list (option Z)) :=
  match rs with [] => ret [] | r :: rs' => let! p := ask r in let! ps := asks rs' in ret (p :: ps) end.

(** The block for [size] bytes when [offset] are used, in integers without bounds. *)
Definition grant (offset size alignment : Z) : option Z :=
  let p := offset + pad (base + offset) alignment in if (size =? 0) || (C <? p + size) then None else Some p.
Definition wanted (r : request) : Z :=
  match r with Bytes bytes _ => bytes | Objects size _ count => size * count | Object size _ => size | Reset => 0 end.
Definition alignment_of (r : request) : Z :=
  match r with Bytes _ a | Objects _ a _ | Object _ a => a | Reset => 1 end.
Definition granted (r : request) (offset : Z) : option Z * Z :=
  match r with
  | Reset => (None, 0)
  | _ => match grant offset (wanted r) (alignment_of r) with Some p => (Some p, p + wanted r) | None => (None, offset) end
  end.
Fixpoint all_granted (rs : list request) (offset : Z) : list (option Z) * Z :=
  match rs with
  | [] => ([], offset)
  | r :: rs' => let (p, o) := granted r offset in let (ps, o') := all_granted rs' o in (p :: ps, o')
  end.

(** Arguments that are values of [std::size_t], and alignments that are powers of two. *)
Definition proper (r : request) : Prop :=
  0 <= alignment_of r < 2 ^ size_bits /\ power_of_two (alignment_of r) = true /\
  match r with
  | Bytes bytes _ => 0 <= bytes < 2 ^ size_bits
  | Objects size _ count => 1 <= size < 2 ^ size_bits /\ 0 <= count < 2 ^ size_bits
  | Object size _ => 1 <= size < 2 ^ size_bits
  | Reset => True
  end.

Lemma try_allocate_exact bytes a o :
  0 <= a < 2 ^ size_bits -> power_of_two a = true -> 0 <= bytes < 2 ^ size_bits -> 0 <= o <= C ->
  Monotonic.try_allocate C base bytes a o = match grant o bytes a with Some p => Ret (Some p) (p + bytes) | None => Ret None o end.
Proof.
  intros Ha Hp Hb Ho. pose proof (capacity_bounds C) as [_ HC]. unfold Monotonic.try_allocate. rewrite Hp. mstep. unfold grant.
  destruct (Z.eqb_spec bytes 0); [done|]. cbn [orb]. unfold Monotonic.used, Monotonic.remaining. do 2 mstep.
  apply power_of_two_spec in Hp as (k & Hk & ->); [|done]. pose proof (pad_range (base + o) k ltac:(lia)) as Hpad.
  rewrite padding_exact, (wrap_small (C - o)) by lia. set (q := pad (base + o) (2 ^ k)) in *. destruct (Z.ltb_spec (C - o) q); cbn [orb].
  - zbool. done.
  - rewrite (wrap_small (C - o - q)) by lia. destruct (Z.ltb_spec (C - o - q) bytes).
    + rewrite (proj2 (Z.ltb_lt C (o + q + bytes))) by lia. done.
    + rewrite (proj2 (Z.ltb_ge C (o + q + bytes))) by lia. repeat mstep. rewrite (wrap_small (o + q)) by lia. by rewrite wrap_small by lia.
Qed.

Lemma try_allocate_n_exact size a count o :
  0 <= a < 2 ^ size_bits -> power_of_two a = true -> 1 <= size < 2 ^ size_bits -> 0 <= count < 2 ^ size_bits -> 0 <= o <= C ->
  Monotonic.try_allocate_n C base size a count o = match grant o (size * count) a with Some p => Ret (Some p) (p + size * count) | None => Ret None o end.
Proof.
  intros Ha Hp Hs Hn Ho. pose proof (capacity_bounds C) as [_ HC]. unfold Monotonic.try_allocate_n. destruct (Z.eqb_spec count 0) as [->|Hne].
  { cbn [orb]. unfold grant. by rewrite Z.mul_0_r. }
  cbn [orb]. assert (wrap (-1) = 2 ^ size_bits - 1) as -> by (unfold wrap; rewrite <- (Z.mod_add (-1) 1), Z.mod_small by lia; lia).
  destruct (Z.ltb_spec ((2 ^ size_bits - 1) / size) count) as [Hlt|Hge].
  - assert (2 ^ size_bits <= size * count) as Hbig.
    { pose proof (Z.mul_succ_div_gt (2 ^ size_bits - 1) size ltac:(lia)). nia. }
    unfold grant. apply power_of_two_spec in Hp as (k & Hk & ->); [|done]. pose proof (pad_range (base + o) k ltac:(lia)).
    rewrite (proj2 (Z.eqb_neq (size * count) 0)) by lia. by rewrite (proj2 (Z.ltb_lt C (o + pad (base + o) (2 ^ k) + size * count))) by lia.
  - assert (size * count < 2 ^ size_bits) as Hfit by (pose proof (Z.mul_div_le (2 ^ size_bits - 1) size ltac:(lia)); nia).
    rewrite wrap_small by nia. apply try_allocate_exact; try done. nia.
Qed.

Lemma grant_bounds o size a p : 0 <= o -> grant o size a = Some p -> (exists k, 0 <= k /\ a = 2 ^ k) -> 0 <= size -> o <= p /\ p + size <= C /\ (base + p) mod a = 0 /\ 0 < size.
Proof.
  intros Ho Hg (k & Hk & ->) Hs. unfold grant in Hg. destruct (_ || _) eqn:E; [done|]. apply orb_false_iff in E as [E1%Z.eqb_neq E2%Z.ltb_ge].
  injection Hg as <-. pose proof (pad_range (base + o) k Hk). split_and!; [lia|lia| |lia]. rewrite Z.add_assoc. by apply pad_aligns.
Qed.

Lemma ask_granted r o : proper r -> 0 <= o <= C -> ask r o = Ret (granted r o).1 (granted r o).2 /\ 0 <= (granted r o).2 <= C.
Proof.
  intros (Ha & Hp & Hr) Ho. assert (exists k, 0 <= k /\ alignment_of r = 2 ^ k) as Hk by (apply power_of_two_spec in Hp as (k & ? & ?); [exists k; split; [lia|done]|done]).
  assert (0 <= wanted r) as Hw by (destruct r; cbn [wanted]; nia). pose proof (capacity_bounds C).
  assert (forall p, grant o (wanted r) (alignment_of r) = Some p -> 0 <= p + wanted r <= C) as Hg
    by (intros p Eg; destruct (grant_bounds o _ _ p ltac:(lia) Eg Hk Hw); lia).
  destruct r as [bytes a|size a count|size a|]; cbn [ask granted wanted alignment_of] in *.
  - rewrite try_allocate_exact by done. destruct (grant o bytes a) as [p|]; cbn; [split; [done|]; by apply Hg|done].
  - rewrite try_allocate_n_exact by (done || apply Hr). destruct (grant o (size * count) a) as [p|]; cbn; [split; [done|]; by apply Hg|done].
  - unfold Monotonic.try_emplace, bind. rewrite try_allocate_exact by (done || lia). destruct (grant o size a) as [p|]; cbn; [split; [done|]; by apply Hg|done].
  - split; [done|]. cbn. lia.
Qed.

(** C31. Whatever is asked of a [monotonic_buffer], it grants and refuses exactly as an
    allocator on integers without bounds does, so that no count or alignment makes it
    wrap; a block that it grants is aligned, lies in the array and starts where the
    blocks before it end, and only what does not fit is refused. *)
Theorem monotonic_buffer_exact rs :
  Forall proper rs ->
  asks rs (Monotonic.fresh) = Ret (all_granted rs 0).1 (all_granted rs 0).2 /\
  forall r o, proper r -> 0 <= o <= C ->
    match granted r o with
    | (Some p, o') => o <= p /\ (base + p) mod alignment_of r = 0 /\ o' = p + wanted r /\ o' <= C /\ 0 < wanted r
    | (None, o') => r = Reset /\ o' = 0 \/ o' = o /\ (wanted r = 0 \/ C < o + pad (base + o) (alignment_of r) + wanted r)
    end.
Proof.
  intros Hrs. split.
  - assert (forall o, 0 <= o <= C -> asks rs o = Ret (all_granted rs o).1 (all_granted rs o).2) as Hall; [|apply Hall; pose proof (capacity_bounds C); lia].
    induction Hrs as [|r rs Hr _ IH]; intros o Ho; [done|]. cbn [asks all_granted]. destruct (ask_granted r o Hr Ho) as [E Ho']. rewrite (bind_Ret _ _ _ _ _ E).
    specialize (IH _ Ho'). destruct (granted r o) as [p o1]. cbn [fst snd] in *. rewrite (bind_Ret _ _ _ _ _ IH). by destruct (all_granted rs o1).
  - intros r o (Ha & Hp & Hr) Ho. assert (exists k, 0 <= k /\ alignment_of r = 2 ^ k) as Hk by (apply power_of_two_spec in Hp as (k & ? & ?); [exists k; split; [lia|done]|done]).
    assert (0 <= wanted r) as Hw by (destruct r; cbn [wanted]; nia).
    assert (r = Reset \/ granted r o = match grant o (wanted r) (alignment_of r) with Some p => (Some p, p + wanted r) | None => (None, o) end) as [->| ->]
      by (destruct r; eauto); [cbn; by left|].
    destruct (grant o (wanted r) (alignment_of r)) as [p|] eqn:Eg.
    + destruct (grant_bounds o _ _ p ltac:(lia) Eg Hk Hw) as (? & ? & ? & ?). by split_and!.
    + right. split; [done|]. unfold grant in Eg. destruct (_ || _) eqn:E; [|done]. apply orb_true_iff in E as [E%Z.eqb_eq|E%Z.ltb_lt]; [by left|by right].
Qed.
End blocks.

Section witness.
  #[local] Existing Instance size_t_32.

(** 100 bytes at address 4098; the count of the second request would wrap to 4 bytes. *)
Lemma monotonic_buffer_exact_witness :
  asks 100 4098 [Bytes 3 8; Objects 8 4 536870913; Object 16 16; Bytes 80 1; Reset; Bytes 100 1] 0 = Ret [Some 6; None; Some 14; None; None; Some 0] 100.
Proof.
  assert (CapacityOk 100) as HC by (split; [lia|reflexivity]).
  destruct (monotonic_buffer_exact 100 4098 [Bytes 3 8; Objects 8 4 536870913; Object 16 16; Bytes 80 1; Reset; Bytes 100 1]) as [E _].
  - repeat constructor; cbn; (lia || reflexivity || discriminate).
  - exact E.
Defined.
End witness.
