(* ===== verification/Arena.v ===== *)
(** * [arena_allocator]

    [include/metl/arena_allocator.hpp]: blocks from an array of bytes, given back in
    reverse.  A record behind each block says where it began and how to destroy what it
    holds.

    The bytes are seen as what lies in them: a record is known by the offset where it
    ends, an object by the offset where it starts.  Reading a record where none lies,
    writing over a live object, outside the array, and destroying what is not alive are
    [Fault].  A type of objects is a [K], with its size and its alignment; constructors
    and destructors are client code, which may use the arena that they run in. *)

From Stdlib Require Import ZArith Lia.
From stdpp Require Import base numbers list option gmap tactics.
From S2P Require Import Prelude Monotonic.
Local Open Scope Z_scope.

Section types.
  Context (K : Type).

(** [allocation_record]; [destroy] is the type whose [destroy_object] it points at. *)
Record allocation_record : Type := mk_record { previous_offset : Z; payload_offset : Z; destroy : option K }.
Record arena : Type := mk_arena { offset_ : Z; records : gmap Z allocation_record; objects : gmap Z K }.

(** Client code; its arguments are values of [std::size_t]. *)
Inductive arena_code : Type :=
  | AStop
  | ARaise
  | AAllocate (must : bool) (bytes alignment : Z) (k : option Z -> arena_code)   (** [allocate] or [try_allocate] *)
  | AEmplace (must : bool) (t : K) (k : option Z -> arena_code)                  (** [emplace] or [try_emplace] *)
  | AMark (k : Z -> arena_code)
  | ARewind (target : Z) (k : arena_code)
  | AReset (k : arena_code)
  | ACatch (body : arena_code) (k : bool -> arena_code).
End types.
Arguments mk_record {K}.
Arguments previous_offset {K}.
Arguments payload_offset {K}.
Arguments destroy {K}.
Arguments mk_arena {K}.
Arguments offset_ {K}.
Arguments records {K}.
Arguments objects {K}.
Arguments AStop {K}.
Arguments ARaise {K}.
Arguments AAllocate {K} must bytes alignment k.
Arguments AEmplace {K} must t k.
Arguments AMark {K} k.
Arguments ARewind {K} target k.
Arguments AReset {K} k.
Arguments ACatch {K} body k.

Module Arena.
Section arena.
  Context `{SizeT} {K : Type} `{!EqDecision K} (Capacity base record_size : Z) (h : hardening).
  Context (size_of align_of : K -> Z) (constructor destructor : K -> arena_code K).
  Abbreviation MA := (M (arena K)).

Definition destroying : Z := wrap (-1).
Definition fresh : arena K := mk_arena 0 ∅ ∅.

(** *** The bytes *)

Definition overlaps (a n b m : Z) : bool := (a <? b + m) && (b <? a + n).
(** Bytes are written: they must lie in the array and in no live object, and the records
    they were part of are gone. *)
Definition write_bytes (a n : Z) : MA unit := fun s =>
  if (0 <=? a) && (a + n <=? Capacity) && forallb (fun o => negb (overlaps a n o.1 (size_of o.2))) (map_to_list (objects s))
  then Ret tt (mk_arena (offset_ s) (filter (fun r => overlaps a n (r.1 - record_size) record_size = false) (records s)) (objects s))
  else Fault.
Definition store_record (end_offset : Z) (r : allocation_record K) : MA unit :=
  write_bytes (end_offset - record_size) record_size ;;;
  modify (fun s => mk_arena (offset_ s) (<[end_offset := r]> (records s)) (objects s)).
Definition load_record (end_offset : Z) : MA (allocation_record K) := fun s =>
  match records s !! end_offset with Some r => Ret r s | None => Fault end.
(** An object comes to life where nothing lives. *)
Definition begin_object (p : Z) (t : K) : MA unit :=
  write_bytes p (size_of t) ;;; modify (fun s => mk_arena (offset_ s) (records s) (<[p := t]> (objects s))).
Definition live_object (p : Z) (t : K) : MA unit := fun s => if decide (objects s !! p = Some t) then Ret tt s else Fault.
Definition end_object (p : Z) (t : K) : MA unit :=
  live_object p t ;;; modify (fun s => mk_arena (offset_ s) (records s) (delete p (objects s))).
Definition set_offset (o : Z) : MA unit := modify (fun s => mk_arena o (records s) (objects s)).

(** *** Allocating *)

Definition capacity : Z := Capacity.
Definition used : MA Z := get offset_.
Definition remaining : MA Z := get (fun s => wrap (Capacity - offset_ s)).
Definition empty : MA bool := get (fun s => offset_ s =? 0).
Definition mark : MA Z := get offset_.

(** The block is the caller's to write. *)
Definition allocate_impl (bytes alignment : Z) (destroy : option K) : MA (option Z) :=
  metl_harden (power_of_two alignment) ;;;
  if bytes =? 0 then ret None
  else if Capacity =? 0 then ret None
  else
    let! offset := get offset_ in
    let current := wrap (base + offset) in
    let aligned := align_up current alignment in
    let padding := wrap (aligned - current) in
    let! space := remaining in
    if space <? padding then ret None
    else
      let room := wrap (space - padding) in
      if room <? bytes then ret None
      else
        let room := wrap (room - bytes) in
        if room <? record_size then ret None
        else
          let total_bytes := wrap (padding + bytes + record_size) in
          let previous := offset in
          let payload := wrap (previous + padding) in
          let next := wrap (previous + total_bytes) in
          store_record next (mk_record previous payload destroy) ;;;
          set_offset next ;;;
          write_bytes payload bytes ;;;
          ret (Some payload).
Definition try_allocate (bytes alignment : Z) : MA (option Z) := allocate_impl bytes alignment None.
Definition allocate (bytes alignment : Z) : MA (option Z) :=
  let! memory := try_allocate bytes alignment in
  metl_assert h (match memory with Some _ => true | None => false end) ;;; ret memory.

(** [run] is how nested client code runs. *)
Definition try_emplace (run : arena_code K -> MA unit) (t : K) : MA (option Z) :=
  if Capacity <? size_of t + record_size then ret None
  else
    let! memory := allocate_impl (size_of t) (align_of t) None in
    match memory with
    | None => ret None
    | Some p =>
        let! record_end := get offset_ in
        run (constructor t) ;;;
        begin_object p t ;;;
        let! record := load_record record_end in
        store_record record_end (mk_record (previous_offset record) (payload_offset record) (Some t)) ;;;
        ret (Some p)
    end.
Definition emplace (run : arena_code K -> MA unit) (t : K) : MA (option Z) :=
  let! object := try_emplace run t in
  metl_assert h (match object with Some _ => true | None => false end) ;;; ret object.

(** *** Giving back *)

(** [destroy_object], which is [noexcept]. *)
Definition destroy_object (run : arena_code K -> MA unit) (p : Z) (t : K) : MA unit :=
  live_object p t ;;;
  (fun s => match run (destructor t) s with Throw _ => Trap | r => r end) ;;;
  end_object p t.

(** [walk] bounds the turns of the loop and of the loops inside it. *)
Fixpoint rewind_loop (run : arena_code K -> MA unit) (walk : nat) (target : Z) : MA unit :=
  let! offset := get offset_ in
  if offset <=? target then ret tt
  else match walk with
  | O => fun _ => Spin
  | S walk' =>
      let! record := load_record offset in
      metl_harden (target <=? previous_offset record) ;;;
      match destroy record with
      | Some t =>
          let at_ := offset in
          let payload := payload_offset record in
          store_record at_ (mk_record (previous_offset record) destroying None) ;;;
          destroy_object run payload t ;;;
          (let! now := get offset_ in metl_assert h (at_ <=? now)) ;;;
          rewind_loop run walk' at_ ;;;
          set_offset (previous_offset record) ;;;
          rewind_loop run walk' target
      | None =>
          if payload_offset record =? destroying then ret tt
          else set_offset (previous_offset record) ;;; rewind_loop run walk' target
      end
  end.
Definition rewind (run : arena_code K -> MA unit) (walk : nat) (target : Z) : MA unit :=
  (let! offset := get offset_ in metl_assert h (target <=? offset)) ;;; rewind_loop run walk target.
Definition reset (run : arena_code K -> MA unit) (walk : nat) : MA unit := rewind run walk 0.

(** *** Client code *)

Fixpoint exec_with (run : arena_code K -> MA unit) (walk : nat) (c : arena_code K) : MA unit :=
  match c with
  | AStop => ret tt
  | ARaise => throw
  | AAllocate must bytes alignment k => let! p := (if must then allocate else try_allocate) (wrap bytes) (wrap alignment) in exec_with run walk (k p)
  | AEmplace must t k => let! p := (if must then emplace else try_emplace) run t in exec_with run walk (k p)
  | AMark k => let! m := mark in exec_with run walk (k m)
  | ARewind target k => rewind run walk (wrap target) ;;; exec_with run walk k
  | AReset k => reset run walk ;;; exec_with run walk k
  | ACatch body k => fun s =>
      match exec_with run walk body s with
      | Ret _ s' => exec_with run walk (k false) s'
      | Throw s' => exec_with run walk (k true) s'
      | Trap => Trap | Fault => Fault | Spin => Spin
      end
  end.
(** [fuel] bounds how deep client code nests in client code. *)
Fixpoint exec (fuel walk : nat) (c : arena_code K) : MA unit :=
  match fuel with
  | O => exec_with (fun _ _ => Spin) walk c
  | S fuel' => exec_with (exec fuel' walk) walk c
  end.
End arena.
End Arena.
