(* ===== verification/ArenaFacts.v ===== *)
(** * The blocks of an arena are a stack

    What lies in the array is a stack of blocks, each with its record behind it; the
    operations on the bytes are operations on the stack. *)

From Stdlib Require Import ZArith Lia.
From stdpp Require Import base numbers list option gmap tactics.
From S2P Require Import Prelude Monotonic Arena.
Local Open Scope Z_scope.

(** What a block holds: bytes of the caller, or an object under construction; an object
    that is not in the record yet, and one that is; an object whose destructor runs; or
    nothing any more, while its record waits. *)
Inductive holds (K : Type) : Type := Raw | Built (t : K) | Obj (t : K) | Dying (t : K) | Gone.
Arguments Raw {K}.
Arguments Built {K} t.
Arguments Obj {K} t.
Arguments Dying {K} t.
Arguments Gone {K}.
Record frame (K : Type) : Type := mk_frame { f_prev : Z; f_payload : Z; f_bytes : Z; f_state : holds K }.
Arguments mk_frame {K}.
Arguments f_prev {K}.
Arguments f_payload {K}.
Arguments f_bytes {K}.
Arguments f_state {K}.

Section stack.
  Import Arena.
  Context `{SizeT} {K : Type} `{!EqDecision K} (C base R : Z) (h : hardening) (size_of align_of : K -> Z).
  Context `{!CapacityOk C} (HR : 0 < R).
  Implicit Types (s : arena K) (f g : frame K) (st A B : list (frame K)) (t : K).

Definition f_end f : Z := f_payload f + f_bytes f + R.
Definition object_of f : option K := match f_state f with Built t | Obj t | Dying t => Some t | _ => None end.
Definition record_of f : allocation_record K :=
  mk_record (f_prev f) (match f_state f with Dying _ | Gone => destroying | _ => f_payload f end) (match f_state f with Obj t => Some t | _ => None end).
Definition top st : Z := match st with [] => 0 | f :: _ => f_end f end.
(** The newest block first; each begins behind the one before. *)
Fixpoint chain st : Prop :=
  match st with
  | [] => True
  | f :: st' => f_prev f = top st' /\ f_prev f <= f_payload f /\ 1 <= f_bytes f /\ f_end f <= C /\ chain st'
  end.

Record inv st s : Prop := {
  inv_chain : chain st;
  inv_top : offset_ s = top st;
  inv_records : forall f, f ∈ st -> records s !! f_end f = Some (record_of f);
  inv_objects : forall p t, objects s !! p = Some t <-> exists f, f ∈ st /\ f_payload f = p /\ object_of f = Some t;
  inv_fits : forall f t, f ∈ st -> object_of f = Some t -> f_bytes f = size_of t /\ (base + f_payload f) mod align_of t = 0 }.

Lemma top_bounds st : chain st -> 0 <= top st <= C.
Proof.
  pose proof (capacity_bounds C). induction st as [|f st IH]; cbn [chain top]; [lia|]. intros (E & ? & ? & ? & Hc). specialize (IH Hc). unfold f_end in *. lia.
Qed.
Lemma below st g : chain st -> g ∈ st -> 0 <= f_prev g <= f_payload g /\ 1 <= f_bytes g /\ f_end g <= top st.
Proof.
  induction st as [|f st IH]; [by intros _ ?%elem_of_nil|]. cbn [chain top]. intros (E & ? & ? & ? & Hc) [->|Hg]%elem_of_cons.
  - pose proof (top_bounds st Hc). lia.
  - destruct (IH Hc Hg) as (? & ? & ?). unfold f_end in *. lia.
Qed.
Lemma chain_app A B : chain (A ++ B) -> chain B.
Proof. induction A as [|f A IH]; [done|]. cbn. intros (_ & _ & _ & _ & Hc). auto. Qed.
Lemma top_app A B : chain (A ++ B) -> top B <= top (A ++ B) /\ (A = [] \/ top B + 1 + R <= top (A ++ B)).
Proof.
  induction A as [|f A IH]; [cbn; intros _; split; [lia|by left]|]. cbn [app chain top]. intros (E & ? & ? & ? & Hc). destruct (IH Hc) as [? _].
  unfold f_end. split; [lia|right; lia].
Qed.
Lemma above A B g : chain (A ++ B) -> g ∈ A -> top B <= f_prev g.
Proof.
  induction A as [|f A IH]; [by intros _ ?%elem_of_nil|]. cbn [app chain]. intros (E & ? & ? & ? & Hc) [->|Hg]%elem_of_cons; [|auto].
  rewrite E. by apply top_app.
Qed.
(** Two stacks below one that end at one offset are one. *)
Lemma same_top A B A' B' : chain (A ++ B) -> A ++ B = A' ++ B' -> top B = top B' -> B = B'.
Proof.
  intros Hc E Et. apply app_eq_inv in E as [(k & -> & ->)|(k & -> & ->)].
  - rewrite <- app_assoc in Hc. apply chain_app in Hc. destruct (top_app _ _ Hc) as [_ [->|?]]; [done|lia].
  - apply chain_app in Hc. destruct (top_app _ _ Hc) as [_ [->|?]]; [done|lia].
Qed.
Lemma apart X f Y g : chain (X ++ f :: Y) -> g ∈ X ++ Y -> f_end f <= f_prev g \/ f_end g <= f_prev f.
Proof.
  intros Hc [Hg|Hg]%elem_of_app; [left; by apply (above X (f :: Y))|right]. apply chain_app in Hc as (-> & _ & _ & _ & Hc). by apply below.
Qed.
Lemma elem_of_around X f Y g : g ∈ X ++ f :: Y <-> g = f \/ g ∈ X ++ Y.
Proof. rewrite !elem_of_app, elem_of_cons. tauto. Qed.

(** *** Writing *)

(** Objects lie in the blocks. *)
Lemma object_lies st s p t : inv st s -> objects s !! p = Some t -> exists f, f ∈ st /\ f_payload f = p /\ size_of t = f_bytes f.
Proof.
  intros Hi (f & Hf & Hp & Ht)%(inv_objects _ _ Hi). exists f. split_and!; [done..|]. symmetry. by apply (inv_fits _ _ Hi).
Qed.
Definition erased (a n : Z) s : arena K :=
  mk_arena (offset_ s) (filter (fun r => overlaps a n (r.1 - R) R = false) (records s)) (objects s).
Lemma write_bytes_ok s a n :
  0 <= a -> a + n <= C -> (forall p t, objects s !! p = Some t -> a + n <= p \/ p + size_of t <= a) ->
  write_bytes C R size_of a n s = Ret tt (erased a n s).
Proof.
  intros Ha Hn Ho. unfold write_bytes. rewrite (proj2 (Z.leb_le 0 a)), (proj2 (Z.leb_le (a + n) C)) by lia. cbn [andb].
  assert (forallb (fun o => negb (overlaps a n o.1 (size_of o.2))) (map_to_list (objects s)) = true) as ->; [|done].
  apply Is_true_true, forallb_True, list.Forall_forall. intros [p t] Hin%elem_of_map_to_list. apply Is_true_true. cbn. unfold overlaps.
  destruct (Ho p t Hin); [rewrite (proj2 (Z.ltb_ge p (a + n))) by lia|rewrite (proj2 (Z.ltb_ge a (p + size_of t))) by lia]; by rewrite ?andb_false_r.
Qed.
Lemma erased_keeps s a n e : a + n <= e - R \/ e <= a -> records (erased a n s) !! e = records s !! e.
Proof.
  intros He. cbn [erased records]. destruct (records s !! e) as [r|] eqn:E.
  - apply map_lookup_filter_Some_2; [done|]. cbn. unfold overlaps. destruct He; [rewrite (proj2 (Z.ltb_ge (e - R) (a + n))) by lia|rewrite (proj2 (Z.ltb_ge a (e - R + R))) by lia]; by rewrite ?andb_false_r.
  - apply map_lookup_filter_None_2. by left.
Qed.
Lemma store_record_ok s e r :
  R <= e -> e <= C -> (forall p t, objects s !! p = Some t -> e <= p \/ p + size_of t <= e - R) ->
  store_record C R size_of e r s = Ret tt (mk_arena (offset_ s) (<[e := r]> (records (erased (e - R) R s))) (objects s)).
Proof.
  intros ? ? Ho. unfold store_record. erewrite bind_Ret; [|apply write_bytes_ok; [lia..|]]; [done|]. intros p t Hp. destruct (Ho p t Hp); lia.
Qed.

(** *** A block changes *)

Definition turn f (x : holds K) : frame K := mk_frame (f_prev f) (f_payload f) (f_bytes f) x.
Lemma chain_turn X f x Y : chain (X ++ f :: Y) -> chain (X ++ turn f x :: Y).
Proof.
  induction X as [|g X IH]; [done|]. cbn [app chain]. intros (E & ? & ? & ? & Hc). split_and!; [|done..|auto]. rewrite E. by destruct X.
Qed.
Lemma inv_change X f x Y s s' :
  inv (X ++ f :: Y) s -> offset_ s' = offset_ s ->
  (forall g, g ∈ X ++ Y -> records s' !! f_end g = records s !! f_end g) -> records s' !! f_end f = Some (record_of (turn f x)) ->
  objects s' = match object_of (turn f x) with Some t => <[f_payload f := t]> (objects s) | None => delete (f_payload f) (objects s) end ->
  (forall t, object_of (turn f x) = Some t -> f_bytes f = size_of t /\ (base + f_payload f) mod align_of t = 0) ->
  inv (X ++ turn f x :: Y) s'.
Proof.
  intros [Hc Ht Hr Ho Hs] Eo Er Ef Es Hx. pose proof (elem_of_around X (turn f x) Y) as Hin. pose proof (elem_of_around X f Y) as Hin'.
  assert (forall g, g ∈ X ++ Y -> f_payload g <> f_payload f) as Hne.
  { intros g Hg E. destruct (below _ g Hc ltac:(apply Hin'; by right)) as (? & ? & _), (below _ f Hc ltac:(apply Hin'; by left)) as (? & ? & _).
    destruct (apart _ _ _ _ Hc Hg); unfold f_end in *; lia. }
  split.
  - by apply chain_turn.
  - rewrite Eo, Ht. by destruct X.
  - intros g [->|Hg]%Hin; [done|]. rewrite Er by done. apply Hr, Hin'. by right.
  - intros p t. assert (objects s' !! p = if decide (p = f_payload f) then object_of (turn f x) else objects s !! p) as ->.
    { rewrite Es. destruct (decide (p = f_payload f)) as [->|].
      - destruct (object_of _); by rewrite ?lookup_insert_eq, ?lookup_delete_eq.
      - destruct (object_of _); by rewrite ?lookup_insert_ne, ?lookup_delete_ne. }
    destruct (decide (p = f_payload f)) as [->|Hp].
    + split; [intros Et; exists (turn f x); split_and!; [apply Hin; by left|done..]|]. intros (g & [->|Hg]%Hin & Hp & Et); [done|]. by destruct (Hne g Hg).
    + rewrite Ho. split; intros (g & Hg & Ep & Et).
      * apply Hin' in Hg as [->|Hg]; [done|]. exists g. split_and!; [apply Hin; by right|done..].
      * apply Hin in Hg as [->|Hg]; [done|]. exists g. split_and!; [apply Hin'; by right|done..].
  - intros g t [->|Hg]%Hin; [apply Hx|]. apply Hs, Hin'. by right.
Qed.

(** *** What the operations do to the stack *)

Lemma objects_apart X f Y s p t : inv (X ++ f :: Y) s -> objects s !! p = Some t -> p = f_payload f \/ f_end f <= p \/ p + size_of t + R <= f_prev f.
Proof.
  intros Hi Hp. destruct (object_lies _ _ _ _ Hi Hp) as (g & Hg & <- & ->). apply elem_of_around in Hg as [->|Hg]; [by left|right].
  destruct (below _ g (inv_chain _ _ Hi) ltac:(apply elem_of_around; by right)) as (? & ? & _).
  destruct (apart _ _ _ _ (inv_chain _ _ Hi) Hg); unfold f_end in *; lia.
Qed.
Lemma no_object X f Y s : inv (X ++ f :: Y) s -> object_of f = None -> objects s !! f_payload f = None.
Proof.
  intros Hi Hf. destruct (objects s !! f_payload f) as [t|] eqn:E; [|done]. apply (inv_objects _ _ Hi) in E as (g & Hg & Ep & Et).
  apply elem_of_around in Hg as [->|Hg]; [congruence|]. destruct (below _ g (inv_chain _ _ Hi) ltac:(apply elem_of_around; by right)) as (? & ? & _).
  destruct (below _ f (inv_chain _ _ Hi) ltac:(apply elem_of_around; by left)) as (? & ? & _). destruct (apart _ _ _ _ (inv_chain _ _ Hi) Hg); unfold f_end in *; lia.
Qed.
Lemma frame_bounds X f Y s : inv (X ++ f :: Y) s -> 0 <= f_prev f <= f_payload f /\ 1 <= f_bytes f /\ f_end f <= C.
Proof.
  intros [Hc _ _ _ _]. destruct (below _ f Hc ltac:(apply elem_of_around; by left)) as (? & ? & ?). pose proof (top_bounds _ Hc). lia.
Qed.

(** A record is rewritten, and what the block holds with it. *)
Lemma store_turns X f x Y s :
  inv (X ++ f :: Y) s -> object_of (turn f x) = object_of f ->
  exists s', store_record C R size_of (f_end f) (record_of (turn f x)) s = Ret tt s' /\ inv (X ++ turn f x :: Y) s' /\ offset_ s' = offset_ s.
Proof.
  intros Hi Hx. destruct (frame_bounds _ _ _ _ Hi) as (? & ? & ?). eexists. split_and!.
  - apply store_record_ok; [unfold f_end; lia|done|]. intros p t Hp. destruct (objects_apart _ _ _ _ _ _ Hi Hp) as [->|[?|?]]; unfold f_end in *; [right|lia..].
    destruct (inv_objects _ _ Hi (f_payload f) t) as [Hto _]. destruct (Hto Hp) as (g & Hg & Eg & Et). apply elem_of_around in Hg as [->|Hg].
    + rewrite <- (proj1 (inv_fits _ _ Hi f t ltac:(apply elem_of_around; by left) Et)). lia.
    + destruct (below _ g (inv_chain _ _ Hi) ltac:(apply elem_of_around; by right)) as (? & ? & _).
      destruct (apart _ _ _ _ (inv_chain _ _ Hi) Hg); unfold f_end in *; lia.
  - apply (inv_change _ f _ _ s); [done|done| | | |]; cbn [records objects].
    + intros g Hg. destruct (below _ g (inv_chain _ _ Hi) ltac:(apply elem_of_around; by right)) as (? & ? & _).
      destruct (apart _ _ _ _ (inv_chain _ _ Hi) Hg); rewrite lookup_insert_ne by (unfold f_end in *; lia); apply erased_keeps; unfold f_end in *; lia.
    + by rewrite lookup_insert_eq.
    + rewrite Hx. destruct (object_of f) as [t|] eqn:Et.
      * rewrite insert_id; [done|]. apply (inv_objects _ _ Hi). exists f. split_and!; [apply elem_of_around; by left|done..].
      * rewrite delete_id; [done|]. by apply (no_object X f Y).
    + intros t Et. rewrite Hx in Et. apply (inv_fits _ _ Hi); [apply elem_of_around; by left|done].
  - done.
Qed.
Lemma load_frame X f Y s : inv (X ++ f :: Y) s -> load_record (f_end f) s = Ret (record_of f) s.
Proof. intros Hi. unfold load_record. by rewrite (inv_records _ _ Hi f ltac:(apply elem_of_around; by left)). Qed.

Lemma begin_object_ok X f Y s t :
  inv (X ++ f :: Y) s -> f_state f = Raw -> f_bytes f = size_of t -> (base + f_payload f) mod align_of t = 0 ->
  exists s', begin_object C R size_of (f_payload f) t s = Ret tt s' /\ inv (X ++ turn f (Built t) :: Y) s' /\ offset_ s' = offset_ s.
Proof.
  intros Hi Hf Hb Ha. destruct (frame_bounds _ _ _ _ Hi) as (? & ? & ?). assert (object_of f = None) as Hn by (unfold object_of; by rewrite Hf).
  eexists. unfold begin_object. split_and!; [erewrite bind_Ret; [done|]; apply write_bytes_ok; [lia|unfold f_end in *; lia|]| |done].
  - intros p t' Hp. pose proof (no_object _ _ _ _ Hi Hn). destruct (objects_apart _ _ _ _ _ _ Hi Hp) as [->|[?|?]]; [congruence|unfold f_end in *; lia..].
  - apply (inv_change _ f _ _ s); [done|done| | |done|]; cbn [records objects].
    + intros g Hg. destruct (below _ g (inv_chain _ _ Hi) ltac:(apply elem_of_around; by right)) as (? & ? & _).
      rewrite erased_keeps; [done|]. destruct (apart _ _ _ _ (inv_chain _ _ Hi) Hg); unfold f_end in *; lia.
    + rewrite erased_keeps by (unfold f_end; lia). rewrite (inv_records _ _ Hi f) by (apply elem_of_around; by left). unfold record_of. cbn. by rewrite Hf.
    + intros t' [= <-]. done.
Qed.
(** The end of [try_emplace]: the object, and its destructor in the record. *)
Lemma finish_ok X f Y s t :
  inv (X ++ f :: Y) s -> f_state f = Raw -> f_bytes f = size_of t -> (base + f_payload f) mod align_of t = 0 ->
  exists s', (begin_object C R size_of (f_payload f) t ;;;
              let! record := load_record (f_end f) in
              store_record C R size_of (f_end f) (mk_record (previous_offset record) (payload_offset record) (Some t)) ;;;
              ret (Some (f_payload f))) s = Ret (Some (f_payload f)) s' /\ inv (X ++ turn f (Obj t) :: Y) s'.
Proof.
  intros Hi Hf Hb Ha. destruct (begin_object_ok _ _ _ _ t Hi Hf Hb Ha) as (s1 & E1 & Hi1 & _). rewrite (bind_Ret _ _ _ _ _ E1).
  erewrite bind_Ret; [|exact (load_frame _ _ _ _ Hi1)]. destruct (store_turns _ _ (Obj t) _ _ Hi1) as (s2 & E2 & Hi2 & _); [done|].
  exists s2. split; [|done]. erewrite bind_Ret; [|exact E2]. done.
Qed.
Lemma live_object_ok X f Y s t : inv (X ++ f :: Y) s -> object_of f = Some t -> live_object (f_payload f) t s = Ret tt s.
Proof.
  intros Hi Hf. unfold live_object. rewrite decide_True; [done|]. apply (inv_objects _ _ Hi). exists f. split_and!; [apply elem_of_around; by left|done..].
Qed.
Lemma end_object_ok X f Y s t :
  inv (X ++ f :: Y) s -> f_state f = Dying t ->
  exists s', end_object (f_payload f) t s = Ret tt s' /\ inv (X ++ turn f Gone :: Y) s' /\ offset_ s' = offset_ s.
Proof.
  intros Hi Hf. unfold end_object. rewrite (bind_Ret _ _ _ _ _ (live_object_ok _ _ _ _ t Hi ltac:(unfold object_of; by rewrite Hf))).
  eexists. split_and!; [done| |done]. apply (inv_change _ f _ _ s); [done|done|done| |done|done]. cbn [records].
  rewrite (inv_records _ _ Hi f) by (apply elem_of_around; by left). unfold record_of. cbn. by rewrite Hf.
Qed.
Lemma pop_ok f Y s : inv (f :: Y) s -> object_of f = None -> exists s', set_offset (f_prev f) s = Ret tt s' /\ inv Y s'.
Proof.
  intros [Hc Ht Hr Ho Hs] Hf. eexists. split; [done|]. split; cbn [offset_ records objects].
  - apply Hc.
  - apply Hc.
  - intros g Hg. apply Hr. by right.
  - intros p t. rewrite Ho. split; intros (g & Hg & ? & ?); [|exists g; split_and!; [by right|done..]]. apply elem_of_cons in Hg as [->|Hg]; [congruence|by exists g].
  - intros g t Hg. apply Hs. by right.
Qed.

(** Where [bytes] at [alignment] go, in integers without bounds. *)
Definition place (offset bytes alignment : Z) : option Z :=
  let p := offset + pad (base + offset) alignment in if (bytes =? 0) || (C <? p + bytes + R) then None else Some p.
Lemma push_ok st s p bytes :
  inv st s -> offset_ s <= p -> 1 <= bytes -> p + bytes + R <= C ->
  exists s', (store_record C R size_of (p + bytes + R) (mk_record (offset_ s) p None) ;;; set_offset (p + bytes + R) ;;; write_bytes C R size_of p bytes ;;; ret (Some p)) s
    = Ret (Some p) s' /\ inv (mk_frame (offset_ s) p bytes Raw :: st) s'.
Proof.
  intros Hi Hp Hb HC. pose proof (top_bounds _ (inv_chain _ _ Hi)) as Htop. rewrite <- (inv_top _ _ Hi) in Htop.
  assert (forall q t, objects s !! q = Some t -> q + size_of t <= p) as Hq.
  { intros q t Hq. destruct (object_lies _ _ _ _ Hi Hq) as (g & Hg & <- & ->). destruct (below _ g (inv_chain _ _ Hi) Hg) as (_ & _ & ?).
    rewrite <- (inv_top _ _ Hi) in *. unfold f_end in *. lia. }
  eexists. split.
  - erewrite bind_Ret; [|apply store_record_ok; [lia..|]; intros q t Hq'; specialize (Hq q t Hq'); lia].
    erewrite bind_Ret; [|done]. erewrite bind_Ret; [|apply write_bytes_ok; cbn [objects]; [lia..|]; intros q t Hq'; specialize (Hq q t Hq'); lia]. done.
  - split.
    + cbn [chain f_prev f_payload f_bytes]. unfold f_end. cbn. split_and!; [apply (inv_top _ _ Hi)|done..|apply (inv_chain _ _ Hi)].
    + done.
    + intros g [->|Hg]%elem_of_cons.
      * unfold f_end. cbn [f_payload f_bytes f_end]. rewrite erased_keeps by lia. cbn [records]. by rewrite lookup_insert_eq.
      * destruct (below _ g (inv_chain _ _ Hi) Hg) as (_ & _ & ?). rewrite <- (inv_top _ _ Hi) in *. rewrite erased_keeps by lia. cbn [records].
        rewrite lookup_insert_ne, erased_keeps by lia. by apply (inv_records _ _ Hi).
    + cbn [erased objects]. intros q t. rewrite (inv_objects _ _ Hi). split; intros (g & Hg & ? & ?); [exists g; split_and!; [by right|done..]|].
      apply elem_of_cons in Hg as [->|Hg]; [done|by exists g].
    + intros g t [->|Hg]%elem_of_cons; [done|by apply (inv_fits _ _ Hi)].
Qed.
Lemma allocate_impl_ok st s bytes a :
  inv st s -> 0 <= bytes < 2 ^ size_bits -> 0 <= a < 2 ^ size_bits -> power_of_two a = true ->
  match place (offset_ s) bytes a with
  | None => allocate_impl C base R size_of bytes a None s = Ret None s
  | Some p => exists s', allocate_impl C base R size_of bytes a None s = Ret (Some p) s' /\ inv (mk_frame (offset_ s) p bytes Raw :: st) s' /\
                offset_ s <= p /\ (base + p) mod a = 0 /\ 1 <= bytes
  end.
Proof.
  intros Hi Hb Ha Hp. pose proof (capacity_bounds C) as [_ HC]. pose proof (top_bounds _ (inv_chain _ _ Hi)) as Ho. rewrite <- (inv_top _ _ Hi) in Ho.
  unfold allocate_impl, remaining. rewrite Hp. mstep. apply power_of_two_spec in Hp as (k & Hk & ->); [|done]. pose proof (pad_range (base + offset_ s) k ltac:(lia)) as Hpad.
  pose proof (pad_aligns (base + offset_ s) k ltac:(lia)) as Hal. unfold place. destruct (Z.eqb_spec bytes 0); [done|]. cbn [orb].
  destruct (Z.eqb_spec C 0). { rewrite (proj2 (Z.ltb_lt C _)) by lia. done. }
  do 2 mstep. rewrite padding_exact by done. set (q := pad (base + offset_ s) (2 ^ k)) in *. rewrite (wrap_small (C - offset_ s)) by lia.
  destruct (Z.ltb_spec (C - offset_ s) q). { rewrite (proj2 (Z.ltb_lt C _)) by lia. done. }
  rewrite (wrap_small (C - offset_ s - q)) by lia. destruct (Z.ltb_spec (C - offset_ s - q) bytes). { rewrite (proj2 (Z.ltb_lt C _)) by lia. done. }
  rewrite (wrap_small (C - offset_ s - q - bytes)) by lia. destruct (Z.ltb_spec (C - offset_ s - q - bytes) R). { rewrite (proj2 (Z.ltb_lt C _)) by lia. done. }
  rewrite (proj2 (Z.ltb_ge C _)) by lia. rewrite (wrap_small (q + bytes + R)), (wrap_small (offset_ s + q)), (wrap_small (offset_ s + (q + bytes + R))) by lia.
  replace (offset_ s + (q + bytes + R)) with (offset_ s + q + bytes + R) by lia.
  destruct (push_ok st s (offset_ s + q) bytes Hi) as (s' & E & Hi'); [lia..|]. exists s'. split_and!; [done|done|lia| |lia]. by rewrite Z.add_assoc.
Qed.

(** *** What may run *)

(** Code that gives nothing back. *)
Fixpoint calm (c : arena_code K) : Prop :=
  match c with
  | AStop | ARaise => True
  | AAllocate _ _ _ k | AEmplace _ _ k => forall p, calm (k p)
  | AMark k => forall m, calm (k m)
  | ARewind _ _ | AReset _ => False
  | ACatch body k => calm body /\ forall b, calm (k b)
  end.
(** Code that asks for nothing that it must get, with alignments that are powers of two,
    and that gives back everything or nothing. *)
Fixpoint soft (c : arena_code K) : Prop :=
  match c with
  | AStop | ARaise => True
  | AAllocate must _ a k => must = false /\ power_of_two (wrap a) = true /\ forall p, soft (k p)
  | AEmplace must _ k => must = false /\ forall p, soft (k p)
  | AMark k => forall m, soft (k m)
  | ARewind _ _ => False
  | AReset k => soft k
  | ACatch body k => soft body /\ forall b, soft (k b)
  end.
(** Code that no exception leaves. *)
Fixpoint no_throw (c : arena_code K) : Prop :=
  match c with
  | AStop => True
  | ARaise | AEmplace _ _ _ => False
  | AAllocate _ _ _ k => forall p, no_throw (k p)
  | AMark k => forall m, no_throw (k m)
  | ARewind _ k | AReset k => no_throw k
  | ACatch _ k => forall b, no_throw (k b)
  end.

(** A walk stops at a block whose object is being destroyed. *)
Definition barrier f : bool := match f_state f with Dying _ | Gone => true | _ => false end.
Definition settled f : bool := match f_state f with Raw | Obj _ => true | _ => false end.
Definition open st : Prop := Forall (fun f => settled f = true) st.
Definition closed st : Prop := match st with [] => True | f :: _ => barrier f = true end.

Section runs.
  Context (constructor destructor : K -> arena_code K).
  Context (Hsize : forall t, 1 <= size_of t < 2 ^ size_bits) (Halign : forall t, 0 <= align_of t < 2 ^ size_bits /\ power_of_two (align_of t) = true).
  Context (Hcalm : forall t, calm (constructor t)).
  (** Whether the code is to be free of traps. *)
  Context (quiet : Prop) (Hquiet : quiet -> forall t, soft (constructor t) /\ soft (destructor t) /\ no_throw (destructor t)).
  Implicit Types (X Y low : list (frame K)) (c : arena_code K).
  Abbreviation MA := (M (arena K)).

(** The run keeps the blocks of [low] as they are. *)
Definition keeps {V : Type} low (o : outcome (arena K) V) : Prop :=
  match o with
  | Ret _ s | Throw s => exists X, open X /\ inv (X ++ low) s
  | Trap => ~ quiet
  | Fault | Spin => False
  end.
Definition no_exception {V : Type} (o : outcome (arena K) V) : Prop := match o with Throw _ => False | _ => True end.
(** Code keeps the blocks up to the newest whose object is being destroyed; code that
    gives nothing back keeps all.  [room] bounds what is free above them. *)
Definition runs_ok (run : arena_code K -> MA unit) (room : Z) : Prop :=
  forall c X low s, inv (X ++ low) s -> open X -> calm c \/ closed low -> C - top low <= room -> (quiet -> soft c) ->
    keeps low (run c s) /\ (no_throw c -> no_exception (run c s)).

Lemma open_app X Y : open X -> open Y -> open (X ++ Y).
Proof. apply Forall_app_2. Qed.
Lemma try_emplace_ok run room X low s t :
  runs_ok run room -> inv (X ++ low) s -> open X -> C - top low <= room + 1 ->
  keeps low (try_emplace C base R size_of align_of constructor run t s).
Proof.
  intros Hrun Hi HX Hroom. unfold try_emplace. destruct (_ <? _); [by exists X|].
  pose proof (allocate_impl_ok _ _ (size_of t) (align_of t) Hi) as Hal. destruct (Hsize t), (Halign t). specialize (Hal ltac:(lia) ltac:(lia) ltac:(done)).
  destruct (place _ _ _) as [p|]; [|rewrite (bind_Ret _ _ _ _ _ Hal); by exists X]. destruct Hal as (s1 & E1 & Hi1 & Hp & Hmod & Hb).
  rewrite (bind_Ret _ _ _ _ _ E1). set (f := mk_frame (offset_ s) p (size_of t) Raw) in *. mstep. rewrite (inv_top _ _ Hi1). cbn [top].
  destruct (top_app X low (inv_chain _ _ Hi)) as [Htop _]. pose proof (inv_top _ _ Hi) as Eo.
  destruct (Hrun (constructor t) [] (f :: X ++ low) s1 Hi1) as [Hk _]; [by constructor|left; apply Hcalm|cbn [top]; unfold f_end; cbn; lia|intros HQ; by apply Hquiet|].
  unfold bind at 1. destruct (run (constructor t) s1) as [[] s2|s2| | |]; try done.
  - destruct Hk as (X2 & HX2 & Hi2). destruct (finish_ok X2 f (X ++ low) s2 t Hi2) as (s3 & E3 & Hi3); [done..|]. change p with (f_payload f) at 1 2.
    rewrite E3. exists (X2 ++ turn f (Obj t) :: X). split; [apply open_app; [done|by constructor]|]. by rewrite <- app_assoc.
  - destruct Hk as (X2 & HX2 & Hi2). exists (X2 ++ f :: X). split; [apply open_app; [done|by constructor]|]. by rewrite <- app_assoc.
Qed.

Lemma arena_destroy_ok run room f Y s t :
  runs_ok run room -> inv (f :: Y) s -> f_state f = Dying t -> C - f_end f <= room ->
  match destroy_object destructor run (f_payload f) t s with
  | Ret _ s' => exists X, open X /\ inv (X ++ turn f Gone :: Y) s'
  | Trap => ~ quiet
  | _ => False
  end.
Proof.
  intros Hrun Hi Hf Hroom. unfold destroy_object. rewrite (bind_Ret _ _ _ _ _ (live_object_ok [] f Y s t Hi ltac:(unfold object_of; by rewrite Hf))).
  destruct (Hrun (destructor t) [] (f :: Y) s Hi) as [Hk Hn]; [by constructor|right; cbn; unfold barrier; by rewrite Hf|done|intros HQ; by apply Hquiet|].
  unfold bind. destruct (run (destructor t) s) as [[] s1|s1| | |]; try done.
  - destruct Hk as (X & HX & Hi1). destruct (end_object_ok _ _ _ _ t Hi1 Hf) as (s2 & E2 & Hi2 & _). rewrite E2. by exists X.
  - intros HQ. by apply Hn, Hquiet.
Qed.
Lemma boundary f Y A B : chain (f :: Y) -> f :: Y = A ++ B -> top B < f_end f -> top B <= f_prev f.
Proof. intros Hc E Ht. destruct A as [|g A]; cbn in E; [subst B; cbn in Ht; lia|]. injection E as <- ->. apply (above (f :: A) B); [done|by left]. Qed.

(** What a walk down to [target] leaves. *)
Definition walked target X low (o : outcome (arena K) unit) : Prop :=
  match o with
  | Ret _ s' => exists X1 X2, X = X1 ++ X2 /\ inv (X2 ++ low) s' /\ (X1 = [] \/ target <= top (X2 ++ low)) /\ (X2 = [] \/ top (X2 ++ low) <= target)
  | Trap => ~ quiet
  | _ => False
  end.
Lemma walked_cons target f X low o : target <= top (X ++ low) -> walked target X low o -> walked target (f :: X) low o.
Proof.
  intros Ht. destruct o as [[] s'|s'| | |]; try done. intros (X1 & X2 & -> & ? & Hd & ?). exists (f :: X1), X2. split_and!; [done|done| |done].
  right. destruct Hd as [->|?]; done.
Qed.
(** Turns enough for a walk from [o] down to [l]. *)
Definition enough (walk : nat) (o l : Z) : Prop := o - l + (C - l) * (C - l) + 1 <= Z.of_nat walk.
Lemma enough_inside walk o o' l : enough (S walk) o l -> l + 2 <= o -> o <= o' <= C -> enough walk o' o.
Proof. unfold enough. nia. Qed.
Lemma enough_next walk o o' l : enough (S walk) o l -> o' + 1 <= o -> enough walk o' l.
Proof. unfold enough. lia. Qed.

Lemma rewind_loop_ok run room walk target X low s :
  runs_ok run room -> inv (X ++ low) s -> open X -> closed low -> 0 <= target -> C - top low <= room + 1 -> enough walk (top (X ++ low)) (top low) ->
  (quiet -> exists A B, X ++ low = A ++ B /\ target = top B) ->
  walked target X low (rewind_loop C R h size_of destructor run walk target s).
Proof.
  intros Hrun. revert target X low s. induction walk as [|walk IH]; intros target X low s Hi HX Hlow Htarget Hroom Hw HQ; cbn [rewind_loop]; mstep.
  all: rewrite (inv_top _ _ Hi); destruct (Z.leb_spec (top (X ++ low)) target) as [Hle|Hgt]; [exists [], X; split_and!; auto|].
  { unfold enough in Hw. pose proof (top_app X low (inv_chain _ _ Hi)). pose proof (top_bounds _ (chain_app _ _ (inv_chain _ _ Hi))). nia. }
  assert (forall f Y, X ++ low = f :: Y -> target < f_end f -> (f_prev f < target -> ~ quiet)) as Hbound.
  { intros f Y E Hf Hlt Hq. destruct (HQ Hq) as (A & B & E' & ->). pose proof (inv_chain _ _ Hi) as Hc. rewrite E in E', Hc.
    pose proof (boundary f Y A B Hc E' ltac:(lia)). lia. }
  destruct X as [|f X]; cbn [app] in *.
  - destruct low as [|f low]; [cbn in Hgt; lia|]. cbn [top] in *. rewrite (bind_Ret _ _ _ _ _ (load_frame [] f low s Hi)). cbn [closed] in Hlow.
    cbn [record_of previous_offset]. destruct (Z.leb_spec target (f_prev f)); [|unfold metl_harden, bind; cbn; by apply (Hbound f low)]. mstep.
    unfold barrier in Hlow. unfold record_of; cbn [destroy payload_offset]. destruct (f_state f); try done; rewrite Z.eqb_refl; exists [], []; split_and!; auto.
  - cbn [top] in *. rewrite (bind_Ret _ _ _ _ _ (load_frame [] f (X ++ low) s Hi)). cbn [record_of previous_offset].
    destruct (Z.leb_spec target (f_prev f)) as [Hb|Hb]; [|unfold metl_harden, bind; cbn; by apply (Hbound f (X ++ low))]. mstep.
    apply list.Forall_cons in HX as [Hf HX]. destruct (frame_bounds [] f (X ++ low) s Hi) as (? & ? & ?). pose proof (proj1 (inv_chain _ _ Hi)) as Eprev.
    pose proof (top_app X low (chain_app [f] _ (inv_chain _ _ Hi))) as [Hx _].
    assert (forall s', inv (X ++ low) s' -> walked target (f :: X) low (rewind_loop C R h size_of destructor run walk target s')) as Hnext.
    { intros s' Hi'. apply walked_cons; [lia|]. apply IH; try done; [apply (enough_next _ _ _ _ Hw); unfold f_end in *; lia|].
      intros Hq. destruct (HQ Hq) as (A & B & E & ->). destruct A as [|g A]; cbn in E; [subst B; cbn in Hgt; lia|]. injection E as _ ->. by exists A, B. }
    unfold settled in Hf. unfold record_of; cbn [destroy payload_offset]. destruct (f_state f) as [|t|t|t|] eqn:Ef; try done.
    + assert ((f_payload f =? destroying) = false) as ->.
      { apply Z.eqb_neq. pose proof (capacity_bounds C). unfold destroying, wrap. rewrite <- (Z.mod_add (-1) 1), Z.mod_small by lia. unfold f_end in *. lia. }
      destruct (pop_ok f (X ++ low) s Hi) as (s' & E' & Hi'); [unfold object_of; by rewrite Ef|]. rewrite (bind_Ret _ _ _ _ _ E'). by apply Hnext.
    + destruct (store_turns [] f (Dying t) (X ++ low) s Hi) as (s1 & E1 & Hi1 & _); [unfold object_of; cbn; by rewrite Ef|]. rewrite (bind_Ret _ _ _ _ _ E1).
      pose proof (arena_destroy_ok run room (turn f (Dying t)) (X ++ low) s1 t Hrun Hi1 eq_refl ltac:(unfold f_end in *; cbn; lia)) as Hd. cbn [turn f_payload] in Hd.
      unfold bind at 1. destruct (destroy_object destructor run (f_payload f) t s1) as [[] s2|s2| | |]; try done. destruct Hd as (X2 & HX2 & Hi2).
      change (turn (turn f (Dying t)) Gone) with (turn f Gone) in Hi2. set (g := turn f Gone) in *.
      destruct (top_app X2 (g :: X ++ low) (inv_chain _ _ Hi2)) as [Hge _]. change (top (g :: X ++ low)) with (f_end f) in Hge.
      rewrite (bind_Ret _ _ s2 tt s2) by (cbn; rewrite (inv_top _ _ Hi2), (proj2 (Z.leb_le _ _) Hge); apply metl_assert_true).
      assert (walked (f_end f) X2 (g :: X ++ low) (rewind_loop C R h size_of destructor run walk (f_end f) s2)) as Hin.
      { apply IH; try done; [unfold f_end in *; lia|cbn; unfold f_end in *; cbn in *; lia| |by exists X2, (g :: X ++ low)].
        apply (enough_inside _ _ _ _ Hw); [unfold f_end in *; lia|]. split; [done|]. apply top_bounds, Hi2. }
      unfold bind at 1. destruct (rewind_loop C R h size_of destructor run walk (f_end f) s2) as [[] s3|s3| | |]; try done.
      destruct Hin as (X3 & X4 & -> & Hi3 & _ & Hd). assert (X4 = []) as ->.
      { destruct Hd as [->|Hd]; [done|]. destruct (top_app X4 (g :: X ++ low) (inv_chain _ _ Hi3)) as [_ [->|Hd']]; [done|].
        change (top (g :: X ++ low)) with (f_end f) in Hd'. lia. }
      destruct (pop_ok g (X ++ low) s3 Hi3 eq_refl) as (s4 & E4 & Hi4). change (f_prev g) with (f_prev f) in E4. rewrite (bind_Ret _ _ _ _ _ E4). by apply Hnext.
Qed.

Lemma rewind_ok run room walk target X low s :
  runs_ok run room -> inv (X ++ low) s -> open X -> closed low -> 0 <= target -> C - top low <= room + 1 -> C + C * C + 1 <= Z.of_nat walk ->
  (quiet -> exists A B, X ++ low = A ++ B /\ target = top B) ->
  walked target X low (rewind C R h size_of destructor run walk target s).
Proof.
  intros Hrun Hi HX Hlow Ht Hroom Hw HQ. unfold rewind. rewrite bind_assoc. mstep. rewrite (inv_top _ _ Hi).
  assert (walked target X low (rewind_loop C R h size_of destructor run walk target s)) as Hk.
  { apply (rewind_loop_ok run room); try done. pose proof (top_bounds _ (inv_chain _ _ Hi)). pose proof (top_bounds _ (chain_app _ _ (inv_chain _ _ Hi))). unfold enough. nia. }
  destruct (Z.leb_spec target (top (X ++ low))); [by rewrite (bind_Ret _ _ _ _ _ (metl_assert_true h s))|].
  destruct h; [done|..]; cbn; intros Hq; destruct (HQ Hq) as (A & B & E & ->); pose proof (inv_chain _ _ Hi) as Hc; rewrite E in *; pose proof (top_app A B Hc); lia.
Qed.
Lemma walked_keeps target X low o : open X -> walked target X low o -> keeps low o /\ no_exception o.
Proof.
  intros HX. destruct o as [[] s'|s'| | |]; try done. intros (X1 & X2 & -> & ? & _). apply Forall_app in HX as [_ ?]. split; [by exists X2|done].
Qed.

Lemma allocate_keeps must bytes a X low s :
  inv (X ++ low) s -> open X -> (quiet -> must = false /\ power_of_two (wrap a) = true) ->
  let o := (if must then allocate C base R h size_of else try_allocate C base R size_of) (wrap bytes) (wrap a) s in keeps low o /\ no_exception o.
Proof.
  intros Hi HX HQ. assert (keeps low (try_allocate C base R size_of (wrap bytes) (wrap a) s) /\ no_exception (try_allocate C base R size_of (wrap bytes) (wrap a) s)) as Hk.
  { destruct (power_of_two (wrap a)) eqn:Ha.
    - pose proof (allocate_impl_ok _ _ (wrap bytes) (wrap a) Hi (wrap_range _) (wrap_range _) Ha) as Hal. unfold try_allocate.
      destruct (place _ _ _) as [p|]; [destruct Hal as (s' & -> & Hi' & _)|rewrite Hal; split; [by exists X|done]].
      split; [|done]. exists (mk_frame (offset_ s) p (wrap bytes) Raw :: X). split; [by constructor|done].
    - unfold try_allocate, allocate_impl, bind. rewrite Ha. cbn. split; [|done]. intros Hq. by destruct (HQ Hq). }
  destruct must; cbn zeta; [|done]. unfold allocate, bind. destruct (try_allocate _ _ _ _ _ _ _) as [q s'|s'| | |]; try done.
  destruct q as [p|]; [by rewrite metl_assert_true|]. destruct h; [done|..]; (split; [|done]); cbn; intros Hq; by destruct (HQ Hq).
Qed.
Lemma emplace_keeps run room must t X low s :
  runs_ok run room -> inv (X ++ low) s -> open X -> C - top low <= room + 1 -> (quiet -> must = false) ->
  keeps low ((if must then emplace C base R h size_of align_of constructor else try_emplace C base R size_of align_of constructor) run t s).
Proof.
  intros Hrun Hi HX Hroom HQ. pose proof (try_emplace_ok run room X low s t Hrun Hi HX Hroom) as Hk. destruct must; [|done].
  unfold emplace, bind. destruct (try_emplace _ _ _ _ _ _ _ _ _) as [q s'|s'| | |]; try done.
  destruct q as [p|]; [by rewrite metl_assert_true|]. destruct h; [done|..]; cbn; intros Hq; by specialize (HQ Hq).
Qed.

Lemma exec_with_ok run room walk :
  runs_ok run room -> C + C * C + 1 <= Z.of_nat walk -> runs_ok (exec_with C base R h size_of align_of constructor destructor run walk) (room + 1).
Proof.
  intros Hrun Hw c. induction c as [| |must bytes a k IH|must t k IH|k IH|target c IH|c IH|body IHb k IH]; intros X low s Hi HX Hc Hroom HQ; cbn [exec_with].
  - split; [by exists X|done].
  - split; [by exists X|done].
  - destruct (allocate_keeps must bytes a X low s Hi HX ltac:(intros Hq; by destruct (HQ Hq) as (? & ? & _))) as [Hk Hn]. unfold bind.
    match type of Hk with keeps _ ?o => destruct o as [p s'|s'| | |] end; try done. destruct Hk as (X' & HX' & Hi'). cbn [no_throw].
    destruct (IH p X' low s' Hi' HX') as [? Hn']; [destruct Hc; [left; auto|by right]|done|intros Hq; by apply HQ|]. split; [done|]. intros Hnt. by apply Hn'.
  - pose proof (emplace_keeps run room must t X low s Hrun Hi HX Hroom ltac:(intros Hq; by apply HQ)) as Hk. unfold bind.
    match type of Hk with keeps _ ?o => destruct o as [p s'|s'| | |] end; try done. destruct Hk as (X' & HX' & Hi').
    destruct (IH p X' low s' Hi' HX') as [? _]; [destruct Hc; [left; auto|by right]|done|intros Hq; by apply HQ|]. done.
  - unfold mark. mstep. destruct (IH (offset_ s) X low s Hi HX) as [? Hn]; [destruct Hc; [left; auto|by right]|done|intros Hq; by apply HQ|].
    split; [done|]. intros Hnt. by apply Hn.
  - destruct Hc as [[]|Hlow]. pose proof (rewind_ok run room walk (wrap target) X low s Hrun Hi HX Hlow (proj1 (wrap_range _)) Hroom Hw ltac:(intros Hq; by destruct (HQ Hq))) as Hk.
    apply walked_keeps in Hk as [Hk Hn]; [|done]. unfold bind. destruct (rewind _ _ _ _ _ _ _ _ _) as [[] s'|s'| | |]; try done. destruct Hk as (X' & HX' & Hi').
    apply (IH X'); try done; [by right|intros Hq; by destruct (HQ Hq)].
  - destruct Hc as [[]|Hlow]. unfold reset. pose proof (rewind_ok run room walk 0 X low s Hrun Hi HX Hlow ltac:(lia) Hroom Hw) as Hk.
    specialize (Hk ltac:(intros _; exists (X ++ low), []; by rewrite app_nil_r)). apply walked_keeps in Hk as [Hk Hn]; [|done].
    unfold bind. destruct (rewind _ _ _ _ _ _ _ _ _) as [[] s'|s'| | |]; try done. destruct Hk as (X' & HX' & Hi'). apply (IH X'); try done; by right.
  - destruct (IHb X low s Hi HX) as [Hk _]; [destruct Hc as [[]|]; auto|done|intros Hq; by apply HQ|].
    destruct (exec_with _ _ _ _ _ _ _ _ _ _ body s) as [[] s'|s'| | |]; try done; destruct Hk as (X' & HX' & Hi').
    1: destruct (IH false X' low s' Hi' HX') as [? Hn']. 5: destruct (IH true X' low s' Hi' HX') as [? Hn'].
    all: try done; try (destruct Hc as [[]|]; auto); try (intros Hq; by apply HQ). all: split; [done|]; intros Hnt; by apply Hn'.
Qed.
Lemma arena_exec_ok fuel walk :
  C + C * C + 1 <= Z.of_nat walk -> runs_ok (exec C base R h size_of align_of constructor destructor fuel walk) (Z.of_nat fuel).
Proof.
  intros Hw. induction fuel as [|fuel IH]; cbn [exec].
  - apply (exec_with_ok _ (-1) walk); [|done]. intros c X low s Hi _ _ Hroom. pose proof (top_bounds _ (chain_app _ _ (inv_chain _ _ Hi))). lia.
  - replace (Z.of_nat (S fuel)) with (Z.of_nat fuel + 1) by lia. by apply exec_with_ok.
Qed.
End runs.
End stack.
