(* ===== verification/ArenaClaims.v ===== *)
(** * What an arena promises

    Client code of any kind in an arena, with constructors and destructors that use it
    themselves. *)

From Stdlib Require Import ZArith Lia.
From stdpp Require Import base numbers list option gmap tactics.
From S2P Require Import Prelude Monotonic Arena ArenaFacts.
Local Open Scope Z_scope.

Section states.
  Context `{SizeT} {K : Type} `{!EqDecision K} (C base R : Z) (size_of align_of : K -> Z) `{!CapacityOk C} (HR : 0 < R).
  Implicit Types (s : arena K) (st : list (frame K)).
  Abbreviation inv := (inv C base R size_of align_of).

Lemma arena_fresh_inv : inv [] Arena.fresh.
Proof.
  split; [done|done|by intros f ?%elem_of_nil| |by intros f t ?%elem_of_nil]. intros p t. split; [cbn; by rewrite lookup_empty|]. by intros (f & ?%elem_of_nil & _).
Qed.
(** The blocks with objects say which objects there are. *)
Lemma objects_eq st st' s s' :
  inv st s -> inv st' s' -> (forall f t, object_of f = Some t -> f ∈ st <-> f ∈ st') -> objects s = objects s'.
Proof.
  intros Hi Hi' Hst. apply map_eq. intros p. apply option_eq. intros t. rewrite (inv_objects _ _ _ _ _ _ _ Hi), (inv_objects _ _ _ _ _ _ _ Hi').
  split; intros (f & Hf & ? & Ht); exists f; split_and!; try done; by apply (Hst f t Ht).
Qed.

(** Every object lies below the offset, aligned, and no two overlap. *)
Definition well_placed s : Prop :=
  0 <= offset_ s <= C /\
  (forall p t, objects s !! p = Some t -> 0 <= p /\ p + size_of t + R <= offset_ s /\ (base + p) mod align_of t = 0) /\
  forall p t p' t', objects s !! p = Some t -> objects s !! p' = Some t' -> p = p' \/ p + size_of t <= p' \/ p' + size_of t' <= p.
Lemma inv_well_placed st s : inv st s -> well_placed s.
Proof.
  intros Hi. pose proof (inv_chain _ _ _ _ _ _ _ Hi) as Hc. split; [|split].
  - rewrite (inv_top _ _ _ _ _ _ _ Hi). by apply (top_bounds C R HR).
  - intros p t (f & Hf & <- & Ht)%(inv_objects _ _ _ _ _ _ _ Hi). destruct (below C R HR st f Hc Hf) as (? & ? & Hend).
    destruct (inv_fits _ _ _ _ _ _ _ Hi f t Hf Ht) as [<- ?]. rewrite (inv_top _ _ _ _ _ _ _ Hi). unfold f_end in Hend. lia.
  - intros p t p' t' Hp Hp'. destruct (object_lies _ _ _ _ _ _ _ _ _ Hi Hp) as (f & Hf & Ep & ->). destruct (object_lies _ _ _ _ _ _ _ _ _ Hi Hp') as (g & Hg & <- & ->).
    apply list_elem_of_split in Hf as (X & Y & ->). apply elem_of_around in Hg as [->|Hg]; [by left|right].
    destruct (below C R HR _ f Hc ltac:(apply elem_of_around; by left)) as (? & ? & _), (below C R HR _ g Hc ltac:(apply elem_of_around; by right)) as (? & ? & _).
    destruct (apart C R HR _ _ _ _ Hc Hg); unfold f_end in *; lia.
Qed.
(** A request is granted exactly if block and record fit, and changes no object. *)
Definition grants_exactly s : Prop :=
  forall bytes a, 0 <= bytes < 2 ^ size_bits -> 0 <= a < 2 ^ size_bits -> power_of_two a = true ->
    let p := offset_ s + pad (base + offset_ s) a in
    if (bytes =? 0) || (C <? p + bytes + R) then Arena.try_allocate C base R size_of bytes a s = Ret None s
    else exists s', Arena.try_allocate C base R size_of bytes a s = Ret (Some p) s' /\ offset_ s' = p + bytes + R /\ objects s' = objects s /\ (base + p) mod a = 0.
Lemma inv_grants_exactly st s : inv st s -> grants_exactly s.
Proof.
  intros Hi bytes a Hb Ha Hp. pose proof (allocate_impl_ok C base R size_of align_of HR st s bytes a Hi Hb Ha Hp) as Hk. unfold place in Hk. cbn zeta in *.
  destruct (_ || _); [done|]. destruct Hk as (s' & E & Hi' & _ & ? & _). exists s'. split_and!; [done| | |done].
  - by rewrite (inv_top _ _ _ _ _ _ _ Hi').
  - apply (objects_eq _ _ _ _ Hi' Hi). intros f t Ht. rewrite elem_of_cons. split; [intros [->|?]; done|auto].
Qed.
End states.

Section claims.
  Context `{SizeT} {K : Type} `{!EqDecision K} (C base R : Z) (h : hardening) (size_of align_of : K -> Z) (constructor destructor : K -> arena_code K) `{!CapacityOk C}.
  Context (HR : 0 < R) (Hsize : forall t, 1 <= size_of t < 2 ^ size_bits) (Halign : forall t, 0 <= align_of t < 2 ^ size_bits /\ power_of_two (align_of t) = true).
  Context (Hcalm : forall t, calm (constructor t)) (fuel walk : nat) (Hfuel : C <= Z.of_nat fuel) (Hwalk : C + C * C + 1 <= Z.of_nat walk).
  Abbreviation run := (Arena.exec C base R h size_of align_of constructor destructor fuel walk).

(** The code returned, or an exception left it. *)
Definition ends_in (o : outcome (arena K) unit) (s : arena K) : Prop := o = Ret tt s \/ o = Throw s.

Lemma run_keeps c st s : inv C base R size_of align_of st s -> open st ->
  match run c s with
  | Ret _ s' | Throw s' => exists st', open st' /\ inv C base R size_of align_of st' s'
  | Trap => True
  | Fault | Spin => False
  end.
Proof.
  intros Hi Hst. destruct (arena_exec_ok C base R h size_of align_of HR constructor destructor Hsize Halign Hcalm False ltac:(done) fuel walk Hwalk c st [] s) as [Hk _];
    [by rewrite app_nil_r|done|by right|cbn; lia|done|].
  destruct (run c s) as [[] s'|s'| | |]; try done; destruct Hk as (st' & ? & Hi'); rewrite app_nil_r in Hi'; by exists st'.
Qed.
Lemma run_keeps_all c st s s' : inv C base R size_of align_of st s -> open st -> calm c -> ends_in (run c s) s' ->
  exists X, open X /\ inv C base R size_of align_of (X ++ st) s'.
Proof.
  intros Hi Hst Hc He. pose proof (top_bounds C R HR st (inv_chain _ _ _ _ _ _ _ Hi)).
  destruct (arena_exec_ok C base R h size_of align_of HR constructor destructor Hsize Halign Hcalm False ltac:(done) fuel walk Hwalk c [] st s) as [Hk _];
    [done|by constructor|by left|lia|done|]. destruct He as [E|E]; by rewrite E in Hk.
Qed.

(** C11. Whatever client code does with an arena, and whatever its constructors allocate
    and its destructors do with the arena that they run in, rewinding it included:
    nothing is written outside the array or over a live object, no record is read where
    none lies, no object is destroyed twice, and every walk ends.  The code ends, or a
    check stops it; then every object is aligned, inside and apart from the others, and
    the arena grants exactly what fits. *)
Theorem arena_safe c :
  match run c Arena.fresh with
  | Ret _ s | Throw s => well_placed C base R size_of align_of s /\ grants_exactly C base R size_of s
  | Trap => True
  | Fault | Spin => False
  end.
Proof.
  pose proof (run_keeps c [] Arena.fresh (arena_fresh_inv C base R size_of align_of) ltac:(by constructor)) as Hk.
  destruct (run c Arena.fresh) as [[] s|s| | |]; try done; destruct Hk as (st & _ & Hi); (split;
    [by apply (inv_well_placed C base R size_of align_of HR st)|by apply (inv_grants_exactly C base R size_of align_of HR st)]).
Qed.

Section rewinding.
  Context (Hquiet : forall t, soft (constructor t) /\ soft (destructor t) /\ no_throw (destructor t)).

Lemma rewind_to X st s target :
  inv C base R size_of align_of (X ++ st) s -> open X -> open st -> target = top R st ->
  exists s', Arena.rewind C R h size_of destructor run walk target s = Ret tt s' /\ inv C base R size_of align_of st s'.
Proof.
  intros Hi HX Hst ->. pose proof (top_bounds C R HR st (chain_app _ _ _ _ (inv_chain _ _ _ _ _ _ _ Hi))) as Ht.
  assert (runs_ok C base R size_of align_of True run (Z.of_nat fuel)) as Hrun by (by apply arena_exec_ok).
  pose proof (rewind_ok C base R h size_of align_of HR constructor destructor True (fun _ => Hquiet) run (Z.of_nat fuel) walk (top R st) (X ++ st) [] s Hrun) as Hk.
  rewrite app_nil_r in Hk. specialize (Hk Hi (open_app _ _ HX Hst) I (proj1 Ht) ltac:(cbn; lia) Hwalk ltac:(intros _; by exists X, st)).
  destruct (Arena.rewind _ _ _ _ _ _ _ _ _) as [[] s'|s'| | |]; try done. exists s'. split; [done|].
  destruct Hk as (X1 & X2 & E & Hi' & Hlo & Hhi). rewrite app_nil_r in *. pose proof (inv_chain _ _ _ _ _ _ _ Hi) as Hc.
  assert (st = X2) as ->; [|done]. apply (same_top C R HR X st X1 X2 Hc E). pose proof (inv_chain _ _ _ _ _ _ _ Hi') as Hc2.
  assert (top R st <= top R X2) by (destruct Hlo as [->|?]; [cbn in E; rewrite <- E; by apply (top_app C R HR X st)|done]).
  destruct Hhi as [->|?]; [cbn [top] in *|]; lia.
Qed.

(** C12. A mark undoes what comes after it: when client code has run, a mark is taken, and
    more code allocates and builds objects, then [rewind] to the mark returns, with the
    offset and the objects that there were at the mark; [reset] returns with the arena
    empty and every object destroyed.  The destructors may allocate, build and reset in the
    arena as they run, as long as they do not demand what is not there, or throw. *)
Theorem arena_rewind_exact c1 c2 s1 s2 :
  ends_in (run c1 Arena.fresh) s1 -> calm c2 -> ends_in (run c2 s1) s2 ->
  (exists s3, Arena.rewind C R h size_of destructor run walk (offset_ s1) s2 = Ret tt s3 /\ offset_ s3 = offset_ s1 /\ objects s3 = objects s1) /\
  exists s4, Arena.reset C R h size_of destructor run walk s2 = Ret tt s4 /\ offset_ s4 = 0 /\ objects s4 = ∅.
Proof.
  intros E1 Hc E2. pose proof (run_keeps c1 [] Arena.fresh (arena_fresh_inv C base R size_of align_of) ltac:(by constructor)) as Hk.
  assert (exists st, open st /\ inv C base R size_of align_of st s1) as (st & Hst & Hi1) by (destruct E1 as [E|E]; by rewrite E in Hk). clear Hk.
  destruct (run_keeps_all c2 st s1 s2 Hi1 Hst Hc E2) as (X & HX & Hi2). split.
  - destruct (rewind_to X st s2 (offset_ s1) Hi2 HX Hst (inv_top _ _ _ _ _ _ _ Hi1)) as (s3 & E3 & Hi3). exists s3. split_and!; [done| |].
    + by rewrite (inv_top _ _ _ _ _ _ _ Hi3), (inv_top _ _ _ _ _ _ _ Hi1).
    + by apply (objects_eq _ _ _ _ _ _ _ _ _ Hi3 Hi1).
  - destruct (rewind_to (X ++ st) [] s2 0) as (s4 & E4 & Hi4); [by rewrite app_nil_r|by apply open_app|by constructor|done|]. exists s4. split_and!; [done| |].
    + by rewrite (inv_top _ _ _ _ _ _ _ Hi4).
    + by apply (objects_eq _ _ _ _ _ _ _ _ _ Hi4 (arena_fresh_inv C base R size_of align_of)).
Qed.
End rewinding.
End claims.

(** ** An arena of 128 bytes

    A [true] takes 4 bytes, allocates 5 more as it is built, and as it is destroyed builds
    a [false] and resets the arena. *)
Section example.
  #[local] Existing Instance size_t_32.

Definition sizes (t : bool) : Z := if t then 4 else 8.
Definition building (t : bool) : arena_code bool := if t then AAllocate false 5 1 (fun _ => AStop) else AStop.
Definition dying (t : bool) : arena_code bool := if t then ACatch (AEmplace false false (fun _ => AReset AStop)) (fun _ => AStop) else AStop.
Definition running : arena_code bool -> M (arena bool) unit :=
  Arena.exec 128 4096 12 HARDENING_FAST sizes sizes building dying 128 (Z.to_nat 16513).
Definition two_more : arena_code bool := AEmplace true true (fun _ => AAllocate true 3 1 (fun _ => AEmplace false false (fun _ => AStop))).
Definition left_by (o : outcome (arena bool) unit) : arena bool := match o with Ret _ s | Throw s => s | _ => Arena.fresh end.

Lemma sizes_ok t : 1 <= sizes t < 2 ^ size_bits /\ (0 <= sizes t < 2 ^ size_bits /\ power_of_two (sizes t) = true).
Proof. by destruct t. Qed.
Lemma building_calm t : calm (building t).
Proof. by destruct t. Qed.
Lemma building_soft t : soft (building t) /\ soft (dying t) /\ no_throw (dying t).
Proof. by destruct t. Qed.

Lemma arena_safe_witness : (offset_ (left_by (running two_more Arena.fresh)), map_to_list (objects (left_by (running two_more Arena.fresh)))) = (68, [(48, false); (0, true)]) /\
  well_placed 128 4096 12 sizes sizes (left_by (running two_more Arena.fresh)).
Proof.
  split; [vm_compute; reflexivity|].
  assert (CapacityOk 128) as HC by (split; [lia|reflexivity]).
  pose proof (arena_safe 128 4096 12 HARDENING_FAST sizes sizes building dying ltac:(lia) (fun t => proj1 (sizes_ok t)) (fun t => proj2 (sizes_ok t)) building_calm
    128 (Z.to_nat 16513) ltac:(lia) ltac:(lia) two_more) as E.
  fold running in E. assert (running two_more Arena.fresh = Ret tt (left_by (running two_more Arena.fresh))) as E' by (vm_compute; reflexivity).
  rewrite E' in E. apply E.
Defined.
(** The mark is taken behind a first pair of objects. *)
Lemma arena_rewind_exact_witness :
  let s1 := left_by (running (AEmplace true true (fun _ => AStop)) Arena.fresh) in let s2 := left_by (running two_more s1) in
  size (objects s2) = 3%nat /\ exists s3, Arena.rewind 128 12 HARDENING_FAST sizes dying running (Z.to_nat 16513) (offset_ s1) s2 = Ret tt s3 /\ objects s3 = objects s1.
Proof.
  intros s1 s2. split; [vm_compute; reflexivity|]. assert (CapacityOk 128) as HC by (split; [lia|reflexivity]).
  destruct (arena_rewind_exact 128 4096 12 HARDENING_FAST sizes sizes building dying ltac:(lia) (fun t => proj1 (sizes_ok t)) (fun t => proj2 (sizes_ok t)) building_calm
    128 (Z.to_nat 16513) ltac:(lia) ltac:(lia) building_soft (AEmplace true true (fun _ => AStop)) two_more s1 s2) as [(s3 & E & _ & Eo) _].
  - left. vm_compute. reflexivity.
  - done.
  - left. vm_compute. reflexivity.
  - exists s3. split; [exact E|exact Eo].
Defined.
End example.
