(* ===== verification/Bits.v ===== *)
(** * [bit] and [bitset]

    [include/metl/bit.hpp], with its three ways to count (the builtins of GCC and
    Clang, the bit scans of MSVC, and the portable loops), and
    [include/metl/detail/bitset.hpp], the packed bits behind [metl::bitset].
    An unsigned integer of [w] bits is a [Z]; a loop runs with [w] turns of
    fuel, one per bit.

    What the preprocessor decides and what the intrinsics compute is the class
    [Compiler]; the documented behaviour of the intrinsics is the class
    [Intrinsics] of [BitsFacts].  An [unsigned int] and MSVC's [unsigned long] have
    32 bits, as [bit.hpp] takes them to have, and an [unsigned long long] 64. *)

From Stdlib Require Import ZArith Lia.
From stdpp Require Import base numbers list option tactics.
From S2P Require Import Prelude.
Local Open Scope Z_scope.

Module Bit.

(** The builtins [bit.hpp] asks for by [METL_HAS_BUILTIN]. *)
Inductive builtin : Set := Popcount | Popcountll | Clz | Clzll | Ctz | Ctzll | Is_constant_evaluated.

(** A compiler, its target, and whether the call at hand is evaluated at compile
    time.  A bit scan stores an index through its first argument; the function here
    is that index. *)
Class Compiler : Set := {
  compiler_gcc : bool;                      (* METL_COMPILER_GCC *)
  compiler_msvc : bool;                     (* METL_COMPILER_MSVC *)
  compiler_msvc_version : Z;                (* METL_COMPILER_MSVC_VERSION *)
  has_builtin : builtin -> bool;            (* METL_HAS_BUILTIN(__builtin_...) *)
  machine_64 : bool;                        (* _M_X64, _M_ARM64 or _M_ARM64EC is defined *)
  builtin_is_constant_evaluated : bool;
  builtin_popcount : Z -> Z;
  builtin_popcountll : Z -> Z;
  builtin_clz : Z -> Z;
  builtin_clzll : Z -> Z;
  builtin_ctz : Z -> Z;
  builtin_ctzll : Z -> Z;
  BitScanReverse : Z -> Z;
  BitScanReverse64 : Z -> Z;
  BitScanForward : Z -> Z;
  BitScanForward64 : Z -> Z
}.

(** A compiler with none of them. *)
Definition portable : Compiler :=
  let none (_ : Z) := 0 in
  {| compiler_gcc := false; compiler_msvc := false; compiler_msvc_version := 0; has_builtin _ := false;
     machine_64 := false; builtin_is_constant_evaluated := false;
     builtin_popcount := none; builtin_popcountll := none; builtin_clz := none; builtin_clzll := none;
     builtin_ctz := none; builtin_ctzll := none; BitScanReverse := none; BitScanReverse64 := none;
     BitScanForward := none; BitScanForward64 := none |}.

(** The conversions to the operand types of the intrinsics. *)
Definition to_unsigned_int (z : Z) : Z := z mod 2 ^ 32.
Definition to_unsigned_long (z : Z) : Z := z mod 2 ^ 32.
Definition to_unsigned_long_long (z : Z) : Z := z mod 2 ^ 64.

Section bit.
  Context `{Cc : Compiler} (w : Z).

(** The conditions of the [#if]s. *)
Definition use_popcount : bool := compiler_gcc || (has_builtin Popcount && has_builtin Popcountll).
Definition use_clz : bool := compiler_gcc || (has_builtin Clz && has_builtin Clzll).
Definition use_ctz : bool := compiler_gcc || (has_builtin Ctz && has_builtin Ctzll).

Definition bit_is_constant_evaluated : bool :=
  if has_builtin Is_constant_evaluated || (1925 <=? compiler_msvc_version)
  then builtin_is_constant_evaluated else true.

(** [while (value != 0) { count += value & 1; value >>= 1; }] *)
Fixpoint popcount_loop (fuel : nat) (value count : Z) : option Z :=
  if value =? 0 then Some count
  else match fuel with
  | O => None
  | S fuel' => popcount_loop fuel' (Z.shiftr value 1) (count + Z.land value 1)
  end.
Definition popcount_impl (value : Z) : option Z := popcount_loop (Z.to_nat w) value 0.

Fixpoint countl_zero_loop (fuel : nat) (value mask count : Z) : option Z :=
  if Z.land value mask =? 0 then
    match fuel with
    | O => None
    | S fuel' => countl_zero_loop fuel' value (Z.shiftr mask 1) (count + 1)
    end
  else Some count.
Definition countl_zero_impl (value : Z) : option Z :=
  countl_zero_loop (Z.to_nat w) value (Z.shiftl 1 (w - 1)) 0.

Fixpoint countr_zero_loop (fuel : nat) (value count : Z) : option Z :=
  if Z.land value 1 =? 0 then
    match fuel with
    | O => None
    | S fuel' => countr_zero_loop fuel' (Z.shiftr value 1) (count + 1)
    end
  else Some count.
Definition countr_zero_impl (value : Z) : option Z := countr_zero_loop (Z.to_nat w) value 0.

Definition popcount (value : Z) : option Z :=
  if use_popcount then
    Some (if w <=? 32 then builtin_popcount (to_unsigned_int value)
          else builtin_popcountll (to_unsigned_long_long value))
  else popcount_impl value.

(** [value - 1] wraps at the width. *)
Definition has_single_bit (value : Z) : bool :=
  negb (value =? 0) && (Z.land value ((value - 1) mod 2 ^ w) =? 0).

(** On MSVC a call at compile time, and a 64-bit operand on a 32-bit target, go
    on to the loop. *)
Definition countl_zero (value : Z) : option Z :=
  if value =? 0 then Some w
  else if use_clz then
    if w <=? 32 then Some (builtin_clz (to_unsigned_int value) - (32 - w))
    else Some (builtin_clzll (to_unsigned_long_long value) - (64 - w))
  else if compiler_msvc && negb bit_is_constant_evaluated then
    if w <=? 32 then Some ((w - 1) - BitScanReverse (to_unsigned_long value))
    else if machine_64 then Some ((w - 1) - BitScanReverse64 (to_unsigned_long_long value))
    else countl_zero_impl value
  else countl_zero_impl value.

Definition countr_zero (value : Z) : option Z :=
  if value =? 0 then Some w
  else if use_ctz then
    if w <=? 32 then Some (builtin_ctz (to_unsigned_int value))
    else Some (builtin_ctzll (to_unsigned_long_long value))
  else if compiler_msvc && negb bit_is_constant_evaluated then
    if w <=? 32 then Some (BitScanForward (to_unsigned_long value))
    else if machine_64 then Some (BitScanForward64 (to_unsigned_long_long value))
    else countr_zero_impl value
  else countr_zero_impl value.

Definition bit_width (value : Z) : option Z :=
  if value =? 0 then Some 0
  else match countl_zero value with Some n => Some (w - n) | None => None end.

Definition bit_floor (value : Z) : option Z :=
  if value =? 0 then Some 0
  else match bit_width value with
  | Some width => Some (Z.shiftl 1 (width - 1) mod 2 ^ w)
  | None => None
  end.

Definition bit_ceil (value : Z) : option Z :=
  if value <=? 1 then Some 1
  else
    let previous := (value - 1) mod 2 ^ w in
    match bit_width previous with
    | Some width => if w <=? width then Some 0 else Some (Z.shiftl 1 width mod 2 ^ w)
    | None => None
    end.
End bit.
End Bit.

(** ** The packed bits *)

Module Bitset.
Section bitset.
  Context `{SizeT, Cc : Bit.Compiler} (N : Z).
  Abbreviation words := (list Z).

Definition word_bits : Z := 32.
Definition word_count : Z := wrap (N + word_bits - 1) / word_bits.

(** [uint32_t] arithmetic. *)
Definition word (z : Z) : Z := z mod 2 ^ word_bits.
Definition word_not (z : Z) : Z := word (Z.lnot z).
Definition word_shl (z n : Z) : Z := word (Z.shiftl z n).

(** All clear. *)
Definition fresh : words := replicate (Z.to_nat word_count) 0.

Definition load (k : Z) : M words Z := fun ws =>
  if k <? 0 then Fault else match ws !! Z.to_nat k with Some v => Ret v ws | None => Fault end.
Definition store (k v : Z) : M words unit := fun ws =>
  if (0 <=? k) && (k <? Z.of_nat (length ws)) then Ret tt (<[Z.to_nat k := v]> ws) else Fault.

Definition bit (index : Z) : Z := word_shl 1 (index mod word_bits).

Definition last_word_mask : Z :=
  let tail := N mod word_bits in
  if tail =? 0 then word_not 0 else word (word_shl 1 tail - 1).

Definition test (index : Z) : M words bool :=
  metl_harden (index <? N) ;;;
  let! v := load (index / word_bits) in
  ret (negb (Z.land (Z.shiftr v (index mod word_bits)) 1 =? 0)).

Definition set (index : Z) : M words unit :=
  metl_harden (index <? N) ;;;
  let! v := load (index / word_bits) in
  store (index / word_bits) (Z.lor v (bit index)).

Definition reset (index : Z) : M words unit :=
  metl_harden (index <? N) ;;;
  let! v := load (index / word_bits) in
  store (index / word_bits) (Z.land v (word_not (bit index))).

Definition reset_all : M words unit := for_up (Z.to_nat word_count) 0 (fun k => store k 0).

(** A result of [bit.hpp], whose loops end. *)
Definition counted (r : option Z) : M words Z :=
  match r with Some n => ret n | None => fun _ => Spin end.

Fixpoint count_from (n : nat) (k total : Z) : M words Z :=
  match n with
  | O => ret total
  | S n' =>
      let! v := load k in
      let! c := counted (Bit.popcount word_bits v) in
      count_from n' (k + 1) (wrap (total + c))
  end.
Definition count : M words Z := count_from (Z.to_nat word_count) 0 0.

Fixpoint any_from (n : nat) (k : Z) : M words bool :=
  match n with
  | O => ret false
  | S n' => let! v := load k in if negb (v =? 0) then ret true else any_from n' (k + 1)
  end.
Definition any : M words bool := any_from (Z.to_nat word_count) 0.
Definition none : M words bool := let! b := any in ret (negb b).
Definition all : M words bool := let! c := count in ret (c =? N).

(** The index of the lowest bit of the word [v], number [k]. *)
Definition lowest (k v : Z) : M words Z :=
  let! c := counted (Bit.countr_zero word_bits v) in ret (wrap (wrap (k * word_bits) + c)).

Fixpoint find_set_from (n : nat) (k : Z) : M words Z :=
  match n with
  | O => ret N
  | S n' => let! v := load k in if negb (v =? 0) then lowest k v else find_set_from n' (k + 1)
  end.
Definition find_first_set : M words Z := find_set_from (Z.to_nat word_count) 0.

Definition find_next_set (from : Z) : M words Z :=
  if N <=? from then ret N
  else
    let k := from / word_bits in
    let! v := load k in
    let v' := Z.land v (word_shl (word_not 0) (from mod word_bits)) in
    if negb (v' =? 0) then lowest k v'
    else find_set_from (Z.to_nat (word_count - (k + 1))) (k + 1).

Fixpoint find_clear_from (n : nat) (k : Z) : M words Z :=
  match n with
  | O => ret N
  | S n' =>
      let! v := load k in
      if negb (word_not v =? 0) then lowest k (word_not v) else find_clear_from n' (k + 1)
  end.
Definition find_first_clear : M words Z := find_clear_from (Z.to_nat word_count) 0.

Definition shift_left (count : Z) : M words unit :=
  if N <=? count then reset_all
  else
    let nwords := count / word_bits in
    let nbits := count mod word_bits in
    for_down (Z.to_nat word_count) (word_count - 1) (fun k =>
      let! value :=
        (if nwords <=? k then
           let! v := load (k - nwords) in
           if negb (nbits =? 0) && (nwords <? k) then
             let! v' := load (k - nwords - 1) in
             ret (Z.lor (word_shl v nbits) (Z.shiftr v' (word_bits - nbits)))
           else ret (word_shl v nbits)
         else ret 0) in
      store k value) ;;;
    let! v := load (word_count - 1) in
    store (word_count - 1) (Z.land v last_word_mask).

Definition shift_right (count : Z) : M words unit :=
  if N <=? count then reset_all
  else
    let nwords := count / word_bits in
    let nbits := count mod word_bits in
    for_up (Z.to_nat word_count) 0 (fun k =>
      let! value :=
        (if k + nwords <? word_count then
           let! v := load (k + nwords) in
           if negb (nbits =? 0) && (k + nwords + 1 <? word_count) then
             let! v' := load (k + nwords + 1) in
             ret (Z.lor (Z.shiftr v nbits) (word_shl v' (word_bits - nbits)))
           else ret (Z.shiftr v nbits)
         else ret 0) in
      store k value).

Fixpoint equal_from (n : nat) (k : Z) : M (words * words) bool :=
  match n with
  | O => ret true
  | S n' =>
      let! a := on_fst (load k) in
      let! b := on_snd (load k) in
      if negb (a =? b) then ret false else equal_from n' (k + 1)
  end.
Definition equal : M (words * words) bool := equal_from (Z.to_nat word_count) 0.
Definition not_equal : M (words * words) bool := let! b := equal in ret (negb b).
End bitset.
End Bitset.
