(* ===== verification/BitsFacts.v ===== *)
(** * Facts on bits, words and bit arrays *)

From Stdlib Require Import ZArith Lia.
From stdpp Require Import base numbers list option tactics.
From S2P Require Import Prelude Bits.
Local Open Scope Z_scope.

(** ** One integer *)

(** How many of the [n] indices from [from] satisfy [f]. *)
Definition count_where (f : Z -> bool) (from n : Z) : Z := Z.of_nat (length (List.filter f (seqZ from n))).

(** [r] is the least index at or above [from] that satisfies [f]. *)
Definition least (f : Z -> bool) (from r : Z) : Prop :=
  from <= r /\ f r = true /\ forall i, from <= i < r -> f i = false.

Lemma count_where_split f from n m :
  0 <= n -> 0 <= m -> count_where f from (n + m) = count_where f from n + count_where f (from + n) m.
Proof. intros. unfold count_where. rewrite seqZ_app, List.filter_app, length_app by done. lia. Qed.

Lemma count_where_step f from : count_where f from 1 = Z.b2z (f from).
Proof. unfold count_where. rewrite seqZ_cons by lia. cbn. by destruct (f from). Qed.

Lemma count_where_ext f g from n :
  (forall i, from <= i < from + n -> f i = g i) -> count_where f from n = count_where g from n.
Proof.
  intros Hfg. unfold count_where. do 2 f_equal. apply List.filter_ext_in. intros i Hi. apply Hfg.
  by apply list_elem_of_In, elem_of_seqZ in Hi.
Qed.

Lemma count_where_false f from n : (forall i, from <= i < from + n -> f i = false) -> count_where f from n = 0.
Proof.
  intros Hf. rewrite (count_where_ext f (fun _ => false)) by done. unfold count_where.
  by induction (seqZ from n).
Qed.

Lemma count_where_range f from n : 0 <= n -> 0 <= count_where f from n <= n.
Proof.
  intros. unfold count_where. pose proof (List.filter_length_le f (seqZ from n)) as Hl. rewrite length_seqZ in Hl. lia.
Qed.

Lemma count_where_full f from n :
  0 <= n -> count_where f from n = n <-> (forall i, from <= i < from + n -> f i = true).
Proof.
  intros Hn. unfold count_where. rewrite <- (Z2Nat.id n) at 2 by done. rewrite <- (length_seqZ from n), Nat2Z.inj_iff.
  split.
  - intros Hl i Hi. apply List.filter_length_forallb in Hl. rewrite List.forallb_forall in Hl.
    apply Hl. by apply list_elem_of_In, elem_of_seqZ.
  - intros Hf. rewrite List.forallb_filter_id; [done|]. apply List.forallb_forall. intros i Hi. apply Hf.
    by apply list_elem_of_In, elem_of_seqZ in Hi.
Qed.

Lemma land_one_testbit v : (Z.land v 1 =? 0) = negb (Z.testbit v 0).
Proof.
  change 1 with (Z.ones 1). rewrite Z.land_ones by lia. change (2 ^ 1) with 2. rewrite <- Z.bit0_mod.
  by destruct (Z.testbit v 0).
Qed.

Lemma shiftr_testbit v j i : 0 <= i -> 0 <= j -> Z.testbit (Z.shiftr v j) i = Z.testbit v (i + j).
Proof. intros. by apply Z.shiftr_spec. Qed.

Lemma testbit_above v n i : 0 <= v < 2 ^ n -> 0 <= n <= i -> Z.testbit v i = false.
Proof.
  intros Hv Hi. destruct (decide (v = 0)) as [->|]; [apply Z.bits_0|]. apply Z.bits_above_log2; [lia|].
  assert (Z.log2 v < n); [|lia]. apply Z.log2_lt_pow2; lia.
Qed.

Lemma bits_below v n : 0 <= n -> 0 <= v -> (forall i, n <= i -> Z.testbit v i = false) -> v < 2 ^ n.
Proof.
  intros Hn Hv Hb. destruct (decide (v = 0)) as [->|]; [apply Z.pow_pos_nonneg; lia|].
  apply Z.log2_lt_pow2; [lia|]. destruct (Z.lt_ge_cases (Z.log2 v) n) as [|Hge]; [done|].
  specialize (Hb _ Hge). rewrite Z.bit_log2 in Hb by lia. done.
Qed.

Lemma nonzero_has_bit v n :
  0 <= n -> 0 <= v < 2 ^ n -> v <> 0 -> exists i, 0 <= i < n /\ Z.testbit v i = true.
Proof.
  intros Hn Hv H0. exists (Z.log2 v). split; [|apply Z.bit_log2; lia].
  pose proof (Z.log2_nonneg v). split; [done|]. apply Z.log2_lt_pow2; lia.
Qed.

Lemma least_unique f from r r' : least f from r -> least f from r' -> r = r'.
Proof.
  intros (Hr & Hf & Hmin) (Hr' & Hf' & Hmin'). destruct (Z.lt_trichotomy r r') as [Hlt|[->|Hlt]]; [|done|].
  - rewrite Hmin' in Hf by lia. done.
  - rewrite Hmin in Hf' by lia. done.
Qed.

(** ** What the intrinsics compute *)

(** [r] is the highest set bit of [v] below [n]. *)
Definition greatest (v n r : Z) : Prop :=
  0 <= r < n /\ Z.testbit v r = true /\ forall i, r < i < n -> Z.testbit v i = false.

(** The documented behaviour of the intrinsics a compiler has.  GCC and Clang:
    the number of 1-bits of the operand; the number of leading 0-bits, from the most
    significant bit on, and of trailing 0-bits, from the least significant bit on,
    both undefined for 0.  MSVC: the position of the first set bit, from the most
    or from the least significant bit on, for an operand that is not 0. *)
Class Intrinsics `{Cc : Bit.Compiler} : Prop := {
  popcount_documented : Bit.use_popcount = true ->
    (forall v, 0 <= v < 2 ^ 32 -> Bit.builtin_popcount v = count_where (Z.testbit v) 0 32) /\
    (forall v, 0 <= v < 2 ^ 64 -> Bit.builtin_popcountll v = count_where (Z.testbit v) 0 64);
  clz_documented : Bit.use_clz = true ->
    (forall v, 0 < v < 2 ^ 32 -> least (fun i => Z.testbit v (31 - i)) 0 (Bit.builtin_clz v)) /\
    (forall v, 0 < v < 2 ^ 64 -> least (fun i => Z.testbit v (63 - i)) 0 (Bit.builtin_clzll v));
  ctz_documented : Bit.use_ctz = true ->
    (forall v, 0 < v < 2 ^ 32 -> least (Z.testbit v) 0 (Bit.builtin_ctz v)) /\
    (forall v, 0 < v < 2 ^ 64 -> least (Z.testbit v) 0 (Bit.builtin_ctzll v));
  scan_reverse_documented : Bit.compiler_msvc = true ->
    (forall v, 0 < v < 2 ^ 32 -> greatest v 32 (Bit.BitScanReverse v)) /\
    (Bit.machine_64 = true -> forall v, 0 < v < 2 ^ 64 -> greatest v 64 (Bit.BitScanReverse64 v));
  scan_forward_documented : Bit.compiler_msvc = true ->
    (forall v, 0 < v < 2 ^ 32 -> least (Z.testbit v) 0 (Bit.BitScanForward v)) /\
    (Bit.machine_64 = true -> forall v, 0 < v < 2 ^ 64 -> least (Z.testbit v) 0 (Bit.BitScanForward64 v))
}.

#[export] Instance portable_intrinsics : Intrinsics (Cc := Bit.portable).
Proof. by split. Qed.

(** The widths a compiler's functions are right at: the 64 bits the templates
    allow, or any width for the loops. *)
Definition no_intrinsics `{Cc : Bit.Compiler} : Prop :=
  Bit.use_popcount = false /\ Bit.use_clz = false /\ Bit.use_ctz = false /\ Bit.compiler_msvc = false.
Definition width_ok `{Cc : Bit.Compiler} (w : Z) : Prop := 1 <= w /\ (w <= 64 \/ no_intrinsics).

Lemma width_ok_64 `{Cc : Bit.Compiler} w : 1 <= w <= 64 -> width_ok w.
Proof. intros Hw. split; [lia|left; lia]. Qed.
Lemma width_ok_32 `{Cc : Bit.Compiler} : width_ok 32.
Proof. by apply width_ok_64. Qed.
Lemma width_ok_portable w : 1 <= w -> width_ok (Cc := Bit.portable) w.
Proof. intros Hw. split; [done|by right]. Qed.

Lemma greatest_log2 v n r : 0 < v < 2 ^ n -> greatest v n r -> r = Z.log2 v.
Proof.
  intros Hv ([Hr Hn] & Hb & Hhigh). assert (Z.log2 v < n) by (apply Z.log2_lt_pow2; lia).
  destruct (Z.lt_trichotomy r (Z.log2 v)) as [Hlt|[->|Hlt]]; [|done|].
  - specialize (Hhigh (Z.log2 v) ltac:(lia)). by rewrite Z.bit_log2 in Hhigh by lia.
  - by rewrite Z.bits_above_log2 in Hb by lia.
Qed.

(** Leading zeros, counted from the top bit [n - 1]. *)
Lemma leading_log2 v n c : 0 < v < 2 ^ n -> least (fun i => Z.testbit v (n - 1 - i)) 0 c -> c = n - 1 - Z.log2 v.
Proof.
  intros Hv (Hc & Hb & Hlow). assert (Z.log2 v < n) by (apply Z.log2_lt_pow2; lia).
  assert (n - 1 - c = Z.log2 v); [|lia]. apply (greatest_log2 v n); [done|]. split; [|split; [done|]].
  - split; [|lia]. destruct (Z.lt_ge_cases (n - 1 - c) 0); [|done]. by rewrite Z.testbit_neg_r in Hb by done.
  - intros i Hi. rewrite <- (Hlow (n - 1 - i)) by lia. f_equal. lia.
Qed.

Lemma pow2_le v w n : 0 <= v < 2 ^ w -> 0 <= w <= n -> 0 <= v < 2 ^ n.
Proof. intros Hv Hn. pose proof (Z.pow_le_mono_r 2 w n ltac:(lia) ltac:(lia)). lia. Qed.

Lemma count_where_wider v w n :
  0 <= v < 2 ^ w -> 0 <= w <= n -> count_where (Z.testbit v) 0 n = count_where (Z.testbit v) 0 w.
Proof.
  intros Hv Hn. replace n with (w + (n - w)) by lia. rewrite count_where_split by lia.
  rewrite (count_where_false _ (0 + w)); [lia|]. intros i Hi. apply (testbit_above v w); lia.
Qed.

Section bit_facts.
  Context `{Cc : Bit.Compiler} (w : Z) (Hw : 1 <= w).
  Implicit Types v j n : Z.

Lemma popcount_loop_spec v (fuel : nat) j :
  0 <= v -> 0 <= j -> (forall i, j + Z.of_nat fuel <= i -> Z.testbit v i = false) ->
  Bit.popcount_loop fuel (Z.shiftr v j) (count_where (Z.testbit v) 0 j) =
    Some (count_where (Z.testbit v) 0 (j + Z.of_nat fuel)).
Proof.
  intros Hv. revert j. induction fuel as [|fuel IH]; intros j Hj Hb; cbn [Bit.popcount_loop];
    destruct (Z.eqb_spec (Z.shiftr v j) 0) as [E|E].
  - by rewrite Z.add_0_r.
  - destruct E. apply Z.bits_inj'. intros i Hi. rewrite shiftr_testbit, Z.bits_0 by done. apply Hb. lia.
  - rewrite count_where_split by lia. rewrite (count_where_false _ (0 + j)); [by rewrite Z.add_0_r|].
    intros i Hi. replace i with (i - j + j) by lia. rewrite <- shiftr_testbit, E by lia. apply Z.bits_0.
  - rewrite Z.shiftr_shiftr by lia. assert (Z.land (Z.shiftr v j) 1 = Z.b2z (Z.testbit v j)) as ->.
    { change 1 with (Z.ones 1). rewrite Z.land_ones by lia. change (2 ^ 1) with 2.
      rewrite <- Z.bit0_mod, shiftr_testbit by lia. done. }
    rewrite <- (count_where_step (Z.testbit v) j). rewrite <- (Z.add_0_l j) at 3.
    rewrite <- count_where_split, IH by (try lia; intros i Hi; apply Hb; lia). do 2 f_equal. lia.
Qed.

Lemma popcount_impl_spec v : 0 <= v < 2 ^ w -> Bit.popcount_impl w v = Some (count_where (Z.testbit v) 0 w).
Proof.
  intros Hv. unfold Bit.popcount_impl.
  pose proof (popcount_loop_spec v (Z.to_nat w) 0 ltac:(lia) ltac:(lia)) as E. rewrite Z.shiftr_0_r in E. cbn in E.
  rewrite Z2Nat.id in E by lia. apply E. intros i Hi. apply (testbit_above v w); lia.
Qed.

Lemma countr_zero_loop_spec v (fuel : nat) j :
  0 <= j -> (forall i, 0 <= i < j -> Z.testbit v i = false) ->
  (exists i, j <= i <= j + Z.of_nat fuel /\ Z.testbit v i = true) ->
  exists r, Bit.countr_zero_loop fuel (Z.shiftr v j) j = Some r /\ least (Z.testbit v) 0 r.
Proof.
  revert j. induction fuel as [|fuel IH]; intros j Hj Hlow (i & Hi & Hb); cbn [Bit.countr_zero_loop];
    rewrite land_one_testbit, shiftr_testbit, Z.add_0_l by lia; destruct (Z.testbit v j) eqn:E; cbn [negb].
  1, 3: exists j; split_and!; done.
  - replace j with i in E by lia. congruence.
  - rewrite Z.shiftr_shiftr by lia. apply IH; [lia| |].
    + intros i' Hi'. destruct (decide (i' = j)) as [->|]; [done|apply Hlow; lia].
    + exists i. split; [|done]. destruct (decide (i = j)) as [->|]; [congruence|lia].
Qed.

Lemma countr_zero_impl_spec v :
  0 <= v < 2 ^ w -> v <> 0 -> exists r, Bit.countr_zero_impl w v = Some r /\ least (Z.testbit v) 0 r.
Proof.
  intros Hv H0. unfold Bit.countr_zero_impl.
  destruct (nonzero_has_bit v w ltac:(lia) Hv H0) as (i & Hi & Hb).
  destruct (countr_zero_loop_spec v (Z.to_nat w) 0 ltac:(lia)) as (r & E & Hr); [lia|by exists i; split; [lia|]|].
  rewrite Z.shiftr_0_r in E. by exists r.
Qed.

Lemma countl_zero_loop_spec v (fuel : nat) j :
  0 < v < 2 ^ w -> 0 <= j -> j <= w - 1 - Z.log2 v <= j + Z.of_nat fuel ->
  Bit.countl_zero_loop fuel v (2 ^ (w - 1 - j)) j = Some (w - 1 - Z.log2 v).
Proof.
  intros Hv. revert j. pose proof (Z.log2_nonneg v) as Hl.
  induction fuel as [|fuel IH]; intros j Hj Hr; cbn [Bit.countl_zero_loop]; rewrite land_pow2_testbit by lia.
  - replace j with (w - 1 - Z.log2 v) at 1 by lia. replace (w - 1 - (w - 1 - Z.log2 v)) with (Z.log2 v) by lia.
    rewrite Z.bit_log2 by lia. cbn. f_equal. lia.
  - destruct (decide (j = w - 1 - Z.log2 v)) as [->|Hne].
    + replace (w - 1 - (w - 1 - Z.log2 v)) with (Z.log2 v) by lia. by rewrite Z.bit_log2 by lia.
    + rewrite Z.bits_above_log2 by lia. cbn [negb]. rewrite Z.shiftr_div_pow2 by lia.
      replace (w - 1 - j) with (Z.succ (w - 1 - (j + 1))) by lia. rewrite Z.pow_succ_r by lia.
      rewrite (Z.mul_comm 2), Z.div_mul by lia. apply IH; lia.
Qed.

Lemma countl_zero_impl_spec v : 0 < v < 2 ^ w -> Bit.countl_zero_impl w v = Some (w - 1 - Z.log2 v).
Proof.
  intros Hv. unfold Bit.countl_zero_impl. rewrite Z.shiftl_1_l.
  assert (Z.log2 v < w) by (apply Z.log2_lt_pow2; lia). pose proof (Z.log2_nonneg v).
  replace (w - 1) with (w - 1 - 0) at 1 by lia. apply countl_zero_loop_spec; lia.
Qed.
End bit_facts.

(** ** The functions of [bit.hpp], whichever way the compiler takes *)

Section bit_functions.
  Context `{Cc : Bit.Compiler, HI : !Intrinsics} (w : Z) (Hw : width_ok w).
  Implicit Types v j n : Z.

Lemma width_pos : 1 <= w.
Proof. apply Hw. Qed.

(** Where an intrinsic is used, the operand fits the type it is converted to. *)
Lemma width_narrow : no_intrinsics \/ w <= 64.
Proof. destruct Hw as [_ [|]]; auto. Qed.

Lemma to_unsigned_small v : 0 <= v < 2 ^ w ->
  (w <= 32 -> Bit.to_unsigned_int v = v /\ Bit.to_unsigned_long v = v /\ 0 <= v < 2 ^ 32) /\
  (w <= 64 -> Bit.to_unsigned_long_long v = v /\ 0 <= v < 2 ^ 64).
Proof.
  intros Hv. pose proof width_pos. unfold Bit.to_unsigned_int, Bit.to_unsigned_long, Bit.to_unsigned_long_long.
  split; intros Hn; pose proof (pow2_le v w _ Hv ltac:(split; [lia|exact Hn])); by rewrite Z.mod_small.
Qed.

Lemma popcount_spec v : 0 <= v < 2 ^ w -> Bit.popcount w v = Some (count_where (Z.testbit v) 0 w).
Proof.
  intros Hv. pose proof width_pos. unfold Bit.popcount. destruct Bit.use_popcount eqn:Eu; [|by apply popcount_impl_spec].
  destruct width_narrow as [(? & _)|Hn]; [congruence|]. destruct (popcount_documented Eu) as [Hp Hpll].
  destruct (to_unsigned_small v Hv) as [H32 H64]. destruct (Z.leb_spec w 32) as [Hle|Hgt].
  - destruct (H32 Hle) as (-> & _ & Hr). rewrite Hp by done. f_equal. apply count_where_wider; [done|lia].
  - destruct (H64 Hn) as (-> & Hr). rewrite Hpll by done. f_equal. apply count_where_wider; [done|lia].
Qed.

Lemma countl_zero_spec v : 0 < v < 2 ^ w -> Bit.countl_zero w v = Some (w - 1 - Z.log2 v).
Proof.
  intros Hv. pose proof width_pos. pose proof (countl_zero_impl_spec w width_pos v Hv) as Eloop.
  destruct (to_unsigned_small v ltac:(lia)) as [H32 H64]. unfold Bit.countl_zero. zbool.
  destruct Bit.use_clz eqn:Eu; [|destruct Bit.compiler_msvc eqn:Em; [|done]].
  - destruct width_narrow as [(? & ? & _)|Hn]; [congruence|]. destruct (clz_documented Eu) as [Hc Hcll].
    destruct (Z.leb_spec w 32) as [Hle|Hgt].
    + destruct (H32 Hle) as (-> & _ & Hr). rewrite (leading_log2 v 32 _ ltac:(lia) (Hc v ltac:(lia))). f_equal. lia.
    + destruct (H64 Hn) as (-> & Hr). rewrite (leading_log2 v 64 _ ltac:(lia) (Hcll v ltac:(lia))). f_equal. lia.
  - destruct width_narrow as [(? & ? & ? & ?)|Hn]; [congruence|]. destruct (scan_reverse_documented Em) as [Hs Hs64].
    destruct Bit.bit_is_constant_evaluated; [done|]. cbn [andb negb]. destruct (Z.leb_spec w 32) as [Hle|Hgt].
    + destruct (H32 Hle) as (_ & -> & Hr). by rewrite (greatest_log2 v 32 _ ltac:(lia) (Hs v ltac:(lia))).
    + destruct Bit.machine_64; [|done]. destruct (H64 Hn) as (-> & Hr).
      by rewrite (greatest_log2 v 64 _ ltac:(lia) (Hs64 eq_refl v ltac:(lia))).
Qed.

Lemma countr_zero_spec v :
  0 <= v < 2 ^ w -> v <> 0 -> exists r, Bit.countr_zero w v = Some r /\ r < w /\ least (Z.testbit v) 0 r.
Proof.
  intros Hv H0. pose proof width_pos.
  assert (exists r, Bit.countr_zero w v = Some r /\ least (Z.testbit v) 0 r) as (r & E & Hr).
  { pose proof (countr_zero_impl_spec w width_pos v Hv H0) as Eloop.
    destruct (to_unsigned_small v ltac:(lia)) as [H32 H64]. unfold Bit.countr_zero. zbool.
    destruct Bit.use_ctz eqn:Eu; [|destruct Bit.compiler_msvc eqn:Em; [|done]].
    - destruct width_narrow as [(? & ? & ? & _)|Hn]; [congruence|]. destruct (ctz_documented Eu) as [Hc Hcll].
      destruct (Z.leb_spec w 32) as [Hle|Hgt].
      + destruct (H32 Hle) as (-> & _ & Hr). eexists. split; [done|apply Hc; lia].
      + destruct (H64 Hn) as (-> & Hr). eexists. split; [done|apply Hcll; lia].
    - destruct width_narrow as [(? & ? & ? & ?)|Hn]; [congruence|]. destruct (scan_forward_documented Em) as [Hs Hs64].
      destruct Bit.bit_is_constant_evaluated; [done|]. cbn [andb negb]. destruct (Z.leb_spec w 32) as [Hle|Hgt].
      + destruct (H32 Hle) as (_ & -> & Hr). eexists. split; [done|apply Hs; lia].
      + destruct Bit.machine_64; [|done]. destruct (H64 Hn) as (-> & Hr). eexists. split; [done|apply Hs64; [done|lia]]. }
  exists r. split; [done|]. split; [|done]. destruct (Z.lt_ge_cases r w) as [|Hge]; [done|]. destruct Hr as (_ & Ht & _).
  by rewrite (testbit_above v w) in Ht by lia.
Qed.

Lemma bit_width_spec v : 0 < v < 2 ^ w -> Bit.bit_width w v = Some (Z.log2 v + 1).
Proof. intros Hv. pose proof width_pos. unfold Bit.bit_width. zbool. rewrite countl_zero_spec by done. f_equal. lia. Qed.

Lemma bit_floor_spec v : 0 < v < 2 ^ w -> Bit.bit_floor w v = Some (2 ^ Z.log2 v).
Proof.
  intros Hv. pose proof width_pos. unfold Bit.bit_floor. zbool. rewrite bit_width_spec by done. rewrite Z.shiftl_1_l. f_equal.
  replace (Z.log2 v + 1 - 1) with (Z.log2 v) by lia. apply Z.mod_small. destruct (Z.log2_spec v ltac:(lia)).
  split; [apply Z.pow_nonneg; lia|lia].
Qed.

Lemma bit_ceil_spec v :
  0 <= v < 2 ^ w ->
  Bit.bit_ceil w v = Some (if Z.log2_up v <? w then 2 ^ Z.log2_up v else 0).
Proof.
  intros Hv. pose proof width_pos. unfold Bit.bit_ceil. destruct (Z.leb_spec v 1) as [H1|H1].
  - rewrite Z.log2_up_eqn0 by done. by zbool.
  - cbv zeta. rewrite Z.mod_small, bit_width_spec, (Z.log2_up_eqn v) by lia. unfold Z.pred, Z.succ.
    replace (v + -1) with (v - 1) by lia. rewrite Z.leb_antisym. destruct (Z.ltb_spec (Z.log2 (v - 1) + 1) w); cbn; [|done].
    rewrite Z.shiftl_1_l, Z.mod_small; [done|]. split; [apply Z.pow_nonneg; lia|apply Z.pow_lt_mono_r; lia].
Qed.

Lemma has_single_bit_spec v : 0 <= v < 2 ^ w -> Bit.has_single_bit w v = true <-> exists k, 0 <= k < w /\ v = 2 ^ k.
Proof.
  intros Hv. pose proof width_pos. unfold Bit.has_single_bit. rewrite andb_true_iff, negb_true_iff, Z.eqb_neq, Z.eqb_eq. split.
  - intros [H0 Hl]. rewrite Z.mod_small in Hl by lia. destruct (land_pred_pow2 v ltac:(lia) Hl) as (k & Hk & ->).
    exists k. split; [|done]. split; [done|]. apply (Z.pow_lt_mono_r_iff 2); lia.
  - intros (k & Hk & ->). pose proof (Z.pow_pos_nonneg 2 k ltac:(lia) ltac:(lia)). split; [lia|].
    rewrite Z.mod_small by lia. rewrite Z.sub_1_r, <- Z.ones_equiv, Z.land_ones, Z.mod_same by lia. done.
Qed.
End bit_functions.

(** The hash tables, whose model is fixed to the loops, would be the same with any
    other compiler. *)
Lemma bit_ceil_portable `{Cc : Bit.Compiler, HI : !Intrinsics} w v :
  1 <= w <= 64 -> 0 <= v < 2 ^ w -> Bit.bit_ceil w v = Bit.bit_ceil (Cc := Bit.portable) w v.
Proof.
  intros Hw Hv. rewrite (bit_ceil_spec w (width_ok_64 w Hw) v Hv).
  by rewrite (bit_ceil_spec (Cc := Bit.portable) w (width_ok_64 w Hw) v Hv).
Qed.

Lemma countr_zero_portable `{Cc : Bit.Compiler, HI : !Intrinsics} w v :
  1 <= w <= 64 -> 0 <= v < 2 ^ w -> Bit.countr_zero w v = Bit.countr_zero (Cc := Bit.portable) w v.
Proof.
  intros Hw Hv. destruct (decide (v = 0)) as [->|H0]; [done|].
  destruct (countr_zero_spec w (width_ok_64 w Hw) v Hv H0) as (r & -> & _ & Hr).
  destruct (countr_zero_spec (Cc := Bit.portable) w (width_ok_64 w Hw) v Hv H0) as (r' & -> & _ & Hr').
  f_equal. by apply (least_unique (Z.testbit v) 0).
Qed.

(** ** The packed bits *)

Section bitset_facts.
  Context `{SizeT, Cc : Bit.Compiler, HI : !Intrinsics} (N : Z) (HN : 1 <= N) (HM : N + 31 < 2 ^ size_bits).
  Implicit Types (ws : list Z) (f g : Z -> bool) (i j k v c : Z).
  Abbreviation wc := (Bitset.word_count N).

(** The bits below [N] of [f]. *)
Definition inside f i : bool := (0 <=? i) && (i <? N) && f i.

(** [v] is the word number [k] of the bits [g]. *)
Definition word_ok g k v : Prop :=
  0 <= v < 2 ^ 32 /\ forall j, 0 <= j < 32 -> Z.testbit v j = g (32 * k + j).

(** [ws] are the words of the bits [g]. *)
Definition words_of g ws : Prop :=
  length ws = Z.to_nat wc /\ forall (n : nat) v, ws !! n = Some v -> word_ok g (Z.of_nat n) v.

(** The bitset [ws] has the bits [f]: those past the end are clear. *)
Definition holds ws f : Prop := words_of (inside f) ws.

Lemma word_count_bounds : 1 <= wc /\ 32 * (wc - 1) < N <= 32 * wc.
Proof.
  unfold Bitset.word_count, Bitset.word_bits. rewrite wrap_small by lia.
  replace (N + 32 - 1) with (N + 31) by lia. pose proof (Z.div_mod (N + 31) 32 ltac:(lia)).
  pose proof (Z.mod_pos_bound (N + 31) 32 ltac:(lia)). lia.
Qed.

Lemma inside_in f i : 0 <= i < N -> inside f i = f i.
Proof. intros. unfold inside. zbool. done. Qed.

Lemma inside_out f i : i < 0 \/ N <= i -> inside f i = false.
Proof.
  intros. unfold inside. destruct (Z.leb_spec 0 i), (Z.ltb_spec i N); (done || lia).
Qed.

Lemma words_of_ext g g' ws : (forall i, 0 <= i < 32 * wc -> g i = g' i) -> words_of g ws -> words_of g' ws.
Proof.
  intros Hg [Hl Hw]. split; [done|]. intros n v Hv. destruct (Hw n v Hv) as [Hr Hb]. split; [done|].
  intros j Hj. rewrite <- Hg; [by apply Hb|]. apply lookup_lt_Some in Hv. lia.
Qed.

Lemma word_at g ws k : words_of g ws -> 0 <= k < wc -> exists v, ws !! Z.to_nat k = Some v /\ word_ok g k v.
Proof.
  intros [Hl Hw] Hk. destruct (lookup_lt_is_Some_2 ws (Z.to_nat k)) as [v Hv]; [lia|].
  exists v. split; [done|]. specialize (Hw _ _ Hv). by rewrite Z2Nat.id in Hw by lia.
Qed.

Lemma load_at ws k v : 0 <= k -> ws !! Z.to_nat k = Some v -> Bitset.load k ws = Ret v ws.
Proof. intros Hk Hv. unfold Bitset.load. zbool. by rewrite Hv. Qed.

Lemma store_at ws k v : 0 <= k < Z.of_nat (length ws) -> Bitset.store k v ws = Ret tt (<[Z.to_nat k := v]> ws).
Proof. intros. unfold Bitset.store. zbool. done. Qed.

Lemma load_word g ws k : words_of g ws -> 0 <= k < wc -> exists v, Bitset.load k ws = Ret v ws /\ word_ok g k v.
Proof.
  intros Hw Hk. destruct (word_at g ws k Hw Hk) as (v & Hv & Hok). exists v. split; [by apply load_at; [lia|]|done].
Qed.

(** One word is replaced. *)
Lemma words_of_insert g g' ws k v :
  words_of g ws -> 0 <= k < wc -> word_ok g' k v ->
  (forall i, 0 <= i < 32 * wc -> i / 32 <> k -> g' i = g i) -> words_of g' (<[Z.to_nat k := v]> ws).
Proof.
  intros [Hl Hw] Hk Hv Hg. split; [by rewrite length_insert|]. intros n x.
  rewrite list_lookup_insert_Some. intros [(<- & <- & _)|[Hne Hx]]; [by rewrite Z2Nat.id by lia|].
  destruct (Hw n x Hx) as [Hr Hb]. pose proof (lookup_lt_Some _ _ _ Hx). split; [done|]. intros j Hj. rewrite Hg; [by apply Hb|lia|].
  assert ((32 * Z.of_nat n + j) / 32 = Z.of_nat n) as ->; [|lia].
  rewrite Z.mul_comm, Z.add_comm, Z.div_add, Z.div_small by lia. lia.
Qed.

Lemma testbit_word z j : 0 <= j -> Z.testbit (Bitset.word z) j = (j <? 32) && Z.testbit z j.
Proof.
  intros Hj. unfold Bitset.word, Bitset.word_bits. destruct (Z.ltb_spec j 32).
  - by rewrite Z.mod_pow2_bits_low.
  - by rewrite Z.mod_pow2_bits_high.
Qed.

Lemma word_range z : 0 <= Bitset.word z < 2 ^ 32.
Proof. apply Z.mod_pos_bound. done. Qed.

Lemma testbit_word_not z j : 0 <= j < 32 -> Z.testbit (Bitset.word_not z) j = negb (Z.testbit z j).
Proof. intros. unfold Bitset.word_not. rewrite testbit_word, Z.lnot_spec by lia. zbool. done. Qed.

Lemma testbit_word_shl z n j :
  0 <= n -> 0 <= j < 32 -> Z.testbit (Bitset.word_shl z n) j = (n <=? j) && Z.testbit z (j - n).
Proof.
  intros. unfold Bitset.word_shl. rewrite testbit_word, Z.shiftl_spec by lia. zbool. cbn [andb].
  destruct (Z.leb_spec n j); [done|]. by rewrite Z.testbit_neg_r by lia.
Qed.

(** A nonnegative number with no bit past the word is a word. *)
Lemma word_of_bits g k v :
  0 <= v -> (forall j, 32 <= j -> Z.testbit v j = false) ->
  (forall j, 0 <= j < 32 -> Z.testbit v j = g (32 * k + j)) -> word_ok g k v.
Proof. intros Hv Hh Hb. split; [|done]. split; [done|]. by apply (bits_below v 32). Qed.

Lemma word_ok_bit g k v j : word_ok g k v -> 0 <= j < 32 -> Z.testbit v j = g (32 * k + j).
Proof. intros [_ Hb]. apply Hb. Qed.

Lemma word_ok_high g k v j : word_ok g k v -> 32 <= j -> Z.testbit v j = false.
Proof. intros [Hr _] Hj. by apply (testbit_above v 32). Qed.

Lemma word_ok_zero g k : (forall j, 0 <= j < 32 -> g (32 * k + j) = false) -> word_ok g k 0.
Proof. intros Hg. split; [done|]. intros j Hj. by rewrite Z.bits_0, Hg. Qed.

Lemma word_ok_zero_inv g k : word_ok g k 0 -> forall j, 0 <= j < 32 -> g (32 * k + j) = false.
Proof. intros Hok j Hj. rewrite <- (word_ok_bit g k 0 j Hok Hj). apply Z.bits_0. Qed.

Lemma word_ok_unique g k v v' : word_ok g k v -> word_ok g k v' -> v = v'.
Proof.
  intros Hv Hv'. apply Z.bits_inj'. intros j Hj. destruct (Z.lt_ge_cases j 32).
  - by rewrite (word_ok_bit g k v), (word_ok_bit g k v').
  - by rewrite (word_ok_high g k v), (word_ok_high g k v').
Qed.

Lemma index_split i : 0 <= i -> i = 32 * (i / 32) + i mod 32 /\ 0 <= i mod 32 < 32 /\ 0 <= i / 32.
Proof.
  intros. pose proof (Z.div_mod i 32 ltac:(lia)). pose proof (Z.mod_pos_bound i 32 ltac:(lia)).
  pose proof (Z.div_pos i 32). lia.
Qed.

Lemma index_word i : 0 <= i < N -> 0 <= i / 32 < wc.
Proof. intros. pose proof word_count_bounds. destruct (index_split i) as (? & ? & ?); lia. Qed.

Lemma fresh_holds : holds (Bitset.fresh N) (fun _ => false).
Proof.
  unfold Bitset.fresh. split; [by rewrite length_replicate|]. intros n v [-> _]%lookup_replicate.
  apply word_ok_zero. intros j Hj. unfold inside. by rewrite andb_false_r.
Qed.

(** *** One bit *)

Lemma test_spec ws f i : holds ws f -> 0 <= i -> Bitset.test N i ws = if i <? N then Ret (f i) ws else Trap.
Proof.
  intros Hw Hi. unfold Bitset.test, Bitset.word_bits. destruct (Z.ltb_spec i N); [|done]. mstep.
  destruct (load_word _ ws (i / 32) Hw ltac:(by apply index_word)) as (v & E & Hok). rewrite (bind_Ret _ _ _ _ _ E).
  destruct (index_split i Hi) as (Ei & Hm & _). rewrite land_one_testbit, negb_involutive, shiftr_testbit, Z.add_0_l by lia.
  rewrite (word_ok_bit _ _ _ _ Hok Hm), <- Ei, inside_in by lia. done.
Qed.

Lemma testbit_bit i j : 0 <= j < 32 -> Z.testbit (Bitset.bit i) j = (j =? i mod 32).
Proof.
  intros Hj. unfold Bitset.bit, Bitset.word_bits. pose proof (Z.mod_pos_bound i 32 ltac:(lia)).
  rewrite testbit_word_shl by lia. destruct (Z.eqb_spec j (i mod 32)) as [->|Hne].
  - rewrite Z.sub_diag. by zbool.
  - destruct (Z.leb_spec (i mod 32) j); [|done]. cbn [andb]. rewrite <- (Z.pow_0_r 2). apply Z.pow2_bits_false. lia.
Qed.

Lemma bit_high i j : 32 <= j -> Z.testbit (Bitset.bit i) j = false.
Proof. intros. apply (testbit_above _ 32); [apply word_range|lia]. Qed.

Lemma same_bit i k j : 0 <= i -> k = i / 32 -> 0 <= j < 32 -> (32 * k + j =? i) = (j =? i mod 32).
Proof.
  intros Hi -> Hj. destruct (index_split i Hi) as (Ei & Hm & _).
  destruct (Z.eqb_spec j (i mod 32)); [apply Z.eqb_eq|apply Z.eqb_neq]; lia.
Qed.

(** The bit [i] becomes [b]. *)
Definition update f i (b : bool) : Z -> bool := fun j => if j =? i then b else f j.

Lemma update_inside f i b j : 0 <= i < N -> inside (update f i b) j = if j =? i then b else inside f j.
Proof.
  intros Hi. unfold inside, update. destruct (Z.eqb_spec j i) as [->|]; [|done]. by zbool.
Qed.

Lemma store_word ws f f' k v :
  holds ws f -> 0 <= k < wc -> word_ok (inside f') k v ->
  (forall i, 0 <= i < 32 * wc -> i / 32 <> k -> inside f' i = inside f i) ->
  exists ws', Bitset.store k v ws = Ret tt ws' /\ holds ws' f'.
Proof.
  intros Hw Hk Hv Hf. exists (<[Z.to_nat k := v]> ws). split; [apply store_at; destruct Hw as [-> _]; lia|].
  by apply (words_of_insert (inside f)).
Qed.

Lemma set_spec ws f i :
  holds ws f -> 0 <= i -> if i <? N then exists ws', Bitset.set N i ws = Ret tt ws' /\ holds ws' (update f i true)
                          else Bitset.set N i ws = Trap.
Proof.
  intros Hw Hi. unfold Bitset.set, Bitset.word_bits. destruct (Z.ltb_spec i N); [|done]. mstep.
  destruct (load_word _ ws (i / 32) Hw ltac:(by apply index_word)) as (v & E & Hok). rewrite (bind_Ret _ _ _ _ _ E).
  apply (store_word ws f); [done|by apply index_word| |].
  - apply word_of_bits.
    + apply Z.lor_nonneg. split; [apply Hok|apply word_range].
    + intros j Hj. by rewrite Z.lor_spec, (word_ok_high _ _ _ _ Hok Hj), bit_high.
    + intros j Hj. rewrite Z.lor_spec, testbit_bit, (word_ok_bit _ _ _ _ Hok Hj), update_inside, (same_bit i) by (done || lia).
      destruct (j =? i mod 32); [by rewrite orb_true_r|by rewrite orb_false_r].
  - intros j _ Hj. rewrite update_inside by lia. destruct (Z.eqb_spec j i) as [->|]; done.
Qed.

Lemma reset_spec ws f i :
  holds ws f -> 0 <= i -> if i <? N then exists ws', Bitset.reset N i ws = Ret tt ws' /\ holds ws' (update f i false)
                          else Bitset.reset N i ws = Trap.
Proof.
  intros Hw Hi. unfold Bitset.reset, Bitset.word_bits. destruct (Z.ltb_spec i N); [|done]. mstep.
  destruct (load_word _ ws (i / 32) Hw ltac:(by apply index_word)) as (v & E & Hok). rewrite (bind_Ret _ _ _ _ _ E).
  apply (store_word ws f); [done|by apply index_word| |].
  - apply word_of_bits.
    + apply Z.land_nonneg. left. apply Hok.
    + intros j Hj. by rewrite Z.land_spec, (word_ok_high _ _ _ _ Hok Hj).
    + intros j Hj. rewrite Z.land_spec, testbit_word_not, testbit_bit, (word_ok_bit _ _ _ _ Hok Hj), update_inside, (same_bit i)
        by (done || lia).
      destruct (j =? i mod 32); [by rewrite andb_false_r|by rewrite andb_true_r].
  - intros j _ Hj. rewrite update_inside by lia. destruct (Z.eqb_spec j i) as [->|]; done.
Qed.

(** *** Loops over the words *)

Lemma reset_all_spec ws f : holds ws f -> exists ws', Bitset.reset_all N ws = Ret tt ws' /\ holds ws' (fun _ => false).
Proof.
  intros Hw. pose proof word_count_bounds. unfold Bitset.reset_all.
  destruct (for_up_inv (fun k ws => words_of (fun i => (k * 32 <=? i) && inside f i) ws)
    (fun k => Bitset.store k 0) (Z.to_nat wc) 0 ws) as (ws' & E & Hw').
  - revert Hw. apply words_of_ext. intros i Hi. by zbool.
  - intros k s Hk Hs. exists (<[Z.to_nat k := 0]> s). split; [apply store_at; destruct Hs as [-> _]; lia|].
    apply (words_of_insert (fun i => (k * 32 <=? i) && inside f i)); [done|lia| |].
    + apply word_ok_zero. intros j Hj. by zbool.
    + intros i _ Hi. assert (0 <= i -> i / 32 = k <-> k * 32 <= i < (k + 1) * 32) as Hq
        by (intros Hi0; destruct (index_split i Hi0) as (? & ? & ?); lia).
      destruct (Z.leb_spec ((k + 1) * 32) i), (Z.leb_spec (k * 32) i); try done; lia.
  - exists ws'. split; [done|]. revert Hw'. apply words_of_ext. intros i Hi. zbool. unfold inside. by rewrite andb_false_r.
Qed.

Lemma words_below f k : 0 <= k -> k < wc -> 32 * k < N.
Proof. pose proof word_count_bounds. lia. Qed.

(** Counting a word's bits counts the bits it holds. *)
Lemma count_word f k v : 0 <= k -> word_ok (inside f) k v -> count_where (Z.testbit v) 0 32 = count_where (inside f) (32 * k) 32.
Proof.
  intros Hk Hok. unfold count_where. f_equal. rewrite <- (Z.add_0_r (32 * k)). rewrite <- fmap_add_seqZ.
  generalize (elem_of_seqZ 0 32). generalize (seqZ 0 32). intros l Hl.
  assert (forall x, x ∈ l -> 0 <= x < 32) as Hr by (intros x Hx; apply Hl in Hx; lia). clear Hl.
  induction l as [|x l IH]; [done|]. cbn. rewrite (word_ok_bit _ _ _ x Hok) by (apply Hr; by left).
  destruct (inside f (32 * k + x)); cbn; rewrite IH by (intros y Hy; apply Hr; by right); done.
Qed.

Lemma count_spec ws f : holds ws f -> Bitset.count N ws = Ret (count_where f 0 N) ws.
Proof.
  intros Hw. pose proof word_count_bounds as Hwc. unfold Bitset.count.
  assert (forall n k, Z.of_nat n = wc - k -> 0 <= k ->
    Bitset.count_from n k (count_where (inside f) 0 (32 * k)) ws = Ret (count_where (inside f) 0 (32 * wc)) ws) as Hloop.
  { induction n as [|n IH]; intros k Hn Hk; cbn [Bitset.count_from].
    - unfold ret. do 2 f_equal. lia.
    - destruct (load_word _ ws k Hw ltac:(lia)) as (v & E & Hok). rewrite (bind_Ret _ _ _ _ _ E).
      rewrite (popcount_spec Bitset.word_bits) by (apply width_ok_32 || apply Hok). cbn [Bitset.counted].
      rewrite (bind_Ret (ret _) _ ws _ _ eq_refl). unfold Bitset.word_bits. rewrite (count_word f k v Hk Hok).
      rewrite <- (Z.add_0_l (32 * k)) at 2. rewrite <- count_where_split by lia.
      pose proof (count_where_range (inside f) 0 (32 * k + 32) ltac:(lia)). rewrite wrap_small by lia.
      replace (32 * k + 32) with (32 * (k + 1)) by lia. apply IH; lia. }
  specialize (Hloop (Z.to_nat wc) 0 ltac:(lia) ltac:(lia)). change (count_where (inside f) 0 (32 * 0)) with 0 in Hloop.
  rewrite Hloop. f_equal. replace (32 * wc) with (N + (32 * wc - N)) by lia. rewrite count_where_split by lia.
  rewrite (count_where_false _ (0 + N)) by (intros i Hi; apply inside_out; lia). rewrite Z.add_0_r.
  apply count_where_ext. intros i Hi. apply inside_in. lia.
Qed.

Lemma word_nonzero f k v : word_ok (inside f) k v -> v <> 0 -> exists j, 0 <= j < 32 /\ inside f (32 * k + j) = true.
Proof.
  intros Hok H0. destruct (nonzero_has_bit v 32 ltac:(lia) ltac:(apply Hok) H0) as (j & Hj & Hb).
  exists j. split; [done|]. by rewrite <- (word_ok_bit _ _ _ _ Hok Hj).
Qed.

Lemma inside_true f i : inside f i = true -> 0 <= i < N /\ f i = true.
Proof. unfold inside. rewrite !andb_true_iff, Z.leb_le, Z.ltb_lt. tauto. Qed.

Lemma any_spec ws f :
  holds ws f -> exists b, Bitset.any N ws = Ret b ws /\ (b = true <-> exists i, 0 <= i < N /\ f i = true).
Proof.
  intros Hw. pose proof word_count_bounds as Hwc. unfold Bitset.any.
  assert (forall n k, Z.of_nat n = wc - k -> 0 <= k -> (forall i, 0 <= i < 32 * k -> inside f i = false) ->
    exists b, Bitset.any_from n k ws = Ret b ws /\ (b = true <-> exists i, 0 <= i < N /\ f i = true)) as Hloop.
  { induction n as [|n IH]; intros k Hn Hk Hlow; cbn [Bitset.any_from].
    - exists false. split; [done|]. split; [done|]. intros (i & Hi & Hf). rewrite <- (inside_in f) in Hf by done.
      rewrite Hlow in Hf by lia. done.
    - destruct (load_word _ ws k Hw ltac:(lia)) as (v & E & Hok). rewrite (bind_Ret _ _ _ _ _ E).
      destruct (Z.eqb_spec v 0) as [->|Hne]; cbn [negb].
      + apply IH; [lia|lia|]. intros i Hi. destruct (Z.lt_ge_cases i (32 * k)); [by apply Hlow; lia|].
        replace i with (32 * k + (i - 32 * k)) by lia. apply (word_ok_zero_inv _ _ Hok). lia.
      + exists true. split; [done|]. split; [|done]. intros _. destruct (word_nonzero f k v Hok Hne) as (j & Hj & Hb).
        apply inside_true in Hb as [Hi Hb]. eauto. }
  apply Hloop; [lia|lia|]. intros i Hi. lia.
Qed.

(** *** Searching *)

(** [r] is where a search for [f] from [from] ends. *)
Definition found f from r : Prop :=
  (r < N /\ least f from r) \/ (r = N /\ forall i, from <= i < N -> f i = false).

Lemma lowest_spec ws g k v :
  0 <= k < wc -> word_ok g k v -> v <> 0 ->
  exists r, Bitset.lowest k v ws = Ret r ws /\ 32 * k <= r < 32 * k + 32 /\ least g (32 * k) r.
Proof.
  intros Hk Hok Hne. pose proof word_count_bounds. unfold Bitset.lowest.
  destruct (countr_zero_spec 32 width_ok_32 v ltac:(apply Hok) Hne) as (c & Ec & Hc & Hlow & Hb & Hmin).
  unfold Bitset.word_bits. rewrite Ec. cbn [Bitset.counted]. rewrite (bind_Ret (ret _) _ ws _ _ eq_refl). zbool.
  exists (32 * k + c). split; [unfold ret; do 2 f_equal; lia|]. split; [lia|]. split_and!; [lia| |].
  - by rewrite <- (word_ok_bit _ _ _ c Hok) by lia.
  - intros i Hi. replace i with (32 * k + (i - 32 * k)) by lia. rewrite <- (word_ok_bit _ _ _ _ Hok) by lia. apply Hmin. lia.
Qed.

(** The lowest bit of a word, when there was none before it. *)
Lemma lowest_found ws f from k v :
  0 <= k < wc -> 0 <= from -> word_ok (inside f) k v -> v <> 0 -> from <= 32 * k + 31 ->
  (forall i, from <= i < 32 * k -> f i = false) -> (forall i, 32 * k <= i < from -> inside f i = false) ->
  exists r, Bitset.lowest k v ws = Ret r ws /\ found f from r.
Proof.
  intros Hk Hfrom Hok Hne Hle Hlow Hlow'. destruct (lowest_spec ws _ k v Hk Hok Hne) as (r & E & Hr & _ & Hb & Hmin).
  exists r. split; [done|]. left. apply inside_true in Hb as [Hi Hf]. split; [lia|]. split_and!; [|done|].
  - destruct (Z.lt_ge_cases r from) as [Hlt|]; [|done]. rewrite <- (inside_in f) in Hf by done. by rewrite Hlow' in Hf by lia.
  - intros i Hi'. destruct (Z.lt_ge_cases i (32 * k)); [apply Hlow; lia|]. rewrite <- (inside_in f) by lia. apply Hmin. lia.
Qed.

Lemma find_set_from_spec ws f from (n : nat) k :
  holds ws f -> Z.of_nat n = wc - k -> 0 <= from <= 32 * k -> (forall i, from <= i < 32 * k -> i < N -> f i = false) ->
  exists r, Bitset.find_set_from N n k ws = Ret r ws /\ found f from r.
Proof.
  intros Hw. revert k. pose proof word_count_bounds as Hwc.
  induction n as [|n IH]; intros k Hn Hk Hlow; cbn [Bitset.find_set_from].
  - exists N. split; [done|]. right. split; [done|]. intros i Hi. apply Hlow; lia.
  - destruct (load_word _ ws k Hw ltac:(lia)) as (v & E & Hok). rewrite (bind_Ret _ _ _ _ _ E).
    destruct (Z.eqb_spec v 0) as [->|Hne]; cbn [negb].
    + apply IH; [lia|lia|]. intros i Hi HiN. destruct (Z.lt_ge_cases i (32 * k)); [by apply Hlow; lia|].
      rewrite <- (inside_in f) by lia. replace i with (32 * k + (i - 32 * k)) by lia. apply (word_ok_zero_inv _ _ Hok). lia.
    + apply lowest_found; try done; try lia. intros i Hi. apply Hlow; [lia|]. pose proof (words_below f k). lia.
Qed.

Lemma find_first_set_spec ws f : holds ws f -> exists r, Bitset.find_first_set N ws = Ret r ws /\ found f 0 r.
Proof. intros Hw. pose proof word_count_bounds. apply find_set_from_spec; [done|lia|lia|lia]. Qed.

Lemma find_next_set_spec ws f from :
  holds ws f -> 0 <= from -> exists r, Bitset.find_next_set N from ws = Ret r ws /\ found f from r.
Proof.
  intros Hw Hf. unfold Bitset.find_next_set. destruct (Z.leb_spec N from).
  { exists N. split; [done|]. right. split; [done|]. lia. }
  unfold Bitset.word_bits. destruct (index_split from Hf) as (Ef & Hm & Hq). pose proof (index_word from ltac:(lia)) as Hk.
  destruct (load_word _ ws (from / 32) Hw Hk) as (v & E & Hok). rewrite (bind_Ret _ _ _ _ _ E).
  set (k := from / 32) in *. set (b := from mod 32) in *.
  set (f' := fun i => (from <=? i) && f i).
  assert (word_ok (inside f') k (Z.land v (Bitset.word_shl (Bitset.word_not 0) b))) as Hok'.
  { apply word_of_bits.
    - apply Z.land_nonneg. left. apply Hok.
    - intros j Hj. by rewrite Z.land_spec, (word_ok_high _ _ _ _ Hok Hj).
    - intros j Hj. rewrite Z.land_spec, (word_ok_bit _ _ _ _ Hok Hj), testbit_word_shl by lia. unfold inside, f'.
      destruct (Z.leb_spec b j).
      + rewrite testbit_word_not, Z.bits_0 by lia. zbool. by rewrite andb_true_r.
      + zbool. cbn. by rewrite !andb_false_r. }
  destruct (Z.eqb_spec (Z.land v (Bitset.word_shl (Bitset.word_not 0) b)) 0) as [E0|Hne]; cbn [negb].
  - rewrite E0 in Hok'. pose proof word_count_bounds. apply find_set_from_spec; [done|lia|lia|].
    intros i Hi HiN. pose proof (word_ok_zero_inv _ _ Hok' (i - 32 * k) ltac:(lia)) as Hz.
    replace (32 * k + (i - 32 * k)) with i in Hz by lia. rewrite inside_in in Hz by lia. unfold f' in Hz. revert Hz. by zbool.
  - destruct (lowest_found ws f' from k _ Hk Hf Hok' Hne) as (r & Er & Hr); [lia|lia| |].
    + intros i Hi. unfold inside, f'. rewrite (proj2 (Z.leb_gt from i)) by lia. by rewrite andb_false_r.
    + exists r. split; [done|]. destruct Hr as [(Hr & Hlo & Hb & Hmin)|[-> Hn]]; [left|right]; (split; [done|]).
      * unfold f' in Hb. apply andb_true_iff in Hb as [_ Hb]. split_and!; [done|done|].
        intros i Hi. specialize (Hmin i Hi). unfold f' in Hmin. revert Hmin. by zbool.
      * intros i Hi. specialize (Hn i Hi). unfold f' in Hn. revert Hn. by zbool.
Qed.

(** A word's complement. *)
Lemma word_not_ok g k v : word_ok g k v -> word_ok (fun i => negb (g i)) k (Bitset.word_not v).
Proof.
  intros Hok. split; [apply word_range|]. intros j Hj. rewrite testbit_word_not by done. f_equal. by apply word_ok_bit.
Qed.

Lemma find_clear_from_spec ws f (n : nat) k :
  holds ws f -> Z.of_nat n = wc - k -> 0 <= k -> (forall i, 0 <= i < 32 * k -> inside f i = true) ->
  exists r, Bitset.find_clear_from N n k ws = Ret r ws /\ found (fun i => negb (f i)) 0 r.
Proof.
  intros Hw. revert k. pose proof word_count_bounds as Hwc.
  induction n as [|n IH]; intros k Hn Hk Hlow; cbn [Bitset.find_clear_from].
  - exists N. split; [done|]. right. split; [done|]. intros i Hi. specialize (Hlow i ltac:(lia)).
    apply inside_true in Hlow as [_ ->]. done.
  - destruct (load_word _ ws k Hw ltac:(lia)) as (v & E & Hok). rewrite (bind_Ret _ _ _ _ _ E).
    pose proof (word_not_ok _ _ _ Hok) as Hok'. destruct (Z.eqb_spec (Bitset.word_not v) 0) as [E0|Hne]; cbn [negb].
    + rewrite E0 in Hok'. apply IH; [lia|lia|]. intros i Hi. destruct (Z.lt_ge_cases i (32 * k)); [by apply Hlow; lia|].
      replace i with (32 * k + (i - 32 * k)) by lia. apply negb_false_iff. apply (word_ok_zero_inv _ _ Hok'). lia.
    + destruct (lowest_spec ws _ k _ ltac:(lia) Hok' Hne) as (r & Er & Hr & _ & Hb & Hmin). exists r. split; [done|].
      assert (forall i, 0 <= i < r -> inside f i = true) as Hbelow.
      { intros i Hi. destruct (Z.lt_ge_cases i (32 * k)); [by apply Hlow; lia|]. apply negb_false_iff, Hmin. lia. }
      destruct (Z.lt_ge_cases r N).
      * left. split; [done|]. rewrite inside_in in Hb by lia. split_and!; [lia|done|].
        intros i Hi. by rewrite (proj2 (inside_true f i (Hbelow i Hi))).
      * assert (r = N) as ->.
        { destruct (decide (r = N)) as [|Hx]; [done|]. specialize (Hbelow N ltac:(lia)). rewrite inside_out in Hbelow by lia. done. }
        right. split; [done|]. intros i Hi. by rewrite (proj2 (inside_true f i (Hbelow i Hi))).
Qed.

Lemma find_first_clear_spec ws f :
  holds ws f -> exists r, Bitset.find_first_clear N ws = Ret r ws /\ found (fun i => negb (f i)) 0 r.
Proof. intros Hw. pose proof word_count_bounds. apply find_clear_from_spec; [done|lia|lia|lia]. Qed.
End bitset_facts.
