(* ===== verification/BitsClaims.v ===== *)
(** * What [bit] and [bitset] promise *)

From Stdlib Require Import ZArith Lia.
From stdpp Require Import base numbers list option tactics.
From S2P Require Import Prelude Bits BitsFacts.
Local Open Scope Z_scope.

Section shifts.
  Context `{SizeT, Cc : Bit.Compiler, HI : !Intrinsics} (N : Z) (HN : 1 <= N) (HM : N + 31 < 2 ^ size_bits).
  Implicit Types (ws : list Z) (f g : Z -> bool) (i j k v c : Z).
  Abbreviation wc := (Bitset.word_count N).
  Abbreviation inside := (inside N).
  Abbreviation holds := (holds N).
  Abbreviation words_of := (words_of N).

(** The two words a shifted word is made of: the high bits of one, the low
    bits of the one below it. *)
Lemma join_left g k v v' n :
  0 <= n < 32 -> word_ok g k v -> (n <> 0 -> word_ok g (k - 1) v') ->
  forall k', word_ok (fun i => g (i - 32 * (k' - k) - n)) k'
    (if n =? 0 then Bitset.word_shl v n else Z.lor (Bitset.word_shl v n) (Z.shiftr v' (32 - n))).
Proof.
  intros Hn Hv Hv' k'. destruct (Z.eqb_spec n 0) as [->|Hn0].
  - split; [apply word_range|]. intros j Hj. rewrite testbit_word_shl by lia. zbool. cbn [andb].
    rewrite (word_ok_bit _ _ _ _ Hv) by lia. f_equal. lia.
  - specialize (Hv' Hn0). apply word_of_bits.
    + apply Z.lor_nonneg. split; [apply word_range|apply Z.shiftr_nonneg, Hv'].
    + intros j Hj. rewrite Z.lor_spec, shiftr_testbit, (word_ok_high _ _ _ _ Hv') by lia.
      by rewrite (testbit_above (Bitset.word_shl v n) 32) by (apply word_range || lia).
    + intros j Hj. rewrite Z.lor_spec, shiftr_testbit, testbit_word_shl by lia. destruct (Z.leb_spec n j); cbn [andb orb].
      * rewrite (word_ok_high _ _ _ (j + (32 - n)) Hv'), (word_ok_bit _ _ _ _ Hv), orb_false_r by lia. f_equal. lia.
      * rewrite (word_ok_bit _ _ _ _ Hv') by lia. f_equal. lia.
Qed.

Lemma join_right g k v v' n :
  0 <= n < 32 -> word_ok g k v -> (n <> 0 -> word_ok g (k + 1) v') ->
  forall k', word_ok (fun i => g (i + 32 * (k - k') + n)) k'
    (if n =? 0 then Z.shiftr v n else Z.lor (Z.shiftr v n) (Bitset.word_shl v' (32 - n))).
Proof.
  intros Hn Hv Hv' k'. destruct (Z.eqb_spec n 0) as [->|Hn0].
  - rewrite Z.shiftr_0_r. split; [apply Hv|]. intros j Hj. rewrite (word_ok_bit _ _ _ _ Hv) by lia. f_equal. lia.
  - specialize (Hv' Hn0). apply word_of_bits.
    + apply Z.lor_nonneg. split; [apply Z.shiftr_nonneg, Hv|apply word_range].
    + intros j Hj. rewrite Z.lor_spec, shiftr_testbit, (word_ok_high _ _ _ _ Hv) by lia.
      by rewrite (testbit_above (Bitset.word_shl v' (32 - n)) 32) by (apply word_range || lia).
    + intros j Hj. rewrite Z.lor_spec, shiftr_testbit, testbit_word_shl by lia. destruct (Z.leb_spec (32 - n) j); cbn [andb].
      * rewrite (word_ok_high _ _ _ (j + n) Hv), (word_ok_bit _ _ _ _ Hv') by lia. cbn [orb]. f_equal. lia.
      * rewrite (word_ok_bit _ _ _ _ Hv), orb_false_r by lia. f_equal. lia.
Qed.

(** The words from [k] on are those of [g'], the others those of [g]. *)
Definition half g g' k i : bool := if k * 32 <=? i then g' i else g i.

Lemma half_step_down g g' k ws v :
  0 <= k < wc -> words_of (half g g' (k + 1)) ws -> word_ok g' k v ->
  Bitset.store k v ws = Ret tt (<[Z.to_nat k := v]> ws) /\ words_of (half g g' k) (<[Z.to_nat k := v]> ws).
Proof.
  intros Hk Hws Hv. split; [apply store_at; destruct Hws as [-> _]; lia|].
  apply (words_of_insert N (half g g' (k + 1))); [done|done| |].
  - split; [apply Hv|]. intros j Hj. unfold half. zbool. by apply word_ok_bit.
  - intros i _ Hi. unfold half. assert (0 <= i -> i / 32 = k <-> k * 32 <= i < (k + 1) * 32) as Hq
      by (intros Hi0; destruct (index_split i Hi0) as (? & ? & ?); lia).
    destruct (Z.leb_spec ((k + 1) * 32) i), (Z.leb_spec (k * 32) i); try done; lia.
Qed.

Lemma half_step_up g g' k ws v :
  0 <= k < wc -> words_of (half g' g k) ws -> word_ok g' k v ->
  Bitset.store k v ws = Ret tt (<[Z.to_nat k := v]> ws) /\ words_of (half g' g (k + 1)) (<[Z.to_nat k := v]> ws).
Proof.
  intros Hk Hws Hv. split; [apply store_at; destruct Hws as [-> _]; lia|].
  apply (words_of_insert N (half g' g k)); [done|done| |].
  - split; [apply Hv|]. intros j Hj. unfold half. zbool. by apply word_ok_bit.
  - intros i _ Hi. unfold half. assert (0 <= i -> i / 32 = k <-> k * 32 <= i < (k + 1) * 32) as Hq
      by (intros Hi0; destruct (index_split i Hi0) as (? & ? & ?); lia).
    destruct (Z.leb_spec ((k + 1) * 32) i), (Z.leb_spec (k * 32) i); try done; lia.
Qed.

(** A word that the loop has not reached. *)
Lemma half_low g g' k k' ws : words_of (half g g' k) ws -> 0 <= k' < wc -> k' < k ->
  exists v, Bitset.load k' ws = Ret v ws /\ word_ok g k' v.
Proof.
  intros Hws Hk' Hlt. destruct (load_word N _ ws k' Hws Hk') as (v & E & Hok). exists v. split; [done|].
  split; [apply Hok|]. intros j Hj. rewrite (word_ok_bit _ _ _ _ Hok Hj). unfold half. by zbool.
Qed.

Lemma half_high g g' k k' ws : words_of (half g g' k) ws -> 0 <= k' < wc -> k <= k' ->
  exists v, Bitset.load k' ws = Ret v ws /\ word_ok g' k' v.
Proof.
  intros Hws Hk' Hle. destruct (load_word N _ ws k' Hws Hk') as (v & E & Hok). exists v. split; [done|].
  split; [apply Hok|]. intros j Hj. rewrite (word_ok_bit _ _ _ _ Hok Hj). unfold half. by zbool.
Qed.

Lemma last_word_mask_bit j :
  0 <= j < 32 -> Z.testbit (Bitset.last_word_mask N) j = (32 * (wc - 1) + j <? N).
Proof.
  intros Hj. pose proof (word_count_bounds N HN HM) as Hwc. unfold Bitset.last_word_mask, Bitset.word_bits.
  destruct (index_split N ltac:(lia)) as (EN & Hm & Hq). destruct (Z.eqb_spec (N mod 32) 0) as [E0|Hne].
  - rewrite testbit_word_not, Z.bits_0 by done. symmetry. apply Z.ltb_lt. lia.
  - assert (wc - 1 = N / 32) as -> by lia.
    assert (Bitset.word_shl 1 (N mod 32) = 2 ^ (N mod 32)) as ->.
    { unfold Bitset.word_shl, Bitset.word, Bitset.word_bits. rewrite Z.shiftl_1_l, Z.mod_small; [done|].
      split; [apply Z.pow_nonneg; lia|apply Z.pow_lt_mono_r; lia]. }
    rewrite testbit_word by lia. zbool. cbn [andb]. rewrite Z.sub_1_r, <- Z.ones_equiv, Z.testbit_ones by lia. zbool. cbn [andb].
    destruct (Z.ltb_spec j (N mod 32)); symmetry; [apply Z.ltb_lt|apply Z.ltb_ge]; lia.
Qed.

Lemma shift_left_word ws f c k :
  0 <= c < N -> 0 <= k < wc -> words_of (half (inside f) (fun i => inside f (i - c)) (k + 1)) ws ->
  exists v, (if c / 32 <=? k then
     let! v := Bitset.load (k - c / 32) in
     if negb (c mod 32 =? 0) && (c / 32 <? k) then
       let! v' := Bitset.load (k - c / 32 - 1) in
       ret (Z.lor (Bitset.word_shl v (c mod 32)) (Z.shiftr v' (32 - c mod 32)))
     else ret (Bitset.word_shl v (c mod 32))
   else ret 0) ws = Ret v ws /\ word_ok (fun i => inside f (i - c)) k v.
Proof.
  intros Hc Hk Hws. destruct (index_split c ltac:(lia)) as (Ec & Hm & Hq). set (nw := c / 32) in *. set (nb := c mod 32) in *.
  assert (forall v, word_ok (fun i => inside f (i - 32 * (k - (k - nw)) - nb)) k v -> word_ok (fun i => inside f (i - c)) k v) as Hcong.
  { intros v [Hr Hb]. split; [done|]. intros j Hj. rewrite Hb by done. f_equal. lia. }
  destruct (Z.leb_spec nw k).
  2: { exists 0. split; [done|]. apply word_ok_zero. intros j Hj. apply inside_out. lia. }
  destruct (half_low _ _ _ (k - nw) ws Hws ltac:(lia) ltac:(lia)) as (v & E & Hok). rewrite (bind_Ret _ _ _ _ _ E).
  destruct (Z.ltb_spec nw k).
  - destruct (half_low _ _ _ (k - nw - 1) ws Hws ltac:(lia) ltac:(lia)) as (v' & E' & Hok').
    pose proof (join_left _ _ v v' nb Hm Hok (fun _ => Hok') k) as Hj. apply Hcong in Hj.
    destruct (nb =? 0); cbn [negb andb]; [|rewrite (bind_Ret _ _ _ _ _ E')]; eexists; (split; [reflexivity|done]).
  - rewrite andb_false_r. eexists. split; [reflexivity|]. apply Hcong. split; [apply word_range|]. intros j Hj.
    rewrite testbit_word_shl by lia. destruct (Z.leb_spec nb j); cbn [andb].
    + rewrite (word_ok_bit _ _ _ _ Hok) by lia. f_equal. lia.
    + symmetry. apply inside_out. lia.
Qed.

Lemma shift_left_spec ws f c :
  holds ws f -> 0 <= c ->
  exists ws', Bitset.shift_left N c ws = Ret tt ws' /\ holds ws' (fun i => (c <=? i) && f (i - c)).
Proof.
  intros Hw Hc. pose proof (word_count_bounds N HN HM) as Hwc. unfold Bitset.shift_left. destruct (Z.leb_spec N c).
  { destruct (reset_all_spec N HN HM ws f Hw) as (ws' & E & Hw'). exists ws'. split; [done|]. revert Hw'.
    apply words_of_ext. intros i Hi. unfold BitsFacts.inside. destruct (Z.ltb_spec i N); [|by rewrite !andb_false_r].
    zbool. done. }
  unfold Bitset.word_bits. cbv zeta. set (g := fun i => inside f (i - c)).
  match goal with |- context [for_down _ _ ?b] =>
    destruct (for_down_inv (fun k ws => words_of (half (inside f) g (k + 1)) ws) b (Z.to_nat wc) (wc - 1) ws) as (ws1 & E1 & Hw1) end.
  - revert Hw. apply words_of_ext. intros i Hi. unfold half. by zbool.
  - intros k s Hk Hs. destruct (shift_left_word s f c k ltac:(lia) ltac:(lia) Hs) as (v & Ev & Hv).
    rewrite (bind_Ret _ _ _ _ _ Ev). exists (<[Z.to_nat k := v]> s). replace (k - 1 + 1) with k by lia.
    apply half_step_down; [lia|done|done].
  - rewrite (bind_Ret _ _ _ _ _ E1). replace (wc - 1 - Z.of_nat (Z.to_nat wc) + 1) with 0 in Hw1 by lia.
    assert (0 <= wc - 1 < wc) as Hlast by lia. destruct (half_high _ _ 0 (wc - 1) ws1 Hw1 Hlast (proj1 Hlast)) as (v & Ev & Hv). rewrite (bind_Ret _ _ _ _ _ Ev).
    eexists. split; [apply store_at; destruct Hw1 as [-> _]; lia|].
    apply (words_of_ext N (fun i => (i <? N) && g i)).
    { intros i Hi. unfold g, BitsFacts.inside. zbool. destruct (Z.ltb_spec i N); [|done]. cbn [andb].
      destruct (Z.leb_spec c i); zbool; done. }
    apply (words_of_insert N (half (inside f) g 0)); [done|lia| |].
    + apply word_of_bits; [apply Z.land_nonneg; left; apply Hv|intros j Hj; by rewrite Z.land_spec, (word_ok_high _ _ _ _ Hv)|].
      intros j Hj. rewrite Z.land_spec, (word_ok_bit _ _ _ _ Hv), last_word_mask_bit by done. apply andb_comm.
    + intros i Hi Hne. unfold half. zbool. destruct (index_split i ltac:(lia)) as (? & ? & ?). by rewrite (proj2 (Z.ltb_lt i N)) by lia.
Qed.

Lemma shift_right_word ws f c k :
  0 <= c < N -> 0 <= k < wc -> words_of (half (fun i => inside f (i + c)) (inside f) k) ws ->
  exists v, (if k + c / 32 <? wc then
     let! v := Bitset.load (k + c / 32) in
     if negb (c mod 32 =? 0) && (k + c / 32 + 1 <? wc) then
       let! v' := Bitset.load (k + c / 32 + 1) in
       ret (Z.lor (Z.shiftr v (c mod 32)) (Bitset.word_shl v' (32 - c mod 32)))
     else ret (Z.shiftr v (c mod 32))
   else ret 0) ws = Ret v ws /\ word_ok (fun i => inside f (i + c)) k v.
Proof.
  intros Hc Hk Hws. pose proof (word_count_bounds N HN HM) as Hwc.
  destruct (index_split c ltac:(lia)) as (Ec & Hm & Hq). set (nw := c / 32) in *. set (nb := c mod 32) in *.
  assert (forall v, word_ok (fun i => inside f (i + 32 * (k + nw - k) + nb)) k v -> word_ok (fun i => inside f (i + c)) k v) as Hcong.
  { intros v [Hr Hb]. split; [done|]. intros j Hj. rewrite Hb by done. f_equal. lia. }
  destruct (Z.ltb_spec (k + nw) wc).
  2: { exists 0. split; [done|]. apply word_ok_zero. intros j Hj. apply inside_out. lia. }
  destruct (half_high _ _ k (k + nw) ws Hws ltac:(lia) ltac:(lia)) as (v & E & Hok). rewrite (bind_Ret _ _ _ _ _ E).
  destruct (Z.ltb_spec (k + nw + 1) wc).
  - destruct (half_high _ _ k (k + nw + 1) ws Hws ltac:(lia) ltac:(lia)) as (v' & E' & Hok').
    pose proof (join_right _ _ v v' nb Hm Hok (fun _ => Hok') k) as Hj. apply Hcong in Hj.
    destruct (nb =? 0); cbn [negb andb]; [|rewrite (bind_Ret _ _ _ _ _ E')]; eexists; (split; [reflexivity|done]).
  - rewrite andb_false_r. eexists. split; [reflexivity|]. apply Hcong. apply word_of_bits.
    + apply Z.shiftr_nonneg, Hok.
    + intros j Hj. rewrite shiftr_testbit by lia. apply (word_ok_high _ _ _ _ Hok). lia.
    + intros j Hj. rewrite shiftr_testbit by lia. destruct (Z.lt_ge_cases (j + nb) 32).
      * rewrite (word_ok_bit _ _ _ _ Hok) by lia. f_equal. lia.
      * rewrite (word_ok_high _ _ _ _ Hok) by lia. symmetry. apply inside_out. lia.
Qed.

Lemma shift_right_spec ws f c :
  holds ws f -> 0 <= c ->
  exists ws', Bitset.shift_right N c ws = Ret tt ws' /\ holds ws' (fun i => (i + c <? N) && f (i + c)).
Proof.
  intros Hw Hc. pose proof (word_count_bounds N HN HM) as Hwc. unfold Bitset.shift_right. destruct (Z.leb_spec N c).
  { destruct (reset_all_spec N HN HM ws f Hw) as (ws' & E & Hw'). exists ws'. split; [done|]. revert Hw'.
    apply words_of_ext. intros i Hi. unfold BitsFacts.inside. zbool. by rewrite !andb_false_r. }
  unfold Bitset.word_bits. cbv zeta. set (g := fun i => inside f (i + c)).
  match goal with |- context [for_up _ _ ?b] =>
    destruct (for_up_inv (fun k ws => words_of (half g (inside f) k) ws) b (Z.to_nat wc) 0 ws) as (ws1 & E1 & Hw1) end.
  - revert Hw. apply words_of_ext. intros i Hi. unfold half. by zbool.
  - intros k s Hk Hs. destruct (shift_right_word s f c k ltac:(lia) ltac:(lia) Hs) as (v & Ev & Hv).
    rewrite (bind_Ret _ _ _ _ _ Ev). exists (<[Z.to_nat k := v]> s). apply half_step_up; [lia|done|done].
  - exists ws1. split; [done|]. revert Hw1. apply words_of_ext. intros i Hi. unfold half. zbool. unfold g, BitsFacts.inside.
    zbool. cbn [andb]. destruct (Z.ltb_spec (i + c) N); [by zbool|]. by rewrite andb_false_r.
Qed.

(** *** Equality *)

Lemma words_agree f g k v v' :
  word_ok (inside f) k v -> word_ok (inside g) k v' ->
  v = v' <-> (forall j, 0 <= j < 32 -> inside f (32 * k + j) = inside g (32 * k + j)).
Proof.
  intros Hv Hv'. split.
  - intros -> j Hj. by rewrite <- (word_ok_bit _ _ _ _ Hv Hj), <- (word_ok_bit _ _ _ _ Hv' Hj).
  - intros Hfg. apply (word_ok_unique (inside f) k); [done|]. split; [apply Hv'|]. intros j Hj. rewrite Hfg by done.
    by apply word_ok_bit.
Qed.

Lemma equal_spec ws ws' f g :
  holds ws f -> holds ws' g ->
  exists b, Bitset.equal N (ws, ws') = Ret b (ws, ws') /\ (b = true <-> forall i, 0 <= i < N -> f i = g i).
Proof.
  intros Hw Hw'. pose proof (word_count_bounds N HN HM) as Hwc. unfold Bitset.equal.
  assert (forall n k, Z.of_nat n = wc - k -> 0 <= k -> (forall i, 0 <= i < 32 * k -> inside f i = inside g i) ->
    exists b, Bitset.equal_from n k (ws, ws') = Ret b (ws, ws') /\ (b = true <-> forall i, 0 <= i < N -> f i = g i)) as Hloop.
  { induction n as [|n IH]; intros k Hn Hk Hlow; cbn [Bitset.equal_from].
    - exists true. split; [done|]. split; [|done]. intros _ i Hi. rewrite <- (inside_in N f), <- (inside_in N g) by done.
      apply Hlow. lia.
    - destruct (load_word N _ ws k Hw ltac:(lia)) as (v & E & Hok). destruct (load_word N _ ws' k Hw' ltac:(lia)) as (v' & E' & Hok').
      rewrite (bind_Ret _ _ _ _ _ (on_fst_Ret _ (ws, ws') _ _ E)). cbn [snd].
      rewrite (bind_Ret _ _ _ _ _ (on_snd_Ret _ (ws, ws') _ _ E')). cbn [fst].
      pose proof (words_agree f g k v v' Hok Hok') as Hag. destruct (Z.eqb_spec v v') as [->|Hne]; cbn [negb].
      + apply IH; [lia|lia|]. intros i Hi. destruct (Z.lt_ge_cases i (32 * k)); [by apply Hlow; lia|].
        replace i with (32 * k + (i - 32 * k)) by lia. by apply Hag; [|lia].
      + exists false. split; [done|]. split; [done|]. intros Hfg. destruct Hne. apply Hag. intros j Hj.
        unfold BitsFacts.inside. zbool. destruct (Z.ltb_spec (32 * k + j) N); [|done]. by apply Hfg; lia. }
  apply Hloop; [lia|lia|]. lia.
Qed.

Lemma none_spec ws f :
  holds ws f -> exists b, Bitset.none N ws = Ret b ws /\ (b = true <-> forall i, 0 <= i < N -> f i = false).
Proof.
  intros Hw. destruct (any_spec N HN HM ws f Hw) as (b & E & Hb). unfold Bitset.none. rewrite (bind_Ret _ _ _ _ _ E).
  exists (negb b). split; [done|]. rewrite negb_true_iff. split.
  - intros -> i Hi. destruct (f i) eqn:Ef; [|done]. assert (false = true); [|done]. apply Hb. eauto.
  - intros Hn. destruct b; [|done]. destruct (proj1 Hb eq_refl) as (i & Hi & Hf). by rewrite Hn in Hf.
Qed.

Lemma all_spec ws f :
  holds ws f -> exists b, Bitset.all N ws = Ret b ws /\ (b = true <-> forall i, 0 <= i < N -> f i = true).
Proof.
  intros Hw. unfold Bitset.all. rewrite (bind_Ret _ _ _ _ _ (count_spec N HN HM ws f Hw)). eexists. split; [reflexivity|].
  rewrite Z.eqb_eq, (count_where_full f 0 N) by lia. by rewrite Z.add_0_l.
Qed.
End shifts.

(** ** The properties *)

(** C38. Whichever way a compiler takes (the builtins of GCC and Clang, picked by the
    width and corrected for the padding; the bit scans of MSVC, at run time and
    where the target has them; the portable loops, which end), and whatever the
    intrinsics are as long as they do what their documentation says, the functions
    of [bit.hpp] compute at every width [w] up to 64, the most its templates accept,
    what they are for: [popcount] the number of set bits, [countl_zero] and [countr_zero] the
    distance of the highest and of the lowest set bit from the ends, [bit_width]
    one more than the binary logarithm, [bit_floor] and [bit_ceil] the nearest
    powers of two below and above (0 when the latter does not fit), and
    [has_single_bit] whether the value is a power of two. *)
Theorem bit_operations_exact `{Cc : Bit.Compiler, HI : !Intrinsics} w v :
  1 <= w <= 64 -> 0 <= v < 2 ^ w ->
  Bit.popcount w v = Some (count_where (Z.testbit v) 0 w) /\
  (Bit.has_single_bit w v = true <-> exists k, 0 <= k < w /\ v = 2 ^ k) /\
  Bit.bit_ceil w v = Some (if Z.log2_up v <? w then 2 ^ Z.log2_up v else 0) /\
  (if v =? 0 then
     Bit.countl_zero w v = Some w /\ Bit.countr_zero w v = Some w /\ Bit.bit_width w v = Some 0 /\ Bit.bit_floor w v = Some 0
   else
     Bit.countl_zero w v = Some (w - 1 - Z.log2 v) /\
     (exists r, Bit.countr_zero w v = Some r /\ r < w /\ least (Z.testbit v) 0 r) /\
     Bit.bit_width w v = Some (Z.log2 v + 1) /\ Bit.bit_floor w v = Some (2 ^ Z.log2 v)).
Proof.
  intros Hw%width_ok_64 Hv. split; [by apply popcount_spec|]. split; [by apply has_single_bit_spec|].
  split; [by apply bit_ceil_spec|]. destruct (Z.eqb_spec v 0) as [->|Hne]; [done|].
  split; [apply countl_zero_spec; [done|lia]|]. split; [by apply countr_zero_spec|].
  split; [apply bit_width_spec; [done|lia]|apply bit_floor_spec; [done|lia]].
Qed.

Section claims.
  Context `{SizeT, Cc : Bit.Compiler, HI : !Intrinsics} (N : Z).
  Implicit Types (ws : list Z) (f : Z -> bool).

(** A [bitset<N>] is a set of indices below [N]: starting from a fresh one,
    which is empty, [set], [reset], [reset()], [<<=] and [>>=] change the bits
    they say and keep the bits past [N - 1] of the last word clear; an index that
    is not below [N] stops the program before anything is written. *)
Theorem bitset_updates ws f :
  1 <= N -> N + 31 < 2 ^ size_bits -> holds N ws f ->
  holds N (Bitset.fresh N) (fun _ => false) /\
  (forall i, 0 <= i ->
    if i <? N then
      (exists ws', Bitset.set N i ws = Ret tt ws' /\ holds N ws' (update f i true)) /\
      (exists ws', Bitset.reset N i ws = Ret tt ws' /\ holds N ws' (update f i false))
    else Bitset.set N i ws = Trap /\ Bitset.reset N i ws = Trap) /\
  (exists ws', Bitset.reset_all N ws = Ret tt ws' /\ holds N ws' (fun _ => false)) /\
  (forall c, 0 <= c ->
    (exists ws', Bitset.shift_left N c ws = Ret tt ws' /\ holds N ws' (fun i => (c <=? i) && f (i - c))) /\
    (exists ws', Bitset.shift_right N c ws = Ret tt ws' /\ holds N ws' (fun i => (i + c <? N) && f (i + c)))).
Proof.
  intros HN HM Hw. split; [by apply fresh_holds|]. split.
  - intros i Hi. pose proof (set_spec N HN HM ws f i Hw Hi) as Hset. pose proof (reset_spec N HN HM ws f i Hw Hi) as Hreset.
    by destruct (i <? N).
  - split; [by apply (reset_all_spec N HN HM ws f)|]. intros c Hc. split; [by apply shift_left_spec|by apply shift_right_spec].
Qed.

(** The queries of a [bitset<N>] are exact and change nothing: [test] reads
    its bit or stops the program past the end, [count] counts, [any], [none] and
    [all] quantify, the searches end at the lowest set or clear index in range or
    at [N], and two bitsets are equal when they have the same bits. *)
Theorem bitset_queries ws f ws2 f2 :
  1 <= N -> N + 31 < 2 ^ size_bits -> holds N ws f -> holds N ws2 f2 ->
  (forall i, 0 <= i -> Bitset.test N i ws = if i <? N then Ret (f i) ws else Trap) /\
  Bitset.count N ws = Ret (count_where f 0 N) ws /\
  (exists b, Bitset.any N ws = Ret b ws /\ (b = true <-> exists i, 0 <= i < N /\ f i = true)) /\
  (exists b, Bitset.none N ws = Ret b ws /\ (b = true <-> forall i, 0 <= i < N -> f i = false)) /\
  (exists b, Bitset.all N ws = Ret b ws /\ (b = true <-> forall i, 0 <= i < N -> f i = true)) /\
  (exists r, Bitset.find_first_set N ws = Ret r ws /\ found N f 0 r) /\
  (forall from, 0 <= from -> exists r, Bitset.find_next_set N from ws = Ret r ws /\ found N f from r) /\
  (exists r, Bitset.find_first_clear N ws = Ret r ws /\ found N (fun i => negb (f i)) 0 r) /\
  (exists b, Bitset.equal N (ws, ws2) = Ret b (ws, ws2) /\ (b = true <-> forall i, 0 <= i < N -> f i = f2 i)).
Proof.
  intros HN HM Hw Hw2. split; [intros i Hi; by apply test_spec|]. split; [by apply count_spec|].
  split; [by apply any_spec|]. split; [by apply none_spec|]. split; [by apply all_spec|].
  split; [by apply find_first_set_spec|]. split; [intros from Hf; by apply find_next_set_spec|].
  split; [by apply find_first_clear_spec|by apply equal_spec].
Qed.
End claims.

(** Compilers with intrinsics that are what the documentation says. *)
Definition with_intrinsics (gcc msvc machine_64 constant : bool) : Bit.Compiler := {|
  Bit.compiler_gcc := gcc; Bit.compiler_msvc := msvc; Bit.compiler_msvc_version := 1930;
  Bit.has_builtin _ := false; Bit.machine_64 := machine_64; Bit.builtin_is_constant_evaluated := constant;
  Bit.builtin_popcount v := count_where (Z.testbit v) 0 32; Bit.builtin_popcountll v := count_where (Z.testbit v) 0 64;
  Bit.builtin_clz v := 31 - Z.log2 v; Bit.builtin_clzll v := 63 - Z.log2 v;
  Bit.builtin_ctz v := default 0 (Bit.countr_zero_impl 32 v); Bit.builtin_ctzll v := default 0 (Bit.countr_zero_impl 64 v);
  Bit.BitScanReverse := Z.log2; Bit.BitScanReverse64 := Z.log2;
  Bit.BitScanForward v := default 0 (Bit.countr_zero_impl 32 v);
  Bit.BitScanForward64 v := default 0 (Bit.countr_zero_impl 64 v)
|}.

Lemma reference_clz v n : 0 < v < 2 ^ n -> least (fun i => Z.testbit v (n - 1 - i)) 0 (n - 1 - Z.log2 v).
Proof.
  intros Hv. assert (Z.log2 v < n) by (apply Z.log2_lt_pow2; lia). split_and!; [lia| |].
  - replace (n - 1 - (n - 1 - Z.log2 v)) with (Z.log2 v) by lia. apply Z.bit_log2. lia.
  - intros i Hi. apply Z.bits_above_log2; lia.
Qed.

Lemma reference_reverse v n : 0 < v < 2 ^ n -> greatest v n (Z.log2 v).
Proof.
  intros Hv. assert (Z.log2 v < n) by (apply Z.log2_lt_pow2; lia). pose proof (Z.log2_nonneg v).
  split; [lia|]. split; [apply Z.bit_log2; lia|]. intros i Hi. apply Z.bits_above_log2; lia.
Qed.

Lemma reference_ctz v n : 1 <= n -> 0 < v < 2 ^ n -> least (Z.testbit v) 0 (default 0 (Bit.countr_zero_impl n v)).
Proof. intros Hn Hv. by destruct (countr_zero_impl_spec n Hn v ltac:(lia) ltac:(lia)) as (r & -> & Hr). Qed.

#[export] Instance with_intrinsics_documented gcc msvc m64 constant : Intrinsics (Cc := with_intrinsics gcc msvc m64 constant).
Proof.
  split; intros _; cbn -[Z.testbit Z.log2 Z.pow Bit.countr_zero_impl].
  - done.
  - split; intros v Hv; [by apply (reference_clz v 32)|by apply (reference_clz v 64)].
  - split; intros v Hv; by apply reference_ctz.
  - split; [intros v Hv|intros _ v Hv]; by apply reference_reverse.
  - split; [intros v Hv|intros _ v Hv]; by apply reference_ctz.
Qed.

(** On GCC, on 64-bit and 32-bit MSVC at run time, and with the loops. *)
Lemma bit_operations_exact_witness :
  let countl cc w v := Bit.countl_zero (Cc := cc) w v in
  countl (with_intrinsics true false false false) 8 44 = Some 2 /\
  countl (with_intrinsics false true true false) 64 44 = Some 58 /\
  countl (with_intrinsics false true false false) 64 44 = Some 58 /\
  countl Bit.portable 8 44 = Some 2 /\
  Bit.popcount (Cc := with_intrinsics true false false false) 8 44 = Some 3 /\
  Bit.bit_ceil (Cc := with_intrinsics false true true false) 8 129 = Some 0.
Proof.
  cbv zeta.
  destruct (bit_operations_exact (Cc := with_intrinsics true false false false) 8 44) as (E1 & _ & _ & E2 & _); [lia|lia|].
  destruct (bit_operations_exact (Cc := with_intrinsics false true true false) 64 44) as (_ & _ & _ & E3 & _); [lia|lia|].
  destruct (bit_operations_exact (Cc := with_intrinsics false true false false) 64 44) as (_ & _ & _ & E4 & _); [lia|lia|].
  destruct (bit_operations_exact (Cc := Bit.portable) 8 44) as (_ & _ & _ & E5 & _); [lia|lia|].
  destruct (bit_operations_exact (Cc := with_intrinsics false true true false) 8 129) as (_ & _ & E6 & _); [lia|lia|].
  rewrite E1, E2, E3, E4, E5, E6. split_and!; reflexivity.
Defined.

Section witnesses.
  #[local] Existing Instances size_t_32 Bit.portable.

(** 40 bits: the bit 35 set, then moved to 38. *)
Lemma bitset_updates_witness :
  exists ws1 ws2, Bitset.set 40 35 (Bitset.fresh 40) = Ret tt ws1 /\ Bitset.shift_left 40 3 ws1 = Ret tt ws2 /\
    ws2 = [0; 64].
Proof.
  assert (holds 40 (Bitset.fresh 40) (fun _ => false)) as H0 by (by apply fresh_holds).
  destruct (bitset_updates 40 _ _ ltac:(lia) ltac:(done) H0) as (_ & Hs & _).
  destruct (proj1 (Hs 35 ltac:(lia))) as (ws1 & E1 & H1).
  destruct (bitset_updates 40 _ _ ltac:(lia) ltac:(done) H1) as (_ & _ & _ & Hsh).
  destruct (proj1 (Hsh 3 ltac:(lia))) as (ws2 & E2 & H2). exists ws1, ws2. split_and!; [done|done|].
  vm_compute in E1. injection E1 as <-. vm_compute in E2. by injection E2 as <-.
Defined.

Lemma bitset_queries_witness :
  exists r, Bitset.find_first_clear 40 (Bitset.fresh 40) = Ret r (Bitset.fresh 40) /\ r = 0.
Proof.
  assert (holds 40 (Bitset.fresh 40) (fun _ => false)) as H0 by (by apply fresh_holds).
  destruct (bitset_queries 40 _ _ _ _ ltac:(lia) ltac:(done) H0 H0) as (_ & _ & _ & _ & _ & _ & _ & (r & E & Hr) & _).
  exists r. split; [done|]. vm_compute in E. by injection E.
Defined.
End witnesses.
