(* ===== verification/HandlePool.v ===== *)
(** * [versioned_handle] and [handle_pool]

    [include/metl/versioned_handle.hpp]: a slot index and a generation packed in
    one unsigned integer; [include/metl/handle_pool.hpp]: the fixed pool whose
    objects such handles name.  A slot's bytes hold an object, a free-list link
    or nothing meaningful, and using them as something else is [Fault].

    A constructor is a computation on the pool that yields the object or throws,
    and a destructor one that yields nothing, so both may call the pool. *)

From Stdlib Require Import ZArith Lia.
From stdpp Require Import base numbers list option tactics.
From S2P Require Import Prelude.
Local Open Scope Z_scope.

(** ** Handles: [IndexT] of [index_bits], [GenT] of [generation_bits] *)

Module Handle.
Section handle.
  Context (index_bits generation_bits : Z).

(** [handle_packed_type]: the width of [packed_type]. *)
Definition used_bits : Z := index_bits + generation_bits.
Definition packed_bits : Z := if used_bits <=? 16 then 16 else if used_bits <=? 32 then 32 else 64.

(** [low_bits<packed_type>(count)]. *)
Definition low_bits (count : Z) : Z :=
  if packed_bits <=? count then Z.lnot 0 mod 2 ^ packed_bits
  else ((Z.shiftl 1 count) mod 2 ^ packed_bits - 1) mod 2 ^ packed_bits.
Definition value_mask : Z := low_bits used_bits.

Definition max_index : Z := Z.lnot 0 mod 2 ^ index_bits.
Definition max_generation : Z := Z.lnot 0 mod 2 ^ generation_bits.

Definition pack (index generation : Z) : Z :=
  Z.lor index (Z.shiftl generation index_bits mod 2 ^ packed_bits) mod 2 ^ packed_bits.

Definition canonical (raw : Z) : Z :=
  let value := Z.land raw value_mask in
  let keep := (0 - (if Z.shiftr value index_bits =? 0 then 0 else 1)) mod 2 ^ packed_bits in
  Z.land value keep.

(** A handle is its [value_]. *)
Definition null : Z := 0.
Definition make (index generation : Z) : Z := canonical (pack index generation).
Definition issued (index generation : Z) : Z := pack index generation.
Definition from_packed (packed : Z) : Z := canonical packed.
Definition packed (value : Z) : Z := value.

Definition index (value : Z) : Z := Z.land value max_index mod 2 ^ index_bits.
Definition generation (value : Z) : Z := Z.shiftr value index_bits mod 2 ^ generation_bits.
Definition valid (value : Z) : bool := negb (generation value =? 0).

Definition equal (lhs rhs : Z) : bool := lhs =? rhs.
Definition less (lhs rhs : Z) : bool := lhs <? rhs.
End handle.
End Handle.

(** ** The pool *)

Inductive cell (T : Type) : Type :=
  | Raw                 (** indeterminate bytes *)
  | Link (next : Z)     (** a free-list link *)
  | Object (v : T).     (** a live object *)
Arguments Raw {T}.
Arguments Link {T} next.
Arguments Object {T} v.

Record hpool (T : Type) : Type := mk_hpool {
  storage_ : list (cell T);
  generation_ : list Z;
  free_head_ : Z;
  free_tail_ : Z;
  hsize_ : Z
}.
Arguments mk_hpool {T}.
Arguments storage_ {T}.
Arguments generation_ {T}.
Arguments free_head_ {T}.
Arguments free_tail_ {T}.
Arguments hsize_ {T}.

Module HandlePool.
Section handle_pool.
  Context `{SizeT} {T : Type} (C : Z) (h : hardening) (gen_bits : Z).
  Implicit Types (p : hpool T).
  Abbreviation MP := (M (hpool T)).

Definition index_bits : Z := 16.
Definition max_capacity : Z := Handle.max_index index_bits.

Definition set_storage st (p : hpool T) : hpool T := mk_hpool st (generation_ p) (free_head_ p) (free_tail_ p) (hsize_ p).
Definition set_generations g (p : hpool T) : hpool T := mk_hpool (storage_ p) g (free_head_ p) (free_tail_ p) (hsize_ p).
Definition set_free_head x (p : hpool T) : hpool T := mk_hpool (storage_ p) (generation_ p) x (free_tail_ p) (hsize_ p).
Definition set_free_tail x (p : hpool T) : hpool T := mk_hpool (storage_ p) (generation_ p) (free_head_ p) x (hsize_ p).
Definition set_size x (p : hpool T) : hpool T := mk_hpool (storage_ p) (generation_ p) (free_head_ p) (free_tail_ p) x.

(** [generation_[i]], read and written. *)
Definition generation_at (i : Z) : MP Z := fun p =>
  match generation_ p !! Z.to_nat i with Some g => Ret g p | None => Fault end.
Definition set_generation (i g : Z) : MP unit := fun p =>
  match generation_ p !! Z.to_nat i with
  | Some _ => Ret tt (set_generations (<[Z.to_nat i := g mod 2 ^ gen_bits]> (generation_ p)) p)
  | None => Fault
  end.

(** The bytes of a slot, as a link and as an object. *)
Definition link (i : Z) : MP Z := fun p =>
  match storage_ p !! Z.to_nat i with Some (Link n) => Ret n p | _ => Fault end.
Definition set_link (i next : Z) : MP unit := fun p =>
  match storage_ p !! Z.to_nat i with
  | Some (Raw | Link _) => Ret tt (set_storage (<[Z.to_nat i := Link (next mod 2 ^ index_bits)]> (storage_ p)) p)
  | _ => Fault
  end.
Definition construct (i : Z) (v : T) : MP unit := fun p =>
  match storage_ p !! Z.to_nat i with
  | Some (Raw | Link _) => Ret tt (set_storage (<[Z.to_nat i := Object v]> (storage_ p)) p)
  | _ => Fault
  end.
Definition object (i : Z) : MP T := fun p =>
  match storage_ p !! Z.to_nat i with Some (Object v) => Ret v p | _ => Fault end.
Definition end_lifetime (i : Z) : MP unit := fun p =>
  match storage_ p !! Z.to_nat i with
  | Some (Object _) => Ret tt (set_storage (<[Z.to_nat i := Raw]> (storage_ p)) p)
  | _ => Fault
  end.

(** The constructor's loop: every slot linked to the next, generation 0. *)
Definition last_slot : Z := if C =? 0 then 0 else C - 1.
Definition fresh : hpool T :=
  mk_hpool (map (fun i => Link ((Z.of_nat i + 1) mod 2 ^ index_bits)) (seq 0 (Z.to_nat C)))
    (replicate (Z.to_nat C) 0) 0 last_slot 0.

Definition append_free (i : Z) : MP unit :=
  set_link i C ;;;
  let! head := get free_head_ in
  (if C <=? head then modify (set_free_head i)
   else let! tail := get free_tail_ in set_link tail i) ;;;
  modify (set_free_tail i).

(** [~return_on_unwind()] of a claim that was not dismissed. *)
Definition return_on_unwind (i : Z) : MP unit :=
  let! g := generation_at i in
  set_generation i (g - 1) ;;;
  modify (fun p : hpool T => set_size (wrap (hsize_ p - 1)) p) ;;;
  let! head := get free_head_ in
  (if C <=? head then modify (set_free_tail i) else ret tt) ;;;
  let! head := get free_head_ in
  set_link i head ;;;
  modify (set_free_head i).

Definition try_emplace (constructor : MP T) : MP Z :=
  let! i := get free_head_ in
  if C <=? i then ret Handle.null
  else
    let! next := link i in
    modify (set_free_head next) ;;;
    let! g := generation_at i in
    set_generation i (g + 1) ;;;
    modify (fun p : hpool T => set_size (wrap (hsize_ p + 1)) p) ;;;
    guarded (let! v := constructor in construct i v) (return_on_unwind i) ;;;
    let! g := generation_at i in
    ret (Handle.issued index_bits gen_bits (i mod 2 ^ index_bits) g).

Definition emplace (constructor : MP T) : MP Z :=
  let! handle := try_emplace constructor in
  metl_assert h (Handle.valid index_bits gen_bits handle) ;;; ret handle.

Definition live_index (handle : Z) : MP Z :=
  if Z.land (Handle.generation index_bits gen_bits handle) 1 =? 0 then ret C
  else
    let i := Handle.index index_bits handle in
    if C <=? i then ret C
    else
      let! g := generation_at i in
      if negb (g =? Handle.generation index_bits gen_bits handle) then ret C else ret i.

(** [get]: the slot whose object the pointer names, or [nullptr]. *)
Definition get_object (handle : Z) : MP (option Z) :=
  let! i := live_index handle in ret (if i <? C then Some i else None).

Definition contains (handle : Z) : MP bool := let! i := live_index handle in ret (i <? C).

(** [~T()] runs on the object, then its lifetime is over; a destructor is
    [noexcept], so that an exception that leaves it ends the program. *)
Definition run_destructor (destructor : T -> MP unit) (v : T) : MP unit := fun p =>
  match destructor v p with
  | Throw _ => Trap
  | o => o
  end.
Definition release (destructor : T -> MP unit) (i : Z) : MP unit :=
  let! g := generation_at i in
  set_generation i (g + 1) ;;;
  modify (fun p : hpool T => set_size (wrap (hsize_ p - 1)) p) ;;;
  let! v := object i in
  run_destructor destructor v ;;;
  end_lifetime i ;;;
  append_free i.

Definition destroy (destructor : T -> MP unit) (handle : Z) : MP bool :=
  let! i := live_index handle in
  if C <=? i then ret false else release destructor i ;;; ret true.

Definition clear (destructor : T -> MP unit) : MP unit :=
  for_up (Z.to_nat C) 0 (fun i =>
    let! g := generation_at i in
    if negb (Z.land g 1 =? 0) then release destructor i else ret tt).

Definition empty : MP bool := get (fun p => hsize_ p =? 0).
Definition full : MP bool := get (fun p => hsize_ p =? C).
Definition size : MP Z := get hsize_.
Definition available : MP Z := get (fun p => wrap (C - hsize_ p)).

Definition generation_of (i : Z) : MP Z :=
  metl_assert h (i <? C) ;;;
  let! g := generation_at i in ret (Z.lor g 1 mod 2 ^ gen_bits).
End handle_pool.
End HandlePool.
