(* ===== verification/HandlePoolFacts.v ===== *)
(** * Facts on handles and on the handle pool

    The abstract pool: what each slot is for, how often it was claimed, and the
    queue of free slots; and that each step of [handle_pool] is one of its. *)

From Stdlib Require Import ZArith Lia.
From stdpp Require Import base numbers list option tactics.
From S2P Require Import Prelude HandlePool.
Local Open Scope Z_scope.

(** ** Handles *)

Section handle_facts.
  Context (ib gb : Z) (Hib : 1 <= ib) (Hgb : 1 <= gb) (Hsum : ib + gb <= 64).
  Implicit Types (i g v : Z).
  Abbreviation ub := (Handle.used_bits ib gb).
  Abbreviation pb := (Handle.packed_bits ib gb).

Lemma packed_bits_enough : ub <= pb.
Proof. unfold Handle.packed_bits, Handle.used_bits. repeat case_match; lia. Qed.

Lemma pow_used : 2 ^ ub = 2 ^ gb * 2 ^ ib.
Proof. unfold Handle.used_bits. rewrite Z.pow_add_r by lia. lia. Qed.

Lemma pow_packed : 0 < 2 ^ ub <= 2 ^ pb.
Proof.
  pose proof packed_bits_enough. unfold Handle.used_bits in *.
  split; [apply Z.pow_pos_nonneg; lia|apply Z.pow_le_mono_r; lia].
Qed.

Lemma lnot_zero_mod n : 0 <= n -> Z.lnot 0 mod 2 ^ n = 2 ^ n - 1.
Proof.
  intros. change (Z.lnot 0) with (-1). pose proof (Z.pow_pos_nonneg 2 n ltac:(lia) ltac:(lia)).
  rewrite <- (Z.mod_add (-1) 1) by lia. rewrite Z.mod_small; lia.
Qed.

Lemma land_ones_mod v n : 0 <= n -> Z.land v (2 ^ n - 1) = v mod 2 ^ n.
Proof. intros. rewrite Z.sub_1_r, <- Z.ones_equiv. by apply Z.land_ones. Qed.

Lemma value_mask_eq : Handle.value_mask ib gb = 2 ^ ub - 1.
Proof.
  pose proof packed_bits_enough. pose proof pow_packed. unfold Handle.value_mask, Handle.low_bits.
  assert (0 <= pb) by (unfold Handle.packed_bits; repeat case_match; lia).
  destruct (Z.leb_spec pb ub) as [Hle|Hlt].
  - rewrite lnot_zero_mod by done. do 2 f_equal. lia.
  - assert (2 ^ ub < 2 ^ pb) by (apply Z.pow_lt_mono_r; lia). rewrite Z.shiftl_1_l, (Z.mod_small (2 ^ ub)), Z.mod_small; lia.
Qed.

(** The fields do not overlap. *)
Lemma pack_eq i g : 0 <= i < 2 ^ ib -> 0 <= g < 2 ^ gb -> Handle.pack ib gb i g = i + g * 2 ^ ib.
Proof.
  intros Hi Hg. pose proof pow_packed as Hp. rewrite pow_used in Hp. unfold Handle.pack. rewrite Z.shiftl_mul_pow2 by lia.
  rewrite (Z.mod_small (g * 2 ^ ib)) by nia.
  assert (Z.land i (g * 2 ^ ib) = 0) as Hl.
  { apply Z.bits_inj'. intros n Hn. rewrite Z.land_spec, Z.bits_0. destruct (Z.lt_ge_cases n ib).
    - rewrite Z.mul_pow2_bits_low by lia. apply andb_false_r.
    - destruct (decide (i = 0)) as [->|]; [by rewrite Z.bits_0|]. rewrite Z.bits_above_log2; [done|lia|].
      apply Z.lt_le_trans with ib; [apply Z.log2_lt_pow2; lia|done]. }
  pose proof (Z.add_lor_land i (g * 2 ^ ib)) as Ha. rewrite Hl in Ha. replace (Z.lor i (g * 2 ^ ib)) with (i + g * 2 ^ ib) by lia.
  apply Z.mod_small. nia.
Qed.

Lemma canonical_eq v : 0 <= v -> Handle.canonical ib gb v =
  let value := v mod 2 ^ ub in if value / 2 ^ ib =? 0 then 0 else value.
Proof.
  intros Hv. pose proof pow_packed as Hp. pose proof packed_bits_enough. unfold Handle.canonical. cbv zeta.
  assert (0 <= ub) by (unfold Handle.used_bits; lia).
  rewrite value_mask_eq, land_ones_mod, Z.shiftr_div_pow2 by lia. destruct (Z.eqb_spec (v mod 2 ^ ub / 2 ^ ib) 0).
  - change (0 - 0) with 0. rewrite Z.mod_0_l by lia. apply Z.land_0_r.
  - change (0 - 1) with (Z.lnot 0). rewrite lnot_zero_mod, land_ones_mod by lia. apply Z.mod_small.
    pose proof (Z.mod_pos_bound v (2 ^ ub)). lia.
Qed.

Lemma fields_of i g :
  0 <= i < 2 ^ ib -> 0 <= g < 2 ^ gb ->
  Handle.index ib (i + g * 2 ^ ib) = i /\ Handle.generation ib gb (i + g * 2 ^ ib) = g.
Proof.
  intros Hi Hg. unfold Handle.index, Handle.generation, Handle.max_index. split.
  - rewrite lnot_zero_mod, land_ones_mod, Z.mod_mod by lia. rewrite Z.mod_add by lia. by apply Z.mod_small.
  - rewrite Z.shiftr_div_pow2, Z.div_add, (Z.div_small i) by lia. by apply Z.mod_small.
Qed.

Lemma make_eq i g : 0 <= i < 2 ^ ib -> 0 <= g < 2 ^ gb -> Handle.make ib gb i g = if g =? 0 then 0 else i + g * 2 ^ ib.
Proof.
  intros Hi Hg. unfold Handle.make. rewrite pack_eq, canonical_eq by nia. cbv zeta. pose proof pow_packed as Hp.
  rewrite pow_used, Z.mod_small, Z.div_add, (Z.div_small i) by nia. done.
Qed.

Lemma from_packed_junk i g k :
  0 <= i < 2 ^ ib -> 0 <= g < 2 ^ gb -> 0 <= k ->
  Handle.from_packed ib gb (i + g * 2 ^ ib + k * 2 ^ ub) = Handle.make ib gb i g.
Proof.
  intros Hi Hg Hk. rewrite make_eq by done. unfold Handle.from_packed. pose proof pow_packed as Hp.
  rewrite canonical_eq by nia. cbv zeta. rewrite Z.mod_add by lia.
  rewrite pow_used, Z.mod_small, Z.div_add, (Z.div_small i) by nia. done.
Qed.

Lemma issued_fields i g :
  0 <= i < 2 ^ ib -> 0 <= g < 2 ^ gb ->
  Handle.index ib (Handle.issued ib gb i g) = i /\ Handle.generation ib gb (Handle.issued ib gb i g) = g.
Proof. intros Hi Hg. unfold Handle.issued. rewrite pack_eq by done. by apply fields_of. Qed.
End handle_facts.

(** ** The abstract pool *)

Inductive status (T : Type) : Type :=
  | Free
  | Building             (** claimed; the constructor is running *)
  | Live (v : T)
  | Dying (v : T).       (** no longer live; the destructor is running *)
Arguments Free {T}.
Arguments Building {T}.
Arguments Live {T} v.
Arguments Dying {T} v.

Record apool (T : Type) : Type := mk_apool {
  astat : list (status T);
  acycles : list Z;       (** how often each slot was claimed *)
  aqueue : list nat       (** the free slots, the next one first *)
}.
Arguments mk_apool {T}.
Arguments astat {T}.
Arguments acycles {T}.
Arguments aqueue {T}.

Section pool_facts.
  Context `{SizeT} {T : Type} (C gb : Z).
  Context (HC : 0 <= C < 2 ^ 16) (Hgb : 1 <= gb <= 48).
  Implicit Types (a : apool T) (p : hpool T) (s : status T) (i : nat) (q : list nat).

Definition occupies s : bool := match s with Building | Live _ => true | Free | Dying _ => false end.
Definition occupied (l : list (status T)) : Z := Z.of_nat (length (List.filter occupies l)).

(** A claimed slot's generation is odd; it advances by one at each end. *)
Definition gen_of s (k : Z) : Z := (if occupies s then 2 * k - 1 else 2 * k) mod 2 ^ gb.

Definition next_of (o : option nat) : Z := match o with Some j => Z.of_nat j | None => C end.

Definition cell_ok s (c : cell T) : Prop :=
  match s, c with
  | Building, (Raw | Link _) => True
  | (Live v | Dying v), Object v' => v' = v
  | Free, Link _ => True
  | _, _ => False
  end.

(** The free list of [p] is [q]. *)
Definition free_list q p : Prop :=
  NoDup q /\
  (forall n i, q !! n = Some i -> storage_ p !! i = Some (Link (next_of (q !! S n)))) /\
  free_head_ p = next_of (head q) /\
  (forall t, list.last q = Some t -> free_tail_ p = Z.of_nat t).

(** The pool [p] is the abstract pool [a]. *)
Record rel a p : Prop := {
  rel_stat : length (astat a) = Z.to_nat C;
  rel_cycles : length (acycles a) = Z.to_nat C;
  rel_gens : generation_ p = zip_with gen_of (astat a) (acycles a);
  rel_cells : Forall2 cell_ok (astat a) (storage_ p);
  rel_free : free_list (aqueue a) p;
  rel_queue : forall i, i ∈ aqueue a <-> astat a !! i = Some Free;
  rel_size : hsize_ p = occupied (astat a)
}.

Lemma size_modulus_min : 2 ^ 16 <= 2 ^ size_bits.
Proof. apply Z.pow_le_mono_r; [lia|apply size_bits_min]. Qed.

Lemma occupied_insert l i s s' :
  l !! i = Some s -> occupied (<[i := s']> l) = occupied l - Z.b2z (occupies s) + Z.b2z (occupies s').
Proof.
  unfold occupied. revert i. induction l as [|x l IH]; intros [|i] Hl; [done|done| |]; cbn in Hl.
  - injection Hl as ->. cbn. destruct (occupies s), (occupies s'); cbn; lia.
  - change (<[S i := s']> (x :: l)) with (x :: <[i := s']> l). cbn [List.filter]. specialize (IH i Hl). destruct (occupies x); cbn [length]; lia.
Qed.

Lemma occupied_range l : 0 <= occupied l <= Z.of_nat (length l).
Proof. unfold occupied. pose proof (List.filter_length_le occupies l). lia. Qed.

Lemma occupied_pos l i s : l !! i = Some s -> occupies s = true -> 1 <= occupied l.
Proof.
  intros Hl Hs. pose proof (occupied_insert l i s Free Hl) as E. pose proof (occupied_range (<[i := Free]> l)).
  rewrite Hs in E. cbn in E. lia.
Qed.

Lemma occupied_full l i s : l !! i = Some s -> occupies s = false -> occupied l < Z.of_nat (length l).
Proof.
  intros Hl Hs. pose proof (occupied_insert l i s Building Hl) as E. pose proof (occupied_range (<[i := Building]> l)) as Hr.
  rewrite length_insert in Hr. rewrite Hs in E. cbn in E. lia.
Qed.

Lemma rel_lookup a p i s :
  rel a p -> astat a !! i = Some s ->
  exists k c, acycles a !! i = Some k /\ storage_ p !! i = Some c /\ cell_ok s c /\
    generation_ p !! i = Some (gen_of s k) /\ (i < Z.to_nat C)%nat.
Proof.
  intros Hr Hs. pose proof (lookup_lt_Some _ _ _ Hs) as Hlt.
  destruct (lookup_lt_is_Some_2 (acycles a) i) as [k Hk]; [rewrite (rel_cycles a p Hr), <- (rel_stat a p Hr); done|].
  destruct (Forall2_lookup_l _ _ _ _ _ (rel_cells a p Hr) Hs) as (c & Hc & Hok).
  exists k, c. split_and!; try done.
  - rewrite (rel_gens a p Hr). rewrite lookup_zip_with, Hs. cbn. by rewrite Hk.
  - by rewrite <- (rel_stat a p Hr).
Qed.

Lemma rel_in_range a p i : rel a p -> (i < Z.to_nat C)%nat -> exists s, astat a !! i = Some s.
Proof. intros Hr Hi. apply lookup_lt_is_Some_2. by rewrite (rel_stat a p Hr). Qed.

(** One slot changes. *)
Lemma rel_update a p i s k s' k' q' p' :
  rel a p -> astat a !! i = Some s -> acycles a !! i = Some k ->
  generation_ p' = <[i := gen_of s' k']> (generation_ p) ->
  hsize_ p' = hsize_ p - Z.b2z (occupies s) + Z.b2z (occupies s') ->
  Forall2 cell_ok (<[i := s']> (astat a)) (storage_ p') ->
  free_list q' p' -> (forall j, j ∈ q' <-> <[i := s']> (astat a) !! j = Some Free) ->
  rel (mk_apool (<[i := s']> (astat a)) (<[i := k']> (acycles a)) q') p'.
Proof.
  intros Hr Hs Hk Hg Hz Hcs Hf Hq. destruct Hr as [H1 H2 H3 H4 H5 H6 H7].
  split; cbn [astat acycles aqueue]; rewrite ?length_insert; try done.
  - rewrite Hg, H3. apply insert_zip_with.
  - rewrite Hz, H7. by rewrite (occupied_insert _ i s).
Qed.

Lemma free_list_cells q p p' :
  free_list q p -> (forall i, i ∈ q -> storage_ p' !! i = storage_ p !! i) ->
  free_head_ p' = free_head_ p -> free_tail_ p' = free_tail_ p -> free_list q p'.
Proof.
  intros (Hn & Hl & Hh & Ht) Hst Eh Et. split_and!; [done| |congruence|intros t E; rewrite Et; by apply Ht].
  intros n i Hi. rewrite Hst by (by eapply list_elem_of_lookup_2). by apply Hl.
Qed.

(** *** The steps *)

Definition cyc a i : Z := default 0 (acycles a !! i).
Definition put a i s k q : apool T := mk_apool (<[i := s]> (astat a)) (<[i := k]> (acycles a)) q.

Definition claim a i : apool T := put a i Building (cyc a i + 1) (tail (aqueue a)).
Definition unclaim a i : apool T := put a i Free (cyc a i - 1) (i :: aqueue a).
Definition finish a i v : apool T := put a i (Live v) (cyc a i) (aqueue a).
Definition retire a i v : apool T := put a i (Dying v) (cyc a i) (aqueue a).
Definition bury a i : apool T := put a i Free (cyc a i) (aqueue a ++ [i]).

Lemma gen_of_next s s' k k' :
  (if occupies s' then 2 * k' - 1 else 2 * k') = (if occupies s then 2 * k - 1 else 2 * k) + 1 ->
  (gen_of s k + 1) mod 2 ^ gb = gen_of s' k'.
Proof. intros E. unfold gen_of. by rewrite E, Zplus_mod_idemp_l. Qed.

Lemma gen_of_previous s s' k k' :
  (if occupies s' then 2 * k' - 1 else 2 * k') = (if occupies s then 2 * k - 1 else 2 * k) - 1 ->
  (gen_of s k - 1) mod 2 ^ gb = gen_of s' k'.
Proof. intros E. unfold gen_of. by rewrite E, Zminus_mod_idemp_l. Qed.

Lemma generation_at_lookup i g p : generation_ p !! i = Some g -> HandlePool.generation_at (Z.of_nat i) p = Ret g p.
Proof. intros E. unfold HandlePool.generation_at. by rewrite Nat2Z.id, E. Qed.

Lemma set_generation_lookup i g g' p :
  generation_ p !! i = Some g ->
  HandlePool.set_generation gb (Z.of_nat i) g' p =
    Ret tt (HandlePool.set_generations (<[i := g' mod 2 ^ gb]> (generation_ p)) p).
Proof. intros E. unfold HandlePool.set_generation. by rewrite Nat2Z.id, E. Qed.

Lemma set_link_lookup i c n p :
  storage_ p !! i = Some c -> (forall v, c <> Object v) -> 0 <= n < 2 ^ 16 ->
  HandlePool.set_link (Z.of_nat i) n p = Ret tt (HandlePool.set_storage (<[i := Link n]> (storage_ p)) p).
Proof.
  intros E Hc Hn. unfold HandlePool.set_link. rewrite Nat2Z.id, E. unfold HandlePool.index_bits.
  rewrite Z.mod_small by done. destruct c; [done|done|]. by destruct (Hc v).
Qed.

Lemma next_of_range o : (forall j, o = Some j -> (j < Z.to_nat C)%nat) -> 0 <= next_of o < 2 ^ 16.
Proof. intros Ho. destruct o as [j|]; cbn; [|lia]. specialize (Ho j eq_refl). lia. Qed.

Lemma queue_in_range a p i : rel a p -> i ∈ aqueue a -> (i < Z.to_nat C)%nat.
Proof. intros Hr Hi. apply (rel_queue a p Hr) in Hi. destruct (rel_lookup a p i Free Hr Hi) as (? & ? & _ & _ & _ & _ & ?). done. Qed.

Lemma head_in_range a p j : rel a p -> head (aqueue a) = Some j -> (j < Z.to_nat C)%nat.
Proof. intros Hr Hj. apply (queue_in_range a p j Hr). destruct (aqueue a); [done|]. injection Hj as ->. by left. Qed.

Lemma queue_other a p i j s : rel a p -> astat a !! i = Some s -> s <> Free -> j ∈ aqueue a -> j <> i.
Proof. intros Hr Hs Hne Hj ->. apply (rel_queue a p Hr) in Hj. congruence. Qed.

(** Claiming the slot at the head of the queue. *)
Lemma claim_step a p i q :
  rel a p -> aqueue a = i :: q ->
  exists g, HandlePool.link (Z.of_nat i) p = Ret (next_of (head q)) p /\ generation_ p !! i = Some g /\
    rel (claim a i) (HandlePool.set_size (wrap (hsize_ p + 1))
      (HandlePool.set_generations (<[i := (g + 1) mod 2 ^ gb]> (generation_ p)) (HandlePool.set_free_head (next_of (head q)) p))).
Proof.
  intros Hr Hq. assert (astat a !! i = Some Free) as Hs by (apply (rel_queue a p Hr); rewrite Hq; by left).
  destruct (rel_lookup a p i Free Hr Hs) as (k & c & Hk & Hc & Hok & Hg & Hi). exists (gen_of Free k).
  destruct (rel_free a p Hr) as (Hnd & Hl & Hh & Ht). rewrite Hq in *.
  pose proof (Hl 0%nat i eq_refl) as Hlink. change ((i :: q) !! 1%nat) with (q !! 0%nat) in Hlink.
  replace (q !! 0%nat) with (head q) in Hlink by (by destruct q).
  split; [by unfold HandlePool.link; rewrite Nat2Z.id, Hlink|]. split; [done|].
  pose proof (occupied_full _ _ _ Hs eq_refl) as Hfull. pose proof (occupied_range (astat a)) as Hrange.
  pose proof size_modulus_min.
  assert (wrap (hsize_ p + 1) = hsize_ p + 1) as ->.
  { rewrite (rel_size a p Hr). apply wrap_small. rewrite (rel_stat a p Hr) in Hfull. lia. }
  unfold claim, put, cyc. rewrite Hk, Hq. cbn [default tail]. apply list.NoDup_cons in Hnd as [Hni Hnd].
  eapply (rel_update a p i Free k); try done; cbn [generation_ hsize_ HandlePool.set_size HandlePool.set_generations].
  - by rewrite (gen_of_next Free Building k (k + 1)) by (cbn [occupies]; lia).
  - cbn. lia.
  - cbn. rewrite <- (list_insert_id (storage_ p) i c Hc). apply Forall2_insert; [apply (rel_cells a p Hr)|]. by destruct c.
  - split_and!; [done| |done|].
    + intros n j Hj. by apply (Hl (S n)).
    + intros t Hlast. apply Ht. destruct q; [done|]. by rewrite last_cons_cons.
  - intros j. rewrite list_lookup_insert_Some. split.
    + intros Hj. right. split; [intros ->; done|]. apply (rel_queue a p Hr). rewrite Hq. by right.
    + intros [(_ & ? & _)|[Hne Hj]]; [done|]. apply (rel_queue a p Hr) in Hj. rewrite Hq in Hj.
      apply elem_of_cons in Hj as [->|Hj]; done.
Qed.

(** Its object is constructed. *)
Lemma finish_step a p i v :
  rel a p -> astat a !! i = Some Building ->
  exists p', HandlePool.construct (Z.of_nat i) v p = Ret tt p' /\ rel (finish a i v) p' /\ generation_ p' = generation_ p.
Proof.
  intros Hr Hs. destruct (rel_lookup a p i Building Hr Hs) as (k & c & Hk & Hc & Hok & Hg & Hi).
  exists (HandlePool.set_storage (<[i := Object v]> (storage_ p)) p).
  split; [unfold HandlePool.construct; rewrite Nat2Z.id, Hc; by destruct c|]. split; [|done].
  unfold finish, put, cyc. rewrite Hk. cbn [default].
  eapply (rel_update a p i Building k); try done; cbn [generation_ hsize_ storage_ HandlePool.set_storage].
  - symmetry. by apply list_insert_id.
  - cbn. lia.
  - apply Forall2_insert; [apply (rel_cells a p Hr)|done].
  - apply (free_list_cells _ p); [apply (rel_free a p Hr)| |done|done]. intros j Hj. cbn. apply list_lookup_insert_ne.
    pose proof (queue_other a p i j _ Hr Hs ltac:(done) Hj). done.
  - intros j. rewrite list_lookup_insert_Some, (rel_queue a p Hr). split; [|intros [(_ & ? & _)|[_ ?]]; done].
    intros Hj. right. split; [|done]. intros ->. congruence.
Qed.

(** Its object is no longer live, though its destructor is still to run. *)
Lemma retire_step a p i v :
  rel a p -> astat a !! i = Some (Live v) ->
  exists g, generation_ p !! i = Some g /\
    rel (retire a i v) (HandlePool.set_size (wrap (hsize_ p - 1))
      (HandlePool.set_generations (<[i := (g + 1) mod 2 ^ gb]> (generation_ p)) p)).
Proof.
  intros Hr Hs. destruct (rel_lookup a p i (Live v) Hr Hs) as (k & c & Hk & Hc & Hok & Hg & Hi).
  exists (gen_of (Live v) k). split; [done|].
  pose proof (occupied_pos _ _ _ Hs eq_refl) as Hpos. pose proof (occupied_range (astat a)) as Hrange.
  pose proof size_modulus_min.
  assert (wrap (hsize_ p - 1) = hsize_ p - 1) as ->.
  { rewrite (rel_size a p Hr). apply wrap_small. rewrite (rel_stat a p Hr) in Hrange. lia. }
  unfold retire, put, cyc. rewrite Hk. cbn [default].
  eapply (rel_update a p i (Live v) k); try done; cbn [generation_ hsize_ storage_ HandlePool.set_size HandlePool.set_generations].
  - by rewrite (gen_of_next (Live v) (Dying v) k k) by (cbn [occupies]; lia).
  - cbn. lia.
  - rewrite <- (list_insert_id (storage_ p) i c Hc). apply Forall2_insert; [apply (rel_cells a p Hr)|]. by destruct c.
  - apply (free_list_cells _ p); [apply (rel_free a p Hr)|done|done|done].
  - intros j. rewrite list_lookup_insert_Some, (rel_queue a p Hr). split; [|intros [(_ & ? & _)|[_ ?]]; done].
    intros Hj. right. split; [|done]. intros ->. congruence.
Qed.

(** The slot joins the free list at its front, and at its back. *)
Lemma unclaim_step a p i :
  rel a p -> astat a !! i = Some Building ->
  exists p', HandlePool.return_on_unwind C gb (Z.of_nat i) p = Ret tt p' /\ rel (unclaim a i) p'.
Proof.
  intros Hr Hs. destruct (rel_lookup a p i Building Hr Hs) as (k & c & Hk & Hc & Hok & Hg & Hi).
  destruct (rel_free a p Hr) as (Hnd & Hl & Hh & Ht).
  pose proof (occupied_pos _ _ _ Hs eq_refl) as Hpos. pose proof (occupied_range (astat a)) as Hrange.
  pose proof size_modulus_min.
  assert (wrap (hsize_ p - 1) = hsize_ p - 1) as Ewrap.
  { rewrite (rel_size a p Hr). apply wrap_small. rewrite (rel_stat a p Hr) in Hrange. lia. }
  unfold HandlePool.return_on_unwind. rewrite (bind_Ret _ _ _ _ _ (generation_at_lookup i _ p Hg)).
  rewrite (bind_Ret _ _ _ _ _ (set_generation_lookup i _ _ p Hg)). mstep. mstep. cbn [free_head_ HandlePool.set_size HandlePool.set_generations].
  pose proof (next_of_range (head (aqueue a)) (fun j => head_in_range a p j Hr)) as Hnext.
  set (p1 := HandlePool.set_size (wrap (hsize_ (HandlePool.set_generations _ p) - 1)) _).
  set (p2 := if C <=? free_head_ p then HandlePool.set_free_tail (Z.of_nat i) p1 else p1).
  assert ((if C <=? free_head_ p then modify (HandlePool.set_free_tail (Z.of_nat i)) else ret tt) p1 = Ret tt p2) as E2
    by (unfold p2; by destruct (C <=? free_head_ p)).
  rewrite (bind_Ret _ _ _ _ _ E2). mstep.
  assert (free_head_ p2 = next_of (head (aqueue a)) /\ storage_ p2 = storage_ p) as [Eh Est]
    by (unfold p2; destruct (C <=? free_head_ p); done).
  rewrite (bind_Ret _ _ _ _ _ (set_link_lookup i c (free_head_ p2) p2 ltac:(by rewrite Est) ltac:(intros v ->; done) ltac:(by rewrite Eh))).
  rewrite Eh, Est. eexists. split; [reflexivity|]. unfold unclaim, put, cyc. rewrite Hk. cbn [default].
  assert (i ∉ aqueue a) as Hni by (intros Hin; by apply (queue_other a p i i _ Hr Hs)).
  eapply (rel_update a p i Building k); try done; cbn [generation_ hsize_ storage_ free_head_ free_tail_ HandlePool.set_free_head HandlePool.set_storage].
  - assert (generation_ p2 = <[i := (gen_of Building k - 1) mod 2 ^ gb]> (generation_ p)) as ->
      by (unfold p2; by destruct (C <=? free_head_ p)).
    by rewrite (gen_of_previous Building Free k (k - 1)) by (cbn [occupies]; lia).
  - assert (hsize_ p2 = hsize_ p - 1) as -> by (unfold p2, p1; destruct (C <=? free_head_ p); done). cbn. lia.
  - apply Forall2_insert; [apply (rel_cells a p Hr)|done].
  - split_and!; cbn [free_head_ free_tail_ storage_ HandlePool.set_free_head HandlePool.set_storage].
    + by apply list.NoDup_cons.
    + intros [|n] j Hj; cbn in Hj.
      * injection Hj as <-. rewrite list_lookup_insert_eq by (by eapply lookup_lt_Some). by destruct (aqueue a).
      * rewrite list_lookup_insert_ne; [by apply Hl|]. intros ->. apply Hni. by eapply list_elem_of_lookup_2.
    + done.
    + intros t Hlast. unfold p2. rewrite Hh. destruct (aqueue a) as [|j q] eqn:Eq.
      * cbn in Hlast. injection Hlast as <-. cbn. by zbool.
      * assert (j < Z.to_nat C)%nat by (apply (head_in_range a p j Hr); by rewrite Eq). cbn [head next_of]. zbool.
        apply Ht. by rewrite last_cons_cons in Hlast.
  - intros j. rewrite elem_of_cons, list_lookup_insert_Some, (rel_queue a p Hr). pose proof (lookup_lt_Some _ _ _ Hs).
    split; [intros [->|Hj]; [by left|]|intros [(-> & _)|[_ ?]]; by auto].
    destruct (decide (i = j)) as [->|]; [congruence|by right].
Qed.

(** Appending to an empty and to a nonempty free list. *)
Lemma free_list_single i p : free_head_ p = Z.of_nat i -> free_tail_ p = Z.of_nat i -> storage_ p !! i = Some (Link C) ->
  free_list [i] p.
Proof.
  intros Hh Ht Hs. split_and!; [apply list.NoDup_singleton| |done|].
  - intros [|n] j Hj; [|done]. by injection Hj as <-.
  - intros t [= <-]. done.
Qed.

Lemma free_list_append q i t p p' :
  free_list q p -> list.last q = Some t -> i ∉ q ->
  (forall j, j ∈ q -> j <> t -> storage_ p' !! j = storage_ p !! j) ->
  storage_ p' !! t = Some (Link (Z.of_nat i)) -> storage_ p' !! i = Some (Link C) ->
  free_head_ p' = free_head_ p -> free_tail_ p' = Z.of_nat i -> free_list (q ++ [i]) p'.
Proof.
  intros (Hnd & Hl & Hh & Ht) Hlast Hni Hst Hst_t Hst_i Hh' Ht'. apply last_Some in Hlast as (q0 & ->).
  apply list.NoDup_app in Hnd as (Hnd0 & Hdis & _).
  assert (t ∉ q0) as Htq by (intros Hin; apply (Hdis t Hin); by left). split_and!.
  - apply list.NoDup_app. split; [|split; [|apply list.NoDup_singleton]].
    + apply list.NoDup_app. split; [done|]. split; [done|apply list.NoDup_singleton].
    + intros j Hj ->%list_elem_of_singleton. done.
  - intros n j Hj. destruct (Nat.lt_trichotomy n (length q0)) as [Hn|[->|Hn]].
    + rewrite <- app_assoc, lookup_app_l in Hj by done. pose proof (list_elem_of_lookup_2 _ _ _ Hj) as Hjq.
      rewrite Hst; [|apply elem_of_app; by left|intros ->; done].
      rewrite (Hl n j) by (by rewrite lookup_app_l). do 3 f_equal. by rewrite (lookup_app_l (q0 ++ [t])) by (rewrite length_app; cbn; lia).
    + rewrite <- app_assoc, lookup_app_r, Nat.sub_diag in Hj by done. injection Hj as <-. rewrite Hst_t.
      rewrite lookup_app_r by (rewrite length_app; cbn; lia). rewrite length_app. cbn [length].
      by replace (S (length q0) - (length q0 + 1))%nat with 0%nat by lia.
    + rewrite lookup_app_r in Hj by (rewrite length_app; cbn; lia). rewrite length_app in Hj. cbn [length] in Hj.
      destruct (n - (length q0 + 1))%nat as [|m] eqn:En; [|done]. injection Hj as <-. rewrite Hst_i.
      rewrite lookup_ge_None_2 by (rewrite !length_app; cbn; lia). done.
  - rewrite Hh', Hh. by destruct q0.
  - intros t' Hlast. rewrite last_snoc in Hlast. by injection Hlast as <-.
Qed.

Lemma bury_step a p i v :
  rel a p -> astat a !! i = Some (Dying v) ->
  exists p', (HandlePool.end_lifetime (Z.of_nat i) ;;; HandlePool.append_free C (Z.of_nat i)) p = Ret tt p' /\ rel (bury a i) p'.
Proof.
  intros Hr Hs. destruct (rel_lookup a p i (Dying v) Hr Hs) as (k & c & Hk & Hc & Hok & Hg & Hi).
  destruct c as [| |v']; try done. pose proof (rel_free a p Hr) as Hf. pose proof (lookup_lt_Some _ _ _ Hc) as Hlt.
  assert (HandlePool.end_lifetime (Z.of_nat i) p = Ret tt (HandlePool.set_storage (<[i := Raw]> (storage_ p)) p)) as E1
    by (unfold HandlePool.end_lifetime; by rewrite Nat2Z.id, Hc).
  rewrite (bind_Ret _ _ _ _ _ E1). unfold HandlePool.append_free.
  rewrite (bind_Ret _ _ _ _ _ (set_link_lookup i Raw C (HandlePool.set_storage (<[i := Raw]> (storage_ p)) p)
    ltac:(cbn; by apply list_lookup_insert_eq) ltac:(done) ltac:(lia))). mstep.
  cbn [free_head_ HandlePool.set_storage storage_]. rewrite list_insert_insert_eq.
  assert (i ∉ aqueue a) as Hni by (intros Hin; by apply (queue_other a p i i _ Hr Hs)).
  assert (forall p', generation_ p' = generation_ p -> hsize_ p' = hsize_ p ->
    Forall2 cell_ok (<[i := Free]> (astat a)) (storage_ p') -> free_list (aqueue a ++ [i]) p' -> rel (bury a i) p') as Hend.
  { intros p' Hg' Hz' Hcs' Hf'. unfold bury, put, cyc. rewrite Hk. cbn [default].
    eapply (rel_update a p i (Dying v) k); try done; [rewrite Hg'; symmetry; by apply list_insert_id|cbn; lia|].
    intros j. rewrite elem_of_app, list_elem_of_singleton, list_lookup_insert_Some, (rel_queue a p Hr). pose proof (lookup_lt_Some _ _ _ Hs).
    split; [intros [Hj| ->]; [|by left]|intros [(-> & _)|[_ ?]]; by auto].
    destruct (decide (i = j)) as [->|]; [congruence|by right]. }
  destruct Hf as (Hnd & Hl & Hh & Ht). rewrite Hh. destruct (list.last (aqueue a)) as [t|] eqn:Elast.
  - assert (t ∈ aqueue a) as Htin by (by apply last_Some_elem_of in Elast).
    destruct (aqueue a) as [|j0 q0] eqn:Eq; [done|]. rewrite <- Eq in *.
    assert (j0 < Z.to_nat C)%nat by (apply (head_in_range a p j0 Hr); by rewrite Eq).
    replace (next_of (head (aqueue a))) with (Z.of_nat j0) by (by rewrite Eq). zbool. rewrite bind_assoc. mstep.
    cbn [free_tail_ HandlePool.set_storage]. rewrite (Ht t eq_refl).
    assert (t <> i) as Hti by (intros ->; done).
    apply (rel_queue a p Hr) in Htin as Htfree. destruct (rel_lookup a p t Free Hr Htfree) as (kt & ct & _ & Hct & Hokt & _ & Htr).
    rewrite (bind_Ret _ _ _ _ _ (set_link_lookup t ct (Z.of_nat i) (HandlePool.set_storage (<[i := Link C]> (storage_ p)) p)
      ltac:(cbn; by rewrite list_lookup_insert_ne) ltac:(intros ? ->; done) ltac:(lia))).
    eexists. split; [reflexivity|]. apply Hend; [done|done| |]; cbn [storage_ HandlePool.set_free_tail HandlePool.set_storage].
    + rewrite <- (list_insert_id (<[i := Free]> (astat a)) t Free) by (by rewrite list_lookup_insert_ne).
      apply Forall2_insert; [|done]. apply Forall2_insert; [apply (rel_cells a p Hr)|done].
    + apply (free_list_append (aqueue a) i t p); try done; cbn [storage_ HandlePool.set_free_tail HandlePool.set_storage].
      * apply (rel_free a p Hr).
      * intros j Hj Hjt. rewrite !list_lookup_insert_ne; [done|intros ->; done|done].
      * apply list_lookup_insert_eq. rewrite length_insert. by eapply lookup_lt_Some.
      * rewrite list_lookup_insert_ne by done. by apply list_lookup_insert_eq.
  - apply last_None in Elast. rewrite Elast in *. cbn [head next_of]. zbool. mstep.
    eexists. split; [reflexivity|]. apply Hend; [done|done|apply Forall2_insert; [apply (rel_cells a p Hr)|done]|].
    apply free_list_single; [done|done|]. cbn. by apply list_lookup_insert_eq.
Qed.

(** *** The member functions *)

(** What a handle names: a live slot that was claimed the right number of times,
    up to the width of the generation. *)
Definition resolves a (handle : Z) : option (nat * T) :=
  let g := Handle.generation 16 gb handle in
  let i := Z.to_nat (Handle.index 16 handle) in
  match astat a !! i, acycles a !! i with
  | Some (Live v), Some k => if g =? (2 * k - 1) mod 2 ^ gb then Some (i, v) else None
  | _, _ => None
  end.

(** [handle] would name a slot whose constructor is running. *)
Definition unfinished a (handle : Z) : Prop :=
  let i := Z.to_nat (Handle.index 16 handle) in
  exists k, astat a !! i = Some Building /\ acycles a !! i = Some k /\ Handle.generation 16 gb handle = (2 * k - 1) mod 2 ^ gb.

Lemma land_one_mod k : Z.land (k mod 2 ^ gb) 1 = Z.b2z (Z.odd k).
Proof.
  change 1 with (Z.ones 1). rewrite Z.land_ones by lia. change (2 ^ 1) with 2.
  by rewrite <- Z.bit0_mod, Z.mod_pow2_bits_low, Z.bit0_odd by lia.
Qed.

(** The parity of a generation says whether its slot is claimed. *)
Lemma gen_of_parity s k : Z.land (gen_of s k) 1 = Z.b2z (occupies s).
Proof.
  unfold gen_of. rewrite land_one_mod. destruct (occupies s); cbn [Z.b2z].
  - replace (2 * k - 1) with (1 + 2 * (k - 1)) by lia. by rewrite Z.odd_add_mul_2.
  - by rewrite Z.odd_mul.
Qed.

Lemma handle_index_range handle : 0 <= Handle.index 16 handle < 2 ^ 16.
Proof. apply Z.mod_pos_bound. done. Qed.

Lemma live_index_spec a p handle :
  rel a p -> ~ unfinished a handle ->
  HandlePool.live_index C gb handle p = Ret (match resolves a handle with Some (i, _) => Z.of_nat i | None => C end) p.
Proof.
  intros Hr Hu. unfold HandlePool.live_index, resolves, HandlePool.index_bits. cbv zeta.
  set (g := Handle.generation 16 gb handle) in *. pose proof (handle_index_range handle) as Hidx.
  set (i := Z.to_nat (Handle.index 16 handle)) in *. replace (Handle.index 16 handle) with (Z.of_nat i) by lia.
  destruct (Z.leb_spec C (Z.of_nat i)) as [Hge|Hlt].
  { rewrite (lookup_ge_None_2 (astat a)) by (rewrite (rel_stat a p Hr); lia). by destruct (Z.land g 1 =? 0). }
  destruct (rel_in_range a p i Hr ltac:(lia)) as (s & Hs). rewrite Hs.
  destruct (rel_lookup a p i s Hr Hs) as (k & c & Hk & _ & _ & Hg & _). rewrite Hk.
  pose proof (gen_of_parity s k) as Hpar.
  destruct (Z.eqb_spec (Z.land g 1) 0) as [Hev|Hodd].
  - destruct s; try done. destruct (Z.eqb_spec g ((2 * k - 1) mod 2 ^ gb)) as [Eg|]; [|done].
    change ((2 * k - 1) mod 2 ^ gb) with (gen_of (Live v) k) in Eg. rewrite <- Eg, Hev in Hpar. done.
  - rewrite (bind_Ret _ _ _ _ _ (generation_at_lookup i _ p Hg)).
    destruct (Z.eqb_spec (gen_of s k) g) as [Eg|Hne]; cbn [negb].
    + rewrite Eg in Hpar. rewrite Hpar in Hodd. destruct s; cbn in Hodd; try lia.
      * destruct Hu. by exists k.
      * by rewrite (proj2 (Z.eqb_eq g ((2 * k - 1) mod 2 ^ gb))).
    + destruct s; try done. rewrite (proj2 (Z.eqb_neq g _)); [done|]. intros ->. by apply Hne.
Qed.

(** The index an issued handle carries. *)
Lemma issued_resolves a i k v :
  (i < Z.to_nat C)%nat -> astat a !! i = Some (Live v) -> acycles a !! i = Some k ->
  let handle := Handle.issued 16 gb (Z.of_nat i mod 2 ^ 16) (gen_of (Live v) k) in
  resolves a handle = Some (i, v) /\ Handle.valid 16 gb handle = true.
Proof.
  intros Hi Hs Hk. rewrite (Z.mod_small (Z.of_nat i)) by lia. intros handle.
  assert (0 <= gen_of (Live v) k < 2 ^ gb) as Hg by (apply Z.mod_pos_bound, Z.pow_pos_nonneg; lia).
  destruct (issued_fields 16 gb ltac:(lia) ltac:(lia) ltac:(lia) (Z.of_nat i) (gen_of (Live v) k) ltac:(lia) Hg) as [Ei Eg].
  unfold handle, resolves, Handle.valid. rewrite Ei, Eg, Nat2Z.id, Hs, Hk. change (gen_of (Live v) k) with ((2 * k - 1) mod 2 ^ gb) at 1.
  rewrite Z.eqb_refl. split; [done|]. apply negb_true_iff, Z.eqb_neq. intros E0.
  pose proof (gen_of_parity (Live v) k) as Hpar. rewrite E0 in Hpar. done.
Qed.

Definition handle_of i (k : Z) : Z := Handle.issued 16 gb (Z.of_nat i) ((2 * k - 1) mod 2 ^ gb).

Lemma cyc_lookup a i k : acycles a !! i = Some k -> cyc a i = k.
Proof. unfold cyc. by intros ->. Qed.

Lemma generation_after a p i v :
  rel a p -> astat a !! i = Some (Live v) ->
  HandlePool.generation_at (Z.of_nat i) p = Ret ((2 * cyc a i - 1) mod 2 ^ gb) p.
Proof.
  intros Hr Hs. destruct (rel_lookup a p i (Live v) Hr Hs) as (k & c & Hk & _ & _ & Hg & _).
  rewrite (generation_at_lookup i _ p Hg), (cyc_lookup a i k Hk). done.
Qed.

Lemma put_stat a i s k q : (i < length (astat a))%nat -> astat (put a i s k q) !! i = Some s.
Proof. intros. by apply list_lookup_insert_eq. Qed.

Lemma put_cyc a i s k q : (i < length (acycles a))%nat -> cyc (put a i s k q) i = k.
Proof. intros. unfold cyc. cbn [put acycles]. by rewrite list_lookup_insert_eq. Qed.

Lemma try_emplace_full a p K : rel a p -> aqueue a = [] -> HandlePool.try_emplace C gb K p = Ret Handle.null p.
Proof.
  intros Hr Hq. destruct (rel_free a p Hr) as (_ & _ & Hh & _). unfold HandlePool.try_emplace. mstep.
  rewrite Hh, Hq. cbn [head next_of]. by zbool.
Qed.

(** The constructor runs in the pool where its slot is claimed; then the slot
    holds the object, or is back at the front of the queue. *)
Lemma try_emplace_wp a p K i q (Q : Z -> hpool T -> Prop) (E : hpool T -> Prop) :
  rel a p -> aqueue a = i :: q ->
  (forall p1, rel (claim a i) p1 ->
    wp K (fun v p2 => exists a2, rel a2 p2 /\ astat a2 !! i = Some Building /\
                        forall p3, rel (finish a2 i v) p3 -> Q (handle_of i (cyc a2 i)) p3)
         (fun p2 => exists a2, rel a2 p2 /\ astat a2 !! i = Some Building /\
                        forall p3, rel (unclaim a2 i) p3 -> E p3) p1) ->
  wp (HandlePool.try_emplace C gb K) Q E p.
Proof.
  intros Hr Hq HK. pose proof (rel_free a p Hr) as (_ & _ & Hh & _). rewrite Hq in Hh. cbn [head next_of] in Hh.
  assert (i < Z.to_nat C)%nat as Hi by (apply (head_in_range a p i Hr); by rewrite Hq).
  destruct (claim_step a p i q Hr Hq) as (g & El & Hg & Hr1). specialize (HK _ Hr1). clear Hr1. revert HK.
  unfold HandlePool.try_emplace. intros HK. eapply wp_bind_Ret; [reflexivity|]. rewrite Hh.
  rewrite (proj2 (Z.leb_gt C (Z.of_nat i))) by lia. eapply wp_bind_Ret; [exact El|].
  eapply wp_bind_Ret; [reflexivity|]. eapply wp_bind_Ret; [by apply (generation_at_lookup i g)|].
  eapply wp_bind_Ret; [by apply (set_generation_lookup i g)|]. eapply wp_bind_Ret; [reflexivity|].
  apply wp_bind, wp_guarded, wp_bind. refine (wp_mono _ _ _ _ _ _ HK _ _); clear HK.
  - intros v p2 (a2 & Hr2 & Hs2 & HQ). destruct (finish_step a2 p2 i v Hr2 Hs2) as (p3 & E3 & Hr3 & Eg).
    eapply wp_Ret; [exact E3|]. specialize (HQ p3 Hr3).
    assert (i < length (astat a2))%nat as Hi2 by (by eapply lookup_lt_Some).
    assert (cyc (finish a2 i v) i = cyc a2 i) as Ec.
    { apply put_cyc. rewrite (rel_cycles a2 p2 Hr2), <- (rel_stat a2 p2 Hr2). done. }
    pose proof (generation_after (finish a2 i v) p3 i v Hr3 (put_stat a2 i (Live v) _ _ Hi2)) as E4.
    rewrite Ec in E4. eapply wp_bind_Ret; [exact E4|]. eapply wp_Ret; [reflexivity|].
    unfold HandlePool.index_bits. rewrite Z.mod_small by lia. exact HQ.
  - intros p2 (a2 & Hr2 & Hs2 & HE). destruct (unclaim_step a2 p2 i Hr2 Hs2) as (p3 & E3 & Hr3). eauto.
Qed.

(** The destructor runs in the pool where its object is no longer live; then the
    slot is at the back of the queue. *)
Lemma release_spec a p D i v (Q : hpool T -> Prop) :
  rel a p -> astat a !! i = Some (Live v) ->
  (forall p1, rel (retire a i v) p1 ->
    exists a2 p2, D v p1 = Ret tt p2 /\ rel a2 p2 /\ astat a2 !! i = Some (Dying v) /\
      forall p3, rel (bury a2 i) p3 -> Q p3) ->
  exists p3, HandlePool.release C gb D (Z.of_nat i) p = Ret tt p3 /\ Q p3.
Proof.
  intros Hr Hs HD. destruct (retire_step a p i v Hr Hs) as (g & Hg & Hr1). destruct (HD _ Hr1) as (a2 & p2 & E & Hr2 & Hs2 & HQ).
  assert (i < length (astat a))%nat as Hi by (by eapply lookup_lt_Some).
  destruct (rel_lookup _ _ i (Dying v) Hr1 (put_stat a i (Dying v) _ _ Hi)) as (k1 & c1 & _ & Hc1 & Hok1 & _).
  destruct c1 as [| |v1]; try done. cbn in Hok1. subst v1.
  destruct (bury_step a2 p2 i v Hr2 Hs2) as (p3 & E3 & Hr3). exists p3. split; [|by apply HQ].
  unfold HandlePool.release. rewrite (bind_Ret _ _ _ _ _ (generation_at_lookup i g p Hg)).
  rewrite (bind_Ret _ _ _ _ _ (set_generation_lookup i g _ p Hg)). mstep.
  assert (forall p1, storage_ p1 !! i = Some (Object v) -> HandlePool.object (Z.of_nat i) p1 = Ret v p1) as Hobj
    by (intros p1 E1; unfold HandlePool.object; by rewrite Nat2Z.id, E1).
  rewrite (bind_Ret _ _ _ _ _ (Hobj _ Hc1)). cbv beta. unfold HandlePool.run_destructor at 1. unfold bind at 1. rewrite E. exact E3.
Qed.

(** [destroy] of a handle that names a live object, and of any other. *)
Lemma destroy_spec a p D handle i v (Q : hpool T -> Prop) :
  rel a p -> ~ unfinished a handle -> resolves a handle = Some (i, v) ->
  (forall p1, rel (retire a i v) p1 ->
    exists a2 p2, D v p1 = Ret tt p2 /\ rel a2 p2 /\ astat a2 !! i = Some (Dying v) /\
      forall p3, rel (bury a2 i) p3 -> Q p3) ->
  exists p3, HandlePool.destroy C gb D handle p = Ret true p3 /\ Q p3.
Proof.
  intros Hr Hu Hres HD. assert (astat a !! i = Some (Live v)) as Hs.
  { unfold resolves in Hres. repeat case_match; try done. injection Hres as <- <-. done. }
  destruct (rel_lookup a p i _ Hr Hs) as (_ & _ & _ & _ & _ & _ & Hi).
  destruct (release_spec a p D i v Q Hr Hs HD) as (p3 & E & HQ). exists p3. split; [|done].
  unfold HandlePool.destroy. rewrite (bind_Ret _ _ _ _ _ (live_index_spec a p handle Hr Hu)), Hres. zbool.
  by rewrite (bind_Ret _ _ _ _ _ E).
Qed.

Lemma destroy_stale a p D handle :
  rel a p -> ~ unfinished a handle -> resolves a handle = None -> HandlePool.destroy C gb D handle p = Ret false p.
Proof.
  intros Hr Hu Hres. unfold HandlePool.destroy. rewrite (bind_Ret _ _ _ _ _ (live_index_spec a p handle Hr Hu)), Hres. by zbool.
Qed.
End pool_facts.
