(* ===== verification/HandlePoolClaims.v ===== *)
(** * What handles and the handle pool promise

    The abstract pool as a specification, its sequences of operations, and the
    theorems that [handle_pool] implements it, that a stale handle is detected
    and that constructors and destructors may call back. *)

From Stdlib Require Import ZArith Lia.
From stdpp Require Import base numbers list option tactics.
From S2P Require Import Prelude HandlePool HandlePoolFacts.
Local Open Scope Z_scope.

(** ** Sequences of operations *)

(** [r] is what the constructor yields; [None] means that it throws. *)
Inductive pool_op (T : Type) : Type :=
  | OpTryEmplace (r : option T) | OpEmplace (r : option T)
  | OpRead (handle : Z) | OpContains (handle : Z) | OpDestroy (handle : Z) | OpClear
  | OpSize | OpAvailable | OpEmpty | OpFull | OpGenerationOf (i : nat).
Arguments OpTryEmplace {T} r.
Arguments OpEmplace {T} r.
Arguments OpRead {T} handle.
Arguments OpContains {T} handle.
Arguments OpDestroy {T} handle.
Arguments OpClear {T}.
Arguments OpSize {T}.
Arguments OpAvailable {T}.
Arguments OpEmpty {T}.
Arguments OpFull {T}.
Arguments OpGenerationOf {T} i.

Inductive pool_result (T : Type) : Type :=
  | RHandle (handle : Z) | RThrew | RRead (v : option T) | RBool (b : bool) | RNum (n : Z) | RDone.
Arguments RHandle {T} handle.
Arguments RThrew {T}.
Arguments RRead {T} v.
Arguments RBool {T} b.
Arguments RNum {T} n.
Arguments RDone {T}.

Section operations.
  Context `{SizeT} {T : Type} (C gb : Z) (h : hardening).
  Implicit Types (a : apool T) (p : hpool T).
  Abbreviation MP := (M (hpool T)).

Definition constructing (r : option T) : MP T := match r with Some v => ret v | None => throw end.

(** An emplacement whose caller catches what the constructor throws. *)
Definition caught (m : MP Z) : MP (pool_result T) := fun p =>
  match m p with
  | Ret handle p' => Ret (RHandle handle) p'
  | Throw p' => Ret RThrew p'
  | Trap => Trap | Fault => Fault | Spin => Spin
  end.

(** [*pool.get(handle)], when it is not [nullptr]. *)
Definition read (handle : Z) : MP (option T) :=
  let! r := HandlePool.get_object C gb handle in
  match r with
  | Some i => let! v := HandlePool.object i in ret (Some v)
  | None => ret None
  end.

Definition trivial_destructor (v : T) : MP unit := ret tt.

Definition run_op (op : pool_op T) : MP (pool_result T) :=
  match op with
  | OpTryEmplace r => caught (HandlePool.try_emplace C gb (constructing r))
  | OpEmplace r => caught (HandlePool.emplace C h gb (constructing r))
  | OpRead handle => let! v := read handle in ret (RRead v)
  | OpContains handle => let! b := HandlePool.contains C gb handle in ret (RBool b)
  | OpDestroy handle => let! b := HandlePool.destroy C gb trivial_destructor handle in ret (RBool b)
  | OpClear => HandlePool.clear C gb trivial_destructor ;;; ret RDone
  | OpSize => let! n := HandlePool.size in ret (RNum n)
  | OpAvailable => let! n := HandlePool.available C in ret (RNum n)
  | OpEmpty => let! b := HandlePool.empty in ret (RBool b)
  | OpFull => let! b := HandlePool.full C in ret (RBool b)
  | OpGenerationOf i => let! n := HandlePool.generation_of C h gb (Z.of_nat i) in ret (RNum n)
  end.

Fixpoint run (ops : list (pool_op T)) : MP (list (pool_result T)) :=
  match ops with
  | [] => ret []
  | op :: ops' => let! r := run_op op in let! rs := run ops' in ret (r :: rs)
  end.

(** The specification: freed slots wait in a queue, and a slot's handles are
    told apart by how often it was claimed. *)
Definition occupy a i v q : apool T := put a i (Live v) (cyc a i + 1) q.
Definition vacate a i : apool T := put a i Free (cyc a i) (aqueue a ++ [i]).

Definition spec_emplace a (r : option T) : pool_result T * apool T :=
  match aqueue a, r with
  | [], _ => (RHandle Handle.null, a)
  | i :: q, Some v => (RHandle (handle_of gb i (cyc a i + 1)), occupy a i v q)
  | _ :: _, None => (RThrew, a)
  end.

Definition vacate_live a i : apool T := match astat a !! i with Some (Live _) => vacate a i | _ => a end.

Definition live_count a : Z := occupied (astat a).

Definition spec_op (op : pool_op T) a : option (pool_result T * apool T) :=
  match op with
  | OpTryEmplace r => Some (spec_emplace a r)
  | OpEmplace r =>
      match aqueue a, h with
      | [], (HARDENING_FAST | HARDENING_DEBUG) => None
      | _, _ => Some (spec_emplace a r)
      end
  | OpRead handle => Some (RRead (snd <$> resolves gb a handle), a)
  | OpContains handle => Some (RBool (match resolves gb a handle with Some _ => true | None => false end), a)
  | OpDestroy handle =>
      match resolves gb a handle with
      | Some (i, _) => Some (RBool true, vacate a i)
      | None => Some (RBool false, a)
      end
  | OpClear => Some (RDone, foldl vacate_live a (seq 0 (Z.to_nat C)))
  | OpSize => Some (RNum (live_count a), a)
  | OpAvailable => Some (RNum (C - live_count a), a)
  | OpEmpty => Some (RBool (live_count a =? 0), a)
  | OpFull => Some (RBool (live_count a =? C), a)
  | OpGenerationOf i =>
      match astat a !! i, acycles a !! i with
      | Some (Live _), Some k => Some (RNum ((2 * k - 1) mod 2 ^ gb), a)
      | Some _, Some k => Some (RNum ((2 * k + 1) mod 2 ^ gb), a)
      | _, _ => None
      end
  end.

Fixpoint spec_run (ops : list (pool_op T)) a : option (list (pool_result T) * apool T) :=
  match ops with
  | [] => Some ([], a)
  | op :: ops' =>
      match spec_op op a with
      | Some (r, a') => match spec_run ops' a' with Some (rs, a'') => Some (r :: rs, a'') | None => None end
      | None => None
      end
  end.

Definition afresh : apool T := mk_apool (replicate (Z.to_nat C) Free) (replicate (Z.to_nat C) 0) (seq 0 (Z.to_nat C)).
End operations.

Section simulation.
  Context `{SizeT} {T : Type} (C gb : Z) (h : hardening).
  Context (HC : 0 <= C < 2 ^ 16) (Hgb : 1 <= gb <= 48).
  Implicit Types (a : apool T) (p : hpool T) (i : nat).
  Abbreviation rel := (rel C gb).

(** Between operations no constructor or destructor runs. *)
Definition settled a : Prop := forall i s, astat a !! i = Some s -> s = Free \/ exists v, s = Live v.

Lemma settled_finished a handle : settled a -> ~ unfinished gb a handle.
Proof. intros Hset (k & Hs & _). destruct (Hset _ _ Hs) as [|[v ?]]; done. Qed.

Lemma settled_put a i s k q : settled a -> s = Free \/ (exists v, s = Live v) -> settled (put a i s k q).
Proof.
  intros Hset Hs j s'. cbn [put astat]. rewrite list_lookup_insert_Some. intros [(_ & <- & _)|[_ Hj]]; [done|by apply (Hset j)].
Qed.

Lemma fresh_rel : rel (afresh C : apool T) (HandlePool.fresh C).
Proof.
  assert (forall i, seq 0 (Z.to_nat C) !! i = if decide (i < Z.to_nat C)%nat then Some i else None) as Hseq.
  { intros i. case_decide; [rewrite lookup_seq_lt by lia; f_equal; lia|apply lookup_seq_ge; lia]. }
  split; cbn [afresh astat acycles aqueue HandlePool.fresh generation_ storage_ hsize_].
  - apply length_replicate.
  - apply length_replicate.
  - rewrite zip_with_replicate_l, fmap_replicate by (by rewrite length_replicate). f_equal.
  - apply Forall2_same_length_lookup_2; [by rewrite length_replicate, length_map, length_seq|].
    intros i s c [-> _]%lookup_replicate. rewrite list_lookup_fmap, Hseq. case_decide; [|done]. by intros [= <-].
  - split_and!; cbn [free_head_ free_tail_ storage_ HandlePool.fresh].
    + apply NoDup_seq.
    + intros n i. rewrite !Hseq. case_decide; [|done]. intros [= <-]. rewrite list_lookup_fmap, Hseq.
      rewrite decide_True by done. cbn [fmap option_fmap option_map]. do 2 f_equal. unfold HandlePool.index_bits. rewrite Z.mod_small by lia.
      case_decide; cbn [next_of]; lia.
    + destruct (Z.to_nat C) eqn:E; cbn; lia.
    + intros t Ht. unfold HandlePool.last_slot. rewrite last_lookup, Hseq, length_seq in Ht. case_decide; [|done].
      injection Ht as <-. zbool. lia.
  - intros i. rewrite elem_of_seq, lookup_replicate. split; intros; [split; [done|lia]|lia].
  - clear. unfold occupied. induction (Z.to_nat C) as [|n IH]; [done|exact IH].
Qed.

Lemma fresh_settled : settled (afresh C : apool T).
Proof. intros i s [-> _]%lookup_replicate. by left. Qed.

(** The two halves of an emplacement, and of a destruction, together. *)
Lemma finish_claim a p i q v :
  rel a p -> aqueue a = i :: q -> finish (claim a i) i v = occupy a i v q /\ cyc (claim a i) i = cyc a i + 1.
Proof.
  intros Hr Hq. assert (i < Z.to_nat C)%nat as Hi by (apply (head_in_range C gb a p i Hr); by rewrite Hq).
  assert (cyc (claim a i) i = cyc a i + 1) as Ec by (apply put_cyc; by rewrite (rel_cycles C gb a p Hr)). split; [|done].
  unfold finish. rewrite Ec. unfold occupy, put, claim, put. cbn [astat acycles aqueue]. by rewrite !list_insert_insert_eq, Hq.
Qed.

Lemma unclaim_claim a p i q : rel a p -> aqueue a = i :: q -> unclaim (claim a i) i = a.
Proof.
  intros Hr Hq. assert (astat a !! i = Some Free) as Hs by (apply (rel_queue C gb a p Hr); rewrite Hq; by left).
  destruct (rel_lookup C gb a p i Free Hr Hs) as (k & _ & Hk & _ & _ & _ & Hi).
  assert (cyc (claim a i) i = cyc a i + 1) as Ec by (apply put_cyc; by rewrite (rel_cycles C gb a p Hr)).
  unfold unclaim. rewrite Ec. unfold put, claim, put. cbn [astat acycles aqueue]. rewrite !list_insert_insert_eq, Hq. cbn [tail].
  rewrite (cyc_lookup a i k Hk). replace (k + 1 - 1) with k by lia. rewrite !list_insert_id by done. destruct a. cbn in *. by rewrite Hq.
Qed.

Lemma bury_retire a p i v : rel a p -> astat a !! i = Some (Live v) -> bury (retire a i v) i = vacate a i.
Proof.
  intros Hr Hs. destruct (rel_lookup C gb a p i _ Hr Hs) as (k & _ & Hk & _ & _ & _ & Hi).
  assert (cyc (retire a i v) i = cyc a i) as Ec by (apply put_cyc; by rewrite (rel_cycles C gb a p Hr)).
  unfold bury. rewrite Ec. unfold vacate, put, retire, put. cbn [astat acycles aqueue]. by rewrite !list_insert_insert_eq.
Qed.

(** [try_emplace] with a constructor that only returns or throws. *)
Lemma try_emplace_sim a p r :
  rel a p -> exists p', caught (HandlePool.try_emplace C gb (constructing r)) p = Ret (spec_emplace gb a r).1 p' /\
                        rel (spec_emplace gb a r).2 p'.
Proof.
  intros Hr. unfold caught, spec_emplace. destruct (aqueue a) as [|i q] eqn:Hq.
  { rewrite (try_emplace_full C gb a p) by done. by exists p. }
  assert (wp (HandlePool.try_emplace C gb (constructing r))
    (fun handle p' => exists v, r = Some v /\ handle = handle_of gb i (cyc a i + 1) /\ rel (occupy a i v q) p')
    (fun p' => r = None /\ rel a p') p) as Hok.
  { apply (try_emplace_wp C gb HC Hgb a p _ i q); [done|done|]. intros p1 Hr1.
    assert (i < Z.to_nat C)%nat as Hi by (apply (head_in_range C gb a p i Hr); by rewrite Hq).
    assert (astat (claim a i) !! i = Some Building) as Hb by (apply put_stat; by rewrite (rel_stat C gb a p Hr)).
    destruct r as [v|]; cbn [wp constructing ret throw]; exists (claim a i); (split; [done|]); (split; [done|]); intros p3 Hr3.
    - destruct (finish_claim a p i q v Hr Hq) as [Ef Ec]. rewrite Ef in Hr3. rewrite Ec. by exists v.
    - rewrite (unclaim_claim a p i q Hr Hq) in Hr3. done. }
  unfold wp in Hok. destruct (HandlePool.try_emplace C gb (constructing r) p) as [hd p'|p'| | |]; try done.
  - destruct Hok as (v & -> & -> & Hr'). by exists p'.
  - destruct Hok as [-> Hr']. by exists p'.
Qed.

Lemma vacate_sim a p D i v :
  rel a p -> astat a !! i = Some (Live v) -> (forall v p, D v p = Ret tt p) ->
  exists p', HandlePool.release C gb D (Z.of_nat i) p = Ret tt p' /\ rel (vacate a i) p'.
Proof.
  intros Hr Hs HD. apply (release_spec C gb HC a p D i v); [done|done|]. intros p1 Hr1. exists (retire a i v), p1.
  split; [apply HD|]. split; [done|]. split; [apply put_stat; by eapply lookup_lt_Some|].
  by rewrite (bury_retire a p i v Hr Hs).
Qed.

Lemma resolves_live a handle i v : resolves gb a handle = Some (i, v) -> astat a !! i = Some (Live v).
Proof. unfold resolves. intros Hres. repeat case_match; try done. injection Hres as <- <-. done. Qed.

Lemma destroy_sim a p handle :
  rel a p -> settled a ->
  exists p', HandlePool.destroy C gb trivial_destructor handle p =
    Ret (match resolves gb a handle with Some _ => true | None => false end) p' /\
    rel (match resolves gb a handle with Some (i, _) => vacate a i | None => a end) p'.
Proof.
  intros Hr Hset. pose proof (settled_finished a handle Hset) as Hu. destruct (resolves gb a handle) as [[i v]|] eqn:Hres.
  - apply resolves_live in Hres as Hs. apply (destroy_spec C gb HC Hgb a p _ handle i v); [done|done|done|].
    intros p1 Hr1. exists (retire a i v), p1. split; [done|]. split; [done|].
    split; [apply put_stat; by eapply lookup_lt_Some|]. by rewrite (bury_retire a p i v Hr Hs).
  - exists p. split; [|done]. by apply (destroy_stale C gb Hgb a p).
Qed.

Lemma settled_vacate_live a i : settled a -> settled (vacate_live a i).
Proof.
  intros Hset. unfold vacate_live. destruct (astat a !! i) as [[]|]; try done. apply settled_put; [done|by left].
Qed.

Lemma settled_clear a l : settled a -> settled (foldl vacate_live a l).
Proof. revert a. induction l as [|i l IH]; intros a Hset; [done|]. cbn. by apply IH, settled_vacate_live. Qed.

Lemma clear_sim a p :
  rel a p -> settled a ->
  exists p', HandlePool.clear C gb trivial_destructor p = Ret tt p' /\ rel (foldl vacate_live a (seq 0 (Z.to_nat C))) p'.
Proof.
  intros Hr Hset. unfold HandlePool.clear.
  destruct (for_up_inv (fun k p => rel (foldl vacate_live a (seq 0 (Z.to_nat k))) p) (fun i : Z =>
    let! g := HandlePool.generation_at i in
    if negb (Z.land g 1 =? 0) then HandlePool.release C gb trivial_destructor i else ret tt) (Z.to_nat C) 0 p) as (p' & E & Hr').
  - done.
  - intros k p1 Hk Hr1. rewrite Z2Nat.inj_add, Nat.add_1_r by lia. rewrite seq_S, foldl_app. cbn [foldl plus].
    set (a1 := foldl vacate_live a (seq 0 (Z.to_nat k))) in *. set (i := Z.to_nat k) in *. replace k with (Z.of_nat i) by lia.
    destruct (rel_in_range C gb a1 p1 i Hr1 ltac:(lia)) as (s & Hs).
    destruct (rel_lookup C gb a1 p1 i s Hr1 Hs) as (n & c & _ & _ & _ & Hg & _).
    rewrite (bind_Ret _ _ _ _ _ (generation_at_lookup i _ p1 Hg)), gen_of_parity by lia. unfold vacate_live. rewrite Hs.
    destruct (settled_clear a (seq 0 i) Hset i s Hs) as [->|[v ->]]; cbn [occupies Z.b2z negb Z.eqb]; [by exists p1|].
    by apply (vacate_sim a1 p1 _ i v).
  - exists p'. split; [done|]. by rewrite Z.add_0_l, Nat2Z.id in Hr'.
Qed.

Lemma generation_parity_lor x : Z.lor x 1 = x + 1 - Z.land x 1.
Proof. pose proof (Z.add_lor_land x 1). lia. Qed.

Lemma generation_of_sim a p i s k :
  rel a p -> settled a -> astat a !! i = Some s -> acycles a !! i = Some k ->
  HandlePool.generation_of C h gb (Z.of_nat i) p =
    Ret ((match s with Live _ => 2 * k - 1 | _ => 2 * k + 1 end) mod 2 ^ gb) p.
Proof.
  intros Hr Hset Hs Hk. destruct (rel_lookup C gb a p i s Hr Hs) as (k' & c & Hk' & _ & _ & Hg & Hi).
  rewrite Hk in Hk'. injection Hk' as <-. unfold HandlePool.generation_of. zbool. mstep.
  rewrite (bind_Ret _ _ _ _ _ (generation_at_lookup i _ p Hg)), generation_parity_lor, gen_of_parity by lia.
  unfold ret. f_equal. unfold gen_of. destruct (Hset i s Hs) as [->|[v ->]]; cbn [occupies Z.b2z].
  - rewrite Z.sub_0_r. apply Zplus_mod_idemp_l.
  - replace ((2 * k - 1) mod 2 ^ gb + 1 - 1) with ((2 * k - 1) mod 2 ^ gb) by lia. apply Z.mod_mod.
    pose proof (Z.pow_pos_nonneg 2 gb). lia.
Qed.

Lemma live_count_range a p : rel a p -> 0 <= live_count a <= C.
Proof. intros Hr. unfold live_count. pose proof (occupied_range (astat a)) as Hl. rewrite (rel_stat C gb a p Hr) in Hl. lia. Qed.

Lemma read_sim a p handle :
  rel a p -> settled a ->
  read C gb handle p = Ret (snd <$> resolves gb a handle) p /\
  HandlePool.contains C gb handle p = Ret (match resolves gb a handle with Some _ => true | None => false end) p /\
  HandlePool.get_object C gb handle p = Ret (Z.of_nat ∘ fst <$> resolves gb a handle) p.
Proof.
  intros Hr Hset. pose proof (live_index_spec C gb Hgb a p handle Hr (settled_finished a handle Hset)) as E.
  unfold read, HandlePool.get_object, HandlePool.contains.
  destruct (resolves gb a handle) as [[i v]|] eqn:Hres; cbn [fmap option_fmap option_map snd].
  - apply resolves_live in Hres as Hs. destruct (rel_lookup C gb a p i _ Hr Hs) as (_ & c & _ & Hc & Hok & _ & Hi).
    destruct c as [| |v']; try done. cbn in Hok. subst v'.
    rewrite bind_assoc, !(bind_Ret _ _ _ _ _ E). rewrite (proj2 (Z.ltb_lt (Z.of_nat i) C)) by lia. mstep.
    assert (HandlePool.object (Z.of_nat i) p = Ret v p) as Eo by (unfold HandlePool.object; by rewrite Nat2Z.id, Hc).
    by rewrite (bind_Ret _ _ _ _ _ Eo).
  - rewrite bind_assoc, !(bind_Ret _ _ _ _ _ E). zbool. mstep. done.
Qed.

Lemma handle_of_fields i k :
  (i < Z.to_nat C)%nat ->
  Handle.index 16 (handle_of gb i k) = Z.of_nat i /\ Handle.generation 16 gb (handle_of gb i k) = (2 * k - 1) mod 2 ^ gb /\
  Handle.valid 16 gb (handle_of gb i k) = true.
Proof.
  intros Hi. assert (0 <= (2 * k - 1) mod 2 ^ gb < 2 ^ gb) as Hg by (apply Z.mod_pos_bound, Z.pow_pos_nonneg; lia).
  destruct (issued_fields 16 gb ltac:(lia) ltac:(lia) ltac:(lia) (Z.of_nat i) _ ltac:(lia) Hg) as [Ei Eg].
  unfold handle_of, Handle.valid. rewrite Ei, Eg. split_and!; [done|done|]. apply negb_true_iff, Z.eqb_neq. intros E0.
  pose proof (land_one_mod gb Hgb (2 * k - 1)) as Hpar. rewrite E0 in Hpar.
  replace (2 * k - 1) with (1 + 2 * (k - 1)) in Hpar by lia. by rewrite Z.odd_add_mul_2 in Hpar.
Qed.

Lemma emplace_sim a p r :
  rel a p ->
  match aqueue a, h with
  | [], (HARDENING_FAST | HARDENING_DEBUG) => caught (HandlePool.emplace C h gb (constructing r)) p = Trap
  | _, _ => exists p', caught (HandlePool.emplace C h gb (constructing r)) p = Ret (spec_emplace gb a r).1 p' /\
                       rel (spec_emplace gb a r).2 p'
  end.
Proof.
  intros Hr. destruct (try_emplace_sim a p r Hr) as (p' & E & Hr'). unfold caught in *. unfold HandlePool.emplace.
  destruct (aqueue a) as [|i q] eqn:Hq.
  - rewrite (bind_Ret _ _ _ _ _ (try_emplace_full C gb a p _ Hr Hq)). unfold spec_emplace in *. rewrite Hq in *.
    destruct h; [exists p|done|done]. split; [done|]. by rewrite (try_emplace_full C gb a p _ Hr Hq) in E.
  - assert (i < Z.to_nat C)%nat as Hi by (apply (head_in_range C gb a p i Hr); by rewrite Hq).
    assert (exists p', match (let! handle := HandlePool.try_emplace C gb (constructing r) in
        metl_assert h (Handle.valid HandlePool.index_bits gb handle) ;;; ret handle) p with
        | Ret handle p'0 => Ret (RHandle handle) p'0 | Throw p'0 => Ret RThrew p'0 | Trap => Trap | Fault => Fault | Spin => Spin end
        = Ret (spec_emplace gb a r).1 p' /\ rel (spec_emplace gb a r).2 p') as Hgoal; [|by destruct h].
    exists p'. split; [|done]. unfold spec_emplace in *. rewrite Hq in *. unfold bind.
    destruct (HandlePool.try_emplace C gb (constructing r) p) as [hd p1|p1| | |]; try done.
    destruct r as [v|]; [|done]. injection E as -> ->. unfold HandlePool.index_bits.
    rewrite (proj2 (proj2 (handle_of_fields i (cyc a i + 1) Hi))), metl_assert_true. done.
Qed.

Lemma op_sim a p op :
  rel a p -> settled a ->
  match spec_op C gb h op a with
  | Some (r, a') => exists p', run_op C gb h op p = Ret r p' /\ rel a' p' /\ settled a'
  | None => h <> HARDENING_NONE -> run_op C gb h op p = Trap
  end.
Proof.
  intros Hr Hset. pose proof (live_count_range a p Hr) as Hcount. pose proof size_modulus_min as Hsize.
  assert (forall r, settled (spec_emplace gb a r).2) as Hse.
  { intros r. unfold spec_emplace. destruct (aqueue a), r; try done. apply settled_put; [done|right; eauto]. }
  assert (hsize_ p = live_count a) as Esize by apply (rel_size C gb a p Hr).
  destruct op as [r|r|hd|hd|hd| | | | | |i]; cbn [spec_op run_op].
  - destruct (try_emplace_sim a p r Hr) as (p' & E & Hr'). rewrite (surjective_pairing (spec_emplace gb a r)). eauto.
  - pose proof (emplace_sim a p r Hr) as E.
    destruct (aqueue a) as [|i q] eqn:Hq, h; try done; destruct E as (p' & E & Hr');
      rewrite (surjective_pairing (spec_emplace gb a r)); eauto.
  - rewrite (bind_Ret _ _ _ _ _ (proj1 (read_sim a p hd Hr Hset))). eauto.
  - rewrite (bind_Ret _ _ _ _ _ (proj1 (proj2 (read_sim a p hd Hr Hset)))). eauto.
  - destruct (destroy_sim a p hd Hr Hset) as (p' & E & Hr'). rewrite (bind_Ret _ _ _ _ _ E).
    destruct (resolves gb a hd) as [[i v]|]; exists p'; (split; [done|]); (split; [done|]); [|done].
    apply settled_put; [done|by left].
  - destruct (clear_sim a p Hr Hset) as (p' & E & Hr'). rewrite (bind_Ret _ _ _ _ _ E). exists p'.
    split; [done|]. split; [done|by apply settled_clear].
  - exists p. unfold HandlePool.size. mstep. rewrite Esize. done.
  - exists p. unfold HandlePool.available. mstep. rewrite Esize. zbool. done.
  - exists p. unfold HandlePool.empty. mstep. rewrite Esize. done.
  - exists p. unfold HandlePool.full. mstep. rewrite Esize. done.
  - destruct (astat a !! i) as [s|] eqn:Hs.
    + destruct (rel_lookup C gb a p i s Hr Hs) as (k & _ & Hk & _). rewrite Hk.
      rewrite (bind_Ret _ _ _ _ _ (generation_of_sim a p i s k Hr Hset Hs Hk)). destruct s; eauto.
    + intros Hh. apply lookup_ge_None_1 in Hs. rewrite (rel_stat C gb a p Hr) in Hs.
      unfold HandlePool.generation_of. zbool. unfold bind. by rewrite metl_assert_false.
Qed.

Lemma run_sim a p ops :
  rel a p -> settled a ->
  match spec_run C gb h ops a with
  | Some (rs, a') => exists p', run C gb h ops p = Ret rs p' /\ rel a' p' /\ settled a'
  | None => h <> HARDENING_NONE -> run C gb h ops p = Trap
  end.
Proof.
  revert a p. induction ops as [|op ops IH]; intros a p Hr Hset; cbn [spec_run run]; [by exists p|].
  pose proof (op_sim a p op Hr Hset) as Hop. destruct (spec_op C gb h op a) as [[r a1]|].
  2: { intros Hh. by rewrite (bind_Trap _ _ _ (Hop Hh)). }
  destruct Hop as (p1 & E1 & Hr1 & Hset1). rewrite (bind_Ret _ _ _ _ _ E1). specialize (IH a1 p1 Hr1 Hset1).
  destruct (spec_run C gb h ops a1) as [[rs a2]|].
  - destruct IH as (p2 & E2 & Hr2 & Hset2). exists p2. by rewrite (bind_Ret _ _ _ _ _ E2).
  - intros Hh. by rewrite (bind_Trap _ _ _ (IH Hh)).
Qed.
End simulation.

(** ** One handle over time *)

Section identity.
  Context `{SizeT} {T : Type} (C gb : Z) (h : hardening).
  Context (HC : 0 <= C < 2 ^ 16) (Hgb : 1 <= gb <= 48).
  Implicit Types (a : apool T) (p : hpool T) (i : nat) (k : Z).
  Abbreviation rel := (rel C gb).

(** Two handles with the same fields. *)
Definition same_handle (x y : Z) : Prop :=
  Handle.index 16 x = Handle.index 16 y /\ Handle.generation 16 gb x = Handle.generation 16 gb y.

(** [op] ends the object that [handle] names, if it names one. *)
Definition ends (handle : Z) (op : pool_op T) : Prop :=
  match op with
  | OpClear => True
  | OpDestroy handle' => same_handle handle' handle
  | _ => False
  end.

(** A result that hands out the slot [i] again. *)
Definition hands_out i (r : pool_result T) : bool :=
  match r with
  | RHandle handle => Handle.valid 16 gb handle && (Handle.index 16 handle =? Z.of_nat i)
  | _ => false
  end.
Definition handed_out i (rs : list (pool_result T)) : Z := Z.of_nat (length (List.filter (hands_out i) rs)).

(** The slot [i] after [n] more claims than [k], and not live before the first. *)
Definition gone i k n a : Prop := acycles a !! i = Some (k + n) /\ (n = 0 -> astat a !! i = Some Free).
Definition alive i k v a : Prop := acycles a !! i = Some k /\ astat a !! i = Some (Live v).

Lemma put_other a i j s k q :
  i <> j -> astat (put a j s k q) !! i = astat a !! i /\ acycles (put a j s k q) !! i = acycles a !! i.
Proof. intros Hne. cbn [put astat acycles]. by rewrite !list_lookup_insert_ne by congruence. Qed.

(** What vacating a slot does to the slot [i]. *)
Lemma vacate_gone a p i j k n :
  rel a p -> gone i k n a -> astat a !! j <> None -> 0 <= n -> gone i k n (vacate a j).
Proof.
  intros Hr [Hc Hs] Hj Hn. destruct (decide (i = j)) as [<-|Hne].
  - apply lookup_lt_Some in Hc as Hlt. assert (i < length (astat a))%nat by (by rewrite (rel_stat C gb a p Hr), <- (rel_cycles C gb a p Hr)).
    unfold gone, vacate. rewrite (cyc_lookup a i _ Hc). cbn [put astat acycles]. by rewrite !list_lookup_insert_eq.
  - destruct (put_other a i j Free (cyc a j) (aqueue a ++ [j]) Hne) as [E1 E2]. unfold gone, vacate. by rewrite E1, E2.
Qed.

Lemma vacate_alive a p i j k v : rel a p -> alive i k v a -> i <> j -> alive i k v (vacate a j).
Proof.
  intros Hr [Hc Hs] Hne. destruct (put_other a i j Free (cyc a j) (aqueue a ++ [j]) Hne) as [E1 E2].
  unfold alive, vacate. by rewrite E1, E2.
Qed.

Lemma alive_vacated a p i k v : rel a p -> alive i k v a -> gone i k 0 (vacate a i).
Proof.
  intros Hr [Hc Hs]. apply lookup_lt_Some in Hc as Hlt. apply lookup_lt_Some in Hs as Hlt'.
  unfold gone, vacate. rewrite (cyc_lookup a i _ Hc). cbn [put astat acycles].
  by rewrite !list_lookup_insert_eq, Z.add_0_r.
Qed.

(** The clearing loop, up to a slot. *)
Lemma clear_rel a p n :
  rel a p -> settled a -> (n <= Z.to_nat C)%nat -> exists p', rel (foldl vacate_live a (seq 0 n)) p' /\ settled (foldl vacate_live a (seq 0 n)).
Proof.
  intros Hr Hset Hn. induction n as [|n IH]; [by exists p|]. destruct IH as (p1 & Hr1 & Hset1); [lia|].
  rewrite seq_S, foldl_app. cbn [foldl plus]. set (a1 := foldl vacate_live a (seq 0 n)) in *.
  pose proof (settled_vacate_live a1 n Hset1) as Hset2. unfold vacate_live in *. destruct (astat a1 !! n) as [[| |v|]|] eqn:Hs; eauto.
  destruct (vacate_sim C gb HC a1 p1 (fun _ => ret tt) n v Hr1 Hs) as (p2 & _ & Hr2); [done|]. eauto.
Qed.

Lemma clear_gone a p i k n m :
  rel a p -> settled a -> gone i k n a -> 0 <= n -> (m <= Z.to_nat C)%nat -> gone i k n (foldl vacate_live a (seq 0 m)).
Proof.
  intros Hr Hset Hg Hn Hm. induction m as [|m IH]; [done|]. rewrite seq_S, foldl_app. cbn [foldl plus].
  destruct (clear_rel a p m Hr Hset ltac:(lia)) as (p1 & Hr1 & _). specialize (IH ltac:(lia)). unfold vacate_live at 1.
  destruct (astat (foldl vacate_live a (seq 0 m)) !! m) as [[| |v|]|] eqn:Hs; try done.
  apply (vacate_gone _ p1); [done|done|by rewrite Hs|done].
Qed.

Lemma clear_alive a p i k v m :
  rel a p -> settled a -> alive i k v a -> (m <= Z.to_nat C)%nat ->
  let a' := foldl vacate_live a (seq 0 m) in if decide (i < m)%nat then gone i k 0 a' else alive i k v a'.
Proof.
  intros Hr Hset Ha Hm. induction m as [|m IH]; [by rewrite decide_False by lia|]. specialize (IH ltac:(lia)). cbv zeta in *.
  rewrite seq_S, foldl_app. cbn [foldl plus]. destruct (clear_rel a p m Hr Hset ltac:(lia)) as (p1 & Hr1 & _).
  set (a1 := foldl vacate_live a (seq 0 m)) in *. unfold vacate_live at 1 2.
  destruct (Nat.lt_trichotomy i m) as [Hlt|[->|Hgt]].
  - rewrite decide_True in IH by lia. rewrite decide_True by lia. destruct (astat a1 !! m) as [[| |v'|]|] eqn:Hs; try done.
    apply (vacate_gone _ p1); [done|done|by rewrite Hs|done].
  - rewrite decide_False in IH by lia. rewrite decide_True by lia. rewrite (proj2 IH). by apply (alive_vacated _ p1 _ _ v).
  - rewrite decide_False in IH by lia. rewrite decide_False by lia. destruct (astat a1 !! m) as [[| |v'|]|] eqn:Hs; try done.
    apply (vacate_alive _ p1); [done|done|lia].
Qed.

(** An emplacement: one more claim of the slot it hands out. *)
Lemma emplace_gone a p i k n r :
  rel a p -> gone i k n a -> 0 <= n ->
  gone i k (n + Z.b2z (hands_out i (spec_emplace gb a r).1)) (spec_emplace gb a r).2.
Proof.
  intros Hr Hg Hn. unfold spec_emplace. destruct (aqueue a) as [|j q] eqn:Hq; cbn [fst snd hands_out].
  { cbn. by rewrite Z.add_0_r. }
  destruct r as [v|]; cbn [fst snd hands_out Z.b2z]; [|by rewrite Z.add_0_r].
  assert (j < Z.to_nat C)%nat as Hj by (apply (head_in_range C gb a p j Hr); by rewrite Hq).
  destruct (handle_of_fields C gb HC Hgb j (cyc a j + 1) Hj) as (-> & _ & ->). cbn [andb].
  destruct (decide (i = j)) as [<-|Hne].
  - rewrite Z.eqb_refl. cbn [Z.b2z]. unfold gone, occupy. rewrite (cyc_lookup a i _ (proj1 Hg)). cbn [put astat acycles].
    rewrite !list_lookup_insert_eq by (rewrite ?(rel_cycles C gb a p Hr), ?(rel_stat C gb a p Hr); done).
    split; [f_equal; lia|lia].
  - rewrite (proj2 (Z.eqb_neq (Z.of_nat j) (Z.of_nat i))) by lia. cbn [Z.b2z]. rewrite Z.add_0_r.
    destruct (put_other a i j (Live v) (cyc a j + 1) q Hne) as [E1 E2]. unfold gone, occupy. by rewrite E1, E2.
Qed.

Lemma emplace_alive a p i k v r :
  rel a p -> alive i k v a -> alive i k v (spec_emplace gb a r).2 /\ hands_out i (spec_emplace gb a r).1 = false.
Proof.
  intros Hr Ha. unfold spec_emplace. destruct (aqueue a) as [|j q] eqn:Hq; cbn [fst snd hands_out]; [done|].
  destruct r as [v'|]; cbn [fst snd hands_out]; [|done].
  assert (j < Z.to_nat C)%nat as Hj by (apply (head_in_range C gb a p j Hr); by rewrite Hq).
  destruct (handle_of_fields C gb HC Hgb j (cyc a j + 1) Hj) as (-> & _ & ->). cbn [andb].
  assert (i <> j) as Hne.
  { intros ->. assert (astat a !! j = Some Free) as Hs by (apply (rel_queue C gb a p Hr); rewrite Hq; by left).
    destruct Ha as [_ Ha]. congruence. }
  destruct (put_other a i j (Live v') (cyc a j + 1) q Hne) as [E1 E2]. unfold alive, occupy. rewrite E1, E2.
  split; [done|]. apply Z.eqb_neq. lia.
Qed.

Lemma handle_of_resolves a i k v : (i < Z.to_nat C)%nat -> alive i k v a -> resolves gb a (handle_of gb i k) = Some (i, v).
Proof.
  intros Hi [Hc Hs]. unfold resolves. destruct (handle_of_fields C gb HC Hgb i k Hi) as (-> & -> & _).
  by rewrite Nat2Z.id, Hs, Hc, Z.eqb_refl.
Qed.

(** Generations repeat after [2 ^ (gb - 1)] claims. *)
Lemma handle_of_gone a i k n :
  (i < Z.to_nat C)%nat -> gone i k n a -> 0 <= n < 2 ^ (gb - 1) -> resolves gb a (handle_of gb i k) = None.
Proof.
  intros Hi [Hc Hs] Hn. unfold resolves. destruct (handle_of_fields C gb HC Hgb i k Hi) as (-> & -> & _).
  rewrite Nat2Z.id, Hc. destruct (astat a !! i) as [[| |v|]|] eqn:Es; try done.
  destruct (Z.eqb_spec ((2 * k - 1) mod 2 ^ gb) ((2 * (k + n) - 1) mod 2 ^ gb)) as [E|]; [|done]. exfalso.
  assert (n <> 0) as Hn0 by (intros ->; specialize (Hs eq_refl); done).
  assert (2 ^ gb = 2 * 2 ^ (gb - 1)) as Ep by (rewrite <- Z.pow_succ_r by lia; f_equal; lia).
  assert ((2 * n) mod 2 ^ gb = 0) as E0.
  { replace (2 * n) with ((2 * (k + n) - 1) - (2 * k - 1)) by lia. rewrite Zminus_mod, E, Z.sub_diag. apply Z.mod_0_l. lia. }
  rewrite Z.mod_small in E0; lia.
Qed.

Lemma same_handle_resolves a x y : same_handle x y -> resolves gb a x = resolves gb a y.
Proof. intros [Ei Eg]. unfold resolves. by rewrite Ei, Eg. Qed.

Lemma resolves_slot a handle i v : resolves gb a handle = Some (i, v) -> exists k,
  Handle.index 16 handle = Z.of_nat i /\ Handle.generation 16 gb handle = (2 * k - 1) mod 2 ^ gb /\ alive i k v a.
Proof.
  unfold resolves. intros Hres. pose proof (handle_index_range handle). repeat case_match; try done. injection Hres as <- <-.
  eexists. split; [lia|]. split; [by apply Z.eqb_eq|done].
Qed.

(** One operation, from a pool where the handle's slot is gone and where it is live. *)
Lemma op_gone a p i k n op r a' :
  rel a p -> settled a -> gone i k n a -> 0 <= n -> spec_op C gb h op a = Some (r, a') ->
  gone i k (n + Z.b2z (hands_out i r)) a'.
Proof.
  intros Hr Hset Hg Hn. destruct op as [c|c|hd|hd|hd| | | | | |j]; cbn [spec_op].
  1: { intros [= E]. pose proof (emplace_gone a p i k n c Hr Hg Hn) as He. by rewrite E in He. }
  1: { intros E. pose proof (emplace_gone a p i k n c Hr Hg Hn) as He. destruct (aqueue a), h; try done; injection E as E; by rewrite E in He. }
  3: { destruct (resolves gb a hd) as [[j v]|] eqn:Hres; intros [= <- <-]; cbn; rewrite Z.add_0_r; [|done].
       apply (vacate_gone a p); [done|done| |done]. by rewrite (resolves_live gb a hd j v Hres). }
  3: { intros [= <- <-]. cbn. rewrite Z.add_0_r. by apply (clear_gone a p). }
  all: try (intros [= <- <-]; cbn; by rewrite Z.add_0_r).
  destruct (astat a !! j) as [[]|], (acycles a !! j); try done; intros [= <- <-]; cbn; by rewrite Z.add_0_r.
Qed.

Lemma op_alive a p i k v op r a' :
  rel a p -> settled a -> alive i k v a -> spec_op C gb h op a = Some (r, a') ->
  hands_out i r = false /\
  ((ends (handle_of gb i k) op -> gone i k 0 a') /\ (~ ends (handle_of gb i k) op -> alive i k v a')).
Proof.
  intros Hr Hset Ha. assert (i < Z.to_nat C)%nat as Hi by (rewrite <- (rel_stat C gb a p Hr); by eapply lookup_lt_Some, Ha).
  destruct op as [c|c|hd|hd|hd| | | | | |j]; cbn [spec_op ends].
  1: { intros [= E]. destruct (emplace_alive a p i k v c Hr Ha) as [He1 He2]. by rewrite E in He1, He2. }
  1: { intros E. destruct (emplace_alive a p i k v c Hr Ha) as [He1 He2].
       destruct (aqueue a), h; try done; injection E as E; by rewrite E in He1, He2. }
  3: { destruct (resolves gb a hd) as [[j w]|] eqn:Hres; intros [= <- <-]; (split; [done|]); split; intros He.
       - rewrite (same_handle_resolves a _ _ He), (handle_of_resolves a i k v Hi Ha) in Hres. injection Hres as <- _.
         by apply (alive_vacated a p i k v).
       - destruct (resolves_slot a hd j w Hres) as (k' & Ei & Eg & Hc' & Hs'). apply (vacate_alive a p); [done|done|].
         intros <-. destruct He. destruct (handle_of_fields C gb HC Hgb i k Hi) as (Ei' & Eg' & _).
         split; [by rewrite Ei, Ei'|]. destruct Ha as [Hc _]. rewrite Hc in Hc'. injection Hc' as <-. by rewrite Eg, Eg'.
       - by rewrite (same_handle_resolves a _ _ He), (handle_of_resolves a i k v Hi Ha) in Hres.
       - done. }
  3: { intros [= <- <-]. split; [done|]. split; [intros _|tauto].
       pose proof (clear_alive a p i k v (Z.to_nat C) Hr Hset Ha ltac:(done)) as Hcl. cbv zeta in Hcl.
       by rewrite decide_True in Hcl by done. }
  all: try (intros [= <- <-]; done).
  destruct (astat a !! j) as [[]|], (acycles a !! j); try done; intros [= <- <-]; done.
Qed.

Lemma handed_out_cons i r rs : handed_out i (r :: rs) = Z.b2z (hands_out i r) + handed_out i rs.
Proof. unfold handed_out. cbn [List.filter]. destruct (hands_out i r); cbn [length Z.b2z]; lia. Qed.

Lemma handed_out_nonneg i rs : 0 <= handed_out i rs.
Proof. unfold handed_out. lia. Qed.

Lemma spec_run_cons op ops a rs a' :
  spec_run C gb h (op :: ops) a = Some (rs, a') ->
  exists r a1 rs1, spec_op C gb h op a = Some (r, a1) /\ spec_run C gb h ops a1 = Some (rs1, a') /\ rs = r :: rs1.
Proof.
  cbn [spec_run]. destruct (spec_op C gb h op a) as [[r a1]|]; [|done]. destruct (spec_run C gb h ops a1) as [[rs1 a2]|] eqn:E; [|done].
  intros [= <- <-]. eauto 6.
Qed.

Lemma run_gone a p i k n ops rs a' :
  rel a p -> settled a -> gone i k n a -> 0 <= n -> spec_run C gb h ops a = Some (rs, a') ->
  gone i k (n + handed_out i rs) a'.
Proof.
  revert a p n rs. induction ops as [|op ops IH]; intros a p n rs Hr Hset Hg Hn.
  { intros [= <- <-]. by rewrite Z.add_0_r. }
  intros (r & a1 & rs1 & Eop & Erun & ->)%spec_run_cons. pose proof (op_sim C gb h HC Hgb a p op Hr Hset) as Hop.
  rewrite Eop in Hop. destruct Hop as (p1 & _ & Hr1 & Hset1). rewrite handed_out_cons, Z.add_assoc.
  apply (IH a1 p1); [done|done|by apply (op_gone a p i k n op r a1)| |done]. destruct (hands_out i r); cbn; lia.
Qed.

Lemma run_alive a p i k v ops rs a' :
  rel a p -> settled a -> alive i k v a -> spec_run C gb h ops a = Some (rs, a') ->
  (Forall (fun op => ~ ends (handle_of gb i k) op) ops -> alive i k v a') /\
  (Exists (ends (handle_of gb i k)) ops -> gone i k (handed_out i rs) a').
Proof.
  revert a p rs. induction ops as [|op ops IH]; intros a p rs Hr Hset Ha.
  { intros [= <- <-]. split; [done|]. intros He. by inversion He. }
  intros (r & a1 & rs1 & Eop & Erun & ->)%spec_run_cons. pose proof (op_sim C gb h HC Hgb a p op Hr Hset) as Hop.
  rewrite Eop in Hop. destruct Hop as (p1 & _ & Hr1 & Hset1).
  destruct (op_alive a p i k v op r a1 Hr Hset Ha Eop) as (Hno & Hend & Hkeep). split.
  - intros [Hne Hall]%list.Forall_cons. by apply (IH a1 p1 rs1); [done|done|apply Hkeep|done|].
  - intros He. rewrite handed_out_cons, Hno. cbn [Z.b2z]. 
    assert (ends (handle_of gb i k) op \/ ~ ends (handle_of gb i k) op) as [Hop|Hop].
    { destruct op as [| | | |hd| | | | | |]; cbn [ends]; try tauto. unfold same_handle.
      destruct (decide (Handle.index 16 hd = Handle.index 16 (handle_of gb i k))),
        (decide (Handle.generation 16 gb hd = Handle.generation 16 gb (handle_of gb i k))); tauto. }
    + by apply (run_gone a1 p1 i k 0 ops rs1); [done|done|apply Hend| |].
    + apply List.Exists_cons in He as [He|He]; [done|]. by apply (IH a1 p1 rs1); [done|done|apply Hkeep|done|].
Qed.
End identity.

(** ** Calling back *)

Section callbacks.
  Context `{SizeT} {T : Type} (C gb : Z) (HC : 0 <= C < 2 ^ 16) (Hgb : 1 <= gb <= 48).
  Implicit Types (a : apool T) (p : hpool T) (i : nat).
  Abbreviation rel := (rel C gb).
  Abbreviation MP := (M (hpool T)).

(** The slots whose constructor or destructor is running stay as they are. *)
Definition keeps a a' : Prop := forall i s,
  astat a !! i = Some s -> s = Building \/ (exists v, s = Dying v) ->
  astat a' !! i = Some s /\ acycles a' !! i = acycles a !! i.

Definition well_kept a p' : Prop := exists a', rel a' p' /\ keeps a a'.

(** Code that, in any state of a pool, ends with the pool in order. *)
Definition behaves {A} (m : MP A) : Prop := forall a p, rel a p -> wp m (fun _ => well_kept a) (well_kept a) p.
Definition behaves_nothrow {A} (m : MP A) : Prop := forall a p, rel a p -> wp m (fun _ => well_kept a) (fun _ => False) p.

Lemma keeps_refl a : keeps a a.
Proof. by intros i s Hs _. Qed.

Lemma keeps_trans a b c : keeps a b -> keeps b c -> keeps a c.
Proof. intros Hab Hbc i s Hs Hb. destruct (Hab i s Hs Hb) as [Hs' E]. destruct (Hbc i s Hs' Hb) as [? E']. split; [done|congruence]. Qed.

Lemma keeps_put a i s k q : (forall s0, astat a !! i = Some s0 -> s0 = Free \/ exists v, s0 = Live v) -> keeps a (put a i s k q).
Proof.
  intros Hi j s' Hs Hb. assert (j <> i) as Hne.
  { intros ->. destruct (Hi s' Hs) as [->|[v ->]]; destruct Hb as [?|[w ?]]; done. }
  destruct (put_other a j i s k q Hne) as [E1 E2]. by rewrite E1, E2.
Qed.

(** The slot that is claimed for a while. *)
Lemma keeps_around a a1 a2 i s k q s0 :
  astat a !! i = Some s0 -> (s0 = Free \/ exists v, s0 = Live v) ->
  keeps a a1 -> keeps a1 a2 -> keeps a (put a2 i s k q).
Proof.
  intros Hi H0 H1 H2 j s' Hs Hb. assert (j <> i) as Hne.
  { intros ->. rewrite Hi in Hs. injection Hs as <-. destruct H0 as [->|[v ->]]; destruct Hb as [?|[w ?]]; done. }
  destruct (put_other a2 j i s k q Hne) as [E1 E2]. rewrite E1, E2. exact (keeps_trans _ _ _ H1 H2 j s' Hs Hb).
Qed.

Lemma try_emplace_behaves K : behaves K -> behaves (HandlePool.try_emplace C gb K).
Proof.
  intros HK a p Hr. destruct (aqueue a) as [|i q] eqn:Hq.
  { eapply wp_Ret; [by apply (try_emplace_full C gb a p)|]. exists a. split; [done|apply keeps_refl]. }
  assert (astat a !! i = Some Free) as Hs by (apply (rel_queue C gb a p Hr); rewrite Hq; by left).
  assert (i < length (astat a))%nat as Hi by (by eapply lookup_lt_Some).
  apply (try_emplace_wp C gb HC Hgb a p K i q); [done|done|]. intros p1 Hr1.
  assert (keeps a (claim a i)) as Hk1 by (apply keeps_put; intros s0 Hs0; left; congruence).
  assert (astat (claim a i) !! i = Some Building) as Hb1 by (by apply put_stat).
  refine (wp_mono _ _ _ _ _ _ (HK _ _ Hr1) _ _); cbn; [intros v|]; intros p2 (a2 & Hr2 & Hk2); exists a2;
    (split; [done|]); (split; [by apply (Hk2 i Building Hb1); left|]); intros p3 Hr3;
    (eexists; split; [exact Hr3|]); apply (keeps_around a (claim a i) a2 i _ _ _ Free); (done || by left).
Qed.

Lemma destroy_behaves D handle a p :
  (forall v, behaves_nothrow (D v)) -> rel a p -> ~ unfinished gb a handle ->
  wp (HandlePool.destroy C gb D handle) (fun _ => well_kept a) (fun _ => False) p.
Proof.
  intros HD Hr Hu. destruct (resolves gb a handle) as [[i v]|] eqn:Hres.
  2: { eapply wp_Ret; [by apply (destroy_stale C gb Hgb a p)|]. exists a. split; [done|apply keeps_refl]. }
  apply resolves_live in Hres as Hs. assert (i < length (astat a))%nat as Hi by (by eapply lookup_lt_Some).
  destruct (destroy_spec C gb HC Hgb a p D handle i v (well_kept a) Hr Hu Hres) as (p3 & E & HQ); [|by eapply wp_Ret].
  intros p1 Hr1. assert (keeps a (retire a i v)) as Hk1 by (apply keeps_put; intros s0 Hs0; right; exists v; congruence).
  assert (astat (retire a i v) !! i = Some (Dying v)) as Hd1 by (by apply put_stat).
  destruct (wp_no_throw _ _ _ _ (HD v _ _ Hr1) ltac:(tauto)) as ([] & p2 & E2 & a2 & Hr2 & Hk2). exists a2, p2.
  split; [done|]. split; [done|]. split; [apply (Hk2 i _ Hd1); right; eauto|]. intros p3 Hr3.
  eexists. split; [exact Hr3|]. apply (keeps_around a (retire a i v) a2 i _ _ _ (Live v)); eauto.
Qed.

(** Code is put together from code that keeps the pool in order. *)
Lemma ret_behaves {A} (x : A) : behaves (ret x) /\ behaves_nothrow (ret x).
Proof. split; intros a p Hr; exists a; (split; [done|apply keeps_refl]). Qed.

Lemma bind_behaves {A B} (m : MP A) (k : A -> MP B) : behaves m -> (forall x, behaves (k x)) -> behaves (bind m k).
Proof.
  intros Hm Hk a p Hr. apply wp_bind. refine (wp_mono _ _ _ _ _ _ (Hm a p Hr) _ (fun _ HE => HE)). cbn.
  intros x p1 (a1 & Hr1 & Hk1). refine (wp_mono _ _ _ _ _ _ (Hk x a1 p1 Hr1) _ _); cbn; [intros y|]; intros p2 (a2 & Hr2 & Hk2);
    exists a2; (split; [done|by apply (keeps_trans a a1)]).
Qed.

(** While its destructor runs, a handle is already stale. *)
Lemma retired_stale a p handle i v :
  rel a p -> resolves gb a handle = Some (i, v) ->
  resolves gb (retire a i v) handle = None /\ ~ unfinished gb (retire a i v) handle.
Proof.
  intros Hr Hres. destruct (resolves_slot gb Hgb a handle i v Hres) as (k & Ei & Eg & Hc & Hs).
  assert (astat (retire a i v) !! i = Some (Dying v)) as Hd by (apply put_stat; by eapply lookup_lt_Some).
  split; [unfold resolves|intros (k' & Hb & _)]; [rewrite Ei, Nat2Z.id, Hd; done|].
  rewrite Ei, Nat2Z.id, Hd in Hb. done.
Qed.
End callbacks.

(** ** The properties *)

Lemma packed_order P i g i' g' :
  0 <= i < P -> 0 <= i' < P ->
  (i + g * P = i' + g' * P <-> g = g' /\ i = i') /\ (i + g * P < i' + g' * P <-> g < g' \/ (g = g' /\ i < i')).
Proof.
  intros Hi Hi'. destruct (Z.lt_trichotomy g g') as [Hlt|[->|Hgt]]; [|lia|].
  - assert ((g + 1) * P <= g' * P) by (apply Z.mul_le_mono_nonneg_r; lia). lia.
  - assert ((g' + 1) * P <= g * P) by (apply Z.mul_le_mono_nonneg_r; lia). lia.
Qed.

(** A handle is its two fields: for every width of the index and the
    generation that fits in 64 bits, packing then reading gives the fields back,
    generation 0 makes the one null handle, rebuilding from the packed word gives
    the handle back and ignores bits outside the fields, and two handles are
    equal, or ordered, as their generations and then their indices are. *)
Theorem handle_round_trip ib gb i g k i' g' :
  1 <= ib -> 1 <= gb -> ib + gb <= 64 -> 0 <= i < 2 ^ ib -> 0 <= g < 2 ^ gb -> 0 <= k ->
  0 <= i' < 2 ^ ib -> 0 <= g' < 2 ^ gb ->
  let x := Handle.make ib gb i g in
  let y := Handle.make ib gb i' g' in
  Handle.generation ib gb x = g /\ Handle.index ib x = (if g =? 0 then 0 else i) /\
  Handle.valid ib gb x = negb (g =? 0) /\ (g = 0 -> x = Handle.null) /\
  (g <> 0 -> Handle.issued ib gb i g = x) /\
  Handle.from_packed ib gb (Handle.packed x) = x /\
  Handle.from_packed ib gb (i + g * 2 ^ ib + k * 2 ^ (ib + gb)) = x /\
  (Handle.equal x y = true <-> g = g' /\ (g = 0 \/ i = i')) /\
  (g <> 0 -> g' <> 0 -> Handle.less x y = true <-> g < g' \/ (g = g' /\ i < i')).
Proof.
  intros Hib Hgb Hs Hi Hg Hk Hi' Hg' x y.
  pose proof (make_eq ib gb Hib Hgb Hs i g Hi Hg) as Ex. fold x in Ex.
  pose proof (make_eq ib gb Hib Hgb Hs i' g' Hi' Hg') as Ey. fold y in Ey.
  assert (Handle.index ib 0 = 0 /\ Handle.generation ib gb 0 = 0) as [Ei0 Eg0].
  { destruct (fields_of ib gb Hib Hgb 0 0) as [E1 E2]; [lia|lia|]. by rewrite Z.mul_0_l, Z.add_0_l in E1, E2. }
  destruct (fields_of ib gb Hib Hgb i g Hi Hg) as [Ei Eg].
  pose proof (from_packed_junk ib gb Hib Hgb Hs i g k Hi Hg Hk) as Ejunk.
  assert (0 < 2 ^ ib) by (apply Z.pow_pos_nonneg; lia).
  refine (conj _ (conj _ (conj _ (conj _ (conj _ (conj _ (conj Ejunk (conj _ _)))))))).
  - rewrite Ex. destruct (Z.eqb_spec g 0) as [->|]; done.
  - rewrite Ex. destruct (Z.eqb_spec g 0) as [->|]; done.
  - unfold Handle.valid. rewrite Ex. destruct (Z.eqb_spec g 0) as [->|]; [by rewrite Eg0|]. rewrite Eg. by zbool.
  - intros Hg0. rewrite Ex. by zbool.
  - intros Hne. rewrite Ex. zbool. unfold Handle.issued. by apply pack_eq.
  - unfold Handle.packed. destruct (decide (g = 0)) as [E0|Hne].
    + rewrite Ex, (proj2 (Z.eqb_eq g 0) E0).
      pose proof (from_packed_junk ib gb Hib Hgb Hs 0 0 0 ltac:(lia) ltac:(lia) ltac:(lia)) as E.
      rewrite make_eq in E by lia. by rewrite !Z.mul_0_l in E.
    + pose proof (from_packed_junk ib gb Hib Hgb Hs i g 0 Hi Hg ltac:(lia)) as E. rewrite Z.mul_0_l, Z.add_0_r in E.
      fold x in E. rewrite <- E at 2. f_equal. rewrite Ex. by zbool.
  - unfold Handle.equal. rewrite Z.eqb_eq, Ex, Ey. destruct (packed_order (2 ^ ib) i g i' g' Hi Hi') as [Heq _].
    destruct (Z.eqb_spec g 0) as [->|], (Z.eqb_spec g' 0) as [->|]; [tauto|split; nia|split; nia|rewrite Heq; lia].
  - intros Hne Hne'. unfold Handle.less. rewrite Z.ltb_lt, Ex, Ey. zbool. apply packed_order; done.
Qed.

Section claims.
  Context `{SizeT} {T : Type} (C gb : Z) (h : hardening).

(** C7. [handle_pool] implements a queue of free slots: any sequence of its
    operations on a fresh pool - with constructors that return or throw - gives
    the results of the specification, in which a freed slot is reused only after
    those freed before it, a throwing constructor changes nothing, and a handle
    names the live object of a slot claimed as often as the handle says, up to
    the width of the generation; where the specification stops (an asserting
    [emplace] on a full pool, a slot number past the end) the pool traps when
    assertions are on; and no operation uses a slot's bytes as what they are
    not. *)
Theorem handle_pool_refines (ops : list (pool_op T)) :
  0 <= C < 2 ^ 16 -> 1 <= gb <= 48 ->
  match spec_run C gb h ops (afresh C) with
  | Some (rs, a) => exists p, run C gb h ops (HandlePool.fresh C) = Ret rs p /\ rel C gb a p
  | None => h <> HARDENING_NONE -> run C gb h ops (HandlePool.fresh C) = Trap
  end.
Proof.
  intros HC Hgb. pose proof (run_sim C gb h HC Hgb (afresh C) (HandlePool.fresh C) ops (fresh_rel C gb HC) (fresh_settled C)) as Hs.
  destruct (spec_run C gb h ops (afresh C)) as [[rs a]|]; [|done]. destruct Hs as (p & E & Hr & _). eauto.
Qed.

(** C26. A handle names its own object and nothing else: after any operations,
    the handle that a successful [try_emplace] returned still resolves to that
    object as long as neither [clear] nor [destroy] of that handle ran; and once
    one of them did, it is reported stale by [get], [contains] and [destroy] for
    as long as its slot has been handed out fewer than [2^(gb-1)] times since -
    whatever else the pool was used for. *)
Theorem stale_handles_detected (before after : list (pool_op T)) v rs1 p1 handle p2 rs2 p3 :
  0 <= C < 2 ^ 16 -> 1 <= gb <= 48 ->
  run C gb h before (HandlePool.fresh C) = Ret rs1 p1 ->
  HandlePool.try_emplace C gb (ret v) p1 = Ret handle p2 -> handle <> Handle.null ->
  run C gb h after p2 = Ret rs2 p3 -> h <> HARDENING_NONE ->
  (Forall (fun op => ~ ends gb handle op) after ->
     read C gb handle p3 = Ret (Some v) p3 /\ HandlePool.contains C gb handle p3 = Ret true p3) /\
  (Exists (ends gb handle) after -> handed_out gb (Z.to_nat (Handle.index 16 handle)) rs2 < 2 ^ (gb - 1) ->
     HandlePool.get_object C gb handle p3 = Ret None p3 /\ HandlePool.contains C gb handle p3 = Ret false p3 /\
     HandlePool.destroy C gb trivial_destructor handle p3 = Ret false p3).
Proof.
  intros HC Hgb E1 Eh Hnull E2 Hh.
  pose proof (run_sim C gb h HC Hgb (afresh C) (HandlePool.fresh C) before (fresh_rel C gb HC) (fresh_settled C)) as H1.
  rewrite E1 in H1. destruct (spec_run C gb h before (afresh C)) as [[rs1' a1]|]; [|by specialize (H1 Hh)].
  destruct H1 as (p1' & [= <- <-] & Hr1 & Hset1).
  pose proof (op_sim C gb h HC Hgb a1 p1 (OpTryEmplace (Some v)) Hr1 Hset1) as Hop. cbn [spec_op run_op constructing] in Hop.
  unfold caught in Hop. rewrite Eh in Hop. unfold spec_emplace in Hop. destruct (aqueue a1) as [|i q] eqn:Hq.
  { destruct Hop as (p' & [= E _] & _). done. }
  destruct Hop as (p' & [= -> <-] & Hr2 & Hset2).
  assert (i < Z.to_nat C)%nat as Hi by (apply (head_in_range C gb a1 p1 i Hr1); by rewrite Hq).
  set (k := cyc a1 i + 1) in *. assert (alive i k v (occupy a1 i v q)) as Ha.
  { split; [apply list_lookup_insert_eq; by rewrite (rel_cycles C gb a1 p1 Hr1)|apply put_stat; by rewrite (rel_stat C gb a1 p1 Hr1)]. }
  pose proof (run_sim C gb h HC Hgb (occupy a1 i v q) p2 after Hr2 Hset2) as H2. rewrite E2 in H2.
  destruct (spec_run C gb h after (occupy a1 i v q)) as [[rs2' a3]|] eqn:Es; [|by specialize (H2 Hh)].
  destruct H2 as (p3' & [= <- <-] & Hr3 & Hset3).
  destruct (run_alive C gb h HC Hgb _ p2 i k v after rs2 a3 Hr2 Hset2 Ha Es) as [Hkeep Hgone].
  destruct (handle_of_fields C gb HC Hgb i k Hi) as (Eidx & _ & _). rewrite Eidx, Nat2Z.id.
  destruct (read_sim C gb Hgb a3 p3 (handle_of gb i k) Hr3 Hset3) as (Er & Ec & Eg). split.
  - intros Hall. rewrite Er, Ec, (handle_of_resolves C gb HC Hgb a3 i k v Hi (Hkeep Hall)). done.
  - intros Hex Hlt.
    pose proof (handle_of_gone C gb HC Hgb a3 i k _ Hi (Hgone Hex) (conj (handed_out_nonneg gb i rs2) Hlt)) as Hres.
    rewrite Eg, Ec, Hres. split; [done|]. split; [done|].
    by apply (destroy_stale C gb Hgb a3 p3); [|apply settled_finished|].
Qed.

(** Constructors and destructors may call the pool.  If a constructor keeps
    the pool in order - whatever it emplaces or destroys, returning or throwing -
    then so does [try_emplace] of it, so that such calls nest to any depth; if
    destructors do, so does [destroy] of a handle that does not name a slot still
    under construction; the slots of the constructors and destructors that are
    running are left alone; and in the destructor of its object a handle is
    already stale, so that destroying it again there reports [false]. *)
Theorem handle_pool_reentrancy (K : M (hpool T) T) (D : T -> M (hpool T) unit) :
  0 <= C < 2 ^ 16 -> 1 <= gb <= 48 -> behaves C gb K -> (forall v, behaves_nothrow C gb (D v)) ->
  behaves C gb (HandlePool.try_emplace C gb K) /\
  (forall a p handle, rel C gb a p -> ~ unfinished gb a handle ->
     wp (HandlePool.destroy C gb D handle) (fun _ => well_kept C gb a) (fun _ => False) p) /\
  (forall a p handle i v p', rel C gb a p -> resolves gb a handle = Some (i, v) -> rel C gb (retire a i v) p' ->
     HandlePool.destroy C gb D handle p' = Ret false p').
Proof.
  intros HC Hgb HK HD. split; [by apply try_emplace_behaves|]. split.
  - intros a p handle Hr Hu. by apply destroy_behaves.
  - intros a p handle i v p' Hr Hres Hr'. destruct (retired_stale C gb Hgb a p handle i v Hr Hres) as [Hn Hu].
    by apply (destroy_stale C gb Hgb (retire a i v) p').
Qed.
End claims.

Lemma handle_round_trip_witness :
  Handle.index 16 (Handle.make 16 16 5 3) = 5 /\ Handle.from_packed 16 8 (5 + 3 * 2 ^ 16 + 9 * 2 ^ (16 + 8)) = Handle.make 16 8 5 3.
Proof.
  destruct (handle_round_trip 16 16 5 3 0 5 3) as (_ & E & _); [lia|lia|lia|lia|lia|lia|lia|lia|].
  destruct (handle_round_trip 16 8 5 3 9 5 3) as (_ & _ & _ & _ & _ & _ & E' & _); [lia|lia|lia|lia|lia|lia|lia|lia|].
  by split.
Defined.

Section witnesses.
  #[local] Existing Instance size_t_32.

(** Two slots: the one freed first is reused first, and its old handle is stale. *)
Lemma handle_pool_refines_witness :
  exists rs p, run 2 8 HARDENING_FAST
    [OpTryEmplace (Some 7); OpTryEmplace (Some 8); OpDestroy 65536; OpTryEmplace None; OpEmplace (Some 9); OpRead 65536; OpRead 196608; OpSize]
    (HandlePool.fresh 2) = Ret rs p /\
  rs = [RHandle 65536; RHandle 65537; RBool true; RThrew; RHandle 196608; RRead None; RRead (Some 9); RNum 2].
Proof.
  pose proof (handle_pool_refines 2 8 HARDENING_FAST
    [OpTryEmplace (Some 7); OpTryEmplace (Some 8); OpDestroy 65536; OpTryEmplace None; OpEmplace (Some 9); OpRead 65536; OpRead 196608; OpSize]
    ltac:(lia) ltac:(lia)) as Hrun.
  destruct (spec_run _ _ _ _ _) as [[rs a]|] eqn:E; [|vm_compute in E; done].
  destruct Hrun as (p & Er & _). exists rs, p. split; [done|]. vm_compute in E. by injection E as <- _.
Defined.

Lemma stale_handles_detected_witness :
  exists p2 rs p3, HandlePool.try_emplace 2 8 (ret 7) (HandlePool.fresh 2) = Ret 65536 p2 /\
    run 2 8 HARDENING_FAST [OpDestroy 65536; OpTryEmplace (Some 8); OpTryEmplace (Some 9)] p2 = Ret rs p3 /\
    HandlePool.get_object 2 8 65536 p3 = Ret None p3.
Proof.
  set (ops := [OpDestroy 65536; OpTryEmplace (Some 8); OpTryEmplace (Some 9)]).
  set (p2 := mk_hpool [Object 7; Link 2] [1; 0] 1 1 1). set (p3 := mk_hpool [Object 9; Object 8] [3; 1] 2 0 2).
  set (rs := [RBool true; RHandle 65537; RHandle 196608] : list (pool_result Z)). exists p2, rs, p3.
  assert (HandlePool.try_emplace 2 8 (ret 7) (HandlePool.fresh 2) = Ret 65536 p2) as E1 by (vm_compute; reflexivity).
  assert (run 2 8 HARDENING_FAST ops p2 = Ret rs p3) as E2 by (vm_compute; reflexivity).
  split; [exact E1|]. split; [exact E2|].
  destruct (stale_handles_detected 2 8 HARDENING_FAST [] ops 7 [] (HandlePool.fresh 2) 65536 p2 rs p3
    ltac:(lia) ltac:(lia) eq_refl E1 ltac:(done) E2 ltac:(done)) as [_ Hstale].
  apply Hstale; [apply List.Exists_cons_hd; split; reflexivity|vm_compute; reflexivity].
Defined.

(** A constructor that emplaces another object. *)
Lemma handle_pool_reentrancy_witness :
  behaves 4 8 (HandlePool.try_emplace 4 8 (HandlePool.try_emplace 4 8 (ret 1) ;;; ret 2)) /\
  exists p, HandlePool.try_emplace 4 8 (HandlePool.try_emplace 4 8 (ret 1) ;;; ret 2) (HandlePool.fresh 4) = Ret 65536 p /\
    storage_ p = [Object 2; Object 1; Link 3; Link 4].
Proof.
  pose proof (bind_behaves 4 8 _ _ (try_emplace_behaves 4 8 ltac:(lia) ltac:(lia) _ (proj1 (ret_behaves 4 8 1)))
    (fun _ => proj1 (ret_behaves 4 8 2))) as Hnest.
  split.
  { exact (proj1 (handle_pool_reentrancy 4 8 _ (fun _ => ret tt) ltac:(lia) ltac:(lia) Hnest (fun _ => proj2 (ret_behaves 4 8 tt)))). }
  eexists. split; [vm_compute; reflexivity|done].
Defined.
End witnesses.
