(* ===== verification/ObjectPool.v ===== *)
(** * [object_pool]

    [include/metl/object_pool.hpp]: the pool whose objects are named by address.
    The bytes of a slot are a [cell], as in [HandlePool]; the slots start at the
    address [base] and are [slot_size] bytes apart.

    A constructor is a computation on the pool that yields the object or throws, a
    destructor one that yields nothing.  [code] is client code, whose constructors may
    call the pool, and [interp] runs it against anything that has the operations of a
    pool. *)

From Stdlib Require Import ZArith Lia.
From stdpp Require Import base numbers list option tactics.
From S2P Require Import Prelude Bits HandlePool.
Local Open Scope Z_scope.

Module ObjectPool.
Record opool (T : Type) : Type := mk_opool {
  storage_ : list (cell T);
  live_ : list Z;            (** the words of [detail::bitset] *)
  free_head_ : Z;
  unused_ : Z;
  size_ : Z
}.
Arguments mk_opool {T}.
Arguments storage_ {T}.
Arguments live_ {T}.
Arguments free_head_ {T}.
Arguments unused_ {T}.
Arguments size_ {T}.

Section object_pool.
  Context `{SizeT} {T : Type} (C : Z) (h : hardening) (base slot_size : Z).
  Implicit Types (p : opool T).
  Abbreviation MP := (M (opool T)).

(** The number of slots in the array, and of bits. *)
Definition slots : Z := if C =? 0 then 1 else C.

(** The width of [link_type]. *)
Definition link_bits : Z := if C <=? 255 then 8 else if C <=? 65535 then 16 else 32.

Definition set_storage x p : opool T := mk_opool x (live_ p) (free_head_ p) (unused_ p) (size_ p).
Definition set_live x p : opool T := mk_opool (storage_ p) x (free_head_ p) (unused_ p) (size_ p).
Definition set_free_head x p : opool T := mk_opool (storage_ p) (live_ p) x (unused_ p) (size_ p).
Definition set_unused x p : opool T := mk_opool (storage_ p) (live_ p) (free_head_ p) x (size_ p).
Definition set_size x p : opool T := mk_opool (storage_ p) (live_ p) (free_head_ p) (unused_ p) x.

Definition on_live {A} (m : M (list Z) A) : MP A := fun p =>
  match m (live_ p) with
  | Ret a ws => Ret a (set_live ws p)
  | Throw ws => Throw (set_live ws p)
  | Trap => Trap
  | Fault => Fault
  | Spin => Spin
  end.

Definition fresh : opool T := mk_opool (replicate (Z.to_nat slots) Raw) (Bitset.fresh slots) 0 0 0.

(** The bytes of a slot, as a link and as an object. *)
Definition link (i : Z) : MP Z := fun p =>
  match storage_ p !! Z.to_nat i with Some (Link n) => Ret n p | _ => Fault end.
Definition set_link (i next : Z) : MP unit := fun p =>
  match storage_ p !! Z.to_nat i with
  | Some (Raw | Link _) => Ret tt (set_storage (<[Z.to_nat i := Link next]> (storage_ p)) p)
  | _ => Fault
  end.
Definition construct (i : Z) (v : T) : MP unit := fun p =>
  match storage_ p !! Z.to_nat i with
  | Some (Raw | Link _) => Ret tt (set_storage (<[Z.to_nat i := Object v]> (storage_ p)) p)
  | _ => Fault
  end.
Definition object (i : Z) : MP T := fun p =>
  match storage_ p !! Z.to_nat i with Some (Object v) => Ret v p | _ => Fault end.
Definition end_lifetime (i : Z) : MP unit := fun p =>
  match storage_ p !! Z.to_nat i with
  | Some (Object _) => Ret tt (set_storage (<[Z.to_nat i := Raw]> (storage_ p)) p)
  | _ => Fault
  end.

Definition push_free (i : Z) : MP unit :=
  let! head := get free_head_ in
  set_link i head ;;;
  modify (set_free_head ((i + 1) mod 2 ^ link_bits)).

Definition slot_ptr (i : Z) : Z := base + i * slot_size.
Definition nullptr : Z := 0.

Definition index_of (ptr : Z) : Z :=
  let offset := wrap (ptr - base) in
  if wrap (slot_size * C) <=? offset then C
  else if negb (offset mod slot_size =? 0) then C
  else offset / slot_size.

(** [~release_on_unwind()] of a claim that was not dismissed. *)
Definition release_on_unwind (i : Z) : MP unit :=
  on_live (Bitset.reset slots i) ;;;
  modify (fun p => set_size (wrap (size_ p - 1)) p) ;;;
  push_free i.

Definition try_emplace (constructor : MP T) : MP Z :=
  let! head := get free_head_ in
  let! unused := get unused_ in
  let! claim := (if negb (head =? 0) then
                   let! next := link (head - 1) in modify (set_free_head next) ;;; ret (Some (head - 1))
                 else if unused <? C then
                   modify (set_unused ((unused + 1) mod 2 ^ link_bits)) ;;; ret (Some unused)
                 else ret None) in
  match claim with
  | None => ret nullptr
  | Some i =>
      on_live (Bitset.set slots i) ;;;
      modify (fun p => set_size (wrap (size_ p + 1)) p) ;;;
      guarded (let! v := constructor in construct i v) (release_on_unwind i) ;;;
      ret (slot_ptr i)
  end.

Definition emplace (constructor : MP T) : MP Z :=
  let! ptr := try_emplace constructor in
  metl_assert h (negb (ptr =? nullptr)) ;;; ret ptr.

(** [~T()]: an exception that leaves it ends the program. *)
Definition run_destructor (destructor : T -> MP unit) (v : T) : MP unit := fun p =>
  match destructor v p with
  | Throw _ => Trap
  | o => o
  end.

Definition end_life (destructor : T -> MP unit) (i : Z) : MP unit :=
  on_live (Bitset.reset slots i) ;;;
  modify (fun p => set_size (wrap (size_ p - 1)) p) ;;;
  let! v := object i in
  run_destructor destructor v ;;;
  end_lifetime i ;;;
  push_free i.

Definition live_slot (ptr : Z) : MP (option Z) :=
  let i := index_of ptr in
  if i <? C then let! b := on_live (Bitset.test slots i) in ret (if b then Some i else None) else ret None.

Definition destroy (destructor : T -> MP unit) (ptr : Z) : MP bool :=
  let! live := live_slot ptr in
  match live with
  | Some i => end_life destructor i ;;; ret true
  | None => ret false
  end.

Definition contains (ptr : Z) : MP bool :=
  let! live := live_slot ptr in ret (match live with Some _ => true | None => false end).

Definition clear (destructor : T -> MP unit) : MP unit :=
  for_up (Z.to_nat C) 0 (fun i =>
    let! b := on_live (Bitset.test slots i) in
    if b then end_life destructor i else ret tt).

Definition empty : MP bool := get (fun p => size_ p =? 0).
Definition full : MP bool := get (fun p => size_ p =? C).
Definition size : MP Z := get size_.
Definition available : MP Z := get (fun p => wrap (C - size_ p)).
End object_pool.
End ObjectPool.

(** ** Client code

    What constructors, destructors and the rest of a program do with a pool: they
    call it, throw, and catch what a part of them throws. *)

Inductive code (T : Type) : Type -> Type :=
  | Done {A} (x : A) : code T A
  | Raise {A} : code T A
  | TryEmplace {A} (constructor : code T T) (k : Z -> code T A) : code T A
  | Emplace {A} (constructor : code T T) (k : Z -> code T A) : code T A
  | Destroy {A} (ptr : Z) (k : bool -> code T A) : code T A
  | Contains {A} (ptr : Z) (k : bool -> code T A) : code T A
  | Clear {A} (k : code T A) : code T A
  | Observe {A} (k : Z -> Z -> bool -> bool -> code T A) : code T A   (** size, available, empty, full *)
  | Catch {A} (body : code T Z) (k : option Z -> code T A) : code T A.
Arguments Done {T A} x.
Arguments Raise {T A}.
Arguments TryEmplace {T A} constructor k.
Arguments Emplace {T A} constructor k.
Arguments Destroy {T A} ptr k.
Arguments Contains {T A} ptr k.
Arguments Clear {T A} k.
Arguments Observe {T A} k.
Arguments Catch {T A} body k.

(** What the code needs of a pool with states [S]. *)
Class Pool (S T : Type) : Type := {
  pool_try_emplace : M S T -> M S Z;
  pool_emplace : M S T -> M S Z;
  pool_destroy : (T -> M S unit) -> Z -> M S bool;
  pool_contains : Z -> M S bool;
  pool_clear : (T -> M S unit) -> M S unit;
  pool_observe : M S (Z * Z * bool * bool)
}.

Definition caught_code {S A} (m : M S A) : M S (option A) := fun s =>
  match m s with
  | Ret x s' => Ret (Some x) s'
  | Throw s' => Ret None s'
  | Trap => Trap
  | Fault => Fault
  | Spin => Spin
  end.

Section interp.
  Context {S T : Type} `{!Pool S T} (destructor : T -> M S unit).

Fixpoint interp {A} (c : code T A) : M S A :=
  match c with
  | Done x => ret x
  | Raise => throw
  | TryEmplace constructor k => let! ptr := pool_try_emplace (interp constructor) in interp (k ptr)
  | Emplace constructor k => let! ptr := pool_emplace (interp constructor) in interp (k ptr)
  | Destroy ptr k => let! b := pool_destroy destructor ptr in interp (k b)
  | Contains ptr k => let! b := pool_contains ptr in interp (k b)
  | Clear k => pool_clear destructor ;;; interp k
  | Observe k => let! o := pool_observe in interp (k o.1.1.1 o.1.1.2 o.1.2 o.2)
  | Catch body k => let! r := caught_code (interp body) in interp (k r)
  end.
End interp.

(** Destructors are code too, and may end other objects: [fuel] bounds how deep. *)
Fixpoint destructing {S T} `{!Pool S T} (D : T -> code T unit) (fuel : nat) (v : T) : M S unit :=
  match fuel with
  | O => fun _ => Spin
  | Datatypes.S fuel' => interp (destructing D fuel') (D v)
  end.
Definition running {S T} `{!Pool S T} (D : T -> code T unit) (fuel : nat) {A} (c : code T A) : M S A :=
  interp (destructing D fuel) c.

Section instance.
  Context `{SizeT} {T : Type} (C : Z) (h : hardening) (base slot_size : Z).
Definition object_pool_pool : Pool (ObjectPool.opool T) T := {|
  pool_try_emplace := ObjectPool.try_emplace C base slot_size;
  pool_emplace := ObjectPool.emplace C h base slot_size;
  pool_destroy := ObjectPool.destroy C base slot_size;
  pool_contains := ObjectPool.contains C base slot_size;
  pool_clear := ObjectPool.clear C;
  pool_observe := let! n := ObjectPool.size in let! m := ObjectPool.available C in
                  let! e := ObjectPool.empty in let! f := ObjectPool.full C in ret (n, m, e, f)
|}.
End instance.
