(* ===== verification/ObjectPoolFacts.v ===== *)
(** * The abstract pool of objects, and that [object_pool] is one

    An abstract pool knows what each slot is for, which slots were freed, the last one
    first, and how many were ever used.  Its operations are computations too, so that
    client code can run against either pool; each operation of [object_pool] does what
    the abstract one does, as long as the constructors and destructors that it calls
    do. *)

From Stdlib Require Import ZArith Lia.
From stdpp Require Import base numbers list option tactics.
From S2P Require Import Prelude Bits BitsFacts HandlePool HandlePoolFacts ObjectPool.
Local Open Scope Z_scope.

Record aop (T : Type) : Type := mk_aop {
  ostat : list (status T);
  ofree : list nat;
  ounused : nat
}.
Arguments mk_aop {T}.
Arguments ostat {T}.
Arguments ofree {T}.
Arguments ounused {T}.

(** ** The abstract operations *)

Module PoolSpec.
Section spec.
  Context `{SizeT} {T : Type} (C : Z) (h : hardening) (base slot_size : Z).
  Abbreviation MA := (M (aop T)).

Definition fresh : aop T := mk_aop (replicate (Z.to_nat C) Free) [] 0.

Definition put (i : nat) (s : status T) : MA unit :=
  modify (fun a => mk_aop (<[i := s]> (ostat a)) (ofree a) (ounused a)).
Definition push (i : nat) : MA unit :=
  modify (fun a => mk_aop (<[i := Free]> (ostat a)) (i :: ofree a) (ounused a)).

(** The slot freed last, else the lowest one never used. *)
Definition claim : MA (option nat) := fun a =>
  match ofree a with
  | i :: q => Ret (Some i) (mk_aop (<[i := Building]> (ostat a)) q (ounused a))
  | [] =>
      if (ounused a <? Z.to_nat C)%nat
      then Ret (Some (ounused a)) (mk_aop (<[ounused a := Building]> (ostat a)) [] (S (ounused a)))
      else Ret None a
  end.

Definition address (i : nat) : Z := base + Z.of_nat i * slot_size.
Definition slot_of (ptr : Z) : option nat :=
  let d := wrap ptr - base in
  if (base <=? wrap ptr) && (d mod slot_size =? 0) && (d / slot_size <? C) then Some (Z.to_nat (d / slot_size)) else None.

Definition try_emplace (constructor : MA T) : MA Z :=
  let! i := claim in
  match i with
  | None => ret 0
  | Some i => guarded (let! v := constructor in put i (Live v)) (push i) ;;; ret (address i)
  end.
Definition emplace (constructor : MA T) : MA Z :=
  let! ptr := try_emplace constructor in
  if ptr =? 0 then metl_assert h false ;;; ret 0 else ret ptr.

Definition noexcept (m : MA unit) : MA unit := fun a => match m a with Throw _ => Trap | o => o end.

(** Ending the object in the slot [i], if there is one; one that is still being
    constructed cannot be ended. *)
Definition end_slot (destructor : T -> MA unit) (i : nat) : MA bool :=
  let! st := get ostat in
  match st !! i with
  | Some (Live v) => put i (Dying v) ;;; noexcept (destructor v) ;;; push i ;;; ret true
  | Some Building => fault
  | _ => ret false
  end.
Definition destroy (destructor : T -> MA unit) (ptr : Z) : MA bool :=
  match slot_of ptr with Some i => end_slot destructor i | None => ret false end.
Definition contains (ptr : Z) : MA bool :=
  let! st := get ostat in
  ret (match slot_of ptr with Some i => match st !! i with Some s => occupies s | None => false end | None => false end).
Definition clear (destructor : T -> MA unit) : MA unit :=
  for_up (Z.to_nat C) 0 (fun i => end_slot destructor (Z.to_nat i) ;;; ret tt).

Definition observe : MA (Z * Z * bool * bool) :=
  let! st := get ostat in
  let n := occupied st in ret (n, C - n, n =? 0, n =? C).

Definition pool : Pool (aop T) T := {|
  pool_try_emplace := try_emplace;
  pool_emplace := emplace;
  pool_destroy := destroy;
  pool_contains := contains;
  pool_clear := clear;
  pool_observe := observe
|}.
End spec.
End PoolSpec.

(** ** The relation *)

Section relation.
  Context `{SizeT} {T : Type} (C : Z) (h : hardening) (base slot_size : Z).
  Context (HC : 0 <= C < 2 ^ 32) (HM : C + 31 < 2 ^ size_bits).
  Context (Hbase : 0 < base) (Hslot : 0 < slot_size) (Hend : base + slot_size * C <= 2 ^ size_bits).
  Implicit Types (a : aop T) (p : ObjectPool.opool T) (s : status T) (i j : nat) (q : list nat) (st : list (cell T)).
  Abbreviation nC := (Z.to_nat C).
  Abbreviation N := (ObjectPool.slots C).

Definition cell_fits s (c : cell T) : Prop :=
  match s, c with
  | (Free | Building), (Raw | Link _) => True
  | (Live v | Dying v), Object v' => v' = v
  | _, _ => False
  end.

(** The freed slots, linked through their bytes. *)
Fixpoint chain q st (head : Z) : Prop :=
  match q with
  | [] => head = 0
  | i :: q' => head = Z.of_nat i + 1 /\ exists next, st !! i = Some (Link next) /\ chain q' st next
  end.

Definition is_live (stat : list (status T)) (i : Z) : bool :=
  match stat !! Z.to_nat i with Some s => occupies s | None => false end.

Record rel a p : Prop := {
  rel_len : length (ostat a) = nC;
  rel_storage : length (ObjectPool.storage_ p) = Z.to_nat N;
  rel_cells : forall i s, ostat a !! i = Some s -> exists c, ObjectPool.storage_ p !! i = Some c /\ cell_fits s c;
  rel_live : holds N (ObjectPool.live_ p) (is_live (ostat a));
  rel_chain : chain (ofree a) (ObjectPool.storage_ p) (ObjectPool.free_head_ p);
  rel_nodup : NoDup (ofree a);
  rel_below : forall i, i ∈ ofree a -> (i < ounused a)%nat;
  rel_unused : ObjectPool.unused_ p = Z.of_nat (ounused a) /\ (ounused a <= nC)%nat;
  rel_free : forall i, ostat a !! i = Some Free <-> i ∈ ofree a \/ (ounused a <= i < nC)%nat;
  rel_size : ObjectPool.size_ p = occupied (ostat a)
}.

Lemma slots_bounds : 1 <= N /\ C <= N /\ N + 31 < 2 ^ size_bits.
Proof.
  pose proof size_bits_min. assert (2 ^ 16 <= 2 ^ size_bits) by (apply Z.pow_le_mono_r; lia).
  unfold ObjectPool.slots. destruct (Z.eqb_spec C 0); lia.
Qed.

Lemma holds_ext ws f g : (forall x, 0 <= x < N -> f x = g x) -> holds N ws f -> holds N ws g.
Proof.
  intros He. unfold holds. apply words_of_ext. intros x _. unfold inside.
  destruct (Z.leb_spec 0 x), (Z.ltb_spec x N); cbn; try done. by apply He.
Qed.

Lemma chain_frame q st st' head : (forall i, i ∈ q -> st' !! i = st !! i) -> chain q st head -> chain q st' head.
Proof.
  revert head. induction q as [|i q IH]; intros head Hst; cbn; [done|]. intros (-> & next & Hl & Hc).
  split; [done|]. exists next. rewrite Hst by (by left). split; [done|]. apply IH; [|done]. intros j Hj. apply Hst. by right.
Qed.

Lemma link_bits_enough : C < 2 ^ ObjectPool.link_bits C.
Proof. unfold ObjectPool.link_bits. destruct (Z.leb_spec C 255), (Z.leb_spec C 65535); lia. Qed.

(** The slot [i] changes from [s] to [s']. *)
Lemma rel_put a p i s s' q' u' p' :
  rel a p -> ostat a !! i = Some s ->
  length (ObjectPool.storage_ p') = length (ObjectPool.storage_ p) ->
  (forall j, j <> i -> ObjectPool.storage_ p' !! j = ObjectPool.storage_ p !! j) ->
  (exists c, ObjectPool.storage_ p' !! i = Some c /\ cell_fits s' c) ->
  holds N (ObjectPool.live_ p') (update (is_live (ostat a)) (Z.of_nat i) (occupies s')) ->
  ObjectPool.size_ p' = ObjectPool.size_ p - Z.b2z (occupies s) + Z.b2z (occupies s') ->
  ObjectPool.unused_ p' = Z.of_nat u' -> (u' <= nC)%nat ->
  chain q' (ObjectPool.storage_ p') (ObjectPool.free_head_ p') -> NoDup q' -> (forall j, j ∈ q' -> (j < u')%nat) ->
  (forall j, <[i := s']> (ostat a) !! j = Some Free <-> j ∈ q' \/ (u' <= j < nC)%nat) ->
  rel (mk_aop (<[i := s']> (ostat a)) q' u') p'.
Proof.
  intros [] Hs Hlen Hst Hcell Hlive Hsz Hu Hle Hch Hnd Hb Hf. assert (i < length (ostat a))%nat as Hi by (by eapply lookup_lt_Some).
  split; cbn [ostat ofree ounused]; try done.
  - by rewrite length_insert.
  - congruence.
  - intros j s0 Hj. apply list_lookup_insert_Some in Hj as [(<- & <- & _)|[Hne Hj]]; [done|]. rewrite Hst by done. by apply rel_cells0.
  - revert Hlive. apply holds_ext. intros j Hj. unfold update, is_live. destruct (Z.eqb_spec j (Z.of_nat i)) as [->|Hne].
    + by rewrite Nat2Z.id, list_lookup_insert_eq.
    + by rewrite list_lookup_insert_ne by lia.
  - rewrite Hsz, rel_size0. by rewrite (occupied_insert _ i s).
Qed.

(** *** The bits *)

Lemma live_set p f i :
  holds N (ObjectPool.live_ p) f -> (i < nC)%nat ->
  exists ws, ObjectPool.on_live (Bitset.set N (Z.of_nat i)) p = Ret tt (ObjectPool.set_live ws p) /\ holds N ws (update f (Z.of_nat i) true).
Proof.
  intros Hf Hi. pose proof slots_bounds as (H1 & H2 & H3). pose proof (set_spec N H1 H3 _ f (Z.of_nat i) Hf ltac:(lia)) as Hs.
  rewrite (proj2 (Z.ltb_lt _ _)) in Hs by lia. destruct Hs as (ws & E & Hw). exists ws. split; [|done]. unfold ObjectPool.on_live. by rewrite E.
Qed.
Lemma live_reset p f i :
  holds N (ObjectPool.live_ p) f -> (i < nC)%nat ->
  exists ws, ObjectPool.on_live (Bitset.reset N (Z.of_nat i)) p = Ret tt (ObjectPool.set_live ws p) /\ holds N ws (update f (Z.of_nat i) false).
Proof.
  intros Hf Hi. pose proof slots_bounds as (H1 & H2 & H3). pose proof (reset_spec N H1 H3 _ f (Z.of_nat i) Hf ltac:(lia)) as Hs.
  rewrite (proj2 (Z.ltb_lt _ _)) in Hs by lia. destruct Hs as (ws & E & Hw). exists ws. split; [|done]. unfold ObjectPool.on_live. by rewrite E.
Qed.
Lemma live_test a p i :
  rel a p -> (i < nC)%nat ->
  ObjectPool.on_live (Bitset.test N (Z.of_nat i)) p = Ret (is_live (ostat a) (Z.of_nat i)) p.
Proof.
  intros [] Hi. pose proof slots_bounds as (H1 & H2 & H3). unfold ObjectPool.on_live.
  rewrite (test_spec N H1 H3 _ _ _ rel_live0) by lia. rewrite (proj2 (Z.ltb_lt _ _)) by lia. by destruct p.
Qed.

(** *** The steps *)

Definition claimed a i q u : aop T := mk_aop (<[i := Building]> (ostat a)) q u.
Definition restat a i s : aop T := mk_aop (<[i := s]> (ostat a)) (ofree a) (ounused a).
Definition pushed a i : aop T := mk_aop (<[i := Free]> (ostat a)) (i :: ofree a) (ounused a).

Lemma rel_slot a p i s : rel a p -> ostat a !! i = Some s -> (i < nC)%nat /\ (i < length (ObjectPool.storage_ p))%nat.
Proof.
  intros [] Hs. apply lookup_lt_Some in Hs. pose proof slots_bounds. split; lia.
Qed.

Lemma size_step a p s i : rel a p -> ostat a !! i = Some s ->
  0 <= ObjectPool.size_ p - Z.b2z (occupies s) /\ ObjectPool.size_ p + 1 < 2 ^ size_bits.
Proof.
  intros [] Hs. pose proof slots_bounds. pose proof (occupied_range (ostat a)) as Hr. rewrite rel_size0.
  split; [|lia]. destruct (occupies s) eqn:Ho; cbn; [|lia]. pose proof (occupied_pos _ _ _ Hs Ho). lia.
Qed.

Lemma claim_freed a p i q :
  rel a p -> ofree a = i :: q ->
  exists next, ObjectPool.free_head_ p = Z.of_nat i + 1 /\ ObjectPool.storage_ p !! i = Some (Link next) /\
    forall ws, holds N ws (update (is_live (ostat a)) (Z.of_nat i) true) ->
      rel (claimed a i q (ounused a)) (ObjectPool.set_size (ObjectPool.size_ p + 1) (ObjectPool.set_live ws (ObjectPool.set_free_head next p))).
Proof.
  intros Hr Hq. pose proof Hr as []. rewrite Hq in rel_chain0, rel_nodup0. destruct rel_chain0 as (Eh & next & Hl & Hch).
  apply list.NoDup_cons in rel_nodup0 as [Hni Hnd]. exists next. split; [done|]. split; [done|]. intros ws Hws.
  assert (ostat a !! i = Some Free) as Hs by (apply rel_free0; left; rewrite Hq; by left).
  eapply (rel_put a p i Free Building); try done.
  - exists (Link next). by split.
  - cbn. lia.
  - apply rel_unused0.
  - apply rel_unused0.
  - intros j Hj. apply rel_below0. rewrite Hq. by right.
  - intros j. destruct (decide (j = i)) as [->|Hne].
    + rewrite list_lookup_insert_eq by (by eapply lookup_lt_Some). split; [done|]. intros [?|Hu]; [done|].
      pose proof (rel_below0 i). rewrite Hq in *. specialize (H0 ltac:(by left)). lia.
    + rewrite list_lookup_insert_ne, rel_free0, Hq by done. rewrite elem_of_cons. tauto.
Qed.

Lemma claim_unused a p :
  rel a p -> ofree a = [] -> (ounused a < nC)%nat -> let i := ounused a in
  forall ws, holds N ws (update (is_live (ostat a)) (Z.of_nat i) true) ->
    rel (claimed a i [] (S i)) (ObjectPool.set_size (ObjectPool.size_ p + 1) (ObjectPool.set_live ws (ObjectPool.set_unused (Z.of_nat i + 1) p))).
Proof.
  intros Hr Hq Hu i ws Hws. pose proof Hr as [].
  assert (ostat a !! i = Some Free) as Hs by (apply rel_free0; right; unfold i; lia).
  destruct (rel_cells0 i Free Hs) as (c & Hc & Hfit).
  eapply (rel_put a p i Free Building); try done.
  - exists c. split; [done|]. by destruct c.
  - cbn. lia.
  - cbn. lia.
  - by rewrite Hq in rel_chain0.
  - by apply list.NoDup_nil.
  - intros j Hj. by apply not_elem_of_nil in Hj.
  - intros j. rewrite elem_of_nil. destruct (decide (j = i)) as [->|Hne].
    + rewrite list_lookup_insert_eq by (by eapply lookup_lt_Some). split; [done|]. intros [?|?]; [done|lia].
    + rewrite list_lookup_insert_ne, rel_free0, Hq, elem_of_nil by done. unfold i in *. split; intros [?|?]; try done; right; lia.
Qed.

(** A slot that is in use stays so. *)
Lemma restat_rel a p i s s' p' :
  rel a p -> ostat a !! i = Some s -> s <> Free -> s' <> Free ->
  length (ObjectPool.storage_ p') = length (ObjectPool.storage_ p) ->
  (forall j, j <> i -> ObjectPool.storage_ p' !! j = ObjectPool.storage_ p !! j) ->
  (exists c, ObjectPool.storage_ p' !! i = Some c /\ cell_fits s' c) ->
  holds N (ObjectPool.live_ p') (update (is_live (ostat a)) (Z.of_nat i) (occupies s')) ->
  ObjectPool.size_ p' = ObjectPool.size_ p - Z.b2z (occupies s) + Z.b2z (occupies s') ->
  ObjectPool.unused_ p' = ObjectPool.unused_ p -> ObjectPool.free_head_ p' = ObjectPool.free_head_ p ->
  rel (restat a i s') p'.
Proof.
  intros Hr Hs Hns Hns' Hlen Hst Hc Hlive Hsz Hu Hh. pose proof Hr as [].
  assert (i ∉ ofree a) as Hni by (intros Hi; assert (ostat a !! i = Some Free) as E by (apply rel_free0; by left); congruence).
  eapply (rel_put a p i s s'); try done.
  - rewrite Hu. apply rel_unused0.
  - apply rel_unused0.
  - rewrite Hh. apply (chain_frame _ (ObjectPool.storage_ p)); [|done]. intros j Hj. apply Hst. intros ->. done.
  - intros j. destruct (decide (j = i)) as [->|Hne].
    + rewrite list_lookup_insert_eq, <- rel_free0 by (by eapply lookup_lt_Some). split; intros E; congruence.
    + by rewrite list_lookup_insert_ne by done.
Qed.

(** A slot that was in use is freed: it heads the list. *)
Lemma pushed_rel a p i s p' :
  rel a p -> ostat a !! i = Some s -> s <> Free ->
  length (ObjectPool.storage_ p') = length (ObjectPool.storage_ p) ->
  (forall j, j <> i -> ObjectPool.storage_ p' !! j = ObjectPool.storage_ p !! j) ->
  ObjectPool.storage_ p' !! i = Some (Link (ObjectPool.free_head_ p)) ->
  holds N (ObjectPool.live_ p') (update (is_live (ostat a)) (Z.of_nat i) false) ->
  ObjectPool.size_ p' = ObjectPool.size_ p - Z.b2z (occupies s) ->
  ObjectPool.unused_ p' = ObjectPool.unused_ p -> ObjectPool.free_head_ p' = Z.of_nat i + 1 ->
  rel (pushed a i) p'.
Proof.
  intros Hr Hs Hns Hlen Hst Hc Hlive Hsz Hu Hh. pose proof Hr as []. destruct (rel_slot a p i s Hr Hs) as [Hi _].
  assert (~ (i ∈ ofree a \/ ounused a <= i < nC)%nat) as Hni by (rewrite <- rel_free0; congruence).
  eapply (rel_put a p i s Free); try done.
  - by exists (Link (ObjectPool.free_head_ p)).
  - cbn. lia.
  - rewrite Hu. apply rel_unused0.
  - apply rel_unused0.
  - split; [done|]. exists (ObjectPool.free_head_ p). split; [done|].
    apply (chain_frame _ (ObjectPool.storage_ p)); [|done]. intros j Hj. apply Hst. intros ->. tauto.
  - apply list.NoDup_cons. tauto.
  - intros j [->|Hj]%elem_of_cons; [lia|by apply rel_below0].
  - intros j. rewrite elem_of_cons. destruct (decide (j = i)) as [->|Hne].
    + rewrite list_lookup_insert_eq by (by eapply lookup_lt_Some). tauto.
    + rewrite list_lookup_insert_ne, rel_free0 by done. tauto.
Qed.

(** *** Computations that do the same *)

(** The slots whose constructors and destructors are running are left alone. *)
Definition pending s : Prop := s = Building \/ exists v, s = Dying v.
Definition minds a a' : Prop := forall i s, ostat a !! i = Some s -> pending s -> ostat a' !! i = Some s.

Definition alike {A} a (spec : outcome (aop T) A) (out : outcome (ObjectPool.opool T) A) : Prop :=
  match spec, out with
  | Ret x a', Ret y p' => y = x /\ rel a' p' /\ minds a a'
  | Throw a', Throw p' => rel a' p' /\ minds a a'
  | Trap, Trap | Fault, Fault | Spin, Spin => True
  | _, _ => False
  end.
Definition sim {A} (m' : M (aop T) A) (m : M (ObjectPool.opool T) A) : Prop := forall a p, rel a p -> alike a (m' a) (m p).

Lemma minds_refl a : minds a a.
Proof. by intros i s. Qed.
Lemma minds_trans a b c : minds a b -> minds b c -> minds a c.
Proof. intros Hab Hbc i s Hs Hp. apply Hbc; [by apply Hab|done]. Qed.
Lemma minds_at a a' i s : minds a a' -> ostat a !! i = Some s -> pending s -> ostat a' !! i = Some s.
Proof. intros Hm. apply Hm. Qed.

(** A slot that was not pending changes, or one that was is put back. *)
Lemma minds_insert (stat stat' : list (status T)) q u q' u' i s s' :
  stat !! i = Some s -> ~ pending s -> stat' = <[i := s']> stat -> minds (mk_aop stat q u) (mk_aop stat' q' u').
Proof.
  intros Hs Hnp -> j s0 Hj Hp. cbn in *. destruct (decide (j = i)) as [->|Hne]; [congruence|]. by rewrite list_lookup_insert_ne.
Qed.
Lemma minds_around a a1 a2 a3 i s s3 :
  minds a1 a2 -> ostat a !! i = Some s -> ~ pending s -> (forall j, j <> i -> ostat a1 !! j = ostat a !! j) ->
  ostat a3 = <[i := s3]> (ostat a2) -> minds a a3.
Proof.
  intros H12 Hs Hnp H1 E3 j s0 Hj Hp. destruct (decide (j = i)) as [->|Hne]; [congruence|].
  rewrite E3, list_lookup_insert_ne by done. apply H12; [|done]. by rewrite H1.
Qed.

Lemma alike_from a b {A} (spec : outcome (aop T) A) out : minds a b -> alike b spec out -> alike a spec out.
Proof.
  intros Hm. destruct spec, out; cbn; try done; [intros (? & ? & ?)|intros (? & ?)]; split_and?; try done; by apply (minds_trans a b).
Qed.

Lemma sim_ret {A} (x : A) : sim (ret x) (ret x).
Proof. intros a p Hr. cbn. split_and!; [done|done|apply minds_refl]. Qed.
Lemma sim_throw {A} : sim (throw : M (aop T) A) throw.
Proof. intros a p Hr. cbn. split; [done|apply minds_refl]. Qed.
Lemma sim_bind {A B} (m' : M (aop T) A) m (k' : A -> M (aop T) B) k : sim m' m -> (forall x, sim (k' x) (k x)) -> sim (bind m' k') (bind m k).
Proof.
  intros Hm Hk a p Hr. specialize (Hm a p Hr). unfold bind. destruct (m' a) as [x a1|a1| | |], (m p) as [y p1|p1| | |]; cbn in Hm; try done.
  destruct Hm as (-> & Hr1 & Hm1). apply (alike_from a a1); [done|]. by apply Hk.
Qed.
Lemma sim_caught {A} (m' : M (aop T) A) m : sim m' m -> sim (caught_code m') (caught_code m).
Proof.
  intros Hm a p Hr. specialize (Hm a p Hr). unfold caught_code. destruct (m' a) as [x a1|a1| | |], (m p) as [y p1|p1| | |]; cbn in *; try done.
  destruct Hm as (-> & ? & ?). done.
Qed.
Lemma sim_for_up n from (b' : Z -> M (aop T) unit) b :
  0 <= from -> from + Z.of_nat n <= C -> (forall j : Z, 0 <= j < C -> sim (b' j) (b j)) -> sim (for_up n from b') (for_up n from b).
Proof.
  intros H0 Hn Hb. revert from H0 Hn. induction n as [|n IH]; intros from H0 Hn; cbn [for_up]; [apply sim_ret|].
  apply sim_bind; [apply Hb; lia|]. intros _. apply IH; lia.
Qed.

(** *** The operations *)

Lemma slot_of_index ptr :
  ObjectPool.index_of C base slot_size ptr = match PoolSpec.slot_of C base slot_size ptr with Some i => Z.of_nat i | None => C end.
Proof.
  unfold ObjectPool.index_of, PoolSpec.slot_of. cbv zeta. pose proof (wrap_range ptr) as Hp.
  assert (wrap (ptr - base) = wrap (wrap ptr - base)) as -> by (unfold wrap; by rewrite Zminus_mod_idemp_l).
  set (x := wrap ptr) in *. assert (0 <= slot_size * C) by nia. rewrite (wrap_small (slot_size * C)) by lia.
  destruct (Z.leb_spec base x) as [Hge|Hlt]; cbn [andb].
  - rewrite (wrap_small (x - base)) by lia. pose proof (Z.div_mod (x - base) slot_size ltac:(lia)) as Ed.
    pose proof (Z.mod_pos_bound (x - base) slot_size ltac:(lia)) as Hm. pose proof (Z.div_pos (x - base) slot_size ltac:(lia) ltac:(lia)).
    set (d := (x - base) / slot_size) in *. destruct (Z.eqb_spec ((x - base) mod slot_size) 0) as [E0|E0]; cbn [negb andb].
    + destruct (Z.leb_spec (slot_size * C) (x - base)), (Z.ltb_spec d C); [nia|done|by rewrite Z2Nat.id by lia|nia].
    + by destruct (Z.leb_spec (slot_size * C) (x - base)).
  - assert (wrap (x - base) = x - base + 2 ^ size_bits) as ->.
    { unfold wrap. rewrite <- (Z.mod_add (x - base) 1) by (pose proof size_modulus_pos; lia). rewrite Z.mul_1_l, Z.mod_small; lia. }
    rewrite (proj2 (Z.leb_le _ _)) by lia. done.
Qed.

Lemma slot_of_range ptr i : PoolSpec.slot_of C base slot_size ptr = Some i -> (i < nC)%nat.
Proof.
  unfold PoolSpec.slot_of. cbv zeta. set (x := wrap ptr).
  destruct (Z.leb_spec base x), ((x - base) mod slot_size =? 0), (Z.ltb_spec ((x - base) / slot_size) C); cbn; try done.
  intros [= <-]. pose proof (Z.div_pos (x - base) slot_size ltac:(lia) ltac:(lia)). lia.
Qed.

(** [push_free] on a slot whose bytes hold no object. *)
Lemma push_free_step p i c :
  ObjectPool.storage_ p !! i = Some c -> cell_fits Free c -> (i < nC)%nat ->
  ObjectPool.push_free C (Z.of_nat i) p =
    Ret tt (ObjectPool.set_free_head (Z.of_nat i + 1)
      (ObjectPool.set_storage (<[i := Link (ObjectPool.free_head_ p)]> (ObjectPool.storage_ p)) p)).
Proof.
  intros Hc Hf Hi. pose proof link_bits_enough. unfold ObjectPool.push_free. mstep.
  rewrite (bind_Ret _ _ _ tt (ObjectPool.set_storage (<[i := Link (ObjectPool.free_head_ p)]> (ObjectPool.storage_ p)) p)).
  - unfold modify. by rewrite Z.mod_small by lia.
  - unfold ObjectPool.set_link. rewrite Nat2Z.id, Hc. by destruct c.
Qed.

Lemma holds_same a p i s b : rel a p -> ostat a !! i = Some s -> occupies s = b ->
  holds N (ObjectPool.live_ p) (update (is_live (ostat a)) (Z.of_nat i) b).
Proof.
  intros [] Hs Hb. revert rel_live0. apply holds_ext. intros x Hx. unfold update. destruct (Z.eqb_spec x (Z.of_nat i)) as [->|]; [|done].
  unfold is_live. by rewrite Nat2Z.id, Hs.
Qed.

(** The constructor returned, or threw. *)
Lemma construct_step a p i v :
  rel a p -> ostat a !! i = Some Building ->
  exists p', ObjectPool.construct (Z.of_nat i) v p = Ret tt p' /\ rel (restat a i (Live v)) p'.
Proof.
  intros Hr Hs. destruct (rel_cells _ _ Hr i _ Hs) as (c & Hc & Hf). destruct (rel_slot _ _ _ _ Hr Hs) as [Hi Hi'].
  exists (ObjectPool.set_storage (<[i := Object v]> (ObjectPool.storage_ p)) p). split.
  - unfold ObjectPool.construct. rewrite Nat2Z.id, Hc. by destruct c.
  - eapply (restat_rel a p i Building (Live v)); try done; cbn.
    + by rewrite length_insert.
    + intros j Hj. by rewrite list_lookup_insert_ne.
    + exists (Object v). split; [by apply list_lookup_insert_eq|done].
    + by apply (holds_same _ _ _ Building).
    + lia.
Qed.

Lemma unwind_step a p i :
  rel a p -> ostat a !! i = Some Building ->
  exists p', ObjectPool.release_on_unwind C (Z.of_nat i) p = Ret tt p' /\ rel (pushed a i) p'.
Proof.
  intros Hr Hs. destruct (rel_cells _ _ Hr i _ Hs) as (c & Hc & Hf). destruct (rel_slot _ _ _ _ Hr Hs) as [Hi Hi'].
  destruct (live_reset p _ i (rel_live _ _ Hr) Hi) as (ws & Ew & Hw). pose proof (size_step _ _ _ _ Hr Hs) as [Hz Hz']. cbn in Hz.
  unfold ObjectPool.release_on_unwind. rewrite (bind_Ret _ _ _ _ _ Ew). mstep.
  eexists. split; [apply (push_free_step _ _ c); [done|by destruct c|done]|].
  eapply (pushed_rel a p i Building); try done; cbn.
  - by rewrite length_insert.
  - intros j Hj. by rewrite list_lookup_insert_ne.
  - by apply list_lookup_insert_eq.
  - by rewrite wrap_small by lia.
Qed.

(** The start of [try_emplace], up to the constructor. *)
Lemma pool_claim_step a p :
  rel a p ->
  match PoolSpec.claim C a with
  | Ret (Some i) a1 => ostat a1 !! i = Some Building /\ ostat a !! i = Some Free /\ (forall j, j <> i -> ostat a1 !! j = ostat a !! j) /\
      exists p1, rel a1 p1 /\ forall K, ObjectPool.try_emplace C base slot_size K p =
        (guarded (let! v := K in ObjectPool.construct (Z.of_nat i) v) (ObjectPool.release_on_unwind C (Z.of_nat i)) ;;;
         ret (ObjectPool.slot_ptr base slot_size (Z.of_nat i))) p1
  | Ret None a1 => a1 = a /\ forall K, ObjectPool.try_emplace C base slot_size K p = Ret 0 p
  | _ => False
  end.
Proof.
  intros Hr. pose proof link_bits_enough. unfold PoolSpec.claim. destruct (ofree a) as [|i q] eqn:Hq.
  - pose proof Hr as []. rewrite Hq in rel_chain0. cbn in rel_chain0. destruct rel_unused0 as [Eu Hu].
    destruct (Nat.ltb_spec (ounused a) nC) as [Hlt|Hge].
    + assert (ostat a !! ounused a = Some Free) as Hs by (apply rel_free0; right; lia).
      destruct (live_set p _ _ rel_live0 Hlt) as (ws & Ew & Hw). pose proof (size_step _ _ _ _ Hr Hs) as [Hz Hz']. cbn in Hz.
      split; [apply list_lookup_insert_eq; lia|]. split; [done|]. split; [intros j Hj; by apply list_lookup_insert_ne|].
      eexists. split; [by apply (claim_unused a p Hr Hq Hlt ws)|]. intros K'. unfold ObjectPool.try_emplace. mstep. mstep.
      rewrite rel_chain0, Eu. cbn [Z.eqb negb]. rewrite (proj2 (Z.ltb_lt _ _)) by lia.
      rewrite (bind_Ret _ _ _ (Some (Z.of_nat (ounused a))) (ObjectPool.set_unused (Z.of_nat (ounused a) + 1) p))
        by (mstep; by rewrite Z.mod_small by lia).
      rewrite (bind_Ret _ _ _ tt (ObjectPool.set_live ws (ObjectPool.set_unused (Z.of_nat (ounused a) + 1) p)))
        by (unfold ObjectPool.on_live in *; cbn; by destruct (Bitset.set _ _ _); simplify_eq).
      mstep. cbn [ObjectPool.size_ ObjectPool.set_live ObjectPool.set_unused]. by rewrite wrap_small by lia.
    + split; [done|]. intros K'. unfold ObjectPool.try_emplace. mstep. mstep. rewrite rel_chain0, Eu. cbn [Z.eqb negb].
      rewrite (proj2 (Z.ltb_ge _ _)) by lia. done.
  - destruct (claim_freed a p i q Hr Hq) as (next & Eh & Hl & Hrel). pose proof Hr as [].
    assert (ostat a !! i = Some Free) as Hs by (apply rel_free0; left; rewrite Hq; by left).
    destruct (rel_slot _ _ _ _ Hr Hs) as [Hi Hi']. pose proof (size_step _ _ _ _ Hr Hs) as [Hz Hz']. cbn in Hz.
    destruct (live_set p _ _ rel_live0 Hi) as (ws & Ew & Hw).
    split; [apply list_lookup_insert_eq; lia|]. split; [done|]. split; [intros j Hj; by apply list_lookup_insert_ne|].
    eexists. split; [by apply (Hrel ws)|]. intros K'. unfold ObjectPool.try_emplace. mstep. mstep. rewrite Eh.
    replace (Z.of_nat i + 1 - 1) with (Z.of_nat i) by lia. rewrite (proj2 (Z.eqb_neq _ _)) by lia. cbn [negb].
    rewrite (bind_Ret _ _ _ (Some (Z.of_nat i)) (ObjectPool.set_free_head next p))
      by (rewrite (bind_Ret _ _ _ next p); [done|unfold ObjectPool.link; by rewrite Nat2Z.id, Hl]).
    rewrite (bind_Ret _ _ _ tt (ObjectPool.set_live ws (ObjectPool.set_free_head next p)))
      by (unfold ObjectPool.on_live in *; cbn; by destruct (Bitset.set _ _ _); simplify_eq).
    mstep. cbn [ObjectPool.size_ ObjectPool.set_live ObjectPool.set_free_head]. by rewrite wrap_small by lia.
Qed.

Lemma not_pending_free : ~ pending (Free : status T).
Proof. intros [?|[? ?]]; done. Qed.
Lemma not_pending_live (v : T) : ~ pending (Live v).
Proof. intros [?|[? ?]]; done. Qed.
#[local] Hint Resolve not_pending_free not_pending_live : core.

Lemma try_emplace_alike K' K : sim K' K -> sim (PoolSpec.try_emplace C base slot_size K') (ObjectPool.try_emplace C base slot_size K).
Proof.
  intros HK a p Hr. pose proof (pool_claim_step a p Hr) as Hc. unfold PoolSpec.try_emplace, bind at 1.
  destruct (PoolSpec.claim C a) as [[i|] a1| | | |]; try done.
  2: { destruct Hc as [-> E]. rewrite E. cbn. split_and!; [done|done|apply minds_refl]. }
  destruct Hc as (Hb & Hs & Ho & p1 & Hr1 & E). rewrite E. specialize (HK a1 p1 Hr1). unfold bind, guarded.
  destruct (K' a1) as [v a2|a2| | |], (K p1) as [y p2|p2| | |]; cbn in HK; try done.
  - destruct HK as (-> & Hr2 & Hm). pose proof (minds_at _ _ _ _ Hm Hb ltac:(by left)) as Hb2.
    destruct (construct_step a2 p2 i v Hr2 Hb2) as (p3 & E3 & Hr3). rewrite E3. cbn. split_and!; [done|done|].
    by apply (minds_around a a1 a2 _ i Free (Live v)).
  - destruct HK as (Hr2 & Hm). pose proof (minds_at _ _ _ _ Hm Hb ltac:(by left)) as Hb2.
    destruct (unwind_step a2 p2 i Hr2 Hb2) as (p3 & E3 & Hr3). rewrite E3. cbn. split_and!; [done|].
    by apply (minds_around a a1 a2 _ i Free Free).
Qed.

Lemma emplace_alike K' K : sim K' K -> sim (PoolSpec.emplace C h base slot_size K') (ObjectPool.emplace C h base slot_size K).
Proof.
  intros HK. apply sim_bind; [by apply try_emplace_alike|]. intros ptr. unfold ObjectPool.nullptr.
  destruct (Z.eqb_spec ptr 0) as [->|]; cbn [negb].
  - intros a p Hr. destruct h; cbn; try done. split_and!; [done|done|apply minds_refl].
  - intros a p Hr. rewrite (bind_Ret _ _ _ _ _ (metl_assert_true _ _)). by apply sim_ret.
Qed.

(** [end_life], with a destructor that does the same as the abstract one. *)
Lemma pool_retire_step a p i v :
  rel a p -> ostat a !! i = Some (Live v) ->
  exists p1, rel (restat a i (Dying v)) p1 /\ forall D, ObjectPool.end_life C D (Z.of_nat i) p =
    (ObjectPool.run_destructor D v ;;; ObjectPool.end_lifetime (Z.of_nat i) ;;; ObjectPool.push_free C (Z.of_nat i)) p1.
Proof.
  intros Hr Hs. destruct (rel_cells _ _ Hr i _ Hs) as (c & Hc & Hf). destruct (rel_slot _ _ _ _ Hr Hs) as [Hi Hi'].
  destruct (live_reset p _ i (rel_live _ _ Hr) Hi) as (ws & Ew & Hw). pose proof (size_step _ _ _ _ Hr Hs) as [Hz Hz']. cbn in Hz.
  exists (ObjectPool.set_size (ObjectPool.size_ p - 1) (ObjectPool.set_live ws p)). split.
  - eapply (restat_rel a p i (Live v) (Dying v)); try done; [by exists c|cbn; lia].
  - intros D. unfold ObjectPool.end_life. rewrite (bind_Ret _ _ _ _ _ Ew). mstep. cbn [ObjectPool.size_ ObjectPool.set_live].
    rewrite wrap_small by lia. destruct c as [| |v']; try done. cbn in Hf. subst v'.
    rewrite (bind_Ret _ _ _ v (ObjectPool.set_size (ObjectPool.size_ p - 1) (ObjectPool.set_live ws p))); [done|].
    unfold ObjectPool.object. cbn. by rewrite Nat2Z.id, Hc.
Qed.

Lemma bury_dead a p i v :
  rel a p -> ostat a !! i = Some (Dying v) ->
  exists p', (ObjectPool.end_lifetime (Z.of_nat i) ;;; ObjectPool.push_free C (Z.of_nat i)) p = Ret tt p' /\ rel (pushed a i) p'.
Proof.
  intros Hr Hs. destruct (rel_cells _ _ Hr i _ Hs) as (c & Hc & Hf). destruct (rel_slot _ _ _ _ Hr Hs) as [Hi Hi'].
  destruct c as [| |v']; try done. set (p1 := ObjectPool.set_storage (<[i := Raw]> (ObjectPool.storage_ p)) p).
  assert (ObjectPool.storage_ p1 !! i = Some Raw) as Hc1 by (by apply list_lookup_insert_eq).
  rewrite (bind_Ret _ _ _ tt p1) by (unfold ObjectPool.end_lifetime; by rewrite Nat2Z.id, Hc).
  eexists. split; [by apply (push_free_step p1 i Raw)|].
  eapply (pushed_rel a p i (Dying v)); try done; cbn.
  - by rewrite !length_insert.
  - intros j Hj. by rewrite !list_lookup_insert_ne.
  - apply list_lookup_insert_eq. by rewrite length_insert.
  - by apply (holds_same _ _ _ (Dying v)).
  - lia.
Qed.

Lemma end_slot_alike D' D a p i :
  (forall v, sim (D' v) (D v)) -> rel a p -> (i < nC)%nat ->
  alike a (PoolSpec.end_slot D' i a)
    ((if is_live (ostat a) (Z.of_nat i) then ObjectPool.end_life C D (Z.of_nat i) ;;; ret true else ret false) p).
Proof.
  intros HD Hr Hi. destruct (lookup_lt_is_Some_2 (ostat a) i) as [s Hs]; [by rewrite (rel_len _ _ Hr)|].
  unfold is_live, PoolSpec.end_slot. mstep. rewrite Nat2Z.id, Hs. destruct s as [| |v|v]; cbn [occupies].
  - cbn. split_and!; [done|done|apply minds_refl].
  - destruct (rel_cells _ _ Hr i _ Hs) as (c & Hc & Hf). destruct (live_reset p _ i (rel_live _ _ Hr) Hi) as (ws & Ew & Hw).
    unfold ObjectPool.end_life. rewrite bind_assoc, (bind_Ret _ _ _ _ _ Ew). rewrite bind_assoc. mstep. rewrite bind_assoc.
    assert (forall p1, ObjectPool.storage_ p1 = ObjectPool.storage_ p -> ObjectPool.object (Z.of_nat i) p1 = Fault) as Eo
      by (intros p1 E1; unfold ObjectPool.object; rewrite E1, Nat2Z.id, Hc; by destruct c).
    rewrite (bind_Fault _ _ _ (Eo (ObjectPool.set_size _ (ObjectPool.set_live _ p)) eq_refl)). done.
  - destruct (pool_retire_step a p i v Hr Hs) as (p1 & Hr1 & E).
    assert ((ObjectPool.end_life C D (Z.of_nat i) ;;; ret true) p =
      ((ObjectPool.run_destructor D v ;;; ObjectPool.end_lifetime (Z.of_nat i) ;;; ObjectPool.push_free C (Z.of_nat i)) ;;; ret true) p1) as ->
      by (unfold bind at 1; by rewrite E).
    rewrite bind_assoc. unfold PoolSpec.put. mstep. change (mk_aop (<[i := Dying v]> (ostat a)) (ofree a) (ounused a)) with (restat a i (Dying v)).
    pose proof (HD v _ _ Hr1) as Hdv. unfold bind at 1, PoolSpec.noexcept. unfold bind at 2, ObjectPool.run_destructor.
    destruct (D' v (restat a i (Dying v))) as [[] a2|a2| | |], (D v p1) as [[] p2|p2| | |]; cbn in Hdv; try done.
    destruct Hdv as (_ & Hr2 & Hm).
    assert (ostat a2 !! i = Some (Dying v)) as Hd2.
    { apply (minds_at _ _ _ _ Hm); [|by right; exists v]. apply list_lookup_insert_eq. by rewrite (rel_len _ _ Hr). }
    destruct (bury_dead a2 p2 i v Hr2 Hd2) as (p3 & E3 & Hr3). unfold bind at 2. rewrite E3. split_and!; [done|done|].
    apply (minds_around a (restat a i (Dying v)) a2 _ i (Live v) Free); try done.
    intros j Hj. by apply list_lookup_insert_ne.
  - cbn. split_and!; [done|done|apply minds_refl].
Qed.

Lemma live_slot_step a p ptr :
  rel a p -> ObjectPool.live_slot C base slot_size ptr p =
    Ret (match PoolSpec.slot_of C base slot_size ptr with
         | Some i => if is_live (ostat a) (Z.of_nat i) then Some (Z.of_nat i) else None
         | None => None
         end) p.
Proof.
  intros Hr. unfold ObjectPool.live_slot. rewrite slot_of_index. destruct (PoolSpec.slot_of C base slot_size ptr) as [i|] eqn:Ei.
  - apply slot_of_range in Ei. rewrite (proj2 (Z.ltb_lt _ _)) by lia. by rewrite (bind_Ret _ _ _ _ _ (live_test a p i Hr Ei)).
  - by rewrite Z.ltb_irrefl.
Qed.

Lemma pool_destroy_alike D' D ptr :
  (forall v, sim (D' v) (D v)) -> sim (PoolSpec.destroy C base slot_size D' ptr) (ObjectPool.destroy C base slot_size D ptr).
Proof.
  intros HD a p Hr. unfold PoolSpec.destroy, ObjectPool.destroy. rewrite (bind_Ret _ _ _ _ _ (live_slot_step a p ptr Hr)).
  destruct (PoolSpec.slot_of C base slot_size ptr) as [i|] eqn:Ei; [|by apply sim_ret].
  pose proof (end_slot_alike D' D a p i HD Hr (slot_of_range _ _ Ei)) as He. by destruct (is_live (ostat a) (Z.of_nat i)).
Qed.

Lemma contains_alike ptr : sim (PoolSpec.contains C base slot_size ptr) (ObjectPool.contains C base slot_size ptr).
Proof.
  intros a p Hr. unfold PoolSpec.contains, ObjectPool.contains. rewrite (bind_Ret _ _ _ _ _ (live_slot_step a p ptr Hr)). mstep.
  cbn [alike ret]. destruct (PoolSpec.slot_of C base slot_size ptr) as [i|]; [|split_and!; [done|done|apply minds_refl]].
  unfold is_live. rewrite Nat2Z.id. split_and!; [|done|apply minds_refl]. destruct (ostat a !! i) as [s|]; [by destruct (occupies s)|done].
Qed.

Lemma clear_alike D' D : (forall v, sim (D' v) (D v)) -> sim (PoolSpec.clear C D') (ObjectPool.clear C D).
Proof.
  intros HD. apply sim_for_up; [lia|lia|]. intros x Hx a p Hr. set (i := Z.to_nat x). replace x with (Z.of_nat i) by lia.
  assert (i < nC)%nat as Hi by lia. rewrite (bind_Ret _ _ _ _ _ (live_test a p i Hr Hi)).
  pose proof (end_slot_alike D' D a p i HD Hr Hi) as He. unfold bind in *.
  destruct (PoolSpec.end_slot D' i a) as [b a1|a1| | |]; destruct (is_live (ostat a) (Z.of_nat i));
    try destruct (ObjectPool.end_life C D (Z.of_nat i) p) as [[] p1|p1| | |]; cbn in *; try done;
    destruct He as (_ & Hr1 & Hm); done.
Qed.

Lemma observe_alike : sim (PoolSpec.observe C) (pool_observe (Pool := object_pool_pool C h base slot_size)).
Proof.
  intros a p Hr. pose proof slots_bounds. pose proof (occupied_range (ostat a)) as Ho. rewrite (rel_len _ _ Hr) in Ho.
  unfold PoolSpec.observe. cbn [pool_observe object_pool_pool].
  unfold ObjectPool.size, ObjectPool.available, ObjectPool.empty, ObjectPool.full. do 5 mstep. cbn [alike ret].
  rewrite (rel_size _ _ Hr), wrap_small by lia. split_and!; [done|done|apply minds_refl].
Qed.

(** Client code cannot tell the two apart. *)
Lemma interp_alike D' D {A} (c : code T A) :
  (forall v, sim (D' v) (D v)) ->
  sim (interp (Pool0 := PoolSpec.pool C h base slot_size) D' c) (interp (Pool0 := object_pool_pool C h base slot_size) D c).
Proof.
  intros HD. induction c; cbn [interp]; try (apply sim_bind; [|done]).
  - apply sim_ret.
  - apply sim_throw.
  - by apply try_emplace_alike.
  - by apply emplace_alike.
  - by apply pool_destroy_alike.
  - apply contains_alike.
  - by apply clear_alike.
  - apply observe_alike.
  - by apply sim_caught.
Qed.

Lemma destructing_alike (D : T -> code T unit) fuel v :
  sim (destructing (Pool0 := PoolSpec.pool C h base slot_size) D fuel v) (destructing (Pool0 := object_pool_pool C h base slot_size) D fuel v).
Proof. revert v. induction fuel as [|fuel IH]; intros v; cbn [destructing]; [by intros a p Hr|]. by apply interp_alike. Qed.
End relation.
