(* ===== verification/ObjectPoolClaims.v ===== *)
(** * What [object_pool] promises

    When client code does not meet undefined behaviour, when it ends, and the
    refinement. *)

From Stdlib Require Import ZArith Lia.
From stdpp Require Import base numbers list option tactics.
From S2P Require Import Prelude Bits BitsFacts HandlePool HandlePoolFacts ObjectPool ObjectPoolFacts.
Local Open Scope Z_scope.

(** Code that ends no object, and code that ends none in a constructor. *)
Fixpoint gentle {T A} (c : code T A) : Prop :=
  match c with
  | Done _ | Raise => True
  | TryEmplace ctor k | Emplace ctor k => gentle ctor /\ forall x, gentle (k x)
  | Destroy _ _ | Clear _ => False
  | Contains _ k => forall x, gentle (k x)
  | Observe k => forall n m e f, gentle (k n m e f)
  | Catch body k => gentle body /\ forall x, gentle (k x)
  end.
Fixpoint calm_code {T A} (c : code T A) : Prop :=
  match c with
  | Done _ | Raise => True
  | TryEmplace ctor k | Emplace ctor k => gentle ctor /\ forall x, calm_code (k x)
  | Destroy _ k | Contains _ k => forall x, calm_code (k x)
  | Clear k => calm_code k
  | Observe k => forall n m e f, calm_code (k n m e f)
  | Catch body k => calm_code body /\ forall x, calm_code (k x)
  end.

Section spec_facts.
  Context `{SizeT} {T : Type} (C : Z) (h : hardening) (base slot_size : Z).
  Implicit Types (a : aop T) (i : nat).
  #[local] Existing Instance PoolSpec.pool.
  Abbreviation pool := (PoolSpec.pool C h base slot_size).

(** From a state that satisfies [I], the computation neither faults nor, when [strict],
    runs out of fuel, and leaves a state that [P] relates to the first. *)
Definition tame (strict : bool) (I : aop T -> Prop) (P : aop T -> aop T -> Prop) {A} (m : M (aop T) A) : Prop := forall a, I a ->
  match m a with
  | Ret _ a' | Throw a' => P a a'
  | Trap => True
  | Fault => False
  | Spin => strict = false
  end.

(** No slot becomes one whose constructor is running; there is none. *)
Definition any a : Prop := True.
Definition no_more a a' : Prop := forall i, ostat a' !! i = Some Building -> ostat a !! i = Some Building.
Definition idle a : Prop := forall i, ostat a !! i <> Some Building.
Definition idle_still a a' : Prop := idle a'.

Section rules.
  Context (strict : bool) (I : aop T -> Prop) (P : aop T -> aop T -> Prop).
  Context (Hrefl : forall a, I a -> P a a) (Htrans : forall a b c, P a b -> P b c -> P a c) (Hkeep : forall a b, I a -> P a b -> I b).

Lemma pool_tame_ret {A} (x : A) : tame strict I P (ret x).
Proof. intros a Ha. by apply Hrefl. Qed.
Lemma tame_throw {A} : tame strict I P (throw : M (aop T) A).
Proof. intros a Ha. by apply Hrefl. Qed.
Lemma pool_tame_assert b : tame strict I P (metl_assert h b).
Proof. intros a Ha. destruct h, b; cbn; auto. Qed.
Lemma pool_tame_bind {A B} (m : M (aop T) A) (k : A -> M (aop T) B) :
  tame strict I P m -> (forall x, tame strict I P (k x)) -> tame strict I P (bind m k).
Proof.
  intros Hm Hk a Ha. specialize (Hm a Ha). unfold bind. destruct (m a) as [x a1|a1| | |]; try done.
  specialize (Hk x a1 (Hkeep a a1 Ha Hm)). destruct (k x a1) as [y a2|a2| | |]; try done; by apply (Htrans a a1).
Qed.
Lemma tame_caught {A} (m : M (aop T) A) : tame strict I P m -> tame strict I P (caught_code m).
Proof. intros Hm a Ha. specialize (Hm a Ha). unfold caught_code. by destruct (m a). Qed.
Lemma pool_tame_for_up n from (b : Z -> M (aop T) unit) : (forall x, tame strict I P (b x)) -> tame strict I P (for_up n from b).
Proof. intros Hb. revert from. induction n as [|n IH]; intros from; cbn [for_up]; [apply pool_tame_ret|]. apply pool_tame_bind; [apply Hb|]. intros _. apply IH. Qed.
End rules.

Lemma no_more_refl a : no_more a a.
Proof. by intros i. Qed.
Lemma no_more_trans a b c : no_more a b -> no_more b c -> no_more a c.
Proof. intros Hab Hbc i Hi. by apply Hab, Hbc. Qed.
Lemma no_more_idle a a' : idle a -> no_more a a' -> idle a'.
Proof. intros Ha Hn i Hi. by apply (Ha i), Hn. Qed.

(** A slot that stops being built. *)
Lemma lookup_put_building (stat : list (status T)) i j s : s <> Building -> <[i := s]> stat !! j = Some Building -> j <> i /\ stat !! j = Some Building.
Proof. intros Hs Hj. apply list_lookup_insert_Some in Hj as [(<- & E & _)|[Hne Hj]]; [by simplify_eq|]. by split. Qed.

Lemma tame_weaken (P : aop T -> aop T -> Prop) strict I {A} (m : M (aop T) A) : tame true I P m -> tame strict I P m.
Proof. intros Hm a Ha. specialize (Hm a Ha). by destruct (m a). Qed.

Lemma tame_claimed strict i K a1 a :
  (forall j, j <> i -> ostat a1 !! j = Some Building -> ostat a !! j = Some Building) -> tame strict any no_more K ->
  match guarded (let! v := K in PoolSpec.put i (Live v)) (PoolSpec.push i) a1 with
  | Ret _ a' | Throw a' => no_more a a'
  | Trap => True
  | Fault => False
  | Spin => strict = false
  end.
Proof.
  intros H1 HK. specialize (HK a1 Logic.I). unfold guarded, bind.
  destruct (K a1) as [v a2|a2| | |]; try done; intros j Hj; apply lookup_put_building in Hj as [Hne Hj]; try done; by apply H1; [|apply HK].
Qed.

Lemma tame_try_emplace strict K : tame strict any no_more K -> tame strict any no_more (PoolSpec.try_emplace C base slot_size K).
Proof.
  intros HK a _. unfold PoolSpec.try_emplace, PoolSpec.claim. unfold bind at 1.
  destruct (ofree a) as [|i q]; [destruct (ounused a <? Z.to_nat C)%nat|]; [| by apply no_more_refl |].
  - pose proof (tame_claimed strict (ounused a) K (mk_aop (<[ounused a := Building]> (ostat a)) [] (S (ounused a))) a) as Hg.
    unfold bind at 1. destruct (guarded _ _ _); try (apply Hg; [|done]); intros j Hne; cbn; by rewrite list_lookup_insert_ne.
  - pose proof (tame_claimed strict i K (mk_aop (<[i := Building]> (ostat a)) q (ounused a)) a) as Hg.
    unfold bind at 1. destruct (guarded _ _ _); try (apply Hg; [|done]); intros j Hne; cbn; by rewrite list_lookup_insert_ne.
Qed.

Lemma any_rules : (forall a, any a -> no_more a a) /\ (forall a b, any a -> no_more a b -> any b).
Proof. split; [intros a _; apply no_more_refl|done]. Qed.
Lemma idle_rules : (forall a, idle a -> idle_still a a) /\ (forall a b c, idle_still a b -> idle_still b c -> idle_still a c) /\
  (forall a b, idle a -> idle_still a b -> idle b).
Proof. by split_and!. Qed.

Lemma tame_emplace strict K : tame strict any no_more K -> tame strict any no_more (PoolSpec.emplace C h base slot_size K).
Proof.
  destruct any_rules as [Hr Hk]. intros HK. apply (pool_tame_bind strict any no_more no_more_trans Hk); [by apply tame_try_emplace|].
  intros x. destruct (x =? 0); [|by apply pool_tame_ret].
  apply (pool_tame_bind strict any no_more no_more_trans Hk); [by apply pool_tame_assert|]. intros _. by apply pool_tame_ret.
Qed.

(** Gentle code neither faults nor needs fuel. *)
Lemma gentle_tame D {A} (c : code T A) : gentle c -> tame true any no_more (interp (Pool0 := pool) D c).
Proof.
  destruct any_rules as [Hr Hk]. induction c; cbn [interp gentle]; intros Hc; try done.
  all: apply (pool_tame_bind _ _ _ no_more_trans Hk); [|intros x; apply H0, Hc].
  - apply tame_try_emplace, IHc, Hc.
  - apply tame_emplace, IHc, Hc.
  - intros a _. apply no_more_refl.
  - intros a _. apply no_more_refl.
  - apply tame_caught, IHc, Hc.
Qed.

Lemma tame_idle strict {A} (m : M (aop T) A) : tame strict any no_more m -> tame strict idle idle_still m.
Proof. intros Hm a Ha. specialize (Hm a Logic.I). destruct (m a); try done; by apply (no_more_idle a). Qed.

(** Ending an object, when no constructor is running. *)
Lemma tame_end_slot strict D i : (forall v, tame strict idle idle_still (D v)) -> tame strict idle idle_still (PoolSpec.end_slot D i).
Proof.
  intros HD a Ha. unfold PoolSpec.end_slot. mstep. destruct (ostat a !! i) as [s|] eqn:Hs; [|done].
  destruct s as [| |v|v]; [by apply Ha|by destruct (Ha i)| |by apply Ha]. unfold PoolSpec.put. mstep.
  assert (idle (mk_aop (<[i := Dying v]> (ostat a)) (ofree a) (ounused a))) as H1
    by (intros j Hj; apply lookup_put_building in Hj as [_ Hj]; [by apply (Ha j)|done]).
  specialize (HD v _ H1). unfold PoolSpec.noexcept, bind at 1. destruct (D v _) as [[] a2|a2| | |]; try done.
  intros j Hj. apply lookup_put_building in Hj as [_ Hj]; [by apply (HD j)|done].
Qed.
Lemma tame_destroy strict D ptr :
  (forall v, tame strict idle idle_still (D v)) -> tame strict idle idle_still (PoolSpec.destroy C base slot_size D ptr).
Proof. intros HD. unfold PoolSpec.destroy. destruct (PoolSpec.slot_of _ _ _ _); [by apply tame_end_slot|by intros a Ha]. Qed.
Lemma pool_tame_clear strict D : (forall v, tame strict idle idle_still (D v)) -> tame strict idle idle_still (PoolSpec.clear C D).
Proof.
  intros HD. destruct idle_rules as (Hr & Ht & Hk). apply (pool_tame_for_up _ _ _ Hr Ht Hk). intros x.
  apply (pool_tame_bind _ _ _ Ht Hk); [by apply tame_end_slot|]. intros _. by apply pool_tame_ret.
Qed.

(** Code whose constructors are gentle never faults. *)
Lemma calm_tame strict D {A} (c : code T A) :
  calm_code c -> (forall v, tame strict idle idle_still (D v)) -> tame strict idle idle_still (interp (Pool0 := pool) D c).
Proof.
  intros Hc HD. destruct idle_rules as (Hr & Ht & Hk). induction c; cbn [interp calm_code] in *; try done.
  - apply (pool_tame_bind _ _ _ Ht Hk); [|intros x; by apply H0, Hc]. by apply tame_idle, tame_try_emplace, tame_weaken, gentle_tame, Hc.
  - apply (pool_tame_bind _ _ _ Ht Hk); [|intros x; by apply H0, Hc]. by apply tame_idle, tame_emplace, tame_weaken, gentle_tame, Hc.
  - apply (pool_tame_bind _ _ _ Ht Hk); [|intros x; by apply H0, Hc]. by apply tame_destroy.
  - apply (pool_tame_bind _ _ _ Ht Hk); [|intros x; by apply H0, Hc]. by intros a Ha.
  - apply (pool_tame_bind _ _ _ Ht Hk); [|intros _; by apply IHc]. by apply pool_tame_clear.
  - apply (pool_tame_bind _ _ _ Ht Hk); [|intros x; by apply H0, Hc]. by intros a Ha.
  - apply (pool_tame_bind _ _ _ Ht Hk); [|intros x; by apply H0, Hc]. by apply tame_caught, IHc, Hc.
Qed.

Lemma destructing_tame (D : T -> code T unit) fuel v :
  (forall v, calm_code (D v)) -> tame false idle idle_still (destructing (Pool0 := pool) D fuel v).
Proof. intros HD. revert v. induction fuel as [|fuel IH]; intros v; cbn [destructing]; [by intros a Ha|]. by apply calm_tame. Qed.
Lemma destructing_gentle (D : T -> code T unit) fuel v :
  (forall v, gentle (D v)) -> (1 <= fuel)%nat -> tame true idle idle_still (destructing (Pool0 := pool) D fuel v).
Proof. intros HD Hf. destruct fuel as [|fuel]; [lia|]. by apply tame_idle, gentle_tame. Qed.
End spec_facts.

Section claims.
  Context `{SizeT} {T : Type} (C : Z) (h : hardening) (base slot_size : Z).

Lemma object_fresh_rel : 0 <= C < 2 ^ 32 -> C + 31 < 2 ^ size_bits -> rel C (PoolSpec.fresh C : aop T) (ObjectPool.fresh C).
Proof.
  intros HC HM. destruct (slots_bounds C HC HM) as (H1 & H2 & H3). split; cbn.
  - apply length_replicate.
  - apply length_replicate.
  - intros i s [-> Hi]%lookup_replicate. exists Raw. split; [apply lookup_replicate; split; [done|lia]|done].
  - eapply holds_ext; [|apply fresh_holds]. intros x Hx. unfold is_live. cbn.
    destruct (replicate (Z.to_nat C) Free !! Z.to_nat x) as [s|] eqn:E; [|done]. by apply lookup_replicate in E as [-> _].
  - done.
  - by apply list.NoDup_nil.
  - intros i Hi. by apply not_elem_of_nil in Hi.
  - lia.
  - intros i. rewrite lookup_replicate, elem_of_nil. split; [intros [_ Hi]; right; lia|intros [?|?]; [done|split; [done|lia]]].
  - unfold occupied. induction (Z.to_nat C) as [|n IH]; [done|]. cbn. done.
Qed.

(** C8. [object_pool] is the abstract pool, for any program: whatever constructors and
    destructors do - emplace, destroy, clear, ask, throw, catch, to any depth - the
    program ends the same way against the pool as against the specification, with the
    same pointers and answers, and the pool left in the state that the specification
    says.  There a slot is taken from those freed, the last one first, or else the
    lowest never used; a constructor that throws gives its slot back; a pointer counts
    as the pool's exactly when it is the address of a slot in use; and an object is no
    longer there, and its slot not yet free, while its destructor runs.  A program whose
    constructors end no objects never meets undefined behaviour, and if its destructors
    do not either it needs no fuel for them. *)
Theorem object_pool_refines (D : T -> code T unit) (fuel : nat) {A} (c : code T A) :
  0 <= C < 2 ^ 32 -> C + 31 < 2 ^ size_bits -> 0 < base -> 0 < slot_size -> base + slot_size * C <= 2 ^ size_bits ->
  let spec := running (Pool0 := PoolSpec.pool C h base slot_size) D fuel c (PoolSpec.fresh C) in
  let out := running (Pool0 := object_pool_pool C h base slot_size) D fuel c (ObjectPool.fresh C) in
  match spec, out with
  | Ret x a, Ret y p => y = x /\ rel C a p
  | Throw a, Throw p => rel C a p
  | Trap, Trap | Fault, Fault | Spin, Spin => True
  | _, _ => False
  end /\
  (calm_code c -> (forall v, calm_code (D v)) -> out <> Fault) /\
  (calm_code c -> (forall v, gentle (D v)) -> (1 <= fuel)%nat -> out <> Fault /\ out <> Spin).
Proof.
  intros HC HM Hb Hs He spec out.
  pose proof (interp_alike C h base slot_size HC HM Hb Hs He _ _ c
    (destructing_alike C h base slot_size HC HM Hb Hs He D fuel) _ _ (object_fresh_rel HC HM)) as Hsim.
  fold spec out in Hsim. change (interp (destructing D fuel) c (PoolSpec.fresh C)) with spec in Hsim.
  change (interp (destructing D fuel) c (ObjectPool.fresh C)) with out in Hsim.
  assert (idle (PoolSpec.fresh C : aop T)) as Hi by (intros i Hi; apply lookup_replicate in Hi as [? _]; done).
  split; [|split].
  - destruct spec, out; cbn in Hsim; try done; [by destruct Hsim as (? & ? & _)|by destruct Hsim].
  - intros Hc HD E. rewrite E in Hsim.
    pose proof (calm_tame C h base slot_size false (destructing D fuel) c Hc (fun v => destructing_tame C h base slot_size D fuel v HD) _ Hi) as Ht.
    change (interp (destructing D fuel) c (PoolSpec.fresh C)) with spec in Ht. clearbody spec. by destruct spec; cbn in Hsim.
  - intros Hc HD Hf.
    pose proof (calm_tame C h base slot_size true (destructing D fuel) c Hc (fun v => destructing_gentle C h base slot_size D fuel v HD Hf) _ Hi) as Ht.
    change (interp (destructing D fuel) c (PoolSpec.fresh C)) with spec in Ht.
    clearbody spec. split; intros E; rewrite E in Hsim; by destruct spec; cbn in Hsim.
Qed.
End claims.

Section witnesses.
  #[local] Existing Instance size_t_32.

(** Two slots at 4096, eight bytes each.  A constructor that emplaces and then throws
    gives its own slot back; the destructor of 7 finds its object gone and its slot not
    yet free; a pointer into the middle of a slot is not the pool's. *)
Definition ends_seven (v : Z) : code Z unit :=
  if v =? 7 then Contains 4104 (fun here => if here then Raise else TryEmplace (Done 8) (fun ptr => if ptr =? 0 then Done tt else Raise))
  else Done tt.
Definition some_program : code Z (list Z) :=
  Catch (TryEmplace (TryEmplace (Done 7) (fun _ => Raise)) Done) (fun r =>
  TryEmplace (Done 5) (fun p =>
  TryEmplace (Done 6) (fun p' =>
  Destroy 4104 (fun b => Contains 4100 (fun inside =>
  Observe (fun n m e f => Done [default (-1) r; p; p'; Z.b2z b; Z.b2z inside; n; m; Z.b2z e; Z.b2z f])))))).

Lemma some_program_calm : calm_code some_program /\ forall v, gentle (ends_seven v).
Proof.
  split; [by repeat split|]. intros v. unfold ends_seven. destruct (v =? 7); [|done]. intros here. destruct here; [done|].
  split; [done|]. intros ptr. by destruct (ptr =? 0).
Qed.

Lemma object_pool_refines_witness :
  exists p, running (Pool0 := object_pool_pool 2 HARDENING_FAST 4096 8) ends_seven 1 some_program (ObjectPool.fresh 2) =
      Ret [-1; 4096; 0; 1; 0; 1; 1; 0; 0] p /\
    ObjectPool.storage_ p = [Object 5; Link 0] /\ exists a, rel 2 a p.
Proof.
  destruct (object_pool_refines 2 HARDENING_FAST 4096 8 ends_seven 1 some_program
    ltac:(lia) ltac:(by vm_compute) ltac:(lia) ltac:(lia) ltac:(by vm_compute)) as (Hm & _ & Hok).
  destruct (Hok (proj1 some_program_calm) (proj2 some_program_calm) ltac:(lia)) as [HF HS].
  eexists. split; [vm_compute; reflexivity|]. split; [done|].
  match type of Hm with match ?s with _ => _ end => destruct s as [x a| | | |] eqn:Es; [|vm_compute in Es; done..] end.
  exists a. match type of Hm with match ?o with _ => _ end => destruct o as [y p| | | |] eqn:Eo; [|vm_compute in Eo; done..] end.
  vm_compute in Eo. injection Eo as _ <-. apply Hm.
Defined.
End witnesses.
