(* ===== verification/IntrusiveList.v ===== *)
(** * [intrusive_list]

    [include/metl/intrusive_list.hpp] and [include/metl/detail/dlist_link.hpp]: lists
    that link objects of the caller.

    A link lives at an address: the head of a list, or the hook of an element.  The
    state is the links that are alive and the [size_] of each list; using a link that
    is not alive, or a null pointer, is [Fault]. *)

From Stdlib Require Import ZArith Lia.
From stdpp Require Import base numbers list option gmap tactics.
From S2P Require Import Prelude.
Local Open Scope Z_scope.

(** The address of a link; a list is known by its number. *)
Inductive addr : Set := Head (l : nat) | Node (n : nat).
#[export] Instance addr_eq_dec : EqDecision addr.
Proof. solve_decision. Defined.
#[export] Instance addr_countable : Countable addr.
Proof.
  refine (inj_countable' (fun a => match a with Head l => inl l | Node n => inr n end)
    (fun s => match s with inl l => Head l | inr n => Node n end) _); by intros [].
Defined.

Record dlink : Set := mk_dlink { next : option addr; prev : option addr; owner : option nat }.
Record dworld : Set := mk_dworld { links : gmap addr dlink; sizes : gmap nat Z }.

Module DList.
Section dlist.
  Context `{SizeT} (h : hardening).
  Abbreviation MD := (M dworld).

Definition read (a : addr) : MD dlink := fun w => match links w !! a with Some k => Ret k w | None => Fault end.
Definition write (a : addr) (k : dlink) : MD unit := fun w =>
  match links w !! a with Some _ => Ret tt (mk_dworld (<[a := k]> (links w)) (sizes w)) | None => Fault end.
Definition deref (p : option addr) : MD addr := match p with Some a => ret a | None => fault end.

Definition set_next (a : addr) (p : option addr) : MD unit := let! k := read a in write a (mk_dlink p (prev k) (owner k)).
Definition set_prev (a : addr) (p : option addr) : MD unit := let! k := read a in write a (mk_dlink (next k) p (owner k)).
Definition set_owner (a : addr) (o : option nat) : MD unit := let! k := read a in write a (mk_dlink (next k) (prev k) o).

(** *** [detail/dlist_link.hpp] *)

Definition dlist_link_before (pos node : addr) : MD unit :=
  set_next node (Some pos) ;;;
  let! k := read pos in
  set_prev node (prev k) ;;;
  let! k := read pos in
  let! before := deref (prev k) in
  set_next before (Some node) ;;;
  set_prev pos (Some node).

Definition dlist_unlink (node : addr) : MD unit :=
  let! k := read node in
  let! before := deref (prev k) in
  set_next before (next k) ;;;
  let! k := read node in
  let! after := deref (next k) in
  set_prev after (prev k) ;;;
  set_next node None ;;;
  set_prev node None.

(** *** [list_hook] *)

(** A hook that is constructed, by whichever constructor, is in no list; storage that
    holds a live hook is not constructed over. *)
Definition construct_hook (n : nat) : MD unit := fun w =>
  match links w !! Node n with
  | None => Ret tt (mk_dworld (<[Node n := mk_dlink None None None]> (links w)) (sizes w))
  | Some _ => Fault
  end.
Definition assign_hook (n other : nat) : MD unit := read (Node n) ;;; read (Node other) ;;; ret tt.
Definition destroy_hook (n : nat) : MD unit :=
  let! k := read (Node n) in
  metl_harden (match owner k with None => true | Some _ => false end) ;;;
  modify (fun w => mk_dworld (delete (Node n) (links w)) (sizes w)).
Definition is_linked (n : nat) : MD bool :=
  let! k := read (Node n) in ret (match owner k with Some _ => true | None => false end).

(** *** [intrusive_list] *)

Definition get_size (l : nat) : MD Z := fun w => match sizes w !! l with Some n => Ret n w | None => Fault end.
Definition set_size (l : nat) (n : Z) : MD unit := fun w =>
  match sizes w !! l with Some _ => Ret tt (mk_dworld (links w) (<[l := wrap n]> (sizes w))) | None => Fault end.

Definition construct_list (l : nat) : MD unit := fun w =>
  match sizes w !! l with
  | None => Ret tt (mk_dworld (<[Head l := mk_dlink (Some (Head l)) (Some (Head l)) (Some l)]> (links w)) (<[l := 0]> (sizes w)))
  | Some _ => Fault
  end.

Definition empty (l : nat) : MD bool := let! k := read (Head l) in ret (bool_decide (next k = Some (Head l))).
Definition size (l : nat) : MD Z := get_size l.

(** A reference to an element; the head is none. *)
Definition value_of (p : option addr) : MD nat := match p with Some (Node n) => ret n | _ => fault end.
Definition front (l : nat) : MD nat :=
  let! e := empty l in metl_assert h (negb e) ;;; let! k := read (Head l) in value_of (next k).
Definition back (l : nat) : MD nat :=
  let! e := empty l in metl_assert h (negb e) ;;; let! k := read (Head l) in value_of (prev k).

(** An iterator is its [node_]. *)
Definition begin_ (l : nat) : MD (option addr) := let! k := read (Head l) in ret (next k).
Definition end_ (l : nat) : option addr := Some (Head l).
Definition advance (it : option addr) : MD (option addr) := let! a := deref it in let! k := read a in ret (next k).
Definition retreat (it : option addr) : MD (option addr) := let! a := deref it in let! k := read a in ret (prev k).

Definition in_this_list (l : nat) (pos : option addr) : MD bool :=
  match pos with
  | None => ret false
  | Some a => let! k := read a in ret (bool_decide (owner k = Some l))
  end.

Definition unlink (l : nat) (node : addr) : MD unit :=
  dlist_unlink node ;;;
  set_owner node None ;;;
  let! n := get_size l in set_size l (n - 1).

Definition insert (l : nat) (pos : option addr) (value : nat) : MD (option addr) :=
  let node := Node value in
  let! k := read node in
  metl_harden (match owner k with None => true | Some _ => false end) ;;;
  let! here := in_this_list l pos in
  metl_harden here ;;;
  let! a := deref pos in
  dlist_link_before a node ;;;
  set_owner node (Some l) ;;;
  let! n := get_size l in set_size l (n + 1) ;;;
  ret (Some node).

Definition push_front (l value : nat) : MD unit := let! b := begin_ l in insert l b value ;;; ret tt.
Definition push_back (l value : nat) : MD unit := insert l (end_ l) value ;;; ret tt.

Definition erase_at (l : nat) (pos : option addr) : MD (option addr) :=
  let! here := in_this_list l pos in
  metl_harden here ;;;
  let! a := deref pos in
  metl_harden (negb (bool_decide (a = Head l))) ;;;
  let! k := read a in
  unlink l a ;;;
  ret (next k).

Definition pop_front (l : nat) : MD unit := let! b := begin_ l in erase_at l b ;;; ret tt.
Definition pop_back (l : nat) : MD unit := let! k := read (Head l) in erase_at l (prev k) ;;; ret tt.

Definition erase (l value : nat) : MD unit :=
  let! k := read (Node value) in
  metl_harden (bool_decide (owner k = Some l)) ;;;
  unlink l (Node value).

Definition splice (l : nat) (pos : option addr) (other : nat) (it : option addr) : MD unit :=
  let! here := in_this_list l pos in
  metl_harden here ;;;
  let! there := in_this_list other it in
  metl_harden there ;;;
  let! a := deref it in
  metl_harden (negb (bool_decide (a = Head other))) ;;;
  let! k := read a in
  if bool_decide (pos = Some a) || bool_decide (pos = next k) then ret tt
  else
    dlist_unlink a ;;;
    let! p := deref pos in
    dlist_link_before p a ;;;
    if bool_decide (other = l) then ret tt
    else
      set_owner a (Some l) ;;;
      let! n := get_size other in set_size other (n - 1) ;;;
      let! n := get_size l in set_size l (n + 1).

Fixpoint clear_loop (fuel : nat) (l : nat) : MD unit :=
  let! k := read (Head l) in
  if bool_decide (next k = Some (Head l)) then ret tt
  else match fuel with
  | O => fun _ => Spin
  | S fuel' => let! a := deref (next k) in unlink l a ;;; clear_loop fuel' l
  end.
Definition clear (l : nat) : MD unit := let! n := get (fun w => base.size (links w)) in clear_loop n l.

Definition destroy_list (l : nat) : MD unit :=
  clear l ;;; modify (fun w => mk_dworld (delete (Head l) (links w)) (delete l (sizes w))).
End dlist.
End DList.
