(* ===== verification/IntrusiveListFacts.v ===== *)
(** * The lists that the links make, and that [intrusive_list] keeps them

    The abstract state is the contents of each list and, for each live element, the list
    it is in.  A list of elements is a segment of links from its head back to its head;
    linking and unlinking cut segments and join them. *)

From Stdlib Require Import ZArith Lia.
From stdpp Require Import base numbers list option gmap tactics.
From S2P Require Import Prelude IntrusiveList.
Local Open Scope Z_scope.

Record aworld : Set := mk_aworld { contents : gmap nat (list nat); home : gmap nat (option nat) }.

(** ** The abstract operations *)

(** [n] before the first [y]. *)
Fixpoint insert_before (y n : nat) (xs : list nat) : list nat :=
  match xs with
  | [] => [n]
  | z :: t => if decide (z = y) then n :: z :: t else z :: insert_before y n t
  end.
Definition place (pos : addr) (n : nat) (xs : list nat) : list nat :=
  match pos with Head _ => xs ++ [n] | Node y => insert_before y n xs end.
Definition without (n : nat) (xs : list nat) : list nat := List.filter (fun x => negb (bool_decide (x = n))) xs.

(** The neighbours in a sequence of addresses. *)
Fixpoint after (a : addr) (path : list addr) : option addr :=
  match path with
  | x :: t => match t with y :: _ => if decide (x = a) then Some y else after a t | [] => None end
  | [] => None
  end.
Fixpoint before (a : addr) (path : list addr) : option addr :=
  match path with
  | x :: t => match t with y :: _ => if decide (y = a) then Some x else before a t | [] => None end
  | [] => None
  end.
Definition path_of (l : nat) (xs : list nat) : list addr := Head l :: (Node <$> xs) ++ [Head l].

Module ListSpec.
Section spec.
  Context `{SizeT} (h : hardening).
  Abbreviation MA := (M aworld).

Definition list_at (l : nat) : MA (list nat) := fun a => match contents a !! l with Some xs => Ret xs a | None => Fault end.
Definition home_of (n : nat) : MA (option nat) := fun a => match home a !! n with Some o => Ret o a | None => Fault end.
Definition set_list (l : nat) (xs : list nat) : MA unit := modify (fun a => mk_aworld (<[l := xs]> (contents a)) (home a)).
Definition set_home (n : nat) (o : option nat) : MA unit := modify (fun a => mk_aworld (contents a) (<[n := o]> (home a))).

(** The list that a position is in. *)
Definition list_of (pos : addr) : MA (option nat) :=
  match pos with Head l => list_at l ;;; ret (Some l) | Node n => home_of n end.
Definition neighbour (look : addr -> list addr -> option addr) (pos : option addr) : MA (option addr) :=
  match pos with
  | None => fault
  | Some p => let! o := list_of p in
              match o with
              | None => ret None
              | Some l => let! xs := list_at l in ret (look p (path_of l xs))
              end
  end.

(** A position that must be in the list [l]. *)
Definition position (l : nat) (pos : option addr) : MA addr :=
  match pos with
  | None => trap
  | Some p => let! o := list_of p in if decide (o = Some l) then ret p else trap
  end.

Definition construct_hook (n : nat) : MA unit := fun a =>
  match home a !! n with None => Ret tt (mk_aworld (contents a) (<[n := None]> (home a))) | Some _ => Fault end.
Definition destroy_hook (n : nat) : MA unit :=
  let! o := home_of n in
  match o with Some _ => trap | None => modify (fun a => mk_aworld (contents a) (delete n (home a))) end.
Definition is_linked (n : nat) : MA bool := let! o := home_of n in ret (match o with Some _ => true | None => false end).
Definition assign_hook (n other : nat) : MA unit := home_of n ;;; home_of other ;;; ret tt.

Definition construct_list (l : nat) : MA unit := fun a =>
  match contents a !! l with None => Ret tt (mk_aworld (<[l := []]> (contents a)) (home a)) | Some _ => Fault end.
Definition size (l : nat) : MA Z := let! xs := list_at l in ret (wrap (Z.of_nat (length xs))).
Definition empty (l : nat) : MA bool := let! xs := list_at l in ret (bool_decide (xs = [])).
Definition end_of (pick : list nat -> option nat) (l : nat) : MA nat :=
  let! xs := list_at l in
  match pick xs with Some n => ret n | None => metl_assert h false ;;; fault end.

Definition take_out (l n : nat) : MA unit := let! xs := list_at l in set_list l (without n xs) ;;; set_home n None.
Definition insert (l : nat) (pos : option addr) (n : nat) : MA (option addr) :=
  let! o := home_of n in
  match o with
  | Some _ => trap
  | None =>
      let! p := position l pos in
      let! xs := list_at l in
      set_list l (place p n xs) ;;; set_home n (Some l) ;;; ret (Some (Node n))
  end.
Definition erase_at (l : nat) (pos : option addr) : MA (option addr) :=
  let! p := position l pos in
  match p with
  | Head _ => trap
  | Node n => let! k := neighbour after (Some p) in take_out l n ;;; ret k
  end.
Definition erase (l n : nat) : MA unit := let! o := home_of n in if decide (o = Some l) then take_out l n else trap.
Definition push_front (l n : nat) : MA unit :=
  let! xs := list_at l in
  insert l (Some (match xs with [] => Head l | x :: _ => Node x end)) n ;;; ret tt.
Definition push_back (l n : nat) : MA unit := insert l (Some (Head l)) n ;;; ret tt.
Definition pop (pick : list nat -> option nat) (l : nat) : MA unit :=
  let! xs := list_at l in match pick xs with Some n => take_out l n | None => trap end.

Definition splice (l : nat) (pos : option addr) (other : nat) (it : option addr) : MA unit :=
  let! p := position l pos in
  let! i := position other it in
  match i with
  | Head _ => trap
  | Node n =>
      if decide (p = Node n) then ret tt
      else
        take_out other n ;;;
        let! xs := list_at l in
        set_list l (place p n xs) ;;; set_home n (Some l)
  end.
Definition clear (l : nat) : MA unit :=
  let! xs := list_at l in
  modify (fun a => mk_aworld (<[l := []]> (contents a)) (foldr (fun n m => <[n := None]> m) (home a) xs)).
Definition destroy_list (l : nat) : MA unit :=
  clear l ;;; modify (fun a => mk_aworld (delete l (contents a)) (home a)).
End spec.
End ListSpec.

(** ** Segments *)

Definition nextp (w : dworld) (a : addr) : option addr := links w !! a ≫= next.
Definition prevp (w : dworld) (a : addr) : option addr := links w !! a ≫= prev.
Definition joined (w : dworld) (x y : addr) : Prop := nextp w x = Some y /\ prevp w y = Some x.
Fixpoint seg (w : dworld) (x : addr) (rest : list addr) : Prop :=
  match rest with [] => True | y :: rest' => joined w x y /\ seg w y rest' end.
Definition final (x : addr) (rest : list addr) : addr := default x (list.last rest).
Definition ring (w : dworld) (l : nat) (xs : list nat) : Prop := seg w (Head l) ((Node <$> xs) ++ [Head l]).

Lemma final_cons x y rest : final x (y :: rest) = final y rest.
Proof. unfold final. by destruct rest as [|z rest] using rev_ind; [|rewrite app_comm_cons, !last_snoc]. Qed.

Lemma seg_split w x l1 y l2 : seg w x (l1 ++ y :: l2) <-> seg w x l1 /\ joined w (final x l1) y /\ seg w y l2.
Proof.
  revert x. induction l1 as [|z l1 IH]; intros x; cbn [app seg]; [unfold final; cbn; tauto|]. rewrite IH, final_cons. tauto.
Qed.

Lemma seg_frame w w' x rest :
  NoDup (x :: rest) -> (forall a, a ∈ x :: rest -> a <> final x rest -> nextp w' a = nextp w a) ->
  (forall b, b ∈ rest -> prevp w' b = prevp w b) -> seg w x rest -> seg w' x rest.
Proof.
  revert x. induction rest as [|y rest IH]; intros x Hnd Hn Hp; [done|]. apply list.NoDup_cons in Hnd as [Hx Hnd].
  cbn [seg]. intros [[H1 H2] Hs]. split; [split|].
  - rewrite Hn; [done|by left|]. rewrite final_cons. intros ->. apply Hx. unfold final.
    destruct (list.last rest) as [z|] eqn:El; cbn; [|by left]. right. by apply last_Some_elem_of.
  - rewrite Hp; [done|by left].
  - apply IH; [done| | |done].
    + intros a Ha Hne. apply Hn; [by right|]. by rewrite final_cons.
    + intros b Hb. apply Hp. by right.
Qed.

(** ** Writing links *)

Definition upd (f : dlink -> dlink) (a : addr) (w : dworld) : dworld := mk_dworld (alter f a (links w)) (sizes w).
Definition upd_next a p := upd (fun k => mk_dlink p (prev k) (owner k)) a.
Definition upd_prev a p := upd (fun k => mk_dlink (next k) p (owner k)) a.
Definition upd_owner a o := upd (fun k => mk_dlink (next k) (prev k) o) a.
Definition ownerp (w : dworld) (a : addr) : option (option nat) := owner <$> links w !! a.
Definition alive (w : dworld) (a : addr) : Prop := is_Some (links w !! a).

Section writes.
  Implicit Types (w : dworld) (a b : addr) (p : option addr) (o : option nat).

Lemma alive_upd f a w b : alive (upd f a w) b <-> alive w b.
Proof.
  unfold alive, upd. cbn. destruct (decide (a = b)) as [->|Hne]; [rewrite lookup_alter_eq|by rewrite lookup_alter_ne].
  by rewrite fmap_is_Some.
Qed.

Lemma view_upd {A} (v : dlink -> A) f a w b :
  v <$> links (upd f a w) !! b = if decide (b = a) then v ∘ f <$> links w !! b else v <$> links w !! b.
Proof.
  unfold upd. cbn. destruct (decide (b = a)) as [->|Hne]; [rewrite lookup_alter_eq|by rewrite lookup_alter_ne].
  by destruct (links w !! a).
Qed.

Lemma nextp_view w a : nextp w a = mjoin (next <$> links w !! a).
Proof. unfold nextp. by destruct (links w !! a). Qed.
Lemma prevp_view w a : prevp w a = mjoin (prev <$> links w !! a).
Proof. unfold prevp. by destruct (links w !! a). Qed.

Lemma nextp_upd_next a p w b : nextp (upd_next a p w) b = if decide (b = a) then (if links w !! a is Some _ then p else None) else nextp w b.
Proof. rewrite !nextp_view. unfold upd_next. rewrite view_upd. destruct (decide (b = a)) as [->|]; [|done]. by destruct (links w !! a). Qed.
Lemma prevp_upd_prev a p w b : prevp (upd_prev a p w) b = if decide (b = a) then (if links w !! a is Some _ then p else None) else prevp w b.
Proof. rewrite !prevp_view. unfold upd_prev. rewrite view_upd. destruct (decide (b = a)) as [->|]; [|done]. by destruct (links w !! a). Qed.
Lemma nextp_upd_prev a p w b : nextp (upd_prev a p w) b = nextp w b.
Proof. rewrite !nextp_view. unfold upd_prev. rewrite view_upd. by destruct (decide (b = a)). Qed.
Lemma prevp_upd_next a p w b : prevp (upd_next a p w) b = prevp w b.
Proof. rewrite !prevp_view. unfold upd_next. rewrite view_upd. by destruct (decide (b = a)). Qed.
Lemma nextp_upd_owner a o w b : nextp (upd_owner a o w) b = nextp w b.
Proof. rewrite !nextp_view. unfold upd_owner. rewrite view_upd. by destruct (decide (b = a)). Qed.
Lemma prevp_upd_owner a o w b : prevp (upd_owner a o w) b = prevp w b.
Proof. rewrite !prevp_view. unfold upd_owner. rewrite view_upd. by destruct (decide (b = a)). Qed.
Lemma ownerp_upd_next a p w b : ownerp (upd_next a p w) b = ownerp w b.
Proof. unfold ownerp, upd_next. rewrite view_upd. by destruct (decide (b = a)). Qed.
Lemma ownerp_upd_prev a p w b : ownerp (upd_prev a p w) b = ownerp w b.
Proof. unfold ownerp, upd_prev. rewrite view_upd. by destruct (decide (b = a)). Qed.
Lemma ownerp_upd_owner a o w b : ownerp (upd_owner a o w) b = if decide (b = a) then (if links w !! a is Some _ then Some o else None) else ownerp w b.
Proof. unfold ownerp, upd_owner. rewrite view_upd. destruct (decide (b = a)) as [->|]; [|done]. by destruct (links w !! a). Qed.

Lemma ownerp_alive w a o : ownerp w a = Some o -> alive w a.
Proof. unfold ownerp, alive. destruct (links w !! a); [eauto|done]. Qed.

(** The steps themselves. *)
Lemma read_alive w a : alive w a -> DList.read a w = Ret (mk_dlink (nextp w a) (prevp w a) (default None (ownerp w a))) w.
Proof. intros [k Hk]. unfold DList.read, nextp, prevp, ownerp. rewrite Hk. by destruct k. Qed.

Lemma write_step f w a k : links w !! a = Some k -> DList.write a (f k) w = Ret tt (upd f a w).
Proof.
  intros Hk. unfold DList.write, upd. rewrite Hk. do 2 f_equal. apply map_eq. intros b. destruct (decide (a = b)) as [<-|Hne].
  - by rewrite lookup_insert_eq, lookup_alter_eq, Hk.
  - by rewrite lookup_insert_ne, lookup_alter_ne.
Qed.

Lemma set_next_step w a p : alive w a -> DList.set_next a p w = Ret tt (upd_next a p w).
Proof.
  intros [k Hk]. unfold DList.set_next, bind, DList.read. rewrite Hk.
  by apply (write_step (fun k => mk_dlink p (prev k) (owner k))).
Qed.
Lemma set_prev_step w a p : alive w a -> DList.set_prev a p w = Ret tt (upd_prev a p w).
Proof.
  intros [k Hk]. unfold DList.set_prev, bind, DList.read. rewrite Hk.
  by apply (write_step (fun k => mk_dlink (next k) p (owner k))).
Qed.
Lemma set_owner_step w a o : alive w a -> DList.set_owner a o w = Ret tt (upd_owner a o w).
Proof.
  intros [k Hk]. unfold DList.set_owner, bind, DList.read. rewrite Hk.
  by apply (write_step (fun k => mk_dlink (next k) (prev k) o)).
Qed.

(** [node] goes between [x] and [pos]. *)
Definition linked_before (x pos node : addr) w : dworld :=
  upd_prev pos (Some node) (upd_next x (Some node) (upd_prev node (Some x) (upd_next node (Some pos) w))).

Lemma link_before_step w x pos node :
  alive w node -> alive w pos -> alive w x -> prevp w pos = Some x -> pos <> node ->
  DList.dlist_link_before pos node w = Ret tt (linked_before x pos node w).
Proof.
  intros Hn Hp Hx Epr Hne. unfold DList.dlist_link_before. rewrite (bind_Ret _ _ _ _ _ (set_next_step w node _ Hn)).
  set (w1 := upd_next node (Some pos) w). assert (forall b, alive w1 b <-> alive w b) as H1 by (intros; apply alive_upd).
  rewrite (bind_Ret _ _ _ _ _ (read_alive w1 pos (proj2 (H1 _) Hp))). cbn [prev].
  assert (prevp w1 pos = Some x) as E1 by (unfold w1; by rewrite prevp_upd_next). rewrite E1.
  rewrite (bind_Ret _ _ _ _ _ (set_prev_step w1 node _ (proj2 (H1 _) Hn))). set (w2 := upd_prev node (Some x) w1).
  assert (forall b, alive w2 b <-> alive w b) as H2 by (intros; unfold w2; rewrite <- H1; apply alive_upd).
  rewrite (bind_Ret _ _ _ _ _ (read_alive w2 pos (proj2 (H2 _) Hp))). cbn [prev].
  assert (prevp w2 pos = Some x) as E2 by (unfold w2; rewrite prevp_upd_prev; by case_decide). rewrite E2. cbn [DList.deref]. mstep.
  rewrite (bind_Ret _ _ _ _ _ (set_next_step w2 x _ (proj2 (H2 _) Hx))).
  rewrite set_prev_step; [done|]. apply alive_upd. by apply H2.
Qed.

(** [node] leaves from between [x] and [y]. *)
Definition unlinked_from (x node y : addr) w : dworld :=
  upd_prev node None (upd_next node None (upd_prev y (Some x) (upd_next x (Some y) w))).

Lemma unlink_step w x node y :
  alive w node -> alive w x -> alive w y -> prevp w node = Some x -> nextp w node = Some y -> x <> node -> y <> node ->
  DList.dlist_unlink node w = Ret tt (unlinked_from x node y w).
Proof.
  intros Hn Hx Hy Epr Enx Hxn Hyn. unfold DList.dlist_unlink. rewrite (bind_Ret _ _ _ _ _ (read_alive w node Hn)). cbn [prev next].
  rewrite Epr, Enx. cbn [DList.deref]. mstep. rewrite (bind_Ret _ _ _ _ _ (set_next_step w x _ Hx)). set (w1 := upd_next x (Some y) w).
  assert (forall b, alive w1 b <-> alive w b) as H1 by (intros; apply alive_upd).
  rewrite (bind_Ret _ _ _ _ _ (read_alive w1 node (proj2 (H1 _) Hn))). cbn [prev next].
  assert (nextp w1 node = Some y) as E1 by (unfold w1; rewrite nextp_upd_next; case_decide; [congruence|done]).
  assert (prevp w1 node = Some x) as E1' by (unfold w1; by rewrite prevp_upd_next). rewrite E1, E1'. cbn [DList.deref]. mstep.
  rewrite (bind_Ret _ _ _ _ _ (set_prev_step w1 y _ (proj2 (H1 _) Hy))). set (w2 := upd_prev y (Some x) w1).
  assert (forall b, alive w2 b <-> alive w b) as H2 by (intros; unfold w2; rewrite <- H1; apply alive_upd).
  rewrite (bind_Ret _ _ _ _ _ (set_next_step w2 node _ (proj2 (H2 _) Hn))). rewrite set_prev_step; [done|]. apply alive_upd. by apply H2.
Qed.

Lemma linked_before_views w x pos node b :
  alive w node -> alive w pos -> alive w x -> pos <> node -> x <> node ->
  nextp (linked_before x pos node w) b = (if decide (b = x) then Some node else if decide (b = node) then Some pos else nextp w b) /\
  prevp (linked_before x pos node w) b = (if decide (b = pos) then Some node else if decide (b = node) then Some x else prevp w b) /\
  ownerp (linked_before x pos node w) b = ownerp w b /\ (alive (linked_before x pos node w) b <-> alive w b).
Proof.
  intros [kn Hn] [kp Hp] [kx Hx] Hpn Hxn. unfold linked_before, upd_prev, upd_next, upd, nextp, prevp, ownerp, alive. cbn [links].
  repeat case_decide; subst; rewrite ?lookup_alter_ne by congruence; rewrite ?lookup_alter_eq, ?lookup_alter_ne by congruence;
    rewrite ?lookup_alter_eq, ?lookup_alter_ne by congruence; rewrite ?Hn, ?Hp, ?Hx; cbn; split_and!; try done; try (split; eauto).
  all: by destruct (links w !! b).
Qed.

Lemma unlinked_from_views w x node y b :
  alive w node -> alive w x -> alive w y -> x <> node -> y <> node ->
  nextp (unlinked_from x node y w) b = (if decide (b = node) then None else if decide (b = x) then Some y else nextp w b) /\
  prevp (unlinked_from x node y w) b = (if decide (b = node) then None else if decide (b = y) then Some x else prevp w b) /\
  ownerp (unlinked_from x node y w) b = ownerp w b /\ (alive (unlinked_from x node y w) b <-> alive w b).
Proof.
  intros Hn Hx Hy Hxn Hyn. unfold unlinked_from.
  assert (forall w a, alive w a -> exists k, links w !! a = Some k) as Hl by (intros ? ? [k Hk]; eauto).
  split_and!.
  - rewrite nextp_upd_prev, nextp_upd_next. case_decide; subst.
    + destruct (Hl (upd_prev y (Some x) (upd_next x (Some y) w)) node) as [k Hk]; [unfold upd_prev, upd_next; by rewrite !alive_upd|]. by rewrite Hk.
    + rewrite nextp_upd_prev, nextp_upd_next. case_decide; [|done]. subst. destruct Hx as [k Hk]. by rewrite Hk.
  - rewrite prevp_upd_prev. case_decide; subst.
    + destruct (Hl (upd_next node None (upd_prev y (Some x) (upd_next x (Some y) w))) node) as [k Hk]; [unfold upd_prev, upd_next; by rewrite !alive_upd|]. by rewrite Hk.
    + rewrite prevp_upd_next, prevp_upd_prev. case_decide; [|by rewrite prevp_upd_next].
      subst. destruct (Hl (upd_next x (Some y) w) y) as [k Hk]; [unfold upd_prev, upd_next; by rewrite !alive_upd|]. by rewrite Hk.
  - by rewrite ownerp_upd_prev, ownerp_upd_next, ownerp_upd_prev, ownerp_upd_next.
  - unfold upd_prev, upd_next. by rewrite !alive_upd.
Qed.
End writes.

(** ** Rings *)

Definition first (l : nat) (B : list nat) : addr := match B with [] => Head l | y :: _ => Node y end.
Definition lastp (l : nat) (A : list nat) : addr := final (Head l) (Node <$> A).

Section rings.
  Implicit Types (w : dworld) (a b : addr) (l n : nat) (A B xs : list nat).

Lemma ring_cut w l A B :
  ring w l (A ++ B) <-> seg w (Head l) (Node <$> A) /\ joined w (lastp l A) (first l B) /\ seg w (first l B) (tail ((Node <$> B) ++ [Head l])).
Proof. unfold ring. rewrite fmap_app, <- app_assoc. destruct B as [|y B]; cbn [fmap list_fmap app first tail]; apply seg_split. Qed.

Lemma lastp_in l A : lastp l A = Head l \/ exists n, lastp l A = Node n /\ n ∈ A.
Proof.
  unfold lastp, final. destruct A as [|x A _] using rev_ind; [by left|]. right. exists x. rewrite fmap_app. cbn [fmap list_fmap]. rewrite last_snoc.
  split; [done|]. apply elem_of_app. right. by left.
Qed.
Lemma lastp_not l A n : n ∉ A -> lastp l A <> Node n.
Proof. intros Hn E. destruct (lastp_in l A) as [E'|(m & E' & Hm)]; [congruence|]. rewrite E in E'. by injection E' as ->. Qed.
Lemma first_not l B n : n ∉ B -> first l B <> Node n.
Proof. intros Hn E. destruct B as [|y B]; [done|]. cbn in E. injection E as ->. apply Hn. by left. Qed.

Lemma head_path_nodup l A : NoDup A -> NoDup (Head l :: (Node <$> A)).
Proof.
  intros Hnd. apply list.NoDup_cons. split; [intros (x & E & _)%list_elem_of_fmap; done|]. apply NoDup_fmap_2; [|done]. by intros x y [= ->].
Qed.
Lemma path_head_nodup l B : NoDup B -> NoDup ((Node <$> B) ++ [Head l]).
Proof.
  intros Hnd. apply list.NoDup_app. split; [apply NoDup_fmap_2; [by intros x y [= ->]|done]|]. split; [|apply list.NoDup_singleton].
  intros x (y & -> & _)%list_elem_of_fmap ?%list_elem_of_singleton. done.
Qed.
Lemma path_first l B : (Node <$> B) ++ [Head l] = first l B :: tail ((Node <$> B) ++ [Head l]).
Proof. by destruct B. Qed.
Lemma final_path l B : final (first l B) (tail ((Node <$> B) ++ [Head l])) = Head l.
Proof. rewrite <- (final_cons (Head l)), <- path_first. unfold final. by rewrite last_snoc. Qed.

(** The two sides of a cut keep their links when only the links across it change. *)
Lemma ring_sides w w' l A B :
  NoDup (A ++ B) ->
  (forall a, a <> lastp l A -> (a = Head l \/ exists n, a = Node n /\ n ∈ A ++ B) -> nextp w' a = nextp w a) ->
  (forall b, b <> first l B -> (b = Head l \/ exists n, b = Node n /\ n ∈ A ++ B) -> prevp w' b = prevp w b) ->
  seg w (Head l) (Node <$> A) /\ seg w (first l B) (tail ((Node <$> B) ++ [Head l])) ->
  seg w' (Head l) (Node <$> A) /\ seg w' (first l B) (tail ((Node <$> B) ++ [Head l])).
Proof.
  intros (HA & Hd & HB)%list.NoDup_app Hn Hp [Hl Hr].
  assert (forall b, b ∈ Node <$> A -> exists n, b = Node n /\ n ∈ A) as Hin by (intros b (n & -> & ?)%list_elem_of_fmap; eauto).
  split.
  - revert Hl. apply seg_frame; [by apply head_path_nodup| |].
    + intros a Ha Hne. apply Hn; [done|]. apply elem_of_cons in Ha as [->|Ha]; [by left|right].
      destruct (Hin a Ha) as (n & -> & ?). exists n. rewrite elem_of_app. eauto.
    + intros b Hb. destruct (Hin b Hb) as (n & -> & Hn'). apply Hp; [|right; exists n; rewrite elem_of_app; eauto].
      intros E. symmetry in E. apply (first_not l B n) in E; [done|]. by apply Hd.
  - assert (forall b, b ∈ (Node <$> B) ++ [Head l] -> b = Head l \/ exists n, b = Node n /\ n ∈ B) as Hin'.
    { intros b [(n & -> & ?)%list_elem_of_fmap| ->%list_elem_of_singleton]%elem_of_app; eauto. }
    revert Hr. apply seg_frame; [rewrite <- path_first; by apply path_head_nodup| |].
    + rewrite <- path_first, final_path. intros a Ha Hne. apply Hn; [|destruct (Hin' a Ha) as [->|(n & -> & ?)]; [by left|right; exists n; rewrite elem_of_app; eauto]].
      destruct (Hin' a Ha) as [->|(n & -> & Hn')]; [done|]. intros E. symmetry in E. apply (lastp_not l A n) in E; [done|]. intros ?. by apply (Hd n).
    + intros b Hb. assert (b ∈ (Node <$> B) ++ [Head l]) as Hb' by (rewrite path_first; by right). apply Hp.
      * intros ->. pose proof (path_head_nodup l B HB) as Hnd. rewrite path_first in Hnd. by apply list.NoDup_cons in Hnd as [? _].
      * destruct (Hin' b Hb') as [->|(n & -> & ?)]; [by left|right; exists n; rewrite elem_of_app; eauto].
Qed.

Lemma ring_insert w w' l A B n :
  ring w l (A ++ B) -> NoDup (A ++ B) -> n ∉ A ++ B ->
  (forall b, nextp w' b = if decide (b = lastp l A) then Some (Node n) else if decide (b = Node n) then Some (first l B) else nextp w b) ->
  (forall b, prevp w' b = if decide (b = first l B) then Some (Node n) else if decide (b = Node n) then Some (lastp l A) else prevp w b) ->
  ring w' l (A ++ n :: B).
Proof.
  intros (Hl & Hj & Hr)%ring_cut Hnd Hni Hn' Hp'. rewrite not_elem_of_app in Hni. destruct Hni as [HnA HnB].
  destruct (ring_sides w w' l A B Hnd) as [Hl' Hr'].
  - intros a Ha Hin. rewrite Hn'. rewrite decide_False by done. rewrite decide_False; [done|]. intros ->.
    destruct Hin as [?|(m & [= <-] & Hm)]; [done|]. apply elem_of_app in Hm. tauto.
  - intros b Hb Hin. rewrite Hp'. rewrite decide_False by done. rewrite decide_False; [done|]. intros ->.
    destruct Hin as [?|(m & [= <-] & Hm)]; [done|]. apply elem_of_app in Hm. tauto.
  - done.
  - apply ring_cut. split; [done|]. cbn [first fmap list_fmap app tail]. pose proof (lastp_not l A n HnA). pose proof (first_not l B n HnB).
    split; [split; [rewrite Hn'; by rewrite decide_True|rewrite Hp'; rewrite decide_False by congruence; by rewrite decide_True]|].
    rewrite path_first. cbn [seg]. split; [|done]. split; [rewrite Hn'; rewrite decide_False by congruence; by rewrite decide_True|].
    rewrite Hp'. by rewrite decide_True.
Qed.

Lemma ring_remove w w' l A B n :
  ring w l (A ++ n :: B) -> NoDup (A ++ n :: B) ->
  (forall b, b <> Node n -> nextp w' b = if decide (b = lastp l A) then Some (first l B) else nextp w b) ->
  (forall b, b <> Node n -> prevp w' b = if decide (b = first l B) then Some (lastp l A) else prevp w b) ->
  ring w' l (A ++ B).
Proof.
  intros (Hl & Hj & Hr)%ring_cut Hnd Hn' Hp'. assert ((n ∉ A ++ B) /\ NoDup (A ++ B)) as [Hni Hnd'].
  { rewrite <- Permutation_middle in Hnd. by apply list.NoDup_cons in Hnd. }
  cbn [fmap list_fmap app tail first] in Hr. rewrite path_first in Hr. destruct Hr as [_ Hr].
  rewrite not_elem_of_app in Hni. destruct Hni as [HnA HnB].
  destruct (ring_sides w w' l A B Hnd') as [Hl' Hr'].
  - intros a Ha Hin. rewrite Hn'; [by rewrite decide_False|]. intros ->.
    destruct Hin as [?|(m & [= <-] & Hm)]; [done|]. apply elem_of_app in Hm. tauto.
  - intros b Hb Hin. rewrite Hp'; [by rewrite decide_False|]. intros ->.
    destruct Hin as [?|(m & [= <-] & Hm)]; [done|]. apply elem_of_app in Hm. tauto.
  - done.
  - apply ring_cut. split; [done|]. split; [|done].
    split; [rewrite Hn' by (by apply lastp_not); by rewrite decide_True|rewrite Hp' by (by apply first_not); by rewrite decide_True].
Qed.

(** Links elsewhere do not matter. *)
Lemma ring_elsewhere w w' l xs :
  ring w l xs -> (forall b, b = Head l \/ (exists n, b = Node n /\ n ∈ xs) -> nextp w' b = nextp w b /\ prevp w' b = prevp w b) -> ring w' l xs.
Proof.
  unfold ring. intros Hs Hb. assert (forall x rest, (forall b, b ∈ x :: rest -> nextp w' b = nextp w b /\ prevp w' b = prevp w b) -> seg w x rest -> seg w' x rest) as Hseg.
  { intros x rest. revert x. induction rest as [|y rest IH]; intros x Hin; [done|]. cbn [seg]. intros [[H1 H2] Hr]. split; [split|].
    - rewrite (proj1 (Hin x ltac:(by left))). done.
    - rewrite (proj2 (Hin y ltac:(by right; left))). done.
    - apply IH; [|done]. intros b ?. apply Hin. by right. }
  revert Hs. apply Hseg. intros b [->|[(n & -> & ?)%list_elem_of_fmap| ->%list_elem_of_singleton]%elem_of_app]%elem_of_cons; apply Hb; eauto.
Qed.
End rings.

(** ** Two programs that end alike *)

Section simulation.
  Context {S T : Type} (R : S -> T -> Prop).

Definition alike_by {X : Type} (spec : outcome S X) (out : outcome T X) : Prop :=
  match spec, out with
  | Ret x a, Ret y w => y = x /\ R a w
  | Throw a, Throw w => R a w
  | Trap, Trap | Fault, Fault | Spin, Spin => True
  | _, _ => False
  end.
Definition sim_by {X : Type} (m' : M S X) (m : M T X) : Prop := forall a w, R a w -> alike_by (m' a) (m w).

Lemma sim_by_ret {X} (x : X) : sim_by (ret x) (ret x).
Proof. by intros a w Hr. Qed.
Lemma sim_by_bind {X Y} (m' : M S X) m (k' : X -> M S Y) k : sim_by m' m -> (forall x, sim_by (k' x) (k x)) -> sim_by (bind m' k') (bind m k).
Proof.
  intros Hm Hk a w Hr. specialize (Hm a w Hr). unfold bind. destruct (m' a) as [x a1|a1| | |], (m w) as [y w1|w1| | |]; cbn in Hm; try done.
  destruct Hm as [-> Hr1]. by apply Hk.
Qed.
End simulation.

(** ** The relation *)

Section relation.
  Context `{SizeT}.
  Implicit Types (a : aworld) (w : dworld) (l n : nat) (xs A B : list nat) (o : option nat).

Record rel a w : Prop := {
  rel_sizes : sizes w = (fun xs => wrap (Z.of_nat (length xs))) <$> contents a;
  rel_heads : forall l, ownerp w (Head l) = (fun _ => Some l) <$> contents a !! l;
  rel_nodes : forall n, ownerp w (Node n) = home a !! n;
  rel_home : forall n l, home a !! n = Some (Some l) <-> exists xs, contents a !! l = Some xs /\ n ∈ xs;
  rel_nodup : forall l xs, contents a !! l = Some xs -> NoDup xs;
  rel_ring : forall l xs, contents a !! l = Some xs -> ring w l xs;
  rel_free : forall n, home a !! n = Some None -> nextp w (Node n) = None /\ prevp w (Node n) = None
}.

Definition alike {X : Type} : outcome aworld X -> outcome dworld X -> Prop := alike_by rel.
Definition sim {X : Type} : M aworld X -> M dworld X -> Prop := sim_by rel.

Lemma rel_head_alive a w l : rel a w -> is_Some (contents a !! l) <-> alive w (Head l).
Proof. intros []. pose proof (rel_heads0 l) as E. unfold ownerp in E. unfold alive. rewrite <- (fmap_is_Some owner), E. by rewrite fmap_is_Some. Qed.
Lemma rel_node_alive a w n : rel a w -> is_Some (home a !! n) <-> alive w (Node n).
Proof. intros []. unfold alive. rewrite <- rel_nodes0. unfold ownerp. by rewrite fmap_is_Some. Qed.

(** A member is alive, and no other list's. *)
Lemma member_home a w l xs n : rel a w -> contents a !! l = Some xs -> n ∈ xs -> home a !! n = Some (Some l).
Proof. intros [] Hl Hn. apply rel_home0. eauto. Qed.
Lemma member_list a w l l' xs xs' n : rel a w -> contents a !! l = Some xs -> contents a !! l' = Some xs' -> n ∈ xs -> n ∈ xs' -> l = l'.
Proof. intros Hr Hl Hl' Hn Hn'. pose proof (member_home _ _ _ _ _ Hr Hl Hn). pose proof (member_home _ _ _ _ _ Hr Hl' Hn'). congruence. Qed.

(** What a position in the list cuts it into. *)
Definition cut_at (pos : addr) l xs A B : Prop := xs = A ++ B /\ first l B = pos /\ forall n, place pos n xs = A ++ n :: B.

Lemma insert_before_app y n A B : y ∉ A -> insert_before y n (A ++ y :: B) = A ++ n :: y :: B.
Proof.
  intros Hy. induction A as [|z A IH]; cbn; [by rewrite decide_True|]. rewrite decide_False by (intros ->; apply Hy; by left).
  by rewrite IH by (intros ?; apply Hy; by right).
Qed.
Lemma without_app n A B : n ∉ A -> n ∉ B -> without n (A ++ n :: B) = A ++ B.
Proof.
  unfold without. intros HA HB. rewrite List.filter_app. cbn. rewrite bool_decide_eq_true_2 by done. cbn.
  assert (forall xs, n ∉ xs -> List.filter (fun x => negb (bool_decide (x = n))) xs = xs) as Hid.
  { intros xs. induction xs as [|x xs IH]; intros Hx; [done|]. cbn. rewrite bool_decide_eq_false_2 by (intros ->; apply Hx; by left). cbn.
    by rewrite IH by (intros ?; apply Hx; by right). }
  by rewrite !Hid.
Qed.

Lemma cut_exists a w l xs pos :
  rel a w -> contents a !! l = Some xs -> pos = Head l \/ (exists n, pos = Node n /\ n ∈ xs) -> exists A B, cut_at pos l xs A B.
Proof.
  intros Hr Hl [->|(y & -> & Hy)].
  - exists xs, []. split_and!; [by rewrite app_nil_r|done|done].
  - apply list_elem_of_split in Hy as (A & B & ->). exists A, (y :: B). pose proof (rel_nodup _ _ Hr _ _ Hl) as (_ & Hd & _)%list.NoDup_app.
    split_and!; [done|done|]. intros n. apply insert_before_app. intros Hy. apply (Hd y Hy). by left.
Qed.

Lemma lastp_alive a w l xs A B : rel a w -> contents a !! l = Some xs -> xs = A ++ B -> alive w (lastp l A) /\ alive w (first l B).
Proof.
  intros Hr Hl ->. assert (alive w (Head l)) as Hh by (by apply (rel_head_alive a); [done|rewrite Hl]).
  assert (forall n, n ∈ A ++ B -> alive w (Node n)) as Hn.
  { intros n Hn. apply (rel_node_alive a); [done|]. rewrite (member_home _ _ _ _ _ Hr Hl Hn). eauto. }
  split.
  - destruct (lastp_in l A) as [->|(n & -> & ?)]; [done|]. apply Hn, elem_of_app. by left.
  - destruct B as [|y B]; [done|]. apply Hn, elem_of_app. right. by left.
Qed.

Lemma joined_cut a w l A B : rel a w -> contents a !! l = Some (A ++ B) -> joined w (lastp l A) (first l B).
Proof. intros Hr Hl. by apply (rel_ring _ _ Hr) in Hl as (_ & ? & _)%ring_cut. Qed.

(** *** Linking and unlinking *)

Lemma rel_link a w l xs A B n w' :
  rel a w -> contents a !! l = Some xs -> xs = A ++ B -> home a !! n = Some None ->
  (forall b, nextp w' b = if decide (b = lastp l A) then Some (Node n) else if decide (b = Node n) then Some (first l B) else nextp w b) ->
  (forall b, prevp w' b = if decide (b = first l B) then Some (Node n) else if decide (b = Node n) then Some (lastp l A) else prevp w b) ->
  (forall b, ownerp w' b = if decide (b = Node n) then Some (Some l) else ownerp w b) ->
  sizes w' = <[l := wrap (Z.of_nat (S (length xs)))]> (sizes w) ->
  rel (mk_aworld (<[l := A ++ n :: B]> (contents a)) (<[n := Some l]> (home a))) w'.
Proof.
  intros Hr Hl -> Hn Hnx Hpr How Hsz. pose proof Hr as []. assert (n ∉ A ++ B) as Hni by (intros Hin; pose proof (member_home _ _ _ _ _ Hr Hl Hin); congruence).
  assert (forall l' xs', contents a !! l' = Some xs' -> n ∉ xs') as Hni' by (intros l' xs' Hl' Hin; pose proof (member_home _ _ _ _ _ Hr Hl' Hin); congruence).
  split; cbn [contents home].
  - rewrite fmap_insert, <- rel_sizes0, Hsz. do 2 f_equal. rewrite !length_app. cbn. lia.
  - intros l'. rewrite How, decide_False by done. rewrite rel_heads0. destruct (decide (l' = l)) as [->|]; [by rewrite lookup_insert_eq, Hl|by rewrite lookup_insert_ne].
  - intros m. rewrite How. destruct (decide (m = n)) as [->|]; [by rewrite decide_True, lookup_insert_eq|].
    rewrite decide_False by congruence. by rewrite lookup_insert_ne.
  - intros m l'. destruct (decide (m = n)) as [->|Hmn].
    + rewrite lookup_insert_eq. split.
      * intros [= <-]. exists (A ++ n :: B). rewrite lookup_insert_eq, elem_of_app. split; [done|]. right. by left.
      * intros (xs' & Hl' & Hin). destruct (decide (l = l')) as [->|Hne]; [done|]. rewrite lookup_insert_ne in Hl' by done. by destruct (Hni' _ _ Hl').
    + rewrite lookup_insert_ne, rel_home0 by done. destruct (decide (l = l')) as [<-|Hne]; [|by rewrite lookup_insert_ne].
      rewrite lookup_insert_eq, Hl. split; intros (xs' & [= <-] & Hin); eexists; (split; [done|]); revert Hin; rewrite !elem_of_app, elem_of_cons; tauto.
  - intros l' xs'. destruct (decide (l = l')) as [<-|Hne]; [|rewrite lookup_insert_ne by done; apply rel_nodup0].
    rewrite lookup_insert_eq. intros [= <-]. rewrite <- Permutation_middle. apply list.NoDup_cons. split; [done|by apply (rel_nodup0 l)].
  - intros l' xs'. destruct (decide (l = l')) as [<-|Hne].
    + rewrite lookup_insert_eq. intros [= <-]. by apply (ring_insert w); [apply rel_ring0|apply (rel_nodup0 l)| | |].
    + rewrite lookup_insert_ne by done. intros Hl'. apply (ring_elsewhere w); [by apply rel_ring0|]. intros b Hb.
      assert (b <> Node n) as Hbn by (destruct Hb as [->|(m & -> & Hm)]; [done|]; intros [= ->]; by destruct (Hni' _ _ Hl')).
      assert (b <> lastp l A /\ b <> first l B) as [? ?].
      { destruct Hb as [->|(m & -> & Hm)].
        - split; [destruct (lastp_in l A) as [->|(? & -> & _)]; congruence|by destruct B; cbn; congruence].
        - split; intros E; apply Hne; apply (member_list a w l l' (A ++ B) xs' m Hr Hl Hl'); try done; apply elem_of_app.
          + left. symmetry in E. destruct (decide (m ∈ A)); [done|]. by apply lastp_not in E.
          + right. symmetry in E. destruct (decide (m ∈ B)); [done|]. by apply first_not in E. }
      rewrite Hnx, Hpr. by rewrite !decide_False.
  - intros m. destruct (decide (m = n)) as [->|Hmn]; [by rewrite lookup_insert_eq|]. rewrite lookup_insert_ne by done. intros Hm.
    destruct (rel_free0 m Hm) as [E1 E2]. assert (m ∉ A ++ B) as Hma by (intros Hin; pose proof (member_home _ _ _ _ _ Hr Hl Hin); congruence).
    apply not_elem_of_app in Hma as [HmA HmB]. pose proof (lastp_not l A m HmA). pose proof (first_not l B m HmB).
    rewrite Hnx, Hpr. rewrite !decide_False by congruence. done.
Qed.

Lemma rel_unlink a w l A B n w' :
  rel a w -> contents a !! l = Some (A ++ n :: B) ->
  (forall b, nextp w' b = if decide (b = Node n) then None else if decide (b = lastp l A) then Some (first l B) else nextp w b) ->
  (forall b, prevp w' b = if decide (b = Node n) then None else if decide (b = first l B) then Some (lastp l A) else prevp w b) ->
  (forall b, ownerp w' b = if decide (b = Node n) then Some None else ownerp w b) ->
  sizes w' = <[l := wrap (Z.of_nat (length (A ++ B)))]> (sizes w) ->
  rel (mk_aworld (<[l := A ++ B]> (contents a)) (<[n := None]> (home a))) w'.
Proof.
  intros Hr Hl Hnx Hpr How Hsz. pose proof Hr as []. pose proof (rel_nodup0 _ _ Hl) as Hnd.
  assert ((n ∉ A ++ B) /\ NoDup (A ++ B)) as [Hni Hnd'] by (rewrite <- Permutation_middle in Hnd; by apply list.NoDup_cons in Hnd).
  assert (n ∈ A ++ n :: B) as Hin by (apply elem_of_app; right; by left).
  assert (forall l' xs', l <> l' -> contents a !! l' = Some xs' -> n ∉ xs') as Hni'
    by (intros l' xs' Hne Hl' Hin'; by apply Hne, (member_list a w l l' (A ++ n :: B) xs' n)).
  split; cbn [contents home].
  - by rewrite fmap_insert, <- rel_sizes0, Hsz.
  - intros l'. rewrite How, decide_False by done. rewrite rel_heads0. destruct (decide (l' = l)) as [->|]; [by rewrite lookup_insert_eq, Hl|by rewrite lookup_insert_ne].
  - intros m. rewrite How. destruct (decide (m = n)) as [->|]; [by rewrite decide_True, lookup_insert_eq|].
    rewrite decide_False by congruence. by rewrite lookup_insert_ne.
  - intros m l'. destruct (decide (m = n)) as [->|Hmn].
    + rewrite lookup_insert_eq. split; [done|]. intros (xs' & Hl' & Hin'). destruct (decide (l = l')) as [<-|Hne].
      * rewrite lookup_insert_eq in Hl'. by injection Hl' as <-.
      * rewrite lookup_insert_ne in Hl' by done. by destruct (Hni' _ _ Hne Hl').
    + rewrite lookup_insert_ne, rel_home0 by done. destruct (decide (l = l')) as [<-|Hne]; [|by rewrite lookup_insert_ne].
      rewrite lookup_insert_eq, Hl. split; intros (xs' & [= <-] & Hm); eexists; (split; [done|]); revert Hm; rewrite !elem_of_app, elem_of_cons; tauto.
  - intros l' xs'. destruct (decide (l = l')) as [<-|Hne]; [|rewrite lookup_insert_ne by done; apply rel_nodup0].
    rewrite lookup_insert_eq. by intros [= <-].
  - intros l' xs'. destruct (decide (l = l')) as [<-|Hne].
    + rewrite lookup_insert_eq. intros [= <-]. apply (ring_remove w _ _ _ _ n); [by apply rel_ring0|done| |]; intros b Hb; rewrite ?Hnx, ?Hpr; by rewrite decide_False.
    + rewrite lookup_insert_ne by done. intros Hl'. apply (ring_elsewhere w); [by apply rel_ring0|]. intros b Hb.
      assert (b <> Node n) as Hbn by (destruct Hb as [->|(m & -> & Hm)]; [done|]; intros [= ->]; by destruct (Hni' _ _ Hne Hl')).
      assert (b <> lastp l A /\ b <> first l B) as [? ?].
      { destruct Hb as [->|(m & -> & Hm)].
        - split; [destruct (lastp_in l A) as [->|(? & -> & _)]; congruence|by destruct B; cbn; congruence].
        - split; intros E; apply Hne; apply (member_list a w l l' (A ++ n :: B) xs' m Hr Hl Hl'); try done; apply elem_of_app.
          + left. symmetry in E. destruct (decide (m ∈ A)); [done|]. by apply lastp_not in E.
          + right. right. symmetry in E. destruct (decide (m ∈ B)); [done|]. by apply first_not in E. }
      rewrite Hnx, Hpr. by rewrite !decide_False.
  - intros m. destruct (decide (m = n)) as [->|Hmn].
    + intros _. rewrite Hnx, Hpr. by rewrite !decide_True.
    + rewrite lookup_insert_ne by done. intros Hm. destruct (rel_free0 m Hm) as [E1 E2].
      assert (m ∉ A ++ n :: B) as Hma by (intros Hin'; pose proof (member_home _ _ _ _ _ Hr Hl Hin'); congruence).
      apply not_elem_of_app in Hma as [HmA HmB]. pose proof (lastp_not l A m HmA).
      assert (first l B <> Node m) by (apply first_not; intros ?; apply HmB; by right).
      rewrite Hnx, Hpr. rewrite !decide_False by congruence. done.
Qed.

Lemma size_at a w l xs : rel a w -> contents a !! l = Some xs -> sizes w !! l = Some (wrap (Z.of_nat (length xs))).
Proof. intros [] Hl. by rewrite rel_sizes0, lookup_fmap, Hl. Qed.

(** A member is unlinked, by [unlink] and by [splice]. *)
Lemma unlink_views a w l A B n :
  rel a w -> contents a !! l = Some (A ++ n :: B) ->
  let w1 := unlinked_from (lastp l A) (Node n) (first l B) w in
  nextp w (Node n) = Some (first l B) /\ DList.dlist_unlink (Node n) w = Ret tt w1 /\
  (forall b, nextp w1 b = if decide (b = Node n) then None else if decide (b = lastp l A) then Some (first l B) else nextp w b) /\
  (forall b, prevp w1 b = if decide (b = Node n) then None else if decide (b = first l B) then Some (lastp l A) else prevp w b) /\
  (forall b, ownerp w1 b = ownerp w b) /\ alive w1 (Node n).
Proof.
  intros Hr Hl w1. pose proof Hr as []. pose proof (rel_nodup0 _ _ Hl) as Hnd.
  assert ((n ∉ A ++ B) /\ NoDup (A ++ B)) as [Hni Hnd'] by (rewrite <- Permutation_middle in Hnd; by apply list.NoDup_cons in Hnd).
  apply not_elem_of_app in Hni as [HnA HnB]. destruct (lastp_alive a w l _ A (n :: B) Hr Hl eq_refl) as [Hla Hna]. cbn [first] in Hna.
  destruct (lastp_alive a w l _ (A ++ [n]) B Hr Hl ltac:(by rewrite <- app_assoc)) as [_ Hfa].
  pose proof (joined_cut a w l A (n :: B) Hr Hl) as [_ Hpv]. cbn [first] in Hpv.
  assert (nextp w (Node n) = Some (first l B)) as Hnv.
  { apply rel_ring0 in Hl as (_ & _ & Hs)%ring_cut. cbn [first fmap list_fmap app tail] in Hs. rewrite path_first in Hs. apply Hs. }
  pose proof (lastp_not l A n HnA). pose proof (first_not l B n HnB).
  pose proof (fun b => unlinked_from_views w (lastp l A) (Node n) (first l B) b Hna Hla Hfa ltac:(done) ltac:(done)) as Hv. fold w1 in Hv.
  split_and!; [done|by apply unlink_step|apply Hv|apply Hv|apply Hv|by apply Hv].
Qed.

(** The state of an unlinked element's hook and of the list it left. *)
Definition released (l n : nat) (z : Z) (w1 : dworld) : dworld := mk_dworld (links (upd_owner (Node n) None w1)) (<[l := z]> (sizes w1)).

Lemma released_rel a w l A B n :
  rel a w -> contents a !! l = Some (A ++ n :: B) ->
  rel (mk_aworld (<[l := A ++ B]> (contents a)) (<[n := None]> (home a)))
    (released l n (wrap (Z.of_nat (length (A ++ B)))) (unlinked_from (lastp l A) (Node n) (first l B) w)).
Proof.
  intros Hr Hl. destruct (unlink_views a w l A B n Hr Hl) as (_ & _ & Hnx & Hpr & How & Ha).
  set (w1 := unlinked_from (lastp l A) (Node n) (first l B) w) in *. apply (rel_unlink a w l A B n); [done|done|..|done].
  - intros b. rewrite <- Hnx. apply (nextp_upd_owner (Node n) None w1).
  - intros b. rewrite <- Hpr. apply (prevp_upd_owner (Node n) None w1).
  - intros b. rewrite <- How. change (ownerp (released l n _ w1) b) with (ownerp (upd_owner (Node n) None w1) b).
    rewrite ownerp_upd_owner. destruct Ha as [k Hk]. by rewrite Hk.
Qed.

Lemma unlink_ends a w l A B n :
  rel a w -> contents a !! l = Some (A ++ n :: B) ->
  DList.unlink l (Node n) w = Ret tt (released l n (wrap (Z.of_nat (length (A ++ B)))) (unlinked_from (lastp l A) (Node n) (first l B) w)).
Proof.
  intros Hr Hl. destruct (unlink_views a w l A B n Hr Hl) as (_ & E & _ & _ & _ & Ha).
  set (w1 := unlinked_from (lastp l A) (Node n) (first l B) w) in *. unfold DList.unlink. mstep.
  rewrite (bind_Ret _ _ _ _ _ (set_owner_step w1 (Node n) None Ha)). set (w2 := upd_owner (Node n) None w1).
  assert (sizes w2 !! l = Some (wrap (Z.of_nat (length (A ++ n :: B))))) as Es by (by apply (size_at a w)).
  rewrite (bind_Ret _ _ _ (wrap (Z.of_nat (length (A ++ n :: B)))) w2) by (unfold DList.get_size; by rewrite Es).
  unfold DList.set_size. rewrite Es. unfold released. do 3 f_equal. fold w2. unfold wrap. rewrite Zminus_mod_idemp_l. f_equal. rewrite !length_app. cbn. lia.
Qed.
Lemma unlink_rel a w l A B n :
  rel a w -> contents a !! l = Some (A ++ n :: B) ->
  exists w', DList.unlink l (Node n) w = Ret tt w' /\ rel (mk_aworld (<[l := A ++ B]> (contents a)) (<[n := None]> (home a))) w'.
Proof. intros Hr Hl. eexists. split; [by apply (unlink_ends a)|by apply released_rel]. Qed.

(** [node] is linked where the list is cut, by [insert] and by [splice]. *)
Lemma link_views a w l A B n :
  rel a w -> contents a !! l = Some (A ++ B) -> home a !! n = Some None -> forall w0,
  (forall b, nextp w0 b = nextp w b /\ prevp w0 b = prevp w b /\ (alive w0 b <-> alive w b)) ->
  let w1 := linked_before (lastp l A) (first l B) (Node n) w0 in
  DList.dlist_link_before (first l B) (Node n) w0 = Ret tt w1 /\
  (forall b, nextp w1 b = if decide (b = lastp l A) then Some (Node n) else if decide (b = Node n) then Some (first l B) else nextp w b) /\
  (forall b, prevp w1 b = if decide (b = first l B) then Some (Node n) else if decide (b = Node n) then Some (lastp l A) else prevp w b) /\
  (forall b, ownerp w1 b = ownerp w0 b) /\ alive w1 (Node n).
Proof.
  intros Hr Hl Hn w0 H0 w1. assert (n ∉ A ++ B) as Hni by (intros Hin; pose proof (member_home _ _ _ _ _ Hr Hl Hin); congruence).
  apply not_elem_of_app in Hni as [HnA HnB]. pose proof (lastp_not l A n HnA). pose proof (first_not l B n HnB).
  destruct (lastp_alive a w l _ A B Hr Hl eq_refl) as [Hla Hfa]. pose proof (joined_cut a w l A B Hr Hl) as [_ Hpv].
  assert (alive w (Node n)) as Hna by (apply (rel_node_alive a); [done|rewrite Hn; eauto]).
  assert (forall b, alive w b -> alive w0 b) as H0a by (intros b; apply H0).
  split; [apply link_before_step; auto; by rewrite (proj1 (proj2 (H0 _)))|].
  pose proof (fun b => linked_before_views w0 (lastp l A) (first l B) (Node n) b (H0a _ Hna) (H0a _ Hfa) (H0a _ Hla) ltac:(done) ltac:(done)) as Hv.
  fold w1 in Hv. split_and!.
  - intros b. destruct (Hv b) as (-> & _). by rewrite (proj1 (H0 b)).
  - intros b. destruct (Hv b) as (_ & -> & _). by rewrite (proj1 (proj2 (H0 b))).
  - intros b. apply Hv.
  - apply Hv. auto.
Qed.

(** The state of a linked element's hook and of the list it joined. *)
Definition placed (l n : nat) (z : Z) (w1 : dworld) : dworld := mk_dworld (links (upd_owner (Node n) (Some l) w1)) (<[l := z]> (sizes w1)).

Lemma placed_views l n z w1 b :
  alive w1 (Node n) ->
  nextp (placed l n z w1) b = nextp w1 b /\ prevp (placed l n z w1) b = prevp w1 b /\
  ownerp (placed l n z w1) b = if decide (b = Node n) then Some (Some l) else ownerp w1 b.
Proof.
  intros [k Hk]. split_and!; [apply (nextp_upd_owner (Node n) (Some l) w1)|apply (prevp_upd_owner (Node n) (Some l) w1)|].
  change (ownerp (placed l n z w1) b) with (ownerp (upd_owner (Node n) (Some l) w1) b). rewrite ownerp_upd_owner. by rewrite Hk.
Qed.

Lemma placed_rel a w l A B n :
  rel a w -> contents a !! l = Some (A ++ B) -> home a !! n = Some None ->
  rel (mk_aworld (<[l := A ++ n :: B]> (contents a)) (<[n := Some l]> (home a)))
    (placed l n (wrap (Z.of_nat (S (length (A ++ B))))) (linked_before (lastp l A) (first l B) (Node n) w)).
Proof.
  intros Hr Hl Hn. destruct (link_views a w l A B n Hr Hl Hn w ltac:(done)) as (_ & Hnx & Hpr & How & Ha). set (w1 := linked_before _ _ _ w) in *.
  pose proof (fun b => placed_views l n (wrap (Z.of_nat (S (length (A ++ B))))) w1 b Ha) as Hv.
  apply (rel_link a w l (A ++ B) A B n); [done..|intros b; rewrite <- Hnx; apply Hv|intros b; rewrite <- Hpr; apply Hv|intros b; rewrite <- How; apply Hv|done].
Qed.

Lemma insert_rel a w l A B n :
  rel a w -> contents a !! l = Some (A ++ B) -> home a !! n = Some None ->
  exists w', (DList.dlist_link_before (first l B) (Node n) ;;; DList.set_owner (Node n) (Some l) ;;;
              let! z := DList.get_size l in DList.set_size l (z + 1) ;;; ret (Some (Node n))) w = Ret (Some (Node n)) w' /\
    rel (mk_aworld (<[l := A ++ n :: B]> (contents a)) (<[n := Some l]> (home a))) w'.
Proof.
  intros Hr Hl Hn. destruct (link_views a w l A B n Hr Hl Hn w ltac:(done)) as (E & _ & _ & _ & Ha). eexists. split; [|by apply placed_rel].
  rewrite (bind_Ret _ _ _ _ _ E). set (w1 := linked_before _ _ _ w) in *.
  rewrite (bind_Ret _ _ _ _ _ (set_owner_step w1 (Node n) (Some l) Ha)). set (w2 := upd_owner (Node n) (Some l) w1).
  assert (sizes w2 !! l = Some (wrap (Z.of_nat (length (A ++ B))))) as Es by (by apply (size_at a w)).
  rewrite (bind_Ret _ _ _ (wrap (Z.of_nat (length (A ++ B)))) w2) by (unfold DList.get_size; by rewrite Es).
  rewrite (bind_Ret _ _ _ tt (mk_dworld (links w2) (<[l := wrap (wrap (Z.of_nat (length (A ++ B))) + 1)]> (sizes w2))))
    by (unfold DList.set_size; by rewrite Es).
  unfold placed. cbn [ret]. do 3 f_equal. unfold wrap. rewrite Zplus_mod_idemp_l. f_equal. lia.
Qed.

(** *** Positions *)

Lemma owner_cases a w p :
  rel a w -> ListSpec.list_of p a = match ownerp w p with Some o => Ret o a | None => Fault end.
Proof.
  intros []. destruct p as [l|n]; cbn [ListSpec.list_of].
  - rewrite rel_heads0. unfold bind, ListSpec.list_at. by destruct (contents a !! l).
  - rewrite rel_nodes0. unfold ListSpec.home_of. by destruct (home a !! n).
Qed.
Lemma read_cases w p : DList.read p w = match ownerp w p with Some o => Ret (mk_dlink (nextp w p) (prevp w p) o) w | None => Fault end.
Proof.
  unfold ownerp. destruct (links w !! p) as [k|] eqn:E; [|unfold DList.read; by rewrite E].
  rewrite (read_alive w p) by (unfold alive; rewrite E; eauto). unfold ownerp. by rewrite E.
Qed.

Lemma checked {X} l pos (K : M dworld X) w :
  (let! here := DList.in_this_list l pos in metl_harden here ;;; K) w =
  match pos with
  | None => Trap
  | Some p => match ownerp w p with None => Fault | Some o => if decide (o = Some l) then K w else Trap end
  end.
Proof.
  destruct pos as [p|]; [|done]. cbn [DList.in_this_list]. rewrite bind_assoc. unfold bind. rewrite read_cases.
  destruct (ownerp w p) as [o|]; [|done]. cbn. destruct (decide (o = Some l)) as [->|Hne].
  - by rewrite bool_decide_eq_true_2.
  - by rewrite bool_decide_eq_false_2.
Qed.
Lemma position_cases a w l pos :
  rel a w -> ListSpec.position l pos a =
  match pos with
  | None => Trap
  | Some p => match ownerp w p with None => Fault | Some o => if decide (o = Some l) then Ret p a else Trap end
  end.
Proof.
  intros Hr. destruct pos as [p|]; [|done]. cbn [ListSpec.position]. unfold bind. rewrite (owner_cases a w p Hr).
  destruct (ownerp w p) as [o|]; [|done]. by destruct (decide (o = Some l)).
Qed.

Lemma owned_position a w l p :
  rel a w -> ownerp w p = Some (Some l) ->
  exists xs, contents a !! l = Some xs /\ (p = Head l \/ exists n, p = Node n /\ n ∈ xs).
Proof.
  intros [] Ho. destruct p as [l'|n].
  - rewrite rel_heads0 in Ho. destruct (contents a !! l') as [xs|] eqn:E; [|done]. cbn in Ho. injection Ho as ->. exists xs. eauto.
  - rewrite rel_nodes0 in Ho. apply rel_home0 in Ho as (xs & Hl & Hn). exists xs. split; [done|]. right. eauto.
Qed.

Lemma dsim_ret {X} (x : X) : sim (ret x) (ret x).
Proof. apply sim_by_ret. Qed.
Lemma dsim_bind {X Y} (m' : M aworld X) m (k' : X -> M aworld Y) k : sim m' m -> (forall x, sim (k' x) (k x)) -> sim (bind m' k') (bind m k).
Proof. apply sim_by_bind. Qed.

Lemma node_read a w n o : rel a w -> home a !! n = Some o -> DList.read (Node n) w = Ret (mk_dlink (nextp w (Node n)) (prevp w (Node n)) o) w.
Proof. intros Hr Hn. by rewrite read_cases, (rel_nodes _ _ Hr), Hn. Qed.

(** The first step of an operation, on both sides. *)
Lemma alike_node {X} a w n (k' : option nat -> M aworld X) (k : dlink -> M dworld X) :
  rel a w -> (forall o, home a !! n = Some o -> alike (k' o a) (k (mk_dlink (nextp w (Node n)) (prevp w (Node n)) o) w)) ->
  alike ((let! o := ListSpec.home_of n in k' o) a) ((let! j := DList.read (Node n) in k j) w).
Proof.
  intros Hr Hk. unfold bind, ListSpec.home_of. rewrite read_cases, (rel_nodes _ _ Hr). destruct (home a !! n) as [o|] eqn:Hn; [|done]. by apply Hk.
Qed.
Lemma head_read a w l xs :
  rel a w -> contents a !! l = Some xs -> DList.read (Head l) w = Ret (mk_dlink (Some (first l xs)) (Some (lastp l xs)) (Some l)) w.
Proof.
  intros Hr Hl. rewrite read_cases, (rel_heads _ _ Hr), Hl. cbn.
  destruct (joined_cut a w l [] xs Hr Hl) as [En _]. destruct (joined_cut a w l xs [] Hr ltac:(by rewrite app_nil_r)) as [_ Ep].
  change (lastp l []) with (Head l) in En. change (first l []) with (Head l) in Ep. by rewrite En, Ep.
Qed.
Lemma alike_head {X} a w l (k' : list nat -> M aworld X) (k : dlink -> M dworld X) :
  rel a w -> (forall xs, contents a !! l = Some xs -> alike (k' xs a) (k (mk_dlink (Some (first l xs)) (Some (lastp l xs)) (Some l)) w)) ->
  alike ((let! xs := ListSpec.list_at l in k' xs) a) ((let! j := DList.read (Head l) in k j) w).
Proof.
  intros Hr Hk. unfold bind, ListSpec.list_at. destruct (contents a !! l) as [xs|] eqn:Hl.
  - rewrite (head_read a w l xs Hr Hl). by apply Hk.
  - by rewrite read_cases, (rel_heads _ _ Hr), Hl.
Qed.
Lemma alike_size {X} a w l (k' : list nat -> M aworld X) (k : Z -> M dworld X) :
  rel a w -> (forall xs, contents a !! l = Some xs -> alike (k' xs a) (k (wrap (Z.of_nat (length xs))) w)) ->
  alike ((let! xs := ListSpec.list_at l in k' xs) a) ((let! z := DList.get_size l in k z) w).
Proof.
  intros Hr Hk. unfold bind, ListSpec.list_at, DList.get_size. rewrite (rel_sizes _ _ Hr), lookup_fmap.
  destruct (contents a !! l) as [xs|] eqn:Hl; [|done]. by apply Hk.
Qed.
Lemma alike_position {X} a w l pos (k' : addr -> M aworld X) (k : M dworld X) :
  rel a w ->
  (forall p A B, pos = Some p -> contents a !! l = Some (A ++ B) -> cut_at p l (A ++ B) A B -> alike (k' p a) (k w)) ->
  alike ((let! p := ListSpec.position l pos in k' p) a) ((let! here := DList.in_this_list l pos in metl_harden here ;;; k) w).
Proof.
  intros Hr Hk. rewrite checked. unfold bind. rewrite (position_cases a w l pos Hr). destruct pos as [p|]; [|done].
  destruct (ownerp w p) as [o|] eqn:Ho; [|done]. destruct (decide (o = Some l)) as [->|]; [|done].
  destruct (owned_position a w l p Hr Ho) as (xs & Hl & Hin). destruct (cut_exists a w l xs p Hr Hl Hin) as (A & B & Hc).
  pose proof Hc as [-> _]. by apply (Hk p A B).
Qed.

Lemma dsim_insert l pos n : sim (ListSpec.insert l pos n) (DList.insert l pos n).
Proof.
  intros a w Hr. apply alike_node; [done|]. intros [l0|] Hn; [done|]. cbn [owner]. mstep. apply alike_position; [done|].
  intros p A B -> Hl (_ & <- & Hpl). unfold bind at 1, ListSpec.list_at. rewrite Hl, Hpl. cbn [DList.deref]. mstep.
  destruct (insert_rel a w l A B n Hr Hl Hn) as (w' & E & Hr'). rewrite E. done.
Qed.
End relation.
