(* ===== verification/IntrusiveListSims.v ===== *)
(** * Every operation of [intrusive_list] does what its abstract operation does *)

From Stdlib Require Import ZArith Lia.
From stdpp Require Import base numbers list option gmap tactics.
From S2P Require Import Prelude IntrusiveList IntrusiveListFacts.
Local Open Scope Z_scope.

Section sims.
  Context `{SizeT} (h : hardening).
  Implicit Types (a : aworld) (w : dworld) (l n : nat) (xs A B : list nat) (o : option nat).

(** ** Neighbours *)

Lemma after_app x y P R : x ∉ P -> after x (P ++ x :: y :: R) = Some y.
Proof.
  intros Hx. induction P as [|z P IH]; cbn [app after]; [by rewrite decide_True|].
  destruct (P ++ x :: y :: R) as [|u t] eqn:E; [by destruct P|]. rewrite decide_False by (intros ->; apply Hx; by left).
  apply IH. intros ?. apply Hx. by right.
Qed.
Lemma before_app x y P R : x ∉ tail (P ++ [y]) -> before x (P ++ y :: x :: R) = Some y.
Proof.
  induction P as [|z P IH]; intros Hx; cbn [app before]; [by rewrite decide_True|]. cbn [app tail] in Hx.
  destruct P as [|v P]; cbn [app] in Hx |- *; (rewrite decide_False by (intros ->; apply Hx; by left)); apply IH; cbn; [set_solver|].
  intros ?. apply Hx. by right.
Qed.

Lemma path_app l A B : path_of l (A ++ B) = Head l :: (Node <$> A) ++ (Node <$> B) ++ [Head l].
Proof. unfold path_of. by rewrite fmap_app, <- app_assoc. Qed.

Lemma after_head l xs : after (Head l) (path_of l xs) = Some (first l xs).
Proof. unfold path_of. rewrite path_first. apply (after_app (Head l) (first l xs) []). set_solver. Qed.
Lemma after_node l A B n : n ∉ A -> after (Node n) (path_of l (A ++ n :: B)) = Some (first l B).
Proof.
  intros Hn. rewrite path_app. cbn [fmap list_fmap app]. rewrite path_first. rewrite app_comm_cons. apply after_app.
  intros [?|(m & [= <-] & ?)%list_elem_of_fmap]%elem_of_cons; done.
Qed.
Lemma lastp_app l A x : lastp l (A ++ [x]) = Node x.
Proof. unfold lastp, final. rewrite fmap_app. cbn [fmap list_fmap]. by rewrite last_snoc. Qed.
Lemma lastp_snoc l A : exists P, (Head l :: (Node <$> A)) = P ++ [lastp l A].
Proof.
  unfold lastp, final. destruct A as [|x A _] using rev_ind; [by exists []|]. rewrite fmap_app. cbn [fmap list_fmap]. rewrite last_snoc.
  by exists (Head l :: (Node <$> A)).
Qed.
Lemma before_path l A p R : p ∉ (Node <$> A) -> before p (Head l :: (Node <$> A) ++ p :: R) = Some (lastp l A).
Proof.
  intros Hp. rewrite app_comm_cons. destruct (lastp_snoc l A) as (P & E). rewrite E, <- app_assoc. apply before_app. by rewrite <- E.
Qed.
Lemma before_node l A B n : n ∉ A -> before (Node n) (path_of l (A ++ n :: B)) = Some (lastp l A).
Proof. intros Hn. rewrite path_app. apply before_path. by intros (m & [= <-] & ?)%list_elem_of_fmap. Qed.
Lemma before_head l xs : before (Head l) (path_of l xs) = Some (lastp l xs).
Proof. apply before_path. by intros (m & ? & ?)%list_elem_of_fmap. Qed.

(** What the links of a live position hold. *)
Lemma free_of l A B n a w : rel a w -> contents a !! l = Some (A ++ n :: B) -> (n ∉ A) /\ n ∉ B.
Proof.
  intros Hr Hl. pose proof (rel_nodup _ _ Hr _ _ Hl) as Hnd. rewrite <- Permutation_middle in Hnd. apply list.NoDup_cons in Hnd as [Hn _].
  by apply not_elem_of_app in Hn.
Qed.
Lemma dsim_neighbour (look : addr -> list addr -> option addr) (view : dworld -> addr -> option addr) (step : option addr -> M dworld (option addr)) :
  (forall w p, step (Some p) w = match ownerp w p with Some _ => Ret (view w p) w | None => Fault end) -> (forall w, step None w = Fault) ->
  (forall a w n, rel a w -> home a !! n = Some None -> view w (Node n) = None) ->
  (forall a w l xs, rel a w -> contents a !! l = Some xs -> view w (Head l) = look (Head l) (path_of l xs)) ->
  (forall a w l A B n, rel a w -> contents a !! l = Some (A ++ n :: B) -> view w (Node n) = look (Node n) (path_of l (A ++ n :: B))) ->
  forall pos, sim (ListSpec.neighbour look pos) (step pos).
Proof.
  intros Hs Hnone Hfree Hhead Hnode [p|] a w Hr; cbn [ListSpec.neighbour]; [|by rewrite Hnone].
  rewrite Hs. unfold bind at 1. rewrite (owner_cases a w p Hr). destruct (ownerp w p) as [[l|]|] eqn:Ho; [| |done].
  - destruct (owned_position a w l p Hr Ho) as (xs & Hl & Hin). unfold bind, ListSpec.list_at. rewrite Hl. split; [|done].
    destruct Hin as [->|(n & -> & Hn)]; [by apply (Hhead a)|]. apply list_elem_of_split in Hn as (A & B & ->). by apply (Hnode a).
  - split; [|done]. destruct p as [l|n]; [rewrite (rel_heads _ _ Hr) in Ho; by destruct (contents a !! l)|].
    apply (Hfree a); [done|]. by rewrite <- (rel_nodes _ _ Hr).
Qed.

Lemma dsim_advance pos : sim (ListSpec.neighbour after pos) (DList.advance pos).
Proof.
  apply (dsim_neighbour after nextp DList.advance); try done.
  - intros w p. unfold DList.advance, bind. cbn. rewrite read_cases. by destruct (ownerp w p).
  - intros a w n Hr Hn. by apply (rel_free _ _ Hr).
  - intros a w l xs Hr Hl. rewrite after_head. apply (joined_cut a w l [] xs Hr Hl).
  - intros a w l A B n Hr Hl. destruct (free_of l A B n a w Hr Hl). rewrite after_node by done. apply (unlink_views a w l A B n Hr Hl).
Qed.
Lemma dsim_retreat pos : sim (ListSpec.neighbour before pos) (DList.retreat pos).
Proof.
  apply (dsim_neighbour before prevp DList.retreat); try done.
  - intros w p. unfold DList.retreat, bind. cbn. rewrite read_cases. by destruct (ownerp w p).
  - intros a w n Hr Hn. by apply (rel_free _ _ Hr).
  - intros a w l xs Hr Hl. rewrite before_head. apply (joined_cut a w l xs [] Hr). by rewrite app_nil_r.
  - intros a w l A B n Hr Hl. destruct (free_of l A B n a w Hr Hl). rewrite before_node by done. apply (joined_cut a w l A (n :: B) Hr Hl).
Qed.

(** ** Taking out *)

Lemma take_out_ends a w l A B n :
  rel a w -> contents a !! l = Some (A ++ n :: B) ->
  ListSpec.take_out l n a = Ret tt (mk_aworld (<[l := A ++ B]> (contents a)) (<[n := None]> (home a))).
Proof.
  intros Hr Hl. destruct (free_of l A B n a w Hr Hl). unfold ListSpec.take_out, bind, ListSpec.list_at. rewrite Hl. cbn. by rewrite without_app.
Qed.
Lemma member_cut a w l n : rel a w -> home a !! n = Some (Some l) -> exists A B, contents a !! l = Some (A ++ n :: B).
Proof. intros Hr (xs & Hl & Hin)%(rel_home _ _ Hr). apply list_elem_of_split in Hin as (A & B & ->). eauto. Qed.

Lemma alike_take_out a w l n : rel a w -> home a !! n = Some (Some l) -> alike (ListSpec.take_out l n a) (DList.unlink l (Node n) w).
Proof.
  intros Hr Hn. destruct (member_cut a w l n Hr Hn) as (A & B & Hl). rewrite (take_out_ends a w l A B n Hr Hl).
  destruct (unlink_rel a w l A B n Hr Hl) as (w' & -> & ?). done.
Qed.

Lemma dsim_erase l n : sim (ListSpec.erase l n) (DList.erase l n).
Proof.
  intros a w Hr. apply alike_node; [done|]. intros o Hn. cbn [owner]. destruct (decide (o = Some l)) as [->|Hne].
  - rewrite bool_decide_eq_true_2 by done. mstep. by apply alike_take_out.
  - by rewrite bool_decide_eq_false_2.
Qed.

Lemma dsim_erase_at l pos : sim (ListSpec.erase_at l pos) (DList.erase_at l pos).
Proof.
  intros a w Hr. apply alike_position; [done|]. intros p A B -> Hl (_ & Hp & _). cbn [DList.deref]. mstep. destruct p as [l'|n].
  - assert (l' = l) as -> by (destruct B; cbn in Hp; congruence). by rewrite bool_decide_eq_true_2.
  - destruct B as [|m B]; cbn in Hp; [done|]. injection Hp as ->. destruct (free_of l A B n a w Hr Hl). rewrite bool_decide_eq_false_2 by done. cbn [negb]. mstep.
    assert (home a !! n = Some (Some l)) as Hh by (apply (member_home a w l _ n Hr Hl), elem_of_app; right; by left).
    destruct (unlink_views a w l A B n Hr Hl) as (Hnx & _). destruct (unlink_rel a w l A B n Hr Hl) as (w' & E & Hr').
    rewrite (bind_Ret _ _ _ _ _ (node_read a w n _ Hr Hh)), (bind_Ret _ _ _ _ _ E). cbn [next ListSpec.neighbour ListSpec.list_of].
    unfold bind, ListSpec.home_of. rewrite Hh. unfold ListSpec.list_at at 1. rewrite Hl. cbn [ret]. rewrite (take_out_ends a w l A B n Hr Hl), Hnx, after_node; done.
Qed.
(** ** The ends *)

Lemma dsim_push_front l n : sim (ListSpec.push_front l n) (DList.push_front l n).
Proof.
  intros a w Hr. unfold DList.push_front, DList.begin_. rewrite bind_assoc. apply alike_head; [done|]. intros xs Hl. mstep.
  by apply (dsim_bind (ListSpec.insert l (Some (first l xs)) n) _ (fun _ => ret tt) (fun _ => ret tt)); [apply dsim_insert|intros; apply dsim_ret|].
Qed.
Lemma dsim_push_back l n : sim (ListSpec.push_back l n) (DList.push_back l n).
Proof. apply dsim_bind; [apply dsim_insert|intros; apply dsim_ret]. Qed.

(** Erasing at an end takes that end out. *)
Lemma erase_at_node a w l n :
  rel a w -> home a !! n = Some (Some l) -> (ListSpec.erase_at l (Some (Node n)) ;;; ret tt) a = ListSpec.take_out l n a.
Proof.
  intros Hr Hn. destruct (member_cut a w l n Hr Hn) as (A & B & Hl).
  unfold ListSpec.erase_at, ListSpec.position, ListSpec.list_of, ListSpec.neighbour, bind, ListSpec.home_of, ListSpec.list_of, ListSpec.home_of, ListSpec.list_at.
  rewrite Hn, decide_True by done. cbn [ret]. rewrite Hn, Hl. cbn [ret]. by rewrite (take_out_ends a w l A B n Hr Hl).
Qed.
Lemma erase_at_end a w l xs : rel a w -> contents a !! l = Some xs -> (ListSpec.erase_at l (Some (Head l)) ;;; ret tt) a = Trap.
Proof. intros Hr Hl. unfold ListSpec.erase_at, ListSpec.position, ListSpec.list_of, bind, ListSpec.list_at. rewrite Hl. cbn. by rewrite decide_True. Qed.

Lemma pop_ends (pick : list nat -> option nat) (edge : nat -> list nat -> addr) a w l xs :
  (forall xs n, pick xs = Some n -> n ∈ xs /\ edge l xs = Node n) -> (forall xs, pick xs = None -> edge l xs = Head l) ->
  rel a w -> contents a !! l = Some xs ->
  (match pick xs with Some n => ListSpec.take_out l n | None => trap end) a = (ListSpec.erase_at l (Some (edge l xs)) ;;; ret tt) a.
Proof.
  intros Hsome Hnone Hr Hl. destruct (pick xs) as [n|] eqn:E.
  - apply Hsome in E as [Hn ->]. symmetry. by apply (erase_at_node a w), (member_home a w l xs).
  - rewrite (Hnone _ E). symmetry. by apply (erase_at_end a w l xs).
Qed.

Lemma dsim_pop_front l : sim (ListSpec.pop head l) (DList.pop_front l).
Proof.
  intros a w Hr. unfold DList.pop_front, DList.begin_. rewrite bind_assoc. apply alike_head; [done|]. intros xs Hl. mstep.
  rewrite (pop_ends head first a w l xs); [|intros [|x t] ? [= <-]; by split; [left|]|by intros [|]|done|done].
  by apply dsim_bind; [apply dsim_erase_at|intros; apply dsim_ret|].
Qed.
Lemma dsim_pop_back l : sim (ListSpec.pop list.last l) (DList.pop_back l).
Proof.
  intros a w Hr. apply alike_head; [done|]. intros xs Hl. cbn [prev].
  rewrite (pop_ends list.last lastp a w l xs); [| |by intros ? ->%last_None|done|done].
  - by apply dsim_bind; [apply dsim_erase_at|intros; apply dsim_ret|].
  - intros ys n Hn. split; [by apply last_Some_elem_of|]. unfold lastp, final. by rewrite fmap_last, Hn.
Qed.

Lemma dsim_empty l : sim (ListSpec.empty l) (DList.empty l).
Proof.
  intros a w Hr. apply alike_head; [done|]. intros xs Hl. split; [|done]. cbn [next].
  apply bool_decide_ext. destruct xs as [|x xs]; cbn; split; congruence.
Qed.
Lemma dsim_size l : sim (ListSpec.size l) (DList.size l).
Proof. intros a w Hr. unfold ListSpec.size, bind, ListSpec.list_at, DList.size, DList.get_size. rewrite (rel_sizes _ _ Hr), lookup_fmap. by destruct (contents a !! l). Qed.

Lemma dsim_end_of (pick : list nat -> option nat) (view : dlink -> option addr) l :
  (forall xs, (forall n, pick xs = Some n -> view (mk_dlink (Some (first l xs)) (Some (lastp l xs)) (Some l)) = Some (Node n)) /\
    (pick xs = None <-> xs = []) /\ (xs = [] -> view (mk_dlink (Some (first l xs)) (Some (lastp l xs)) (Some l)) = Some (Head l))) ->
  sim (ListSpec.end_of h pick l) (let! e := DList.empty l in metl_assert h (negb e) ;;; let! k := DList.read (Head l) in DList.value_of (view k)).
Proof.
  intros Hv a w Hr. unfold DList.empty. rewrite bind_assoc. apply alike_head; [done|]. intros xs Hl. mstep. cbn [next].
  destruct (Hv xs) as (Hs & Hn & He). pose proof (head_read a w l xs Hr Hl) as Er.
  destruct (pick xs) as [n|] eqn:E.
  - rewrite bool_decide_eq_false_2 by (destruct xs as [|x xs]; [by destruct Hn as [_ Hn]; specialize (Hn eq_refl)|done]). cbn [negb]. mstep.
    rewrite (bind_Ret _ _ _ _ _ Er), (Hs n) by done. done.
  - destruct Hn as [Hn _]. specialize (Hn eq_refl). subst xs. rewrite bool_decide_eq_true_2 by done. destruct h; cbn; try done.
    unfold bind. rewrite Er. by rewrite (He eq_refl).
Qed.
Lemma dsim_front l : sim (ListSpec.end_of h head l) (DList.front h l).
Proof. apply (dsim_end_of head next). intros [|x xs]; split_and!; try done. by intros n [= <-]. Qed.
Lemma dsim_back l : sim (ListSpec.end_of h list.last l) (DList.back h l).
Proof.
  apply (dsim_end_of list.last prev). intros xs. split_and!.
  - intros n Hn. cbn. unfold lastp, final. by rewrite fmap_last, Hn.
  - split; [apply last_None|by intros ->].
  - by intros ->.
Qed.

(** ** [splice] *)

Lemma same_place a l A B n :
  contents a !! l = Some (A ++ n :: B) -> home a !! n = Some (Some l) ->
  mk_aworld (<[l := A ++ n :: B]> (<[l := A ++ B]> (contents a))) (<[n := Some l]> (<[n := None]> (home a))) = a.
Proof. intros Hl Hn. rewrite !insert_insert_eq, !insert_id by done. by destruct a. Qed.

(** The spec's result, once the element is out. *)
Lemma splice_placed a w l other p A B n C D :
  rel a w -> contents a !! other = Some (A ++ n :: B) -> <[other := A ++ B]> (contents a) !! l = Some (C ++ D) -> place p n (C ++ D) = C ++ n :: D ->
  (ListSpec.take_out other n ;;; let! xs := ListSpec.list_at l in ListSpec.set_list l (place p n xs) ;;; ListSpec.set_home n (Some l)) a =
  Ret tt (mk_aworld (<[l := C ++ n :: D]> (<[other := A ++ B]> (contents a))) (<[n := Some l]> (<[n := None]> (home a)))).
Proof.
  intros Hr Ho Hl Hp. rewrite (bind_Ret _ _ _ _ _ (take_out_ends a w other A B n Hr Ho)). unfold bind, ListSpec.list_at. cbn [contents].
  rewrite Hl. cbn. by rewrite Hp.
Qed.

(** Where the element goes in the list it has left. *)
Lemma position_stays a w l other p A B n C D :
  rel a w -> contents a !! other = Some (A ++ n :: B) -> contents a !! l = Some (C ++ D) -> cut_at p l (C ++ D) C D -> p <> Node n ->
  exists C' D', <[other := A ++ B]> (contents a) !! l = Some (C' ++ D') /\ cut_at p l (C' ++ D') C' D'.
Proof.
  intros Hr Ho Hl (_ & Hp & Hpl) Hne. destruct (free_of other A B n a w Hr Ho) as [HnA HnB].
  set (a1 := mk_aworld (<[other := A ++ B]> (contents a)) (<[n := None]> (home a))).
  destruct (unlink_rel a w other A B n Hr Ho) as (w1 & _ & Hr1). fold a1 in Hr1.
  assert (exists xs, contents a1 !! l = Some xs /\ (p = Head l \/ exists m, p = Node m /\ m ∈ xs)) as (xs & Hl1 & Hin).
  { cbn. destruct (decide (other = l)) as [<-|Hol].
    - rewrite lookup_insert_eq. eexists. split; [done|]. rewrite Ho in Hl. injection Hl as Hl. destruct D as [|m D]; cbn in Hp; [by left|right].
      exists m. split; [done|]. assert (m ∈ A ++ n :: B) as Hm by (rewrite Hl; apply elem_of_app; right; by left). rewrite elem_of_app in *.
      rewrite elem_of_cons in Hm. assert (m <> n) by congruence. tauto.
    - rewrite lookup_insert_ne, Hl by done. eexists. split; [done|]. destruct D as [|m D]; cbn in Hp; [by left|right].
      exists m. split; [done|]. apply elem_of_app. right. by left. }
  destruct (cut_exists a1 w1 l xs p Hr1 Hl1 Hin) as (C' & D' & Hc). exists C', D'. pose proof Hc as [-> _]. done.
Qed.

Definition spliced_sizes (l other : nat) (A B C D : list nat) (w : dworld) : gmap nat Z :=
  if decide (other = l) then sizes w
  else <[l := wrap (Z.of_nat (S (length (C ++ D))))]> (<[other := wrap (Z.of_nat (length (A ++ B)))]> (sizes w)).

Lemma splice_moves a w l other A B n C D w3 :
  rel a w -> contents a !! other = Some (A ++ n :: B) -> <[other := A ++ B]> (contents a) !! l = Some (C ++ D) ->
  let w2 := linked_before (lastp l C) (first l D) (Node n) (unlinked_from (lastp other A) (Node n) (first other B) w) in
  links w3 = links (if decide (other = l) then w2 else upd_owner (Node n) (Some l) w2) -> sizes w3 = spliced_sizes l other A B C D w ->
  rel (mk_aworld (<[l := C ++ n :: D]> (<[other := A ++ B]> (contents a))) (<[n := Some l]> (<[n := None]> (home a)))) w3.
Proof.
  intros Hr Ho Hl w2 El Es. destruct (unlink_views a w other A B n Hr Ho) as (_ & _ & _ & _ & How & Ha).
  pose proof (released_rel a w other A B n Hr Ho) as Hr1. set (w1 := unlinked_from (lastp other A) (Node n) (first other B) w) in *.
  set (w1' := released other n _ w1) in *. set (a1 := mk_aworld _ _) in Hr1.
  assert (home a !! n = Some (Some other)) as Hn by (apply (member_home a w other _ n Hr Ho), elem_of_app; right; by left).
  destruct (link_views a1 w1' l C D n Hr1 Hl ltac:(apply lookup_insert_eq) w1) as (_ & Hnx & Hpr & How2 & Ha2).
  { intros b. split_and!; [symmetry; apply (nextp_upd_owner (Node n) None w1)|symmetry; apply (prevp_upd_owner (Node n) None w1)|].
    symmetry. apply (alive_upd _ (Node n) w1). }
  fold w2 in Hnx, Hpr, How2, Ha2. apply (rel_link a1 w1' l (C ++ D) C D n); [done|done|done|apply lookup_insert_eq|..].
  - intros b. rewrite <- Hnx. unfold nextp at 1. rewrite El. case_decide; [done|]. apply (nextp_upd_owner (Node n) (Some l) w2).
  - intros b. rewrite <- Hpr. unfold prevp at 1. rewrite El. case_decide; [done|]. apply (prevp_upd_owner (Node n) (Some l) w2).
  - intros b. unfold ownerp at 1. rewrite El. change (ownerp w1' b) with (ownerp (upd_owner (Node n) None w1) b). rewrite ownerp_upd_owner.
    destruct Ha as [k Hk]. rewrite Hk. destruct (decide (other = l)) as [<-|Hol].
    + change (ownerp w2 b = if decide (b = Node n) then Some (Some other) else if decide (b = Node n) then Some None else ownerp w1 b).
      rewrite How2. case_decide; [|done]. subst b. by rewrite How, (rel_nodes _ _ Hr).
    + change (ownerp (upd_owner (Node n) (Some l) w2) b = if decide (b = Node n) then Some (Some l) else if decide (b = Node n) then Some None else ownerp w1 b).
      rewrite ownerp_upd_owner. destruct Ha2 as [k2 Hk2]. rewrite Hk2. case_decide; [done|]. apply How2.
  - rewrite Es. unfold spliced_sizes. case_decide as Eol; [|done]. subst other. unfold w1'. cbn [released sizes]. change (sizes w1) with (sizes w).
    rewrite insert_insert_eq, insert_id; [done|]. rewrite (size_at a w l _ Hr Ho). cbn in Hl. rewrite lookup_insert_eq in Hl. injection Hl as Hl.
    rewrite <- Hl. do 2 f_equal. rewrite !length_app. cbn. lia.
Qed.
(** [--other.size_] and [++size_]. *)
Lemma sizes_moved w3 l other x y :
  other <> l -> sizes w3 !! other = Some x -> sizes w3 !! l = Some y ->
  (let! z := DList.get_size other in DList.set_size other (z - 1) ;;; let! z := DList.get_size l in DList.set_size l (z + 1)) w3 =
  Ret tt (mk_dworld (links w3) (<[l := wrap (y + 1)]> (<[other := wrap (x - 1)]> (sizes w3)))).
Proof.
  intros Hne Hx Hy. rewrite (bind_Ret _ _ _ x w3) by (unfold DList.get_size; by rewrite Hx).
  rewrite (bind_Ret _ _ _ tt (mk_dworld (links w3) (<[other := wrap (x - 1)]> (sizes w3)))) by (unfold DList.set_size; by rewrite Hx).
  assert (<[other := wrap (x - 1)]> (sizes w3) !! l = Some y) as Hy' by (by rewrite lookup_insert_ne).
  rewrite (bind_Ret _ _ _ y (mk_dworld (links w3) (<[other := wrap (x - 1)]> (sizes w3)))) by (unfold DList.get_size; cbn [sizes]; by rewrite Hy').
  unfold DList.set_size. cbn [sizes links]. by rewrite Hy'.
Qed.

Lemma split_unique (y : nat) A C B D : y ∉ A -> y ∉ C -> A ++ y :: B = C ++ y :: D -> C = A /\ D = B.
Proof.
  revert C. induction A as [|u A IH]; intros [|v C] HA HC Hl; cbn in Hl; injection Hl as; subst; try done.
  - exfalso. apply HC. by left.
  - exfalso. apply HA. by left.
  - destruct (IH C) as (-> & ->); try done; intros ?; [apply HA|apply HC]; by right.
Qed.

(** The element is already where it is to go. *)
Lemma already_there a w l other A B n C D :
  rel a w -> contents a !! other = Some (A ++ n :: B) -> <[other := A ++ B]> (contents a) !! l = Some (C ++ D) -> first l D = first other B ->
  l = other /\ C = A /\ D = B.
Proof.
  intros Hr Ho Hl Hf. pose proof (released_rel a w other A B n Hr Ho) as Hr1. set (a1 := mk_aworld _ _) in Hr1. set (w1 := released _ _ _ _) in Hr1.
  assert (contents a1 !! other = Some (A ++ B)) as Ho1 by apply lookup_insert_eq.
  assert (l = other) as ->.
  { destruct D as [|x D], B as [|y B]; cbn in Hf; [congruence|done|done|]. injection Hf as ->.
    apply (member_list a1 w1 _ _ _ _ y Hr1 Hl Ho1); apply elem_of_app; right; by left. }
  rewrite lookup_insert_eq in Hl. injection Hl as Hl. pose proof (rel_nodup _ _ Hr1 _ _ Ho1) as Hnd.
  destruct B as [|y B], D as [|x D]; cbn in Hf; try congruence; [by rewrite !app_nil_r in Hl|]. injection Hf as ->.
  assert ((y ∉ A) /\ y ∉ C) as [HA HC].
  { split; [apply list.NoDup_app in Hnd as (_ & Hd & _)|rewrite Hl in Hnd; apply list.NoDup_app in Hnd as (_ & Hd & _)]; intros Hy; apply (Hd y Hy); by left. }
  destruct (split_unique y A C B D HA HC Hl) as [-> ->]. done.
Qed.

Lemma dsim_splice l pos other it : sim (ListSpec.splice l pos other it) (DList.splice l pos other it).
Proof.
  intros a w Hr. apply alike_position; [done|]. intros p C0 D0 -> Hl0 Hc0. apply alike_position; [done|]. intros i A B' -> Ho (_ & Hi & _).
  cbn [DList.deref]. mstep. destruct i as [o'|n].
  { assert (o' = other) as -> by (destruct B'; cbn in Hi; congruence). by rewrite bool_decide_eq_true_2. }
  destruct B' as [|m B]; cbn in Hi; [done|]. injection Hi as ->. rewrite bool_decide_eq_false_2 by done. cbn [negb]. mstep.
  assert (home a !! n = Some (Some other)) as Hn by (apply (member_home a w other _ n Hr Ho), elem_of_app; right; by left).
  destruct (unlink_views a w other A B n Hr Ho) as (Hnx & E1 & Hv1 & Hv2 & How & Ha). rewrite (bind_Ret _ _ _ _ _ (node_read a w n _ Hr Hn)). cbn [next]. rewrite Hnx.
  destruct (decide (p = Node n)) as [->|Hpn]; [by rewrite bool_decide_eq_true_2|]. rewrite (bool_decide_eq_false_2 (Some p = Some (Node n))) by congruence. cbn [orb].
  destruct (position_stays a w l other p A B n C0 D0 Hr Ho Hl0 Hc0 Hpn) as (C & D & Hl & _ & <- & Hpl).
  rewrite (splice_placed a w l other _ A B n C D Hr Ho Hl (Hpl n)). case_bool_decide as Enext.
  - injection Enext as Enext. destruct (already_there a w l other A B n C D Hr Ho Hl Enext) as (-> & -> & ->). by rewrite same_place.
  - mstep. cbn [DList.deref]. mstep. set (w1 := unlinked_from (lastp other A) (Node n) (first other B) w) in *.
    pose proof (released_rel a w other A B n Hr Ho) as Hr1. fold w1 in Hr1. set (w1' := released other n _ w1) in *.
    destruct (link_views _ w1' l C D n Hr1 Hl ltac:(apply lookup_insert_eq) w1) as (E2 & _ & _ & _ & Ha2).
    { intros b. split_and!; [symmetry; apply (nextp_upd_owner (Node n) None w1)|symmetry; apply (prevp_upd_owner (Node n) None w1)|].
      symmetry. apply (alive_upd _ (Node n) w1). }
    rewrite (bind_Ret _ _ _ _ _ E2). set (w2 := linked_before _ _ _ w1) in *. case_bool_decide as Eol.
    + split; [done|]. apply (splice_moves a w l other A B n C D); [done|done|done|by rewrite decide_True|unfold spliced_sizes; by rewrite decide_True].
    + rewrite (bind_Ret _ _ _ _ _ (set_owner_step w2 (Node n) (Some l) Ha2)). set (w3 := upd_owner (Node n) (Some l) w2).
      rewrite lookup_insert_ne in Hl by done.
      rewrite (sizes_moved w3 l other (wrap (Z.of_nat (length (A ++ n :: B)))) (wrap (Z.of_nat (length (C ++ D))))); [|done|by apply (size_at a w)..].
      split; [done|]. apply (splice_moves a w l other A B n C D); [done|done|by rewrite lookup_insert_ne|by rewrite decide_False|].
      unfold spliced_sizes. rewrite decide_False by done. cbn [sizes]. change (sizes w3) with (sizes w).
      f_equal; [|f_equal]; unfold wrap; rewrite ?Zplus_mod_idemp_l, ?Zminus_mod_idemp_l; f_equal; rewrite ?length_app; cbn; lia.
Qed.
(** ** [clear] *)

Definition emptied (l : nat) (xs : list nat) (a : aworld) : aworld :=
  mk_aworld (<[l := []]> (contents a)) (foldr (fun n m => <[n := None]> m) (home a) xs).

Lemma released_early (x : nat) (m : gmap nat (option nat)) xs :
  foldr (fun n m => <[n := None]> m) (<[x := None]> m) xs = <[x := None]> (foldr (fun n m => <[n := None]> m) m xs).
Proof.
  induction xs as [|y xs IH]; [done|]. cbn [foldr]. rewrite IH. destruct (decide (x = y)) as [->|]; [done|]. by apply insert_insert_ne.
Qed.

Lemma clear_loop_rel l xs : forall fuel a w,
  rel a w -> contents a !! l = Some xs -> (length xs <= fuel)%nat -> exists w', DList.clear_loop fuel l w = Ret tt w' /\ rel (emptied l xs a) w'.
Proof.
  induction xs as [|x xs IH]; intros fuel a w Hr Hl Hf.
  - exists w. split; [|unfold emptied; cbn [foldr]; rewrite insert_id by done; by destruct a].
    destruct fuel; cbn [DList.clear_loop]; rewrite (bind_Ret _ _ _ _ _ (head_read a w l [] Hr Hl)); cbn [next first]; by rewrite bool_decide_eq_true_2.
  - destruct fuel as [|fuel]; [cbn in Hf; lia|]. cbn [DList.clear_loop]. rewrite (bind_Ret _ _ _ _ _ (head_read a w l (x :: xs) Hr Hl)). cbn [next first].
    rewrite bool_decide_eq_false_2 by done. cbn [DList.deref]. mstep. destruct (unlink_rel a w l [] xs x Hr Hl) as (w1 & E & Hr1).
    rewrite (bind_Ret _ _ _ _ _ E). destruct (IH fuel _ w1 Hr1) as (w' & E' & Hr'); [apply lookup_insert_eq|cbn in Hf; lia|].
    exists w'. split; [done|]. unfold emptied in Hr' |- *. cbn [contents home] in Hr'. by rewrite insert_insert_eq, released_early in Hr'.
Qed.

Lemma members_bounded a w l xs : rel a w -> contents a !! l = Some xs -> (length xs <= base.size (links w))%nat.
Proof.
  intros Hr Hl. rewrite <- size_dom, <- (length_fmap Node), <- (size_list_to_set (C := gset addr)).
  - apply subseteq_size. intros b Hb. apply elem_of_list_to_set, list_elem_of_fmap in Hb as (n & -> & Hn). apply elem_of_dom.
    apply (rel_node_alive a); [done|]. rewrite (member_home _ _ _ _ _ Hr Hl Hn). eauto.
  - apply NoDup_fmap_2; [by intros x y [= ->]|]. by apply (rel_nodup _ _ Hr l).
Qed.

Lemma dsim_clear l : sim (ListSpec.clear l) (DList.clear l).
Proof.
  intros a w Hr. unfold ListSpec.clear, DList.clear. mstep. unfold bind, ListSpec.list_at. destruct (contents a !! l) as [xs|] eqn:Hl.
  - destruct (clear_loop_rel l xs (base.size (links w)) a w Hr Hl (members_bounded a w l xs Hr Hl)) as (w' & -> & ?). done.
  - assert (DList.read (Head l) w = Fault) as Er by (by rewrite read_cases, (rel_heads _ _ Hr), Hl).
    destruct (base.size (links w)); cbn [DList.clear_loop]; by rewrite (bind_Fault _ _ _ Er).
Qed.

(** ** Hooks and lists come and go *)

(** Lists that keep their links stay lists. *)
Lemma rings_kept a w w' :
  rel a w -> (forall b, (exists l, b = Head l /\ is_Some (contents a !! l)) \/ (exists n l, b = Node n /\ home a !! n = Some (Some l)) ->
    nextp w' b = nextp w b /\ prevp w' b = prevp w b) ->
  forall l xs, contents a !! l = Some xs -> ring w' l xs.
Proof.
  intros Hr Hb l xs Hl. apply (ring_elsewhere w); [by apply (rel_ring _ _ Hr)|]. intros b [->|(n & -> & Hn)]; apply Hb; [left; eauto|right].
  exists n, l. split; [done|]. by apply (member_home a w l xs).
Qed.

(** A hook in no list is constructed or destroyed. *)
Lemma rel_hook a w w' n :
  rel a w -> (forall l, home a !! n <> Some (Some l)) -> sizes w' = sizes w -> (forall b, b <> Node n -> links w' !! b = links w !! b) ->
  (forall k, links w' !! Node n = Some k -> k = mk_dlink None None None) ->
  rel (mk_aworld (contents a) (partial_alter (fun _ => ownerp w' (Node n)) n (home a))) w'.
Proof.
  intros Hr Hn Hs Hb Hw. assert (forall l, ownerp w' (Node n) <> Some (Some l)) as Hn'.
  { intros l. unfold ownerp. destruct (links w' !! Node n) as [k|]; [|done]. by rewrite (Hw k). }
  split; cbn [contents home].
  - rewrite Hs. apply (rel_sizes _ _ Hr).
  - intros l. unfold ownerp. rewrite Hb by done. apply (rel_heads _ _ Hr).
  - intros m. destruct (decide (m = n)) as [->|Hne]; [by rewrite lookup_partial_alter_eq|].
    rewrite lookup_partial_alter_ne, <- (rel_nodes _ _ Hr) by congruence. unfold ownerp. rewrite Hb; congruence.
  - intros m l. rewrite <- (rel_home _ _ Hr). destruct (decide (m = n)) as [->|Hne]; [|by rewrite lookup_partial_alter_ne].
    rewrite lookup_partial_alter_eq. split; intros E; exfalso; [by apply (Hn' l)|by apply (Hn l)].
  - apply (rel_nodup _ _ Hr).
  - apply (rings_kept a w); [done|]. intros b Hin. unfold nextp, prevp. rewrite Hb; [done|]. intros ->.
    destruct Hin as [(? & ? & _)|(m & l & [= <-] & Hm)]; [done|]. by apply (Hn l).
  - intros m. destruct (decide (m = n)) as [->|Hne].
    + intros _. unfold nextp, prevp. destruct (links w' !! Node n) as [k|]; [|done]. by rewrite (Hw k).
    + rewrite lookup_partial_alter_ne by congruence. intros Hm%(rel_free _ _ Hr). unfold nextp, prevp. rewrite Hb by congruence. done.
Qed.

Lemma dsim_construct_hook n : sim (ListSpec.construct_hook n) (DList.construct_hook n).
Proof.
  intros a w Hr. unfold ListSpec.construct_hook, DList.construct_hook. pose proof (rel_nodes _ _ Hr n) as En. unfold ownerp in En.
  destruct (home a !! n) as [o|] eqn:Hn, (links w !! Node n) as [k|] eqn:Hk; try done. split; [done|]. set (w' := mk_dworld _ _).
  assert (links w' !! Node n = Some (mk_dlink None None None)) as Hw by apply lookup_insert_eq.
  pose proof (rel_hook a w w' n Hr) as Hh. unfold ownerp in Hh. rewrite Hw in Hh. apply Hh; [congruence|done| |congruence].
  intros b Hne. by apply lookup_insert_ne.
Qed.
Lemma dsim_destroy_hook n : sim (ListSpec.destroy_hook n) (DList.destroy_hook n).
Proof.
  intros a w Hr. apply alike_node; [done|]. intros [l|] Hn; [done|]. cbn [owner]. mstep. split; [done|]. set (w' := mk_dworld _ _).
  assert (links w' !! Node n = None) as Hw by apply lookup_delete_eq.
  pose proof (rel_hook a w w' n Hr) as Hh. unfold ownerp in Hh. rewrite Hw in Hh. apply Hh; [congruence|done| |congruence].
  intros b Hne. by apply lookup_delete_ne.
Qed.
Lemma dsim_is_linked n : sim (ListSpec.is_linked n) (DList.is_linked n).
Proof. intros a w Hr. apply alike_node; [done|]. intros [l|] Hn; done. Qed.
Lemma dsim_assign_hook n m : sim (ListSpec.assign_hook n m) (DList.assign_hook n m).
Proof. intros a w Hr. apply alike_node; [done|]. intros o _. apply alike_node; [done|]. intros o' _. done. Qed.

(** A list with no elements is constructed or destroyed. *)
Lemma rel_list a w w' l :
  rel a w -> (forall xs, contents a !! l = Some xs -> xs = []) -> sizes w' = partial_alter (fun _ => (fun _ => 0) <$> links w' !! Head l) l (sizes w) ->
  (forall b, b <> Head l -> links w' !! b = links w !! b) ->
  (forall k, links w' !! Head l = Some k -> k = mk_dlink (Some (Head l)) (Some (Head l)) (Some l)) ->
  rel (mk_aworld (partial_alter (fun _ => (fun _ => []) <$> links w' !! Head l) l (contents a)) (home a)) w'.
Proof.
  intros Hr Hn Hs Hb Hw.
  split; cbn [contents home].
  - apply map_eq. intros l'. rewrite Hs, lookup_fmap. destruct (decide (l' = l)) as [->|Hne].
    + rewrite !lookup_partial_alter_eq. by destruct (links w' !! Head l).
    + rewrite !lookup_partial_alter_ne by done. by rewrite (rel_sizes _ _ Hr), lookup_fmap.
  - intros l'. unfold ownerp. destruct (decide (l' = l)) as [->|Hne].
    + rewrite lookup_partial_alter_eq. destruct (links w' !! Head l) as [k|]; [|done]. by rewrite (Hw k).
    + rewrite lookup_partial_alter_ne, Hb by congruence. apply (rel_heads _ _ Hr).
  - intros m. unfold ownerp. rewrite Hb by done. apply (rel_nodes _ _ Hr).
  - intros m l'. rewrite (rel_home _ _ Hr). destruct (decide (l' = l)) as [->|Hne]; [|by rewrite lookup_partial_alter_ne].
    rewrite lookup_partial_alter_eq. split; intros (xs & Hl & Hm); exfalso; [by rewrite (Hn _ Hl) in Hm; set_solver|].
    destruct (links w' !! Head l); [|done]. injection Hl as <-. set_solver.
  - intros l' xs. destruct (decide (l' = l)) as [->|Hne]; [|rewrite lookup_partial_alter_ne by done; apply (rel_nodup _ _ Hr)].
    rewrite lookup_partial_alter_eq. destruct (links w' !! Head l); [|done]. intros [= <-]. constructor.
  - intros l' xs. destruct (decide (l' = l)) as [->|Hne].
    + rewrite lookup_partial_alter_eq. destruct (links w' !! Head l) as [k|] eqn:Hk; [|done]. intros [= <-]. unfold ring. cbn [fmap list_fmap app seg].
      split; [|done]. unfold joined, nextp, prevp. by rewrite Hk, (Hw k).
    + rewrite lookup_partial_alter_ne by done. intros Hl. apply (ring_elsewhere w); [by apply (rel_ring _ _ Hr)|]. intros b Hin.
      unfold nextp, prevp. rewrite Hb; [done|]. destruct Hin as [->|(? & -> & _)]; congruence.
  - intros m Hm. unfold nextp, prevp. rewrite Hb by done. by apply (rel_free _ _ Hr).
Qed.

Lemma dsim_construct_list l : sim (ListSpec.construct_list l) (DList.construct_list l).
Proof.
  intros a w Hr. unfold ListSpec.construct_list, DList.construct_list. rewrite (rel_sizes _ _ Hr), lookup_fmap.
  destruct (contents a !! l) as [xs|] eqn:Hl; [done|]. split; [done|]. set (w' := mk_dworld _ _).
  assert (links w' !! Head l = Some (mk_dlink (Some (Head l)) (Some (Head l)) (Some l))) as Hw by apply lookup_insert_eq.
  pose proof (rel_list a w w' l Hr) as Hh. rewrite Hw in Hh. apply Hh; [congruence|by rewrite (rel_sizes _ _ Hr)| |congruence].
  intros b Hne. by apply lookup_insert_ne.
Qed.
Lemma dsim_destroy_list l : sim (ListSpec.destroy_list l) (DList.destroy_list l).
Proof.
  intros a w Hr. unfold ListSpec.destroy_list, DList.destroy_list. pose proof (dsim_clear l a w Hr) as Hc.
  unfold bind. destruct (ListSpec.clear l a) as [[] a1|a1| | |] eqn:E, (DList.clear l w) as [[] w1|w1| | |]; cbn in Hc; try done.
  destruct Hc as [_ Hr1]. split; [done|]. set (w' := mk_dworld _ _). assert (links w' !! Head l = None) as Hw by apply lookup_delete_eq.
  pose proof (rel_list a1 w1 w' l Hr1) as Hh. rewrite Hw in Hh. apply Hh; [|done| |congruence].
  - intros xs. revert E. unfold ListSpec.clear, bind, ListSpec.list_at. destruct (contents a !! l) as [ys|]; [|done]. intros [= <-]. cbn.
    rewrite lookup_insert_eq. congruence.
  - intros b Hne. by apply lookup_delete_ne.
Qed.
End sims.
