(* ===== verification/IntrusiveListClaims.v ===== *)
(** * What programs of [intrusive_list] can rely on

    A program is any sequence of calls on any lists and hooks, starting with none
    alive.  It ends as the abstract lists say it does, with the same answers; and the
    links of a list can be walked from either end. *)

From Stdlib Require Import ZArith Lia.
From stdpp Require Import base numbers list option gmap tactics.
From S2P Require Import Prelude IntrusiveList IntrusiveListFacts IntrusiveListSims.
Local Open Scope Z_scope.

Inductive list_call : Set :=
  | ConstructHook (n : nat) | AssignHook (n other : nat) | DestroyHook (n : nat) | IsLinked (n : nat)
  | ConstructList (l : nat) | DestroyList (l : nat) | Empty (l : nat) | Size (l : nat) | Front (l : nat) | Back (l : nat)
  | Begin (l : nat) | Advance (it : option addr) | Retreat (it : option addr)
  | PushFront (l n : nat) | PushBack (l n : nat) | Insert (l : nat) (pos : option addr) (n : nat)
  | PopFront (l : nat) | PopBack (l : nat) | EraseAt (l : nat) (pos : option addr) | Erase (l n : nat)
  | Splice (l : nat) (pos : option addr) (other : nat) (it : option addr) | Clear (l : nat).

Inductive list_answer : Set :=
  | Done | Truth (b : bool) | Count (z : Z) | Element (n : nat) | Iterator (it : option addr).

Section programs.
  Context `{SizeT} (h : hardening).

Definition answer {S X : Type} (f : X -> list_answer) (m : M S X) : M S list_answer := let! x := m in ret (f x).
Definition done_ {S : Type} : M S unit -> M S list_answer := answer (fun _ => Done).

Definition call (c : list_call) : M dworld list_answer :=
  match c with
  | ConstructHook n => done_ (DList.construct_hook n)
  | AssignHook n other => done_ (DList.assign_hook n other)
  | DestroyHook n => done_ (DList.destroy_hook n)
  | IsLinked n => answer Truth (DList.is_linked n)
  | ConstructList l => done_ (DList.construct_list l)
  | DestroyList l => done_ (DList.destroy_list l)
  | Empty l => answer Truth (DList.empty l)
  | Size l => answer Count (DList.size l)
  | Front l => answer Element (DList.front h l)
  | Back l => answer Element (DList.back h l)
  | Begin l => answer Iterator (DList.begin_ l)
  | Advance it => answer Iterator (DList.advance it)
  | Retreat it => answer Iterator (DList.retreat it)
  | PushFront l n => done_ (DList.push_front l n)
  | PushBack l n => done_ (DList.push_back l n)
  | Insert l pos n => answer Iterator (DList.insert l pos n)
  | PopFront l => done_ (DList.pop_front l)
  | PopBack l => done_ (DList.pop_back l)
  | EraseAt l pos => answer Iterator (DList.erase_at l pos)
  | Erase l n => done_ (DList.erase l n)
  | Splice l pos other it => done_ (DList.splice l pos other it)
  | Clear l => done_ (DList.clear l)
  end.

(** What the call means. *)
Definition meaning (c : list_call) : M aworld list_answer :=
  match c with
  | ConstructHook n => done_ (ListSpec.construct_hook n)
  | AssignHook n other => done_ (ListSpec.assign_hook n other)
  | DestroyHook n => done_ (ListSpec.destroy_hook n)
  | IsLinked n => answer Truth (ListSpec.is_linked n)
  | ConstructList l => done_ (ListSpec.construct_list l)
  | DestroyList l => done_ (ListSpec.destroy_list l)
  | Empty l => answer Truth (ListSpec.empty l)
  | Size l => answer Count (ListSpec.size l)
  | Front l => answer Element (ListSpec.end_of h head l)
  | Back l => answer Element (ListSpec.end_of h list.last l)
  | Begin l => answer Iterator (let! xs := ListSpec.list_at l in ret (Some (first l xs)))
  | Advance it => answer Iterator (ListSpec.neighbour after it)
  | Retreat it => answer Iterator (ListSpec.neighbour before it)
  | PushFront l n => done_ (ListSpec.push_front l n)
  | PushBack l n => done_ (ListSpec.push_back l n)
  | Insert l pos n => answer Iterator (ListSpec.insert l pos n)
  | PopFront l => done_ (ListSpec.pop head l)
  | PopBack l => done_ (ListSpec.pop list.last l)
  | EraseAt l pos => answer Iterator (ListSpec.erase_at l pos)
  | Erase l n => done_ (ListSpec.erase l n)
  | Splice l pos other it => done_ (ListSpec.splice l pos other it)
  | Clear l => done_ (ListSpec.clear l)
  end.

Fixpoint calls {S C : Type} (one : C -> M S list_answer) (cs : list C) : M S (list list_answer) :=
  match cs with
  | [] => ret []
  | c :: cs' => let! r := one c in let! rs := calls one cs' in ret (r :: rs)
  end.

Definition no_links : dworld := mk_dworld ∅ ∅.
Definition no_lists : aworld := mk_aworld ∅ ∅.

Lemma no_links_rel : rel no_lists no_links.
Proof. split; cbn; try done. intros n l. split; [done|]. intros (xs & ? & _). done. Qed.

Lemma dsim_answer {X} (f : X -> list_answer) (m' : M aworld X) (m : M dworld X) : sim m' m -> sim (answer f m') (answer f m).
Proof. intros Hm. apply dsim_bind; [done|]. intros x. apply dsim_ret. Qed.
Lemma dsim_begin l : sim (let! xs := ListSpec.list_at l in ret (Some (first l xs))) (DList.begin_ l).
Proof. intros a w Hr. by apply alike_head. Qed.

Lemma dsim_call c : sim (meaning c) (call c).
Proof.
  destruct c; cbn [meaning call]; apply dsim_answer;
    [ apply dsim_construct_hook | apply dsim_assign_hook | apply dsim_destroy_hook | apply dsim_is_linked | apply dsim_construct_list | apply dsim_destroy_list
    | apply dsim_empty | apply dsim_size | apply dsim_front | apply dsim_back | apply dsim_begin | apply dsim_advance | apply dsim_retreat
    | apply dsim_push_front | apply dsim_push_back | apply dsim_insert | apply dsim_pop_front | apply dsim_pop_back | apply dsim_erase_at
    | apply dsim_erase | apply dsim_splice | apply dsim_clear ].
Qed.
Lemma dsim_calls cs : sim (calls meaning cs) (calls call cs).
Proof. induction cs as [|c cs IH]; [apply dsim_ret|]. apply dsim_bind; [apply dsim_call|]. intros r. apply dsim_bind; [done|]. intros rs. apply dsim_ret. Qed.

(** Walking the links of a list, from its head back to its head. *)
Fixpoint walk (step : option addr -> M dworld (option addr)) (fuel : nat) (l : nat) (it : option addr) : M dworld (list nat) :=
  match fuel with
  | O => fun _ => Spin
  | S fuel' =>
      let! next := step it in
      if bool_decide (next = DList.end_ l) then ret []
      else let! n := DList.value_of next in let! ns := walk step fuel' l next in ret (n :: ns)
  end.

Section walks.
  Context (a : aworld) (w : dworld) (l : nat) (Hr : rel a w).

Lemma walk_forward B : forall A, contents a !! l = Some (A ++ B) -> walk DList.advance (S (length B)) l (Some (lastp l A)) w = Ret B w.
Proof.
  induction B as [|b B IH]; intros A Hl; destruct (joined_cut a w l A _ Hr Hl) as [En _]; destruct (lastp_alive a w l _ A _ Hr Hl eq_refl) as [Ha _].
  all: assert (DList.advance (Some (lastp l A)) w = Ret (nextp w (lastp l A)) w) as Es
    by (unfold DList.advance; cbn [DList.deref]; mstep; by rewrite (bind_Ret _ _ _ _ _ (read_alive w _ Ha))).
  all: cbn [length walk]; rewrite (bind_Ret _ _ _ _ _ Es), En; cbn [first].
  - by rewrite bool_decide_eq_true_2.
  - rewrite bool_decide_eq_false_2 by done. cbn [DList.value_of]. mstep. specialize (IH (A ++ [b]) ltac:(by rewrite <- app_assoc)).
    rewrite lastp_app in IH. by rewrite (bind_Ret _ _ _ _ _ IH).
Qed.
Lemma walk_backward A : forall B, contents a !! l = Some (A ++ B) -> walk DList.retreat (S (length A)) l (Some (first l B)) w = Ret (rev A) w.
Proof.
  induction A as [|x A IH] using rev_ind; intros B Hl; destruct (joined_cut a w l _ B Hr Hl) as [_ Ep]; destruct (lastp_alive a w l _ _ B Hr Hl eq_refl) as [_ Ha].
  all: assert (DList.retreat (Some (first l B)) w = Ret (prevp w (first l B)) w) as Es
    by (unfold DList.retreat; cbn [DList.deref]; mstep; by rewrite (bind_Ret _ _ _ _ _ (read_alive w _ Ha))).
  all: rewrite ?length_app; cbn [length Nat.add walk]; rewrite (bind_Ret _ _ _ _ _ Es), Ep.
  - by rewrite bool_decide_eq_true_2.
  - rewrite lastp_app, bool_decide_eq_false_2 by done.
    cbn [DList.value_of]. mstep. specialize (IH (x :: B) ltac:(by rewrite <- app_assoc in Hl)). rewrite Nat.add_1_r, rev_app_distr.
    by rewrite (bind_Ret _ _ _ _ _ IH).
Qed.
Lemma in_list_iff xs n : contents a !! l = Some xs -> DList.in_this_list l (Some (Node n)) w = Ret true w <-> n ∈ xs.
Proof.
  intros Hl. cbn [DList.in_this_list]. unfold bind. rewrite read_cases, (rel_nodes _ _ Hr). split.
  - destruct (home a !! n) as [o|] eqn:Hn; [|done]. cbn. intros [= ->%bool_decide_eq_true_1]. apply (rel_home _ _ Hr) in Hn as (ys & Hy & ?). congruence.
  - intros Hn. rewrite (member_home a w l xs n Hr Hl Hn). cbn. by rewrite bool_decide_eq_true_2.
Qed.
End walks.

(** C9. Any sequence of calls on [intrusive_list]s and their hooks, from a state with
    nothing alive, ends as the sequence does on lists of elements: with the same
    answers, or stopped by the same check, or at the same use of what is not alive;
    and the links, owners and sizes it leaves are those of the abstract lists. *)
Theorem intrusive_list_refines cs : alike (calls meaning cs no_lists) (calls call cs no_links).
Proof. apply dsim_calls, no_links_rel. Qed.

(** In every state that calls can leave, walking a live list from its head by
    [operator++] visits its elements once each and comes back to the head; walking it
    by [operator--] visits them in reverse; [size_] is their number; and they are
    exactly the elements that [in_this_list] accepts. *)
Theorem intrusive_list_walks cs rs w l z :
  calls call cs no_links = Ret rs w -> DList.size l w = Ret z w ->
  exists xs, NoDup xs /\ z = wrap (Z.of_nat (length xs)) /\
    walk DList.advance (S (length xs)) l (DList.end_ l) w = Ret xs w /\ walk DList.retreat (S (length xs)) l (DList.end_ l) w = Ret (rev xs) w /\
    forall n, DList.in_this_list l (Some (Node n)) w = Ret true w <-> n ∈ xs.
Proof.
  intros Hc Hz. pose proof (dsim_calls cs no_lists no_links no_links_rel) as Hs. rewrite Hc in Hs.
  destruct (calls meaning cs no_lists) as [rs' a|a| | |]; try done. destruct Hs as [_ Hr]. unfold DList.size, DList.get_size in Hz.
  rewrite (rel_sizes _ _ Hr), lookup_fmap in Hz. destruct (contents a !! l) as [xs|] eqn:Hl; [|done]. injection Hz as <-. exists xs.
  split; [by apply (rel_nodup _ _ Hr l)|]. split; [done|]. split; [by apply (walk_forward a w l Hr xs [])|].
  split; [apply (walk_backward a w l Hr xs []); by rewrite app_nil_r|]. intros n. by apply (in_list_iff a).
Qed.
End programs.

Section witness.
  #[local] Existing Instance size_t_32.

(** Elements 4, 2, 1 in the list 0 after pushes at both ends, a splice from the list 5
    and an erase. *)
Definition example_calls : list list_call :=
  [ConstructList 0; ConstructList 5; ConstructHook 1; ConstructHook 2; ConstructHook 3; ConstructHook 4;
   PushBack 0 1; PushFront 0 2; PushBack 0 3; PushBack 5 4; Splice 0 (Some (Node 2)) 5 (Some (Node 4)); Erase 0 3].

Lemma intrusive_list_walks_witness : exists xs, NoDup xs /\ 3 = wrap (Z.of_nat (length xs)) /\ xs = [4; 2; 1]%nat.
Proof.
  destruct (calls (call HARDENING_FAST) example_calls no_links) as [rs w|w| | |] eqn:E; vm_compute in E; try discriminate.
  destruct (intrusive_list_walks HARDENING_FAST example_calls rs w 0 3) as (xs & Hnd & Hz & Hf & _).
  - rewrite <- E. vm_compute. reflexivity.
  - injection E as <- <-. reflexivity.
  - exists xs. split; [exact Hnd|]. split; [exact Hz|]. injection E as <- <-.
    destruct xs as [|x [|y [|u [|v t]]]]; vm_compute in Hf; try discriminate; by injection Hf as <- <- <-.
Defined.
End witness.
