(* ===== verification/ForwardList.v ===== *)
(** * [intrusive_forward_list]

    [include/metl/intrusive_forward_list.hpp] and [include/metl/detail/slist_link.hpp]:
    the singly linked lists of objects of the caller.  Links and lists have the
    addresses of [IntrusiveList.v]; a link here has no [prev], and the last one of a
    list has a null [next]. *)

From Stdlib Require Import ZArith Lia.
From stdpp Require Import base numbers list option gmap tactics.
From S2P Require Import Prelude IntrusiveList.
Local Open Scope Z_scope.

Record slink : Set := mk_slink { snext : option addr; sowner : option nat }.
Record sworld : Set := mk_sworld { slinks : gmap addr slink; ssizes : gmap nat Z }.

Module SList.
Section slist.
  Context `{SizeT} (h : hardening).
  Abbreviation MS := (M sworld).

Definition read (a : addr) : MS slink := fun w => match slinks w !! a with Some k => Ret k w | None => Fault end.
Definition write (a : addr) (k : slink) : MS unit := fun w =>
  match slinks w !! a with Some _ => Ret tt (mk_sworld (<[a := k]> (slinks w)) (ssizes w)) | None => Fault end.
Definition deref (p : option addr) : MS addr := match p with Some a => ret a | None => fault end.

Definition set_next (a : addr) (p : option addr) : MS unit := let! k := read a in write a (mk_slink p (sowner k)).
Definition set_owner (a : addr) (o : option nat) : MS unit := let! k := read a in write a (mk_slink (snext k) o).

(** *** [detail/slist_link.hpp] *)

Definition slist_link_after (pos node : addr) : MS unit :=
  let! k := read pos in
  set_next node (snext k) ;;;
  set_next pos (Some node).

Definition slist_unlink_after (pos : addr) : MS addr :=
  let! k := read pos in
  let! node := deref (snext k) in
  let! j := read node in
  set_next pos (snext j) ;;;
  set_next node None ;;;
  ret node.

Fixpoint previous_loop (fuel : nat) (pos node : addr) : MS addr :=
  let! k := read pos in
  if bool_decide (snext k = Some node) then ret pos
  else match fuel with
  | O => fun _ => Spin
  | S fuel' => let! p := deref (snext k) in previous_loop fuel' p node
  end.
Definition slist_previous (head node : addr) : MS addr := let! n := get (fun w => base.size (slinks w)) in previous_loop n head node.

(** *** [forward_list_hook] *)

Definition construct_hook (n : nat) : MS unit := fun w =>
  match slinks w !! Node n with
  | None => Ret tt (mk_sworld (<[Node n := mk_slink None None]> (slinks w)) (ssizes w))
  | Some _ => Fault
  end.
Definition assign_hook (n other : nat) : MS unit := read (Node n) ;;; read (Node other) ;;; ret tt.
Definition destroy_hook (n : nat) : MS unit :=
  let! k := read (Node n) in
  metl_harden (match sowner k with None => true | Some _ => false end) ;;;
  modify (fun w => mk_sworld (delete (Node n) (slinks w)) (ssizes w)).
Definition is_linked (n : nat) : MS bool :=
  let! k := read (Node n) in ret (match sowner k with Some _ => true | None => false end).

(** *** [intrusive_forward_list] *)

Definition get_size (l : nat) : MS Z := fun w => match ssizes w !! l with Some n => Ret n w | None => Fault end.
Definition set_size (l : nat) (n : Z) : MS unit := fun w =>
  match ssizes w !! l with Some _ => Ret tt (mk_sworld (slinks w) (<[l := wrap n]> (ssizes w))) | None => Fault end.

Definition construct_list (l : nat) : MS unit := fun w =>
  match ssizes w !! l with
  | None => Ret tt (mk_sworld (<[Head l := mk_slink None (Some l)]> (slinks w)) (<[l := 0]> (ssizes w)))
  | Some _ => Fault
  end.

Definition empty (l : nat) : MS bool := let! k := read (Head l) in ret (bool_decide (snext k = None)).
Definition size (l : nat) : MS Z := get_size l.

Definition value_of (p : option addr) : MS nat := match p with Some (Node n) => ret n | _ => fault end.
Definition front (l : nat) : MS nat :=
  let! e := empty l in metl_assert h (negb e) ;;; let! k := read (Head l) in value_of (snext k).

Definition before_begin (l : nat) : option addr := Some (Head l).
Definition begin_ (l : nat) : MS (option addr) := let! k := read (Head l) in ret (snext k).
Definition end_ : option addr := None.
Definition advance (it : option addr) : MS (option addr) := let! a := deref it in let! k := read a in ret (snext k).

Definition in_this_list (l : nat) (pos : option addr) : MS bool :=
  match pos with
  | None => ret false
  | Some a => let! k := read a in ret (bool_decide (sowner k = Some l))
  end.

Definition unlink_after (l : nat) (pos : addr) : MS unit :=
  let! node := slist_unlink_after pos in
  set_owner node None ;;;
  let! n := get_size l in set_size l (n - 1).

Definition insert_after (l : nat) (pos : option addr) (value : nat) : MS (option addr) :=
  let node := Node value in
  let! k := read node in
  metl_harden (match sowner k with None => true | Some _ => false end) ;;;
  let! here := in_this_list l pos in
  metl_harden here ;;;
  let! a := deref pos in
  slist_link_after a node ;;;
  set_owner node (Some l) ;;;
  let! n := get_size l in set_size l (n + 1) ;;;
  ret (Some node).

Definition push_front (l value : nat) : MS unit := insert_after l (before_begin l) value ;;; ret tt.

Definition erase_after (l : nat) (pos : option addr) : MS (option addr) :=
  let! here := in_this_list l pos in
  metl_harden here ;;;
  let! a := deref pos in
  let! k := read a in
  metl_harden (negb (bool_decide (snext k = None))) ;;;
  unlink_after l a ;;;
  let! k := read a in ret (snext k).

Definition pop_front (l : nat) : MS unit := erase_after l (before_begin l) ;;; ret tt.

Definition erase (l value : nat) : MS unit :=
  let! k := read (Node value) in
  metl_harden (bool_decide (sowner k = Some l)) ;;;
  let! pos := slist_previous (Head l) (Node value) in
  unlink_after l pos.

Fixpoint clear_loop (fuel : nat) (l : nat) : MS unit :=
  let! k := read (Head l) in
  if bool_decide (snext k = None) then ret tt
  else match fuel with
  | O => fun _ => Spin
  | S fuel' => unlink_after l (Head l) ;;; clear_loop fuel' l
  end.
Definition clear (l : nat) : MS unit := let! n := get (fun w => base.size (slinks w)) in clear_loop n l.

Definition destroy_list (l : nat) : MS unit :=
  clear l ;;; modify (fun w => mk_sworld (delete (Head l) (slinks w)) (delete l (ssizes w))).
End slist.
End SList.
