(* ===== verification/ForwardListFacts.v ===== *)
(** * [intrusive_forward_list] is [intrusive_list] with the way back forgotten

    The links of a forward list are those of a doubly linked list without [prev], and
    with a null pointer where the doubly linked one points back at its head.  What is
    known of the one then carries over to the other. *)

From Stdlib Require Import ZArith Lia.
From stdpp Require Import base numbers list option gmap tactics.
From S2P Require Import Prelude IntrusiveList IntrusiveListFacts IntrusiveListSims ForwardList.
Local Open Scope Z_scope.

(** ** The abstract operations that differ *)

Fixpoint insert_behind (y n : nat) (xs : list nat) : list nat :=
  match xs with
  | [] => [n]
  | z :: t => if decide (z = y) then z :: n :: t else z :: insert_behind y n t
  end.
Definition place_after (pos : addr) (n : nat) (xs : list nat) : list nat :=
  match pos with Head _ => n :: xs | Node y => insert_behind y n xs end.
Definition forward_path (l : nat) (xs : list nat) : list addr := Head l :: (Node <$> xs).

Module ForwardSpec.
Section spec.
  Context `{SizeT}.
  Abbreviation MA := (M aworld).

Definition advance (pos : option addr) : MA (option addr) :=
  match pos with
  | None => fault
  | Some p => let! o := ListSpec.list_of p in
              match o with
              | None => ret None
              | Some l => let! xs := ListSpec.list_at l in ret (after p (forward_path l xs))
              end
  end.
Definition insert_after (l : nat) (pos : option addr) (n : nat) : MA (option addr) :=
  let! o := ListSpec.home_of n in
  match o with
  | Some _ => trap
  | None =>
      let! p := ListSpec.position l pos in
      let! xs := ListSpec.list_at l in
      ListSpec.set_list l (place_after p n xs) ;;; ListSpec.set_home n (Some l) ;;; ret (Some (Node n))
  end.
Definition push_front (l n : nat) : MA unit := insert_after l (Some (Head l)) n ;;; ret tt.
Definition erase_after (l : nat) (pos : option addr) : MA (option addr) :=
  let! p := ListSpec.position l pos in
  let! xs := ListSpec.list_at l in
  match after p (forward_path l xs) with
  | Some (Node n) => ListSpec.take_out l n ;;; let! ys := ListSpec.list_at l in ret (after p (forward_path l ys))
  | _ => trap
  end.
End spec.
End ForwardSpec.

(** ** Forgetting *)

(** A pointer to a head is a null pointer. *)
Definition ahead (p : option addr) : option addr := match p with Some (Node n) => Some (Node n) | _ => None end.
Definition forget_link (k : dlink) : slink := mk_slink (ahead (next k)) (owner k).
Definition forget (d : dworld) : sworld := mk_sworld (forget_link <$> links d) (sizes d).

Definition succ (s : sworld) (a : addr) : option addr := slinks s !! a ≫= snext.
Definition holder (s : sworld) (a : addr) : option (option nat) := sowner <$> slinks s !! a.

Section forgetting.
  Implicit Types (d : dworld) (s : sworld) (a b : addr).

Lemma succ_forget d b : succ (forget d) b = ahead (nextp d b).
Proof. unfold succ, nextp. cbn. rewrite lookup_fmap. by destruct (links d !! b). Qed.
Lemma holder_forget d b : holder (forget d) b = ownerp d b.
Proof. unfold holder, ownerp. cbn. rewrite lookup_fmap. by destruct (links d !! b). Qed.
Lemma forget_eq s d :
  ssizes s = sizes d -> (forall b, succ s b = ahead (nextp d b)) -> (forall b, holder s b = ownerp d b) -> s = forget d.
Proof.
  destruct s as [k z]. unfold forget, succ, holder, nextp, ownerp. cbn. intros -> Hs Ho. f_equal. apply map_eq. intros b. rewrite lookup_fmap.
  specialize (Hs b). specialize (Ho b). destruct (k !! b) as [[x o]|], (links d !! b) as [[y p o']|]; cbn in *; try done. injection Ho as ->. by rewrite Hs.
Qed.

Lemma sread_cases s p : SList.read p s = match holder s p with Some o => Ret (mk_slink (succ s p) o) s | None => Fault end.
Proof. unfold SList.read, holder, succ. by destruct (slinks s !! p) as [[]|]. Qed.

(** Writing links. *)
Definition supd (f : slink -> slink) (a : addr) (s : sworld) : sworld := mk_sworld (alter f a (slinks s)) (ssizes s).
Definition supd_next a p := supd (fun k => mk_slink p (sowner k)) a.
Definition supd_owner a o := supd (fun k => mk_slink (snext k) o) a.

Lemma swrite_step f s a o : holder s a = Some o -> (let! k := SList.read a in SList.write a (f k)) s = Ret tt (supd f a s).
Proof.
  unfold holder, bind, SList.read, SList.write, supd. destruct (slinks s !! a) as [k|] eqn:Hk; [|done]. intros _. rewrite Hk. do 2 f_equal.
  apply map_eq. intros b. destruct (decide (a = b)) as [<-|Hne]; [by rewrite lookup_insert_eq, lookup_alter_eq, Hk|by rewrite lookup_insert_ne, lookup_alter_ne].
Qed.
Lemma supd_next_views a p s b o :
  holder s a = Some o -> succ (supd_next a p s) b = (if decide (b = a) then p else succ s b) /\ holder (supd_next a p s) b = holder s b.
Proof.
  unfold holder, succ. cbn. destruct (slinks s !! a) as [k|] eqn:Hk; [|done]. intros _. case_decide as E.
  - subst. by rewrite lookup_alter_eq, Hk.
  - by rewrite lookup_alter_ne.
Qed.
Lemma supd_owner_views a o' s b o :
  holder s a = Some o -> succ (supd_owner a o' s) b = succ s b /\ holder (supd_owner a o' s) b = if decide (b = a) then Some o' else holder s b.
Proof.
  unfold holder, succ. cbn. destruct (slinks s !! a) as [k|] eqn:Hk; [|done]. intros _. case_decide as E.
  - subst. by rewrite lookup_alter_eq, Hk.
  - by rewrite lookup_alter_ne.
Qed.

(** [node] goes behind [pos]. *)
Lemma link_after_step s pos node op on :
  holder s pos = Some op -> holder s node = Some on -> pos <> node ->
  exists s', SList.slist_link_after pos node s = Ret tt s' /\ ssizes s' = ssizes s /\ (forall b, holder s' b = holder s b) /\
    forall b, succ s' b = if decide (b = pos) then Some node else if decide (b = node) then succ s pos else succ s b.
Proof.
  intros Hp Hn Hne. unfold SList.slist_link_after. rewrite (bind_Ret _ _ s (mk_slink (succ s pos) op) s) by (by rewrite sread_cases, Hp). cbn [snext].
  pose proof (fun b => supd_next_views node (succ s pos) s b on Hn) as V1. set (s1 := supd_next node (succ s pos) s) in *.
  rewrite (bind_Ret _ _ s tt s1) by (by apply (swrite_step (fun k => mk_slink (succ s pos) (sowner k)) s node on)).
  assert (holder s1 pos = Some op) as Hp1 by (by rewrite (proj2 (V1 pos))). exists (supd_next pos (Some node) s1). split_and!; [|done|..].
  - by apply (swrite_step (fun k => mk_slink (Some node) (sowner k)) s1 pos op).
  - intros b. rewrite (proj2 (supd_next_views pos (Some node) s1 b op Hp1)). apply V1.
  - intros b. rewrite (proj1 (supd_next_views pos (Some node) s1 b op Hp1)). case_decide; [done|]. apply V1.
Qed.

(** The link behind [pos] leaves. *)
Lemma unlink_after_step s pos node op on :
  holder s pos = Some op -> holder s node = Some on -> pos <> node -> succ s pos = Some node ->
  exists s', SList.slist_unlink_after pos s = Ret node s' /\ ssizes s' = ssizes s /\ (forall b, holder s' b = holder s b) /\
    forall b, succ s' b = if decide (b = node) then None else if decide (b = pos) then succ s node else succ s b.
Proof.
  intros Hp Hn Hne Hs. unfold SList.slist_unlink_after. rewrite (bind_Ret _ _ s (mk_slink (succ s pos) op) s) by (by rewrite sread_cases, Hp). cbn [snext].
  rewrite Hs. cbn [SList.deref]. mstep. rewrite (bind_Ret _ _ s (mk_slink (succ s node) on) s) by (by rewrite sread_cases, Hn). cbn [snext].
  pose proof (fun b => supd_next_views pos (succ s node) s b op Hp) as V1. set (s1 := supd_next pos (succ s node) s) in *.
  rewrite (bind_Ret _ _ s tt s1) by (by apply (swrite_step (fun k => mk_slink (succ s node) (sowner k)) s pos op)).
  assert (holder s1 node = Some on) as Hn1 by (by rewrite (proj2 (V1 node))). exists (supd_next node None s1).
  rewrite (bind_Ret _ _ s1 tt (supd_next node None s1)) by (by apply (swrite_step (fun k => mk_slink None (sowner k)) s1 node on)).
  split_and!; [done|done|..].
  - intros b. rewrite (proj2 (supd_next_views node None s1 b on Hn1)). apply V1.
  - intros b. rewrite (proj1 (supd_next_views node None s1 b on Hn1)). case_decide; [done|]. apply V1.
Qed.
End forgetting.

(** ** Every operation forgets what the doubly linked one does *)

Definition map_state {S T X : Type} (f : S -> T) (o : outcome S X) : outcome T X :=
  match o with Ret x s => Ret x (f s) | Throw s => Throw (f s) | Trap => Trap | Fault => Fault | Spin => Spin end.

Section forward.
  Context `{SizeT} (h : hardening).
  Implicit Types (a : aworld) (d : dworld) (l n : nat) (xs A B : list nat).

Definition frel (a : aworld) (s : sworld) : Prop := exists d, rel a d /\ s = forget d.
Definition fsim {X : Type} : M aworld X -> M sworld X -> Prop := sim_by frel.

Lemma fsim_via {X} (spec : M aworld X) (m : M dworld X) (m' : M sworld X) :
  sim spec m -> (forall a d, rel a d -> m' (forget d) = map_state forget (m d)) -> fsim spec m'.
Proof.
  intros Hs Hm a s (d & Hr & ->). rewrite (Hm a d Hr). specialize (Hs a d Hr). unfold alike in Hs.
  destruct (spec a), (m d); cbn in *; try done; [destruct Hs; split; [done|]|]; by eexists.
Qed.
Lemma fsim_ret {X} (x : X) : fsim (ret x) (ret x).
Proof. apply sim_by_ret. Qed.
Lemma fsim_bind {X Y} (m' : M aworld X) m (k' : X -> M aworld Y) k : fsim m' m -> (forall x, fsim (k' x) (k x)) -> fsim (bind m' k') (bind m k).
Proof. apply sim_by_bind. Qed.

Lemma read_forget d p : SList.read p (forget d) = match ownerp d p with Some o => Ret (mk_slink (ahead (nextp d p)) o) (forget d) | None => Fault end.
Proof. by rewrite sread_cases, holder_forget, succ_forget. Qed.

(** *** Hooks, and lists without elements *)

Lemma fsim_construct_hook n : fsim (ListSpec.construct_hook n) (SList.construct_hook n).
Proof.
  apply (fsim_via _ _ _ (dsim_construct_hook n)). intros a d _. unfold SList.construct_hook, DList.construct_hook. cbn. rewrite lookup_fmap.
  destruct (links d !! Node n); [done|]. cbn. unfold forget. cbn. by rewrite fmap_insert.
Qed.
Lemma fsim_destroy_hook n : fsim (ListSpec.destroy_hook n) (SList.destroy_hook n).
Proof.
  apply (fsim_via _ _ _ (dsim_destroy_hook n)). intros a d _. unfold SList.destroy_hook, DList.destroy_hook, bind. rewrite read_forget, read_cases.
  destruct (ownerp d (Node n)) as [[l|]|]; try done. cbn. unfold forget. cbn. by rewrite fmap_delete.
Qed.
Lemma fsim_is_linked n : fsim (ListSpec.is_linked n) (SList.is_linked n).
Proof.
  apply (fsim_via _ _ _ (dsim_is_linked n)). intros a d _. unfold SList.is_linked, DList.is_linked, bind. rewrite read_forget, read_cases.
  by destruct (ownerp d (Node n)).
Qed.
Lemma fsim_assign_hook n m : fsim (ListSpec.assign_hook n m) (SList.assign_hook n m).
Proof.
  apply (fsim_via _ _ _ (dsim_assign_hook n m)). intros a d _. unfold SList.assign_hook, DList.assign_hook, bind. rewrite read_forget, read_cases.
  destruct (ownerp d (Node n)); [|done]. cbn. rewrite read_forget, read_cases. by destruct (ownerp d (Node m)).
Qed.
Lemma fsim_construct_list l : fsim (ListSpec.construct_list l) (SList.construct_list l).
Proof.
  apply (fsim_via _ _ _ (dsim_construct_list l)). intros a d _. unfold SList.construct_list, DList.construct_list. cbn.
  destruct (sizes d !! l); [done|]. cbn. unfold forget. cbn. by rewrite fmap_insert.
Qed.
Lemma fsim_size l : fsim (ListSpec.size l) (SList.size l).
Proof. apply (fsim_via _ _ _ (dsim_size l)). intros a d _. unfold SList.size, SList.get_size, DList.size, DList.get_size. cbn. by destruct (sizes d !! l). Qed.

(** *** The head *)

Lemma fhead_read a d l xs :
  rel a d -> contents a !! l = Some xs -> SList.read (Head l) (forget d) = Ret (mk_slink (Node <$> head xs) (Some l)) (forget d).
Proof.
  intros Hr Hl. pose proof (head_read a d l xs Hr Hl) as E. rewrite read_cases in E. rewrite read_forget. destruct (ownerp d (Head l)); [|done].
  injection E as -> _ ->. by destruct xs.
Qed.
Lemma falike_head {X} a d l (k' : list nat -> M aworld X) (k : slink -> M sworld X) :
  rel a d -> (forall xs, contents a !! l = Some xs -> alike_by frel (k' xs a) (k (mk_slink (Node <$> head xs) (Some l)) (forget d))) ->
  alike_by frel ((let! xs := ListSpec.list_at l in k' xs) a) ((let! j := SList.read (Head l) in k j) (forget d)).
Proof.
  intros Hr Hk. unfold bind, ListSpec.list_at. destruct (contents a !! l) as [xs|] eqn:Hl.
  - rewrite (fhead_read a d l xs Hr Hl). by apply Hk.
  - by rewrite read_forget, (rel_heads _ _ Hr), Hl.
Qed.
Lemma falike_node {X} a d n (k' : option nat -> M aworld X) (k : slink -> M sworld X) :
  rel a d -> (forall o, home a !! n = Some o -> alike_by frel (k' o a) (k (mk_slink (succ (forget d) (Node n)) o) (forget d))) ->
  alike_by frel ((let! o := ListSpec.home_of n in k' o) a) ((let! j := SList.read (Node n) in k j) (forget d)).
Proof.
  intros Hr Hk. unfold bind, ListSpec.home_of. rewrite sread_cases, holder_forget, (rel_nodes _ _ Hr). destruct (home a !! n) as [o|]; [|done]. by apply Hk.
Qed.
Lemma fsim_empty l : fsim (ListSpec.empty l) (SList.empty l).
Proof. intros a s (d & Hr & ->). apply falike_head; [done|]. intros xs Hl. split; [|by exists d]. apply bool_decide_ext. by destruct xs. Qed.
Lemma fsim_front l : fsim (ListSpec.end_of h head l) (SList.front h l).
Proof.
  intros a s (d & Hr & ->). unfold SList.front, SList.empty. rewrite bind_assoc. apply falike_head; [done|]. intros xs Hl. mstep. cbn [snext].
  destruct xs as [|x xs]; cbn [head fmap option_fmap option_map].
  - rewrite bool_decide_eq_true_2 by done. cbn [negb]. destruct h; [|done..]. cbn [metl_assert]. do 2 mstep. by rewrite (bind_Ret _ _ _ _ _ (fhead_read a d l [] Hr Hl)).
  - rewrite bool_decide_eq_false_2 by done. cbn [negb]. mstep. rewrite (bind_Ret _ _ _ _ _ (fhead_read a d l (x :: xs) Hr Hl)). split; [done|]. by exists d.
Qed.
Lemma fsim_begin l : fsim (let! xs := ListSpec.list_at l in ret (Node <$> head xs)) (SList.begin_ l).
Proof. intros a s (d & Hr & ->). apply falike_head; [done|]. intros xs Hl. split; [done|]. by exists d. Qed.

(** *** Positions *)

(** The list up to a position, and what follows. *)
Lemma cut_behind a d l xs p :
  rel a d -> contents a !! l = Some xs -> p = Head l \/ (exists n, p = Node n /\ n ∈ xs) ->
  exists A B, xs = A ++ B /\ lastp l A = p /\ forall n, place_after p n xs = A ++ n :: B.
Proof.
  intros Hr Hl [->|(y & -> & Hy)]; [exists [], xs; done|]. apply list_elem_of_split in Hy as (A & B & ->). exists (A ++ [y]), B.
  destruct (free_of l A B y a d Hr Hl) as [HyA _]. rewrite lastp_app, <- app_assoc. split_and!; [done|done|]. intros n. rewrite <- app_assoc. cbn [app place_after].
  clear -HyA. induction A as [|z A IH]; cbn; [by rewrite decide_True|]. rewrite decide_False by (intros ->; apply HyA; by left).
  by rewrite IH by (intros ?; apply HyA; by right).
Qed.
Lemma after_forward l A B : NoDup (A ++ B) -> after (lastp l A) (forward_path l (A ++ B)) = Node <$> head B.
Proof.
  intros Hnd. unfold forward_path. rewrite fmap_app, app_comm_cons. destruct (lastp_snoc l A) as (P & E). rewrite E, <- app_assoc. cbn [app].
  assert (lastp l A ∉ P) as Hni.
  { pose proof (head_path_nodup l A ltac:(by apply list.NoDup_app in Hnd as [? _])) as Hp. rewrite E in Hp. apply list.NoDup_app in Hp as (_ & Hd & _).
    intros Hin. apply (Hd _ Hin). by left. }
  destruct B as [|b B]; cbn [fmap list_fmap head option_fmap option_map]; [|by apply after_app].
  clear E Hnd. induction P as [|z P IH]; [done|]. cbn [app after]. destruct (P ++ [lastp l A]) as [|u t] eqn:E; [done|].
  rewrite decide_False by (intros ->; apply Hni; by left). apply IH. intros ?. apply Hni. by right.
Qed.
Lemma succ_cut a d l A B : rel a d -> contents a !! l = Some (A ++ B) -> succ (forget d) (lastp l A) = Node <$> head B.
Proof. intros Hr Hl. rewrite succ_forget. destruct (joined_cut a d l A B Hr Hl) as [-> _]. by destruct B. Qed.
Lemma holder_cut a d l A B : rel a d -> contents a !! l = Some (A ++ B) -> holder (forget d) (lastp l A) = Some (Some l).
Proof.
  intros Hr Hl. rewrite holder_forget. destruct (lastp_in l A) as [->|(n & -> & Hn)]; [by rewrite (rel_heads _ _ Hr), Hl|].
  rewrite (rel_nodes _ _ Hr). apply (member_home a d l (A ++ B)); [done|done|]. apply elem_of_app. by left.
Qed.

Lemma falike_position {X} a d l pos (k' : addr -> M aworld X) (k : M sworld X) :
  rel a d ->
  (forall A B, contents a !! l = Some (A ++ B) -> pos = Some (lastp l A) -> (forall n, place_after (lastp l A) n (A ++ B) = A ++ n :: B) ->
    alike_by frel (k' (lastp l A) a) (k (forget d))) ->
  alike_by frel ((let! p := ListSpec.position l pos in k' p) a) ((let! here := SList.in_this_list l pos in metl_harden here ;;; k) (forget d)).
Proof.
  intros Hr Hk. unfold bind at 1. rewrite (position_cases a d l pos Hr). destruct pos as [p|]; [|done].
  cbn [SList.in_this_list]. rewrite bind_assoc. unfold bind at 1. rewrite read_forget. destruct (ownerp d p) as [o|] eqn:Ho; [|done]. cbn [sowner]. mstep.
  destruct (decide (o = Some l)) as [->|]; [|by rewrite bool_decide_eq_false_2]. rewrite bool_decide_eq_true_2 by done. mstep.
  destruct (owned_position a d l p Hr Ho) as (xs & Hl & Hin). destruct (cut_behind a d l xs p Hr Hl Hin) as (A & B & -> & <- & Hpl). by apply (Hk A B).
Qed.

Lemma fsim_advance pos : fsim (ForwardSpec.advance pos) (SList.advance pos).
Proof.
  intros a s (d & Hr & ->). destruct pos as [p|]; [|done]. unfold SList.advance. cbn [SList.deref ForwardSpec.advance]. mstep.
  unfold bind at 1 3. rewrite read_forget, (owner_cases a d p Hr). destruct (ownerp d p) as [[l|]|] eqn:Ho; [| |done].
  - destruct (owned_position a d l p Hr Ho) as (xs & Hl & Hin). destruct (cut_behind a d l xs p Hr Hl Hin) as (A & B & -> & <- & _).
    unfold bind, ListSpec.list_at. rewrite Hl. split; [|by exists d]. cbn [snext]. rewrite <- succ_forget, (succ_cut a d l A B Hr Hl).
    by rewrite after_forward by (by apply (rel_nodup _ _ Hr l)).
  - split; [|by exists d]. cbn [snext]. destruct p as [l|n]; [rewrite (rel_heads _ _ Hr) in Ho; by destruct (contents a !! l)|].
    rewrite (rel_nodes _ _ Hr) in Ho. by rewrite (proj1 (rel_free _ _ Hr n Ho)).
Qed.

(** *** Linking and unlinking *)

Lemma fsize_step s l z z' :
  ssizes s !! l = Some z -> (let! y := SList.get_size l in SList.set_size l (y + z')) s = Ret tt (mk_sworld (slinks s) (<[l := wrap (z + z')]> (ssizes s))).
Proof. intros Es. unfold bind, SList.get_size, SList.set_size. by rewrite Es, Es. Qed.

Lemma finsert_rel a d l A B n :
  rel a d -> contents a !! l = Some (A ++ B) -> home a !! n = Some None ->
  exists s', (SList.slist_link_after (lastp l A) (Node n) ;;; SList.set_owner (Node n) (Some l) ;;;
              let! z := SList.get_size l in SList.set_size l (z + 1) ;;; ret (Some (Node n))) (forget d) = Ret (Some (Node n)) s' /\
    frel (mk_aworld (<[l := A ++ n :: B]> (contents a)) (<[n := Some l]> (home a))) s'.
Proof.
  intros Hr Hl Hn. destruct (link_views a d l A B n Hr Hl Hn d ltac:(done)) as (_ & Hnx & _ & How & Ha).
  assert (n ∉ A ++ B) as Hni by (intros Hin; pose proof (member_home _ _ _ _ _ Hr Hl Hin); congruence). apply not_elem_of_app in Hni as [HnA _].
  assert (holder (forget d) (Node n) = Some None) as Hh by (by rewrite holder_forget, (rel_nodes _ _ Hr)).
  destruct (link_after_step (forget d) (lastp l A) (Node n) (Some l) None) as (s1 & E1 & Ez & Eh & Es); [by apply (holder_cut a d l A B)|done|by apply lastp_not|].
  rewrite (bind_Ret _ _ _ _ _ E1). assert (holder s1 (Node n) = Some None) as Hh1 by (by rewrite Eh).
  rewrite (bind_Ret _ _ _ tt (supd_owner (Node n) (Some l) s1)) by (by apply (swrite_step (fun k => mk_slink (snext k) (Some l)) s1 (Node n) None)).
  set (s2 := supd_owner (Node n) (Some l) s1). assert (ssizes s2 !! l = Some (wrap (Z.of_nat (length (A ++ B))))) as Hz.
  { change (ssizes s2) with (ssizes s1). rewrite Ez. by apply (size_at a d). }
  rewrite <- bind_assoc. rewrite (bind_Ret _ _ _ _ _ (fsize_step s2 l _ 1 Hz)). eexists. split; [reflexivity|].
  eexists. split; [by apply placed_rel|]. set (w1 := linked_before (lastp l A) (first l B) (Node n) d) in *.
  pose proof (fun b => placed_views l n (wrap (Z.of_nat (S (length (A ++ B))))) w1 b Ha) as Hv. apply forget_eq.
  - cbn. change (ssizes s2) with (ssizes s1). rewrite Ez. f_equal. unfold wrap. rewrite Zplus_mod_idemp_l. f_equal. lia.
  - intros b. rewrite (proj1 (Hv b)), Hnx. change (succ s2 b = ahead (if decide (b = lastp l A) then Some (Node n) else if decide (b = Node n) then Some (first l B) else nextp d b)).
    unfold s2. rewrite (proj1 (supd_owner_views (Node n) (Some l) s1 b None Hh1)), Es, (succ_cut a d l A B Hr Hl).
    case_decide; [done|]. case_decide; [by destruct B|]. apply succ_forget.
  - intros b. rewrite (proj2 (proj2 (Hv b))), How. change (holder s2 b = if decide (b = Node n) then Some (Some l) else ownerp d b).
    unfold s2. rewrite (proj2 (supd_owner_views (Node n) (Some l) s1 b None Hh1)), Eh. case_decide; [done|]. apply holder_forget.
Qed.

Lemma funlink_forgets a d l A B n :
  rel a d -> contents a !! l = Some (A ++ n :: B) -> SList.unlink_after l (lastp l A) (forget d) = map_state forget (DList.unlink l (Node n) d).
Proof.
  intros Hr Hl. destruct (unlink_views a d l A B n Hr Hl) as (Hn & _ & Hnx & _ & How & Ha). destruct (free_of l A B n a d Hr Hl) as [HnA _].
  rewrite (unlink_ends a d l A B n Hr Hl). cbn [map_state]. set (w1 := unlinked_from (lastp l A) (Node n) (first l B) d) in *.
  assert (holder (forget d) (Node n) = Some (Some l)) as Hh.
  { rewrite holder_forget, (rel_nodes _ _ Hr). apply (member_home a d l _ n Hr Hl), elem_of_app. right. by left. }
  destruct (unlink_after_step (forget d) (lastp l A) (Node n) (Some l) (Some l)) as (s1 & E1 & Ez & Eh & Es);
    [by apply (holder_cut a d l A (n :: B))|done|by apply lastp_not|by rewrite (succ_cut a d l A (n :: B) Hr Hl)|].
  unfold SList.unlink_after. rewrite (bind_Ret _ _ _ _ _ E1). assert (holder s1 (Node n) = Some (Some l)) as Hh1 by (by rewrite Eh).
  rewrite (bind_Ret _ _ _ tt (supd_owner (Node n) None s1)) by (by apply (swrite_step (fun k => mk_slink (snext k) None) s1 (Node n) (Some l))).
  set (s2 := supd_owner (Node n) None s1). assert (ssizes s2 !! l = Some (wrap (Z.of_nat (length (A ++ n :: B))))) as Hz.
  { change (ssizes s2) with (ssizes s1). rewrite Ez. by apply (size_at a d). }
  etrans; [exact (fsize_step s2 l _ (-1) Hz)|]. f_equal. apply forget_eq.
  - cbn. change (ssizes s2) with (ssizes s1). rewrite Ez. f_equal. unfold wrap. rewrite Zplus_mod_idemp_l. f_equal. rewrite !length_app. cbn. lia.
  - intros b. change (succ s2 b = ahead (nextp (upd_owner (Node n) None w1) b)). rewrite nextp_upd_owner, Hnx.
    unfold s2. rewrite (proj1 (supd_owner_views (Node n) None s1 b _ Hh1)), Es, !succ_forget, Hn. case_decide; [done|]. by case_decide.
  - intros b. change (holder s2 b = ownerp (upd_owner (Node n) None w1) b). rewrite ownerp_upd_owner, How. destruct Ha as [k ->].
    unfold s2. rewrite (proj2 (supd_owner_views (Node n) None s1 b _ Hh1)), Eh. case_decide; [done|]. apply holder_forget.
Qed.

Lemma funlink_rel a d l A B n :
  rel a d -> contents a !! l = Some (A ++ n :: B) ->
  exists d', SList.unlink_after l (lastp l A) (forget d) = Ret tt (forget d') /\ rel (mk_aworld (<[l := A ++ B]> (contents a)) (<[n := None]> (home a))) d'.
Proof.
  intros Hr Hl. rewrite (funlink_forgets a d l A B n Hr Hl). destruct (unlink_rel a d l A B n Hr Hl) as (d' & -> & ?). by exists d'.
Qed.

Lemma fsim_insert_after l pos n : fsim (ForwardSpec.insert_after l pos n) (SList.insert_after l pos n).
Proof.
  intros a s (d & Hr & ->). apply falike_node; [done|]. intros [l0|] Hn; [done|]. cbn [sowner]. mstep. apply falike_position; [done|].
  intros A B Hl -> Hpl. unfold bind at 1, ListSpec.list_at. rewrite Hl, Hpl. cbn [SList.deref]. mstep.
  destruct (finsert_rel a d l A B n Hr Hl Hn) as (s' & -> & ?). done.
Qed.
Lemma fsim_push_front l n : fsim (ForwardSpec.push_front l n) (SList.push_front l n).
Proof. apply fsim_bind; [apply fsim_insert_after|intros; apply fsim_ret]. Qed.

Lemma fsim_erase_after l pos : fsim (ForwardSpec.erase_after l pos) (SList.erase_after l pos).
Proof.
  intros a s (d & Hr & ->). apply falike_position; [done|]. intros A B Hl -> _. pose proof (rel_nodup _ _ Hr l _ Hl) as Hnd.
  unfold bind at 1, ListSpec.list_at at 1. rewrite Hl, after_forward by done. cbn [SList.deref]. mstep.
  rewrite (bind_Ret _ _ _ (mk_slink (succ (forget d) (lastp l A)) (Some l)) (forget d)) by (by rewrite sread_cases, (holder_cut a d l A B)).
  cbn [snext]. rewrite (succ_cut a d l A B Hr Hl). destruct B as [|n B]; [done|]. cbn [head fmap option_fmap option_map].
  rewrite bool_decide_eq_false_2 by done. cbn [negb]. mstep. rewrite (bind_Ret _ _ _ _ _ (take_out_ends a d l A B n Hr Hl)).
  destruct (funlink_rel a d l A B n Hr Hl) as (d' & E & Hr'). rewrite (bind_Ret _ _ _ _ _ E). set (a' := mk_aworld _ _) in *.
  assert (contents a' !! l = Some (A ++ B)) as Hl' by apply lookup_insert_eq. unfold bind, ListSpec.list_at. rewrite Hl'.
  rewrite sread_cases, (holder_cut a' d' l A B Hr' Hl'). cbn [snext]. rewrite (succ_cut a' d' l A B Hr' Hl').
  split; [|by exists d']. by rewrite after_forward by (by apply (rel_nodup _ _ Hr' l)).
Qed.
Lemma fsim_pop_front l : fsim (ListSpec.pop head l) (SList.pop_front l).
Proof.
  intros a s Hs. assert (ListSpec.pop head l a = (ForwardSpec.erase_after l (Some (Head l)) ;;; ret tt) a) as ->.
  - destruct Hs as (d & Hr & _). unfold ListSpec.pop, ForwardSpec.erase_after, ListSpec.position, ListSpec.list_of, bind, ListSpec.list_at.
    destruct (contents a !! l) as [xs|] eqn:Hl; [|done]. cbn [ret]. rewrite decide_True by done. cbn [ret]. rewrite Hl. destruct xs as [|x xs]; [done|].
    cbn [head forward_path fmap list_fmap after]. rewrite decide_True by done. rewrite (take_out_ends a d l [] xs x Hr Hl). cbn. by rewrite lookup_insert_eq.
  - revert a s Hs. apply fsim_bind; [apply fsim_erase_after|intros; apply fsim_ret].
Qed.

(** [slist_previous]. *)
Lemma previous_finds a d l n B : rel a d -> forall A A' fuel,
  contents a !! l = Some (A' ++ A ++ n :: B) -> (length A <= fuel)%nat ->
  SList.previous_loop fuel (lastp l A') (Node n) (forget d) = Ret (lastp l (A' ++ A)) (forget d).
Proof.
  intros Hr. induction A as [|x A IH]; intros A' fuel Hl Hf; pose proof (holder_cut a d l A' _ Hr Hl) as Hh; pose proof (succ_cut a d l A' _ Hr Hl) as Hs;
    destruct fuel as [|fuel]; cbn [SList.previous_loop app length] in *; try lia;
    (rewrite (bind_Ret _ _ _ (mk_slink (succ (forget d) (lastp l A')) (Some l)) (forget d)) by (by rewrite sread_cases, Hh));
    cbn [snext]; rewrite Hs; cbn [head fmap option_fmap option_map].
  1, 2: by rewrite bool_decide_eq_true_2, app_nil_r.
  assert (x <> n) as Hne.
  { intros ->. assert (contents a !! l = Some ((A' ++ n :: A) ++ n :: B)) as Hl' by (by rewrite <- app_assoc).
    destruct (free_of l _ B n a d Hr Hl') as [Hni _]. apply Hni, elem_of_app. right. by left. }
  rewrite bool_decide_eq_false_2 by congruence. cbn [SList.deref]. mstep.
  specialize (IH (A' ++ [x]) fuel). rewrite lastp_app, <- !app_assoc in IH. apply IH; [done|lia].
Qed.

Lemma fsize_links d : base.size (slinks (forget d)) = base.size (links d).
Proof. apply map_size_fmap. Qed.

Lemma fsim_erase l n : fsim (ListSpec.erase l n) (SList.erase l n).
Proof.
  intros a s (d & Hr & ->). apply falike_node; [done|]. intros o Hn. cbn [sowner]. destruct (decide (o = Some l)) as [->|]; [|by rewrite bool_decide_eq_false_2].
  rewrite bool_decide_eq_true_2 by done. mstep. destruct (member_cut a d l n Hr Hn) as (A & B & Hl). unfold SList.slist_previous. do 2 mstep.
  pose proof (members_bounded a d l _ Hr Hl) as Hb. rewrite length_app, <- fsize_links in Hb.
  rewrite (bind_Ret _ _ _ _ _ (previous_finds a d l n B Hr A [] (base.size (slinks (forget d))) Hl ltac:(lia))). cbn [app]. rewrite (take_out_ends a d l A B n Hr Hl). destruct (funlink_rel a d l A B n Hr Hl) as (d' & -> & ?). split; [done|]. by exists d'.
Qed.

Lemma fclear_rel l xs : forall fuel a d,
  rel a d -> contents a !! l = Some xs -> (length xs <= fuel)%nat ->
  exists d', SList.clear_loop fuel l (forget d) = Ret tt (forget d') /\ DList.clear_loop fuel l d = Ret tt d'.
Proof.
  induction xs as [|x xs IH]; intros fuel a d Hr Hl Hf; pose proof (head_read a d l _ Hr Hl) as E; pose proof (fhead_read a d l _ Hr Hl) as E'.
  - exists d. destruct fuel; cbn [SList.clear_loop DList.clear_loop]; rewrite (bind_Ret _ _ _ _ _ E), (bind_Ret _ _ _ _ _ E'); cbn [next snext first head fmap option_fmap option_map];
      by rewrite !bool_decide_eq_true_2.
  - destruct fuel as [|fuel]; [cbn in Hf; lia|]. cbn [SList.clear_loop DList.clear_loop]. rewrite (bind_Ret _ _ _ _ _ E), (bind_Ret _ _ _ _ _ E').
    cbn [next snext first head fmap option_fmap option_map]. rewrite !bool_decide_eq_false_2 by done. cbn [DList.deref]. mstep.
    pose proof (funlink_forgets a d l [] xs x Hr Hl) as Hu. destruct (unlink_rel a d l [] xs x Hr Hl) as (d1 & E1 & Hr1). rewrite E1 in Hu.
    change (lastp l []) with (Head l) in Hu. cbn [map_state] in Hu. rewrite (bind_Ret _ _ _ _ _ E1), (bind_Ret _ _ _ _ _ Hu).
    apply (IH fuel _ d1 Hr1); [apply lookup_insert_eq|cbn in Hf; lia].
Qed.
Lemma clear_forgets a d l : rel a d -> SList.clear l (forget d) = map_state forget (DList.clear l d).
Proof.
  intros Hr. unfold SList.clear, DList.clear. do 2 mstep. rewrite fsize_links. destruct (contents a !! l) as [xs|] eqn:Hl.
  - destruct (fclear_rel l xs (base.size (links d)) a d Hr Hl (members_bounded a d l xs Hr Hl)) as (d' & -> & ->). done.
  - assert (DList.read (Head l) d = Fault) as Er by (by rewrite read_cases, (rel_heads _ _ Hr), Hl).
    assert (SList.read (Head l) (forget d) = Fault) as Es by (by rewrite read_forget, (rel_heads _ _ Hr), Hl).
    destruct (base.size (links d)); cbn [DList.clear_loop SList.clear_loop]; by rewrite (bind_Fault _ _ _ Er), (bind_Fault _ _ _ Es).
Qed.
Lemma fsim_clear l : fsim (ListSpec.clear l) (SList.clear l).
Proof. apply (fsim_via _ _ _ (dsim_clear l)). intros a d. apply clear_forgets. Qed.
Lemma fsim_destroy_list l : fsim (ListSpec.destroy_list l) (SList.destroy_list l).
Proof.
  apply (fsim_via _ _ _ (dsim_destroy_list l)). intros a d Hr. unfold SList.destroy_list, DList.destroy_list, bind. rewrite (clear_forgets a d l Hr).
  destruct (DList.clear l d) as [[] d'|d'| | |]; try done. cbn. unfold forget. cbn. by rewrite fmap_delete.
Qed.
End forward.
