(* ===== verification/ForwardListClaims.v ===== *)
(** * What programs of [intrusive_forward_list] can rely on *)

From Stdlib Require Import ZArith Lia.
From stdpp Require Import base numbers list option gmap tactics.
From S2P Require Import Prelude IntrusiveList IntrusiveListFacts IntrusiveListSims IntrusiveListClaims ForwardList ForwardListFacts.
Local Open Scope Z_scope.

Inductive forward_call : Set :=
  | FConstructHook (n : nat) | FAssignHook (n other : nat) | FDestroyHook (n : nat) | FIsLinked (n : nat)
  | FConstructList (l : nat) | FDestroyList (l : nat) | FEmpty (l : nat) | FSize (l : nat) | FFront (l : nat)
  | FBegin (l : nat) | FAdvance (it : option addr)
  | FPushFront (l n : nat) | FInsertAfter (l : nat) (pos : option addr) (n : nat)
  | FPopFront (l : nat) | FEraseAfter (l : nat) (pos : option addr) | FErase (l n : nat) | FClear (l : nat).

Section programs.
  Context `{SizeT} (h : hardening).

Definition fcall (c : forward_call) : M sworld list_answer :=
  match c with
  | FConstructHook n => done_ (SList.construct_hook n)
  | FAssignHook n other => done_ (SList.assign_hook n other)
  | FDestroyHook n => done_ (SList.destroy_hook n)
  | FIsLinked n => answer Truth (SList.is_linked n)
  | FConstructList l => done_ (SList.construct_list l)
  | FDestroyList l => done_ (SList.destroy_list l)
  | FEmpty l => answer Truth (SList.empty l)
  | FSize l => answer Count (SList.size l)
  | FFront l => answer Element (SList.front h l)
  | FBegin l => answer Iterator (SList.begin_ l)
  | FAdvance it => answer Iterator (SList.advance it)
  | FPushFront l n => done_ (SList.push_front l n)
  | FInsertAfter l pos n => answer Iterator (SList.insert_after l pos n)
  | FPopFront l => done_ (SList.pop_front l)
  | FEraseAfter l pos => answer Iterator (SList.erase_after l pos)
  | FErase l n => done_ (SList.erase l n)
  | FClear l => done_ (SList.clear l)
  end.

(** What the call means. *)
Definition fmeaning (c : forward_call) : M aworld list_answer :=
  match c with
  | FConstructHook n => done_ (ListSpec.construct_hook n)
  | FAssignHook n other => done_ (ListSpec.assign_hook n other)
  | FDestroyHook n => done_ (ListSpec.destroy_hook n)
  | FIsLinked n => answer Truth (ListSpec.is_linked n)
  | FConstructList l => done_ (ListSpec.construct_list l)
  | FDestroyList l => done_ (ListSpec.destroy_list l)
  | FEmpty l => answer Truth (ListSpec.empty l)
  | FSize l => answer Count (ListSpec.size l)
  | FFront l => answer Element (ListSpec.end_of h head l)
  | FBegin l => answer Iterator (let! xs := ListSpec.list_at l in ret (Node <$> head xs))
  | FAdvance it => answer Iterator (ForwardSpec.advance it)
  | FPushFront l n => done_ (ForwardSpec.push_front l n)
  | FInsertAfter l pos n => answer Iterator (ForwardSpec.insert_after l pos n)
  | FPopFront l => done_ (ListSpec.pop head l)
  | FEraseAfter l pos => answer Iterator (ForwardSpec.erase_after l pos)
  | FErase l n => done_ (ListSpec.erase l n)
  | FClear l => done_ (ListSpec.clear l)
  end.

Definition no_slinks : sworld := mk_sworld ∅ ∅.

Lemma no_slinks_rel : frel no_lists no_slinks.
Proof. exists no_links. split; [apply no_links_rel|]. unfold forget, no_slinks. cbn. by rewrite fmap_empty. Qed.

Lemma fsim_answer {X} (f : X -> list_answer) (m' : M aworld X) (m : M sworld X) : fsim m' m -> fsim (answer f m') (answer f m).
Proof. intros Hm. apply fsim_bind; [done|]. intros x. apply fsim_ret. Qed.
Lemma fsim_call c : fsim (fmeaning c) (fcall c).
Proof.
  destruct c; cbn [fmeaning fcall]; apply fsim_answer;
    [ apply fsim_construct_hook | apply fsim_assign_hook | apply fsim_destroy_hook | apply fsim_is_linked | apply fsim_construct_list | apply fsim_destroy_list
    | apply fsim_empty | apply fsim_size | apply fsim_front | apply fsim_begin | apply fsim_advance | apply fsim_push_front | apply fsim_insert_after
    | apply fsim_pop_front | apply fsim_erase_after | apply fsim_erase | apply fsim_clear ].
Qed.
Lemma fsim_calls cs : fsim (calls fmeaning cs) (calls fcall cs).
Proof. induction cs as [|c cs IH]; [apply fsim_ret|]. apply fsim_bind; [apply fsim_call|]. intros r. apply fsim_bind; [done|]. intros rs. apply fsim_ret. Qed.

(** Walking a list from [before_begin] to [end]. *)
Fixpoint forward_walk (fuel : nat) (it : option addr) : M sworld (list nat) :=
  match fuel with
  | O => fun _ => Spin
  | S fuel' =>
      let! next := SList.advance it in
      if bool_decide (next = SList.end_) then ret []
      else let! n := SList.value_of next in let! ns := forward_walk fuel' next in ret (n :: ns)
  end.

Lemma forward_walk_visits a d l (Hr : rel a d) B : forall A,
  contents a !! l = Some (A ++ B) -> forward_walk (S (length B)) (Some (lastp l A)) (forget d) = Ret B (forget d).
Proof.
  induction B as [|b B IH]; intros A Hl.
  all: assert (SList.advance (Some (lastp l A)) (forget d) = Ret (succ (forget d) (lastp l A)) (forget d)) as Es
    by (unfold SList.advance; cbn [SList.deref]; mstep; unfold bind; by rewrite sread_cases, (holder_cut a d l A _ Hr Hl)).
  all: cbn [length forward_walk]; rewrite (bind_Ret _ _ _ _ _ Es), (succ_cut a d l A _ Hr Hl); cbn [head fmap option_fmap option_map].
  - by rewrite bool_decide_eq_true_2.
  - rewrite bool_decide_eq_false_2 by done. cbn [SList.value_of]. mstep. specialize (IH (A ++ [b]) ltac:(by rewrite <- app_assoc)).
    rewrite lastp_app in IH. by rewrite (bind_Ret _ _ _ _ _ IH).
Qed.

(** C10. Any sequence of calls on [intrusive_forward_list]s and their hooks, from a state
    with nothing alive, ends as the sequence does on lists of elements: with the same
    answers, or stopped by the same check, or at the same use of what is not alive.  In
    a state that it leaves, walking any live list from [before_begin] visits each of the
    abstract list's elements once and reaches [end]. *)
Theorem forward_list_refines cs :
  alike_by (fun a s => forall l xs, contents a !! l = Some xs ->
      NoDup xs /\ SList.size l s = Ret (wrap (Z.of_nat (length xs))) s /\ forward_walk (S (length xs)) (SList.before_begin l) s = Ret xs s)
    (calls fmeaning cs no_lists) (calls fcall cs no_slinks).
Proof.
  pose proof (fsim_calls cs no_lists no_slinks no_slinks_rel) as Hs.
  assert (forall a s, frel a s -> forall l xs, contents a !! l = Some xs ->
      NoDup xs /\ SList.size l s = Ret (wrap (Z.of_nat (length xs))) s /\ forward_walk (S (length xs)) (SList.before_begin l) s = Ret xs s) as Hf.
  { intros a s (d & Hr & ->) l xs Hl. split; [by apply (rel_nodup _ _ Hr l)|]. split; [|by apply (forward_walk_visits a d l Hr xs [])].
    unfold SList.size, SList.get_size. cbn. by rewrite (size_at a d l xs Hr Hl). }
  destruct (calls fmeaning cs no_lists), (calls fcall cs no_slinks); cbn in *; try done; [destruct Hs; split; [done|]|]; by apply Hf.
Qed.
End programs.
