(* ===== verification/Scheduler.v ===== *)
(** * [coro::scheduler], with [coro::stepper]

    [include/metl/coro/scheduler.hpp] and [include/metl/coro/stepper.hpp]: tasks that are
    polled in turn.  The table is a [fixed_vector], the one of [FixedVector.v].  A poll is
    client code, which may attach and detach tasks and run rounds of the scheduler that is
    polling it.

    What a program can do with a scheduler is the class [TaskTable]; the scheduler of the
    library is one instance.  [SchedulerFacts.v] has another, whose attachments have
    numbers that are never used again. *)

From Stdlib Require Import ZArith Lia.
From stdpp Require Import base numbers list option tactics.
From S2P Require Import Prelude FixedVector.
Local Open Scope Z_scope.

(** ** [stepper] *)

Inductive step_result : Set := yield | done | error.
Record stepper : Set := mk_stepper { done_ : bool; error_ : bool }.

Module Stepper.
Section stepper.
  (** [S] is a state in which the stepper lies; [step] and [on_reset] are those of the
      derived class. *)
  Context {S : Type} (this : S -> stepper) (set_this : stepper -> S -> S) (step : M S step_result) (on_reset : M S unit).

Definition stepper_fresh : stepper := mk_stepper false false.
Definition is_done : M S bool := get (fun s => done_ (this s)).
Definition is_error : M S bool := get (fun s => error_ (this s)).
Definition set_done (b : bool) : M S unit := modify (fun s => set_this (mk_stepper b (error_ (this s))) s).
Definition set_error (b : bool) : M S unit := modify (fun s => set_this (mk_stepper (done_ (this s)) b) s).
Definition poll : M S bool :=
  let! d := is_done in
  let! e := is_error in
  if d || e then ret false
  else
    let! r := step in
    match r with
    | done => set_done true ;;; ret false
    | error => set_error true ;;; set_done true ;;; ret false
    | yield => ret true
    end.
Definition reset : M S unit := set_done false ;;; set_error false ;;; on_reset.
End stepper.
End Stepper.

(** ** Programs over a table of tasks *)

Section programs.
  Context (Task P X : Type).

(** Code of the client, whose own state is of type [X].  The code of a poll ends with
    whether the task wants more.  A null function is [None]. *)
Inductive task_code : Type :=
  | TReturn (more : bool)
  | TLocal (f : X -> X) (k : X -> task_code)
  | TAttach (must : bool) (task : Task) (fn : option P) (k : bool -> task_code)   (** [attach] or [try_attach] *)
  | TDetach (task : Task) (k : bool -> task_code)
  | TIsAttached (task : Task) (k : bool -> task_code)
  | TSize (k : Z -> task_code)
  | TRunOnce (k : Z -> task_code)
  | TRunUntilIdle (max_rounds : Z) (k : Z -> task_code).

(** What the scheduler promises its clients.  [call] runs a poll. *)
Class TaskTable (S : Type) : Type := {
  tt_try_attach : Task -> option P -> M S bool;
  tt_detach : Task -> M S bool;
  tt_is_attached : Task -> M S bool;
  tt_size : M S Z;
  tt_run_once : (Task -> P -> M S bool) -> M S Z;
  tt_local : (X -> X) -> M S X;
  tt_note : Task -> P -> M S unit   (** for the theorems: a poll is about to run *)
}.
End programs.
Arguments TReturn {Task P X} more.
Arguments TLocal {Task P X} f k.
Arguments TAttach {Task P X} must task fn k.
Arguments TDetach {Task P X} task k.
Arguments TIsAttached {Task P X} task k.
Arguments TSize {Task P X} k.
Arguments TRunOnce {Task P X} k.
Arguments TRunUntilIdle {Task P X} max_rounds k.
Arguments tt_try_attach {Task P X S _}.
Arguments tt_detach {Task P X S _}.
Arguments tt_is_attached {Task P X S _}.
Arguments tt_size {Task P X S _}.
Arguments tt_run_once {Task P X S _}.
Arguments tt_local {Task P X S _}.
Arguments tt_note {Task P X S _}.

Module Programs.
Section programs.
  Context {Task P X S : Type} `{SizeT} {table : TaskTable Task P X S} (h : hardening) (body : P -> Task -> task_code Task P X).

Definition attach_checked (task : Task) (fn : option P) : M S bool :=
  let! attached := tt_try_attach task fn in metl_assert h attached ;;; ret attached.
Definition empty : M S bool := let! n := tt_size in ret (n =? 0).
(** The number of rounds is at most [max_rounds]. *)
Fixpoint idle_loop (call : Task -> P -> M S bool) (turns : nat) (rounds max_rounds : Z) : M S Z :=
  let! n := tt_size in
  if (rounds <? max_rounds) && (0 <? n) then
    match turns with
    | O => fun _ => Spin
    | Datatypes.S turns' => tt_run_once call ;;; idle_loop call turns' (wrap (rounds + 1)) max_rounds
    end
  else ret rounds.
Definition run_until_idle (call : Task -> P -> M S bool) (max_rounds : Z) : M S Z :=
  idle_loop call (Z.to_nat max_rounds) 0 max_rounds.

(** [call] polls one task. *)
Fixpoint exec_with (call : Task -> P -> M S bool) (c : task_code Task P X) : M S bool :=
  match c with
  | TReturn more => ret more
  | TLocal f k => let! x := tt_local f in exec_with call (k x)
  | TAttach must task fn k => let! b := (if must then attach_checked else tt_try_attach) task fn in exec_with call (k b)
  | TDetach task k => let! b := tt_detach task in exec_with call (k b)
  | TIsAttached task k => let! b := tt_is_attached task in exec_with call (k b)
  | TSize k => let! n := tt_size in exec_with call (k n)
  | TRunOnce k => let! n := tt_run_once call in exec_with call (k n)
  | TRunUntilIdle max_rounds k => let! n := run_until_idle call (wrap max_rounds) in exec_with call (k n)
  end.
(** [fuel] bounds how deep rounds nest in polls. *)
Fixpoint call (fuel : nat) (task : Task) (p : P) : M S bool :=
  match fuel with
  | O => fun _ => Spin
  | Datatypes.S fuel' => tt_note task p ;;; exec_with (call fuel') (body p task)
  end.
Definition exec (fuel : nat) (c : task_code Task P X) : M S bool := exec_with (call fuel) c.
End programs.
End Programs.

(** ** The scheduler *)

Section state.
  Context (Task P X : Type).
(** [task_slot] *)
Record task_slot : Type := mk_slot { task : Task; poll : option P }.
Record entry : Type := mk_entry { slot : task_slot; attachment : Z }.
(** [round_] leads through the frames of the rounds that run, the innermost first; a frame
    is its snapshot.  For the theorems: the client's state and the polls so far. *)
Record scheduler : Type := mk_scheduler {
  tasks_ : vec entry;
  next_attachment_ : Z;
  round_ : list (list entry);
  client : X;
  polls : list (Task * P) }.
End state.
Arguments mk_slot {Task P}.
Arguments task {Task P}.
Arguments poll {Task P}.
Arguments mk_entry {Task P}.
Arguments slot {Task P}.
Arguments attachment {Task P}.
Arguments mk_scheduler {Task P X}.
Arguments tasks_ {Task P X}.
Arguments next_attachment_ {Task P X}.
Arguments round_ {Task P X}.
Arguments client {Task P X}.
Arguments polls {Task P X}.

Module Scheduler.
Section scheduler.
  Context `{SizeT} {Task P X : Type} `{!EqDecision Task} (h : hardening) (Capacity : Z).
  Abbreviation MS := (M (scheduler Task P X)).
  Abbreviation entry := (entry Task P).

Definition fresh (x : X) : scheduler Task P X := mk_scheduler (FixedVector.fixed_vector Capacity) 0 [] x [].
Definition capacity : Z := Capacity.
Definition attachment_numbers : Z := wrap (wrap (2 * Capacity) + 1).

Definition on_tasks {A} (m : M (vec entry) A) : MS A := fun s =>
  match m (tasks_ s) with
  | Ret a v => Ret a (mk_scheduler v (next_attachment_ s) (round_ s) (client s) (polls s))
  | Throw v => Throw (mk_scheduler v (next_attachment_ s) (round_ s) (client s) (polls s))
  | Trap => Trap | Fault => Fault | Spin => Spin
  end.
Definition set_next (n : Z) : MS unit := modify (fun s => mk_scheduler (tasks_ s) n (round_ s) (client s) (polls s)).
Definition set_round (r : list (list entry)) : MS unit := modify (fun s => mk_scheduler (tasks_ s) (next_attachment_ s) r (client s) (polls s)).

Definition size : MS Z := get (fun s => FixedVector.size (tasks_ s)).
(** [tasks_[i]] *)
Definition element (i : Z) : MS entry := on_tasks (let! j := FixedVector.at_ h i in slot_ref j).

(** [for (i = 0; i < tasks_.size(); ++i) if (test(tasks_[i])) ...]: where it stops. *)
Fixpoint search_from (test : entry -> bool) (n : nat) (i : Z) : MS (option Z) :=
  let! count := size in
  if i <? count then
    match n with
    | O => fun _ => Spin
    | S n' => let! e := element i in if test e then ret (Some i) else search_from test n' (i + 1)
    end
  else ret None.
Definition search (test : entry -> bool) : MS (option Z) := search_from test (Z.to_nat Capacity) 0.
(** [tasks_.erase(tasks_.begin() + i)] *)
Definition erase (i : Z) : MS unit := on_tasks (FixedVector.erase (fun e => e) i) ;;; ret tt.
Definition found (r : option Z) : bool := match r with Some _ => true | None => false end.

Definition detach (t : Task) : MS bool :=
  let! r := search (fun e => bool_decide (task (slot e) = t)) in
  match r with Some i => erase i ;;; ret true | None => ret false end.
Definition is_attached (t : Task) : MS bool :=
  let! r := search (fun e => bool_decide (task (slot e) = t)) in ret (found r).
Definition holds (a : Z) : MS bool :=
  let! r := search (fun e => attachment e =? a) in ret (found r).
Definition remove (a : Z) : MS unit :=
  let! r := search (fun e => attachment e =? a) in
  match r with Some i => erase i | None => ret tt end.

Definition in_use (a : Z) : MS bool :=
  let! held := holds a in
  if held then ret true
  else get (fun s => existsb (existsb (fun e => attachment e =? a)) (round_ s)).
Fixpoint take_loop (tries : nat) : MS (option Z) :=
  match tries with
  | O => ret None
  | S tries' =>
      let! candidate := get next_attachment_ in
      set_next (if wrap (candidate + 1) =? attachment_numbers then 0 else wrap (candidate + 1)) ;;;
      let! used := in_use candidate in
      if negb used then ret (Some candidate) else take_loop tries'
  end.
(** [out], or [None] for [false]. *)
Definition try_take_attachment : MS (option Z) := take_loop (Z.to_nat attachment_numbers).

Definition try_attach_impl (t : Task) (fn : option P) : MS bool :=
  (let! a := is_attached t in metl_harden (negb a)) ;;;
  metl_harden (match fn with Some _ => true | None => false end) ;;;
  let! full := get (fun s => FixedVector.full Capacity (tasks_ s)) in
  if full then ret false
  else
    let! taken := try_take_attachment in
    match taken with
    | None => ret false
    | Some a => on_tasks (FixedVector.try_push_back Capacity (ret (mk_entry (mk_slot t fn) a)))
    end.

(** [snapshot[i] = tasks_[i]], into an array of [slot_count] entries. *)
Fixpoint snapshot_from (n : nat) (i : Z) : MS (list entry) :=
  match n with
  | O => ret []
  | S n' =>
      if i <? Z.of_nat (FixedVector.slot_count Capacity) then
        let! e := element i in
        let! rest := snapshot_from n' (i + 1) in
        ret (e :: rest)
      else fault
  end.
(** The polls of a round, over the rest of its snapshot. *)
Fixpoint poll_each (call : Task -> P -> MS bool) (snapshot : list entry) (still_running : Z) : MS Z :=
  match snapshot with
  | [] => ret still_running
  | e :: rest =>
      let! held := holds (attachment e) in
      if negb held then poll_each call rest still_running
      else
        let! more := match poll (slot e) with Some p => call (task (slot e)) p | None => fault end in
        if more : bool then poll_each call rest (wrap (still_running + 1))
        else remove (attachment e) ;;; poll_each call rest still_running
  end.
Definition run_once (call : Task -> P -> MS bool) : MS Z :=
  let! n := size in
  let! snapshot := snapshot_from (Z.to_nat n) 0 in
  let! outer := get round_ in
  set_round (snapshot :: outer) ;;;
  let! still_running := poll_each call snapshot 0 in
  set_round outer ;;;
  ret still_running.

Definition scheduler_table : TaskTable Task P X (scheduler Task P X) := {|
  tt_try_attach := try_attach_impl;
  tt_detach := detach;
  tt_is_attached := is_attached;
  tt_size := size;
  tt_run_once := run_once;
  tt_local f := fun s => Ret (f (client s)) (mk_scheduler (tasks_ s) (next_attachment_ s) (round_ s) (f (client s)) (polls s));
  tt_note t p := modify (fun s => mk_scheduler (tasks_ s) (next_attachment_ s) (round_ s) (client s) (polls s ++ [(t, p)]))
|}.
End scheduler.
End Scheduler.
