(* ===== verification/SchedulerFacts.v ===== *)
(** * [coro::scheduler]: attachments with numbers that are never used again

    The ideal table gives every attachment a number of its own.  The scheduler, whose
    numbers come round again, cannot be told from it. *)

From Stdlib Require Import ZArith Lia.
From stdpp Require Import base numbers list option tactics.
From S2P Require Import Prelude FixedVector FixedVectorFacts Scheduler.
Local Open Scope Z_scope.

Section ideal_state.
  Context (Task P X : Type).
Record ientry : Type := mk_ientry { i_task : Task; i_poll : P; i_id : nat }.
Record ideal : Type := mk_ideal { i_tasks : list ientry; i_next : nat; i_rounds : list (list ientry); i_client : X; i_polls : list (Task * P) }.
End ideal_state.
Arguments mk_ientry {Task P}.
Arguments i_task {Task P}.
Arguments i_poll {Task P}.
Arguments i_id {Task P}.
Arguments mk_ideal {Task P X}.
Arguments i_tasks {Task P X}.
Arguments i_next {Task P X}.
Arguments i_rounds {Task P X}.
Arguments i_client {Task P X}.
Arguments i_polls {Task P X}.

(** Where the first element is that passes the test. *)
Fixpoint index_of {A} (test : A -> bool) (l : list A) : option nat :=
  match l with [] => None | x :: l' => if test x then Some O else S <$> index_of test l' end.

Module Ideal.
Section ideal.
  Context {Task P X : Type} `{!EqDecision Task} (Capacity : Z).
  Abbreviation MI := (M (ideal Task P X)).
  Abbreviation ientry := (ientry Task P).

Definition i_fresh (x : X) : ideal Task P X := mk_ideal [] 0 [] x [].
Definition set_tasks (l : list ientry) (s : ideal Task P X) : ideal Task P X := mk_ideal l (i_next s) (i_rounds s) (i_client s) (i_polls s).
Definition set_rounds (r : list (list ientry)) (s : ideal Task P X) : ideal Task P X := mk_ideal (i_tasks s) (i_next s) r (i_client s) (i_polls s).
(** The attachments that somebody still knows: in the table, or in a round that runs. *)
Definition ids (s : ideal Task P X) : list nat := i_id <$> i_tasks s ++ concat (i_rounds s).
(** No room in the table, or no number: there are [2 * Capacity + 1] of them. *)
Definition crowded (s : ideal Task P X) : bool :=
  (Z.of_nat (length (i_tasks s)) =? Capacity) || (2 * Capacity + 1 <=? Z.of_nat (length (remove_dups (ids s)))).
Definition is_task (t : Task) (e : ientry) : bool := bool_decide (i_task e = t).
Definition is_id (x : nat) (e : ientry) : bool := Nat.eqb (i_id e) x.
Definition has {A} (test : A -> bool) (l : list A) : bool := match index_of test l with Some _ => true | None => false end.
Definition without {A} (test : A -> bool) (l : list A) : list A := match index_of test l with Some i => delete i l | None => l end.

Definition i_try_attach (t : Task) (fn : option P) : MI bool := fun s =>
  if has (is_task t) (i_tasks s) then Trap
  else match fn with
  | None => Trap
  | Some p =>
      if crowded s then Ret false s
      else Ret true (mk_ideal (i_tasks s ++ [mk_ientry t p (i_next s)]) (S (i_next s)) (i_rounds s) (i_client s) (i_polls s))
  end.
Definition i_detach (t : Task) : MI bool := fun s => Ret (has (is_task t) (i_tasks s)) (set_tasks (without (is_task t) (i_tasks s)) s).
Definition i_is_attached (t : Task) : MI bool := get (fun s => has (is_task t) (i_tasks s)).
Definition i_size : MI Z := get (fun s => Z.of_nat (length (i_tasks s))).
(** Each attachment of the snapshot that is still one is polled; it goes if that was all. *)
Fixpoint i_poll_each (call : Task -> P -> MI bool) (snapshot : list ientry) (still_running : Z) : MI Z :=
  match snapshot with
  | [] => ret still_running
  | e :: rest =>
      let! held := get (fun s => has (is_id (i_id e)) (i_tasks s)) in
      if held : bool then
        let! more := call (i_task e) (i_poll e) in
        if more : bool then i_poll_each call rest (still_running + 1)
        else modify (fun s => set_tasks (without (is_id (i_id e)) (i_tasks s)) s) ;;; i_poll_each call rest still_running
      else i_poll_each call rest still_running
  end.
Definition i_run_once (call : Task -> P -> MI bool) : MI Z :=
  let! snapshot := get i_tasks in
  let! outer := get i_rounds in
  modify (set_rounds (snapshot :: outer)) ;;;
  let! still_running := i_poll_each call snapshot 0 in
  modify (set_rounds outer) ;;;
  ret still_running.

Definition ideal_table : TaskTable Task P X (ideal Task P X) := {|
  tt_try_attach := i_try_attach;
  tt_detach := i_detach;
  tt_is_attached := i_is_attached;
  tt_size := i_size;
  tt_run_once := i_run_once;
  tt_local f := fun s => Ret (f (i_client s)) (mk_ideal (i_tasks s) (i_next s) (i_rounds s) (f (i_client s)) (i_polls s));
  tt_note t p := modify (fun s => mk_ideal (i_tasks s) (i_next s) (i_rounds s) (i_client s) (i_polls s ++ [(t, p)]))
|}.
End ideal.
End Ideal.

(** ** Searching *)

Section index_of.
  Context {A B : Type}.
  Implicit Types (l : list A).

Lemma index_of_lt (test : A -> bool) l i : index_of test l = Some i -> (i < length l)%nat.
Proof.
  revert i. induction l as [|x l IH]; intros i; cbn; [done|]. destruct (test x); [intros [= <-]; lia|]. destruct (index_of test l); [|done]. intros [= <-]. specialize (IH _ eq_refl). lia.
Qed.
Lemma index_of_fmap (f : B -> A) (test : A -> bool) (k : list B) : index_of test (f <$> k) = index_of (fun x => test (f x)) k.
Proof. induction k as [|x k IH]; [done|]. cbn. by rewrite <- IH. Qed.
Lemma index_of_ext (test test' : A -> bool) l : (forall x, x ∈ l -> test x = test' x) -> index_of test l = index_of test' l.
Proof. induction l as [|x l IH]; intros E; [done|]. cbn. rewrite E by (by left). rewrite IH; [done|]. intros y Hy. apply E. by right. Qed.
Lemma has_spec (test : A -> bool) l : Ideal.has test l = true <-> exists x, x ∈ l /\ test x = true.
Proof.
  unfold Ideal.has. induction l as [|x l IH]; cbn.
  - split; [done|]. by intros (x & ?%elem_of_nil & _).
  - destruct (test x) eqn:E; [split; [|done]; intros _; exists x; split; [by left|done]|].
    assert (match S <$> index_of test l with Some _ => true | None => false end = match index_of test l with Some _ => true | None => false end) as -> by (by destruct (index_of test l)).
    rewrite IH. split; intros (y & Hy & Ey); exists y; (split; [|done]); [by right|]. apply elem_of_cons in Hy as [->|]; [congruence|done].
Qed.
Lemma without_sublist (test : A -> bool) l : Ideal.without test l `sublist_of` l.
Proof. unfold Ideal.without. destruct (index_of test l); [apply sublist_delete|done]. Qed.
End index_of.

(** ** The scheduler on a list *)

Section concrete.
  Context `{SizeT} {Task P X : Type} `{!EqDecision Task} (h : hardening) (C : Z) `{!CapacityOk C}.
  Abbreviation entry := (entry Task P).
  Implicit Types (s : scheduler Task P X) (l : list entry).

Definition with_tasks l s : scheduler Task P X := mk_scheduler (hold C l) (next_attachment_ s) (round_ s) (client s) (polls s).
Lemma with_tasks_id l s : tasks_ s = hold C l -> with_tasks l s = s.
Proof. destruct s; cbn. intros ->. done. Qed.

Lemma element_hold l s (i : nat) e : tasks_ s = hold C l -> l !! i = Some e -> Scheduler.element h (Z.of_nat i) s = Ret e s.
Proof.
  intros Hs Hi. unfold Scheduler.element, Scheduler.on_tasks. rewrite Hs. rewrite (bind_Ret _ _ _ _ _ (hold_at h C l i e Hi)), (hold_ref C l i e Hi).
  f_equal. by apply with_tasks_id.
Qed.
Lemma search_from_hold test l s (n i : nat) :
  tasks_ s = hold C l -> (length l <= i + n)%nat ->
  Scheduler.search_from h test n (Z.of_nat i) s = Ret (match index_of test (drop i l) with Some j => Some (Z.of_nat (i + j)) | None => None end) s.
Proof.
  intros Hs. revert i. induction n as [|n IH]; intros i Hn; cbn [Scheduler.search_from]; unfold Scheduler.size, FixedVector.size; mstep; rewrite Hs, vsize_hold.
  - zbool. by rewrite drop_ge by lia.
  - destruct (Z.ltb_spec (Z.of_nat i) (Z.of_nat (length l))); [|by rewrite drop_ge by lia].
    destruct (lookup_lt_is_Some_2 l i ltac:(lia)) as [e He]. rewrite (bind_Ret _ _ _ _ _ (element_hold l s i e Hs He)). rewrite (drop_S _ _ _ He). cbn [index_of].
    destruct (test e); [by rewrite Nat.add_0_r|]. replace (Z.of_nat i + 1) with (Z.of_nat (S i)) by lia. rewrite IH by lia.
    destruct (index_of test (drop (S i) l)); [|done]. cbn. do 3 f_equal. lia.
Qed.
Lemma search_hold test l s :
  tasks_ s = hold C l -> Z.of_nat (length l) <= C -> Scheduler.search h C test s = Ret (Z.of_nat <$> index_of test l) s.
Proof.
  intros Hs Hl. unfold Scheduler.search. rewrite (search_from_hold test l s _ 0 Hs) by lia. rewrite drop_0. by destruct (index_of test l).
Qed.
Lemma erase_hold l s (i : nat) :
  tasks_ s = hold C l -> Z.of_nat (length l) <= C -> (i < length l)%nat -> Scheduler.erase (Z.of_nat i) s = Ret tt (with_tasks (delete i l) s).
Proof.
  intros Hs Hl Hi. unfold Scheduler.erase, bind, Scheduler.on_tasks. rewrite Hs. by rewrite (hold_erase C (fun e => e) l i Hl Hi).
Qed.
(** A search, and what is found erased. *)
Lemma search_erase test l s :
  tasks_ s = hold C l -> Z.of_nat (length l) <= C ->
  (let! r := Scheduler.search h C test in match r with Some i => Scheduler.erase i ;;; ret true | None => ret false end) s
  = Ret (Ideal.has test l) (with_tasks (Ideal.without test l) s).
Proof.
  intros Hs Hl. rewrite (bind_Ret _ _ _ _ _ (search_hold test l s Hs Hl)). unfold Ideal.has, Ideal.without. destruct (index_of test l) as [i|] eqn:E; cbn.
  - rewrite (bind_Ret _ _ _ _ _ (erase_hold l s i Hs Hl (index_of_lt _ _ _ E))). done.
  - by rewrite with_tasks_id.
Qed.
Lemma search_found test l s :
  tasks_ s = hold C l -> Z.of_nat (length l) <= C ->
  (let! r := Scheduler.search h C test in ret (Scheduler.found r)) s = Ret (Ideal.has test l) s.
Proof. intros Hs Hl. rewrite (bind_Ret _ _ _ _ _ (search_hold test l s Hs Hl)). unfold Ideal.has. by destruct (index_of test l). Qed.
Lemma remove_hold a l s :
  tasks_ s = hold C l -> Z.of_nat (length l) <= C -> Scheduler.remove h C a s = Ret tt (with_tasks (Ideal.without (fun e => attachment e =? a) l) s).
Proof.
  intros Hs Hl. unfold Scheduler.remove. rewrite (bind_Ret _ _ _ _ _ (search_hold _ l s Hs Hl)). unfold Ideal.without. destruct (index_of _ l) as [i|] eqn:E; cbn.
  - apply (erase_hold l s i Hs Hl (index_of_lt _ _ _ E)).
  - by rewrite with_tasks_id.
Qed.
Lemma snapshot_hold l s (n i : nat) :
  tasks_ s = hold C l -> Z.of_nat (length l) <= C -> (i + n = length l)%nat -> Scheduler.snapshot_from h C n (Z.of_nat i) s = Ret (drop i l) s.
Proof.
  intros Hs Hl. revert i. induction n as [|n IH]; intros i Hi; cbn [Scheduler.snapshot_from]; [by rewrite drop_ge by lia|].
  pose proof (slot_count_spec C). zbool. destruct (lookup_lt_is_Some_2 l i ltac:(lia)) as [e He]. rewrite (bind_Ret _ _ _ _ _ (element_hold l s i e Hs He)).
  replace (Z.of_nat i + 1) with (Z.of_nat (S i)) by lia. rewrite (bind_Ret _ _ _ _ _ (IH (S i) ltac:(lia))). by rewrite (drop_S _ _ _ He).
Qed.
Lemma push_hold l s e :
  tasks_ s = hold C l -> Z.of_nat (length l) < C -> Scheduler.on_tasks (FixedVector.try_push_back C (ret e)) s = Ret true (with_tasks (l ++ [e]) s).
Proof.
  intros Hs Hl. unfold Scheduler.on_tasks, FixedVector.try_push_back. rewrite Hs. unfold hold at 1.
  rewrite (vec_try_emplace_ret C (Some <$> l) [] e (ret e)); [|unfold fits; rewrite length_app, length_fmap; cbn; lia|done].
  unfold with_tasks, hold. by rewrite fmap_app.
Qed.
Lemma numbers : Scheduler.attachment_numbers C = 2 * C + 1 /\ 2 * C + 1 < 2 ^ size_bits.
Proof. destruct (capacity_bounds C). pose proof size_modulus_double. unfold Scheduler.attachment_numbers. assert (2 * C + 1 < 2 ^ size_bits) by lia. split; [by zbool|done]. Qed.
End concrete.

(** ** Not to be told apart *)

Section simulation.
  Context `{SizeT} {Task P X : Type} `{!EqDecision Task} (h : hardening) (C : Z) `{!CapacityOk C}.
  Abbreviation entry := (entry Task P).
  Abbreviation ientry := (ientry Task P).
  Implicit Types (s : scheduler Task P X) (i : ideal Task P X) (b : nat -> Z).

(** The number [b x] stands for the attachment [x]. *)
Definition renum b (e : ientry) : entry := mk_entry (mk_slot (i_task e) (Some (i_poll e))) (b (i_id e)).
Record shadow b s i : Prop := {
  sh_tasks : tasks_ s = hold C (renum b <$> i_tasks i);
  sh_fits : Z.of_nat (length (i_tasks i)) <= C;
  sh_rounds : round_ s = fmap (M := list) (renum b) <$> i_rounds i;
  sh_next : 0 <= next_attachment_ s < 2 * C + 1;
  sh_range : forall x, x ∈ Ideal.ids i -> 0 <= b x < 2 * C + 1;
  sh_inj : forall x y, x ∈ Ideal.ids i -> y ∈ Ideal.ids i -> b x = b y -> x = y;
  sh_old : forall x, x ∈ Ideal.ids i -> (x < i_next i)%nat;
  sh_apart : NoDup (i_id <$> i_tasks i);
  sh_client : client s = i_client i;
  sh_polls : polls s = i_polls i }.
Definition related s i : Prop := exists b, shadow b s i.

(** One computation does as the other, and leaves the rounds as they were. *)
Definition alike {A} s i (o : outcome (scheduler Task P X) A) (o' : outcome (ideal Task P X) A) : Prop :=
  match o, o' with
  | Ret a s', Ret a' i' => a = a' /\ related s' i' /\ round_ s' = round_ s /\ i_rounds i' = i_rounds i
  | Trap, Trap | Spin, Spin => True
  | _, _ => False
  end.
Definition sims {A} (m : M (scheduler Task P X) A) (m' : M (ideal Task P X) A) : Prop := forall s i, related s i -> alike s i (m s) (m' i).

Lemma sims_ret {A} (a : A) : sims (ret a) (ret a).
Proof. by intros s i Hr. Qed.
Lemma alike_bind {A B} s i (m : M (scheduler Task P X) A) m' (k : A -> M (scheduler Task P X) B) k' :
  alike s i (m s) (m' i) -> (forall a s' i', related s' i' -> round_ s' = round_ s -> i_rounds i' = i_rounds i -> alike s' i' (k a s') (k' a i')) ->
  alike s i (bind m k s) (bind m' k' i).
Proof.
  intros Hm Hk. unfold bind. destruct (m s) as [a s'| | | |], (m' i) as [a' i'| | | |]; try done. destruct Hm as (<- & Hr & E & E'). specialize (Hk a s' i' Hr E E').
  unfold alike in *. destruct (k a s'), (k' a i'); try done. destruct Hk as (? & ? & ? & ?). split_and!; congruence.
Qed.
Lemma alike_rebase {A} s i s' i' (o : outcome (scheduler Task P X) A) o' : round_ s = round_ s' -> i_rounds i = i_rounds i' -> alike s i o o' -> alike s' i' o o'.
Proof. intros E E'. destruct o, o'; try done. cbn. by rewrite E, E'. Qed.
Lemma sims_bind {A B} (m : M (scheduler Task P X) A) m' (k : A -> M (scheduler Task P X) B) k' :
  sims m m' -> (forall a, sims (k a) (k' a)) -> sims (bind m k) (bind m' k').
Proof. intros Hm Hk s i Hr. apply alike_bind; [by apply Hm|]. intros a s' i' Hr' _ _. by apply Hk. Qed.
Lemma sims_assert (b : bool) : sims (metl_assert h b) (metl_assert h b).
Proof. intros s i Hr. destruct h, b; by cbn. Qed.

Lemma tasks_id i e : e ∈ i_tasks i -> i_id e ∈ Ideal.ids i.
Proof. intros He. unfold Ideal.ids. apply list_elem_of_fmap. exists e. split; [done|]. apply elem_of_app. by left. Qed.
Lemma rounds_id i r e : r ∈ i_rounds i -> e ∈ r -> i_id e ∈ Ideal.ids i.
Proof.
  intros Hr He. unfold Ideal.ids. apply list_elem_of_fmap. exists e. split; [done|]. apply elem_of_app. right. apply list_elem_of_In, in_concat. exists r. by rewrite <- !list_elem_of_In.
Qed.
(** Fewer tasks are known under the same numbers. *)
Lemma shadow_fewer b s i l :
  shadow b s i -> l `sublist_of` i_tasks i -> shadow b (with_tasks C (renum b <$> l) s) (Ideal.set_tasks l i).
Proof.
  intros [] Hl. assert (forall x, x ∈ Ideal.ids (Ideal.set_tasks l i) -> x ∈ Ideal.ids i) as Hin.
  { intros x. unfold Ideal.ids. cbn. rewrite !list_elem_of_fmap. intros (e & -> & He). exists e. split; [done|]. rewrite elem_of_app in *.
    destruct He as [He|He]; [left; by eapply elem_of_sublist|by right]. }
  split; cbn; try done; auto; [pose proof (sublist_length _ _ Hl); lia|]. eapply sublist_NoDup; [exact sh_apart0|by apply fmap_sublist].
Qed.
Lemma has_renum b s i x : shadow b s i -> x ∈ Ideal.ids i ->
  index_of (fun e => attachment e =? b x) (renum b <$> i_tasks i) = index_of (Ideal.is_id x) (i_tasks i).
Proof.
  intros Hs Hx. rewrite index_of_fmap. apply index_of_ext. intros e He. cbn. unfold Ideal.is_id.
  destruct (Nat.eqb_spec (i_id e) x) as [->|Hne]; [apply Z.eqb_refl|]. apply Z.eqb_neq. intros E. apply Hne. by apply (sh_inj _ _ _ Hs); [apply tasks_id|..].
Qed.
Lemma fmap_without (f : ientry -> entry) test test' l :
  index_of test (f <$> l) = index_of test' l -> Ideal.without test (f <$> l) = f <$> Ideal.without test' l /\ Ideal.has test (f <$> l) = Ideal.has test' l.
Proof. intros E. unfold Ideal.without, Ideal.has. rewrite E. destruct (index_of test' l); [|done]. by rewrite list_fmap_delete. Qed.
Lemma is_task_renum b t l : index_of (fun e => bool_decide (task (slot e) = t)) (renum b <$> l) = index_of (Ideal.is_task t) l.
Proof. by rewrite index_of_fmap. Qed.

Lemma sims_is_attached t : sims (Scheduler.is_attached h C t) (Ideal.i_is_attached t).
Proof.
  intros s i (b & Hs). unfold Scheduler.is_attached. rewrite (search_found h C _ _ _ (sh_tasks _ _ _ Hs)) by (rewrite length_fmap; apply (sh_fits _ _ _ Hs)).
  destruct (fmap_without _ _ _ _ (is_task_renum b t (i_tasks i))) as [_ ->]. split_and!; try done. by exists b.
Qed.
Lemma sims_detach t : sims (Scheduler.detach h C t) (Ideal.i_detach t).
Proof.
  intros s i (b & Hs). unfold Scheduler.detach. rewrite (search_erase h C _ _ _ (sh_tasks _ _ _ Hs)) by (rewrite length_fmap; apply (sh_fits _ _ _ Hs)).
  destruct (fmap_without _ _ _ _ (is_task_renum b t (i_tasks i))) as [-> ->]. split_and!; try done. exists b. apply shadow_fewer; [done|apply without_sublist].
Qed.
Lemma sims_size : sims (Scheduler.size) (Ideal.i_size).
Proof.
  intros s i (b & Hs). unfold Scheduler.size, Ideal.i_size, FixedVector.size, get. rewrite (sh_tasks _ _ _ Hs), vsize_hold, length_fmap. split_and!; try done. by exists b.
Qed.

(** *** Taking a number *)

Definition at_next (n : Z) s : scheduler Task P X := mk_scheduler (tasks_ s) n (round_ s) (client s) (polls s).
Lemma in_use_shadow b s i a n : shadow b s i ->
  Scheduler.in_use h C a (at_next n s) = Ret (bool_decide (a ∈ b <$> Ideal.ids i)) (at_next n s).
Proof.
  intros Hs. unfold Scheduler.in_use, Scheduler.holds.
  erewrite bind_Ret; [|apply (search_found h C _ (renum b <$> i_tasks i) (at_next n s) (sh_tasks _ _ _ Hs)); rewrite length_fmap; apply (sh_fits _ _ _ Hs)].
  assert (a ∈ b <$> Ideal.ids i <-> (exists e, e ∈ i_tasks i /\ b (i_id e) = a) \/ exists r e, r ∈ i_rounds i /\ e ∈ r /\ b (i_id e) = a) as Hin.
  { split.
    - intros (x & -> & (e & -> & He)%list_elem_of_fmap)%list_elem_of_fmap. apply elem_of_app in He as [He|He]; [left; by exists e|right].
      apply list_elem_of_In, in_concat in He as (r & Hr%list_elem_of_In & He%list_elem_of_In). by exists r, e.
    - intros [(e & He & <-)|(r & e & Hr & He & <-)]; apply list_elem_of_fmap_2; [by apply tasks_id|by apply (rounds_id _ r)]. }
  destruct (Ideal.has _ (renum b <$> i_tasks i)) eqn:E.
  - apply has_spec in E as (c & (e & -> & He)%list_elem_of_fmap & Ea%Z.eqb_eq). rewrite bool_decide_true; [done|]. apply Hin. left. by exists e.
  - unfold get. f_equal. symmetry. apply eq_true_iff_eq. rewrite bool_decide_eq_true, Hin. cbn. rewrite (sh_rounds _ _ _ Hs), existsb_exists. split.
    + intros [(e & He & Ea)|(r & e & Hr & He & Ea)].
      * exfalso. assert (Ideal.has (fun c : entry => attachment c =? a) (renum b <$> i_tasks i) = true) as E'; [|by rewrite E in E'].
        apply has_spec. exists (renum b e). split; [by apply list_elem_of_fmap_2|]. by apply Z.eqb_eq.
      * exists (renum b <$> r). split; [by apply list_elem_of_In, list_elem_of_fmap_2|]. apply existsb_exists. exists (renum b e).
        split; [by apply list_elem_of_In, list_elem_of_fmap_2|]. by apply Z.eqb_eq.
    + intros (r & (r' & -> & Hr)%list_elem_of_In%list_elem_of_fmap & (c & (e & -> & He)%list_elem_of_In%list_elem_of_fmap & Ea%Z.eqb_eq)%existsb_exists). right. by exists r', e.
Qed.
Definition after (n : Z) (k : nat) : Z := (n + Z.of_nat k) mod (2 * C + 1).
Lemma take_loop_shadow b s i tries n : shadow b s i -> 0 <= n < 2 * C + 1 ->
  exists r n', Scheduler.take_loop h C tries (at_next n s) = Ret r (at_next n' s) /\ 0 <= n' < 2 * C + 1 /\
    match r with
    | Some a => 0 <= a < 2 * C + 1 /\ a ∉ (b <$> Ideal.ids i)
    | None => forall k, (k < tries)%nat -> after n k ∈ b <$> Ideal.ids i
    end.
Proof.
  intros Hs. destruct (numbers C) as [EN HN]. destruct (capacity_bounds C). revert n. induction tries as [|tries IH]; intros n Hn; cbn [Scheduler.take_loop].
  { exists None, n. split_and!; try done; lia. }
  set (n1 := if wrap (n + 1) =? Scheduler.attachment_numbers C then 0 else wrap (n + 1)). unfold Scheduler.set_next. mstep. mstep.
  assert (0 <= n1 < 2 * C + 1 /\ n1 = (n + 1) mod (2 * C + 1)) as [Hn1 E1].
  { unfold n1. rewrite EN, (wrap_small (n + 1)) by lia. destruct (Z.eqb_spec (n + 1) (2 * C + 1)) as [->|]; [rewrite Z_mod_same_full|rewrite Z.mod_small]; lia. }
  change (next_attachment_ (at_next n s)) with n. fold n1. change (mk_scheduler _ n1 _ _ _) with (at_next n1 s).
  rewrite (bind_Ret _ _ _ _ _ (in_use_shadow b s i n n1 Hs)). case_bool_decide as Hu; cbn [negb].
  - destruct (IH n1 Hn1) as (r & n' & E & ? & Hr). exists r, n'. split; [exact E|]. split; [done|]. destruct r; [done|]. intros [|k] Hk.
    + unfold after. rewrite Z.add_0_r, Z.mod_small by lia. done.
    + replace (after n (S k)) with (after n1 k); [apply Hr; lia|]. unfold after. rewrite E1, Zplus_mod_idemp_l. f_equal. lia.
  - exists (Some n), n1. split_and!; done || lia.
Qed.
(** A number is there unless all are in use. *)
Lemma counting b s i : shadow b s i ->
  ((forall a, 0 <= a < 2 * C + 1 -> a ∈ b <$> Ideal.ids i) -> 2 * C + 1 <= Z.of_nat (length (remove_dups (Ideal.ids i)))) /\
  (forall a, 0 <= a < 2 * C + 1 -> a ∉ (b <$> Ideal.ids i) -> Z.of_nat (length (remove_dups (Ideal.ids i))) < 2 * C + 1).
Proof.
  intros Hs. destruct (capacity_bounds C). set (D := remove_dups (Ideal.ids i)).
  assert (forall x, x ∈ D <-> x ∈ Ideal.ids i) as HD by (intros x; apply elem_of_remove_dups).
  assert (NoDup (b <$> D)) as Hnd.
  { apply NoDup_fmap_2_strong; [|apply NoDup_remove_dups]. intros x y Hx%HD Hy%HD. by apply (sh_inj _ _ _ Hs). }
  split.
  - intros Hall. assert (seqZ 0 (2 * C + 1) ⊆+ (b <$> D)) as Hsub.
    { apply NoDup_submseteq; [apply NoDup_seqZ|]. intros a Ha%elem_of_seqZ. specialize (Hall a ltac:(lia)). apply list_elem_of_fmap in Hall as (x & -> & Hx).
      by apply list_elem_of_fmap_2, HD. }
    apply submseteq_length in Hsub. rewrite length_seqZ, length_fmap in Hsub. lia.
  - intros a Ha Hn. assert ((a :: (b <$> D)) ⊆+ seqZ 0 (2 * C + 1)) as Hsub.
    { apply NoDup_submseteq.
      - apply list.NoDup_cons. split; [|done]. intros (x & -> & Hx%HD)%list_elem_of_fmap. by apply Hn, list_elem_of_fmap_2.
      - intros c [->|(x & -> & Hx%HD)%list_elem_of_fmap]%elem_of_cons; apply elem_of_seqZ; [lia|]. pose proof (sh_range _ _ _ Hs x Hx). lia. }
    apply submseteq_length in Hsub. cbn [length] in Hsub. rewrite length_seqZ, length_fmap in Hsub. lia.
Qed.
Lemma try_take_shadow b s i : shadow b s i ->
  exists r n', Scheduler.try_take_attachment h C s = Ret r (at_next n' s) /\ 0 <= n' < 2 * C + 1 /\
    match r with
    | Some a => 0 <= a < 2 * C + 1 /\ (a ∉ (b <$> Ideal.ids i)) /\ Z.of_nat (length (remove_dups (Ideal.ids i))) < 2 * C + 1
    | None => 2 * C + 1 <= Z.of_nat (length (remove_dups (Ideal.ids i)))
    end.
Proof.
  intros Hs. destruct (counting b s i Hs) as [Hfull Hroom]. destruct (numbers C) as [EN HN]. destruct (capacity_bounds C).
  unfold Scheduler.try_take_attachment. rewrite EN. destruct (take_loop_shadow b s i (Z.to_nat (2 * C + 1)) (next_attachment_ s) Hs (sh_next _ _ _ Hs)) as (r & n' & E & Hn' & Hr).
  replace (at_next (next_attachment_ s) s) with s in E by (by destruct s). exists r, n'. split; [done|]. split; [done|]. destruct r as [a|].
  - destruct Hr. split_and!; try lia; [done|]. by apply (Hroom a).
  - apply Hfull. intros a Ha. specialize (Hr (Z.to_nat ((a - next_attachment_ s) mod (2 * C + 1)))). pose proof (Z.mod_pos_bound (a - next_attachment_ s) (2 * C + 1)).
    specialize (Hr ltac:(lia)). unfold after in Hr. rewrite Z2Nat.id in Hr by lia. rewrite Zplus_mod_idemp_r in Hr.
    replace (next_attachment_ s + (a - next_attachment_ s)) with a in Hr by lia. by rewrite Z.mod_small in Hr by lia.
Qed.

Lemma renum_ext b b' (l : list ientry) : (forall e, e ∈ l -> b (i_id e) = b' (i_id e)) -> (renum b <$> l) = (renum b' <$> l).
Proof. intros E. apply list_fmap_ext. intros j e He%list_elem_of_lookup_2. unfold renum. by rewrite E. Qed.
(** A new attachment gets the number [a]. *)
Lemma shadow_attach b s i t p a n :
  shadow b s i -> Z.of_nat (length (i_tasks i)) < C -> 0 <= a < 2 * C + 1 -> a ∉ (b <$> Ideal.ids i) -> 0 <= n < 2 * C + 1 ->
  shadow (fun x => if Nat.eqb x (i_next i) then a else b x)
    (with_tasks C ((renum b <$> i_tasks i) ++ [mk_entry (mk_slot t (Some p)) a]) (at_next n s))
    (mk_ideal (i_tasks i ++ [mk_ientry t p (i_next i)]) (S (i_next i)) (i_rounds i) (i_client i) (i_polls i)).
Proof.
  intros Hs Hl Ha Hn Hrange. set (b' := fun x => if Nat.eqb x (i_next i) then a else b x).
  assert (forall x, x ∈ Ideal.ids i -> b' x = b x) as Hb.
  { intros x Hx. unfold b'. destruct (Nat.eqb_spec x (i_next i)) as [->|]; [|done]. pose proof (sh_old _ _ _ Hs _ Hx). lia. }
  assert (b' (i_next i) = a) as Ha' by (unfold b'; by rewrite Nat.eqb_refl).
  assert (forall x, b x = a -> x ∉ Ideal.ids i) as Hna by (intros x <- Hx; by apply Hn, list_elem_of_fmap_2).
  set (i' := mk_ideal _ _ _ _ _). assert (forall x, x ∈ Ideal.ids i' <-> x = i_next i \/ x ∈ Ideal.ids i) as Hin.
  { intros x. unfold Ideal.ids, i'. cbn. rewrite !fmap_app, !elem_of_app. cbn. rewrite list_elem_of_singleton. tauto. }
  split; cbn.
  - f_equal. rewrite fmap_app. cbn. unfold renum at 3. cbn. rewrite Ha'. f_equal. apply renum_ext. intros e He. symmetry. by apply Hb, tasks_id.
  - rewrite length_app. cbn. lia.
  - rewrite (sh_rounds _ _ _ Hs). apply list_fmap_ext. intros j r Hr%list_elem_of_lookup_2. apply renum_ext. intros e He. symmetry. by eapply Hb, rounds_id.
  - done.
  - intros x [->|Hx]%Hin; [lia|]. rewrite Hb by done. by apply (sh_range _ _ _ Hs).
  - intros x y [->|Hx]%Hin [->|Hy]%Hin; [done|..].
    + rewrite Ha', Hb by done. intros E. by destruct (Hna y (eq_sym E)).
    + rewrite Ha', Hb by done. intros E. by destruct (Hna x E).
    + rewrite !Hb by done. by apply (sh_inj _ _ _ Hs).
  - intros x [->|Hx]%Hin; [lia|]. pose proof (sh_old _ _ _ Hs x Hx). lia.
  - rewrite fmap_app. apply list.NoDup_app. split_and!; [apply Hs| |by apply NoDup_singleton]. intros x (e & -> & He)%list_elem_of_fmap Ex%list_elem_of_singleton.
    pose proof (sh_old _ _ _ Hs _ (tasks_id i e He)). cbn in *. lia.
  - apply Hs.
  - apply Hs.
Qed.
Lemma shadow_at_next b s i n : shadow b s i -> 0 <= n < 2 * C + 1 -> shadow b (at_next n s) i.
Proof. intros [] ?. by split. Qed.
Lemma sims_try_attach t fn : sims (Scheduler.try_attach_impl h C t fn) (Ideal.i_try_attach C t fn).
Proof.
  intros s i (b & Hs). pose proof (sh_tasks _ _ _ Hs) as Ht. pose proof (sh_fits _ _ _ Hs) as Hf.
  assert (Scheduler.is_attached h C t s = Ret (Ideal.has (Ideal.is_task t) (i_tasks i)) s) as Ea.
  { unfold Scheduler.is_attached. rewrite (search_found h C _ _ _ Ht) by (by rewrite length_fmap). by destruct (fmap_without _ _ _ _ (is_task_renum b t (i_tasks i))) as [_ ->]. }
  unfold Scheduler.try_attach_impl, Ideal.i_try_attach. rewrite bind_assoc, (bind_Ret _ _ _ _ _ Ea). destruct (Ideal.has _ _); [done|]. cbn [negb]. mstep.
  destruct fn as [p|]; [|done]. mstep. mstep. unfold FixedVector.full. rewrite Ht, vsize_hold, length_fmap. unfold Ideal.crowded.
  destruct (Z.eqb_spec (Z.of_nat (length (i_tasks i))) C); cbn [orb]; [split_and!; try done; by exists b|].
  destruct (try_take_shadow b s i Hs) as (r & m & E & Hm & Hr). rewrite (bind_Ret _ _ _ _ _ E). destruct r as [a|].
  - destruct Hr as (Ha & Hna & Hlt). rewrite (proj2 (Z.leb_gt _ _) Hlt). rewrite (push_hold C (renum b <$> i_tasks i) (at_next m s)) by (done || rewrite length_fmap; lia).
    split_and!; try done. eexists. apply shadow_attach; try done. lia.
  - rewrite (proj2 (Z.leb_le _ _) Hr). split_and!; try done. exists b. by apply shadow_at_next.
Qed.

(** *** Rounds *)

#[local] Instance table_of_scheduler : TaskTable Task P X (scheduler Task P X) := Scheduler.scheduler_table h C.
#[local] Instance table_of_ideal : TaskTable Task P X (ideal Task P X) := Ideal.ideal_table C.

Lemma sims_note (t : Task) (p : P) : sims (tt_note t p) (tt_note t p).
Proof. intros s i (b & []). split_and!; try done. exists b. split; try done. cbn. congruence. Qed.
Lemma sims_local (f : X -> X) : sims (tt_local f) (tt_local f).
Proof. intros s i (b & []). cbn. split_and!; try done; [congruence|]. exists b. split; try done. cbn. congruence. Qed.

Section rounds.
  Context (call : Task -> P -> M (scheduler Task P X) bool) (call' : Task -> P -> M (ideal Task P X) bool).
  Context (Hcall : forall t p, sims (call t p) (call' t p)).

(** The rest of a round, of which the innermost frame holds the snapshot. *)
Lemma alike_poll_each rest (n : nat) (F : list entry) (full : list ientry) outer outer' still s i :
  related s i -> round_ s = F :: outer -> i_rounds i = full :: outer' -> rest = drop n full -> 0 <= still -> still + Z.of_nat (length rest) <= C ->
  alike s i (Scheduler.poll_each h C call (drop n F) still s) (Ideal.i_poll_each call' rest still i).
Proof.
  revert n still s i. induction rest as [|e rest IH]; intros n still s i Hr EF Efull Erest Hstill Hc; destruct Hr as (b & Hs).
  all: assert (F = renum b <$> full) as -> by (pose proof (sh_rounds _ _ _ Hs) as E; rewrite EF, Efull in E; by injection E as -> _).
  all: rewrite <- fmap_drop, <- Erest.
  { split_and!; try done. by exists b. }
  assert (e ∈ full) as He by (apply (elem_of_sublist (drop n full) full); [rewrite <- Erest; by left|apply sublist_drop]).
  assert (i_id e ∈ Ideal.ids i) as Hid by (apply (rounds_id i full); [rewrite Efull; by left|done]).
  assert (rest = drop (S n) full) as Erest' by (replace (S n) with (n + 1)%nat by lia; by rewrite <- drop_drop, <- Erest).
  assert ((renum b <$> rest) = drop (S n) (renum b <$> full)) as Ed by (rewrite Erest'; by rewrite fmap_drop).
  cbn [length] in Hc. pose proof (sh_tasks _ _ _ Hs) as Ht. pose proof (sh_fits _ _ _ Hs) as Hf. destruct (fmap_without _ _ _ _ (has_renum b s i (i_id e) Hs Hid)) as [Ew Eh].
  cbn [fmap list_fmap Scheduler.poll_each Ideal.i_poll_each]. unfold Scheduler.holds. change (attachment (renum b e)) with (b (i_id e)).
  pose proof (search_found h C (fun c => attachment c =? b (i_id e)) _ _ Ht ltac:(by rewrite length_fmap)) as Ef. rewrite Eh in Ef. rewrite (bind_Ret _ _ _ _ _ Ef). mstep.
  clear Eh Ef. destruct (Ideal.has (Ideal.is_id (i_id e)) (i_tasks i)); cbn [negb]; [|rewrite Ed; apply (IH (S n)); try done; [by exists b|lia]].
  apply alike_bind; [apply Hcall; by exists b|]. intros more s' i' Hr' E1 E2. destruct more.
  - rewrite Ed. pose proof (capacity_bounds C). rewrite wrap_small by lia. apply (IH (S n)); try done; [by rewrite E1|by rewrite E2|lia|lia].
  - destruct Hr' as (b' & Hs'). assert (renum b <$> full = renum b' <$> full) as Eb.
    { pose proof (sh_rounds _ _ _ Hs') as E. rewrite E1, E2, EF, Efull in E. by injection E. }
    assert (b (i_id e) = b' (i_id e)) as ->.
    { apply list_elem_of_lookup_1 in He as [j Hj]. apply (f_equal (lookup j)) in Eb. rewrite !list_lookup_fmap, Hj in Eb. by injection Eb. }
    assert (i_id e ∈ Ideal.ids i') as Hid' by (apply (rounds_id i' full); [rewrite E2, Efull; by left|done]).
    destruct (fmap_without _ _ _ _ (has_renum b' s' i' (i_id e) Hs' Hid')) as [Ew' _].
    erewrite bind_Ret; [|apply (remove_hold h C _ _ _ (sh_tasks _ _ _ Hs')); rewrite length_fmap; apply (sh_fits _ _ _ Hs')]. rewrite Ew'. mstep.
    pose proof (shadow_fewer _ _ _ _ Hs' (without_sublist (Ideal.is_id (i_id e)) (i_tasks i'))) as Hs2. rewrite Ed.
    eapply alike_rebase; [| |apply (IH (S n) still); try done; [by exists b'|cbn; congruence|cbn; congruence|lia]]; done.
Qed.
Lemma sims_run_once : sims (Scheduler.run_once h C call) (Ideal.i_run_once call').
Proof.
  intros s i (b & Hs). pose proof (sh_tasks _ _ _ Hs) as Ht. pose proof (sh_fits _ _ _ Hs) as Hf.
  unfold Scheduler.run_once, Ideal.i_run_once, Scheduler.size, FixedVector.size, Scheduler.set_round. do 3 mstep. rewrite Ht, vsize_hold, Nat2Z.id.
  pose proof (snapshot_hold h C (renum b <$> i_tasks i) s _ 0 Ht ltac:(by rewrite length_fmap) eq_refl) as Esn. rewrite drop_0 in Esn.
  rewrite (bind_Ret _ _ _ _ _ Esn). do 3 mstep.
  set (s1 := mk_scheduler _ _ _ _ _). set (i1 := Ideal.set_rounds _ _).
  assert (related s1 i1) as Hr.
  { exists b. assert (forall x, x ∈ Ideal.ids i1 <-> x ∈ Ideal.ids i) as Hin by (intros x; unfold Ideal.ids; cbn; rewrite !fmap_app, !elem_of_app; tauto).
    destruct Hs as [? ? Ero ? Hra Hinj Hold ? ? ?]. split; try done.
    - cbn. by rewrite Ero.
    - intros x Hx%Hin. auto.
    - intros x y Hx%Hin Hy%Hin. auto.
    - intros x Hx%Hin. auto. }
  assert (alike s1 i1 (Scheduler.poll_each h C call (renum b <$> i_tasks i) 0 s1) (Ideal.i_poll_each call' (i_tasks i) 0 i1)) as Hp.
  { pose proof (alike_poll_each (i_tasks i) 0 (renum b <$> i_tasks i) (i_tasks i) (round_ s) (i_rounds i) 0 s1 i1 Hr eq_refl eq_refl) as Hp.
    rewrite !drop_0 in Hp. apply Hp; [done|lia|lia]. }
  unfold bind at 1 3. destruct (Scheduler.poll_each h C call _ 0 s1) as [a s2| | | |], (Ideal.i_poll_each call' _ 0 i1) as [a' i2| | | |]; try done.
  destruct Hp as (<- & (b2 & Hs2) & E1 & E2). mstep. mstep. split_and!; try done. exists b2.
  assert (forall x, x ∈ Ideal.ids (Ideal.set_rounds (i_rounds i) i2) -> x ∈ Ideal.ids i2) as Hin.
  { intros x. unfold Ideal.ids. cbn. rewrite E2. cbn. rewrite !fmap_app, !elem_of_app. tauto. }
  destruct Hs2 as [? ? Hro]. split; try done; cbn; auto. rewrite E1, E2 in Hro. by injection Hro.
Qed.
End rounds.

Lemma sims_idle call call' turns rounds most :
  (forall t p, sims (call t p) (call' t p)) -> sims (Programs.idle_loop call turns rounds most) (Programs.idle_loop call' turns rounds most).
Proof.
  intros Hcall. revert rounds. induction turns as [|turns IH]; intros rounds; cbn [Programs.idle_loop]; (apply sims_bind; [apply sims_size|]); intros n; destruct (_ && _).
  2, 4: apply sims_ret.
  - by intros s i Hr.
  - apply sims_bind; [by apply sims_run_once|]. intros _. apply IH.
Qed.
Lemma sims_exec_with call call' c : (forall t p, sims (call t p) (call' t p)) -> sims (Programs.exec_with h call c) (Programs.exec_with h call' c).
Proof.
  intros Hcall. induction c as [more|f k IH|must t fn k IH|t k IH|t k IH|k IH|k IH|most k IH]; cbn [Programs.exec_with]; [apply sims_ret|..]; (apply sims_bind; [|intros ?; apply IH]).
  - apply sims_local.
  - destruct must; [|apply sims_try_attach]. unfold Programs.attach_checked. apply sims_bind; [apply sims_try_attach|]. intros a. apply sims_bind; [apply sims_assert|]. intros _. apply sims_ret.
  - apply sims_detach.
  - apply sims_is_attached.
  - apply sims_size.
  - by apply sims_run_once.
  - by apply sims_idle.
Qed.
Lemma sims_call body fuel t p : sims (Programs.call h body fuel t p) (Programs.call h body fuel t p).
Proof.
  revert t p. induction fuel as [|fuel IH]; intros t p; cbn [Programs.call]; [by intros s i Hr|]. apply sims_bind; [apply sims_note|]. intros _. by apply sims_exec_with.
Qed.
Lemma sims_exec body fuel c : sims (Programs.exec h body fuel c) (Programs.exec h body fuel c).
Proof. apply sims_exec_with. intros t p. apply sims_call. Qed.
Lemma fresh_related x : related (Scheduler.fresh C x) (Ideal.i_fresh x).
Proof.
  pose proof (capacity_bounds C). exists (fun _ => 0). split; cbn; try done; try lia; [by apply vec_init|..|by constructor]; intros;
    match goal with Hx : _ ∈ _ |- _ => by apply elem_of_nil in Hx end.
Qed.
End simulation.
