(* ===== verification/SchedulerClaims.v ===== *)
(** * What [coro::scheduler] promises *)

From Stdlib Require Import ZArith Lia.
From stdpp Require Import base numbers list option tactics.
From S2P Require Import Prelude FixedVector FixedVectorFacts Scheduler SchedulerFacts.
Local Open Scope Z_scope.

Section claims.
  Context `{SizeT} {Task P X : Type} `{!EqDecision Task} (h : hardening) (C : Z) `{!CapacityOk C} (body : P -> Task -> task_code Task P X).
  Implicit Types (s : scheduler Task P X) (i : ideal Task P X) (c : task_code Task P X) (x : X).
#[local] Instance the_table : TaskTable Task P X (scheduler Task P X) := Scheduler.scheduler_table h C.
#[local] Instance the_ideal : TaskTable Task P X (ideal Task P X) := Ideal.ideal_table C.

(** The tasks in the table, in order, with the functions that poll them. *)
Definition attached s : list (Task * option P) :=
  (fun e => (task (slot e), poll (slot e))) <$> omap (fun o => o) (take (Z.to_nat (vsize_ (tasks_ s))) (vstorage_ (tasks_ s))).
Definition pair_of (e : ientry Task P) : Task * P := (i_task e, i_poll e).
Definition called (e : Task * P) : Task * option P := (e.1, Some e.2).

Lemma attached_shadow b s i : shadow C b s i -> attached s = called <$> (pair_of <$> i_tasks i).
Proof.
  intros Hs. unfold attached. rewrite (sh_tasks _ _ _ _ Hs), vsize_hold, Nat2Z.id. unfold hold, vec_of. cbn [vstorage_].
  rewrite take_app_le by (by rewrite !length_fmap). rewrite take_ge by (by rewrite !length_fmap).
  induction (i_tasks i) as [|e l IH]; [done|]. cbn. by rewrite <- IH.
Qed.

(** C13. A program cannot tell the scheduler from one whose attachments have numbers that
    are never used again: whatever its polls attach, detach and run, in whatever nesting,
    the same tasks are polled in the same order, every call returns the same, and the same
    tasks are left; a call traps where the other does, and nothing undefined happens.  A
    task that is detached and attached again is a new attachment, and is not taken for
    the old one.  Attaching is refused exactly when the table is full or all
    [2 * Capacity + 1] numbers belong to attachments or to rounds that run. *)
Theorem scheduler_refines fuel c x :
  match Programs.exec h body fuel c (Scheduler.fresh C x), Programs.exec h body fuel c (Ideal.i_fresh x) with
  | Ret a s, Ret a' i => a = a' /\ client s = i_client i /\ polls s = i_polls i /\ attached s = called <$> (pair_of <$> i_tasks i)
  | Trap, Trap | Spin, Spin => True
  | _, _ => False
  end.
Proof.
  pose proof (sims_exec h C body fuel c _ _ (fresh_related C x)) as Hsim. change (table_of_scheduler h C) with the_table in Hsim. change (table_of_ideal C) with the_ideal in Hsim.
  destruct (Programs.exec h body fuel c (Scheduler.fresh C x)), (Programs.exec h body fuel c (Ideal.i_fresh x)); try done.
  destruct Hsim as (? & (b & Hs) & _). split_and!; [done|apply Hs|apply Hs|by apply (attached_shadow b)].
Qed.

(** ** Rounds of polls that leave the table alone *)

(** The code of a poll that uses only the client's own state, and what it does. *)
Fixpoint passive c : Prop :=
  match c with TReturn _ => True | TLocal f k => forall x, passive (k x) | _ => False end.
Fixpoint eval c x : bool * X :=
  match c with TReturn more => (more, x) | TLocal f k => eval (k (f x)) (f x) | _ => (false, x) end.
(** A round: every task is polled once, in order, and stays if it wants more. *)
Fixpoint turn {A} (pr : A -> Task * P) (l : list A) x : list A * X :=
  match l with
  | [] => ([], x)
  | e :: l' =>
      let (more, x1) := eval (body (pr e).2 (pr e).1) x in
      let (r, x2) := turn pr l' x1 in
      (if more then e :: r else r, x2)
  end.
Definition turns (n : nat) (l : list (Task * P)) x : list (Task * P) * X := Nat.iter n (fun lx => turn (fun e => e) lx.1 lx.2) (l, x).

Lemma turn_fmap {A} (pr : A -> Task * P) l x : turn (fun e => e) (pr <$> l) x = (pr <$> (turn pr l x).1, (turn pr l x).2).
Proof.
  revert x. induction l as [|e l IH]; intros x; [done|]. cbn. destruct (eval (body (pr e).2 (pr e).1) x) as [more x1]. rewrite IH. destruct (turn pr l x1) as [r x2]. by destruct more.
Qed.

Section passive_polls.
  Context (Hpassive : forall p t, passive (body p t)).

(** Between polls only the client's state and the log change. *)
Definition moved_on i x (q : list (Task * P)) : ideal Task P X := mk_ideal (i_tasks i) (i_next i) (i_rounds i) x q.
Lemma exec_passive call c i : passive c -> Programs.exec_with h call c i = Ret (eval c (i_client i)).1 (moved_on i (eval c (i_client i)).2 (i_polls i)).
Proof.
  revert i. induction c as [more|f k IH|must t fn k IH|t k IH|t k IH|k IH|k IH|most k IH]; intros i Hc; try done; cbn [Programs.exec_with eval].
  - unfold ret. f_equal. by destruct i.
  - erewrite bind_Ret; [|done]. by rewrite IH.
Qed.
Lemma call_passive fuel t p i :
  Programs.call h body (S fuel) t p i = Ret (eval (body p t) (i_client i)).1 (moved_on i (eval (body p t) (i_client i)).2 (i_polls i ++ [(t, p)])).
Proof. cbn [Programs.call]. erewrite bind_Ret; [|done]. by rewrite exec_passive. Qed.

Lemma found_next (kept : list (ientry Task P)) e rest : NoDup (i_id <$> kept ++ e :: rest) ->
  index_of (Ideal.is_id (i_id e)) (kept ++ e :: rest) = Some (length kept).
Proof.
  induction kept as [|k kept IH]; cbn; [unfold Ideal.is_id; by rewrite Nat.eqb_refl|]. intros [Hk Hnd]%list.NoDup_cons. rewrite (IH Hnd).
  unfold Ideal.is_id. destruct (Nat.eqb_spec (i_id k) (i_id e)) as [E|]; [|done]. destruct Hk. rewrite E. apply list_elem_of_fmap_2, elem_of_app. right. by left.
Qed.
Lemma poll_each_exact fuel rest kept still i :
  i_tasks i = kept ++ rest -> NoDup (i_id <$> i_tasks i) ->
  Ideal.i_poll_each (Programs.call h body (S fuel)) rest still i =
    Ret (still + Z.of_nat (length (turn pair_of rest (i_client i)).1))
      (mk_ideal (kept ++ (turn pair_of rest (i_client i)).1) (i_next i) (i_rounds i) (turn pair_of rest (i_client i)).2 (i_polls i ++ (pair_of <$> rest))).
Proof.
  revert kept still i. induction rest as [|e rest IH]; intros kept still i Et Hnd; cbn [Ideal.i_poll_each turn fmap list_fmap].
  { unfold ret. cbn. rewrite Z.add_0_r. destruct i; cbn in *. by rewrite Et, !app_nil_r. }
  pose proof (found_next kept e rest ltac:(by rewrite <- Et)) as Ef. mstep. unfold Ideal.has. rewrite Et, Ef. rewrite (bind_Ret _ _ _ _ _ (call_passive fuel (i_task e) (i_poll e) i)).
  change (body (pair_of e).2 (pair_of e).1) with (body (i_poll e) (i_task e)). destruct (eval (body (i_poll e) (i_task e)) (i_client i)) as [more x1]. cbn [fst snd].
  destruct more.
  - rewrite (IH (kept ++ [e]) (still + 1) (moved_on i x1 _)); [|cbn; by rewrite <- app_assoc|done]. cbn [moved_on i_client i_next i_rounds i_polls]. destruct (turn pair_of rest x1) as [r x2]. cbn [fst snd length].
    rewrite <- !app_assoc. f_equal. lia.
  - mstep. unfold Ideal.without. cbn [moved_on i_tasks]. rewrite Et, Ef. assert (delete (length kept) (kept ++ e :: rest) = kept ++ rest) as Ed by (by rewrite delete_middle).
    rewrite Ed, (IH kept still); [|done|cbn]; [cbn; destruct (turn pair_of rest x1) as [r x2]; cbn [fst snd]; by rewrite <- app_assoc|].
    eapply sublist_NoDup; [exact Hnd|]. rewrite Et. apply fmap_sublist, sublist_app; [done|by apply sublist_cons].
Qed.
Lemma round_exact fuel i : NoDup (i_id <$> i_tasks i) ->
  Ideal.i_run_once (Programs.call h body (S fuel)) i =
    Ret (Z.of_nat (length (turn pair_of (i_tasks i) (i_client i)).1))
      (mk_ideal (turn pair_of (i_tasks i) (i_client i)).1 (i_next i) (i_rounds i) (turn pair_of (i_tasks i) (i_client i)).2 (i_polls i ++ (pair_of <$> i_tasks i))).
Proof.
  intros Hnd. unfold Ideal.i_run_once. do 3 mstep. erewrite bind_Ret; [|by apply (poll_each_exact fuel (i_tasks i) [])]. mstep. done.
Qed.
Lemma turn_sublist {A} (pr : A -> Task * P) l x : (turn pr l x).1 `sublist_of` l.
Proof.
  revert x. induction l as [|e l IH]; intros x; [done|]. cbn. destruct (eval _ _) as [more x1]. specialize (IH x1). destruct (turn pr l x1) as [r x2]. cbn in *.
  destruct more; cbn; by constructor.
Qed.
(** What the table holds and the client knows, once the polls are over. *)
Definition view i : list (Task * P) * X := (pair_of <$> i_tasks i, i_client i).
Lemma round_view fuel i : NoDup (i_id <$> i_tasks i) ->
  exists i', Ideal.i_run_once (Programs.call h body (S fuel)) i = Ret (Z.of_nat (length (view i').1)) i' /\ NoDup (i_id <$> i_tasks i') /\
    view i' = turn (fun e => e) (view i).1 (view i).2 /\ i_polls i' = i_polls i ++ (view i).1.
Proof.
  intros Hnd. set (r := turn pair_of (i_tasks i) (i_client i)). exists (mk_ideal r.1 (i_next i) (i_rounds i) r.2 (i_polls i ++ (pair_of <$> i_tasks i))).
  split_and!; [rewrite round_exact by done; unfold view; cbn [fst i_tasks]; by rewrite length_fmap| | |done].
  - cbn. eapply sublist_NoDup; [exact Hnd|]. apply fmap_sublist, turn_sublist.
  - unfold view. cbn. by rewrite turn_fmap.
Qed.
Lemma idle_view fuel n rounds most i :
  NoDup (i_id <$> i_tasks i) -> 0 <= rounds -> rounds + Z.of_nat n = most -> most < 2 ^ size_bits ->
  exists (k : nat) i', Programs.idle_loop (Programs.call h body (S fuel)) n rounds most i = Ret (rounds + Z.of_nat k) i' /\
    (k <= n)%nat /\ view i' = turns k (view i).1 (view i).2 /\ (k = n \/ (view i').1 = []).
Proof.
  revert rounds i. induction n as [|n IH]; intros rounds i Hnd Hr Hm Hb; cbn [Programs.idle_loop]; unfold the_ideal at 1; cbn [tt_size Ideal.ideal_table]; unfold Ideal.i_size; mstep.
  { zbool. cbn [andb]. exists O, i. split_and!; [unfold ret; f_equal; lia|done|reflexivity|by left]. }
  destruct (Z.ltb_spec 0 (Z.of_nat (length (i_tasks i)))) as [Hlt|Hge].
  - zbool. cbn [andb]. destruct (round_view fuel i Hnd) as (i1 & E1 & Hnd1 & Hv1 & _). erewrite bind_Ret; [|exact E1].
    destruct (IH (rounds + 1) i1 Hnd1 ltac:(lia) ltac:(lia) Hb) as (k & i2 & E2 & Hk & Hv2 & Hend). exists (S k), i2. rewrite E2. split_and!; [f_equal; lia|lia| |destruct Hend; [left; lia|by right]].
    rewrite Hv2. unfold turns. rewrite Nat.iter_succ_r. by rewrite <- surjective_pairing, Hv1, <- surjective_pairing.
  - rewrite andb_false_r. exists O, i. split_and!; [unfold ret; f_equal; lia|lia|reflexivity|right]. unfold view. cbn. by destruct (i_tasks i).
Qed.

(** C14. With polls that leave the table alone, a round polls every attached task once, in
    the order in which they were attached, keeps exactly those that want more, and
    returns their number; [run_until_idle] ends, after [max_rounds] rounds or with no
    task left. *)
Theorem scheduler_round_exact depth c x a s l fuel most :
  Programs.exec h body depth c (Scheduler.fresh C x) = Ret a s -> attached s = called <$> l -> 0 <= most < 2 ^ size_bits ->
  (exists s', Scheduler.run_once h C (Programs.call h body (S fuel)) s = Ret (Z.of_nat (length (turn (fun e => e) l (client s)).1)) s' /\
     attached s' = called <$> (turn (fun e => e) l (client s)).1 /\ client s' = (turn (fun e => e) l (client s)).2 /\ polls s' = polls s ++ l) /\
  exists (k : nat) s', Programs.run_until_idle (Programs.call h body (S fuel)) most s = Ret (Z.of_nat k) s' /\ Z.of_nat k <= most /\
     attached s' = called <$> (turns k l (client s)).1 /\ client s' = (turns k l (client s)).2 /\ (Z.of_nat k = most \/ attached s' = []).
Proof.
  intros Es El Hm. pose proof (sims_exec h C body depth c _ _ (fresh_related C x)) as Hsim.
  change (table_of_scheduler h C) with the_table in Hsim. change (table_of_ideal C) with the_ideal in Hsim. rewrite Es in Hsim.
  destruct (Programs.exec h body depth c (Ideal.i_fresh x)) as [a' i| | | |]; try done. destruct Hsim as (_ & (b & Hs) & _).
  assert (l = pair_of <$> i_tasks i) as ->.
  { rewrite (attached_shadow b s i Hs) in El. assert (Inj (=) (=) called) as Hinj by (intros [] [] E; by injection E as -> ->).
    by apply (inj (fmap (M := list) called)) in El. }
  rewrite (sh_client _ _ _ _ Hs), (sh_polls _ _ _ _ Hs). pose proof (sh_apart _ _ _ _ Hs) as Hnd. split.
  - destruct (round_view fuel i Hnd) as (i' & E & _ & Hv & Hp). pose proof (sims_run_once h C (Programs.call h body (S fuel)) (Programs.call h body (S fuel)) (sims_call h C body (S fuel)) s i ltac:(by exists b)) as Hr.
    change (table_of_scheduler h C) with the_table in Hr. change (table_of_ideal C) with the_ideal in Hr. rewrite E in Hr.
    destruct (Scheduler.run_once h C _ s) as [r s'| | | |]; try done. destruct Hr as (-> & (b' & Hs') & _). exists s'.
    change (pair_of <$> i_tasks i) with (view i).1. change (i_client i) with (view i).2. rewrite <- Hv.
    split_and!; [done|by apply (attached_shadow b')|apply (sh_client _ _ _ _ Hs')|by rewrite (sh_polls _ _ _ _ Hs')].
  - destruct (idle_view fuel (Z.to_nat most) 0 most i Hnd ltac:(lia) ltac:(lia) ltac:(lia)) as (k & i' & E & Hk & Hv & Hend).
    pose proof (sims_idle h C (Programs.call h body (S fuel)) (Programs.call h body (S fuel)) (Z.to_nat most) 0 most (sims_call h C body (S fuel)) s i ltac:(by exists b)) as Hr.
    change (table_of_scheduler h C) with the_table in Hr. change (table_of_ideal C) with the_ideal in Hr. rewrite E in Hr. unfold Programs.run_until_idle.
    destruct (Programs.idle_loop _ _ _ _ s) as [r s'| | | |]; try done. destruct Hr as (-> & (b' & Hs') & _). exists k, s'.
    change (pair_of <$> i_tasks i) with (view i).1. change (i_client i) with (view i).2. rewrite <- Hv, (attached_shadow b' s' i' Hs').
    split_and!; [done|lia|done|apply (sh_client _ _ _ _ Hs')|destruct Hend as [->|Hend]; [left; lia|right; unfold view in Hend; cbn in Hend; by rewrite Hend]].
Qed.
End passive_polls.
End claims.

(** ** Two tasks *)
Section example.
  #[local] Existing Instance size_t_32.
#[local] Instance capacity_2 : CapacityOk 2 := conj (Z.le_0_2 : 0 <= 2) eq_refl.

(** Function 0 counts the client's number down and goes on while it is positive; function 1
    detaches its own task, attaches it again with function 0, and runs a round. *)
Definition polling (p : nat) (t : nat) : task_code nat nat Z :=
  match p with
  | O => TLocal (fun x => x - 1) (fun x => TReturn (0 <? x))
  | _ => TDetach t (fun _ => TAttach true t (Some O) (fun _ => TRunOnce (fun _ => TReturn false)))
  end.
Definition counting_down (p t : nat) : task_code nat nat Z := TLocal (fun x => x - 1) (fun x => TReturn (0 <? x)).
Definition two_tasks : task_code nat nat Z :=
  TAttach true 7%nat (Some 1%nat) (fun _ => TAttach false 8%nat (Some O) (fun _ => TRunOnce (fun _ => TRunUntilIdle 10 (fun _ => TReturn true)))).
Definition run_two : outcome (scheduler nat nat Z) bool :=
  Programs.exec (table := Scheduler.scheduler_table HARDENING_FAST 2) HARDENING_FAST polling 3 two_tasks (Scheduler.fresh 2 4).

Definition left_in (o : outcome (scheduler nat nat Z) bool) : scheduler nat nat Z := match o with Ret _ s | Throw s => s | _ => Scheduler.fresh 2 0 end.
Lemma scheduler_refines_witness :
  polls (left_in run_two) = [(7, 1); (8, 0); (7, 0); (8, 0); (8, 0); (7, 0)]%nat /\ attached (left_in run_two) = [] /\
  match run_two, Programs.exec (table := Ideal.ideal_table 2) HARDENING_FAST polling 3 two_tasks (Ideal.i_fresh 4) with
  | Ret a s, Ret a' i => a = a' /\ client s = i_client i /\ polls s = i_polls i /\ attached s = called <$> (pair_of <$> i_tasks i)
  | Trap, Trap | Spin, Spin => True
  | _, _ => False
  end.
Proof.
  split; [vm_compute; reflexivity|]. split; [vm_compute; reflexivity|]. pose proof (scheduler_refines HARDENING_FAST 2 polling 3 two_tasks 4) as E.
  unfold the_table, the_ideal in E. unfold run_two. exact E.
Defined.
Definition attached_two : scheduler nat nat Z :=
  left_in (Programs.exec (table := Scheduler.scheduler_table HARDENING_FAST 2) HARDENING_FAST counting_down 1
    (TAttach true 7%nat (Some 1%nat) (fun _ => TAttach false 8%nat (Some O) (fun _ => TReturn true))) (Scheduler.fresh 2 2)).
(** Of the two, with 2 to count down, the first wants more after a round and the second
    does not. *)
Lemma scheduler_round_exact_witness :
  exists s', Scheduler.run_once HARDENING_FAST 2 (Programs.call (table := Scheduler.scheduler_table HARDENING_FAST 2) HARDENING_FAST counting_down 1) attached_two = Ret 1 s' /\
    attached s' = [(7%nat, Some 1%nat)] /\ client s' = 0.
Proof.
  destruct (scheduler_round_exact HARDENING_FAST 2 counting_down (fun _ _ _ => I) 1
    (TAttach true 7%nat (Some 1%nat) (fun _ => TAttach false 8%nat (Some O) (fun _ => TReturn true))) 2 true attached_two [(7, 1); (8, 0)]%nat 0 10) as [(s' & E & Ea & Ec & _) _].
  - vm_compute. reflexivity.
  - vm_compute. reflexivity.
  - split; [lia|reflexivity].
  - exists s'. split; [exact E|]. split; [exact Ea|exact Ec].
Defined.
End example.
