(* ===== verification/Deadline.v ===== *)
(** * [coro::deadline_scheduler]

    [include/metl/coro/deadline_scheduler.hpp]: tasks that are polled when their time has
    come.  The queue is the [fixed_priority_queue] of [PriorityQueue.v], over entries that
    neither throw nor change when they are moved.  A tick is an integer: the header only
    compares them.  A poll is client code, which may schedule, cancel and run what is due on
    the scheduler that is polling it.

    What a program can do with such a scheduler is the class [Timers]; [DeadlineFacts.v]
    has an agenda that is one, too. *)

From Stdlib Require Import ZArith Lia.
From stdpp Require Import base numbers list option tactics.
From S2P Require Import Prelude FixedVector PriorityQueue.
Local Open Scope Z_scope.

(** ** Programs over timers *)

Section programs.
  Context (Task P X : Type).

(** Code of the client, whose own state is of type [X].  The code of a poll ends with the
    next deadline, if any.  A null function is [None]. *)
Inductive timer_code : Type :=
  | DReturn (next : option Z)
  | DLocal (f : X -> X) (k : X -> timer_code)
  | DSchedule (must : bool) (task : Task) (fn : option P) (deadline : Z) (k : bool -> timer_code)   (** [schedule] or [try_schedule] *)
  | DCancel (task : Task) (k : bool -> timer_code)
  | DIsScheduled (task : Task) (k : bool -> timer_code)
  | DNextDeadline (k : option Z -> timer_code)
  | DSize (k : Z -> timer_code)
  | DRunDue (now max_dispatches : Z) (k : Z -> timer_code)
  | DClear (k : timer_code).

(** What the scheduler promises its clients.  [call] runs a poll. *)
Class Timers (S : Type) : Type := {
  tm_try_schedule : Task -> option P -> Z -> M S bool;
  tm_cancel : Task -> M S bool;
  tm_is_scheduled : Task -> M S bool;
  tm_next_deadline : M S (option Z);
  tm_size : M S Z;
  tm_run_due : (Task -> P -> Z -> M S (option Z)) -> Z -> Z -> M S Z;
  tm_clear : M S unit;
  tm_local : (X -> X) -> M S X;
  tm_note : Task -> P -> Z -> M S unit   (** for the theorems: a poll is about to run *)
}.
End programs.
Arguments DReturn {Task P X} next.
Arguments DLocal {Task P X} f k.
Arguments DSchedule {Task P X} must task fn deadline k.
Arguments DCancel {Task P X} task k.
Arguments DIsScheduled {Task P X} task k.
Arguments DNextDeadline {Task P X} k.
Arguments DSize {Task P X} k.
Arguments DRunDue {Task P X} now max_dispatches k.
Arguments DClear {Task P X} k.
Arguments tm_try_schedule {Task P X S _}.
Arguments tm_cancel {Task P X S _}.
Arguments tm_is_scheduled {Task P X S _}.
Arguments tm_next_deadline {Task P X S _}.
Arguments tm_size {Task P X S _}.
Arguments tm_run_due {Task P X S _}.
Arguments tm_clear {Task P X S _}.
Arguments tm_local {Task P X S _}.
Arguments tm_note {Task P X S _}.

Module TimerPrograms.
Section programs.
  Context {Task P X S : Type} `{SizeT} {timers : Timers Task P X S} (h : hardening) (body : P -> Task -> Z -> timer_code Task P X).

Definition schedule (task : Task) (fn : option P) (deadline : Z) : M S bool :=
  let! scheduled := tm_try_schedule task fn deadline in metl_assert h scheduled ;;; ret scheduled.
Definition empty : M S bool := let! n := tm_size in ret (n =? 0).
Fixpoint exec_with (call : Task -> P -> Z -> M S (option Z)) (c : timer_code Task P X) : M S (option Z) :=
  match c with
  | DReturn next => ret next
  | DLocal f k => let! x := tm_local f in exec_with call (k x)
  | DSchedule must task fn deadline k => let! b := (if must then schedule else tm_try_schedule) task fn deadline in exec_with call (k b)
  | DCancel task k => let! b := tm_cancel task in exec_with call (k b)
  | DIsScheduled task k => let! b := tm_is_scheduled task in exec_with call (k b)
  | DNextDeadline k => let! d := tm_next_deadline in exec_with call (k d)
  | DSize k => let! n := tm_size in exec_with call (k n)
  | DRunDue now max_dispatches k => let! n := tm_run_due call now (wrap max_dispatches) in exec_with call (k n)
  | DClear k => tm_clear ;;; exec_with call k
  end.
(** [fuel] bounds how deep [run_due] nests in polls. *)
Fixpoint call (fuel : nat) (task : Task) (p : P) (now : Z) : M S (option Z) :=
  match fuel with
  | O => fun _ => Spin
  | Datatypes.S fuel' => tm_note task p now ;;; exec_with (call fuel') (body p task now)
  end.
Definition exec (fuel : nat) (c : timer_code Task P X) : M S (option Z) := exec_with (call fuel) c.
End programs.
End TimerPrograms.

(** ** The scheduler *)

Inductive later_deadline : Set := mk_later_deadline.
Section state.
  Context (Task P X : Type).
Record dentry : Type := mk_dentry { deadline : Z; dtask : Task; dpoll : option P; sequence : Z }.
(** For the theorems: the client's state, and the polls so far with their ticks. *)
Record deadline_scheduler : Type := mk_deadlines {
  queue_ : pqueue later_deadline dentry;
  poll_depth_ : Z;
  next_sequence_ : Z;
  dclient : X;
  dpolls : list (Task * P * Z) }.
End state.
Arguments mk_dentry {Task P}.
Arguments deadline {Task P}.
Arguments dtask {Task P}.
Arguments dpoll {Task P}.
Arguments sequence {Task P}.
Arguments mk_deadlines {Task P X}.
Arguments queue_ {Task P X}.
Arguments poll_depth_ {Task P X}.
Arguments next_sequence_ {Task P X}.
Arguments dclient {Task P X}.
Arguments dpolls {Task P X}.

#[export] Instance later_deadline_comparator Task P : Comparator later_deadline (dentry Task P) (dentry Task P) :=
  fun _ lhs rhs => if negb (deadline lhs =? deadline rhs) then deadline rhs <? deadline lhs else sequence rhs <? sequence lhs.

Module Deadlines.
Section deadlines.
  Context `{SizeT} {Task P X : Type} `{!EqDecision Task} (h : hardening) (Capacity : Z).
  Abbreviation MD := (M (deadline_scheduler Task P X)).
  Abbreviation dentry := (dentry Task P).
  Abbreviation unchanged := (fun e : dentry => e).

Definition sequence_bits : Z := 64.
Definition fresh (x : X) : deadline_scheduler Task P X := mk_deadlines (PriorityQueue.priority_queue Capacity mk_later_deadline []) 0 0 x [].
Definition capacity : Z := Capacity.

Definition on_queue {A} (m : M (pqueue later_deadline dentry) A) : MD A := fun s =>
  match m (queue_ s) with
  | Ret a q => Ret a (mk_deadlines q (poll_depth_ s) (next_sequence_ s) (dclient s) (dpolls s))
  | Throw q => Throw (mk_deadlines q (poll_depth_ s) (next_sequence_ s) (dclient s) (dpolls s))
  | Trap => Trap | Fault => Fault | Spin => Spin
  end.
Definition set_depth (f : Z -> Z) : MD unit := modify (fun s => mk_deadlines (queue_ s) (f (poll_depth_ s)) (next_sequence_ s) (dclient s) (dpolls s)).
(** [next_sequence_++] *)
Definition take_sequence : MD Z := fun s =>
  Ret (next_sequence_ s) (mk_deadlines (queue_ s) (poll_depth_ s) ((next_sequence_ s + 1) mod 2 ^ sequence_bits) (dclient s) (dpolls s)).

Definition size : MD Z := get (fun s => PriorityQueue.size (queue_ s)).
Definition reserved : MD Z := get poll_depth_.
(** [queue_.top()], read. *)
Definition top : MD dentry := on_queue (let! i := PriorityQueue.top h in on_storage (slot_ref i)).

Definition try_schedule (task : Task) (fn : option P) (at_ : Z) : MD bool :=
  metl_harden (match fn with Some _ => true | None => false end) ;;;
  let! n := size in
  let! r := reserved in
  if Capacity <=? wrap (n + r) then ret false
  else
    let! number := take_sequence in
    on_queue (PriorityQueue.try_push h Capacity unchanged unchanged (ret (mk_dentry at_ task fn number))).
Definition cancel (t : Task) : MD bool :=
  let! n := on_queue (PriorityQueue.erase_if h Capacity unchanged unchanged (fun e => bool_decide (dtask e = t))) in ret (negb (n =? 0)).
(** Over the elements of the heap, through [as_span]. *)
Fixpoint scheduled_from (t : Task) (n : nat) (i : Z) : MD bool :=
  match n with
  | O => ret false
  | S n' =>
      let! e := on_queue (on_storage (let! j := FixedVector.at_ h i in slot_ref j)) in
      if bool_decide (dtask e = t) then ret true else scheduled_from t n' (i + 1)
  end.
Definition is_scheduled (t : Task) : MD bool := let! n := size in scheduled_from t (Z.to_nat n) 0.
Definition next_deadline : MD (option Z) :=
  let! e := get (fun s => PriorityQueue.empty (queue_ s)) in
  if e then ret None else let! d := top in ret (Some (deadline d)).
Definition clear : MD unit := on_queue PriorityQueue.clear.

(** The loop ends after [max_dispatches] turns at the latest. *)
Fixpoint due_loop (call : Task -> P -> Z -> MD (option Z)) (now max_dispatches : Z) (turns : nat) (dispatched : Z) : MD Z :=
  if negb (dispatched <? max_dispatches) then ret dispatched
  else
    let! e := get (fun s => PriorityQueue.empty (queue_ s)) in
    if e then ret dispatched
    else
      let! first := top in
      if now <? deadline first then ret dispatched
      else match turns with
      | O => fun _ => Spin
      | S turns' =>
          let! due := top in
          on_queue (PriorityQueue.pop h Capacity unchanged unchanged) ;;;
          set_depth (fun d => wrap (d + 1)) ;;;
          let! next := match dpoll due with Some p => call (dtask due) p now | None => fault end in
          set_depth (fun d => wrap (d - 1)) ;;;
          (match next with
           | Some at_ =>
               let! number := take_sequence in
               on_queue (PriorityQueue.push h Capacity unchanged unchanged (ret (mk_dentry at_ (dtask due) (dpoll due) number)))
           | None => ret tt
           end) ;;;
          due_loop call now max_dispatches turns' (wrap (dispatched + 1))
      end.
Definition run_due (call : Task -> P -> Z -> MD (option Z)) (now max_dispatches : Z) : MD Z :=
  due_loop call now max_dispatches (Z.to_nat max_dispatches) 0.

Definition deadline_timers : Timers Task P X (deadline_scheduler Task P X) := {|
  tm_try_schedule := try_schedule;
  tm_cancel := cancel;
  tm_is_scheduled := is_scheduled;
  tm_next_deadline := next_deadline;
  tm_size := size;
  tm_run_due := run_due;
  tm_clear := clear;
  tm_local f := fun s => Ret (f (dclient s)) (mk_deadlines (queue_ s) (poll_depth_ s) (next_sequence_ s) (f (dclient s)) (dpolls s));
  tm_note t p now := modify (fun s => mk_deadlines (queue_ s) (poll_depth_ s) (next_sequence_ s) (dclient s) (dpolls s ++ [(t, p, now)]))
|}.
End deadlines.
End Deadlines.
