(* ===== verification/DeadlineFacts.v ===== *)
(** * [coro::deadline_scheduler]: an agenda

    The agenda is a list of tasks in the order in which they fall due, those with the same
    deadline in the order in which they were scheduled.  The scheduler, a heap of entries
    with sequence numbers, cannot be told from it. *)

From Stdlib Require Import ZArith Lia.
From stdpp Require Import base numbers list option tactics sorting.
From S2P Require Import Prelude FixedVector FixedVectorFacts PriorityQueue PriorityQueueFacts Deadline.
Local Open Scope Z_scope.

Section agenda_state.
  Context (Task P X : Type).
Record aentry : Type := mk_aentry { a_deadline : Z; a_task : Task; a_poll : P }.
(** [a_depth] polls are running; [a_count] entries have been scheduled so far. *)
Record agenda : Type := mk_agenda { a_list : list aentry; a_depth : Z; a_count : Z; a_client : X; a_polls : list (Task * P * Z) }.
End agenda_state.
Arguments mk_aentry {Task P}.
Arguments a_deadline {Task P}.
Arguments a_task {Task P}.
Arguments a_poll {Task P}.
Arguments mk_agenda {Task P X}.
Arguments a_list {Task P X}.
Arguments a_depth {Task P X}.
Arguments a_count {Task P X}.
Arguments a_client {Task P X}.
Arguments a_polls {Task P X}.

Module Agenda.
Section agenda.
  Context {Task P X : Type} `{!EqDecision Task} (Capacity : Z).
  Abbreviation MA := (M (agenda Task P X)).
  Abbreviation aentry := (aentry Task P).

Definition a_fresh (x : X) : agenda Task P X := mk_agenda [] 0 0 x [].
Definition set_list (l : list aentry) (s : agenda Task P X) : agenda Task P X := mk_agenda l (a_depth s) (a_count s) (a_client s) (a_polls s).
Definition set_a_depth (d : Z) (s : agenda Task P X) : agenda Task P X := mk_agenda (a_list s) d (a_count s) (a_client s) (a_polls s).
(** Behind everything that is due no later. *)
Fixpoint a_insert (e : aentry) (l : list aentry) : list aentry :=
  match l with
  | [] => [e]
  | y :: l' => if a_deadline e <? a_deadline y then e :: l else y :: a_insert e l'
  end.
(** After [2 ^ 64 - 1] entries nothing is said any more. *)
Definition a_add (e : aentry) : MA unit := fun s =>
  if a_count s + 1 <? 2 ^ 64 then Ret tt (mk_agenda (a_insert e (a_list s)) (a_depth s) (a_count s + 1) (a_client s) (a_polls s)) else Spin.

Definition a_is (t : Task) (e : aentry) : bool := bool_decide (a_task e = t).
Definition a_try_schedule (t : Task) (fn : option P) (d : Z) : MA bool := fun s =>
  match fn with
  | None => Trap
  | Some p => if Capacity <=? Z.of_nat (length (a_list s)) + a_depth s then Ret false s else (a_add (mk_aentry d t p) ;;; ret true) s
  end.
Definition a_cancel (t : Task) : MA bool := fun s =>
  Ret (existsb (a_is t) (a_list s)) (set_list (List.filter (fun e => negb (a_is t e)) (a_list s)) s).
Definition a_is_scheduled (t : Task) : MA bool := get (fun s => existsb (a_is t) (a_list s)).
Definition a_next_deadline : MA (option Z) := get (fun s => a_deadline <$> head (a_list s)).
Definition a_size : MA Z := get (fun s => Z.of_nat (length (a_list s))).
Definition a_clear : MA unit := modify (set_list []).
(** What is due is taken off the agenda and polled, and put back at the deadline that it
    asks for; there is always room for that. *)
Fixpoint a_due_loop (call : Task -> P -> Z -> MA (option Z)) (now max_dispatches : Z) (turns : nat) (dispatched : Z) : MA Z := fun s =>
  match a_list s with
  | e :: rest =>
      if (dispatched <? max_dispatches) && (a_deadline e <=? now) then
        match turns with
        | O => Spin
        | S turns' =>
            (modify (fun s => set_a_depth (a_depth s + 1) (set_list rest s)) ;;;
             let! next := call (a_task e) (a_poll e) now in
             modify (fun s => set_a_depth (a_depth s - 1) s) ;;;
             (match next with Some d => a_add (mk_aentry d (a_task e) (a_poll e)) | None => ret tt end) ;;;
             a_due_loop call now max_dispatches turns' (dispatched + 1)) s
        end
      else Ret dispatched s
  | [] => Ret dispatched s
  end.
Definition a_run_due (call : Task -> P -> Z -> MA (option Z)) (now max_dispatches : Z) : MA Z :=
  a_due_loop call now max_dispatches (Z.to_nat max_dispatches) 0.

Definition agenda_timers : Timers Task P X (agenda Task P X) := {|
  tm_try_schedule := a_try_schedule;
  tm_cancel := a_cancel;
  tm_is_scheduled := a_is_scheduled;
  tm_next_deadline := a_next_deadline;
  tm_size := a_size;
  tm_run_due := a_run_due;
  tm_clear := a_clear;
  tm_local f := fun s => Ret (f (a_client s)) (mk_agenda (a_list s) (a_depth s) (a_count s) (f (a_client s)) (a_polls s));
  tm_note t p now := modify (fun s => mk_agenda (a_list s) (a_depth s) (a_count s) (a_client s) (a_polls s ++ [(t, p, now)]))
|}.
End agenda.
End Agenda.

(** ** The order of the entries *)

Section order.
  Context {Task P : Type}.
  Abbreviation numbered := (aentry Task P * Z)%type.
  Implicit Types (x y : numbered) (k : list numbered).

#[export] Instance later_deadline_order : StrictWeakOrder later_deadline (dentry Task P).
Proof.
  split; unfold less, later_deadline_comparator; intros c.
  - intros a. rewrite Z.eqb_refl. cbn. apply Z.ltb_irrefl.
  - intros a b d. destruct (Z.eqb_spec (deadline a) (deadline b)), (Z.eqb_spec (deadline b) (deadline d)), (Z.eqb_spec (deadline a) (deadline d)); cbn; rewrite ?Z.ltb_lt; lia.
  - intros a b d. destruct (Z.eqb_spec (deadline a) (deadline b)), (Z.eqb_spec (deadline b) (deadline d)), (Z.eqb_spec (deadline a) (deadline d)); cbn; rewrite ?Z.ltb_lt; lia.
Qed.

Definition dentry_of x : dentry Task P := mk_dentry (a_deadline x.1) (a_task x.1) (Some (a_poll x.1)) x.2.
Definition before x y : Prop := a_deadline x.1 < a_deadline y.1 \/ a_deadline x.1 = a_deadline y.1 /\ x.2 < y.2.
Lemma before_less x y : before x y -> less mk_later_deadline (dentry_of y) (dentry_of x) = true.
Proof.
  unfold less, later_deadline_comparator, before, dentry_of. cbn. destruct (Z.eqb_spec (a_deadline y.1) (a_deadline x.1)); cbn; rewrite Z.ltb_lt; lia.
Qed.

Lemma forall_sublist {A} (Q : A -> Prop) (l l' : list A) : l' `sublist_of` l -> Forall Q l -> Forall Q l'.
Proof. intros Hs. rewrite !list.Forall_forall. intros HQ x Hx. apply HQ. by eapply elem_of_sublist. Qed.
Lemma sorted_sublist {A} (R : A -> A -> Prop) (l l' : list A) : l' `sublist_of` l -> StronglySorted R l -> StronglySorted R l'.
Proof.
  induction 1 as [|x l' l Hs IH|x l' l Hs IH]; intros Hl; [done|..]; apply StronglySorted_inv in Hl as [Hl Hx]; [|auto]. constructor; [auto|by eapply forall_sublist].
Qed.
(** The new entry has the greatest number. *)
Lemma insert_sorted e n k :
  StronglySorted before k -> Forall (fun x => x.2 < n) k ->
  exists k1 k2, k = k1 ++ k2 /\ StronglySorted before (k1 ++ (e, n) :: k2) /\ Agenda.a_insert e (fst <$> k) = fst <$> k1 ++ (e, n) :: k2.
Proof.
  induction 1 as [|x k Hk IH Hx]; intros Hn; [exists [], []; by repeat constructor|]. apply list.Forall_cons in Hn as [Hxn Hn]. cbn [fmap list_fmap Agenda.a_insert].
  destruct (Z.ltb_spec (a_deadline e) (a_deadline x.1)) as [Hlt|Hge].
  - exists [], (x :: k). split_and!; [done| |done]. constructor; [by constructor|]. constructor; [by left|]. eapply Forall_impl; [exact Hx|]. intros y [?|[? _]]; left; cbn; lia.
  - destruct (IH Hn) as (k1 & k2 & -> & Hs & E). exists (x :: k1), k2. split_and!; [done| |by rewrite E]. cbn. constructor; [done|].
    apply Forall_app in Hx as [Hx1 Hx2]. apply Forall_app_2; [done|]. constructor; [|done]. unfold before. cbn. lia.
Qed.
End order.

(** ** The queue *)

Section queue.
  Context `{SizeT} {Task P X : Type} `{!EqDecision Task} (h : hardening) (C : Z) `{!CapacityOk C}.
  Abbreviation numbered := (aentry Task P * Z)%type.
  Abbreviation pq := (pqueue later_deadline (dentry Task P)).
  Abbreviation unchanged := (fun e : dentry Task P => e).
  Implicit Types (k : list numbered) (q : pq).

(** A heap of the entries, and nothing throws. *)
Definition entries_in k q : Prop :=
  exists vs t, q = pq_of C mk_later_deadline t vs /\ heap mk_later_deadline vs /\ vs ≡ₚ dentry_of <$> k /\ true ∉ t.

Lemma entries_size k q : entries_in k q -> PriorityQueue.size q = Z.of_nat (length k).
Proof. intros (vs & t & -> & _ & Hp & _). rewrite pq_size, Hp, length_fmap. done. Qed.
(** What returns, or throws where a script says so, returns here. *)
Lemma returns {A} (m : M pq A) (Q : A -> pq -> Prop) t vs :
  true ∉ t -> wp m Q (emptied C mk_later_deadline t) (pq_of C mk_later_deadline t vs) -> exists a q, m (pq_of C mk_later_deadline t vs) = Ret a q /\ Q a q.
Proof. intros Ht Hw. eapply wp_no_throw; [exact Hw|]. by intros q [? _]. Qed.
Lemma entries_intro k us t q :
  us ≡ₚ dentry_of <$> k -> heap mk_later_deadline us -> holding C mk_later_deadline t us q -> true ∉ t -> entries_in k q.
Proof. intros Hp Hh (t' & Hl & ->) Ht. exists us, t'. split_and!; try done. by intros ?%Hl. Qed.

Lemma try_push_entries k k1 k2 e n q :
  entries_in k q -> k = k1 ++ k2 -> Z.of_nat (length k) < C ->
  exists q', PriorityQueue.try_push h C unchanged unchanged (ret (dentry_of (e, n))) q = Ret true q' /\ entries_in (k1 ++ (e, n) :: k2) q'.
Proof.
  intros (vs & t & -> & Hh & Hp & Ht) -> Hl. assert (Z.of_nat (length vs) < C) as Hl' by (by rewrite Hp, length_fmap).
  destruct (returns _ _ t vs Ht (wp_try_emplace h C unchanged unchanged mk_later_deadline t vs (dentry_of (e, n)) (ret _) Hl' Hh (reads_ret C _ vs))) as (b & q' & E & -> & us & Hu & Hh' & Hq).
  exists q'. split; [done|]. apply (entries_intro _ us t); try done. rewrite Hu, Hp, !fmap_app. cbn. by rewrite Permutation_middle.
Qed.
Lemma push_entries k k1 k2 e n q :
  entries_in k q -> k = k1 ++ k2 -> Z.of_nat (length k) < C ->
  exists q', PriorityQueue.push h C unchanged unchanged (ret (dentry_of (e, n))) q = Ret tt q' /\ entries_in (k1 ++ (e, n) :: k2) q'.
Proof.
  intros (vs & t & -> & Hh & Hp & Ht) -> Hl. assert (Z.of_nat (length vs) < C) as Hl' by (by rewrite Hp, length_fmap).
  destruct (returns _ _ t vs Ht (wp_emplace h C unchanged unchanged mk_later_deadline t vs (dentry_of (e, n)) (ret _) Hl' Hh (reads_ret C _ vs))) as ([] & q' & E & us & Hu & Hh' & Hq).
  exists q'. split; [done|]. apply (entries_intro _ us t); try done. rewrite Hu, Hp, !fmap_app. cbn. by rewrite Permutation_middle.
Qed.
(** The root of the heap is the first of the sorted entries. *)
Lemma root_first x k vs :
  heap mk_later_deadline vs -> vs ≡ₚ dentry_of <$> x :: k -> StronglySorted before (x :: k) -> exists us, vs = dentry_of x :: us /\ us ≡ₚ dentry_of <$> k.
Proof.
  intros Hh Hp Hs. destruct vs as [|v us]; [by apply Permutation_length in Hp|]. assert (v = dentry_of x) as ->.
  { assert (v ∈ dentry_of <$> x :: k) as Hv by (rewrite <- Hp; by left). apply list_elem_of_fmap in Hv as (y & -> & [->|Hy]%elem_of_cons); [done|].
    pose proof (heap_root mk_later_deadline _ _ Hh eq_refl (dentry_of x)) as Hr. unfold outranks in Hr. rewrite before_less in Hr; [|].
    - discriminate Hr. rewrite Hp. by left.
    - inversion Hs as [|? ? _ Hb]; subst. by eapply list.Forall_forall in Hy; [|exact Hb]. }
  exists us. split; [done|]. eapply Permutation_cons_inv. exact Hp.
Qed.
Lemma top_entries x k q :
  entries_in (x :: k) q -> StronglySorted before (x :: k) ->
  (let! i := PriorityQueue.top h in on_storage (slot_ref i)) q = Ret (dentry_of x) q.
Proof.
  intros (vs & t & -> & Hh & Hp & _) Hs. destruct (root_first _ _ _ Hh Hp Hs) as (us & -> & _). rewrite (bind_Ret _ _ _ _ _ (pq_top h C _ t _ us)).
  by apply (ref_Ret C mk_later_deadline t (dentry_of x :: us) 0).
Qed.
Lemma pop_entries x k q :
  entries_in (x :: k) q -> StronglySorted before (x :: k) -> Z.of_nat (length (x :: k)) <= C ->
  exists q', PriorityQueue.pop h C unchanged unchanged q = Ret tt q' /\ entries_in k q'.
Proof.
  intros (vs & t & -> & Hh & Hp & Ht) Hs Hl. destruct (root_first _ _ _ Hh Hp Hs) as (us & -> & Hu).
  assert (Z.of_nat (length (dentry_of x :: us)) <= C) as Hl' by (by rewrite Hp, length_fmap).
  destruct (returns _ _ t _ Ht (wp_pop h C unchanged unchanged mk_later_deadline t (dentry_of x) us Hl' Hh)) as ([] & q' & E & ws & Hw & Hh' & Hq).
  exists q'. split; [done|]. apply (entries_intro _ ws t); try done. by rewrite Hw.
Qed.
Lemma filter_fmap_perm (test : dentry Task P -> bool) vs k :
  vs ≡ₚ dentry_of <$> k -> List.filter test vs ≡ₚ dentry_of <$> List.filter (fun x => test (dentry_of x)) k.
Proof.
  intros Hp. assert (List.filter test vs ≡ₚ List.filter test (dentry_of <$> k)) as ->.
  { clear -Hp. induction Hp as [|x l l' _ IH|x y l|l l' l'' _ IH _ IH']; cbn; [done| |destruct (test x), (test y); try done; apply perm_swap|by rewrite IH]. destruct (test x); by rewrite IH. }
  clear Hp. induction k as [|x k IH]; cbn; [done|]. destruct (test (dentry_of x)); cbn; by rewrite IH.
Qed.
Lemma erase_entries (test : dentry Task P -> bool) k q :
  entries_in k q -> Z.of_nat (length k) <= C ->
  let k' := List.filter (fun x => negb (test (dentry_of x))) k in
  exists q', PriorityQueue.erase_if h C unchanged unchanged test q = Ret (Z.of_nat (length k) - Z.of_nat (length k')) q' /\ entries_in k' q'.
Proof.
  intros (vs & t & -> & Hh & Hp & Ht) Hl k'. assert (Z.of_nat (length vs) <= C) as Hl' by (by rewrite Hp, length_fmap).
  destruct (returns _ _ t vs Ht (wp_erase_if h C unchanged unchanged test mk_later_deadline t vs Hl')) as (n & q' & E & -> & us & Hu & Hh' & Hq).
  pose proof (filter_fmap_perm (fun e => negb (test e)) vs k Hp) as Hf. exists q'. split.
  - rewrite E. f_equal. rewrite Hf, Hp, !length_fmap. done.
  - apply (entries_intro _ us t); try done. by rewrite Hu.
Qed.
Lemma clear_entries k q : entries_in k q -> Z.of_nat (length k) <= C -> exists q', PriorityQueue.clear q = Ret tt q' /\ entries_in [] q'.
Proof.
  intros (vs & t & -> & Hh & Hp & Ht) Hl. assert (Z.of_nat (length vs) <= C) as Hl' by (by rewrite Hp, length_fmap).
  eexists. split; [by apply pq_clear|]. exists [], t. by split_and!.
Qed.
End queue.

(** ** Not to be told apart *)

Section simulation.
  Context `{SizeT} {Task P X : Type} `{!EqDecision Task} (h : hardening) (C : Z) `{!CapacityOk C}.
  Abbreviation numbered := (aentry Task P * Z)%type.
  Abbreviation MD := (M (deadline_scheduler Task P X)).
  Abbreviation MA := (M (agenda Task P X)).
  Implicit Types (s : deadline_scheduler Task P X) (a : agenda Task P X) (k : list numbered).

Record on_agenda k s a : Prop := {
  oa_queue : entries_in C k (queue_ s);
  oa_list : a_list a = fst <$> k;
  oa_sorted : StronglySorted before k;
  oa_numbers : Forall (fun x => x.2 < a_count a) k;
  oa_count : next_sequence_ s = a_count a /\ 0 <= a_count a < 2 ^ 64;
  oa_depth : poll_depth_ s = a_depth a /\ 0 <= a_depth a;
  oa_room : Z.of_nat (length k) + a_depth a <= C;   (** a place for every poll that runs *)
  oa_client : dclient s = a_client a;
  oa_polls : dpolls s = a_polls a }.
Definition kept_by s a : Prop := exists k, on_agenda k s a.

(** Where the agenda says something, the scheduler does the same, and as many polls run as
    is said. *)
Definition alike {A} (depth : Z) (o : outcome (deadline_scheduler Task P X) A) (o' : outcome (agenda Task P X) A) : Prop :=
  match o' with
  | Ret v a' => match o with Ret v' s' => v = v' /\ kept_by s' a' /\ a_depth a' = depth | _ => False end
  | Trap => o = Trap
  | Spin => True
  | Throw _ | Fault => False
  end.
Definition sims {A} (m : MD A) (m' : MA A) : Prop := forall s a, kept_by s a -> alike (a_depth a) (m s) (m' a).

Lemma timers_alike_bind {A B} d d' s a (m : MD A) (m' : MA A) (f : A -> MD B) (f' : A -> MA B) :
  alike d (m s) (m' a) -> (forall v s' a', kept_by s' a' -> a_depth a' = d -> alike d' (f v s') (f' v a')) -> alike d' (bind m f s) (bind m' f' a).
Proof.
  intros Hm Hf. unfold bind. destruct (m' a) as [v a'| | | |]; [|done|by rewrite Hm|done|done]. cbn in Hm. destruct (m s) as [v' s'| | | |]; try done.
  destruct Hm as (-> & Hk & Hd). by apply Hf.
Qed.
Lemma timers_sims_bind {A B} (m : MD A) (m' : MA A) (f : A -> MD B) (f' : A -> MA B) : sims m m' -> (forall v, sims (f v) (f' v)) -> sims (bind m f) (bind m' f').
Proof. intros Hm Hf s a Hk. eapply timers_alike_bind; [by apply Hm|]. intros v s' a' Hk' <-. by apply Hf. Qed.
Lemma timers_sims_ret {A} (v : A) : sims (ret v) (ret v).
Proof. by intros s a Hk. Qed.
Lemma timers_sims_assert b : sims (metl_assert h b) (metl_assert h b).
Proof. intros s a Hk. by destruct h, b. Qed.

Definition with_queue q s : deadline_scheduler Task P X := mk_deadlines q (poll_depth_ s) (next_sequence_ s) (dclient s) (dpolls s).
Lemma on_queue_Ret {A} (m : M (pqueue later_deadline (dentry Task P)) A) s v q : m (queue_ s) = Ret v q -> Deadlines.on_queue m s = Ret v (with_queue q s).
Proof. intros E. unfold Deadlines.on_queue. by rewrite E. Qed.
Lemma with_queue_id s : with_queue (queue_ s) s = s.
Proof. by destruct s. Qed.
Lemma room k s a : on_agenda k s a -> Z.of_nat (length k) <= C.
Proof. intros Ho. pose proof (oa_room _ _ _ Ho). destruct (oa_depth _ _ _ Ho). lia. Qed.
Lemma size_agenda k s a : on_agenda k s a -> PriorityQueue.size (queue_ s) = Z.of_nat (length (a_list a)).
Proof. intros Ho. by rewrite (entries_size C k _ (oa_queue _ _ _ Ho)), (oa_list _ _ _ Ho), length_fmap. Qed.

(** Fewer entries. *)
Lemma fewer k k' s a q : on_agenda k s a -> k' `sublist_of` k -> entries_in C k' q -> on_agenda k' (with_queue q s) (Agenda.set_list (fst <$> k') a).
Proof.
  intros [] Hs Hq. split; try done; cbn.
  - by eapply sorted_sublist.
  - by eapply forall_sublist.
  - pose proof (sublist_length _ _ Hs). lia.
Qed.
(** One entry more, with the next number. *)
Lemma one_more k s a e : on_agenda k s a -> Z.of_nat (length k) + a_depth a < C ->
  forall s' a', Deadlines.take_sequence s = Ret (a_count a) s' -> Agenda.a_add e a = Ret tt a' ->
  exists k1 k2, k = k1 ++ k2 /\ forall q, entries_in C (k1 ++ (e, a_count a) :: k2) q -> on_agenda (k1 ++ (e, a_count a) :: k2) (with_queue q s') a'.
Proof.
  intros Ho Hroom s' a' Es Ea. destruct (insert_sorted e (a_count a) k (oa_sorted _ _ _ Ho) (oa_numbers _ _ _ Ho)) as (k1 & k2 & -> & Hs & Ei).
  exists k1, k2. split; [done|]. intros q Hq. destruct (oa_count _ _ _ Ho) as [En Hn]. unfold Agenda.a_add in Ea. destruct (Z.ltb_spec (a_count a + 1) (2 ^ 64)); [|done].
  injection Ea as <-. injection Es as _ <-. pose proof (oa_numbers _ _ _ Ho) as Hnum. apply Forall_app in Hnum as [Hn1 Hn2].
  split; cbn; try done; try apply Ho.
  - by rewrite (oa_list _ _ _ Ho), Ei.
  - apply Forall_app_2; [|constructor; [cbn; lia|]]; (eapply Forall_impl; [done|]); cbn; lia.
  - unfold Deadlines.sequence_bits. rewrite En, Z.mod_small by lia. lia.
  - rewrite length_app in *. cbn. lia.
Qed.

Lemma timers_sims_size : sims Deadlines.size Agenda.a_size.
Proof. intros s a (k & Ho). unfold Deadlines.size, Agenda.a_size, get. cbn. rewrite (size_agenda k s a Ho). split_and!; try done. by exists k. Qed.
Lemma sims_try_schedule t fn d : sims (Deadlines.try_schedule h C t fn d) (Agenda.a_try_schedule C t fn d).
Proof.
  intros s a (k & Ho). unfold Deadlines.try_schedule, Agenda.a_try_schedule. destruct fn as [p|]; [|done]. mstep. unfold Deadlines.size, Deadlines.reserved. do 2 mstep.
  rewrite (size_agenda k s a Ho). destruct (oa_depth _ _ _ Ho) as [Ed Hd]. pose proof (oa_room _ _ _ Ho) as Hr. pose proof (capacity_bounds C).
  assert (length (a_list a) = length k) as El by (by rewrite (oa_list _ _ _ Ho), length_fmap). rewrite Ed, El, wrap_small by lia.
  destruct (Z.leb_spec C (Z.of_nat (length k) + a_depth a)); [split_and!; try done; by exists k|]. destruct (oa_count _ _ _ Ho) as [En Hn].
  set (e := mk_aentry d t p). unfold bind at 2. destruct (Agenda.a_add e a) as [[] a'| | | |] eqn:Ea; try (unfold Agenda.a_add in Ea; by destruct (_ <? _)).
  assert (Deadlines.take_sequence s = Ret (a_count a) (mk_deadlines (queue_ s) (poll_depth_ s) ((next_sequence_ s + 1) mod 2 ^ Deadlines.sequence_bits) (dclient s) (dpolls s))) as Es
    by (unfold Deadlines.take_sequence; by rewrite En).
  destruct (one_more k s a e Ho ltac:(lia) _ _ Es Ea) as (k1 & k2 & -> & Hk). rewrite (bind_Ret _ _ _ _ _ Es).
  destruct (try_push_entries h C (k1 ++ k2) k1 k2 e (a_count a) _ (oa_queue _ _ _ Ho) eq_refl ltac:(lia)) as (q & Eq & Hq). erewrite on_queue_Ret; [|exact Eq].
  split_and!; try done; [by eexists; apply Hk|]. unfold Agenda.a_add in Ea. destruct (_ <? _); [|done]. by injection Ea as <-.
Qed.
Lemma filter_fst (test : aentry Task P -> bool) k : List.filter test (fst <$> k) = fst <$> List.filter (fun x => test x.1) k.
Proof. induction k as [|x k IH]; cbn; [done|]. destruct (test x.1); cbn; by rewrite IH. Qed.
Lemma filter_shorter {A} (test : A -> bool) l : (length (List.filter (fun x => negb (test x)) l) = length l - length (List.filter test l))%nat /\ (length (List.filter test l) <= length l)%nat.
Proof. induction l as [|x l IH]; cbn; [done|]. destruct (test x); cbn; lia. Qed.
Lemma some_filtered {A} (test : A -> bool) l : existsb test l = negb (Nat.eqb (length (List.filter test l)) 0).
Proof. induction l as [|x l IH]; cbn; [done|]. by destruct (test x). Qed.
Lemma filter_sublist {A} (test : A -> bool) l : List.filter test l `sublist_of` l.
Proof. induction l as [|x l IH]; cbn; [done|]. destruct (test x); by constructor. Qed.
Lemma sims_cancel t : sims (Deadlines.cancel h C t) (Agenda.a_cancel t).
Proof.
  intros s a (k & Ho). unfold Deadlines.cancel, Agenda.a_cancel.
  destruct (erase_entries h C (fun e => bool_decide (dtask e = t)) k _ (oa_queue _ _ _ Ho) (room _ _ _ Ho)) as (q & Eq & Hq).
  rewrite (bind_Ret _ _ _ _ _ (on_queue_Ret _ _ _ _ Eq)). set (test := fun x : numbered => bool_decide (a_task x.1 = t)).
  change (fun x : numbered => negb (bool_decide (dtask (dentry_of x) = t))) with (fun x => negb (test x)) in *.
  destruct (filter_shorter test k) as [Hf Hle]. rewrite (oa_list _ _ _ Ho), filter_fst. split_and!; [| |done].
  - rewrite some_filtered, filter_fst, length_fmap. change (fun x : numbered => Agenda.a_is t x.1) with test. rewrite Hf.
    f_equal. apply eq_true_iff_eq. rewrite Nat.eqb_eq, Z.eqb_eq. lia.
  - exists (List.filter (fun x => negb (test x)) k). apply (fewer k); [done|apply filter_sublist|done].
Qed.
Lemma scheduled_from_vs t s vs tr (n i : nat) :
  queue_ s = pq_of C mk_later_deadline tr vs -> (i + n = length vs)%nat ->
  Deadlines.scheduled_from h t n (Z.of_nat i) s = Ret (existsb (fun e => bool_decide (dtask e = t)) (drop i vs)) s.
Proof.
  intros Hs. revert i. induction n as [|n IH]; intros i Hi; cbn [Deadlines.scheduled_from]; [by rewrite drop_ge by lia|].
  destruct (lookup_lt_is_Some_2 vs i ltac:(lia)) as [e He]. rewrite (drop_S _ _ _ He). cbn [existsb].
  assert (Deadlines.on_queue (on_storage (let! j := FixedVector.at_ h (Z.of_nat i) in slot_ref j)) s = Ret e s) as Ee.
  { rewrite <- (with_queue_id s) at 2. apply on_queue_Ret. rewrite Hs. apply on_storage_Ret. rewrite (bind_Ret _ _ _ _ _ (hold_at h C vs i e He)). by apply hold_ref. }
  rewrite (bind_Ret _ _ _ _ _ Ee). case_bool_decide; [done|]. replace (Z.of_nat i + 1) with (Z.of_nat (S i)) by lia. apply IH. lia.
Qed.
Lemma existsb_perm {A} (test : A -> bool) (l l' : list A) : l ≡ₚ l' -> existsb test l = existsb test l'.
Proof.
  intros Hp. apply eq_true_iff_eq. rewrite !existsb_exists. by split; intros (x & Hx & Ht); exists x; (split; [|done]); [rewrite <- Hp|rewrite Hp].
Qed.
Lemma sims_is_scheduled t : sims (Deadlines.is_scheduled h t) (Agenda.a_is_scheduled t).
Proof.
  intros s a (k & Ho). unfold Deadlines.is_scheduled, Deadlines.size, Agenda.a_is_scheduled, get. destruct (oa_queue _ _ _ Ho) as (vs & tr & Eq & _ & Hp & _).
  erewrite bind_Ret; [|done]. pose proof (scheduled_from_vs t s vs tr (length vs) 0 Eq eq_refl) as Ef. rewrite drop_0 in Ef.
  rewrite Eq, pq_size, Nat2Z.id. change 0 with (Z.of_nat 0). rewrite Ef.
  split_and!; [|by exists k|done]. rewrite (existsb_perm _ _ _ Hp), (oa_list _ _ _ Ho). clear. induction k as [|x k IH]; cbn; [done|]. by rewrite IH.
Qed.
Lemma queue_empty k s a : on_agenda k s a -> PriorityQueue.empty (queue_ s) = match a_list a with [] => true | _ => false end.
Proof.
  intros Ho. pose proof (entries_size C k _ (oa_queue _ _ _ Ho)) as Es. rewrite (oa_list _ _ _ Ho). unfold PriorityQueue.empty, FixedVector.empty.
  unfold PriorityQueue.size, FixedVector.size in Es. rewrite Es. by destruct k.
Qed.
Lemma top_agenda x k s a : on_agenda (x :: k) s a -> Deadlines.top h s = Ret (dentry_of x) s.
Proof.
  intros Ho. rewrite <- (with_queue_id s) at 2. apply on_queue_Ret. apply (top_entries h C x k); apply Ho.
Qed.
Lemma sims_next_deadline : sims (Deadlines.next_deadline h) Agenda.a_next_deadline.
Proof.
  intros s a (k & Ho). unfold Deadlines.next_deadline, Agenda.a_next_deadline. mstep. unfold get. rewrite (queue_empty k s a Ho). pose proof (oa_list _ _ _ Ho) as El.
  destruct k as [|x k]; rewrite El; cbn; [split_and!; try done; by exists []|]. rewrite (bind_Ret _ _ _ _ _ (top_agenda x k s a Ho)). split_and!; try done. by exists (x :: k).
Qed.
Lemma sims_clear : sims Deadlines.clear Agenda.a_clear.
Proof.
  intros s a (k & Ho). destruct (clear_entries C k _ (oa_queue _ _ _ Ho) (room _ _ _ Ho)) as (q & Eq & Hq). unfold Deadlines.clear. rewrite (on_queue_Ret _ _ _ _ Eq).
  split_and!; try done. exists []. apply (fewer k); [done|apply sublist_nil_l|done].
Qed.

#[local] Instance timers_of_scheduler : Timers Task P X (deadline_scheduler Task P X) := Deadlines.deadline_timers h C.
#[local] Instance timers_of_agenda : Timers Task P X (agenda Task P X) := Agenda.agenda_timers C.
Lemma timers_sims_note (t : Task) (p : P) now : sims (tm_note t p now) (tm_note t p now).
Proof. intros s a (k & []). split_and!; try done. exists k. split; try done. cbn. congruence. Qed.
Lemma timers_sims_local (f : X -> X) : sims (tm_local f) (tm_local f).
Proof. intros s a (k & []). cbn. split_and!; try done; [congruence|]. exists k. split; try done. cbn. congruence. Qed.

(** *** Running what is due *)

Lemma deepen k s a x q d : on_agenda (x :: k) s a -> entries_in C k q -> poll_depth_ s = d ->
  on_agenda k (mk_deadlines q (wrap (d + 1)) (next_sequence_ s) (dclient s) (dpolls s)) (Agenda.set_a_depth (a_depth a + 1) (Agenda.set_list (fst <$> k) a)).
Proof.
  intros Ho Hq <-. pose proof (oa_room _ _ _ Ho) as Hr. destruct (oa_depth _ _ _ Ho) as [Ed Hd]. pose proof (capacity_bounds C). cbn [length] in Hr.
  pose proof (fewer (x :: k) k s a q Ho ltac:(by apply sublist_cons) Hq) as []. split; try done; cbn in *; [rewrite Ed, wrap_small by lia; lia|lia].
Qed.
Lemma surface k s a : on_agenda k s a -> 1 <= a_depth a ->
  on_agenda k (mk_deadlines (queue_ s) (wrap (poll_depth_ s - 1)) (next_sequence_ s) (dclient s) (dpolls s)) (Agenda.set_a_depth (a_depth a - 1) a) /\
  Z.of_nat (length k) + (a_depth a - 1) < C.
Proof.
  intros Ho Hd. pose proof (oa_room _ _ _ Ho) as Hr. destruct (oa_depth _ _ _ Ho) as [Ed _]. pose proof (capacity_bounds C). split; [|lia].
  destruct Ho. split; try done; cbn in *; [rewrite Ed, wrap_small by lia; lia|lia].
Qed.
(** The task that ran is scheduled again: there is room. *)
Lemma alike_rearm k s a e : on_agenda k s a -> Z.of_nat (length k) + a_depth a < C ->
  alike (a_depth a)
    ((let! number := Deadlines.take_sequence in
      Deadlines.on_queue (PriorityQueue.push h C (fun e => e) (fun e => e) (ret (mk_dentry (a_deadline e) (a_task e) (Some (a_poll e)) number)))) s)
    (Agenda.a_add e a).
Proof.
  intros Ho Hroom. destruct (oa_count _ _ _ Ho) as [En Hn].
  destruct (Agenda.a_add e a) as [[] a'| | | |] eqn:Ea; try (unfold Agenda.a_add in Ea; by destruct (_ <? _)).
  assert (Deadlines.take_sequence s = Ret (a_count a) (mk_deadlines (queue_ s) (poll_depth_ s) ((next_sequence_ s + 1) mod 2 ^ Deadlines.sequence_bits) (dclient s) (dpolls s))) as Es
    by (unfold Deadlines.take_sequence; by rewrite En).
  destruct (one_more k s a e Ho Hroom _ _ Es Ea) as (k1 & k2 & -> & Hk). rewrite (bind_Ret _ _ _ _ _ Es). destruct (oa_depth _ _ _ Ho).
  destruct (push_entries h C (k1 ++ k2) k1 k2 e (a_count a) _ (oa_queue _ _ _ Ho) eq_refl ltac:(lia)) as (q & Eq & Hq). erewrite on_queue_Ret; [|exact Eq].
  split_and!; try done; [by eexists; apply Hk|]. unfold Agenda.a_add in Ea. destruct (_ <? _); [|done]. by injection Ea as <-.
Qed.
Lemma sims_due_loop call call' now most turns dispatched :
  (forall t p now, sims (call t p now) (call' t p now)) -> 0 <= dispatched -> most < 2 ^ size_bits ->
  sims (Deadlines.due_loop h C call now most turns dispatched) (Agenda.a_due_loop call' now most turns dispatched).
Proof.
  intros Hcall. revert dispatched. induction turns as [|turns IH]; intros dispatched Hd Hm s a (k & Ho); cbn [Deadlines.due_loop Agenda.a_due_loop].
  all: pose proof (oa_list _ _ _ Ho) as El; rewrite El; destruct (Z.ltb_spec dispatched most) as [Hlt|Hge]; cbn [negb];
    [mstep; rewrite (queue_empty k s a Ho), El; destruct k as [|x k]; cbn [fmap list_fmap andb]; [split_and!; try done; by exists []|]
    |destruct k as [|x k]; cbn; (split_and!; try done); by eexists].
  all: rewrite (bind_Ret _ _ _ _ _ (top_agenda x k s a Ho)); change (deadline (dentry_of x)) with (a_deadline x.1); rewrite Z.leb_antisym;
    destruct (Z.ltb_spec now (a_deadline x.1)); cbn [negb]; [split_and!; try done; by exists (x :: k)|]; try done.
  rewrite (bind_Ret _ _ _ _ _ (top_agenda x k s a Ho)). destruct (pop_entries h C x k _ (oa_queue _ _ _ Ho) (oa_sorted _ _ _ Ho) (room _ _ _ Ho)) as (q & Eq & Hq).
  rewrite (bind_Ret _ _ _ _ _ (on_queue_Ret _ _ _ _ Eq)). unfold Deadlines.set_depth. do 2 mstep. cbn [with_queue queue_ poll_depth_ next_sequence_ dclient dpolls].
  pose proof (deepen k s a x q _ Ho Hq eq_refl) as Ho2. destruct (oa_depth _ _ _ Ho) as [Ed Hd0].
  cbn [dentry_of dpoll dtask]. eapply timers_alike_bind; [apply Hcall; by exists k|]. intros next s3 a3 (k3 & Ho3) Ed3. cbn [Agenda.set_a_depth a_depth Agenda.set_list] in Ed3.
  destruct (surface k3 s3 a3 Ho3 ltac:(lia)) as [Ho4 Hroom]. do 2 mstep.
  set (s4 := mk_deadlines (queue_ s3) _ _ _ _) in *. set (a4 := Agenda.set_a_depth _ a3) in *. assert (a_depth a4 = a_depth a) as Ed4 by (unfold a4; cbn; lia).
  eapply (timers_alike_bind (a_depth a)).
  - destruct next as [d|]; [|cbn; split_and!; try done; by exists k3]. rewrite <- Ed4. apply (alike_rearm k3 s4 a4 (mk_aentry d (a_task x.1) (a_poll x.1)) Ho4). cbn in *. lia.
  - intros _ s5 a5 Hk5 Ed5. rewrite wrap_small by lia. rewrite <- Ed5. apply IH; [lia|done|done].
Qed.

Lemma timers_sims_exec_with call call' c : (forall t p now, sims (call t p now) (call' t p now)) -> sims (TimerPrograms.exec_with h call c) (TimerPrograms.exec_with h call' c).
Proof.
  intros Hcall. induction c as [next|f k IH|must t fn d k IH|t k IH|t k IH|k IH|k IH|now most k IH|c IH]; cbn [TimerPrograms.exec_with]; [apply timers_sims_ret|..].
  all: (apply timers_sims_bind; [|intros ?; apply IH]).
  - apply timers_sims_local.
  - destruct must; [|apply sims_try_schedule]. unfold TimerPrograms.schedule. apply timers_sims_bind; [apply sims_try_schedule|]. intros b. apply timers_sims_bind; [apply timers_sims_assert|]. intros _. apply timers_sims_ret.
  - apply sims_cancel.
  - apply sims_is_scheduled.
  - apply sims_next_deadline.
  - apply timers_sims_size.
  - apply sims_due_loop; [done|done|apply wrap_range].
  - apply sims_clear.
Qed.
Lemma timers_sims_call body fuel t p now : sims (TimerPrograms.call h body fuel t p now) (TimerPrograms.call h body fuel t p now).
Proof.
  revert t p now. induction fuel as [|fuel IH]; intros t p now; cbn [TimerPrograms.call]; [by intros s a Hk|]. apply timers_sims_bind; [apply timers_sims_note|]. intros _. by apply timers_sims_exec_with.
Qed.
Lemma timers_sims_exec body fuel c : sims (TimerPrograms.exec h body fuel c) (TimerPrograms.exec h body fuel c).
Proof. apply timers_sims_exec_with. intros t p now. apply timers_sims_call. Qed.
Lemma fresh_kept x : kept_by (Deadlines.fresh C x) (Agenda.a_fresh x).
Proof.
  pose proof (capacity_bounds C). exists []. split; try done; [|apply SSorted_nil|cbn; lia].
  exists [], []. split_and!; [|by intros j y z ? ?|done|by intros ?%elem_of_nil]. unfold Deadlines.fresh, PriorityQueue.priority_queue, pq_of. cbn. by rewrite vec_init.
Qed.
End simulation.
