(* ===== verification/DeadlineClaims.v ===== *)
(** * What [coro::deadline_scheduler] promises *)

From Stdlib Require Import ZArith Lia.
From stdpp Require Import base numbers list option tactics.
From S2P Require Import Prelude FixedVector FixedVectorFacts PriorityQueue PriorityQueueFacts Deadline DeadlineFacts.
Local Open Scope Z_scope.

Section claims.
  Context `{SizeT} {Task P X : Type} `{!EqDecision Task} (h : hardening) (C : Z) `{!CapacityOk C} (body : P -> Task -> Z -> timer_code Task P X).
  Implicit Types (s : deadline_scheduler Task P X) (a : agenda Task P X) (c : timer_code Task P X) (x : X).
#[local] Instance the_timers : Timers Task P X (deadline_scheduler Task P X) := Deadlines.deadline_timers h C.
#[local] Instance the_agenda : Timers Task P X (agenda Task P X) := Agenda.agenda_timers C.

(** What the heap holds, in its own order. *)
Definition pending s : list (Z * Task * option P) :=
  (fun e => (deadline e, dtask e, dpoll e)) <$> omap (fun o => o) (take (Z.to_nat (vsize_ (qstorage_ (queue_ s)))) (vstorage_ (qstorage_ (queue_ s)))).
Definition planned (e : aentry Task P) : Z * Task * option P := (a_deadline e, a_task e, Some (a_poll e)).

Lemma pending_kept k s a : on_agenda C k s a -> pending s ≡ₚ planned <$> a_list a.
Proof.
  intros Ho. destruct (oa_queue _ _ _ _ Ho) as (vs & t & Eq & _ & Hp & _). unfold pending. rewrite Eq. cbn [pq_of qstorage_]. rewrite vsize_hold, Nat2Z.id.
  unfold hold, vec_of. cbn [vstorage_]. rewrite take_app_le by (by rewrite length_fmap). rewrite take_ge by (by rewrite length_fmap).
  assert (omap (fun o => o) (Some <$> vs) = vs) as -> by (clear; induction vs as [|v vs IH]; cbn; [done|by rewrite IH]).
  rewrite Hp, (oa_list _ _ _ _ Ho), <- !list_fmap_compose. done.
Qed.

(** C15. A program cannot tell the scheduler from an agenda: a list of tasks in the order in
    which they fall due, those with the same deadline in the order in which they were
    scheduled.  Whatever the polls schedule, cancel and run, in whatever nesting, the
    same tasks are polled in the same order at the same ticks, every call returns the
    same, and the same is left; a call traps where that of the agenda does, so that a
    task that has been polled can always be scheduled again.  The agenda says nothing
    about a program that schedules [2 ^ 64] times or nests deeper than the fuel. *)
Theorem deadline_refines fuel c x :
  match TimerPrograms.exec h body fuel c (Agenda.a_fresh x) with
  | Ret v a => exists s, TimerPrograms.exec h body fuel c (Deadlines.fresh C x) = Ret v s /\
      dclient s = a_client a /\ dpolls s = a_polls a /\ pending s ≡ₚ planned <$> a_list a
  | Trap => TimerPrograms.exec h body fuel c (Deadlines.fresh C x) = Trap
  | Spin => True
  | Throw _ | Fault => False
  end.
Proof.
  pose proof (timers_sims_exec h C body fuel c _ _ (fresh_kept C x)) as Hsim. change (timers_of_scheduler h C) with the_timers in Hsim. change (timers_of_agenda C) with the_agenda in Hsim.
  destruct (TimerPrograms.exec h body fuel c (Agenda.a_fresh x)) as [v a| | | |]; try done. cbn in Hsim.
  destruct (TimerPrograms.exec h body fuel c (Deadlines.fresh C x)) as [v' s| | | |]; try done. destruct Hsim as (<- & (k & Ho) & _). exists s.
  split_and!; [done|apply Ho|apply Ho|by apply (pending_kept k)].
Qed.

(** ** Polls that leave the agenda alone *)

Fixpoint timer_passive c : Prop :=
  match c with DReturn _ => True | DLocal f k => forall x, timer_passive (k x) | _ => False end.
Fixpoint timer_eval c x : option Z * X :=
  match c with DReturn next => (next, x) | DLocal f k => timer_eval (k (f x)) (f x) | _ => (None, x) end.

Section passive_polls.
  Context (Hpassive : forall p t now, timer_passive (body p t now)).

Lemma timer_exec_passive call c a : timer_passive c ->
  TimerPrograms.exec_with h call c a = Ret (timer_eval c (a_client a)).1 (mk_agenda (a_list a) (a_depth a) (a_count a) (timer_eval c (a_client a)).2 (a_polls a)).
Proof.
  revert a. induction c as [next|f k IH|must t fn d k IH|t k IH|t k IH|k IH|k IH|now most k IH|c IH]; intros a Hc; try done; cbn [TimerPrograms.exec_with timer_eval].
  - unfold ret. f_equal. by destruct a.
  - erewrite bind_Ret; [|done]. by rewrite IH.
Qed.
Lemma timer_call_passive fuel t p now a :
  TimerPrograms.call h body (S fuel) t p now a =
    Ret (timer_eval (body p t now) (a_client a)).1 (mk_agenda (a_list a) (a_depth a) (a_count a) (timer_eval (body p t now) (a_client a)).2 (a_polls a ++ [(t, p, now)])).
Proof. cbn [TimerPrograms.call]. erewrite bind_Ret; [|done]. by rewrite timer_exec_passive. Qed.

(** Nothing is due any more. *)
Definition nothing_due now a : Prop := match a_list a with e :: _ => now < a_deadline e | [] => True end.
Lemma due_loop_ends fuel now most turns dispatched a :
  dispatched + Z.of_nat turns = most -> a_count a + Z.of_nat turns < 2 ^ 64 ->
  exists n a' l, Agenda.a_due_loop (TimerPrograms.call h body (S fuel)) now most turns dispatched a = Ret (dispatched + Z.of_nat n) a' /\
    (n <= turns)%nat /\ (n = turns \/ nothing_due now a') /\ a_polls a' = a_polls a ++ l /\ length l = n /\ Forall (fun e => e.2 = now) l.
Proof.
  revert dispatched a. induction turns as [|turns IH]; intros dispatched a Hm Hc; cbn [Agenda.a_due_loop].
  - exists O, a, []. rewrite app_nil_r, Z.add_0_r. split_and!; try done; [|by left]. destruct (a_list a); [done|]. zbool. done.
  - destruct (a_list a) as [|e rest] eqn:El; [exists O, a, []; rewrite app_nil_r, Z.add_0_r; split_and!; try done; [lia|right; unfold nothing_due; by rewrite El]|].
    rewrite (proj2 (Z.ltb_lt dispatched most)) by lia. cbn [andb]. destruct (Z.leb_spec (a_deadline e) now) as [Hle|Hgt].
    2: { exists O, a, []. rewrite app_nil_r, Z.add_0_r. split_and!; try done; [lia|right; unfold nothing_due; by rewrite El]. }
    mstep. rewrite (bind_Ret _ _ _ _ _ (timer_call_passive fuel _ _ _ _)). set (r := timer_eval _ _). mstep.
    assert (forall b, a_polls b = a_polls a ++ [(a_task e, a_poll e, now)] -> a_count b <= a_count a + 1 ->
      exists n a' l, Agenda.a_due_loop (TimerPrograms.call h body (S fuel)) now most turns (dispatched + 1) b = Ret (dispatched + Z.of_nat n) a' /\
        (n <= S turns)%nat /\ (n = S turns \/ nothing_due now a') /\ a_polls a' = a_polls a ++ l /\ length l = n /\ Forall (fun e => e.2 = now) l) as Hgo.
    { intros b Hb Hcb. destruct (IH (dispatched + 1) b ltac:(lia) ltac:(lia)) as (n & a' & l & E & Hn & Hend & Hp & Hl & Hf). exists (S n), a', ((a_task e, a_poll e, now) :: l).
      split_and!; [rewrite E; f_equal; lia|lia|destruct Hend; [left; lia|by right]|by rewrite Hp, Hb, <- app_assoc|cbn; lia|by constructor]. }
    destruct r.1 as [d|].
    + erewrite bind_Ret; [apply Hgo|unfold Agenda.a_add; cbn; rewrite (proj2 (Z.ltb_lt _ _)) by lia; done]; cbn; [done|lia].
    + mstep. apply Hgo; cbn; [done|lia].
Qed.

(** C16. With polls that only return the next deadline, [run_due] ends after at most
    [max_dispatches] polls, all of them at the tick that it was given; it polls that many
    only if so many are due, and otherwise leaves nothing that is due. *)
Theorem deadline_run_due_ends depth c x v a s fuel now most :
  TimerPrograms.exec h body depth c (Agenda.a_fresh x) = Ret v a -> TimerPrograms.exec h body depth c (Deadlines.fresh C x) = Ret v s ->
  0 <= most < 2 ^ size_bits -> a_count a + most < 2 ^ 64 ->
  exists n s' l, Deadlines.run_due h C (TimerPrograms.call h body (S fuel)) now most s = Ret n s' /\ 0 <= n <= most /\
    dpolls s' = dpolls s ++ l /\ Z.of_nat (length l) = n /\ Forall (fun e => e.2 = now) l /\
    (n = most \/ exists next, Deadlines.next_deadline h s' = Ret next s' /\ match next with Some d => now < d | None => True end).
Proof.
  intros Ea Es Hm Hc. pose proof (timers_sims_exec h C body depth c _ _ (fresh_kept C x)) as Hsim.
  change (timers_of_scheduler h C) with the_timers in Hsim. change (timers_of_agenda C) with the_agenda in Hsim. rewrite Ea, Es in Hsim. destruct Hsim as (_ & Hk & _).
  destruct (due_loop_ends fuel now most (Z.to_nat most) 0 a ltac:(lia) ltac:(lia)) as (n & a' & l & E & Hn & Hend & Hp & Hl & Hf).
  pose proof (sims_due_loop h C (TimerPrograms.call h body (S fuel)) (TimerPrograms.call h body (S fuel)) now most (Z.to_nat most) 0 (timers_sims_call h C body (S fuel)) (Z.le_refl 0) (proj2 Hm) s a Hk) as Hr.
  change (timers_of_scheduler h C) with the_timers in Hr. change (timers_of_agenda C) with the_agenda in Hr. rewrite E in Hr. cbn [alike] in Hr. unfold Deadlines.run_due.
  destruct (Deadlines.due_loop h C _ now most _ 0 s) as [w s'| | | |]; try done. destruct Hr as (<- & (k' & Ho') & _). exists (Z.of_nat n), s', l.
  destruct Hk as (k & Ho). split_and!; try done; try lia.
  - by rewrite (oa_polls _ _ _ _ Ho'), (oa_polls _ _ _ _ Ho).
  - destruct Hend as [->|Hend]; [left; lia|right]. pose proof (oa_list _ _ _ _ Ho') as El. unfold nothing_due in Hend. unfold Deadlines.next_deadline.
    erewrite bind_Ret; [|done]. rewrite (queue_empty C k' s' a' Ho'), El. destruct k' as [|y k']; cbn [fmap list_fmap]; [by exists None|].
    rewrite (bind_Ret _ _ _ _ _ (top_agenda h C y k' s' a' Ho')). eexists. split; [done|]. by rewrite El in Hend.
Qed.
End passive_polls.
End claims.

(** ** Two tasks, and a third that finds no room *)
Section example.
  #[local] Existing Instance size_t_32.
#[local] Instance two_deadlines : CapacityOk 2 := conj (Z.le_0_2 : 0 <= 2) eq_refl.

(** Function 1 tries to schedule task 9, counts if it can, and asks to run 3 ticks later;
    function 0 asks for 10 ticks. *)
Definition ticking (p t : nat) (now : Z) : timer_code nat nat Z :=
  match p with
  | O => DReturn (Some (now + 10))
  | _ => DSchedule false 9%nat (Some O) now (fun b => DLocal (fun x => if b then x + 1 else x) (fun _ => DReturn (Some (now + 3))))
  end.
Definition metronome (p t : nat) (now : Z) : timer_code nat nat Z := DReturn (Some (now + 10)).
Definition two_timers : timer_code nat nat Z :=
  DSchedule true 7%nat (Some 1%nat) 5 (fun _ => DSchedule false 8%nat (Some O) 5 (fun _ => DRunDue 6 10 (fun _ => DReturn None))).
Definition tick_two (body : nat -> nat -> Z -> timer_code nat nat Z) (c : timer_code nat nat Z) : outcome (deadline_scheduler nat nat Z) (option Z) :=
  TimerPrograms.exec (timers := Deadlines.deadline_timers HARDENING_FAST 2) HARDENING_FAST body 2 c (Deadlines.fresh 2 0).
Definition plan_two (body : nat -> nat -> Z -> timer_code nat nat Z) (c : timer_code nat nat Z) : outcome (agenda nat nat Z) (option Z) :=
  TimerPrograms.exec (timers := Agenda.agenda_timers 2) HARDENING_FAST body 2 c (Agenda.a_fresh 0).
Definition reached (o : outcome (deadline_scheduler nat nat Z) (option Z)) : deadline_scheduler nat nat Z := match o with Ret _ s => s | _ => Deadlines.fresh 2 0 end.
Definition agreed (o : outcome (agenda nat nat Z) (option Z)) : agenda nat nat Z := match o with Ret _ a => a | _ => Agenda.a_fresh 0 end.

Lemma deadline_refines_witness :
  dpolls (reached (tick_two ticking two_timers)) = [(7%nat, 1%nat, 6); (8%nat, O, 6)] /\ dclient (reached (tick_two ticking two_timers)) = 0 /\
  match plan_two ticking two_timers with
  | Ret v a => exists s, tick_two ticking two_timers = Ret v s /\ dclient s = a_client a /\ dpolls s = a_polls a /\ pending s ≡ₚ planned <$> a_list a
  | Trap => tick_two ticking two_timers = Trap
  | Spin => True
  | Throw _ | Fault => False
  end.
Proof.
  split; [vm_compute; reflexivity|]. split; [vm_compute; reflexivity|]. pose proof (deadline_refines HARDENING_FAST 2 ticking 2 two_timers 0) as E.
  unfold the_timers, the_agenda in E. unfold plan_two, tick_two. exact E.
Defined.

Definition wait_two : timer_code nat nat Z :=
  DSchedule true 7%nat (Some 1%nat) 5 (fun _ => DSchedule false 8%nat (Some O) 5 (fun _ => DReturn None)).
Lemma deadline_run_due_ends_witness :
  exists n s' l, Deadlines.run_due HARDENING_FAST 2 (TimerPrograms.call (timers := Deadlines.deadline_timers HARDENING_FAST 2) HARDENING_FAST metronome 1) 6 10 (reached (tick_two metronome wait_two)) = Ret n s' /\
    dpolls s' = [] ++ l /\ Z.of_nat (length l) = n /\ Forall (fun e => e.2 = 6) l.
Proof.
  destruct (deadline_run_due_ends HARDENING_FAST 2 metronome (fun _ _ _ => I) 2 wait_two 0 None (agreed (plan_two metronome wait_two)) (reached (tick_two metronome wait_two)) 0 6 10)
    as (n & s' & l & E & _ & Hp & Hl & Hf & _).
  - vm_compute. reflexivity.
  - vm_compute. reflexivity.
  - split; [lia|reflexivity].
  - vm_compute. reflexivity.
  - exists n, s', l. split; [exact E|]. split; [exact Hp|]. split; [exact Hl|exact Hf].
Defined.
End example.
