(* ===== verification/Fsm.v ===== *)
(** * [fsm]

    [include/metl/fsm.hpp]: the table-driven state machine.  Actions and hooks are code
    of the client, which keeps a state of its own, may look at the machine, dispatch
    further events from inside a dispatch, throw and catch.  Dispatches nest as deep as
    the fuel of [dispatch] allows. *)

From Stdlib Require Import ZArith Lia.
From stdpp Require Import base numbers list option tactics.
From S2P Require Import Prelude.
Local Open Scope Z_scope.

Section types.
  Context (State Event X : Type).

(** Client code.  [X] is the client's state. *)
Inductive handler : Type :=
  | Stop                                                  (** returns *)
  | Raise                                                 (** throws *)
  | Local (f : X -> X) (k : X -> handler)                 (** a step on the client's state *)
  | Look (k : State -> handler)                           (** [current_state] *)
  | Ask (e : Event) (k : bool -> handler)                 (** [can_dispatch] *)
  | Send (e : Event) (k : bool -> handler)                (** [dispatch] *)
  | Catch (body : handler) (k : bool -> handler).         (** a block with a [catch], and whether it caught *)

(** [fsm_transition]; an empty delegate is [None]. *)
Record fsm_transition : Type := mk_transition { from : State; event : Event; to : State; action : option (State -> Event -> State -> handler) }.
(** [fsm_state_hook]. *)
Record fsm_state_hook : Type := mk_hook { state : State; on_state : option (State -> handler) }.

(** What [invoke_hook] was called for; the machine's [trace] of them is for the theorems. *)
Inductive hook_call : Type := Enter (s : State) | Exit (s : State).

Record machine : Type := mk_machine { current_state_ : State; entered_ : bool; exiting_ : bool; trace : list hook_call }.
Record fsm_world : Type := mk_fsm { fsm_of : machine; client : X }.
End types.
Arguments Stop {State Event X}.
Arguments Raise {State Event X}.
Arguments Local {State Event X} f k.
Arguments Look {State Event X} k.
Arguments Ask {State Event X} e k.
Arguments Send {State Event X} e k.
Arguments Catch {State Event X} body k.
Arguments mk_transition {State Event X}.
Arguments from {State Event X}.
Arguments event {State Event X}.
Arguments to {State Event X}.
Arguments action {State Event X}.
Arguments mk_hook {State Event X}.
Arguments state {State Event X}.
Arguments on_state {State Event X}.
Arguments Enter {State} s.
Arguments Exit {State} s.
Arguments mk_machine {State}.
Arguments current_state_ {State}.
Arguments entered_ {State}.
Arguments exiting_ {State}.
Arguments trace {State}.
Arguments mk_fsm {State X}.
Arguments fsm_of {State X}.
Arguments client {State X}.

Module Fsm.
Section fsm.
  Context {State Event X : Type} `{!EqDecision State, !EqDecision Event} (h : hardening).
  Context (transitions_ : list (fsm_transition State Event X)) (entry_hooks_ exit_hooks_ : list (fsm_state_hook State Event X)).
  Abbreviation MF := (M (fsm_world State X)).
  Abbreviation code := (handler State Event X).

(** The two constructors; without hooks the tables are empty. *)
Definition fresh (initial_state : State) : machine State := mk_machine initial_state true false [].

Definition machine_do (f : machine State -> machine State) : MF unit := modify (fun w => mk_fsm (f (fsm_of w)) (client w)).
Definition set_current (s : State) : MF unit := machine_do (fun m => mk_machine s (entered_ m) (exiting_ m) (trace m)).
Definition set_entered (b : bool) : MF unit := machine_do (fun m => mk_machine (current_state_ m) b (exiting_ m) (trace m)).
Definition set_exiting (b : bool) : MF unit := machine_do (fun m => mk_machine (current_state_ m) (entered_ m) b (trace m)).
Definition log_call (c : hook_call State) : MF unit := machine_do (fun m => mk_machine (current_state_ m) (entered_ m) (exiting_ m) (c :: trace m)).

Definition current_state : MF State := get (fun w => current_state_ (fsm_of w)).
Fixpoint find_from (ts : list (fsm_transition State Event X)) (s : State) (e : Event) : option (fsm_transition State Event X) :=
  match ts with
  | [] => None
  | t :: ts' => if bool_decide (from t = s) && bool_decide (event t = e) then Some t else find_from ts' s e
  end.
Definition find_transition (s : State) (e : Event) := find_from transitions_ s e.
Definition can_dispatch (e : Event) : MF bool :=
  let! s := current_state in ret (match find_transition s e with Some _ => true | None => false end).

(** Running client code, given what dispatching means. *)
Fixpoint exec (disp : Event -> MF bool) (c : code) : MF unit :=
  match c with
  | Stop => ret tt
  | Raise => throw
  | Local f k => fun w => let x := f (client w) in exec disp (k x) (mk_fsm (fsm_of w) x)
  | Look k => let! s := current_state in exec disp (k s)
  | Ask e k => let! b := can_dispatch e in exec disp (k b)
  | Send e k => let! b := disp e in exec disp (k b)
  | Catch body k => fun w =>
      match exec disp body w with
      | Ret _ w' => exec disp (k false) w'
      | Throw w' => exec disp (k true) w'
      | Trap => Trap | Fault => Fault | Spin => Spin
      end
  end.

(** [invoke_hook] is [noexcept]: an exception that leaves it ends the program. *)
Definition terminate_on_throw (m : MF unit) : MF unit := fun w => match m w with Throw _ => Trap | r => r end.
Fixpoint hook_for (hooks : list (fsm_state_hook State Event X)) (s : State) : option (State -> code) :=
  match hooks with
  | [] => None
  | k :: hooks' => match on_state k with
                   | Some f => if bool_decide (state k = s) then Some f else hook_for hooks' s
                   | None => hook_for hooks' s
                   end
  end.
Definition invoke_hook (disp : Event -> MF bool) (hooks : list (fsm_state_hook State Event X)) (s : State) : MF unit :=
  terminate_on_throw (match hook_for hooks s with Some f => exec disp (f s) | None => ret tt end).

Fixpoint dispatch (fuel : nat) (e : Event) : MF bool :=
  match fuel with
  | O => fun _ => Spin
  | S fuel' =>
      let! exiting := get (fun w => exiting_ (fsm_of w)) in
      metl_assert h (negb exiting) ;;;
      let! s := current_state in
      match find_transition s e with
      | None => ret false
      | Some transition =>
          let! previous := current_state in
          let next := to transition in
          let! entered := get (fun w => entered_ (fsm_of w)) in
          (if entered then
             set_exiting true ;;;
             log_call (Exit previous) ;;;
             invoke_hook (dispatch fuel') exit_hooks_ previous ;;;
             set_exiting false
           else ret tt) ;;;
          set_current next ;;;
          set_entered false ;;;
          match action transition with
          | Some f => exec (dispatch fuel') (f previous e next)
          | None => ret tt
          end ;;;
          let! entered := get (fun w => entered_ (fsm_of w)) in
          let! now := current_state in
          (if negb entered && bool_decide (now = next) then
             set_entered true ;;;
             log_call (Enter next) ;;;
             invoke_hook (dispatch fuel') entry_hooks_ next
           else ret tt) ;;;
          ret true
      end
  end.

(** A program that uses the machine. *)
Definition main (fuel : nat) (c : code) : MF unit := exec (dispatch fuel) c.
End fsm.
End Fsm.

(** ** Entering and leaving *)

Section fsm_proofs.
  Import Fsm.
  Context {State Event X : Type} `{!EqDecision State, !EqDecision Event} (h : hardening) (Hh : h <> HARDENING_NONE).
  Context (transitions_ : list (fsm_transition State Event X)) (entry_hooks_ exit_hooks_ : list (fsm_state_hook State Event X)).
  Implicit Types (w : fsm_world State X) (s : State) (e : Event) (c : handler State Event X).
  Abbreviation disp := (dispatch h transitions_ entry_hooks_ exit_hooks_).

Ltac fstep := unfold current_state, set_exiting, set_current, set_entered, log_call, machine_do; mstep.
Ltac fsteps := repeat (fstep; cbn [fsm_of current_state_ entered_ exiting_ trace client negb]).

(** The state that the hooks have the machine in, if they alternate as they should:
    only the state that was entered last is left, and none is entered before that. *)
Fixpoint inside s0 (tr : list (hook_call State)) : option (option State) :=
  match tr with
  | [] => Some (Some s0)
  | call :: tr' =>
      match inside s0 tr', call with
      | Some (Some s), Exit s' => if decide (s = s') then Some None else None
      | Some None, Enter s' => Some (Some s')
      | _, _ => None
      end
  end.

Definition fsm_ok s0 w : Prop :=
  let m := fsm_of w in exiting_ m = false /\ inside s0 (trace m) = Some (if entered_ m then Some (current_state_ m) else None).

Definition ends {A : Type} (P : fsm_world State X -> Prop) (o : outcome (fsm_world State X) A) : Prop :=
  match o with Ret _ w | Throw w => P w | _ => True end.

Lemma ends_bind {A B} (P : fsm_world State X -> Prop) (m : M (fsm_world State X) A) (k : A -> M (fsm_world State X) B) w :
  ends P (m w) -> (forall a w', m w = Ret a w' -> P w' -> ends P (k a w')) -> ends P (bind m k w).
Proof. unfold bind. destruct (m w) as [a w'|w'| | |]; cbn; auto. Qed.

Lemma exec_keeps (P : fsm_world State X -> Prop) (d : Event -> M (fsm_world State X) bool) :
  (forall m x x', P (mk_fsm m x) -> P (mk_fsm m x')) -> (forall e w, P w -> ends P (d e w)) -> forall c w, P w -> ends P (exec transitions_ d c w).
Proof.
  intros Hx Hd c. induction c as [| |f k IH|k IH|e k IH|e k IH|body IHb k IH]; intros w Hw; cbn [exec]; try done.
  - apply IH. destruct w as [m x]. by apply (Hx m x).
  - fstep. by apply IH.
  - unfold can_dispatch. rewrite bind_assoc. do 2 fstep. by apply IH.
  - apply ends_bind; [by apply Hd|]. intros b w' _ Hw'. by apply IH.
  - specialize (IHb w Hw). destruct (exec transitions_ d body w) as [[] w'|w'| | |]; try done; by apply IH.
Qed.

(** While an exit hook runs, no event is dispatched. *)
Lemma exec_exiting fuel c m :
  exiting_ m = true -> forall w, fsm_of w = m -> ends (fun w' => fsm_of w' = m) (exec transitions_ (disp fuel) c w).
Proof.
  intros Hm w Hw. apply (exec_keeps (fun w => fsm_of w = m)); [done| |done]. intros e w' Hw'. destruct fuel as [|fuel]; [done|]. cbn [dispatch]. fstep.
  rewrite Hw', Hm. destruct h; [done|..]; done.
Qed.

Lemma invoke_ends (P : fsm_world State X -> Prop) d hooks s w :
  (forall c, ends P (exec transitions_ d c w)) -> P w -> match invoke_hook transitions_ d hooks s w with Ret _ w' => P w' | Throw _ => False | _ => True end.
Proof.
  intros Hc Hw. unfold invoke_hook, terminate_on_throw. destruct (hook_for hooks s) as [f|]; [|done]. specialize (Hc (f s)).
  by destruct (exec transitions_ d (f s) w).
Qed.

Lemma leaving_ends s0 fuel w s :
  fsm_ok s0 w -> current_state_ (fsm_of w) = s ->
  match (let! entered := get (fun w => entered_ (fsm_of w)) in
         if entered then set_exiting true ;;; log_call (Exit s) ;;; invoke_hook transitions_ (disp fuel) exit_hooks_ s ;;; set_exiting false else ret tt) w with
  | Ret _ w' => exiting_ (fsm_of w') = false /\ inside s0 (trace (fsm_of w')) = Some None
  | Throw _ => False
  | _ => True
  end.
Proof.
  intros [Hx Hi] <-. fstep. destruct (entered_ (fsm_of w)) eqn:He; [|done]. do 2 fstep. set (w1 := mk_fsm _ _).
  pose proof (invoke_ends (fun w' => fsm_of w' = fsm_of w1) (disp fuel) exit_hooks_ (current_state_ (fsm_of w)) w1) as Hk.
  specialize (Hk (fun c => exec_exiting fuel c (fsm_of w1) eq_refl w1 eq_refl) eq_refl). unfold bind.
  destruct (invoke_hook _ _ _ _ w1) as [[] w2|w2| | |]; try done. cbn. rewrite Hk. cbn. rewrite Hi. by rewrite decide_True.
Qed.

Lemma dispatch_ok s0 fuel : forall e w, fsm_ok s0 w -> ends (fsm_ok s0) (disp fuel e w).
Proof.
  induction fuel as [|fuel IH]; intros e w Hw; [done|]. cbn [dispatch]. fstep. rewrite (proj1 Hw). cbn [negb]. do 2 fstep.
  destruct (find_transition transitions_ _ e) as [t|]; [|done]. fstep.
  assert (forall w, fsm_ok s0 w -> forall c, ends (fsm_ok s0) (exec transitions_ (disp fuel) c w)) as Hexec
    by (intros w1 Hw1 c; apply (exec_keeps (fsm_ok s0)); [by intros|exact IH|done]).
  pose proof (leaving_ends s0 fuel w _ Hw eq_refl) as Hl. rewrite <- bind_assoc. unfold bind at 1. destruct (bind _ _ w) as [[] w1|w1| | |]; try done.
  destruct Hl as [Hx1 Hi1]. do 2 fstep. set (w2 := mk_fsm _ _). assert (fsm_ok s0 w2) as Hw2 by done. apply ends_bind.
  { destruct (action t); [by apply Hexec|done]. }
  intros [] w3 _ Hw3. do 2 fstep. destruct (negb _ && _) eqn:Eb; [|done]. apply andb_true_iff in Eb as [Ee%negb_true_iff Ec%bool_decide_eq_true_1].
  repeat fstep. set (w4 := mk_fsm _ _). assert (fsm_ok s0 w4) as Hw4.
  { destruct Hw3 as [Hx3 Hi3]. split; [done|]. cbn. rewrite Hi3, Ee. by rewrite Ec. }
  pose proof (invoke_ends (fsm_ok s0) (disp fuel) entry_hooks_ (to t) w4 (Hexec w4 Hw4) Hw4) as Hk. unfold bind.
  by destruct (invoke_hook _ _ _ _ w4).
Qed.
(** Handlers that neither dispatch nor throw, and what they do to the client's state
    while the machine is [m]. *)
Fixpoint quiet c : Prop :=
  match c with
  | Stop => True
  | Raise | Send _ _ => False
  | Local _ k => forall x, quiet (k x)
  | Look k => forall s, quiet (k s)
  | Ask _ k => forall b, quiet (k b)
  | Catch body k => quiet body /\ forall b, quiet (k b)
  end.
Definition effect (m : machine State) c (x : X) : X :=
  match exec transitions_ (fun _ => fault) c (mk_fsm m x) with Ret _ w => client w | _ => x end.

Lemma exec_quiet d d' c : quiet c -> forall w, exists x, exec transitions_ d c w = Ret tt (mk_fsm (fsm_of w) x) /\ exec transitions_ d' c w = Ret tt (mk_fsm (fsm_of w) x).
Proof.
  induction c as [| |f k IH|k IH|e k IH|e k IH|body IHb k IH]; intros Hq w; cbn [exec quiet] in *; try done.
  - exists (client w). by destruct w.
  - destruct (IH (f (client w)) (Hq _) (mk_fsm (fsm_of w) (f (client w)))) as (x & -> & ->). eauto.
  - repeat fstep. by apply IH.
  - unfold can_dispatch. repeat fstep. by apply IH.
  - destruct Hq as [Hb Hk]. destruct (IHb Hb w) as (x & -> & ->). destruct (IH false (Hk false) (mk_fsm (fsm_of w) x)) as (y & -> & ->). eauto.
Qed.
Lemma exec_effect d c m x : quiet c -> exec transitions_ d c (mk_fsm m x) = Ret tt (mk_fsm m (effect m c x)).
Proof. intros Hq. destruct (exec_quiet d (fun _ => fault) c Hq (mk_fsm m x)) as (y & -> & E). unfold effect. by rewrite E. Qed.

Definition quiet_hooks (hooks : list (fsm_state_hook State Event X)) : Prop := forall s f, hook_for hooks s = Some f -> quiet (f s).
Definition hook_code (hooks : list (fsm_state_hook State Event X)) s : handler State Event X := match hook_for hooks s with Some f => f s | None => Stop end.
Definition action_code (t : fsm_transition State Event X) s e : handler State Event X := match action t with Some f => f s e (to t) | None => Stop end.

Lemma invoke_quiet d hooks s m x : quiet_hooks hooks -> invoke_hook transitions_ d hooks s (mk_fsm m x) = Ret tt (mk_fsm m (effect m (hook_code hooks s) x)).
Proof.
  intros Hq. unfold invoke_hook, terminate_on_throw, hook_code. destruct (hook_for hooks s) as [f|] eqn:E; [|done]. by rewrite exec_effect by (by apply Hq).
Qed.

Lemma find_in (ts : list (fsm_transition State Event X)) s e t : find_from ts s e = Some t -> t ∈ ts.
Proof. induction ts as [|u ts IH]; [done|]. cbn. destruct (_ && _); [intros [= ->]; by left|]. intros ?. right. by apply IH. Qed.

(** C18. Whatever client code drives the machine, dispatching from actions and entry
    hooks to any depth, throwing and catching: the hooks alternate.  A state is left only
    if it is the one that was entered last, and none is entered while another is; and
    [entered_] and [current_state_] tell which that is.  (At a hardening level that
    checks; an exit hook that dispatches is stopped.) *)
Theorem fsm_hooks_alternate fuel c s0 x :
  ends (fun w => exiting_ (fsm_of w) = false /\
          inside s0 (trace (fsm_of w)) = Some (if entered_ (fsm_of w) then Some (current_state_ (fsm_of w)) else None))
    (main h transitions_ entry_hooks_ exit_hooks_ fuel c (mk_fsm (fresh s0) x)).
Proof. apply (exec_keeps (fsm_ok s0)); [by intros|apply dispatch_ok|done]. Qed.

(** With handlers that do not dispatch, an event without a rule for the current state
    changes nothing and is answered false.  With one, the exit hook of the old state,
    then the action of the first such rule, given both states and the event, then the
    entry hook of the new state run, in this order; the action and the entry hook see
    the new state, the exit hook the old one; and the machine is in the new state. *)
Theorem fsm_dispatch_exact fuel e s tr x :
  quiet_hooks entry_hooks_ -> quiet_hooks exit_hooks_ ->
  (forall t f, t ∈ transitions_ -> action t = Some f -> forall a b d, quiet (f a b d)) ->
  disp (S fuel) e (mk_fsm (mk_machine s true false tr) x) =
  match find_transition transitions_ s e with
  | None => Ret false (mk_fsm (mk_machine s true false tr) x)
  | Some t =>
      let x1 := effect (mk_machine s true true (Exit s :: tr)) (hook_code exit_hooks_ s) x in
      let x2 := effect (mk_machine (to t) false false (Exit s :: tr)) (action_code t s e) x1 in
      let x3 := effect (mk_machine (to t) true false (Enter (to t) :: Exit s :: tr)) (hook_code entry_hooks_ (to t)) x2 in
      Ret true (mk_fsm (mk_machine (to t) true false (Enter (to t) :: Exit s :: tr)) x3)
  end.
Proof.
  intros Hen Hex Hac. cbn [dispatch]. fsteps. destruct (find_transition transitions_ s e) as [t|] eqn:Et; [|done].
  assert (t ∈ transitions_) as Hin.
  { by apply (find_in transitions_ s e). }
  fsteps.
  rewrite (bind_Ret _ _ _ _ _ (invoke_quiet (disp fuel) exit_hooks_ s _ x Hex)). fsteps.
  set (x1 := effect _ (hook_code exit_hooks_ s) x). set (m2 := mk_machine (to t) false false (Exit s :: tr)).
  assert (match action t with Some f => exec transitions_ (disp fuel) (f s e (to t)) | None => ret tt end (mk_fsm m2 x1) = Ret tt (mk_fsm m2 (effect m2 (action_code t s e) x1))) as Ea.
  { unfold action_code. destruct (action t) as [f|] eqn:Ef; [|done]. apply exec_effect. by apply (Hac t). }
  rewrite (bind_Ret _ _ _ _ _ Ea). fsteps. cbn [fsm_of current_state_ entered_ m2 negb andb]. rewrite bool_decide_eq_true_2 by done.
  fsteps.
  by rewrite (bind_Ret _ _ _ _ _ (invoke_quiet (disp fuel) entry_hooks_ (to t) _ _ Hen)).
Qed.
End fsm_proofs.

Definition add_table : list (fsm_transition nat nat nat) :=
  [mk_transition 0%nat 7%nat 1%nat (Some (fun a b c => Local (fun x => x + a + b + c)%nat (fun _ => Stop)))].

(** States 0, 1, 2; the action of [0 -> 1] dispatches [1 -> 2]: the machine leaves 0 and
    enters 2, and the state between is never entered. *)
Definition chain_table : list (fsm_transition nat nat nat) :=
  [mk_transition 0%nat 0%nat 1%nat (Some (fun _ _ _ => Send 1%nat (fun _ => Stop))); mk_transition 1%nat 1%nat 2%nat None].

Lemma fsm_hooks_alternate_witness :
  exists w, Fsm.main HARDENING_FAST chain_table [] [] 4 (Send 0%nat (fun _ => Stop)) (mk_fsm (Fsm.fresh 0%nat) 0%nat) = Ret tt w /\
    trace (fsm_of w) = [Enter 2%nat; Exit 0%nat] /\ inside 0%nat (trace (fsm_of w)) = Some (Some 2%nat).
Proof.
  assert (HARDENING_FAST <> HARDENING_NONE) as Hn by discriminate.
  pose proof (fsm_hooks_alternate HARDENING_FAST Hn chain_table [] [] 4 (Send 0%nat (fun _ => Stop)) 0%nat 0%nat) as Hw.
  vm_compute in Hw. eexists. split; [reflexivity|]. split; [reflexivity|]. exact (proj2 Hw).
Defined.

Lemma fsm_dispatch_exact_witness :
  Fsm.dispatch HARDENING_FAST add_table [] [] 1 7%nat
    (mk_fsm (mk_machine 0%nat true false []) 0%nat) = Ret true (mk_fsm (mk_machine 1%nat true false [Enter 1%nat; Exit 0%nat]) 8%nat).
Proof.
  rewrite (fsm_dispatch_exact HARDENING_FAST add_table [] [] 0 7%nat 0%nat [] 0%nat); [reflexivity|intros ? ? [=]|intros ? ? [=]|].
  intros t f Ht. apply list_elem_of_singleton in Ht as ->. intros [= <-] a b d x. exact I.
Defined.
