(* ===== verification/Dispatcher.v ===== *)
(** * [event_dispatcher]

    [include/metl/event_dispatcher.hpp]: an event for every listener.  A delegate is a
    value of [L], with the code that it runs on an event of type [A]; that code may
    subscribe, unsubscribe and dispatch on the same dispatcher, throw and catch.
    Dispatches nest as deep as the fuel of [dispatch] allows. *)

From Stdlib Require Import ZArith Lia.
From stdpp Require Import base numbers list option tactics.
From S2P Require Import Prelude Text.
Local Open Scope Z_scope.

Section types.
  Context (L A X : Type).

(** Code of the client, whose own state is of type [X]. *)
Inductive listening : Type :=
  | LStop
  | LRaise
  | LLocal (f : X -> X) (k : X -> listening)
  | LSubscribe (listener : option L) (k : option Z -> listening)
  | LUnsubscribe (id : Z) (k : bool -> listening)
  | LClear (k : listening)
  | LSize (k : Z -> listening)
  | LDispatch (a : A) (k : listening)
  | LCatch (body : listening) (k : bool -> listening).

(** [slot]; an empty delegate is [None]. *)
Record eslot : Type := mk_eslot { id : Z; listener : option L }.
(** For the theorems: the number of events so far, the log of calls, each with the number
    of its event, and whether the ids have run through their 64 bits. *)
Record dispatcher : Type := mk_dispatcher { next_id_ : Z; slots_ : list eslot; events : nat; calls_log : list (nat * Z); wrapped : bool }.
Record dworld_of : Type := mk_dw { disp_of : dispatcher; own : X }.
End types.
Arguments LStop {L A X}.
Arguments LRaise {L A X}.
Arguments LLocal {L A X} f k.
Arguments LSubscribe {L A X} listener k.
Arguments LUnsubscribe {L A X} id k.
Arguments LClear {L A X} k.
Arguments LSize {L A X} k.
Arguments LDispatch {L A X} a k.
Arguments LCatch {L A X} body k.
Arguments mk_eslot {L}.
Arguments id {L}.
Arguments listener {L}.
Arguments mk_dispatcher {L}.
Arguments next_id_ {L}.
Arguments slots_ {L}.
Arguments events {L}.
Arguments calls_log {L}.
Arguments wrapped {L}.
Arguments mk_dw {L X}.
Arguments disp_of {L X}.
Arguments own {L X}.

Module Dispatcher.
Section dispatcher.
  Context {L A X : Type} (Capacity : nat) (body : L -> A -> listening L A X).
  Abbreviation MD := (M (dworld_of L X)).

Definition id_bits : Z := 64.
Definition free_slot : eslot L := mk_eslot 0 None.
Definition fresh : dispatcher L := mk_dispatcher 1 (replicate Capacity free_slot) 0 [] false.

Definition the {B : Type} (f : dispatcher L -> B) : MD B := get (fun w => f (disp_of w)).
Definition disp_do (f : dispatcher L -> dispatcher L) : MD unit := modify (fun w => mk_dw (f (disp_of w)) (own w)).
Definition slot_at (i : nat) : MD (eslot L) := fun w => match slots_ (disp_of w) !! i with Some s => Ret s w | None => Fault end.
Definition set_slot (i : nat) (s : eslot L) : MD unit := fun w =>
  match slots_ (disp_of w) !! i with
  | Some _ => disp_do (fun d => mk_dispatcher (next_id_ d) (<[i := s]> (slots_ d)) (events d) (calls_log d) (wrapped d)) w
  | None => Fault
  end.
Definition set_next (n : Z) : MD unit := disp_do (fun d => mk_dispatcher n (slots_ d) (events d) (calls_log d) (wrapped d)).

Definition mark_wrapped : MD unit := disp_do (fun d => mk_dispatcher (next_id_ d) (slots_ d) (events d) (calls_log d) true).

(** The loops run [i] from [Capacity - n] up. *)
Fixpoint subscribe_from (n i : nat) (listener : L) : MD (option Z) :=
  match n with
  | O => ret None
  | S n' =>
      let! s := slot_at i in
      if id s =? 0 then
        set_slot i (mk_eslot (id s) (Some listener)) ;;;
        let! n := the next_id_ in
        set_next (to_unsigned id_bits (n + 1)) ;;;
        set_slot i (mk_eslot n (Some listener)) ;;;
        let! next := the next_id_ in
        (if next =? 0 then set_next 1 ;;; mark_wrapped else ret tt) ;;;
        let! s := slot_at i in
        ret (Some (id s))
      else subscribe_from n' (S i) listener
  end.
Definition try_subscribe (listener : option L) : MD (option Z) :=
  match listener with None => ret None | Some l => subscribe_from Capacity 0 l end.
Definition subscribe (listener : option L) : MD (option Z) := try_subscribe listener.

Fixpoint unsubscribe_from (n i : nat) (x : Z) : MD bool :=
  match n with
  | O => ret false
  | S n' =>
      let! s := slot_at i in
      if id s =? x then set_slot i (mk_eslot 0 (listener s)) ;;; set_slot i (mk_eslot 0 None) ;;; ret true
      else unsubscribe_from n' (S i) x
  end.
Definition unsubscribe (x : Z) : MD bool := if x =? 0 then ret false else unsubscribe_from Capacity 0 x.

Fixpoint clear_from (n i : nat) : MD unit :=
  match n with
  | O => ret tt
  | S n' => let! s := slot_at i in set_slot i (mk_eslot 0 (listener s)) ;;; set_slot i (mk_eslot 0 None) ;;; clear_from n' (S i)
  end.
Definition clear : MD unit := clear_from Capacity 0.

Definition capacity : Z := Z.of_nat Capacity.
Fixpoint size_from (n i : nat) (count : Z) : MD Z :=
  match n with
  | O => ret count
  | S n' => let! s := slot_at i in size_from n' (S i) (if id s =? 0 then count else count + 1)
  end.
Definition size : MD Z := size_from Capacity 0 0.
Definition empty : MD bool := let! n := size in ret (n =? 0).

(** Running client code, given what dispatching means. *)
Fixpoint exec (disp : A -> MD unit) (c : listening L A X) : MD unit :=
  match c with
  | LStop => ret tt
  | LRaise => throw
  | LLocal f k => fun w => let x := f (own w) in exec disp (k x) (mk_dw (disp_of w) x)
  | LSubscribe l k => let! r := try_subscribe l in exec disp (k r)
  | LUnsubscribe x k => let! b := unsubscribe x in exec disp (k b)
  | LClear k => clear ;;; exec disp k
  | LSize k => let! n := size in exec disp (k n)
  | LDispatch a k => disp a ;;; exec disp k
  | LCatch c' k => fun w =>
      match exec disp c' w with
      | Ret _ w' => exec disp (k false) w'
      | Throw w' => exec disp (k true) w'
      | Trap => Trap | Fault => Fault | Spin => Spin
      end
  end.

(** [slots_[i].listener(args...)], with [METL_HARDEN] of the delegate. *)
Definition call_listener (disp : A -> MD unit) (event : nat) (i : nat) (a : A) : MD unit :=
  let! s := slot_at i in
  disp_do (fun d => mk_dispatcher (next_id_ d) (slots_ d) (events d) ((event, id s) :: calls_log d) (wrapped d)) ;;;
  match listener s with Some l => exec disp (body l a) | None => metl_harden false end.

Fixpoint dispatch_from (disp : A -> MD unit) (n i : nat) (event : nat) (first_unheard : Z) (a : A) : MD unit :=
  match n with
  | O => ret tt
  | S n' =>
      let! s := slot_at i in
      (if negb (id s =? 0) && (id s <? first_unheard) then call_listener disp event i a else ret tt) ;;;
      dispatch_from disp n' (S i) event first_unheard a
  end.
Fixpoint dispatch (fuel : nat) (a : A) : MD unit :=
  match fuel with
  | O => fun _ => Spin
  | S fuel' =>
      let! first_unheard := the next_id_ in
      let! event := the events in
      disp_do (fun d => mk_dispatcher (next_id_ d) (slots_ d) (S (events d)) (calls_log d) (wrapped d)) ;;;
      dispatch_from (dispatch fuel') Capacity 0 event first_unheard a
  end.

(** A program that uses the dispatcher. *)
Definition main (fuel : nat) (c : listening L A X) : MD unit := exec (dispatch fuel) c.
End dispatcher.
End Dispatcher.

(** ** Who hears an event *)

Section dispatcher_proofs.
  Import Dispatcher.
  Context {L A X : Type} (Capacity : nat) (body : L -> A -> listening L A X).
  Implicit Types (d : dispatcher L) (w : dworld_of L X) (s : eslot L) (i j : nat) (x : Z).

Record disp_ok d : Prop := {
  ok_length : length (slots_ d) = Capacity;
  ok_bound : forall i s, slots_ d !! i = Some s -> id s <> 0 -> is_Some (listener s);
  ok_log : Forall (fun c => (c.1 < events d)%nat) (calls_log d);
  ok_ids : wrapped d = false -> 1 <= next_id_ d < 2 ^ 64 /\
    (forall i s, slots_ d !! i = Some s -> 0 <= id s < next_id_ d) /\
    (forall i j s s', slots_ d !! i = Some s -> slots_ d !! j = Some s' -> id s = id s' -> id s <> 0 -> i = j) }.

(** A slot keeps its listener, or is freed, or has one that was subscribed since. *)
Record evolves d d' : Prop := {
  later_wrapped : wrapped d = true -> wrapped d' = true;
  later_next : wrapped d' = false -> next_id_ d <= next_id_ d';
  later_slots : wrapped d' = false -> forall i s s', slots_ d !! i = Some s -> slots_ d' !! i = Some s' -> id s' = id s \/ id s' = 0 \/ next_id_ d <= id s';
  later_events : (events d <= events d')%nat }.
(** And only calls for later events were logged. *)
Definition later d d' : Prop := evolves d d' /\ exists new, calls_log d' = new ++ calls_log d /\ Forall (fun c => (events d <= c.1)%nat) new.

Definition keeps {B : Type} (m : M (dworld_of L X) B) : Prop := forall w, disp_ok (disp_of w) ->
  match m w with
  | Ret _ w' | Throw w' => disp_ok (disp_of w') /\ later (disp_of w) (disp_of w')
  | Spin => True
  | _ => False
  end.

Lemma evolves_refl d : evolves d d.
Proof. split; try done. intros _ i s s' -> [= <-]; by left. Qed.
Lemma dlater_refl d : later d d.
Proof. split; [apply evolves_refl|]. by exists []. Qed.
Lemma evolves_trans d1 d2 d3 : disp_ok d2 -> length (slots_ d1) = Capacity -> evolves d1 d2 -> evolves d2 d3 -> evolves d1 d3.
Proof.
  intros Hok Hlen [W1 N1 S1 E1] [W2 N2 S2 E2].
  assert (wrapped d3 = false -> wrapped d2 = false) as Hw by (intros H3; destruct (wrapped d2) eqn:E; [rewrite W2 in H3; done|done]).
  split; [auto| | |lia].
  - intros H3. specialize (N1 (Hw H3)). specialize (N2 H3). lia.
  - intros H3 i s s' Hs Hs'. assert (is_Some (slots_ d2 !! i)) as [s2 Hs2].
    { apply lookup_lt_is_Some. rewrite (ok_length _ Hok), <- Hlen. by eapply lookup_lt_Some. }
    specialize (N1 (Hw H3)). destruct (S2 H3 i s2 s' Hs2 Hs') as [->|[?|?]]; [|by right; left|right; right; lia]. by apply (S1 (Hw H3) i).
Qed.
Lemma dlater_trans d1 d2 d3 : disp_ok d2 -> length (slots_ d1) = Capacity -> later d1 d2 -> later d2 d3 -> later d1 d3.
Proof.
  intros Hok Hlen [H1 (n1 & L1 & F1)] [H2 (n2 & L2 & F2)]. split; [by apply (evolves_trans _ d2)|].
  exists (n2 ++ n1). split; [by rewrite L2, L1, app_assoc|]. apply Forall_app. split; [|done]. eapply Forall_impl; [|exact F2]. cbn. intros c Hc.
  pose proof (later_events _ _ H1). lia.
Qed.

Lemma keeps_ret {B} (b : B) : keeps (ret b).
Proof. intros w Hw. split; [done|apply dlater_refl]. Qed.
Lemma keeps_bind {B C} (m : M (dworld_of L X) B) (k : B -> M (dworld_of L X) C) : keeps m -> (forall b, keeps (k b)) -> keeps (bind m k).
Proof.
  intros Hm Hk w Hw. specialize (Hm w Hw). unfold bind. destruct (m w) as [b w1|w1| | |]; try done. destruct Hm as [Hw1 H1]. specialize (Hk b w1 Hw1).
  destruct (k b w1) as [c w2|w2| | |]; try done; destruct Hk as [Hw2 H2]; (split; [done|]); by apply (dlater_trans _ (disp_of w1)); [..|apply (ok_length _ Hw)| |].
Qed.

(** *** Subscribing *)

Definition with_slot i s (d : dispatcher L) : dispatcher L := mk_dispatcher (next_id_ d) (<[i := s]> (slots_ d)) (events d) (calls_log d) (wrapped d).
Definition subscribed i (l : L) (d : dispatcher L) : dispatcher L :=
  let n := to_unsigned id_bits (next_id_ d + 1) in
  mk_dispatcher (if n =? 0 then 1 else n) (<[i := mk_eslot (next_id_ d) (Some l)]> (slots_ d)) (events d) (calls_log d) (if n =? 0 then true else wrapped d).

Lemma set_slot_ends i s s' w : slots_ (disp_of w) !! i = Some s' -> set_slot i s w = Ret tt (mk_dw (with_slot i s (disp_of w)) (own w)).
Proof. intros E. unfold set_slot. by rewrite E. Qed.
Lemma slot_at_ends i s w : slots_ (disp_of w) !! i = Some s -> slot_at i w = Ret s w.
Proof. intros E. unfold slot_at. by rewrite E. Qed.

Lemma subscribe_here i s l w :
  slots_ (disp_of w) !! i = Some s -> id s = 0 -> subscribe_from (S (Capacity - S i)) i l w = Ret (Some (next_id_ (disp_of w))) (mk_dw (subscribed i l (disp_of w)) (own w)).
Proof.
  intros Hs Hid. cbn [subscribe_from]. rewrite (bind_Ret _ _ _ _ _ (slot_at_ends i s w Hs)), Hid. cbn [Z.eqb].
  assert (i < length (slots_ (disp_of w)))%nat as Hi by (by eapply lookup_lt_Some).
  rewrite (bind_Ret _ _ _ _ _ (set_slot_ends i _ s w Hs)). unfold the, set_next, mark_wrapped, disp_do. do 2 mstep. cbn [disp_of next_id_ with_slot own].
  erewrite bind_Ret; [|apply (set_slot_ends i _ (mk_eslot 0 (Some l))); cbn; by apply list_lookup_insert_eq]. mstep. cbn [disp_of next_id_ with_slot own slots_].
  unfold subscribed. destruct (_ =? 0) eqn:E; repeat mstep; unfold slot_at; cbn [disp_of slots_ with_slot]; unfold bind; cbn [disp_of slots_ with_slot own next_id_ events calls_log];
    rewrite list_lookup_insert_eq by (by rewrite length_insert); unfold with_slot; cbn [slots_]; by rewrite list_insert_insert_eq.
Qed.
(** The first free slot from [i] on, if there is one. *)
Lemma subscribe_from_ends l w : length (slots_ (disp_of w)) = Capacity -> forall n i, (i + n = Capacity)%nat ->
  (subscribe_from n i l w = Ret None w /\ forall j s, (i <= j)%nat -> slots_ (disp_of w) !! j = Some s -> id s <> 0) \/
  (exists j s, (i <= j)%nat /\ slots_ (disp_of w) !! j = Some s /\ id s = 0 /\ (forall k s', (i <= k < j)%nat -> slots_ (disp_of w) !! k = Some s' -> id s' <> 0) /\
    subscribe_from n i l w = Ret (Some (next_id_ (disp_of w))) (mk_dw (subscribed j l (disp_of w)) (own w))).
Proof.
  intros Hlen. induction n as [|n IH]; intros i Hi.
  - left. split; [done|]. intros j s Hj Hs. apply lookup_lt_Some in Hs. lia.
  - assert (is_Some (slots_ (disp_of w) !! i)) as [s Hs] by (apply lookup_lt_is_Some; lia). destruct (decide (id s = 0)) as [E|E].
    + right. exists i, s. split_and!; [done|done|done|intros; lia|]. replace (S n) with (S (Capacity - S i)) by lia. by apply (subscribe_here i s).
    + cbn [subscribe_from]. rewrite (bind_Ret _ _ _ _ _ (slot_at_ends i s w Hs)), (proj2 (Z.eqb_neq (id s) 0) E).
      destruct (IH (S i) ltac:(lia)) as [[-> Hn]|(j & s' & Hj & Hs' & E' & Hb & ->)].
      * left. split; [done|]. intros j s' Hj Hs'. destruct (decide (j = i)) as [->|]; [congruence|]. apply (Hn j); [lia|done].
      * right. exists j, s'. split_and!; [lia|done|done| |done]. intros k u Hk Hu. destruct (decide (k = i)) as [->|]; [congruence|]. apply (Hb k); [lia|done].
Qed.

Lemma subscribed_ok j s l d : disp_ok d -> slots_ d !! j = Some s -> id s = 0 -> disp_ok (subscribed j l d) /\ later d (subscribed j l d).
Proof.
  intros Hok Hs Hid. assert (j < length (slots_ d))%nat as Hj by (by eapply lookup_lt_Some).
  assert (forall i u, slots_ (subscribed j l d) !! i = Some u -> i = j /\ u = mk_eslot (next_id_ d) (Some l) \/ i <> j /\ slots_ d !! i = Some u) as Hlook.
  { intros i u. cbn [slots_ subscribed]. destruct (decide (i = j)) as [->|Hne]; [rewrite list_lookup_insert_eq by done; intros [= <-]; by left|].
    rewrite list_lookup_insert_ne by done. by right. }
  assert (wrapped (subscribed j l d) = false -> wrapped d = false /\ next_id_ (subscribed j l d) = next_id_ d + 1) as Hw.
  { cbn. intros Hf. destruct (_ =? 0) eqn:E; [done|]. split; [done|]. apply Z.eqb_neq in E. destruct (ok_ids _ Hok Hf) as [Hn _]. unfold to_unsigned, id_bits in *.
    destruct (decide (next_id_ d + 1 = 2 ^ 64)) as [E2|]; [rewrite E2, Z_mod_same_full in E; done|]. by rewrite Z.mod_small by lia. }
  split; split.
  - cbn. rewrite length_insert. apply (ok_length _ Hok).
  - intros i u [[-> ->]|[_ Hu]]%Hlook Hne; [done|]. by apply (ok_bound _ Hok i).
  - apply (ok_log _ Hok).
  - intros [Hf En]%Hw. destruct (ok_ids _ Hok Hf) as (Hn & Hr & Hd). rewrite En. assert (1 <= next_id_ d + 1 < 2 ^ 64) as Hb.
    { split; [lia|]. rewrite <- En. cbn. destruct (_ =? 0); [done|]. apply Z.mod_pos_bound. done. }
    split_and!; [lia|lia| |].
    + intros i u [[-> ->]|[_ Hu]]%Hlook; [cbn; lia|]. specialize (Hr i u Hu). lia.
    + intros i k u v [[-> ->]|[Hi Hu]]%Hlook [[-> ->]|[Hk Hv]]%Hlook E Hne; cbn in *; [done| | |by apply (Hd i k u v)].
      * specialize (Hr k v Hv). lia.
      * specialize (Hr i u Hu). lia.
  - split; [cbn; intros ->; by destruct (_ =? 0)|intros [Hf En]%Hw; lia| |done].
    intros Hf i u v Hu [[-> ->]|[_ Hv]]%Hlook; [right; right; cbn; lia|]. left. congruence.
  - by exists [].
Qed.
Lemma keeps_subscribe o : keeps (try_subscribe Capacity o).
Proof.
  destruct o as [l|]; [|apply keeps_ret]. intros w Hw. cbn [try_subscribe].
  destruct (subscribe_from_ends l w (ok_length _ Hw) Capacity 0 ltac:(lia)) as [[-> _]|(j & s & _ & Hs & Hid & _ & ->)]; [split; [done|apply dlater_refl]|].
  by apply (subscribed_ok j s).
Qed.

(** *** Unsubscribing *)

Lemma freed_ok i s d : disp_ok d -> slots_ d !! i = Some s -> disp_ok (with_slot i free_slot d) /\ later d (with_slot i free_slot d).
Proof.
  intros Hok Hs. assert (i < length (slots_ d))%nat as Hi by (by eapply lookup_lt_Some).
  assert (forall k u, slots_ (with_slot i free_slot d) !! k = Some u -> u = free_slot \/ slots_ d !! k = Some u) as Hlook.
  { intros k u. cbn. destruct (decide (k = i)) as [->|]; [rewrite list_lookup_insert_eq by done; intros [= <-]; by left|]. rewrite list_lookup_insert_ne by done. by right. }
  split; split.
  - cbn. rewrite length_insert. apply (ok_length _ Hok).
  - intros k u [->|Hu]%Hlook Hne; [done|]. by apply (ok_bound _ Hok k).
  - apply (ok_log _ Hok).
  - intros Hf. destruct (ok_ids _ Hok Hf) as (Hn & Hr & Hd). split; [exact Hn|]. split.
    + intros k u [->|Hu]%Hlook; [cbn; lia|]. by apply (Hr k).
    + intros k m u v [->|Hu]%Hlook [->|Hv]%Hlook E Hne; cbn in *; try done. by apply (Hd k m u v).
  - split; try done. intros _ k u v Hu [->|Hv]%Hlook; [by right; left|]. left. congruence.
  - by exists [].
Qed.
Lemma free_ends i s w :
  slots_ (disp_of w) !! i = Some s -> forall B (k : M (dworld_of L X) B),
  (set_slot i (mk_eslot 0 (listener s)) ;;; set_slot i (mk_eslot 0 None) ;;; k) w = k (mk_dw (with_slot i free_slot (disp_of w)) (own w)).
Proof.
  intros Hs B k. assert (i < length (slots_ (disp_of w)))%nat as Hi by (by eapply lookup_lt_Some). rewrite (bind_Ret _ _ _ _ _ (set_slot_ends i _ s w Hs)).
  erewrite bind_Ret; [|apply (set_slot_ends i _ (mk_eslot 0 (listener s))); cbn; by apply list_lookup_insert_eq].
  cbn [disp_of own]. unfold with_slot. cbn [slots_ next_id_ events calls_log wrapped]. by rewrite list_insert_insert_eq.
Qed.
Lemma keeps_unsubscribe x : keeps (unsubscribe Capacity x).
Proof.
  unfold unsubscribe. destruct (x =? 0); [apply keeps_ret|]. intros w Hw. assert (forall n i, (i + n = Capacity)%nat ->
    unsubscribe_from n i x w = Ret false w \/ exists j s, slots_ (disp_of w) !! j = Some s /\ unsubscribe_from n i x w = Ret true (mk_dw (with_slot j free_slot (disp_of w)) (own w))) as Hends.
  { pose proof (ok_length _ Hw) as Hlen. induction n as [|n IH]; intros i Hi; [by left|]. assert (is_Some (slots_ (disp_of w) !! i)) as [s Hs] by (apply lookup_lt_is_Some; lia).
    cbn [unsubscribe_from]. rewrite (bind_Ret _ _ _ _ _ (slot_at_ends i s w Hs)). destruct (id s =? x); [|apply IH; lia]. right. exists i, s. by rewrite (free_ends i s w Hs). }
  destruct (Hends Capacity 0%nat ltac:(lia)) as [->|(j & s & Hs & ->)]; [split; [done|apply dlater_refl]|]. by apply (freed_ok j s).
Qed.
Lemma keeps_clear : keeps (clear Capacity).
Proof.
  unfold clear. assert (forall n i, (i + n = Capacity)%nat -> keeps (clear_from (L := L) (X := X) n i)) as Hc; [|by apply Hc].
  induction n as [|n IH]; intros i Hi; [apply keeps_ret|]. intros w Hw. pose proof (ok_length _ Hw) as Hlen.
  assert (is_Some (slots_ (disp_of w) !! i)) as [s Hs] by (apply lookup_lt_is_Some; lia).
  cbn [clear_from]. rewrite (bind_Ret _ _ _ _ _ (slot_at_ends i s w Hs)), (free_ends i s w Hs). destruct (freed_ok i s _ Hw Hs) as [Hw1 H1].
  specialize (IH (S i) ltac:(lia) (mk_dw (with_slot i free_slot (disp_of w)) (own w)) Hw1).
  destruct (clear_from n (S i) _) as [[] w2|w2| | |]; try done; destruct IH as [Hw2 H2]; (split; [done|]); by apply (dlater_trans _ (with_slot i free_slot (disp_of w))).
Qed.
Lemma keeps_size : keeps (size Capacity).
Proof.
  unfold size. assert (forall n i c, (i + n = Capacity)%nat -> keeps (size_from (L := L) (X := X) n i c)) as Hc; [|by apply Hc].
  induction n as [|n IH]; intros i c Hi; [apply keeps_ret|]. intros w Hw. pose proof (ok_length _ Hw) as Hlen.
  assert (is_Some (slots_ (disp_of w) !! i)) as [s Hs] by (apply lookup_lt_is_Some; lia).
  cbn [size_from]. rewrite (bind_Ret _ _ _ _ _ (slot_at_ends i s w Hs)). apply IH; [lia|done].
Qed.

Lemma keeps_exec (disp : A -> M (dworld_of L X) unit) (c : listening L A X) : (forall a, keeps (disp a)) -> keeps (exec Capacity disp c).
Proof.
  intros Hd. induction c as [| |f k IH|o k IH|x k IH|k IH|k IH|a k IH|c IHc k IH]; cbn [exec].
  - apply keeps_ret.
  - intros w Hw. split; [done|apply dlater_refl].
  - intros w Hw. by apply (IH _ (mk_dw (disp_of w) (f (own w)))).
  - apply keeps_bind; [apply keeps_subscribe|done].
  - apply keeps_bind; [apply keeps_unsubscribe|done].
  - apply keeps_bind; [apply keeps_clear|done].
  - apply keeps_bind; [apply keeps_size|done].
  - apply keeps_bind; [apply Hd|done].
  - intros w Hw. specialize (IHc w Hw). destruct (exec Capacity disp c w) as [[] w1|w1| | |]; try done; destruct IHc as [Hw1 H1].
    + specialize (IH false w1 Hw1). destruct (exec Capacity disp (k false) w1) as [[] w2|w2| | |]; try done; destruct IH as [Hw2 H2]; (split; [done|]);
        by apply (dlater_trans _ (disp_of w1)); [..|apply (ok_length _ Hw)| |].
    + specialize (IH true w1 Hw1). destruct (exec Capacity disp (k true) w1) as [[] w2|w2| | |]; try done; destruct IH as [Hw2 H2]; (split; [done|]);
        by apply (dlater_trans _ (disp_of w1)); [..|apply (ok_length _ Hw)| |].
Qed.
(** *** Dispatching *)

(** The ids that heard the event [n], in order. *)
Definition heard (n : nat) d : list Z := rev (snd <$> filter (fun c => c.1 = n) (calls_log d)).

Lemma heard_later n d d' : later d d' -> (n < events d)%nat -> heard n d' = heard n d.
Proof.
  intros [_ (new & E & Hnew)] Hn. unfold heard. rewrite E, list.filter_app.
  replace (filter (fun c => c.1 = n) new) with (@nil (nat * Z)); [done|]. symmetry. clear -Hnew Hn. induction Hnew as [|c new Hc _ IH]; [done|].
  rewrite filter_cons_False; [done|]. lia.
Qed.
Definition logged (event : nat) x (d : dispatcher L) : dispatcher L := mk_dispatcher (next_id_ d) (slots_ d) (events d) ((event, x) :: calls_log d) (wrapped d).
Lemma heard_logged n x d : heard n (logged n x d) = heard n d ++ [x].
Proof. unfold heard. cbn [calls_log logged]. rewrite filter_cons_True by done. cbn. done. Qed.
Lemma logged_ok n x d : disp_ok d -> (n < events d)%nat -> disp_ok (logged n x d).
Proof. intros [] Hn. split; try done. by constructor. Qed.

Lemma logged_later d0 x d : later d0 d -> later d0 (logged (events d0) x d).
Proof. intros [[] (new & E & Hnew)]. split; [by split|]. exists ((events d0, x) :: new). split; [cbn; by rewrite E|]. by constructor. Qed.

(** What the loop does with the slots from [i] on, for the event that began in [d0]. *)
Definition loop_end d0 (i : nat) d d' : Prop :=
  disp_ok d' /\ later d0 d' /\ evolves d d' /\
  (wrapped d' = false -> exists cs, heard (events d0) d' = heard (events d0) d ++ cs /\
     sublist cs (filter (fun x => x <> 0) (id <$> drop i (slots_ d0))) /\
     forall j s s', (i <= j)%nat -> slots_ d0 !! j = Some s -> id s <> 0 -> slots_ d' !! j = Some s' -> id s' = id s -> id s ∈ cs).

(** A slot that holds the same id before and after held it in between. *)
Lemma still_there d0 d d' i s0 s s' :
  disp_ok d0 -> evolves d0 d -> evolves d d' -> wrapped d' = false -> slots_ d0 !! i = Some s0 -> slots_ d !! i = Some s -> slots_ d' !! i = Some s' ->
  id s0 <> 0 -> id s' = id s0 -> id s = id s0 /\ id s0 < next_id_ d0.
Proof.
  intros H0 E0 E1 Hf Hs0 Hs Hs' Hne E. assert (wrapped d = false) as Hfd by (destruct (wrapped d) eqn:Ed; [rewrite (later_wrapped _ _ E1) in Hf; done|done]).
  assert (wrapped d0 = false) as Hf0 by (destruct (wrapped d0) eqn:Ed; [rewrite (later_wrapped _ _ E0) in Hfd; done|done]).
  destruct (ok_ids _ H0 Hf0) as (_ & Hr & _). specialize (Hr i s0 Hs0). pose proof (later_next _ _ E0 Hfd).
  destruct (later_slots _ _ E1 Hf i s s' Hs Hs') as [?|[?|?]]; [split; lia|lia|lia].
Qed.

Lemma dispatch_loop disp a d0 : (forall a, keeps (disp a)) -> disp_ok d0 -> forall n i w,
  (i + n = Capacity)%nat -> disp_ok (disp_of w) -> later d0 (disp_of w) -> (events d0 < events (disp_of w))%nat ->
  match dispatch_from Capacity body disp n i (events d0) (next_id_ d0) a w with
  | Ret _ w' => loop_end d0 i (disp_of w) (disp_of w')
  | Throw w' => disp_ok (disp_of w') /\ later d0 (disp_of w')
  | Spin => True
  | _ => False
  end.
Proof.
  intros Hd H0. induction n as [|n IH]; intros i w Hi Hw Hl Hev.
  - split_and!; [done|done|apply evolves_refl|]. intros _. exists []. rewrite app_nil_r. split_and!; [done|apply sublist_nil_l|].
    intros j s s' Hj Hs. apply lookup_lt_Some in Hs. rewrite (ok_length _ H0) in Hs. lia.
  - assert (is_Some (slots_ (disp_of w) !! i)) as [s Hs] by (apply lookup_lt_is_Some; rewrite (ok_length _ Hw); lia).
    assert (is_Some (slots_ d0 !! i)) as [s0 Hs0] by (apply lookup_lt_is_Some; rewrite (ok_length _ H0); lia).
    cbn [dispatch_from]. rewrite (bind_Ret _ _ _ _ _ (slot_at_ends i s w Hs)).
    assert (drop i (slots_ d0) = s0 :: drop (S i) (slots_ d0)) as Edrop by (by apply drop_S).
    destruct (negb (id s =? 0) && (id s <? next_id_ d0)) eqn:Eb.
    + apply andb_true_iff in Eb as [Ene%negb_true_iff%Z.eqb_neq Elt%Z.ltb_lt]. unfold call_listener. rewrite bind_assoc.
      rewrite (bind_Ret _ _ _ _ _ (slot_at_ends i s w Hs)). unfold disp_do. rewrite bind_assoc. mstep.
      destruct (ok_bound _ Hw i s Hs Ene) as [l ->]. set (w1 := mk_dw _ _). assert (disp_of w1 = logged (events d0) (id s) (disp_of w)) as E1 by done.
      assert (disp_ok (disp_of w1)) as Hw1 by (rewrite E1; by apply logged_ok).
      pose proof (keeps_exec disp (body l a) Hd w1 Hw1) as Hk. unfold bind at 1.
      assert (later d0 (disp_of w1)) as Hl1 by (rewrite E1; by apply logged_later). pose proof (ok_length _ H0) as Hlen.
      destruct (exec Capacity disp (body l a) w1) as [[] w2|w2| | |]; try done; destruct Hk as [Hw2 H2]; [|split; [done|by apply (dlater_trans _ (disp_of w1))]].
      assert (evolves (disp_of w) (disp_of w2)) as E2 by (destruct H2 as [[] _]; by split).
      specialize (IH (S i) w2 ltac:(lia) Hw2 (dlater_trans _ _ _ Hw1 Hlen Hl1 H2) ltac:(pose proof (later_events _ _ E2); lia)).
      destruct (dispatch_from Capacity body disp n (S i) (events d0) (next_id_ d0) a w2) as [[] w'|w'| | |]; try done.
      destruct IH as (Hw' & Hl' & He' & Hc). assert (evolves (disp_of w) (disp_of w')) as Hew by (by apply (evolves_trans _ (disp_of w2)); [|apply (ok_length _ Hw)|..]).
      split_and!; [done|done|done|]. intros Hf. destruct (Hc Hf) as (cs & Eh & Hsub & Hall).
      assert (wrapped (disp_of w) = false) as Hfw by (destruct (wrapped (disp_of w)) eqn:Ed; [rewrite (later_wrapped _ _ Hew) in Hf; done|done]).
      assert (id s = id s0) as Eid by (destruct (later_slots _ _ (proj1 Hl) Hfw i s0 s Hs0 Hs) as [?|[?|?]]; [done|done|lia]).
      exists (id s :: cs). split; [|split].
      * rewrite Eh, (heard_later _ _ _ H2) by done. by rewrite E1, heard_logged, <- app_assoc.
      * rewrite Edrop. cbn [fmap list_fmap]. rewrite filter_cons_True by congruence. rewrite Eid. by apply sublist_skip.
      * intros j u v Hj Hu Hne Hv Ev. apply elem_of_cons. destruct (decide (j = i)) as [->|]; [left; congruence|]. right. apply (Hall j u v); [lia|done..].
    + mstep. specialize (IH (S i) w ltac:(lia) Hw Hl Hev). destruct (dispatch_from Capacity body disp n (S i) (events d0) (next_id_ d0) a w) as [[] w'|w'| | |]; try done.
      destruct IH as (Hw' & Hl' & He' & Hc). split_and!; [done|done|done|]. intros Hf. destruct (Hc Hf) as (cs & Eh & Hsub & Hall). exists cs. split; [done|]. rewrite Edrop. cbn [fmap list_fmap].
      split; [rewrite filter_cons; case_decide; [by apply sublist_cons|done]|].
      intros j u v Hj Hu Hne Hv Ev. destruct (decide (j = i)) as [->|]; [exfalso|by apply (Hall j u v); [lia|..]].
      destruct (still_there d0 (disp_of w) (disp_of w') i u s v H0 (proj1 Hl) He' Hf Hu Hs Hv Hne Ev) as [E Hlt].
      apply andb_false_iff in Eb as [Eb%negb_false_iff%Z.eqb_eq|Eb%Z.ltb_ge]; lia.
Qed.

(** An event begins: its number is taken, and nothing has been logged for it. *)
Lemma begun_ok d : disp_ok d -> let d1 := mk_dispatcher (next_id_ d) (slots_ d) (S (events d)) (calls_log d) (wrapped d) in disp_ok d1 /\ later d d1 /\ heard (events d) d1 = [].
Proof.
  intros Hok d1. pose proof Hok as []. split_and!.
  - split; try done. eapply Forall_impl; [|exact ok_log0]. cbn. intros c Hc. lia.
  - split; [split; try done; cbn; [|lia]|by exists []]. intros _ i s s' -> [= <-]. by left.
  - unfold heard. cbn [calls_log d1]. clear -ok_log0. replace (filter (fun c => c.1 = events d) (calls_log d)) with (@nil (nat * Z)); [done|]. symmetry.
    induction ok_log0 as [|c new Hc _ IH]; [done|]. rewrite filter_cons_False; [done|]. lia.
Qed.
Lemma dispatch_ends disp a w : (forall a, keeps (disp a)) -> disp_ok (disp_of w) ->
  match (let! first_unheard := the next_id_ in let! event := the events in
         disp_do (fun d => mk_dispatcher (next_id_ d) (slots_ d) (S (events d)) (calls_log d) (wrapped d)) ;;;
         dispatch_from Capacity body disp Capacity 0 event first_unheard a) w with
  | Ret _ w' => exists d1, heard (events (disp_of w)) d1 = [] /\ loop_end (disp_of w) 0 d1 (disp_of w')
  | Throw w' => disp_ok (disp_of w') /\ later (disp_of w) (disp_of w')
  | Spin => True
  | _ => False
  end.
Proof.
  intros Hd Hw. unfold the, disp_do. do 3 mstep. set (w1 := mk_dw _ _). destruct (begun_ok _ Hw) as (H1 & Hl & Hh).
  pose proof (dispatch_loop disp a (disp_of w) Hd Hw Capacity 0%nat w1 ltac:(lia) H1 Hl ltac:(cbn; lia)) as Hloop.
  destruct (dispatch_from Capacity body disp Capacity 0 _ _ a w1) as [[] w'|w'| | |]; try done. by exists (disp_of w1).
Qed.
Lemma keeps_dispatch fuel : forall a, keeps (dispatch Capacity body fuel a).
Proof.
  induction fuel as [|fuel IH]; intros a w Hw; [done|]. pose proof (dispatch_ends (dispatch Capacity body fuel) a w IH Hw) as He. cbn [dispatch].
  destruct (bind _ _ w) as [[] w'|w'| | |]; try done. destruct He as (d1 & _ & H1 & H2 & _). done.
Qed.
Lemma fresh_ok : disp_ok (fresh Capacity (L := L)).
Proof.
  split; cbn [fresh slots_ events calls_log wrapped next_id_].
  - apply length_replicate.
  - intros i s [-> _]%lookup_replicate Hne. done.
  - constructor.
  - intros _. split; [lia|]. split; [intros i s [-> _]%lookup_replicate; cbn; lia|]. intros i j s s' [-> _]%lookup_replicate _ _ Hne. done.
Qed.

Lemma ids_nodup (ss : list (eslot L)) :
  (forall i j s s', ss !! i = Some s -> ss !! j = Some s' -> id s = id s' -> id s <> 0 -> i = j) -> NoDup (filter (fun y => y <> 0) (id <$> ss)).
Proof.
  induction ss as [|s ss IH]; intros Hd; [constructor|]. cbn [fmap list_fmap]. assert (NoDup (filter (fun y => y <> 0) (id <$> ss))) as Hn.
  { apply IH. intros i j u v Hu Hv E Hne. assert (S i = S j) by (by apply (Hd (S i) (S j) u v)). lia. }
  rewrite filter_cons. case_decide as Hne; [|done]. apply list.NoDup_cons. split; [|done]. intros [_ Hin]%list_elem_of_filter.
  apply list_elem_of_fmap in Hin as (u & E & (i & Hu)%list_elem_of_lookup). specialize (Hd 0%nat (S i) s u eq_refl Hu E Hne). lia.
Qed.

(** C17. Whatever the listeners do, subscribing, unsubscribing, dispatching, throwing and
    catching, the code that uses a dispatcher never meets a trap or undefined behaviour;
    and, short of 2^64 subscriptions, an event that its dispatch brings to its end is
    heard by listeners that were subscribed when it began, each at most once and in slot
    order, and by each of them that is subscribed all the while. *)
Theorem dispatcher_hears fuel c (x0 : X) fuel' a w w' :
  main Capacity body fuel c (mk_dw (fresh Capacity) x0) = Ret tt w ->
  dispatch Capacity body fuel' a w = Ret tt w' -> wrapped (disp_of w') = false ->
  let cs := heard (events (disp_of w)) (disp_of w') in
  sublist cs (filter (fun y => y <> 0) (id <$> slots_ (disp_of w))) /\ NoDup cs /\
  (forall i s s', slots_ (disp_of w) !! i = Some s -> id s <> 0 -> slots_ (disp_of w') !! i = Some s' -> id s' = id s -> id s ∈ cs) /\
  forall fuel'' c'', match main Capacity body fuel'' c'' w' with Trap | Fault => False | _ => True end.
Proof.
  intros Hm Hd Hf. pose proof (keeps_exec (dispatch Capacity body fuel) c (keeps_dispatch fuel) (mk_dw (fresh Capacity) x0) fresh_ok) as Hk.
  unfold main in Hm. rewrite Hm in Hk. destruct Hk as [Hw _]. destruct fuel' as [|fuel']; [done|].
  pose proof (dispatch_ends (dispatch Capacity body fuel') a w (keeps_dispatch fuel') Hw) as He. cbn [dispatch] in Hd. rewrite Hd in He.
  destruct He as (d1 & Hh & Hw' & Hl & _ & Hc). destruct (Hc Hf) as (cs & -> & Hsub & Hall). rewrite Hh. cbn [app]. rewrite drop_0 in Hsub.
  assert (wrapped (disp_of w) = false) as Hfw by (destruct (wrapped (disp_of w)) eqn:Ed; [rewrite (later_wrapped _ _ (proj1 Hl)) in Hf; done|done]).
  split; [done|]. split; [|split].
  - eapply sublist_NoDup; [|exact Hsub]. apply ids_nodup. by apply (ok_ids _ Hw).
  - intros i s s' Hs Hne Hs' E. apply (Hall i s s'); [lia|done..].
  - intros fuel'' c''. pose proof (keeps_exec (dispatch Capacity body fuel'') c'' (keeps_dispatch fuel'') w' Hw') as Hk. unfold main.
    by destruct (exec Capacity (dispatch Capacity body fuel'') c'' w').
Qed.
End dispatcher_proofs.

(** Two listeners; the first unsubscribes the second and subscribes a third, which does not
    hear the event. *)
Definition example_body (l : nat) (a : unit) : listening nat unit nat :=
  match l with
  | O => LUnsubscribe 2 (fun _ => LSubscribe (Some 7%nat) (fun _ => LStop))
  | _ => LLocal S (fun _ => LStop)
  end.
Definition example_program : listening nat unit nat := LSubscribe (Some 0%nat) (fun _ => LSubscribe (Some 1%nat) (fun _ => LSubscribe (Some 2%nat) (fun _ => LStop))).

Lemma dispatcher_hears_witness :
  exists w w', Dispatcher.main 4 example_body 3 example_program (mk_dw (Dispatcher.fresh 4) 0%nat) = Ret tt w /\
    Dispatcher.dispatch 4 example_body 3 tt w = Ret tt w' /\ heard 0 (disp_of w') = [1; 3] /\ own w' = 1%nat /\ NoDup (heard 0 (disp_of w')).
Proof.
  destruct (Dispatcher.main 4 example_body 3 example_program (mk_dw (Dispatcher.fresh 4) 0%nat)) as [[] w|w| | |] eqn:Ew; vm_compute in Ew; try discriminate.
  destruct (Dispatcher.dispatch 4 example_body 3 tt w) as [[] w'|w'| | |] eqn:Ew'; [|injection Ew as <-; vm_compute in Ew'; discriminate..].
  destruct (dispatcher_hears 4 example_body 3 example_program 0%nat 3 tt w w') as (_ & Hn & _).
  - rewrite <- Ew. vm_compute. reflexivity.
  - exact Ew'.
  - injection Ew as <-. vm_compute in Ew'. injection Ew' as <-. reflexivity.
  - exists w, w'. injection Ew as <-. split; [reflexivity|]. split; [exact Ew'|]. vm_compute in Ew'. injection Ew' as <-.
    split; [reflexivity|]. split; [reflexivity|]. exact Hn.
Defined.
