(* ===== verification/Tick.v ===== *)
(** * [tick_extender]

    [include/metl/tick_extender.hpp]: a counter that wraps, widened.  Any number of
    contexts, the main loop and interrupts, are inside [now] at once; each takes its
    steps one at a time, with those of the others and the passing of time in between.
    The lock, a template parameter, lets one context at a time past its [lock()]. *)

From Stdlib Require Import ZArith Lia.
From stdpp Require Import base numbers list option gmap tactics.
From S2P Require Import Prelude Text.
Local Open Scope Z_scope.

(** Where a context is in [now]; one that is not in it has no entry. *)
Inductive tick_at : Set :=
  | Entering                (** before the lock *)
  | Reading                 (** holds the lock, about to call [read] *)
  | Adding (raw : Z)        (** has read the counter *)
  | Leaving (result : Z).   (** has its result and still holds the lock *)

Record tick_world : Set := mk_tick {
  clock : Z;                      (** the counter, had it not wrapped *)
  total_ : Z;
  held : option nat;              (** the context inside the lock *)
  contexts : gmap nat tick_at;
  reads : list Z;                 (** the clock at each read, the latest first *)
  results : list Z }.             (** what [now] returned, the latest first *)

Module Tick.
Section tick.
  Context (h : hardening) (Bits : Z).

Definition tick_bits : Z := 64.
Definition mask : Z := to_unsigned tick_bits (to_unsigned tick_bits (Z.shiftl 1 Bits) - 1).
(** A free-running counter. *)
Definition counter (t : Z) : Z := t mod 2 ^ Bits.

(** [total_ += (raw - total_) & mask]. *)
Definition extend (total raw : Z) : Z := to_unsigned tick_bits (total + Z.land (to_unsigned tick_bits (raw - total)) mask).

Definition at_ (i : nat) (p : option tick_at) (w : tick_world) : tick_world :=
  mk_tick (clock w) (total_ w) (held w) (partial_alter (fun _ => p) i (contexts w)) (reads w) (results w).
Definition set_held (o : option nat) (w : tick_world) : tick_world := mk_tick (clock w) (total_ w) o (contexts w) (reads w) (results w).
Definition set_total (v : Z) (w : tick_world) : tick_world := mk_tick (clock w) v (held w) (contexts w) (reads w) (results w).

(** The next statement of [now] in the context [i].  A context at the lock waits while
    another holds it.  [throws] says whether the call of [read] throws: the guard then
    unlocks on the way out. *)
Definition now_step (i : nat) (throws : bool) : M tick_world unit := fun w =>
  match contexts w !! i with
  | None => Ret tt (at_ i (Some Entering) w)
  | Some Entering =>
      match held w with
      | None => Ret tt (at_ i (Some Reading) (set_held (Some i) w))
      | Some _ => Ret tt w
      end
  | Some Reading =>
      if throws then Ret tt (at_ i None (set_held None w))
      else
        let w' := mk_tick (clock w) (total_ w) (held w) (contexts w) (clock w :: reads w) (results w) in
        Ret tt (at_ i (Some (Adding (counter (clock w)))) w')
  | Some (Adding raw) =>
      (metl_assert h (raw <=? mask) ;;;
       modify (fun w => let v := extend (total_ w) raw in at_ i (Some (Leaving v)) (set_total v w))) w
  | Some (Leaving v) =>
      let w' := mk_tick (clock w) (total_ w) None (contexts w) (reads w) (v :: results w) in
      Ret tt (at_ i None w')
  end.

(** Time passes, or a context takes a step. *)
Inductive tick_event : Set := Elapse (d : nat) | Step (i : nat) (throws : bool).
Definition tick_step (e : tick_event) : M tick_world unit :=
  match e with
  | Elapse d => modify (fun w => mk_tick (clock w + Z.of_nat d) (total_ w) (held w) (contexts w) (reads w) (results w))
  | Step i throws => now_step i throws
  end.
Fixpoint tick_run (es : list tick_event) : M tick_world unit :=
  match es with [] => ret tt | e :: es' => tick_step e ;;; tick_run es' end.

(** A new extender, when the counter stands at [t0]. *)
Definition tick_start (t0 : Z) : tick_world := mk_tick t0 0 None ∅ [] [].
End tick.
End Tick.

(** ** What [now] returns *)

Section ticks.
  Import Tick.
  Context (h : hardening) (Bits : Z) (HB : 1 <= Bits <= 63).

Lemma mask_value : mask Bits = 2 ^ Bits - 1.
Proof.
  assert (2 ^ Bits <= 2 ^ 63) by (apply Z.pow_le_mono_r; lia). assert (2 ^ 1 <= 2 ^ Bits) by (apply Z.pow_le_mono_r; lia).
  assert (2 ^ 64 = 2 * 2 ^ 63) by done. unfold mask, to_unsigned, tick_bits. rewrite Z.shiftl_1_l. rewrite (Z.mod_small (2 ^ Bits)) by lia. apply Z.mod_small. lia.
Qed.

(** The time of the first read, as the extender tells it, and how far each is from it. *)
Definition epoch (ts : list Z) : Z := default 0 (list.last ts).
Definition told (ts : list Z) (t : Z) : Z := t - epoch ts + counter Bits (epoch ts).
(** Each read less than a period after the one before. *)
Fixpoint close (ts : list Z) : Prop :=
  match ts with
  | t :: ts' => match ts' with u :: _ => t - u < 2 ^ Bits | [] => True end /\ close ts'
  | [] => True
  end.

Fixpoint falling (ts : list Z) : Prop :=
  match ts with
  | t :: ts' => match ts' with u :: _ => u <= t | [] => True end /\ falling ts'
  | [] => True
  end.

Lemma period_pos : 0 < 2 ^ Bits.
Proof. apply Z.pow_pos_nonneg; lia. Qed.
Lemma mod_of_mod x : (x mod 2 ^ 64) mod 2 ^ Bits = x mod 2 ^ Bits.
Proof.
  apply Z.mod_mod_divide. exists (2 ^ (64 - Bits)). rewrite <- Z.pow_add_r by lia. f_equal. lia.
Qed.

(** The total follows the clock, a whole number of periods behind. *)
Lemma extend_step u t k :
  0 <= t - u < 2 ^ Bits -> 0 <= u - k * 2 ^ Bits -> t - k * 2 ^ Bits < 2 ^ 64 -> extend Bits (u - k * 2 ^ Bits) (counter Bits t) = t - k * 2 ^ Bits.
Proof.
  intros Ht Hge Hlt. pose proof period_pos. unfold extend, counter, to_unsigned, tick_bits. rewrite mask_value, Z.sub_1_r, <- Z.ones_equiv, Z.land_ones by lia.
  rewrite mod_of_mod, Zminus_mod, Z.mod_mod, <- Zminus_mod by lia. replace (t - (u - k * 2 ^ Bits)) with (t - u + k * 2 ^ Bits) by lia.
  rewrite Z.mod_add, (Z.mod_small (t - u)), Z.mod_small by lia. lia.
Qed.
Lemma told_periods ts t : exists k, told ts t = t - k * 2 ^ Bits.
Proof.
  unfold told, counter. exists (epoch ts / 2 ^ Bits). pose proof period_pos. rewrite Z.mod_eq by lia. lia.
Qed.

(** The lock is held by the one context that is past it; what was returned is what was
    read, in order, but for the read that is not added or returned yet. *)
Record tick_inv (w : tick_world) : Prop := {
  tick_holder : forall i p, contexts w !! i = Some p -> p <> Entering -> held w = Some i;
  tick_held : forall i, held w = Some i -> exists p, contexts w !! i = Some p /\ p <> Entering;
  tick_past : forall t ts, reads w = t :: ts -> t <= clock w;
  tick_order : falling (reads w);
  tick_raw : forall i raw, contexts w !! i = Some (Adding raw) -> exists t ts, reads w = t :: ts /\ raw = counter Bits t;
  tick_told : close (reads w) -> (forall t, t ∈ reads w -> told (reads w) t < 2 ^ 64) ->
    match held w ≫= (contexts w !!.) with
    | Some (Adding _) => exists t ts, reads w = t :: ts /\ results w = told (reads w) <$> ts /\
        total_ w = match ts with [] => 0 | u :: _ => told (reads w) u end
    | Some (Leaving v) => exists t ts, reads w = t :: ts /\ v = told (reads w) t /\ results w = told (reads w) <$> ts /\ total_ w = v
    | _ => results w = told (reads w) <$> reads w /\ total_ w = match reads w with [] => 0 | u :: _ => told (reads w) u end
    end }.

Lemma epoch_cons t u ts : epoch (t :: u :: ts) = epoch (u :: ts).
Proof. done. Qed.
Lemma told_cons t u ts x : told (t :: u :: ts) x = told (u :: ts) x.
Proof. done. Qed.

Lemma tick_start_inv t0 : 0 <= t0 -> tick_inv (tick_start t0).
Proof. intros Ht. split; cbn; try done. Qed.

(** A step that only moves one context. *)
Ltac tick_lookup i j := destruct (decide (i = j)) as [->|?]; rewrite ?lookup_partial_alter_eq, ?lookup_partial_alter_ne in * by done.

Lemma falling_epoch u ts : falling (u :: ts) -> epoch (u :: ts) <= u.
Proof.
  revert u. induction ts as [|v ts IH]; intros u; [unfold epoch; cbn; lia|]. intros [H1 H2]. rewrite epoch_cons. specialize (IH v H2). lia.
Qed.
Lemma extend_told t ts :
  falling (t :: ts) -> close (t :: ts) -> told (t :: ts) t < 2 ^ 64 ->
  extend Bits match ts with [] => 0 | u :: _ => told (t :: ts) u end (counter Bits t) = told (t :: ts) t.
Proof.
  intros Hf Hc Hlt. destruct (told_periods (t :: ts) t) as [k Ek]. assert (forall x, told (t :: ts) x = x - k * 2 ^ Bits) as E by (unfold told in *; lia).
  pose proof period_pos as Hp. destruct ts as [|u ts].
  - assert (t - k * 2 ^ Bits = t mod 2 ^ Bits) as Et by (rewrite <- E; unfold told, counter, epoch; cbn; lia).
    pose proof (Z.mod_pos_bound t (2 ^ Bits) Hp). rewrite E in *.
    replace 0 with (k * 2 ^ Bits - k * 2 ^ Bits) by lia. apply extend_step; lia.
  - rewrite !E in *. destruct Hf as [Hf1 Hf2], Hc as [Hc1 _]. apply extend_step; [lia| |lia]. rewrite <- E, told_cons. unfold told.
    pose proof (falling_epoch u ts Hf2). pose proof (Z.mod_pos_bound (epoch (u :: ts)) (2 ^ Bits) Hp). unfold counter. lia.
Qed.
Lemma counter_fits t : (counter Bits t <=? mask Bits) = true.
Proof. apply Z.leb_le. rewrite mask_value. unfold counter. pose proof (Z.mod_pos_bound t (2 ^ Bits) period_pos). lia. Qed.

Lemma now_step_inv i throws w : tick_inv w -> exists w', now_step h Bits i throws w = Ret tt w' /\ tick_inv w'.
Proof.
  intros [Hholder Hheld Hpast Horder Hraw Htold]. unfold now_step. destruct (contexts w !! i) as [[| |raw|v]|] eqn:Hi.
  - destruct (held w) as [j|] eqn:Hh; [by exists w; split; [done|split; rewrite ?Hh in *; done]|]. eexists. split; [done|].
    split; cbn [at_ set_held clock total_ held contexts reads results]; [..|done|done| |].
    + intros j p. tick_lookup i j; [done|]. intros Hj Hp. by specialize (Hholder j p Hj Hp).
    + intros j [= <-]. exists Reading. by rewrite lookup_partial_alter_eq.
    + intros j raw. tick_lookup i j; [done|apply Hraw].
    + cbn. by rewrite lookup_partial_alter_eq.
  - assert (held w = Some i) as Hh by (by apply (Hholder i Reading)). rewrite Hh in Htold. cbn in Htold. rewrite Hi in Htold. destruct throws.
    + eexists. split; [done|]. split; cbn [at_ set_held clock total_ held contexts reads results]; [..|done|done| |done]; [|done|].
      * intros j p. tick_lookup i j; [done|]. intros Hj Hp. specialize (Hholder j p Hj Hp). congruence.
      * intros j raw. tick_lookup i j; [done|apply Hraw].
    + eexists. split; [done|]. split; cbn [at_ set_held clock total_ held contexts reads results].
      * intros j p. rewrite Hh. tick_lookup i j; [done|]. intros Hj Hp. specialize (Hholder j p Hj Hp). congruence.
      * intros j Hj. rewrite Hh in Hj. injection Hj as <-. eexists. by rewrite lookup_partial_alter_eq.
      * intros t ts [= <- _]. lia.
      * split; [|done]. destruct (reads w) as [|u ts] eqn:Er; [done|]. by apply (Hpast u ts).
      * intros j raw. tick_lookup i j; [intros [= <-]; eauto|]. intros Hj. specialize (Hholder j _ Hj ltac:(done)). congruence.
      * rewrite Hh. cbn. rewrite lookup_partial_alter_eq. intros Hc Hlt. exists (clock w), (reads w). split; [done|].
        destruct (reads w) as [|u ts] eqn:Er; [apply Htold; [done|intros ? []%elem_of_nil]|].
        apply Htold; [apply Hc|]. intros x Hx. rewrite <- (told_cons (clock w)). apply Hlt. by right.
  - assert (held w = Some i) as Hh by (by apply (Hholder i (Adding raw))). rewrite Hh in Htold. cbn in Htold. rewrite Hi in Htold.
    destruct (Hraw i raw Hi) as (t & ts & Er & ->). rewrite counter_fits. mstep. eexists. split; [done|].
    split; cbn [at_ set_total clock total_ held contexts reads results]; [..|done|done| |].
    + intros j p. rewrite Hh. tick_lookup i j; [done|]. intros Hj Hp. specialize (Hholder j p Hj Hp). congruence.
    + intros j Hj. rewrite Hh in Hj. injection Hj as <-. eexists. by rewrite lookup_partial_alter_eq.
    + intros j raw. tick_lookup i j; [done|apply Hraw].
    + rewrite Hh. cbn. rewrite lookup_partial_alter_eq. intros Hc Hlt. destruct (Htold Hc Hlt) as (t' & ts' & Er' & Eres & Etot).
      rewrite Er in Er'. injection Er' as <- <-. exists t, ts. split_and!; [done| |done|done]. rewrite Etot. rewrite Er in *.
      apply extend_told; [done|done|]. apply Hlt. by left.
  - assert (held w = Some i) as Hh by (by apply (Hholder i (Leaving v))). rewrite Hh in Htold. cbn in Htold. rewrite Hi in Htold.
    eexists. split; [done|]. split; cbn [at_ set_held clock total_ held contexts reads results]; [..|done|done| |]; [|done|..].
    + intros j p. tick_lookup i j; [done|]. intros Hj Hp. specialize (Hholder j p Hj Hp). congruence.
    + intros j raw. tick_lookup i j; [done|apply Hraw].
    + cbn. intros Hc Hlt. destruct (Htold Hc Hlt) as (t & ts & Er & -> & -> & ->). rewrite Er. done.
  - eexists. split; [done|]. assert (held w <> Some i) as Hne by (intros Hh; destruct (Hheld i Hh) as (p & Hp & _); congruence).
    split; cbn [at_ set_held clock total_ held contexts reads results]; [..|done|done| |].
    + intros j p. tick_lookup i j; [by intros [= <-]|apply Hholder].
    + intros j Hj. destruct (Hheld j Hj) as (p & Hp & Hpe). exists p. rewrite lookup_partial_alter_ne by congruence. done.
    + intros j raw. tick_lookup i j; [done|apply Hraw].
    + replace (held w ≫= (partial_alter (fun _ => Some Entering) i (contexts w) !!.)) with (held w ≫= (contexts w !!.)); [done|].
      destruct (held w) as [j|] eqn:Hh; [|done]. cbn. by rewrite lookup_partial_alter_ne by congruence.
Qed.

Lemma tick_run_inv es : forall w, tick_inv w -> exists w', tick_run h Bits es w = Ret tt w' /\ tick_inv w'.
Proof.
  induction es as [|e es IH]; intros w Hw; [by exists w|]. assert (exists w1, tick_step h Bits e w = Ret tt w1 /\ tick_inv w1) as (w1 & E & H1).
  { destruct e as [d|i throws]; cbn [tick_step]; [|by apply now_step_inv]. eexists. split; [done|]. destruct Hw. split; cbn [clock total_ held contexts reads results]; try done.
    intros t ts Er. specialize (tick_past0 t ts Er). change (t <= clock w + Z.of_nat d). lia. }
  cbn [tick_run]. rewrite (bind_Ret _ _ _ _ _ E). by apply IH.
Qed.

(** C20. Whatever contexts are inside [now], however their steps and the passing of time
    fall, and whichever reads throw, no step traps or faults; and as long as each read
    of the counter comes less than a period after the one before and the tick has not
    run through its 64 bits, every call returns the first reading plus the counts that
    passed since, in the order of the reads, so that no value is smaller than one
    returned before. *)
Theorem tick_extender_exact t0 es :
  0 <= t0 ->
  exists w, tick_run h Bits es (tick_start t0) = Ret tt w /\
    (close (reads w) -> (forall t, t ∈ reads w -> told (reads w) t < 2 ^ 64) ->
     exists pending, (length pending <= 1)%nat /\ (told (reads w) <$> reads w) = pending ++ results w /\ falling (results w)).
Proof.
  intros Ht0. destruct (tick_run_inv es (tick_start t0) (tick_start_inv t0 Ht0)) as (w & E & [_ _ _ Ho _ Ht]). exists w. split; [done|].
  intros Hc Hlt. specialize (Ht Hc Hlt). assert (forall xs, falling xs -> falling (told (reads w) <$> xs)) as Hm.
  { induction xs as [|x [|y xs] IH]; [done|done|]. intros [H1 H2]. split; [|by apply IH]. cbn [fmap list_fmap]. unfold told. lia. }
  destruct (held w ≫= (contexts w !!.)) as [[| |raw|v]|].
  3: destruct Ht as (t & ts & Er & Eres & _); exists [told (reads w) t]; rewrite Er, Eres in *; split_and!; [done|done|]; apply Hm, Ho.
  3: destruct Ht as (t & ts & Er & _ & Eres & _); exists [told (reads w) t]; rewrite Er, Eres in *; split_and!; [done|done|]; apply Hm, Ho.
  all: destruct Ht as [Eres _]; exists []; rewrite Eres; split_and!; [cbn; lia|done|by apply Hm].
Qed.
End ticks.

(** The main loop is in [now] when an interrupt calls it; the counter wraps between. *)
Definition tick_example : list Tick.tick_event :=
  [Tick.Step 0 false; Tick.Step 0 false; Tick.Step 0 false; Tick.Step 1 false; Tick.Step 1 false; Tick.Elapse 16; Tick.Step 0 false; Tick.Step 0 false;
   Tick.Step 1 false; Tick.Step 1 false; Tick.Step 1 false; Tick.Step 1 false].

Lemma tick_extender_exact_witness : exists w, Tick.tick_run HARDENING_FAST 16 tick_example (Tick.tick_start 65530) = Ret tt w /\ results w = [65546; 65530].
Proof.
  destruct (tick_extender_exact HARDENING_FAST 16 ltac:(lia) 65530 tick_example ltac:(lia)) as (w & E & Hw). exists w. split; [exact E|].
  vm_compute in E. injection E as <-. destruct Hw as (pending & Hl & Ep & _).
  - cbn. lia.
  - intros t Ht. cbn [reads] in *. rewrite !elem_of_cons in Ht. destruct Ht as [->|[->|[]%elem_of_nil]]; reflexivity.
  - reflexivity.
Defined.
