(* ===== verification/OnceFlag.v ===== *)
(** * [once_flag]

    [include/metl/once_flag.hpp]: an initializer that runs once, for callers that never
    wait for it.  Any number of calls of [try_call_once] are under way; a call from
    inside the initializer, or from an interrupt, is one more of them.  Each takes its
    statements one at a time.

    The word [state_] goes up only, so its value says how far it has got.  An acquire
    load returns any value from the last one that its caller is known to have seen up to
    the latest: [known] is what each caller, and whoever locks next, must see by
    coherence and by what happened before. *)

From Stdlib Require Import ZArith Lia.
From stdpp Require Import base numbers list option gmap tactics.
From S2P Require Import Prelude.
Local Open Scope Z_scope.

(** Where a call is; a caller that is in none has no entry. *)
Inductive once_at : Set :=
  | Asking                  (** at the load of [is_done] *)
  | Locking                 (** at the lock of [claim] *)
  | Loading                 (** inside the lock *)
  | Marking                 (** has seen [k_init], about to store [k_running] *)
  | Unlocking (seen : Z)
  | Deciding (seen : Z)     (** out of [claim] *)
  | Running                 (** inside the initializer *)
  | Finishing.              (** about to store [k_done] *)

Record once_world : Set := mk_once {
  state_ : Z;                       (** the latest value *)
  known : gmap nat Z;               (** what each caller has seen, 0 if nothing *)
  lock_known : Z;                   (** what the last holder of the lock had seen *)
  holder : option nat;
  at_call : gmap nat once_at;
  starts : nat;                     (** how often the initializer was entered *)
  returned : nat;                   (** how often it returned *)
  answers : list (nat * bool * bool) }.  (** caller, result, whether it sees what the initializer wrote *)

Module OnceFlag.
Section once.
  Context (h : hardening).

Definition k_init : Z := 0.
Definition k_running : Z := 1.
Definition k_done : Z := 2.

Definition knows (i : nat) (w : once_world) : Z := default 0 (known w !! i).
Definition go (i : nat) (p : option once_at) (w : once_world) : once_world :=
  mk_once (state_ w) (known w) (lock_known w) (holder w) (partial_alter (fun _ => p) i (at_call w)) (starts w) (returned w) (answers w).
Definition learn (i : nat) (v : Z) (w : once_world) : once_world :=
  mk_once (state_ w) (<[i := Z.max (knows i w) v]> (known w)) (lock_known w) (holder w) (at_call w) (starts w) (returned w) (answers w).
Definition lock (i : nat) (w : once_world) : once_world :=
  let w := learn i (lock_known w) w in
  mk_once (state_ w) (known w) (lock_known w) (Some i) (at_call w) (starts w) (returned w) (answers w).
Definition unlock (i : nat) (w : once_world) : once_world :=
  mk_once (state_ w) (known w) (knows i w) None (at_call w) (starts w) (returned w) (answers w).
Definition store (i : nat) (v : Z) (w : once_world) : once_world :=
  learn i v (mk_once v (known w) (lock_known w) (holder w) (at_call w) (starts w) (returned w) (answers w)).
(** The caller's [choice] of what the load returns, if coherence allows it. *)
Definition load (i : nat) (choice : Z) (w : once_world) : Z :=
  if (knows i w <=? choice) && (choice <=? state_ w) then choice else state_ w.

(** [try_call_once] returns. *)
Definition answer_with (i : nat) (r : bool) (w : once_world) : once_world :=
  go i None (mk_once (state_ w) (known w) (lock_known w) (holder w) (at_call w) (starts w) (returned w) ((i, r, knows i w =? k_done) :: answers w)).

(** The next statement of the call that [i] is in.  [choice] is for loads; [throws] says
    whether the initializer leaves by an exception. *)
Definition call_step (i : nat) (choice : Z) (throws : bool) : M once_world unit := fun w =>
  match at_call w !! i with
  | None => Ret tt (go i (Some Asking) w)
  | Some Asking =>
      let v := load i choice w in
      let w := learn i v w in
      Ret tt (if v =? k_done then answer_with i true w else go i (Some Locking) w)
  | Some Locking => Ret tt match holder w with None => go i (Some Loading) (lock i w) | Some _ => w end
  | Some Loading =>
      let seen := load i choice w in
      Ret tt (go i (Some (if seen =? k_init then Marking else Unlocking seen)) (learn i seen w))
  | Some Marking => Ret tt (go i (Some (Unlocking k_init)) (store i k_running w))
  | Some (Unlocking seen) => Ret tt (go i (Some (Deciding seen)) (unlock i w))
  | Some (Deciding seen) =>
      ((match h with HARDENING_DEBUG => metl_assert h (seen <=? k_done) | _ => ret tt end) ;;;
       modify (fun w =>
         if negb (seen =? k_init) then answer_with i (seen =? k_done) w
         else go i (Some Running) (mk_once (state_ w) (known w) (lock_known w) (holder w) (at_call w) (S (starts w)) (returned w) (answers w)))) w
  | Some Running =>
      Ret tt (if throws then go i None w
              else go i (Some Finishing) (mk_once (state_ w) (known w) (lock_known w) (holder w) (at_call w) (starts w) (S (returned w)) (answers w)))
  | Some Finishing => Ret tt (answer_with i true (store i k_done w))
  end.

(** A step of one caller. *)
Record once_event : Set := mk_once_event { who : nat; choice_ : Z; throws_ : bool }.
Fixpoint once_run (es : list once_event) : M once_world unit :=
  match es with [] => ret tt | e :: es' => call_step (who e) (choice_ e) (throws_ e) ;;; once_run es' end.

Definition once_start : once_world := mk_once k_init ∅ 0 None ∅ 0 0 [].
End once.
End OnceFlag.

(** ** Once *)

Section once_proofs.
  Import OnceFlag.
  Context (h : hardening).
  Implicit Types (w : once_world) (i j : nat) (o : option nat).

(** What is so of a caller, given the call [o] that has claimed the initializer. *)
Definition frame o w i : Prop :=
  match at_call w !! i with
  | None | Some Asking | Some Locking => o <> Some i /\ holder w <> Some i
  | Some Loading => o <> Some i /\ holder w = Some i /\ (1 <= state_ w -> 1 <= knows i w)
  | Some Marking => o <> Some i /\ holder w = Some i /\ state_ w = 0
  | Some (Unlocking s) =>
      holder w = Some i /\ 1 <= state_ w /\ 1 <= knows i w /\ (s = 0 /\ o = Some i /\ starts w = 0%nat /\ returned w = 0%nat \/ o <> Some i /\ 0 < s <= knows i w)
  | Some (Deciding s) =>
      holder w <> Some i /\ 1 <= state_ w /\ (s = 0 /\ o = Some i /\ starts w = 0%nat /\ returned w = 0%nat \/ o <> Some i /\ 0 < s <= knows i w)
  | Some Running => o = Some i /\ holder w <> Some i /\ starts w = 1%nat /\ returned w = 0%nat
  | Some Finishing => o = Some i /\ holder w <> Some i /\ starts w = 1%nat /\ returned w = 1%nat
  end.

Record once_inv_at o w : Prop := {
  once_range : 0 <= state_ w <= 2;
  once_known : forall i, 0 <= knows i w <= state_ w;
  once_lock : 0 <= lock_known w <= state_ w /\ (holder w = None -> 1 <= state_ w -> 1 <= lock_known w);
  once_claimed : is_Some o -> state_ w = 1;
  once_counts : match o with
    | Some _ => True
    | None => starts w = (if state_ w =? 0 then 0%nat else 1%nat) /\ returned w = (if state_ w =? 2 then 1%nat else 0%nat)
    end;
  once_frames : forall i, frame o w i;
  once_answers : forall i r s, (i, r, s) ∈ answers w -> if (r : bool) then s = true /\ returned w = 1%nat /\ state_ w = 2 else 1 <= state_ w }.

Lemma frame_other o o' w w' i :
  at_call w' !! i = at_call w !! i -> knows i w' = knows i w -> (holder w = Some i <-> holder w' = Some i) -> (o = Some i <-> o' = Some i) ->
  0 <= state_ w <= state_ w' -> (holder w = Some i -> state_ w = 0 -> state_ w' = 0) ->
  (o = Some i -> starts w' = starts w /\ returned w' = returned w) -> frame o w i -> frame o' w' i.
Proof.
  unfold frame. intros -> Ek Hh Ho Hs Hz Hc. rewrite Ek. destruct (at_call w !! i) as [[| | | |s|s| |]|]; rewrite <- ?Hh, <- ?Ho; intros Hf; try tauto.
  - destruct Hf as (? & ? & Hk). split_and!; [done|done|]. intros ?. apply Hk. destruct (decide (state_ w = 0)) as [E|]; [specialize (Hz ltac:(done) E); lia|]. lia.
  - destruct Hf as (? & ? & ? & [(? & Hoi & ? & ?)|?]); (split_and!; [done|lia|lia|]); [left|by right]. destruct (Hc Hoi) as [-> ->]. done.
  - destruct Hf as (? & ? & [(? & Hoi & ? & ?)|?]); (split_and!; [done|lia|]); [left|by right]. destruct (Hc Hoi) as [-> ->]. done.
  - destruct Hf as (Hoi & ? & ? & ?). destruct (Hc Hoi) as [-> ->]. done.
  - destruct Hf as (Hoi & ? & ? & ?). destruct (Hc Hoi) as [-> ->]. done.
Qed.

Lemma load_bounds o w i choice : once_inv_at o w -> knows i w <= load i choice w <= state_ w.
Proof.
  intros []. unfold load. specialize (once_known0 i). destruct (_ && _) eqn:E; [|lia]. apply andb_true_iff in E as [E1%Z.leb_le E2%Z.leb_le]. lia.
Qed.
Lemma knows_learn i j v w : knows j (learn i v w) = if decide (j = i) then Z.max (knows i w) v else knows j w.
Proof. unfold knows at 1. cbn. case_decide; subst; [by rewrite lookup_insert_eq|by rewrite lookup_insert_ne]. Qed.

(** Learning a value that is there keeps the invariant. *)
Lemma learn_inv o w i v : once_inv_at o w -> v <= state_ w -> once_inv_at o (learn i v w).
Proof.
  intros [] Hv. split; cbn [state_ lock_known holder starts returned answers learn]; try done.
  - intros j. rewrite knows_learn. pose proof (once_known0 i). pose proof (once_known0 j). case_decide; lia.
  - intros j. specialize (once_frames0 j). unfold frame in *. cbn [at_call learn state_ holder starts returned]. rewrite knows_learn.
    destruct (decide (j = i)) as [->|]; [|done]. pose proof (once_known0 i). destruct (at_call w !! i) as [[| | | |s|s| |]|]; try tauto.
    + destruct once_frames0 as (? & ? & Hk). split_and!; [done|done|lia].
    + destruct once_frames0 as (? & ? & ? & [?|[? ?]]); (split_and!; [done|done|lia|]); [by left|right; split; [done|lia]].
    + destruct once_frames0 as (? & ? & [?|[? ?]]); (split_and!; [done|done|]); [by left|right; split; [done|lia]].
Qed.

(** A step that moves only the caller. *)
Lemma go_inv o w i p :
  once_inv_at o w -> frame o (go i p w) i -> once_inv_at o (go i p w).
Proof.
  intros [] Hf. split; try done. intros j. destruct (decide (j = i)) as [->|Hne]; [done|]. apply (frame_other o o w); try done; [|cbn; lia].
  cbn. by rewrite lookup_partial_alter_ne.
Qed.
Lemma frame_go o w i p :
  frame o (go i p w) i <-> match p with
  | None | Some Asking | Some Locking => o <> Some i /\ holder w <> Some i
  | Some Loading => o <> Some i /\ holder w = Some i /\ (1 <= state_ w -> 1 <= knows i w)
  | Some Marking => o <> Some i /\ holder w = Some i /\ state_ w = 0
  | Some (Unlocking s) =>
      holder w = Some i /\ 1 <= state_ w /\ 1 <= knows i w /\ (s = 0 /\ o = Some i /\ starts w = 0%nat /\ returned w = 0%nat \/ o <> Some i /\ 0 < s <= knows i w)
  | Some (Deciding s) =>
      holder w <> Some i /\ 1 <= state_ w /\ (s = 0 /\ o = Some i /\ starts w = 0%nat /\ returned w = 0%nat \/ o <> Some i /\ 0 < s <= knows i w)
  | Some Running => o = Some i /\ holder w <> Some i /\ starts w = 1%nat /\ returned w = 0%nat
  | Some Finishing => o = Some i /\ holder w <> Some i /\ starts w = 1%nat /\ returned w = 1%nat
  end.
Proof. unfold frame. cbn [go at_call]. rewrite lookup_partial_alter_eq. by destruct p as [[]|]. Qed.

Lemma answered_inv o w i (r : bool) :
  once_inv_at o (go i None w) -> (if r then knows i w = 2 else 1 <= state_ w) -> once_inv_at o (answer_with i r w).
Proof.
  intros Hw Hr. pose proof Hw as []. split; try done. intros j r' s. cbn [answers answer_with go].
  rewrite elem_of_cons. intros [[= -> -> ->]|Hin]; [|by apply (once_answers0 j)]. destruct r; [|done]. specialize (once_known0 i).
  change (0 <= knows i w <= state_ w) in once_known0. change (0 <= state_ w <= 2) in once_range0. assert (state_ w = 2) as E2 by lia. split; [by apply Z.eqb_eq|]. split; [|done]. cbn in *. destruct o as [k|].
  - specialize (once_claimed0 ltac:(eauto)). lia.
  - destruct once_counts0 as [_ ->]. by rewrite E2.
Qed.
Lemma answer_inv o w i (r : bool) :
  once_inv_at o w -> o <> Some i -> holder w <> Some i -> (if r then knows i w = 2 else 1 <= state_ w) -> once_inv_at o (answer_with i r w).
Proof. intros Hw Ho Hh Hr. apply answered_inv; [|done]. apply go_inv; [done|]. by apply frame_go. Qed.

Definition once_inv w : Prop := exists o, once_inv_at o w.
Lemma once_start_inv : once_inv once_start.
Proof. exists None. split; cbn; try done. intros i r s []%elem_of_nil. Qed.

Lemma locking_inv o w i : once_inv_at o w -> at_call w !! i = Some Locking -> holder w = None -> once_inv_at o (go i (Some Loading) (lock i w)).
Proof.
  intros Hw Hi Hh. pose proof (once_lock _ _ Hw) as [Hlr Hlk]. pose proof (once_frames _ _ Hw i) as Hf. unfold frame in Hf. rewrite Hi in Hf.
  pose proof (learn_inv o w i (lock_known w) Hw ltac:(lia)) as [].
  split; [exact once_range0|exact once_known0| |exact once_claimed0|exact once_counts0| |exact once_answers0].
  - split; [exact Hlr|done].
  - intros j. destruct (decide (j = i)) as [->|Hne].
    + apply (frame_go o (lock i w)). split; [tauto|]. split; [done|]. intros H1. specialize (Hlk Hh H1). change (knows i (lock i w)) with (knows i (learn i (lock_known w) w)).
      rewrite knows_learn, decide_True by done. lia.
    + apply (frame_other o o (learn i (lock_known w) w)); try done; cbn; [by rewrite lookup_partial_alter_ne|rewrite Hh; split; congruence|lia].
Qed.

Lemma loading_inv o w i seen :
  once_inv_at o w -> at_call w !! i = Some Loading -> knows i w <= seen <= state_ w ->
  once_inv_at o (go i (Some (if seen =? k_init then Marking else Unlocking seen)) (learn i seen w)).
Proof.
  intros Hw Hi Hs. pose proof (once_frames _ _ Hw i) as Hf. unfold frame in Hf. rewrite Hi in Hf. destruct Hf as (Ho & Hh & Hk). pose proof (once_known _ _ Hw i).
  apply go_inv; [apply learn_inv; [done|lia]|]. apply frame_go. cbn [learn holder state_ starts returned]. unfold k_init. destruct (Z.eqb_spec seen 0).
  - split_and!; [done|done|]. lia.
  - rewrite knows_learn, decide_True by done. split_and!; [done|lia|lia|]. right. split; [done|lia].
Qed.

Lemma marking_inv o w i : once_inv_at o w -> at_call w !! i = Some Marking -> once_inv_at (Some i) (go i (Some (Unlocking k_init)) (store i k_running w)).
Proof.
  intros Hw Hi. pose proof Hw as []. pose proof (once_frames0 i) as Hf. unfold frame in Hf. rewrite Hi in Hf. destruct Hf as (Ho & Hh & Hz).
  assert (o = None) as -> by (destruct o; [|done]; specialize (once_claimed0 ltac:(eauto)); lia). rewrite Hz in *. cbn in once_counts0. destruct once_counts0 as [Es Er].
  assert (forall j, knows j (store i k_running w) = if decide (j = i) then 1 else 0) as Hk.
  { intros j. unfold store. rewrite knows_learn. pose proof (once_known0 i). pose proof (once_known0 j). unfold knows in *. cbn. case_decide; unfold k_running; lia. }
  unfold k_running in *. split; cbn [go store learn state_ lock_known holder starts returned answers]; try done; try lia.
  - intros j. change (knows j _) with (knows j (store i 1 w)). rewrite Hk. case_decide; lia.
  - split; [lia|]. rewrite Hh. done.
  - intros j. destruct (decide (j = i)) as [->|Hne].
    + apply frame_go. rewrite Hk, decide_True by done. cbn. split_and!; [done|lia|lia|]. by left.
    + apply (frame_other None _ w); try done; cbn [go store learn at_call holder state_ starts returned]; try done.
      * by rewrite lookup_partial_alter_ne.
      * etrans; [exact (Hk j)|]. rewrite decide_False by done. pose proof (once_known0 j). lia.
      * split; congruence.
      * lia.
      * rewrite Hh. congruence.
  - intros j r s Hin. specialize (once_answers0 j r s Hin). destruct r; lia.
Qed.

Lemma unlocking_inv o w i s : once_inv_at o w -> at_call w !! i = Some (Unlocking s) -> once_inv_at o (go i (Some (Deciding s)) (unlock i w)).
Proof.
  intros Hw Hi. pose proof Hw as []. pose proof (once_frames0 i) as Hf. unfold frame in Hf. rewrite Hi in Hf. destruct Hf as (Hh & Hs & Hk & Hc).
  split; [exact once_range0|exact once_known0| |exact once_claimed0|exact once_counts0| |exact once_answers0].
  - split; [apply once_known0|]. done.
  - intros j. destruct (decide (j = i)) as [->|Hne].
    + apply (frame_go o (unlock i w)). by split_and!.
    + apply (frame_other o o w); try done; cbn; [by rewrite lookup_partial_alter_ne|rewrite Hh; split; congruence|lia].
Qed.

(** The claiming call goes on; what it counts is nobody else's. *)
Lemma owner_inv w w' i p :
  once_inv_at (Some i) w -> w' = mk_once (state_ w) (known w) (lock_known w) (holder w) (at_call w) (starts w') (returned w') (answers w) ->
  frame (Some i) (go i p w') i -> once_inv_at (Some i) (go i p w').
Proof.
  intros Hw -> Hf. pose proof Hw as []. split; [exact once_range0|exact once_known0|exact once_lock0|exact once_claimed0|done|..].
  - intros j. destruct (decide (j = i)) as [->|Hne]; [done|].
    apply (frame_other (Some i) (Some i) w); try done; cbn; [by rewrite lookup_partial_alter_ne|lia|congruence].
  - intros j r s Hin. specialize (once_answers0 j r s Hin). specialize (once_claimed0 ltac:(eauto)). destruct r; [|done]. lia.
Qed.

Lemma finishing_inv o w i : once_inv_at o w -> at_call w !! i = Some Finishing -> once_inv_at None (answer_with i true (store i k_done w)).
Proof.
  intros Hw Hi. pose proof Hw as []. pose proof (once_frames0 i) as Hf. unfold frame in Hf. rewrite Hi in Hf. destruct Hf as (-> & Hh & Es & Er).
  specialize (once_claimed0 ltac:(eauto)).
  assert (forall j, knows j (store i k_done w) = if decide (j = i) then 2 else knows j w) as Hk.
  { intros j. unfold store. rewrite knows_learn. pose proof (once_known0 i). unfold knows in *. cbn. case_decide; unfold k_done; lia. }
  apply answered_inv; [|by rewrite Hk, decide_True]. split; [done|..].
  - intros j. change (0 <= knows j (store i k_done w) <= 2). rewrite Hk. pose proof (once_known0 j). case_decide; lia.
  - cbn. unfold k_done. split; [lia|]. intros Hn _. apply once_lock0; [done|lia].
  - by intros [? ?].
  - done.
  - intros j. destruct (decide (j = i)) as [->|Hne]; [by apply frame_go|].
    apply (frame_other (Some i) None w); try done; cbn [go store learn at_call holder state_ starts returned].
    + by rewrite lookup_partial_alter_ne.
    + etrans; [exact (Hk j)|]. by rewrite decide_False.
    + split; congruence.
    + unfold k_done. lia.
  - cbn. intros j r s Hin. specialize (once_answers0 j r s Hin). unfold k_done. destruct r; [|lia]. lia.
Qed.

Lemma call_step_inv i choice throws w : once_inv w -> exists w', call_step h i choice throws w = Ret tt w' /\ once_inv w'.
Proof.
  intros [o Hw]. pose proof (once_frames _ _ Hw i) as Hf. pose proof (load_bounds o w i choice Hw) as Hl. pose proof (once_range _ _ Hw) as Hr. unfold call_step.
  unfold frame in Hf. destruct (at_call w !! i) as [[| | | |s|s| |]|] eqn:Hi.
  - eexists. split; [done|]. exists o. pose proof (learn_inv o w i (load i choice w) Hw ltac:(lia)) as Hw1. pose proof (once_known _ _ Hw i).
    destruct (Z.eqb_spec (load i choice w) k_done) as [E|_]; [|apply go_inv; [done|by apply frame_go]].
    apply answer_inv; [done|tauto|tauto|]. rewrite knows_learn, decide_True by done. unfold k_done in E. lia.
  - eexists. split; [done|]. exists o. destruct (holder w) as [j|] eqn:Hh; [done|]. by apply locking_inv.
  - eexists. split; [done|]. exists o. by apply loading_inv.
  - eexists. split; [done|]. exists (Some i). by apply (marking_inv o).
  - eexists. split; [done|]. exists o. by apply unlocking_inv.
  - destruct Hf as (Hh & Hs & Hc). pose proof (once_known _ _ Hw i).
    assert ((match h with HARDENING_DEBUG => metl_assert h (s <=? k_done) | _ => ret tt end) w = Ret tt w) as Ea.
    { assert ((s <=? k_done) = true) as -> by (apply Z.leb_le; unfold k_done; lia). by destruct h. }
    rewrite (bind_Ret _ _ _ _ _ Ea). eexists. split; [done|]. cbv beta. unfold k_init. destruct Hc as [(-> & -> & Es & Er)|[Ho Hsk]].
    + cbn [Z.eqb negb]. exists (Some i). apply (owner_inv w); [done|done|]. apply frame_go. cbn. by rewrite Es.
    + exists o. rewrite (proj2 (Z.eqb_neq s 0)) by lia. cbn [negb]. apply answer_inv; [done|done|done|]. unfold k_done. destruct (Z.eqb_spec s 2); lia.
  - destruct Hf as (-> & Hh & Es & Er). eexists. split; [done|]. destruct throws.
    + exists None. pose proof Hw as []. specialize (once_claimed0 ltac:(eauto)). split; [exact once_range0|exact once_known0|exact once_lock0|by intros [? ?]| | |exact once_answers0].
      * cbn. by rewrite once_claimed0.
      * intros j. destruct (decide (j = i)) as [->|Hne]; [by apply frame_go|].
        apply (frame_other (Some i) None w); try done; cbn; [by rewrite lookup_partial_alter_ne|split; congruence|lia].
    + exists (Some i). apply (owner_inv w); [done|done|]. apply frame_go. cbn. by rewrite Er.
  - eexists. split; [done|]. exists None. by apply (finishing_inv o).
  - eexists. split; [done|]. exists o. apply go_inv; [done|]. by apply frame_go.
Qed.

Lemma once_run_inv es : forall w, once_inv w -> exists w', once_run h es w = Ret tt w' /\ once_inv w'.
Proof.
  induction es as [|e es IH]; intros w Hw; [by exists w|]. destruct (call_step_inv (who e) (choice_ e) (throws_ e) w Hw) as (w1 & E & H1).
  cbn [once_run]. rewrite (bind_Ret _ _ _ _ _ E). by apply IH.
Qed.

(** C19. Whatever calls of [try_call_once] are under way on a flag, nested in each other
    or in interrupts, however their steps fall and whatever values coherence lets their
    loads return, the initializer is entered at most once.  A call that returns true
    does so after it has returned, and sees what it wrote; one that returns false does
    so only after some call has claimed it; and no step traps. *)
Theorem once_flag_once es :
  exists w, once_run h es once_start = Ret tt w /\ (returned w <= starts w <= 1)%nat /\
    (forall i s, (i, true, s) ∈ answers w -> s = true /\ returned w = 1%nat) /\
    (forall i s, (i, false, s) ∈ answers w -> k_running <= state_ w).
Proof.
  destruct (once_run_inv es once_start once_start_inv) as (w & E & [o Hw]). exists w. split; [done|]. pose proof Hw as []. split; [|split].
  - destruct o as [i|].
    + specialize (once_frames0 i). unfold frame in once_frames0. destruct (at_call w !! i) as [[| | | |s|s| |]|]; intuition lia.
    + destruct once_counts0 as [-> ->]. destruct (Z.eqb_spec (state_ w) 0), (Z.eqb_spec (state_ w) 2); lia.
  - intros i s Hin. by destruct (once_answers0 i true s Hin) as (? & ? & _).
  - intros i s Hin. by specialize (once_answers0 i false s Hin).
Qed.
End once_proofs.
