(* ===== verification/Spsc.v ===== *)
(** * [spsc_queue]

    [include/metl/spsc_queue.hpp]: the bounded queue between one producer and one
    consumer, and [include/metl/detail/index_distance.hpp].

    The two sides are two threads whose steps interleave.  An index shared between
    them is the list of the values stored to it so far: a load by its owner gives
    the last one, and an acquire load by the other side gives any that is not
    older than what that side has read before, with everything its owner did
    before that store.  A slot carries the number of the store that its last access
    comes before, so that an access which does not happen after it is a data race,
    which like a lifetime error is [Fault]. *)

From Stdlib Require Import ZArith Lia.
From stdpp Require Import base numbers list option tactics.
From S2P Require Import Prelude.
Local Open Scope Z_scope.

(** ** Distances of free-running indices *)

Module IndexDistance.
Section distance.
  Context `{SizeT}.

(** [std::numeric_limits<std::size_t>::max() / 2]. *)
Definition half : Z := (2 ^ size_bits - 1) / 2.

Definition clamped_index_distance (head tail capacity : Z) : Z :=
  let forward := wrap (tail - head) in
  if half <? forward then 0 else if forward <? capacity then forward else capacity.

Definition compare_tickets (sequence pos : Z) : Z :=
  let distance := wrap (sequence - pos) in
  if distance =? 0 then 0 else if half <? distance then -1 else 1.
End distance.
End IndexDistance.

(** ** The queue *)

Inductive qslot (T : Type) : Type :=
  | Vacant (stamp : nat)            (** destroyed before the head store [stamp] *)
  | Holds (v : T) (stamp : nat).    (** constructed before the tail store [stamp] *)
Arguments Vacant {T} stamp.
Arguments Holds {T} v stamp.

(** Where each side is in its call. *)
Inductive producer_at (T : Type) : Type :=
  | PIdle
  | PReload (c : option T) (tail next : Z)
  | PConstruct (c : option T) (tail next : Z)
  | PPublish (v : T) (next : Z).
Arguments PIdle {T}.
Arguments PReload {T} c tail next.
Arguments PConstruct {T} c tail next.
Arguments PPublish {T} v next.

Inductive consumer_at (T : Type) : Type :=
  | CIdle
  | CReload (head : Z)
  | CMove (head : Z)
  | CDestroy (head : Z) (out : T)
  | CPublish (head : Z) (out : T).
Arguments CIdle {T}.
Arguments CReload {T} head.
Arguments CMove {T} head.
Arguments CDestroy {T} head out.
Arguments CPublish {T} head out.

Record spsc (T : Type) : Type := mk_spsc {
  head_ : list Z;            (** the stores to [head_] *)
  cached_tail_ : Z;
  seen_tail : nat;           (** the tail store the consumer read last *)
  tail_ : list Z;            (** the stores to [tail_] *)
  cached_head_ : Z;
  seen_head : nat;           (** the head store the producer read last *)
  slots_ : list (qslot T);
  producer : producer_at T;
  consumer : consumer_at T
}.
Arguments mk_spsc {T}.
Arguments head_ {T}.
Arguments cached_tail_ {T}.
Arguments seen_tail {T}.
Arguments tail_ {T}.
Arguments cached_head_ {T}.
Arguments seen_head {T}.
Arguments slots_ {T}.
Arguments producer {T}.
Arguments consumer {T}.

(** What a call has returned. *)
Inductive event (T : Type) : Type :=
  | Pushed (v : T) | PushRefused | PushThrew | Popped (v : T) | PopRefused.
Arguments Pushed {T} v.
Arguments PushRefused {T}.
Arguments PushThrew {T}.
Arguments Popped {T} v.
Arguments PopRefused {T}.

Module SpscQueue.
Section spsc_queue.
  Context `{SizeT} {T : Type} (C : Z) (moved : T -> T).
  Abbreviation MQ := (M (spsc T)).

Definition fresh : spsc T :=
  mk_spsc [0] 0 0 [0] 0 0 (replicate (Z.to_nat C) (Vacant 0)) PIdle CIdle.

Definition set_head hs (s : spsc T) := mk_spsc hs (cached_tail_ s) (seen_tail s) (tail_ s) (cached_head_ s) (seen_head s) (slots_ s) (producer s) (consumer s).
Definition set_cached_tail c n (s : spsc T) := mk_spsc (head_ s) c n (tail_ s) (cached_head_ s) (seen_head s) (slots_ s) (producer s) (consumer s).
Definition set_tail ts (s : spsc T) := mk_spsc (head_ s) (cached_tail_ s) (seen_tail s) ts (cached_head_ s) (seen_head s) (slots_ s) (producer s) (consumer s).
Definition set_cached_head c n (s : spsc T) := mk_spsc (head_ s) (cached_tail_ s) (seen_tail s) (tail_ s) c n (slots_ s) (producer s) (consumer s).
Definition set_slots x (s : spsc T) := mk_spsc (head_ s) (cached_tail_ s) (seen_tail s) (tail_ s) (cached_head_ s) (seen_head s) x (producer s) (consumer s).
Definition set_producer x (s : spsc T) := mk_spsc (head_ s) (cached_tail_ s) (seen_tail s) (tail_ s) (cached_head_ s) (seen_head s) (slots_ s) x (consumer s).
Definition set_consumer x (s : spsc T) := mk_spsc (head_ s) (cached_tail_ s) (seen_tail s) (tail_ s) (cached_head_ s) (seen_head s) (slots_ s) (producer s) x.

(** A relaxed load of one's own index. *)
Definition load_own (ws : list Z) : MQ Z :=
  match list.last ws with Some x => ret x | None => fun _ => Fault end.

(** The store an acquire load reads: [pick] when coherence allows it. *)
Definition readable (seen : nat) (ws : list Z) (pick : nat) : nat :=
  if (seen <=? pick)%nat && (pick <? length ws)%nat then pick else (length ws - 1)%nat.
Definition load_other (ws : list Z) (n : nat) : MQ Z :=
  match ws !! n with Some x => ret x | None => fun _ => Fault end.

(** [slot(index)]. *)
Definition slot (index : Z) : nat := Z.to_nat (Z.land index (C - 1)).

Definition construct (index : Z) (v : T) : MQ unit := fun s =>
  match slots_ s !! slot index with
  | Some (Vacant n) =>
      if (n <=? seen_head s)%nat then Ret tt (set_slots (<[slot index := Holds v (length (tail_ s))]> (slots_ s)) s)
      else Fault
  | _ => Fault
  end.

(** [out = std::move( *p)]: the moved-from object stays. *)
Definition move_out (index : Z) : MQ T := fun s =>
  match slots_ s !! slot index with
  | Some (Holds v n) =>
      if (n <=? seen_tail s)%nat then Ret v (set_slots (<[slot index := Holds (moved v) n]> (slots_ s)) s)
      else Fault
  | _ => Fault
  end.

Definition destroy (index : Z) : MQ unit := fun s =>
  match slots_ s !! slot index with
  | Some (Holds _ n) =>
      if (n <=? seen_tail s)%nat then Ret tt (set_slots (<[slot index := Vacant (length (head_ s))]> (slots_ s)) s)
      else Fault
  | _ => Fault
  end.

(** [try_emplace], a step at a time; [c] is what the constructor yields, [None]
    when it throws. *)
Definition producer_step (c : option T) (pick : nat) : MQ (option (event T)) :=
  let! pc := get producer in
  match pc with
  | PIdle =>
      let! ts := get tail_ in
      let! tail := load_own ts in
      let next := wrap (tail + 1) in
      let! cached := get cached_head_ in
      modify (set_producer (if C <? wrap (next - cached) then PReload c tail next else PConstruct c tail next)) ;;;
      ret None
  | PReload c tail next =>
      let! hs := get head_ in
      let! seen := get seen_head in
      let! head := load_other hs (readable seen hs pick) in
      modify (set_cached_head head (readable seen hs pick)) ;;;
      if C <? wrap (next - head) then modify (set_producer PIdle) ;;; ret (Some PushRefused)
      else modify (set_producer (PConstruct c tail next)) ;;; ret None
  | PConstruct None tail next => modify (set_producer PIdle) ;;; ret (Some PushThrew)
  | PConstruct (Some v) tail next =>
      construct tail v ;;; modify (set_producer (PPublish v next)) ;;; ret None
  | PPublish v next =>
      modify (fun s => set_tail (tail_ s ++ [next]) s) ;;; modify (set_producer PIdle) ;;; ret (Some (Pushed v))
  end.

(** [try_pop]. *)
Definition consumer_step (pick : nat) : MQ (option (event T)) :=
  let! pc := get consumer in
  match pc with
  | CIdle =>
      let! hs := get head_ in
      let! head := load_own hs in
      let! cached := get cached_tail_ in
      modify (set_consumer (if head =? cached then CReload head else CMove head)) ;;; ret None
  | CReload head =>
      let! ts := get tail_ in
      let! seen := get seen_tail in
      let! tail := load_other ts (readable seen ts pick) in
      modify (set_cached_tail tail (readable seen ts pick)) ;;;
      if head =? tail then modify (set_consumer CIdle) ;;; ret (Some PopRefused)
      else modify (set_consumer (CMove head)) ;;; ret None
  | CMove head => let! v := move_out head in modify (set_consumer (CDestroy head v)) ;;; ret None
  | CDestroy head v => destroy head ;;; modify (set_consumer (CPublish head v)) ;;; ret None
  | CPublish head v =>
      modify (fun s => set_head (head_ s ++ [wrap (head + 1)]) s) ;;; modify (set_consumer CIdle) ;;; ret (Some (Popped v))
  end.

(** Which side runs next, and what its choices are. *)
Inductive turn : Type := Producer (c : option T) (pick : nat) | Consumer (pick : nat).

Definition take_turn (t : turn) : MQ (option (event T)) :=
  match t with
  | Producer c pick => producer_step c pick
  | Consumer pick => consumer_step pick
  end.

(** An interleaving, and the calls that returned during it. *)
Fixpoint interleave (ts : list turn) : MQ (list (event T)) :=
  match ts with
  | [] => ret []
  | t :: ts' =>
      let! e := take_turn t in
      let! es := interleave ts' in
      ret (match e with Some x => x :: es | None => es end)
  end.

(** What an observer reads, from loads that need not be a snapshot. *)
Definition size_approx (head tail : Z) : Z := IndexDistance.clamped_index_distance head tail C.
Definition full (head tail : Z) : bool := size_approx head tail =? C.
Definition empty (head tail : Z) : bool := tail =? head.

(** [~spsc_queue()], when neither side is in a call any more: what they did
    happens before it. *)
Fixpoint drain (fuel : nat) (head tail : Z) : MQ unit :=
  if head =? tail then ret tt
  else match fuel with
  | O => fun _ => Spin
  | S fuel' => destroy head ;;; drain fuel' (wrap (head + 1)) tail
  end.
Definition destructor : MQ unit :=
  let! hs := get head_ in
  let! head := load_own hs in
  let! ts := get tail_ in
  let! tail := load_own ts in
  modify (fun s => set_cached_tail (cached_tail_ s) (length ts - 1) s) ;;;
  drain (Z.to_nat C) head tail.
End spsc_queue.
End SpscQueue.
