(* ===== verification/Positions.v ===== *)
(** * Positions of a free-running index

    The queues count their elements without end in an index that wraps.  The value
    stored for the position [k] is [at_position k]; here is what can be told of the
    positions from the values, as long as they are near. *)

From Stdlib Require Import ZArith Lia.
From stdpp Require Import base numbers list option tactics.
From S2P Require Import Prelude Spsc.
Local Open Scope Z_scope.

Section positions.
  Context `{SizeT} (C : Z).
  Context (HC : 2 <= C < 2 ^ (size_bits - 1)) (Hpow : Z.land C (C - 1) = 0).
  Abbreviation nC := (Z.to_nat C).

(** The value stored for the position [k]. *)
Definition at_position (k : nat) : Z := wrap (Z.of_nat k).
Lemma nC_pos : (2 <= nC)%nat /\ Z.of_nat nC = C /\ 2 * C < 2 ^ size_bits.
Proof. rewrite size_modulus_double. lia. Qed.

Lemma slot_position k : SpscQueue.slot C (at_position k) = (k mod nC)%nat.
Proof.
  pose proof nC_pos as (Hn & En & Hbound). unfold SpscQueue.slot, at_position, wrap. rewrite land_pow2_mask by (done || lia).
  destruct (land_pred_pow2 C ltac:(lia) Hpow) as (c & Hc & Ec).
  assert (C | 2 ^ size_bits) as Hdiv.
  { exists (2 ^ (size_bits - c)). rewrite Ec, <- Z.pow_add_r; [f_equal; lia| |done].
    assert (c < size_bits); [|lia]. apply (Z.pow_lt_mono_r_iff 2); [lia|pose proof size_bits_min; lia|]. rewrite <- Ec. lia. }
  rewrite Z.mod_mod_divide by done. rewrite <- En at 1. rewrite <- Nat2Z.inj_mod, Nat2Z.id. done.
Qed.

Lemma at_position_next k : wrap (at_position k + 1) = at_position (S k).
Proof. unfold at_position, wrap. rewrite Zplus_mod_idemp_l. f_equal. lia. Qed.

Lemma at_position_distance j k : (j <= k <= j + S nC)%nat -> wrap (at_position k - at_position j) = Z.of_nat k - Z.of_nat j.
Proof.
  intros Hjk. pose proof nC_pos as (Hn & En & Hbound). unfold at_position, wrap. rewrite <- Zminus_mod. apply Z.mod_small. lia.
Qed.

Lemma at_position_inj j k : (j <= k <= j + nC)%nat -> at_position j = at_position k <-> j = k.
Proof.
  intros Hjk. split; [|by intros ->]. intros E. pose proof (at_position_distance j k ltac:(lia)) as Ed. rewrite E, Z.sub_diag in Ed.
  unfold wrap in Ed. rewrite Z.mod_0_l in Ed; [lia|]. pose proof size_modulus_pos. lia.
Qed.

Lemma near_multiples (c x y r j k : nat) :
  (j = c * x + r -> k = c * y + r -> j <= k < j + c -> j = k)%nat.
Proof.
  intros -> -> Hjk. destruct (Nat.lt_trichotomy x y) as [Hlt|[->|Hgt]]; [|done|].
  - pose proof (Nat.mul_le_mono_l (S x) y c ltac:(lia)) as Hm. rewrite Nat.mul_succ_r in Hm. lia.
  - pose proof (Nat.mul_le_mono_l (S y) x c ltac:(lia)) as Hm. rewrite Nat.mul_succ_r in Hm. lia.
Qed.

(** Positions a capacity apart share a slot, nearer ones do not. *)
Lemma same_slot_near j k : (j mod nC = k mod nC)%nat -> (j <= k < j + nC)%nat -> j = k.
Proof.
  intros E Hjk. pose proof (Nat.div_mod_eq j nC) as Ej. pose proof (Nat.div_mod_eq k nC) as Ek. rewrite E in Ej.
  by apply (near_multiples nC (j / nC) (k / nC) (k mod nC)).
Qed.

Lemma same_slot_before j k : (j mod nC = k mod nC)%nat -> (j < k)%nat -> (j + nC <= k)%nat.
Proof.
  intros E Hjk. destruct (Nat.le_gt_cases (j + nC) k) as [|Hlt]; [done|]. assert (j <= k < j + nC)%nat as Hr by (clear E; lia).
  pose proof (same_slot_near j k E Hr). lia.
Qed.

Lemma slot_in_range k : (k mod nC < nC)%nat.
Proof. pose proof nC_pos. apply Nat.mod_upper_bound. lia. Qed.
End positions.
