(* ===== verification/SpscClaims.v ===== *)
(** * What [spsc_queue] promises

    The invariant of the two sides, under every interleaving and every load that
    coherence allows, and what follows from it. *)

From Stdlib Require Import ZArith Lia.
From stdpp Require Import base numbers list option tactics.
From S2P Require Import Prelude Spsc Positions.
Local Open Scope Z_scope.

Section invariant.
  Context `{SizeT} {T : Type} (C : Z) (moved : T -> T).
  Context (HC : 2 <= C < 2 ^ (size_bits - 1)) (Hpow : Z.land C (C - 1) = 0).
  Implicit Types (s : spsc T) (pushed popped : list T) (k n m r : nat) (v : T).
  Abbreviation nC := (Z.to_nat C).

  Abbreviation nC_pos := (nC_pos C HC).
  Abbreviation slot_position := (slot_position C HC Hpow).
  Abbreviation at_position_distance := (at_position_distance C HC).
  Abbreviation at_position_inj := (at_position_inj C HC).
  Abbreviation same_slot_near := (same_slot_near C).
  Abbreviation same_slot_before := (same_slot_before C HC).
  Abbreviation slot_in_range := (slot_in_range C HC).

Definition stores (n : nat) : list Z := at_position <$> seq 0 (S n).

Definition in_flight s : list T := match producer s with PPublish v _ => [v] | _ => [] end.
Definition lowest s (m : nat) : nat := match consumer s with CPublish _ _ => S m | _ => m end.

(** The position whose object has been moved from and not destroyed. *)
Definition moving s (m : nat) : option nat := match consumer s with CDestroy _ _ => Some m | _ => None end.

(** What a slot is for, when [vals] are the values so far and those from the
    position [lo] on have not been destroyed. *)
Definition slot_ok (vals : list T) (lo : nat) (mv : option nat) (r : nat) (x : qslot T) : Prop :=
  match x with
  | Vacant st => st = 0%nat \/ exists k, st = S k /\ (k mod nC = r)%nat /\ (k < lo)%nat
  | Holds v st => exists k v0, st = S k /\ (k mod nC = r)%nat /\ (lo <= k)%nat /\ vals !! k = Some v0 /\
                    v = if decide (mv = Some k) then moved v0 else v0
  end.

Record slots_ok (sl : list (qslot T)) (vals : list T) (lo : nat) (mv : option nat) : Prop := {
  slots_length : length sl = nC;
  slots_each : forall r x, sl !! r = Some x -> slot_ok vals lo mv r x;
  slots_filled : forall k, (lo <= k < length vals)%nat -> exists v, sl !! (k mod nC)%nat = Some (Holds v (S k))
}.

Definition producer_ok (n seen : nat) (pc : producer_at T) : Prop :=
  match pc with
  | PIdle => True
  | PReload _ tail next => tail = at_position n /\ next = at_position (S n)
  | PConstruct _ tail next => tail = at_position n /\ next = at_position (S n) /\ (S n <= seen + nC)%nat
  | PPublish v next => next = at_position (S n) /\ (S n <= seen + nC)%nat
  end.

Definition consumer_ok pushed (m seen : nat) (pc : consumer_at T) : Prop :=
  match pc with
  | CIdle => True
  | CReload head => head = at_position m
  | CMove head => head = at_position m /\ (m < seen)%nat
  | CDestroy head v | CPublish head v => head = at_position m /\ (m < seen)%nat /\ pushed !! m = Some v
  end.

(** The values [pushed] were published and the values [popped] handed out. *)
Record inv pushed popped s : Prop := {
  inv_head : head_ s = stores (length popped);
  inv_tail : tail_ s = stores (length pushed);
  inv_fifo : popped = take (length popped) pushed;
  inv_seen_tail : (length popped <= seen_tail s <= length pushed)%nat;
  inv_seen_head : (seen_head s <= length popped)%nat;
  inv_room : (length pushed <= seen_head s + nC)%nat;
  inv_cached_tail : cached_tail_ s = at_position (seen_tail s);
  inv_cached_head : cached_head_ s = at_position (seen_head s);
  inv_producer : producer_ok (length pushed) (seen_head s) (producer s);
  inv_consumer : consumer_ok pushed (length popped) (seen_tail s) (consumer s);
  inv_slots : slots_ok (slots_ s) (pushed ++ in_flight s) (lowest s (length popped)) (moving s (length popped))
}.

(** *** Positions *)

Lemma lookup_stores n k : stores n !! k = if decide (k <= n)%nat then Some (at_position k) else None.
Proof.
  unfold stores. rewrite list_lookup_fmap. case_decide.
  - by rewrite lookup_seq_lt by lia.
  - by rewrite lookup_seq_ge by lia.
Qed.

Lemma length_stores n : length (stores n) = S n.
Proof. unfold stores. by rewrite length_fmap, length_seq. Qed.

Lemma stores_S n : stores (S n) = stores n ++ [at_position (S n)].
Proof. unfold stores. by rewrite (seq_S (S n)), fmap_app. Qed.

Lemma load_own_stores n s : SpscQueue.load_own (stores n) s = Ret (at_position n) s.
Proof.
  unfold SpscQueue.load_own. assert (list.last (stores n) = Some (at_position n)) as ->; [|done].
  rewrite last_lookup, length_stores. cbn [pred]. rewrite lookup_stores. by case_decide.
Qed.

(** An acquire load gives a position between the last one seen and the latest. *)
Lemma readable_range n seen pick :
  (seen <= n)%nat -> (seen <= SpscQueue.readable seen (stores n) pick <= n)%nat.
Proof.
  intros. unfold SpscQueue.readable. rewrite length_stores.
  destruct (Nat.leb_spec seen pick), (Nat.ltb_spec pick (S n)); cbn; lia.
Qed.

Lemma load_other_stores n k s : (k <= n)%nat -> SpscQueue.load_other (stores n) k s = Ret (at_position k) s.
Proof. intros. unfold SpscQueue.load_other. rewrite lookup_stores. by case_decide. Qed.

Lemma fresh_inv : inv [] [] (SpscQueue.fresh C).
Proof.
  split; try done; [cbn; lia|]. split; cbn; [apply length_replicate| |lia].
  intros r x [-> _]%lookup_replicate. by left.
Qed.

(** *** The slots *)

Lemma slot_free sl vals lo mv :
  slots_ok sl vals lo mv -> (lo <= length vals < lo + nC)%nat ->
  exists st, sl !! (length vals mod nC)%nat = Some (Vacant st) /\ (st = 0 \/ st + nC <= S (length vals))%nat.
Proof.
  intros [Hl He Hf] Hr. destruct (lookup_lt_is_Some_2 sl (length vals mod nC)) as [x Hx]; [rewrite Hl; apply slot_in_range|].
  pose proof (He _ _ Hx) as Hok. destruct x as [st|v st]; cbn in Hok.
  - exists st. split; [done|]. destruct Hok as [->|(k & -> & Ek & Hk)]; [by left|right].
    pose proof (same_slot_before k (length vals) Ek ltac:(lia)). lia.
  - destruct Hok as (k & v0 & -> & Ek & Hk & Hv & _). apply lookup_lt_Some in Hv.
    assert (k = length vals); [|lia]. apply same_slot_near; [done|lia].
Qed.

Lemma slots_construct sl vals lo mv v :
  slots_ok sl vals lo mv -> (lo <= length vals < lo + nC)%nat -> (forall k, mv = Some k -> (k < length vals)%nat) ->
  slots_ok (<[(length vals mod nC)%nat := Holds v (S (length vals))]> sl) (vals ++ [v]) lo mv.
Proof.
  intros Hok Hr Hmv. destruct (slot_free sl vals lo mv Hok Hr) as (st & Hst & _). destruct Hok as [Hl He Hf].
  split; [by rewrite length_insert| |].
  - intros r x. rewrite list_lookup_insert_Some. intros [(<- & <- & _)|[Hne Hx]].
    + exists (length vals), v. rewrite lookup_app_r, Nat.sub_diag by done. split_and!; try done; [lia|].
      rewrite decide_False; [done|]. intros E. specialize (Hmv _ E). lia.
    + specialize (He r x Hx). destruct x as [n|w n]; [done|]. destruct He as (k & v0 & ? & ? & ? & Hk & ?).
      exists k, v0. split_and!; try done. by apply lookup_app_l_Some.
  - intros k. rewrite length_app. cbn [length]. intros Hk. destruct (decide (k = length vals)) as [->|Hne].
    + exists v. apply list_lookup_insert_eq. by eapply lookup_lt_Some.
    + destruct (Hf k ltac:(lia)) as (w & Hw). exists w. rewrite list_lookup_insert_ne; [done|]. intros E.
      assert (k = length vals); [|done]. apply same_slot_near; [done|lia].
Qed.

Lemma slots_at_lowest sl vals lo mv v0 :
  slots_ok sl vals lo mv -> vals !! lo = Some v0 ->
  sl !! (lo mod nC)%nat = Some (Holds (if decide (mv = Some lo) then moved v0 else v0) (S lo)).
Proof.
  intros [Hl He Hf] Hv. apply lookup_lt_Some in Hv as Hlt. destruct (Hf lo ltac:(lia)) as (w & Hw).
  pose proof (He _ _ Hw) as (k & v1 & [= <-] & _ & _ & Hk & ->). rewrite Hk in Hv. by injection Hv as ->.
Qed.

(** Any change of the slot at the front leaves the others as they are. *)
Lemma slots_front sl vals lo mv lo' mv' x :
  slots_ok sl vals lo mv -> (lo < length vals <= lo + nC)%nat -> (lo <= lo')%nat ->
  (forall k, k <> lo -> mv' = Some k <-> mv = Some k) -> (lo' = lo \/ lo' = S lo) ->
  slot_ok vals lo' mv' (lo mod nC) x -> (lo' = lo -> exists w, x = Holds w (S lo)) ->
  slots_ok (<[(lo mod nC)%nat := x]> sl) vals lo' mv'.
Proof.
  intros [Hl He Hf] Hr Hlo Hmv Hlo' Hx Hx'. split; [by rewrite length_insert| |].
  - intros r y. rewrite list_lookup_insert_Some. intros [(<- & <- & _)|[Hne Hy]]; [done|]. specialize (He r y Hy).
    destruct y as [st|w st]; cbn in *.
    + destruct He as [->|(k & -> & Ek & Hk)]; [by left|right]. exists k. split_and!; [done|done|lia].
    + destruct He as (k & v0 & -> & Ek & Hk & Hv & ->). assert (k <> lo) as Hkl by (intros ->; done).
      exists k, v0. split_and!; try done; [lia|]. destruct (decide (mv = Some k)) as [E|E], (decide (mv' = Some k)) as [E'|E']; try done.
      * destruct E'. by apply Hmv.
      * destruct E. by apply Hmv.
  - intros k Hk. destruct (decide (k = lo)) as [->|Hne].
    + destruct (Hx' ltac:(lia)) as (w & ->). exists w. apply list_lookup_insert_eq. rewrite Hl. apply slot_in_range.
    + destruct (Hf k ltac:(lia)) as (w & Hw). exists w. rewrite list_lookup_insert_ne; [done|]. intros E.
      assert (lo = k); [|congruence]. apply same_slot_near; [done|lia].
Qed.

(** *** The steps *)

Definition published (e : option (event T)) : list T := match e with Some (Pushed v) => [v] | _ => [] end.
Definition handed_over (e : option (event T)) : list T := match e with Some (Popped v) => [v] | _ => [] end.

(** Only the producer's own place and view change. *)
Lemma inv_producer_moves pushed popped s pc n :
  inv pushed popped s -> in_flight s = [] ->
  (seen_head s <= n <= length popped)%nat -> producer_ok (length pushed) n pc -> (forall v x, pc <> PPublish v x) ->
  inv pushed popped (SpscQueue.set_producer pc (SpscQueue.set_cached_head (at_position n) n s)).
Proof.
  intros [] Hfl Hn Hpc Hne. split; try done; cbn [seen_head SpscQueue.set_producer SpscQueue.set_cached_head]; [lia|lia|].
  assert (in_flight (SpscQueue.set_producer pc (SpscQueue.set_cached_head (at_position n) n s)) = []) as ->
    by (destruct pc; try done; by destruct (Hne v next)).
  by rewrite Hfl in inv_slots0.
Qed.

Lemma set_cached_head_same pushed popped s :
  inv pushed popped s -> SpscQueue.set_cached_head (at_position (seen_head s)) (seen_head s) s = s.
Proof. intros []. rewrite <- inv_cached_head0. by destruct s. Qed.

Lemma producer_steps pushed popped s c pick :
  inv pushed popped s ->
  exists e s', SpscQueue.producer_step C c pick s = Ret e s' /\ inv (pushed ++ published e) popped s' /\ handed_over e = [] /\
    consumer s' = consumer s.
Proof.
  intros Hi. pose proof nC_pos as (Hn2 & En & Hbound). pose proof Hi as []. unfold SpscQueue.producer_step. mstep.
  destruct (producer s) as [|c0 tail next|[v|] tail next|v next] eqn:Ep; cbn [producer_ok] in *.
  - mstep. rewrite inv_tail0, (bind_Ret _ _ _ _ _ (load_own_stores _ s)). mstep. mstep. rewrite inv_cached_head0, at_position_next.
    rewrite at_position_distance by lia. eexists _, _. split; [reflexivity|]. cbn [published handed_over]. rewrite app_nil_r.
    split; [|done]. rewrite <- (set_cached_head_same pushed popped s Hi) at 2.
    apply inv_producer_moves; [done|unfold in_flight; by rewrite Ep|lia| |].
    + destruct (Z.ltb_spec C (Z.of_nat (S (length pushed)) - Z.of_nat (seen_head s))); cbn; [done|split_and!; [done|done|lia]].
    + intros v x. by destruct (_ <? _).
  - destruct inv_producer0 as [-> ->]. mstep. mstep. rewrite inv_head0.
    pose proof (readable_range (length popped) (seen_head s) pick inv_seen_head0) as Hrd.
    set (j := SpscQueue.readable _ _ _) in *. rewrite (bind_Ret _ _ _ _ _ (load_other_stores (length popped) j s (proj2 Hrd))). mstep.
    rewrite at_position_distance by lia.
    destruct (Z.ltb_spec C (Z.of_nat (S (length pushed)) - Z.of_nat j)); mstep; eexists _, _; (split; [reflexivity|]);
      cbn [published handed_over]; rewrite app_nil_r; (split; [|done]);
      (apply inv_producer_moves; [done|unfold in_flight; by rewrite Ep|lia| |done]); [done|split_and!; [done|done|lia]].
  - destruct inv_producer0 as (-> & -> & Hroom). unfold in_flight in inv_slots0. rewrite Ep, app_nil_r in inv_slots0.
    assert (length popped <= lowest s (length popped) <= length pushed)%nat as Hlo.
    { unfold lowest. destruct (consumer s); cbn in inv_consumer0; lia. }
    destruct (slot_free _ _ _ _ inv_slots0 ltac:(lia)) as (st & Hst & Hle).
    assert (SpscQueue.construct C (at_position (length pushed)) v s = Ret tt
      (SpscQueue.set_slots (<[(length pushed mod nC)%nat := Holds v (S (length pushed))]> (slots_ s)) s)) as Ec.
    { unfold SpscQueue.construct. rewrite slot_position, Hst, (proj2 (Nat.leb_le st (seen_head s))) by lia.
      by rewrite inv_tail0, length_stores. }
    rewrite (bind_Ret _ _ _ _ _ Ec). mstep. eexists _, _. split; [reflexivity|]. cbn [published handed_over]. rewrite app_nil_r.
    split; [|done]. split; try done.
    refine (slots_construct _ _ (lowest s (length popped)) (moving s (length popped)) v inv_slots0 _ _); [lia|].
    intros k. unfold moving. destruct (consumer s); try done. intros [= <-]. cbn in inv_consumer0. lia.
  - destruct inv_producer0 as (-> & -> & Hroom). mstep. eexists _, _. split; [reflexivity|]. cbn [published handed_over].
    rewrite app_nil_r. split; [|done]. rewrite <- (set_cached_head_same pushed popped s Hi).
    apply inv_producer_moves; [done|unfold in_flight; by rewrite Ep|lia|done|done].
  - destruct inv_producer0 as [-> Hroom]. mstep. mstep. eexists _, _. split; [reflexivity|]. cbn [published handed_over].
    split; [|done]. unfold in_flight in inv_slots0. rewrite Ep in inv_slots0. rewrite inv_tail0, <- stores_S.
    assert (length (pushed ++ [v]) = S (length pushed)) as El by (rewrite length_app; cbn; lia).
    split; try done; cbn; rewrite ?El; try lia; try done.
    + rewrite inv_fifo0 at 1. by rewrite take_app_le by lia.
    + destruct (consumer s); cbn in *; try done; destruct inv_consumer0 as (? & ? & ?); split_and!; try done; by apply lookup_app_l_Some.
    + by rewrite app_nil_r.
Qed.

(** Only the consumer's own place and view change. *)
Lemma inv_consumer_moves pushed popped s pc n :
  inv pushed popped s -> lowest s (length popped) = length popped -> moving s (length popped) = None ->
  (seen_tail s <= n <= length pushed)%nat -> consumer_ok pushed (length popped) n pc ->
  match pc with CDestroy _ _ | CPublish _ _ => False | _ => True end ->
  inv pushed popped (SpscQueue.set_consumer pc (SpscQueue.set_cached_tail (at_position n) n s)).
Proof.
  intros [] Hlo Hmv Hn Hpc Hne. split; try done; cbn [seen_tail SpscQueue.set_consumer SpscQueue.set_cached_tail]; [lia|].
  assert (lowest (SpscQueue.set_consumer pc (SpscQueue.set_cached_tail (at_position n) n s)) (length popped) = length popped) as ->
    by (by destruct pc).
  assert (moving (SpscQueue.set_consumer pc (SpscQueue.set_cached_tail (at_position n) n s)) (length popped) = None) as ->
    by (by destruct pc).
  by rewrite Hlo, Hmv in inv_slots0.
Qed.

Lemma set_cached_tail_same pushed popped s :
  inv pushed popped s -> SpscQueue.set_cached_tail (at_position (seen_tail s)) (seen_tail s) s = s.
Proof. intros []. rewrite <- inv_cached_tail0. by destruct s. Qed.

Lemma consumer_steps pushed popped s pick :
  inv pushed popped s ->
  exists e s', SpscQueue.consumer_step C moved pick s = Ret e s' /\ inv pushed (popped ++ handed_over e) s' /\ published e = [] /\
    producer s' = producer s.
Proof.
  intros Hi. pose proof nC_pos as (Hn2 & En & Hbound). pose proof Hi as []. unfold SpscQueue.consumer_step. mstep.
  assert (length (pushed ++ in_flight s) <= length popped + nC)%nat as Hwidth.
  { rewrite length_app. unfold in_flight. destruct (producer s); cbn in *; lia. }
  destruct (consumer s) as [|head|head|head v|head v] eqn:Ep; cbn [consumer_ok] in *.
  - mstep. rewrite inv_head0, (bind_Ret _ _ _ _ _ (load_own_stores _ s)). mstep. mstep. rewrite inv_cached_tail0.
    eexists _, _. split; [reflexivity|]. cbn [published handed_over]. rewrite app_nil_r. split; [|done].
    rewrite <- (set_cached_tail_same pushed popped s Hi) at 2.
    pose proof (at_position_inj (length popped) (seen_tail s) ltac:(lia)) as Hinj.
    apply inv_consumer_moves; [done|unfold lowest; by rewrite Ep|unfold moving; by rewrite Ep|lia| |by destruct (_ =? _)].
    destruct (Z.eqb_spec (at_position (length popped)) (at_position (seen_tail s))) as [E|E]; cbn; [done|].
    split; [done|]. destruct (decide (length popped = seen_tail s)) as [E'|]; [|lia]. by apply Hinj in E'.
  - subst head. mstep. mstep. rewrite inv_tail0.
    pose proof (readable_range (length pushed) (seen_tail s) pick (proj2 inv_seen_tail0)) as Hrd.
    set (j := SpscQueue.readable _ _ _) in *. rewrite (bind_Ret _ _ _ _ _ (load_other_stores (length pushed) j s (proj2 Hrd))). mstep.
    pose proof (at_position_inj (length popped) j ltac:(lia)) as Hinj.
    destruct (Z.eqb_spec (at_position (length popped)) (at_position j)) as [E|E]; mstep; eexists _, _; (split; [reflexivity|]);
      cbn [published handed_over]; rewrite app_nil_r; (split; [|done]);
      (apply inv_consumer_moves; [done|unfold lowest; by rewrite Ep|unfold moving; by rewrite Ep|lia| |done]); [done|].
    split; [done|]. destruct (decide (length popped = j)) as [E'|]; [|lia]. by apply Hinj in E'.
  - destruct inv_consumer0 as [-> Hlt]. unfold lowest, moving in inv_slots0. rewrite Ep in inv_slots0.
    destruct (lookup_lt_is_Some_2 pushed (length popped)) as [v Hv]; [lia|].
    assert ((pushed ++ in_flight s) !! length popped = Some v) as Hv' by (by apply lookup_app_l_Some).
    pose proof (slots_at_lowest _ _ _ _ v inv_slots0 Hv') as Hslot. rewrite decide_False in Hslot by done.
    assert (SpscQueue.move_out C moved (at_position (length popped)) s = Ret v
      (SpscQueue.set_slots (<[(length popped mod nC)%nat := Holds (moved v) (S (length popped))]> (slots_ s)) s)) as Ec.
    { unfold SpscQueue.move_out. by rewrite slot_position, Hslot, (proj2 (Nat.leb_le _ (seen_tail s))) by lia. }
    rewrite (bind_Ret _ _ _ _ _ Ec). mstep. eexists _, _. split; [reflexivity|]. cbn [published handed_over]. rewrite app_nil_r.
    split; [|done]. split; try done. apply lookup_lt_Some in Hv' as Hlt'.
    refine (slots_front (slots_ s) (pushed ++ in_flight s) (length popped) None (length popped) (Some (length popped)) _
      inv_slots0 _ _ _ _ _ _); [lia|done| |by left| |eauto].
    + intros k Hk. split; congruence.
    + exists (length popped), v. split_and!; try done. by rewrite decide_True.
  - destruct inv_consumer0 as (-> & Hlt & Hv). unfold lowest, moving in inv_slots0. rewrite Ep in inv_slots0.
    assert ((pushed ++ in_flight s) !! length popped = Some v) as Hv' by (by apply lookup_app_l_Some).
    pose proof (slots_at_lowest _ _ _ _ v inv_slots0 Hv') as Hslot.
    assert (SpscQueue.destroy C (at_position (length popped)) s = Ret tt
      (SpscQueue.set_slots (<[(length popped mod nC)%nat := Vacant (S (length popped))]> (slots_ s)) s)) as Ec.
    { unfold SpscQueue.destroy. rewrite slot_position, Hslot, (proj2 (Nat.leb_le _ (seen_tail s))) by lia.
      by rewrite inv_head0, length_stores. }
    rewrite (bind_Ret _ _ _ _ _ Ec). mstep. eexists _, _. split; [reflexivity|]. cbn [published handed_over]. rewrite app_nil_r.
    split; [|done]. split; try done. apply lookup_lt_Some in Hv' as Hlt'.
    refine (slots_front (slots_ s) (pushed ++ in_flight s) (length popped) (Some (length popped)) (S (length popped)) None _
      inv_slots0 _ _ _ _ _ _); [lia|lia| |by right| |lia].
    + intros k Hk. split; congruence.
    + right. exists (length popped). split_and!; [done|done|lia].
  - destruct inv_consumer0 as (-> & Hlt & Hv). mstep. mstep. eexists _, _. split; [reflexivity|]. cbn [published handed_over].
    split; [|done]. unfold lowest, moving in inv_slots0. rewrite Ep in inv_slots0. rewrite inv_head0, at_position_next, <- stores_S.
    assert (length (popped ++ [v]) = S (length popped)) as El by (rewrite length_app; cbn; lia).
    split; try done; cbn; rewrite ?El; try lia; try done.
    rewrite (take_S_r pushed _ v Hv). by rewrite <- inv_fifo0.
Qed.

(** *** Interleavings *)

Definition pushes (es : list (event T)) : list T := es ≫= fun e => published (Some e).
Definition pops (es : list (event T)) : list T := es ≫= fun e => handed_over (Some e).
Abbreviation interleave := (SpscQueue.interleave C moved).

Lemma turn_steps pushed popped s t :
  inv pushed popped s ->
  exists e s', SpscQueue.take_turn C moved t s = Ret e s' /\ inv (pushed ++ published e) (popped ++ handed_over e) s'.
Proof.
  intros Hi. destruct t as [c pick|pick]; cbn [SpscQueue.take_turn].
  - destruct (producer_steps pushed popped s c pick Hi) as (e & s' & E & Hi' & Hh & _). exists e, s'. by rewrite Hh, app_nil_r.
  - destruct (consumer_steps pushed popped s pick Hi) as (e & s' & E & Hi' & Hp & _). exists e, s'. by rewrite Hp, app_nil_r.
Qed.

Lemma interleave_inv ts pushed popped s :
  inv pushed popped s ->
  exists es s', interleave ts s = Ret es s' /\ inv (pushed ++ pushes es) (popped ++ pops es) s'.
Proof.
  revert pushed popped s. induction ts as [|t ts IH]; intros pushed popped s Hi; cbn [SpscQueue.interleave].
  { exists [], s. by rewrite !app_nil_r. }
  destruct (turn_steps pushed popped s t Hi) as (e & s1 & E1 & Hi1). rewrite (bind_Ret _ _ _ _ _ E1).
  destruct (IH _ _ s1 Hi1) as (es & s2 & E2 & Hi2). rewrite (bind_Ret _ _ _ _ _ E2). eexists _, s2. split; [reflexivity|].
  rewrite <- !app_assoc in Hi2. destruct e as [x|]; [|done]. done.
Qed.

Lemma reachable_inv ts es s :
  interleave ts (SpscQueue.fresh C) = Ret es s -> inv (pushes es) (pops es) s.
Proof.
  intros E. destruct (interleave_inv ts [] [] _ fresh_inv) as (es' & s' & E' & Hi). rewrite E in E'. by injection E' as <- <-.
Qed.

(** *** How many turns a call takes *)

Definition producer_rank s : nat :=
  match producer s with PIdle => 0 | PReload _ _ _ => 1 | PConstruct _ _ _ => 2 | PPublish _ _ => 3 end.
Definition consumer_rank s : nat :=
  match consumer s with CIdle => 0 | CReload _ => 1 | CMove _ => 2 | CDestroy _ _ => 3 | CPublish _ _ => 4 end.

Definition by_producer (e : event T) : bool := match e with Pushed _ | PushRefused | PushThrew => true | _ => false end.
Definition is_producer (t : SpscQueue.turn (T := T)) : bool := match t with SpscQueue.Producer _ _ => true | _ => false end.
Definition count {A} (f : A -> bool) (l : list A) : nat := length (List.filter f l).

Lemma producer_step_rank c pick s e s' :
  SpscQueue.producer_step C c pick s = Ret e s' ->
  match e with Some x => by_producer x = true /\ producer_rank s' = 0%nat | None => (producer_rank s < producer_rank s')%nat end /\
  consumer s' = consumer s /\ (producer_rank s <= 3)%nat.
Proof.
  unfold SpscQueue.producer_step, SpscQueue.load_own, SpscQueue.load_other, SpscQueue.construct, bind, get, modify, ret.
  intros E. repeat (case_match; simplify_eq/=; try done); unfold producer_rank; cbn;
    repeat match goal with E : producer _ = _ |- _ => rewrite E end; split_and!; (done || lia).
Qed.

Lemma consumer_step_rank pick s e s' :
  SpscQueue.consumer_step C moved pick s = Ret e s' ->
  match e with Some x => by_producer x = false /\ consumer_rank s' = 0%nat | None => (consumer_rank s < consumer_rank s')%nat end /\
  producer s' = producer s /\ (consumer_rank s <= 4)%nat.
Proof.
  unfold SpscQueue.consumer_step, SpscQueue.load_own, SpscQueue.load_other, SpscQueue.move_out, SpscQueue.destroy, bind, get, modify, ret.
  intros E. repeat (case_match; simplify_eq/=; try done); unfold consumer_rank; cbn;
    repeat match goal with E : consumer _ = _ |- _ => rewrite E end; split_and!; (done || lia).
Qed.

Lemma interleave_turns ts es s s' :
  interleave ts s = Ret es s' ->
  (count is_producer ts + producer_rank s <= 4 * count by_producer es + producer_rank s' /\
   count (fun t => negb (is_producer t)) ts + consumer_rank s <= 5 * count (fun e => negb (by_producer e)) es + consumer_rank s')%nat.
Proof.
  revert es s. induction ts as [|t ts IH]; intros es s; cbn [SpscQueue.interleave].
  { intros [= <- <-]. cbn. lia. }
  unfold bind. destruct (SpscQueue.take_turn C moved t s) as [e s1| | | |] eqn:E1; try done.
  destruct (interleave ts s1) as [es1 s2| | | |] eqn:E2; try done. intros [= <- <-]. specialize (IH es1 s1 E2).
  unfold count in *. destruct t as [c pick|pick]; cbn [SpscQueue.take_turn is_producer List.filter negb length] in *.
  - apply producer_step_rank in E1 as (He & Hc & Hr). unfold consumer_rank in *. rewrite Hc in IH. destruct e as [x|]; [destruct He as [Hx Hs1]; cbn [List.filter]; rewrite Hx; cbn [negb length]|];
      lia.
  - apply consumer_step_rank in E1 as (He & Hc & Hr). unfold producer_rank in *. rewrite Hc in IH. destruct e as [x|]; [destruct He as [Hx Hs1]; cbn [List.filter]; rewrite Hx; cbn [negb length]|];
      lia.
Qed.

(** *** A call that is not disturbed *)

(** One side runs to the end of its call; its loads read the latest store. *)
Fixpoint call (fuel : nat) (t : SpscQueue.turn) : M (spsc T) (event T) :=
  match fuel with
  | O => fun _ => Spin
  | S fuel' =>
      let! e := SpscQueue.take_turn C moved t in
      match e with Some x => ret x | None => call fuel' t end
  end.

Lemma readable_latest seen n : SpscQueue.readable seen (stores n) (S n) = n.
Proof. unfold SpscQueue.readable. rewrite length_stores, Nat.ltb_irrefl, andb_false_r. lia. Qed.

(** Where a step of the producer leads. *)
Definition producer_next pushed popped s (c : option T) (e : option (event T)) s' : Prop :=
  match producer s with
  | PIdle => e = None /\ exists tail next, producer s' =
      if (length pushed <? seen_head s + nC)%nat then PConstruct c tail next else PReload c tail next
  | PReload c' tail next =>
      if (length pushed <? length popped + nC)%nat then e = None /\ producer s' = PConstruct c' tail next
      else e = Some PushRefused
  | PConstruct None _ _ => e = Some PushThrew
  | PConstruct (Some v) _ next => e = None /\ producer s' = PPublish v next
  | PPublish v _ => e = Some (Pushed v)
  end.

Lemma producer_steps_latest pushed popped s c e s' :
  inv pushed popped s -> SpscQueue.producer_step C c (S (length popped)) s = Ret e s' -> producer_next pushed popped s c e s'.
Proof.
  intros Hi. pose proof nC_pos as (Hn2 & En & Hbound). pose proof Hi as []. unfold SpscQueue.producer_step, producer_next. mstep.
  destruct (producer s) as [|c0 tail next|[v|] tail next|v next] eqn:Ep; cbn [producer_ok] in *.
  - mstep. rewrite inv_tail0, (bind_Ret _ _ _ _ _ (load_own_stores _ s)). mstep. mstep. rewrite inv_cached_head0, at_position_next.
    rewrite at_position_distance by lia. intros [= <- <-]. split; [done|]. cbn [producer SpscQueue.set_producer].
    destruct (Z.ltb_spec C (Z.of_nat (S (length pushed)) - Z.of_nat (seen_head s))), (Nat.ltb_spec (length pushed) (seen_head s + nC));
      (lia || eauto).
  - destruct inv_producer0 as [-> ->]. mstep. mstep. rewrite inv_head0, readable_latest.
    rewrite (bind_Ret _ _ _ _ _ (load_other_stores (length popped) (length popped) s (le_n _))). mstep.
    rewrite at_position_distance by lia.
    destruct (Z.ltb_spec C (Z.of_nat (S (length pushed)) - Z.of_nat (length popped))), (Nat.ltb_spec (length pushed) (length popped + nC));
      try lia; mstep; by intros [= <- <-].
  - unfold bind at 1. destruct (SpscQueue.construct C tail v s) as [[] s1| | | |]; try done. by intros [= <- <-].
  - by intros [= <- <-].
  - by intros [= <- <-].
Qed.

(** From any place in a call that goes on, the producer finishes it. *)
Lemma producer_finishes pushed popped s v fuel :
  inv pushed popped s -> (4 <= fuel + producer_rank s)%nat ->
  match producer s with
  | PIdle => True
  | PReload c _ _ => c = Some v
  | PConstruct c _ _ => c = Some v /\ (length pushed < length popped + nC)%nat
  | PPublish w _ => w = v /\ (length pushed < length popped + nC)%nat
  end ->
  exists s', call fuel (SpscQueue.Producer (Some v) (S (length popped))) s =
    Ret (if (length pushed <? length popped + nC)%nat then Pushed v else PushRefused) s' /\
    producer s' = PIdle.
Proof.
  revert s. induction fuel as [|fuel IH]; intros s Hi Hf Hpc; [unfold producer_rank in Hf; destruct (producer s); lia|].
  pose proof (inv_seen_head _ _ _ Hi) as Hseen. cbn [call SpscQueue.take_turn].
  destruct (producer_steps pushed popped s (Some v) (S (length popped)) Hi) as (e & s1 & E1 & Hi1 & Hh & _).
  rewrite (bind_Ret _ _ _ _ _ E1). pose proof (producer_steps_latest _ _ _ _ _ _ Hi E1) as Hnext.
  apply producer_step_rank in E1 as (Hrank & _ & _). unfold producer_next in Hnext.
  destruct (producer s) as [|c tail next|[w|] tail next|w next] eqn:Ep.
  - destruct Hnext as (-> & tail & next & Ep1). rewrite app_nil_r in Hi1. apply IH; [done|lia|]. rewrite Ep1.
    destruct (Nat.ltb_spec (length pushed) (seen_head s + nC)); [split; [done|lia]|done].
  - subst c. destruct (Nat.ltb_spec (length pushed) (length popped + nC)) as [Hlt|Hge].
    + destruct Hnext as (-> & Ep1). rewrite app_nil_r in Hi1. apply IH; [done|lia|]. by rewrite Ep1.
    + subst e. exists s1. split; [done|]. destruct Hrank as [_ Hr]. unfold producer_rank in Hr. by destruct (producer s1).
  - destruct Hpc as [[= ->] Hlt]. destruct Hnext as (-> & Ep1). rewrite app_nil_r in Hi1. apply IH; [done|lia|]. by rewrite Ep1.
  - by destruct Hpc.
  - destruct Hpc as [-> Hlt]. subst e. exists s1. rewrite (proj2 (Nat.ltb_lt _ _) Hlt). split; [done|].
    destruct Hrank as [_ Hr]. unfold producer_rank in Hr. by destruct (producer s1).
Qed.

(** The same for the consumer. *)
Definition consumer_next pushed popped s (e : option (event T)) s' : Prop :=
  match consumer s with
  | CIdle => e = None /\ exists head, consumer s' = if (length popped <? seen_tail s)%nat then CMove head else CReload head
  | CReload head => if (length popped <? length pushed)%nat then e = None /\ consumer s' = CMove head else e = Some PopRefused
  | CMove head => e = None /\ exists v, consumer s' = CDestroy head v
  | CDestroy head v => e = None /\ consumer s' = CPublish head v
  | CPublish head v => e = Some (Popped v)
  end.

Lemma consumer_steps_latest pushed popped s e s' :
  inv pushed popped s -> SpscQueue.consumer_step C moved (S (length pushed)) s = Ret e s' -> consumer_next pushed popped s e s'.
Proof.
  intros Hi. pose proof nC_pos as (Hn2 & En & Hbound). pose proof Hi as []. unfold SpscQueue.consumer_step, consumer_next. mstep.
  destruct (consumer s) as [|head|head|head v|head v] eqn:Ep; cbn [consumer_ok] in *.
  - mstep. rewrite inv_head0, (bind_Ret _ _ _ _ _ (load_own_stores _ s)). mstep. mstep. rewrite inv_cached_tail0.
    intros [= <- <-]. split; [done|]. cbn [consumer SpscQueue.set_consumer].
    pose proof (at_position_inj (length popped) (seen_tail s) ltac:(lia)) as Hinj.
    destruct (Z.eqb_spec (at_position (length popped)) (at_position (seen_tail s))) as [E|E], (Nat.ltb_spec (length popped) (seen_tail s));
      eauto; [apply Hinj in E; lia|]. destruct E. apply Hinj. lia.
  - subst head. mstep. mstep. rewrite inv_tail0, readable_latest.
    rewrite (bind_Ret _ _ _ _ _ (load_other_stores (length pushed) (length pushed) s (le_n _))). mstep.
    pose proof (at_position_inj (length popped) (length pushed) ltac:(lia)) as Hinj.
    destruct (Z.eqb_spec (at_position (length popped)) (at_position (length pushed))) as [E|E], (Nat.ltb_spec (length popped) (length pushed));
      mstep; intros [= <- <-]; try done; [apply Hinj in E; lia|]. destruct E. apply Hinj. lia.
  - unfold bind at 1. destruct (SpscQueue.move_out C moved head s) as [v s1| | | |]; try done. intros [= <- <-]. eauto.
  - unfold bind at 1. destruct (SpscQueue.destroy C head s) as [[] s1| | | |]; try done. by intros [= <- <-].
  - by intros [= <- <-].
Qed.

Lemma consumer_finishes pushed popped s fuel :
  inv pushed popped s -> (5 <= fuel + consumer_rank s)%nat ->
  match consumer s with CIdle | CReload _ => True | _ => (length popped < length pushed)%nat end ->
  exists s', call fuel (SpscQueue.Consumer (S (length pushed))) s =
    Ret (match pushed !! length popped with Some v => Popped v | None => PopRefused end) s' /\
    consumer s' = CIdle.
Proof.
  revert s. induction fuel as [|fuel IH]; intros s Hi Hf Hpc; [unfold consumer_rank in Hf; destruct (consumer s); lia|].
  pose proof (inv_seen_tail _ _ _ Hi) as Hseen. cbn [call SpscQueue.take_turn].
  destruct (consumer_steps pushed popped s (S (length pushed)) Hi) as (e & s1 & E1 & Hi1 & Hh & _).
  rewrite (bind_Ret _ _ _ _ _ E1). pose proof (consumer_steps_latest _ _ _ _ _ Hi E1) as Hnext.
  apply consumer_step_rank in E1 as (Hrank & _ & _). unfold consumer_next in Hnext. pose proof (inv_consumer _ _ _ Hi) as Hok.
  destruct (consumer s) as [|head|head|head v|head v] eqn:Ep; cbn [consumer_ok] in Hok.
  - destruct Hnext as (-> & head & Ep1). rewrite app_nil_r in Hi1. apply IH; [done|lia|]. rewrite Ep1.
    destruct (Nat.ltb_spec (length popped) (seen_tail s)); [lia|done].
  - destruct (Nat.ltb_spec (length popped) (length pushed)) as [Hlt|Hge].
    + destruct Hnext as (-> & Ep1). rewrite app_nil_r in Hi1. apply IH; [done|lia|]. by rewrite Ep1.
    + subst e. exists s1. rewrite lookup_ge_None_2 by done. split; [done|]. destruct Hrank as [_ Hr].
      unfold consumer_rank in Hr. by destruct (consumer s1).
  - destruct Hnext as (-> & v & Ep1). rewrite app_nil_r in Hi1. apply IH; [done|lia|]. by rewrite Ep1.
  - destruct Hnext as (-> & Ep1). rewrite app_nil_r in Hi1. apply IH; [done|lia|]. by rewrite Ep1.
  - subst e. exists s1. destruct Hok as (_ & _ & ->). split; [done|]. destruct Hrank as [_ Hr].
    unfold consumer_rank in Hr. by destruct (consumer s1).
Qed.

(** *** The destructor *)

(** The objects left are those of the positions from [k] to [n]. *)
Definition left_over (k n : nat) (sl : list (qslot T)) : Prop :=
  length sl = nC /\
  (forall r x, sl !! r = Some x -> (exists st, x = Vacant st) \/ exists j v, (k <= j < n)%nat /\ (j mod nC = r)%nat /\ x = Holds v (S j)) /\
  (forall j, (k <= j < n)%nat -> exists v, sl !! (j mod nC)%nat = Some (Holds v (S j))).

Lemma left_over_destroy k n sl st :
  (k < n <= k + nC)%nat -> left_over k n sl -> left_over (S k) n (<[(k mod nC)%nat := Vacant st]> sl).
Proof.
  intros Hk (Hl & He & Hf). split; [by rewrite length_insert|]. split.
  - intros r x. rewrite list_lookup_insert_Some. intros [(<- & <- & _)|[Hne Hx]]; [left; eauto|].
    destruct (He r x Hx) as [?|(j & v & Hj & Er & ->)]; [by left|right]. exists j, v. split; [|done].
    assert (j <> k) by (intros ->; done). lia.
  - intros j Hj. destruct (Hf j ltac:(lia)) as (v & Hv). exists v. rewrite list_lookup_insert_ne; [done|]. intros E.
    assert (k = j); [|lia]. apply same_slot_near; [done|lia].
Qed.

Lemma drain_all k n s fuel :
  (k <= n <= k + fuel)%nat -> (n <= k + nC)%nat -> seen_tail s = n -> left_over k n (slots_ s) ->
  exists s', SpscQueue.drain C fuel (at_position k) (at_position n) s = Ret tt s' /\
    Forall (fun x => exists st, x = Vacant st) (slots_ s').
Proof.
  revert k s. induction fuel as [|fuel IH]; intros k s Hk Hn Hseen Hleft; cbn [SpscQueue.drain];
    pose proof (at_position_inj k n ltac:(lia)) as Hinj; destruct (Z.eqb_spec (at_position k) (at_position n)) as [E|E].
  1, 3: exists s; split; [done|]; apply Hinj in E as ->; destruct Hleft as (_ & He & _); apply list.Forall_forall; intros x [r Hr]%list_elem_of_lookup;
    destruct (He r x Hr) as [?|(j & v & Hj & _)]; [done|lia].
  - destruct E. apply Hinj. lia.
  - assert (k <> n) by (intros ->; done). pose proof Hleft as (_ & _ & Hf). destruct (Hf k ltac:(lia)) as (v & Hv).
    assert (SpscQueue.destroy C (at_position k) s = Ret tt
      (SpscQueue.set_slots (<[(k mod nC)%nat := Vacant (length (head_ s))]> (slots_ s)) s)) as Ed
      by (unfold SpscQueue.destroy; by rewrite slot_position, Hv, (proj2 (Nat.leb_le _ (seen_tail s))) by lia).
    rewrite (bind_Ret _ _ _ _ _ Ed), at_position_next. apply IH; [lia|lia|done|]. apply left_over_destroy; [lia|done].
Qed.

Lemma destructor_drains pushed popped s :
  inv pushed popped s -> producer s = PIdle -> consumer s = CIdle ->
  exists s', SpscQueue.destructor C s = Ret tt s' /\ Forall (fun x => exists st, x = Vacant st) (slots_ s').
Proof.
  intros Hi Ep Ec. pose proof Hi as []. unfold SpscQueue.destructor. mstep. rewrite inv_head0, (bind_Ret _ _ _ _ _ (load_own_stores _ s)).
  mstep. rewrite inv_tail0, (bind_Ret _ _ _ _ _ (load_own_stores _ s)). mstep. rewrite length_stores.
  apply drain_all; [lia|lia|cbn; lia|]. unfold in_flight, lowest, moving in inv_slots0. rewrite Ep, Ec, app_nil_r in inv_slots0.
  destruct inv_slots0 as [Hl He Hf]. split; [done|]. split; [|done].
  intros r x Hx. specialize (He r x Hx). destruct x as [st|v st]; [left; eauto|right].
  destruct He as (k & v0 & -> & Ek & Hk & Hv & _). apply lookup_lt_Some in Hv. exists k, v. split_and!; (done || lia).
Qed.
End invariant.

(** ** The properties *)

Section claims.
  Context `{SizeT} {T : Type} (C : Z) (moved : T -> T).

(** C21. One producer and one consumer: under every interleaving of their steps,
    and whatever admissible value each acquire load of the other side's index
    returns, no slot is constructed over, read before it was constructed or
    raced on; the values popped are the first of the values pushed, in order; and
    no more than [Capacity] are between the two - for as long as the queue runs,
    past the wrap of its indices. *)
Theorem spsc_fifo (ts : list SpscQueue.turn) :
  2 <= C < 2 ^ (size_bits - 1) -> Z.land C (C - 1) = 0 ->
  exists es s, SpscQueue.interleave C moved ts (SpscQueue.fresh C) = Ret es s /\
    pops es = take (length (pops es)) (pushes es) /\
    Z.of_nat (length (pops es)) <= Z.of_nat (length (pushes es)) <= Z.of_nat (length (pops es)) + C.
Proof.
  intros HC Hpow. destruct (interleave_inv C moved HC Hpow ts [] [] _ (fresh_inv C moved HC)) as (es & s & E & []).
  exists es, s. cbn [app] in *. split; [done|]. split; [done|]. lia.
Qed.

(** C37. Both sides are wait-free: in any interleaving, of every four steps the
    producer takes at least one returns from a [try_emplace], and of every five
    steps of the consumer at least one returns from a [try_pop], however the
    other side is scheduled. *)
Theorem spsc_wait_free (ts : list SpscQueue.turn) s es s' :
  SpscQueue.interleave C moved ts s = Ret es s' ->
  (count is_producer ts <= 4 * count by_producer es + 3)%nat /\
  (count (fun t => negb (is_producer t)) ts <= 5 * count (fun e => negb (by_producer e)) es + 4)%nat.
Proof.
  intros E. pose proof (interleave_turns C moved ts es s s' E) as Ht.
  assert (producer_rank s' <= 3)%nat by (unfold producer_rank; destruct (producer s'); lia).
  assert (consumer_rank s' <= 4)%nat by (unfold consumer_rank; destruct (consumer s'); lia). lia.
Qed.

(** Undisturbed, the calls are exact: after any interleaving that leaves the
    side idle, [try_emplace] whose loads are up to date returns true when fewer
    than [Capacity] elements are queued and false otherwise, and [try_pop]
    returns the oldest queued element, or false when there is none; and the
    destructor destroys exactly the elements still queued. *)
Theorem spsc_calls_exact (ts : list SpscQueue.turn) es s :
  2 <= C < 2 ^ (size_bits - 1) -> Z.land C (C - 1) = 0 ->
  SpscQueue.interleave C moved ts (SpscQueue.fresh C) = Ret es s ->
  (producer s = PIdle -> forall v, exists s',
     call C moved 4 (SpscQueue.Producer (Some v) (length (head_ s))) s =
       Ret (if (length (pushes es) <? length (pops es) + Z.to_nat C)%nat then Pushed v else PushRefused) s') /\
  (consumer s = CIdle -> exists s',
     call C moved 5 (SpscQueue.Consumer (length (tail_ s))) s =
       Ret (match pushes es !! length (pops es) with Some v => Popped v | None => PopRefused end) s') /\
  (producer s = PIdle -> consumer s = CIdle -> exists s',
     SpscQueue.destructor C s = Ret tt s' /\ Forall (fun x => exists st, x = Vacant st) (slots_ s')).
Proof.
  intros HC Hpow E. pose proof (reachable_inv C moved HC Hpow ts es s E) as Hi.
  rewrite (inv_head _ _ _ _ _ Hi), (inv_tail _ _ _ _ _ Hi), !length_stores. split; [|split].
  - intros Ep v. destruct (producer_finishes C moved HC Hpow _ _ s v 4 Hi) as (s' & Ec & _); [lia|by rewrite Ep|eauto].
  - intros Ep. destruct (consumer_finishes C moved HC Hpow _ _ s 5 Hi) as (s' & Ec & _); [lia|by rewrite Ep|eauto].
  - intros Ep Ec. by apply (destructor_drains C moved HC Hpow (pushes es) (pops es)).
Qed.

(** The distance of two free-running indices, read without a snapshot:
    [clamped_index_distance] is always between 0 and the capacity, is the number
    of queued elements when the readings are consistent, 0 when the tail was read
    behind the head and the capacity when it was read too far ahead, whatever the
    indices have wrapped to; and [compare_tickets] has the sign of the difference
    of two tickets less than half the range apart. *)
Theorem index_distance_exact head tail :
  0 <= C < 2 ^ (size_bits - 1) ->
  0 <= SpscQueue.size_approx C (wrap head) (wrap tail) <= C /\
  (- 2 ^ (size_bits - 1) < tail - head < 2 ^ (size_bits - 1) ->
   SpscQueue.size_approx C (wrap head) (wrap tail) = Z.max 0 (Z.min C (tail - head)) /\
   IndexDistance.compare_tickets (wrap tail) (wrap head) = Z.sgn (tail - head)).
Proof.
  intros HC. pose proof size_modulus_double as E2. pose proof (wrap_range (tail - head)) as Hr.
  assert (wrap (wrap tail - wrap head) = wrap (tail - head)) as Ew by (unfold wrap; by rewrite <- Zminus_mod).
  assert (IndexDistance.half = 2 ^ (size_bits - 1) - 1) as Eh.
  { unfold IndexDistance.half. rewrite E2. replace (2 * 2 ^ (size_bits - 1) - 1) with (1 + (2 ^ (size_bits - 1) - 1) * 2) by lia.
    by rewrite Z.div_add by lia. }
  unfold SpscQueue.size_approx, IndexDistance.clamped_index_distance, IndexDistance.compare_tickets. rewrite Ew, Eh. split.
  - destruct (Z.ltb_spec (2 ^ (size_bits - 1) - 1) (wrap (tail - head))); [lia|]. destruct (Z.ltb_spec (wrap (tail - head)) C); lia.
  - intros Hd. destruct (Z.lt_ge_cases tail head) as [Hlt|Hge].
    + assert (wrap (tail - head) = tail - head + 2 ^ size_bits) as ->.
      { unfold wrap. rewrite <- (Z.mod_add (tail - head) 1) by lia. rewrite Z.mul_1_l, Z.mod_small; lia. }
      zbool. split; [lia|]. rewrite Z.sgn_neg; lia.
    + rewrite (wrap_small (tail - head)) by lia. zbool.
      split; [destruct (Z.ltb_spec (tail - head) C); lia|]. destruct (Z.eqb_spec (tail - head) 0) as [->|]; [done|].
      rewrite Z.sgn_pos; lia.
Qed.
End claims.

Section witnesses.
  #[local] Existing Instance size_t_32.

(** Two pushes and a pop, step by step, then a third push into the freed slot. *)
Definition some_turns : list (SpscQueue.turn (T := Z)) :=
  let push v := replicate 3 (SpscQueue.Producer (Some v) 0) in
  push 7 ++ push 8 ++ replicate 5 (SpscQueue.Consumer 9) ++ replicate 4 (SpscQueue.Producer (Some 9) 9).

Lemma spsc_fifo_witness :
  exists es s, SpscQueue.interleave 2 (fun _ => 0) some_turns (SpscQueue.fresh 2) = Ret es s /\
    pops es = take (length (pops es)) (pushes es) /\ es = [Pushed 7; Pushed 8; Popped 7; Pushed 9].
Proof.
  destruct (spsc_fifo 2 (fun _ : Z => 0) some_turns) as (es & s & E & Hf & _); [cbn; lia|done|].
  exists es, s. split; [done|]. split; [done|]. vm_compute in E. by injection E as <- _.
Defined.

Lemma spsc_wait_free_witness :
  exists es s, SpscQueue.interleave 2 (fun _ => 0) some_turns (SpscQueue.fresh 2) = Ret es s /\
    (count is_producer some_turns <= 4 * count by_producer es + 3)%nat.
Proof.
  destruct (SpscQueue.interleave 2 (fun _ => 0) some_turns (SpscQueue.fresh 2)) as [es s| | | |] eqn:E; [|vm_compute in E; done..].
  exists es, s. split; [done|]. apply (spsc_wait_free 2 (fun _ => 0) some_turns _ es s E).
Defined.

Lemma spsc_calls_exact_witness :
  exists es s s', SpscQueue.interleave 2 (fun _ => 0) some_turns (SpscQueue.fresh 2) = Ret es s /\
    call 2 (fun _ => 0) 4 (SpscQueue.Producer (Some 5) (length (head_ s))) s = Ret PushRefused s'.
Proof.
  destruct (SpscQueue.interleave 2 (fun _ => 0) some_turns (SpscQueue.fresh 2)) as [es s| | | |] eqn:E; [|vm_compute in E; done..].
  assert (2 <= 2 < 2 ^ (size_bits - 1)) as HC by (by vm_compute).
  destruct (spsc_calls_exact 2 (fun _ => 0) some_turns es s HC ltac:(done) E) as (Hp & _).
  vm_compute in E. injection E as <- <-. destruct (Hp eq_refl 5) as (s' & Ec). eexists _, _, s'. split; [reflexivity|exact Ec].
Defined.

Lemma index_distance_exact_witness : SpscQueue.size_approx 4 (wrap (2 ^ 32 - 1)) (wrap (2 ^ 32 + 2)) = 3.
Proof.
  destruct (index_distance_exact 4 (2 ^ 32 - 1) (2 ^ 32 + 2)) as [_ E]; [by vm_compute|]. rewrite (proj1 (E ltac:(by vm_compute))). reflexivity.
Defined.
End witnesses.
