(* ===== verification/Mpmc.v ===== *)
(** * [mpmc_queue]

    [include/metl/mpmc_queue.hpp]: the bounded queue between any number of producers
    and consumers.

    The callers are threads whose steps, one access of an atomic object or of a slot
    each, interleave.  An atomic object is the list of the values stored to it so far.
    A load gives any of them, which is more than coherence allows; a
    compare-exchange that succeeds reads the last one.  A slot carries the number of
    the store to its sequence that its last access comes before: a thread may touch
    it only when the store that its acquire load has read is that one or a later one.
    Otherwise the access is a data race, which like a lifetime error is [Fault]. *)

From Stdlib Require Import ZArith Lia.
From stdpp Require Import base numbers list option gmap tactics.
From S2P Require Import Prelude Spsc.
Local Open Scope Z_scope.

Record mcell (T : Type) : Type := mk_mcell { sequence : list Z; storage : qslot T }.
Arguments mk_mcell {T} _ _.
Arguments sequence {T} _.
Arguments storage {T} _.

(** Where a thread is in its call; [got] is the number of the sequence store that it
    has read. *)
Inductive thread_at (T : Type) : Type :=
  | Idle
  | PushLoad (v : T)
  | PushLook (v : T) (pos : Z)
  | PushClaim (v : T) (pos : Z) (got : nat)
  | PushBuild (v : T) (pos : Z) (got : nat)
  | PushPublish (v : T) (pos : Z)
  | PopLoad
  | PopLook (pos : Z)
  | PopClaim (pos : Z) (got : nat)
  | PopMove (pos : Z) (got : nat)
  | PopDestroy (pos : Z) (got : nat) (out : T)
  | PopPublish (pos : Z) (out : T).
Arguments Idle {T}.
Arguments PushLoad {T} v.
Arguments PushLook {T} v pos.
Arguments PushClaim {T} v pos got.
Arguments PushBuild {T} v pos got.
Arguments PushPublish {T} v pos.
Arguments PopLoad {T}.
Arguments PopLook {T} pos.
Arguments PopClaim {T} pos got.
Arguments PopMove {T} pos got.
Arguments PopDestroy {T} pos got out.
Arguments PopPublish {T} pos out.

Record mpmc (T : Type) : Type := mk_mpmc {
  cells_ : list (mcell T);
  enqueue_pos_ : list Z;
  dequeue_pos_ : list Z;
  threads : list (thread_at T)
}.
Arguments mk_mpmc {T} _ _ _ _.
Arguments cells_ {T} _.
Arguments enqueue_pos_ {T} _.
Arguments dequeue_pos_ {T} _.
Arguments threads {T} _.

(** What a thread asks for; a constructor that throws is [Push None]. *)
Inductive request (T : Type) : Type := Push (c : option T) | Pop.
Arguments Push {T} c.
Arguments Pop {T}.

(** What happens in a run: a ticket is claimed, or a call ends. *)
Inductive happening (T : Type) : Type :=
  | Enqueued (i : nat) (v : T) | Dequeued (i : nat)
  | PushDone (i : nat) (v : T) | PushFull (i : nat) | PushThrown (i : nat)
  | PopDone (i : nat) (v : T) | PopEmpty (i : nat).
Arguments Enqueued {T} i v.
Arguments Dequeued {T} i.
Arguments PushDone {T} i v.
Arguments PushFull {T} i.
Arguments PushThrown {T} i.
Arguments PopDone {T} i v.
Arguments PopEmpty {T} i.

Module MpmcQueue.
Section mpmc_queue.
  Context `{SizeT} {T : Type} (h : hardening) (C : Z) (moved : T -> T).
  Abbreviation MQ := (M (mpmc T)).

Definition set_cells x (s : mpmc T) := mk_mpmc x (enqueue_pos_ s) (dequeue_pos_ s) (threads s).
Definition set_enqueue_pos x (s : mpmc T) := mk_mpmc (cells_ s) x (dequeue_pos_ s) (threads s).
Definition set_dequeue_pos x (s : mpmc T) := mk_mpmc (cells_ s) (enqueue_pos_ s) x (threads s).
Definition set_thread i pc (s : mpmc T) :=
  mk_mpmc (cells_ s) (enqueue_pos_ s) (dequeue_pos_ s) (<[i := pc]> (threads s)).
Definition goto (i : nat) (pc : thread_at T) : MQ unit := modify (set_thread i pc).

(** [mpmc_queue()], with the threads that will use it. *)
Definition fresh (n : nat) : mpmc T :=
  mk_mpmc ((fun i => mk_mcell [Z.of_nat i] (Vacant 0)) <$> seq 0 (Z.to_nat C)) [0] [0] (replicate n Idle).

(** A load: the number of the store it reads, and the value. *)
Definition load (ws : list Z) (pick : nat) : MQ (nat * Z) :=
  let n := if (pick <? length ws)%nat then pick else (length ws - 1)%nat in
  match ws !! n with Some x => ret (n, x) | None => fault end.
Definition latest (ws : list Z) : MQ Z :=
  match list.last ws with Some x => ret x | None => fault end.

(** [&cells_[pos & mask]]. *)
Definition index_of (pos : Z) : nat := Z.to_nat (Z.land pos (C - 1)).
Definition target (pos : Z) : MQ (mcell T) := fun s =>
  match cells_ s !! index_of pos with Some c => Ret c s | None => Fault end.
Definition set_target (pos : Z) (c : mcell T) : MQ unit :=
  modify (fun s => set_cells (<[index_of pos := c]> (cells_ s)) s).

Definition load_sequence (pos : Z) (pick : nat) : MQ (nat * Z) :=
  let! c := target pos in load (sequence c) pick.
Definition store_sequence (pos value : Z) : MQ unit :=
  let! c := target pos in set_target pos (mk_mcell (sequence c ++ [value]) (storage c)).

(** [::new (target->storage.addr()) T(...)]. *)
Definition construct (pos : Z) (got : nat) (v : T) : MQ unit :=
  let! c := target pos in
  match storage c with
  | Vacant n =>
      if (n <=? got)%nat then set_target pos (mk_mcell (sequence c) (Holds v (length (sequence c)))) else fault
  | Holds _ _ => fault
  end.
(** [out = std::move( *element)]: the moved-from object stays. *)
Definition move_out (pos : Z) (got : nat) : MQ T :=
  let! c := target pos in
  match storage c with
  | Holds v n =>
      if (n <=? got)%nat then set_target pos (mk_mcell (sequence c) (Holds (moved v) n)) ;;; ret v else fault
  | Vacant _ => fault
  end.
Definition destroy (pos : Z) (got : nat) : MQ unit :=
  let! c := target pos in
  match storage c with
  | Holds _ n =>
      if (n <=? got)%nat then set_target pos (mk_mcell (sequence c) (Vacant (length (sequence c)))) else fault
  | Vacant _ => fault
  end.

(** [METL_DASSERT]: active at DEBUG only. *)
Definition require_constructed (pick : nat) : MQ unit :=
  if 2 <? C then
    match h with
    | HARDENING_DEBUG => let! x := load_sequence 1 pick in metl_harden (negb (x.2 =? 0))
    | _ => ret tt
    end
  else ret tt.

(** [compare_exchange_weak(pos, pos + 1)] on one of the counters: [Some] what the
    counter held when it fails, which it may for no reason ([weak]). *)
Definition exchange (ws : list Z) (store : list Z -> mpmc T -> mpmc T) (pos : Z) (pick : nat) (weak : bool) : MQ (option Z) :=
  let! now := latest ws in
  if (now =? pos) && negb weak then modify (store (ws ++ [wrap (pos + 1)])) ;;; ret None
  else let! x := load ws pick in ret (Some x.2).

(** [try_emplace], up to the claim; [c] is what the constructor yields, [None] when it
    throws, which it does before anything else. *)
Definition try_emplace (i : nat) (c : option T) (pick : nat) : MQ (option (happening T)) :=
  match c with
  | None => ret (Some (PushThrown i))
  | Some v => require_constructed pick ;;; goto i (PushLoad v) ;;; ret None
  end.

(** [try_claim_and_construct], a step at a time. *)
Definition try_claim_and_construct (i : nat) (pc : thread_at T) (pick : nat) (weak : bool) : MQ (option (happening T)) :=
  match pc with
  | PushLoad v =>
      let! ws := get enqueue_pos_ in
      let! x := load ws pick in
      goto i (PushLook v x.2) ;;; ret None
  | PushLook v pos =>
      let! x := load_sequence pos pick in
      let difference := IndexDistance.compare_tickets x.2 pos in
      if difference =? 0 then goto i (PushClaim v pos x.1) ;;; ret None
      else if difference <? 0 then goto i Idle ;;; ret (Some (PushFull i))
      else goto i (PushLoad v) ;;; ret None
  | PushClaim v pos got =>
      let! ws := get enqueue_pos_ in
      let! r := exchange ws set_enqueue_pos pos pick weak in
      match r with
      | None => goto i (PushBuild v pos got) ;;; ret (Some (Enqueued i v))
      | Some pos' => goto i (PushLook v pos') ;;; ret None
      end
  | PushBuild v pos got => construct pos got v ;;; goto i (PushPublish v pos) ;;; ret None
  | PushPublish v pos => store_sequence pos (wrap (pos + 1)) ;;; goto i Idle ;;; ret (Some (PushDone i v))
  | _ => ret None
  end.

(** [try_pop], a step at a time. *)
Definition try_pop (i : nat) (pc : thread_at T) (pick : nat) (weak : bool) : MQ (option (happening T)) :=
  match pc with
  | Idle => require_constructed pick ;;; goto i PopLoad ;;; ret None
  | PopLoad =>
      let! ws := get dequeue_pos_ in
      let! x := load ws pick in
      goto i (PopLook x.2) ;;; ret None
  | PopLook pos =>
      let! x := load_sequence pos pick in
      let difference := IndexDistance.compare_tickets x.2 (wrap (pos + 1)) in
      if difference =? 0 then goto i (PopClaim pos x.1) ;;; ret None
      else if difference <? 0 then goto i Idle ;;; ret (Some (PopEmpty i))
      else goto i PopLoad ;;; ret None
  | PopClaim pos got =>
      let! ws := get dequeue_pos_ in
      let! r := exchange ws set_dequeue_pos pos pick weak in
      match r with
      | None => goto i (PopMove pos got) ;;; ret (Some (Dequeued i))
      | Some pos' => goto i (PopLook pos') ;;; ret None
      end
  | PopMove pos got => let! v := move_out pos got in goto i (PopDestroy pos got v) ;;; ret None
  | PopDestroy pos got v => destroy pos got ;;; goto i (PopPublish pos v) ;;; ret None
  | PopPublish pos v => store_sequence pos (wrap (pos + C)) ;;; goto i Idle ;;; ret (Some (PopDone i v))
  | _ => ret None
  end.

(** The next step of thread [i], which asks for [req] if it is between calls. *)
Definition thread_step (i : nat) (req : request T) (pick : nat) (weak : bool) : MQ (option (happening T)) :=
  let! ts := get threads in
  match ts !! i with
  | None => ret None
  | Some Idle => match req with Push c => try_emplace i c pick | Pop => try_pop i Idle pick weak end
  | Some ((PushLoad _ | PushLook _ _ | PushClaim _ _ _ | PushBuild _ _ _ | PushPublish _ _) as pc) =>
      try_claim_and_construct i pc pick weak
  | Some pc => try_pop i pc pick weak
  end.

(** Which thread runs next, what it asks for if it is between calls, and its choices. *)
Record mturn : Type := mk_turn { who : nat; asks : request T; picks : nat; fails : bool }.

Fixpoint interleave (ts : list mturn) : MQ (list (happening T)) :=
  match ts with
  | [] => ret []
  | t :: ts' =>
      let! e := thread_step (who t) (asks t) (picks t) (fails t) in
      let! es := interleave ts' in
      ret (match e with Some x => x :: es | None => es end)
  end.

(** What an observer reads, from loads that need not be a snapshot. *)
Definition size_approx (head tail : Z) : Z := IndexDistance.clamped_index_distance head tail C.
Definition empty (head tail : Z) : bool := size_approx head tail =? 0.
Definition full (head tail : Z) : bool := C <=? size_approx head tail.

(** [~mpmc_queue()], when no call is running: what the threads did happens before. *)
Fixpoint drain (fuel : nat) (pos fin : Z) : MQ unit :=
  if pos =? fin then ret tt
  else match fuel with
  | O => fun _ => Spin
  | S fuel' =>
      let! c := target pos in
      destroy pos (length (sequence c)) ;;; drain fuel' (wrap (pos + 1)) fin
  end.
Definition destructor : MQ unit :=
  let! hs := get dequeue_pos_ in
  let! pos := latest hs in
  let! ts := get enqueue_pos_ in
  let! fin := latest ts in
  drain (Z.to_nat C) pos fin.
End mpmc_queue.
End MpmcQueue.
