(* ===== verification/MpmcFacts.v ===== *)
(** * Why [mpmc_queue] works

    Tickets are counted here without end, from some ticket [base] on.  A cell is at one
    ticket at a time and in one stage of it; the log of a cell is the positions that
    were stored to its sequence.  The invariant says how the cells, the counters and
    the threads go together; each step of a thread keeps it and is a step of an
    atomic queue, or none. *)

From Stdlib Require Import ZArith Lia Sorted.
From stdpp Require Import base numbers list option gmap tactics.
From S2P Require Import Prelude Spsc Positions Mpmc.
Local Open Scope Z_scope.

(** ** The atomic queue

    [given] and [taken] are the values of the calls that have taken effect and have
    not returned. *)

Record atomic (T : Type) : Type := mk_atomic { contents : list T; given : gmap nat T; taken : gmap nat T }.
Arguments mk_atomic {T} _ _ _.
Arguments contents {T} _.
Arguments given {T} _.
Arguments taken {T} _.

Inductive accepts {T : Type} (C : nat) : atomic T -> happening T -> atomic T -> Prop :=
  | accepts_enqueued i v q g t :
      g !! i = None -> t !! i = None -> (length q < C)%nat ->
      accepts C (mk_atomic q g t) (Enqueued i v) (mk_atomic (q ++ [v]) (<[i := v]> g) t)
  | accepts_dequeued i v q g t :
      g !! i = None -> t !! i = None ->
      accepts C (mk_atomic (v :: q) g t) (Dequeued i) (mk_atomic q g (<[i := v]> t))
  | accepts_push_done i v q g t :
      g !! i = Some v -> accepts C (mk_atomic q g t) (PushDone i v) (mk_atomic q (delete i g) t)
  | accepts_pop_done i v q g t :
      t !! i = Some v -> accepts C (mk_atomic q g t) (PopDone i v) (mk_atomic q g (delete i t))
  | accepts_push_full i a : accepts C a (PushFull i) a
  | accepts_push_thrown i a : accepts C a (PushThrown i) a
  | accepts_pop_empty i a : accepts C a (PopEmpty i) a.

Inductive accepts_all {T : Type} (C : nat) : atomic T -> list (happening T) -> atomic T -> Prop :=
  | accepts_none a : accepts_all C a [] a
  | accepts_more a a' a'' e es : accepts C a e a' -> accepts_all C a' es a'' -> accepts_all C a (e :: es) a''.

(** ** The invariant *)

Inductive stage : Type :=
  | Free | Building (i : nat) | Built (i : nat)
  | Full | Taking (i : nat) | Moved (i : nat) | Destroyed (i : nat).

Record gcell : Type := mk_gcell { ticket : nat; stg : stage; log : list nat }.

Definition works (x : stage) : option nat :=
  match x with Building i | Built i | Taking i | Moved i | Destroyed i => Some i | Free | Full => None end.
Definition owner (c : gcell) : option nat := works (stg c).

(** The position that the cell's sequence says. *)
Definition phase (c : gcell) : nat :=
  match stg c with Free | Building _ | Built _ => ticket c | _ => S (ticket c) end.

Section invariant.
  Context `{SizeT} {T : Type} (C : Z) (moved : T -> T) (base : nat).
  Context (HC : 2 <= C < 2 ^ (size_bits - 1)) (Hpow : Z.land C (C - 1) = 0).
  Implicit Types (s : mpmc T) (g : list gcell) (c : gcell) (vals : list T) (a : atomic T) (n m k i r : nat) (v : T).
  Abbreviation nC := (Z.to_nat C).

(** The value of the ticket [k]. *)
Definition value_at vals k : option T := vals !! (k - base)%nat.

(** [n] tickets have been claimed by producers and [m] by consumers. *)
Definition stage_ok n m c : Prop :=
  let k := ticket c in
  (base <= k < m + nC)%nat /\ (n <= k + nC)%nat /\
  match stg c with
  | Free => (n <= k)%nat
  | Building _ | Built _ | Full => (m <= k < n)%nat
  | Taking _ | Moved _ | Destroyed _ => (k < m)%nat
  end.

Definition storage_ok vals c (x : qslot T) : Prop :=
  match stg c with
  | Free | Building _ => exists st, x = Vacant st /\ (st < length (log c))%nat
  | Built _ => exists v, x = Holds v (length (log c)) /\ value_at vals (ticket c) = Some v
  | Full | Taking _ => exists v st, x = Holds v st /\ (st < length (log c))%nat /\ value_at vals (ticket c) = Some v
  | Moved _ => exists v st, x = Holds v st /\ (st < length (log c))%nat
  | Destroyed _ => x = Vacant (length (log c))
  end.

Record log_ok c : Prop := {
  log_sorted : StronglySorted lt (log c);
  log_last : list.last (log c) = Some (phase c);
  log_base : Forall (fun p => base <= p)%nat (log c);
  log_residue : Forall (fun p => p mod nC = ticket c mod nC \/ p mod nC = S (ticket c) mod nC)%nat (log c)
}.

Record cell_ok n m vals r c (x : mcell T) : Prop := {
  cell_sequence : sequence x = at_position <$> log c;
  cell_ticket : (ticket c mod nC)%nat = r;
  cell_log : log_ok c;
  cell_stage : stage_ok n m c;
  cell_storage : storage_ok vals c (storage x)
}.

(** The cells that thread [i] works on are at most the one at [o]. *)
Definition only g i (o : option nat) : Prop :=
  forall r c, g !! r = Some c -> owner c = Some i -> o = Some r.

(** The cell of ticket [k] is in the stage [x] of it, and [j] is the number of the
    store of [p]. *)
Definition working g k (x : stage) (j p : nat) : Prop :=
  exists c, g !! (k mod nC)%nat = Some c /\ ticket c = k /\ stg c = x /\ log c !! j = Some p.

Definition thread_ok g vals a i (pc : thread_at T) : Prop :=
  let n := (base + length vals)%nat in
  match pc with
  | Idle | PushLoad _ | PopLoad => only g i None /\ given a !! i = None /\ taken a !! i = None
  | PushLook _ pos | PopLook pos =>
      (exists k, pos = at_position k /\ (base <= k <= n)%nat) /\
      only g i None /\ given a !! i = None /\ taken a !! i = None
  | PushClaim _ pos got =>
      (exists k c, pos = at_position k /\ (base <= k <= n)%nat /\ g !! (k mod nC)%nat = Some c /\ log c !! got = Some k) /\
      only g i None /\ given a !! i = None /\ taken a !! i = None
  | PopClaim pos got =>
      (exists k c, pos = at_position k /\ (base <= k <= n)%nat /\ g !! (k mod nC)%nat = Some c /\ log c !! got = Some (S k)) /\
      only g i None /\ given a !! i = None /\ taken a !! i = None
  | PushBuild v pos got =>
      exists k, pos = at_position k /\ working g k (Building i) got k /\ value_at vals k = Some v /\
        only g i (Some (k mod nC)%nat) /\ given a !! i = Some v /\ taken a !! i = None
  | PushPublish v pos =>
      exists k j, pos = at_position k /\ working g k (Built i) j k /\
        only g i (Some (k mod nC)%nat) /\ given a !! i = Some v /\ taken a !! i = None
  | PopMove pos got =>
      exists k v, pos = at_position k /\ working g k (Taking i) got (S k) /\ value_at vals k = Some v /\
        only g i (Some (k mod nC)%nat) /\ given a !! i = None /\ taken a !! i = Some v
  | PopDestroy pos got v =>
      exists k, pos = at_position k /\ working g k (Moved i) got (S k) /\
        only g i (Some (k mod nC)%nat) /\ given a !! i = None /\ taken a !! i = Some v
  | PopPublish pos v =>
      exists k j, pos = at_position k /\ working g k (Destroyed i) j (S k) /\
        only g i (Some (k mod nC)%nat) /\ given a !! i = None /\ taken a !! i = Some v
  end.

(** A counter that has gone up to [n]. *)
Definition counter_ok (ws : list Z) n : Prop :=
  exists ks, ws = at_position <$> ks /\ list.last ks = Some n /\ Forall (fun k => base <= k <= n)%nat ks.

Record minv g vals m a s : Prop := {
  minv_length : length g = nC /\ length (cells_ s) = nC;
  minv_cells : forall r c x, g !! r = Some c -> cells_ s !! r = Some x -> cell_ok (base + length vals) m vals r c x;
  minv_enqueue : counter_ok (enqueue_pos_ s) (base + length vals);
  minv_dequeue : counter_ok (dequeue_pos_ s) m;
  minv_order : (base <= m <= base + length vals)%nat;
  minv_threads : forall i pc, threads s !! i = Some pc -> thread_ok g vals a i pc;
  minv_owners : forall r c i, g !! r = Some c -> owner c = Some i -> is_Some (threads s !! i);
  minv_contents : contents a = drop (m - base) vals
}.

(** ** Positions and logs *)

Lemma near_eq (x y : nat) :
  at_position x = at_position y -> Z.abs (Z.of_nat x - Z.of_nat y) < 2 ^ size_bits -> x = y.
Proof.
  unfold at_position, wrap. intros E Hn. pose proof size_modulus_pos as Hp.
  assert ((Z.of_nat x - Z.of_nat y) mod 2 ^ size_bits = 0) as E0 by (rewrite Zminus_mod, E, Z.sub_diag; by apply Z.mod_0_l; lia).
  apply Z.mod_divide in E0; [|lia]. destruct E0 as (q & Eq). assert (q = 0); [|lia]. nia.
Qed.

Lemma compare_zero (x y : nat) :
  IndexDistance.compare_tickets (at_position x) (at_position y) = 0 ->
  Z.abs (Z.of_nat x - Z.of_nat y) < 2 ^ size_bits -> x = y.
Proof.
  unfold IndexDistance.compare_tickets. intros E Hn. apply near_eq; [|done].
  destruct (Z.eqb_spec (wrap (at_position x - at_position y)) 0) as [E0|]; [|by destruct (_ <? _)].
  unfold at_position, wrap in *. rewrite <- Zminus_mod in E0. pose proof size_modulus_pos as Hp.
  apply Z.mod_divide in E0; [|lia]. destruct E0 as (q & Eq). replace (Z.of_nat x) with (Z.of_nat y + q * 2 ^ size_bits) by lia.
  by rewrite Z.mod_add by lia.
Qed.

Lemma index_of_position k : MpmcQueue.index_of C (at_position k) = (k mod nC)%nat.
Proof. exact (slot_position C HC Hpow k). Qed.

(** A load gives one of the positions stored. *)
Lemma load_ok (ks : list nat) pick s :
  ks <> [] -> exists j k, MpmcQueue.load (at_position <$> ks) pick s = Ret (j, at_position k) s /\ ks !! j = Some k.
Proof.
  intros Hne. unfold MpmcQueue.load. rewrite length_fmap.
  set (j := if (pick <? length ks)%nat then pick else (length ks - 1)%nat).
  assert (j < length ks)%nat as Hj.
  { unfold j. destruct (Nat.ltb_spec pick (length ks)); [done|]. destruct ks; [done|cbn; lia]. }
  destruct (lookup_lt_is_Some_2 _ _ Hj) as (k & Hk). exists j, k. rewrite list_lookup_fmap, Hk. done.
Qed.

Lemma latest_ok (ks : list nat) k s : list.last ks = Some k -> MpmcQueue.latest (at_position <$> ks) s = Ret (at_position k) s.
Proof. intros Hk. unfold MpmcQueue.latest. by rewrite fmap_last, Hk. Qed.

Lemma last_not_nil {A} (l : list A) x : list.last l = Some x -> l <> [].
Proof. by intros Hl ->. Qed.

Lemma increasing_lookup (l : list nat) i j x y :
  StronglySorted lt l -> l !! i = Some x -> l !! j = Some y -> (i < j)%nat -> (x < y)%nat.
Proof.
  intros Hs. revert i j. induction Hs as [|z l Hl IH Hz]; intros i j Hi Hj Hij; [done|].
  destruct j as [|j]; [lia|]. destruct i as [|i]; cbn in Hi, Hj.
  - injection Hi as ->. by eapply (Forall_lookup_1 _ _ j).
  - apply (IH i j Hi Hj). lia.
Qed.

(** The last entry of a log is its greatest. *)
Lemma log_entry c j p :
  log_ok c -> log c !! j = Some p -> (base <= p <= phase c)%nat /\ (p = phase c -> S j = length (log c)).
Proof.
  intros [Hs Hl Hb _] Hj. apply lookup_lt_Some in Hj as Hlt. rewrite last_lookup in Hl.
  split; [split; [by eapply (Forall_lookup_1 _ _ j)|]|intros ->].
  - destruct (decide (j = pred (length (log c)))) as [->|Hne]; [by simplify_eq|].
    pose proof (increasing_lookup _ _ _ _ _ Hs Hj Hl). lia.
  - destruct (decide (j = pred (length (log c)))) as [->|Hne]; [lia|].
    pose proof (increasing_lookup _ _ _ _ _ Hs Hj Hl). lia.
Qed.

Lemma sorted_snoc (l : list nat) p q :
  StronglySorted lt l -> list.last l = Some p -> (p < q)%nat -> StronglySorted lt (l ++ [q]).
Proof.
  intros Hs. revert p. induction Hs as [|x l Hl IH Hx]; intros p Hp Hpq; [done|]. cbn. constructor.
  - destruct l as [|y l]; [repeat constructor|]. by apply (IH p).
  - apply Forall_app. split; [done|]. constructor; [|constructor]. destruct l as [|y l]; [by injection Hp as ->|].
    rewrite (last_cons_cons x y l) in Hp. apply last_Some_elem_of in Hp. rewrite list.Forall_forall in Hx. specialize (Hx p Hp). lia.
Qed.

(** The log of the next stage: the same, or one more position. *)
Lemma log_same c c' : log_ok c -> ticket c' = ticket c -> log c' = log c -> phase c' = phase c -> log_ok c'.
Proof. intros [H1 H2 H3 H4] Et El Ep. split; rewrite El; [done|by rewrite Ep|done|by rewrite Et]. Qed.

Lemma log_snoc c c' p :
  log_ok c -> log c' = log c ++ [p] -> phase c' = p -> (ticket c' mod nC = ticket c mod nC)%nat -> (phase c < p)%nat -> log_ok c'.
Proof.
  intros [Hs Hl Hb Hr] E Ep Et Hp.
  assert (S (ticket c') mod nC = S (ticket c) mod nC)%nat as Et'.
  { rewrite <- (Nat.add_1_r (ticket c')), <- (Nat.add_1_r (ticket c)), (Nat.Div0.add_mod (ticket c')), Et.
    by rewrite <- Nat.Div0.add_mod. }
  split; rewrite E.
  - by eapply sorted_snoc.
  - rewrite last_snoc. by rewrite Ep.
  - apply Forall_app. split; [done|]. constructor; [|constructor]. rewrite last_lookup in Hl.
    pose proof (Forall_lookup_1 _ _ _ _ Hb Hl). cbn in *. lia.
  - apply Forall_app. split; [by rewrite Et, Et'|]. constructor; [|constructor]. rewrite <- Ep. unfold phase. destruct (stg c'); auto.
Qed.

(** ** What a step leaves alone *)

(** A cell that only thread [i] may have worked on, before and after. *)
Record handled i c c' : Prop := {
  handled_log : log c `prefix_of` log c';
  handled_before : forall j, owner c = Some j -> j = i;
  handled_after : forall j, owner c' = Some j -> j = i
}.

Lemma only_insert g r c' j o : only g j o -> (owner c' = Some j -> o = Some r) -> only (<[r := c']> g) j o.
Proof.
  intros Ho Hc r' c. rewrite list_lookup_insert_Some. intros [(<- & <- & _)|[_ Hr]] Hj; [by apply Hc|by eapply Ho].
Qed.

Lemma value_app vals vals' k v : value_at vals k = Some v -> vals `prefix_of` vals' -> value_at vals' k = Some v.
Proof. intros Hv [l ->]. unfold value_at. by apply lookup_app_l_Some. Qed.

Lemma working_frame g r c c' i j k x e p :
  g !! r = Some c -> handled i c c' -> j <> i -> works x = Some j ->
  working g k x e p -> working (<[r := c']> g) k x e p.
Proof.
  intros Hr [Hlog Hb _] Hji Hx (d & Hd & Ht & Hs & He). exists d. split; [|done]. rewrite list_lookup_insert_ne; [done|].
  intros ->. rewrite Hr in Hd. injection Hd as ->. apply Hji, Hb. unfold owner. by rewrite Hs.
Qed.

Lemma log_frame g r c c' (q e p : nat) i :
  g !! r = Some c -> handled i c c' -> (exists d, g !! q = Some d /\ log d !! e = Some p) ->
  exists d, <[r := c']> g !! q = Some d /\ log d !! e = Some p.
Proof.
  intros Hr [[l Hlog] _ _] (d & Hd & He). destruct (decide (r = q)) as [->|Hne].
  - exists c'. rewrite list_lookup_insert_eq by (by eapply lookup_lt_Some). split; [done|]. rewrite Hlog. apply lookup_app_l_Some.
    by rewrite Hr in Hd; injection Hd as ->.
  - exists d. by rewrite list_lookup_insert_ne.
Qed.

Lemma thread_frame g r c c' vals vals' a a' i j pc :
  g !! r = Some c -> handled i c c' -> j <> i -> vals `prefix_of` vals' ->
  given a' !! j = given a !! j -> taken a' !! j = taken a !! j ->
  thread_ok g vals a j pc -> thread_ok (<[r := c']> g) vals' a' j pc.
Proof.
  intros Hr Hh Hji Hv Hg Ht. pose proof (prefix_length _ _ Hv) as Hlen.
  assert (forall o, only g j o -> only (<[r := c']> g) j o) as Honly.
  { intros o Ho. apply only_insert; [done|]. intros Hj. by apply (handled_after _ _ _ Hh) in Hj. }
  assert (forall k x e p, works x = Some j -> working g k x e p -> working (<[r := c']> g) k x e p) as Hw by (intros; by eapply working_frame).
  destruct pc; cbn; rewrite Hg, Ht.
  1, 2, 7: intros (H1 & H2 & H3); by split; [apply Honly|].
  1, 5: intros ((k & -> & Hk) & H1 & H2 & H3); split; [exists k; split; [done|lia]|by split; [apply Honly|]].
  1, 4: intros ((k & d & -> & Hk & Hd & He) & H1 & H2 & H3);
    destruct (log_frame g r c c' _ _ _ i Hr Hh (ex_intro _ d (conj Hd He))) as (d' & Hd' & He');
    (split; [exists k, d'; split_and!; [done|lia|lia|done|done]|by split; [apply Honly|]]).
  - intros (k & -> & H1 & H2 & H3 & H4). exists k. split_and!; [done|by apply Hw|by eapply value_app|by apply Honly|apply H4|apply H4].
  - intros (k & e & -> & H1 & H3 & H4). exists k, e. split_and!; [done|by apply Hw|by apply Honly|apply H4|apply H4].
  - intros (k & v & -> & H1 & H2 & H3 & H4). exists k, v. split_and!; [done|by apply Hw|by eapply value_app|by apply Honly|apply H4|apply H4].
  - intros (k & -> & H1 & H3 & H4). exists k. split_and!; [done|by apply Hw|by apply Honly|apply H4|apply H4].
  - intros (k & e & -> & H1 & H3 & H4). exists k, e. split_and!; [done|by apply Hw|by apply Honly|apply H4|apply H4].
Qed.

(** Thread [i] has gone to [pc'] and handled the cell at [r]. *)
Lemma threads_handled (ts : list (thread_at T)) g r c c' vals vals' a a' i pc' :
  g !! r = Some c -> handled i c c' -> vals `prefix_of` vals' ->
  (forall j, j <> i -> given a' !! j = given a !! j /\ taken a' !! j = taken a !! j) ->
  (forall j pc, ts !! j = Some pc -> thread_ok g vals a j pc) -> thread_ok (<[r := c']> g) vals' a' i pc' ->
  forall j pc, <[i := pc']> ts !! j = Some pc -> thread_ok (<[r := c']> g) vals' a' j pc.
Proof.
  intros Hr Hh Hv Hother Hts Hok j pc. rewrite list_lookup_insert_Some. intros [(<- & <- & _)|[Hne Hj]]; [done|].
  destruct (Hother j ltac:(done)) as [Hg Ht]. eapply (thread_frame g r c c' vals vals' a a'); [done..|by apply Hts].
Qed.

Lemma owners_handled (ts : list (thread_at T)) g r c c' i pc pc' :
  ts !! i = Some pc -> handled i c c' ->
  (forall r d j, g !! r = Some d -> owner d = Some j -> is_Some (ts !! j)) ->
  forall r' d j, <[r := c']> g !! r' = Some d -> owner d = Some j -> is_Some (<[i := pc']> ts !! j).
Proof.
  intros Hi Hh Hown r' d j. apply lookup_lt_Some in Hi. rewrite list_lookup_insert_Some. intros [(<- & <- & _)|[Hne Hd]] Ho.
  - rewrite (handled_after _ _ _ Hh j Ho). eexists. by apply list_lookup_insert_eq.
  - destruct (Hown r' d j Hd Ho) as [pcj Hj]. destruct (decide (j = i)) as [->|Hne'].
    + eexists. by apply list_lookup_insert_eq.
    + exists pcj. by rewrite list_lookup_insert_ne.
Qed.

(** Only the thread moves on. *)
Lemma minv_goto g vals m a s i pc pc' :
  minv g vals m a s -> threads s !! i = Some pc -> thread_ok g vals a i pc' ->
  minv g vals m a (MpmcQueue.set_thread i pc' s).
Proof.
  intros [H1 H2 H3 H4 H5 H6 H7 H8] Hi Hok. split; cbn; try done.
  - intros j pcj. rewrite list_lookup_insert_Some. intros [(<- & <- & _)|[Hne Hj]]; [done|by apply H6].
  - intros r c j Hr Ho. destruct (H7 r c j Hr Ho) as [pcj Hj]. destruct (decide (j = i)) as [->|Hne].
    + eexists. apply list_lookup_insert_eq. by eapply lookup_lt_Some.
    + exists pcj. by rewrite list_lookup_insert_ne.
Qed.

(** The thread works on a cell, too. *)
Lemma minv_work g vals m a a' s i pc pc' r c c' x x' :
  minv g vals m a s -> threads s !! i = Some pc -> g !! r = Some c -> cells_ s !! r = Some x ->
  handled i c c' -> cell_ok (base + length vals) m vals r c' x' ->
  contents a' = contents a -> (forall j, j <> i -> given a' !! j = given a !! j /\ taken a' !! j = taken a !! j) ->
  thread_ok (<[r := c']> g) vals a' i pc' ->
  minv (<[r := c']> g) vals m a' (MpmcQueue.set_thread i pc' (MpmcQueue.set_cells (<[r := x']> (cells_ s)) s)).
Proof.
  intros [[H1 H1'] H2 H3 H4 H5 H6 H7 H8] Hi Hr Hx Hh Hc Ha Hother Hok. split; cbn; try done.
  - by rewrite !length_insert.
  - intros r' d y. rewrite !list_lookup_insert_Some. intros [(<- & <- & _)|[Hne Hd]] [(E & <- & _)|[Hne' Hy]]; try done.
    by apply H2.
  - by apply (threads_handled (threads s) g r c c' vals vals a a' i pc').
  - by eapply owners_handled.
  - by rewrite Ha.
Qed.

(** ** Claiming a ticket *)

Lemma minv_cell g vals m a s k :
  minv g vals m a s ->
  exists c x, g !! (k mod nC)%nat = Some c /\ cells_ s !! (k mod nC)%nat = Some x /\
    cell_ok (base + length vals) m vals (k mod nC)%nat c x.
Proof.
  intros Hv. destruct (minv_length _ _ _ _ _ Hv) as [Hg Hs]. pose proof (slot_in_range C HC k) as Hr.
  destruct (lookup_lt_is_Some_2 g (k mod nC)) as [c Hc]; [lia|].
  destruct (lookup_lt_is_Some_2 (cells_ s) (k mod nC)) as [x Hx]; [lia|].
  exists c, x. split_and!; [done|done|]. by apply (minv_cells _ _ _ _ _ Hv).
Qed.

(** A cell whose log has the position that the next producer waits for. *)
Lemma claim_free n m vals k c x got :
  cell_ok n m vals (k mod nC)%nat c x -> log c !! got = Some k -> k = n -> (m <= n)%nat ->
  ticket c = k /\ stg c = Free /\ S got = length (log c).
Proof.
  intros [_ Ht Hl (Hb & Hn & Hs) _] Hg -> Hm. destruct (log_entry c got n Hl Hg) as [[_ Hp] Hlast].
  pose proof (nC_pos C HC) as (HnC & _ & _).
  pose proof (same_slot_before C HC n (ticket c) (eq_sym Ht)) as Hfar. unfold phase in *.
  destruct (stg c) eqn:Es; try lia.
  - assert (ticket c = n) as E by lia. split; [done|]. split; [done|]. apply Hlast. by rewrite E.
  - assert (ticket c = n \/ S (ticket c) = n) as [E|E] by lia; [lia|]. exfalso.
    pose proof (same_slot_near C (ticket c) n ltac:(done) ltac:(lia)). lia.
  - assert (S (ticket c) = n) as E by lia. pose proof (same_slot_near C (ticket c) n ltac:(done) ltac:(lia)). lia.
  - assert (S (ticket c) = n) as E by lia. pose proof (same_slot_near C (ticket c) n ltac:(done) ltac:(lia)). lia.
  - assert (S (ticket c) = n) as E by lia. pose proof (same_slot_near C (ticket c) n ltac:(done) ltac:(lia)). lia.
Qed.

(** A cell whose log has the position that the next consumer waits for. *)
Lemma claim_full n m vals k c x got :
  cell_ok n m vals (k mod nC)%nat c x -> log c !! got = Some (S k) -> k = m ->
  ticket c = k /\ stg c = Full /\ S got = length (log c).
Proof.
  intros [_ Ht Hl (Hb & Hn & Hs) _] Hg ->. destruct (log_entry c got (S m) Hl Hg) as [[_ Hp] Hlast].
  pose proof (same_slot_before C HC m (ticket c) (eq_sym Ht)) as Hfar. unfold phase in *.
  destruct (stg c) eqn:Es; try lia.
  assert (ticket c = m) as E by lia. split; [done|]. split; [done|]. apply Hlast. by rewrite E.
Qed.

Lemma cell_ok_more_vals n m vals vals' r c x :
  vals `prefix_of` vals' -> cell_ok n m vals r c x -> cell_ok n m vals' r c x.
Proof.
  intros Hv [H1 H2 H3 H4 H5]. split; try done. unfold storage_ok in *. destruct (stg c); try done.
  - destruct H5 as (v & -> & Hk). exists v. split; [done|]. by eapply value_app.
  - destruct H5 as (v & st & -> & Hst & Hk). exists v, st. split_and!; try done. by eapply value_app.
  - destruct H5 as (v & st & -> & Hst & Hk). exists v, st. split_and!; try done. by eapply value_app.
Qed.

(** The other cells do not notice that a ticket is claimed. *)
Lemma stage_ok_enqueued n m r c :
  stage_ok n m c -> (ticket c mod nC)%nat = r -> r <> (n mod nC)%nat -> (m <= n)%nat -> stage_ok (S n) m c.
Proof.
  intros (Hb & Hn & Hs) Hr Hne Hm. pose proof (nC_pos C HC) as (HnC & _ & _).
  assert (n <> ticket c) as H1 by congruence.
  assert (n <> ticket c + nC)%nat as H2.
  { intros E. apply Hne. rewrite <- Hr, E. replace (ticket c + nC)%nat with (ticket c + 1 * nC)%nat by lia. by rewrite Nat.Div0.mod_add. }
  split; [done|]. split; [lia|]. destruct (stg c); lia.
Qed.

Lemma stage_ok_dequeued n m r c :
  stage_ok n m c -> (ticket c mod nC)%nat = r -> r <> (m mod nC)%nat -> stage_ok n (S m) c.
Proof.
  intros (Hb & Hn & Hs) Hr Hne. assert (m <> ticket c) as H1 by congruence.
  split; [lia|]. split; [lia|]. destruct (stg c); lia.
Qed.

Lemma counter_next ws n : counter_ok ws n -> counter_ok (ws ++ [wrap (at_position n + 1)]) (S n).
Proof.
  intros (ks & -> & Hl & Hb). exists (ks ++ [S n]). rewrite fmap_app. cbn. rewrite at_position_next. split; [done|].
  split; [apply last_snoc|]. apply Forall_app. split; [eapply list.Forall_impl; [exact Hb|cbn; lia]|]. constructor; [|constructor].
  apply last_Some_elem_of in Hl. rewrite list.Forall_forall in Hb. specialize (Hb n Hl). cbn in *. lia.
Qed.

Lemma queue_room g vals m a s : minv g vals m a s -> (base + length vals <= m + nC)%nat.
Proof.
  intros Hv. destruct (minv_cell g vals m a s m Hv) as (c & x & _ & _ & [_ Ht _ (Hb & Hn & _) _]).
  destruct (Nat.le_gt_cases (ticket c) m) as [|Hgt]; [lia|].
  pose proof (same_slot_before C HC m (ticket c) (eq_sym Ht) Hgt). lia.
Qed.

Lemma minv_enqueued g vals m a s i pc v got c :
  let k := (base + length vals)%nat in
  minv g vals m a s -> threads s !! i = Some pc -> only g i None -> given a !! i = None -> taken a !! i = None ->
  g !! (k mod nC)%nat = Some c -> log c !! got = Some k ->
  let a' := mk_atomic (contents a ++ [v]) (<[i := v]> (given a)) (taken a) in
  minv (<[(k mod nC)%nat := mk_gcell k (Building i) (log c)]> g) (vals ++ [v]) m a'
    (MpmcQueue.set_thread i (PushBuild v (at_position k) got)
      (MpmcQueue.set_enqueue_pos (enqueue_pos_ s ++ [wrap (at_position k + 1)]) s)) /\
  accepts nC a (Enqueued i v) a'.
Proof.
  intros k Hv Hi Ho Hg Ht Hc Hgot a'. pose proof (queue_room _ _ _ _ _ Hv) as Hroom.
  destruct Hv as [[Hl1 Hl2] Hcells Henq Hdeq Hord Hth Hown Hcont]. fold k in Henq, Hord, Hroom.
  assert (length (cells_ s) = length g) as Hlen by lia. apply lookup_lt_Some in Hc as Hr.
  destruct (lookup_lt_is_Some_2 (cells_ s) (k mod nC)) as [x Hx]; [lia|]. pose proof (Hcells _ _ _ Hc Hx) as Hok. fold k in Hok.
  destruct (claim_free k m vals k c x got Hok Hgot eq_refl ltac:(lia)) as (Etk & Est & Elast).
  set (c' := mk_gcell k (Building i) (log c)).
  assert (handled i c c') as Hh.
  { split; [done| |]; intros j; unfold owner; [by rewrite Est|]. cbn. by intros [= ->]. }
  assert (base + length (vals ++ [v]) = S k)%nat as En by (rewrite length_app; cbn; lia).
  assert (cell_ok (S k) m (vals ++ [v]) (k mod nC)%nat c' x) as Hok'.
  { destruct Hok as [H1 H2 H3 (H6 & H7 & H8) H9]. split; try done.
    - apply (log_same c); [done|done|done|]. unfold phase. by rewrite Est, Etk.
    - split; cbn; [lia|]. split; lia.
    - unfold storage_ok in *. rewrite Est in H9. exact H9. }
  split.
  - split; cbn [MpmcQueue.set_thread MpmcQueue.set_enqueue_pos cells_ enqueue_pos_ dequeue_pos_ threads contents a'].
    + by rewrite length_insert.
    + rewrite En. intros r d y. rewrite list_lookup_insert_Some. intros [(<- & <- & _)|[Hne Hd]] Hy.
      * rewrite Hx in Hy. by injection Hy as <-.
      * pose proof (Hcells _ _ _ Hd Hy) as Hd'. fold k in Hd'. eapply cell_ok_more_vals; [by eexists|].
        destruct Hd' as [H1 H2 H3 H4 H5]. split; try done. apply (stage_ok_enqueued k m r d H4 H2); [done|lia].
    + rewrite En. by apply counter_next.
    + done.
    + lia.
    + apply (threads_handled (threads s) g _ c c' vals _ a a' i _ Hc Hh); [by eexists| |done|].
      { intros j Hj. cbn. by rewrite lookup_insert_ne. }
      cbn. exists k. split; [done|]. split.
      { exists c'. rewrite list_lookup_insert_eq by done. by split_and!. }
      split; [unfold value_at; rewrite lookup_app_r by lia; by replace (k - base - length vals)%nat with 0%nat by lia|].
      split; [|by rewrite lookup_insert_eq]. apply only_insert; [|done]. intros r d Hd Hod. discriminate (Ho r d Hd Hod).
    + by eapply owners_handled.
    + rewrite drop_app_le by lia. by rewrite Hcont.
  - destruct a as [q gv tk]. cbn in *. constructor; [done|done|]. subst q. rewrite length_drop.
    destruct Hok as [_ _ _ (Hb & _ & _) _]. rewrite Etk in Hb. lia.
Qed.

Lemma minv_dequeued g vals m a s i pc got c :
  minv g vals m a s -> threads s !! i = Some pc -> only g i None -> given a !! i = None -> taken a !! i = None ->
  g !! (m mod nC)%nat = Some c -> log c !! got = Some (S m) ->
  exists v, let a' := mk_atomic (drop (S m - base) vals) (given a) (<[i := v]> (taken a)) in
  minv (<[(m mod nC)%nat := mk_gcell m (Taking i) (log c)]> g) vals (S m) a'
    (MpmcQueue.set_thread i (PopMove (at_position m) got)
      (MpmcQueue.set_dequeue_pos (dequeue_pos_ s ++ [wrap (at_position m + 1)]) s)) /\
  accepts nC a (Dequeued i) a'.
Proof.
  intros Hv Hi Ho Hg Ht Hc Hgot.
  destruct Hv as [[Hl1 Hl2] Hcells Henq Hdeq Hord Hth Hown Hcont]. set (n := (base + length vals)%nat) in *.
  apply lookup_lt_Some in Hc as Hr.
  destruct (lookup_lt_is_Some_2 (cells_ s) (m mod nC)) as [x Hx]; [lia|]. pose proof (Hcells _ _ _ Hc Hx) as Hok.
  destruct (claim_full n m vals m c x got Hok Hgot eq_refl) as (Etk & Est & Elast).
  pose proof Hok as [H1 H2 H3 (H6 & H7 & H8) H9]. rewrite Est, Etk in H8.
  unfold storage_ok in H9. rewrite Est, Etk in H9. destruct H9 as (v & st & Ex & Hst & Hval).
  set (c' := mk_gcell m (Taking i) (log c)).
  assert (handled i c c') as Hh.
  { split; [done| |]; intros j; unfold owner; [by rewrite Est|]. cbn. by intros [= ->]. }
  exists v. intros a'.
  assert (cell_ok n (S m) vals (m mod nC)%nat c' x) as Hok'.
  { split; try done.
    - apply (log_same c); [done|done|done|]. unfold phase. by rewrite Est, Etk.
    - split; cbn; [lia|]. split; [|lia]. rewrite Etk in H7. lia.
    - unfold storage_ok. cbn. by exists v, st. }
  split.
  - split; cbn [MpmcQueue.set_thread MpmcQueue.set_dequeue_pos cells_ enqueue_pos_ dequeue_pos_ threads contents a']; fold n.
    + by rewrite length_insert.
    + intros r d y. rewrite list_lookup_insert_Some. intros [(<- & <- & _)|[Hne Hd]] Hy.
      * rewrite Hx in Hy. by injection Hy as <-.
      * destruct (Hcells _ _ _ Hd Hy) as [G1 G2 G3 G4 G5]. split; try done. by apply (stage_ok_dequeued n m r d G4 G2).
    + done.
    + by apply counter_next.
    + lia.
    + apply (threads_handled (threads s) g _ c c' vals _ a a' i _ Hc Hh); [done| |done|].
      { intros j Hj. cbn. by rewrite lookup_insert_ne. }
      cbn. exists m, v. split; [done|]. split.
      { exists c'. rewrite list_lookup_insert_eq by done. by split_and!. }
      split; [done|]. split; [|by rewrite lookup_insert_eq]. apply only_insert; [|done]. intros r d Hd Hod. discriminate (Ho r d Hd Hod).
    + by eapply owners_handled.
    + done.
  - unfold a'. destruct a as [q gv tk]. cbn in Hcont, Hg, Ht |- *. subst q. unfold value_at in Hval. rewrite (drop_S vals v (m - base)) by done.
    replace (S m - base)%nat with (S (m - base)) by lia. by constructor.
Qed.

(** ** The steps of a thread *)

(** A step that returns, keeps the invariant and is one of the atomic queue, or none. *)
Definition advances vals a (r : outcome (mpmc T) (option (happening T))) : Prop :=
  exists e s' g' vals' m' a', r = Ret e s' /\ minv g' vals' m' a' s' /\ (length vals' <= S (length vals))%nat /\
    match e with None => a' = a | Some e => accepts nC a e a' end.

Lemma advances_goto g vals m a s i pc pc' e :
  minv g vals m a s -> threads s !! i = Some pc -> thread_ok g vals a i pc' ->
  match e with None => True | Some e => accepts nC a e a end ->
  advances vals a ((MpmcQueue.goto i pc' ;;; ret e) s).
Proof.
  intros Hv Hi Hok He. exists e, (MpmcQueue.set_thread i pc' s), g, vals, m, a. split; [done|].
  split; [by eapply minv_goto|]. split; [lia|]. by destruct e.
Qed.

Lemma target_ok g vals m a s k :
  minv g vals m a s -> exists c x, MpmcQueue.target C (at_position k) s = Ret x s /\
    g !! (k mod nC)%nat = Some c /\ cells_ s !! (k mod nC)%nat = Some x /\
    cell_ok (base + length vals) m vals (k mod nC)%nat c x.
Proof.
  intros Hv. destruct (minv_cell g vals m a s k Hv) as (c & x & Hc & Hx & Hok). exists c, x. split; [|done].
  unfold MpmcQueue.target. by rewrite index_of_position, Hx.
Qed.

Lemma load_sequence_ok g vals m a s k pick :
  minv g vals m a s -> exists c j p, MpmcQueue.load_sequence C (at_position k) pick s = Ret (j, at_position p) s /\
    g !! (k mod nC)%nat = Some c /\ log c !! j = Some p /\ (base <= p <= m + nC)%nat /\
    (p mod nC = k mod nC \/ p mod nC = S k mod nC)%nat.
Proof.
  intros Hv. destruct (target_ok g vals m a s k Hv) as (c & x & Et & Hc & _ & [Hs Ht Hl (Hb & _ & _) _]).
  destruct (load_ok (log c) pick s) as (j & p & El & Hj); [apply (last_not_nil _ _ (log_last _ Hl))|].
  exists c, j, p. split; [unfold MpmcQueue.load_sequence; by rewrite (bind_Ret _ _ _ _ _ Et), Hs|].
  destruct (log_entry c j p Hl Hj) as [[Hp1 Hp2] _]. split; [done|]. split; [done|].
  split; [unfold phase in Hp2; destruct (stg c); lia|].
  pose proof (Forall_lookup_1 _ _ _ _ (log_residue _ Hl) Hj) as Hres. cbn in Hres. rewrite Ht in Hres.
  destruct Hres as [Hr|Hr]; [by left|right]. rewrite Hr, <- Nat.add_1_r, Nat.Div0.add_mod, Ht, <- Nat.Div0.add_mod. f_equal. lia.
Qed.

(** The check that the constructor has run. *)
Lemma require_constructed_ok g vals m a s hd pick :
  minv g vals m a s -> MpmcQueue.require_constructed hd C pick s = Ret tt s.
Proof.
  intros Hv. unfold MpmcQueue.require_constructed. destruct (Z.ltb_spec 2 C) as [Hlt|]; [|done]. destruct hd; try done.
  destruct (load_sequence_ok g vals m a s 1 pick Hv) as (c & j & p & El & _ & _ & _ & Hres).
  assert (at_position 1 = 1) as E1 by (unfold at_position, wrap; apply Z.mod_small; pose proof (nC_pos C HC); cbn; lia).
  rewrite E1 in El. rewrite (bind_Ret _ _ _ _ _ El). cbn [snd].
  assert (at_position p <> 0) as Hne; [|by rewrite (proj2 (Z.eqb_neq _ _) Hne)]. intros E0.
  pose proof (index_of_position p) as Ei. rewrite E0 in Ei. unfold MpmcQueue.index_of in Ei. rewrite Z.land_0_l in Ei. cbn in Ei.
  pose proof (nC_pos C HC) as (_ & En & _).
  rewrite <- Ei, !(Nat.mod_small) in Hres by lia. lia.
Qed.

Lemma counter_nonempty ws n : counter_ok ws n -> exists ks, ws = at_position <$> ks /\ ks <> [] /\ list.last ks = Some n /\
  forall j k, ks !! j = Some k -> (base <= k <= n)%nat.
Proof.
  intros (ks & -> & Hl & Hb). exists ks. split; [done|]. split; [by eapply last_not_nil|]. split; [done|].
  intros j k Hk. exact (Forall_lookup_1 _ _ _ _ Hb Hk).
Qed.

(** Enough of the counter's range is left that positions in play do not meet. *)
Definition roomy vals : Prop := Z.of_nat (length vals) + 2 * C + 2 < 2 ^ size_bits.

Lemma push_steps g vals m a s hd i v req pick weak pc :
  minv g vals m a s -> roomy vals -> threads s !! i = Some pc ->
  match pc with PushLoad w | PushLook w _ | PushClaim w _ _ => w = v | _ => False end ->
  advances vals a (MpmcQueue.thread_step hd C moved i req pick weak s).
Proof.
  intros Hv Hroom Hi Hpc. pose proof (minv_threads _ _ _ _ _ Hv i pc Hi) as Hok. pose proof (minv_order _ _ _ _ _ Hv) as Hord.
  pose proof (nC_pos C HC) as (_ & En & _). unfold roomy in Hroom.
  destruct (counter_nonempty _ _ (minv_enqueue _ _ _ _ _ Hv)) as (ks & Ews & Hne & Hlast & Hks).
  unfold MpmcQueue.thread_step, MpmcQueue.try_emplace, MpmcQueue.try_claim_and_construct, MpmcQueue.try_pop. mstep. rewrite Hi. destruct pc as [|w|w pos|w pos got|w pos got|w pos| |pos|pos got|pos got|pos got out|pos out]; try done; subst w.
  - mstep. rewrite Ews. destruct (load_ok ks pick s Hne) as (j & k & El & Hk). rewrite (bind_Ret _ _ _ _ _ El).
    eapply advances_goto; [done|done| |done]. cbn in *. split; [|done]. exists k. split; [done|]. by eapply Hks.
  - destruct Hok as ((k & -> & Hk) & Hrest).
    destruct (load_sequence_ok g vals m a s k pick Hv) as (c & j & p & El & Hc & Hj & Hp & _). rewrite (bind_Ret _ _ _ _ _ El). cbn [fst snd].
    destruct (Z.eqb_spec (IndexDistance.compare_tickets (at_position p) (at_position k)) 0) as [E0|_].
    + apply compare_zero in E0; [|lia]. subst p. eapply advances_goto; [done|done| |done]. cbn. split; [|done].
      by exists k, c.
    + destruct (_ <? 0); (eapply advances_goto; [done|done|done|constructor]).
  - destruct Hok as ((k & c & -> & Hk & Hc & Hgot) & Ho & Hg & Ht). mstep. unfold MpmcQueue.exchange. rewrite bind_assoc, Ews.
    rewrite (bind_Ret _ _ _ _ _ (latest_ok ks _ s Hlast)).
    destruct ((at_position (base + length vals) =? at_position k) && negb weak) eqn:Ecas.
    + apply andb_true_iff in Ecas as [Ecas _]. apply Z.eqb_eq, near_eq in Ecas; [|lia]. rewrite <- Ecas in *.
      destruct (minv_enqueued g vals m a s i _ v got c Hv Hi Ho Hg Ht Hc Hgot) as [Hv' Hacc].
      rewrite bind_assoc. mstep.
      eexists _, _, _, _, _, _. split; [reflexivity|]. rewrite <- Ews. split; [exact Hv'|]. split; [rewrite length_app; cbn; lia|done].
    + rewrite bind_assoc. destruct (load_ok ks pick s Hne) as (j & k' & El & Hk'). rewrite (bind_Ret _ _ _ _ _ El). mstep.
      eapply advances_goto; [done|done| |done]. cbn. split; [|done]. exists k'. split; [done|]. by eapply Hks.
Qed.

Lemma pop_steps g vals m a s hd i req pick weak pc :
  minv g vals m a s -> roomy vals -> threads s !! i = Some pc ->
  match pc with PopLoad | PopLook _ | PopClaim _ _ => True | _ => False end ->
  advances vals a (MpmcQueue.thread_step hd C moved i req pick weak s).
Proof.
  intros Hv Hroom Hi Hpc. pose proof (minv_threads _ _ _ _ _ Hv i pc Hi) as Hok. pose proof (minv_order _ _ _ _ _ Hv) as Hord.
  pose proof (nC_pos C HC) as (_ & En & _). unfold roomy in Hroom.
  destruct (counter_nonempty _ _ (minv_dequeue _ _ _ _ _ Hv)) as (ks & Ews & Hne & Hlast & Hks).
  unfold MpmcQueue.thread_step, MpmcQueue.try_emplace, MpmcQueue.try_claim_and_construct, MpmcQueue.try_pop. mstep. rewrite Hi. destruct pc as [|w|w pos|w pos got|w pos got|w pos| |pos|pos got|pos got|pos got out|pos out]; try done.
  - mstep. rewrite Ews. destruct (load_ok ks pick s Hne) as (j & k & El & Hk). rewrite (bind_Ret _ _ _ _ _ El).
    eapply advances_goto; [done|done| |done]. cbn in *. split; [|done]. exists k. split; [done|]. pose proof (Hks _ _ Hk). lia.
  - destruct Hok as ((k & -> & Hk) & Hrest). rewrite at_position_next.
    destruct (load_sequence_ok g vals m a s k pick Hv) as (c & j & p & El & Hc & Hj & Hp & _). rewrite (bind_Ret _ _ _ _ _ El). cbn [fst snd].
    destruct (Z.eqb_spec (IndexDistance.compare_tickets (at_position p) (at_position (S k))) 0) as [E0|_].
    + apply compare_zero in E0; [|lia]. subst p. eapply advances_goto; [done|done| |done]. cbn. split; [|done].
      by exists k, c.
    + destruct (_ <? 0); (eapply advances_goto; [done|done|done|constructor]).
  - destruct Hok as ((k & c & -> & Hk & Hc & Hgot) & Ho & Hg & Ht). mstep. unfold MpmcQueue.exchange. rewrite bind_assoc, Ews.
    rewrite (bind_Ret _ _ _ _ _ (latest_ok ks _ s Hlast)).
    destruct ((at_position m =? at_position k) && negb weak) eqn:Ecas.
    + apply andb_true_iff in Ecas as [Ecas _]. apply Z.eqb_eq, near_eq in Ecas; [|lia]. rewrite <- Ecas in *.
      destruct (minv_dequeued g vals m a s i _ got c Hv Hi Ho Hg Ht Hc Hgot) as (v & Hv' & Hacc).
      rewrite bind_assoc. mstep.
      eexists _, _, _, _, _, _. split; [reflexivity|]. rewrite <- Ews. split; [exact Hv'|]. split; [lia|done].
    + rewrite bind_assoc. destruct (load_ok ks pick s Hne) as (j & k' & El & Hk'). rewrite (bind_Ret _ _ _ _ _ El). mstep.
      eapply advances_goto; [done|done| |done]. cbn. split; [|done]. exists k'. split; [done|]. pose proof (Hks _ _ Hk'). lia.
Qed.

(** A step on the cell that the thread works on. *)
Lemma advances_work g vals m a a' s i pc pc' r c c' x x' e (act : M (mpmc T) unit) :
  minv g vals m a s -> threads s !! i = Some pc -> g !! r = Some c -> cells_ s !! r = Some x ->
  act s = Ret tt (MpmcQueue.set_cells (<[r := x']> (cells_ s)) s) ->
  handled i c c' -> cell_ok (base + length vals) m vals r c' x' ->
  contents a' = contents a -> (forall j, j <> i -> given a' !! j = given a !! j /\ taken a' !! j = taken a !! j) ->
  thread_ok (<[r := c']> g) vals a' i pc' ->
  match e with None => a' = a | Some e => accepts nC a e a' end ->
  advances vals a ((act ;;; MpmcQueue.goto i pc' ;;; ret e) s).
Proof.
  intros Hv Hi Hc Hx Hact Hh Hok Hcont Hother Hth He. rewrite (bind_Ret _ _ _ _ _ Hact).
  eexists e, _, _, _, _, a'. split; [reflexivity|].
  split; [exact (minv_work g vals m a a' s i pc pc' r c c' x x' Hv Hi Hc Hx Hh Hok Hcont Hother Hth)|]. split; [lia|done].
Qed.

(** The cell that a thread works on, and what it holds. *)
Lemma working_cell g vals m a s k x j p :
  minv g vals m a s -> working g k x j p ->
  exists c y, g !! (k mod nC)%nat = Some c /\ cells_ s !! (k mod nC)%nat = Some y /\
    MpmcQueue.target C (at_position k) s = Ret y s /\ cell_ok (base + length vals) m vals (k mod nC)%nat c y /\
    ticket c = k /\ stg c = x /\ log c !! j = Some p /\ length (sequence y) = length (log c) /\
    (p = phase c -> S j = length (log c)).
Proof.
  intros Hv (c & Hc & Ht & Hs & Hj). destruct (target_ok g vals m a s k Hv) as (c' & y & Et & Hc' & Hy & Hok).
  rewrite Hc in Hc'. injection Hc' as <-. exists c, y. split_and!; try done.
  - by rewrite (cell_sequence _ _ _ _ _ _ Hok), length_fmap.
  - by apply (log_entry c j p (cell_log _ _ _ _ _ _ Hok) Hj).
Qed.

Lemma works_handled i c c' : log c `prefix_of` log c' -> works (stg c) = Some i -> (works (stg c') = Some i \/ works (stg c') = None) -> handled i c c'.
Proof. intros Hl Hb Ha. split; [done| |]; intros j; unfold owner; rewrite ?Hb; [by intros [= ->]|]. destruct Ha as [->| ->]; [by intros [= ->]|done]. Qed.

Lemma set_target_ok k x s :
  MpmcQueue.set_target C (at_position k) x s = Ret tt (MpmcQueue.set_cells (<[(k mod nC)%nat := x]> (cells_ s)) s).
Proof. unfold MpmcQueue.set_target, modify. by rewrite index_of_position. Qed.

Lemma working_next g k c c' (j p : nat) :
  g !! (k mod nC)%nat = Some c -> ticket c' = k -> log c' !! j = Some p ->
  working (<[(k mod nC)%nat := c']> g) k (stg c') j p.
Proof. intros Hc Ht Hj. exists c'. rewrite list_lookup_insert_eq by (by eapply lookup_lt_Some). done. Qed.

Lemma build_step g vals m a s hd i v pos got req pick weak :
  minv g vals m a s -> threads s !! i = Some (PushBuild v pos got) ->
  advances vals a (MpmcQueue.thread_step hd C moved i req pick weak s).
Proof.
  intros Hv Hi. pose proof (minv_threads _ _ _ _ _ Hv i _ Hi) as (k & -> & Hw & Hval & Ho & Hg & Ht).
  destruct (working_cell g vals m a s k _ _ _ Hv Hw) as (c & y & Hc & Hy & Et & Hok & Etk & Est & Hj & Hlen & Hlast).
  assert (phase c = k) as Ep by (unfold phase; by rewrite Est). specialize (Hlast (eq_sym Ep)).
  set (c' := mk_gcell k (Built i) (log c)). set (y' := mk_mcell (sequence y) (Holds v (length (sequence y)))).
  unfold MpmcQueue.thread_step, MpmcQueue.try_emplace, MpmcQueue.try_claim_and_construct, MpmcQueue.try_pop. mstep. rewrite Hi.
  pose proof Hok as [H1 H2 H3 (H4 & H5 & H6) H7]. unfold storage_ok in H7. rewrite Est in H6, H7. destruct H7 as (st & Es & Hst).
  apply (advances_work g vals m a a s i _ _ (k mod nC)%nat c c' y y' None _ Hv Hi Hc Hy).
  - unfold MpmcQueue.construct. rewrite (bind_Ret _ _ _ _ _ Et), Es. destruct (Nat.leb_spec st got); [apply set_target_ok|lia].
  - apply works_handled; [done|by rewrite Est|by left].
  - split; cbn; [done|by rewrite <- H2, Etk| | |].
    + by apply (log_same c).
    + rewrite Etk in *. done.
    + exists v. split; [|done]. by rewrite Hlen.
  - done.
  - done.
  - cbn. exists k, got. split; [done|]. split; [by apply (working_next g k c c')|].
    split; [by apply only_insert|done].
  - done.
Qed.

Lemma publish_step g vals m a s hd i v pos req pick weak :
  minv g vals m a s -> threads s !! i = Some (PushPublish v pos) ->
  advances vals a (MpmcQueue.thread_step hd C moved i req pick weak s).
Proof.
  intros Hv Hi. pose proof (minv_threads _ _ _ _ _ Hv i _ Hi) as (k & j & -> & Hw & Ho & Hg & Ht).
  destruct (working_cell g vals m a s k _ _ _ Hv Hw) as (c & y & Hc & Hy & Et & Hok & Etk & Est & Hj & Hlen & _).
  set (c' := mk_gcell k Full (log c ++ [S k])). set (y' := mk_mcell (sequence y ++ [at_position (S k)]) (storage y)).
  set (a' := mk_atomic (contents a) (delete i (given a)) (taken a)).
  unfold MpmcQueue.thread_step, MpmcQueue.try_emplace, MpmcQueue.try_claim_and_construct, MpmcQueue.try_pop. mstep. rewrite Hi, at_position_next.
  pose proof Hok as [H1 H2 H3 (H4 & H5 & H6) H7]. unfold storage_ok in H7. rewrite Est in H6, H7. destruct H7 as (w & Es & Hval).
  assert (phase c = k) as Ep by (unfold phase; by rewrite Est).
  apply (advances_work g vals m a a' s i _ _ (k mod nC)%nat c c' y y' (Some (PushDone i v)) _ Hv Hi Hc Hy).
  - unfold MpmcQueue.store_sequence. rewrite (bind_Ret _ _ _ _ _ Et). apply set_target_ok.
  - apply works_handled; [by eexists|by rewrite Est|by right].
  - split; cbn; [by rewrite fmap_app, H1|by rewrite <- H2, Etk| | |].
    + apply (log_snoc c c' (S k)); [done|done|done|by rewrite Etk|lia].
    + rewrite Etk in *. done.
    + exists w, (length (log c)). rewrite length_app. cbn. rewrite <- Etk. split_and!; [done|lia|done].
  - done.
  - intros l Hl. cbn. by rewrite lookup_delete_ne.
  - cbn. split; [|split; [apply lookup_delete_eq|done]]. intros r d. rewrite list_lookup_insert_Some.
    intros [(<- & <- & _)|[Hne Hd]] Hod; [done|]. pose proof (Ho r d Hd Hod). congruence.
  - destruct a as [q gv tk]. by constructor.
Qed.

Lemma move_step g vals m a s hd i pos got req pick weak :
  minv g vals m a s -> threads s !! i = Some (PopMove pos got) ->
  advances vals a (MpmcQueue.thread_step hd C moved i req pick weak s).
Proof.
  intros Hv Hi. pose proof (minv_threads _ _ _ _ _ Hv i _ Hi) as (k & v & -> & Hw & Hval & Ho & Hg & Ht).
  destruct (working_cell g vals m a s k _ _ _ Hv Hw) as (c & y & Hc & Hy & Et & Hok & Etk & Est & Hj & Hlen & Hlast).
  assert (phase c = S k) as Ep by (unfold phase; by rewrite Est, Etk). specialize (Hlast (eq_sym Ep)).
  pose proof Hok as [H1 H2 H3 (H4 & H5 & H6) H7]. unfold storage_ok in H7. rewrite Est in H6, H7. destruct H7 as (w & st & Es & Hst & Hw').
  rewrite Etk, Hval in Hw'. injection Hw' as <-.
  set (c' := mk_gcell k (Moved i) (log c)). set (y' := mk_mcell (sequence y) (Holds (moved v) st)).
  unfold MpmcQueue.thread_step, MpmcQueue.try_emplace, MpmcQueue.try_claim_and_construct, MpmcQueue.try_pop. mstep. rewrite Hi.
  assert (MpmcQueue.move_out C moved (at_position k) got s =
    (MpmcQueue.set_target C (at_position k) y' ;;; ret v) s) as Em.
  { unfold MpmcQueue.move_out. rewrite (bind_Ret _ _ _ _ _ Et), Es. destruct (Nat.leb_spec st got); [done|lia]. }
  rewrite (bind_alike _ _ _ _ Em), bind_assoc.
  apply (advances_work g vals m a a s i _ _ (k mod nC)%nat c c' y y' None _ Hv Hi Hc Hy).
  - apply set_target_ok.
  - apply works_handled; [done|by rewrite Est|by left].
  - split; cbn; [done|by rewrite <- H2, Etk| | |].
    + apply (log_same c); [done|done|done|]. by rewrite Ep.
    + rewrite Etk in *. done.
    + by exists (moved v), st.
  - done.
  - done.
  - cbn. exists k. split; [done|]. split; [by apply (working_next g k c c')|]. split; [by apply only_insert|done].
  - done.
Qed.

Lemma destroy_step g vals m a s hd i v pos got req pick weak :
  minv g vals m a s -> threads s !! i = Some (PopDestroy pos got v) ->
  advances vals a (MpmcQueue.thread_step hd C moved i req pick weak s).
Proof.
  intros Hv Hi. pose proof (minv_threads _ _ _ _ _ Hv i _ Hi) as (k & -> & Hw & Ho & Hg & Ht).
  destruct (working_cell g vals m a s k _ _ _ Hv Hw) as (c & y & Hc & Hy & Et & Hok & Etk & Est & Hj & Hlen & Hlast).
  assert (phase c = S k) as Ep by (unfold phase; by rewrite Est, Etk). specialize (Hlast (eq_sym Ep)).
  pose proof Hok as [H1 H2 H3 (H4 & H5 & H6) H7]. unfold storage_ok in H7. rewrite Est in H6, H7. destruct H7 as (w & st & Es & Hst).
  set (c' := mk_gcell k (Destroyed i) (log c)). set (y' := mk_mcell (T := T) (sequence y) (Vacant (length (sequence y)))).
  unfold MpmcQueue.thread_step, MpmcQueue.try_emplace, MpmcQueue.try_claim_and_construct, MpmcQueue.try_pop. mstep. rewrite Hi.
  apply (advances_work g vals m a a s i _ _ (k mod nC)%nat c c' y y' None _ Hv Hi Hc Hy).
  - unfold MpmcQueue.destroy. rewrite (bind_Ret _ _ _ _ _ Et), Es. destruct (Nat.leb_spec st got); [apply set_target_ok|lia].
  - apply works_handled; [done|by rewrite Est|by left].
  - split; cbn; [done|by rewrite <- H2, Etk| | |].
    + apply (log_same c); [done|done|done|]. by rewrite Ep.
    + rewrite Etk in *. done.
    + by rewrite Hlen.
  - done.
  - done.
  - cbn. exists k, got. split; [done|]. split; [by apply (working_next g k c c')|]. split; [by apply only_insert|done].
  - done.
Qed.

Lemma release_step g vals m a s hd i v pos req pick weak :
  minv g vals m a s -> threads s !! i = Some (PopPublish pos v) ->
  advances vals a (MpmcQueue.thread_step hd C moved i req pick weak s).
Proof.
  intros Hv Hi. pose proof (minv_threads _ _ _ _ _ Hv i _ Hi) as (k & j & -> & Hw & Ho & Hg & Ht).
  destruct (working_cell g vals m a s k _ _ _ Hv Hw) as (c & y & Hc & Hy & Et & Hok & Etk & Est & Hj & Hlen & _).
  pose proof (nC_pos C HC) as (HnC & En & _).
  set (c' := mk_gcell (k + nC) Free (log c ++ [(k + nC)%nat])).
  set (y' := mk_mcell (sequence y ++ [at_position (k + nC)]) (storage y)).
  set (a' := mk_atomic (contents a) (given a) (delete i (taken a))).
  assert (wrap (at_position k + C) = at_position (k + nC)) as Ew.
  { unfold at_position, wrap. rewrite Zplus_mod_idemp_l. f_equal. lia. }
  assert ((k + nC) mod nC = k mod nC)%nat as Emod.
  { replace (k + nC)%nat with (k + 1 * nC)%nat by lia. by rewrite Nat.Div0.mod_add. }
  unfold MpmcQueue.thread_step, MpmcQueue.try_emplace, MpmcQueue.try_claim_and_construct, MpmcQueue.try_pop. mstep. rewrite Hi, Ew.
  pose proof Hok as [H1 H2 H3 (H4 & H5 & H6) H7]. unfold storage_ok in H7. rewrite Est in H6, H7.
  assert (phase c = S k) as Ep by (unfold phase; by rewrite Est, Etk).
  apply (advances_work g vals m a a' s i _ _ (k mod nC)%nat c c' y y' (Some (PopDone i v)) _ Hv Hi Hc Hy).
  - unfold MpmcQueue.store_sequence. rewrite (bind_Ret _ _ _ _ _ Et). apply set_target_ok.
  - apply works_handled; [by eexists|by rewrite Est|by right].
  - split; cbn; [by rewrite fmap_app, H1|done| | |].
    + apply (log_snoc c c' (k + nC)); [done|done|done|by rewrite Etk|lia].
    + rewrite Etk in *. unfold stage_ok. cbn. lia.
    + exists (length (log c)). rewrite length_app. cbn. split; [done|lia].
  - done.
  - intros l Hl. cbn. by rewrite lookup_delete_ne.
  - cbn. split; [|split; [done|apply lookup_delete_eq]]. intros r d. rewrite list_lookup_insert_Some.
    intros [(<- & <- & _)|[Hne Hd]] Hod; [done|]. pose proof (Ho r d Hd Hod). congruence.
  - destruct a as [q gv tk]. by constructor.
Qed.

Lemma thread_steps g vals m a s hd i req pick weak :
  minv g vals m a s -> roomy vals -> advances vals a (MpmcQueue.thread_step hd C moved i req pick weak s).
Proof.
  intros Hv Hroom. destruct (threads s !! i) as [pc|] eqn:Hi.
  2: { unfold MpmcQueue.thread_step, MpmcQueue.try_emplace, MpmcQueue.try_claim_and_construct, MpmcQueue.try_pop. mstep. rewrite Hi. eexists None, s, g, vals, m, a. split_and!; [done|done|lia|done]. }
  destruct pc.
  - pose proof (minv_threads _ _ _ _ _ Hv i _ Hi) as Hok. unfold MpmcQueue.thread_step, MpmcQueue.try_emplace, MpmcQueue.try_claim_and_construct, MpmcQueue.try_pop. mstep. rewrite Hi.
    pose proof (require_constructed_ok g vals m a s hd pick Hv) as Hreq. destruct req as [[v|]|].
    + rewrite (bind_Ret _ _ _ _ _ Hreq). by eapply advances_goto.
    + eexists _, s, g, vals, m, a. split_and!; [reflexivity|done|lia|constructor].
    + rewrite (bind_Ret _ _ _ _ _ Hreq). by eapply advances_goto.
  - by eapply push_steps.
  - by eapply push_steps.
  - by eapply push_steps.
  - by eapply build_step.
  - by eapply publish_step.
  - by eapply pop_steps.
  - by eapply pop_steps.
  - by eapply pop_steps.
  - by eapply move_step.
  - by eapply destroy_step.
  - by eapply release_step.
Qed.
End invariant.
