(* ===== verification/MpmcClaims.v ===== *)
(** * What [mpmc_queue] promises

    A stretch of a run starts at a moment when no call is running, with any number of
    tickets given out so far, so that the counters may wrap during it; it is shorter
    than the range of the counters, since a thread that slept while they went all the
    way round could take an old ticket for a new one. *)

From Stdlib Require Import ZArith Lia Sorted.
From stdpp Require Import base numbers list option gmap tactics.
From S2P Require Import Prelude Spsc Positions Mpmc MpmcFacts.
Local Open Scope Z_scope.

Module MpmcRun.
Section run.
  Context `{SizeT} {T : Type} (C : Z).
  Abbreviation nC := (Z.to_nat C).

(** The ticket that the cell [r] is at when the tickets from [base] on are in the queue. *)
Definition ticket_at (base r : nat) : nat := (base + (r + nC - base mod nC) mod nC)%nat.

(** A queue that holds [vals], the tickets from [base] on, while no call is running. *)
Definition quiescent (base : nat) (vals : list T) (n : nat) : mpmc T :=
  mk_mpmc ((fun r => let k := ticket_at base r in
             match vals !! (k - base)%nat with
             | Some v => mk_mcell [at_position (S k)] (Holds v 0)
             | None => mk_mcell [at_position k] (Vacant 0)
             end) <$> seq 0 nC)
    [at_position (base + length vals)] [at_position base] (replicate n Idle).

(** The queue as a thread sees it to which everything before is visible. *)
Definition newest (ws : list Z) : list Z := match list.last ws with Some x => [x] | None => [] end.
Definition settled (s : mpmc T) : mpmc T :=
  mk_mpmc ((fun x => mk_mcell (newest (sequence x))
             (match storage x with Vacant _ => Vacant 0 | Holds v _ => Holds v 0 end)) <$> cells_ s)
    (newest (enqueue_pos_ s)) (newest (dequeue_pos_ s)) (threads s).

(** A schedule, not code of the library: the steps of one thread alone, whose loads
    read the latest stores and whose exchanges do not fail for no reason, until its
    call ends. *)
Definition all_stores (s : mpmc T) : nat :=
  (length (enqueue_pos_ s) + length (dequeue_pos_ s) + sum_list ((fun x => length (sequence x)) <$> cells_ s))%nat.
Fixpoint solo (h : hardening) (moved : T -> T) (fuel : nat) (i : nat) (req : request T) : M (mpmc T) (happening T) :=
  match fuel with
  | O => fun _ => Spin
  | S fuel' =>
      let! pick := get all_stores in
      let! e := MpmcQueue.thread_step h C moved i req pick false in
      match e with
      | None | Some (Enqueued _ _) | Some (Dequeued _) => solo h moved fuel' i req
      | Some e => ret e
      end
  end.
End run.
End MpmcRun.

Section mpmc_facts.
  Import MpmcRun.
  Context `{SizeT} {T : Type} (C : Z) (moved : T -> T).
  Context (HC : 2 <= C < 2 ^ (size_bits - 1)) (Hpow : Z.land C (C - 1) = 0).
  Implicit Types (s : mpmc T) (vals : list T) (a : atomic T) (base n m k i r : nat).
  Abbreviation nC := (Z.to_nat C).

(** ** The start of a stretch *)

Lemma ticket_at_spec base r : (r < nC)%nat ->
  (base <= ticket_at C base r < base + nC)%nat /\ (ticket_at C base r mod nC = r)%nat.
Proof.
  intros Hr. pose proof (Nat.mod_upper_bound base nC ltac:(lia)) as Hb. unfold ticket_at.
  pose proof (Nat.mod_upper_bound (r + nC - base mod nC) nC ltac:(lia)) as Hd. split; [lia|].
  rewrite Nat.Div0.add_mod, Nat.Div0.mod_mod, <- Nat.Div0.add_mod.
  rewrite (Nat.div_mod_eq base nC) at 1.
  replace (nC * (base / nC) + base mod nC + (r + nC - base mod nC))%nat with (r + (base / nC + 1) * nC)%nat by lia.
  rewrite Nat.Div0.mod_add. by apply Nat.mod_small.
Qed.

Lemma ticket_at_unique base k : (base <= k < base + nC)%nat -> ticket_at C base (k mod nC) = k.
Proof.
  intros Hk. pose proof (slot_in_range C HC k) as Hr. destruct (ticket_at_spec base _ Hr) as [Ht Em].
  destruct (Nat.le_gt_cases (ticket_at C base (k mod nC)) k).
  - apply (same_slot_near C); [done|lia].
  - symmetry. apply (same_slot_near C); [done|lia].
Qed.

Definition gstart base vals : list gcell :=
  (fun r => let k := ticket_at C base r in
    match vals !! (k - base)%nat with Some _ => mk_gcell k Full [S k] | None => mk_gcell k Free [k] end) <$> seq 0 nC.

Lemma quiescent_inv base vals n :
  (length vals <= nC)%nat -> minv C base (gstart base vals) vals base (mk_atomic vals ∅ ∅) (quiescent C base vals n).
Proof.
  intros Hlen. assert (forall k, counter_ok base [at_position k] k <-> (base <= k)%nat) as Hcnt.
  { intros k. split.
    - intros (ks & _ & Hl & Hb). apply last_Some_elem_of in Hl. rewrite list.Forall_forall in Hb. exact (proj1 (Hb k Hl)).
    - intros Hk. exists [k]. split_and!; [done|done|]. constructor; [lia|constructor]. }
  split; cbn [quiescent cells_ enqueue_pos_ dequeue_pos_ threads contents].
  - unfold gstart. by rewrite !length_fmap, !length_seq.
  - intros r c x Hc Hx. unfold gstart in Hc. rewrite list_lookup_fmap in Hc. rewrite list_lookup_fmap in Hx.
    destruct (decide (r < nC)%nat) as [Hr|]; [|by rewrite lookup_seq_ge in Hc by lia].
    rewrite lookup_seq_lt in Hc, Hx by done. cbn in Hc, Hx. destruct (ticket_at_spec base r Hr) as [Ht Em].
    destruct (vals !! (ticket_at C base r - base)%nat) as [v|] eqn:Ev; injection Hc as <-; injection Hx as <-.
    + apply lookup_lt_Some in Ev as Hlt. split; cbn; [done|done| | |].
      * split; cbn; [repeat constructor|done|constructor; [lia|constructor]|constructor; [by right|constructor]].
      * split; cbn; lia.
      * exists v, 0%nat. split_and!; [done|cbn; lia|done].
    + apply lookup_ge_None in Ev as Hge. split; cbn; [done|done| | |].
      * split; cbn; [repeat constructor|done|constructor; [lia|constructor]|constructor; [by left|constructor]].
      * split; cbn; lia.
      * exists 0%nat. split; [done|cbn; lia].
  - apply Hcnt. lia.
  - by apply Hcnt.
  - lia.
  - intros i pc [-> _]%lookup_replicate. cbn. split; [|by rewrite lookup_empty]. intros r c Hc Ho. unfold gstart in Hc.
    rewrite list_lookup_fmap in Hc. destruct (seq 0 nC !! r) as [r'|]; [|done]. cbn in Hc.
    by destruct (vals !! _); injection Hc as <-.
  - intros r c i Hc Ho. unfold gstart in Hc.
    rewrite list_lookup_fmap in Hc. destruct (seq 0 nC !! r) as [r'|]; [|done]. cbn in Hc.
    by destruct (vals !! _); injection Hc as <-.
  - by rewrite Nat.sub_diag.
Qed.

(** [mpmc_queue()] is such a start. *)
Lemma fresh_quiescent n : MpmcQueue.fresh C n = quiescent C 0 ([] : list T) n.
Proof.
  unfold MpmcQueue.fresh, quiescent. f_equal. apply list_fmap_ext. intros j r Hr. apply lookup_seq in Hr as [-> Hj].
  pose proof (nC_pos C HC) as (_ & En & Hb). assert (ticket_at C 0 (0 + j) = j) as ->.
  { rewrite <- (Nat.mod_small (0 + j) nC) by lia. apply ticket_at_unique. lia. }
  cbn. do 2 f_equal. unfold at_position, wrap. rewrite Z.mod_small; [done|]. lia.
Qed.

Lemma interleave_steps base ts : forall g vals m a s hd,
  minv C base g vals m a s -> Z.of_nat (length vals) + Z.of_nat (length ts) + 2 * C + 2 < 2 ^ size_bits ->
  exists es s' g' vals' m' a', MpmcQueue.interleave hd C moved ts s = Ret es s' /\ minv C base g' vals' m' a' s' /\
    accepts_all nC a es a' /\ (length vals' <= length vals + length ts)%nat.
Proof.
  induction ts as [|t ts IH]; intros g vals m a s hd Hv Hroom; cbn [MpmcQueue.interleave].
  { exists [], s, g, vals, m, a. split_and!; [done|done|constructor|lia]. }
  cbn [length] in Hroom.
  destruct (thread_steps C moved base HC Hpow g vals m a s hd (MpmcQueue.who t) (MpmcQueue.asks t) (MpmcQueue.picks t)
    (MpmcQueue.fails t) Hv ltac:(unfold roomy; lia)) as (e & s1 & g1 & vals1 & m1 & a1 & E1 & Hv1 & Hl1 & Hacc).
  destruct (IH g1 vals1 m1 a1 s1 hd Hv1 ltac:(lia)) as (es & s' & g' & vals' & m' & a' & E2 & Hv' & Hall & Hl).
  rewrite (bind_Ret _ _ _ _ _ E1), (bind_Ret _ _ _ _ _ E2). eexists _, s', g', vals', m', a'. split; [reflexivity|].
  split; [done|]. split; [|cbn; lia]. destruct e; [by econstructor|by subst].
Qed.

(** ** The end of a stretch *)

Lemma newest_log (ks : list nat) k : list.last ks = Some k -> newest (at_position <$> ks) = [at_position k].
Proof. intros Hk. unfold newest. by rewrite fmap_last, Hk. Qed.

(** When no call is running, each cell is free or full, at a ticket of the queue. *)
Lemma idle_cell base g vals m a s r c x :
  minv C base g vals m a s -> Forall (fun pc => pc = Idle) (threads s) -> g !! r = Some c -> cells_ s !! r = Some x ->
  cell_ok C base (base + length vals) m vals r c x /\ (m <= ticket c < m + nC)%nat /\
  ((stg c = Free /\ (base + length vals <= ticket c)%nat) \/ (stg c = Full /\ (ticket c < base + length vals)%nat)).
Proof.
  intros Hv Hidle Hc Hx. pose proof (minv_cells _ _ _ _ _ _ _ Hv r c x Hc Hx) as Hok. split; [done|].
  pose proof (minv_order _ _ _ _ _ _ _ Hv) as Hord. destruct Hok as [_ _ _ (Hb & Hn & Hs) _].
  assert (owner c = None) as Ho.
  { destruct (owner c) as [i|] eqn:Eo; [|done]. destruct (minv_owners _ _ _ _ _ _ _ Hv r c i Hc Eo) as [pc Hi].
    pose proof (Forall_lookup_1 _ _ _ _ Hidle Hi) as ->. destruct (minv_threads _ _ _ _ _ _ _ Hv i _ Hi) as [Honly _].
    discriminate (Honly r c Hc Eo). }
  unfold owner in Ho. destruct (stg c); try done; (split; [lia|]); [left|right]; (split; [done|lia]).
Qed.

Lemma idle_settled base g vals m a s :
  minv C base g vals m a s -> Forall (fun pc => pc = Idle) (threads s) ->
  settled s = quiescent C m (contents a) (length (threads s)).
Proof.
  intros Hv Hidle. pose proof (minv_order _ _ _ _ _ _ _ Hv) as Hord. unfold settled, quiescent. f_equal.
  - apply list_eq. intros r. rewrite !list_lookup_fmap. destruct (minv_length _ _ _ _ _ _ _ Hv) as [Lg Ls].
    destruct (decide (r < nC)%nat) as [Hr|]; [|by rewrite lookup_seq_ge, (lookup_ge_None_2 (cells_ s)) by lia].
    rewrite lookup_seq_lt by done. destruct (lookup_lt_is_Some_2 (cells_ s) r) as [x Hx]; [lia|].
    destruct (lookup_lt_is_Some_2 g r) as [c Hc]; [lia|].
    destruct (idle_cell base g vals m a s r c x Hv Hidle Hc Hx) as ([H1 H2 H3 _ H5] & Hk & Hstage).
    rewrite Hx. cbn. assert (ticket_at C m r = ticket c) as -> by (rewrite <- H2; by apply ticket_at_unique).
    f_equal. pose proof (newest_log _ _ (log_last _ _ _ H3)) as En. rewrite <- H1 in En. rewrite En.
    rewrite (minv_contents _ _ _ _ _ _ _ Hv), lookup_drop. replace (m - base + (ticket c - m))%nat with (ticket c - base)%nat by lia.
    unfold storage_ok, value_at, phase in *. destruct Hstage as [[Es Hf]|[Es Hf]]; rewrite Es in *.
    + destruct H5 as (st & -> & _). by rewrite lookup_ge_None_2 by lia.
    + destruct H5 as (v & st & -> & _ & Hval). by rewrite Hval.
  - destruct (minv_enqueue _ _ _ _ _ _ _ Hv) as (ks & -> & Hl & _). rewrite (newest_log _ _ Hl).
    rewrite (minv_contents _ _ _ _ _ _ _ Hv), length_drop. do 2 f_equal. lia.
  - destruct (minv_dequeue _ _ _ _ _ _ _ Hv) as (ks & -> & Hl & _). by rewrite (newest_log _ _ Hl).
  - apply list_eq. intros j. destruct (threads s !! j) as [pc|] eqn:Hj.
    + rewrite (Forall_lookup_1 _ _ _ _ Hidle Hj). symmetry. apply lookup_replicate_2. by eapply lookup_lt_Some.
    + symmetry. apply lookup_replicate_None. by apply lookup_ge_None in Hj.
Qed.

(** ** The destructor *)

(** The cells of the tickets from [k] on hold elements, the others none. *)
Definition holds_from base n k s : Prop :=
  length (cells_ s) = nC /\
  forall r x, cells_ s !! r = Some x ->
    let t := ticket_at C base r in
    (exists st, storage x = Vacant st /\ ~ (k <= t < n)%nat) \/
    (exists v st, storage x = Holds v st /\ (st <= length (sequence x))%nat /\ (k <= t < n)%nat).

Lemma drain_ok base n : forall fuel k s,
  (base <= k <= n)%nat -> (n <= base + nC)%nat -> (n - k <= fuel)%nat -> holds_from base n k s ->
  exists s', MpmcQueue.drain C fuel (at_position k) (at_position n) s = Ret tt s' /\ holds_from base n n s'.
Proof.
  pose proof (nC_pos C HC) as (HnC & En & Hb).
  induction fuel as [|fuel IH]; intros k s Hk Hn Hf [Hl Hh]; cbn [MpmcQueue.drain].
  { assert (k = n) as -> by lia. rewrite Z.eqb_refl. by exists s. }
  destruct (Z.eqb_spec (at_position k) (at_position n)) as [E|Hne].
  { apply (near_eq C HC k n) in E; [|lia]. subst k. by exists s. }
  assert (k < n)%nat as Hlt by (destruct (decide (k = n)); [by subst|lia]).
  pose proof (slot_in_range C HC k) as Hr. destruct (lookup_lt_is_Some_2 (cells_ s) (k mod nC)) as [x Hx]; [lia|].
  assert (MpmcQueue.target C (at_position k) s = Ret x s) as Et
    by (unfold MpmcQueue.target; by rewrite (index_of_position C HC Hpow), Hx).
  rewrite (bind_Ret _ _ _ _ _ Et).
  pose proof (Hh _ _ Hx) as Hc. rewrite ticket_at_unique in Hc by lia.
  destruct Hc as [(st & _ & Hno)|(v & st & Es & Hst & _)]; [lia|].
  set (x' := mk_mcell (T := T) (sequence x) (Vacant (length (sequence x)))).
  assert (MpmcQueue.destroy C (at_position k) (length (sequence x)) s =
    Ret tt (MpmcQueue.set_cells (<[(k mod nC)%nat := x']> (cells_ s)) s)) as Ed.
  { unfold MpmcQueue.destroy. rewrite (bind_Ret _ _ _ _ _ Et), Es. destruct (Nat.leb_spec st (length (sequence x))); [|lia].
    by apply set_target_ok. }
  rewrite (bind_Ret _ _ _ _ _ Ed), at_position_next. apply IH; [lia|done|lia|]. split; [cbn; by rewrite length_insert|].
  intros r y. cbn. rewrite list_lookup_insert_Some. intros [(<- & <- & _)|[Hne' Hy]].
  - left. exists (length (sequence x)). split; [done|]. rewrite ticket_at_unique by lia. lia.
  - destruct (Hh r y Hy) as [(st' & Ey & Hno)|(v' & st' & Ey & Hst' & Hin)].
    + left. exists st'. split; [done|]. lia.
    + right. exists v', st'. split_and!; [done|done| |lia]. assert (ticket_at C base r <> k) as Hnk; [|lia].
      intros Ek. apply Hne'. rewrite <- Ek. apply ticket_at_spec. apply lookup_lt_Some in Hy. lia.
Qed.

Lemma destructor_ok base g vals m a s :
  minv C base g vals m a s -> Forall (fun pc => pc = Idle) (threads s) ->
  exists s', MpmcQueue.destructor C s = Ret tt s' /\ Forall (fun x => exists st, storage x = Vacant st) (cells_ s').
Proof.
  intros Hv Hidle. pose proof (minv_order _ _ _ _ _ _ _ Hv) as Hord. pose proof (queue_room C base HC _ _ _ _ _ Hv) as Hroom.
  destruct (minv_length _ _ _ _ _ _ _ Hv) as [Lg Ls].
  assert (holds_from m (base + length vals) m s) as Hh.
  { split; [done|]. intros r x Hx. destruct (lookup_lt_is_Some_2 g r) as [c Hc]; [apply lookup_lt_Some in Hx; lia|].
    destruct (idle_cell base g vals m a s r c x Hv Hidle Hc Hx) as ([H1 H2 H3 _ H5] & Hk & Hstage).
    cbv zeta. rewrite <- H2, ticket_at_unique by done. unfold storage_ok in H5. destruct Hstage as [[Es Hf]|[Es Hf]]; rewrite Es in H5.
    - destruct H5 as (st & -> & _). left. exists st. split; [done|lia].
    - destruct H5 as (v & st & -> & Hst & _). right. exists v, st. rewrite H1, length_fmap. split_and!; [done|lia|lia|lia]. }
  destruct (drain_ok m (base + length vals) nC m s ltac:(lia) Hroom ltac:(lia) Hh) as (s' & Ed & Hl' & Hh').
  exists s'. split.
  - unfold MpmcQueue.destructor. destruct (minv_dequeue _ _ _ _ _ _ _ Hv) as (ks & Ek & Hlk & _).
    destruct (minv_enqueue _ _ _ _ _ _ _ Hv) as (ls & El & Hll & _). mstep. rewrite Ek.
    rewrite (bind_Ret _ _ _ _ _ (latest_ok ks _ s Hlk)). mstep. rewrite El. by rewrite (bind_Ret _ _ _ _ _ (latest_ok ls _ s Hll)).
  - apply Forall_lookup_2. intros r x Hx. destruct (Hh' r x Hx) as [(st & -> & _)|(v & st & _ & _ & Hin)]; [by exists st|lia].
Qed.

(** ** A thread alone *)

(** A bound on the steps to the end of the call; [n] tickets have been claimed by
    producers and [m] by consumers. *)
Definition steps_left n m (pc : thread_at T) : nat :=
  match pc with
  | Idle => 7
  | PushLoad _ => 5
  | PushLook _ pos => if decide (pos = at_position n) then 4 else 6
  | PushClaim _ pos _ => if decide (pos = at_position n) then 3 else 5
  | PushBuild _ _ _ => 2
  | PushPublish _ _ => 1
  | PopLoad => 6
  | PopLook pos => if decide (pos = at_position m) then 5 else 7
  | PopClaim pos _ => if decide (pos = at_position m) then 4 else 6
  | PopMove _ _ => 3
  | PopDestroy _ _ _ => 2
  | PopPublish _ _ => 1
  end.

Lemma load_latest (ks : list nat) k pick s :
  list.last ks = Some k -> (length ks <= pick)%nat ->
  exists j, MpmcQueue.load (at_position <$> ks) pick s = Ret (j, at_position k) s /\ ks !! j = Some k.
Proof.
  intros Hk Hp. unfold MpmcQueue.load. rewrite length_fmap. destruct (Nat.ltb_spec pick (length ks)); [lia|].
  rewrite last_lookup in Hk. exists (length ks - 1)%nat. rewrite list_lookup_fmap. replace (length ks - 1)%nat with (pred (length ks)) by lia.
  by rewrite Hk.
Qed.

Lemma sum_list_lookup (l : list nat) r x : l !! r = Some x -> (x <= sum_list l)%nat.
Proof.
  revert r. induction l as [|y l IH]; intros [|r] Hr; try done; cbn in *; [by simplify_eq; lia|]. pose proof (IH r Hr). lia.
Qed.

Lemma load_sequence_latest base g vals m a s k :
  minv C base g vals m a s -> exists c j, g !! (k mod nC)%nat = Some c /\
    MpmcQueue.load_sequence C (at_position k) (all_stores s) s = Ret (j, at_position (phase c)) s /\ log c !! j = Some (phase c) /\
    stage_ok C base (base + length vals) m c /\ (ticket c mod nC = k mod nC)%nat.
Proof.
  intros Hv. destruct (target_ok C base HC Hpow g vals m a s k Hv) as (c & x & Et & Hc & Hx & [Hs Ht Hl Hst _]).
  destruct (load_latest (log c) (phase c) (all_stores s) s (log_last _ _ _ Hl)) as (j & El & Hj).
  { unfold all_stores. rewrite <- (length_fmap at_position (log c)), <- Hs.
    pose proof (sum_list_lookup ((fun x => length (sequence x)) <$> cells_ s) (k mod nC)%nat (length (sequence x))
      ltac:(by rewrite list_lookup_fmap, Hx)). lia. }
  exists c, j. split_and!; try done. unfold MpmcQueue.load_sequence. by rewrite (bind_Ret _ _ _ _ _ Et), Hs.
Qed.

(** A position behind by at most the capacity compares as less. *)
Lemma compare_behind (p k : nat) :
  (p < k <= p + nC)%nat -> IndexDistance.compare_tickets (at_position p) (at_position k) = -1.
Proof.
  intros Hp. pose proof (nC_pos C HC) as (_ & En & _). pose proof size_modulus_double as Ed.
  unfold IndexDistance.compare_tickets, IndexDistance.half, at_position, wrap. rewrite <- Zminus_mod.
  assert ((Z.of_nat p - Z.of_nat k) mod 2 ^ size_bits = 2 ^ size_bits - (Z.of_nat k - Z.of_nat p)) as ->.
  { symmetry. apply (Z.mod_unique_pos _ _ (-1)); lia. }
  destruct (Z.eqb_spec (2 ^ size_bits - (Z.of_nat k - Z.of_nat p)) 0); [lia|].
  destruct (Z.ltb_spec ((2 ^ size_bits - 1) / 2) (2 ^ size_bits - (Z.of_nat k - Z.of_nat p))) as [|Hle]; [done|].
  pose proof (Z.mul_div_le (2 ^ size_bits - 1) 2 ltac:(lia)). lia.
Qed.

(** What a step returns, and where the thread is then. *)
Lemma goto_end i pc' (e : option (happening T)) (act : M (mpmc T) unit) s e' s' :
  (forall s1, act s = Ret tt s1 -> threads s1 = threads s) ->
  (act ;;; MpmcQueue.goto i pc' ;;; ret e) s = Ret e' s' -> e' = e /\ threads s' = <[i := pc']> (threads s).
Proof.
  intros Hact. unfold bind. destruct (act s) as [[] s1|s1| | |]; try done. cbn. intros [= <- <-]. split; [done|].
  cbn. by rewrite (Hact s1 eq_refl).
Qed.

Lemma target_threads pos x s s' : MpmcQueue.target C pos s = Ret x s' -> s' = s.
Proof. unfold MpmcQueue.target. destruct (cells_ s !! _); [|done]. by intros [= _ <-]. Qed.

(** The call is over; or the thread has fewer steps left. *)
Definition nearer base i bound (r : outcome (mpmc T) (option (happening T))) vals : Prop :=
  exists e s', r = Ret e s' /\
  match e with
  | None | Some (Enqueued _ _) | Some (Dequeued _) =>
      exists g' vals' m' a' pc', minv C base g' vals' m' a' s' /\ threads s' !! i = Some pc' /\
        (length vals' <= S (length vals))%nat /\ (steps_left (base + length vals') m' pc' < bound)%nat
  | Some _ => True
  end.

Lemma nearer_goto base g vals m a s i pc pc' bound :
  minv C base g vals m a s -> threads s !! i = Some pc -> thread_ok C base g vals a i pc' ->
  (steps_left (base + length vals) m pc' < bound)%nat ->
  nearer base i bound ((MpmcQueue.goto i pc' ;;; ret None) s) vals.
Proof.
  intros Hv Hi Hok Hlt. eexists None, _. split; [reflexivity|]. exists g, vals, m, a, pc'.
  split; [by eapply minv_goto|]. split; [|split; [lia|done]]. cbn. apply list_lookup_insert_eq. by eapply lookup_lt_Some.
Qed.

Lemma nearer_ends base s i pc' e bound vals :
  match e with Enqueued _ _ | Dequeued _ => False | _ => True end ->
  nearer base i bound ((MpmcQueue.goto i pc' ;;; ret (Some e)) s) vals.
Proof. intros He. eexists (Some e), _. split; [reflexivity|]. by destruct e. Qed.

Lemma work_threads pos x s s1 : MpmcQueue.set_target C pos x s = Ret tt s1 -> threads s1 = threads s.
Proof. by intros [= <-]. Qed.

(** The steps after a ticket is claimed. *)
Lemma work_nearer base g vals m a s hd i req pick weak pc :
  minv C base g vals m a s -> roomy C vals -> threads s !! i = Some pc ->
  match pc with PushBuild _ _ _ | PushPublish _ _ | PopMove _ _ | PopDestroy _ _ _ | PopPublish _ _ => True | _ => False end ->
  nearer base i (steps_left (base + length vals) m pc) (MpmcQueue.thread_step hd C moved i req pick weak s) vals.
Proof.
  intros Hv Hroom Hi Hpc.
  destruct (thread_steps C moved base HC Hpow g vals m a s hd i req pick weak Hv Hroom) as (e & s' & g' & vals' & m' & a' & Er & Hv' & Hl & _).
  exists e, s'. split; [done|].
  assert (forall pc', threads s' = <[i := pc']> (threads s) -> threads s' !! i = Some pc') as Hat.
  { intros pc' ->. apply list_lookup_insert_eq. by eapply lookup_lt_Some. }
  unfold MpmcQueue.thread_step, MpmcQueue.try_claim_and_construct, MpmcQueue.try_pop in Er. rewrite (bind_Ret _ _ _ _ _ (eq_refl : get threads s = Ret (threads s) s)), Hi in Er.
  destruct pc; try done.
  - apply goto_end in Er as [-> Ht]; [exists g', vals', m', a', (PushPublish v pos); split_and!; auto|].
    intros s1. unfold MpmcQueue.construct, bind. destruct (MpmcQueue.target C pos s) as [x s2|s2| | |] eqn:Et; try done.
    apply target_threads in Et as ->. destruct (storage x); [|done]. destruct (_ <=? _)%nat; [apply work_threads|done].
  - apply goto_end in Er as [-> Ht]; [done|].
    intros s1. unfold MpmcQueue.store_sequence, bind. destruct (MpmcQueue.target C pos s) as [x s2|s2| | |] eqn:Et; try done.
    apply target_threads in Et as ->. apply work_threads.
  - unfold bind in Er. destruct (MpmcQueue.move_out C moved pos got s) as [v s1|s1| | |] eqn:Em; try done.
    cbn in Er. injection Er as <- <-. exists g', vals', m', a', (PopDestroy pos got v). split_and!; auto. apply Hat. cbn. f_equal.
    unfold MpmcQueue.move_out, bind in Em. destruct (MpmcQueue.target C pos s) as [x s2|s2| | |] eqn:Et; try done.
    apply target_threads in Et as ->. destruct (storage x); [done|]. destruct (_ <=? _)%nat; [|done]. by injection Em as _ <-.
  - apply goto_end in Er as [-> Ht]; [exists g', vals', m', a', (PopPublish pos out); split_and!; auto|].
    intros s1. unfold MpmcQueue.destroy, bind. destruct (MpmcQueue.target C pos s) as [x s2|s2| | |] eqn:Et; try done.
    apply target_threads in Et as ->. destruct (storage x); [done|]. destruct (_ <=? _)%nat; [apply work_threads|done].
  - apply goto_end in Er as [-> Ht]; [done|].
    intros s1. unfold MpmcQueue.store_sequence, bind. destruct (MpmcQueue.target C pos s) as [x s2|s2| | |] eqn:Et; try done.
    apply target_threads in Et as ->. apply work_threads.
Qed.

(** What the sequence of the next producer's cell says: it is free, or still full. *)
Lemma next_cell_push base n m c :
  stage_ok C base n m c -> (ticket c mod nC = n mod nC)%nat -> (m <= n)%nat ->
  phase c = n \/ (phase c < n <= phase c + nC)%nat.
Proof.
  intros (Hb & Hn & Hs) Ht Hm. pose proof (nC_pos C HC) as (HnC & _ & _).
  destruct (Nat.lt_trichotomy (ticket c) n) as [Hlt|[Heq|Hgt]].
  - right. pose proof (same_slot_before C HC (ticket c) n Ht Hlt). unfold phase. destruct (stg c); lia.
  - left. unfold phase. destruct (stg c); lia.
  - pose proof (same_slot_before C HC n (ticket c) (eq_sym Ht) Hgt). lia.
Qed.

Lemma next_cell_pop base n m c :
  stage_ok C base n m c -> (ticket c mod nC = m mod nC)%nat -> (m <= n)%nat ->
  phase c = S m \/ (phase c < S m <= phase c + nC)%nat.
Proof.
  intros (Hb & Hn & Hs) Ht Hm. pose proof (nC_pos C HC) as (HnC & _ & _).
  destruct (Nat.lt_trichotomy (ticket c) m) as [Hlt|[Heq|Hgt]].
  - right. pose proof (same_slot_before C HC (ticket c) m Ht Hlt). unfold phase. destruct (stg c); lia.
  - unfold phase. destruct (stg c); lia.
  - pose proof (same_slot_before C HC m (ticket c) (eq_sym Ht) Hgt). lia.
Qed.

Lemma claimed_threads i pc pc' s (ws : list Z) (f : list Z -> mpmc T -> mpmc T) (e : happening T) :
  threads s !! i = Some pc -> (forall ws, threads (f ws s) = threads s) ->
  threads (MpmcQueue.set_thread i pc' (f ws s)) !! i = Some pc'.
Proof. intros Hi Hf. cbn. rewrite Hf. apply list_lookup_insert_eq. by eapply lookup_lt_Some. Qed.

Lemma push_nearer base g vals m a s hd i req pc :
  minv C base g vals m a s -> roomy C vals -> threads s !! i = Some pc ->
  match pc with PushLoad _ | PushLook _ _ | PushClaim _ _ _ => True | _ => False end ->
  nearer base i (steps_left (base + length vals) m pc) (MpmcQueue.thread_step hd C moved i req (all_stores s) false s) vals.
Proof.
  intros Hv Hroom Hi Hpc. pose proof (minv_threads _ _ _ _ _ _ _ Hv i pc Hi) as Hok. pose proof (minv_order _ _ _ _ _ _ _ Hv) as Hord.
  pose proof (nC_pos C HC) as (HnC & En & _). unfold roomy in Hroom. set (n := (base + length vals)%nat) in *.
  destruct (minv_enqueue _ _ _ _ _ _ _ Hv) as (ks & Ews & Hlast & _). fold n in Hlast.
  assert (length ks <= all_stores s)%nat as Hpick by (unfold all_stores; rewrite Ews, length_fmap; lia).
  destruct (load_latest ks n (all_stores s) s Hlast Hpick) as (j & El & _).
  unfold MpmcQueue.thread_step, MpmcQueue.try_emplace, MpmcQueue.try_claim_and_construct, MpmcQueue.try_pop. rewrite (bind_Ret _ _ _ _ _ (eq_refl : get threads s = Ret (threads s) s)), Hi.
  destruct pc as [|w|w pos|w pos got|w pos got|w pos| |pos|pos got|pos got|pos got out|pos out]; try done.
  - mstep. rewrite Ews, (bind_Ret _ _ _ _ _ El). eapply nearer_goto; [done|done| |].
    + cbn in *. split; [|done]. exists n. split; [done|lia].
    + cbn. rewrite decide_True by done. lia.
  - destruct Hok as ((k & -> & Hk) & Hrest).
    destruct (load_sequence_latest base g vals m a s k Hv) as (c & j' & Hc & Es & Hj' & Hst & Htk). fold n in Hst.
    rewrite (bind_Ret _ _ _ _ _ Es). cbn [fst snd].
    destruct (Z.eqb_spec (IndexDistance.compare_tickets (at_position (phase c)) (at_position k)) 0) as [E0|Hne0].
    + apply (compare_zero C HC) in E0; [|unfold phase; destruct Hst as (Hb & _ & _); destruct (stg c); lia].
      eapply nearer_goto; [done|done| |].
      * cbn. split; [|done]. exists k, c. rewrite E0 in Hj'. split_and!; [done|lia|lia|done|done].
      * cbn. fold n. repeat case_decide; lia.
    + destruct (Z.ltb_spec (IndexDistance.compare_tickets (at_position (phase c)) (at_position k)) 0) as [|Hge];
        [by apply nearer_ends|].
      eapply nearer_goto; [done|done|done|]. cbn. rewrite decide_False; [lia|]. intros Ek.
      apply (near_eq C HC) in Ek; [|lia]. subst k.
      destruct (next_cell_push base n m c Hst Htk ltac:(lia)) as [Ep|Hp]; [|rewrite (compare_behind _ _ Hp) in Hge; lia].
      apply Hne0. rewrite Ep. unfold IndexDistance.compare_tickets. rewrite Z.sub_diag. unfold wrap. by rewrite Z.mod_0_l by (pose proof size_modulus_pos; lia).
  - destruct Hok as ((k & c & -> & Hk & Hc & Hgot) & Ho & Hg & Ht). mstep. unfold MpmcQueue.exchange.
    rewrite bind_assoc, Ews, (bind_Ret _ _ _ _ _ (latest_ok ks _ s Hlast)). cbn [negb]. rewrite andb_true_r.
    destruct (Z.eqb_spec (at_position n) (at_position k)) as [Ecas|Hne].
    + apply (near_eq C HC) in Ecas; [|lia]. subst k.
      destruct (minv_enqueued C base HC g vals m a s i _ w got c Hv Hi Ho Hg Ht Hc Hgot) as [Hv' _].
      rewrite bind_assoc. mstep. eexists _, _. split; [reflexivity|]. cbn beta iota. rewrite <- Ews.
      eexists _, _, _, _, _. split; [exact Hv'|]. split; [by eapply (claimed_threads i _ _ s _ _ (Enqueued i w))|].
      split; [rewrite length_app; cbn; lia|]. cbn. rewrite decide_True by done. lia.
    + rewrite bind_assoc, (bind_Ret _ _ _ _ _ El). mstep. eapply nearer_goto; [done|done| |].
      * cbn. split; [|done]. exists n. split; [done|lia].
      * cbn. fold n. repeat case_decide; first [congruence | lia].
Qed.

Lemma pop_nearer base g vals m a s hd i req pc :
  minv C base g vals m a s -> roomy C vals -> threads s !! i = Some pc ->
  match pc with PopLoad | PopLook _ | PopClaim _ _ => True | _ => False end ->
  nearer base i (steps_left (base + length vals) m pc) (MpmcQueue.thread_step hd C moved i req (all_stores s) false s) vals.
Proof.
  intros Hv Hroom Hi Hpc. pose proof (minv_threads _ _ _ _ _ _ _ Hv i pc Hi) as Hok. pose proof (minv_order _ _ _ _ _ _ _ Hv) as Hord.
  pose proof (nC_pos C HC) as (HnC & En & _). unfold roomy in Hroom. set (n := (base + length vals)%nat) in *.
  destruct (minv_dequeue _ _ _ _ _ _ _ Hv) as (ks & Ews & Hlast & _).
  assert (length ks <= all_stores s)%nat as Hpick by (unfold all_stores; rewrite Ews, length_fmap; lia).
  destruct (load_latest ks m (all_stores s) s Hlast Hpick) as (j & El & _).
  unfold MpmcQueue.thread_step, MpmcQueue.try_emplace, MpmcQueue.try_claim_and_construct, MpmcQueue.try_pop. rewrite (bind_Ret _ _ _ _ _ (eq_refl : get threads s = Ret (threads s) s)), Hi.
  destruct pc as [|w|w pos|w pos got|w pos got|w pos| |pos|pos got|pos got|pos got out|pos out]; try done.
  - mstep. rewrite Ews, (bind_Ret _ _ _ _ _ El). eapply nearer_goto; [done|done| |].
    + cbn in *. split; [|done]. exists m. split; [done|lia].
    + cbn. rewrite decide_True by done. lia.
  - destruct Hok as ((k & -> & Hk) & Hrest). rewrite at_position_next.
    destruct (load_sequence_latest base g vals m a s k Hv) as (c & j' & Hc & Es & Hj' & Hst & Htk). fold n in Hst.
    rewrite (bind_Ret _ _ _ _ _ Es). cbn [fst snd].
    destruct (Z.eqb_spec (IndexDistance.compare_tickets (at_position (phase c)) (at_position (S k))) 0) as [E0|Hne0].
    + apply (compare_zero C HC) in E0; [|unfold phase; destruct Hst as (Hb & _ & _); destruct (stg c); lia].
      eapply nearer_goto; [done|done| |].
      * cbn. split; [|done]. exists k, c. rewrite E0 in Hj'. split_and!; [done|lia|lia|done|done].
      * cbn. fold n. repeat case_decide; lia.
    + destruct (Z.ltb_spec (IndexDistance.compare_tickets (at_position (phase c)) (at_position (S k))) 0) as [|Hge];
        [by apply nearer_ends|].
      eapply nearer_goto; [done|done|done|]. cbn. rewrite decide_False; [lia|]. intros Ek.
      apply (near_eq C HC) in Ek; [|lia]. subst k.
      destruct (next_cell_pop base n m c Hst Htk ltac:(lia)) as [Ep|Hp]; [|rewrite (compare_behind _ _ Hp) in Hge; lia].
      apply Hne0. rewrite Ep. unfold IndexDistance.compare_tickets. rewrite Z.sub_diag. unfold wrap. by rewrite Z.mod_0_l by (pose proof size_modulus_pos; lia).
  - destruct Hok as ((k & c & -> & Hk & Hc & Hgot) & Ho & Hg & Ht). mstep. unfold MpmcQueue.exchange.
    rewrite bind_assoc, Ews, (bind_Ret _ _ _ _ _ (latest_ok ks _ s Hlast)). cbn [negb]. rewrite andb_true_r.
    destruct (Z.eqb_spec (at_position m) (at_position k)) as [Ecas|Hne].
    + apply (near_eq C HC) in Ecas; [|lia]. subst k.
      destruct (minv_dequeued C base HC g vals m a s i _ got c Hv Hi Ho Hg Ht Hc Hgot) as (v & Hv' & _).
      rewrite bind_assoc. mstep. eexists _, _. split; [reflexivity|]. cbn beta iota. rewrite <- Ews.
      eexists _, _, _, _, _. split; [exact Hv'|]. split; [by eapply (claimed_threads i _ _ s _ _ (Dequeued i))|].
      split; [lia|]. cbn. rewrite decide_True by done. lia.
    + rewrite bind_assoc, (bind_Ret _ _ _ _ _ El). mstep. eapply nearer_goto; [done|done| |].
      * cbn. split; [|done]. exists m. split; [done|lia].
      * cbn. fold n. repeat case_decide; first [congruence | lia].
Qed.

Lemma solo_ends base hd i req : forall fuel g vals m a s pc,
  minv C base g vals m a s -> Z.of_nat (length vals) + Z.of_nat fuel + 2 * C + 2 < 2 ^ size_bits ->
  threads s !! i = Some pc -> (steps_left (base + length vals) m pc <= fuel)%nat ->
  exists e s', solo C hd moved fuel i req s = Ret e s'.
Proof.
  induction fuel as [|fuel IH]; intros g vals m a s pc Hv Hroom Hi Hleft.
  { exfalso. destruct pc; cbn in Hleft; repeat case_decide; lia. }
  assert (roomy C vals) as Hr by (unfold roomy; lia). cbn [solo]. mstep.
  assert (nearer base i (steps_left (base + length vals) m pc) (MpmcQueue.thread_step hd C moved i req (all_stores s) false s) vals) as Hnear.
  { destruct pc; try (by eapply push_nearer); try (by eapply pop_nearer); try (by eapply work_nearer).
    pose proof (minv_threads _ _ _ _ _ _ _ Hv i _ Hi) as Hok.
    unfold MpmcQueue.thread_step, MpmcQueue.try_emplace, MpmcQueue.try_claim_and_construct, MpmcQueue.try_pop. rewrite (bind_Ret _ _ _ _ _ (eq_refl : get threads s = Ret (threads s) s)), Hi.
    pose proof (require_constructed_ok C base HC Hpow g vals m a s hd (all_stores s) Hv) as Hreq. destruct req as [[v|]|].
    - rewrite (bind_Ret _ _ _ _ _ Hreq). eapply nearer_goto; [done|done|done|cbn; lia].
    - by exists (Some (PushThrown i)), s.
    - rewrite (bind_Ret _ _ _ _ _ Hreq). eapply nearer_goto; [done|done|done|cbn; lia]. }
  destruct Hnear as (e & s' & Er & He). rewrite (bind_Ret _ _ _ _ _ Er).
  destruct e as [[]|]; try (by eexists _, _); destruct He as (g' & vals' & m' & a' & pc' & Hv' & Hi' & Hl' & Hlt); by eapply (IH g' vals' m' a' s' pc'); [|lia| |lia].
Qed.

Lemma steps_left_max n m pc : (steps_left n m pc <= 7)%nat.
Proof. destruct pc; cbn; repeat case_decide; lia. Qed.
End mpmc_facts.

(** ** Theorems *)

Import MpmcRun.

Section mpmc_theorems.
  Context `{SizeT} {T : Type} (h : hardening) (C : Z) (moved : T -> T) (base n : nat) (vals : list T).
  Context (ts : list (MpmcQueue.mturn (T := T))).

(** C22. [mpmc_queue] is a bounded queue that any number of threads share, over any
    stretch of calls that starts when no call is running and has fewer steps than its
    counters have values: less than [2 ^ size_bits] with room for the elements and two
    laps.  (A longer stretch, in which a thread sleeps while all tickets are handed out
    once, could confuse tickets, and is not covered.)  Under every interleaving of the
    steps of such a stretch, whatever stores the loads read and whichever
    compare-exchanges fail for no reason, no access races, touches an object that is not there
    or trips a check, and the claims of tickets, in the order in which they happen, are
    the operations of an atomic queue of that capacity: a push that returns true put
    its value there, and a pop that returns true took its value, first in first out.
    When no call is running the queue is again one that another stretch can start from, with what the
    atomic queue holds, and its destructor destroys that and nothing else.  The
    counters may have any values at the start, so that they may wrap. *)
Theorem mpmc_linearizable :
  2 <= C < 2 ^ (size_bits - 1) -> Z.land C (C - 1) = 0 -> Z.of_nat (length vals) <= C ->
  Z.of_nat (length vals) + Z.of_nat (length ts) + 2 * C + 2 < 2 ^ size_bits ->
  exists es s' a',
    MpmcQueue.interleave h C moved ts (quiescent C base vals n) = Ret es s' /\
    accepts_all (Z.to_nat C) (mk_atomic vals ∅ ∅) es a' /\
    (Forall (fun pc => pc = Idle) (threads s') ->
      (exists m, settled s' = quiescent C m (contents a') (length (threads s'))) /\
      exists s'', MpmcQueue.destructor C s' = Ret tt s'' /\ Forall (fun x => exists st, storage x = Vacant st) (cells_ s'')).
Proof.
  intros HC Hpow Hlen Hroom. pose proof (quiescent_inv C HC base vals n ltac:(lia)) as Hv.
  destruct (interleave_steps C moved HC Hpow base ts _ _ _ _ _ h Hv Hroom)
    as (es & s' & g' & vals' & m' & a' & Er & Hv' & Hacc & _).
  exists es, s', a'. split; [done|]. split; [done|]. intros Hidle. split.
  - exists m'. by apply (idle_settled C HC base g' vals').
  - by apply (destructor_ok C HC Hpow base g' vals' m' a').
Qed.

(** C36. No call of [mpmc_queue] waits for another.  Wherever the threads of an
    interleaving have stopped, after fewer than [2 ^ size_bits] steps (with room for the
    elements, two laps and this call) from a state in which no call was running, one of
    them that goes on alone ends its call within seven steps of its own, provided that
    its loads then read the latest stores and its [compare_exchange_weak] does not fail
    for no reason, which is the schedule that [solo] runs. *)
Theorem mpmc_solo_ends (i : nat) (req : request T) :
  2 <= C < 2 ^ (size_bits - 1) -> Z.land C (C - 1) = 0 -> Z.of_nat (length vals) <= C ->
  Z.of_nat (length vals) + Z.of_nat (length ts) + 2 * C + 9 < 2 ^ size_bits ->
  exists es s', MpmcQueue.interleave h C moved ts (quiescent C base vals n) = Ret es s' /\
    (is_Some (threads s' !! i) -> exists e s'', solo C h moved 7 i req s' = Ret e s'').
Proof.
  intros HC Hpow Hlen Hroom. pose proof (quiescent_inv C HC base vals n ltac:(lia)) as Hv.
  destruct (interleave_steps C moved HC Hpow base ts _ _ _ _ _ h Hv ltac:(lia))
    as (es & s' & g' & vals' & m' & a' & Er & Hv' & _ & Hl).
  exists es, s'. split; [done|]. intros [pc Hi].
  eapply (solo_ends C moved HC Hpow base h i req 7 g' vals' m' a' s' pc); [done|lia|done|apply steps_left_max].
Qed.
End mpmc_theorems.

Section mpmc_examples.
  #[local] Existing Instance size_t_32.

(** Two producers that read the same ticket, and a consumer. *)
Definition race : list (MpmcQueue.mturn (T := Z)) :=
  let turn i r := MpmcQueue.mk_turn i r 9%nat false in
  let a := turn 0%nat (Push (Some 10)) in let b := turn 1%nat (Push (Some 20)) in let c := turn 2%nat Pop in
  [a; b; a; b; a; b; a; b; c; c; c; c; c; c; c; a; a; b; b; b; b; b; b].

Lemma mpmc_linearizable_witness :
  exists es s' a',
    MpmcQueue.interleave HARDENING_DEBUG 4 (fun v => v) race (MpmcQueue.fresh 4 3) = Ret es s' /\
    accepts_all 4 (mk_atomic [] ∅ ∅) es a' /\ es = [Enqueued 0 10; PopEmpty 2; PopEmpty 2; PushDone 0 10; Enqueued 1 20; PushDone 1 20].
Proof.
  assert (2 <= 4 < 2 ^ (size_bits - 1)) as HC by (cbn; lia).
  destruct (mpmc_linearizable HARDENING_DEBUG 4 (fun v : Z => v) 0 3 [] race) as (es & s' & a' & E & Ha & _);
    [exact HC|reflexivity|cbn; lia|cbn; lia|].
  exists es, s', a'. rewrite <- (fresh_quiescent 4 HC) in E. split; [exact E|]. split; [exact Ha|]. vm_compute in E. injection E as <- _. reflexivity.
Defined.

Lemma mpmc_solo_ends_witness :
  exists es s', MpmcQueue.interleave HARDENING_DEBUG 4 (fun v => v) race (quiescent 4 7 [1] 3) = Ret es s' /\
    (is_Some (threads s' !! 0%nat) -> exists e s'', solo 4 HARDENING_DEBUG (fun v => v) 7 0 Pop s' = Ret e s'').
Proof.
  apply (mpmc_solo_ends HARDENING_DEBUG 4 (fun v : Z => v) 7 3 [1] race 0 Pop); [cbn; lia|reflexivity|cbn; lia|cbn; lia].
Defined.
End mpmc_examples.
