(* ===== verification/ByteRing.v ===== *)
(** * [spsc_byte_ring]

    [include/metl/spsc_byte_ring.hpp]: bytes between one producer and one consumer,
    copied in and out or filled and drained in place through spans.

    As in [Spsc]: an index is the list of the values stored to it, an acquire load by
    the other side reads any store that is not older than the one it has read before,
    and each byte of the storage carries the number of the tail store that its last
    writing comes before and of the head store that its last reading comes before.  An
    access that does not happen after a conflicting one is a data race and [Fault].

    The caller that asks for a span is part of the model: it decides from the size of
    the span what it writes there, or how much of it it reads, and then how many bytes
    it commits or consumes. *)

From Stdlib Require Import ZArith Lia.
From Stdlib Require Init.Byte.
From stdpp Require Import base numbers list option tactics.
From S2P Require Import Prelude Spsc Span.
Local Open Scope Z_scope.

Abbreviation byte := Byte.byte.

Module ByteRing.
Record cell : Set := mk_cell {
  value : byte;
  put : nat;       (** written before the tail store [put] *)
  looked : nat     (** read before the head store [looked] *)
}.

(** What each side asks for, between calls. *)
Inductive producer_asks : Type :=
  | WritableSize
  | TryWrite (source : list byte)
  | Write (source : list byte)
  | Fill (plan : nat -> list byte * nat).   (** [writable_span], some writes, [commit_write] *)
Inductive consumer_asks : Type :=
  | ReadableSize
  | Read (size : nat)                       (** the size of the destination *)
  | Look (plan : nat -> nat * nat).         (** [readable_span], some reads, [consume] *)

(** Where each side is in its call. *)
Inductive producer_at : Type :=
  | PIdle
  | PSize (tail : Z)
  | PRoom (must : bool) (source : list byte) (tail : Z)
  | PCopy (source : list byte) (tail : Z) (i : nat)
  | PSpan (plan : nat -> list byte * nat) (tail : Z)
  | PFill (region : span) (bytes : list byte) (count i : nat)
  | PCommit (bytes : list byte) (count : nat).
Inductive consumer_at : Type :=
  | CIdle
  | CSize
  | CAvailable (size : nat)
  | CCopy (size : nat) (head : Z) (count : nat) (out : list byte)
  | CSpan (plan : nat -> nat * nat)
  | CLook (region : span) (k count : nat) (out : list byte)
  | CRelease (head : Z) (count : nat) (out : list byte).

Record ring : Type := mk_ring {
  head_ : list Z;            (** the stores to [head_] *)
  seen_tail : nat;           (** the tail store the consumer read last *)
  tail_ : list Z;            (** the stores to [tail_] *)
  seen_head : nat;           (** the head store the producer read last *)
  storage_ : list cell;
  producer : producer_at;
  consumer : consumer_at
}.

(** What a call has returned; [Committed] has the bytes that the caller wrote in the
    span and the bytes that were published. *)
Inductive event : Type :=
  | Writable (n : Z)
  | Refused (source : list byte)
  | Wrote (source : list byte)
  | Committed (bytes published : list byte)
  | Readable (n : Z)
  | Got (size : nat) (out : list byte)
  | Looked (out : list byte) (count : nat)
  | Cleared.

Section spsc_byte_ring.
  Context `{SizeT} (h : hardening) (C : Z).
  Abbreviation MR := (M ring).

Definition set_head x n (s : ring) := mk_ring x n (tail_ s) (seen_head s) (storage_ s) (producer s) (consumer s).
Definition set_tail x n (s : ring) := mk_ring (head_ s) (seen_tail s) x n (storage_ s) (producer s) (consumer s).
Definition set_storage x (s : ring) := mk_ring (head_ s) (seen_tail s) (tail_ s) (seen_head s) x (producer s) (consumer s).
Definition set_producer x (s : ring) := mk_ring (head_ s) (seen_tail s) (tail_ s) (seen_head s) (storage_ s) x (consumer s).
Definition set_consumer x (s : ring) := mk_ring (head_ s) (seen_tail s) (tail_ s) (seen_head s) (storage_ s) (producer s) x.

(** [spsc_byte_ring()]: the storage is zeroed. *)
Definition fresh : ring :=
  mk_ring [0] 0 [0] 0 (replicate (Z.to_nat C) (mk_cell Byte.x00 0 0)) PIdle CIdle.

(** *** Loads and stores of the indices *)

Definition latest (ws : list Z) : MR Z :=
  match list.last ws with Some x => ret x | None => fault end.
Definition own_tail : MR Z := let! ts := get tail_ in latest ts.
Definition own_head : MR Z := let! hs := get head_ in latest hs.

Definition nth_store (ws : list Z) (n : nat) : MR Z :=
  match ws !! n with Some x => ret x | None => fault end.
Definition acquire_head (pick : nat) : MR Z :=
  let! hs := get head_ in
  let! seen := get seen_head in
  let n := SpscQueue.readable seen hs pick in
  let! x := nth_store hs n in
  modify (fun s => set_tail (tail_ s) n s) ;;; ret x.
Definition acquire_tail (pick : nat) : MR Z :=
  let! ts := get tail_ in
  let! seen := get seen_tail in
  let n := SpscQueue.readable seen ts pick in
  let! x := nth_store ts n in
  modify (fun s => set_head (head_ s) n s) ;;; ret x.

Definition release_tail (x : Z) : MR unit := modify (fun s => set_tail (tail_ s ++ [x]) (seen_head s) s).
Definition release_head (x : Z) : MR unit := modify (fun s => set_head (head_ s ++ [x]) (seen_tail s) s).

(** *** The storage *)

(** [index & (Capacity - 1)]. *)
Definition offset (index : Z) : Z := Z.land index (C - 1).

(** [storage_[j] = b] by the producer, [storage_[j]] by the consumer. *)
Definition put_byte (j : Z) (b : byte) : MR unit := fun s =>
  match storage_ s !! Z.to_nat j with
  | Some c =>
      if (looked c <=? seen_head s)%nat
      then Ret tt (set_storage (<[Z.to_nat j := mk_cell b (length (tail_ s)) (looked c)]> (storage_ s)) s)
      else Fault
  | None => Fault
  end.
Definition look_byte (j : Z) : MR byte := fun s =>
  match storage_ s !! Z.to_nat j with
  | Some c =>
      if (put c <=? seen_tail s)%nat
      then Ret (value c) (set_storage (<[Z.to_nat j := mk_cell (value c) (put c) (length (head_ s))]> (storage_ s)) s)
      else Fault
  | None => Fault
  end.

(** *** The producer *)

(** [Capacity - (tail - head)], and the contiguous part of it. *)
Definition free_total (tail head : Z) : Z := wrap (C - wrap (tail - head)).
Definition writable_run (pick : nat) : MR Z :=
  let! tail := own_tail in
  let! head := acquire_head pick in
  let to_end := wrap (C - offset tail) in
  ret (if free_total tail head <? to_end then free_total tail head else to_end).

Definition writable_size (tail : Z) (pick : nat) : MR Z :=
  let! head := acquire_head pick in ret (free_total tail head).

Definition writable_span (tail : Z) (pick : nat) : MR span :=
  let! run := writable_run pick in ret (mk_span (offset tail) run).

(** The check of [commit_write]; then its store, and what that publishes. *)
Definition commit_check (count : nat) (pick : nat) : MR unit :=
  let! run := writable_run pick in metl_harden (Z.of_nat count <=? run).
Definition content (sto : list cell) (tail : Z) (count : nat) : list byte :=
  omap (fun i => value <$> sto !! Z.to_nat (offset (wrap (tail + Z.of_nat i)))) (seq 0 count).
Definition commit_store (count : nat) : MR (list byte) :=
  let! tail := own_tail in
  let! sto := get storage_ in
  release_tail (wrap (tail + Z.of_nat count)) ;;; ret (content sto tail count).

Definition producer_goes (pc : producer_at) : MR unit := modify (set_producer pc).

Definition producer_step (asks : producer_asks) (pick : nat) : MR (option event) :=
  let! pc := get producer in
  match pc with
  | PIdle =>
      let! tail := own_tail in
      producer_goes (match asks with
                     | WritableSize => PSize tail
                     | TryWrite source => PRoom false source tail
                     | Write source => PRoom true source tail
                     | Fill plan => PSpan plan tail
                     end) ;;;
      ret None
  | PSize tail => let! n := writable_size tail pick in producer_goes PIdle ;;; ret (Some (Writable n))
  | PRoom must source tail =>
      let! head := acquire_head pick in
      if free_total tail head <? Z.of_nat (length source) then
        producer_goes PIdle ;;; (if must then metl_assert h false else ret tt) ;;; ret (Some (Refused source))
      else producer_goes (PCopy source tail 0) ;;; ret None
  | PCopy source tail i =>
      match source !! i with
      | Some b => put_byte (offset (wrap (tail + Z.of_nat i))) b ;;; producer_goes (PCopy source tail (S i)) ;;; ret None
      | None => release_tail (wrap (tail + Z.of_nat (length source))) ;;; producer_goes PIdle ;;; ret (Some (Wrote source))
      end
  | PSpan plan tail =>
      let! region := writable_span tail pick in
      let todo := plan (Z.to_nat (ssize region)) in
      producer_goes (PFill region todo.1 todo.2 0) ;;; ret None
  | PFill region bytes count i =>
      match bytes !! i with
      | Some b =>
          metl_assert h (Z.of_nat i <? ssize region) ;;;
          put_byte (sdata region + Z.of_nat i) b ;;; producer_goes (PFill region bytes count (S i)) ;;; ret None
      | None => commit_check count pick ;;; producer_goes (PCommit bytes count) ;;; ret None
      end
  | PCommit bytes count =>
      let! published := commit_store count in
      producer_goes PIdle ;;; ret (Some (Committed bytes published))
  end.

(** *** The consumer *)

Definition readable_size (pick : nat) : MR Z :=
  let! tail := acquire_tail pick in
  let! head := own_head in
  ret (wrap (tail - head)).

Definition readable_run (pick : nat) : MR Z :=
  let! tail := acquire_tail pick in
  let! head := own_head in
  let available := wrap (tail - head) in
  let to_end := wrap (C - offset head) in
  ret (if available <? to_end then available else to_end).

Definition readable_span (pick : nat) : MR span :=
  let! head := own_head in
  let! run := readable_run pick in
  ret (mk_span (offset head) run).

Definition consumer_goes (pc : consumer_at) : MR unit := modify (set_consumer pc).

Definition consumer_step (asks : consumer_asks) (pick : nat) : MR (option event) :=
  let! pc := get consumer in
  match pc with
  | CIdle =>
      consumer_goes (match asks with ReadableSize => CSize | Read size => CAvailable size | Look plan => CSpan plan end) ;;;
      ret None
  | CSize => let! n := readable_size pick in consumer_goes CIdle ;;; ret (Some (Readable n))
  | CAvailable size =>
      let! tail := acquire_tail pick in
      let! head := own_head in
      let available := wrap (tail - head) in
      let count := if available <? Z.of_nat size then available else Z.of_nat size in
      consumer_goes (CCopy size head (Z.to_nat count) []) ;;; ret None
  | CCopy size head count out =>
      if (length out <? count)%nat then
        let! b := look_byte (offset (wrap (head + Z.of_nat (length out)))) in
        consumer_goes (CCopy size head count (out ++ [b])) ;;; ret None
      else release_head (wrap (head + Z.of_nat count)) ;;; consumer_goes CIdle ;;; ret (Some (Got size out))
  | CSpan plan =>
      let! region := readable_span pick in
      let todo := plan (Z.to_nat (ssize region)) in
      consumer_goes (CLook region todo.1 todo.2 []) ;;; ret None
  | CLook region k count out =>
      if (length out <? k)%nat then
        metl_assert h (Z.of_nat (length out) <? ssize region) ;;;
        let! b := look_byte (sdata region + Z.of_nat (length out)) in
        consumer_goes (CLook region k count (out ++ [b])) ;;; ret None
      else
        let! tail := acquire_tail pick in
        let! head := own_head in
        metl_harden (Z.of_nat count <=? wrap (tail - head)) ;;;
        consumer_goes (CRelease head count out) ;;; ret None
  | CRelease head count out =>
      release_head (wrap (head + Z.of_nat count)) ;;; consumer_goes CIdle ;;; ret (Some (Looked out count))
  end.

(** *** Both sides *)

(** [clear()], which may only be called with both sides quiesced: whatever they did
    happens before, and whatever they do next happens after. *)
Definition quiet (s : ring) : bool :=
  match producer s, consumer s with PIdle, CIdle => true | _, _ => false end.
Definition clear : MR unit :=
  modify (fun s => mk_ring [0] 0 [0] 0 ((fun c => mk_cell (value c) 0 0) <$> storage_ s) (producer s) (consumer s)).

(** What an observer reads, from loads that need not be a snapshot. *)
Definition size_approx (head tail : Z) : Z := IndexDistance.clamped_index_distance head tail C.
Definition empty (head tail : Z) : bool := size_approx head tail =? 0.
Definition full (head tail : Z) : bool := size_approx head tail =? C.

(** Which side runs next; a [Clear] before both sides are quiet does not happen. *)
Inductive turn : Type :=
  | Producer (asks : producer_asks) (pick : nat)
  | Consumer (asks : consumer_asks) (pick : nat)
  | Clear.

Definition take_turn (t : turn) : MR (option event) :=
  match t with
  | Producer asks pick => producer_step asks pick
  | Consumer asks pick => consumer_step asks pick
  | Clear => let! ok := get quiet in if ok then clear ;;; ret (Some Cleared) else ret None
  end.

Fixpoint interleave (ts : list turn) : MR (list event) :=
  match ts with
  | [] => ret []
  | t :: ts' =>
      let! e := take_turn t in
      let! es := interleave ts' in
      ret (match e with Some x => x :: es | None => es end)
  end.
End spsc_byte_ring.
End ByteRing.
