(* ===== verification/ByteRingFacts.v ===== *)
(** * Why [spsc_byte_ring] works

    The bytes published so far are a stream, counted without end; an index is a
    position of it.  The invariant ties the two histories of stores, what each side has
    seen of the other's, and the storage to the stream; every step of a side keeps it
    and does to the bytes in between what the event says. *)

From Stdlib Require Import ZArith Lia.
From Stdlib Require Init.Byte.
From stdpp Require Import base numbers list option tactics.
From S2P Require Import Prelude Spsc Positions Span ByteRing.
Import ByteRing.
Local Open Scope Z_scope.

(** ** The bytes in between *)

(** What a call may do to the bytes that are in the ring, [C] at most.  The size
    queries and a refusal may rest on a view that is out of date; they err on the side
    of caution. *)
Inductive moves (C : nat) : list byte -> event -> list byte -> Prop :=
  | moves_writable n q : 0 <= n <= Z.of_nat C - Z.of_nat (length q) -> moves C q (Writable n) q
  | moves_refused bs q : moves C q (Refused bs) q
  | moves_wrote bs q : (length q + length bs <= C)%nat -> moves C q (Wrote bs) (q ++ bs)
  | moves_committed bs pub q :
      (length q + length pub <= C)%nat -> take (length pub) bs = take (length bs) pub ->
      moves C q (Committed bs pub) (q ++ pub)
  | moves_readable n q : 0 <= n <= Z.of_nat (length q) -> moves C q (Readable n) q
  | moves_got n bs q : (length bs <= n)%nat -> moves C (bs ++ q) (Got n bs) q
  | moves_looked bs count q : bs `prefix_of` q -> (count <= length q)%nat -> moves C q (Looked bs count) (drop count q)
  | moves_cleared q : moves C q Cleared [].

Inductive moves_all (C : nat) : list byte -> list event -> list byte -> Prop :=
  | moves_none q : moves_all C q [] q
  | moves_more q q' q'' e es : moves C q e q' -> moves_all C q' es q'' -> moves_all C q (e :: es) q''.

Definition moves_maybe (C : nat) (q : list byte) (e : option event) (q' : list byte) : Prop :=
  match e with Some x => moves C q x q' | None => q' = q end.

(** Callers that keep to the spans they are handed. *)
Definition polite (t : turn) : Prop :=
  match t with
  | Producer (Write _) _ => False
  | Producer (Fill plan) _ => forall n, (length (plan n).1 <= n)%nat /\ ((plan n).2 <= n)%nat
  | Consumer (Look plan) _ => forall n, ((plan n).1 <= n)%nat /\ ((plan n).2 <= n)%nat
  | _ => True
  end.

(** Where a call of such a caller can be. *)
Definition courteous_producer (pc : producer_at) : Prop :=
  match pc with
  | PRoom must _ _ => must = false
  | PSpan plan _ => forall n, (length (plan n).1 <= n)%nat /\ ((plan n).2 <= n)%nat
  | PFill region bytes count _ => Z.of_nat (length bytes) <= ssize region /\ Z.of_nat count <= ssize region
  | _ => True
  end.
Definition courteous_consumer (pc : consumer_at) : Prop :=
  match pc with
  | CSpan plan => forall n, ((plan n).1 <= n)%nat /\ ((plan n).2 <= n)%nat
  | CLook region k count _ => Z.of_nat k <= ssize region /\ Z.of_nat count <= ssize region
  | _ => True
  end.
Definition courteous (s : ring) : Prop := courteous_producer (producer s) /\ courteous_consumer (consumer s).

Definition rising (ps : list nat) : Prop :=
  forall i j x y, (i <= j)%nat -> ps !! i = Some x -> ps !! j = Some y -> (x <= y)%nat.

Lemma rising_app ps x y : rising ps -> list.last ps = Some x -> (x <= y)%nat -> rising (ps ++ [y]).
Proof.
  intros Hr Hl Hxy i j a b Hij Ha Hb. rewrite last_lookup in Hl.
  apply lookup_app_Some in Hb as [Hb|[Hj Hb]].
  - rewrite lookup_app_l in Ha by (apply lookup_lt_Some in Hb; lia). by apply (Hr i j).
  - apply list_lookup_singleton_Some in Hb as [Hb <-]. apply lookup_app_Some in Ha as [Ha|[Hi Ha]].
    + apply lookup_lt_Some in Ha as Hlt. etrans; [|done]. apply (Hr i (pred (length ps))); [lia|done|done].
    + apply list_lookup_singleton_Some in Ha as [_ <-]. done.
Qed.

Section invariant.
  Context `{SizeT} (C : Z).
  Context (HC : 2 <= C < 2 ^ (size_bits - 1)) (Hpow : Z.land C (C - 1) = 0).
  Implicit Types (s : ring) (W V : list byte) (HP TP : list nat) (p k n m i r : nat) (b : byte) (c : cell) (sto : list cell).
  Abbreviation nC := (Z.to_nat C).
  Abbreviation nC_pos := (nC_pos C HC).
  Abbreviation at_position_distance := (at_position_distance C HC).
  Abbreviation same_slot_near := (same_slot_near C).
  Abbreviation same_slot_before := (same_slot_before C HC).
  Abbreviation slot_in_range := (slot_in_range C HC).

(** *** The invariant *)

(** No store before the next one frees, or publishes, the position of the access. *)
Definition access_ok (ps : list nat) (limit r stamp : nat) : Prop :=
  (stamp <= length ps)%nat /\
  (stamp = 0%nat \/ exists p, (p mod nC = r)%nat /\ (p < limit)%nat /\ forall i x, (i < stamp)%nat -> ps !! i = Some x -> (x <= p)%nat).

(** The storage holds [V] from [lo] on. *)
Definition holds (lo : nat) V sto : Prop :=
  forall p b, (lo <= p)%nat -> V !! p = Some b -> exists c, sto !! (p mod nC)%nat = Some c /\ value c = b.

Record storage_ok W HP TP (hp : nat) sto : Prop := {
  storage_length : length sto = nC;
  storage_looked : forall r c, sto !! r = Some c -> access_ok HP (length W) r (looked c);
  storage_put : forall r c, sto !! r = Some c -> access_ok TP (hp + nC) r (put c)
}.

(** The bytes that the producer has written and not published. *)
Definition draft (pc : producer_at) : list byte :=
  match pc with
  | PCopy source _ i => take i source
  | PFill _ bytes _ i => take i bytes
  | PCommit bytes _ => bytes
  | _ => []
  end.

Definition producer_ok (n hp : nat) (pc : producer_at) : Prop :=
  match pc with
  | PIdle => True
  | PSize tail | PRoom _ _ tail | PSpan _ tail => tail = at_position n
  | PCopy source tail i => tail = at_position n /\ (n + length source <= hp + nC)%nat /\ (i <= length source)%nat
  | PFill region bytes count i =>
      sdata region = Z.of_nat (n mod nC) /\ 0 <= ssize region /\ Z.of_nat n + ssize region <= Z.of_nat (hp + nC) /\
      sdata region + ssize region <= C /\ (i <= length bytes)%nat /\ Z.of_nat i <= ssize region
  | PCommit bytes count => (n + length bytes <= hp + nC)%nat /\ (n + count <= hp + nC)%nat
  end.

Definition consumer_ok W (m tp : nat) (pc : consumer_at) : Prop :=
  match pc with
  | CIdle | CSize | CAvailable _ | CSpan _ => True
  | CCopy size head count out =>
      head = at_position m /\ (m + count <= tp)%nat /\ (length out <= count <= size)%nat /\ out `prefix_of` drop m W
  | CLook region k count out =>
      sdata region = Z.of_nat (m mod nC) /\ Z.of_nat m + ssize region <= Z.of_nat tp /\
      sdata region + ssize region <= C /\ Z.of_nat (length out) <= ssize region /\ out `prefix_of` drop m W
  | CRelease head count out => head = at_position m /\ (m + count <= tp)%nat /\ out `prefix_of` drop m W
  end.

(** [W] is the stream, [HP] and [TP] the positions stored; the consumer is at [m] and
    has seen the tail at [tp], the producer has seen the head at [hp]. *)
Record inv W HP TP (m hp tp : nat) s : Prop := {
  inv_head : head_ s = at_position <$> HP;
  inv_tail : tail_ s = at_position <$> TP;
  inv_heads : rising HP;
  inv_tails : rising TP;
  inv_at_head : list.last HP = Some m;
  inv_at_tail : list.last TP = Some (length W);
  inv_seen_head : HP !! seen_head s = Some hp;
  inv_seen_tail : TP !! seen_tail s = Some tp;
  inv_behind : (m <= tp)%nat;
  inv_room : (length W <= hp + nC)%nat;
  inv_storage : storage_ok W HP TP hp (storage_ s);
  inv_holds : holds m (W ++ draft (producer s)) (storage_ s);
  inv_producer : producer_ok (length W) hp (producer s);
  inv_consumer : consumer_ok W m tp (consumer s)
}.

Lemma rising_last ps i x y : rising ps -> ps !! i = Some x -> list.last ps = Some y -> (x <= y)%nat.
Proof.
  intros Hr Hx Hy. rewrite last_lookup in Hy. apply (Hr i (pred (length ps))); [|done|done]. apply lookup_lt_Some in Hx. lia.
Qed.

Lemma inv_order W HP TP m hp tp s : inv W HP TP m hp tp s -> (hp <= m <= tp)%nat /\ (tp <= length W <= hp + nC)%nat.
Proof.
  intros []. pose proof (rising_last HP _ _ _ inv_heads0 inv_seen_head0 inv_at_head0).
  pose proof (rising_last TP _ _ _ inv_tails0 inv_seen_tail0 inv_at_tail0). lia.
Qed.

Lemma fresh_storage_ok sto :
  length sto = nC -> (forall r c, sto !! r = Some c -> put c = 0%nat /\ looked c = 0%nat) -> storage_ok [] [0%nat] [0%nat] 0 sto.
Proof.
  intros Hl Hz. split; [done| |]; intros r c Hc; destruct (Hz r c Hc) as [E1 E2]; rewrite ?E1, ?E2; (split; [cbn; lia|by left]).
Qed.

Lemma start_inv s sto :
  head_ s = [0] -> tail_ s = [0] -> seen_head s = 0%nat -> seen_tail s = 0%nat -> storage_ s = sto ->
  length sto = nC -> (forall r c, sto !! r = Some c -> put c = 0%nat /\ looked c = 0%nat) ->
  producer s = PIdle -> consumer s = CIdle -> inv [] [0%nat] [0%nat] 0 0 0 s.
Proof.
  intros Eh Et Esh Est <- Hl Hz Ep Ec.
  assert (rising [0%nat]) as Hr.
  { intros i j x y _ Hx Hy. apply list_lookup_singleton_Some in Hx as [_ <-]. apply list_lookup_singleton_Some in Hy as [_ <-]. done. }
  split; rewrite ?Eh, ?Et, ?Esh, ?Est, ?Ep, ?Ec; try done; [cbn; lia|by apply fresh_storage_ok].
Qed.

Lemma byte_fresh_inv : inv [] [0%nat] [0%nat] 0 0 0 (fresh C).
Proof.
  apply (start_inv _ (storage_ (fresh C))); try done; [apply length_replicate|].
  intros r c [-> _]%lookup_replicate. done.
Qed.

(** *** Positions *)

Lemma at_position_plus k n : wrap (at_position k + Z.of_nat n) = at_position (k + n).
Proof. unfold at_position, wrap. rewrite Zplus_mod_idemp_l. f_equal. lia. Qed.

Lemma offset_position k : offset C (at_position k) = Z.of_nat (k mod nC).
Proof.
  rewrite <- (slot_position C HC Hpow k). unfold SpscQueue.slot, offset. rewrite Z2Nat.id; [done|]. apply Z.land_nonneg. lia.
Qed.

(** A region that ends before the seam. *)
Lemma mod_within k n : (k mod nC + n < nC)%nat -> ((k + n) mod nC = k mod nC + n)%nat.
Proof.
  intros Hn. pose proof nC_pos. rewrite <- Nat.Div0.add_mod_idemp_l. apply Nat.mod_small. done.
Qed.

Lemma free_total_exact n hp : (hp <= n <= hp + nC)%nat -> free_total C (at_position n) (at_position hp) = Z.of_nat (hp + nC - n).
Proof.
  intros Hn. pose proof nC_pos as (? & En & ?). unfold free_total. rewrite at_position_distance by lia.
  rewrite wrap_small by lia. lia.
Qed.

Lemma to_end_exact k : wrap (C - offset C (at_position k)) = Z.of_nat (nC - k mod nC) /\ (0 < nC - k mod nC)%nat.
Proof.
  pose proof nC_pos as (? & En & ?). pose proof (slot_in_range k). rewrite offset_position, wrap_small by lia. lia.
Qed.

(** *** Loads and stores *)

Lemma latest_positions ps m s : list.last ps = Some m -> latest (at_position <$> ps) s = Ret (at_position m) s.
Proof. intros E. unfold latest. by rewrite fmap_last, E. Qed.

Lemma own_tail_exact W HP TP m hp tp s : inv W HP TP m hp tp s -> own_tail s = Ret (at_position (length W)) s.
Proof. intros []. unfold own_tail. mstep. rewrite inv_tail0. by apply latest_positions. Qed.
Lemma own_head_exact W HP TP m hp tp s : inv W HP TP m hp tp s -> own_head s = Ret (at_position m) s.
Proof. intros []. unfold own_head. mstep. rewrite inv_head0. by apply latest_positions. Qed.

Lemma readable_bounds seen (ws : list Z) pick :
  (seen < length ws)%nat -> (seen <= SpscQueue.readable seen ws pick < length ws)%nat.
Proof.
  intros. unfold SpscQueue.readable. destruct (Nat.leb_spec seen pick), (Nat.ltb_spec pick (length ws)); cbn; lia.
Qed.

(** A load that is up to date. *)
Definition fresh_pick (ws : list Z) (pick : nat) : Prop := (length ws <= pick)%nat.
Lemma byte_readable_latest seen (ws : list Z) pick : fresh_pick ws pick -> SpscQueue.readable seen ws pick = (length ws - 1)%nat.
Proof.
  unfold fresh_pick. intros. unfold SpscQueue.readable. destruct (Nat.leb_spec seen pick), (Nat.ltb_spec pick (length ws)); cbn; lia.
Qed.

(** A load of [ps] after the store [seen]: a later one, and the last when it is up to date. *)
Lemma load_positions ps seen x last pick :
  rising ps -> ps !! seen = Some x -> list.last ps = Some last ->
  exists y, ps !! SpscQueue.readable seen (at_position <$> ps) pick = Some y /\ (x <= y <= last)%nat /\
    (fresh_pick (at_position <$> ps) pick -> y = last).
Proof.
  intros Hr Hx Hl. pose proof (lookup_lt_Some _ _ _ Hx) as Hlt.
  pose proof (readable_bounds seen (at_position <$> ps) pick) as Hb. rewrite length_fmap in Hb. specialize (Hb Hlt).
  destruct (lookup_lt_is_Some_2 ps (SpscQueue.readable seen (at_position <$> ps) pick)) as [y Hy]; [lia|].
  exists y. split; [done|]. split.
  - split; [apply (Hr _ _ _ _ (proj1 Hb) Hx Hy)|by apply (rising_last ps _ _ _ Hr Hy)].
  - intros Hf. rewrite byte_readable_latest, length_fmap in Hy by done. rewrite last_lookup, <- Nat.sub_1_r, Hy in Hl. by injection Hl.
Qed.

Lemma storage_sees W HP TP hp hp' sto : storage_ok W HP TP hp sto -> (hp <= hp')%nat -> storage_ok W HP TP hp' sto.
Proof.
  intros [Hl Hlk Hp] Hle. split; [done|done|]. intros r c Hc. destruct (Hp r c Hc) as [Hst [->|(p & Hr & Hlt & Hall)]]; (split; [lia|]); [by left|].
  right. exists p. split_and!; [done|lia|done].
Qed.

Lemma producer_ok_sees n hp hp' pc : (hp <= hp')%nat -> producer_ok n hp pc -> producer_ok n hp' pc.
Proof. intros Hle. destruct pc; cbn; intros; intuition lia. Qed.

Lemma acquire_head_inv W HP TP m hp tp s pick :
  inv W HP TP m hp tp s ->
  exists hp' n, acquire_head pick s = Ret (at_position hp') (set_tail (tail_ s) n s) /\ (hp <= hp' <= m)%nat /\
    (fresh_pick (head_ s) pick -> hp' = m) /\ inv W HP TP m hp' tp (set_tail (tail_ s) n s).
Proof.
  intros Hi. pose proof Hi as []. destruct (load_positions HP _ _ _ pick inv_heads0 inv_seen_head0 inv_at_head0) as (hp' & Hy & Hr & Hf).
  exists hp', (SpscQueue.readable (seen_head s) (head_ s) pick). rewrite inv_head0. split; [|split; [done|split; [done|]]].
  - unfold acquire_head. mstep. mstep. unfold nth_store. rewrite inv_head0, list_lookup_fmap, Hy. cbn [fmap option_fmap option_map]. done.
  - split; try done; cbn; [lia|apply (storage_sees _ _ _ hp); [done|lia]|apply (producer_ok_sees _ hp); [lia|done]].
Qed.

Lemma consumer_ok_sees W m tp tp' pc : (tp <= tp')%nat -> consumer_ok W m tp pc -> consumer_ok W m tp' pc.
Proof. intros Hle. destruct pc; cbn; intros; intuition lia. Qed.

Lemma acquire_tail_inv W HP TP m hp tp s pick :
  inv W HP TP m hp tp s ->
  exists tp' n, acquire_tail pick s = Ret (at_position tp') (set_head (head_ s) n s) /\ (tp <= tp' <= length W)%nat /\
    (fresh_pick (tail_ s) pick -> tp' = length W) /\ inv W HP TP m hp tp' (set_head (head_ s) n s).
Proof.
  intros Hi. pose proof Hi as []. destruct (load_positions TP _ _ _ pick inv_tails0 inv_seen_tail0 inv_at_tail0) as (tp' & Hy & Hr & Hf).
  exists tp', (SpscQueue.readable (seen_tail s) (tail_ s) pick). rewrite inv_tail0. split; [|split; [done|split; [done|]]].
  - unfold acquire_tail. mstep. mstep. unfold nth_store. rewrite inv_tail0, list_lookup_fmap, Hy. cbn [fmap option_fmap option_map]. done.
  - split; try done; cbn; [lia|apply (consumer_ok_sees _ _ tp); [lia|done]].
Qed.

Lemma writable_run_inv W HP TP m hp tp s pick :
  inv W HP TP m hp tp s ->
  exists hp' n, writable_run C pick s =
      Ret (Z.of_nat ((hp' + nC - length W) `min` (nC - length W mod nC))) (set_tail (tail_ s) n s) /\ (hp <= hp' <= m)%nat /\
    (fresh_pick (head_ s) pick -> hp' = m) /\ inv W HP TP m hp' tp (set_tail (tail_ s) n s).
Proof.
  intros Hi. destruct (acquire_head_inv _ _ _ _ _ _ _ pick Hi) as (hp' & n & E & Hr & Hf & Hi'). exists hp', n.
  pose proof (inv_order _ _ _ _ _ _ _ Hi'). split; [|done]. unfold writable_run.
  rewrite (bind_Ret _ _ _ _ _ (own_tail_exact _ _ _ _ _ _ _ Hi)), (bind_Ret _ _ _ _ _ E).
  rewrite free_total_exact, (proj1 (to_end_exact _)) by lia. unfold ret. f_equal.
  destruct (Z.ltb_spec (Z.of_nat (hp' + nC - length W)) (Z.of_nat (nC - length W mod nC))); lia.
Qed.

Lemma readable_run_inv W HP TP m hp tp s pick :
  inv W HP TP m hp tp s ->
  exists tp' n, readable_run C pick s =
      Ret (Z.of_nat ((tp' - m) `min` (nC - m mod nC))) (set_head (head_ s) n s) /\ (tp <= tp' <= length W)%nat /\
    (fresh_pick (tail_ s) pick -> tp' = length W) /\ inv W HP TP m hp tp' (set_head (head_ s) n s).
Proof.
  intros Hi. destruct (acquire_tail_inv _ _ _ _ _ _ _ pick Hi) as (tp' & n & E & Hr & Hf & Hi'). exists tp', n.
  pose proof (inv_order _ _ _ _ _ _ _ Hi'). split; [|done]. unfold readable_run.
  rewrite (bind_Ret _ _ _ _ _ E), (bind_Ret _ _ _ _ _ (own_head_exact _ _ _ _ _ _ _ Hi')).
  rewrite at_position_distance, (proj1 (to_end_exact _)) by lia. unfold ret. f_equal.
  destruct (Z.ltb_spec (Z.of_nat tp' - Z.of_nat m) (Z.of_nat (nC - m mod nC))); lia.
Qed.

(** *** The storage *)

Lemma holds_prefix lo V V' sto : holds lo V sto -> V' `prefix_of` V -> holds lo V' sto.
Proof. intros Hh [k ->] p b Hp Hb. apply Hh; [done|]. by apply lookup_app_l_Some. Qed.

(** A byte that the producer writes next to those it has written: what it overwrites
    has been consumed, and read before. *)
Lemma put_byte_ok W HP TP m hp tp s pc b :
  inv W HP TP m hp tp s -> let k := length (W ++ draft (producer s)) in (k < hp + nC)%nat ->
  draft pc = draft (producer s) ++ [b] -> producer_ok (length W) hp pc ->
  exists sto, put_byte (Z.of_nat (k mod nC)) b s = Ret tt (set_storage sto s) /\
    inv W HP TP m hp tp (set_producer pc (set_storage sto s)).
Proof.
  intros Hi k Hk Hd Hpc. pose proof (inv_order _ _ _ _ _ _ _ Hi) as [Ho Ho']. destruct Hi, inv_storage0 as [Hl Hlk Hp].
  assert (length W <= k)%nat as HkW by (unfold k; rewrite length_app; lia).
  destruct (lookup_lt_is_Some_2 (storage_ s) (k mod nC)) as [c Hc]; [rewrite Hl; apply slot_in_range|].
  assert (looked c <= seen_head s)%nat as Hle.
  { destruct (Hlk _ _ Hc) as [_ [->|(p & Er & Hlt & Hall)]]; [lia|]. apply Nat.nlt_ge. intros Hs.
    pose proof (Hall _ _ Hs inv_seen_head0). pose proof (same_slot_before p k Er ltac:(lia)). lia. }
  eexists. split; [unfold put_byte; rewrite Nat2Z.id, Hc, (proj2 (Nat.leb_le _ _) Hle); reflexivity|].
  split; try done; cbn -[draft]; [|rewrite Hd, app_assoc].
  - split; [by rewrite length_insert| |]; intros r c'; rewrite list_lookup_insert_Some; intros [(<- & <- & _)|[_ Hc']].
    + by apply (Hlk _ _ Hc).
    + by apply Hlk.
    + cbn. rewrite inv_tail0, length_fmap. split; [done|]. right. exists k. split_and!; [done|done|].
      intros i x _ Hx. pose proof (rising_last TP _ _ _ inv_tails0 Hx inv_at_tail0). lia.
    + by apply Hp.
  - intros p b' Hlo Hb. apply lookup_app_Some in Hb as [Hb|[Hge Hb]].
    + apply lookup_lt_Some in Hb as Hlt. destruct (inv_holds0 p b' Hlo Hb) as (c' & Hc' & Ev). exists c'. split; [|done].
      rewrite list_lookup_insert_ne; [done|]. intros E. fold k in Hlt. assert (p = k) as ->; [|lia]. apply same_slot_near; [done|lia].
    + apply list_lookup_singleton_Some in Hb as [Hz <-]. fold k in Hge, Hz. assert (p = k) as -> by lia.
      eexists. split; [apply list_lookup_insert_eq; by eapply lookup_lt_Some|done].
Qed.

(** A byte that the consumer has been told of is the one of the stream. *)
Lemma look_byte_ok W HP TP m hp tp s p b :
  inv W HP TP m hp tp s -> (m <= p < tp)%nat -> W !! p = Some b ->
  exists sto, look_byte (Z.of_nat (p mod nC)) s = Ret b (set_storage sto s) /\ inv W HP TP m hp tp (set_storage sto s).
Proof.
  intros Hi Hp Hb. pose proof (inv_order _ _ _ _ _ _ _ Hi) as [Ho Ho']. destruct Hi, inv_storage0 as [Hl Hlk Hpt].
  destruct (inv_holds0 p b ltac:(lia) ltac:(by apply lookup_app_l_Some)) as (c & Hc & <-).
  assert (put c <= seen_tail s)%nat as Hle.
  { destruct (Hpt _ _ Hc) as [_ [->|(x & Er & Hlt & Hall)]]; [lia|]. apply Nat.nlt_ge. intros Hs.
    pose proof (Hall _ _ Hs inv_seen_tail0). pose proof (same_slot_before p x (eq_sym Er) ltac:(lia)). lia. }
  eexists. split; [unfold look_byte; rewrite Nat2Z.id, Hc, (proj2 (Nat.leb_le _ _) Hle); reflexivity|].
  split; try done; cbn.
  - split; [by rewrite length_insert| |]; intros r c'; rewrite list_lookup_insert_Some; intros [(<- & <- & _)|[_ Hc']].
    + cbn. rewrite inv_head0, length_fmap. split; [done|]. right. exists p. split_and!; [done|lia|].
      intros i x _ Hx. pose proof (rising_last HP _ _ _ inv_heads0 Hx inv_at_head0). lia.
    + by apply Hlk.
    + by apply (Hpt _ _ Hc).
    + by apply Hpt.
  - intros q b' Hlo Hq. destruct (inv_holds0 q b' Hlo Hq) as (c' & Hc' & <-).
    destruct (decide (q mod nC = p mod nC)%nat) as [E|E].
    + rewrite E in *. rewrite Hc in Hc'. injection Hc' as <-. eexists. split; [apply list_lookup_insert_eq; by eapply lookup_lt_Some|done].
    + exists c'. split; [|done]. by rewrite list_lookup_insert_ne by done.
Qed.

(** *** Publishing *)

Lemma access_ok_grow ps more limit limit' r stamp :
  access_ok ps limit r stamp -> (limit <= limit')%nat -> access_ok (ps ++ more) limit' r stamp.
Proof.
  intros [Hs Ha] Hl. split; [rewrite length_app; lia|]. destruct Ha as [->|(p & Hr & Hlt & Hall)]; [by left|right].
  exists p. split_and!; [done|lia|]. intros i x Hi. rewrite lookup_app_l by lia. by apply Hall.
Qed.

Lemma consumer_ok_grow W more m tp pc : (m <= length W)%nat -> consumer_ok W m tp pc -> consumer_ok (W ++ more) m tp pc.
Proof.
  intros Hm. destruct pc; cbn; rewrite ?drop_app_le by done; intros; intuition auto using prefix_app_r.
Qed.

Lemma release_tail_inv W HP TP m hp tp s more :
  inv W HP TP m hp tp s -> (length (W ++ more) <= hp + nC)%nat -> holds m (W ++ more) (storage_ s) ->
  inv (W ++ more) HP (TP ++ [length (W ++ more)]) m hp tp
    (set_producer PIdle (set_tail (tail_ s ++ [wrap (at_position (length W) + Z.of_nat (length more))]) (seen_head s) s)).
Proof.
  intros Hi Hroom Hh. pose proof (inv_order _ _ _ _ _ _ _ Hi). destruct Hi, inv_storage0 as [Hl Hlk Hpt].
  split; try done; cbn -[at_position]; rewrite ?at_position_plus.
  - by rewrite inv_tail0, fmap_app, length_app.
  - apply (rising_app TP (length W)); [done|done|]. rewrite length_app. lia.
  - apply last_snoc.
  - by apply lookup_app_l_Some.
  - split; [done| |]; intros r c Hc.
    + rewrite <- (app_nil_r HP). apply (access_ok_grow _ _ (length W)); [by apply Hlk|rewrite length_app; lia].
    + by apply (access_ok_grow _ _ (hp + nC)); [by apply Hpt|].
  - by rewrite app_nil_r.
  - apply consumer_ok_grow; [lia|done].
Qed.

Lemma release_head_inv W HP TP m hp tp s count :
  inv W HP TP m hp tp s -> (m + count <= tp)%nat ->
  inv W (HP ++ [(m + count)%nat]) TP (m + count) hp tp
    (set_consumer CIdle (set_head (head_ s ++ [wrap (at_position m + Z.of_nat count)]) (seen_tail s) s)).
Proof.
  intros Hi Hle. destruct Hi, inv_storage0 as [Hl Hlk Hpt].
  split; try done; cbn -[at_position]; rewrite ?at_position_plus.
  - by rewrite inv_head0, fmap_app.
  - apply (rising_app HP m); [done|done|lia].
  - apply last_snoc.
  - by apply lookup_app_l_Some.
  - split; [done| |]; intros r c Hc; [|by apply Hpt]. apply (access_ok_grow _ _ (length W)); [by apply Hlk|done].
  - intros p b Hp. apply inv_holds0. lia.
Qed.

(** The bytes that a commit publishes are the ones that are there. *)
Lemma content_S sto n count :
  length sto = nC ->
  exists c, sto !! ((n + count) mod nC)%nat = Some c /\
    content C sto (at_position n) (S count) = content C sto (at_position n) count ++ [value c].
Proof.
  intros Hl. destruct (lookup_lt_is_Some_2 sto ((n + count) mod nC)) as [c Hc]; [rewrite Hl; apply slot_in_range|].
  exists c. split; [done|]. unfold content. rewrite seq_S, omap_app. cbn [omap list_omap].
  by rewrite Nat.add_0_l, at_position_plus, offset_position, Nat2Z.id, Hc.
Qed.

Lemma content_spec W sto m count :
  length sto = nC -> (m <= length W)%nat -> holds m W sto ->
  length (content C sto (at_position (length W)) count) = count /\
  holds m (W ++ content C sto (at_position (length W)) count) sto.
Proof.
  intros Hl Hm Hh. induction count as [|count [IH1 IH2]]; [by cbn; rewrite app_nil_r|].
  destruct (content_S sto (length W) count Hl) as (c & Hc & ->). split; [rewrite length_app, IH1; cbn; lia|].
  rewrite app_assoc. intros p b Hp Hb. apply lookup_app_Some in Hb as [Hb|[Hge Hb]]; [by apply IH2|].
  apply list_lookup_singleton_Some in Hb as [Hz <-]. rewrite length_app, IH1 in *.
  exists c. split; [|done]. rewrite <- Hc. f_equal. f_equal. lia.
Qed.

Lemma holds_agree lo W V V' sto :
  holds lo (W ++ V) sto -> holds lo (W ++ V') sto -> (lo <= length W)%nat -> take (length V') V = take (length V) V'.
Proof.
  intros Hv Hv' Hlo. apply list_eq. intros i.
  destruct (decide (i < length V)%nat) as [Hi|Hi], (decide (i < length V')%nat) as [Hi'|Hi'].
  - rewrite !lookup_take_lt by done.
    destruct (lookup_lt_is_Some_2 V i Hi) as [b Hb], (lookup_lt_is_Some_2 V' i Hi') as [b' Hb'].
    destruct (Hv (length W + i)%nat b) as (c & Hc & <-); [lia|rewrite lookup_app_r by lia; by replace (length W + i - length W)%nat with i by lia|].
    destruct (Hv' (length W + i)%nat b') as (c' & Hc' & <-); [lia|rewrite lookup_app_r by lia; by replace (length W + i - length W)%nat with i by lia|].
    rewrite Hb, Hb'. rewrite Hc in Hc'. by injection Hc' as ->.
  - rewrite lookup_take_ge, lookup_take_lt by lia. symmetry. apply lookup_ge_None_2. lia.
  - rewrite lookup_take_lt, (lookup_take_ge V') by lia. apply lookup_ge_None_2. lia.
  - by rewrite !lookup_take_ge by lia.
Qed.

Lemma producer_goes_inv W HP TP m hp tp s pc :
  inv W HP TP m hp tp s -> draft pc `prefix_of` draft (producer s) -> producer_ok (length W) hp pc ->
  inv W HP TP m hp tp (set_producer pc s).
Proof.
  intros [] Hd Hpc. split; try done. cbn. apply (holds_prefix _ (W ++ draft (producer s))); [done|]. by apply prefix_app.
Qed.

Lemma consumer_goes_inv W HP TP m hp tp s pc :
  inv W HP TP m hp tp s -> consumer_ok W m tp pc -> inv W HP TP m hp tp (set_consumer pc s).
Proof. intros [] Hpc. by split. Qed.

(** *** The steps *)

(** [good]: the side that takes the step keeps to its span. *)
Definition step_ok W m s (good pol : Prop) (r : outcome ring (option event)) : Prop :=
  match r with
  | Ret e s' => exists W' HP' TP' m' hp' tp', inv W' HP' TP' m' hp' tp' s' /\
      moves_maybe nC (drop m W) e (drop m' W') /\ (courteous s -> pol -> courteous s')
  | Trap => ~ good
  | _ => False
  end.

Lemma step_quiet W HP TP m hp tp s s' good pol :
  inv W HP TP m hp tp s' -> (courteous s -> pol -> courteous s') -> step_ok W m s good pol (Ret None s').
Proof. intros Hi Hc. by exists W, HP, TP, m, hp, tp. Qed.

Section with_checks.
  Context (hd : hardening).

Lemma producer_sizes W HP TP m hp tp s tail pick asks pol :
  inv W HP TP m hp tp s -> producer s = PSize tail -> step_ok W m s (courteous_producer (producer s)) pol (producer_step hd C asks pick s).
Proof.
  intros Hi Ep. pose proof Hi as []. rewrite Ep in inv_producer0. cbn in inv_producer0. subst tail.
  unfold producer_step. mstep. rewrite Ep. unfold writable_size. rewrite bind_assoc.
  destruct (acquire_head_inv _ _ _ _ _ _ _ pick Hi) as (hp' & n & E & Hr & _ & Hi'). rewrite (bind_Ret _ _ _ _ _ E).
  pose proof (inv_order _ _ _ _ _ _ _ Hi') as Ho. rewrite free_total_exact by lia.
  exists W, HP, TP, m, hp', tp. split; [by apply producer_goes_inv; [|apply prefix_nil|]|]. split.
  - constructor. rewrite length_drop. lia.
  - intros [_ Hc] _. by split.
Qed.

Lemma producer_room W HP TP m hp tp s must source tail pick asks pol :
  inv W HP TP m hp tp s -> producer s = PRoom must source tail -> step_ok W m s (courteous_producer (producer s)) pol (producer_step hd C asks pick s).
Proof.
  intros Hi Ep. pose proof Hi as []. rewrite Ep in inv_producer0. cbn in inv_producer0. subst tail.
  unfold producer_step. mstep. rewrite Ep.
  destruct (acquire_head_inv _ _ _ _ _ _ _ pick Hi) as (hp' & n & E & Hr & _ & Hi'). rewrite (bind_Ret _ _ _ _ _ E).
  pose proof (inv_order _ _ _ _ _ _ _ Hi') as Ho. rewrite free_total_exact by lia.
  destruct (Z.ltb_spec (Z.of_nat (hp' + nC - length W)) (Z.of_nat (length source))) as [Hlt|Hge].
  - unfold producer_goes. mstep. assert (inv W HP TP m hp' tp (set_producer PIdle (set_tail (tail_ s) n s))) as Hi2
      by (by apply producer_goes_inv; [|apply prefix_nil|]).
    assert (forall good, step_ok W m s good pol (Ret (Some (Refused source)) (set_producer PIdle (set_tail (tail_ s) n s)))) as Hdone.
    { intros good. exists W, HP, TP, m, hp', tp. split; [done|]. split; [constructor|]. intros [_ Hc] _. by split. }
    destruct must; [|apply Hdone]. destruct hd; [apply Hdone|by cbn|by cbn].
  - apply (step_quiet _ HP TP _ hp' tp).
    + apply producer_goes_inv; [done|apply prefix_nil|]. cbn. split_and!; [done|lia|lia].
    + intros [_ Hc] _. by split.
Qed.

Lemma producer_copies W HP TP m hp tp s source tail i pick asks pol :
  inv W HP TP m hp tp s -> producer s = PCopy source tail i -> step_ok W m s (courteous_producer (producer s)) pol (producer_step hd C asks pick s).
Proof.
  intros Hi Ep. pose proof (inv_order _ _ _ _ _ _ _ Hi) as Ho. pose proof Hi as []. rewrite Ep in inv_producer0, inv_holds0. cbn in inv_producer0, inv_holds0.
  destruct inv_producer0 as (-> & Hroom & Hile). unfold producer_step. mstep. rewrite Ep. destruct (source !! i) as [b|] eqn:Eb.
  - apply lookup_lt_Some in Eb as Hlt. rewrite at_position_plus, offset_position.
    destruct (put_byte_ok W HP TP m hp tp s (PCopy source (at_position (length W)) (S i)) b Hi) as (sto & E & Hi');
      rewrite ?Ep in *; cbn [draft producer_ok] in *.
    + rewrite length_app, length_take. lia.
    + by apply take_S_r.
    + split_and!; [done|done|lia].
    + rewrite length_app, length_take, Nat.min_l in E by lia. rewrite (bind_Ret _ _ _ _ _ E).
      apply (step_quiet _ HP TP _ hp tp); [done|]. intros [_ Hc] _. by split.
  - apply lookup_ge_None in Eb. rewrite take_ge in inv_holds0 by done. unfold release_tail, producer_goes. mstep. mstep.
    exists (W ++ source), HP, (TP ++ [length (W ++ source)]), m, hp, tp.
    split; [apply release_tail_inv; [done|rewrite length_app; lia|done]|]. split.
    + rewrite drop_app_le by lia. constructor. rewrite length_drop. lia.
    + intros [_ Hc] _. by split.
Qed.

Lemma producer_hands_out W HP TP m hp tp s plan tail pick asks pol :
  inv W HP TP m hp tp s -> producer s = PSpan plan tail -> step_ok W m s (courteous_producer (producer s)) pol (producer_step hd C asks pick s).
Proof.
  intros Hi Ep. pose proof Hi as []. rewrite Ep in inv_producer0. cbn in inv_producer0. subst tail.
  unfold producer_step. mstep. rewrite Ep. unfold writable_span. rewrite bind_assoc.
  destruct (writable_run_inv _ _ _ _ _ _ _ pick Hi) as (hp' & n & E & Hr & _ & Hi'). rewrite (bind_Ret _ _ _ _ _ E). mstep.
  cbn [ssize]. rewrite Nat2Z.id. pose proof (inv_order _ _ _ _ _ _ _ Hi') as Ho. pose proof nC_pos. pose proof (slot_in_range (length W)).
  set (run := ((hp' + nC - length W) `min` (nC - length W mod nC))%nat).
  apply (step_quiet _ HP TP _ hp' tp).
  - apply producer_goes_inv; [done|apply prefix_nil|]. cbn. rewrite offset_position. split_and!; try done; lia.
  - intros [Hcp Hc] _. split; [|done]. rewrite Ep in Hcp. cbn in *. specialize (Hcp run). lia.
Qed.

Lemma producer_fills W HP TP m hp tp s region bytes count i pick asks pol :
  inv W HP TP m hp tp s -> hd <> HARDENING_NONE \/ courteous_producer (producer s) -> producer s = PFill region bytes count i ->
  step_ok W m s (courteous_producer (producer s)) pol (producer_step hd C asks pick s).
Proof.
  intros Hi Hsafe Ep. pose proof (inv_order _ _ _ _ _ _ _ Hi) as Ho. pose proof Hi as []. rewrite Ep in inv_producer0, inv_holds0. cbn in inv_producer0, inv_holds0.
  destruct inv_producer0 as (Ed & H0 & Hroom & Hend & Hile & His). pose proof nC_pos as (? & En & ?).
  unfold producer_step. mstep. rewrite Ep. destruct (bytes !! i) as [b|] eqn:Eb.
  - apply lookup_lt_Some in Eb as Hlt. destruct (Z.ltb_spec (Z.of_nat i) (ssize region)) as [Hin|Hout].
    + mstep. rewrite Ed, <- Nat2Z.inj_add, <- (mod_within (length W) i) by lia.
      destruct (put_byte_ok W HP TP m hp tp s (PFill region bytes count (S i)) b Hi) as (sto & E & Hi');
        rewrite ?Ep in *; cbn [draft producer_ok] in *.
      * rewrite length_app, length_take. lia.
      * by apply take_S_r.
      * split_and!; (done || lia).
      * rewrite length_app, length_take, Nat.min_l in E by lia. rewrite (bind_Ret _ _ _ _ _ E).
        apply (step_quiet _ HP TP _ hp tp); [done|]. intros [Hcp Hc] _. rewrite Ep in Hcp. by split.
    + destruct Hsafe as [Hh|Hc]; [|rewrite Ep in Hc; cbn in Hc; lia]. rewrite (bind_Trap _ _ _ (metl_assert_false hd s Hh)). cbn. lia.
  - apply lookup_ge_None in Eb. rewrite take_ge in inv_holds0 by done. unfold commit_check. rewrite bind_assoc.
    destruct (writable_run_inv _ _ _ _ _ _ _ pick Hi) as (hp' & n & E & Hr & _ & Hi'). rewrite (bind_Ret _ _ _ _ _ E).
    pose proof (inv_order _ _ _ _ _ _ _ Hi') as Ho'. pose proof (slot_in_range (length W)).
    destruct (Z.leb_spec (Z.of_nat count) (Z.of_nat ((hp' + nC - length W) `min` (nC - length W mod nC)))) as [Hin|Hout].
    + mstep. apply (step_quiet _ HP TP _ hp' tp).
      * apply producer_goes_inv; [done|cbn; rewrite Ep; cbn; by rewrite take_ge|]. cbn. lia.
      * intros [_ Hc] _. by split.
    + cbn. lia.
Qed.

Lemma producer_commits W HP TP m hp tp s bytes count pick asks pol :
  inv W HP TP m hp tp s -> producer s = PCommit bytes count -> step_ok W m s (courteous_producer (producer s)) pol (producer_step hd C asks pick s).
Proof.
  intros Hi Ep. pose proof (inv_order _ _ _ _ _ _ _ Hi) as Ho. pose proof Hi as []. rewrite Ep in inv_producer0, inv_holds0. cbn in inv_producer0, inv_holds0.
  destruct inv_producer0 as (Hb & Hc). unfold producer_step. mstep. rewrite Ep. unfold commit_store.
  rewrite bind_assoc, (bind_Ret _ _ _ _ _ (own_tail_exact _ _ _ _ _ _ _ Hi)). rewrite bind_assoc. mstep. unfold release_tail, producer_goes. rewrite bind_assoc. mstep. mstep. mstep.
  assert (holds m W (storage_ s)) as HW by (apply (holds_prefix _ _ _ _ inv_holds0); by eexists).
  destruct (content_spec W (storage_ s) m count (storage_length _ _ _ _ _ inv_storage0) ltac:(lia) HW) as [El Hh].
  set (pub := content C (storage_ s) (at_position (length W)) count) in *.
  exists (W ++ pub), HP, (TP ++ [length (W ++ pub)]), m, hp, tp. split; [|split].
  - replace (Z.of_nat count) with (Z.of_nat (length pub)) by (by rewrite El). apply release_tail_inv; [done|rewrite length_app; lia|done].
  - rewrite drop_app_le by lia. constructor; [rewrite length_drop; lia|]. by apply (holds_agree m W _ _ (storage_ s)); [| |lia].
  - intros [_ Hcc] _. by split.
Qed.

Lemma byte_producer_steps W HP TP m hp tp s asks pick :
  inv W HP TP m hp tp s -> hd <> HARDENING_NONE \/ courteous_producer (producer s) ->
  step_ok W m s (courteous_producer (producer s)) (polite (Producer asks pick)) (producer_step hd C asks pick s).
Proof.
  intros Hi Hsafe. destruct (producer s) as [| | | | | |] eqn:Ep; rewrite <- Ep in Hsafe |- *.
  - unfold producer_step. mstep. rewrite Ep, (bind_Ret _ _ _ _ _ (own_tail_exact _ _ _ _ _ _ _ Hi)).
    apply (step_quiet _ HP TP _ hp tp).
    + apply producer_goes_inv; [done| |]; destruct asks; (apply prefix_nil || done).
    + intros [_ Hc] Hpol. split; [|done]. by destruct asks.
  - by eapply producer_sizes.
  - by eapply producer_room.
  - by eapply producer_copies.
  - by eapply producer_hands_out.
  - by eapply producer_fills.
  - by eapply producer_commits.
Qed.

Lemma prefix_next W (m n : nat) (out : list byte) :
  out `prefix_of` drop m W -> (m + length out < n <= length W)%nat ->
  exists b, W !! (m + length out)%nat = Some b /\ out ++ [b] `prefix_of` drop m W.
Proof.
  intros [more E] Hn. assert (drop m W !! length out = W !! (m + length out)%nat) as El by apply lookup_drop.
  destruct more as [|b more].
  - apply (f_equal length) in E. rewrite length_drop, app_nil_r in E. lia.
  - exists b. rewrite <- El, E, lookup_app_r, Nat.sub_diag by done. split; [done|]. exists more. by rewrite <- app_assoc.
Qed.

Lemma consumer_sizes W HP TP m hp tp s pick asks pol :
  inv W HP TP m hp tp s -> consumer s = CSize -> step_ok W m s (courteous_consumer (consumer s)) pol (consumer_step hd C asks pick s).
Proof.
  intros Hi Ec. unfold consumer_step. mstep. rewrite Ec. unfold readable_size. rewrite bind_assoc.
  destruct (acquire_tail_inv _ _ _ _ _ _ _ pick Hi) as (tp' & n & E & Hr & _ & Hi'). rewrite (bind_Ret _ _ _ _ _ E).
  rewrite bind_assoc, (bind_Ret _ _ _ _ _ (own_head_exact _ _ _ _ _ _ _ Hi')).
  pose proof (inv_order _ _ _ _ _ _ _ Hi') as Ho. rewrite at_position_distance by lia.
  exists W, HP, TP, m, hp, tp'. split; [by apply consumer_goes_inv|]. split.
  - constructor. rewrite length_drop. lia.
  - intros [Hc _] _. by split.
Qed.

Lemma consumer_counts W HP TP m hp tp s size pick asks pol :
  inv W HP TP m hp tp s -> consumer s = CAvailable size -> step_ok W m s (courteous_consumer (consumer s)) pol (consumer_step hd C asks pick s).
Proof.
  intros Hi Ec. unfold consumer_step. mstep. rewrite Ec.
  destruct (acquire_tail_inv _ _ _ _ _ _ _ pick Hi) as (tp' & n & E & Hr & _ & Hi'). rewrite (bind_Ret _ _ _ _ _ E).
  rewrite (bind_Ret _ _ _ _ _ (own_head_exact _ _ _ _ _ _ _ Hi')).
  pose proof (inv_order _ _ _ _ _ _ _ Hi') as Ho. rewrite at_position_distance by lia.
  apply (step_quiet _ HP TP _ hp tp').
  - apply consumer_goes_inv; [done|]. cbn [consumer_ok length].
    destruct (Z.ltb_spec (Z.of_nat tp' - Z.of_nat m) (Z.of_nat size)); split_and!; try done; try lia; apply prefix_nil.
  - intros [Hc _] _. by split.
Qed.

Lemma consumer_copies W HP TP m hp tp s size head count out pick asks pol :
  inv W HP TP m hp tp s -> consumer s = CCopy size head count out -> step_ok W m s (courteous_consumer (consumer s)) pol (consumer_step hd C asks pick s).
Proof.
  intros Hi Ec. pose proof (inv_order _ _ _ _ _ _ _ Hi) as Ho. pose proof (inv_consumer _ _ _ _ _ _ _ Hi) as Hok. rewrite Ec in Hok.
  destruct Hok as (-> & Htp & Hout & Hpre). unfold consumer_step. mstep. rewrite Ec.
  destruct (Nat.ltb_spec (length out) count) as [Hlt|Hge].
  - rewrite at_position_plus, offset_position. destruct (prefix_next W m tp out Hpre ltac:(lia)) as (b & Hb & Hpre').
    destruct (look_byte_ok _ _ _ _ _ _ _ (m + length out) b Hi ltac:(lia) Hb) as (sto & E & Hi'). rewrite (bind_Ret _ _ _ _ _ E).
    apply (step_quiet _ HP TP _ hp tp).
    + apply consumer_goes_inv; [done|]. cbn [consumer_ok]. rewrite length_app. cbn [length]. split_and!; (done || lia).
    + intros [Hc _] _. by split.
  - unfold release_head, consumer_goes. mstep. mstep. exists W, (HP ++ [(m + count)%nat]), TP, (m + count)%nat, hp, tp.
    split; [by apply release_head_inv|]. split; [|intros [Hc _] _; by split].
    destruct Hpre as [more E]. cbn [moves_maybe]. rewrite <- drop_drop, E, drop_app_length' by lia. constructor. lia.
Qed.

Lemma consumer_is_handed W HP TP m hp tp s plan pick asks pol :
  inv W HP TP m hp tp s -> consumer s = CSpan plan -> step_ok W m s (courteous_consumer (consumer s)) pol (consumer_step hd C asks pick s).
Proof.
  intros Hi Ec. unfold consumer_step. mstep. rewrite Ec. unfold readable_span.
  rewrite bind_assoc, (bind_Ret _ _ _ _ _ (own_head_exact _ _ _ _ _ _ _ Hi)), bind_assoc.
  destruct (readable_run_inv _ _ _ _ _ _ _ pick Hi) as (tp' & n & E & Hr & _ & Hi'). rewrite (bind_Ret _ _ _ _ _ E). mstep.
  cbn [ssize]. rewrite Nat2Z.id. pose proof (inv_order _ _ _ _ _ _ _ Hi') as Ho. pose proof nC_pos. pose proof (slot_in_range m).
  set (run := ((tp' - m) `min` (nC - m mod nC))%nat).
  apply (step_quiet _ HP TP _ hp tp').
  - apply consumer_goes_inv; [done|]. cbn -[prefix]. rewrite offset_position. split_and!; try done; try lia. apply prefix_nil.
  - intros [Hc Hcc] _. split; [done|]. rewrite Ec in Hcc. cbn in *. specialize (Hcc run). lia.
Qed.

Lemma consumer_looks W HP TP m hp tp s region k count out pick asks pol :
  inv W HP TP m hp tp s -> hd <> HARDENING_NONE \/ courteous_consumer (consumer s) -> consumer s = CLook region k count out ->
  step_ok W m s (courteous_consumer (consumer s)) pol (consumer_step hd C asks pick s).
Proof.
  intros Hi Hsafe Ec. pose proof (inv_order _ _ _ _ _ _ _ Hi) as Ho. pose proof (inv_consumer _ _ _ _ _ _ _ Hi) as Hok. rewrite Ec in Hok.
  destruct Hok as (Ed & Htp & Hend & Hout & Hpre). pose proof nC_pos as (? & En & ?). unfold consumer_step. mstep. rewrite Ec.
  destruct (Nat.ltb_spec (length out) k) as [Hlt|Hge].
  - destruct (Z.ltb_spec (Z.of_nat (length out)) (ssize region)) as [Hin|Hrude].
    + mstep. rewrite Ed, <- Nat2Z.inj_add, <- (mod_within m (length out)) by lia.
      destruct (prefix_next W m tp out Hpre ltac:(lia)) as (b & Hb & Hpre').
      destruct (look_byte_ok _ _ _ _ _ _ _ (m + length out) b Hi ltac:(lia) Hb) as (sto & E & Hi'). rewrite (bind_Ret _ _ _ _ _ E).
      apply (step_quiet _ HP TP _ hp tp).
      * apply consumer_goes_inv; [done|]. cbn [consumer_ok]. rewrite length_app. cbn [length]. split_and!; (done || lia).
      * intros [Hc Hcc] _. rewrite Ec in Hcc. by split.
    + destruct Hsafe as [Hh|Hc]; [|rewrite Ec in Hc; cbn in Hc; lia]. rewrite (bind_Trap _ _ _ (metl_assert_false hd s Hh)). cbn. lia.
  - destruct (acquire_tail_inv _ _ _ _ _ _ _ pick Hi) as (tp' & n & E & Hr & _ & Hi'). rewrite (bind_Ret _ _ _ _ _ E).
    rewrite (bind_Ret _ _ _ _ _ (own_head_exact _ _ _ _ _ _ _ Hi')).
    pose proof (inv_order _ _ _ _ _ _ _ Hi') as Ho'. rewrite at_position_distance by lia.
    destruct (Z.leb_spec (Z.of_nat count) (Z.of_nat tp' - Z.of_nat m)) as [Hin|Hrude].
    + mstep. apply (step_quiet _ HP TP _ hp tp').
      * apply consumer_goes_inv; [done|]. cbn [consumer_ok]. split_and!; (done || lia).
      * intros [Hc _] _. by split.
    + cbn. lia.
Qed.

Lemma consumer_releases W HP TP m hp tp s head count out pick asks pol :
  inv W HP TP m hp tp s -> consumer s = CRelease head count out -> step_ok W m s (courteous_consumer (consumer s)) pol (consumer_step hd C asks pick s).
Proof.
  intros Hi Ec. pose proof (inv_order _ _ _ _ _ _ _ Hi) as Ho. pose proof (inv_consumer _ _ _ _ _ _ _ Hi) as Hok. rewrite Ec in Hok.
  destruct Hok as (-> & Htp & Hpre). unfold consumer_step. mstep. rewrite Ec. unfold release_head, consumer_goes. mstep. mstep.
  exists W, (HP ++ [(m + count)%nat]), TP, (m + count)%nat, hp, tp.
  split; [by apply release_head_inv|]. split; [|intros [Hc _] _; by split].
  cbn [moves_maybe]. rewrite <- drop_drop. constructor; [done|]. rewrite length_drop. lia.
Qed.

Lemma byte_consumer_steps W HP TP m hp tp s asks pick :
  inv W HP TP m hp tp s -> hd <> HARDENING_NONE \/ courteous_consumer (consumer s) ->
  step_ok W m s (courteous_consumer (consumer s)) (polite (Consumer asks pick)) (consumer_step hd C asks pick s).
Proof.
  intros Hi Hsafe. destruct (consumer s) as [| | | | | |] eqn:Ec; rewrite <- Ec in Hsafe |- *.
  - unfold consumer_step. mstep. rewrite Ec. apply (step_quiet _ HP TP _ hp tp).
    + apply consumer_goes_inv; [done|]. by destruct asks.
    + intros [Hc _] Hpol. split; [done|]. by destruct asks.
  - by eapply consumer_sizes.
  - by eapply consumer_counts.
  - by eapply consumer_copies.
  - by eapply consumer_is_handed.
  - by eapply consumer_looks.
  - by eapply consumer_releases.
Qed.

Lemma clear_steps W HP TP m hp tp s : inv W HP TP m hp tp s -> step_ok W m s True True (take_turn hd C Clear s).
Proof.
  intros Hi. cbn [take_turn]. mstep. unfold quiet.
  destruct (producer s) eqn:Ep; [destruct (consumer s) eqn:Ec|..]; try by apply (step_quiet _ HP TP _ hp tp).
  exists [], [0%nat], [0%nat], 0%nat, 0%nat, 0%nat. split; [|split; [constructor|]].
  - apply (start_inv _ ((fun c => mk_cell (value c) 0 0) <$> storage_ s)); try done.
    + rewrite length_fmap. apply (inv_storage _ _ _ _ _ _ _ Hi).
    + intros r c Hc. apply list_lookup_fmap_Some in Hc as (c0 & -> & _). done.
  - intros Hc _. by split; cbn; rewrite ?Ep, ?Ec.
Qed.

Lemma byte_turn_steps W HP TP m hp tp s t :
  inv W HP TP m hp tp s -> hd <> HARDENING_NONE \/ courteous s -> step_ok W m s (courteous s) (polite t) (take_turn hd C t s).
Proof.
  intros Hi Hsafe. assert (hd <> HARDENING_NONE \/ courteous_producer (producer s)) as Hp by (destruct Hsafe as [?|[? ?]]; auto).
  assert (hd <> HARDENING_NONE \/ courteous_consumer (consumer s)) as Hc by (destruct Hsafe as [?|[? ?]]; auto).
  destruct t as [asks pick|asks pick|]; cbn [take_turn].
  - pose proof (byte_producer_steps _ _ _ _ _ _ s asks pick Hi Hp) as Hs. destruct (producer_step _ _ _ _ _); try done. cbn in *. by intros [? _].
  - pose proof (byte_consumer_steps _ _ _ _ _ _ s asks pick Hi Hc) as Hs. destruct (consumer_step _ _ _ _ _); try done. cbn in *. by intros [_ ?].
  - pose proof (clear_steps _ _ _ _ _ _ s Hi) as Hs. cbn [take_turn] in Hs. destruct (bind _ _ _); try done.
Qed.

(** Any run: it can only end in a trap, and not even that when the callers are polite. *)
Lemma byte_interleave_steps ts W HP TP m hp tp s :
  inv W HP TP m hp tp s -> hd <> HARDENING_NONE \/ courteous s /\ Forall polite ts ->
  match interleave hd C ts s with
  | Ret es s' => exists W' HP' TP' m' hp' tp', inv W' HP' TP' m' hp' tp' s' /\ moves_all nC (drop m W) es (drop m' W')
  | Trap => ~ (courteous s /\ Forall polite ts)
  | _ => False
  end.
Proof.
  revert W HP TP m hp tp s. induction ts as [|t ts IH]; intros W HP TP m hp tp s Hi Hsafe; cbn [interleave].
  - exists W, HP, TP, m, hp, tp. split; [done|constructor].
  - assert (hd <> HARDENING_NONE \/ courteous s) as Hsafe1 by (destruct Hsafe as [?|[? ?]]; [by left|by right]).
    pose proof (byte_turn_steps _ _ _ _ _ _ s t Hi Hsafe1) as Ht. unfold bind. destruct (take_turn hd C t s) as [e s1| | | |]; cbn in Ht; try done.
    + destruct Ht as (W' & HP' & TP' & m' & hp' & tp' & Hi' & Hm & Hc).
      assert (courteous s /\ Forall polite (t :: ts) -> courteous s1 /\ Forall polite ts) as Hc'
        by (intros [Hcs [Hpt Hpts]%list.Forall_cons]; split; [by apply Hc|done]).
      assert (hd <> HARDENING_NONE \/ courteous s1 /\ Forall polite ts) as Hsafe2 by (destruct Hsafe; [by left|right; by apply Hc']).
      specialize (IH _ _ _ _ _ _ _ Hi' Hsafe2). destruct (interleave hd C ts s1) as [es s2| | | |]; try done.
      * destruct IH as (W2 & HP2 & TP2 & m2 & hp2 & tp2 & Hi2 & Hm2).
        exists W2, HP2, TP2, m2, hp2, tp2. split; [done|]. destruct e as [e|]; cbn in Hm; [by econstructor|by rewrite <- Hm].
      * intros Hp. by apply IH, Hc'.
    + intros [Hc _]. done.
Qed.
End with_checks.
End invariant.
