(* ===== verification/ByteRingClaims.v ===== *)
(** * What [spsc_byte_ring] promises

    Calls that run undisturbed, then the properties. *)

From Stdlib Require Import ZArith Lia.
From Stdlib Require Init.Byte.
From stdpp Require Import base numbers list option tactics.
From S2P Require Import Prelude Spsc Positions SpscClaims Span ByteRing ByteRingFacts.
Import ByteRing.
Local Open Scope Z_scope.

Section undisturbed.
  Context `{SizeT} (hd : hardening) (C : Z).
  Context (HC : 2 <= C < 2 ^ (size_bits - 1)) (Hpow : Z.land C (C - 1) = 0).
  Implicit Types (s : ring) (t : turn) (q bytes out : list byte).
  Abbreviation nC := (Z.to_nat C).

(** One side runs until its call returns. *)
Fixpoint call (fuel : nat) t : M ring event :=
  match fuel with
  | O => fun _ => Spin
  | S fuel' =>
      let! e := take_turn hd C t in
      match e with Some x => ret x | None => call fuel' t end
  end.

Lemma call_returns fuel t s e s' : take_turn hd C t s = Ret (Some e) s' -> call (S fuel) t s = Ret e s'.
Proof. intros E. cbn [call]. by rewrite (bind_Ret _ _ _ _ _ E). Qed.
Lemma call_goes_on fuel t s s' : take_turn hd C t s = Ret None s' -> call (S fuel) t s = call fuel t s'.
Proof. intros E. cbn [call]. by rewrite (bind_Ret _ _ _ _ _ E). Qed.

(** The bytes in between are [q]. *)
Definition queued q s : Prop := exists W HP TP m hp tp, inv C W HP TP m hp tp s /\ q = drop m W.

Lemma queued_length q s : queued q s -> (length q <= nC)%nat.
Proof. intros (W & HP & TP & m & hp & tp & Hi & ->). pose proof (inv_order _ _ _ _ _ _ _ _ Hi). rewrite length_drop. lia. Qed.

Lemma producer_turn q s asks pick :
  queued q s -> courteous_producer (producer s) ->
  exists e s', producer_step hd C asks pick s = Ret e s' /\ exists q', queued q' s' /\ moves_maybe nC q e q'.
Proof.
  intros (W & HP & TP & m & hp & tp & Hi & ->) Hc.
  pose proof (byte_producer_steps C HC Hpow hd W HP TP m hp tp s asks pick Hi (or_intror Hc)) as Hs.
  destruct (producer_step hd C asks pick s) as [e s'| | | |]; cbn in Hs; try done.
  destruct Hs as (W' & HP' & TP' & m' & hp' & tp' & Hi' & Hm & _). exists e, s'. split; [done|]. exists (drop m' W'). split; [|done].
  by exists W', HP', TP', m', hp', tp'.
Qed.

Lemma consumer_turn q s asks pick :
  queued q s -> courteous_consumer (consumer s) ->
  exists e s', consumer_step hd C asks pick s = Ret e s' /\ exists q', queued q' s' /\ moves_maybe nC q e q'.
Proof.
  intros (W & HP & TP & m & hp & tp & Hi & ->) Hc.
  pose proof (byte_consumer_steps C HC Hpow hd W HP TP m hp tp s asks pick Hi (or_intror Hc)) as Hs.
  destruct (consumer_step hd C asks pick s) as [e s'| | | |]; cbn in Hs; try done.
  destruct Hs as (W' & HP' & TP' & m' & hp' & tp' & Hi' & Hm & _). exists e, s'. split; [done|]. exists (drop m' W'). split; [|done].
  by exists W', HP', TP', m', hp', tp'.
Qed.

(** Where a loop goes next. *)
Lemma copy_next s source tail i asks pick e s' :
  producer s = PCopy source tail i -> producer_step hd C asks pick s = Ret e s' ->
  if (i <? length source)%nat then e = None /\ producer s' = PCopy source tail (S i) else e = Some (Wrote source).
Proof.
  intros Ep. unfold producer_step. mstep. rewrite Ep. destruct (source !! i) as [b|] eqn:Eb.
  - rewrite (proj2 (Nat.ltb_lt _ _)) by (by eapply lookup_lt_Some). unfold bind, put_byte, producer_goes, modify, ret. repeat case_match; intros; by simplify_eq.
  - rewrite (proj2 (Nat.ltb_ge _ _)) by (by apply lookup_ge_None). unfold bind, release_tail, producer_goes, modify, ret. intros. by simplify_eq.
Qed.

Lemma copy_finishes s q source tail i asks pick fuel :
  queued q s -> producer s = PCopy source tail i -> (length source < i + fuel)%nat ->
  exists s', call fuel (Producer asks pick) s = Ret (Wrote source) s'.
Proof.
  revert s q i. induction fuel as [|fuel IH]; intros s q i Hq Ep Hf.
  - destruct Hq as (W & HP & TP & m & hp & tp & Hi & _). pose proof (inv_producer _ _ _ _ _ _ _ _ Hi) as Hok. rewrite Ep in Hok. cbn in Hok. lia.
  - destruct (producer_turn q s asks pick Hq) as (e & s' & E & q' & Hq' & _); [by rewrite Ep|].
    pose proof (copy_next _ _ _ _ _ _ _ _ Ep E) as Hn. destruct (Nat.ltb_spec i (length source)).
    + destruct Hn as [-> Ep']. rewrite (call_goes_on _ (Producer asks pick) _ _ E). apply (IH s' q' (S i)); [done|done|lia].
    + subst e. exists s'. by apply call_returns.
Qed.

Lemma fill_next s region bytes count i asks pick e s' :
  producer s = PFill region bytes count i -> producer_step hd C asks pick s = Ret e s' ->
  e = None /\ producer s' = if (i <? length bytes)%nat then PFill region bytes count (S i) else PCommit bytes count.
Proof.
  intros Ep. unfold producer_step. mstep. rewrite Ep. destruct (bytes !! i) as [b|] eqn:Eb.
  - rewrite (proj2 (Nat.ltb_lt _ _)) by (by eapply lookup_lt_Some). unfold bind, metl_assert, put_byte, producer_goes, modify, ret, trap. repeat case_match; intros; by simplify_eq.
  - rewrite (proj2 (Nat.ltb_ge _ _)) by (by apply lookup_ge_None). unfold bind, producer_goes, modify, ret. repeat case_match; intros; by simplify_eq.
Qed.

Lemma commit_returns s q bytes count asks pick fuel :
  queued q s -> producer s = PCommit bytes count ->
  exists pub s', call (S fuel) (Producer asks pick) s = Ret (Committed bytes pub) s' /\ length pub = count /\
    take count bytes = take (length bytes) pub.
Proof.
  intros Hq Ep. destruct (producer_turn q s asks pick Hq) as (e & s' & E & q' & Hq' & Hm); [by rewrite Ep|].
  destruct Hq as (W & HP & TP & m & hp & tp & Hi & ->). pose proof (inv_order _ _ _ _ _ _ _ _ Hi) as Ho.
  destruct (content_spec C HC Hpow W (storage_ s) m count) as [El _].
  - apply (inv_storage _ _ _ _ _ _ _ _ Hi).
  - lia.
  - apply (holds_prefix C _ (W ++ draft (producer s))); [by apply (inv_holds _ _ _ _ _ _ _ _ Hi)|by eexists].
  - exists (content C (storage_ s) (at_position (length W)) count), s'.
    assert (e = Some (Committed bytes (content C (storage_ s) (at_position (length W)) count))) as ->.
    { revert E. unfold producer_step. mstep. rewrite Ep. unfold commit_store.
      rewrite bind_assoc, (bind_Ret _ _ _ _ _ (own_tail_exact _ _ _ _ _ _ _ _ Hi)). unfold bind, get, release_tail, producer_goes, modify, ret.
      intros. by simplify_eq. }
    split; [by apply call_returns|]. split; [done|]. inversion Hm; subst. by rewrite El in *.
Qed.

Lemma fill_finishes s q region bytes count i asks pick fuel :
  queued q s -> producer s = PFill region bytes count i -> courteous_producer (producer s) -> (length bytes + 1 < i + fuel)%nat ->
  exists pub s', call fuel (Producer asks pick) s = Ret (Committed bytes pub) s' /\ length pub = count /\
    take count bytes = take (length bytes) pub.
Proof.
  revert s q i. induction fuel as [|fuel IH]; intros s q i Hq Ep Hc Hf.
  - destruct Hq as (W & HP & TP & m & hp & tp & Hi & _). pose proof (inv_producer _ _ _ _ _ _ _ _ Hi) as Hok. rewrite Ep in Hok. cbn in Hok. lia.
  - destruct (producer_turn q s asks pick Hq Hc) as (e & s' & E & q' & Hq' & _).
    destruct (fill_next _ _ _ _ _ _ _ _ _ Ep E) as [-> Ep']. rewrite (call_goes_on _ (Producer asks pick) _ _ E).
    destruct (Nat.ltb_spec i (length bytes)).
    + apply (IH s' q' (S i)); [done|done| |lia]. rewrite Ep' . by rewrite Ep in Hc.
    + destruct fuel as [|fuel]; [|by apply (commit_returns _ q')].
      destruct Hq as (W & HP & TP & m & hp & tp & Hi & _). pose proof (inv_producer _ _ _ _ _ _ _ _ Hi) as Hok. rewrite Ep in Hok. cbn in Hok. lia.
Qed.

Lemma read_next s size head count out asks pick e s' :
  consumer s = CCopy size head count out -> consumer_step hd C asks pick s = Ret e s' ->
  if (length out <? count)%nat then e = None /\ exists b, consumer s' = CCopy size head count (out ++ [b]) else e = Some (Got size out).
Proof.
  intros Ec. unfold consumer_step. mstep. rewrite Ec. destruct (length out <? count)%nat.
  - unfold bind, look_byte, consumer_goes, modify, ret. repeat case_match; intros; simplify_eq. split; [done|]. by eexists.
  - unfold bind, release_head, consumer_goes, modify, ret. intros. by simplify_eq.
Qed.

Lemma read_finishes s q size head count out asks pick fuel :
  queued q s -> consumer s = CCopy size head count out -> (count < length out + fuel)%nat ->
  exists s', call fuel (Consumer asks pick) s = Ret (Got size (take count q)) s'.
Proof.
  revert s q out. induction fuel as [|fuel IH]; intros s q out Hq Ec Hf.
  - destruct Hq as (W & HP & TP & m & hp & tp & Hi & _). pose proof (inv_consumer _ _ _ _ _ _ _ _ Hi) as Hok. rewrite Ec in Hok. cbn in Hok. lia.
  - destruct (consumer_turn q s asks pick Hq) as (e & s' & E & q' & Hq' & Hm); [by rewrite Ec|].
    pose proof (read_next _ _ _ _ _ _ _ _ _ Ec E) as Hn. destruct (Nat.ltb_spec (length out) count).
    + destruct Hn as [-> [b Ec']]. cbn in Hm. subst q'. rewrite (call_goes_on _ (Consumer asks pick) _ _ E).
      apply (IH s' q (out ++ [b])); [done|done|]. rewrite length_app. cbn. lia.
    + subst e. exists s'. assert (length out = count) as El.
      { destruct Hq as (W & HP & TP & m & hp & tp & Hi & _). pose proof (inv_consumer _ _ _ _ _ _ _ _ Hi) as Hok. rewrite Ec in Hok. cbn in Hok. lia. }
      inversion Hm; subst. rewrite take_app_length. by apply call_returns.
Qed.

Lemma look_next s region k count out asks pick e s' :
  consumer s = CLook region k count out -> consumer_step hd C asks pick s = Ret e s' ->
  e = None /\ if (length out <? k)%nat then exists b, consumer s' = CLook region k count (out ++ [b])
              else exists head, consumer s' = CRelease head count out.
Proof.
  intros Ec. unfold consumer_step. mstep. rewrite Ec. destruct (length out <? k)%nat.
  - unfold bind, metl_assert, look_byte, consumer_goes, modify, ret, trap. repeat case_match; intros; simplify_eq; (split; [done|by eexists]).
  - unfold bind, metl_harden, consumer_goes, modify, ret, trap. repeat case_match; intros; simplify_eq. split; [done|]. by eexists.
Qed.

Lemma look_finishes s q region k count out asks pick fuel :
  queued q s -> consumer s = CLook region k count out -> courteous_consumer (consumer s) -> (length out <= k)%nat ->
  (k + 1 < length out + fuel)%nat ->
  exists s', call fuel (Consumer asks pick) s = Ret (Looked (take k q) count) s' /\ queued (drop count q) s'.
Proof.
  revert s q out. induction fuel as [|fuel IH]; intros s q out Hq Ec Hc Hk Hf; [lia|].
  destruct (consumer_turn q s asks pick Hq Hc) as (e & s' & E & q' & Hq' & Hm).
  destruct (look_next _ _ _ _ _ _ _ _ _ Ec E) as [-> Ec']. cbn in Hm. subst q'. rewrite (call_goes_on _ (Consumer asks pick) _ _ E).
  destruct (Nat.ltb_spec (length out) k).
  - destruct Ec' as [b Ec']. apply (IH s' q (out ++ [b])); [done|done|..]; rewrite ?length_app; cbn [length]; try lia.
    rewrite Ec'. by rewrite Ec in Hc.
  - destruct Ec' as [head Ec']. destruct fuel as [|fuel]; [lia|].
    destruct (consumer_turn q s' asks pick Hq') as (e & s2 & E2 & q2 & Hq2 & Hm2); [by rewrite Ec'|].
    assert (e = Some (Looked out count)) as ->.
    { revert E2. unfold consumer_step. mstep. rewrite Ec'. unfold bind, release_head, consumer_goes, modify, ret. intros. by simplify_eq. }
    inversion Hm2 as [| | | | | |? ? ? Hpre Hcnt|]; subst. exists s2. split; [|done]. assert (k = length out) as -> by lia.
    destruct Hpre as [more ->]. rewrite take_app_length. by apply call_returns.
Qed.

(** The first step of a call, then its first load. *)
Definition begins (asks : producer_asks) (tail : Z) : producer_at :=
  match asks with
  | WritableSize => PSize tail
  | TryWrite source => PRoom false source tail
  | Write source => PRoom true source tail
  | Fill plan => PSpan plan tail
  end.

Lemma producer_begins W HP TP m hp tp s asks pick fuel :
  inv C W HP TP m hp tp s -> producer s = PIdle ->
  let s1 := set_producer (begins asks (at_position (length W))) s in
  call (S fuel) (Producer asks pick) s = call fuel (Producer asks pick) s1 /\ inv C W HP TP m hp tp s1.
Proof.
  intros Hi Ep s1. split.
  - apply call_goes_on. cbn [take_turn]. unfold producer_step. mstep.
    by rewrite Ep, (bind_Ret _ _ _ _ _ (own_tail_exact _ _ _ _ _ _ _ _ Hi)).
  - apply producer_goes_inv; [done| |]; destruct asks; (apply prefix_nil || done).
Qed.

Lemma writable_size_exact q s fuel pick :
  queued q s -> producer s = PIdle -> fresh_pick (head_ s) pick ->
  exists s', call (2 + fuel) (Producer WritableSize pick) s = Ret (Writable (C - Z.of_nat (length q))) s'.
Proof.
  intros (W & HP & TP & m & hp & tp & Hi & ->) Ep Hf. pose proof (nC_pos C HC).
  destruct (producer_begins _ _ _ _ _ _ s WritableSize pick (1 + fuel) Hi Ep) as [E Hi1]. cbn [Nat.add] in E |- *. rewrite E. clear E.
  destruct (acquire_head_inv C HC _ _ _ _ _ _ _ pick Hi1) as (hp' & n & Ea & Hr & Hm & Hi2). specialize (Hm Hf). subst hp'.
  pose proof (inv_order _ _ _ _ _ _ _ _ Hi2). rewrite length_drop. eexists. apply call_returns. cbn [take_turn].
  unfold producer_step. mstep. cbn [begins producer set_producer]. unfold writable_size. rewrite bind_assoc, (bind_Ret _ _ _ _ _ Ea).
  rewrite (free_total_exact C HC) by lia. replace (Z.of_nat (m + nC - length W)) with (C - Z.of_nat (length W - m)) by lia. reflexivity.
Qed.

Lemma try_write_exact q s source pick :
  queued q s -> producer s = PIdle -> fresh_pick (head_ s) pick ->
  exists s', call (3 + length source) (Producer (TryWrite source) pick) s =
    Ret (if (length q + length source <=? nC)%nat then Wrote source else Refused source) s'.
Proof.
  intros (W & HP & TP & m & hp & tp & Hi & ->) Ep Hf. pose proof (nC_pos C HC).
  destruct (producer_begins _ _ _ _ _ _ s (TryWrite source) pick (2 + length source) Hi Ep) as [E Hi1]. cbn [Nat.add] in E |- *. rewrite E. clear E.
  destruct (acquire_head_inv C HC _ _ _ _ _ _ _ pick Hi1) as (hp' & n & Ea & Hr & Hm & Hi2). specialize (Hm Hf). subst hp'.
  pose proof (inv_order _ _ _ _ _ _ _ _ Hi2). rewrite length_drop. cbn [begins] in *.
  set (s1 := set_producer _ s) in *. set (s2 := set_tail (tail_ s1) n s1) in *.
  destruct (Nat.leb_spec (length W - m + length source) nC) as [Hfits|Hfull].
  - assert (take_turn hd C (Producer (TryWrite source) pick) s1 = Ret None (set_producer (PCopy source (at_position (length W)) 0) s2)) as E1.
    { cbn [take_turn]. unfold producer_step. mstep. cbn [producer set_producer s1]. rewrite (bind_Ret _ _ _ _ _ Ea).
      rewrite (free_total_exact C HC) by lia. zbool. done. }
    rewrite (call_goes_on _ _ _ _ E1). eapply (copy_finishes _ (drop m W)); [|reflexivity|lia].
    exists W, HP, TP, m, m, tp. split; [|done]. apply producer_goes_inv; [done|apply prefix_nil|]. cbn. split_and!; [done|lia|lia].
  - eexists. apply call_returns. cbn [take_turn]. unfold producer_step. mstep. cbn [producer set_producer s1].
    rewrite (bind_Ret _ _ _ _ _ Ea), (free_total_exact C HC) by lia. zbool. reflexivity.
Qed.

(** The contiguous run of the free bytes, from the producer's index. *)
Definition free_run q (tail : Z) : nat := ((nC - length q) `min` (nC - Z.to_nat (offset C tail)))%nat.
Definition full_run q (head : Z) : nat := (length q `min` (nC - Z.to_nat (offset C head)))%nat.

Lemma fill_exact q s plan pick tail :
  queued q s -> producer s = PIdle -> fresh_pick (head_ s) pick -> list.last (tail_ s) = Some tail ->
  let n := free_run q tail in let todo := plan n in
  (length todo.1 <= n)%nat -> (todo.2 <= n)%nat ->
  exists pub s', call (4 + length todo.1) (Producer (Fill plan) pick) s = Ret (Committed todo.1 pub) s' /\ length pub = todo.2 /\
    take todo.2 todo.1 = take (length todo.1) pub.
Proof.
  intros (W & HP & TP & m & hp & tp & Hi & ->) Ep Hf Htail n todo Hb Hc. pose proof (nC_pos C HC).
  destruct (producer_begins _ _ _ _ _ _ s (Fill plan) pick (3 + length todo.1) Hi Ep) as [E Hi1]. cbn [Nat.add] in E |- *. rewrite E. clear E.
  destruct (writable_run_inv C HC Hpow _ _ _ _ _ _ _ pick Hi1) as (hp' & sn & Ea & Hr & Hm & Hi2). specialize (Hm Hf). subst hp'.
  pose proof (inv_order _ _ _ _ _ _ _ _ Hi2). cbn [begins] in *. pose proof (slot_in_range C HC (length W)).
  set (s1 := set_producer _ s) in *. set (s2 := set_tail (tail_ s1) sn s1) in *.
  rewrite (inv_tail _ _ _ _ _ _ _ _ Hi), fmap_last, (inv_at_tail _ _ _ _ _ _ _ _ Hi) in Htail. cbn [fmap option_fmap option_map] in Htail. injection Htail as <-.
  assert (n = (m + nC - length W) `min` (nC - length W mod nC))%nat as En.
  { unfold n, free_run. rewrite (offset_position C HC Hpow), Nat2Z.id, length_drop. lia. }
  rewrite <- En in Ea.
  assert (take_turn hd C (Producer (Fill plan) pick) s1 =
    Ret None (set_producer (PFill (mk_span (offset C (at_position (length W))) (Z.of_nat n)) todo.1 todo.2 0) s2)) as E1.
  { cbn [take_turn]. unfold producer_step. mstep. cbn [producer set_producer s1]. unfold writable_span.
    rewrite bind_assoc, (bind_Ret _ _ _ _ _ Ea). mstep. cbn [ssize]. by rewrite Nat2Z.id. }
  rewrite (call_goes_on _ _ _ _ E1). eapply (fill_finishes _ (drop m W)); [|reflexivity|cbn; lia|lia].
  exists W, HP, TP, m, m, tp. split; [|done]. apply producer_goes_inv; [done|apply prefix_nil|].
  cbn. rewrite (offset_position C HC Hpow). split_and!; try done; lia.
Qed.

Lemma consumer_begins W HP TP m hp tp s asks pick fuel :
  inv C W HP TP m hp tp s -> consumer s = CIdle ->
  let s1 := set_consumer (match asks with ReadableSize => CSize | Read size => CAvailable size | Look plan => CSpan plan end) s in
  call (S fuel) (Consumer asks pick) s = call fuel (Consumer asks pick) s1 /\ inv C W HP TP m hp tp s1.
Proof.
  intros Hi Ep s1. split.
  - apply call_goes_on. cbn [take_turn]. unfold consumer_step. mstep. by rewrite Ep.
  - apply consumer_goes_inv; [done|]. by destruct asks.
Qed.

Lemma readable_size_exact q s fuel pick :
  queued q s -> consumer s = CIdle -> fresh_pick (tail_ s) pick ->
  exists s', call (2 + fuel) (Consumer ReadableSize pick) s = Ret (Readable (Z.of_nat (length q))) s'.
Proof.
  intros (W & HP & TP & m & hp & tp & Hi & ->) Ep Hf. pose proof (nC_pos C HC).
  destruct (consumer_begins _ _ _ _ _ _ s ReadableSize pick (1 + fuel) Hi Ep) as [E Hi1]. cbn [Nat.add] in E |- *. rewrite E. clear E.
  destruct (acquire_tail_inv C HC _ _ _ _ _ _ _ pick Hi1) as (tp' & n & Ea & Hr & Hm & Hi2). specialize (Hm Hf). subst tp'.
  pose proof (inv_order _ _ _ _ _ _ _ _ Hi2). rewrite length_drop. eexists. apply call_returns. cbn [take_turn].
  unfold consumer_step. mstep. cbn [consumer set_consumer]. unfold readable_size. rewrite bind_assoc, (bind_Ret _ _ _ _ _ Ea).
  rewrite bind_assoc, (bind_Ret _ _ _ _ _ (own_head_exact _ _ _ _ _ _ _ _ Hi2)), (at_position_distance C HC) by lia.
  rewrite <- Nat2Z.inj_sub by lia. reflexivity.
Qed.

Lemma read_exact q s size pick :
  queued q s -> consumer s = CIdle -> fresh_pick (tail_ s) pick ->
  exists s', call (3 + size) (Consumer (Read size) pick) s = Ret (Got size (take size q)) s'.
Proof.
  intros (W & HP & TP & m & hp & tp & Hi & ->) Ep Hf. pose proof (nC_pos C HC).
  destruct (consumer_begins _ _ _ _ _ _ s (Read size) pick (2 + size) Hi Ep) as [E Hi1]. cbn [Nat.add] in E |- *. rewrite E. clear E.
  destruct (acquire_tail_inv C HC _ _ _ _ _ _ _ pick Hi1) as (tp' & n & Ea & Hr & Hm & Hi2). specialize (Hm Hf). subst tp'.
  pose proof (inv_order _ _ _ _ _ _ _ _ Hi2). set (s1 := set_consumer _ s) in *. set (s2 := set_head (head_ s1) n s1) in *.
  set (count := (size `min` (length W - m))%nat).
  assert (take_turn hd C (Consumer (Read size) pick) s1 = Ret None (set_consumer (CCopy size (at_position m) count []) s2)) as E1.
  { cbn [take_turn]. unfold consumer_step. mstep. cbn [consumer set_consumer s1]. rewrite (bind_Ret _ _ _ _ _ Ea).
    rewrite (bind_Ret _ _ _ _ _ (own_head_exact _ _ _ _ _ _ _ _ Hi2)), (at_position_distance C HC) by lia.
    assert (Z.to_nat (if Z.of_nat (length W) - Z.of_nat m <? Z.of_nat size then Z.of_nat (length W) - Z.of_nat m else Z.of_nat size) = count) as ->
      by (unfold count; destruct (Z.ltb_spec (Z.of_nat (length W) - Z.of_nat m) (Z.of_nat size)); lia). done. }
  rewrite (call_goes_on _ _ _ _ E1). destruct (read_finishes (set_consumer (CCopy size (at_position m) count []) s2) (drop m W)
    size (at_position m) count [] (Read size) pick (S size)) as (s' & Es); [|done|unfold count; cbn; lia|].
  - exists W, HP, TP, m, hp, (length W). split; [|done]. apply consumer_goes_inv; [done|].
    cbn [consumer_ok length]. unfold count. split_and!; try done; try lia. apply prefix_nil.
  - exists s'. rewrite Es. do 2 f_equal. unfold count. rewrite <- length_drop, <- firstn_firstn, (take_ge (drop m W)) by done. done.
Qed.

Lemma look_exact q s plan pick head :
  queued q s -> consumer s = CIdle -> fresh_pick (tail_ s) pick -> list.last (head_ s) = Some head ->
  let n := full_run q head in let todo := plan n in
  (todo.1 <= n)%nat -> (todo.2 <= n)%nat ->
  exists s', call (4 + todo.1) (Consumer (Look plan) pick) s = Ret (Looked (take todo.1 q) todo.2) s' /\ queued (drop todo.2 q) s'.
Proof.
  intros (W & HP & TP & m & hp & tp & Hi & ->) Ep Hf Hhead n todo Hb Hc. pose proof (nC_pos C HC).
  destruct (consumer_begins _ _ _ _ _ _ s (Look plan) pick (3 + todo.1) Hi Ep) as [E Hi1]. cbn [Nat.add] in E |- *. rewrite E. clear E.
  destruct (readable_run_inv C HC Hpow _ _ _ _ _ _ _ pick Hi1) as (tp' & sn & Ea & Hr & Hm & Hi2). specialize (Hm Hf). subst tp'.
  pose proof (inv_order _ _ _ _ _ _ _ _ Hi2). pose proof (slot_in_range C HC m).
  set (s1 := set_consumer _ s) in *. set (s2 := set_head (head_ s1) sn s1) in *.
  rewrite (inv_head _ _ _ _ _ _ _ _ Hi), fmap_last, (inv_at_head _ _ _ _ _ _ _ _ Hi) in Hhead. cbn [fmap option_fmap option_map] in Hhead. injection Hhead as <-.
  assert (n = (length W - m) `min` (nC - m mod nC))%nat as En.
  { unfold n, full_run. by rewrite (offset_position C HC Hpow), Nat2Z.id, length_drop. }
  rewrite <- En in Ea.
  assert (take_turn hd C (Consumer (Look plan) pick) s1 =
    Ret None (set_consumer (CLook (mk_span (offset C (at_position m)) (Z.of_nat n)) todo.1 todo.2 []) s2)) as E1.
  { cbn [take_turn]. unfold consumer_step. mstep. cbn [consumer set_consumer s1]. unfold readable_span.
    rewrite bind_assoc, (bind_Ret _ _ _ _ _ (own_head_exact _ _ _ _ _ _ _ _ Hi1)), bind_assoc, (bind_Ret _ _ _ _ _ Ea). mstep.
    cbn [ssize]. by rewrite Nat2Z.id. }
  rewrite (call_goes_on _ _ _ _ E1). eapply look_finishes; [|reflexivity|cbn; lia|cbn; lia|cbn; lia].
  exists W, HP, TP, m, hp, (length W). split; [|done]. apply consumer_goes_inv; [done|].
  cbn -[prefix]. rewrite (offset_position C HC Hpow). split_and!; try done; try lia. apply prefix_nil.
Qed.
End undisturbed.

(** ** The properties *)

Section claims.
  Context `{SizeT} (hd : hardening) (C : Z).

(** What an observer that reads the latest indices is told. *)
Definition observed (s : ring) : option (Z * bool * bool) :=
  match list.last (head_ s), list.last (tail_ s) with
  | Some head, Some tail => Some (size_approx C head tail, empty C head tail, full C head tail)
  | _, _ => None
  end.

Lemma observed_exact q s :
  2 <= C < 2 ^ (size_bits - 1) -> queued C q s ->
  observed s = Some (Z.of_nat (length q), bool_decide (length q = 0%nat), bool_decide (Z.of_nat (length q) = C)).
Proof.
  intros HC (W & HP & TP & m & hp & tp & Hi & ->). pose proof (inv_order _ _ _ _ _ _ _ _ Hi). pose proof (nC_pos C HC) as (? & En & ?).
  unfold observed. rewrite (inv_head _ _ _ _ _ _ _ _ Hi), (inv_tail _ _ _ _ _ _ _ _ Hi), !fmap_last.
  rewrite (inv_at_head _ _ _ _ _ _ _ _ Hi), (inv_at_tail _ _ _ _ _ _ _ _ Hi). cbn [fmap option_fmap option_map].
  assert (size_approx C (at_position m) (at_position (length W)) = Z.of_nat (length (drop m W))) as E.
  { destruct (index_distance_exact C (Z.of_nat m) (Z.of_nat (length W))) as [_ Hd]; [lia|]. destruct Hd as [Hd _]; [lia|].
    unfold size_approx. unfold SpscQueue.size_approx in Hd. unfold at_position. rewrite Hd, length_drop. lia. }
  unfold empty, full. rewrite E. set (n := length (drop m W)).
  assert (forall x, (Z.of_nat n =? x) = bool_decide (Z.of_nat n = x)) as Hb
    by (intros x; destruct (Z.eqb_spec (Z.of_nat n) x); [by rewrite bool_decide_eq_true_2|by rewrite bool_decide_eq_false_2]).
  rewrite !Hb. do 3 f_equal. apply bool_decide_ext. lia.
Qed.

(** C23. Under every interleaving of the producer's and the consumer's steps, every
    admissible value of their loads and every way of using the spans, past the wrap of
    the indices and across [clear()]: no byte of the storage is raced on or accessed
    out of range; what is read, looked at or dropped is the oldest published bytes, in
    order; what a commit publishes begins with what the caller wrote in the span; at
    most [Capacity] bytes are in between; [writable_size] and [readable_size] never
    over-report; and at rest the observers are exact.  The only other outcome is a trap,
    and callers that keep to their spans never meet it.  With the checks compiled out
    the same holds of such callers. *)
Theorem byte_ring_stream (ts : list turn) :
  2 <= C < 2 ^ (size_bits - 1) -> Z.land C (C - 1) = 0 -> hd <> HARDENING_NONE \/ Forall polite ts ->
  match interleave hd C ts (fresh C) with
  | Ret es s => exists q, moves_all (Z.to_nat C) [] es q /\ Z.of_nat (length q) <= C /\
      observed s = Some (Z.of_nat (length q), bool_decide (length q = 0%nat), bool_decide (Z.of_nat (length q) = C))
  | Trap => ~ Forall polite ts
  | _ => False
  end.
Proof.
  intros HC Hpow Hsafe.
  assert (hd <> HARDENING_NONE \/ courteous (fresh C) /\ Forall polite ts) as Hsafe' by (destruct Hsafe; [by left|by right]).
  pose proof (byte_interleave_steps C HC Hpow hd ts [] _ _ _ _ _ _ (byte_fresh_inv C HC) Hsafe') as Hs.
  destruct (interleave hd C ts (fresh C)) as [es s| | | |]; try done; [|intros Hp; by apply Hs].
  destruct Hs as (W & HP & TP & m & hp & tp & Hi & Hm). exists (drop m W).
  assert (queued C (drop m W) s) as Hq by (by exists W, HP, TP, m, hp, tp).
  pose proof (queued_length C HC _ _ Hq). split; [done|]. split; [lia|]. by apply observed_exact.
Qed.

(** A call that is not disturbed and whose load is up to date ends within as many
    steps as it moves bytes and a few more, and is exact, whatever has run before:
    [try_write] succeeds when the bytes fit and only then; [read] gives the oldest
    bytes, as many as there are and the destination takes; the spans are the bytes up
    to the seam, so that one is empty only when the ring is full, or empty; a commit
    within the span is accepted and publishes what was written; and [consume] drops
    exactly what it is told. *)
Theorem byte_ring_calls_exact (ts : list turn) es s :
  2 <= C < 2 ^ (size_bits - 1) -> Z.land C (C - 1) = 0 -> hd <> HARDENING_NONE \/ Forall polite ts ->
  interleave hd C ts (fresh C) = Ret es s ->
  exists q head tail, moves_all (Z.to_nat C) [] es q /\ list.last (head_ s) = Some head /\ list.last (tail_ s) = Some tail /\
    (free_run C q tail = 0%nat <-> Z.of_nat (length q) = C) /\ (full_run C q head = 0%nat <-> q = []) /\
    (producer s = PIdle -> let now := length (head_ s) in
      (exists s', call hd C 2 (Producer WritableSize now) s = Ret (Writable (C - Z.of_nat (length q))) s') /\
      (forall source, exists s', call hd C (3 + length source) (Producer (TryWrite source) now) s =
         Ret (if (length q + length source <=? Z.to_nat C)%nat then Wrote source else Refused source) s') /\
      (forall bytes, (length bytes <= free_run C q tail)%nat -> exists s',
         call hd C (4 + length bytes) (Producer (Fill (fun _ => (bytes, length bytes))) now) s = Ret (Committed bytes bytes) s')) /\
    (consumer s = CIdle -> let now := length (tail_ s) in
      (exists s', call hd C 2 (Consumer ReadableSize now) s = Ret (Readable (Z.of_nat (length q))) s') /\
      (forall size, exists s', call hd C (3 + size) (Consumer (Read size) now) s = Ret (Got size (take size q)) s') /\
      (forall k count, (k `max` count <= full_run C q head)%nat -> exists s',
         call hd C (4 + k) (Consumer (Look (fun _ => (k, count))) now) s = Ret (Looked (take k q) count) s' /\
         observed s' = Some (Z.of_nat (length q - count), bool_decide (length q - count = 0%nat)%nat, bool_decide (Z.of_nat (length q - count) = C)))).
Proof.
  intros HC Hpow Hsafe E.
  assert (hd <> HARDENING_NONE \/ courteous (fresh C) /\ Forall polite ts) as Hsafe' by (destruct Hsafe; [by left|by right]).
  pose proof (byte_interleave_steps C HC Hpow hd ts [] _ _ _ _ _ _ (byte_fresh_inv C HC) Hsafe') as Hs. rewrite E in Hs.
  destruct Hs as (W & HP & TP & m & hp & tp & Hi & Hm). pose proof (nC_pos C HC) as (? & En & ?). pose proof (inv_order _ _ _ _ _ _ _ _ Hi).
  assert (queued C (drop m W) s) as Hq by (by exists W, HP, TP, m, hp, tp). pose proof (queued_length C HC _ _ Hq).
  assert (list.last (head_ s) = Some (at_position m)) as Eh by (by rewrite (inv_head _ _ _ _ _ _ _ _ Hi), fmap_last, (inv_at_head _ _ _ _ _ _ _ _ Hi)).
  assert (list.last (tail_ s) = Some (at_position (length W))) as Et
    by (by rewrite (inv_tail _ _ _ _ _ _ _ _ Hi), fmap_last, (inv_at_tail _ _ _ _ _ _ _ _ Hi)).
  exists (drop m W), (at_position m), (at_position (length W)). split_and!; try done.
  - unfold free_run. rewrite (offset_position C HC Hpow), Nat2Z.id. pose proof (slot_in_range C HC (length W)). lia.
  - unfold full_run. rewrite (offset_position C HC Hpow), Nat2Z.id. pose proof (slot_in_range C HC m).
    rewrite <- (length_zero_iff_nil (drop m W)). lia.
  - intros Ep now. assert (fresh_pick (head_ s) now) as Hf by (unfold fresh_pick, now; lia). split_and!.
    + by apply (writable_size_exact hd C HC _ s 0).
    + intros source. by apply try_write_exact.
    + intros bytes Hb. destruct (fill_exact hd C HC Hpow (drop m W) s (fun _ => (bytes, length bytes)) now _ Hq Ep Hf Et Hb Hb) as (pub & s' & Ec & El & Eb).
      cbn [fst snd] in *. exists s'. rewrite Ec. rewrite <- El in Eb at 2. by rewrite !firstn_all in Eb; subst pub.
  - intros Ec now. assert (fresh_pick (tail_ s) now) as Hf by (unfold fresh_pick, now; lia). split_and!.
    + by apply (readable_size_exact hd C HC _ s 0).
    + intros size. by apply read_exact.
    + intros k count Hk. destruct (look_exact hd C HC Hpow (drop m W) s (fun _ => (k, count)) now _ Hq Ec Hf Eh) as (s' & Es & Hq'); [cbn; lia..|].
      exists s'. split; [done|]. rewrite (observed_exact _ _ HC Hq'), length_drop. done.
Qed.
End claims.

Section witnesses.
  #[local] Existing Instance size_t_32.
  Import Byte.

(** Three bytes into a ring of four, two out, then the span up to the seam and the one
    after it, filled in place; what is left is looked at and dropped. *)
Definition some_turns : list turn :=
  let whole n := (replicate n x07, n) in
  replicate 6 (Producer (TryWrite [x01; x02; x03]) 0) ++ replicate 5 (Consumer (Read 2) 9) ++
  replicate 5 (Producer (Fill whole) 9) ++ replicate 6 (Producer (Fill whole) 9) ++
  replicate 6 (Consumer (Look (fun n => (n, n))) 9) ++ [Consumer ReadableSize 9; Consumer ReadableSize 9].

Lemma some_turns_polite : Forall polite some_turns.
Proof.
  unfold some_turns. rewrite !list.Forall_app. split_and!; try (apply Forall_replicate; cbn; intros; rewrite ?length_replicate; lia).
  by repeat constructor.
Qed.

Lemma byte_ring_stream_witness :
  exists es s, interleave HARDENING_NONE 4 some_turns (fresh 4) = Ret es s /\ (exists q, moves_all 4 [] es q /\ length q = 2%nat) /\
    es = [Wrote [x01; x02; x03]; Got 2 [x01; x02]; Committed [x07] [x07]; Committed [x07; x07] [x07; x07];
          Looked [x03; x07] 2; Readable 2].
Proof.
  pose proof (byte_ring_stream HARDENING_NONE 4 some_turns ltac:(by vm_compute) eq_refl (or_intror some_turns_polite)) as Hs.
  destruct (interleave HARDENING_NONE 4 some_turns (fresh 4)) as [es s| | | |] eqn:E; [|vm_compute in E; done..].
  destruct Hs as (q & Hm & _ & Ho). exists es, s. split; [done|]. vm_compute in E. injection E as <- <-. split; [|done].
  exists q. split; [done|]. apply (f_equal (fun o => match o with Some x => x.1.1 | None => 0 end)) in Ho.
  assert (2 = Z.of_nat (length q)) by exact Ho. lia.
Defined.

Lemma byte_ring_calls_exact_witness :
  exists es s s', interleave HARDENING_FAST 4 some_turns (fresh 4) = Ret es s /\
    call HARDENING_FAST 4 5 (Consumer (Read 2) (length (tail_ s))) s = Ret (Got 2 [x07; x07]) s'.
Proof.
  assert (HARDENING_FAST <> HARDENING_NONE \/ Forall polite some_turns) as Hh by (by left).
  assert (2 <= 4 < 2 ^ (size_bits - 1)) as HC by (by vm_compute).
  destruct (interleave HARDENING_FAST 4 some_turns (fresh 4)) as [es s| | | |] eqn:E; [|vm_compute in E; done..].
  pose proof (byte_ring_calls_exact HARDENING_FAST 4 some_turns es s HC eq_refl Hh E) as Hx.
  destruct Hx as (q & head & tail & _ & _ & _ & _ & _ & _ & Hc).
  vm_compute in E. injection E as <- <-. destruct (Hc eq_refl) as (_ & Hr & _). destruct (Hr 2%nat) as (s' & Es).
  vm_compute in Es. injection Es as _ <-. eexists _, _, _. split; [reflexivity|vm_compute; reflexivity].
Defined.

(** The check of [commit_write] is against the run as it is now: a span of one byte was
    handed out, seven were consumed meanwhile, and a commit of eight passes.  It
    publishes the byte written and seven stale ones, and overwrites nothing unread. *)
Lemma commit_past_the_span :
  let fill := Producer (Fill (fun _ => ([x09], 8%nat))) 9 in
  exists s, interleave HARDENING_FAST 8
    (replicate 10 (Producer (TryWrite [x01; x02; x03; x04; x05; x06; x07]) 0) ++ replicate 4 (Consumer (Read 1) 9) ++
     replicate 4 (Producer (TryWrite [x08]) 9) ++
     replicate 3 fill ++ replicate 10 (Consumer (Read 8) 9) ++ replicate 2 fill) (fresh 8) =
    Ret [Wrote [x01; x02; x03; x04; x05; x06; x07]; Got 1 [x01]; Wrote [x08]; Got 8 [x02; x03; x04; x05; x06; x07; x08];
         Committed [x09] [x09; x02; x03; x04; x05; x06; x07; x08]] s.
Proof. eexists. vm_compute. reflexivity. Qed.
End witnesses.
