(* ===== verification/Hash.v ===== *)
(** * [hash]

    [include/metl/hash.hpp]: the finalizer that the hash tables apply to a hash
    before they mask it, FNV-1a, and the combiners.  The header selects its
    constants by [sizeof(std::size_t)] and has them for eight and for four bytes.
    What [std::hash] yields is an argument.  A buffer is the list of its bytes. *)

From Stdlib Require Import ZArith Lia.
From stdpp Require Import base numbers list option tactics.
From S2P Require Import Prelude.
Local Open Scope Z_scope.

Record mix_constants : Set := { m1 : Z; m2 : Z; s1 : Z; s2 : Z; s3 : Z }.

Module Hash.
Section hash.
  Context `{SizeT}.

Definition wide_size_t : bool := size_bits =? 64.

Definition active_hash_mix : mix_constants :=
  if wide_size_t
  then {| m1 := 0xbf58476d1ce4e5b9; m2 := 0x94d049bb133111eb; s1 := 30; s2 := 27; s3 := 31 |}
  else {| m1 := 0x85ebca6b; m2 := 0xc2b2ae35; s1 := 16; s2 := 13; s3 := 16 |}.

Definition fnv_offset : Z := if wide_size_t then 0xcbf29ce484222325 else 0x811c9dc5.
Definition fnv_prime : Z := if wide_size_t then 0x100000001b3 else 0x01000193.

Definition hash_mix (x : Z) : Z :=
  let x := Z.lxor x (Z.shiftr x (s1 active_hash_mix)) in
  let x := wrap (x * m1 active_hash_mix) in
  let x := Z.lxor x (Z.shiftr x (s2 active_hash_mix)) in
  let x := wrap (x * m2 active_hash_mix) in
  Z.lxor x (Z.shiftr x (s3 active_hash_mix)).

(** [hash_key] for [std::hash] and an integer of [key_bits] bits, wider than
    [std::size_t]: the loop over its words. *)
Fixpoint fold_words (n : nat) (value folded : Z) : Z :=
  match n with
  | O => folded
  | S n' => fold_words n' (Z.shiftr value size_bits) (hash_mix (Z.lxor folded (wrap value)))
  end.
Definition hash_wide_key (key_bits key : Z) : Z :=
  fold_words (Z.to_nat (key_bits / size_bits)) (key mod 2 ^ key_bits) 0.

(** *** FNV-1a *)

Definition fnv_step (hash byte : Z) : Z := wrap (Z.lxor hash (wrap byte) * fnv_prime).
Definition fnv1a (data : list Z) : Z := foldl fnv_step fnv_offset data.

(** [fnv1a_hash] of [char[N]]: the characters before the first NUL. *)
Fixpoint array_length (value : list Z) : nat :=
  match value with
  | [] => O
  | ch :: value' => if ch =? 0 then O else S (array_length value')
  end.
Definition fnv1a_hash_array (value : list Z) : Z := fnv1a (take (array_length value) value).

(** [fnv1a_hash] of [const char*]: the scan runs past the end of a buffer that
    has no NUL. *)
Fixpoint scan (value : list Z) : option nat :=
  match value with
  | [] => None
  | ch :: value' => if ch =? 0 then Some O else S <$> scan value'
  end.
Definition fnv1a_hash_cstring (value : list Z) : option Z := (fun len => fnv1a (take len value)) <$> scan value.

(** [fnv1a_hash] of a range of characters. *)
Definition fnv1a_hash_range (data : list Z) : Z := fnv1a data.

Definition widen_integral (value : Z) : Z := value mod 2 ^ 64.

(** [fnv1a_hash] of an integer or an enumerator: eight bytes of the widened value. *)
Fixpoint hash_bytes (n : nat) (wide shift hash : Z) : Z :=
  match n with
  | O => hash
  | S n' => hash_bytes n' wide (shift + 8) (fnv_step hash (Z.land (Z.shiftr wide shift) 0xFF))
  end.
Definition fnv1a_hash_integral (value : Z) : Z := hash_bytes 8 (widen_integral value) 0 fnv_offset.

Definition identity_hash (value : Z) : Z := wrap value.

(** *** Combining *)

Definition hash_combine (seed value : Z) : Z :=
  if wide_size_t
  then Z.lxor seed (wrap (value + 0x9e3779b97f4a7c15 + Z.shiftl seed 12 + Z.shiftr seed 4))
  else Z.lxor seed (wrap (value + 0x9e3779b9 + Z.shiftl seed 6 + Z.shiftr seed 2)).

(** [hashes] are those of the values, by [std::hash]. *)
Definition hash_combine_all (hashes : list Z) : Z := foldl hash_combine 0 hashes.
End hash.
End Hash.

(** ** The finalizer is a bijection *)

Section finalizer.
  Implicit Types (x y s i : Z).

Lemma lxor_shiftr_bits x s i :
  0 < s -> 0 <= i -> Z.testbit (Z.lxor x (Z.shiftr x s)) i = xorb (Z.testbit x i) (Z.testbit x (i + s)).
Proof. intros. rewrite Z.lxor_spec, Z.shiftr_spec by lia. done. Qed.

(** Bits are settled from the top down: above both logarithms they are clear. *)
Lemma lxor_shiftr_inj x y s :
  0 < s -> 0 <= x -> 0 <= y -> Z.lxor x (Z.shiftr x s) = Z.lxor y (Z.shiftr y s) -> x = y.
Proof.
  intros Hs Hx Hy E. apply Z.bits_inj'. intros i Hi.
  set (top := Z.max (Z.log2 x) (Z.log2 y) + 1).
  assert (forall n : nat, forall j, 0 <= j -> top - Z.of_nat n <= j -> Z.testbit x j = Z.testbit y j) as Hb.
  2: { apply (Hb (Z.to_nat top)); lia. }
  intros n. induction n as [|n IH]; intros j Hj Hn.
  - rewrite !Z.bits_above_log2 by lia. done.
  - destruct (decide (top - Z.of_nat n <= j)); [by apply IH|].
    assert (Z.testbit (Z.lxor x (Z.shiftr x s)) j = Z.testbit (Z.lxor y (Z.shiftr y s)) j) as Ej by (by rewrite E).
    rewrite !lxor_shiftr_bits in Ej by lia. rewrite (IH (j + s)) in Ej by lia.
    by destruct (Z.testbit x j), (Z.testbit y j), (Z.testbit y (j + s)).
Qed.

Lemma lxor_nonneg_below x y w : 0 <= w -> 0 <= x < 2 ^ w -> 0 <= y < 2 ^ w -> 0 <= Z.lxor x y < 2 ^ w.
Proof.
  intros Hw [Hx Hx'] [Hy Hy']. assert (0 <= Z.lxor x y) as Hn by (apply Z.lxor_nonneg; lia). split; [done|].
  destruct (decide (Z.lxor x y = 0)) as [->|]; [apply Z.pow_pos_nonneg; lia|].
  apply Z.log2_lt_pow2; [lia|]. eapply Z.le_lt_trans; [by apply Z.log2_lxor|].
  assert (forall z, 0 <= z < 2 ^ w -> Z.log2 z < w \/ z = 0) as Hl.
  { intros z Hz. destruct (decide (z = 0)); [by right|]. left. apply Z.log2_lt_pow2; lia. }
  destruct (decide (w = 0)) as [->|].
  { cbn in Hx', Hy'. assert (x = 0) as -> by lia. assert (y = 0) as -> by lia. done. }
  destruct (Hl x ltac:(lia)) as [| ->], (Hl y ltac:(lia)) as [| ->]; cbn [Z.log2]; lia.
Qed.

Lemma shiftr_below x s w : 0 <= s -> 0 <= x < 2 ^ w -> 0 <= Z.shiftr x s < 2 ^ w.
Proof.
  intros Hs Hx. rewrite Z.shiftr_div_pow2 by done. pose proof (Z.pow_pos_nonneg 2 s ltac:(lia) Hs).
  split; [apply Z.div_pos; lia|]. apply Z.div_lt_upper_bound; [done|]. nia.
Qed.

Lemma mult_inj m minv w x y :
  0 < 2 ^ w -> (m * minv) mod 2 ^ w = 1 mod 2 ^ w -> 0 <= x < 2 ^ w -> 0 <= y < 2 ^ w ->
  (x * m) mod 2 ^ w = (y * m) mod 2 ^ w -> x = y.
Proof.
  intros Hw Hinv Hx Hy E.
  assert (forall z, 0 <= z < 2 ^ w -> (((z * m) mod 2 ^ w) * minv) mod 2 ^ w = z) as Hz.
  { intros z Hz. rewrite Z.mul_mod_idemp_l, <- Z.mul_assoc by lia.
    rewrite <- Z.mul_mod_idemp_r, Hinv, Z.mul_mod_idemp_r, Z.mul_1_r by lia. by apply Z.mod_small. }
  by rewrite <- (Hz x Hx), E, (Hz y Hy).
Qed.
End finalizer.

(** A map of an interval into itself that is one to one is onto. *)
Lemma interval_onto (f : Z -> Z) N :
  0 <= N -> (forall x, 0 <= x < N -> 0 <= f x < N) ->
  (forall x y, 0 <= x < N -> 0 <= y < N -> f x = f y -> x = y) ->
  forall y, 0 <= y < N -> exists x, 0 <= x < N /\ f x = y.
Proof.
  intros HN Hr Hi y Hy. assert (f <$> seqZ 0 N ≡ₚ seqZ 0 N) as Hp.
  { apply submseteq_length_Permutation; [|by rewrite length_fmap].
    apply NoDup_submseteq.
    - rewrite NoDup_alt. intros a b z Ha Hb. rewrite !list_lookup_fmap in Ha, Hb.
      destruct (seqZ 0 N !! a) as [x|] eqn:Ea; [|done]. destruct (seqZ 0 N !! b) as [x'|] eqn:Eb; [|done].
      apply lookup_seqZ in Ea as [-> ?], Eb as [-> ?]. cbn in Ha, Hb.
      assert (0 + Z.of_nat a = 0 + Z.of_nat b) by (apply Hi; [lia|lia|congruence]). lia.
    - intros z Hz. apply list_elem_of_fmap in Hz as (x & -> & Hx). apply elem_of_seqZ in Hx. apply elem_of_seqZ.
      specialize (Hr x). lia. }
  assert (y ∈ f <$> seqZ 0 N) as (x & -> & Hx)%list_elem_of_fmap by (rewrite Hp; apply elem_of_seqZ; lia).
  exists x. apply elem_of_seqZ in Hx. split; [lia|done].
Qed.

Section hash_facts.
  Context `{SizeT} (Hwidth : size_bits = 32 \/ size_bits = 64).
  Implicit Types (x y k : Z).

Abbreviation word x := (0 <= x < 2 ^ size_bits).

Lemma xorshift_ok x s : 0 < s -> word x -> word (Z.lxor x (Z.shiftr x s)).
Proof. intros. apply lxor_nonneg_below; [lia|done|]. apply shiftr_below; [lia|done]. Qed.

Lemma mix_shifts : 0 < s1 Hash.active_hash_mix /\ 0 < s2 Hash.active_hash_mix /\ 0 < s3 Hash.active_hash_mix.
Proof. unfold Hash.active_hash_mix. destruct Hash.wide_size_t; cbn; lia. Qed.

Lemma hash_mix_range x : word x -> word (Hash.hash_mix x).
Proof.
  intros Hx. destruct mix_shifts as (H1 & H2 & H3). unfold Hash.hash_mix.
  apply xorshift_ok; [done|]. apply wrap_range.
Qed.

(** The multipliers are odd, so that they have inverses. *)
Lemma mix_multipliers_inj x y :
  word x -> word y ->
  (wrap (x * m1 Hash.active_hash_mix) = wrap (y * m1 Hash.active_hash_mix) -> x = y) /\
  (wrap (x * m2 Hash.active_hash_mix) = wrap (y * m2 Hash.active_hash_mix) -> x = y).
Proof.
  unfold wrap, Hash.active_hash_mix, Hash.wide_size_t. destruct Hwidth as [->| ->]; intros Hx Hy; split; intros E.
  - by apply (mult_inj 0x85ebca6b 2781581891 32).
  - by apply (mult_inj 0xc2b2ae35 2127672349 32).
  - by apply (mult_inj 0xbf58476d1ce4e5b9 10871156337175269513 64).
  - by apply (mult_inj 0x94d049bb133111eb 3573116690164977347 64).
Qed.

Lemma hash_mix_inj x y : word x -> word y -> Hash.hash_mix x = Hash.hash_mix y -> x = y.
Proof.
  intros Hx Hy. destruct mix_shifts as (H1 & H2 & H3). unfold Hash.hash_mix. intros E.
  apply lxor_shiftr_inj in E; [|done|apply wrap_range..].
  apply mix_multipliers_inj in E; [|apply xorshift_ok; [done|apply wrap_range]..].
  apply lxor_shiftr_inj in E; [|done|apply wrap_range..].
  apply mix_multipliers_inj in E; [|by apply xorshift_ok..].
  by apply lxor_shiftr_inj in E; [|lia..].
Qed.

Lemma high_word z : 0 <= z < 2 ^ 64 -> 0 <= Z.shiftr z 32 < 2 ^ 32.
Proof.
  intros Hz. rewrite Z.shiftr_div_pow2 by lia. split; [apply Z.div_pos; lia|]. apply Z.div_lt_upper_bound; lia.
Qed.

Lemma hash_wide_key_eq k :
  size_bits = 32 -> 0 <= k < 2 ^ 64 ->
  Hash.hash_wide_key 64 k = Hash.hash_mix (Z.lxor (Hash.hash_mix (k mod 2 ^ 32)) (Z.shiftr k 32)).
Proof.
  intros E32 Hk. unfold Hash.hash_wide_key. rewrite E32. change (Z.to_nat (64 / 32)) with 2%nat.
  rewrite (Z.mod_small k) by done. cbn [Hash.fold_words]. unfold wrap. rewrite E32, Z.lxor_0_l.
  by rewrite (Z.mod_small (Z.shiftr k 32)) by (by apply high_word).
Qed.

Lemma hash_wide_key_high :
  size_bits = 32 -> forall a b, 0 <= a < 2 ^ 64 -> 0 <= b < 2 ^ 64 -> a mod 2 ^ 32 = b mod 2 ^ 32 ->
  Hash.hash_wide_key 64 a = Hash.hash_wide_key 64 b -> a = b.
Proof.
  intros E32 a b Ha Hb Elow E. rewrite !hash_wide_key_eq, Elow in E by done.
  assert (word (b mod 2 ^ 32)) as Hlow by (rewrite E32; apply Z.mod_pos_bound; lia).
  pose proof (hash_mix_range _ Hlow) as Hr. set (low := Hash.hash_mix (b mod 2 ^ 32)) in *.
  assert (forall z, 0 <= z < 2 ^ 64 -> word (Z.lxor low (Z.shiftr z 32))) as Hx.
  { intros z Hz. apply lxor_nonneg_below; [lia|done|]. rewrite E32. by apply high_word. }
  apply hash_mix_inj in E; [|by apply Hx..]. apply (f_equal (Z.lxor low)) in E.
  rewrite <- !Z.lxor_assoc, !Z.lxor_nilpotent, !Z.lxor_0_l in E. rewrite !Z.shiftr_div_pow2 in E by lia.
  rewrite (Z.div_mod a (2 ^ 32)), (Z.div_mod b (2 ^ 32)) by lia. congruence.
Qed.

Lemma array_length_prefix (cs rest : list Z) :
  Forall (fun ch => ch <> 0) cs -> Hash.array_length (cs ++ 0 :: rest) = length cs /\ Hash.array_length cs = length cs /\
    Hash.scan (cs ++ 0 :: rest) = Some (length cs).
Proof.
  induction 1 as [|ch cs Hch _ (IH1 & IH2 & IH3)]; cbn; [done|].
  rewrite (proj2 (Z.eqb_neq _ _) Hch), IH1, IH2, IH3. done.
Qed.
End hash_facts.

(** The finalizer that every bucket index goes through is a bijection of
    [std::size_t], as its comment says, so that it adds no collisions: it is one to
    one and onto, at both widths that the header supports.  On a 32-bit target two
    64-bit keys that differ only in the high word have different hashes.
    [fnv1a_hash] gives the same hash to a range of characters, to a character array
    that holds them, whether a NUL ends them or the array does, and to a C string of
    them, which is what transparent lookup relies on. *)
Theorem hash_mix_bijective `{SizeT} :
  size_bits = 32 \/ size_bits = 64 ->
  (forall x, 0 <= x < 2 ^ size_bits -> 0 <= Hash.hash_mix x < 2 ^ size_bits) /\
  (forall x y, 0 <= x < 2 ^ size_bits -> 0 <= y < 2 ^ size_bits -> Hash.hash_mix x = Hash.hash_mix y -> x = y) /\
  (forall y, 0 <= y < 2 ^ size_bits -> exists x, 0 <= x < 2 ^ size_bits /\ Hash.hash_mix x = y) /\
  (size_bits = 32 -> forall a b, 0 <= a < 2 ^ 64 -> 0 <= b < 2 ^ 64 -> a mod 2 ^ 32 = b mod 2 ^ 32 ->
    Hash.hash_wide_key 64 a = Hash.hash_wide_key 64 b -> a = b) /\
  (forall cs rest, Forall (fun ch => ch <> 0) cs ->
    Hash.fnv1a_hash_array cs = Hash.fnv1a_hash_range cs /\
    Hash.fnv1a_hash_array (cs ++ 0 :: rest) = Hash.fnv1a_hash_range cs /\
    Hash.fnv1a_hash_cstring (cs ++ 0 :: rest) = Some (Hash.fnv1a_hash_range cs)).
Proof.
  intros Hw. split; [by apply hash_mix_range|]. split; [by apply hash_mix_inj|]. split; [|split].
  - apply interval_onto; [pose proof size_modulus_pos; lia|by apply hash_mix_range|by apply hash_mix_inj].
  - by apply hash_wide_key_high.
  - intros cs rest Hcs. destruct (array_length_prefix cs rest Hcs) as (E1 & E2 & E3).
    unfold Hash.fnv1a_hash_array, Hash.fnv1a_hash_cstring, Hash.fnv1a_hash_range. rewrite E1, E2, E3.
    rewrite take_app_length, take_ge by done. by cbn; rewrite take_app_length.
Qed.

Lemma hash_mix_bijective_witness :
  @size_bits size_t_32 = 32 /\ exists x, 0 <= x < 2 ^ 32 /\ @Hash.hash_mix size_t_32 x = 5.
Proof.
  split; [reflexivity|].
  exact (proj1 (proj2 (proj2 (@hash_mix_bijective size_t_32 (or_introl eq_refl)))) 5 ltac:(cbn; lia)).
Defined.
