(* ===== verification/FixedString.v ===== *)
(** * [fixed_string]

    [include/metl/fixed_string.hpp]: characters up to a capacity, and a terminator.
    A character is an integer, [0] the NUL; [storage_] is the array of
    [Capacity + 1] of them.  A [const char*] is null, or points to an array of the
    caller's, of which [Foreign] holds the characters from there on, or into this
    string ([Own]), and then what it reads changes as the string does.  Reading or
    writing outside an array is a [Fault]. *)

From Stdlib Require Import ZArith Lia.
From stdpp Require Import base numbers list option tactics.
From S2P Require Import Prelude Hash.
Local Open Scope Z_scope.

Record fstring : Set := mk_fstring { fstorage_ : list Z; fsize_ : Z }.

Inductive text : Set :=
  | Null
  | Foreign (chars : list Z)
  | Own (offset : Z).

Definition set_fsize (n : Z) (s : fstring) : fstring := mk_fstring (fstorage_ s) n.

Module FixedString.
Section fixed_string.
  Context `{SizeT} (h : hardening) (Capacity : Z).

Definition load (i : Z) : M fstring Z := fun s =>
  if i <? 0 then Fault else match fstorage_ s !! Z.to_nat i with Some ch => Ret ch s | None => Fault end.
Definition store (i ch : Z) : M fstring unit := fun s =>
  if (0 <=? i) && (i <? Z.of_nat (length (fstorage_ s)))
  then Ret tt (mk_fstring (<[Z.to_nat i := ch]> (fstorage_ s)) (fsize_ s)) else Fault.

(** [text[i]]. *)
Definition read (t : text) (i : Z) : M fstring Z :=
  match t with
  | Null => fun _ => Fault
  | Foreign chars => fun s => match chars !! Z.to_nat i with Some ch => Ret ch s | None => Fault end
  | Own offset => load (offset + i)
  end.
Definition not_null (t : text) : bool := match t with Null => false | _ => true end.

(** [fixed_string()]. *)
Definition fixed_string : fstring :=
  mk_fstring (<[0%nat := 0]> (replicate (Z.to_nat (Capacity + 1)) 0)) 0.

Definition empty (s : fstring) : bool := fsize_ s =? 0.
Definition full (s : fstring) : bool := fsize_ s =? Capacity.

(** The character that the reference names. *)
Definition at_ (index : Z) : M fstring Z :=
  let! n := get fsize_ in metl_assert h (index <? n) ;;; load index.
Definition set_at (index ch : Z) : M fstring unit :=
  let! n := get fsize_ in metl_assert h (index <? n) ;;; store index ch.
Definition front : M fstring Z := let! n := get fsize_ in metl_assert h (0 <? n) ;;; load 0.
Definition back : M fstring Z := let! n := get fsize_ in metl_assert h (0 <? n) ;;; load (wrap (n - 1)).

Definition clear : M fstring unit := modify (set_fsize 0) ;;; store 0 0.

Definition try_push_back (ch : Z) : M fstring bool :=
  let! f := get full in
  if f then ret false
  else
    let! n := get fsize_ in
    store n ch ;;;
    modify (fun s => set_fsize (wrap (fsize_ s + 1)) s) ;;;
    let! n := get fsize_ in
    store n 0 ;;;
    ret true.
Definition push_back (ch : Z) : M fstring unit := let! appended := try_push_back ch in metl_assert h appended.

Definition try_remove_last : M fstring bool :=
  let! e := get empty in
  if e then ret false
  else
    modify (fun s => set_fsize (wrap (fsize_ s - 1)) s) ;;;
    let! n := get fsize_ in
    store n 0 ;;;
    ret true.
Definition pop_back : M fstring unit := let! removed := try_remove_last in metl_assert h removed.

(** [string_length]; a scan that finds no NUL ends outside the array, so as much
    fuel as the array has characters is enough. *)
Fixpoint scan (fuel : nat) (t : text) (length : Z) : M fstring Z :=
  let! ch := read t length in
  if ch =? 0 then ret length
  else match fuel with O => fun _ => Spin | S fuel' => scan fuel' t (length + 1) end.
Definition string_length (t : text) : M fstring Z :=
  scan (match t with Null => O | Foreign chars => List.length chars | Own _ => Z.to_nat (Capacity + 1) end) t 0.

Definition can_append (count : Z) (s : fstring) : bool := count <=? wrap (Capacity - fsize_ s).

Definition copy_in (offset : Z) (source : text) (count : Z) : M fstring unit :=
  for_up (Z.to_nat count) 0 (fun i => let! ch := read source i in store (offset + i) ch).

Definition terminate (n : Z) : M fstring unit := modify (set_fsize n) ;;; store n 0.

Definition try_assign (t : text) : M fstring bool :=
  metl_harden (not_null t) ;;;
  let! input_size := string_length t in
  if Capacity <? input_size then ret false
  else copy_in 0 t input_size ;;; terminate input_size ;;; ret true.
Definition assign (t : text) : M fstring unit := let! assigned := try_assign t in metl_assert h assigned.

Definition try_append (t : text) : M fstring bool :=
  metl_harden (not_null t) ;;;
  let! input_size := string_length t in
  let! ok := get (can_append input_size) in
  if negb ok then ret false
  else
    let! n := get fsize_ in
    copy_in n t input_size ;;; terminate (wrap (n + input_size)) ;;; ret true.
Definition append (t : text) : M fstring unit := let! appended := try_append t in metl_assert h appended.

(** [try_append] and [append] of a span: where it points and its size. *)
Definition try_append_span (data : text) (size : Z) : M fstring bool :=
  let! ok := get (can_append size) in
  if negb ok then ret false
  else
    let! n := get fsize_ in
    copy_in n data size ;;; terminate (wrap (n + size)) ;;; ret true.
Definition append_span (data : text) (size : Z) : M fstring unit :=
  let! appended := try_append_span data size in metl_assert h appended.

(** The constructor from a C string, run on zeroed storage. *)
Definition from_text (t : text) : M fstring unit := let! assigned := try_assign t in metl_assert h assigned.

(** *** Comparing *)

Definition unsigned_char (ch : Z) : Z := ch mod 2 ^ 8.

Fixpoint compare_loop (n : nat) (i : Z) (t : text) : M fstring Z :=
  match n with
  | O =>
      let! size := get fsize_ in
      let! ch := read t size in
      ret (if ch =? 0 then 0 else -1)
  | S n' =>
      let! ch := read t i in
      if ch =? 0 then ret 1
      else
        let! mine := load i in
        let! theirs := read t i in
        if negb (unsigned_char mine =? unsigned_char theirs)
        then ret (if unsigned_char mine <? unsigned_char theirs then -1 else 1)
        else compare_loop n' (i + 1) t
  end.
Definition compare_c (t : text) : M fstring Z :=
  metl_harden (not_null t) ;;; let! n := get fsize_ in compare_loop (Z.to_nat n) 0 t.

(** The operators between a string and a C string: [s == text], [text == s], and so on. *)
Definition eq_c (t : text) : M fstring bool := let! c := compare_c t in ret (c =? 0).
Definition c_eq (t : text) : M fstring bool := let! c := compare_c t in ret (c =? 0).
Definition ne_c (t : text) : M fstring bool := let! c := compare_c t in ret (negb (c =? 0)).
Definition c_ne (t : text) : M fstring bool := let! c := compare_c t in ret (negb (c =? 0)).
Definition lt_c (t : text) : M fstring bool := let! c := compare_c t in ret (c <? 0).
Definition c_lt (t : text) : M fstring bool := let! c := compare_c t in ret (0 <? c).
Definition gt_c (t : text) : M fstring bool := let! c := compare_c t in ret (0 <? c).
Definition c_gt (t : text) : M fstring bool := let! c := compare_c t in ret (c <? 0).
Definition le_c (t : text) : M fstring bool := let! c := compare_c t in ret (c <=? 0).
Definition c_le (t : text) : M fstring bool := let! c := compare_c t in ret (0 <=? c).
Definition ge_c (t : text) : M fstring bool := let! c := compare_c t in ret (0 <=? c).
Definition c_ge (t : text) : M fstring bool := let! c := compare_c t in ret (c <=? 0).

(** Two strings.  Those of one capacity are compared through [storage_], those of
    two through [operator[]]; [item] is the one or the other. *)
Fixpoint equal_loop (item : Z -> M fstring Z) (n : nat) (i : Z) : M (fstring * fstring) bool :=
  match n with
  | O => ret true
  | S n' =>
      let! l := on_fst (item i) in
      let! r := on_snd (item i) in
      if negb (l =? r) then ret false else equal_loop item n' (i + 1)
  end.
Definition equal_by (item : Z -> M fstring Z) : M (fstring * fstring) bool :=
  let! n1 := on_fst (get fsize_) in
  let! n2 := on_snd (get fsize_) in
  if negb (n1 =? n2) then ret false else equal_loop item (Z.to_nat n1) 0.
Definition equal : M (fstring * fstring) bool := equal_by load.
Definition equal_across : M (fstring * fstring) bool := equal_by at_.
Definition not_equal : M (fstring * fstring) bool := let! b := equal in ret (negb b).
Definition not_equal_across : M (fstring * fstring) bool := let! b := equal_across in ret (negb b).

(** The loop that [operator<] and [operator<=>] share, with how each ends. *)
Fixpoint order_loop {A} (decide : Z -> Z -> A) (n : nat) (i : Z) : M (fstring * fstring) A :=
  match n with
  | O =>
      let! n1 := on_fst (get fsize_) in
      let! n2 := on_snd (get fsize_) in
      ret (decide n1 n2)
  | S n' =>
      let! l := on_fst (at_ i) in
      let! r := on_snd (at_ i) in
      if negb (unsigned_char l =? unsigned_char r) then ret (decide (unsigned_char l) (unsigned_char r))
      else order_loop decide n' (i + 1)
  end.
Definition order_by {A} (decide : Z -> Z -> A) : M (fstring * fstring) A :=
  let! n1 := on_fst (get fsize_) in
  let! n2 := on_snd (get fsize_) in
  order_loop decide (Z.to_nat (if n1 <? n2 then n1 else n2)) 0.
Definition three_way : M (fstring * fstring) comparison := order_by Z.compare.
Definition less_than : M (fstring * fstring) bool := order_by Z.ltb.
Definition greater : M (fstring * fstring) bool := swapped less_than.
Definition less_equal : M (fstring * fstring) bool := let! b := swapped less_than in ret (negb b).
Definition greater_equal : M (fstring * fstring) bool := let! b := less_than in ret (negb b).

(** [std::hash]: the characters as unsigned bytes, hashed. *)
Fixpoint bytes (n : nat) (i : Z) : M fstring (list Z) :=
  match n with
  | O => ret []
  | S n' => let! ch := load i in let! rest := bytes n' (i + 1) in ret (unsigned_char ch :: rest)
  end.
Definition hash : M fstring Z :=
  let! n := get fsize_ in let! data := bytes (Z.to_nat n) 0 in ret (Hash.fnv1a data).

Definition swap : M (fstring * fstring) unit :=
  let! n1 := on_fst (get fsize_) in
  let! n2 := on_snd (get fsize_) in
  let through := if n1 <? n2 then n2 else n1 in
  for_up (Z.to_nat (through + 1)) 0 (fun i =>
    let! ch := on_fst (load i) in
    let! other := on_snd (load i) in
    on_fst (store i other) ;;;
    on_snd (store i ch)) ;;;
  on_fst (modify (set_fsize n2)) ;;;
  on_snd (modify (set_fsize n1)).
End fixed_string.
End FixedString.

(** A string is appended to itself, then to what follows its first character. *)
Example append_to_itself :
  let s := FixedString.fixed_string 12 in
  match (@FixedString.append size_t_32 HARDENING_FAST 12 (Foreign [97; 98; 0; 99]) ;;;
         @FixedString.append size_t_32 HARDENING_FAST 12 (Own 0) ;;;
         @FixedString.try_append size_t_32 12 (Own 1) ;;;
         FixedString.try_assign 12 (Own 2)) s with
  | Ret b s' => b = true /\ take 6 (fstorage_ s') = [97; 98; 98; 97; 98; 0] /\ fsize_ s' = 5
  | _ => False
  end.
Proof. by vm_compute. Qed.
