(* ===== verification/FixedStringClaims.v ===== *)
(** * What [fixed_string] promises

    The abstract string is the list of its characters.  A C string argument is
    what its pointer reads up to the NUL; it may point into the string that it is
    assigned or appended to. *)

From Stdlib Require Import ZArith Lia.
From stdpp Require Import base numbers list option tactics.
From S2P Require Import Prelude Hash FixedString.
Local Open Scope Z_scope.

(** ** The abstract string *)

Module StringSpec.

(** Where an argument points: nowhere, at an array of the caller's, or [offset]
    characters into the string itself (not past its terminator). *)
Inductive source : Set := Nowhere | Elsewhere (chars : list Z) | Inside (offset : nat).

(** The characters before the first NUL, if there is one. *)
Fixpoint c_string (l : list Z) : option (list Z) :=
  match l with
  | [] => None
  | ch :: l' => if ch =? 0 then Some [] else cons ch <$> c_string l'
  end.

(** The order of strings: character by character, as unsigned bytes. *)
Fixpoint lexicographic (a b : list Z) : comparison :=
  match a, b with
  | [], [] => Eq
  | [], _ => Lt
  | _, [] => Gt
  | x :: a', y :: b' =>
      match x mod 2 ^ 8 ?= y mod 2 ^ 8 with Eq => lexicographic a' b' | c => c end
  end.

Inductive relation : Set := EQ | NE | LT | GT | LE | GE.

Definition related (r : relation) (c : comparison) : bool :=
  match r, c with
  | EQ, Eq | NE, (Lt | Gt) | LT, Lt | GT, Gt | LE, (Lt | Eq) | GE, (Gt | Eq) => true
  | _, _ => false
  end.

Inductive op : Set :=
  | TryPushBack (ch : Z) | PushBack (ch : Z) | PopBack | Clear
  | TryAssign (t : source) | Assign (t : source)
  | TryAppend (t : source) | Append (t : source)
  | TryAppendSpan (t : source) (n : nat) | AppendSpan (t : source) (n : nat)
  | At (i : nat) | SetAt (i : nat) (ch : Z) | Front | Back | Size | Empty | Full
  | Compare (r : relation) (t : source)      (** [s < text] *)
  | CompareC (r : relation) (t : source)     (** [text < s] *)
  | Strlen                                   (** how far a C function reads [c_str()] *)
  | HashOf.

Inductive result : Set := RUnit | RBool (b : bool) | RInt (n : Z).

Inductive verdict : Set :=
  | Go (x : result) (cs : list Z)  (** returns [x] and leaves [cs] *)
  | Stop                           (** a check stops the program *)
  | Undefined.                     (** the argument is read past its end *)

Section step.
  Context `{SizeT} (C : Z).
  Implicit Types cs : list Z.

Definition size cs : Z := Z.of_nat (length cs).

Definition with_text (t : source) cs (k : list Z -> verdict) : verdict :=
  match t with
  | Nowhere => Stop
  | Elsewhere chars => match c_string chars with Some ds => k ds | None => Undefined end
  | Inside o => match c_string (drop o cs ++ [0]) with Some ds => k ds | None => Undefined end
  end.

(** A comparison stops where the strings differ, so it may do without the NUL. *)
Definition with_compared (t : source) cs (k : list Z -> verdict) : verdict :=
  match t with
  | Elsewhere chars =>
      match c_string chars with
      | Some ds => k ds
      | None =>
          if bool_decide (((fun ch => ch mod 2 ^ 8) <$> chars) `prefix_of` ((fun ch => ch mod 2 ^ 8) <$> cs))
          then Undefined else k chars
      end
  | _ => with_text t cs k
  end.

(** A span's characters; a span of nowhere is empty. *)
Definition with_span (t : source) (n : nat) cs (k : list Z -> verdict) : verdict :=
  match t with
  | Nowhere => k []
  | Elsewhere chars => k (take n chars)
  | Inside o => k (take n (drop o cs))
  end.

Definition try_become (cs' cs : list Z) : verdict :=
  if size cs' <=? C then Go (RBool true) cs' else Go (RBool false) cs.
Definition become (cs' : list Z) : verdict := if size cs' <=? C then Go RUnit cs' else Stop.

Definition read (x : option Z) cs : verdict := match x with Some ch => Go (RInt ch) cs | None => Stop end.

Definition step (o : op) cs : verdict :=
  match o with
  | TryPushBack ch => try_become (cs ++ [ch]) cs
  | PushBack ch => become (cs ++ [ch])
  | PopBack => match cs with [] => Stop | _ => Go RUnit (take (length cs - 1) cs) end
  | Clear => Go RUnit []
  | TryAssign t => with_text t cs (fun ds => try_become ds cs)
  | Assign t => with_text t cs become
  | TryAppend t => with_text t cs (fun ds => try_become (cs ++ ds) cs)
  | Append t => with_text t cs (fun ds => become (cs ++ ds))
  | TryAppendSpan t n => with_span t n cs (fun ds => try_become (cs ++ ds) cs)
  | AppendSpan t n => with_span t n cs (fun ds => become (cs ++ ds))
  | At i => read (cs !! i) cs
  | SetAt i ch => if (i <? length cs)%nat then Go RUnit (<[i := ch]> cs) else Stop
  | Front => read (head cs) cs
  | Back => read (list.last cs) cs
  | Size => Go (RInt (size cs)) cs
  | Empty => Go (RBool (size cs =? 0)) cs
  | Full => Go (RBool (size cs =? C)) cs
  | Compare r t => with_compared t cs (fun ds => Go (RBool (related r (lexicographic cs ds))) cs)
  | CompareC r t => with_compared t cs (fun ds => Go (RBool (related r (lexicographic ds cs))) cs)
  | Strlen => with_text (Inside 0) cs (fun ds => Go (RInt (size ds)) cs)
  | HashOf => Go (RInt (Hash.fnv1a ((fun ch => ch mod 2 ^ 8) <$> cs))) cs
  end.
End step.

Inductive behaviour : Set :=
  | Finished (rs : list result) (cs : list Z) | Stopped (rs : list result) | Wrong (rs : list result).

Definition add_result (x : result) (b : behaviour) : behaviour :=
  match b with
  | Finished rs cs => Finished (x :: rs) cs
  | Stopped rs => Stopped (x :: rs)
  | Wrong rs => Wrong (x :: rs)
  end.

Fixpoint run `{SizeT} (C : Z) (ops : list op) (cs : list Z) : behaviour :=
  match ops with
  | [] => Finished [] cs
  | o :: ops' =>
      match step C o cs with
      | Go x cs' => add_result x (run C ops' cs')
      | Stop => Stopped []
      | Undefined => Wrong []
      end
  end.
End StringSpec.

(** ** The concrete string, observed the same way *)

Module StringRun.
Import StringSpec.
Section string_run.
  Context `{SizeT} (h : hardening) (C : Z).

Definition pointer (t : source) : M fstring text :=
  match t with
  | Nowhere => ret Null
  | Elsewhere chars => ret (Foreign chars)
  | Inside o => get (fun s => Own (Z.min (Z.of_nat o) (fsize_ s)))
  end.
Definition span_size (t : source) (n : nat) : M fstring Z :=
  match t with
  | Nowhere => ret 0
  | Elsewhere chars => ret (Z.min (Z.of_nat n) (Z.of_nat (length chars)))
  | Inside o => get (fun s => Z.min (Z.of_nat n) (fsize_ s - Z.min (Z.of_nat o) (fsize_ s)))
  end.

Definition with_ptr {A} (t : source) (k : text -> M fstring A) : M fstring A := let! p := pointer t in k p.
Definition with_span_ptr {A} (t : source) (n : nat) (k : text -> Z -> M fstring A) : M fstring A :=
  let! p := pointer t in let! z := span_size t n in k p z.

Definition unit_of (m : M fstring unit) : M fstring result := m ;;; ret RUnit.
Definition bool_of (m : M fstring bool) : M fstring result := let! b := m in ret (RBool b).
Definition int_of (m : M fstring Z) : M fstring result := let! n := m in ret (RInt n).

Definition compare_op (r : relation) : text -> M fstring bool :=
  match r with
  | EQ => FixedString.eq_c | NE => FixedString.ne_c | LT => FixedString.lt_c
  | GT => FixedString.gt_c | LE => FixedString.le_c | GE => FixedString.ge_c
  end.
Definition compare_op_c (r : relation) : text -> M fstring bool :=
  match r with
  | EQ => FixedString.c_eq | NE => FixedString.c_ne | LT => FixedString.c_lt
  | GT => FixedString.c_gt | LE => FixedString.c_le | GE => FixedString.c_ge
  end.

Definition exec (o : op) : M fstring result :=
  match o with
  | TryPushBack ch => bool_of (FixedString.try_push_back C ch)
  | PushBack ch => unit_of (FixedString.push_back h C ch)
  | PopBack => unit_of (FixedString.pop_back h)
  | Clear => unit_of FixedString.clear
  | TryAssign t => bool_of (with_ptr t (FixedString.try_assign C))
  | Assign t => unit_of (with_ptr t (FixedString.assign h C))
  | TryAppend t => bool_of (with_ptr t (FixedString.try_append C))
  | Append t => unit_of (with_ptr t (FixedString.append h C))
  | TryAppendSpan t n => bool_of (with_span_ptr t n (FixedString.try_append_span C))
  | AppendSpan t n => unit_of (with_span_ptr t n (FixedString.append_span h C))
  | At i => int_of (FixedString.at_ h (Z.of_nat i))
  | SetAt i ch => unit_of (FixedString.set_at h (Z.of_nat i) ch)
  | Front => int_of (FixedString.front h)
  | Back => int_of (FixedString.back h)
  | Size => int_of (get fsize_)
  | Empty => bool_of (get FixedString.empty)
  | Full => bool_of (get (FixedString.full C))
  | Compare r t => bool_of (with_ptr t (compare_op r))
  | CompareC r t => bool_of (with_ptr t (compare_op_c r))
  | Strlen => int_of (FixedString.string_length C (Own 0))
  | HashOf => int_of FixedString.hash
  end.

(** What the caller sees: the characters up to [size()] once all returned. *)
Definition contents (s : fstring) : list Z := take (Z.to_nat (fsize_ s)) (fstorage_ s).

Fixpoint run (ops : list op) (s : fstring) : option behaviour :=
  match ops with
  | [] => Some (Finished [] (contents s))
  | o :: ops' =>
      match exec o s with
      | Ret x s' => add_result x <$> run ops' s'
      | Trap => Some (Stopped [])
      | Fault => Some (Wrong [])
      | _ => None
      end
  end.
End string_run.
End StringRun.

(** ** Facts *)

Import StringSpec.

(** [s] holds the characters [cs] and their terminator. *)
Definition holds (C : Z) (cs : list Z) (s : fstring) : Prop :=
  Z.of_nat (length (fstorage_ s)) = C + 1 /\ fsize_ s = Z.of_nat (length cs) /\
  exists junk, fstorage_ s = cs ++ 0 :: junk.

Section string_facts.
  Context (C : Z).
  Implicit Types (cs ds l : list Z) (s : fstring) (t : text).

Lemma holds_bound cs s : holds C cs s -> Z.of_nat (length cs) <= C.
Proof. intros (Hl & _ & junk & E). rewrite E, length_app in Hl. cbn in Hl. lia. Qed.

Lemma load_char (i : nat) ch s : fstorage_ s !! i = Some ch -> FixedString.load (Z.of_nat i) s = Ret ch s.
Proof. intros E. unfold FixedString.load. zbool. by rewrite Nat2Z.id, E. Qed.

Lemma store_char (i : nat) ch s :
  (i < length (fstorage_ s))%nat ->
  FixedString.store (Z.of_nat i) ch s = Ret tt (mk_fstring (<[i := ch]> (fstorage_ s)) (fsize_ s)).
Proof. intros Hi. unfold FixedString.store. zbool. cbn [andb]. by rewrite Nat2Z.id. Qed.

(** What the [i]-th read and the ones after it give. *)
Definition reads t s (i : nat) l : Prop :=
  forall j ch, l !! j = Some ch -> FixedString.read t (Z.of_nat (i + j)) s = Ret ch s.

Lemma reads_head t s i ch l : reads t s i (ch :: l) -> FixedString.read t (Z.of_nat i) s = Ret ch s.
Proof. intros Hr. rewrite <- (Nat.add_0_r i). by apply Hr. Qed.

Lemma reads_tail t s i ch l : reads t s i (ch :: l) -> reads t s (S i) l.
Proof. intros Hr j c Hj. rewrite Nat.add_succ_l, <- Nat.add_succ_r. by apply Hr. Qed.

Lemma reads_foreign chars s : reads (Foreign chars) s 0 chars.
Proof. intros j ch Hj. cbn. by rewrite Nat2Z.id, Hj. Qed.

Lemma reads_own (o : nat) s l :
  (forall j ch, l !! j = Some ch -> fstorage_ s !! (o + j)%nat = Some ch) -> reads (Own (Z.of_nat o)) s 0 l.
Proof. intros Hl j ch Hj. cbn. rewrite <- Nat2Z.inj_add. by apply load_char, Hl. Qed.

(** *** Scanning *)

Lemma scan_finds t s l : forall ds fuel (i : nat),
  c_string l = Some ds -> reads t s i l -> (length ds <= fuel)%nat ->
  FixedString.scan fuel t (Z.of_nat i) s = Ret (Z.of_nat (i + length ds)) s.
Proof.
  induction l as [|ch l IH]; intros ds fuel i Hc Hr Hf; [done|]. cbn in Hc.
  destruct fuel as [|fuel]; cbn [FixedString.scan]; rewrite (bind_Ret _ _ _ _ _ (reads_head _ _ _ _ _ Hr));
    destruct (ch =? 0); simplify_eq; cbn; rewrite ?Nat.add_0_r; try done.
  all: destruct (c_string l) as [ds'|] eqn:E; simplify_eq/=; try lia.
  replace (Z.of_nat i + 1) with (Z.of_nat (S i)) by lia.
  rewrite (IH ds' fuel (S i) eq_refl (reads_tail _ _ _ _ _ Hr)) by lia. f_equal. lia.
Qed.

Lemma scan_runs_off t s l : forall fuel (i : nat),
  c_string l = None -> reads t s i l -> FixedString.read t (Z.of_nat (i + length l)) s = Fault ->
  (length l <= fuel)%nat -> FixedString.scan fuel t (Z.of_nat i) s = Fault.
Proof.
  induction l as [|ch l IH]; intros fuel i Hc Hr Hend Hf.
  { rewrite Nat.add_0_r in Hend. destruct fuel; cbn [FixedString.scan]; unfold bind; by rewrite Hend. }
  cbn in Hc, Hf. destruct fuel as [|fuel]; [lia|].
  cbn [FixedString.scan]. rewrite (bind_Ret _ _ _ _ _ (reads_head _ _ _ _ _ Hr)).
  destruct (ch =? 0); [done|]. destruct (c_string l) eqn:E; [done|].
  replace (Z.of_nat i + 1) with (Z.of_nat (S i)) by lia. apply IH; [done|by eapply reads_tail| |lia].
  rewrite <- Hend. f_equal. cbn. lia.
Qed.

Lemma c_string_length l ds : c_string l = Some ds -> (length ds < length l)%nat.
Proof.
  revert ds. induction l as [|ch l IH]; intros ds; cbn; [done|]. destruct (ch =? 0); [intros ?; simplify_eq; cbn; lia|].
  destruct (c_string l) as [ds'|]; intros ?; simplify_eq/=. specialize (IH ds' eq_refl). lia.
Qed.

Lemma c_string_lookup l ds : c_string l = Some ds -> forall j ch, ds !! j = Some ch -> l !! j = Some ch.
Proof.
  revert ds. induction l as [|c l IH]; intros ds; cbn; [done|]. destruct (c =? 0); [intros ?; by simplify_eq|].
  destruct (c_string l) as [ds'|]; intros ?; simplify_eq/=. intros [|j] ch Hj; cbn in *; [done|]. by apply (IH ds').
Qed.

Lemma c_string_terminated l : exists ds, c_string (l ++ [0]) = Some ds.
Proof.
  induction l as [|ch l (ds & IH)]; cbn; [by exists []|]. destruct (ch =? 0); [by exists []|]. rewrite IH. by exists (ch :: ds).
Qed.

(** *** Copying *)

(** The storage after [i] of the characters [ds] are at [off]. *)
Definition partly (off i : nat) ds s : fstring :=
  mk_fstring (take off (fstorage_ s) ++ take i ds ++ drop (off + i) (fstorage_ s)) (fsize_ s).

(** What a copy to [off] reads is not disturbed by what it has written. *)
Definition undisturbed t (off : nat) ds s : Prop :=
  forall i ch, ds !! i = Some ch -> FixedString.read t (Z.of_nat i) (partly off i ds s) = Ret ch (partly off i ds s).

Lemma undisturbed_foreign chars off ds s :
  (forall j ch, ds !! j = Some ch -> chars !! j = Some ch) -> undisturbed (Foreign chars) off ds s.
Proof. intros Hd i ch Hi. cbn. by rewrite Nat2Z.id, (Hd _ _ Hi). Qed.

Lemma undisturbed_own (o off : nat) ds s :
  (forall j ch, ds !! j = Some ch -> fstorage_ s !! (o + j)%nat = Some ch) ->
  (off + length ds <= length (fstorage_ s))%nat -> (off <= o \/ o + length ds <= off)%nat ->
  undisturbed (Own (Z.of_nat o)) off ds s.
Proof.
  intros Hd Hl Ho i ch Hi. pose proof (lookup_lt_Some _ _ _ Hi). cbn. rewrite <- Nat2Z.inj_add. apply load_char.
  cbn. rewrite <- (Hd _ _ Hi). destruct Ho.
  - rewrite !lookup_app_r; rewrite ?length_take; [|lia..]. rewrite lookup_drop. f_equal. lia.
  - rewrite lookup_app_l by (rewrite length_take; lia). by rewrite lookup_take_lt by lia.
Qed.

Lemma copy_in_copies (off : nat) t ds s :
  undisturbed t off ds s -> (off + length ds <= length (fstorage_ s))%nat ->
  FixedString.copy_in (Z.of_nat off) t (Z.of_nat (length ds)) s = Ret tt (partly off (length ds) ds s).
Proof.
  intros Hu Hl. unfold FixedString.copy_in. rewrite Nat2Z.id.
  destruct (for_up_inv (fun i s' => s' = partly off (Z.to_nat i) ds s)
    (fun i => let! ch := FixedString.read t i in FixedString.store (Z.of_nat off + i) ch) (length ds) 0 s)
    as (s' & E & ->).
  - unfold partly. change (Z.to_nat 0) with 0%nat. rewrite Nat.add_0_r, take_0, app_nil_l, take_drop. by destruct s.
  - intros i s' Hi ->. destruct (Z_of_nat_complete i) as (k & ->); [lia|]. rewrite Nat2Z.id.
    destruct (lookup_lt_is_Some_2 ds k) as (ch & Hch); [lia|].
    assert (k < length (drop off (fstorage_ s)))%nat as Hk by (rewrite length_drop; lia).
    destruct (lookup_lt_is_Some_2 _ _ Hk) as (old & Hold).
    eexists. rewrite (bind_Ret _ _ _ _ _ (Hu k ch Hch)), <- Nat2Z.inj_add.
    rewrite store_char by (cbn; rewrite !length_app, !length_take, length_drop; lia). split; [done|].
    unfold partly. cbn. f_equal. rewrite insert_app_r_alt by (rewrite length_take; lia). f_equal.
    rewrite length_take, Nat.min_l by lia. replace (off + k - off)%nat with k by lia.
    replace (Z.to_nat (Z.of_nat k + 1)) with (S k) by lia.
    rewrite <- !drop_drop. by apply (take_drop_insert ds _ k ch old).
  - rewrite E. by rewrite Z.add_0_l, Nat2Z.id.
Qed.

(** A copy behind the first [off] characters and a new terminator. *)
Lemma copy_and_terminate (off : nat) t ds cs s (k : M fstring bool) :
  holds C cs s -> undisturbed t off ds s -> (off <= length cs)%nat -> Z.of_nat (off + length ds) <= C ->
  exists s', holds C (take off cs ++ ds) s' /\
    (FixedString.copy_in (Z.of_nat off) t (Z.of_nat (length ds)) ;;;
     FixedString.terminate (Z.of_nat (off + length ds)) ;;; k) s = k s'.
Proof.
  intros (Hl & Hs & junk & E) Hu Hoff HC.
  set (n := (off + length ds)%nat). set (st := take off (fstorage_ s) ++ ds ++ drop n (fstorage_ s)).
  assert (partly off (length ds) ds s = mk_fstring st (fsize_ s)) as Ep by (unfold partly; by rewrite firstn_all).
  rewrite (bind_Ret _ _ _ _ _ (copy_in_copies off t ds s Hu ltac:(lia))), Ep.
  unfold FixedString.terminate. rewrite bind_assoc. mstep.
  assert (length st = length (fstorage_ s)) as Hst.
  { unfold st, n. rewrite !length_app, length_take, length_drop. lia. }
  exists (mk_fstring (<[n := 0]> st) (Z.of_nat n)). split.
  - split; [cbn; rewrite length_insert; lia|]. split.
    { cbn. rewrite length_app, length_take. lia. }
    assert (drop n (fstorage_ s) <> []) as Hne.
    { intros E0. apply (f_equal length) in E0. rewrite length_drop in E0. cbn in E0. lia. }
    destruct (drop n (fstorage_ s)) as [|x junk'] eqn:Ed; [done|]. exists junk'. cbn. unfold st.
    assert (take off (fstorage_ s) = take off cs) as -> by (rewrite E, take_app_le by lia; done).
    rewrite !app_assoc. apply insert_middle_at. unfold n. rewrite length_app, length_take. lia.
  - assert (n < length (fstorage_ (set_fsize (Z.of_nat n) (mk_fstring st (fsize_ s)))))%nat as Hn by (cbn; lia).
    by rewrite (bind_Ret _ _ _ _ _ (store_char n 0 _ Hn)).
Qed.
End string_facts.

(** *** Comparing *)

Definition byte (ch : Z) : Z := ch mod 2 ^ 8.
Definition sign (c : comparison) : Z := match c with Lt => -1 | Eq => 0 | Gt => 1 end.

(** A comparison against the characters [l] that are there; [None] runs off them. *)
Fixpoint compared (cs l : list Z) {struct l} : option comparison :=
  match l with
  | [] => None
  | ch :: l' =>
      if ch =? 0 then Some (match cs with [] => Eq | _ => Gt end)
      else match cs with
           | [] => Some Lt
           | x :: cs' => match byte x ?= byte ch with Eq => compared cs' l' | c => Some c end
           end
  end.

Section comparing_facts.
  Implicit Types (cs ds l : list Z) (s : fstring) (t : text).

Lemma compare_loop_compared t s cs : forall l (i : nat),
  (forall j ch, cs !! j = Some ch -> fstorage_ s !! (i + j)%nat = Some ch) -> reads t s i l ->
  (c_string l = None -> FixedString.read t (Z.of_nat (i + length l)) s = Fault) ->
  fsize_ s = Z.of_nat (i + length cs) ->
  FixedString.compare_loop (length cs) (Z.of_nat i) t s =
    match compared cs l with Some c => Ret (sign c) s | None => Fault end.
Proof.
  induction cs as [|x cs IH]; intros l i Hcs Hl Hend Hs; cbn [length FixedString.compare_loop].
  { rewrite Nat.add_0_r in Hs. mstep. rewrite Hs. destruct l as [|ch l]; cbn [compared].
    - rewrite Nat.add_0_r in Hend. unfold bind. by rewrite Hend.
    - rewrite (bind_Ret _ _ _ _ _ (reads_head _ _ _ _ _ Hl)). by destruct (ch =? 0). }
  destruct l as [|ch l]; cbn [compared].
  { rewrite Nat.add_0_r in Hend. unfold bind. by rewrite Hend. }
  pose proof (reads_head _ _ _ _ _ Hl) as Hr. rewrite (bind_Ret _ _ _ _ _ Hr).
  cbn in Hend. destruct (ch =? 0); [done|].
  assert (FixedString.load (Z.of_nat i) s = Ret x s) as Hx.
  { apply load_char. rewrite <- (Nat.add_0_r i). by apply Hcs. }
  rewrite (bind_Ret _ _ _ _ _ Hx), (bind_Ret _ _ _ _ _ Hr).
  unfold FixedString.unsigned_char. fold (byte x) (byte ch).
  destruct (Z.compare_spec (byte x) (byte ch)); zbool; cbn [negb]; [|done|done].
  replace (Z.of_nat i + 1) with (Z.of_nat (S i)) by lia. apply IH.
  - intros j c Hj. rewrite Nat.add_succ_l, <- Nat.add_succ_r. by apply Hcs.
  - by eapply reads_tail.
  - intros E. rewrite E in Hend. rewrite <- Hend by done. f_equal. lia.
  - rewrite Hs. cbn. lia.
Qed.

Lemma compared_terminated cs l ds : c_string l = Some ds -> compared cs l = Some (lexicographic cs ds).
Proof.
  revert cs ds. induction l as [|ch l IH]; intros cs ds; cbn; [done|].
  destruct (ch =? 0); [intros [= <-]; by destruct cs|].
  destruct (c_string l) as [ds'|]; intros ?; simplify_eq/=. destruct cs as [|x cs]; [done|]. cbn.
  unfold byte. destruct (x mod _ ?= ch mod _); [by apply IH|done..].
Qed.

Lemma compared_unterminated cs l :
  c_string l = None ->
  compared cs l = if bool_decide ((byte <$> l) `prefix_of` (byte <$> cs)) then None else Some (lexicographic cs l).
Proof.
  revert cs. induction l as [|ch l IH]; intros cs; cbn [c_string compared].
  { intros _. rewrite bool_decide_eq_true_2; [done|]. apply prefix_nil. }
  destruct (ch =? 0); [done|]. destruct (c_string l) as [ds'|]; [done|]. intros _. specialize (fun cs => IH cs eq_refl).
  destruct cs as [|x cs]; cbn [fmap list_fmap lexicographic].
  { rewrite bool_decide_eq_false_2; [done|]. apply prefix_nil_not. }
  rewrite IH. fold (byte x) (byte ch). destruct (Z.compare_spec (byte x) (byte ch)) as [E|E|E].
  - rewrite E. f_equal. erewrite bool_decide_ext; [done|]. split; [apply prefix_cons|apply prefix_cons_inv_2].
  - rewrite bool_decide_eq_false_2; [done|]. intros Hp%prefix_cons_inv_1. lia.
  - rewrite bool_decide_eq_false_2; [done|]. intros Hp%prefix_cons_inv_1. lia.
Qed.

Lemma lexicographic_antisym cs ds : lexicographic ds cs = CompOpp (lexicographic cs ds).
Proof.
  revert ds. induction cs as [|x cs IH]; intros [|y ds]; cbn; [done..|].
  rewrite (Z.compare_antisym (x mod _)). destruct (x mod _ ?= y mod _); cbn; [apply IH|done..].
Qed.
End comparing_facts.

(** *** Arguments *)

Section argument_facts.
  Context (C : Z).
  Implicit Types (cs ds l : list Z) (s : fstring) (p : text).

(** The pointer [p] shows the characters [l], and copies of them to the front or
    to the end of the string that holds [cs] come out right. *)
Record shown p cs s l : Prop := {
  shown_not_null : FixedString.not_null p = true;
  shown_reads : reads p s 0 l;
  shown_end : c_string l = None -> FixedString.read p (Z.of_nat (length l)) s = Fault;
  shown_length :
    FixedString.string_length C p s =
      match c_string l with Some ds => Ret (Z.of_nat (length ds)) s | None => Fault end;
  shown_copies : forall ds off, c_string l = Some ds -> off = 0%nat \/ off = length cs ->
    Z.of_nat (off + length ds) <= C -> undisturbed p off ds s
}.

Lemma foreign_shown chars cs s : shown (Foreign chars) cs s chars.
Proof.
  assert (FixedString.read (Foreign chars) (Z.of_nat (length chars)) s = Fault) as Hend.
  { cbn. rewrite Nat2Z.id. by rewrite (proj2 (lookup_ge_None _ _)). }
  split; [done|apply reads_foreign|done| |].
  - unfold FixedString.string_length. destruct (c_string chars) as [ds|] eqn:E.
    + pose proof (c_string_length _ _ E).
      apply (scan_finds _ _ chars ds _ 0 E); [apply reads_foreign|lia].
    + by apply (scan_runs_off _ _ chars _ 0 E); [apply reads_foreign| |].
  - intros ds off E _ _. apply undisturbed_foreign. by apply c_string_lookup.
Qed.

Lemma inside_lookup (o : nat) cs s j ch :
  holds C cs s -> (o <= length cs)%nat -> (drop o cs ++ [0]) !! j = Some ch -> fstorage_ s !! (o + j)%nat = Some ch.
Proof.
  intros (_ & _ & junk & ->) Ho Hj.
  replace (cs ++ 0 :: junk) with (take o cs ++ (drop o cs ++ [0]) ++ junk).
  - rewrite lookup_app_r by (rewrite length_take; lia). rewrite length_take.
    replace (o + j - o `min` length cs)%nat with j by lia. by apply lookup_app_l_Some.
  - rewrite <- app_assoc, app_assoc, take_drop. done.
Qed.

Lemma inside_shown (o : nat) cs s :
  holds C cs s -> (o <= length cs)%nat -> shown (Own (Z.of_nat o)) cs s (drop o cs ++ [0]).
Proof.
  intros Hs Ho. pose proof (holds_bound C cs s Hs). destruct (c_string_terminated (drop o cs)) as (ds & E).
  pose proof (c_string_length _ _ E) as Hlen. rewrite length_app, length_drop in Hlen. cbn in Hlen.
  assert (reads (Own (Z.of_nat o)) s 0 (drop o cs ++ [0])) as Hr.
  { apply reads_own. intros j ch. by apply inside_lookup. }
  split; [done|done|by rewrite E| |].
  - rewrite E. apply (scan_finds _ _ _ ds _ 0 E Hr). lia.
  - intros ds' off E' Hoff HC. simplify_eq. apply undisturbed_own.
    + intros j ch Hj. apply (inside_lookup o cs); [done|done|]. by eapply c_string_lookup.
    + destruct Hs as (Hl & _). lia.
    + destruct Hoff; lia.
Qed.

(** The pointer that a source gives. *)
Lemma source_pointer t cs s :
  holds C cs s -> exists p, StringRun.pointer t s = Ret p s /\
    match t with
    | Nowhere => p = Null
    | Elsewhere chars => p = Foreign chars
    | Inside o => p = Own (Z.of_nat (Nat.min o (length cs)))
    end.
Proof.
  intros (_ & Hs & _). destruct t as [|chars|o]; eexists; [done..|]. split; [done|]. rewrite Hs. f_equal. lia.
Qed.

Lemma drop_min (o : nat) cs : drop (Nat.min o (length cs)) cs = drop o cs.
Proof. destruct (Nat.min_spec o (length cs)) as [(_ & ->)|(? & ->)]; [done|]. by rewrite !drop_ge. Qed.

Lemma source_text t cs s :
  holds C cs s ->
  (t = Nowhere /\ StringRun.pointer t s = Ret Null s) \/
  exists p l, StringRun.pointer t s = Ret p s /\ shown p cs s l /\
    (forall k, with_text t cs k = match c_string l with Some ds => k ds | None => Undefined end) /\
    (forall k, with_compared t cs k =
       match compared cs l with None => Undefined | _ => k (default l (c_string l)) end).
Proof.
  intros Hs. destruct (source_pointer t cs s Hs) as (p & Ep & Hp). destruct t as [|chars|o]; subst p; [by left|right..].
  - exists (Foreign chars), chars. split; [done|]. split; [apply foreign_shown|]. split; [done|]. intros k. cbn.
    destruct (c_string chars) as [ds|] eqn:E; [by rewrite (compared_terminated _ _ _ E)|].
    rewrite (compared_unterminated _ _ E). fold byte. by case_bool_decide.
  - exists (Own (Z.of_nat (Nat.min o (length cs)))), (drop o cs ++ [0]). split; [done|].
    split; [rewrite <- (drop_min o cs); apply inside_shown; [done|lia]|]. split; [done|]. intros k. cbn.
    destruct (c_string_terminated (drop o cs)) as (ds & E). by rewrite (compared_terminated _ _ _ E), E.
Qed.

Lemma source_span t n cs s :
  holds C cs s -> exists p ds, StringRun.pointer t s = Ret p s /\
    StringRun.span_size t n s = Ret (Z.of_nat (length ds)) s /\
    (forall k, with_span t n cs k = k ds) /\
    (Z.of_nat (length cs + length ds) <= C -> undisturbed p (length cs) ds s).
Proof.
  intros Hs. destruct (source_pointer t cs s Hs) as (p & Ep & Hp). pose proof Hs as (Hl & Hsz & _). exists p.
  destruct t as [|chars|o]; subst p.
  - exists []. split; [done|]. split; [done|]. split; [done|]. intros _ i ch Hi. done.
  - exists (take n chars). split; [done|]. split; [cbn; rewrite length_take; f_equal; lia|]. split; [done|]. intros _.
    apply undisturbed_foreign. intros j ch Hj. by apply lookup_take_Some in Hj as [Hj _].
  - exists (take n (drop o cs)). split; [done|]. split.
    { cbn. unfold get. rewrite Hsz, length_take, length_drop. f_equal. lia. }
    split; [done|]. rewrite <- (drop_min o cs). intros HC. apply undisturbed_own; [|lia|].
    + intros j ch Hj. apply (inside_lookup _ cs); [done|lia|]. apply lookup_take_Some in Hj as [Hj _].
      by apply lookup_app_l_Some.
    + right. rewrite length_take, length_drop. lia.
Qed.
End argument_facts.

(** *** Operations *)

Section operation_facts.
  Context `{SizeT} (h : hardening) (C : Z) `{!CapacityOk C}.
  Implicit Types (cs ds l : list Z) (s : fstring) (p : text).

(** How a computation answers a verdict. *)
Definition meets (v : verdict) (o : outcome fstring result) : Prop :=
  match v with
  | Go x cs => exists s, o = Ret x s /\ holds C cs s
  | Stop => o = Trap
  | Undefined => o = Fault
  end.

(** [m] makes the string [cs'] if that fits and reports whether it does. *)
Definition tries (m : M fstring bool) cs' cs s : Prop :=
  exists s', m s = Ret (size cs' <=? C) s' /\ holds C (if size cs' <=? C then cs' else cs) s'.

Lemma tries_meets m cs' cs s : tries m cs' cs s -> meets (try_become C cs' cs) (StringRun.bool_of m s).
Proof.
  intros (s' & E & Hs). unfold StringRun.bool_of. mstep. unfold try_become.
  destruct (size cs' <=? C); by exists s'.
Qed.

Lemma tries_asserted m cs' cs s :
  h <> HARDENING_NONE -> tries m cs' cs s ->
  meets (become C cs') (StringRun.unit_of (let! b := m in metl_assert h b) s).
Proof.
  intros Hh (s' & E & Hs). unfold StringRun.unit_of. rewrite bind_assoc. mstep. unfold become.
  destruct (size cs' <=? C).
  - rewrite (bind_Ret _ _ _ _ _ (metl_assert_true h s')). by exists s'.
  - by rewrite (bind_Trap _ _ _ (metl_assert_false h s' Hh)).
Qed.

Lemma append_tries p ds cs s :
  holds C cs s -> (Z.of_nat (length cs + length ds) <= C -> undisturbed p (length cs) ds s) ->
  tries (FixedString.try_append_span C p (Z.of_nat (length ds))) (cs ++ ds) cs s.
Proof.
  intros Hs Hu. pose proof Hs as (Hl & Hsz & _). pose proof (holds_bound C cs s Hs).
  destruct (capacity_bounds C). unfold tries, FixedString.try_append_span, size. mstep.
  unfold FixedString.can_append. rewrite Hsz, (wrap_small (C - _)) by lia. rewrite length_app.
  destruct (Z.leb_spec (Z.of_nat (length ds)) (C - Z.of_nat (length cs))); zbool; cbn [negb].
  2: { by exists s. }
  mstep. rewrite Hsz, wrap_small, <- Nat2Z.inj_add by lia.
  destruct (copy_and_terminate C (length cs) p ds cs s (ret true) Hs (Hu ltac:(lia))) as (s' & Hs' & ->); [lia..|].
  exists s'. split; [done|]. by rewrite firstn_all in Hs'.
Qed.

Lemma assign_tries p l ds cs s :
  holds C cs s -> shown C p cs s l -> c_string l = Some ds -> tries (FixedString.try_assign C p) ds cs s.
Proof.
  intros Hs [Hn Hr _ Hlen Hcopy] E. rewrite E in Hlen. unfold tries, FixedString.try_assign, size.
  rewrite Hn. mstep. rewrite (bind_Ret _ _ _ _ _ Hlen).
  destruct (Z.ltb_spec C (Z.of_nat (length ds))); zbool; [by exists s|].
  destruct (copy_and_terminate C 0 p ds cs s (ret true) Hs) as (s' & Hs' & Es); [by apply Hcopy; [|left|]|lia|lia|].
  exists s'. split; [done|]. done.
Qed.

Lemma append_text_tries p l ds cs s :
  holds C cs s -> shown C p cs s l -> c_string l = Some ds -> tries (FixedString.try_append C p) (cs ++ ds) cs s.
Proof.
  intros Hs [Hn Hr _ Hlen Hcopy] E. rewrite E in Hlen.
  destruct (append_tries p ds cs s Hs) as (s' & Es & Hs'); [intros HC; apply Hcopy; auto|].
  exists s'. split; [|done]. unfold FixedString.try_append. rewrite Hn. mstep.
  by rewrite (bind_Ret _ _ _ _ _ Hlen).
Qed.

Lemma push_tries ch cs s : holds C cs s -> tries (FixedString.try_push_back C ch) (cs ++ [ch]) cs s.
Proof.
  intros Hs. pose proof Hs as (Hl & Hsz & junk & E). pose proof (holds_bound C cs s Hs). destruct (capacity_bounds C).
  unfold tries, FixedString.try_push_back, FixedString.full, size. mstep. rewrite length_app. cbn [length].
  destruct (Z.eqb_spec (fsize_ s) C); zbool; [by exists s|]. mstep. rewrite Hsz.
  rewrite (bind_Ret _ _ _ _ _ (store_char (length cs) ch s ltac:(lia))). do 2 mstep. unfold set_fsize. cbn [fsize_ fstorage_].
  rewrite Hsz, wrap_small by lia. replace (Z.of_nat (length cs) + 1) with (Z.of_nat (S (length cs))) by lia.
  assert (forall st m, st = <[length cs := ch]> (fstorage_ s) ->
    S (length cs) < length (fstorage_ (mk_fstring st m)))%nat as Hlt.
  { intros st m ->. cbn. rewrite length_insert. lia. }
  rewrite (bind_Ret _ _ _ _ _ (store_char _ 0 _ (Hlt _ _ eq_refl))).
  eexists. split; [done|]. split; [cbn; rewrite !length_insert; lia|]. split; [cbn; rewrite length_app; cbn; lia|].
  cbn. rewrite E in Hl |- *. rewrite length_app in Hl. cbn in Hl. destruct junk as [|x junk]; [cbn in Hl; lia|].
  exists junk. rewrite insert_middle_at by done.
  replace (cs ++ ch :: x :: junk) with ((cs ++ [ch]) ++ x :: junk) by (by rewrite <- app_assoc).
  rewrite insert_middle_at; [by rewrite <- app_assoc|]. rewrite length_app. cbn. lia.
Qed.

Lemma remove_last_some cs ch s :
  holds C (cs ++ [ch]) s -> exists s', FixedString.try_remove_last s = Ret true s' /\ holds C cs s'.
Proof.
  intros (Hl & Hsz & junk & E). destruct (capacity_bounds C). rewrite length_app in Hsz. cbn in Hsz.
  assert (Z.of_nat (length cs) <= C) as Hc.
  { rewrite E, !length_app in Hl. cbn in Hl. lia. }
  unfold FixedString.try_remove_last, FixedString.empty. mstep. zbool. do 2 mstep. unfold set_fsize. cbn [fsize_ fstorage_].
  rewrite Hsz, wrap_small by lia. replace (Z.of_nat (length cs + 1) - 1) with (Z.of_nat (length cs)) by lia.
  rewrite (bind_Ret _ _ _ _ _ (store_char (length cs) 0 (mk_fstring (fstorage_ s) _) ltac:(cbn; lia))).
  eexists. split; [done|]. split; [cbn; by rewrite length_insert|]. split; [done|]. exists (0 :: junk). cbn.
  rewrite E, <- app_assoc. by apply insert_middle_at.
Qed.

Lemma set_char (i : nat) ch cs s :
  holds C cs s -> (i < length cs)%nat ->
  holds C (<[i := ch]> cs) (mk_fstring (<[i := ch]> (fstorage_ s)) (fsize_ s)).
Proof.
  intros (Hl & Hsz & junk & E) Hi. split; [cbn; by rewrite length_insert|].
  split; [by rewrite length_insert|]. exists junk. cbn. by rewrite E, insert_app_l.
Qed.

Lemma char_at (i : nat) ch cs s : holds C cs s -> cs !! i = Some ch -> FixedString.load (Z.of_nat i) s = Ret ch s.
Proof. intros (_ & _ & junk & E) Hi. apply load_char. rewrite E. by apply lookup_app_l_Some. Qed.

Lemma at_char (i : nat) ch cs s :
  holds C cs s -> cs !! i = Some ch -> FixedString.at_ h (Z.of_nat i) s = Ret ch s.
Proof.
  intros Hs Hi. pose proof (lookup_lt_Some _ _ _ Hi). pose proof Hs as (_ & Hsz & _).
  unfold FixedString.at_. mstep. rewrite Hsz. zbool. mstep. by apply (char_at i ch cs).
Qed.

Lemma bytes_of cs : forall s (i : nat) (all : list Z),
  holds C all s -> drop i all = cs ->
  FixedString.bytes (length cs) (Z.of_nat i) s = Ret (byte <$> cs) s.
Proof.
  induction cs as [|ch cs IH]; intros s i all Hs Hd; [done|]. cbn [length FixedString.bytes].
  assert (all !! i = Some ch) as Hi by (by rewrite <- (Nat.add_0_r i), <- lookup_drop, Hd).
  rewrite (bind_Ret _ _ _ _ _ (char_at i ch all s Hs Hi)).
  replace (Z.of_nat i + 1) with (Z.of_nat (S i)) by lia.
  rewrite (bind_Ret _ _ _ _ _ (IH s (S i) all Hs ltac:(rewrite (drop_S _ _ _ Hi) in Hd; by simplify_eq))). done.
Qed.
End operation_facts.

(** *** Every operation meets its verdict *)

Section exec_facts.
  Context `{SizeT} (h : hardening) (C : Z) `{!CapacityOk C}.
  Implicit Types (cs ds l : list Z) (s : fstring) (p : text).

(** An operation on a C string, given what it does with the characters. *)
Lemma text_meets {A} (k : text -> M fstring A) (g : A -> M fstring result) t cs s (v : list Z -> verdict) :
  holds C cs s ->
  bind (k Null) g s = Trap ->
  (forall p l, shown C p cs s l -> c_string l = None -> bind (k p) g s = Fault) ->
  (forall p l ds, shown C p cs s l -> c_string l = Some ds -> meets C (v ds) (bind (k p) g s)) ->
  meets C (with_text t cs v) (bind (StringRun.with_ptr t k) g s).
Proof.
  intros Hs Hnull Hbad Hgood. unfold StringRun.with_ptr. rewrite bind_assoc.
  destruct (source_text C t cs s Hs) as [(-> & Ep)|(p & l & Ep & Hp & -> & _)]; rewrite (bind_Ret _ _ _ _ _ Ep); [done|].
  destruct (c_string l) as [ds|] eqn:E; [by eapply Hgood|by eapply Hbad].
Qed.

Lemma length_Fault {A} p l cs s (k : Z -> M fstring A) :
  shown C p cs s l -> c_string l = None ->
  (metl_harden (FixedString.not_null p) ;;; let! n := FixedString.string_length C p in k n) s = Fault.
Proof. intros [Hn _ _ Hlen _] E. rewrite Hn. mstep. unfold bind. by rewrite Hlen, E. Qed.

(** The answer of [compare_c] to the characters shown. *)
Lemma compare_c_shown p l cs s :
  holds C cs s -> shown C p cs s l ->
  FixedString.compare_c p s = match compared cs l with Some c => Ret (sign c) s | None => Fault end.
Proof.
  intros (_ & Hsz & junk & E) [Hn Hr Hend _ _]. unfold FixedString.compare_c. rewrite Hn. do 2 mstep.
  rewrite Hsz, Nat2Z.id. apply (compare_loop_compared p s cs l 0); [|done|done|done].
  intros j ch Hj. rewrite E. by apply lookup_app_l_Some.
Qed.

Lemma compare_meets (k : text -> M fstring bool) (test : Z -> bool) (v : list Z -> bool) t cs s :
  holds C cs s ->
  (forall p, k p = (let! c := FixedString.compare_c p in ret (test c))) ->
  (forall ds, v ds = test (sign (lexicographic cs ds))) ->
  meets C (with_compared t cs (fun ds => Go (RBool (v ds)) cs)) (StringRun.bool_of (StringRun.with_ptr t k) s).
Proof.
  intros Hs Hk Hv. unfold StringRun.bool_of, StringRun.with_ptr. rewrite bind_assoc.
  destruct (source_text C t cs s Hs) as [(-> & Ep)|(p & l & Ep & Hp & _ & ->)]; rewrite (bind_Ret _ _ _ _ _ Ep), Hk, bind_assoc.
  { done. }
  pose proof (compare_c_shown p l cs s Hs Hp) as Hc.
  destruct (compared cs l) as [c|] eqn:E; [|by apply bind_Fault].
  rewrite (bind_Ret _ _ _ _ _ Hc). exists s. split; [|done]. rewrite Hv. do 3 f_equal.
  destruct (c_string l) as [ds|] eqn:Ec; cbn.
  - rewrite (compared_terminated _ _ _ Ec) in E. by simplify_eq.
  - rewrite (compared_unterminated _ _ Ec) in E. case_bool_decide; by simplify_eq.
Qed.

Lemma compare_op_meets r t cs s :
  holds C cs s -> meets C (step C (Compare r t) cs) (StringRun.exec h C (Compare r t) s).
Proof.
  intros Hs. destruct r; eapply compare_meets; try done; intros ds; by destruct (lexicographic cs ds).
Qed.

Lemma compare_op_c_meets r t cs s :
  holds C cs s -> meets C (step C (CompareC r t) cs) (StringRun.exec h C (CompareC r t) s).
Proof.
  intros Hs. destruct r; eapply compare_meets; try done; intros ds;
    rewrite lexicographic_antisym; by destruct (lexicographic cs ds).
Qed.

Hypothesis checked : h <> HARDENING_NONE.

Lemma assign_meets t cs s : holds C cs s ->
  meets C (step C (TryAssign t) cs) (StringRun.exec h C (TryAssign t) s) /\
  meets C (step C (Assign t) cs) (StringRun.exec h C (Assign t) s).
Proof.
  intros Hs. split; apply text_meets; try done; cbn [FixedString.not_null].
  - intros p l Hp E. apply bind_Fault. by eapply length_Fault.
  - intros p l ds Hp E. apply tries_meets. by eapply assign_tries.
  - intros p l Hp E. do 2 apply bind_Fault. by eapply length_Fault.
  - intros p l ds Hp E. eapply tries_asserted; [done..|]. by eapply assign_tries.
Qed.

Lemma append_meets t cs s : holds C cs s ->
  meets C (step C (TryAppend t) cs) (StringRun.exec h C (TryAppend t) s) /\
  meets C (step C (Append t) cs) (StringRun.exec h C (Append t) s).
Proof.
  intros Hs. split; apply text_meets; try done; cbn [FixedString.not_null].
  - intros p l Hp E. apply bind_Fault. by eapply length_Fault.
  - intros p l ds Hp E. apply tries_meets. by eapply append_text_tries.
  - intros p l Hp E. do 2 apply bind_Fault. by eapply length_Fault.
  - intros p l ds Hp E. eapply tries_asserted; [done..|]. by eapply append_text_tries.
Qed.

Lemma append_span_meets t n cs s : holds C cs s ->
  meets C (step C (TryAppendSpan t n) cs) (StringRun.exec h C (TryAppendSpan t n) s) /\
  meets C (step C (AppendSpan t n) cs) (StringRun.exec h C (AppendSpan t n) s).
Proof.
  intros Hs. destruct (source_span C t n cs s Hs) as (p & ds & Ep & En & Hv & Hu). cbn [step]. rewrite !Hv.
  pose proof (append_tries C p ds cs s Hs Hu) as Ht.
  split; unfold StringRun.exec, StringRun.bool_of, StringRun.unit_of, StringRun.with_span_ptr;
    rewrite bind_assoc, (bind_Ret _ _ _ _ _ Ep), bind_assoc, (bind_Ret _ _ _ _ _ En).
  - by apply tries_meets.
  - by eapply tries_asserted.
Qed.

Lemma read_meets (i : nat) cs s (m : M fstring Z) (b : bool) x :
  holds C cs s -> m s = (metl_assert h b ;;; FixedString.load (Z.of_nat i)) s ->
  x = cs !! i -> b = bool_decide (is_Some x) ->
  meets C (read x cs) (StringRun.int_of m s).
Proof.
  intros Hs Em -> ->. unfold StringRun.int_of, bind at 1. rewrite Em.
  destruct (cs !! i) as [ch|] eqn:Ei; cbn [read].
  - rewrite bool_decide_eq_true_2 by eauto. mstep. rewrite (char_at C i ch cs s Hs Ei). by exists s.
  - rewrite bool_decide_eq_false_2 by (by intros (? & ?)). by rewrite (bind_Trap _ _ _ (metl_assert_false h s checked)).
Qed.

Lemma last_lookup_length cs : list.last cs = cs !! (length cs - 1)%nat.
Proof. rewrite last_lookup. f_equal. lia. Qed.

Lemma pop_back_meets cs s : holds C cs s -> meets C (step C PopBack cs) (StringRun.exec h C PopBack s).
Proof.
  intros Hs. unfold StringRun.exec, StringRun.unit_of, FixedString.pop_back. rewrite bind_assoc.
  destruct cs as [|ch cs _] using rev_ind; cbn [step].
  - destruct Hs as (_ & Hsz & _). unfold FixedString.try_remove_last, FixedString.empty. rewrite bind_assoc. mstep.
    rewrite Hsz. change (Z.of_nat (length (@nil Z)) =? 0) with true. cbv iota. mstep. by rewrite (bind_Trap _ _ _ (metl_assert_false h s checked)).
  - destruct (remove_last_some C cs ch s Hs) as (s' & E & Hs'). rewrite (bind_Ret _ _ _ _ _ E).
    rewrite (bind_Ret _ _ _ _ _ (metl_assert_true h s')), length_app. cbn.
    destruct (cs ++ [ch]) as [|x l] eqn:El; [by destruct cs|]. exists s'. split; [done|]. rewrite <- El.
    rewrite take_app_le, firstn_all2 by lia. done.
Qed.

Lemma set_at_meets (i : nat) ch cs s :
  holds C cs s -> meets C (step C (SetAt i ch) cs) (StringRun.exec h C (SetAt i ch) s).
Proof.
  intros Hs. pose proof Hs as (Hl & Hsz & _). pose proof (holds_bound C cs s Hs).
  unfold StringRun.exec, StringRun.unit_of, FixedString.set_at. rewrite bind_assoc. mstep. rewrite Hsz, bind_assoc.
  cbn [step]. destruct (Nat.ltb_spec i (length cs)); zbool.
  - mstep. rewrite (bind_Ret _ _ _ _ _ (store_char i ch s ltac:(lia))). eexists. split; [done|]. by apply set_char.
  - by rewrite (bind_Trap _ _ _ (metl_assert_false h s checked)).
Qed.

Lemma string_exec_meets o cs s : holds C cs s -> meets C (step C o cs) (StringRun.exec h C o s).
Proof.
  intros Hs. pose proof Hs as (Hl & Hsz & Hst). pose proof (holds_bound C cs s Hs). destruct (capacity_bounds C).
  destruct o as [ch|ch| | |t|t|t|t|t n|t n|i|i ch| | | | | |r t|r t| |].
  - by apply tries_meets, push_tries.
  - by apply (tries_asserted h C _ _ cs), push_tries.
  - by apply pop_back_meets.
  - unfold StringRun.exec, StringRun.unit_of, FixedString.clear. rewrite bind_assoc. mstep.
    rewrite (bind_Ret _ _ _ _ _ (store_char 0 0 (set_fsize 0 s) ltac:(cbn; lia))). eexists. split; [done|].
    split; [cbn; by rewrite length_insert|]. split; [done|]. cbn.
    destruct (fstorage_ s) as [|x st]; [cbn in Hl; lia|]. by exists st.
  - by apply assign_meets.
  - by apply assign_meets.
  - by apply append_meets.
  - by apply append_meets.
  - by apply append_span_meets.
  - by apply append_span_meets.
  - eapply (read_meets i); [done|unfold FixedString.at_; by mstep|done|]. rewrite Hsz.
    case_bool_decide as Hi; [apply lookup_lt_is_Some_1 in Hi|rewrite lookup_lt_is_Some in Hi]; by zbool.
  - by apply set_at_meets.
  - eapply (read_meets 0); [done|unfold FixedString.front; by mstep|by destruct cs|]. rewrite Hsz. by destruct cs.
  - apply (read_meets (length cs - 1) cs s _ (0 <? fsize_ s)); [done| |apply last_lookup_length|].
    + unfold FixedString.back. mstep. rewrite Hsz. destruct cs as [|x cs].
      * cbn. rewrite !(bind_Trap _ _ _ (metl_assert_false h s checked)). done.
      * cbn [length] in *. rewrite wrap_small by lia.
        by replace (Z.of_nat (S (length cs)) - 1) with (Z.of_nat (S (length cs) - 1)) by lia.
    + rewrite Hsz, last_lookup_length. case_bool_decide as Hi; [apply lookup_lt_is_Some_1 in Hi|rewrite lookup_lt_is_Some in Hi]; by zbool.
  - exists s. split; [|done]. cbn. unfold bind, get, ret, size. by rewrite Hsz.
  - exists s. split; [|done]. cbn. unfold bind, get, ret, FixedString.empty, size. by rewrite Hsz.
  - exists s. split; [|done]. cbn. unfold bind, get, ret, FixedString.full, size. by rewrite Hsz.
  - by apply compare_op_meets.
  - by apply compare_op_c_meets.
  - pose proof (inside_shown C 0 cs s Hs ltac:(lia)) as [_ _ _ Hlen _]. cbn in Hlen |- *.
    destruct (c_string_terminated cs) as (ds & E). rewrite drop_0, E in *. exists s. split; [|done].
    unfold StringRun.int_of. by rewrite (bind_Ret _ _ _ _ _ Hlen).
  - exists s. split; [|done]. unfold StringRun.exec, StringRun.int_of, FixedString.hash. rewrite bind_assoc. mstep.
    rewrite Hsz, Nat2Z.id, bind_assoc. by rewrite (bind_Ret _ _ _ _ _ (bytes_of C cs s 0 cs Hs eq_refl)).
Qed.

Lemma string_run_refines ops : forall cs s,
  holds C cs s -> StringRun.run h C ops s = Some (StringSpec.run C ops cs).
Proof.
  induction ops as [|o ops IH]; intros cs s Hs; cbn [StringRun.run StringSpec.run].
  - unfold StringRun.contents. destruct Hs as (_ & -> & junk & ->). by rewrite Nat2Z.id, take_app_length.
  - pose proof (string_exec_meets o cs s Hs) as Hm. destruct (step C o cs) as [x cs'| |]; cbn in Hm; [|by rewrite Hm..].
    destruct Hm as (s' & -> & Hs'). by rewrite (IH cs' s' Hs').
Qed.
End exec_facts.

(** *** Two strings *)

Section pair_facts.
  Context `{SizeT} (h : hardening) (C1 C2 : Z).
  Implicit Types (cs ds : list Z) (s : fstring).

Lemma on_both {A B} (m1 : M fstring A) (m2 : M fstring A) (k : A -> A -> M (fstring * fstring) B) s1 s2 a1 a2 :
  m1 s1 = Ret a1 s1 -> m2 s2 = Ret a2 s2 ->
  (let! x := on_fst m1 in let! y := on_snd m2 in k x y) (s1, s2) = k a1 a2 (s1, s2).
Proof.
  intros E1 E2. rewrite (bind_Ret _ _ _ _ _ (on_fst_Ret m1 (s1, s2) a1 s1 E1)).
  by rewrite (bind_Ret _ _ _ _ _ (on_snd_Ret m2 (s1, s2) a2 s2 E2)).
Qed.

Lemma equal_loop_spec (item : Z -> M fstring Z) cs1 : forall cs2 s1 s2 (i : nat) all1 all2,
  (forall j ch, all1 !! j = Some ch -> item (Z.of_nat j) s1 = Ret ch s1) ->
  (forall j ch, all2 !! j = Some ch -> item (Z.of_nat j) s2 = Ret ch s2) ->
  drop i all1 = cs1 -> drop i all2 = cs2 -> length cs1 = length cs2 ->
  FixedString.equal_loop item (length cs1) (Z.of_nat i) (s1, s2) = Ret (bool_decide (cs1 = cs2)) (s1, s2).
Proof.
  induction cs1 as [|x cs1 IH]; intros [|y cs2] s1 s2 i all1 all2 H1 H2 D1 D2 Hlen; try done.
  cbn [length FixedString.equal_loop].
  assert (all1 !! i = Some x) as L1 by (by rewrite <- (Nat.add_0_r i), <- lookup_drop, D1).
  assert (all2 !! i = Some y) as L2 by (by rewrite <- (Nat.add_0_r i), <- lookup_drop, D2).
  rewrite (on_both _ _ _ _ _ _ _ (H1 _ _ L1) (H2 _ _ L2)).
  destruct (Z.eqb_spec x y) as [->|Hne]; cbn [negb].
  - replace (Z.of_nat i + 1) with (Z.of_nat (S i)) by lia.
    rewrite (drop_S _ _ _ L1) in D1. rewrite (drop_S _ _ _ L2) in D2. simplify_eq.
    rewrite (IH (drop (S i) all2) s1 s2 (S i) all1 all2 H1 H2 eq_refl eq_refl) by (by cbn in Hlen; lia).
    f_equal. apply bool_decide_ext. split; [by intros ->|by intros [=]].
  - rewrite bool_decide_eq_false_2; [done|]. by intros [= ? _].
Qed.

Lemma equal_by_spec item cs1 cs2 s1 s2 :
  holds C1 cs1 s1 -> holds C2 cs2 s2 ->
  (forall j ch, cs1 !! j = Some ch -> item (Z.of_nat j) s1 = Ret ch s1) ->
  (forall j ch, cs2 !! j = Some ch -> item (Z.of_nat j) s2 = Ret ch s2) ->
  FixedString.equal_by item (s1, s2) = Ret (bool_decide (cs1 = cs2)) (s1, s2).
Proof.
  intros (_ & Z1 & _) (_ & Z2 & _) H1 H2. unfold FixedString.equal_by.
  rewrite (on_both (get fsize_) (get fsize_) _ s1 s2 _ _ eq_refl eq_refl), Z1, Z2, Nat2Z.id.
  destruct (Z.eqb_spec (Z.of_nat (length cs1)) (Z.of_nat (length cs2))); cbn [negb].
  - apply (equal_loop_spec item cs1 cs2 s1 s2 0 cs1 cs2); try done. lia.
  - rewrite bool_decide_eq_false_2; [done|]. by intros ->.
Qed.

Lemma order_loop_spec {A} (d : Z -> Z -> A) (conv : comparison -> A) cs1 : forall cs2 s1 s2 (i : nat) all1 all2,
  (forall x y, d x y = conv (x ?= y)) ->
  holds C1 all1 s1 -> holds C2 all2 s2 -> (i <= length all1)%nat -> (i <= length all2)%nat ->
  drop i all1 = cs1 -> drop i all2 = cs2 ->
  FixedString.order_loop h d (Nat.min (length cs1) (length cs2)) (Z.of_nat i) (s1, s2) =
    Ret (conv (lexicographic cs1 cs2)) (s1, s2).
Proof.
  assert (forall cs1 cs2 s1 s2 (i : nat) all1 all2,
    (forall x y, d x y = conv (x ?= y)) -> holds C1 all1 s1 -> holds C2 all2 s2 ->
    (i <= length all1)%nat -> (i <= length all2)%nat ->
    drop i all1 = cs1 -> drop i all2 = cs2 -> cs1 = [] \/ cs2 = [] ->
    FixedString.order_loop h d 0 (Z.of_nat i) (s1, s2) = Ret (conv (lexicographic cs1 cs2)) (s1, s2)) as Hbase.
  { intros l1 l2 s1 s2 i all1 all2 Hd (_ & Z1 & _) (_ & Z2 & _) I1 I2 D1 D2 Hnil. cbn [FixedString.order_loop].
    rewrite (on_both (get fsize_) (get fsize_) _ s1 s2 _ _ eq_refl eq_refl), Z1, Z2, Hd. unfold ret. do 2 f_equal.
    apply (f_equal length) in D1, D2. rewrite length_drop in D1, D2.
    destruct l1 as [|x1 l1], l2 as [|x2 l2]; cbn in *; [apply Z.compare_eq_iff|apply Z.compare_lt_iff|apply Z.compare_gt_iff|]; try lia.
    by destruct Hnil. }
  induction cs1 as [|x cs1 IH]; intros cs2 s1 s2 i all1 all2 Hd H1 H2 I1 I2 D1 D2.
  { apply (Hbase [] cs2 s1 s2 i all1 all2); auto. }
  destruct cs2 as [|y cs2]. { apply (Hbase (x :: cs1) [] s1 s2 i all1 all2); auto. }
  cbn [length Nat.min FixedString.order_loop lexicographic].
  assert (all1 !! i = Some x) as L1 by (by rewrite <- (Nat.add_0_r i), <- lookup_drop, D1).
  assert (all2 !! i = Some y) as L2 by (by rewrite <- (Nat.add_0_r i), <- lookup_drop, D2).
  pose proof (lookup_lt_Some _ _ _ L1). pose proof (lookup_lt_Some _ _ _ L2).
  rewrite (on_both _ _ _ _ _ _ _ (at_char h C1 i x all1 s1 H1 L1) (at_char h C2 i y all2 s2 H2 L2)), Hd.
  unfold FixedString.unsigned_char. fold (byte x) (byte y).
  destruct (Z.compare_spec (byte x) (byte y)); zbool; cbn [negb]; [|done|done].
  replace (Z.of_nat i + 1) with (Z.of_nat (S i)) by lia.
  rewrite (drop_S _ _ _ L1) in D1. rewrite (drop_S _ _ _ L2) in D2. simplify_eq.
  by apply (IH (drop (S i) all2) s1 s2 (S i) all1 all2); [..|lia|lia| |].
Qed.

Lemma order_by_spec {A} (d : Z -> Z -> A) (conv : comparison -> A) cs1 cs2 s1 s2 :
  (forall x y, d x y = conv (x ?= y)) -> holds C1 cs1 s1 -> holds C2 cs2 s2 ->
  FixedString.order_by h d (s1, s2) = Ret (conv (lexicographic cs1 cs2)) (s1, s2).
Proof.
  intros Hd H1 H2. pose proof H1 as (_ & Z1 & _). pose proof H2 as (_ & Z2 & _). unfold FixedString.order_by.
  rewrite (on_both (get fsize_) (get fsize_) _ s1 s2 _ _ eq_refl eq_refl), Z1, Z2.
  replace (Z.to_nat _) with (Nat.min (length cs1) (length cs2)).
  - apply (order_loop_spec d conv cs1 cs2 s1 s2 0 cs1 cs2); try done; lia.
  - destruct (Z.ltb_spec (Z.of_nat (length cs1)) (Z.of_nat (length cs2))); lia.
Qed.

Lemma lexicographic_eq lo cs1 cs2 :
  Forall (fun ch => lo <= ch < lo + 2 ^ 8) cs1 -> Forall (fun ch => lo <= ch < lo + 2 ^ 8) cs2 ->
  lexicographic cs1 cs2 = Eq <-> cs1 = cs2.
Proof.
  intros F1. revert cs2. induction F1 as [|x cs1 Hx F1 IH]; intros [|y cs2] F2; cbn [lexicographic]; try done.
  inversion F2 as [|? ? Hy F2']; subst; clear F2; rename F2' into F2. destruct (Z.compare_spec (x mod 2 ^ 8) (y mod 2 ^ 8)) as [E|E|E].
  - rewrite (IH cs2 F2). assert (x = y) as -> by (Z.div_mod_to_equations; lia). split; [by intros ->|by intros [=]].
  - split; [done|]. intros ?. simplify_eq. lia.
  - split; [done|]. intros ?. simplify_eq. lia.
Qed.
End pair_facts.

Section swap_facts.
  Context (C : Z).
  Implicit Types (cs ds : list Z) (s : fstring).

Definition swapped_to (i : nat) s1 s2 : fstring * fstring :=
  (mk_fstring (take i (fstorage_ s2) ++ drop i (fstorage_ s1)) (fsize_ s1),
   mk_fstring (take i (fstorage_ s1) ++ drop i (fstorage_ s2)) (fsize_ s2)).

Lemma swap_step (i : nat) s1 s2 :
  length (fstorage_ s1) = length (fstorage_ s2) -> (i < length (fstorage_ s1))%nat ->
  (let! ch := on_fst (FixedString.load (Z.of_nat i)) in
   let! other := on_snd (FixedString.load (Z.of_nat i)) in
   on_fst (FixedString.store (Z.of_nat i) other) ;;;
   on_snd (FixedString.store (Z.of_nat i) ch)) (swapped_to i s1 s2) = Ret tt (swapped_to (S i) s1 s2).
Proof.
  intros Hl Hi. destruct (lookup_lt_is_Some_2 (fstorage_ s1) i) as (x & Hx); [done|].
  destruct (lookup_lt_is_Some_2 (fstorage_ s2) i) as (y & Hy); [lia|].
  unfold swapped_to. erewrite on_both; [|apply load_char; cbn; rewrite take_drop_lookup by lia; done..].
  erewrite bind_Ret; [|apply on_fst_Ret, store_char; cbn; rewrite length_app, length_take, length_drop; lia].
  erewrite on_snd_Ret; [|apply store_char; cbn; rewrite length_app, length_take, length_drop; lia].
  cbn. rewrite (take_drop_insert _ _ i y x), (take_drop_insert _ _ i x y) by done. done.
Qed.

(** The characters and the terminator go over once the loop is past them. *)
Lemma swapped_holds (n : nat) cs st1 st2 :
  Z.of_nat (length st2) = C + 1 -> length st1 = length st2 -> (exists junk, st2 = cs ++ 0 :: junk) ->
  (length cs < n)%nat -> (n <= length st1)%nat ->
  holds C cs (mk_fstring (take n st2 ++ drop n st1) (Z.of_nat (length cs))).
Proof.
  intros Hl Heq (junk & ->) Hn Hn'. split; [cbn; rewrite (length_app (take _ _)), length_take, length_drop; lia|]. split; [done|].
  exists (take (n - S (length cs)) junk ++ drop n st1). cbn. rewrite take_app, (take_ge cs) by lia.
  replace (n - length cs)%nat with (S (n - S (length cs))) by lia. cbn. by rewrite <- app_assoc.
Qed.

Lemma swap_exchanges cs1 cs2 s1 s2 :
  holds C cs1 s1 -> holds C cs2 s2 ->
  exists s1' s2', FixedString.swap (s1, s2) = Ret tt (s1', s2') /\ holds C cs2 s1' /\ holds C cs1 s2'.
Proof.
  intros H1 H2. pose proof (holds_bound C cs1 s1 H1). pose proof (holds_bound C cs2 s2 H2).
  destruct H1 as (L1 & Z1 & J1). destruct H2 as (L2 & Z2 & J2). unfold FixedString.swap.
  rewrite (on_both (get fsize_) (get fsize_) _ s1 s2 _ _ eq_refl eq_refl).
  set (n := S (Nat.max (length cs1) (length cs2))).
  replace (Z.to_nat _) with n.
  2: { unfold n. destruct (Z.ltb_spec (fsize_ s1) (fsize_ s2)); lia. }
  match goal with |- context [for_up n 0 ?b] =>
    destruct (for_up_inv (fun i p => p = swapped_to (Z.to_nat i) s1 s2) b n 0 (s1, s2)) as (p & E & ->) end.
  - unfold swapped_to. cbn. by destruct s1, s2.
  - intros i p Hi ->. destruct (Z_of_nat_complete i) as (k & ->); [lia|]. rewrite Nat2Z.id.
    eexists. split; [apply swap_step; lia|]. f_equal. lia.
  - rewrite Z.add_0_l, Nat2Z.id in E. rewrite (bind_Ret _ _ _ _ _ E). eexists _, _. split; [done|]. cbn.
    rewrite Z1, Z2. split; apply swapped_holds; unfold n; try done; lia.
Qed.
End swap_facts.

(** ** Theorems *)

Lemma fresh_string_holds C : 0 <= C -> holds C [] (FixedString.fixed_string C).
Proof.
  intros HC. unfold FixedString.fixed_string.
  replace (Z.to_nat (C + 1)) with (S (Z.to_nat C)) by lia.
  split; [cbn; rewrite length_replicate; lia|]. split; [done|]. by exists (replicate (Z.to_nat C) 0).
Qed.

(** C27. [fixed_string] is a bounded sequence of characters with a NUL behind it.
    Whatever the operations, with checks on, a string ends with the results and the
    characters of the abstract string: what does not fit is reported and changes
    nothing, or stops the program; a null pointer stops it; an argument may point
    into the string itself, which is then appended to or assigned from as it was; a
    scan never ends past the NUL of a terminated argument, and leaves the array only
    when there is none; and the comparisons with C strings are the unsigned
    lexicographic order. *)
Theorem fixed_string_refines `{SizeT} (h : hardening) (C : Z) `{!CapacityOk C} (ops : list op) :
  h <> HARDENING_NONE ->
  StringRun.run h C ops (FixedString.fixed_string C) = Some (StringSpec.run C ops []) /\
  (forall cs s, holds C cs s -> StringRun.run h C ops s = Some (StringSpec.run C ops cs)) /\
  (forall chars, meets C (with_text (Elsewhere chars) [] (become C))
     (StringRun.unit_of (FixedString.from_text h C (Foreign chars)) (FixedString.fixed_string C))).
Proof.
  intros Hh. pose proof (fresh_string_holds C (proj1 CapacityOk0)) as Hfresh. split; [by apply string_run_refines|].
  split; [intros cs s; by apply string_run_refines|]. intros chars.
  exact (proj2 (assign_meets h C Hh (Elsewhere chars) [] _ Hfresh)).
Qed.

Lemma fixed_string_refines_witness :
  StringRun.run (H := size_t_32) HARDENING_FAST 5
    [Append (Elsewhere [97; 98; 0; 99]); TryAppend (Inside 0); TryAppend (Inside 1); Compare LT (Elsewhere [97; 98; 255; 0]);
     AppendSpan (Inside 3) 9; PushBack 97] (FixedString.fixed_string 5) =
  Some (Stopped [RUnit; RBool true; RBool false; RBool true; RUnit]).
Proof.
  assert (@CapacityOk size_t_32 5) as Hok by (unfold CapacityOk; cbn; lia).
  assert (HARDENING_FAST <> HARDENING_NONE) as Hh by done.
  rewrite (proj1 (fixed_string_refines (H := size_t_32) HARDENING_FAST 5 _ Hh)). reflexivity.
Defined.

(** two strings, of one capacity or of two, are equal when their characters are,
    and are ordered character by character as unsigned bytes, so that [<=>], [<] and
    the operators made of it agree; on characters of one byte the order is consistent
    with equality; and [swap] exchanges the two. *)
Theorem fixed_string_pairs (h : hardening) (C1 C2 : Z) (cs1 cs2 : list Z) (s1 s2 : fstring) :
  holds C1 cs1 s1 -> holds C2 cs2 s2 ->
  let c := lexicographic cs1 cs2 in
  FixedString.equal_across h (s1, s2) = Ret (bool_decide (cs1 = cs2)) (s1, s2) /\
  FixedString.not_equal_across h (s1, s2) = Ret (negb (bool_decide (cs1 = cs2))) (s1, s2) /\
  FixedString.equal (s1, s2) = Ret (bool_decide (cs1 = cs2)) (s1, s2) /\
  FixedString.not_equal (s1, s2) = Ret (negb (bool_decide (cs1 = cs2))) (s1, s2) /\
  FixedString.three_way h (s1, s2) = Ret c (s1, s2) /\
  FixedString.less_than h (s1, s2) = Ret (related LT c) (s1, s2) /\
  FixedString.greater h (s1, s2) = Ret (related GT c) (s1, s2) /\
  FixedString.less_equal h (s1, s2) = Ret (related LE c) (s1, s2) /\
  FixedString.greater_equal h (s1, s2) = Ret (related GE c) (s1, s2) /\
  (forall lo, Forall (fun ch => lo <= ch < lo + 2 ^ 8) (cs1 ++ cs2) -> (c = Eq <-> cs1 = cs2)) /\
  (C1 = C2 -> exists s1' s2', FixedString.swap (s1, s2) = Ret tt (s1', s2') /\ holds C1 cs2 s1' /\ holds C1 cs1 s2').
Proof.
  intros H1 H2 c.
  assert (FixedString.equal_across h (s1, s2) = Ret (bool_decide (cs1 = cs2)) (s1, s2)) as Ea.
  { apply (equal_by_spec C1 C2); [done|done|..]; intros j ch; by eapply at_char. }
  assert (FixedString.equal (s1, s2) = Ret (bool_decide (cs1 = cs2)) (s1, s2)) as Es.
  { apply (equal_by_spec C1 C2); [done|done|..]; intros j ch; by eapply char_at. }
  assert (forall Ca Cb a b sa sb, holds Ca a sa -> holds Cb b sb ->
    FixedString.less_than h (sa, sb) = Ret (related LT (lexicographic a b)) (sa, sb)) as Hlt.
  { intros Ca Cb a b sa sb Ha Hb. by apply (order_by_spec h Ca Cb Z.ltb (related LT)). }
  assert (FixedString.greater h (s1, s2) = Ret (related GT c) (s1, s2)) as Hgt.
  { unfold FixedString.greater, swapped. cbn [fst snd]. rewrite (Hlt _ _ _ _ _ _ H2 H1), (lexicographic_antisym cs1). fold c. by destruct c. }
  split; [done|]. split; [unfold FixedString.not_equal_across; by mstep|]. split; [done|].
  split; [unfold FixedString.not_equal; by mstep|]. split; [by apply (order_by_spec h C1 C2 Z.compare id)|].
  split; [by eapply Hlt|]. split; [done|].
  split; [unfold FixedString.less_equal; fold (FixedString.greater h); mstep; by destruct c|].
  split; [unfold FixedString.greater_equal; rewrite (bind_Ret _ _ _ _ _ (Hlt _ _ _ _ _ _ H1 H2)); fold c; by destruct c|].
  split; [|intros ->; by apply swap_exchanges].
  intros lo HF. apply Forall_app in HF as [F1 F2]. by apply (lexicographic_eq lo).
Qed.

Lemma fixed_string_pairs_witness :
  let s1 := mk_fstring [97; 200; 0; 7] 2 in let s2 := mk_fstring [97; 98; 99; 0] 3 in
  holds 3 [97; 200] s1 /\ holds 3 [97; 98; 99] s2 /\
  FixedString.greater HARDENING_FAST (s1, s2) = Ret true (s1, s2).
Proof.
  intros s1 s2. assert (holds 3 [97; 200] s1) as H1 by (split; [done|split; [done|by exists [7]]]).
  assert (holds 3 [97; 98; 99] s2) as H2 by (split; [done|split; [done|by exists []]]). split; [done|]. split; [done|].
  destruct (fixed_string_pairs HARDENING_FAST 3 3 _ _ s1 s2 H1 H2) as (_ & _ & _ & _ & _ & _ & Hg & _).
  exact Hg.
Defined.
