(* ===== verification/HashTable.v ===== *)
(** * [static_unordered_map] and [static_unordered_set]

    [include/metl/static_unordered_map.hpp] and [static_unordered_set.hpp]: open
    addressing with linear probing in a table whose size is a power of two.  The
    two headers have the same machinery; [HashTable] is it, over entries [V] with a
    key [key_of], and [UnorderedMap] and [UnorderedSet] are the two classes.

    The state of a slot is two bits, in the bitsets [occupied_] and [tombstone_]
    of [Bits].  A call of the hasher or of the key comparison, the construction or
    assignment of an element and a call of the predicate of [erase_if] may throw:
    [bthrows_] is the environment's script, for each of these still to come, and
    after its end none do.  [rebuild_cannot_throw] is the constant of that name; the
    element moves of a rebuild and of [swap] leave [moved] behind, and those of the
    rebuild do not throw.  The result of [detail::hash_key] for a key of type [Q] is
    the class [Hasher]; [key_equal_(k, q)] is the class [KeyEqual].

    A probe takes [bucket_count] turns, as the loops of the code do; the loops of
    the rebuild, which have no bound of their own, have that much fuel. *)

From Stdlib Require Import ZArith Lia.
From stdpp Require Import base numbers list option tactics.
From S2P Require Import Prelude Bits Hash.
Local Open Scope Z_scope.

(** [detail::compute_bucket_count] and the searches of the bitsets call [bit.hpp],
    here by its loops: [bit_ceil_portable] and [countr_zero_portable] of [BitsFacts]
    show that the intrinsics give the same. *)
#[export] Existing Instance Bit.portable.

Inductive slot_state : Set := SEmpty | SOccupied | STombstone.

#[export] Instance slot_state_eq_dec : EqDecision slot_state.
Proof. solve_decision. Defined.

Class Hasher (Hs Q : Type) : Type := hash_key : Hs -> Q -> Z.
Class KeyEqual (Eq K Q : Type) : Type := key_equal : Eq -> K -> Q -> bool.

Record table (Hs Eq V : Type) : Type := mk_table {
  bstorage_ : slots V;
  boccupied_ : list Z;
  btombstone_ : list Z;
  bsize_ : Z;
  btombstones_ : Z;
  bhasher_ : Hs;
  bequal_ : Eq;
  bthrows_ : list bool
}.
Arguments mk_table {Hs Eq V} _ _ _ _ _ _ _ _.
Arguments bstorage_ {Hs Eq V} _.
Arguments boccupied_ {Hs Eq V} _.
Arguments btombstone_ {Hs Eq V} _.
Arguments bsize_ {Hs Eq V} _.
Arguments btombstones_ {Hs Eq V} _.
Arguments bhasher_ {Hs Eq V} _.
Arguments bequal_ {Hs Eq V} _.
Arguments bthrows_ {Hs Eq V} _.

#[export] Instance table_has_slots Hs Eq V : HasSlots (table Hs Eq V) V := {|
  get_slots := bstorage_;
  set_slots st b := mk_table st (boccupied_ b) (btombstone_ b) (bsize_ b) (btombstones_ b)
    (bhasher_ b) (bequal_ b) (bthrows_ b);
  get_set_slots st b := eq_refl
|}.

Section table_setters.
  Context {Hs Eq V : Type}.
  Abbreviation tbl := (table Hs Eq V).
Definition set_boccupied (ws : list Z) (b : tbl) : tbl := mk_table (bstorage_ b) ws (btombstone_ b) (bsize_ b)
  (btombstones_ b) (bhasher_ b) (bequal_ b) (bthrows_ b).
Definition set_btombstone (ws : list Z) (b : tbl) : tbl := mk_table (bstorage_ b) (boccupied_ b) ws (bsize_ b)
  (btombstones_ b) (bhasher_ b) (bequal_ b) (bthrows_ b).
Definition set_bsize (n : Z) (b : tbl) : tbl := mk_table (bstorage_ b) (boccupied_ b) (btombstone_ b) n
  (btombstones_ b) (bhasher_ b) (bequal_ b) (bthrows_ b).
Definition set_btombstones (n : Z) (b : tbl) : tbl := mk_table (bstorage_ b) (boccupied_ b) (btombstone_ b) (bsize_ b)
  n (bhasher_ b) (bequal_ b) (bthrows_ b).
Definition set_bfunctions (hs : Hs) (eq : Eq) (b : tbl) : tbl := mk_table (bstorage_ b) (boccupied_ b) (btombstone_ b)
  (bsize_ b) (btombstones_ b) hs eq (bthrows_ b).
Definition set_bthrows (t : list bool) (b : tbl) : tbl := mk_table (bstorage_ b) (boccupied_ b) (btombstone_ b)
  (bsize_ b) (btombstones_ b) (bhasher_ b) (bequal_ b) t.

(** Calls on the two bitsets. *)
Definition on_occupied {A} (m : M (list Z) A) : M tbl A := fun b =>
  match m (boccupied_ b) with
  | Ret a ws => Ret a (set_boccupied ws b)
  | Throw ws => Throw (set_boccupied ws b)
  | Trap => Trap
  | Fault => Fault
  | Spin => Spin
  end.
Definition on_tombstone {A} (m : M (list Z) A) : M tbl A := fun b =>
  match m (btombstone_ b) with
  | Ret a ws => Ret a (set_btombstone ws b)
  | Throw ws => Throw (set_btombstone ws b)
  | Trap => Trap
  | Fault => Fault
  | Spin => Spin
  end.

(** A step that throws if the script says so. *)
Definition may_throw : M tbl unit :=
  let! t := get bthrows_ in
  modify (set_bthrows (tail t)) ;;;
  match t with true :: _ => throw | _ => ret tt end.
End table_setters.

Module HashTable.
Section hash_table.
  Context `{SizeT} {Hs Eq K V : Type} `{!Hasher Hs K, !KeyEqual Eq K K} (key_of : V -> K).
  Context (h : hardening) (Capacity : Z) (moved : V -> V) (rebuild_cannot_throw : bool).
  Abbreviation tbl := (table Hs Eq V).

(** [detail::compute_bucket_count]. *)
Definition compute_bucket_count (capacity : Z) : option Z :=
  if capacity =? 0 then Some 1 else Bit.bit_ceil size_bits (wrap (capacity * 2)).
Definition bucket_count : Z := default 0 (compute_bucket_count Capacity).
Definition mask : Z := wrap (bucket_count - 1).
Definition npos : Z := wrap (-1).

Definition empty_with (hasher : Hs) (equal : Eq) (throws : list bool) : tbl :=
  mk_table (replicate (Z.to_nat bucket_count) None) (Bitset.fresh bucket_count) (Bitset.fresh bucket_count) 0 0
    hasher equal throws.

Definition empty (b : tbl) : bool := bsize_ b =? 0.
Definition full (b : tbl) : bool := bsize_ b =? Capacity.
Definition size (b : tbl) : Z := bsize_ b.

(** *** Slot states *)

Definition state (index : Z) : M tbl slot_state :=
  let! o := on_occupied (Bitset.test bucket_count index) in
  if o then ret SOccupied
  else let! t := on_tombstone (Bitset.test bucket_count index) in ret (if t then STombstone else SEmpty).

Definition set_state (index : Z) (next : slot_state) : M tbl unit :=
  on_occupied (if decide (next = SOccupied) then Bitset.set bucket_count index else Bitset.reset bucket_count index) ;;;
  on_tombstone (if decide (next = STombstone) then Bitset.set bucket_count index else Bitset.reset bucket_count index).

Definition destroy_at (index : Z) (next : slot_state) : M tbl unit :=
  set_state index next ;;;
  modify (fun b => set_bsize (wrap (bsize_ b - 1)) b) ;;;
  (if decide (next = STombstone) then modify (fun b => set_btombstones (wrap (btombstones_ b + 1)) b) else ret tt) ;;;
  slot_destroy index.

Definition clear : M tbl unit :=
  for_up (Z.to_nat bucket_count) 0 (fun i =>
    let! s := state i in
    if decide (s = SOccupied) then destroy_at i SEmpty else set_state i SEmpty) ;;;
  modify (set_btombstones 0).

(** *** Probing *)

Section lookup.
  Context {Q : Type} `{!Hasher Hs Q, !KeyEqual Eq K Q}.

Definition bucket_index (key : Q) : M tbl Z :=
  may_throw ;;;
  let! hs := get bhasher_ in
  ret (Z.land (Hash.hash_mix (hash_key hs key)) mask).

(** [key_equal_(slot_value(index)->key, key)]. *)
Definition equals_at (index : Z) (key : Q) : M tbl bool :=
  let! e := slot_ref index in
  may_throw ;;;
  let! eq := get bequal_ in
  ret (key_equal eq (key_of e) key).

Fixpoint find_probe (n : nat) (start probe : Z) (key : Q) : M tbl Z :=
  match n with
  | O => ret npos
  | S n' =>
      let index := Z.land (wrap (start + probe)) mask in
      let! s := state index in
      if decide (s = SEmpty) then ret npos
      else
        let! s := state index in
        let! found := (if decide (s = SOccupied) then equals_at index key else ret false) in
        if found then ret index else find_probe n' start (probe + 1) key
  end.
Definition find_existing_index (key : Q) : M tbl Z :=
  if Capacity =? 0 then ret npos
  else let! start := bucket_index key in find_probe (Z.to_nat bucket_count) start 0 key.

Definition contains (key : Q) : M tbl bool :=
  let! index := find_existing_index key in ret (negb (index =? npos)).

(** [find]: the slot of the element, for [nullptr] [None]. *)
Definition find (key : Q) : M tbl (option Z) :=
  let! index := find_existing_index key in
  if index =? npos then ret None else slot_ref index ;;; ret (Some index).

(** [find_iterator]: [skip_to_occupied] runs on the index. *)
Definition find_iterator (key : Q) : M tbl Z :=
  let! index := find_existing_index key in
  on_occupied (Bitset.find_next_set bucket_count (if index =? npos then bucket_count else index)).

Definition erase (key : Q) : M tbl bool :=
  let! index := find_existing_index key in
  if index =? npos then ret false else destroy_at index STombstone ;;; ret true.
End lookup.

(** [Some index] is [true] with [*index_out = index]. *)
Fixpoint locate_probe (n : nat) (start probe first_tombstone : Z) (key : K) : M tbl (option Z) :=
  match n with
  | O => ret (if negb (first_tombstone =? npos) then Some first_tombstone else None)
  | S n' =>
      let index := Z.land (wrap (start + probe)) mask in
      let! s := state index in
      if decide (s = SEmpty) then ret (Some (if negb (first_tombstone =? npos) then first_tombstone else index))
      else
        let! s := state index in
        if decide (s = STombstone) then
          locate_probe n' start (probe + 1) (if first_tombstone =? npos then index else first_tombstone) key
        else
          let! b := equals_at index key in
          if b then ret (Some index) else locate_probe n' start (probe + 1) first_tombstone key
  end.
Definition locate_insert_index (key : K) : M tbl (option Z) :=
  if Capacity =? 0 then ret None
  else let! start := bucket_index key in locate_probe (Z.to_nat bucket_count) start 0 npos key.

(** *** The rebuild *)

(** The handler: every slot that is not empty holds an object. *)
Definition abandon : M tbl unit :=
  for_up (Z.to_nat bucket_count) 0 (fun i =>
    let! s := state i in
    if decide (s = SEmpty) then ret tt else slot_destroy i ;;; set_state i SEmpty) ;;;
  modify (set_bsize 0) ;;;
  modify (set_btombstones 0).

Definition bucket_during_rebuild (carry : V) : M tbl Z := guarded (bucket_index (key_of carry)) abandon.

Fixpoint skip_occupied (fuel : nat) (target : Z) : M tbl Z :=
  let! s := state target in
  if decide (s = SOccupied) then
    match fuel with
    | O => fun _ => Spin
    | S fuel' => skip_occupied fuel' (Z.land (wrap (target + 1)) mask)
    end
  else ret target.

(** The loop that places [carry], and whatever that displaces. *)
Fixpoint place_carry (fuel : nat) (carry : V) : M tbl unit :=
  match fuel with
  | O => fun _ => Spin
  | S fuel' =>
      let! start := bucket_during_rebuild carry in
      let! target := skip_occupied (Z.to_nat bucket_count) start in
      let! s := state target in
      if decide (s = SEmpty) then
        slot_construct target carry ;;;
        on_occupied (Bitset.set bucket_count target)
      else
        let! displaced := slot_move_out moved target in
        slot_destroy target ;;;
        slot_construct target carry ;;;
        on_tombstone (Bitset.reset bucket_count target) ;;;
        on_occupied (Bitset.set bucket_count target) ;;;
        place_carry fuel' displaced
  end.

Definition rehash_in_place : M tbl unit :=
  if Capacity =? 0 then ret tt
  else
    modify (fun b => set_btombstone (boccupied_ b) b) ;;;
    on_occupied (Bitset.reset_all bucket_count) ;;;
    modify (set_btombstones 0) ;;;
    for_up (Z.to_nat bucket_count) 0 (fun i =>
      let! unplaced := on_tombstone (Bitset.test bucket_count i) in
      if negb unplaced then ret tt
      else
        let! carry := slot_move_out moved i in
        slot_destroy i ;;;
        on_tombstone (Bitset.reset bucket_count i) ;;;
        place_carry (Z.to_nat bucket_count) carry).

(** *** Insertion

    [entry] builds the element from the arguments: it may throw, and it may read
    an element of this table. *)

Definition place_at (index : Z) (entry : M tbl V) : M tbl unit :=
  metl_harden (index <? bucket_count) ;;;
  let! e := entry in
  slot_construct index e ;;;
  let! s := state index in
  (if decide (s = STombstone) then modify (fun b => set_btombstones (wrap (btombstones_ b - 1)) b) else ret tt) ;;;
  set_state index SOccupied ;;;
  modify (fun b => set_bsize (wrap (bsize_ b + 1)) b).

Definition construct_at (index : Z) (entry : M tbl V) : M tbl Z :=
  let! tombstones := get btombstones_ in
  if rebuild_cannot_throw && (bucket_count / 8 <? tombstones) then
    let! e := entry in
    rehash_in_place ;;;
    let! located := locate_insert_index (key_of e) in
    let index := default npos located in
    metl_harden (index <? bucket_count) ;;;
    slot_construct index e ;;;
    set_state index SOccupied ;;;
    modify (fun b => set_bsize (wrap (bsize_ b + 1)) b) ;;;
    ret index
  else place_at index entry ;;; ret index.

Definition try_emplace (key : K) (entry : M tbl V) : M tbl bool :=
  let! located := locate_insert_index key in
  match located with
  | None => ret false
  | Some index =>
      let! s := state index in
      if decide (s = SOccupied) then ret false
      else
        let! n := get bsize_ in
        if Capacity <=? n then ret false else construct_at index entry ;;; ret true
  end.

(** The part that [emplace] and [operator[]] share, for a key that is absent. *)
Definition emplace_new (key : K) (entry : M tbl V) : M tbl Z :=
  let! n := get bsize_ in
  metl_harden (n <? Capacity) ;;;
  let! located := locate_insert_index key in
  let index := default npos located in
  metl_assert h (match located with Some _ => true | None => false end) ;;;
  (match h with
   | HARDENING_NONE => ret tt
   | _ => let! s := state index in metl_assert h (negb (bool_decide (s = SOccupied)))
   end) ;;;
  let! index := construct_at index entry in
  slot_ref index ;;;
  ret index.

(** The result is the slot of the element that the reference names. *)
Definition emplace (key : K) (entry : M tbl V) : M tbl Z :=
  let! existing := find_existing_index key in
  if negb (existing =? npos) then slot_ref existing ;;; ret existing else emplace_new key entry.

(** *** Iteration: an iterator is the index of a slot *)

Definition end_ : Z := bucket_count.
Definition begin_ : M tbl Z := on_occupied (Bitset.find_next_set bucket_count 0).
Definition next (index : Z) : M tbl Z := on_occupied (Bitset.find_next_set bucket_count (index + 1)).

(** [erase(const_iterator)]; [own] is whether the iterator is into this table. *)
Definition erase_at (own : bool) (index : Z) : M tbl Z :=
  let! valid :=
    (if own && (index <? bucket_count) then let! s := state index in ret (bool_decide (s = SOccupied))
     else ret false) in
  metl_harden valid ;;;
  destroy_at index STombstone ;;;
  next index.

Fixpoint erase_loop (fuel : nat) (pred : V -> bool) (it erased : Z) : M tbl Z :=
  if it =? end_ then ret erased
  else
    match fuel with
    | O => fun _ => Spin
    | S fuel' =>
        let! e := slot_ref it in
        may_throw ;;;
        if pred e then
          let! it' := erase_at true it in erase_loop fuel' pred it' (wrap (erased + 1))
        else
          let! it' := next it in erase_loop fuel' pred it' erased
    end.
Definition erase_if (pred : V -> bool) : M tbl Z :=
  let! it := begin_ in erase_loop (Z.to_nat bucket_count) pred it 0.

(** *** Two tables

    The script that decides is that of the first, [*this].  A step that throws
    leaves the objects it was about to change as [torn] or [torn_hasher] or
    [torn_equal] says. *)

Section two_tables.
  Context (torn_hasher : Hs -> Hs) (torn_equal : Eq -> Eq).

Definition set_hasher (hs : Hs) : M tbl unit := modify (fun b => set_bfunctions hs (bequal_ b) b).
Definition set_equal (eq : Eq) : M tbl unit := modify (fun b => set_bfunctions (bhasher_ b) eq b).
Definition tear_hasher : M tbl unit := let! hs := get bhasher_ in set_hasher (torn_hasher hs).
Definition tear_equal : M tbl unit := let! eq := get bequal_ in set_equal (torn_equal eq).

(** [for (item : other) emplace(item...)]; [take] is how the item is read:
    copied, or moved from. *)
Fixpoint insert_all (fuel : nat) (take torn : V -> V) (it : Z) : M (tbl * tbl) unit :=
  if it =? end_ then ret tt
  else
    match fuel with
    | O => fun _ => Spin
    | S fuel' =>
        let! e := on_snd (slot_ref it) in
        let! existing := on_fst (find_existing_index (key_of e)) in
        (if negb (existing =? npos) then on_fst (slot_ref existing) ;;; ret tt
         else
           guarded (on_fst (emplace_new (key_of e) (may_throw ;;; ret e))) (on_snd (slot_assign it (torn e))) ;;;
           on_snd (slot_assign it (take e))) ;;;
        let! it' := on_snd (next it) in
        insert_all fuel' take torn it'
    end.

Definition copy_all : M (tbl * tbl) unit :=
  let! it := on_snd begin_ in insert_all (Z.to_nat bucket_count) (fun e => e) (fun e => e) it.
Definition move_all (torn : V -> V) : M (tbl * tbl) unit :=
  (let! it := on_snd begin_ in insert_all (Z.to_nat bucket_count) moved torn it) ;;;
  on_snd clear.

Definition copy_assign (self : bool) : M (tbl * tbl) unit :=
  if self then ret tt
  else
    on_fst clear ;;;
    let! hs := on_snd (get bhasher_) in
    guarded (on_fst may_throw) (on_fst tear_hasher) ;;;
    on_fst (set_hasher hs) ;;;
    let! eq := on_snd (get bequal_) in
    guarded (on_fst may_throw) (on_fst tear_equal) ;;;
    on_fst (set_equal eq) ;;;
    copy_all.

(** [moved_hasher] and [moved_equal] are what a move leaves of the functions. *)
Definition move_assign (moved_hasher : Hs -> Hs) (moved_equal : Eq -> Eq) (torn : V -> V) (self : bool) : M (tbl * tbl) unit :=
  if self then ret tt
  else
    on_fst clear ;;;
    let! hs := on_snd (get bhasher_) in
    guarded (on_fst may_throw) (on_fst tear_hasher ;;; on_snd tear_hasher) ;;;
    on_snd (set_hasher (moved_hasher hs)) ;;;
    on_fst (set_hasher hs) ;;;
    let! eq := on_snd (get bequal_) in
    guarded (on_fst may_throw) (on_fst tear_equal ;;; on_snd tear_equal) ;;;
    on_snd (set_equal (moved_equal eq)) ;;;
    on_fst (set_equal eq) ;;;
    move_all torn.

(** The loop of [swap_contents]. *)
Definition swap_slot (torn : V -> V -> V) (i : Z) : M (tbl * tbl) unit :=
  let! mine := on_fst (state i) in
  let! theirs := on_snd (state i) in
  match mine, theirs with
  | SOccupied, SOccupied =>
      let! x := on_fst (slot_ref i) in
      let! y := on_snd (slot_ref i) in
      guarded (on_fst may_throw) (on_fst (slot_assign i (torn x y)) ;;; on_snd (slot_assign i (torn y x))) ;;;
      on_fst (slot_assign i y) ;;; on_snd (slot_assign i x)
  | SOccupied, _ =>
      let! x := on_fst (slot_ref i) in
      guarded (on_fst may_throw) (on_fst (slot_assign i (torn x x))) ;;;
      on_fst (slot_assign i (moved x)) ;;;
      on_snd (slot_construct i x) ;;;
      on_fst (set_state i theirs) ;;;
      on_snd (set_state i SOccupied) ;;;
      on_fst (slot_destroy i)
  | _, SOccupied =>
      let! y := on_snd (slot_ref i) in
      guarded (on_fst may_throw) (on_snd (slot_assign i (torn y y))) ;;;
      on_snd (slot_assign i (moved y)) ;;;
      on_fst (slot_construct i y) ;;;
      on_snd (set_state i mine) ;;;
      on_fst (set_state i SOccupied) ;;;
      on_snd (slot_destroy i)
  | _, _ =>
      on_fst (set_state i theirs) ;;;
      on_snd (set_state i mine)
  end.

Definition swap_contents (torn : V -> V -> V) : M (tbl * tbl) unit :=
  let! hs1 := on_fst (get bhasher_) in
  let! hs2 := on_snd (get bhasher_) in
  guarded (on_fst may_throw) (on_fst tear_hasher ;;; on_snd tear_hasher) ;;;
  on_fst (set_hasher hs2) ;;;
  on_snd (set_hasher hs1) ;;;
  let! eq1 := on_fst (get bequal_) in
  let! eq2 := on_snd (get bequal_) in
  guarded (on_fst may_throw) (on_fst tear_equal ;;; on_snd tear_equal) ;;;
  on_fst (set_equal eq2) ;;;
  on_snd (set_equal eq1) ;;;
  for_up (Z.to_nat bucket_count) 0 (swap_slot torn) ;;;
  let! n1 := on_fst (get bsize_) in
  let! n2 := on_snd (get bsize_) in
  on_fst (modify (set_bsize n2)) ;;;
  on_snd (modify (set_bsize n1)) ;;;
  let! t1 := on_fst (get btombstones_) in
  let! t2 := on_snd (get btombstones_) in
  on_fst (modify (set_btombstones t2)) ;;;
  on_snd (modify (set_btombstones t1)).

Definition swap (torn : V -> V -> V) (swap_cannot_throw self : bool) : M (tbl * tbl) unit :=
  if self then ret tt
  else if swap_cannot_throw then swap_contents torn
  else guarded (swap_contents torn)
    (on_fst (clear ;;; modify (set_bsize 0)) ;;; on_snd (clear ;;; modify (set_bsize 0))).
End two_tables.
End hash_table.
End HashTable.

(** [static_unordered_map]: an entry is a key and a value. *)
Module UnorderedMap.
Section unordered_map.
  Context `{SizeT} {Hs Eq K T : Type} `{!Hasher Hs K, !KeyEqual Eq K K}.
  Context (h : hardening) (Capacity : Z) (moved : K * T -> K * T) (rebuild_cannot_throw : bool).
  Abbreviation tbl := (table Hs Eq (K * T)).
  Abbreviation key_of := (@fst K T).

(** [value_type{std::forward<K>(key), std::forward<V>(value)}]. *)
Definition make_entry (key : K) (value : M tbl T) : M tbl (K * T) :=
  let! v := value in may_throw ;;; ret (key, v).

Definition contains {Q} `{!Hasher Hs Q, !KeyEqual Eq K Q} (key : Q) : M tbl bool :=
  HashTable.contains key_of Capacity key.
Definition find {Q} `{!Hasher Hs Q, !KeyEqual Eq K Q} (key : Q) : M tbl (option Z) :=
  HashTable.find key_of Capacity key.
Definition erase {Q} `{!Hasher Hs Q, !KeyEqual Eq K Q} (key : Q) : M tbl bool :=
  HashTable.erase key_of Capacity key.

Definition try_emplace (key : K) (value : M tbl T) : M tbl bool :=
  HashTable.try_emplace key_of Capacity moved rebuild_cannot_throw key (make_entry key value).
Definition emplace (key : K) (value : M tbl T) : M tbl Z :=
  HashTable.emplace key_of h Capacity moved rebuild_cannot_throw key (make_entry key value).

(** [slot_value(existing)->value = std::forward<V>(value)]; an assignment that
    throws leaves [torn]. *)
Definition assign_value (torn : T -> T) (existing : Z) (value : M tbl T) : M tbl unit :=
  let! v := value in
  let! e := slot_ref existing in
  guarded may_throw (slot_assign existing (e.1, torn e.2)) ;;;
  slot_assign existing (e.1, v).

Definition insert_or_assign_impl (torn : T -> T) (key : K) (value : M tbl T) : M tbl Z :=
  let! existing := HashTable.find_existing_index key_of Capacity key in
  if negb (existing =? HashTable.npos) then assign_value torn existing value ;;; ret existing
  else
    let! n := get bsize_ in
    if Capacity <=? n then ret HashTable.npos
    else
      let! located := HashTable.locate_insert_index key_of Capacity key in
      match located with
      | None => ret HashTable.npos
      | Some index =>
          HashTable.construct_at key_of Capacity moved rebuild_cannot_throw index (make_entry key value)
      end.

Definition try_insert_or_assign (torn : T -> T) (key : K) (value : M tbl T) : M tbl bool :=
  let! index := insert_or_assign_impl torn key value in ret (negb (index =? HashTable.npos)).

Definition insert_or_assign (torn : T -> T) (key : K) (value : M tbl T) : M tbl Z :=
  let! index := insert_or_assign_impl torn key value in
  metl_assert h (negb (index =? HashTable.npos)) ;;;
  metl_harden (index <? HashTable.bucket_count Capacity) ;;;
  slot_ref index ;;;
  ret index.

(** [operator[]]; [initial] is [mapped_type{}]. *)
Definition subscript (initial : T) (key : K) : M tbl Z :=
  let! existing := HashTable.find_existing_index key_of Capacity key in
  if negb (existing =? HashTable.npos) then slot_ref existing ;;; ret existing
  else HashTable.emplace_new key_of h Capacity moved rebuild_cannot_throw key (make_entry key (ret initial)).

Definition clear : M tbl unit := HashTable.clear Capacity.
Definition erase_if (pred : K * T -> bool) : M tbl Z := HashTable.erase_if Capacity pred.
End unordered_map.
End UnorderedMap.

(** [static_unordered_set]: an entry is its key. *)
Module UnorderedSet.
Section unordered_set.
  Context `{SizeT} {Hs Eq K : Type} `{!Hasher Hs K, !KeyEqual Eq K K}.
  Context (h : hardening) (Capacity : Z) (moved : K -> K) (rebuild_cannot_throw : bool).
  Abbreviation tbl := (table Hs Eq K).
  Abbreviation key_of := (fun key : K => key).

(** [value_type(std::forward<K>(key))]. *)
Definition make_entry (key : K) : M tbl K := may_throw ;;; ret key.

Definition contains {Q} `{!Hasher Hs Q, !KeyEqual Eq K Q} (key : Q) : M tbl bool :=
  HashTable.contains key_of Capacity key.
Definition find {Q} `{!Hasher Hs Q, !KeyEqual Eq K Q} (key : Q) : M tbl (option Z) :=
  HashTable.find key_of Capacity key.
Definition erase {Q} `{!Hasher Hs Q, !KeyEqual Eq K Q} (key : Q) : M tbl bool :=
  HashTable.erase key_of Capacity key.
Definition try_emplace (key : K) : M tbl bool :=
  HashTable.try_emplace key_of Capacity moved rebuild_cannot_throw key (make_entry key).
Definition emplace (key : K) : M tbl Z :=
  HashTable.emplace key_of h Capacity moved rebuild_cannot_throw key (make_entry key).
Definition clear : M tbl unit := HashTable.clear Capacity.
Definition erase_if (pred : K -> bool) : M tbl Z := HashTable.erase_if Capacity pred.

Definition find_iterator {Q} `{!Hasher Hs Q, !KeyEqual Eq K Q} (key : Q) : M tbl Z :=
  HashTable.find_iterator key_of Capacity key.
Definition erase_at (own : bool) (index : Z) : M tbl Z := HashTable.erase_at Capacity own index.
Definition rehash_in_place : M tbl unit := HashTable.rehash_in_place key_of Capacity moved.
Definition construct_at (index : Z) (key : K) : M tbl Z :=
  HashTable.construct_at key_of Capacity moved rebuild_cannot_throw index (make_entry key).
Definition swap torn_hasher torn_equal torn (swap_cannot_throw self : bool) : M (tbl * tbl) unit :=
  HashTable.swap Capacity moved torn_hasher torn_equal torn swap_cannot_throw self.
Definition copy_assign torn_hasher torn_equal (self : bool) : M (tbl * tbl) unit :=
  HashTable.copy_assign key_of h Capacity moved rebuild_cannot_throw torn_hasher torn_equal self.
Definition move_assign torn_hasher torn_equal moved_hasher moved_equal torn (self : bool) : M (tbl * tbl) unit :=
  HashTable.move_assign key_of h Capacity moved rebuild_cannot_throw torn_hasher torn_equal moved_hasher moved_equal torn self.
End unordered_set.
End UnorderedSet.
