(* ===== verification/HashTableFacts.v ===== *)
(** * Facts on hash tables

    A table as the list of its cells, each a slot and its state; probing,
    inserting, erasing and rebuilding as operations on that list. *)

From Stdlib Require Import ZArith Lia.
From stdpp Require Import base numbers list option tactics.
From S2P Require Import Prelude Bits BitsFacts Hash HashTable.
Local Open Scope Z_scope.

(** ** Bits in their canonical words *)

Section pack.
  Context `{SizeT} (N : Z) (HN : 1 <= N) (HM : N + 31 < 2 ^ size_bits).
  Implicit Types (f g : Z -> bool) (i j k : Z).

Definition pack_word g : Z := foldr (fun j acc => Z.lor (if g j : bool then 2 ^ j else 0) acc) 0 (seqZ 0 32).

Definition pack f : list Z := (fun k => pack_word (fun j => inside N f (32 * k + j))) <$> seqZ 0 (Bitset.word_count N).

Lemma pack_word_bits g l i :
  (forall j, j ∈ l -> 0 <= j) -> 0 <= i ->
  Z.testbit (foldr (fun j acc => Z.lor (if g j : bool then 2 ^ j else 0) acc) 0 l) i =
    existsb (fun j => (j =? i) && g j) l.
Proof.
  intros Hl Hi. induction l as [|j l IH]; cbn [foldr existsb]; [apply Z.bits_0|].
  rewrite Z.lor_spec, IH by (intros; apply Hl; by right). f_equal.
  destruct (g j); [|by rewrite Z.bits_0, andb_false_r]. rewrite Z.pow2_bits_eqb by (apply Hl; by left).
  by rewrite andb_true_r.
Qed.

Lemma pack_word_ok g k : word_ok g k (pack_word (fun j => g (32 * k + j))).
Proof.
  assert (forall i, 0 <= i -> Z.testbit (pack_word (fun j => g (32 * k + j))) i = (i <? 32) && g (32 * k + i)) as Hb.
  { intros i Hi. unfold pack_word. rewrite pack_word_bits; [|intros j Hj%elem_of_seqZ; lia|done].
    apply eq_bool_prop_intro. rewrite !Is_true_true, existsb_exists, andb_true_iff. split.
    - intros (j & Hj & [->%Z.eqb_eq Hg]%andb_true_iff). apply list_elem_of_In, elem_of_seqZ in Hj. split; [apply Z.ltb_lt; lia|done].
    - intros [Hlt%Z.ltb_lt Hg]. exists i. split; [apply list_elem_of_In, elem_of_seqZ; lia|]. by rewrite Z.eqb_refl. }
  apply word_of_bits.
  - unfold pack_word. induction (seqZ 0 32) as [|j l IH]; cbn; [done|]. apply Z.lor_nonneg. split; [|done].
    destruct (g _); [apply Z.pow_nonneg; lia|done].
  - intros j Hj. rewrite Hb by lia. by zbool.
  - intros j Hj. rewrite Hb by lia. by zbool.
Qed.

Lemma pack_holds f : holds N (pack f) f.
Proof.
  pose proof (word_count_bounds N HN HM). split; [unfold pack; by rewrite length_fmap, length_seqZ|].
  intros n v Hv. unfold pack in Hv. rewrite list_lookup_fmap in Hv.
  destruct (seqZ 0 (Bitset.word_count N) !! n) as [k|] eqn:Ek; [|done]. apply lookup_seqZ in Ek as [-> _].
  cbn in Hv. simplify_eq. rewrite Z.add_0_l. apply pack_word_ok.
Qed.

Lemma pack_unique ws f : holds N ws f -> ws = pack f.
Proof.
  intros Hw. pose proof (pack_holds f) as Hp. apply list_eq_same_length with (n := length ws); [|done|].
  { destruct Hw as [-> _], Hp as [-> _]. done. }
  intros n v v' _ Hv Hv'. destruct Hw as [_ Hw], Hp as [_ Hp]. exact (word_ok_unique _ _ _ _ (Hw n v Hv) (Hp n v' Hv')).
Qed.

Lemma pack_ext f g : (forall i, 0 <= i < N -> f i = g i) -> pack f = pack g.
Proof.
  intros Hfg. apply pack_unique. apply (words_of_ext N (inside N f)); [|apply pack_holds].
  intros i _. unfold inside. destruct (Z.leb_spec 0 i), (Z.ltb_spec i N); cbn; try done. apply Hfg. lia.
Qed.

Lemma pack_fresh : Bitset.fresh N = pack (fun _ => false).
Proof. apply pack_unique. by apply fresh_holds. Qed.

Lemma pack_test f i : 0 <= i < N -> Bitset.test N i (pack f) = Ret (f i) (pack f).
Proof. intros Hi. rewrite (test_spec N HN HM _ f) by (apply pack_holds || lia). by zbool. Qed.

Lemma pack_set f i : 0 <= i < N -> Bitset.set N i (pack f) = Ret tt (pack (update f i true)).
Proof.
  intros Hi. pose proof (set_spec N HN HM (pack f) f i (pack_holds f) ltac:(lia)) as Hs. revert Hs. zbool.
  intros (ws & -> & Hw). by rewrite (pack_unique ws _ Hw).
Qed.

Lemma pack_reset f i : 0 <= i < N -> Bitset.reset N i (pack f) = Ret tt (pack (update f i false)).
Proof.
  intros Hi. pose proof (reset_spec N HN HM (pack f) f i (pack_holds f) ltac:(lia)) as Hs. revert Hs. zbool.
  intros (ws & -> & Hw). by rewrite (pack_unique ws _ Hw).
Qed.

Lemma pack_reset_all f : Bitset.reset_all N (pack f) = Ret tt (pack (fun _ => false)).
Proof. destruct (reset_all_spec N HN HM (pack f) f (pack_holds f)) as (ws & -> & Hw). by rewrite (pack_unique ws _ Hw). Qed.

Lemma pack_find f from :
  0 <= from -> exists r, Bitset.find_next_set N from (pack f) = Ret r (pack f) /\ found N f from r.
Proof. intros. apply find_next_set_spec; [done|done|apply pack_holds|done]. Qed.
End pack.

(** ** Tables and their cells *)

(** [bucket_count] must be the length of an array. *)
Class TableOk `{SizeT} (C : Z) : Prop := table_ok : 0 <= C /\ C * 2 <= 2 ^ (size_bits - 1).

(** What a table has besides its cells. *)
Record rest (Hfn Eq : Type) : Type := mk_rest {
  r_size : Z;
  r_tombstones : Z;
  r_hasher : Hfn;
  r_equal : Eq;
  r_throws : list bool
}.
Arguments mk_rest {Hfn Eq} _ _ _ _ _.
Arguments r_size {Hfn Eq} _.
Arguments r_tombstones {Hfn Eq} _.
Arguments r_hasher {Hfn Eq} _.
Arguments r_equal {Hfn Eq} _.
Arguments r_throws {Hfn Eq} _.

Definition with_throws {Hfn Eq} (t : list bool) (r : rest Hfn Eq) : rest Hfn Eq :=
  mk_rest (r_size r) (r_tombstones r) (r_hasher r) (r_equal r) t.

Abbreviation cell V := (option V * slot_state)%type.

Section cells.
  Context `{SizeT} {Hfn Eq V : Type} (C : Z) `{!TableOk C}.
  Implicit Types (cells : list (cell V)) (i j : nat) (r : rest Hfn Eq) (o : option V) (s : slot_state) (v : V).
  Abbreviation bc := (HashTable.bucket_count C).

Lemma bucket_count_pow2 : exists k, 0 <= k <= size_bits - 1 /\ bc = 2 ^ k /\ 2 * C <= bc /\ C < bc.
Proof.
  destruct TableOk0 as [HC0 HC]. pose proof size_bits_min. unfold HashTable.bucket_count, HashTable.compute_bucket_count.
  destruct (Z.eqb_spec C 0) as [->|]; [exists 0; cbn; lia|].
  pose proof size_modulus_double. assert (0 < 2 ^ (size_bits - 1)) by (apply Z.pow_pos_nonneg; lia).
  rewrite wrap_small, bit_ceil_spec by (lia || (apply width_ok_portable; lia)). unfold default, id. destruct (Z.log2_up_spec (C * 2) ltac:(lia)) as [_ Hup].
  assert (Z.log2_up (C * 2) <= size_bits - 1) as Hl by (apply Z.log2_up_le_pow2; lia).
  pose proof (Z.log2_up_nonneg (C * 2)). zbool. exists (Z.log2_up (C * 2)). split_and!; [done|lia|done|lia|lia].
Qed.

Lemma bucket_count_bounds : 1 <= bc /\ bc + 31 < 2 ^ size_bits /\ C < bc.
Proof.
  destruct bucket_count_pow2 as (k & Hk & -> & _ & Hlt). pose proof size_bits_min. pose proof size_modulus_double.
  assert (2 ^ k <= 2 ^ (size_bits - 1)) by (apply Z.pow_le_mono_r; lia). pose proof (Z.pow_pos_nonneg 2 k ltac:(lia) ltac:(lia)).
  assert (2 ^ 6 <= 2 ^ (size_bits - 1)) by (apply Z.pow_le_mono_r; lia). change (2 ^ 6) with 64 in *. lia.
Qed.

Ltac bc_lia := pose proof bucket_count_bounds; lia.

Lemma mask_mod z : 0 <= z -> Z.land z (HashTable.mask C) = z mod bc.
Proof.
  intros Hz. pose proof bucket_count_bounds. unfold HashTable.mask. rewrite wrap_small by lia.
  destruct bucket_count_pow2 as (k & Hk & -> & _). rewrite Z.sub_1_r, <- Z.ones_equiv. apply Z.land_ones. lia.
Qed.

Lemma npos_above : bc < HashTable.npos.
Proof.
  pose proof bucket_count_bounds. unfold HashTable.npos, wrap. rewrite <- (Z.mod_add (-1) 1), Z.mod_small by lia. lia.
Qed.

Definition has_state s cells (i : Z) : bool :=
  match cells !! Z.to_nat i with Some (_, s') => bool_decide (s' = s) | None => false end.

Definition tab cells r : table Hfn Eq V :=
  mk_table (fst <$> cells) (pack bc (has_state SOccupied cells)) (pack bc (has_state STombstone cells))
    (r_size r) (r_tombstones r) (r_hasher r) (r_equal r) (r_throws r).

Definition sized cells : Prop := Z.of_nat (length cells) = bc.

Lemma sized_buckets cells : sized cells -> length cells = Z.to_nat bc.
Proof. unfold sized. lia. Qed.

Lemma sized_of_buckets cells : length cells = Z.to_nat bc -> sized cells.
Proof. pose proof bucket_count_bounds. unfold sized. lia. Qed.

Lemma sized_insert cells i x : sized cells -> sized (<[i := x]> cells).
Proof. unfold sized. by rewrite length_insert. Qed.

Lemma has_state_insert s cells i o s' (j : Z) :
  (i < length cells)%nat -> 0 <= j ->
  has_state s (<[i := (o, s')]> cells) j = update (has_state s cells) (Z.of_nat i) (bool_decide (s' = s)) j.
Proof.
  intros Hi Hj. unfold has_state, update. destruct (Z.eqb_spec j (Z.of_nat i)) as [->|].
  - rewrite Nat2Z.id, list_lookup_insert_eq by done. done.
  - rewrite list_lookup_insert_ne by lia. done.
Qed.

Lemma cell_index cells i x : sized cells -> cells !! i = Some x -> 0 <= Z.of_nat i < bc.
Proof. unfold sized. intros <- ?%lookup_lt_Some. lia. Qed.

Lemma test_cell s cells i o s' :
  sized cells -> cells !! i = Some (o, s') ->
  Bitset.test bc (Z.of_nat i) (pack bc (has_state s cells)) = Ret (bool_decide (s' = s)) (pack bc (has_state s cells)).
Proof.
  intros Hs E. pose proof bucket_count_bounds. rewrite pack_test by (lia || by eapply cell_index).
  unfold has_state. by rewrite Nat2Z.id, E.
Qed.

Lemma pack_insert s cells i o s' :
  sized cells -> (i < length cells)%nat ->
  pack bc (update (has_state s cells) (Z.of_nat i) (bool_decide (s' = s))) = pack bc (has_state s (<[i := (o, s')]> cells)).
Proof.
  intros Hs Hi. pose proof bucket_count_bounds. apply pack_ext; [lia|lia|]. intros j Hj. by rewrite has_state_insert by (done || lia).
Qed.

Lemma write_cell s cells i o s' :
  sized cells -> (i < length cells)%nat ->
  (if decide (s' = s) then Bitset.set bc (Z.of_nat i) else Bitset.reset bc (Z.of_nat i))
    (pack bc (has_state s cells)) = Ret tt (pack bc (has_state s (<[i := (o, s')]> cells))).
Proof.
  intros Hs Hi. pose proof bucket_count_bounds. rewrite <- pack_insert by done. unfold sized in Hs.
  destruct (decide (s' = s)); [rewrite bool_decide_eq_true_2 by done; apply pack_set|
    rewrite bool_decide_eq_false_2 by done; apply pack_reset]; lia.
Qed.

(** *** Steps on cells *)

Lemma state_cell cells r i o s :
  sized cells -> cells !! i = Some (o, s) -> HashTable.state C (Z.of_nat i) (tab cells r) = Ret s (tab cells r).
Proof.
  intros Hs E. unfold HashTable.state.
  erewrite bind_Ret; [|unfold on_occupied; cbn [tab boccupied_]; by rewrite (test_cell _ _ _ _ _ Hs E)].
  destruct (decide (s = SOccupied)) as [->|]; [by rewrite bool_decide_eq_true_2|]. rewrite bool_decide_eq_false_2 by done.
  erewrite bind_Ret; [|unfold on_tombstone; cbn [tab set_boccupied btombstone_]; by rewrite (test_cell _ _ _ _ _ Hs E)].
  by destruct s.
Qed.

Lemma fst_insert cells i o s : fst <$> <[i := (o, s)]> cells = <[i := o]> (fst <$> cells).
Proof. by rewrite list_fmap_insert. Qed.

Lemma fst_insert_same cells i o s s' : cells !! i = Some (o, s) -> fst <$> <[i := (o, s')]> cells = fst <$> cells.
Proof. intros E. rewrite fst_insert. apply list_insert_id. by rewrite list_lookup_fmap, E. Qed.

Lemma set_state_cell cells r i o s s' :
  sized cells -> cells !! i = Some (o, s) ->
  HashTable.set_state C (Z.of_nat i) s' (tab cells r) = Ret tt (tab (<[i := (o, s')]> cells) r).
Proof.
  intros Hs E. pose proof (lookup_lt_Some _ _ _ E) as Hi. unfold HashTable.set_state.
  pose proof (write_cell SOccupied cells i o s' Hs Hi) as Eo. pose proof (write_cell STombstone cells i o s' Hs Hi) as Et.
  erewrite bind_Ret; [|unfold on_occupied; cbn [tab boccupied_]; by rewrite Eo].
  unfold on_tombstone. cbn [tab set_boccupied btombstone_]. rewrite Et. unfold tab.
  by rewrite (fst_insert_same _ _ _ _ s' E).
Qed.

Lemma slot_cell cells r i o s : cells !! i = Some (o, s) -> slot_lookup (get_slots (tab cells r)) (Z.of_nat i) = Some o.
Proof. intros E. cbn. rewrite slot_lookup_of_nat. by rewrite list_lookup_fmap, E. Qed.

Lemma write_slot cells r i o o' s :
  sized cells -> cells !! i = Some (o, s) ->
  set_slots (slot_set (get_slots (tab cells r)) (Z.of_nat i) o') (tab cells r) = tab (<[i := (o', s)]> cells) r.
Proof.
  intros Hs E. pose proof (lookup_lt_Some _ _ _ E) as Hi. cbn. unfold slot_set. rewrite Nat2Z.id. unfold tab. rewrite fst_insert.
  assert (forall s0, pack bc (has_state s0 cells) = pack bc (has_state s0 (<[i := (o', s)]> cells))) as Hp.
  { intros s0. rewrite <- pack_insert by done. pose proof bucket_count_bounds. apply pack_ext; [lia|lia|].
    intros j Hj. unfold update. destruct (Z.eqb_spec j (Z.of_nat i)) as [->|]; [|done].
    unfold has_state. by rewrite Nat2Z.id, E. }
  by rewrite !(Hp SOccupied), !(Hp STombstone).
Qed.

Lemma ref_cell cells r i v s : cells !! i = Some (Some v, s) -> slot_ref (Z.of_nat i) (tab cells r) = Ret v (tab cells r).
Proof. intros E. apply slot_ref_live. by eapply slot_cell. Qed.

Lemma construct_cell cells r i v s :
  sized cells -> cells !! i = Some (None, s) ->
  slot_construct (Z.of_nat i) v (tab cells r) = Ret tt (tab (<[i := (Some v, s)]> cells) r).
Proof.
  intros Hs E. rewrite <- (write_slot cells r i None (Some v) s Hs E). apply slot_construct_dead. by eapply slot_cell.
Qed.

Lemma destroy_cell cells r i v s :
  sized cells -> cells !! i = Some (Some v, s) ->
  slot_destroy (Z.of_nat i) (tab cells r) = Ret tt (tab (<[i := (None, s)]> cells) r).
Proof.
  intros Hs E. rewrite <- (write_slot cells r i (Some v) None s Hs E). eapply slot_destroy_live. by eapply slot_cell.
Qed.

Lemma assign_cell cells r i v v' s :
  sized cells -> cells !! i = Some (Some v, s) ->
  slot_assign (Z.of_nat i) v' (tab cells r) = Ret tt (tab (<[i := (Some v', s)]> cells) r).
Proof.
  intros Hs E. rewrite <- (write_slot cells r i (Some v) (Some v') s Hs E). eapply slot_assign_live. by eapply slot_cell.
Qed.

(** Taking an object out of its slot. *)
Lemma take_cell moved cells r i v s :
  sized cells -> cells !! i = Some (Some v, s) ->
  slot_move_out moved (Z.of_nat i) (tab cells r) = Ret v (tab (<[i := (Some (moved v), s)]> cells) r).
Proof.
  intros Hs E. rewrite <- (write_slot cells r i (Some v) (Some (moved v)) s Hs E). apply slot_move_out_live. by eapply slot_cell.
Qed.

Lemma tombstone_test cells r i o s :
  sized cells -> cells !! i = Some (o, s) ->
  on_tombstone (Bitset.test bc (Z.of_nat i)) (tab cells r) = Ret (bool_decide (s = STombstone)) (tab cells r).
Proof. intros Hs E. unfold on_tombstone. cbn [tab btombstone_]. by rewrite (test_cell _ _ _ _ _ Hs E). Qed.

Lemma other_bits cells i o s s' s0 :
  sized cells -> cells !! i = Some (o, s) -> s <> s0 -> s' <> s0 ->
  pack bc (has_state s0 (<[i := (o, s')]> cells)) = pack bc (has_state s0 cells).
Proof.
  intros Hs E Hne Hne'. pose proof (lookup_lt_Some _ _ _ E) as Hi. rewrite <- pack_insert by done.
  pose proof bucket_count_bounds. apply pack_ext; [lia|lia|]. intros j Hj. unfold update.
  destruct (Z.eqb_spec j (Z.of_nat i)) as [->|]; [|done]. unfold has_state. rewrite Nat2Z.id, E.
  by rewrite !bool_decide_eq_false_2.
Qed.

(** [tombstone_.reset(i)] on a mark, and [occupied_.set(i)] on an empty slot. *)
Lemma unmark_cell cells r i o :
  sized cells -> cells !! i = Some (o, STombstone) ->
  on_tombstone (Bitset.reset bc (Z.of_nat i)) (tab cells r) = Ret tt (tab (<[i := (o, SEmpty)]> cells) r).
Proof.
  intros Hs E. pose proof (write_cell STombstone cells i o SEmpty Hs (lookup_lt_Some _ _ _ E)) as Et.
  unfold on_tombstone. cbn [tab btombstone_]. rewrite decide_False in Et by done. rewrite Et.
  unfold tab, set_btombstone. cbn. by rewrite (fst_insert_same _ _ _ _ SEmpty E), (other_bits _ _ _ _ SEmpty SOccupied Hs E).
Qed.

Lemma occupy_cell cells r i o :
  sized cells -> cells !! i = Some (o, SEmpty) ->
  on_occupied (Bitset.set bc (Z.of_nat i)) (tab cells r) = Ret tt (tab (<[i := (o, SOccupied)]> cells) r).
Proof.
  intros Hs E. pose proof (write_cell SOccupied cells i o SOccupied Hs (lookup_lt_Some _ _ _ E)) as Et.
  unfold on_occupied. cbn [tab boccupied_]. rewrite decide_True in Et by done. rewrite Et.
  unfold tab, set_boccupied. cbn. by rewrite (fst_insert_same _ _ _ _ SOccupied E), (other_bits _ _ _ _ SOccupied STombstone Hs E).
Qed.

(** The rule for the script. *)
Lemma wp_may_throw {A} (k : M (table Hfn Eq V) A) Q E cells r :
  (forall t', later (r_throws r) t' -> wp k Q E (tab cells (with_throws t' r))) ->
  (forall t', true ∈ r_throws r -> E (tab cells (with_throws t' r))) ->
  wp (may_throw ;;; k) Q E (tab cells r).
Proof.
  intros Hk Ht. unfold may_throw. apply wp_bind. destruct r as [n tb hs eq [|[] t]]; cbn in *.
  - exact (Hk [] (later_refl [])).
  - apply (Ht t). by left.
  - apply (Hk t). intros ?. by right.
Qed.
End cells.

(** ** Probing *)

(** What keys, queries and hashes must agree on. *)
Class KeyLaws (Hfn Eq K : Type) `{!Hasher Hfn K, !KeyEqual Eq K K} : Prop := {
  equal_refl : forall (eq : Eq) (a : K), key_equal eq a a = true;
  equal_sym : forall (eq : Eq) (a b : K), key_equal eq a b = true -> key_equal eq b a = true;
  equal_trans : forall (eq : Eq) (a b d : K), key_equal eq a b = true -> key_equal eq b d = true -> key_equal eq a d = true;
  equal_hash : forall (hs : Hfn) (eq : Eq) (a b : K), key_equal eq a b = true -> hash_key hs a = hash_key hs b
}.

Class QueryLaws (Hfn Eq K Q : Type) `{!Hasher Hfn K, !KeyEqual Eq K K, !Hasher Hfn Q, !KeyEqual Eq K Q} : Prop := {
  query_hash : forall (hs : Hfn) (eq : Eq) (a : K) (q : Q), key_equal eq a q = true -> hash_key hs a = hash_key hs q;
  query_same : forall (eq : Eq) (a b : K) (q : Q), key_equal eq a q = true -> key_equal eq b q = true -> key_equal eq a b = true
}.

#[export] Instance key_query_laws {Hfn Eq K} `{!Hasher Hfn K, !KeyEqual Eq K K, !KeyLaws Hfn Eq K} : QueryLaws Hfn Eq K K.
Proof.
  split; [apply equal_hash|]. intros eq a b q Ha Hb. eapply (equal_trans (Hfn := Hfn)); [exact Ha|].
  by apply (equal_sym (Hfn := Hfn)).
Qed.

Lemma hash_mix_nonneg `{SizeT} x : 0 <= Hash.hash_mix x.
Proof.
  unfold Hash.hash_mix. apply Z.lxor_nonneg. rewrite Z.shiftr_nonneg. done.
Qed.

Section probing.
  Context `{SizeT} {Hfn Eq K V : Type} `{!Hasher Hfn K, !KeyEqual Eq K K} (key_of : V -> K) (C : Z) `{!TableOk C}.
  Implicit Types (cells : list (cell V)) (i j d : nat) (r : rest Hfn Eq) (o : option V) (s : slot_state) (v : V).
  Abbreviation bc := (HashTable.bucket_count C).
  Abbreviation tab := (tab C).
  Abbreviation sized := (sized C).

Definition buckets : nat := Z.to_nat bc.

Lemma buckets_eq : Z.of_nat buckets = bc /\ (0 < buckets)%nat.
Proof. pose proof (bucket_count_bounds C). unfold buckets. lia. Qed.

Lemma sized_length cells : sized cells -> length cells = buckets.
Proof. apply sized_buckets. Qed.

(** The slot that a probe from [start] looks at after [d] others. *)
Definition pos (start d : nat) : nat := ((start + d) mod buckets)%nat.

Lemma pos_lt start d : (pos start d < buckets)%nat.
Proof. apply Nat.mod_upper_bound. pose proof buckets_eq. lia. Qed.

Lemma probe_pos start d :
  (start < buckets)%nat -> (d < buckets)%nat ->
  Z.land (wrap (Z.of_nat start + Z.of_nat d)) (HashTable.mask C) = Z.of_nat (pos start d).
Proof.
  intros Hs Hd. pose proof buckets_eq. pose proof (bucket_count_bounds C). destruct (bucket_count_pow2 C) as (k & Hk & Hb & _).
  pose proof size_modulus_double. assert (bc <= 2 ^ (size_bits - 1)) by (rewrite Hb; apply Z.pow_le_mono_r; lia).
  rewrite wrap_small, mask_mod by (done || lia). unfold pos. rewrite Nat2Z.inj_mod, Nat2Z.inj_add. by destruct buckets_eq as [-> _].
Qed.

(** Every slot is met exactly once in a round. *)
Lemma pos_onto start i : (start < buckets)%nat -> (i < buckets)%nat -> exists d, (d < buckets)%nat /\ pos start d = i.
Proof.
  intros Hs Hi. unfold pos. destruct (decide (start <= i)%nat).
  - exists (i - start)%nat. split; [lia|]. rewrite Nat.mod_small; lia.
  - exists (buckets + i - start)%nat. split; [lia|]. replace (start + (buckets + i - start))%nat with (i + 1 * buckets)%nat by lia.
    rewrite Nat.Div0.mod_add. by apply Nat.mod_small.
Qed.

Definition cell_at cells start d : option (cell V) := cells !! pos start d.

Lemma cell_at_Some cells start d : sized cells -> exists x, cell_at cells start d = Some x.
Proof. intros Hs. apply lookup_lt_is_Some_2. rewrite (sized_length _ Hs). apply pos_lt. Qed.

(** The objects of a table, outside a rebuild. *)
Definition coherent cells : Prop := forall i o s, cells !! i = Some (o, s) -> s = SOccupied <-> is_Some o.

Definition nonempty cells start d : Prop := exists o s, cell_at cells start d = Some (o, s) /\ s <> SEmpty.

(** The table is as it was, but for the script. *)
Definition same cells r (b : table Hfn Eq V) : Prop :=
  exists t', later (r_throws r) t' /\ b = tab cells (with_throws t' r).
Definition thrown cells r (b : table Hfn Eq V) : Prop :=
  true ∈ r_throws r /\ exists t', b = tab cells (with_throws t' r).

Lemma same_now cells r : same cells r (tab cells r).
Proof. exists (r_throws r). split; [apply later_refl|by destruct r]. Qed.

Lemma same_later cells r t' b : later (r_throws r) t' -> same cells (with_throws t' r) b -> same cells r b.
Proof. intros Hl (t'' & Hl' & ->). exists t''. split; [by eapply later_trans|done]. Qed.

Lemma thrown_later cells r t' b : later (r_throws r) t' -> thrown cells (with_throws t' r) b -> thrown cells r b.
Proof. intros Hl [Ht (t'' & ->)]. split; [auto|by exists t'']. Qed.

Lemma wp_same {A} (m : M (table Hfn Eq V) A) (Q Q' : A -> table Hfn Eq V -> Prop) cells r t' b :
  later (r_throws r) t' -> wp m Q (thrown cells (with_throws t' r)) b ->
  (forall a b, Q a b -> Q' a b) -> wp m Q' (thrown cells r) b.
Proof. intros Hl Hm HQ. eapply wp_mono; [exact Hm|done|]. intros b'. by apply thrown_later. Qed.

Section query.
  Context {Q : Type} `{!Hasher Hfn Q, !KeyEqual Eq K Q}.
  Implicit Types (key : Q).

Definition bucket r key : nat := Z.to_nat (Hash.hash_mix (hash_key (r_hasher r) key) mod bc).

Lemma bucket_lt r key : (bucket r key < buckets)%nat.
Proof.
  pose proof (bucket_count_bounds C). unfold bucket, buckets. pose proof (Z.mod_pos_bound (Hash.hash_mix (hash_key (r_hasher r) key)) bc). lia.
Qed.

Lemma wp_bucket_index key cells r :
  wp (HashTable.bucket_index C key) (fun a b => a = Z.of_nat (bucket r key) /\ same cells r b) (thrown cells r) (tab cells r).
Proof.
  unfold HashTable.bucket_index. apply wp_may_throw.
  - intros t' Hl. eapply wp_bind_Ret; [done|]. split; [|by exists t'].
    rewrite (mask_mod C) by apply hash_mix_nonneg. unfold bucket. rewrite Z2Nat.id; [done|].
    apply Z.mod_pos_bound. pose proof (bucket_count_bounds C). lia.
  - intros t' Ht. split; [done|by exists t'].
Qed.

Definition matches r key v : Prop := key_equal (r_equal r) (key_of v) key = true.

(** The probe passes over this cell. *)
Definition missed r key cells start d : Prop :=
  nonempty cells start d /\ forall v s, cell_at cells start d = Some (Some v, s) -> s = SOccupied -> ~ matches r key v.

(** The probe ends without a match: after a round, or at an empty slot. *)
Definition absent_from r key cells start : Prop :=
  exists d, (d <= buckets)%nat /\ (forall d', (d' < d)%nat -> missed r key cells start d') /\
    (d = buckets \/ exists o, cell_at cells start d = Some (o, SEmpty)).

Lemma wp_equals_at key cells r i v s :
  cells !! i = Some (Some v, s) ->
  wp (HashTable.equals_at key_of (Z.of_nat i) key)
    (fun a b => a = key_equal (r_equal r) (key_of v) key /\ same cells r b) (thrown cells r) (tab cells r).
Proof.
  intros E. unfold HashTable.equals_at. eapply wp_bind_Ret; [by apply ref_cell with (s := s)|].
  apply wp_may_throw; intros t' Ht; [|split; [done|by exists t']].
  eapply wp_bind_Ret; [done|]. split; [done|by exists t'].
Qed.

Lemma wp_find_probe key cells r start n d :
  sized cells -> coherent cells -> (start < buckets)%nat -> (d + n = buckets)%nat ->
  (forall d', (d' < d)%nat -> missed r key cells start d') ->
  wp (HashTable.find_probe key_of C n (Z.of_nat start) (Z.of_nat d) key)
    (fun a b => same cells r b /\
      ((exists i v, a = Z.of_nat i /\ cells !! i = Some (Some v, SOccupied) /\ matches r key v) \/
       (a = HashTable.npos /\ absent_from r key cells start)))
    (thrown cells r) (tab cells r).
Proof.
  intros Hs Hc Hst. revert r d. induction n as [|n IH]; intros r d Hd Hm; cbn [HashTable.find_probe].
  { split; [apply same_now|]. right. split; [done|]. exists d. split_and!; [lia|done|left; lia]. }
  rewrite probe_pos by lia. destruct (cell_at_Some cells start d Hs) as [[o s] E]. unfold cell_at in E.
  pose proof (state_cell C cells r _ o s Hs E) as Est. eapply wp_bind_Ret; [exact Est|].
  destruct (decide (s = SEmpty)) as [->|Hne].
  { split; [apply same_now|]. right. split; [done|]. exists d. split_and!; [lia|done|]. right. by exists o. }
  eapply wp_bind_Ret; [exact Est|].
  assert (forall t', later (r_throws r) t' -> missed r key cells start d ->
    wp (HashTable.find_probe key_of C n (Z.of_nat start) (Z.of_nat d + 1) key)
    (fun a b => same cells r b /\
      ((exists i v, a = Z.of_nat i /\ cells !! i = Some (Some v, SOccupied) /\ matches r key v) \/
       (a = HashTable.npos /\ absent_from r key cells start)))
    (thrown cells r) (tab cells (with_throws t' r))) as Hgo.
  { intros t' Hl Hmd. replace (Z.of_nat d + 1) with (Z.of_nat (S d)) by lia.
    eapply wp_same; [exact Hl|apply IH; [lia|]|].
    - intros d' Hd'. destruct (decide (d' = d)) as [->|]; [done|]. apply Hm. lia.
    - intros a b [Hb Ha]. split; [by eapply same_later|done]. }
  apply wp_bind. destruct (decide (s = SOccupied)) as [->|Hno].
  - destruct (proj1 (Hc _ _ _ E) eq_refl) as [v ->].
    eapply wp_mono; [by apply (wp_equals_at key cells r _ v SOccupied)| |done].
    intros a b [-> (t' & Hl & ->)]. destruct (key_equal (r_equal r) (key_of v) key) eqn:Ek.
    + split; [by exists t'|]. left. by exists (pos start d), v.
    + apply Hgo; [done|]. split; [by exists (Some v), SOccupied|]. intros v' s' E' _. unfold cell_at in E'. simplify_eq.
      unfold matches. congruence.
  - apply (wp_Ret _ _ _ _ false (tab cells r)); [done|]. specialize (Hgo (r_throws r)). destruct r as [n' tb hs eq t]. apply Hgo.
    + apply later_refl.
    + split; [by exists o, s|]. intros v' s' E' ->. unfold cell_at in E'. by simplify_eq.
Qed.

Lemma wp_find_existing key cells r :
  sized cells -> coherent cells ->
  wp (HashTable.find_existing_index key_of C key)
    (fun a b => same cells r b /\
      ((exists i v, a = Z.of_nat i /\ cells !! i = Some (Some v, SOccupied) /\ matches r key v) \/
       (a = HashTable.npos /\ (C = 0 \/ absent_from r key cells (bucket r key)))))
    (thrown cells r) (tab cells r).
Proof.
  intros Hs Hc. unfold HashTable.find_existing_index. destruct (Z.eqb_spec C 0) as [E0|].
  { split; [apply same_now|]. right. split; [done|by left]. }
  apply wp_bind. eapply wp_mono; [apply wp_bucket_index| |done]. intros a b [-> (t' & Hl & ->)].
  eapply wp_same; [exact Hl|apply (wp_find_probe key cells (with_throws t' r) (bucket r key) _ 0); try done|].
  - apply bucket_lt.
  - intros d' Hd'. lia.
  - intros a b [Hb [Ha|[-> Ha]]]; (split; [by eapply same_later|]); [by left|right; by split; [|right]].
Qed.
End query.


(** *** Where a new key goes *)

Definition is_free r (key : K) cells start i : Prop :=
  (exists d o s, (d < buckets)%nat /\ i = pos start d /\ cell_at cells start d = Some (o, s) /\ s <> SOccupied /\
    forall d', (d' < d)%nat -> nonempty cells start d') /\ absent_from r key cells start.

Definition no_room r (key : K) cells start : Prop :=
  absent_from r key cells start /\ forall d, (d < buckets)%nat -> exists o, cell_at cells start d = Some (o, SOccupied).

Definition located r key cells start (a : option Z) : Prop :=
  (exists i v, a = Some (Z.of_nat i) /\ cells !! i = Some (Some v, SOccupied) /\ matches r key v) \/
  (exists i, a = Some (Z.of_nat i) /\ is_free r key cells start i) \/
  (a = None /\ no_room r key cells start).

(** What the local [first_tombstone] says after [d] slots. *)
Definition first_tombstone_ok cells start d (ft : Z) : Prop :=
  (ft = HashTable.npos /\ forall d', (d' < d)%nat -> exists o, cell_at cells start d' = Some (o, SOccupied)) \/
  exists d0 o, (d0 < d)%nat /\ ft = Z.of_nat (pos start d0) /\ cell_at cells start d0 = Some (o, STombstone).

Lemma pos_npos start d : (Z.of_nat (pos start d) =? HashTable.npos) = false.
Proof. apply Z.eqb_neq. pose proof (pos_lt start d). pose proof buckets_eq. pose proof (npos_above C). lia. Qed.

(** The slot that the probe settles on when it ends after [d] slots. *)
Lemma located_free r key cells start d ft o s :
  (d < buckets)%nat -> first_tombstone_ok cells start d ft -> (forall d', (d' < d)%nat -> missed r key cells start d') ->
  cell_at cells start d = Some (o, s) -> s <> SOccupied -> absent_from r key cells start ->
  located r key cells start (Some (if negb (ft =? HashTable.npos) then ft else Z.of_nat (pos start d))).
Proof.
  intros Hd Hft Hm E Hs Ha. right. left. destruct Hft as [[-> Hocc]|(d0 & o0 & Hd0 & -> & E0)].
  - rewrite Z.eqb_refl. exists (pos start d). split; [done|]. split; [|done]. exists d, o, s.
    split_and!; [done|done|done|done|]. intros d' Hd'. by apply Hm.
  - rewrite pos_npos. exists (pos start d0). split; [done|]. split; [|done]. exists d0, o0, STombstone.
    split_and!; [lia|done|done|done|]. intros d' Hd'. apply Hm. lia.
Qed.

Lemma wp_locate_probe key cells r start n d ft :
  sized cells -> coherent cells -> (start < buckets)%nat -> (d + n = buckets)%nat ->
  (forall d', (d' < d)%nat -> missed r key cells start d') -> first_tombstone_ok cells start d ft ->
  wp (HashTable.locate_probe key_of C n (Z.of_nat start) (Z.of_nat d) ft key)
    (fun a b => same cells r b /\ located r key cells start a) (thrown cells r) (tab cells r).
Proof.
  intros Hs Hc Hst. revert r d ft. induction n as [|n IH]; intros r d ft Hd Hm Hft; cbn [HashTable.locate_probe].
  { split; [apply same_now|]. assert (absent_from r key cells start) as Ha by (exists d; split_and!; [lia|done|left; lia]).
    destruct Hft as [[-> Hocc]|(d0 & o0 & Hd0 & -> & E0)].
    - rewrite Z.eqb_refl. right. right. split; [done|]. split; [done|]. intros d' Hd'. apply Hocc. lia.
    - rewrite pos_npos. right. left. exists (pos start d0). split; [done|]. split; [|done].
      exists d0, o0, STombstone. split_and!; [lia|done|done|done|]. intros d' Hd'. apply Hm. lia. }
  rewrite probe_pos by lia. destruct (cell_at_Some cells start d Hs) as [[o s] E].
  pose proof (state_cell C cells r _ o s Hs E) as Est. eapply wp_bind_Ret; [exact Est|].
  destruct (decide (s = SEmpty)) as [->|Hne].
  { split; [apply same_now|]. eapply located_free; [lia|done|done|exact E|done|].
    exists d. split_and!; [lia|done|]. right. by exists o. }
  eapply wp_bind_Ret; [exact Est|].
  assert (forall t' ft', later (r_throws r) t' -> missed r key cells start d -> first_tombstone_ok cells start (S d) ft' ->
    wp (HashTable.locate_probe key_of C n (Z.of_nat start) (Z.of_nat d + 1) ft' key)
    (fun a b => same cells r b /\ located r key cells start a) (thrown cells r) (tab cells (with_throws t' r))) as Hgo.
  { intros t' ft' Hl Hmd Hft'. replace (Z.of_nat d + 1) with (Z.of_nat (S d)) by lia.
    eapply wp_same; [exact Hl|apply IH; [lia| |done]|].
    - intros d' Hd'. destruct (decide (d' = d)) as [->|]; [done|]. apply Hm. lia.
    - intros a b [Hb Ha]. split; [by eapply same_later|done]. }
  assert (nonempty cells start d) as Hnon by (by exists o, s).
  destruct (decide (s = STombstone)) as [->|Hnt].
  - specialize (Hgo (r_throws r)). destruct r as [n' tb hs eq t]. apply Hgo; [apply later_refl| |].
    + split; [done|]. intros v' s' E' ->. by simplify_eq.
    + right. destruct Hft as [[-> _]|(d0 & o0 & Hd0 & -> & E0)].
      * rewrite Z.eqb_refl. exists d, o. split_and!; [lia|done|done].
      * rewrite pos_npos. exists d0, o0. split_and!; [lia|done|done].
  - assert (s = SOccupied) as -> by (by destruct s). destruct (proj1 (Hc _ _ _ E) eq_refl) as [v ->].
    apply wp_bind. eapply wp_mono; [by apply (wp_equals_at key cells r _ v SOccupied)| |done].
    intros a b [-> (t' & Hl & ->)]. destruct (key_equal (r_equal r) (key_of v) key) eqn:Ek.
    + split; [by exists t'|]. left. by exists (pos start d), v.
    + apply Hgo; [done| |].
      * split; [done|]. intros v' s' E' _. simplify_eq. unfold matches. congruence.
      * destruct Hft as [[-> Hocc]|(d0 & o0 & Hd0 & -> & E0)]; [left|right; exists d0, o0; split_and!; [lia|done|done]].
        split; [done|]. intros d' Hd'. destruct (decide (d' = d)) as [->|]; [by exists (Some v)|]. apply Hocc. lia.
Qed.

Lemma wp_locate key cells r :
  sized cells -> coherent cells -> C <> 0 ->
  wp (HashTable.locate_insert_index key_of C key)
    (fun a b => same cells r b /\ located r key cells (bucket r key) a) (thrown cells r) (tab cells r).
Proof.
  intros Hs Hc HC. unfold HashTable.locate_insert_index. rewrite (proj2 (Z.eqb_neq _ _) HC).
  apply wp_bind. eapply wp_mono; [apply wp_bucket_index| |done]. intros a b [-> (t' & Hl & ->)].
  eapply wp_same; [exact Hl|apply (wp_locate_probe key cells (with_throws t' r) (bucket r key) _ 0); try done|].
  - apply bucket_lt.
  - intros d' Hd'. lia.
  - left. split; [done|]. intros d' Hd'. lia.
  - intros a b [Hb Ha]. split; [by eapply same_later|done].
Qed.

(** ** The invariant of a table *)

(** The elements, in the order of their slots. *)
Definition entries cells : list V := omap fst cells.
Definition tombs cells : nat := length (List.filter (fun x : cell V => bool_decide (x.2 = STombstone)) cells).

(** A probe for the key of [v] gets to slot [i]: no slot before it is empty. *)
Definition reachable r cells i v : Prop :=
  exists d, (d < buckets)%nat /\ i = pos (bucket r (key_of v)) d /\
    forall d', (d' < d)%nat -> nonempty cells (bucket r (key_of v)) d'.

Definition all_reachable r cells : Prop :=
  forall i v, cells !! i = Some (Some v, SOccupied) -> reachable r cells i v.
Definition distinct_keys r cells : Prop :=
  forall i j v w, cells !! i = Some (Some v, SOccupied) -> cells !! j = Some (Some w, SOccupied) ->
    matches r (key_of w) v -> i = j.

Record table_inv cells r : Prop := {
  inv_sized : sized cells;
  inv_coherent : coherent cells;
  inv_reach : all_reachable r cells;
  inv_keys : distinct_keys r cells;
  inv_size : r_size r = Z.of_nat (length (entries cells));
  inv_tombs : r_tombstones r = Z.of_nat (tombs cells);
  inv_capacity : r_size r <= C
}.

Lemma with_throws_inv cells r t : table_inv cells r -> table_inv cells (with_throws t r).
Proof. by intros [? ? ? ? ? ? ?]. Qed.

Lemma elem_of_entries cells v : coherent cells -> v ∈ entries cells <-> exists i, cells !! i = Some (Some v, SOccupied).
Proof.
  intros Hc. unfold entries. rewrite list_elem_of_omap. split.
  - intros ([o s] & [i E]%list_elem_of_lookup & Ho). cbn in Ho. subst o. exists i.
    rewrite E. do 2 f_equal. by apply (Hc i (Some v) s E).
  - intros [i E]. exists (Some v, SOccupied). split; [by eapply list_elem_of_lookup_2|done].
Qed.

Lemma absent_no_match {Q} `{!Hasher Hfn Q, !KeyEqual Eq K Q, !QueryLaws Hfn Eq K Q} r cells (key : Q) :
  coherent cells -> all_reachable r cells -> absent_from r key cells (bucket r key) ->
  forall v, v ∈ entries cells -> ~ matches r key v.
Proof.
  intros Hc Hr (d & Hd & Hm & Hend) v [i E]%elem_of_entries Hv; [|done].
  destruct (Hr i v E) as (dv & Hdv & -> & Hne).
  assert (bucket r (key_of v) = bucket r key) as Eb by (unfold bucket; by rewrite (query_hash _ _ _ _ Hv)).
  rewrite Eb in E, Hne. destruct (Nat.lt_ge_cases dv d) as [Hlt|Hge].
  - destruct (Hm dv Hlt) as [_ Hn]. by apply (Hn v SOccupied).
  - destruct Hend as [->|[o Ho]]; [lia|]. destruct (decide (d = dv)) as [->|]; [unfold cell_at in Ho; by simplify_eq|].
    destruct (Hne d ltac:(lia)) as (o' & s' & E' & Hs'). by simplify_eq.
Qed.

(** A table with fewer elements than slots has a slot for another. *)
Lemma entries_full cells : sized cells -> (forall i, (i < buckets)%nat -> exists v s, cells !! i = Some (Some v, s)) ->
  length (entries cells) = buckets.
Proof.
  intros Hs Hall. rewrite <- (sized_length _ Hs). assert (Forall (fun x : cell V => is_Some x.1) cells) as Hf.
  { apply list.Forall_forall. intros x [i E]%list_elem_of_lookup. destruct (Hall i) as (v & s & E').
    - rewrite <- (sized_length _ Hs). by eapply lookup_lt_Some.
    - simplify_eq. by exists v. }
  unfold entries. clear Hs Hall. induction Hf as [|[o s] cells [v Hv] _ IH]; [done|]. cbn in *. subst o. cbn. by rewrite IH.
Qed.

Lemma has_room r key cells start :
  sized cells -> coherent cells -> (start < buckets)%nat -> Z.of_nat (length (entries cells)) <= C ->
  ~ no_room r key cells start.
Proof.
  intros Hs Hc Hst Hl [_ Hall]. pose proof (bucket_count_bounds C). pose proof buckets_eq.
  rewrite (entries_full cells Hs) in Hl; [lia|]. intros i Hi. destruct (pos_onto start i Hst Hi) as (d & Hd & <-).
  destruct (Hall d Hd) as [o E]. destruct (proj1 (Hc _ _ _ E) eq_refl) as [v ->]. by exists v, SOccupied.
Qed.

(** *** Changing one cell *)

Lemma entries_split cells i o s :
  cells !! i = Some (o, s) ->
  exists l, entries cells ≡ₚ option_list o ++ l /\
    forall o' s', entries (<[i := (o', s')]> cells) ≡ₚ option_list o' ++ l.
Proof.
  intros E. exists (entries (take i cells) ++ entries (drop (S i) cells)).
  assert (forall o0 s0, entries (take i cells ++ (o0, s0) :: drop (S i) cells) ≡ₚ
    option_list o0 ++ entries (take i cells) ++ entries (drop (S i) cells)) as Hp.
  { intros o0 s0. unfold entries. rewrite omap_app. cbn. destruct o0 as [v|]; cbn; [|done]. by rewrite Permutation_middle. }
  split.
  - rewrite <- (take_drop_middle cells i (o, s) E) at 1. apply Hp.
  - intros o' s'. rewrite insert_take_drop by (by eapply lookup_lt_Some). apply Hp.
Qed.

Lemma entries_add cells i s v s' :
  cells !! i = Some (None, s) -> entries (<[i := (Some v, s')]> cells) ≡ₚ v :: entries cells.
Proof. intros E. destruct (entries_split cells i None s E) as (l & Hl & Hi). by rewrite Hi, Hl. Qed.

Lemma entries_remove cells i s v s' :
  cells !! i = Some (Some v, s) -> entries cells ≡ₚ v :: entries (<[i := (None, s')]> cells).
Proof. intros E. destruct (entries_split cells i (Some v) s E) as (l & Hl & Hi). by rewrite Hl, Hi. Qed.

Lemma entries_replace cells i s v w s' :
  cells !! i = Some (Some v, s) -> v :: entries (<[i := (Some w, s')]> cells) ≡ₚ w :: entries cells.
Proof.
  intros E. destruct (entries_split cells i (Some v) s E) as (l & Hl & Hi). rewrite Hi, Hl. cbn. constructor.
Qed.

Lemma tombs_insert cells i o s o' s' :
  cells !! i = Some (o, s) ->
  (tombs (<[i := (o', s')]> cells) + (if decide (s = STombstone) then 1 else 0) =
    tombs cells + (if decide (s' = STombstone) then 1 else 0))%nat.
Proof.
  intros E. unfold tombs. rewrite insert_take_drop by (by eapply lookup_lt_Some).
  rewrite <- (take_drop_middle cells i (o, s) E) at 3. rewrite !List.filter_app, !length_app. cbn.
  repeat case_bool_decide; cbn; repeat case_decide; try done; lia.
Qed.

Lemma nonempty_insert cells start d i o s :
  nonempty cells start d -> (i < length cells)%nat -> s <> SEmpty -> nonempty (<[i := (o, s)]> cells) start d.
Proof.
  intros (o' & s' & E & Hs') Hi Hs. unfold nonempty, cell_at in *. destruct (decide (i = pos start d)) as [->|].
  - exists o, s. by rewrite list_lookup_insert_eq.
  - exists o', s'. by rewrite list_lookup_insert_ne.
Qed.

Lemma reachable_insert r cells i o s j v :
  reachable r cells j v -> (i < length cells)%nat -> s <> SEmpty -> reachable r (<[i := (o, s)]> cells) j v.
Proof. intros (d & Hd & -> & Hne) Hi Hs. exists d. split_and!; [done|done|]. intros d' Hd'. by apply nonempty_insert; [apply Hne|..]. Qed.

Lemma coherent_insert cells i o s :
  coherent cells -> (s = SOccupied <-> is_Some o) -> coherent (<[i := (o, s)]> cells).
Proof.
  intros Hc Ho j o' s' E. apply list_lookup_insert_Some in E as [(-> & ? & _)|[_ E]]; [by simplify_eq|by eapply Hc].
Qed.

(** A new key, in the slot that the probe settled on. *)
Lemma inv_insert `{!KeyLaws Hfn Eq K} cells r i v n tb :
  table_inv cells r -> is_free r (key_of v) cells (bucket r (key_of v)) i -> r_size r < C ->
  n = r_size r + 1 -> tb = Z.of_nat (tombs (<[i := (Some v, SOccupied)]> cells)) ->
  table_inv (<[i := (Some v, SOccupied)]> cells) (mk_rest n tb (r_hasher r) (r_equal r) (r_throws r)) /\
  entries (<[i := (Some v, SOccupied)]> cells) ≡ₚ v :: entries cells.
Proof.
  intros [Hs Hc Hr Hk Hn Ht Hcap] [(d & o & s & Hd & -> & E & Hso & Hne) Ha] Hlt -> ->. unfold cell_at in E.
  assert (o = None) as ->. { destruct o as [w|]; [|done]. destruct Hso. by apply (Hc _ _ _ E). }
  pose proof (lookup_lt_Some _ _ _ E) as Hi. set (i := pos (bucket r (key_of v)) d) in *.
  pose proof (entries_add cells i s v SOccupied E) as Hp. split; [|done].
  assert (forall j w, cells !! j = Some (Some w, SOccupied) -> ~ matches r (key_of v) w) as Hno.
  { intros j w Ew. apply (absent_no_match r cells (key_of v) Hc Hr Ha). apply elem_of_entries; [done|by exists j]. }
  split; [by apply sized_insert|apply coherent_insert; [done|naive_solver]| | | |done|cbn; lia].
  - intros j w Ew. apply list_lookup_insert_Some in Ew as [(<- & ? & _)|[_ Ew]]; simplify_eq.
    + exists d. split_and!; [done|done|]. intros d' Hd'. by apply nonempty_insert; [apply Hne|..].
    + apply (reachable_insert r); [by apply Hr|done|done].
  - intros j1 j2 w1 w2 E1 E2 Hm. apply list_lookup_insert_Some in E1 as [(<- & ? & _)|[? E1]], E2 as [(<- & ? & _)|[? E2]]; simplify_eq.
    + done.
    + destruct (Hno j2 w2 E2). by apply (equal_sym (Hfn := Hfn)).
    + by destruct (Hno j1 w1 E1).
    + by eapply Hk.
  - cbn. rewrite (Permutation_length Hp). cbn. lia.
Qed.

(** An element goes, and a tombstone keeps its slot from ending a probe. *)
Lemma inv_remove cells r i v n tb :
  table_inv cells r -> cells !! i = Some (Some v, SOccupied) -> n = r_size r - 1 -> tb = r_tombstones r + 1 ->
  table_inv (<[i := (None, STombstone)]> cells) (mk_rest n tb (r_hasher r) (r_equal r) (r_throws r)) /\
  entries cells ≡ₚ v :: entries (<[i := (None, STombstone)]> cells).
Proof.
  intros [Hs Hc Hr Hk Hn Ht Hcap] E -> ->. pose proof (lookup_lt_Some _ _ _ E) as Hi.
  pose proof (entries_remove cells i SOccupied v STombstone E) as Hp. split; [|done].
  assert (forall j w, <[i := (None, STombstone)]> cells !! j = Some (Some w, SOccupied) -> cells !! j = Some (Some w, SOccupied)) as Hl.
  { intros j w [(_ & ? & _)|[_ Ew]]%list_lookup_insert_Some; [done|done]. }
  split; [by apply sized_insert|apply coherent_insert; [done|naive_solver]| | | | |cbn; lia].
  - intros j w Ew. apply (reachable_insert r); [apply Hr; by apply Hl|done|done].
  - intros j1 j2 w1 w2 E1 E2. by apply Hk; apply Hl.
  - cbn. rewrite Hn, (Permutation_length Hp). cbn. lia.
  - pose proof (tombs_insert cells i _ _ None STombstone E) as Htm. rewrite decide_False, decide_True in Htm by done.
    cbn. lia.
Qed.

(** *** Keys apart, as a property of the bag of elements *)

Definition keys_apart r (l : list V) : Prop :=
  forall a b l', l ≡ₚ a :: b :: l' -> ~ matches r (key_of b) a.

Lemma keys_apart_perm r l l' : l ≡ₚ l' -> keys_apart r l -> keys_apart r l'.
Proof. intros Hp Ha a b l'' Hl. apply (Ha a b l''). by rewrite Hp. Qed.

Lemma distinct_keys_apart r cells : coherent cells -> distinct_keys r cells <-> keys_apart r (entries cells).
Proof.
  intros Hc. split.
  - intros Hd a b l' Hp Hm.
    destruct (proj1 (elem_of_entries cells a Hc)) as [i Ei]; [rewrite Hp; by left|].
    pose proof (entries_remove cells i SOccupied a STombstone Ei) as Hr. rewrite Hp in Hr. apply Permutation_cons_inv in Hr.
    assert (coherent (<[i := (None, STombstone)]> cells)) as Hc' by (apply coherent_insert; [done|naive_solver]).
    destruct (proj1 (elem_of_entries _ b Hc')) as [j Ej]; [rewrite <- Hr; by left|].
    apply list_lookup_insert_Some in Ej as [(_ & ? & _)|[Hne Ej]]; [done|]. apply Hne. by eapply Hd.
  - intros Ha i j v w Ei Ej Hm. destruct (decide (i = j)) as [|Hne]; [done|]. exfalso.
    pose proof (entries_remove cells i SOccupied v STombstone Ei) as Hr.
    assert (<[i := (None, STombstone)]> cells !! j = Some (Some w, SOccupied)) as Ej' by (by rewrite list_lookup_insert_ne).
    pose proof (entries_remove _ j SOccupied w STombstone Ej') as Hr'. rewrite Hr' in Hr. by apply (Ha v w _ Hr).
Qed.

(** ** The rebuild *)

Definition blank : list (cell V) := replicate buckets (None, SEmpty).

(** During a rebuild a mark says that the object in the slot has no place yet. *)
Definition rebuilding cells : Prop := forall i o s, cells !! i = Some (o, s) -> s <> SEmpty <-> is_Some o.

(** An object that has its place: every slot before it is taken for good. *)
Definition all_placed r cells : Prop :=
  forall i v, cells !! i = Some (Some v, SOccupied) -> exists d, (d < buckets)%nat /\ i = pos (bucket r (key_of v)) d /\
    forall d', (d' < d)%nat -> exists o, cell_at cells (bucket r (key_of v)) d' = Some (o, SOccupied).

Definition abandoned r (b : table Hfn Eq V) : Prop :=
  true ∈ r_throws r /\ exists t', b = tab blank (mk_rest 0 0 (r_hasher r) (r_equal r) t').

Lemma abandoned_later r t' b : later (r_throws r) t' -> abandoned (with_throws t' r) b -> abandoned r b.
Proof. intros Hl [Ht Hb]. split; [auto|done]. Qed.

Lemma rebuilding_insert cells i o s : rebuilding cells -> (s <> SEmpty <-> is_Some o) -> rebuilding (<[i := (o, s)]> cells).
Proof.
  intros Hc Ho j o' s' E. apply list_lookup_insert_Some in E as [(-> & ? & _)|[_ E]]; [by simplify_eq|by eapply Hc].
Qed.

Lemma blanked_step cells i (x : cell V) :
  cells !! i = Some x ->
  <[i := (None, SEmpty)]> (replicate i (None, SEmpty) ++ drop i cells) = replicate (S i) (None, SEmpty) ++ drop (S i) cells.
Proof.
  intros E. rewrite (drop_S cells x i E), insert_middle_at by (by rewrite length_replicate).
  rewrite replicate_S_end. by rewrite <- app_assoc.
Qed.

Lemma blanked_lookup cells i (x : cell V) : cells !! i = Some x -> (replicate i (None, SEmpty) ++ drop i cells) !! i = Some x.
Proof. intros E. by rewrite lookup_app_r, length_replicate, Nat.sub_diag, lookup_drop, Nat.add_0_r by (by rewrite length_replicate). Qed.

Lemma blanked_sized cells i : sized cells -> (i <= buckets)%nat -> sized (replicate i (None, SEmpty) ++ drop i cells).
Proof.
  intros Hs Hi. pose proof (sized_length _ Hs) as Hl. apply sized_of_buckets; [done|]. fold buckets.
  rewrite length_app, length_replicate, length_drop. lia.
Qed.

Lemma abandon_spec cells r :
  sized cells -> rebuilding cells ->
  HashTable.abandon C (tab cells r) = Ret tt (tab blank (mk_rest 0 0 (r_hasher r) (r_equal r) (r_throws r))).
Proof.
  intros Hs Hc. unfold HashTable.abandon. fold buckets.
  destruct (for_up_inv (fun (z : Z) b => b = tab (replicate (Z.to_nat z) (None, SEmpty) ++ drop (Z.to_nat z) cells) r)
    (fun i : Z => let! s := HashTable.state C i in
      if decide (s = SEmpty) then ret tt else slot_destroy i ;;; HashTable.set_state C i SEmpty) buckets 0 (tab cells r))
    as (b & E & ->).
  - done.
  - intros z b Hz ->. set (i := Z.to_nat z). replace z with (Z.of_nat i) by lia.
    destruct (lookup_lt_is_Some_2 cells i) as [[o s] Ei]; [rewrite (sized_length _ Hs); lia|].
    pose proof (blanked_lookup cells i _ Ei) as Eb. pose proof (blanked_sized cells i Hs ltac:(lia)) as Hsb.
    pose proof (blanked_step cells i _ Ei) as Est. replace (Z.to_nat (Z.of_nat i + 1)) with (S i) by lia.
    eexists. split; [|done]. rewrite (bind_Ret _ _ _ _ _ (state_cell C _ r i o s Hsb Eb)).
    destruct (decide (s = SEmpty)) as [->|Hne].
    + assert (o = None) as ->. { destruct o as [v|]; [|done]. by destruct (proj2 (Hc i _ _ Ei)); [exists v|]. }
      rewrite <- Est, list_insert_id by done. done.
    + destruct (proj1 (Hc i _ _ Ei) Hne) as [v ->].
      rewrite (bind_Ret _ _ _ _ _ (destroy_cell C _ r i v s Hsb Eb)).
      rewrite (set_state_cell C _ r i None s SEmpty) by
        (first [by apply sized_insert | by rewrite list_lookup_insert_eq by (by eapply lookup_lt_Some)]).
      by rewrite list_insert_insert_eq, Est.
  - rewrite (bind_Ret _ _ _ _ _ E). rewrite Z.add_0_l, Nat2Z.id, drop_ge, app_nil_r by (rewrite (sized_length _ Hs); lia). done.
Qed.

Lemma next_pos start d :
  (d < buckets)%nat -> Z.land (wrap (Z.of_nat (pos start d) + 1)) (HashTable.mask C) = Z.of_nat (pos start (S d)).
Proof.
  intros Hd. replace (Z.of_nat (pos start d) + 1) with (Z.of_nat (pos start d) + Z.of_nat 1) by lia.
  pose proof (pos_lt start d). destruct (decide (1 < buckets)%nat).
  - rewrite probe_pos by done. f_equal. unfold pos. rewrite Nat.Div0.add_mod_idemp_l. f_equal. lia.
  - assert (buckets = 1%nat) as E1 by lia. pose proof buckets_eq as [Eb _]. pose proof (bucket_count_bounds C).
    rewrite wrap_small, mask_mod by (done || lia). rewrite <- Eb, E1. unfold pos. rewrite E1, !Nat.mod_1_r. by rewrite Z.mod_1_r.
Qed.

(** The search for a slot that is not taken, which exists. *)
Lemma skip_occupied_spec cells r start n d d2 :
  sized cells -> (start < buckets)%nat -> (d <= d2)%nat -> (d2 < d + n + 1)%nat -> (d2 < buckets)%nat ->
  (forall d', (d <= d' < d2)%nat -> exists o, cell_at cells start d' = Some (o, SOccupied)) ->
  (forall o, cell_at cells start d2 <> Some (o, SOccupied)) ->
  HashTable.skip_occupied C n (Z.of_nat (pos start d)) (tab cells r) = Ret (Z.of_nat (pos start d2)) (tab cells r).
Proof.
  intros Hs Hst. revert d. induction n as [|n IH]; intros d Hle Hlt Hb Hocc Hno; cbn [HashTable.skip_occupied].
  - assert (d2 = d) as -> by lia. destruct (cell_at_Some cells start d Hs) as [[o s] E].
    rewrite (bind_Ret _ _ _ _ _ (state_cell C cells r _ o s Hs E)). destruct (decide (s = SOccupied)) as [->|]; [by destruct (Hno o)|done].
  - destruct (decide (d = d2)) as [->|].
    + destruct (cell_at_Some cells start d2 Hs) as [[o s] E]. rewrite (bind_Ret _ _ _ _ _ (state_cell C cells r _ o s Hs E)).
      destruct (decide (s = SOccupied)) as [->|]; [by destruct (Hno o)|done].
    + destruct (Hocc d ltac:(lia)) as [o E]. rewrite (bind_Ret _ _ _ _ _ (state_cell C cells r _ o SOccupied Hs E)).
      rewrite decide_True by done. rewrite next_pos by lia. apply IH; [lia..| |done]. intros d' Hd'. apply Hocc. lia.
Qed.

(** The first slot of a probe that is not taken. *)
Lemma first_open cells start :
  sized cells -> (start < buckets)%nat -> (exists d, (d < buckets)%nat /\ forall o, cell_at cells start d <> Some (o, SOccupied)) ->
  exists d2 o s, (d2 < buckets)%nat /\ cell_at cells start d2 = Some (o, s) /\ s <> SOccupied /\
    forall d', (d' < d2)%nat -> exists o, cell_at cells start d' = Some (o, SOccupied).
Proof.
  intros Hs Hst (d & Hd & Hno).
  assert (forall n, (forall d', (d' < n)%nat -> exists o, cell_at cells start d' = Some (o, SOccupied)) \/
    exists d2 o s, (d2 < n)%nat /\ cell_at cells start d2 = Some (o, s) /\ s <> SOccupied /\
      forall d', (d' < d2)%nat -> exists o, cell_at cells start d' = Some (o, SOccupied)) as Hsearch.
  { intros n. induction n as [|n [IH|(d2 & o & s & Hlt & IH)]]; [left; lia| |].
    - destruct (cell_at_Some cells start n Hs) as [[o s] E]. destruct (decide (s = SOccupied)) as [->|].
      + left. intros d' Hd'. destruct (decide (d' = n)) as [->|]; [by exists o|]. apply IH. lia.
      + right. exists n, o, s. split_and!; [lia|done|done|done].
    - right. exists d2, o, s. split; [lia|done]. }
  destruct (Hsearch buckets) as [Hall|(d2 & o & s & Hf)]; [|by exists d2, o, s].
  destruct (Hall d Hd) as [o E]. by destruct (Hno o).
Qed.

(** Placing [carry] ends: each turn but the last gives one marked object its place. *)
Definition placed r carry cells (b : table Hfn Eq V) : Prop :=
  exists cells' t', later (r_throws r) t' /\ b = tab cells' (with_throws t' r) /\ sized cells' /\ rebuilding cells' /\
    all_placed r cells' /\ entries cells' ≡ₚ carry :: entries cells /\
    forall i o, cells' !! i = Some (o, STombstone) -> exists o', cells !! i = Some (o', STombstone).

Lemma all_placed_insert r cells v d :
  sized cells -> all_placed r cells -> (d < buckets)%nat ->
  (forall d', (d' < d)%nat -> exists o, cell_at cells (bucket r (key_of v)) d' = Some (o, SOccupied)) ->
  (forall o, cell_at cells (bucket r (key_of v)) d <> Some (o, SOccupied)) ->
  all_placed r (<[pos (bucket r (key_of v)) d := (Some v, SOccupied)]> cells).
Proof.
  intros Hs Hp Hd Hocc Hno. set (i := pos (bucket r (key_of v)) d).
  assert (i < length cells)%nat as Hi by (rewrite (sized_length _ Hs); apply pos_lt).
  assert (forall start d', (exists o, cell_at cells start d' = Some (o, SOccupied)) ->
    exists o, cell_at (<[i := (Some v, SOccupied)]> cells) start d' = Some (o, SOccupied)) as Hkeep.
  { intros start d' [o E]. unfold cell_at in *. destruct (decide (i = pos start d')) as [->|].
    - exists (Some v). by rewrite list_lookup_insert_eq.
    - exists o. by rewrite list_lookup_insert_ne. }
  intros j w [(<- & ? & _)|[Hne E]]%list_lookup_insert_Some; simplify_eq.
  - exists d. split_and!; [done|done|]. intros d' Hd'. apply Hkeep. by apply Hocc.
  - destruct (Hp j w E) as (dw & Hdw & -> & How). exists dw. split_and!; [done|done|]. intros d' Hd'. apply Hkeep. by apply How.
Qed.

Lemma wp_bucket_during_rebuild cells r carry :
  sized cells -> rebuilding cells ->
  wp (HashTable.bucket_during_rebuild key_of C carry)
    (fun a b => a = Z.of_nat (bucket r (key_of carry)) /\ same cells r b) (abandoned r) (tab cells r).
Proof.
  intros Hs Hc. unfold HashTable.bucket_during_rebuild. apply wp_guarded.
  eapply wp_mono; [apply wp_bucket_index|done|]. intros b [Ht (t' & ->)]. eexists. split; [by apply abandon_spec|].
  split; [done|by exists t'].
Qed.

Lemma wp_place_carry moved r fuel carry cells :
  sized cells -> rebuilding cells -> all_placed r cells -> Z.of_nat (length (entries cells)) < C -> (tombs cells < fuel)%nat ->
  wp (HashTable.place_carry key_of C moved fuel carry) (fun _ => placed r carry cells) (abandoned r) (tab cells r).
Proof.
  revert r carry cells. induction fuel as [|fuel IH]; intros r carry cells Hs Hc Hp Hl Hf; [lia|]. cbn [HashTable.place_carry].
  apply wp_bind. eapply wp_mono; [by apply wp_bucket_during_rebuild| |done]. intros a b [-> (t' & Hlt & ->)].
  set (r' := with_throws t' r). set (start := bucket r (key_of carry)).
  assert (start < buckets)%nat as Hst by apply bucket_lt.
  destruct (first_open cells start Hs Hst) as (d & o & s & Hd & E & Hso & Hocc).
  { pose proof (bucket_count_bounds C). pose proof buckets_eq.
    destruct (decide (Forall (fun x : cell V => x.2 = SOccupied) cells)) as [Hall|Hsome%not_Forall_Exists]; [|..].
    - exfalso. rewrite (entries_full cells Hs) in Hl; [lia|]. intros i Hi.
      destruct (lookup_lt_is_Some_2 cells i) as [[o s] Ei]; [by rewrite (sized_length _ Hs)|].
      pose proof (Forall_lookup_1 _ _ _ _ Hall Ei) as Es. cbn in Es. subst s.
      destruct (proj1 (Hc i _ _ Ei)) as [v ->]; [done|]. by exists v, SOccupied.
    - apply list.Exists_exists in Hsome as ([o s] & [i Ei]%list_elem_of_lookup & Hne). cbn in Hne.
      destruct (pos_onto start i Hst) as (d & Hd & <-); [rewrite <- (sized_length _ Hs); by eapply lookup_lt_Some|].
      exists d. split; [done|]. intros o' E'. unfold cell_at in E'. by simplify_eq.
    - apply _. }
  assert (forall o', cell_at cells start d <> Some (o', SOccupied)) as Hno by (intros o' E'; by simplify_eq).
  pose proof (skip_occupied_spec cells r' start buckets 0 d Hs Hst ltac:(lia) ltac:(lia) Hd) as Esk.
  unfold pos at 1 in Esk. rewrite Nat.add_0_r, Nat.mod_small in Esk by done.
  eapply wp_bind_Ret; [apply Esk; [|done]; intros d' Hd'; apply Hocc; lia|]. unfold cell_at in E. set (i := pos start d) in *.
  eapply wp_bind_Ret; [by apply (state_cell C cells r' i o s)|]. pose proof (lookup_lt_Some _ _ _ E) as Hi.
  pose proof (all_placed_insert r cells carry d Hs Hp Hd Hocc Hno) as Hp'. fold start i in Hp'.
  assert (rebuilding (<[i := (Some carry, SOccupied)]> cells)) as Hc' by (apply rebuilding_insert; [done|naive_solver]).
  destruct (decide (s = SEmpty)) as [->|Hne].
  - assert (o = None) as ->. { destruct o as [v|]; [|done]. by destruct (proj2 (Hc i _ _ E)); [exists v|]. }
    eapply wp_bind_Ret; [by apply (construct_cell C cells r' i carry SEmpty)|].
    eapply wp_Ret; [apply (occupy_cell C _ r' i (Some carry)); [by apply sized_insert|by rewrite list_lookup_insert_eq]|].
    rewrite list_insert_insert_eq. exists (<[i := (Some carry, SOccupied)]> cells), t'.
    split_and!; [done|done|by apply sized_insert|done|done|by eapply entries_add|].
    intros j o' [(_ & ? & _)|[_ Ej]]%list_lookup_insert_Some; [done|by exists o'].
  - assert (s = STombstone) as -> by (by destruct s). destruct (proj1 (Hc i _ _ E) Hne) as [w ->].
    eapply wp_bind_Ret; [by apply (take_cell C moved cells r' i w STombstone)|].
    eapply wp_bind_Ret; [apply (destroy_cell C _ r' i (moved w) STombstone); [by apply sized_insert|by rewrite list_lookup_insert_eq]|].
    eapply wp_bind_Ret; [apply (construct_cell C _ r' i carry STombstone); [by repeat apply sized_insert|by rewrite list_lookup_insert_eq by (by rewrite length_insert)]|].
    eapply wp_bind_Ret; [apply (unmark_cell C _ r' i (Some carry)); [by repeat apply sized_insert|by rewrite list_lookup_insert_eq by (by rewrite !length_insert)]|].
    eapply wp_bind_Ret; [apply (occupy_cell C _ r' i (Some carry)); [by repeat apply sized_insert|by rewrite list_lookup_insert_eq by (by rewrite !length_insert)]|].
    rewrite !list_insert_insert_eq. set (cells' := <[i := (Some carry, SOccupied)]> cells) in *.
    pose proof (entries_replace cells i STombstone w carry SOccupied E) as Hrep. fold cells' in Hrep.
    pose proof (tombs_insert cells i _ _ (Some carry) SOccupied E) as Htm. fold cells' in Htm.
    rewrite decide_True, decide_False in Htm by done. pose proof (Permutation_length Hrep) as Hlen. cbn in Hlen.
    eapply wp_mono; [apply (IH r' w cells'); [by apply sized_insert|done|done|lia|lia]| |intros b; by apply abandoned_later].
    intros ? b (cells2 & t2 & Hl2 & -> & Hs2 & Hc2 & Hp2 & He2 & Ht2). exists cells2, t2.
    split_and!; [by eapply later_trans|done|done|done|done|by rewrite He2, Hrep|].
    intros j o' [o2 [(_ & ? & _)|[_ Ej]]%list_lookup_insert_Some]%Ht2; [done|by exists o2].
Qed.
End probing.
