(* ===== verification/HashTableOps.v ===== *)
(** * The operations of a hash table

    [rehash_in_place], the insertions, erasure and iteration, each as what it does
    to the cells of a table that satisfies its invariant. *)

From Stdlib Require Import ZArith Lia.
From stdpp Require Import base numbers list option tactics.
From S2P Require Import Prelude Bits BitsFacts Hash HashTable HashTableFacts.
Local Open Scope Z_scope.

(** What a rebuild starts from: an element is marked as one without a place. *)
Definition remark {V} (x : cell V) : cell V := (x.1, if decide (x.2 = SOccupied) then STombstone else SEmpty).

Section operations.
  Context `{SizeT} {Hfn Eq K V : Type} `{!Hasher Hfn K, !KeyEqual Eq K K} (key_of : V -> K) (C : Z) `{!TableOk C}.
  Context (h : hardening) (moved : V -> V).
  Implicit Types (cells : list (cell V)) (i j d : nat) (r : rest Hfn Eq) (o : option V) (s : slot_state) (v e : V).
  Abbreviation bc := (HashTable.bucket_count C).
  Abbreviation tab := (tab C).
  Abbreviation sized := (sized C).
  Abbreviation buckets := (buckets C).
  Abbreviation bucket := (bucket C).
  Abbreviation table_inv := (table_inv key_of C).
  Abbreviation matches := (matches key_of).
  Abbreviation keys_apart := (keys_apart key_of).
  Abbreviation all_placed := (all_placed key_of C).

(** ** The rebuild *)

Definition cleared_tombstones r : rest Hfn Eq := mk_rest (r_size r) 0 (r_hasher r) (r_equal r) (r_throws r).

Lemma remark_state cells (z : Z) :
  has_state SOccupied (remark <$> cells) z = false /\
  has_state STombstone (remark <$> cells) z = has_state SOccupied cells z.
Proof. unfold has_state. rewrite list_lookup_fmap. by destruct (cells !! Z.to_nat z) as [[o []]|]. Qed.

Lemma start_rebuild cells r {A} (k : M (table Hfn Eq V) A) Q E :
  wp k Q E (tab (remark <$> cells) (cleared_tombstones r)) ->
  wp (modify (fun b => set_btombstone (boccupied_ b) b) ;;; on_occupied (Bitset.reset_all bc) ;;;
      modify (set_btombstones 0) ;;; k) Q E (tab cells r).
Proof.
  intros Hk. pose proof (bucket_count_bounds C). eapply wp_bind_Ret; [done|].
  eapply wp_bind_Ret; [unfold on_occupied; cbn [HashTableFacts.tab set_btombstone boccupied_]; by rewrite pack_reset_all by lia|].
  eapply wp_bind_Ret; [done|]. revert Hk. unfold HashTableFacts.tab. cbn.
  replace (fst <$> (remark <$> cells)) with (fst <$> cells) by (rewrite <- list_fmap_compose; by apply list_fmap_ext).
  assert (pack bc (has_state SOccupied (remark <$> cells)) = pack bc (fun _ => false)) as ->
    by (apply pack_ext; [lia|lia|]; intros z _; apply remark_state).
  assert (pack bc (has_state STombstone (remark <$> cells)) = pack bc (has_state SOccupied cells)) as ->
    by (apply pack_ext; [lia|lia|]; intros z _; apply remark_state).
  done.
Qed.

Lemma rebuilding_tombs cells : rebuilding cells -> (tombs cells <= length (entries cells))%nat.
Proof.
  intros Hc. assert (Forall (fun x : cell V => x.2 <> SEmpty <-> is_Some x.1) cells) as Hf.
  { apply list.Forall_forall. intros [o s] [i E]%list_elem_of_lookup. by eapply Hc. }
  clear Hc. unfold tombs, entries. induction Hf as [|[o s] cells Hx _ IH]; [done|]. cbn in *.
  destruct o as [v|]; cbn; [case_bool_decide; cbn; lia|].
  rewrite bool_decide_eq_false_2; [done|]. intros ->. by destruct (proj1 Hx) as [? ?].
Qed.

(** How far the rebuild of [cells] has got when slots before [z] are done. *)
Definition rebuilt_to cells r (z : Z) (b : table Hfn Eq V) : Prop :=
  exists cells' t', later (r_throws r) t' /\ b = tab cells' (with_throws t' (cleared_tombstones r)) /\ sized cells' /\
    rebuilding cells' /\ all_placed r cells' /\ entries cells' ≡ₚ entries cells /\
    forall i o, cells' !! i = Some (o, STombstone) -> (Z.to_nat z <= i)%nat.

Lemma remark_rebuilt cells r : sized cells -> coherent cells -> rebuilt_to cells r 0 (tab (remark <$> cells) (cleared_tombstones r)).
Proof.
  intros Hs Hc. exists (remark <$> cells), (r_throws r). split_and!; [apply later_refl|done|..].
  - unfold HashTableFacts.sized. by rewrite length_fmap.
  - intros i o s. rewrite list_lookup_fmap. destruct (cells !! i) as [[o' s']|] eqn:E; [|done]. intros [= <- <-].
    rewrite <- (Hc i _ _ E). by case_decide.
  - intros i v. rewrite list_lookup_fmap. destruct (cells !! i) as [[o' s']|] eqn:E; [|done]. intros [= _ ?]. by case_decide.
  - unfold entries. clear. induction cells as [|[o s] cells IH]; [done|]. cbn in *. by destruct o; rewrite IH.
  - lia.
Qed.

(** The object in slot [i] leaves it to be placed. *)
Lemma wp_lift_mark {A} (k : V -> M (table Hfn Eq V) A) Q E cells r i v :
  sized cells -> cells !! i = Some (Some v, STombstone) ->
  wp (k v) Q E (tab (<[i := (None, SEmpty)]> cells) r) ->
  wp (let! carry := slot_move_out moved (Z.of_nat i) in slot_destroy (Z.of_nat i) ;;;
      on_tombstone (Bitset.reset bc (Z.of_nat i)) ;;; k carry) Q E (tab cells r).
Proof.
  intros Hs E0 Hk. pose proof (lookup_lt_Some _ _ _ E0) as Hi.
  eapply wp_bind_Ret; [by apply (take_cell C moved cells r i v STombstone)|].
  eapply wp_bind_Ret; [apply (destroy_cell C _ r i (moved v) STombstone); [by apply sized_insert|by rewrite list_lookup_insert_eq]|].
  eapply wp_bind_Ret; [apply (unmark_cell C _ r i None); [by repeat apply sized_insert|
    by rewrite list_lookup_insert_eq by (by rewrite length_insert)]|].
  by rewrite !list_insert_insert_eq.
Qed.

Lemma all_placed_lift r cells i v :
  all_placed r cells -> cells !! i = Some (Some v, STombstone) -> all_placed r (<[i := (None, SEmpty)]> cells).
Proof.
  intros Hp E j w [(_ & ? & _)|[Hne Ej]]%list_lookup_insert_Some; [done|]. destruct (Hp j w Ej) as (d & Hd & -> & Ho).
  exists d. split_and!; [done|done|]. intros d' Hd'. destruct (Ho d' Hd') as [o Eo]. exists o. unfold cell_at in *.
  rewrite list_lookup_insert_ne; [done|]. intros ->. by simplify_eq.
Qed.

Lemma wp_rebuild_slot cells r (z : Z) b :
  Z.of_nat (length (entries cells)) <= C -> 0 <= z < bc -> rebuilt_to cells r z b ->
  wp (let! unplaced := on_tombstone (Bitset.test bc z) in
      if negb unplaced then ret tt
      else let! carry := slot_move_out moved z in slot_destroy z ;;; on_tombstone (Bitset.reset bc z) ;;;
        HashTable.place_carry key_of C moved buckets carry)
    (fun _ => rebuilt_to cells r (z + 1)) (abandoned C r) b.
Proof.
  intros Hl Hz (cells' & t' & Hlt & -> & Hs & Hc & Hp & He & Hm). set (i := Z.to_nat z). replace z with (Z.of_nat i) by lia.
  destruct (lookup_lt_is_Some_2 cells' i) as [[o s] E]; [rewrite (sized_length C _ Hs); unfold HashTableFacts.buckets; lia|].
  eapply wp_bind_Ret; [by eapply (tombstone_test C)|]. case_bool_decide as Hst; cbn [negb].
  - subst s. destruct (proj1 (Hc i _ _ E)) as [v ->]; [done|]. apply (wp_lift_mark _ _ _ cells' _ i v Hs E).
    pose proof (entries_remove cells' i STombstone v SEmpty E) as Hr. pose proof (Permutation_length Hr) as Hn. cbn in Hn.
    pose proof (Permutation_length He) as Hn'. set (cells1 := <[i := (None, SEmpty)]> cells') in *.
    assert (rebuilding cells1) as Hc1 by (apply rebuilding_insert; [done|split; [done|by intros [? ?]]]).
    pose proof (rebuilding_tombs cells1 Hc1). pose proof (bucket_count_bounds C).
    eapply wp_mono; [apply (wp_place_carry key_of C moved); [by apply sized_insert|done|by eapply all_placed_lift|lia|
      unfold HashTableFacts.buckets; lia]| |].
    + intros ? b (cells2 & t2 & Hl2 & -> & Hs2 & Hc2 & Hp2 & He2 & Hm2). exists cells2, t2.
      split_and!; [by eapply later_trans|done|done|done|done|by rewrite He2, <- Hr|].
      intros j o [o' [(_ & ? & _)|[Hne Ej]]%list_lookup_insert_Some]%Hm2; [done|]. specialize (Hm j o' Ej). lia.
    + intros b Hb. by apply (abandoned_later C r t').
  - exists cells', t'. split_and!; try done. intros j o' Ej. specialize (Hm j o' Ej). destruct (decide (j = i)) as [->|]; [by simplify_eq|lia].
Qed.

Lemma all_placed_reachable r cells : all_placed r cells -> all_reachable key_of C r cells.
Proof.
  intros Hp i v E. destruct (Hp i v E) as (d & Hd & -> & Ho). exists d. split_and!; [done|done|].
  intros d' Hd'. destruct (Ho d' Hd') as [o Eo]. by exists o, SOccupied.
Qed.

(** The same elements, in places that a probe gets to without a tombstone. *)
Definition rebuilt cells r (b : table Hfn Eq V) : Prop :=
  exists cells' t', later (r_throws r) t' /\ b = tab cells' (with_throws t' (cleared_tombstones r)) /\
    table_inv cells' (with_throws t' (cleared_tombstones r)) /\ entries cells' ≡ₚ entries cells.

Lemma no_marks cells : (forall i o, cells !! i = Some (o, STombstone) -> False) -> tombs cells = 0%nat.
Proof.
  intros Hm. unfold tombs. destruct (List.filter _ cells) as [|[o s] l] eqn:E; [done|exfalso].
  assert (In (o, s) (List.filter (fun x : cell V => bool_decide (x.2 = STombstone)) cells)) as Hx by (rewrite E; by left).
  apply List.filter_In in Hx as [[i Ei]%list_elem_of_In%list_elem_of_lookup Hs%bool_decide_eq_true]. cbn in Hs. subst s. by eapply Hm.
Qed.

Lemma rebuilt_all cells r b : table_inv cells r -> rebuilt_to cells r bc b -> rebuilt cells r b.
Proof.
  intros [Hs Hc Hr Hk Hn Ht Hcap] (cells' & t' & Hlt & -> & Hs' & Hc' & Hp' & He' & Hm').
  assert (forall i o, cells' !! i = Some (o, STombstone) -> False) as Hno.
  { intros i o E. specialize (Hm' i o E). pose proof (lookup_lt_Some _ _ _ E) as Hi. rewrite (sized_length C _ Hs') in Hi.
    unfold HashTableFacts.buckets in Hi. lia. }
  assert (coherent cells') as Hco.
  { intros i o s E. rewrite <- (Hc' i o s E). destruct s; [naive_solver|naive_solver|]. by destruct (Hno i o). }
  exists cells', t'. split_and!; [done|done| |done].
  split; [done|done|by apply all_placed_reachable| | |by rewrite no_marks|done].
  - apply distinct_keys_apart; [done|]. apply (keys_apart_perm key_of r (entries cells)); [by symmetry|].
    by apply distinct_keys_apart.
  - cbn. by rewrite He'.
Qed.

Lemma wp_rehash cells r :
  C <> 0 -> table_inv cells r ->
  wp (HashTable.rehash_in_place key_of C moved) (fun _ => rebuilt cells r) (abandoned C r) (tab cells r).
Proof.
  intros HC Hi. pose proof Hi as [Hs Hc Hr Hk Hn Ht Hcap]. unfold HashTable.rehash_in_place.
  rewrite (proj2 (Z.eqb_neq _ _) HC). apply start_rebuild. pose proof (bucket_count_bounds C).
  eapply wp_mono; [apply (wp_for_up (rebuilt_to cells r) (abandoned C r)); [by apply remark_rebuilt|]| |done].
  - intros z b Hz Hb. apply wp_rebuild_slot; [lia|lia|done].
  - intros ? b Hb. apply rebuilt_all; [done|]. by rewrite Z2Nat.id, Z.add_0_l in Hb by lia.
Qed.

(** ** Tables as bags of elements *)

(** A table with functions [hs] and [eq] that holds [bag], after a run of steps
    that started with the script [t]. *)
Definition is_table hs eq t (bag : list V) cells r : Prop :=
  table_inv cells r /\ entries cells ≡ₚ bag /\ r_hasher r = hs /\ r_equal r = eq /\ later t (r_throws r).
Definition holding hs eq t bag (b : table Hfn Eq V) : Prop := exists cells r, b = tab cells r /\ is_table hs eq t bag cells r.

(** Slot [z] of it holds [e]. *)
Definition holding_at hs eq t bag (z : Z) e (b : table Hfn Eq V) : Prop :=
  exists cells r i, b = tab cells r /\ is_table hs eq t bag cells r /\ z = Z.of_nat i /\ cells !! i = Some (Some e, SOccupied).

Definition failed hs eq t (bag : list V) (b : table Hfn Eq V) : Prop := true ∈ t /\ holding hs eq t bag b.

Lemma holding_at_holding hs eq t bag z e b : holding_at hs eq t bag z e b -> holding hs eq t bag b.
Proof. intros (cells & r & i & -> & Ht & _). by exists cells, r. Qed.

Lemma is_table_throws hs eq t bag cells r t' :
  is_table hs eq t bag cells r -> later (r_throws r) t' -> is_table hs eq t bag cells (with_throws t' r).
Proof.
  intros (Hi & Hb & <- & <- & Hl) Hl'. split_and!; [by apply with_throws_inv|done|done|done|by eapply later_trans].
Qed.

Lemma is_table_failed hs eq t bag cells r b : is_table hs eq t bag cells r -> thrown C cells r b -> failed hs eq t bag b.
Proof.
  intros Ht [Hx (t' & ->)]. destruct (Ht) as (_ & _ & _ & _ & Hl). split; [auto|]. exists cells, (with_throws t' r).
  split; [done|]. apply is_table_throws; [done|by intros ?].
Qed.

Lemma is_table_same hs eq t bag cells r b : is_table hs eq t bag cells r -> same C cells r b -> holding hs eq t bag b.
Proof. intros Ht (t' & Hl & ->). exists cells, (with_throws t' r). split; [done|]. by apply is_table_throws. Qed.

Lemma is_table_perm hs eq t bag bag' cells r : bag ≡ₚ bag' -> is_table hs eq t bag cells r -> is_table hs eq t bag' cells r.
Proof. intros Hp (Hi & Hb & Hr). split_and!; [done|by rewrite Hb|apply Hr..]. Qed.

Lemma is_table_size hs eq t bag cells r : is_table hs eq t bag cells r -> r_size r = Z.of_nat (length bag) /\ r_size r <= C.
Proof. intros ([] & Hb & _). rewrite <- Hb. done. Qed.

Lemma is_table_elem hs eq t bag cells r i e :
  is_table hs eq t bag cells r -> cells !! i = Some (Some e, SOccupied) -> e ∈ bag.
Proof. intros (Hi & Hb & _) E. rewrite <- Hb. apply elem_of_entries; [apply Hi|by exists i]. Qed.

(** No element of the bag has the key. *)
Definition absent {Q} `{!KeyEqual Eq K Q} (eq : Eq) (key : Q) (bag : list V) : Prop :=
  forall e, e ∈ bag -> key_equal eq (key_of e) key = false.

Lemma no_match_absent {Q} `{!KeyEqual Eq K Q} hs eq t bag cells r (key : Q) :
  is_table hs eq t bag cells r -> (forall v, v ∈ entries cells -> ~ matches r key v) -> absent eq key bag.
Proof.
  intros (_ & Hb & _ & <- & _) Hn e He. rewrite <- Hb in He. apply not_true_iff_false. by apply Hn.
Qed.

(** *** Looking a key up *)

Lemma wp_lookup {Q} `{!Hasher Hfn Q, !KeyEqual Eq K Q, !QueryLaws Hfn Eq K Q} hs eq t bag (key : Q) cells r :
  is_table hs eq t bag cells r ->
  wp (HashTable.find_existing_index key_of C key)
    (fun a b => (exists i e t', later (r_throws r) t' /\ b = tab cells (with_throws t' r) /\ a = Z.of_nat i /\
         (a =? HashTable.npos) = false /\ cells !! i = Some (Some e, SOccupied) /\ key_equal eq (key_of e) key = true) \/
       (exists t', later (r_throws r) t' /\ b = tab cells (with_throws t' r) /\ a = HashTable.npos /\ absent eq key bag))
    (failed hs eq t bag) (tab cells r).
Proof.
  intros Ht. pose proof Ht as ([Hs Hc Hr Hk Hn Htm Hcap] & Hb & _ & Heq & _).
  eapply wp_mono; [by apply (wp_find_existing key_of C)| |intros b; by apply is_table_failed].
  intros a b [(t' & Hl & ->) [(i & e & -> & E & Hm)|[-> Hno]]].
  - left. exists i, e, t'. split_and!; [done|done|done| |done|by rewrite <- Heq].
    apply Z.eqb_neq. pose proof (npos_above C). pose proof (cell_index C _ _ _ Hs E). lia.
  - right. exists t'. split_and!; [done|done|done|]. destruct Hno as [HC|Ha].
    + intros e He. apply elem_of_Permutation in He as [l He]. rewrite <- Hb in He. apply Permutation_length in He.
      cbn in He. lia.
    + eapply no_match_absent; [done|]. by apply (absent_no_match key_of C).
Qed.

(** *** Inserting *)

Section inserting.
  Context `{!KeyLaws Hfn Eq K}.

(** Where a key is or would go: a table always has a slot for one more. *)
Lemma wp_locate_table hs eq t bag key cells r :
  C <> 0 -> is_table hs eq t bag cells r ->
  wp (HashTable.locate_insert_index key_of C key)
    (fun a b => exists i t', a = Some (Z.of_nat i) /\ later (r_throws r) t' /\ b = tab cells (with_throws t' r) /\
      ((exists e, cells !! i = Some (Some e, SOccupied) /\ key_equal eq (key_of e) key = true) \/
       (is_free key_of C r key cells (bucket r key) i /\ absent eq key bag)))
    (failed hs eq t bag) (tab cells r).
Proof.
  intros HC Ht. pose proof Ht as ([Hs Hc Hr Hk Hn Htm Hcap] & Hb & _ & Heq & _).
  eapply wp_mono; [by apply (wp_locate key_of C)| |intros b; by apply is_table_failed].
  intros a b [(t' & Hl & ->) [(i & e & -> & E & Hm)|[(i & -> & Hf)|[-> Hno]]]].
  - exists i, t'. split_and!; [done|done|done|]. left. exists e. by rewrite <- Heq.
  - exists i, t'. split_and!; [done|done|done|]. right. split; [done|]. eapply no_match_absent; [done|].
    apply (absent_no_match key_of C r cells key); [done|done|apply Hf].
  - exfalso. revert Hno. apply (has_room key_of C r key); [done|done|by apply bucket_lt|lia].
Qed.

(** [entry] yields [e] without changing the table, though it may read it. *)
Definition yields cells (entry : M (table Hfn Eq V) V) e : Prop :=
  forall r, wp entry (fun a b => a = e /\ same C cells r b) (thrown C cells r) (tab cells r).

Lemma yields_throws cells e : yields cells (may_throw ;;; ret e) e.
Proof.
  intros r. apply wp_may_throw; intros t' Ht; [|split; [done|by exists t']]. split; [done|]. by exists t'.
Qed.

Lemma free_cell r key cells i :
  coherent cells -> is_free key_of C r key cells (bucket r key) i -> exists s, cells !! i = Some (None, s) /\ s <> SOccupied.
Proof.
  intros Hc [(d & o & s & _ & -> & E & Hs & _) _]. exists s. split; [|done]. unfold cell_at in E. rewrite E.
  destruct o as [v|]; [|done]. destruct Hs. by apply (Hc _ _ _ E).
Qed.

Lemma tombs_bound cells : (tombs cells <= length cells)%nat.
Proof. apply List.filter_length_le. Qed.

(** The last statements of an insertion. *)
Lemma wp_occupy hs eq t bag cells r i e tb n s :
  is_table hs eq t bag cells r -> is_free key_of C r (key_of e) cells (bucket r (key_of e)) i -> r_size r < C ->
  cells !! i = Some (None, s) -> n = r_size r -> tb = r_tombstones r - (if decide (s = STombstone) then 1 else 0) ->
  wp (HashTable.set_state C (Z.of_nat i) SOccupied ;;; modify (fun b => set_bsize (wrap (bsize_ b + 1)) b))
    (fun _ => holding_at hs eq t (e :: bag) (Z.of_nat i) e) (fun _ => False)
    (tab (<[i := (Some e, s)]> cells) (mk_rest n tb (r_hasher r) (r_equal r) (r_throws r))).
Proof.
  intros (Hi & Hb & Hh & He & Hl) Hf Hlt E -> ->. pose proof (lookup_lt_Some _ _ _ E) as Hil.
  eapply wp_bind_Ret; [apply (set_state_cell C _ _ i (Some e) s); [apply sized_insert, Hi|by rewrite list_lookup_insert_eq]|].
  rewrite list_insert_insert_eq. eapply wp_Ret; [reflexivity|].
  assert (wrap (r_size r + 1) = r_size r + 1) as Ew.
  { pose proof (bucket_count_bounds C). pose proof (inv_size _ _ _ _ Hi). apply wrap_small. lia. }
  destruct (inv_insert key_of C cells r i e _ _ Hi Hf Hlt eq_refl eq_refl) as [Hinv Hp].
  pose proof (tombs_insert cells i _ _ (Some e) SOccupied E) as Htm. rewrite (decide_False (P := SOccupied = _)) in Htm by done.
  exists (<[i := (Some e, SOccupied)]> cells), (mk_rest (wrap (r_size r + 1))
    (r_tombstones r - (if decide (s = STombstone) then 1 else 0)) (r_hasher r) (r_equal r) (r_throws r)), i. split; [done|].
  split; [|split; [done|by rewrite list_lookup_insert_eq]]. rewrite Ew.
  replace (r_tombstones r - (if decide (s = STombstone) then 1 else 0)) with
    (Z.of_nat (tombs (<[i := (Some e, SOccupied)]> cells))) by (rewrite (inv_tombs _ _ _ _ Hi); case_decide; lia).
  split_and!; [done|by rewrite Hp, Hb|done|done|done].
Qed.

Lemma wp_place_at hs eq t bag cells r i entry e :
  is_table hs eq t bag cells r -> is_free key_of C r (key_of e) cells (bucket r (key_of e)) i -> r_size r < C ->
  yields cells entry e ->
  wp (HashTable.place_at C (Z.of_nat i) entry) (fun _ => holding_at hs eq t (e :: bag) (Z.of_nat i) e)
    (failed hs eq t bag) (tab cells r).
Proof.
  intros Ht Hf Hlt Hy. pose proof Ht as (Hi & _). destruct (free_cell r (key_of e) cells i) as (s & E & Hso); [apply Hi|done|].
  pose proof (lookup_lt_Some _ _ _ E) as Hil. pose proof (cell_index C _ _ _ (inv_sized _ _ _ _ Hi) E) as Hix.
  unfold HashTable.place_at. zbool. eapply wp_bind_Ret; [done|]. apply wp_bind.
  eapply wp_mono; [apply Hy| |intros b; by apply is_table_failed]. intros a b [-> (t' & Hl & ->)].
  pose proof (is_table_throws _ _ _ _ _ _ t' Ht Hl) as Ht'. set (r' := with_throws t' r) in *.
  eapply wp_bind_Ret; [apply (construct_cell C _ _ i e s); [apply Hi|done]|].
  eapply wp_bind_Ret; [apply (state_cell C _ _ i (Some e) s); [apply sized_insert, Hi|by rewrite list_lookup_insert_eq]|].
  pose proof (tombs_insert cells i _ _ None SEmpty E) as Htm. rewrite (decide_False (P := SEmpty = _)) in Htm by done.
  pose proof (inv_tombs _ _ _ _ Hi). pose proof (tombs_bound cells). pose proof (inv_sized _ _ _ _ Hi) as Hs.
  unfold HashTableFacts.sized in Hs. pose proof (bucket_count_bounds C).
  eapply (wp_bind_Ret _ _ _ _ _ tt (tab (<[i := (Some e, s)]> cells) (mk_rest (r_size r')
    (r_tombstones r' - (if decide (s = STombstone) then 1 else 0)) (r_hasher r') (r_equal r') (r_throws r')))).
  { case_decide as Hst; [|rewrite Z.sub_0_r; by destruct r']. unfold modify. do 2 f_equal.
    unfold set_btombstones, HashTableFacts.tab. cbn. rewrite wrap_small by lia. done. }
  eapply wp_mono; [by apply (wp_occupy hs eq t bag cells r' i e)|done|done].
Qed.

Lemma blank_table hs eq t t' tb : later t t' -> tb = 0 -> is_table hs eq t [] (blank C) (mk_rest 0 tb hs eq t').
Proof.
  intros Hl ->. pose proof (bucket_count_bounds C). assert (entries (V := V) (blank C) = []) as He.
  { unfold blank, entries. by induction (HashTableFacts.buckets C). }
  assert (forall i (x : cell V), blank C !! i = Some x -> x = (None, SEmpty)) as Hx.
  { intros i x. unfold blank. by intros [-> _]%lookup_replicate. }
  split_and!; [|by rewrite He|done|done|done]. split.
  - apply sized_of_buckets; [done|]. unfold blank. by rewrite length_replicate.
  - intros i o s [= -> ->]%Hx. split; [done|by intros [? ?]].
  - by intros i v [=]%Hx.
  - by intros i j v w [=]%Hx.
  - by rewrite He.
  - cbn. rewrite no_marks; [done|]. by intros i o [=]%Hx.
  - cbn. destruct TableOk0. lia.
Qed.

(** An exception left the bag as it was, or came from the hasher in a rebuild,
    where [cannot] says that there are any. *)
Definition lost (cannot : bool) hs eq t bag (b : table Hfn Eq V) : Prop :=
  true ∈ t /\ (holding hs eq t bag b \/ (cannot = true /\ holding hs eq t [] b)).

Lemma failed_lost cannot hs eq t bag b : failed hs eq t bag b -> lost cannot hs eq t bag b.
Proof. intros [Ht Hb]. split; [done|by left]. Qed.

Lemma rebuilt_table hs eq t bag cells r b :
  is_table hs eq t bag cells r -> rebuilt cells r b ->
  exists cells' r', b = tab cells' r' /\ is_table hs eq t bag cells' r' /\ r_tombstones r' = 0 /\ r_size r' = r_size r.
Proof.
  intros (_ & Hb & Hh & He & Hl) (cells' & t' & Hl' & -> & Hi' & Hp). exists cells', (with_throws t' (cleared_tombstones r)).
  split_and!; [done| |done|done]. split_and!; [done|by rewrite Hp|done|done|by eapply later_trans].
Qed.

Lemma abandoned_lost hs eq t bag cells r b : is_table hs eq t bag cells r -> abandoned C r b -> lost true hs eq t bag b.
Proof.
  intros (_ & _ & <- & <- & Hl) [Ht (t' & ->)]. split; [auto|]. right. split; [done|]. eexists _, _. split; [done|].
  apply blank_table; [|done]. intros ?. auto.
Qed.

(** The insertion that rebuilds first: the new element is not part of the table
    while that happens. *)
Lemma wp_rebuild_and_place hs eq t bag cells r e :
  C <> 0 -> is_table hs eq t bag cells r -> absent eq (key_of e) bag -> r_size r < C ->
  wp (HashTable.rehash_in_place key_of C moved ;;;
      let! located := HashTable.locate_insert_index key_of C (key_of e) in
      let index := default HashTable.npos located in
      metl_harden (index <? bc) ;;;
      slot_construct index e ;;;
      HashTable.set_state C index SOccupied ;;;
      modify (fun b => set_bsize (wrap (bsize_ b + 1)) b) ;;;
      ret index)
    (fun a => holding_at hs eq t (e :: bag) a e) (lost true hs eq t bag) (tab cells r).
Proof.
  intros HC Ht Ha Hlt. apply wp_bind. eapply wp_mono; [apply wp_rehash; [done|apply Ht]| |intros b; by eapply abandoned_lost].
  intros [] b Hb. destruct (rebuilt_table _ _ _ _ _ _ _ Ht Hb) as (cells' & r' & -> & Ht' & Htb & Hsz).
  apply wp_bind. eapply wp_mono; [by eapply wp_locate_table| |intros b; by apply failed_lost].
  intros a b (i & t2 & -> & Hl2 & -> & [(e' & E' & Hm)|[Hf _]]).
  { pose proof (is_table_elem _ _ _ _ _ _ _ _ Ht' E') as He'. by rewrite (Ha e' He') in Hm. }
  pose proof (is_table_throws _ _ _ _ _ _ t2 Ht' Hl2) as Ht2. pose proof Ht2 as (Hi & _).
  destruct (free_cell r' (key_of e) cells' i) as (s & E & Hso); [apply Hi|done|].
  pose proof (cell_index C _ _ _ (inv_sized _ _ _ _ Hi) E) as Hix. cbn [default id]. zbool. eapply wp_bind_Ret; [done|].
  eapply wp_bind_Ret; [apply (construct_cell C _ _ i e s); [apply Hi|done]|].
  assert (s <> STombstone) as Hst.
  { intros ->. pose proof (tombs_insert cells' i _ _ None SEmpty E) as Htm. rewrite decide_True, decide_False in Htm by done.
    pose proof (inv_tombs _ _ _ _ Hi) as Hn. cbn in Hn. lia. }
  assert (wp (HashTable.set_state C (Z.of_nat i) SOccupied ;;; modify (fun b => set_bsize (wrap (bsize_ b + 1)) b))
    (fun _ => holding_at hs eq t (e :: bag) (Z.of_nat i) e) (fun _ => False)
    (tab (<[i := (Some e, s)]> cells') (with_throws t2 r'))) as Hw.
  { pose proof (wp_occupy hs eq t bag cells' (with_throws t2 r') i e (r_tombstones r') (r_size r') s Ht2 Hf) as Hw.
    apply Hw; [by rewrite <- Hsz in Hlt|done|done|]. rewrite decide_False by done. cbn. lia. }
  revert Hw. unfold wp, bind. destruct (HashTable.set_state C _ _ _) as [[] b| | | |]; [|done..]. cbn. done.
Qed.

Lemma wp_construct_at cannot hs eq t bag cells r i entry e :
  C <> 0 -> is_table hs eq t bag cells r -> is_free key_of C r (key_of e) cells (bucket r (key_of e)) i ->
  absent eq (key_of e) bag -> r_size r < C -> yields cells entry e ->
  wp (HashTable.construct_at key_of C moved cannot (Z.of_nat i) entry) (fun a => holding_at hs eq t (e :: bag) a e)
    (lost cannot hs eq t bag) (tab cells r).
Proof.
  intros HC Ht Hf Ha Hlt Hy. unfold HashTable.construct_at. eapply wp_bind_Ret; [done|].
  destruct (cannot && _) eqn:Er; [apply andb_true_iff in Er as [-> _]|].
  - apply wp_bind. eapply wp_mono; [apply Hy| |intros b Hb; by apply failed_lost; eapply is_table_failed].
    intros a b [-> (t' & Hl & ->)]. apply wp_rebuild_and_place; [done|by apply is_table_throws|done|done].
  - apply wp_bind. eapply wp_mono; [by apply (wp_place_at hs eq t bag)| |intros b; by apply failed_lost]. done.
Qed.

(** What [try_emplace] answers. *)
Definition tried hs eq t bag e (a : bool) (b : table Hfn Eq V) : Prop :=
  (a = true /\ absent eq (key_of e) bag /\ Z.of_nat (length bag) < C /\ holding hs eq t (e :: bag) b) \/
  (a = false /\ (Z.of_nat (length bag) = C \/ exists e', e' ∈ bag /\ key_equal eq (key_of e') (key_of e) = true) /\
    holding hs eq t bag b).

Lemma wp_table_try_emplace cannot hs eq t bag cells r entry e :
  is_table hs eq t bag cells r -> yields cells entry e ->
  wp (HashTable.try_emplace key_of C moved cannot (key_of e) entry) (tried hs eq t bag e) (lost cannot hs eq t bag) (tab cells r).
Proof.
  intros Ht Hy. destruct (is_table_size _ _ _ _ _ _ Ht) as [Hn Hcap]. pose proof Ht as (Hi & _).
  unfold HashTable.try_emplace. destruct (decide (C = 0)) as [HC|HC].
  { unfold HashTable.locate_insert_index. rewrite HC at 1. cbn. right. split_and!; [done|left; lia|by exists cells, r]. }
  apply wp_bind. eapply wp_mono; [by eapply wp_locate_table| |intros b; by apply failed_lost].
  intros a b (i & t' & -> & Hl & -> & Hloc). pose proof (is_table_throws _ _ _ _ _ _ t' Ht Hl) as Ht'.
  assert (holding hs eq t bag (tab cells (with_throws t' r))) as Hb by (by exists cells, (with_throws t' r)).
  destruct Hloc as [(e' & E & Hm)|[Hf Ha]].
  - eapply wp_bind_Ret; [apply (state_cell C _ _ i (Some e') SOccupied); [apply Hi|done]|]. rewrite decide_True by done.
    right. split_and!; [done| |done]. right. exists e'. split; [by eapply is_table_elem|done].
  - destruct (free_cell r (key_of e) cells i) as (s & E & Hso); [apply Hi|done|].
    eapply wp_bind_Ret; [apply (state_cell C _ _ i None s); [apply Hi|done]|]. rewrite decide_False by done.
    eapply wp_bind_Ret; [done|]. cbn [bsize_ HashTableFacts.tab r_size with_throws].
    destruct (Z.leb_spec C (r_size r)).
    + right. split_and!; [done|left; lia|done].
    + apply wp_bind. eapply wp_mono; [eapply (wp_construct_at cannot hs eq t bag _ _ i _ e); [done|done|done|done|cbn; lia|done]| |done].
      intros z b Hz. left. split_and!; [done|done|lia|]. eapply holding_at_holding. exact Hz.
Qed.

(** [emplace] and [operator[]], for a key that is absent and a table with room. *)
Lemma wp_emplace_new cannot hs eq t bag cells r entry e :
  is_table hs eq t bag cells r -> yields cells entry e -> absent eq (key_of e) bag -> Z.of_nat (length bag) < C ->
  wp (HashTable.emplace_new key_of h C moved cannot (key_of e) entry) (fun a => holding_at hs eq t (e :: bag) a e)
    (lost cannot hs eq t bag) (tab cells r).
Proof.
  intros Ht Hy Ha Hlt. destruct (is_table_size _ _ _ _ _ _ Ht) as [Hn Hcap]. pose proof Ht as (Hi & _).
  unfold HashTable.emplace_new. eapply wp_bind_Ret; [done|]. cbn [bsize_ HashTableFacts.tab]. zbool.
  eapply wp_bind_Ret; [done|]. apply wp_bind. eapply wp_mono; [eapply wp_locate_table; [lia|done]| |intros b; by apply failed_lost].
  intros a b (i & t' & -> & Hl & -> & [(e' & E & Hm)|[Hf _]]).
  { pose proof (is_table_elem _ _ _ _ _ _ _ _ Ht E) as He'. by rewrite (Ha e' He') in Hm. }
  destruct (free_cell r (key_of e) cells i) as (s & E & Hso); [apply Hi|done|]. cbn [default id].
  eapply wp_bind_Ret; [apply metl_assert_true|].
  eapply (wp_bind_Ret _ _ _ _ _ tt (tab cells (with_throws t' r))).
  { assert (forall h', (let! s := HashTable.state C (Z.of_nat i) in metl_assert h' (negb (bool_decide (s = SOccupied))))
      (tab cells (with_throws t' r)) = Ret tt (tab cells (with_throws t' r))) as Hst.
    { intros h'. erewrite bind_Ret; [|apply (state_cell C _ _ i None s); [apply Hi|done]].
      rewrite bool_decide_eq_false_2 by done. apply metl_assert_true. }
    destruct h; [done|apply Hst..]. }
  apply wp_bind. eapply wp_mono; [eapply (wp_construct_at cannot hs eq t bag); [lia|by apply is_table_throws|done|done|cbn; lia|done]| |done].
  intros z b (cells' & r' & j & -> & Ht' & -> & Ej). eapply wp_bind_Ret; [by apply (ref_cell C cells' r' j e SOccupied)|].
  by exists cells', r', j.
Qed.

Lemma emplace_new_full cannot bag cells r entry key hs eq t :
  is_table hs eq t bag cells r -> Z.of_nat (length bag) = C ->
  HashTable.emplace_new key_of h C moved cannot key entry (tab cells r) = Trap.
Proof.
  intros Ht Hl. destruct (is_table_size _ _ _ _ _ _ Ht) as [Hn Hcap]. unfold HashTable.emplace_new.
  erewrite bind_Ret; [|done]. cbn [bsize_ HashTableFacts.tab]. zbool. done.
Qed.
End inserting.

(** *** Assigning: the key stays *)

Lemma inv_assign cells r i e e' :
  table_inv cells r -> cells !! i = Some (Some e, SOccupied) -> key_of e' = key_of e ->
  table_inv (<[i := (Some e', SOccupied)]> cells) r.
Proof.
  intros [Hs Hc Hr Hk Hn Ht Hcap] E Hke. pose proof (lookup_lt_Some _ _ _ E) as Hi.
  assert (forall j w, <[i := (Some e', SOccupied)]> cells !! j = Some (Some w, SOccupied) ->
    exists w', cells !! j = Some (Some w', SOccupied) /\ key_of w = key_of w') as Hl.
  { intros j w [(<- & ? & _)|[_ Ew]]%list_lookup_insert_Some; simplify_eq; [by exists e|by exists w]. }
  split; [by apply sized_insert|apply coherent_insert; [done|by split; [exists e'|]]| | | | |done].
  - intros j w (w' & Ew & Hkw)%Hl. unfold reachable. rewrite Hkw. apply (reachable_insert key_of C r); [by apply Hr|done|done].
  - intros j1 j2 w1 w2 (w1' & E1 & Hk1)%Hl (w2' & E2 & Hk2)%Hl. unfold HashTableFacts.matches. rewrite Hk1, Hk2. by apply Hk.
  - rewrite Hn. pose proof (Permutation_length (entries_replace cells i SOccupied e e' SOccupied E)) as Hp. cbn in Hp. lia.
  - rewrite Ht. pose proof (tombs_insert cells i _ _ (Some e') SOccupied E) as Htm. rewrite decide_False in Htm by done. lia.
Qed.

Lemma is_table_assign hs eq t bag cells r i e e' :
  is_table hs eq t bag cells r -> cells !! i = Some (Some e, SOccupied) -> key_of e' = key_of e ->
  exists others, bag ≡ₚ e :: others /\ is_table hs eq t (e' :: others) (<[i := (Some e', SOccupied)]> cells) r.
Proof.
  intros Ht E Hke. pose proof (is_table_elem _ _ _ _ _ _ _ _ Ht E) as [others Ho]%elem_of_Permutation.
  exists others. split; [done|]. destruct Ht as (Hi & Hb & Hrest). split_and!; [by eapply inv_assign| |apply Hrest..].
  apply (Permutation_cons_inv (a := e)). rewrite (entries_replace cells i SOccupied e e' SOccupied E), Hb, Ho. constructor.
Qed.

(** *** Erasing *)

Lemma destroy_at_cell cells r i e s :
  sized cells -> cells !! i = Some (Some e, SOccupied) -> s <> SOccupied ->
  HashTable.destroy_at C (Z.of_nat i) s (tab cells r) = Ret tt (tab (<[i := (None, s)]> cells)
    (mk_rest (wrap (r_size r - 1)) (if decide (s = STombstone) then wrap (r_tombstones r + 1) else r_tombstones r)
      (r_hasher r) (r_equal r) (r_throws r))).
Proof.
  intros Hs E Hso. pose proof (lookup_lt_Some _ _ _ E) as Hi. unfold HashTable.destroy_at.
  erewrite bind_Ret; [|by apply (set_state_cell C cells r i (Some e) SOccupied s)].
  erewrite bind_Ret; [|done].
  erewrite (bind_Ret _ _ _ tt (tab (<[i := (Some e, s)]> cells) (mk_rest (wrap (r_size r - 1))
    (if decide (s = STombstone) then wrap (r_tombstones r + 1) else r_tombstones r) (r_hasher r) (r_equal r) (r_throws r))));
    [|by case_decide].
  rewrite (destroy_cell C _ _ i e s); [|by apply sized_insert|by rewrite list_lookup_insert_eq]. by rewrite list_insert_insert_eq.
Qed.

Lemma erase_cell hs eq t bag cells r i e :
  is_table hs eq t bag cells r -> cells !! i = Some (Some e, SOccupied) ->
  exists r' bag', HashTable.destroy_at C (Z.of_nat i) STombstone (tab cells r) =
      Ret tt (tab (<[i := (None, STombstone)]> cells) r') /\
    is_table hs eq t bag' (<[i := (None, STombstone)]> cells) r' /\ bag ≡ₚ e :: bag' /\ r_throws r' = r_throws r.
Proof.
  intros (Hi & Hb & Hh & He & Hl) E. pose proof (inv_sized _ _ _ _ Hi) as Hs.
  destruct (inv_remove key_of C cells r i e _ _ Hi E eq_refl eq_refl) as [Hi' Hp].
  eexists _, (entries (<[i := (None, STombstone)]> cells)). split; [by apply (destroy_at_cell cells r i e)|].
  pose proof (bucket_count_bounds C). pose proof (inv_size _ _ _ _ Hi) as Hn. pose proof (inv_capacity _ _ _ _ Hi) as Hcap.
  pose proof (inv_tombs _ _ _ _ Hi) as Ht. pose proof (tombs_bound cells). unfold HashTableFacts.sized in Hs.
  pose proof (Permutation_length Hp) as Hlen. cbn in Hlen. rewrite decide_True by done. rewrite !wrap_small by lia.
  split; [by split_and!|]. split; [by rewrite <- Hb|done].
Qed.

Lemma wp_erase {Q} `{!Hasher Hfn Q, !KeyEqual Eq K Q, !QueryLaws Hfn Eq K Q} hs eq t bag (key : Q) cells r :
  is_table hs eq t bag cells r ->
  wp (HashTable.erase key_of C key)
    (fun a b => (a = false /\ absent eq key bag /\ holding hs eq t bag b) \/
      exists e bag', a = true /\ key_equal eq (key_of e) key = true /\ bag ≡ₚ e :: bag' /\ holding hs eq t bag' b)
    (failed hs eq t bag) (tab cells r).
Proof.
  intros Ht. unfold HashTable.erase. apply wp_bind. eapply wp_mono; [by apply (wp_lookup hs eq t bag key)| |done].
  intros a b [(i & e & t' & Hl & -> & -> & -> & E & Hk)|(t' & Hl & -> & -> & Ha)].
  - destruct (erase_cell hs eq t bag cells (with_throws t' r) i e) as (r' & bag' & Er & Ht' & Hp & _); [by apply is_table_throws|done|].
    eapply wp_bind_Ret; [exact Er|]. right. exists e, bag'. split_and!; [done|done|done|]. by exists (<[i := (None, STombstone)]> cells), r'.
  - rewrite Z.eqb_refl. left. split_and!; [done|done|]. exists cells, (with_throws t' r). split; [done|by apply is_table_throws].
Qed.

(** *** Clearing *)

Lemma entries_drop cells i o s : cells !! i = Some (o, s) -> entries (drop i cells) = option_list o ++ entries (drop (S i) cells).
Proof. intros E. rewrite (drop_S cells _ i E). unfold entries. cbn. by destruct o. Qed.

Lemma entries_length cells : (length (entries cells) <= length cells)%nat.
Proof. unfold entries. induction cells as [|[[v|] s] cells IH]; cbn in *; lia. Qed.

Lemma table_clear_spec cells r :
  sized cells -> coherent cells ->
  exists n, HashTable.clear C (tab cells r) = Ret tt (tab (blank C) (mk_rest n 0 (r_hasher r) (r_equal r) (r_throws r))) /\
    (r_size r = Z.of_nat (length (entries cells)) -> n = 0).
Proof.
  intros Hs Hc. unfold HashTable.clear. fold buckets. pose proof (bucket_count_bounds C).
  destruct (for_up_inv (fun (z : Z) b => exists n, b = tab (replicate (Z.to_nat z) (None, SEmpty) ++ drop (Z.to_nat z) cells)
      (mk_rest n (r_tombstones r) (r_hasher r) (r_equal r) (r_throws r)) /\
      (r_size r = Z.of_nat (length (entries cells)) -> n = Z.of_nat (length (entries (drop (Z.to_nat z) cells)))))
    (fun i : Z => let! s := HashTable.state C i in
      if decide (s = SOccupied) then HashTable.destroy_at C i SEmpty else HashTable.set_state C i SEmpty) buckets 0 (tab cells r))
    as (b & E & n & -> & Hn).
  - exists (r_size r). rewrite drop_0. split; [by destruct r|done].
  - intros z b Hz (n & -> & Hn). set (i := Z.to_nat z) in *. replace z with (Z.of_nat i) by lia.
    destruct (lookup_lt_is_Some_2 cells i) as [[o s] Ei]; [rewrite (sized_length C _ Hs); lia|].
    pose proof (blanked_lookup cells i _ Ei) as Eb. pose proof (blanked_sized C cells i Hs ltac:(lia)) as Hsb.
    pose proof (blanked_step cells i _ Ei) as Est. replace (Z.to_nat (Z.of_nat i + 1)) with (S i) by lia.
    rewrite (entries_drop cells i o s Ei) in Hn.
    rewrite (bind_Ret _ _ _ _ _ (state_cell C _ _ i o s Hsb Eb)). destruct (decide (s = SOccupied)) as [->|Hso].
    + destruct (proj1 (Hc i _ _ Ei)) as [e ->]; [done|]. rewrite (destroy_at_cell _ _ i e SEmpty) by done. rewrite Est.
      eexists. split; [done|]. eexists. split; [done|]. intros Hr. specialize (Hn Hr). rewrite length_app in Hn.
      change (length (option_list (Some e))) with 1%nat in Hn.
      pose proof (entries_length (drop (S i) cells)) as Hle. rewrite length_drop in Hle.
      unfold HashTableFacts.sized in Hs. cbn [r_size]. rewrite wrap_small; lia.
    + assert (o = None) as ->. { destruct o as [v|]; [|done]. destruct Hso. by apply (Hc i _ _ Ei). }
      rewrite (set_state_cell C _ _ i None s SEmpty) by done. rewrite Est. eexists. split; [done|]. by exists n.
  - exists n. rewrite (bind_Ret _ _ _ _ _ E). rewrite Z.add_0_l, Nat2Z.id, drop_ge, app_nil_r in * by (rewrite (sized_length C _ Hs); lia).
    done.
Qed.

(** *** Iterating *)

(** The next element from slot [i] on, or the end. *)
Definition is_next cells i (z : Z) : Prop :=
  (exists j e, z = Z.of_nat j /\ (z =? bc) = false /\ (i <= j)%nat /\ cells !! j = Some (Some e, SOccupied) /\
    entries (drop i cells) = e :: entries (drop (S j) cells)) \/
  (z = bc /\ entries (drop i cells) = []).

Lemma entries_skip cells i j :
  coherent cells -> (i <= j)%nat -> (forall k o s, (i <= k < j)%nat -> cells !! k = Some (o, s) -> s <> SOccupied) ->
  entries (drop i cells) = entries (drop j cells).
Proof.
  intros Hc Hle Hno. induction Hle as [|j Hle IH]; [done|]. rewrite IH by (intros k o s Hk; apply (Hno k); lia).
  destruct (cells !! j) as [[o s]|] eqn:E.
  - rewrite (entries_drop cells j o s E). destruct o as [v|]; [|done]. destruct (Hno j (Some v) s); [lia|done|]. by apply (Hc j _ _ E).
  - apply lookup_ge_None in E. by rewrite !drop_ge by lia.
Qed.

Lemma find_next_cell cells r i :
  sized cells -> coherent cells ->
  exists z, on_occupied (Bitset.find_next_set bc (Z.of_nat i)) (tab cells r) = Ret z (tab cells r) /\ is_next cells i z.
Proof.
  intros Hs Hc. pose proof (bucket_count_bounds C).
  assert (1 <= bc) as H1 by lia. assert (bc + 31 < 2 ^ size_bits) as H2 by lia.
  destruct (pack_find bc H1 H2 (has_state SOccupied cells) (Z.of_nat i) ltac:(lia)) as (z & Ez & Hf).
  exists z. split; [unfold on_occupied; cbn [HashTableFacts.tab boccupied_]; by rewrite Ez|].
  assert (forall k o s, has_state SOccupied cells (Z.of_nat k) = false -> cells !! k = Some (o, s) -> s <> SOccupied) as Hno.
  { intros k o s Hst E ->. unfold has_state in Hst. rewrite Nat2Z.id, E in Hst. by rewrite bool_decide_eq_true_2 in Hst. }
  destruct Hf as [[Hz [Hge [Hst Hmin]]]|[-> Hall]].
  - left. destruct (Z_of_nat_complete z) as [j ->]; [lia|]. unfold has_state in Hst. rewrite Nat2Z.id in Hst.
    destruct (cells !! j) as [[o s]|] eqn:E; [|done]. apply bool_decide_eq_true in Hst. subst s.
    destruct (proj1 (Hc j _ _ E)) as [e ->]; [done|]. exists j, e. split_and!; [done|by apply Z.eqb_neq; lia|lia|done|].
    rewrite (entries_skip cells i j), (entries_drop cells j _ _ E); [done|done|lia|].
    intros k o s Hk. apply Hno, Hmin. lia.
  - right. split; [done|]. rewrite (entries_skip cells i (max i (length cells))); [by rewrite drop_ge by lia|done|lia|].
    intros k o s Hk E. apply (Hno k o s); [|done]. apply Hall. unfold HashTableFacts.sized in Hs. apply lookup_lt_Some in E. lia.
Qed.

Lemma entries_drop_insert cells i (x : cell V) k : (i < k)%nat -> entries (drop k (<[i := x]> cells)) = entries (drop k cells).
Proof. intros Hk. by rewrite drop_insert_lt. Qed.

(** Elements go one at a time: those that the predicate picks, in slot order. *)
Definition picked (pred : V -> bool) (bag bag' gone : list V) : Prop :=
  bag ≡ₚ gone ++ bag' /\ Forall (fun e => pred e = true) gone.

Definition erasing pred hs eq t bag0 gone i cells r : Prop :=
  exists bag kept, is_table hs eq t bag cells r /\ picked pred bag0 bag gone /\
    entries cells ≡ₚ kept ++ entries (drop i cells) /\ Forall (fun e => pred e = false) kept.

Definition erased_all pred hs eq t bag0 (a : Z) (b : table Hfn Eq V) : Prop :=
  exists bag gone, holding hs eq t bag b /\ picked pred bag0 bag gone /\ Forall (fun e => pred e = false) bag /\
    a = Z.of_nat (length gone).
Definition erased_some pred hs eq t bag0 (b : table Hfn Eq V) : Prop :=
  exists bag gone, failed hs eq t bag b /\ picked pred bag0 bag gone.

Lemma erasing_done pred hs eq t bag0 gone i cells r :
  erasing pred hs eq t bag0 gone i cells r -> entries (drop i cells) = [] ->
  erased_all pred hs eq t bag0 (Z.of_nat (length gone)) (tab cells r).
Proof.
  intros (bag & kept & Ht & Hpk & Hk & Hkept) He. exists bag, gone. split_and!; [by exists cells, r|done| |done].
  destruct Ht as (_ & Hb & _). by rewrite <- Hb, Hk, He, app_nil_r.
Qed.

Lemma erasing_keep pred hs eq t bag0 gone i j e cells r t' :
  erasing pred hs eq t bag0 gone i cells r -> later (r_throws r) t' ->
  entries (drop i cells) = e :: entries (drop (S j) cells) -> pred e = false ->
  erasing pred hs eq t bag0 gone (S j) cells (with_throws t' r).
Proof.
  intros (bag & kept & Ht & Hpk & Hk & Hkept) Hl He Hp. exists bag, (e :: kept).
  split_and!; [by apply is_table_throws|done| |by constructor]. rewrite Hk, He. by rewrite <- Permutation_middle.
Qed.

Lemma erasing_erase pred hs eq t bag0 gone i j e cells r t' :
  erasing pred hs eq t bag0 gone i cells r -> later (r_throws r) t' -> cells !! j = Some (Some e, SOccupied) ->
  entries (drop i cells) = e :: entries (drop (S j) cells) -> pred e = true ->
  exists r', HashTable.destroy_at C (Z.of_nat j) STombstone (tab cells (with_throws t' r)) =
      Ret tt (tab (<[j := (None, STombstone)]> cells) r') /\
    erasing pred hs eq t bag0 (e :: gone) (S j) (<[j := (None, STombstone)]> cells) r'.
Proof.
  intros (bag & kept & Ht & [Hg Hpg] & Hk & Hkept) Hl E He Hp.
  destruct (erase_cell hs eq t bag cells (with_throws t' r) j e) as (r' & bag' & Er & Ht' & Hb' & _); [by apply is_table_throws|done|].
  exists r'. split; [done|]. exists bag', kept. split_and!; [done| | |done].
  - split; [|by constructor]. rewrite Hg, Hb'. cbn. by rewrite <- Permutation_middle.
  - rewrite entries_drop_insert by lia. apply (Permutation_cons_inv (a := e)).
    rewrite <- (entries_remove cells j SOccupied e STombstone E), Hk, He. by rewrite <- Permutation_middle.
Qed.

Lemma wp_erase_loop pred fuel hs eq t bag0 gone cells r i z :
  erasing pred hs eq t bag0 gone i cells r -> is_next cells i z -> (buckets <= i + fuel)%nat -> Z.of_nat (length bag0) <= C ->
  wp (HashTable.erase_loop C fuel pred z (Z.of_nat (length gone))) (erased_all pred hs eq t bag0)
    (erased_some pred hs eq t bag0) (tab cells r).
Proof.
  revert gone cells r i z. induction fuel as [|fuel IH]; intros gone cells r i z Hst Hnx Hf HC0; cbn [HashTable.erase_loop];
    unfold HashTable.end_; pose proof Hst as (bag & kept & Ht & Hpk & _); pose proof Ht as ([Hs Hc _ _ _ _ _] & _);
    (destruct Hnx as [(j & e & -> & -> & Hij & E & Hnx)|[-> He]]; [|rewrite Z.eqb_refl; by eapply erasing_done]).
  { exfalso. apply lookup_lt_Some in E. rewrite (sized_length C _ Hs) in E. lia. }
  eapply wp_bind_Ret; [by apply (ref_cell C cells r j e SOccupied)|]. apply wp_may_throw.
  2: { intros t' Htt. exists bag, gone. split; [|done]. eapply is_table_failed; [done|]. split; [done|by exists t']. }
  intros t' Hl. destruct (pred e) eqn:Hp.
  - destruct (erasing_erase _ _ _ _ _ _ _ _ _ _ _ t' Hst Hl E Hnx Hp) as (r' & Er & Hst').
    destruct Hst' as (bag' & kept' & Ht' & Hr'). pose proof Ht' as ([Hs' Hc' _ _ _ _ _] & _).
    destruct (find_next_cell (<[j := (None, STombstone)]> cells) r' (S j) Hs' Hc') as (z' & Ez & Hn').
    eapply (wp_bind_Ret _ _ _ _ _ z' (tab (<[j := (None, STombstone)]> cells) r')).
    { unfold HashTable.erase_at. pose proof (cell_index C _ _ _ Hs E). cbn [andb]. zbool.
      erewrite bind_Ret; [|by erewrite bind_Ret; [|by apply (state_cell C _ _ j (Some e) SOccupied)]].
      rewrite bool_decide_eq_true_2 by done. erewrite bind_Ret; [|done]. rewrite (bind_Ret _ _ _ _ _ Er).
      unfold HashTable.next. rewrite <- Ez. do 2 f_equal. lia. }
    destruct Hpk as [Hpk _]. pose proof (Permutation_length Hpk) as Hn. rewrite length_app in Hn.
    pose proof Hr' as ([Hpk' _] & _). pose proof (Permutation_length Hpk') as Hn2. rewrite length_app in Hn2. cbn in Hn2.
    pose proof (bucket_count_bounds C).
    replace (wrap (Z.of_nat (length gone) + 1)) with (Z.of_nat (length (e :: gone))) by (rewrite wrap_small; cbn [length]; lia).
    apply (IH (e :: gone) _ r' (S j) z'); [by exists bag', kept'|done|lia|done].
  - destruct (find_next_cell cells (with_throws t' r) (S j) Hs Hc) as (z' & Ez & Hn').
    eapply (wp_bind_Ret _ _ _ _ _ z' (tab cells (with_throws t' r))).
    { unfold HashTable.next. rewrite <- Ez. do 2 f_equal. lia. }
    apply (IH gone _ _ (S j) z'); [by eapply erasing_keep|done|lia|done].
Qed.

Lemma wp_table_erase_if pred hs eq t bag cells r :
  is_table hs eq t bag cells r ->
  wp (HashTable.erase_if C pred) (erased_all pred hs eq t bag) (erased_some pred hs eq t bag) (tab cells r).
Proof.
  intros Ht. pose proof Ht as ([Hs Hc _ _ _ _ _] & Hb & _). destruct (is_table_size _ _ _ _ _ _ Ht) as [Hn Hcap].
  unfold HashTable.erase_if. destruct (find_next_cell cells r 0 Hs Hc) as (z & Ez & Hnx).
  eapply wp_bind_Ret; [exact Ez|]. apply (wp_erase_loop pred _ hs eq t bag [] cells r 0 z); [|done|done|lia].
  exists bag, []. split_and!; [done|by split|by rewrite drop_0|constructor].
Qed.

(** A client that visits every element. *)
Fixpoint items_from (fuel : nat) (it : Z) : M (table Hfn Eq V) (list V) :=
  if it =? HashTable.end_ C then ret []
  else
    match fuel with
    | O => fun _ => Spin
    | S fuel' =>
        let! e := slot_ref it in
        let! it' := HashTable.next C it in
        let! es := items_from fuel' it' in
        ret (e :: es)
    end.
Definition items : M (table Hfn Eq V) (list V) := let! it := HashTable.begin_ C in items_from buckets it.

Lemma items_from_spec fuel cells r i z :
  sized cells -> coherent cells -> is_next cells i z -> (buckets <= i + fuel)%nat ->
  items_from fuel z (tab cells r) = Ret (entries (drop i cells)) (tab cells r).
Proof.
  intros Hs Hc. revert i z. induction fuel as [|fuel IH]; intros i z Hnx Hf; cbn [items_from]; unfold HashTable.end_;
    (destruct Hnx as [(j & e & -> & -> & Hij & E & ->)|[-> ->]]; [|by rewrite Z.eqb_refl]).
  { exfalso. apply lookup_lt_Some in E. rewrite (sized_length C _ Hs) in E. lia. }
  erewrite bind_Ret; [|by apply (ref_cell C cells r j e SOccupied)].
  destruct (find_next_cell cells r (S j) Hs Hc) as (z' & Ez & Hn'). rewrite Nat2Z.inj_succ in Ez.
  unfold HashTable.next at 1. rewrite (bind_Ret _ _ _ _ _ Ez). by erewrite bind_Ret; [|apply IH; [done|lia]].
Qed.

Lemma items_spec hs eq t bag cells r :
  is_table hs eq t bag cells r -> exists l, items (tab cells r) = Ret l (tab cells r) /\ l ≡ₚ bag.
Proof.
  intros ([Hs Hc _ _ _ _ _] & Hb & _). destruct (find_next_cell cells r 0 Hs Hc) as (z & Ez & Hnx).
  exists (entries cells). split; [|done]. unfold items. change (HashTable.begin_ C) with (on_occupied (Hs := Hfn) (Eq := Eq) (V := V)
    (Bitset.find_next_set bc (Z.of_nat 0))). rewrite (bind_Ret _ _ _ _ _ Ez). by rewrite (items_from_spec _ _ _ 0), drop_0.
Qed.
End operations.
