(* ===== verification/HashTablePairs.v ===== *)
(** * Two hash tables: swapping and assigning

    [swap_contents], and the loops of copy and move assignment, on the cells of two
    tables. *)

From Stdlib Require Import ZArith Lia.
From stdpp Require Import base numbers list option tactics.
From S2P Require Import Prelude Bits BitsFacts Hash HashTable HashTableFacts HashTableOps.
Local Open Scope Z_scope.

Section pairs.
  Context `{SizeT} {Hfn Eq K V : Type} `{!Hasher Hfn K, !KeyEqual Eq K K} (key_of : V -> K) (C : Z) `{!TableOk C}.
  Context (h : hardening) (moved : V -> V) (torn_hasher : Hfn -> Hfn) (torn_equal : Eq -> Eq) (torn : V -> V -> V).
  Implicit Types (cells : list (cell V)) (i j : nat) (r : rest Hfn Eq) (o : option V) (s : slot_state) (v e : V).
  Abbreviation bc := (HashTable.bucket_count C).
  Abbreviation tab := (tab C).
  Abbreviation sized := (sized C).
  Abbreviation pair := (table Hfn Eq V * table Hfn Eq V)%type.

(** ** Swapping *)

Definition whole cells : Prop := sized cells /\ coherent cells.

(** Both tables can be cleared; nothing is said of their sizes and functions. *)
Definition broken (t : list bool) (p : pair) : Prop :=
  true ∈ t /\ exists cells1 cells2 r1 r2, p = (tab cells1 r1, tab cells2 r2) /\ whole cells1 /\ whole cells2.

Lemma pair_broken_later t t' p : later t t' -> broken t' p -> broken t p.
Proof. intros Hl [Ht Hp]. split; [auto|done]. Qed.

Definition paired cells1 cells2 r1 r2 (p : pair) : Prop :=
  exists t', later (r_throws r1) t' /\ p = (tab cells1 (with_throws t' r1), tab cells2 r2).

(** The first table's script decides. *)
Lemma wp_pair_may_throw {A} (k : M pair A) undo Q E cells1 cells2 r1 r2 :
  (forall t', later (r_throws r1) t' -> wp k Q E (tab cells1 (with_throws t' r1), tab cells2 r2)) ->
  (forall t', true ∈ r_throws r1 -> exists p, undo (tab cells1 (with_throws t' r1), tab cells2 r2) = Ret tt p /\ E p) ->
  wp (guarded (on_fst may_throw) undo ;;; k) Q E (tab cells1 r1, tab cells2 r2).
Proof.
  intros Hk Ht. apply wp_bind, wp_guarded, wp_on_fst. unfold may_throw. destruct r1 as [n tb hs eq [|[] t]]; cbn in *.
  - exact (Hk [] (later_refl [])).
  - apply (Ht t). by left.
  - apply (Hk t). intros ?. by right.
Qed.

Lemma whole_insert cells i o s : whole cells -> (s = SOccupied <-> is_Some o) -> whole (<[i := (o, s)]> cells).
Proof. intros [Hs Hc] Ho. split; [by apply sized_insert|by apply coherent_insert]. Qed.

(** Steps of one of the two tables. *)
Ltac on1 L := eapply wp_bind_Ret; [apply (on_fst_Ret _ (_, _)); L|]; cbn [fst snd].
Ltac on2 L := eapply wp_bind_Ret; [apply (on_snd_Ret _ (_, _)); L|]; cbn [fst snd].

(** The branches in which one table gives its element to the other. *)
Lemma give_steps cells1 cells2 r1 r2 i x s :
  whole cells1 -> whole cells2 -> cells1 !! i = Some (Some x, SOccupied) -> cells2 !! i = Some (None, s) ->
  slot_assign (Z.of_nat i) (moved x) (tab cells1 r1) = Ret tt (tab (<[i := (Some (moved x), SOccupied)]> cells1) r1) /\
  slot_construct (Z.of_nat i) x (tab cells2 r2) = Ret tt (tab (<[i := (Some x, s)]> cells2) r2) /\
  HashTable.set_state C (Z.of_nat i) s (tab (<[i := (Some (moved x), SOccupied)]> cells1) r1) =
    Ret tt (tab (<[i := (Some (moved x), s)]> cells1) r1) /\
  HashTable.set_state C (Z.of_nat i) SOccupied (tab (<[i := (Some x, s)]> cells2) r2) =
    Ret tt (tab (<[i := (Some x, SOccupied)]> cells2) r2) /\
  slot_destroy (Z.of_nat i) (tab (<[i := (Some (moved x), s)]> cells1) r1) = Ret tt (tab (<[i := (None, s)]> cells1) r1).
Proof.
  intros [Hs1 _] [Hs2 _] E1 E2. pose proof (lookup_lt_Some _ _ _ E1). pose proof (lookup_lt_Some _ _ _ E2). split_and!.
  - by apply (assign_cell C cells1 r1 i x _ SOccupied).
  - by apply (construct_cell C cells2 r2 i x s).
  - rewrite (set_state_cell C _ r1 i (Some (moved x)) SOccupied); [|by apply sized_insert|by rewrite list_lookup_insert_eq].
    by rewrite list_insert_insert_eq.
  - rewrite (set_state_cell C _ r2 i (Some x) s); [|by apply sized_insert|by rewrite list_lookup_insert_eq].
    by rewrite list_insert_insert_eq.
  - rewrite (destroy_cell C _ r1 i (moved x) s); [|by apply sized_insert|by rewrite list_lookup_insert_eq].
    by rewrite list_insert_insert_eq.
Qed.

Lemma broken_here cells1 cells2 r1 r2 t : whole cells1 -> whole cells2 -> true ∈ t -> broken t (tab cells1 r1, tab cells2 r2).
Proof. intros Hw1 Hw2 Ht. split; [done|]. by exists cells1, cells2, r1, r2. Qed.

Lemma tear_slot cells r i v w :
  whole cells -> cells !! i = Some (Some v, SOccupied) ->
  slot_assign (Z.of_nat i) w (tab cells r) = Ret tt (tab (<[i := (Some w, SOccupied)]> cells) r) /\
  whole (<[i := (Some w, SOccupied)]> cells).
Proof.
  intros Hw E. split; [apply (assign_cell C cells r i v w SOccupied); [apply Hw|done]|].
  apply whole_insert; [done|]. split; [by exists w|done].
Qed.

Lemma wp_give_first cells1 cells2 r1 r2 i x s :
  whole cells1 -> whole cells2 -> cells1 !! i = Some (Some x, SOccupied) -> cells2 !! i = Some (None, s) ->
  wp (let! x := on_fst (slot_ref (Z.of_nat i)) in
      guarded (on_fst may_throw) (on_fst (slot_assign (Z.of_nat i) (torn x x))) ;;;
      on_fst (slot_assign (Z.of_nat i) (moved x)) ;;; on_snd (slot_construct (Z.of_nat i) x) ;;;
      on_fst (HashTable.set_state C (Z.of_nat i) s) ;;; on_snd (HashTable.set_state C (Z.of_nat i) SOccupied) ;;;
      on_fst (slot_destroy (Z.of_nat i)))
    (fun _ => paired (<[i := (None, s)]> cells1) (<[i := (Some x, SOccupied)]> cells2) r1 r2)
    (broken (r_throws r1)) (tab cells1 r1, tab cells2 r2).
Proof.
  intros Hw1 Hw2 E1 E2. on1 ltac:(by apply (ref_cell C cells1 r1 i x SOccupied)). apply wp_pair_may_throw.
  2: { intros t' Ht. destruct (tear_slot cells1 (with_throws t' r1) i x (torn x x) Hw1 E1) as [Ea Hw].
       eexists. split; [apply (on_fst_Ret _ (_, _)); exact Ea|by apply broken_here]. }
  intros t' Hl.
  destruct (give_steps cells1 cells2 (with_throws t' r1) r2 i x s Hw1 Hw2 E1 E2) as (Ea & Eb & Ec & Ed & Ee).
  on1 ltac:(exact Ea). on2 ltac:(exact Eb). on1 ltac:(exact Ec). on2 ltac:(exact Ed).
  eapply wp_Ret; [apply (on_fst_Ret _ (_, _)); exact Ee|]. by exists t'.
Qed.

Lemma wp_give_second cells1 cells2 r1 r2 i y s :
  whole cells1 -> whole cells2 -> cells1 !! i = Some (None, s) -> cells2 !! i = Some (Some y, SOccupied) ->
  wp (let! y := on_snd (slot_ref (Z.of_nat i)) in
      guarded (on_fst may_throw) (on_snd (slot_assign (Z.of_nat i) (torn y y))) ;;;
      on_snd (slot_assign (Z.of_nat i) (moved y)) ;;; on_fst (slot_construct (Z.of_nat i) y) ;;;
      on_snd (HashTable.set_state C (Z.of_nat i) s) ;;; on_fst (HashTable.set_state C (Z.of_nat i) SOccupied) ;;;
      on_snd (slot_destroy (Z.of_nat i)))
    (fun _ => paired (<[i := (Some y, SOccupied)]> cells1) (<[i := (None, s)]> cells2) r1 r2)
    (broken (r_throws r1)) (tab cells1 r1, tab cells2 r2).
Proof.
  intros Hw1 Hw2 E1 E2. on2 ltac:(by apply (ref_cell C cells2 r2 i y SOccupied)). apply wp_pair_may_throw.
  2: { intros t' Ht. destruct (tear_slot cells2 r2 i y (torn y y) Hw2 E2) as [Ea Hw].
       eexists. split; [apply (on_snd_Ret _ (_, _)); exact Ea|by apply broken_here]. }
  intros t' Hl.
  destruct (give_steps cells2 cells1 r2 (with_throws t' r1) i y s Hw2 Hw1 E2 E1) as (Ea & Eb & Ec & Ed & Ee).
  on2 ltac:(exact Ea). on1 ltac:(exact Eb). on2 ltac:(exact Ec). on1 ltac:(exact Ed).
  eapply wp_Ret; [apply (on_snd_Ret _ (_, _)); exact Ee|]. by exists t'.
Qed.

Lemma wp_swap_marks cells1 cells2 r1 r2 i s1 s2 :
  whole cells1 -> whole cells2 -> cells1 !! i = Some (None, s1) -> cells2 !! i = Some (None, s2) ->
  wp (on_fst (HashTable.set_state C (Z.of_nat i) s2) ;;; on_snd (HashTable.set_state C (Z.of_nat i) s1))
    (fun _ => paired (<[i := (None, s2)]> cells1) (<[i := (None, s1)]> cells2) r1 r2)
    (broken (r_throws r1)) (tab cells1 r1, tab cells2 r2).
Proof.
  intros [Hs1 _] [Hs2 _] E1 E2. on1 ltac:(by apply (set_state_cell C cells1 r1 i None s1 s2)).
  eapply wp_Ret; [apply (on_snd_Ret _ (_, _)); by apply (set_state_cell C cells2 r2 i None s2 s1)|].
  exists (r_throws r1). split; [apply later_refl|by destruct r1].
Qed.

Lemma whole_object cells i o s : whole cells -> cells !! i = Some (o, s) ->
  (s = SOccupied /\ exists v, o = Some v) \/ (s <> SOccupied /\ o = None).
Proof.
  intros [_ Hc] E. destruct (Hc i o s E) as [H1 H2]. destruct o as [v|]; [left|right]; split; auto; [by exists v|].
  intros Hs. by destruct (H1 Hs).
Qed.

Lemma wp_swap_slot cells1 cells2 r1 r2 i x y :
  whole cells1 -> whole cells2 -> cells1 !! i = Some x -> cells2 !! i = Some y ->
  wp (HashTable.swap_slot C moved torn (Z.of_nat i)) (fun _ => paired (<[i := y]> cells1) (<[i := x]> cells2) r1 r2)
    (broken (r_throws r1)) (tab cells1 r1, tab cells2 r2).
Proof.
  intros Hw1 Hw2 E1 E2. destruct x as [o1 s1], y as [o2 s2]. unfold HashTable.swap_slot.
  on1 ltac:(apply (state_cell C cells1 r1 i o1 s1); [apply Hw1|done]).
  on2 ltac:(apply (state_cell C cells2 r2 i o2 s2); [apply Hw2|done]).
  destruct (whole_object cells1 i o1 s1 Hw1 E1) as [[-> [x ->]]|[H1 ->]], (whole_object cells2 i o2 s2 Hw2 E2) as [[-> [y ->]]|[H2 ->]].
  - on1 ltac:(by apply (ref_cell C cells1 r1 i x SOccupied)). on2 ltac:(by apply (ref_cell C cells2 r2 i y SOccupied)).
    apply wp_pair_may_throw.
    2: { intros t' Ht. destruct (tear_slot cells1 (with_throws t' r1) i x (torn x y) Hw1 E1) as [Ea Hwa].
         destruct (tear_slot cells2 r2 i y (torn y x) Hw2 E2) as [Eb Hwb]. eexists.
         split; [erewrite bind_Ret; [|apply (on_fst_Ret _ (_, _)); exact Ea]; apply (on_snd_Ret _ (_, _)); exact Eb|by apply broken_here]. }
    intros t' Hl. on1 ltac:(apply (assign_cell C cells1 _ i x y SOccupied); [apply Hw1|done]).
    eapply wp_Ret; [apply (on_snd_Ret _ (_, _)); apply (assign_cell C cells2 r2 i y x SOccupied); [apply Hw2|done]|]. by exists t'.
  - destruct s2; [|done|]; by apply wp_give_first.
  - destruct s1; [|done|]; by apply wp_give_second.
  - destruct s1, s2; try done; by apply wp_swap_marks.
Qed.

Definition swapping cells1 cells2 r1 r2 (z : Z) (p : pair) : Prop :=
  exists cells1' cells2', paired cells1' cells2' r1 r2 p /\ whole cells1' /\ whole cells2' /\
    cells1' = take (Z.to_nat z) cells2 ++ drop (Z.to_nat z) cells1 /\
    cells2' = take (Z.to_nat z) cells1 ++ drop (Z.to_nat z) cells2.

Lemma wp_table_swap_slots cells1 cells2 r1 r2 :
  whole cells1 -> whole cells2 ->
  wp (for_up (Z.to_nat bc) 0 (HashTable.swap_slot C moved torn)) (fun _ => paired cells2 cells1 r1 r2) (broken (r_throws r1))
    (tab cells1 r1, tab cells2 r2).
Proof.
  intros Hw1 Hw2. pose proof (sized_buckets C _ (proj1 Hw1)) as Hl1. pose proof (sized_buckets C _ (proj1 Hw2)) as Hl2.
  eapply wp_mono; [apply (wp_for_up (swapping cells1 cells2 r1 r2) (broken (r_throws r1)))| |done].
  - exists cells1, cells2. rewrite !take_0, !drop_0. split; [|by split_and!].
    exists (r_throws r1). split; [apply later_refl|by destruct r1].
  - intros z p Hz (cells1' & cells2' & (t' & Hl & ->) & Hw1' & Hw2' & -> & ->). set (i := Z.to_nat z) in *.
    destruct (lookup_lt_is_Some_2 cells1 i) as [x Ex]; [lia|]. destruct (lookup_lt_is_Some_2 cells2 i) as [y Ey]; [lia|].
    pose proof (take_drop_lookup cells2 cells1 i ltac:(lia)) as E1. rewrite Ex in E1.
    pose proof (take_drop_lookup cells1 cells2 i ltac:(lia)) as E2. rewrite Ey in E2.
    replace z with (Z.of_nat i) by lia.
    eapply wp_mono; [apply (wp_swap_slot _ _ _ r2 i x y Hw1' Hw2' E1 E2)| |intros p; by apply pair_broken_later].
    intros ? p (t2 & Hl2' & ->). eexists _, _. split; [exists t2; split; [by eapply later_trans|done]|].
    replace (Z.to_nat (Z.of_nat i + 1)) with (S i) by lia. destruct x as [o1 s1], y as [o2 s2].
    split; [apply whole_insert; [done|by apply (proj2 Hw2 i)]|]. split; [apply whole_insert; [done|by apply (proj2 Hw1 i)]|].
    split; [by apply take_drop_insert with (y := (o1, s1))|by apply take_drop_insert with (y := (o2, s2))].
  - intros ? p (cells1' & cells2' & Hp & _ & _ & -> & ->). pose proof (bucket_count_bounds C).
    by rewrite Z.add_0_l, Nat2Z.id, !take_ge, !drop_ge, !app_nil_r in Hp by lia.
Qed.

Definition with_hasher hs r : rest Hfn Eq := mk_rest (r_size r) (r_tombstones r) hs (r_equal r) (r_throws r).
Definition with_equal eq r : rest Hfn Eq := mk_rest (r_size r) (r_tombstones r) (r_hasher r) eq (r_throws r).

(** A swap of the functions, and one that throws. *)
Lemma wp_swap_contents cells1 cells2 r1 r2 :
  whole cells1 -> whole cells2 ->
  wp (HashTable.swap_contents C moved torn_hasher torn_equal torn)
    (fun _ p => exists t', later (r_throws r1) t' /\ p = (tab cells2 (with_throws t' r2), tab cells1 (with_throws (r_throws r2) r1)))
    (broken (r_throws r1)) (tab cells1 r1, tab cells2 r2).
Proof.
  intros Hw1 Hw2. unfold HashTable.swap_contents. do 2 (eapply wp_bind_Ret; [reflexivity|]).
  cbn [fst snd HashTableFacts.tab bhasher_ bequal_]. apply wp_pair_may_throw.
  2: { intros t' Ht. exists (tab cells1 (with_hasher (torn_hasher (r_hasher r1)) (with_throws t' r1)),
         tab cells2 (with_hasher (torn_hasher (r_hasher r2)) r2)). split; [done|by apply broken_here]. }
  intros t1 Hl1. set (ra := with_hasher (r_hasher r2) (with_throws t1 r1)). set (rb := with_hasher (r_hasher r1) r2).
  eapply (wp_bind_Ret _ _ _ _ _ tt (tab cells1 ra, tab cells2 r2)); [reflexivity|].
  eapply (wp_bind_Ret _ _ _ _ _ tt (tab cells1 ra, tab cells2 rb)); [reflexivity|].
  eapply (wp_bind_Ret _ _ _ _ _ (r_equal r1) (tab cells1 ra, tab cells2 rb)); [reflexivity|].
  eapply (wp_bind_Ret _ _ _ _ _ (r_equal r2) (tab cells1 ra, tab cells2 rb)); [reflexivity|]. apply wp_pair_may_throw.
  2: { intros t' Ht. exists (tab cells1 (with_equal (torn_equal (r_equal r1)) (with_throws t' ra)),
         tab cells2 (with_equal (torn_equal (r_equal r2)) rb)). split; [done|]. apply broken_here; [done|done|auto]. }
  intros t2 Hl2. set (ra' := with_equal (r_equal r2) (with_throws t2 ra)). set (rb' := with_equal (r_equal r1) rb).
  eapply (wp_bind_Ret _ _ _ _ _ tt (tab cells1 ra', tab cells2 rb)); [reflexivity|].
  eapply (wp_bind_Ret _ _ _ _ _ tt (tab cells1 ra', tab cells2 rb')); [reflexivity|]. apply wp_bind.
  eapply wp_mono; [by apply (wp_table_swap_slots cells1 cells2 ra' rb')| |].
  2: { intros p. apply pair_broken_later. by eapply later_trans. }
  intros ? p (t3 & Hl3 & ->). do 7 (eapply wp_bind_Ret; [reflexivity|]). exists t3. cbn in Hl2, Hl3.
  split; [by do 2 (eapply later_trans; [eassumption|])|done].
Qed.

(** Both tables empty, with functions that may be those of either. *)
Definition both_empty (t : list bool) (p : pair) : Prop :=
  true ∈ t /\ exists hs1 eq1 t1 hs2 eq2 t2,
    p = (tab (blank C) (mk_rest 0 0 hs1 eq1 t1), tab (blank C) (mk_rest 0 0 hs2 eq2 t2)).

Lemma wp_table_swap cannot cells1 cells2 r1 r2 :
  whole cells1 -> whole cells2 -> (cannot = true -> true ∉ r_throws r1) ->
  wp (HashTable.swap C moved torn_hasher torn_equal torn cannot false)
    (fun _ p => exists t', later (r_throws r1) t' /\ p = (tab cells2 (with_throws t' r2), tab cells1 (with_throws (r_throws r2) r1)))
    (both_empty (r_throws r1)) (tab cells1 r1, tab cells2 r2).
Proof.
  intros Hw1 Hw2 Hc. pose proof (wp_swap_contents cells1 cells2 r1 r2 Hw1 Hw2) as Hs. unfold HashTable.swap. destruct cannot.
  { eapply wp_mono; [exact Hs|done|]. intros p [Ht _]. by destruct (Hc eq_refl). }
  apply wp_guarded. eapply wp_mono; [exact Hs|done|]. intros p [Ht (c1 & c2 & q1 & q2 & -> & [Hs1 Hc1] & [Hs2 Hc2])].
  destruct (table_clear_spec C c1 q1 Hs1 Hc1) as (n1 & E1 & _). destruct (table_clear_spec C c2 q2 Hs2 Hc2) as (n2 & E2 & _).
  eexists. split; [|split; [done|]; by eexists (r_hasher q1), (r_equal q1), (r_throws q1), (r_hasher q2), (r_equal q2), (r_throws q2)].
  erewrite bind_Ret; [|apply (on_fst_Ret _ (_, _)); by erewrite bind_Ret; [|exact E1]]. cbn [fst snd].
  apply (on_snd_Ret _ (_, _)). by erewrite bind_Ret; [|exact E2].
Qed.

(** ** Assigning *)

Context `{!KeyLaws Hfn Eq K}.
Abbreviation holding := (holding key_of C).

(** The first table has some of the elements, the second is still whole; a copy has
    not changed it. *)
Definition cut_short (take tv : V -> V) hs eq t cells2 r2 (p : pair) : Prop :=
  true ∈ t /\ exists bag cells2', holding hs eq t bag p.1 /\ p.2 = tab cells2' r2 /\ whole cells2' /\
    ((forall e, take e = e /\ tv e = e) -> cells2' = cells2).

Lemma keys_apart_absent r eq bag e l :
  r_equal r = eq -> keys_apart key_of r (bag ++ e :: l) -> absent key_of eq (key_of e) bag.
Proof.
  intros <- Ha e' [bag' Hb]%elem_of_Permutation. apply not_true_iff_false. apply (Ha e' e (bag' ++ l)).
  rewrite Hb. cbn. constructor. symmetry. apply Permutation_middle.
Qed.

Lemma lost_cut_short cannot take tv hs eq t bag cells2 cells2' r2 b :
  lost key_of C cannot hs eq t bag b -> whole cells2' -> ((forall e, take e = e /\ tv e = e) -> cells2' = cells2) ->
  cut_short take tv hs eq t cells2 r2 (b, tab cells2' r2).
Proof. intros [Hx [Hb|[_ Hb]]] Hw Hid; (split; [done|]); [exists bag, cells2'|exists [], cells2']; by split_and!. Qed.

Lemma wp_insert_all cannot take tv hs eq t r2 fuel bag cells1 r1 cells2 i z (rr : rest Hfn Eq) :
  is_table key_of C hs eq t bag cells1 r1 -> whole cells2 -> is_next C cells2 i z -> (buckets C <= i + fuel)%nat ->
  r_equal rr = eq -> keys_apart key_of rr (bag ++ entries (drop i cells2)) ->
  Z.of_nat (length bag + length (entries (drop i cells2))) <= C ->
  wp (HashTable.insert_all key_of h C moved cannot fuel take tv z)
    (fun _ p => exists bag' cells2', holding hs eq t bag' p.1 /\ bag' ≡ₚ bag ++ entries (drop i cells2) /\ p.2 = tab cells2' r2 /\
      whole cells2' /\ ((forall e, take e = e /\ tv e = e) -> cells2' = cells2) /\ length (entries cells2') = length (entries cells2))
    (cut_short take tv hs eq t cells2 r2) (tab cells1 r1, tab cells2 r2).
Proof.
  revert bag cells1 r1 cells2 i z. induction fuel as [|fuel IH]; intros bag cells1 r1 cells2 i z Ht Hw Hnx Hf Hr Ha Hl;
    cbn [HashTable.insert_all]; unfold HashTable.end_;
    (destruct Hnx as [(j & e & -> & -> & Hij & E & Hd)|[-> Hd]];
      [|rewrite Z.eqb_refl; exists bag, cells2; rewrite Hd, app_nil_r; split_and!; try done; by exists cells1, r1]).
  { exfalso. apply lookup_lt_Some in E. rewrite (sized_length C _ (proj1 Hw)) in E. lia. }
  rewrite Hd in Ha, Hl. cbn [length] in Hl. on2 ltac:(by apply (ref_cell C cells2 r2 j e SOccupied)).
  pose proof (keys_apart_absent _ _ _ _ _ Hr Ha) as Habs. pose proof (lookup_lt_Some _ _ _ E) as Hj.
  apply wp_bind, wp_on_fst. eapply wp_mono; [by apply (wp_lookup key_of C hs eq t bag (key_of e))| |
    intros b Hb; apply (lost_cut_short cannot take tv hs eq t bag cells2 cells2); [by apply failed_lost|done|done]].
  intros a b [(k & e' & t' & _ & _ & _ & _ & E' & Hk)|(t' & Hlt & -> & -> & _)].
  { pose proof (is_table_elem key_of C _ _ _ _ _ _ _ _ Ht E') as He'. by rewrite (Habs e' He') in Hk. }
  rewrite Z.eqb_refl. cbn [negb]. apply wp_bind, wp_bind, wp_guarded, wp_on_fst.
  eapply wp_mono; [apply (wp_emplace_new key_of C h moved cannot hs eq t bag cells1 _ (may_throw ;;; ret e) e);
    [by apply is_table_throws|apply yields_throws|done|lia]| |].
  2: { intros b Hb. destruct (tear_slot cells2 r2 j e (tv e) Hw E) as [Ea Hwa].
       eexists. split; [apply (on_snd_Ret _ (_, _)); exact Ea|]. apply (lost_cut_short cannot take tv hs eq t bag cells2); [done|done|].
       intros Hte. rewrite (proj2 (Hte e)). by apply list_insert_id. }
  intros k b Hb%holding_at_holding. destruct Hb as (cells1' & r1' & -> & Ht1').
  eapply wp_Ret; [apply (on_snd_Ret _ (_, _)); apply (assign_cell C cells2 r2 j e (take e) SOccupied); [apply Hw|done]|]. cbn [fst].
  set (cells2' := <[j := (Some (take e), SOccupied)]> cells2). assert (whole cells2') as Hw' by (apply whole_insert; [done|by split; [exists (take e)|]]).
  destruct (find_next_cell C cells2' r2 (S j) (proj1 Hw') (proj2 Hw')) as (z' & Ez & Hn').
  on2 ltac:(unfold HashTable.next; rewrite Nat2Z.inj_succ in Ez; exact Ez).
  assert (entries (drop (S j) cells2') = entries (drop (S j) cells2)) as Hd' by (unfold cells2'; by rewrite entries_drop_insert by lia).
  assert ((forall e, take e = e /\ tv e = e) -> cells2' = cells2) as Hid.
  { intros Hte. unfold cells2'. rewrite (proj1 (Hte e)). by apply list_insert_id. }
  pose proof (Permutation_length (entries_replace cells2 j SOccupied e (take e) SOccupied E)) as Hlen. cbn in Hlen. fold cells2' in Hlen.
  eapply wp_mono; [apply (IH (e :: bag) cells1' r1' cells2' (S j) z' Ht1' Hw' Hn'); [lia|done| |]| |].
  - rewrite Hd'. eapply keys_apart_perm; [|exact Ha]. symmetry. apply Permutation_middle.
  - rewrite Hd'. cbn [length]. lia.
  - intros ? p (bag' & c2 & Hh & Hp & -> & Hw2 & Hid2 & Hlen2). exists bag', c2. rewrite Hd' in Hp. split_and!; try done; [..|lia].
    + rewrite Hp, Hd. apply Permutation_middle.
    + intros Hte. rewrite <- (Hid Hte). by apply Hid2.
  - intros p [Hx (bag' & c2 & Hh & Ep & Hw2 & Hid2)]. split; [done|]. exists bag', c2. split_and!; try done.
    intros Hte. rewrite <- (Hid Hte). by apply Hid2.
Qed.

Lemma holding_perm hs eq t bag bag' b : bag ≡ₚ bag' -> holding hs eq t bag b -> holding hs eq t bag' b.
Proof. intros Hp (cells & r & -> & Ht). exists cells, r. split; [done|]. by eapply is_table_perm. Qed.

Lemma clear_inv cells r :
  table_inv key_of C cells r ->
  HashTable.clear C (tab cells r) = Ret tt (tab (blank C) (mk_rest 0 0 (r_hasher r) (r_equal r) (r_throws r))).
Proof.
  intros [Hs Hc _ _ Hn _ _]. destruct (table_clear_spec C cells r Hs Hc) as (n & -> & Hz). by rewrite (Hz Hn).
Qed.

(** The loop over the whole of the second table. *)
Lemma wp_insert_from cannot take tv cells2 r2 r2' t t' :
  table_inv key_of C cells2 r2 -> later t t' ->
  wp (let! it := on_snd (HashTable.begin_ C) in HashTable.insert_all key_of h C moved cannot (Z.to_nat bc) take tv it)
    (fun _ p => exists cells2', holding (r_hasher r2) (r_equal r2) t (entries cells2) p.1 /\ p.2 = tab cells2' r2' /\
      whole cells2' /\ ((forall e, take e = e /\ tv e = e) -> cells2' = cells2) /\ length (entries cells2') = length (entries cells2))
    (cut_short take tv (r_hasher r2) (r_equal r2) t cells2 r2')
    (tab (blank C) (mk_rest 0 0 (r_hasher r2) (r_equal r2) t'), tab cells2 r2').
Proof.
  intros [Hs Hc _ Hk Hn _ Hcap] Hl. destruct (find_next_cell C cells2 r2' 0 Hs Hc) as (z & Ez & Hnx). on2 ltac:(exact Ez).
  eapply wp_mono; [apply (wp_insert_all cannot take tv (r_hasher r2) (r_equal r2) t r2' _ [] _ _ cells2 0 z r2);
    [by apply (blank_table key_of C)|done|done|done|done| |]| |done].
  - rewrite drop_0. by apply distinct_keys_apart.
  - rewrite drop_0. cbn. lia.
  - intros ? p (bag & cells2' & Hh & Hp & Hr). exists cells2'. rewrite drop_0 in Hp. split; [by eapply holding_perm|done].
Qed.

(** After an exception: the table assigned to satisfies its invariant. *)
Definition assign_failed t (p : pair) : Prop := true ∈ t /\ exists hs eq bag, holding hs eq t bag p.1.

Lemma empty_failed t hs eq t' b2 : true ∈ t -> assign_failed t (tab (blank C) (mk_rest 0 0 hs eq t'), b2).
Proof.
  intros Ht. split; [done|]. exists hs, eq, []. eexists _, _. split; [done|]. apply (blank_table key_of C); [by intros ?|done].
Qed.

Lemma wp_copy_assign cannot cells1 r1 cells2 r2 :
  table_inv key_of C cells1 r1 -> table_inv key_of C cells2 r2 ->
  wp (HashTable.copy_assign key_of h C moved cannot torn_hasher torn_equal false)
    (fun _ p => holding (r_hasher r2) (r_equal r2) (r_throws r1) (entries cells2) p.1 /\ p.2 = tab cells2 r2)
    (fun p => assign_failed (r_throws r1) p /\ p.2 = tab cells2 r2)
    (tab cells1 r1, tab cells2 r2).
Proof.
  intros Hi1 Hi2. unfold HashTable.copy_assign. on1 ltac:(by apply clear_inv). eapply wp_bind_Ret; [reflexivity|].
  cbn [fst snd HashTableFacts.tab bhasher_]. apply wp_pair_may_throw.
  2: { intros t' Ht. eexists. split; [reflexivity|]. split; [by apply (empty_failed _ (torn_hasher (r_hasher r1)) (r_equal r1) t')|done]. }
  intros t1 Hl1. eapply (wp_bind_Ret _ _ _ _ _ tt (tab (blank C) (mk_rest 0 0 (r_hasher r2) (r_equal r1) t1), tab cells2 r2)); [reflexivity|].
  eapply wp_bind_Ret; [reflexivity|]. cbn [fst snd HashTableFacts.tab bequal_]. apply wp_pair_may_throw.
  2: { intros t' Ht. eexists. split; [reflexivity|]. split; [apply (empty_failed _ (r_hasher r2) (torn_equal (r_equal r1)) t'); auto|done]. }
  intros t2 Hl2. eapply (wp_bind_Ret _ _ _ _ _ tt (tab (blank C) (mk_rest 0 0 (r_hasher r2) (r_equal r2) t2), tab cells2 r2)); [reflexivity|].
  eapply wp_mono; [apply (wp_insert_from cannot (fun e => e) (fun e => e) cells2 r2 r2 (r_throws r1)); [done|by eapply later_trans]| |].
  - intros ? p (cells2' & Hh & Hp & _ & Hid & _). rewrite Hid in Hp by done. done.
  - intros p [Hx (bag & cells2' & Hh & Hp & _ & Hid)]. rewrite Hid in Hp by done. split; [|done]. split; [done|]. by eexists _, _, bag.
Qed.

Lemma wp_move_assign cannot moved_hasher moved_equal tv cells1 r1 cells2 r2 :
  table_inv key_of C cells1 r1 -> table_inv key_of C cells2 r2 ->
  wp (HashTable.move_assign key_of h C moved cannot torn_hasher torn_equal moved_hasher moved_equal tv false)
    (fun _ p => holding (r_hasher r2) (r_equal r2) (r_throws r1) (entries cells2) p.1 /\
      p.2 = tab (blank C) (mk_rest 0 0 (moved_hasher (r_hasher r2)) (moved_equal (r_equal r2)) (r_throws r2)))
    (assign_failed (r_throws r1)) (tab cells1 r1, tab cells2 r2).
Proof.
  intros Hi1 Hi2. unfold HashTable.move_assign. on1 ltac:(by apply clear_inv). eapply wp_bind_Ret; [reflexivity|].
  cbn [fst snd HashTableFacts.tab bhasher_]. apply wp_pair_may_throw.
  2: { intros t' Ht. eexists. split; [reflexivity|by apply (empty_failed _ (torn_hasher (r_hasher r1)) (r_equal r1) t')]. }
  intros t1 Hl1. set (ra := mk_rest 0 0 (r_hasher r2) (r_equal r1) t1). set (rb := with_hasher (moved_hasher (r_hasher r2)) r2).
  eapply wp_bind_Ret; [reflexivity|]. eapply (wp_bind_Ret _ _ _ _ _ tt (tab (blank C) ra, tab cells2 rb)); [reflexivity|].
  eapply wp_bind_Ret; [reflexivity|]. cbn [fst snd HashTableFacts.tab bequal_]. apply wp_pair_may_throw.
  2: { intros t' Ht. eexists. split; [reflexivity|]. apply (empty_failed _ (r_hasher r2) (torn_equal (r_equal r1)) t'). auto. }
  intros t2 Hl2. set (r2' := with_equal (moved_equal (r_equal r2)) rb). eapply wp_bind_Ret; [reflexivity|].
  eapply (wp_bind_Ret _ _ _ _ _ tt (tab (blank C) (mk_rest 0 0 (r_hasher r2) (r_equal r2) t2), tab cells2 r2')); [reflexivity|].
  unfold HashTable.move_all. apply wp_bind.
  eapply wp_mono; [apply (wp_insert_from cannot moved tv cells2 r2 r2' (r_throws r1)); [done|by eapply later_trans]| |].
  - intros ? [p1 p2] (cells2' & Hh & Ep & [Hs Hc] & _ & Hlen). cbn in Hh, Ep. subst p2.
    destruct (table_clear_spec C cells2' r2' Hs Hc) as (n & En & Hz).
    eapply wp_Ret; [apply (on_snd_Ret _ (_, _)); exact En|]. split; [done|]. cbn [snd]. rewrite Hz; [done|].
    rewrite Hlen. apply Hi2.
  - intros p [Hx (bag & cells2' & Hh & _)]. split; [done|]. by eexists _, _, bag.
Qed.
End pairs.
