(* ===== verification/HashTableClaims.v ===== *)
(** * What [static_unordered_map] and [static_unordered_set] promise

    The abstract table is a bag of elements with distinct keys.  Its history says
    what each operation may answer; the theorems say that the tables answer so,
    whatever throws, and that a rebuild always ends with the elements it began
    with. *)

From Stdlib Require Import ZArith Lia.
From stdpp Require Import base numbers list option tactics.
From S2P Require Import Prelude Bits BitsFacts Hash HashTable HashTableFacts HashTableOps HashTablePairs.
Local Open Scope Z_scope.

(** ** Operations and their answers *)

Inductive table_answer (V : Type) : Type :=
  | AUnit
  | ABool (b : bool)
  | AFound (o : option V)
  | ANumber (n : Z)
  | AItems (l : list V)
  | AThrown
  | AAborted.
Arguments AUnit {V}.
Arguments ABool {V} b.
Arguments AFound {V} o.
Arguments ANumber {V} n.
Arguments AItems {V} l.
Arguments AThrown {V}.
Arguments AAborted {V}.

(** ** Outcomes of computations that may abort *)

Definition wpt {S A} (m : M S A) (P : A -> S -> Prop) (E : S -> Prop) (F : Prop) (s : S) : Prop :=
  match m s with
  | Ret a s' => P a s'
  | Throw s' => E s'
  | Trap => F
  | Fault | Spin => False
  end.

Section wpt_rules.
  Context {S A B : Type}.
  Implicit Types (E : S -> Prop) (F : Prop) (s : S).

Lemma wpt_wp (m : M S A) P E F s : wp m P E s -> wpt m P E F s.
Proof. unfold wp, wpt. by destruct (m s). Qed.

Lemma wpt_Trap (m : M S A) P E F s : m s = Trap -> F -> wpt m P E F s.
Proof. unfold wpt. by intros ->. Qed.

Lemma wpt_bind (m : M S A) (k : A -> M S B) P E F s : wp m (fun a => wpt (k a) P E F) E s -> wpt (bind m k) P E F s.
Proof. unfold wp, wpt, bind. by destruct (m s). Qed.

Lemma wpt_assoc {D} (m : M S A) (k : A -> M S B) (k' : B -> M S D) P E F s :
  wpt (bind m (fun a => bind (k a) k')) P E F s -> wpt (bind (bind m k) k') P E F s.
Proof. unfold wpt. by rewrite bind_assoc. Qed.
End wpt_rules.

(** ** Runs and histories *)

Section runs.
  Context {Op S V : Type} (exec : Op -> M S (table_answer V)).
  Context (step : list V -> Op -> table_answer V -> list V -> Prop) (forbidden : list V -> Op -> Prop).

(** A client that catches what is thrown and goes on; an abort ends the run. *)
Fixpoint table_run (ops : list Op) (s : S) : option (list (table_answer V)) :=
  match ops with
  | [] => Some []
  | op :: ops' =>
      match exec op s with
      | Ret a s' => cons a <$> table_run ops' s'
      | Throw s' => cons AThrown <$> table_run ops' s'
      | Trap => Some [AAborted]
      | Fault | Spin => None
      end
  end.

Inductive table_history : list V -> list Op -> list (table_answer V) -> Prop :=
  | TableEnd bag : table_history bag [] []
  | TableAbort bag op ops : forbidden bag op -> table_history bag (op :: ops) [AAborted]
  | TableStep bag op a bag' ops answers :
      step bag op a bag' -> table_history bag' ops answers -> table_history bag (op :: ops) (a :: answers).

Context (holds : list V -> S -> Prop).

(** One operation: what it does is a step of the bag, or an abort of a forbidden call. *)
Definition answers_as bag op s : Prop :=
  wpt (exec op) (fun a s' => exists bag', step bag op a bag' /\ holds bag' s')
    (fun s' => exists bag', step bag op AThrown bag' /\ holds bag' s') (forbidden bag op) s.

Lemma run_history ops bag s :
  (forall bag op s, holds bag s -> answers_as bag op s) -> holds bag s ->
  exists answers, table_run ops s = Some answers /\ table_history bag ops answers.
Proof.
  intros Hone. revert bag s. induction ops as [|op ops IH]; intros bag s Hs; cbn [table_run]; [exists []; split; [done|constructor]|].
  pose proof (Hone bag op s Hs) as Ha. unfold answers_as, wpt in Ha. destruct (exec op s) as [a s'|s'| | |]; [| | |done|done].
  - destruct Ha as (bag' & Hst & Hs'). destruct (IH bag' s' Hs') as (answers & -> & Hr).
    exists (a :: answers). split; [done|by econstructor].
  - destruct Ha as (bag' & Hst & Hs'). destruct (IH bag' s' Hs') as (answers & -> & Hr).
    exists (AThrown :: answers). split; [done|by econstructor].
  - exists [AAborted]. split; [done|by constructor].
Qed.

Lemma wp_answers {A} (m : M S A) (f : A -> table_answer V) P E bag op s :
  wp m P E s -> exec op = bind m (fun a => ret (f a)) ->
  (forall a s', P a s' -> exists bag', step bag op (f a) bag' /\ holds bag' s') ->
  (forall s', E s' -> exists bag', step bag op AThrown bag' /\ holds bag' s') -> answers_as bag op s.
Proof. unfold answers_as. intros Hw -> Hret Hthrow. apply wpt_bind. by eapply wp_mono; [exact Hw|..]. Qed.
End runs.

(** ** The operations that maps and sets share *)

Inductive table_op (Q V : Type) : Type :=
  | OpContains (q : Q)
  | OpFind (q : Q)
  | OpErase (q : Q)
  | OpTryEmplace (e : V)
  | OpEmplace (e : V)
  | OpEraseIf (pred : V -> bool)
  | OpClear
  | OpSize
  | OpItems.
Arguments OpContains {Q V} q.
Arguments OpFind {Q V} q.
Arguments OpErase {Q V} q.
Arguments OpTryEmplace {Q V} e.
Arguments OpEmplace {Q V} e.
Arguments OpEraseIf {Q V} pred.
Arguments OpClear {Q V}.
Arguments OpSize {Q V}.
Arguments OpItems {Q V}.

Section table_claims.
  Context `{SizeT} {Hfn Eq K V Q : Type} `{!Hasher Hfn K, !KeyEqual Eq K K, !Hasher Hfn Q, !KeyEqual Eq K Q}.
  Context (key_of : V -> K) (h : hardening) (C : Z) (moved : V -> V) (cannot : bool).
  Abbreviation tbl := (table Hfn Eq V).
  Implicit Types (bag : list V) (e : V) (q : Q).

(** The element that a pointer, a reference or an iterator names. *)
Definition deref (i : Z) : M tbl (table_answer V) := let! e := slot_ref i in ret (AFound (Some e)).
Definition deref_pointer (p : option Z) : M tbl (table_answer V) :=
  match p with Some i => deref i | None => ret (AFound None) end.

Definition shared_exec (op : table_op Q V) : M tbl (table_answer V) :=
  match op with
  | OpContains q => let! b := HashTable.contains key_of C q in ret (ABool b)
  | OpFind q => let! p := HashTable.find key_of C q in deref_pointer p
  | OpErase q => let! b := HashTable.erase key_of C q in ret (ABool b)
  | OpTryEmplace e => let! b := HashTable.try_emplace key_of C moved cannot (key_of e) (may_throw ;;; ret e) in ret (ABool b)
  | OpEmplace e => let! i := HashTable.emplace key_of h C moved cannot (key_of e) (may_throw ;;; ret e) in deref i
  | OpEraseIf pred => let! n := HashTable.erase_if C pred in ret (ANumber n)
  | OpClear => HashTable.clear C ;;; ret AUnit
  | OpSize => let! n := get HashTable.size in ret (ANumber n)
  | OpItems => let! l := items C in ret (AItems l)
  end.

Definition present {Q'} `{!KeyEqual Eq K Q'} (eq : Eq) (key : Q') bag e : Prop := e ∈ bag /\ key_equal eq (key_of e) key = true.
Abbreviation absent := (absent key_of).

(** [fails] is whether a hash, a comparison, a construction or the predicate may
    throw.  An exception of the hasher in a rebuild empties the table. *)
Inductive table_step (eq : Eq) (fails : Prop) bag : table_op Q V -> table_answer V -> list V -> Prop :=
  | StepContains q b : (b = true <-> exists e, present eq q bag e) -> table_step eq fails bag (OpContains q) (ABool b) bag
  | StepFind q e : present eq q bag e -> table_step eq fails bag (OpFind q) (AFound (Some e)) bag
  | StepFindNone q : absent eq q bag -> table_step eq fails bag (OpFind q) (AFound None) bag
  | StepErase q e bag' :
      present eq q bag e -> bag ≡ₚ e :: bag' -> table_step eq fails bag (OpErase q) (ABool true) bag'
  | StepEraseNone q : absent eq q bag -> table_step eq fails bag (OpErase q) (ABool false) bag
  | StepTryEmplace e :
      absent eq (key_of e) bag -> Z.of_nat (length bag) < C ->
      table_step eq fails bag (OpTryEmplace e) (ABool true) (e :: bag)
  | StepTryEmplaceNot e :
      Z.of_nat (length bag) = C \/ (exists e', present eq (key_of e) bag e') ->
      table_step eq fails bag (OpTryEmplace e) (ABool false) bag
  | StepEmplace e :
      absent eq (key_of e) bag -> Z.of_nat (length bag) < C ->
      table_step eq fails bag (OpEmplace e) (AFound (Some e)) (e :: bag)
  | StepEmplaceNot e e' : present eq (key_of e) bag e' -> table_step eq fails bag (OpEmplace e) (AFound (Some e')) bag
  | StepEraseIf pred bag' :
      bag' ≡ₚ List.filter (fun e => negb (pred e)) bag ->
      table_step eq fails bag (OpEraseIf pred) (ANumber (Z.of_nat (length bag) - Z.of_nat (length bag'))) bag'
  | StepClear : table_step eq fails bag OpClear AUnit []
  | StepSize : table_step eq fails bag OpSize (ANumber (Z.of_nat (length bag))) bag
  | StepItems l : l ≡ₚ bag -> table_step eq fails bag OpItems (AItems l) bag
  | StepLookupThrows op q :
      fails -> op ∈ [OpContains q; OpFind q; OpErase q] -> table_step eq fails bag op AThrown bag
  | StepInsertThrows op e bag' :
      fails -> op ∈ [OpTryEmplace e; OpEmplace e] -> bag' = bag \/ (cannot = true /\ bag' = []) ->
      table_step eq fails bag op AThrown bag'
  | StepEraseIfThrows pred gone bag' :
      fails -> bag ≡ₚ gone ++ bag' -> Forall (fun e => pred e = true) gone ->
      table_step eq fails bag (OpEraseIf pred) AThrown bag'.

(** The contract: [emplace] of a new key needs room. *)
Definition table_forbidden (eq : Eq) bag (op : table_op Q V) : Prop :=
  match op with
  | OpEmplace e => absent eq (key_of e) bag /\ Z.of_nat (length bag) = C
  | _ => False
  end.

Context `{!TableOk C, !KeyLaws Hfn Eq K, !QueryLaws Hfn Eq K Q}.

Abbreviation table_holds := (holding key_of C).
Definition simulates (hs : Hfn) (eq : Eq) (t : list bool) : list V -> table_op Q V -> tbl -> Prop :=
  answers_as shared_exec (table_step eq (true ∈ t)) (table_forbidden eq) (table_holds hs eq t).

Lemma lookup_throws hs eq t bag op q b :
  op ∈ [OpContains q; OpFind q; OpErase q] -> failed key_of C hs eq t bag b ->
  exists bag', table_step eq (true ∈ t) bag op AThrown bag' /\ table_holds hs eq t bag' b.
Proof. intros Hop [Ht Hb]. exists bag. split; [by apply (StepLookupThrows _ _ _ _ q)|done]. Qed.

(** Looking a key up, then going on with what was found. *)
Lemma wpt_lookup {Q'} `{!Hasher Hfn Q', !KeyEqual Eq K Q', !QueryLaws Hfn Eq K Q'} hs eq t bag (key : Q') cells r {A}
    (k : Z -> M tbl A) P E F :
  is_table key_of C hs eq t bag cells r ->
  (forall i e b, holding_at key_of C hs eq t bag i e b -> (i =? HashTable.npos) = false -> present eq key bag e -> wpt (k i) P E F b) ->
  (forall cells' r', is_table key_of C hs eq t bag cells' r' -> absent eq key bag -> wpt (k HashTable.npos) P E F (tab C cells' r')) ->
  (forall b, failed key_of C hs eq t bag b -> E b) ->
  wpt (bind (HashTable.find_existing_index key_of C key) k) P E F (tab C cells r).
Proof.
  intros Ht Hfound Hnone Hfail. apply wpt_bind. eapply wp_mono; [by apply (wp_lookup key_of C hs eq t bag key)| |done].
  intros a b [(i & e & t' & Hl & -> & -> & Hnp & Ei & Hk)|(t' & Hl & -> & -> & Ha)].
  - apply (Hfound _ e); [|done|split; [by eapply is_table_elem|done]].
    exists cells, (with_throws t' r), i. split_and!; [done|by apply is_table_throws|done|done].
  - apply Hnone; [by apply is_table_throws|done].
Qed.

Lemma wpt_deref hs eq t bag i e b (P : table_answer V -> tbl -> Prop) E F :
  holding_at key_of C hs eq t bag i e b -> (table_holds hs eq t bag b -> P (AFound (Some e)) b) -> wpt (deref i) P E F b.
Proof.
  intros Hb HP. pose proof (holding_at_holding key_of C _ _ _ _ _ _ _ Hb) as Hh. destruct Hb as (cells & r & j & -> & Ht & -> & Ej).
  apply wpt_wp. eapply wp_bind_Ret; [by apply (ref_cell C cells r j e SOccupied)|]. by apply HP.
Qed.

(** The same after [slot_ref] for the reference that is returned. *)
Lemma wpt_ref {A} hs eq t bag i e b (k : M tbl A) P E F :
  holding_at key_of C hs eq t bag i e b -> wpt k P E F b -> wpt (slot_ref i ;;; k) P E F b.
Proof.
  intros (cells & r & j & -> & Ht & -> & Ej) Hk. apply wpt_bind. by eapply wp_Ret; [apply (ref_cell C cells r j e SOccupied)|].
Qed.

Lemma simulates_contains hs eq t bag q cells r :
  is_table key_of C hs eq t bag cells r -> simulates hs eq t bag (OpContains q) (tab C cells r).
Proof.
  intros Ht. unfold simulates, answers_as. cbn [shared_exec]. unfold HashTable.contains. apply wpt_assoc, (wpt_lookup hs eq t bag q); [done|..].
  - intros i e b Hb Hnp Hp. exists bag. rewrite Hnp. split; [|by eapply holding_at_holding]. constructor. split; [|done]. intros _. by exists e.
  - intros cells' r' Ht' Ha. exists bag. rewrite Z.eqb_refl. split; [|by exists cells', r']. constructor. split; [done|].
    intros (e & He & Hk). by rewrite (Ha e He) in Hk.
  - intros b. apply (lookup_throws _ _ _ _ _ q). left.
Qed.

Lemma simulates_find hs eq t bag q cells r :
  is_table key_of C hs eq t bag cells r -> simulates hs eq t bag (OpFind q) (tab C cells r).
Proof.
  intros Ht. unfold simulates, answers_as. cbn [shared_exec]. unfold HashTable.find. apply wpt_assoc, (wpt_lookup hs eq t bag q); [done|..].
  - intros i e b Hb Hnp Hp. rewrite Hnp. apply wpt_assoc. eapply wpt_ref; [exact Hb|].
    eapply wpt_deref; [exact Hb|]. intros Hh. exists bag. split; [by constructor|done].
  - intros cells' r' Ht' Ha. rewrite Z.eqb_refl. exists bag. split; [by constructor|by exists cells', r'].
  - intros b. apply (lookup_throws _ _ _ _ _ q). right. left.
Qed.

Lemma simulates_erase hs eq t bag q cells r :
  is_table key_of C hs eq t bag cells r -> simulates hs eq t bag (OpErase q) (tab C cells r).
Proof.
  intros Ht. eapply (wp_answers _ _ _ _ _ ABool); [by apply (wp_erase key_of C hs eq t bag q)|done| |].
  - intros a b [(-> & Ha & Hb)|(e & bag' & -> & Hk & Hp & Hb)].
    + exists bag. split; [by constructor|done].
    + exists bag'. split; [|done]. apply (StepErase _ _ _ q e); [split; [rewrite Hp; by left|done]|done].
  - intros b. apply (lookup_throws _ _ _ _ _ q). right. right. left.
Qed.

Lemma insert_throws hs eq t bag op e b :
  op ∈ [OpTryEmplace e; OpEmplace e] -> lost key_of C cannot hs eq t bag b ->
  exists bag', table_step eq (true ∈ t) bag op AThrown bag' /\ table_holds hs eq t bag' b.
Proof.
  intros Hop [Ht [Hb|[Hc Hb]]]; [exists bag|exists []]; (split; [|done]); apply (StepInsertThrows _ _ _ _ e); auto.
Qed.

Lemma simulates_try_emplace hs eq t bag e cells r :
  is_table key_of C hs eq t bag cells r -> simulates hs eq t bag (OpTryEmplace e) (tab C cells r).
Proof.
  intros Ht. eapply (wp_answers _ _ _ _ _ ABool);
    [apply (wp_table_try_emplace key_of C moved cannot hs eq t bag cells r (may_throw ;;; ret e) e Ht), yields_throws|done| |].
  - intros a b [(-> & Ha & Hl & Hb)|(-> & Hn & Hb)]; [exists (e :: bag)|exists bag]; (split; [by constructor|done]).
  - intros b. apply (insert_throws _ _ _ _ _ e). left.
Qed.


Lemma simulates_emplace hs eq t bag e cells r :
  is_table key_of C hs eq t bag cells r -> simulates hs eq t bag (OpEmplace e) (tab C cells r).
Proof.
  intros Ht. unfold simulates, answers_as. cbn [shared_exec]. unfold HashTable.emplace. apply wpt_assoc, (wpt_lookup hs eq t bag (key_of e)); [done|..].
  - intros i e' b Hb Hnp Hp. rewrite Hnp. cbn [negb]. apply wpt_assoc. eapply wpt_ref; [exact Hb|].
    eapply wpt_deref; [exact Hb|]. intros Hh. exists bag. split; [by constructor|done].
  - intros cells' r' Ht' Ha. rewrite Z.eqb_refl. cbn [negb]. destruct (is_table_size key_of C _ _ _ _ _ _ Ht') as [Hn Hcap].
    destruct (decide (Z.of_nat (length bag) = C)) as [Hfull|].
    + apply wpt_Trap; [|done]. apply bind_Trap. by eapply emplace_new_full.
    + apply wpt_bind. eapply wp_mono; [apply (wp_emplace_new key_of C h moved cannot hs eq t bag cells' r' _ e Ht' (yields_throws C cells' e) Ha); lia| |].
      * intros i b Hb. eapply wpt_deref; [exact Hb|]. intros Hh. exists (e :: bag). split; [constructor; [done|lia]|done].
      * intros b. apply (insert_throws _ _ _ _ _ e). right. left.
  - intros b Hb. apply (insert_throws _ _ _ _ _ e); [right; left|by apply failed_lost].
Qed.

Lemma filter_picked pred bag bag' gone :
  picked pred bag bag' gone -> Forall (fun e => pred e = false) bag' -> bag' ≡ₚ List.filter (fun e => negb (pred e)) bag.
Proof.
  intros [Hp Hg] Hk. assert (forall l1 l2 : list V, l1 ≡ₚ l2 ->
    List.filter (fun e => negb (pred e)) l1 ≡ₚ List.filter (fun e => negb (pred e)) l2) as Hf.
  { induction 1 as [|x xs ys _ IH|x y xs|xs ys zs _ IH1 _ IH2]; cbn; [done| | |by etrans].
    - destruct (pred x); [done|by constructor].
    - destruct (pred x), (pred y); try done. constructor. }
  rewrite (Hf _ _ Hp), List.filter_app.
  assert (List.filter (fun e => negb (pred e)) gone = []) as ->.
  { clear Hp. induction Hg as [|x l Hx _ IH]; cbn; [done|]. by rewrite Hx. }
  cbn. clear Hp. induction Hk as [|x l Hx _ IH]; cbn; [done|]. rewrite Hx. cbn. by constructor.
Qed.

Lemma simulates_erase_if hs eq t bag pred cells r :
  is_table key_of C hs eq t bag cells r -> simulates hs eq t bag (OpEraseIf pred) (tab C cells r).
Proof.
  intros Ht. eapply (wp_answers _ _ _ _ _ ANumber); [by apply (wp_table_erase_if key_of C pred hs eq t bag)|done| |].
  - intros a b (bag' & gone & Hb & Hp & Hk & ->). exists bag'. split; [|done].
    pose proof (filter_picked _ _ _ _ Hp Hk) as Hf. destruct Hp as [Hp%Permutation_length _]. rewrite length_app in Hp.
    replace (Z.of_nat (length gone)) with (Z.of_nat (length bag) - Z.of_nat (length bag')) by lia. by constructor.
  - intros b (bag' & gone & [Hx Hb] & [Hp Hg]). exists bag'. split; [|done]. by apply (StepEraseIfThrows _ _ _ pred gone).
Qed.

Lemma wp_clear hs eq t bag cells r :
  is_table key_of C hs eq t bag cells r ->
  wp (HashTable.clear C) (fun _ => table_holds hs eq t []) (fun _ => False) (tab C cells r).
Proof.
  intros (Hi & Hb & <- & <- & Hl). destruct (table_clear_spec C cells r) as (n & En & Hn); [apply Hi|apply Hi|].
  eapply wp_Ret; [exact En|]. rewrite Hn by apply Hi. eexists _, _. split; [done|]. by apply (blank_table key_of C).
Qed.

Lemma simulates_simple hs eq t bag op cells r :
  is_table key_of C hs eq t bag cells r -> op ∈ [OpClear; OpSize; OpItems] -> simulates hs eq t bag op (tab C cells r).
Proof.
  intros Ht Hop. assert (table_holds hs eq t bag (tab C cells r)) as Hb by (by exists cells, r).
  apply list_elem_of_In in Hop as [<-|[<-|[<-|[]]]].
  - eapply (wp_answers _ _ _ _ _ (fun _ => AUnit)); [by eapply wp_clear|done| |done].
    intros ? b Hb'. exists []. split; [constructor|done].
  - eapply (wp_answers _ _ _ _ _ ANumber (fun a b => a = Z.of_nat (length bag) /\ b = tab C cells r) (fun _ => False)); [|done| |done].
    + split; [|done]. by apply (is_table_size key_of C hs eq t bag cells r).
    + intros a b [-> ->]. exists bag. split; [constructor|done].
  - destruct (items_spec key_of C hs eq t bag cells r Ht) as (l & El & Hl).
    eapply (wp_answers _ _ _ _ _ AItems (fun a b => a = l /\ b = tab C cells r) (fun _ => False)); [|done| |done].
    + by eapply wp_Ret; [exact El|].
    + intros a b [-> ->]. exists bag. split; [by constructor|done].
Qed.

Lemma simulates_shared hs eq t bag op b : table_holds hs eq t bag b -> simulates hs eq t bag op b.
Proof.
  intros (cells & r & -> & Ht). destruct op.
  - by apply simulates_contains.
  - by apply simulates_find.
  - by apply simulates_erase.
  - by apply simulates_try_emplace.
  - by apply simulates_emplace.
  - by apply simulates_erase_if.
  - apply simulates_simple; [done|by left].
  - apply simulates_simple; [done|by right; left].
  - apply simulates_simple; [done|by right; right; left].
Qed.

Lemma empty_blank (hs : Hfn) (eq : Eq) t : HashTable.empty_with C hs eq t = tab C (blank (V := V) C) (mk_rest 0 0 hs eq t).
Proof.
  pose proof (bucket_count_bounds C). unfold HashTable.empty_with, tab, blank. rewrite fmap_replicate, !pack_fresh by lia. cbn.
  assert (forall s, s <> SEmpty -> pack (HashTable.bucket_count C) (fun _ => false) =
    pack (HashTable.bucket_count C) (has_state s (replicate (buckets C) (@None V, SEmpty)))) as Hp.
  { intros s Hs. apply pack_ext; [lia|lia|]. intros z Hz. unfold has_state.
    destruct (_ !! Z.to_nat z) as [[o s']|] eqn:E; [|done]. apply lookup_replicate in E as [[= -> ->] _].
    by rewrite bool_decide_eq_false_2. }
  by rewrite <- !Hp.
Qed.

Lemma fresh_table hs eq t : table_holds hs eq t [] (HashTable.empty_with C hs eq t).
Proof.
  exists (blank C), (mk_rest 0 0 hs eq t). split; [apply empty_blank|]. apply (blank_table key_of C); [apply later_refl|done].
Qed.
End table_claims.

(** ** [static_unordered_map] *)

Inductive map_op (Q K T : Type) : Type :=
  | MapShared (op : table_op Q (K * T))
  | MapTryInsertOrAssign (k : K) (v : T)
  | MapInsertOrAssign (k : K) (v : T)
  | MapSubscript (k : K).
Arguments MapShared {Q K T} op.
Arguments MapTryInsertOrAssign {Q K T} k v.
Arguments MapInsertOrAssign {Q K T} k v.
Arguments MapSubscript {Q K T} k.

Section map_claims.
  Context `{SizeT} {Hfn Eq K T Q : Type} `{!Hasher Hfn K, !KeyEqual Eq K K, !Hasher Hfn Q, !KeyEqual Eq K Q}.
  Context (h : hardening) (C : Z) (moved : K * T -> K * T) (torn : T -> T) (initial : T) (cannot : bool).
  Abbreviation tbl := (table Hfn Eq (K * T)).
  Abbreviation key_of := (@fst K T).
  Implicit Types (bag : list (K * T)) (e : K * T).

Definition map_exec (op : map_op Q K T) : M tbl (table_answer (K * T)) :=
  match op with
  | MapShared (OpContains q) => let! b := UnorderedMap.contains C q in ret (ABool b)
  | MapShared (OpFind q) => let! p := UnorderedMap.find C q in deref_pointer p
  | MapShared (OpErase q) => let! b := UnorderedMap.erase C q in ret (ABool b)
  | MapShared (OpTryEmplace (k, v)) => let! b := UnorderedMap.try_emplace C moved cannot k (ret v) in ret (ABool b)
  | MapShared (OpEmplace (k, v)) => let! i := UnorderedMap.emplace h C moved cannot k (ret v) in deref i
  | MapShared (OpEraseIf pred) => let! n := UnorderedMap.erase_if C pred in ret (ANumber n)
  | MapShared OpClear => UnorderedMap.clear C ;;; ret AUnit
  | MapShared OpSize => let! n := get HashTable.size in ret (ANumber n)
  | MapShared OpItems => let! l := items C in ret (AItems l)
  | MapTryInsertOrAssign k v => let! b := UnorderedMap.try_insert_or_assign C moved cannot torn k (ret v) in ret (ABool b)
  | MapInsertOrAssign k v => let! i := UnorderedMap.insert_or_assign h C moved cannot torn k (ret v) in deref i
  | MapSubscript k => let! i := UnorderedMap.subscript h C moved cannot initial k in deref i
  end.

(** The element with the key is assigned to, or there is none and one is added. *)
Inductive assigned (eq : Eq) bag (k : K) (v : T) : K * T -> list (K * T) -> Prop :=
  | AssignNew : absent key_of eq k bag -> Z.of_nat (length bag) < C -> assigned eq bag k v (k, v) ((k, v) :: bag)
  | AssignOld e others :
      bag ≡ₚ e :: others -> key_equal eq e.1 k = true -> assigned eq bag k v (e.1, v) ((e.1, v) :: others).

Inductive map_step (eq : Eq) (fails : Prop) bag : map_op Q K T -> table_answer (K * T) -> list (K * T) -> Prop :=
  | MapStepShared op a bag' : table_step key_of C cannot eq fails bag op a bag' -> map_step eq fails bag (MapShared op) a bag'
  | MapStepSubscript k a bag' :
      table_step (Q := Q) key_of C cannot eq fails bag (OpEmplace (k, initial)) a bag' ->
      map_step eq fails bag (MapSubscript k) a bag'
  | MapStepTryAssign k v e bag' : assigned eq bag k v e bag' -> map_step eq fails bag (MapTryInsertOrAssign k v) (ABool true) bag'
  | MapStepTryFull k v :
      absent key_of eq k bag -> Z.of_nat (length bag) = C -> map_step eq fails bag (MapTryInsertOrAssign k v) (ABool false) bag
  | MapStepAssign k v e bag' : assigned eq bag k v e bag' -> map_step eq fails bag (MapInsertOrAssign k v) (AFound (Some e)) bag'
  | MapStepAssignThrows op k v bag' :
      fails -> op ∈ [MapTryInsertOrAssign k v; MapInsertOrAssign k v] ->
      bag' = bag \/ (cannot = true /\ bag' = []) \/
        (exists e others, bag ≡ₚ e :: others /\ key_equal eq e.1 k = true /\ bag' = (e.1, torn e.2) :: others) ->
      map_step eq fails bag op AThrown bag'.

Definition map_forbidden (eq : Eq) bag (op : map_op Q K T) : Prop :=
  match op with
  | MapShared op => table_forbidden key_of C eq bag op
  | MapInsertOrAssign k _ | MapSubscript k => absent key_of eq k bag /\ Z.of_nat (length bag) = C
  | MapTryInsertOrAssign _ _ => False
  end.

Context `{!TableOk C, !KeyLaws Hfn Eq K, !QueryLaws Hfn Eq K Q}.
Abbreviation map_holds := (holding key_of C).
Abbreviation map_holds_at := (holding_at key_of C).

Lemma map_exec_shared op : map_exec (MapShared op) = shared_exec key_of h C moved cannot op.
Proof. by destruct op as [q|q|q|[]|[]|pred| | |]. Qed.

(** What [insert_or_assign_impl] does, with its index. *)
Definition impl_post hs eq t bag (k : K) (v : T) (a : Z) (b : tbl) : Prop :=
  (a = HashTable.npos /\ absent key_of eq k bag /\ Z.of_nat (length bag) = C /\ map_holds hs eq t bag b) \/
  (exists e bag', map_holds_at hs eq t bag' a e b /\ assigned eq bag k v e bag').
Definition impl_throw hs eq t bag (k : K) (b : tbl) : Prop :=
  lost key_of C cannot hs eq t bag b \/
  (true ∈ t /\ exists e others, bag ≡ₚ e :: others /\ key_equal eq e.1 k = true /\
    map_holds hs eq t ((e.1, torn e.2) :: others) b).

Lemma wp_assign_value hs eq t bag k v cells r i e :
  is_table key_of C hs eq t bag cells r -> cells !! i = Some (Some e, SOccupied) -> key_equal eq e.1 k = true ->
  wp (UnorderedMap.assign_value torn (Z.of_nat i) (ret v)) (fun _ => impl_post hs eq t bag k v (Z.of_nat i))
    (impl_throw hs eq t bag k) (tab C cells r).
Proof.
  intros Ht E Hk. pose proof Ht as ([Hs _ _ _ _ _ _] & _ & _ & _ & Hl). pose proof (lookup_lt_Some _ _ _ E) as Hi.
  unfold UnorderedMap.assign_value. eapply wp_bind_Ret; [done|]. eapply wp_bind_Ret; [by apply (ref_cell C cells r i e SOccupied)|].
  assert (wp may_throw (fun _ => same C cells r) (thrown C cells r) (tab C cells r)) as Hm.
  { pose proof (wp_may_throw (Hfn := Hfn) (Eq := Eq) C (ret tt) (fun _ => same C cells r) (thrown C cells r) cells r) as Hw.
    cut (wp (may_throw ;;; ret tt) (fun _ => same C cells r) (thrown C cells r) (tab C cells r)).
    - unfold wp, bind. by destruct (may_throw _) as [[]| | | |].
    - apply Hw; [intros t' Ht'; by exists t'|intros t' Ht'; split; [done|by exists t']]. }
  apply wp_bind, wp_guarded. eapply wp_mono; [exact Hm| |].
  - intros ? b (t' & Hl' & ->). eapply wp_Ret; [by apply (assign_cell C cells _ i e (e.1, v) SOccupied)|].
    destruct (is_table_assign key_of C hs eq t bag cells (with_throws t' r) i e (e.1, v)) as (others & Hp & Ht');
      [by apply is_table_throws|done|done|].
    right. exists (e.1, v), ((e.1, v) :: others). split; [|by constructor].
    eexists _, _, i. split_and!; [done|done|done|by rewrite list_lookup_insert_eq].
  - intros b [Hx (t' & ->)]. eexists. split; [by apply (assign_cell C cells _ i e (e.1, torn e.2) SOccupied)|].
    destruct (is_table_assign key_of C hs eq t bag cells (with_throws t' r) i e (e.1, torn e.2)) as (others & Hp & Ht');
      [apply is_table_throws; [done|by intros ?]|done|done|].
    right. split; [auto|]. exists e, others. split_and!; [done|done|]. by eexists _, _.
Qed.

Lemma wp_insert_or_assign_impl hs eq t bag k v cells r :
  is_table key_of C hs eq t bag cells r ->
  wp (UnorderedMap.insert_or_assign_impl C moved cannot torn k (ret v)) (impl_post hs eq t bag k v)
    (impl_throw hs eq t bag k) (tab C cells r).
Proof.
  intros Ht. unfold UnorderedMap.insert_or_assign_impl. apply wp_bind.
  eapply wp_mono; [by apply (wp_lookup key_of C hs eq t bag k)| |intros b Hb; left; by apply failed_lost].
  intros a b [(i & e & t' & Hl & -> & -> & Hnp & Ei & Hk)|(t' & Hl & -> & -> & Ha)].
  - rewrite Hnp. cbn [negb]. apply wp_bind. eapply wp_mono; [|intros ? b Hb; exact Hb|done].
    eapply wp_assign_value; [by apply is_table_throws|done|done].
  - rewrite Z.eqb_refl. cbn [negb]. pose proof (is_table_throws key_of C _ _ _ _ _ _ t' Ht Hl) as Ht'.
    destruct (is_table_size key_of C _ _ _ _ _ _ Ht') as [Hn Hcap]. eapply wp_bind_Ret; [done|]. cbn [bsize_ tab].
    destruct (Z.leb_spec C (r_size (with_throws t' r))).
    { left. split_and!; [done|done|lia|]. by eexists _, _. }
    apply wp_bind. eapply wp_mono; [apply (wp_locate_table key_of C hs eq t bag k); [lia|done]| |intros b Hb; left; by apply failed_lost].
    intros a b (i & t2 & -> & Hl2 & -> & [(e & E & Hm)|[Hf _]]).
    { pose proof (is_table_elem key_of C _ _ _ _ _ _ _ _ Ht' E) as He. by rewrite (Ha e He) in Hm. }
    eapply wp_mono; [apply (wp_construct_at key_of C moved cannot hs eq t bag cells _ i (may_throw ;;; ret (k, v)) (k, v));
      [lia|by apply is_table_throws|done|done|cbn in *; lia|apply yields_throws]| |].
    + intros z b Hz. right. exists (k, v), ((k, v) :: bag). split; [done|]. constructor; [done|lia].
    + intros b Hb. by left.
Qed.

Definition map_simulates (hs : Hfn) (eq : Eq) (t : list bool) : list (K * T) -> map_op Q K T -> tbl -> Prop :=
  answers_as map_exec (map_step eq (true ∈ t)) (map_forbidden eq) (map_holds hs eq t).

Lemma assign_throws hs eq t bag op k v b :
  op ∈ [MapTryInsertOrAssign k v; MapInsertOrAssign k v] -> impl_throw hs eq t bag k b ->
  exists bag', map_step eq (true ∈ t) bag op AThrown bag' /\ map_holds hs eq t bag' b.
Proof.
  intros Hop [[Ht [Hb|[Hc Hb]]]|[Ht (e & others & Hp & Hk & Hb)]].
  - exists bag. split; [|done]. apply (MapStepAssignThrows _ _ _ _ k v); [done|done|by left].
  - exists []. split; [|done]. apply (MapStepAssignThrows _ _ _ _ k v); [done|done|by right; left].
  - exists ((e.1, torn e.2) :: others). split; [|done]. apply (MapStepAssignThrows _ _ _ _ k v); [done|done|]. right. right.
    by exists e, others.
Qed.

Lemma holding_at_index hs eq t bag a e b : map_holds_at hs eq t bag a e b -> 0 <= a < HashTable.bucket_count C /\ (a =? HashTable.npos) = false.
Proof.
  intros (cells & r & i & -> & Ht & -> & Ei). pose proof Ht as (Hi & _). pose proof (npos_above C).
  pose proof (cell_index C _ _ _ (inv_sized _ _ _ _ Hi) Ei). split; [done|]. apply Z.eqb_neq. lia.
Qed.

Lemma simulates_try_assign hs eq t bag k v cells r :
  is_table key_of C hs eq t bag cells r -> map_simulates hs eq t bag (MapTryInsertOrAssign k v) (tab C cells r).
Proof.
  intros Ht. unfold map_simulates, answers_as. cbn [map_exec]. unfold UnorderedMap.try_insert_or_assign. apply wpt_assoc, wpt_bind.
  eapply wp_mono; [by apply wp_insert_or_assign_impl| |intros b; apply (assign_throws _ _ _ _ _ k v); by left].
  intros a b [(-> & Ha & Hl & Hb)|(e & bag' & Hb & Has)].
  - rewrite Z.eqb_refl. exists bag. split; [by constructor|done].
  - destruct (holding_at_index _ _ _ _ _ _ _ Hb) as [_ ->]. exists bag'. split; [by eapply MapStepTryAssign|by eapply holding_at_holding].
Qed.

Lemma simulates_assign hs eq t bag k v cells r :
  is_table key_of C hs eq t bag cells r -> map_simulates hs eq t bag (MapInsertOrAssign k v) (tab C cells r).
Proof.
  intros Ht. unfold map_simulates, answers_as. cbn [map_exec]. unfold UnorderedMap.insert_or_assign. apply wpt_assoc, wpt_bind.
  eapply wp_mono; [by apply wp_insert_or_assign_impl| |intros b; apply (assign_throws _ _ _ _ _ k v); by right; left].
  intros a b [(-> & Ha & Hl & Hb)|(e & bag' & Hb & Has)].
  - apply wpt_Trap; [|done]. rewrite Z.eqb_refl. apply bind_Trap. pose proof (npos_above C).
    destruct (decide (h = HARDENING_NONE)) as [->|]; [|apply bind_Trap; by apply metl_assert_false].
    erewrite bind_Ret; [|done]. zbool. done.
  - destruct (holding_at_index _ _ _ _ _ _ _ Hb) as [Hz ->]. cbn [negb]. zbool. apply wpt_assoc, wpt_bind.
    eapply wp_Ret; [apply metl_assert_true|]. apply wpt_assoc, wpt_bind. eapply wp_Ret; [done|]. apply wpt_assoc.
    eapply (wpt_ref key_of C); [exact Hb|]. eapply (wpt_deref key_of C); [exact Hb|]. intros Hh. exists bag'.
    split; [by apply MapStepAssign|done].
Qed.

Lemma simulates_map hs eq t bag op b : map_holds hs eq t bag b -> map_simulates hs eq t bag op b.
Proof.
  intros Hb. destruct op as [op|k v|k v|k].
  - pose proof (simulates_shared key_of h C moved cannot hs eq t bag op b Hb) as Hs. revert Hs.
    unfold simulates, map_simulates, answers_as. rewrite map_exec_shared. unfold wpt.
    destruct (shared_exec _ _ _ _ _ op b); intros Hs; [destruct Hs as (bag' & Hst & Hh)..|done|done|done];
      (exists bag'; split; [by constructor|done]).
  - destruct Hb as (cells & r & -> & Ht). by apply simulates_try_assign.
  - destruct Hb as (cells & r & -> & Ht). by apply simulates_assign.
  - pose proof (simulates_shared key_of h C moved cannot hs eq t bag (OpEmplace (k, initial)) b Hb) as Hs. revert Hs.
    unfold simulates, map_simulates, answers_as, wpt.
    change (shared_exec key_of h C moved cannot (OpEmplace (Q := Q) (k, initial))) with (map_exec (MapSubscript k)).
    destruct (map_exec (MapSubscript k) b); intros Hs; [destruct Hs as (bag' & Hst & Hh)..|done|done|done];
      (exists bag'; split; [by constructor|done]).
Qed.
End map_claims.

(** ** [static_unordered_set] *)

Section set_claims.
  Context `{SizeT} {Hfn Eq K Q : Type} `{!Hasher Hfn K, !KeyEqual Eq K K, !Hasher Hfn Q, !KeyEqual Eq K Q}.
  Context (h : hardening) (C : Z) (moved : K -> K) (cannot : bool).

End set_claims.

(** C4. Whatever operations a client calls on a new [static_unordered_map], and
    whichever hashes, key comparisons, constructions, assignments and predicate
    calls throw, each call answers as a map of at most [Capacity] elements with
    distinct keys does.  [contains], [find] and [erase] see exactly the elements
    inserted and not erased, also through a heterogeneous key; [try_emplace] and
    [emplace] keep the element that is there; [insert_or_assign] assigns to it and
    keeps its key; [operator[]] adds [mapped_type{}]; iteration meets every element
    once; [erase_if] counts what it removes.  An exception from a lookup changes
    nothing; one from an insertion changes nothing unless the hasher throws in a
    rebuild, which empties the map.  An insertion of a new key into a full map
    aborts, at every hardening level, and the [try_] forms answer [false].  No run
    faults, and no probe or rebuild exceeds [bucket_count] turns. *)
Theorem unordered_map_refines `{SizeT} {Hfn Eq K T Q : Type}
    `{!Hasher Hfn K, !KeyEqual Eq K K, !Hasher Hfn Q, !KeyEqual Eq K Q}
    (h : hardening) (C : Z) (moved : K * T -> K * T) (torn : T -> T) (initial : T) (cannot : bool)
    `{!TableOk C, !KeyLaws Hfn Eq K, !QueryLaws Hfn Eq K Q} (hs : Hfn) (eq : Eq) (throws : list bool) (ops : list (map_op Q K T)) :
  exists answers, table_run (map_exec h C moved torn initial cannot) ops (HashTable.empty_with C hs eq throws) = Some answers /\
    table_history (map_step C torn initial cannot eq (true ∈ throws)) (map_forbidden C eq) [] ops answers.
Proof. eapply run_history; [intros bag op b; apply (simulates_map h C moved torn initial cannot hs eq throws)|by apply fresh_table]. Qed.


(** ** The invariant *)

(** The states of a map: every operation leads from one to another, also by an
    exception. *)
Inductive map_reaches `{SizeT} {Hfn Eq K T Q : Type}
    `{!Hasher Hfn K, !KeyEqual Eq K K, !Hasher Hfn Q, !KeyEqual Eq K Q}
    (h : hardening) (C : Z) (moved : K * T -> K * T) (torn : T -> T) (initial : T) (cannot : bool) (hs : Hfn) (eq : Eq)
    (throws : list bool) : table Hfn Eq (K * T) -> Prop :=
  | ReachNew : map_reaches h C moved torn initial cannot hs eq throws (HashTable.empty_with C hs eq throws)
  | ReachReturn (op : map_op Q K T) a b b' :
      map_reaches h C moved torn initial cannot hs eq throws b -> map_exec h C moved torn initial cannot op b = Ret a b' ->
      map_reaches h C moved torn initial cannot hs eq throws b'
  | ReachThrow (op : map_op Q K T) b b' :
      map_reaches h C moved torn initial cannot hs eq throws b -> map_exec h C moved torn initial cannot op b = Throw b' ->
      map_reaches h C moved torn initial cannot hs eq throws b'.

(** C28. In every state that a [static_unordered_map] gets to, by calls that return
    and by calls that throw: a slot has its [occupied_] bit exactly when an object
    lives in it and no slot has both bits; an element is in a slot that a probe
    for its key gets to before any empty slot; two elements have different keys;
    [size_] counts the elements and is at most [Capacity]; [tombstones_] counts
    the tombstones. *)
Theorem unordered_map_invariant `{SizeT} {Hfn Eq K T Q : Type}
    `{!Hasher Hfn K, !KeyEqual Eq K K, !Hasher Hfn Q, !KeyEqual Eq K Q}
    (h : hardening) (C : Z) (moved : K * T -> K * T) (torn : T -> T) (initial : T) (cannot : bool)
    `{!TableOk C, !KeyLaws Hfn Eq K, !QueryLaws Hfn Eq K Q} (hs : Hfn) (eq : Eq) (throws : list bool) b :
  map_reaches (Q := Q) h C moved torn initial cannot hs eq throws b ->
  exists cells r, b = tab C cells r /\ table_inv fst C cells r.
Proof.
  intros Hr. cut (exists bag, holding fst C hs eq throws bag b).
  { intros (bag & cells & r & -> & Hi & _). by exists cells, r. }
  induction Hr as [|op a b b' _ [bag Hb] E|op b b' _ [bag Hb] E]; [exists []; by apply fresh_table|..];
    pose proof (simulates_map h C moved torn initial cannot hs eq throws bag op b Hb) as Hs;
    unfold map_simulates, answers_as, wpt in Hs; rewrite E in Hs; destruct Hs as (bag' & _ & Hb'); by exists bag'.
Qed.

(** C5. [rehash_in_place] ends, from every table that satisfies the invariant,
    although neither of its inner loops has a bound: with the same elements, each
    where a probe finds it, no tombstone and no change of [size_]; or, if the
    hasher throws, with an empty table.  It never reads a dead slot, constructs
    over a live one or leaks. *)
Theorem rehash_in_place_correct `{SizeT} {Hfn Eq K V : Type} `{!Hasher Hfn K, !KeyEqual Eq K K}
    (key_of : V -> K) (C : Z) (moved : V -> V) `{!TableOk C} (cells : list (cell V)) (r : rest Hfn Eq) :
  C <> 0 -> table_inv key_of C cells r ->
  match HashTable.rehash_in_place key_of C moved (tab C cells r) with
  | Ret _ b => exists cells' t', b = tab C cells' (mk_rest (r_size r) 0 (r_hasher r) (r_equal r) t') /\
      table_inv key_of C cells' (mk_rest (r_size r) 0 (r_hasher r) (r_equal r) t') /\ entries cells' ≡ₚ entries cells
  | Throw b => true ∈ r_throws r /\ exists t', b = HashTable.empty_with C (r_hasher r) (r_equal r) t'
  | _ => False
  end.
Proof.
  intros HC Hi. pose proof (wp_rehash key_of C moved cells r HC Hi) as Hw. unfold wp in Hw.
  destruct (HashTable.rehash_in_place key_of C moved (tab C cells r)); [| |done..].
  - destruct Hw as (cells' & t' & _ & -> & Hi' & Hp). by exists cells', t'.
  - destruct Hw as [Ht (t' & ->)]. split; [done|]. exists t'. by rewrite (empty_blank C).
Qed.

(** Two tables that satisfy the invariant.  [swap] exchanges elements, layout,
    sizes and functions; if it throws, both are empty.  Copy assignment gives the
    first the functions and the elements of the second, which it does not change,
    not even when it throws.  Move assignment does the same and empties the second.
    Whatever throws, and whatever that leaves of the element or function it was
    about to change, the table assigned to satisfies the invariant. *)
Theorem unordered_swap_assign `{SizeT} {Hfn Eq K V : Type} `{!Hasher Hfn K, !KeyEqual Eq K K, !KeyLaws Hfn Eq K}
    (key_of : V -> K) (h : hardening) (C : Z) (moved : V -> V) (cannot swap_cannot_throw : bool) `{!TableOk C}
    (torn_hasher moved_hasher : Hfn -> Hfn) (torn_equal moved_equal : Eq -> Eq) (torn : V -> V -> V) (torn_item : V -> V)
    (cells1 cells2 : list (cell V)) (r1 r2 : rest Hfn Eq) :
  table_inv key_of C cells1 r1 -> table_inv key_of C cells2 r2 -> (swap_cannot_throw = true -> true ∉ r_throws r1) ->
  wp (HashTable.swap C moved torn_hasher torn_equal torn swap_cannot_throw false)
    (fun _ p => exists t', p = (tab C cells2 (with_throws t' r2), tab C cells1 (with_throws (r_throws r2) r1)))
    (fun p => true ∈ r_throws r1 /\ exists hs1 eq1 t1 hs2 eq2 t2,
      p = (HashTable.empty_with C hs1 eq1 t1, HashTable.empty_with C hs2 eq2 t2))
    (tab C cells1 r1, tab C cells2 r2) /\
  wp (HashTable.copy_assign key_of h C moved cannot torn_hasher torn_equal false)
    (fun _ p => holding key_of C (r_hasher r2) (r_equal r2) (r_throws r1) (entries cells2) p.1 /\ p.2 = tab C cells2 r2)
    (fun p => (true ∈ r_throws r1 /\ exists hs eq bag, holding key_of C hs eq (r_throws r1) bag p.1) /\ p.2 = tab C cells2 r2)
    (tab C cells1 r1, tab C cells2 r2) /\
  wp (HashTable.move_assign key_of h C moved cannot torn_hasher torn_equal moved_hasher moved_equal torn_item false)
    (fun _ p => holding key_of C (r_hasher r2) (r_equal r2) (r_throws r1) (entries cells2) p.1 /\
      p.2 = HashTable.empty_with C (moved_hasher (r_hasher r2)) (moved_equal (r_equal r2)) (r_throws r2))
    (fun p => true ∈ r_throws r1 /\ exists hs eq bag, holding key_of C hs eq (r_throws r1) bag p.1)
    (tab C cells1 r1, tab C cells2 r2).
Proof.
  intros Hi1 Hi2 Hc. pose proof (wp_copy_assign key_of C h moved torn_hasher torn_equal cannot cells1 r1 cells2 r2 Hi1 Hi2) as Hcopy.
  pose proof (wp_move_assign key_of C h moved torn_hasher torn_equal cannot moved_hasher moved_equal torn_item cells1 r1 cells2 r2 Hi1 Hi2) as Hmove.
  destruct Hi1 as [Hs1 Hc1 _ _ _ _ _], Hi2 as [Hs2 Hc2 _ _ _ _ _]. split; [|split; [exact Hcopy|]].
  - eapply wp_mono; [by apply (wp_table_swap C moved torn_hasher torn_equal torn swap_cannot_throw cells1 cells2 r1 r2)| |].
    + intros ? p (t' & _ & ->). by exists t'.
    + intros p [Ht (hs1 & eq1 & t1 & hs2 & eq2 & t2 & ->)]. split; [done|]. exists hs1, eq1, t1, hs2, eq2, t2. by rewrite !(empty_blank C).
  - rewrite (empty_blank C). exact Hmove.
Qed.

Section witnesses.
  #[local] Existing Instance size_t_64.

(** ** Examples: integers, all of which a weak hash sends to few buckets *)

#[local] Instance weak_hasher : Hasher Z Z := fun m k => k mod m.
#[local] Instance same_number : KeyEqual unit Z Z := fun _ => Z.eqb.
#[local] Instance number_laws : KeyLaws Z unit Z.
Proof.
  split; unfold key_equal, same_number; [intros ? a; apply Z.eqb_refl|intros ? a b; rewrite !Z.eqb_eq; by intros ->|
    intros ? a b d; rewrite !Z.eqb_eq; by intros -> ->|intros ? ? a b; rewrite Z.eqb_eq; by intros ->].
Qed.
#[local] Instance table_of_4 : TableOk (H := size_t_64) 4.
Proof. split; [done|]. by vm_compute. Qed.

(** Four elements in one chain, no room for a fifth; two are erased, so that the
    next insertion rebuilds. *)
Definition sample_ops : list (map_op Z Z Z) :=
  [MapShared (OpTryEmplace (1, 10)); MapShared (OpTryEmplace (9, 90)); MapInsertOrAssign 17 170; MapSubscript 25;
   MapShared (OpTryEmplace (33, 0)); MapTryInsertOrAssign 9 91; MapShared (OpErase 1); MapShared (OpErase 17);
   MapShared (OpFind 9); MapShared (OpEmplace (41, 410)); MapShared OpItems; MapShared (OpEraseIf (fun e => e.2 =? 0));
   MapShared (OpContains 25); MapShared OpSize; MapShared OpClear; MapShared (OpFind 9)].

Lemma unordered_map_refines_witness :
  exists answers,
    table_run (map_exec (H := size_t_64) HARDENING_FAST 4 (fun e => e) (fun v => v) 0 true) sample_ops
      (HashTable.empty_with 4 8 tt [false; false; true]) = Some answers /\
    table_history (map_step 4 (fun v => v) 0 true tt (true ∈ [false; false; true])) (map_forbidden 4 tt) [] sample_ops answers.
Proof. apply (unordered_map_refines (H := size_t_64) HARDENING_FAST 4 (fun e => e) (fun v => v) 0 true 8 tt [false; false; true] sample_ops). Defined.


(** What the sample answers when nothing throws. *)
Example sample_answers :
  table_run (map_exec (H := size_t_64) HARDENING_FAST 4 (fun e => e) (fun v => v) 0 true) sample_ops
    (HashTable.empty_with 4 8 tt []) =
  Some [ABool true; ABool true; AFound (Some (17, 170)); AFound (Some (25, 0)); ABool false; ABool true; ABool true; ABool true;
    AFound (Some (9, 91)); AFound (Some (41, 410)); AItems [(25, 0); (9, 91); (41, 410)]; ANumber 1; ABool false; ANumber 2; AUnit;
    AFound None].
Proof. by vm_compute. Qed.

Lemma unordered_map_invariant_witness :
  exists b, map_exec (H := size_t_64) (Q := Z) HARDENING_FAST 4 (fun e => e) (fun v => v) 0 true (MapInsertOrAssign 1 10)
      (HashTable.empty_with 4 8 tt []) = Ret (AFound (Some (1, 10))) b /\
    exists cells r, b = tab (H := size_t_64) 4 cells r /\ table_inv fst 4 cells r.
Proof.
  eexists. split; [by vm_compute|].
  apply (unordered_map_invariant (H := size_t_64) (Q := Z) HARDENING_FAST 4 (fun e => e) (fun v => v) 0 true 8 tt []).
  eapply (ReachReturn _ _ _ _ _ _ _ _ _ (MapInsertOrAssign 1 10)); [apply ReachNew|by vm_compute].
Defined.
(** An element behind a tombstone of its chain. *)
Definition sample_cells : list (cell (Z * Z)) :=
  [(None, SEmpty); (None, SEmpty); (None, SEmpty); (None, SEmpty); (None, SEmpty); (None, STombstone);
   (Some (9, 90), SOccupied); (None, SEmpty)].

Lemma sample_inv : table_inv fst 4 sample_cells (mk_rest 1 1 8 tt []).
Proof.
  assert (forall i e s, sample_cells !! i = Some (Some e, s) -> i = 6%nat /\ e = (9, 90)) as Hone.
  { intros i e s. do 8 (destruct i as [|i]; [by intros [= <- _]|]). done. }
  split; [by vm_compute| | | |done|done|done].
  - intros i o s. do 8 (destruct i as [|i]; [intros [= <- <-]; split; [done|by intros [? ?]]|]). done.
  - intros i e [-> ->]%Hone. exists 1%nat. split_and!; [by vm_compute; lia|by vm_compute|].
    intros d Hd. assert (d = 0%nat) as -> by lia. exists None, STombstone. split; [by vm_compute|done].
  - by intros i j v w [-> _]%Hone [-> _]%Hone.
Qed.

Lemma rehash_in_place_correct_witness :
  table_inv fst 4 sample_cells (mk_rest 1 1 8 tt []) /\
  match HashTable.rehash_in_place fst 4 (fun e => e) (tab 4 sample_cells (mk_rest 1 1 8 tt [])) with
  | Ret _ b => exists cells' t', b = tab 4 cells' (mk_rest 1 0 8 tt t') /\
      table_inv fst 4 cells' (mk_rest 1 0 8 tt t') /\ entries cells' ≡ₚ entries sample_cells
  | Throw b => true ∈ [] /\ exists t', b = HashTable.empty_with 4 8 tt t'
  | _ => False
  end.
Proof.
  split; [exact sample_inv|]. apply (rehash_in_place_correct fst 4 (fun e => e) sample_cells (mk_rest 1 1 8 tt [])); [done|exact sample_inv].
Defined.
Lemma unordered_swap_assign_witness :
  table_inv fst 4 sample_cells (mk_rest 1 1 8 tt [true]) /\
  wp (HashTable.swap 4 (fun e => e) (fun m => m) (fun u => u) (fun x _ => x) false false)
    (fun _ p => exists t', p = (tab 4 sample_cells (mk_rest 1 1 8 tt t'), tab 4 sample_cells (mk_rest 1 1 8 tt [])))
    (fun p => true ∈ [true] /\ exists hs1 eq1 t1 hs2 eq2 t2,
      p = (HashTable.empty_with 4 hs1 eq1 t1, HashTable.empty_with 4 hs2 eq2 t2))
    (tab 4 sample_cells (mk_rest 1 1 8 tt [true]), tab 4 sample_cells (mk_rest 1 1 8 tt [])).
Proof.
  split; [exact (with_throws_inv _ _ _ _ [true] sample_inv)|].
  refine (proj1 (unordered_swap_assign fst HARDENING_FAST 4 (fun e => e) true false (fun m => m) (fun m => m) (fun u => u) (fun u => u)
    (fun x _ => x) (fun e => e) sample_cells
    sample_cells (mk_rest 1 1 8 tt [true]) (mk_rest 1 1 8 tt []) _ sample_inv _)).
  - exact (with_throws_inv _ _ _ _ [true] sample_inv).
  - discriminate.
Defined.
End witnesses.
