(* ===== verification/Crc.v ===== *)
(** * [crc8], [crc16] and [crc32]

    [include/metl/detail/crc.hpp] and the three headers on top of it.  A register of
    [width] bits is an integer below [2 ^ width]; [METL_CRC_TABLE] is the argument
    [table] of the update steps.  A buffer is the list of its bytes; a C string is
    the list of the characters from its address on, which the scan may run past.

    The theorem relates the nibble tables to the bit-at-a-time division, a message
    to its parts, and a message to one with a damaged byte. *)

From Stdlib Require Import ZArith Lia.
From stdpp Require Import base numbers list option tactics.
From S2P Require Import Prelude.
Local Open Scope Z_scope.

Fixpoint repeat_step (n : nat) (step : Z -> Z) (value : Z) : Z :=
  match n with
  | O => value
  | S n' => repeat_step n' step (step value)
  end.

Record crc_params : Set := { initial : Z; final_xor : Z }.

Module Crc.
Section registers.
  Context (width polynomial : Z).

(** [static_cast<Crc>]. *)
Definition cast (value : Z) : Z := value mod 2 ^ width.

Definition reflected_step (value : Z) : Z :=
  if negb (Z.land value 1 =? 0) then cast (Z.lxor (Z.shiftr value 1) polynomial) else cast (Z.shiftr value 1).

Definition top_bit : Z := cast (Z.shiftl 1 (width - 1)).
Definition forward_step (value : Z) : Z :=
  if negb (Z.land value top_bit =? 0) then cast (Z.lxor (Z.shiftl value 1) polynomial) else cast (Z.shiftl value 1).

Definition make_crc_nibble_table_reflected : list Z :=
  (fun index => repeat_step 4 reflected_step (cast index)) <$> seqZ 0 16.
Definition make_crc_nibble_table_forward : list Z :=
  (fun index => repeat_step 4 forward_step (cast (Z.shiftl (cast index) (width - 4)))) <$> seqZ 0 16.

Definition entry (table : list Z) (index : Z) : Z := default 0 (table !! Z.to_nat index).

Definition crc_update_byte_reflected (crc byte : Z) : Z :=
  let table := make_crc_nibble_table_reflected in
  let crc := cast (Z.lxor crc byte) in
  let crc := cast (Z.lxor (Z.shiftr crc 4) (entry table (Z.land crc 0x0F))) in
  cast (Z.lxor (Z.shiftr crc 4) (entry table (Z.land crc 0x0F))).

Definition crc_update_byte_forward (crc byte : Z) : Z :=
  let table := make_crc_nibble_table_forward in
  let crc := cast (Z.lxor crc (cast (Z.shiftl (cast byte) (width - 8)))) in
  let crc := cast (Z.lxor (cast (Z.shiftl crc 4)) (entry table (Z.land (Z.shiftr crc (width - 4)) 0x0F))) in
  cast (Z.lxor (cast (Z.shiftl crc 4)) (entry table (Z.land (Z.shiftr crc (width - 4)) 0x0F))).

(** [crc_fold], over a span and over a C string. *)
Definition crc_fold (bytes : list Z) (params : crc_params) (update : Z -> Z -> Z) : Z :=
  cast (Z.lxor (foldl update (initial params) bytes) (final_xor params)).

Fixpoint c_string_length (text : list Z) : option nat :=
  match text with
  | [] => None
  | ch :: text' => if ch =? 0 then Some O else S <$> c_string_length text'
  end.

Definition crc_fold_text (text : list Z) (params : crc_params) (update : Z -> Z -> Z) : option Z :=
  (fun length => cast (Z.lxor (foldl update (initial params) ((fun ch => ch mod 2 ^ 8) <$> take length text)) (final_xor params)))
    <$> c_string_length text.
End registers.

(** *** The three widths *)

Definition crc8_polynomial : Z := 0x07.
Definition crc16_polynomial : Z := 0x1021.
Definition crc32_polynomial : Z := 0xEDB88320.

Definition crc8_update_byte (table : bool) (crc byte : Z) : Z :=
  if table then crc_update_byte_forward 8 crc8_polynomial crc byte
  else repeat_step 8 (forward_step 8 crc8_polynomial) (Z.lxor crc byte).
Definition crc16_update_byte (table : bool) (crc byte : Z) : Z :=
  if table then crc_update_byte_forward 16 crc16_polynomial crc byte
  else repeat_step 8 (forward_step 16 crc16_polynomial) (cast 16 (Z.lxor crc (Z.shiftl byte 8))).
Definition crc32_update_byte (table : bool) (crc byte : Z) : Z :=
  if table then crc_update_byte_reflected 32 crc32_polynomial crc byte
  else repeat_step 8 (reflected_step 32 crc32_polynomial) (Z.lxor crc byte).

Definition crc8_defaults : crc_params := {| initial := 0; final_xor := 0 |}.
Definition crc16_defaults : crc_params := {| initial := 0xFFFF; final_xor := 0 |}.
Definition crc32_defaults : crc_params := {| initial := 0xFFFFFFFF; final_xor := 0xFFFFFFFF |}.

Definition crc8 (table : bool) (bytes : list Z) (params : crc_params) : Z := crc_fold 8 bytes params (crc8_update_byte table).
Definition crc16 (table : bool) (bytes : list Z) (params : crc_params) : Z := crc_fold 16 bytes params (crc16_update_byte table).
Definition crc32 (table : bool) (bytes : list Z) (params : crc_params) : Z := crc_fold 32 bytes params (crc32_update_byte table).

Definition crc8_text (table : bool) (text : list Z) (params : crc_params) : option Z :=
  crc_fold_text 8 text params (crc8_update_byte table).
Definition crc16_text (table : bool) (text : list Z) (params : crc_params) : option Z :=
  crc_fold_text 16 text params (crc16_update_byte table).
Definition crc32_text (table : bool) (text : list Z) (params : crc_params) : option Z :=
  crc_fold_text 32 text params (crc32_update_byte table).
End Crc.

(** The check values of the catalogues, over ["123456789"]. *)
Example crc_check_values :
  let digits := [49; 50; 51; 52; 53; 54; 55; 56; 57] in
  Crc.crc8 true digits Crc.crc8_defaults = 0xF4 /\ Crc.crc16 true digits Crc.crc16_defaults = 0x29B1 /\
  Crc.crc32 true digits Crc.crc32_defaults = 0xCBF43926 /\ Crc.crc32 false digits Crc.crc32_defaults = 0xCBF43926.
Proof. by vm_compute. Qed.

(** ** Shifting and reducing bits *)

Section bits.
  Implicit Types (a b n w x : Z).

Lemma low_bits_lxor a b w : 0 <= w -> Z.lxor a b mod 2 ^ w = Z.lxor (a mod 2 ^ w) (b mod 2 ^ w).
Proof.
  intros Hw. rewrite <- !Z.land_ones by done. apply Z.bits_inj'. intros i Hi.
  rewrite !Z.lxor_spec, !Z.land_spec, !Z.lxor_spec. by destruct (Z.testbit a i), (Z.testbit b i), (Z.testbit (Z.ones w) i).
Qed.

(** A register in two parts. *)
Lemma split_at x n : 0 <= n -> 0 <= x -> x = Z.lxor (Z.shiftl (Z.shiftr x n) n) (x mod 2 ^ n).
Proof.
  intros Hn Hx. rewrite <- Z.land_ones by done. apply Z.bits_inj'. intros i Hi.
  rewrite Z.lxor_spec, Z.land_spec, Z.shiftl_spec, Z.testbit_ones_nonneg by done. destruct (Z.ltb_spec i n).
  - rewrite (Z.testbit_neg_r _ (i - n)) by lia. by rewrite andb_true_r.
  - rewrite Z.shiftr_spec, andb_false_r, xorb_false_r by lia. f_equal. lia.
Qed.

Lemma shiftl_mul x n : 0 <= n -> Z.shiftl x n = x * 2 ^ n.
Proof. intros. by apply Z.shiftl_mul_pow2. Qed.

Lemma lxor_cancel_l a b x : Z.lxor x a = Z.lxor x b -> a = b.
Proof.
  intros E. rewrite <- (Z.lxor_0_l a), <- (Z.lxor_0_l b), <- (Z.lxor_nilpotent x), !Z.lxor_assoc. by rewrite E.
Qed.

Lemma lxor_cancel_r a b x : Z.lxor a x = Z.lxor b x -> a = b.
Proof. rewrite !(Z.lxor_comm _ x). apply lxor_cancel_l. Qed.
End bits.

Section division.
  Context (w P : Z) (Hw : 8 <= w) (HP : 0 <= P < 2 ^ w).
  Implicit Types (x y h n crc byte : Z).
  Abbreviation cast := (Crc.cast w).
  Abbreviation register x := (0 <= x < 2 ^ w).

Lemma pow_w_pos : 256 <= 2 ^ w.
Proof. change 256 with (2 ^ 8). apply Z.pow_le_mono_r; lia. Qed.

Lemma cast_register x : register (cast x).
Proof. pose proof pow_w_pos. apply Z.mod_pos_bound. lia. Qed.

Lemma cast_id x : register x -> cast x = x.
Proof. apply Z.mod_small. Qed.

Lemma cast_lxor x y : cast (Z.lxor x y) = Z.lxor (cast x) (cast y).
Proof. apply low_bits_lxor. lia. Qed.

(** What both kinds of step have in common: a shift, and the polynomial if a bit
    fell out. *)
Record division_step (step : Z -> Z) : Prop := {
  step_register : forall x, register (step x);
  step_linear : forall x y, register x -> register y -> step (Z.lxor x y) = Z.lxor (step x) (step y)
}.

Lemma repeat_register step (n : nat) x : division_step step -> register x -> register (repeat_step n step x).
Proof. intros Hs. revert x. induction n as [|n IH]; intros x Hx; cbn; [done|]. apply IH, Hs. Qed.

Lemma repeat_linear step (n : nat) x y :
  division_step step -> register x -> register y ->
  repeat_step n step (Z.lxor x y) = Z.lxor (repeat_step n step x) (repeat_step n step y).
Proof.
  intros Hs. revert x y. induction n as [|n IH]; intros x y Hx Hy; cbn; [done|]. rewrite (step_linear _ Hs) by done.
  apply IH; apply Hs.
Qed.

Lemma repeat_twice step x : repeat_step 8 step x = repeat_step 4 step (repeat_step 4 step x).
Proof. done. Qed.

Lemma cond_lxor (a b : bool) :
  (if xorb a b then P else 0) = Z.lxor (if a then P else 0) (if b then P else 0).
Proof. destruct a, b; cbn [xorb]; by rewrite ?Z.lxor_nilpotent, ?Z.lxor_0_l, ?Z.lxor_0_r. Qed.

(** *** Reflected *)

Lemma reflected_eq x :
  Crc.reflected_step w P x = cast (Z.lxor (Z.shiftr x 1) (if Z.testbit x 0 then P else 0)).
Proof.
  unfold Crc.reflected_step. change 1 with (2 ^ 0) at 1. rewrite (land_pow2_testbit x 0), negb_involutive by lia. destruct (Z.testbit x 0); [done|by rewrite Z.lxor_0_r].
Qed.

Lemma reflected_division : division_step (Crc.reflected_step w P).
Proof.
  split; [intros x; rewrite reflected_eq; apply cast_register|]. intros x y Hx Hy.
  rewrite !reflected_eq, <- cast_lxor, Z.shiftr_lxor, Z.lxor_spec, cond_lxor. f_equal.
  rewrite !Z.lxor_assoc. f_equal. rewrite <- !Z.lxor_assoc. f_equal. apply Z.lxor_comm.
Qed.

Lemma reflected_shift h n : 0 <= n -> register (Z.shiftl h n) -> Crc.reflected_step w P (Z.shiftl h (n + 1)) = Z.shiftl h n.
Proof.
  intros Hn Hr. rewrite reflected_eq, Z.shiftl_spec_low by lia. rewrite Z.lxor_0_r, Z.shiftr_shiftl_l by lia.
  replace (n + 1 - 1) with n by lia. by apply cast_id.
Qed.

Lemma shiftl_register h m n : 0 <= h -> 0 <= m <= n -> register (Z.shiftl h n) -> register (Z.shiftl h m).
Proof.
  intros Hh Hmn. rewrite !shiftl_mul by lia. pose proof (Z.pow_le_mono_r 2 m n ltac:(lia) ltac:(lia)).
  pose proof (Z.pow_pos_nonneg 2 m ltac:(lia) ltac:(lia)). nia.
Qed.

Lemma high_register x n : 0 <= n -> register x -> register (Z.shiftl (Z.shiftr x n) n) /\ 0 <= Z.shiftr x n.
Proof.
  intros Hn Hx. rewrite shiftl_mul, Z.shiftr_div_pow2 by done. pose proof (Z.pow_pos_nonneg 2 n ltac:(lia) Hn).
  pose proof (Z.div_pos x (2 ^ n) ltac:(lia) ltac:(lia)). pose proof (Z.mul_div_le x (2 ^ n) ltac:(lia)). nia.
Qed.

Lemma reflected_nibble x :
  register x ->
  repeat_step 4 (Crc.reflected_step w P) x =
    cast (Z.lxor (Z.shiftr x 4) (Crc.entry (Crc.make_crc_nibble_table_reflected w P) (Z.land x 0x0F))).
Proof.
  intros Hx. pose proof pow_w_pos. change 0x0F with (Z.ones 4). rewrite Z.land_ones by lia.
  pose proof (Z.mod_pos_bound x (2 ^ 4) ltac:(lia)) as Hl. destruct (high_register x 4 ltac:(lia) Hx) as [Hh Hh0].
  assert (repeat_step 4 (Crc.reflected_step w P) (Z.shiftl (Z.shiftr x 4) 4) = Z.shiftr x 4) as Eh.
  { cbn [repeat_step]. rewrite (reflected_shift _ 3), (reflected_shift _ 2), (reflected_shift _ 1), (reflected_shift _ 0), Z.shiftl_0_r;
      [done|lia|..]; try lia; by (eapply shiftl_register; [exact Hh0| |exact Hh]; lia). }
  assert (Crc.entry (Crc.make_crc_nibble_table_reflected w P) (x mod 2 ^ 4) =
    repeat_step 4 (Crc.reflected_step w P) (x mod 2 ^ 4)) as ->.
  { unfold Crc.entry, Crc.make_crc_nibble_table_reflected. rewrite list_lookup_fmap, lookup_seqZ_lt by lia. cbn [fmap option_fmap option_map default id].
    rewrite Z.add_0_l, Z2Nat.id, cast_id by lia. done. }
  assert (repeat_step 4 (Crc.reflected_step w P) x =
    Z.lxor (Z.shiftr x 4) (repeat_step 4 (Crc.reflected_step w P) (x mod 2 ^ 4))) as E.
  { rewrite (split_at x 4) at 1 by lia. rewrite (repeat_linear _ _ _ _ reflected_division) by (done || lia). by rewrite Eh. }
  rewrite <- E. symmetry. apply cast_id. by apply repeat_register; [apply reflected_division|].
Qed.

Lemma reflected_table crc byte :
  Crc.crc_update_byte_reflected w P crc byte = repeat_step 8 (Crc.reflected_step w P) (cast (Z.lxor crc byte)).
Proof.
  unfold Crc.crc_update_byte_reflected. cbv zeta. rewrite repeat_twice.
  rewrite <- (reflected_nibble (cast (Z.lxor crc byte))) by apply cast_register. rewrite <- reflected_nibble; [done|].
  apply repeat_register; [apply reflected_division|apply cast_register].
Qed.

(** *** Forward *)

Lemma top_bit_eq : Crc.top_bit w = 2 ^ (w - 1).
Proof.
  unfold Crc.top_bit. rewrite Z.shiftl_1_l. apply cast_id. pose proof (Z.pow_pos_nonneg 2 (w - 1) ltac:(lia) ltac:(lia)).
  split; [lia|]. apply Z.pow_lt_mono_r; lia.
Qed.

Lemma forward_eq x :
  Crc.forward_step w P x = cast (Z.lxor (Z.shiftl x 1) (if Z.testbit x (w - 1) then P else 0)).
Proof.
  unfold Crc.forward_step. rewrite top_bit_eq, land_pow2_testbit, negb_involutive by lia. destruct (Z.testbit x (w - 1)); [done|by rewrite Z.lxor_0_r].
Qed.

Lemma forward_division : division_step (Crc.forward_step w P).
Proof.
  split; [intros x; rewrite forward_eq; apply cast_register|]. intros x y Hx Hy.
  rewrite !forward_eq, <- cast_lxor, Z.shiftl_lxor, Z.lxor_spec, cond_lxor. f_equal.
  rewrite !Z.lxor_assoc. f_equal. rewrite <- !Z.lxor_assoc. f_equal. apply Z.lxor_comm.
Qed.

Lemma forward_shift h n : 0 <= h -> 0 <= n -> Z.shiftl h n < 2 ^ (w - 1) -> Crc.forward_step w P (Z.shiftl h n) = Z.shiftl h (n + 1).
Proof.
  intros Hh Hn Hlt. rewrite forward_eq. assert (Z.testbit (Z.shiftl h n) (w - 1) = false) as ->.
  { destruct (decide (Z.shiftl h n = 0)) as [->|]; [apply Z.bits_0|]. assert (0 <= Z.shiftl h n) by (by apply Z.shiftl_nonneg).
    apply Z.bits_above_log2; [done|]. apply Z.log2_lt_pow2; lia. }
  rewrite Z.lxor_0_r, Z.shiftl_shiftl by lia. apply cast_id. split; [by apply Z.shiftl_nonneg|].
  rewrite shiftl_mul in * by lia. rewrite Z.pow_add_r by lia. replace (2 ^ w) with (2 ^ (w - 1) * 2 ^ 1); [nia|].
  rewrite <- Z.pow_add_r by lia. f_equal. lia.
Qed.

Lemma shiftl_below h m n k : 0 <= h < 2 ^ k -> 0 <= m -> 0 <= k -> k + m <= n -> Z.shiftl h m < 2 ^ n.
Proof.
  intros Hh Hm Hk Hn. rewrite shiftl_mul by done. eapply Z.lt_le_trans; [|apply (Z.pow_le_mono_r 2 (k + m) n); lia].
  rewrite Z.pow_add_r by lia. pose proof (Z.pow_pos_nonneg 2 m ltac:(lia) Hm). nia.
Qed.

Lemma forward_nibble x :
  register x ->
  repeat_step 4 (Crc.forward_step w P) x =
    cast (Z.lxor (cast (Z.shiftl x 4)) (Crc.entry (Crc.make_crc_nibble_table_forward w P) (Z.land (Z.shiftr x (w - 4)) 0x0F))).
Proof.
  intros Hx. pose proof pow_w_pos. set (low := x mod 2 ^ (w - 4)).
  pose proof (Z.mod_pos_bound x (2 ^ (w - 4)) ltac:(apply Z.pow_pos_nonneg; lia)) as Hl. fold low in Hl.
  destruct (high_register x (w - 4) ltac:(lia) Hx) as [Hh Hh0].
  assert (Z.shiftr x (w - 4) < 2 ^ 4) as Hh4.
  { rewrite Z.shiftr_div_pow2 by lia. apply Z.div_lt_upper_bound; [apply Z.pow_pos_nonneg; lia|].
    rewrite <- Z.pow_add_r by lia. replace (w - 4 + 4) with w by lia. lia. }
  assert (register low) as Hlr. { pose proof (Z.pow_le_mono_r 2 (w - 4) w ltac:(lia) ltac:(lia)). lia. }
  assert (repeat_step 4 (Crc.forward_step w P) low = Z.shiftl low 4) as El.
  { cbn [repeat_step]. rewrite <- (Z.shiftl_0_r low) at 1.
    rewrite (forward_shift low 0), (forward_shift low (0 + 1)), (forward_shift low (0 + 1 + 1)), (forward_shift low (0 + 1 + 1 + 1));
      [done|lia|lia|..]; try lia; apply (shiftl_below _ _ _ (w - 4)); lia. }
  assert (cast (Z.shiftl x 4) = Z.shiftl low 4) as Ec.
  { unfold Crc.cast, low. rewrite !shiftl_mul by lia. replace w with (w - 4 + 4) at 1 by lia. rewrite Z.pow_add_r by lia.
    apply Z.mul_mod_distr_r; apply Z.pow_nonzero; lia. }
  change 0x0F with (Z.ones 4). rewrite Z.land_ones, (Z.mod_small (Z.shiftr x (w - 4))) by lia.
  assert (Crc.entry (Crc.make_crc_nibble_table_forward w P) (Z.shiftr x (w - 4)) =
    repeat_step 4 (Crc.forward_step w P) (Z.shiftl (Z.shiftr x (w - 4)) (w - 4))) as ->.
  { unfold Crc.entry, Crc.make_crc_nibble_table_forward. rewrite list_lookup_fmap, lookup_seqZ_lt by lia.
    cbn [fmap option_fmap option_map default id]. rewrite Z.add_0_l, Z2Nat.id, (cast_id (Z.shiftr x (w - 4))), cast_id by (done || lia). done. }
  assert (repeat_step 4 (Crc.forward_step w P) x =
    Z.lxor (Z.shiftl low 4) (repeat_step 4 (Crc.forward_step w P) (Z.shiftl (Z.shiftr x (w - 4)) (w - 4)))) as E.
  { rewrite (split_at x (w - 4)) at 1 by lia. fold low. rewrite (repeat_linear _ _ _ _ forward_division), El by done. apply Z.lxor_comm. }
  rewrite Ec, <- E. symmetry. apply cast_id. by apply repeat_register; [apply forward_division|].
Qed.

Lemma forward_table crc byte :
  Crc.crc_update_byte_forward w P crc byte =
    repeat_step 8 (Crc.forward_step w P) (cast (Z.lxor crc (cast (Z.shiftl (cast byte) (w - 8))))).
Proof.
  unfold Crc.crc_update_byte_forward. cbv zeta. rewrite repeat_twice. set (crc1 := cast (Z.lxor crc _)).
  rewrite <- (forward_nibble crc1) by apply cast_register. rewrite <- forward_nibble; [done|].
  apply repeat_register; [apply forward_division|apply cast_register].
Qed.

(** *** A step loses nothing *)

Lemma repeat_inj step (n : nat) x y :
  division_step step -> (forall x y, register x -> register y -> step x = step y -> x = y) ->
  register x -> register y -> repeat_step n step x = repeat_step n step y -> x = y.
Proof.
  intros Hd Hs. revert x y. induction n as [|n IH]; intros x y Hx Hy; cbn; [done|]. intros E. apply Hs; [done|done|].
  apply IH; [apply Hd|apply Hd|done].
Qed.

Lemma cast_testbit x n : 0 <= n < w -> Z.testbit (cast x) n = Z.testbit x n.
Proof. intros Hn. unfold Crc.cast. by rewrite Z.mod_pow2_bits_low by lia. Qed.

Lemma register_high_bits x n : register x -> w <= n -> Z.testbit x n = false.
Proof.
  intros Hx Hn. destruct (decide (x = 0)) as [->|]; [apply Z.bits_0|]. apply Z.bits_above_log2; [lia|].
  assert (Z.log2 x < w) by (apply Z.log2_lt_pow2; lia). lia.
Qed.

Lemma reflected_inj x y :
  Z.testbit P (w - 1) = true -> register x -> register y -> Crc.reflected_step w P x = Crc.reflected_step w P y -> x = y.
Proof.
  intros HPt Hx Hy. rewrite !reflected_eq. intros E.
  assert (forall z, register z -> Z.testbit (cast (Z.lxor (Z.shiftr z 1) (if Z.testbit z 0 then P else 0))) (w - 1) = Z.testbit z 0) as Ht.
  { intros z Hz. rewrite cast_testbit, Z.lxor_spec, Z.shiftr_spec, register_high_bits by (done || lia).
    destruct (Z.testbit z 0); [by rewrite HPt|by rewrite Z.bits_0]. }
  assert (Z.testbit x 0 = Z.testbit y 0) as E0 by (rewrite <- (Ht x Hx), <- (Ht y Hy); by rewrite E).
  rewrite E0, !cast_lxor in E. apply lxor_cancel_r in E.
  assert (forall z, register z -> cast (Z.shiftr z 1) = Z.shiftr z 1) as Hs.
  { intros z Hz. apply cast_id. rewrite Z.shiftr_div_pow2 by lia. change (2 ^ 1) with 2.
    split; [apply Z.div_pos; lia|]. apply Z.div_lt_upper_bound; lia. }
  rewrite !Hs in E by done. apply Z.bits_inj'. intros i Hi. destruct (decide (i = 0)) as [->|]; [done|].
  assert (Z.testbit (Z.shiftr x 1) (i - 1) = Z.testbit (Z.shiftr y 1) (i - 1)) as Eb by (by rewrite E).
  rewrite !Z.shiftr_spec in Eb by lia. by replace (i - 1 + 1) with i in Eb by lia.
Qed.

Lemma forward_inj x y :
  Z.testbit P 0 = true -> register x -> register y -> Crc.forward_step w P x = Crc.forward_step w P y -> x = y.
Proof.
  intros HP0 Hx Hy. rewrite !forward_eq. intros E.
  assert (forall z, Z.testbit (cast (Z.lxor (Z.shiftl z 1) (if Z.testbit z (w - 1) then P else 0))) 0 = Z.testbit z (w - 1)) as Ht.
  { intros z. rewrite cast_testbit, Z.lxor_spec, Z.shiftl_spec_low by lia.
    destruct (Z.testbit z (w - 1)); [by rewrite HP0|by rewrite Z.bits_0]. }
  assert (Z.testbit x (w - 1) = Z.testbit y (w - 1)) as E0 by (rewrite <- (Ht x), <- (Ht y); by rewrite E).
  rewrite E0, !cast_lxor in E. apply lxor_cancel_r in E. apply Z.bits_inj'. intros i Hi.
  destruct (Z.le_gt_cases w i); [by rewrite !register_high_bits|]. destruct (decide (i = w - 1)) as [->|]; [done|].
  assert (Z.testbit (cast (Z.shiftl x 1)) (i + 1) = Z.testbit (cast (Z.shiftl y 1)) (i + 1)) as Eb by (by rewrite E).
  rewrite !cast_testbit, !Z.shiftl_spec in Eb by lia. by replace (i + 1 - 1) with i in Eb by lia.
Qed.
End division.

(** ** Checksums *)

Definition is_byte (b : Z) : Prop := 0 <= b < 2 ^ 8.

(** What an update step must do for the theorem to hold of the checksum. *)
Record update_laws (w : Z) (update : bool -> Z -> Z -> Z) : Prop := {
  update_register : forall table crc b, 0 <= crc < 2 ^ w -> is_byte b -> 0 <= update table crc b < 2 ^ w;
  update_table : forall crc b, 0 <= crc < 2 ^ w -> is_byte b -> update true crc b = update false crc b;
  update_crc_inj : forall table crc crc' b,
    0 <= crc < 2 ^ w -> 0 <= crc' < 2 ^ w -> is_byte b -> update table crc b = update table crc' b -> crc = crc';
  update_byte_inj : forall table crc b b',
    0 <= crc < 2 ^ w -> is_byte b -> is_byte b' -> update table crc b = update table crc b' -> b = b'
}.

Section steps.
  Context (w P : Z) (Hw : 8 <= w) (HP : 0 <= P < 2 ^ w).

Lemma lxor_register x y : 0 <= x < 2 ^ w -> 0 <= y < 2 ^ w -> 0 <= Z.lxor x y < 2 ^ w.
Proof.
  intros Hx Hy. rewrite <- (cast_id w x Hx), <- (cast_id w y Hy), <- (cast_lxor w Hw). by apply cast_register.
Qed.

(** An update that divides the register, once the byte is in it. *)
Lemma division_update step (place : Z -> Z) (update : bool -> Z -> Z -> Z) :
  division_step w step -> (forall x y, 0 <= x < 2 ^ w -> 0 <= y < 2 ^ w -> step x = step y -> x = y) ->
  (forall b, is_byte b -> 0 <= place b < 2 ^ w) -> (forall b b', is_byte b -> is_byte b' -> place b = place b' -> b = b') ->
  (forall table crc b, 0 <= crc < 2 ^ w -> is_byte b -> update table crc b = repeat_step 8 step (Z.lxor crc (place b))) ->
  update_laws w update.
Proof.
  intros Hd Hi Hr Hp Hu. split.
  - intros table crc b Hc Hb. rewrite Hu by done. apply repeat_register; [done|]. apply lxor_register; auto.
  - intros crc b Hc Hb. by rewrite !Hu.
  - intros table crc crc' b Hc Hc' Hb. rewrite !Hu by done. intros E. apply (lxor_cancel_r _ _ (place b)).
    apply (repeat_inj w step 8); [done|done|apply lxor_register; auto..|done].
  - intros table crc b b' Hc Hb Hb'. rewrite !Hu by done. intros E. apply Hp; [done|done|]. apply (lxor_cancel_l _ _ crc).
    apply (repeat_inj w step 8); [done|done|apply lxor_register; auto..|done].
Qed.
End steps.

Lemma byte_register w b : 8 <= w -> is_byte b -> 0 <= b < 2 ^ w.
Proof. unfold is_byte. intros Hw Hb. pose proof (Z.pow_le_mono_r 2 8 w ltac:(lia) Hw). lia. Qed.

Lemma crc8_laws : update_laws 8 Crc.crc8_update_byte.
Proof.
  assert (0 <= Crc.crc8_polynomial < 2 ^ 8) as HP by (by vm_compute).
  apply (division_update 8 ltac:(lia) (Crc.forward_step 8 Crc.crc8_polynomial) (fun b => b));
    [by apply forward_division|intros x y; by apply forward_inj|done|done|].
  intros [] crc b Hc Hb; unfold Crc.crc8_update_byte; [|done]. rewrite forward_table by done. f_equal.
  rewrite Z.shiftl_0_r, !(cast_id 8 b) by done. apply cast_id. by apply lxor_register.
Qed.

Lemma crc16_laws : update_laws 16 Crc.crc16_update_byte.
Proof.
  assert (0 <= Crc.crc16_polynomial < 2 ^ 16) as HP by (by vm_compute).
  assert (forall b, is_byte b -> 0 <= Z.shiftl b 8 < 2 ^ 16) as Hr.
  { unfold is_byte. intros b Hb. rewrite shiftl_mul by lia. change (2 ^ 16) with (2 ^ 8 * 2 ^ 8). lia. }
  apply (division_update 16 ltac:(lia) (Crc.forward_step 16 Crc.crc16_polynomial) (fun b => Z.shiftl b 8));
    [by apply forward_division|intros x y; by apply forward_inj|done|intros b b' _ _; rewrite !shiftl_mul by lia; lia|].
  intros [] crc b Hc Hb; unfold Crc.crc16_update_byte.
  - rewrite forward_table by done. f_equal. change (16 - 8) with 8.
    rewrite (cast_id 16 b), (cast_id 16 (Z.shiftl b 8)) by (by auto || by apply byte_register).
    apply cast_id. apply lxor_register; auto. lia.
  - f_equal. apply cast_id. apply lxor_register; auto. lia.
Qed.

Lemma crc32_laws : update_laws 32 Crc.crc32_update_byte.
Proof.
  assert (0 <= Crc.crc32_polynomial < 2 ^ 32) as HP by (by vm_compute).
  apply (division_update 32 ltac:(lia) (Crc.reflected_step 32 Crc.crc32_polynomial) (fun b => b));
    [by apply reflected_division|intros x y; by apply reflected_inj|intros b; by apply byte_register|done|].
  intros [] crc b Hc Hb; unfold Crc.crc32_update_byte; [|done]. rewrite reflected_table by done. f_equal.
  apply cast_id. apply lxor_register; [lia|done|by apply byte_register].
Qed.

(** What a checksum promises. *)
Definition checksum_laws (w : Z) (crc : bool -> list Z -> crc_params -> Z) (text : bool -> list Z -> crc_params -> option Z) : Prop :=
  forall params, 0 <= initial params < 2 ^ w -> 0 <= final_xor params < 2 ^ w -> forall bytes, Forall is_byte bytes ->
    crc true bytes params = crc false bytes params /\
    forall table,
      0 <= crc table bytes params < 2 ^ w /\
      (forall more, Forall is_byte more -> crc table (bytes ++ more) params =
        crc table more {| initial := Z.lxor (crc table bytes params) (final_xor params); final_xor := final_xor params |}) /\
      (forall more x y, Forall is_byte more -> is_byte x -> is_byte y -> x <> y ->
        crc table (bytes ++ x :: more) params <> crc table (bytes ++ y :: more) params) /\
      (forall chars beyond, Forall (fun ch => ch <> 0) chars -> bytes = (fun ch => ch mod 2 ^ 8) <$> chars ->
        text table (chars ++ 0 :: beyond) params = Some (crc table bytes params) /\ text table chars params = None).

Section checksum.
  Context (w : Z) (Hw : 8 <= w) (update : bool -> Z -> Z -> Z) (Hu : update_laws w update).

Lemma fold_register table bytes crc : 0 <= crc < 2 ^ w -> Forall is_byte bytes -> 0 <= foldl (update table) crc bytes < 2 ^ w.
Proof.
  intros Hc Hb. revert crc Hc. induction Hb as [|b bytes Hb _ IH]; intros crc Hc; cbn; [done|]. apply IH. by apply Hu.
Qed.

Lemma fold_table bytes crc : 0 <= crc < 2 ^ w -> Forall is_byte bytes -> foldl (update true) crc bytes = foldl (update false) crc bytes.
Proof.
  intros Hc Hb. revert crc Hc. induction Hb as [|b bytes Hb _ IH]; intros crc Hc; cbn; [done|].
  rewrite (update_table _ _ Hu) by done. apply IH. by apply Hu.
Qed.

Lemma fold_inj table bytes crc crc' :
  0 <= crc < 2 ^ w -> 0 <= crc' < 2 ^ w -> Forall is_byte bytes ->
  foldl (update table) crc bytes = foldl (update table) crc' bytes -> crc = crc'.
Proof.
  intros Hc Hc' Hb. revert crc crc' Hc Hc'. induction Hb as [|b bytes Hb _ IH]; intros crc crc' Hc Hc' E; cbn in E; [done|].
  apply (update_crc_inj _ _ Hu table crc crc' b Hc Hc' Hb). apply IH; [by apply Hu|by apply Hu|done].
Qed.

Lemma scan_text chars beyond :
  Forall (fun ch => ch <> 0) chars ->
  Crc.c_string_length (chars ++ 0 :: beyond) = Some (length chars) /\ Crc.c_string_length chars = None.
Proof.
  induction 1 as [|ch chars Hch _ [IH1 IH2]]; cbn; [done|]. rewrite (proj2 (Z.eqb_neq _ _) Hch). by rewrite IH1, IH2.
Qed.

Lemma checksum_holds :
  checksum_laws w (fun table bytes params => Crc.crc_fold w bytes params (update table))
    (fun table text params => Crc.crc_fold_text w text params (update table)).
Proof.
  intros [init final] Hi Hf bytes Hb. cbn [initial final_xor] in *.
  assert (forall table l, Forall is_byte l -> Crc.crc_fold w l {| initial := init; final_xor := final |} (update table) =
    Z.lxor (foldl (update table) init l) final) as Ec.
  { intros table l Hl. apply cast_id. apply lxor_register; [done|by apply fold_register|done]. }
  split; [rewrite !Ec, fold_table by done; done|]. intros table. split_and!.
  - apply cast_register. done.
  - apply cast_register. done.
  - intros more Hm. rewrite (Ec table bytes Hb). unfold Crc.crc_fold. cbn [initial final_xor]. rewrite Z.lxor_assoc, Z.lxor_nilpotent, Z.lxor_0_r.
    by rewrite foldl_app.
  - intros more x y Hm Hx Hy Hne. rewrite !Ec by (apply Forall_app; auto). intros E%lxor_cancel_r. rewrite !foldl_app in E. cbn in E.
    apply fold_inj in E; [|apply Hu; [by apply fold_register|done]..|done]. destruct Hne.
    eapply (update_byte_inj _ _ Hu); [by apply (fold_register table bytes init)|done|done|exact E].
  - intros chars beyond Hch ->. destruct (scan_text chars beyond Hch) as [E1 E2]. unfold Crc.crc_fold_text. rewrite E1, E2. split; [|done].
    cbn. by rewrite take_app_length.
Qed.
End checksum.

(** C30. CRC-8, CRC-16 and CRC-32, for every initial and final value and every
    message: the nibble tables compute what the division does bit by bit; the
    checksum fits its register; a message may be checksummed in parts, as the
    parameters' comments say; two messages that differ in one byte never have the
    same checksum; and a C string has the checksum of its characters up to the NUL,
    which it must have. *)
Theorem crc_exact :
  checksum_laws 8 Crc.crc8 Crc.crc8_text /\ checksum_laws 16 Crc.crc16 Crc.crc16_text /\ checksum_laws 32 Crc.crc32 Crc.crc32_text.
Proof.
  split; [|split].
  - exact (checksum_holds 8 ltac:(lia) _ crc8_laws).
  - exact (checksum_holds 16 ltac:(lia) _ crc16_laws).
  - exact (checksum_holds 32 ltac:(lia) _ crc32_laws).
Qed.
