(* ===== verification/World.v ===== *)
(** * Objects with addresses, and element operations that throw

    The state of [optional] and [expected] operations: the objects there are, each at
    an address, and a script that says of each coming operation on elements whether
    it throws (after its end none do).  [this == &other] is a comparison of
    addresses.  Of an element type the code asks whether it can be moved and whether
    the move can throw ([element]); a move that returns leaves [moved v] in its
    source, one that throws leaves [torn v].  [no_exceptions] is
    [METL_NO_EXCEPTIONS]. *)

From Stdlib Require Import ZArith Lia.
From stdpp Require Import base numbers list option gmap tactics.
From S2P Require Import Prelude.

Record store (O : Type) : Type := mk_world { objects : gmap nat O; throws : list bool }.
Arguments mk_world {O} _ _.
Arguments objects {O} _.
Arguments throws {O} _.

Record element (A : Type) : Type := mk_element {
  movable : bool;         (** [std::is_move_constructible_v] *)
  nothrow_move : bool;    (** [std::is_nothrow_move_constructible_v] *)
  moved : A -> A;
  torn : A -> A
}.
Arguments mk_element {A} _ _ _ _.
Arguments movable {A} _.
Arguments nothrow_move {A} _.
Arguments moved {A} _ _.
Arguments torn {A} _ _.

(** A forwarded argument: the object it makes, if what it refers to is alive;
    whether that cannot throw; and what the use leaves behind where it came from,
    [spend true] when it threw. *)
Record arg (W A : Type) : Type := mk_arg { look : W -> option A; nothrow : bool; spend : bool -> M W unit }.
Arguments mk_arg {W A} _ _ _.
Arguments look {W A} _ _.
Arguments nothrow {W A} _.
Arguments spend {W A} _ _.

Module World.
Section world.
  Context {O : Type} (no_exceptions : bool).
  Abbreviation W := (store O).

Definition object (i : nat) : M W O := fun w =>
  match objects w !! i with Some x => Ret x w | None => Fault end.
Definition set_object (i : nat) (x : O) : M W unit :=
  modify (fun w => mk_world (<[i := x]> (objects w)) (throws w)).

Definition may_throw (cannot : bool) : M W bool := fun w =>
  if no_exceptions || cannot then Ret false w
  else Ret (match throws w with b :: _ => b | [] => false end) (mk_world (objects w) (tail (throws w))).

(** [A x(std::forward<Args>(args)...)]. *)
Definition make {A} (a : arg W A) : M W A :=
  let! x := get (look a) in
  match x with
  | None => fault
  | Some v => let! b := may_throw (nothrow a) in spend a b ;;; if b then throw else ret v
  end.

(** [A x(static_cast<A&&>(local))]. *)
Definition move_local {A} (el : element A) (v : A) : M W A :=
  let! b := may_throw (nothrow_move el) in if b then throw else ret v.

(** An argument that is neither an object nor a part of one. *)
Definition local_arg {A} (v : A) : arg W A := mk_arg (fun _ => Some v) false (fun _ => ret tt).
End world.
End World.

(** ** Scripts *)

(** A script in which no throw follows another at once. *)
Fixpoint calm (t : list bool) : Prop :=
  match t with
  | [] => True
  | b :: t' => (b = true -> hd_error t' <> Some true) /\ calm t'
  end.

Lemma calm_suffix t t' : calm t -> t' `suffix_of` t -> calm t'.
Proof. intros Hc (l & ->). induction l as [|b l IH]; [done|]. apply IH, Hc. Qed.

Section world_facts.
  Context {O : Type} (no_exceptions : bool).
  Implicit Types (w : store O) (x : O) (sp : bool -> gmap nat O -> gmap nat O).

Definition upd (i : nat) x w : store O := mk_world (<[i := x]> (objects w)) (throws w).

(** [b] says whether an element operation that [cannot] throw or can throws, and
    [w'] is what the question leaves. *)
Record drew (cannot : bool) w (b : bool) w' : Prop := {
  drew_objects : objects w' = objects w;
  drew_throws : throws w' `suffix_of` throws w;
  drew_true : b = true -> cannot = false /\ no_exceptions = false /\ throws w = true :: throws w'
}.

Lemma wp_may_fail cannot (Q : bool -> store O -> Prop) (X : store O -> Prop) w :
  (forall b w', drew cannot w b w' -> Q b w') -> wp (World.may_throw no_exceptions cannot) Q X w.
Proof.
  intros HQ. unfold wp, World.may_throw. destruct no_exceptions eqn:En; cbn [orb].
  { apply HQ. by split; [|reflexivity|]. }
  destruct cannot; apply HQ; [by split; [|reflexivity|]|]. split; [done| |].
  - destruct (throws w) as [|b t]; [reflexivity|]. by exists [b].
  - cbn. destruct (throws w) as [|b t]; [done|]. by intros ->.
Qed.

Lemma drew_cannot c w w' : drew c w true w' -> c || no_exceptions = true -> False.
Proof. intros [_ _ H]. by destruct (H eq_refl) as (-> & -> & _). Qed.

(** After a throw of a calm script the next operation does not throw. *)
Lemma drew_twice c c' w b w' w'' b' :
  calm (throws w) -> drew c w true w' -> throws w'' = throws w' -> drew c' w'' b b' -> b = false.
Proof.
  intros Hc [_ _ H1] E2 [_ _ H2]. destruct b; [|done]. destruct (H1 eq_refl) as (_ & _ & E1).
  destruct (H2 eq_refl) as (_ & _ & E3). rewrite E1 in Hc. cbn in Hc. rewrite <- E2, E3 in Hc. by destruct Hc as [[] _].
Qed.

(** Whether the next element operation throws, and the script after it. *)
Definition next_throw (cannot : bool) (t : list bool) : bool :=
  negb (no_exceptions || cannot) && default false (head t).
Definition script_after (cannot : bool) (t : list bool) : list bool :=
  if no_exceptions || cannot then t else tail t.

Lemma may_throw_next cannot w :
  World.may_throw no_exceptions cannot w =
    Ret (next_throw cannot (throws w)) (mk_world (objects w) (script_after cannot (throws w))).
Proof.
  unfold World.may_throw, next_throw, script_after. destruct (no_exceptions || cannot); cbn; [by destruct w|].
  by destruct (throws w).
Qed.

(** Runs a body whose script is known. *)
Lemma wp_may_next cannot (Q : bool -> store O -> Prop) X w :
  Q (next_throw cannot (throws w)) (mk_world (objects w) (script_after cannot (throws w))) ->
  wp (World.may_throw no_exceptions cannot) Q X w.
Proof. unfold wp. by rewrite may_throw_next. Qed.

Lemma next_throw_nil cannot : next_throw cannot [] = false.
Proof. unfold next_throw. apply andb_false_r. Qed.

Lemma script_after_nil cannot : script_after cannot [] = [].
Proof. unfold script_after. by destruct (_ || _). Qed.

(** ** Arguments *)

(** What an argument makes in [w], and what its use does to the objects. *)
Definition arg_at {A} (a : arg (store O) A) w (v : A) sp : Prop :=
  look a w = Some v /\
  forall b w', objects w' = objects w -> spend a b w' = Ret tt (mk_world (sp b (objects w)) (throws w')).

(** The objects are [os] now, and the script has not been rewound. *)
Definition ends w (os : gmap nat O) w' : Prop := objects w' = os /\ throws w' `suffix_of` throws w.

Lemma make_next {A} (a : arg (store O) A) w v sp :
  arg_at a w v sp ->
  let b := next_throw (nothrow a) (throws w) in
  let w' := mk_world (sp b (objects w)) (script_after (nothrow a) (throws w)) in
  World.make no_exceptions a w = if b then Throw w' else Ret v w'.
Proof.
  intros [Hl Hs] b w'. unfold World.make. mstep. rewrite Hl, (bind_Ret _ _ _ _ _ (may_throw_next (nothrow a) w)). fold b.
  assert (spend a b (mk_world (objects w) (script_after (nothrow a) (throws w))) = Ret tt w') as E1 by (by apply Hs).
  rewrite (bind_Ret _ _ _ _ _ E1). by destruct b.
Qed.

Lemma script_suffix cannot t : script_after cannot t `suffix_of` t.
Proof. unfold script_after. destruct (_ || _); [done|]. destruct t as [|b t]; [done|]. by exists [b]. Qed.

Lemma wp_make {A} (a : arg (store O) A) w v sp :
  arg_at a w v sp ->
  wp (World.make no_exceptions a) (fun r w' => r = v /\ ends w (sp false (objects w)) w')
     (ends w (sp true (objects w))) w.
Proof.
  intros Ha. unfold wp. rewrite (make_next a w v sp Ha).
  destruct (next_throw _ _) eqn:Eb; repeat split; cbn; apply script_suffix.
Qed.

(** An argument is taken when nothing throws. *)
Lemma make_exact {A} (a : arg (store O) A) w v sp :
  arg_at a w v sp -> throws w = [] -> World.make no_exceptions a w = Ret v (mk_world (sp false (objects w)) []).
Proof.
  intros Ha Ht. rewrite (make_next a w v sp Ha). by rewrite Ht, next_throw_nil, script_after_nil.
Qed.

Lemma move_local_exact {A} (el : element A) v w :
  throws w = [] -> World.move_local no_exceptions el v w = Ret v w.
Proof.
  intros Ht. unfold World.move_local. rewrite (bind_Ret _ _ _ _ _ (may_throw_next _ w)), Ht, next_throw_nil, script_after_nil.
  destruct w. cbn in *. by subst.
Qed.

Lemma local_arg_at {A} w (v : A) : arg_at (World.local_arg v) w v (fun _ os => os).
Proof. split; [done|]. intros b w' <-. cbn. by destruct w'. Qed.
End world_facts.
Arguments upd {O} i x w /.

Section world_rules.
  Context {O : Type} (X : store O -> Prop).

Lemma wp_ret {A} (a : A) (R : A -> store O -> Prop) w : R a w -> wp (ret a) R X w.
Proof. done. Qed.

Lemma wp_throw {A} (R : A -> store O -> Prop) w : X w -> wp throw R X w.
Proof. done. Qed.

Lemma wp_get {A} (f : store O -> A) (R : A -> store O -> Prop) w : R (f w) w -> wp (get f) R X w.
Proof. done. Qed.

Lemma wp_harden (b : bool) (Q : unit -> store O -> Prop) w : b = true -> Q tt w -> wp (metl_harden b) Q X w.
Proof. by intros ->. Qed.
End world_rules.

(** The objects of a world that a run has come to. *)
Ltac objs :=
  cbn [throws objects upd];
  repeat match goal with
  | H : drew _ _ _ _ ?w' |- context [objects ?w'] => rewrite (drew_objects _ _ _ _ _ H); cbn [throws objects upd]
  | H : objects ?w' = _ |- context [objects ?w'] => rewrite H; cbn [throws objects upd]
  end;
  rewrite ?insert_insert_eq.

(** Looks an object up in such a world. *)
Ltac lk :=
  objs;
  repeat first
    [ rewrite lookup_insert_eq
    | rewrite lookup_insert_ne by congruence ];
  first [reflexivity | eassumption].

(** The script only gets shorter. *)
Ltac sfx :=
  cbn [throws objects upd];
  first
    [ assumption | reflexivity
    | match goal with
      | H : drew _ _ _ _ ?w' |- throws ?w' `suffix_of` _ => etransitivity; [exact (drew_throws _ _ _ _ _ H)|sfx]
      | H : throws ?w' `suffix_of` _ |- throws ?w' `suffix_of` _ => etransitivity; [exact H|sfx]
      end ].

(** Closes a case in which a handler throws. *)
Ltac twice :=
  match goal with
  | Hc : calm (throws ?w), H1 : drew _ ?c ?wa true ?wb, H2 : drew _ ?c' ?wc true ?wd |- _ =>
      exfalso; assert (throws wa `suffix_of` throws w) as Hsfx by sfx;
      discriminate (drew_twice _ c c' wa true wb wc wd (calm_suffix _ _ Hc Hsfx) H1 eq_refl H2)
  end.

(** Two ways of writing one map, decided key by key. *)
Ltac maps i j :=
  apply map_eq; intros k; destruct (decide (k = i)) as [->|]; [|destruct (decide (k = j)) as [->|]];
  repeat first [rewrite lookup_insert_eq | rewrite lookup_insert_ne by congruence]; first [reflexivity | congruence].

(** Closes a case in which an operation throws that cannot. *)
Ltac cannot :=
  exfalso;
  match goal with
  | H : drew _ _ _ true _ |- _ =>
      let Hf := fresh in let Hf' := fresh in
      destruct (drew_true _ _ _ _ _ H eq_refl) as (Hf & Hf' & _); cbn in Hf;
      repeat match goal with Hb : orb _ _ = true |- _ => rewrite ?Hf, ?Hf' in Hb; cbn in Hb end; congruence
  end.

(** ** Programs

    A sequence of operations on objects, run by a program that catches every
    exception, beside the same sequence on abstract contents.  [after] is what an
    operation that returns makes of the contents, [None] if it names what is not
    there; [thrown] relates them to what one that throws may leave. *)

Module Programs.
Section program.
  Context {O C Op : Type} (box : C -> O) (unbox : O -> option C).
  Context (after : Op -> gmap nat C -> option (gmap nat C)) (thrown : Op -> gmap nat C -> gmap nat C -> Prop).
  Context (exec : Op -> M (store O) unit).
  Implicit Types (cs : gmap nat C) (w : store O).

(** The contents of the objects that hold what they may. *)
Definition contents_of w : gmap nat C := omap unbox (objects w).

(** Which operations returned; the program stops before one that names what is not
    there. *)
Fixpoint run (ops : list Op) : M (store O) (list bool) :=
  match ops with
  | [] => ret []
  | o :: ops' => fun w =>
      let next (b : bool) := (let! rs := run ops' in ret (b :: rs)) in
      match after o (contents_of w) with
      | None => Ret [] w
      | Some _ =>
          match exec o w with
          | Ret _ w' => next true w'
          | Throw w' => next false w'
          | Trap => Trap
          | Fault => Fault
          | Spin => Spin
          end
      end
  end.

Inductive steps : list Op -> gmap nat C -> list bool -> gmap nat C -> Prop :=
  | steps_nil cs : steps [] cs [] cs
  | steps_return o ops cs cs1 rs cs2 :
      after o cs = Some cs1 -> steps ops cs1 rs cs2 -> steps (o :: ops) cs (true :: rs) cs2
  | steps_throw o ops cs cs1 rs cs2 :
      after o cs <> None -> thrown o cs cs1 -> steps ops cs1 rs cs2 -> steps (o :: ops) cs (false :: rs) cs2
  | steps_undefined o ops cs : after o cs = None -> steps (o :: ops) cs [] cs.

(** The world of the contents [cs]. *)
Definition shows cs w : Prop := objects w = box <$> cs.

Lemma shows_lookup cs w i c : shows cs w -> cs !! i = Some c -> objects w !! i = Some (box c).
Proof. intros -> Hi. by rewrite lookup_fmap, Hi. Qed.

Lemma ends_shows cs w w' i c :
  shows cs w -> ends w (<[i := box c]> (objects w)) w' -> shows (<[i := c]> cs) w' /\ throws w' `suffix_of` throws w.
Proof. intros Hw [Ho Ht]. split; [|done]. unfold shows. by rewrite fmap_insert, Ho, Hw. Qed.

Lemma ends_shows_two cs w w' i j c d :
  shows cs w -> ends w (<[i := box c]> (<[j := box d]> (objects w))) w' ->
  shows (<[i := c]> (<[j := d]> cs)) w' /\ throws w' `suffix_of` throws w.
Proof. intros Hw [Ho Ht]. split; [|done]. unfold shows. by rewrite !fmap_insert, Ho, Hw. Qed.

Hypothesis unbox_box : forall c, unbox (box c) = Some c.

Lemma contents_of_shows cs w : shows cs w -> contents_of w = cs.
Proof.
  intros Hw. apply map_eq. intros k. unfold contents_of. rewrite lookup_omap, Hw, lookup_fmap.
  destruct (cs !! k) as [c|]; [apply unbox_box|done].
Qed.

(** How an operation ends. *)
Definition outcome_ok o cs w : Prop :=
  wp (exec o)
     (fun _ w' => exists cs', after o cs = Some cs' /\ shows cs' w' /\ throws w' `suffix_of` throws w)
     (fun w' => exists cs', thrown o cs cs' /\ shows cs' w' /\ throws w' `suffix_of` throws w) w.

(** If every operation ends as it should, so does every program; the scripts may be
    of some kind that losing the front does not change. *)
Lemma run_steps (ok : list bool -> Prop) :
  (forall t t', ok t -> t' `suffix_of` t -> ok t') ->
  (forall o cs w, ok (throws w) -> shows cs w -> after o cs <> None -> outcome_ok o cs w) ->
  forall ops cs w, ok (throws w) -> shows cs w ->
  exists rs cs' w', run ops w = Ret rs w' /\ steps ops cs rs cs' /\ shows cs' w'.
Proof.
  intros Hsuf Hexec. induction ops as [|o ops IH]; intros cs w Hc Hw; cbn [run].
  { exists [], cs, w. split; [done|]. split; [constructor|done]. }
  rewrite (contents_of_shows cs w Hw). destruct (after o cs) as [cs1|] eqn:Ha.
  2: { exists [], cs, w. split; [done|]. split; [by constructor|done]. }
  pose proof (Hexec o cs w Hc Hw ltac:(by rewrite Ha)) as Hok. unfold outcome_ok, wp in Hok.
  destruct (exec o w) as [u w1|w1| | |]; try done;
    destruct Hok as (cs2 & Hcs2 & Hw1 & Ht1); pose proof (Hsuf _ _ Hc Ht1) as Hc1;
    destruct (IH cs2 w1 Hc1 Hw1) as (rs & cs' & w' & E' & Hs & Hw').
  - exists (true :: rs), cs', w'. rewrite (bind_Ret _ _ _ _ _ E'). split; [done|]. split; [|done]. by econstructor.
  - exists (false :: rs), cs', w'. rewrite (bind_Ret _ _ _ _ _ E'). split; [done|]. split; [|done].
    eapply steps_throw; [by rewrite Ha|done|done].
Qed.
End program.
End Programs.
