(* ===== verification/Optional.v ===== *)
(** * [optional]

    [include/metl/optional.hpp]: a value in the object itself, or none.  The objects
    and the operations on elements are those of [World.v].  Destroying a value that is
    not alive, building one over another, and reading one that is not there are
    [Fault]s.  [on_destroy i] is what the destructor of the value of object [i] does
    besides.  [assignable] says whether [T] has an assignment; a [const] one has
    none. *)

From Stdlib Require Import ZArith Lia.
From stdpp Require Import base numbers list option gmap tactics.
From S2P Require Import Prelude World.

Record optional (T : Type) : Type := mk_optional { union_ : option T; has_value_ : bool }.
Arguments mk_optional {T} _ _.
Arguments union_ {T} _.
Arguments has_value_ {T} _.

Module Optional.
Section optional.
  Context {T : Type} (el : element T) (assignable no_exceptions : bool) (h : hardening).
  Context (on_destroy : nat -> M (store (optional T)) unit).
  Abbreviation W := (store (optional T)).
  Abbreviation object := (World.object (O := optional T)).
  Abbreviation set_object := (World.set_object (O := optional T)).
  Abbreviation may_throw := (World.may_throw (O := optional T) no_exceptions).
  Abbreviation make := (World.make (O := optional T) no_exceptions).

(** *** The union and the flag *)

Definition has_value (i : nat) : M W bool := let! x := object i in ret (has_value_ x).
Definition set_has_value (i : nat) (b : bool) : M W unit :=
  let! x := object i in set_object i (mk_optional (union_ x) b).

(** [*data()]. *)
Definition data (i : nat) : M W T :=
  let! x := object i in match union_ x with Some v => ret v | None => fault end.
Definition put (i : nat) (v : T) : M W unit :=
  let! _ := data i in let! x := object i in set_object i (mk_optional (Some v) (has_value_ x)).
Definition construct_at (i : nat) (v : T) : M W unit :=
  let! x := object i in
  match union_ x with None => set_object i (mk_optional (Some v) (has_value_ x)) | Some _ => fault end.
Definition destroy_at (i : nat) : M W unit :=
  let! _ := data i in
  on_destroy i ;;;
  let! _ := data i in
  let! x := object i in
  set_object i (mk_optional None (has_value_ x)).

(** The value of an object given as an argument, to copy or to move from. *)
Definition value_of (i : nat) (w : W) : option T :=
  match objects w !! i with Some x => union_ x | None => None end.
Definition copy_arg (i : nat) : arg W T := mk_arg (value_of i) false (fun _ => ret tt).
Definition move_arg (i : nat) : arg W T :=
  mk_arg (value_of i) (nothrow_move el) (fun b => let! v := data i in put i (if b then torn el v else moved el v)).
(** [static_cast<T&&>(local)]. *)
Definition move_local (v : T) : arg W T := mk_arg (fun _ => Some v) (nothrow_move el) (fun _ => ret tt).

(** [*data() = std::forward<U>(value)]. *)
Definition assign_at (i : nat) (a : arg W T) : M W unit :=
  let! x := get (look a) in
  match x with
  | None => fault
  | Some v =>
      let! old := data i in
      let! b := may_throw false in
      spend a b ;;;
      put i (if b then torn el old else v) ;;;
      if b then throw else ret tt
  end.

(** *** Observers *)

(** [operator*], [operator->] and [value()]. *)
Definition value (i : nat) : M W T :=
  let! b := has_value i in metl_assert h b ;;; data i.

(** *** Members that change the object *)

Definition construct (i : nat) (a : arg W T) : M W unit :=
  let! v := make a in construct_at i v ;;; set_has_value i true.

Definition reset (i : nat) : M W unit :=
  let! b := has_value i in
  if negb b then ret tt
  else set_has_value i false ;;; destroy_at i.

Definition assign_or_construct (i : nat) (a : arg W T) : M W unit :=
  let! b := has_value i in
  if b then
    (if assignable then assign_at i a else reset i ;;; construct i a)
  else construct i a.

Definition assign_nullopt (i : nat) : M W unit := reset i.

Definition copy_assign (i j : nat) : M W unit :=
  if Nat.eqb i j then ret tt
  else
    let! b := has_value j in
    if b then (let! _ := value j in assign_or_construct i (copy_arg j)) else reset i.
Definition move_assign (i j : nat) : M W unit :=
  if Nat.eqb i j then ret tt
  else
    let! b := has_value j in
    if b then (let! _ := value j in assign_or_construct i (move_arg j)) else reset i.
Definition assign_value (i : nat) (a : arg W T) : M W unit := assign_or_construct i a.

Definition emplace (i : nat) (a : arg W T) : M W unit :=
  let! b := has_value i in
  (if movable el && b then
     let! incoming := make a in
     reset i ;;;
     construct i (move_local incoming)
   else
     reset i ;;;
     construct i a) ;;;
  let! _ := data i in ret tt.

(** [std::swap] of two values. *)
Definition std_swap (i j : nat) : M W unit :=
  let! tmp := make (move_arg i) in
  assign_at i (move_arg j) ;;;
  assign_at j (World.local_arg tmp).

Definition swap (i j : nat) : M W unit :=
  let! a := has_value i in
  let! b := has_value j in
  if a && b then std_swap i j
  else if a && negb b then (let! _ := data i in construct j (move_arg i) ;;; reset i)
  else if negb a && b then (let! _ := data j in construct i (move_arg j) ;;; reset j)
  else ret tt.

(** *** Construction and destruction *)

(** [optional()], [optional(nullopt)]: the object at the address [i]. *)
Definition construct_empty (i : nat) : M W unit := set_object i (mk_optional None false).
(** From a value, or in place.  When the value's constructor throws there is no
    object, and its destructor does not run. *)
Definition construct_with (i : nat) (a : arg W T) : M W unit :=
  construct_empty i ;;; construct i a.
Definition copy_construct (i j : nat) : M W unit :=
  construct_empty i ;;;
  let! b := has_value j in
  if b then (let! _ := value j in construct i (copy_arg j)) else ret tt.
Definition move_construct (i j : nat) : M W unit :=
  construct_empty i ;;;
  let! b := has_value j in
  if b then (let! _ := value j in construct i (move_arg j)) else ret tt.
(** [~optional()]. *)
Definition destroy (i : nat) : M W unit := reset i.

(** *** The value or something else *)

Definition value_arg (rvalue : bool) (i : nat) : arg W T := if rvalue then move_arg i else copy_arg i.

Definition value_or (rvalue : bool) (i : nat) (default : arg W T) : M W T :=
  let! b := has_value i in if b then make (value_arg rvalue i) else make default.

(** A callable is given the value through a reference, here the object's name. *)
Definition and_then {U} (i : nat) (f : nat -> M W (optional U)) : M W (optional U) :=
  let! b := has_value i in
  if b then (let! _ := value i in f i) else ret (mk_optional None false).
Definition transform {U} (i : nat) (f : nat -> M W U) : M W (optional U) :=
  let! b := has_value i in
  if b then (let! _ := value i in let! u := f i in ret (mk_optional (Some u) true)) else ret (mk_optional None false).
Definition or_else (rvalue : bool) (i : nat) (f : M W (optional T)) : M W (optional T) :=
  let! b := has_value i in
  if b then (let! _ := value i in let! v := make (value_arg rvalue i) in ret (mk_optional (Some v) true)) else f.
End optional.

(** *** Comparison

    The operands are [const]; [S] is whatever state there is around them. *)

Section compare.
  Context {S T U : Type} (h : hardening).
  Implicit Types (lhs : optional T) (rhs : optional U).

(** [*x]. *)
Definition deref {A} (x : optional A) : M S A :=
  metl_assert h (has_value_ x) ;;; match union_ x with Some v => ret v | None => fault end.

(** [==], [!=], [<], [<=], [>] and [>=] of the values. *)
Context (eq ne lt le gt ge : T -> U -> bool).

(** [*lhs op *rhs]. *)
Definition both (op : T -> U -> bool) lhs rhs : M S bool :=
  let! a := deref lhs in let! b := deref rhs in ret (op a b).

Definition equal lhs rhs : M S bool :=
  if negb (Bool.eqb (has_value_ lhs) (has_value_ rhs)) then ret false
  else if negb (has_value_ lhs) then ret true
  else both eq lhs rhs.
Definition not_equal lhs rhs : M S bool :=
  if negb (Bool.eqb (has_value_ lhs) (has_value_ rhs)) then ret true
  else if negb (has_value_ lhs) then ret false
  else both ne lhs rhs.
Definition less_than lhs rhs : M S bool :=
  if negb (has_value_ rhs) then ret false else if negb (has_value_ lhs) then ret true else both lt lhs rhs.
Definition less_equal lhs rhs : M S bool :=
  if negb (has_value_ lhs) then ret true else if negb (has_value_ rhs) then ret false else both le lhs rhs.
Definition greater lhs rhs : M S bool :=
  if negb (has_value_ lhs) then ret false else if negb (has_value_ rhs) then ret true else both gt lhs rhs.
Definition greater_equal lhs rhs : M S bool :=
  if negb (has_value_ rhs) then ret true else if negb (has_value_ lhs) then ret false else both ge lhs rhs.

(** [false <=> true] and the like. *)
Definition bool_compare (a b : bool) : comparison :=
  match a, b with false, true => Lt | true, false => Gt | _, _ => Eq end.
Definition three_way (cmp : T -> U -> comparison) lhs rhs : M S comparison :=
  if has_value_ lhs && has_value_ rhs then
    let! a := deref lhs in let! b := deref rhs in ret (cmp a b)
  else ret (bool_compare (has_value_ lhs) (has_value_ rhs)).

(** Against [nullopt]. *)
Definition null_three_way lhs : comparison := bool_compare (has_value_ lhs) false.
Definition eq_null lhs : bool := negb (has_value_ lhs).
Definition ne_null lhs : bool := has_value_ lhs.
Definition lt_null lhs : bool := false.
Definition null_lt rhs : bool := has_value_ rhs.
Definition le_null lhs : bool := negb (has_value_ lhs).
Definition null_le rhs : bool := true.
Definition gt_null lhs : bool := has_value_ lhs.
Definition null_gt rhs : bool := false.
Definition ge_null lhs : bool := true.
Definition null_ge rhs : bool := negb (has_value_ rhs).

(** Against a value: [x.has_value() ? ( *x op v) : otherwise]. *)
Definition with_value (op : T -> U -> bool) (otherwise : bool) lhs (v : U) : M S bool :=
  if has_value_ lhs then (let! a := deref lhs in ret (op a v)) else ret otherwise.
Definition value_with (op : T -> U -> bool) (otherwise : bool) (v : T) rhs : M S bool :=
  if has_value_ rhs then (let! b := deref rhs in ret (op v b)) else ret otherwise.
Definition eq_value : optional T -> U -> M S bool := with_value eq false.
Definition ne_value : optional T -> U -> M S bool := with_value ne true.
Definition lt_value : optional T -> U -> M S bool := with_value lt true.
Definition le_value : optional T -> U -> M S bool := with_value le true.
Definition gt_value : optional T -> U -> M S bool := with_value gt false.
Definition ge_value : optional T -> U -> M S bool := with_value ge false.
Definition value_eq : T -> optional U -> M S bool := value_with eq false.
Definition value_ne : T -> optional U -> M S bool := value_with ne true.
Definition value_lt : T -> optional U -> M S bool := value_with lt false.
Definition value_le : T -> optional U -> M S bool := value_with le false.
Definition value_gt : T -> optional U -> M S bool := value_with gt true.
Definition value_ge : T -> optional U -> M S bool := value_with ge true.

(** [std::hash<optional<T>>], with the hash of the value. *)
Definition hash (hash_value : T -> Z) lhs : M S Z :=
  if has_value_ lhs then (let! a := deref lhs in ret (hash_value a)) else ret 0%Z.
End compare.
End Optional.
