(* ===== verification/OptionalClaims.v ===== *)
(** * What [optional] promises

    The abstract object is an [option].  An operation that returns has made it what
    was asked for; one that throws has left it empty, or as it was, or with what the
    element's own throwing assignment or move made of its value. *)

From Stdlib Require Import ZArith Lia.
From stdpp Require Import base numbers list option gmap tactics.
From S2P Require Import Prelude World Optional.

(** ** The abstract objects *)

Module OptionalSpec.
Section spec.
  Context {T : Type} (el : element T) (assignable : bool).
  Abbreviation contents := (gmap nat (option T)).

(** Where an argument comes from: elsewhere, or out of the value of an object. *)
Inductive source : Type := Given (v : T) | OfValue (j : nat) (f : T -> T).

Inductive op : Type :=
  | Emplace (i : nat) (s : source) | AssignValue (i : nat) (s : source) | AssignNull (i : nat)
  | Reset (i : nat) | CopyAssign (i j : nat) | MoveAssign (i j : nat) | Swap (i j : nat).

Definition resolve (s : source) (cs : contents) : option T :=
  match s with
  | Given v => Some v
  | OfValue j f => match cs !! j with Some (Some v) => Some (f v) | _ => None end
  end.
Definition refers (i : nat) (s : source) : bool :=
  match s with Given _ => false | OfValue j _ => Nat.eqb i j end.

(** What an operation that returns leaves; [None] if it names what is not there, or
    needs what [T] does not have: a value that cannot be moved is not built from
    itself, and one that cannot be assigned is neither assigned nor swapped. *)
Definition after (o : op) (cs : contents) : option contents :=
  match o with
  | Emplace i s =>
      c ← cs !! i; v ← resolve s cs;
      if movable el || negb (refers i s) then Some (<[i := Some v]> cs) else None
  | AssignValue i s => c ← cs !! i; v ← resolve s cs; if assignable then Some (<[i := Some v]> cs) else None
  | AssignNull i | Reset i => c ← cs !! i; Some (<[i := None]> cs)
  | CopyAssign i j => c ← cs !! i; d ← cs !! j; Some (<[i := d]> cs)
  | MoveAssign i j =>
      c ← cs !! i; d ← cs !! j; Some (if Nat.eqb i j then cs else <[i := d]> (<[j := moved el <$> d]> cs))
  | Swap i j => c ← cs !! i; d ← cs !! j; if assignable then Some (<[i := d]> (<[j := c]> cs)) else None
  end.

(** What is left of the contents [c] when an assignment to them throws. *)
Definition assignment_torn (c : option T) : option T := if assignable then torn el <$> c else None.

(** What an operation that throws may leave.  [emplace] keeps the old value unless
    there is no way to build the new one first and move it in for certain. *)
Definition thrown (o : op) (cs cs' : contents) : Prop :=
  match o with
  | Emplace i _ => cs' = cs \/ (movable el && nothrow_move el = false /\ cs' = <[i := None]> cs)
  | AssignValue i _ | CopyAssign i _ => exists c, cs !! i = Some c /\ cs' = <[i := assignment_torn c]> cs
  | AssignNull _ | Reset _ => False
  | MoveAssign i j =>
      exists c d, cs !! i = Some c /\ cs !! j = Some d /\
        cs' = <[i := assignment_torn c]> (<[j := torn el <$> d]> cs)
  | Swap i j =>
      exists c d c' d', cs !! i = Some c /\ cs !! j = Some d /\
        (is_Some c' <-> is_Some c) /\ (is_Some d' <-> is_Some d) /\ cs' = <[i := c']> (<[j := d']> cs)
  end.

(** A program that catches every exception: which operations returned. *)
Definition steps : list op -> contents -> list bool -> contents -> Prop := Programs.steps after thrown.
End spec.
Arguments source T : clear implicits.
Arguments op T : clear implicits.
End OptionalSpec.

(** ** The objects, run the same way *)

Module OptionalRun.
Import OptionalSpec.
Section run.
  Context {T : Type} (el : element T) (assignable no_exceptions : bool) (h : hardening).
  Context (hook : nat -> M (store (optional T)) unit).
  Abbreviation W := (store (optional T)).

Definition box (c : option T) : optional T := mk_optional c (match c with Some _ => true | None => false end).
Definition unbox (x : optional T) : option (option T) :=
  match x with
  | mk_optional (Some v) true => Some (Some v)
  | mk_optional None false => Some None
  | _ => None
  end.

Definition argument (s : source T) : arg W T :=
  mk_arg (fun w => match s with
    | Given v => Some v
    | OfValue j f => f <$> Optional.value_of j w
    end) false (fun _ => ret tt).

Definition exec (o : op T) : M W unit :=
  match o with
  | Emplace i s => Optional.emplace el no_exceptions hook i (argument s)
  | AssignValue i s => Optional.assign_value el assignable no_exceptions hook i (argument s)
  | AssignNull i => Optional.assign_nullopt hook i
  | Reset i => Optional.reset hook i
  | CopyAssign i j => Optional.copy_assign el assignable no_exceptions h hook i j
  | MoveAssign i j => Optional.move_assign el assignable no_exceptions h hook i j
  | Swap i j => Optional.swap el no_exceptions hook i j
  end.

Definition run : list (op T) -> M W (list bool) := Programs.run unbox (after el assignable) exec.
End run.
End OptionalRun.

(** ** Facts *)

Section optional_facts.
  Import OptionalSpec OptionalRun.
  Context {T : Type} (el : element T) (assignable no_exceptions : bool) (h : hardening).
  Context (hook : nat -> M (store (optional T)) unit).
  Hypothesis quiet : forall i w, hook i w = Ret tt w.
  Implicit Types (cs : gmap nat (option T)) (w : store (optional T)) (c d : option T).
  Abbreviation oshows := (Programs.shows (box (T := T))).
  Abbreviation next := (next_throw no_exceptions).
  Abbreviation rest := (script_after no_exceptions).

Lemma unbox_optional (c : option T) : unbox (box c) = Some c.
Proof. by destruct c. Qed.

Lemma has_value_box i c w :
  objects w !! i = Some (box c) -> Optional.has_value i w = Ret (match c with Some _ => true | None => false end) w.
Proof. intros Hi. unfold Optional.has_value, World.object, bind. by rewrite Hi. Qed.

Lemma data_box i v w : objects w !! i = Some (box (Some v)) -> Optional.data i w = Ret v w.
Proof. intros Hi. unfold Optional.data, World.object, bind. by rewrite Hi. Qed.

Lemma value_box i v w : objects w !! i = Some (box (Some v)) -> Optional.value h i w = Ret v w.
Proof.
  intros Hi. unfold Optional.value. rewrite (bind_Ret _ _ _ _ _ (has_value_box _ _ _ Hi)). mstep. by apply data_box.
Qed.

Lemma put_box i v v' w :
  objects w !! i = Some (box (Some v)) -> Optional.put i v' w = Ret tt (upd i (box (Some v')) w).
Proof.
  intros Hi. unfold Optional.put. rewrite (bind_Ret _ _ _ _ _ (data_box _ _ _ Hi)). unfold World.object, bind. by rewrite Hi.
Qed.

Lemma reset_box i c w :
  objects w !! i = Some (box c) -> Optional.reset hook i w = Ret tt (upd i (box None) w).
Proof.
  intros Hi. unfold Optional.reset. rewrite (bind_Ret _ _ _ _ _ (has_value_box _ _ _ Hi)). destruct c as [v|]; cbn [negb].
  2: { unfold ret. f_equal. destruct w. cbn in *. by rewrite insert_id. }
  unfold Optional.set_has_value, Optional.destroy_at, Optional.data, World.object, World.set_object, bind, modify, ret. rewrite Hi. cbn.
  rewrite lookup_insert_eq. cbn. rewrite quiet. cbn. rewrite lookup_insert_eq. cbn. rewrite lookup_insert_eq. cbn.
  by rewrite insert_insert_eq.
Qed.

(** Building a value in an empty object, from an argument. *)
Lemma construct_box i (a : arg (store (optional T)) T) w v sp :
  arg_at a w v sp -> (forall b, sp b (objects w) !! i = Some (box None)) ->
  let b := next (nothrow a) (throws w) in
  let w' := mk_world (sp b (objects w)) (rest (nothrow a) (throws w)) in
  Optional.construct no_exceptions i a w = if b then Throw w' else Ret tt (upd i (box (Some v)) w').
Proof.
  intros Ha Hsp b w'. unfold Optional.construct. pose proof (make_next no_exceptions a w v sp Ha) as Em. cbn zeta in Em.
  fold b w' in Em. destruct b; [by rewrite (bind_Throw _ _ _ _ Em)|]. rewrite (bind_Ret _ _ _ _ _ Em).
  unfold Optional.construct_at, Optional.set_has_value, World.object, World.set_object, bind, modify, w'. cbn. rewrite Hsp. cbn.
  rewrite lookup_insert_eq. cbn. by rewrite insert_insert_eq.
Qed.

(** Assigning to the value of an engaged object. *)
Lemma assign_at_box i (a : arg (store (optional T)) T) w o v sp :
  arg_at a w v sp -> objects w !! i = Some (box (Some o)) ->
  (forall b, exists o', sp b (objects w) !! i = Some (box (Some o'))) ->
  let b := next false (throws w) in
  let w' := mk_world (sp b (objects w)) (rest false (throws w)) in
  Optional.assign_at el no_exceptions i a w =
    if b then Throw (upd i (box (Some (torn el o))) w') else Ret tt (upd i (box (Some v)) w').
Proof.
  intros [Hl Hs] Hi Hsp b w'. unfold Optional.assign_at. mstep. rewrite Hl.
  rewrite (bind_Ret _ _ _ _ _ (data_box _ _ _ Hi)), (bind_Ret _ _ _ _ _ (may_throw_next no_exceptions false w)). fold b.
  assert (spend a b (mk_world (objects w) (rest false (throws w))) = Ret tt w') as Es by (by apply Hs).
  rewrite (bind_Ret _ _ _ _ _ Es). destruct (Hsp b) as (o' & Ho').
  rewrite (bind_Ret _ _ _ _ _ (put_box i o' _ w' Ho')). by destruct b.
Qed.

(** *** Arguments *)

Lemma argument_box (s : source T) cs w v :
  oshows cs w -> resolve s cs = Some v -> arg_at (argument s) w v (fun _ os => os).
Proof.
  intros Hw Hs. split; [|intros b w' <-; cbn; by destruct w'].
  destruct s as [v'|j f]; cbn in *; [done|]. unfold Optional.value_of. rewrite Hw, lookup_fmap.
  destruct (cs !! j) as [[u|]|]; cbn; by simplify_eq.
Qed.

Lemma argument_elsewhere (s : source T) cs w v i x :
  oshows cs w -> resolve s cs = Some v -> refers i s = false -> arg_at (argument s) (upd i x w) v (fun _ os => os).
Proof.
  intros Hw Hs Hr. split; [|intros b w' <-; cbn; by destruct w'].
  destruct s as [v'|j f]; cbn in *; [done|]. apply Nat.eqb_neq in Hr. unfold Optional.value_of. cbn.
  rewrite lookup_insert_ne, Hw, lookup_fmap by done.
  destruct (cs !! j) as [[u|]|]; cbn; by simplify_eq.
Qed.

Lemma copy_arg_box i v w : objects w !! i = Some (box (Some v)) -> arg_at (Optional.copy_arg i) w v (fun _ os => os).
Proof. intros Hi. split; [cbn; unfold Optional.value_of; by rewrite Hi|]. intros b w' <-. cbn. by destruct w'. Qed.

Lemma move_arg_box i v w :
  objects w !! i = Some (box (Some v)) ->
  arg_at (Optional.move_arg el i) w v (fun b os => <[i := box (Some (if b then torn el v else moved el v))]> os).
Proof.
  intros Hi. split; [cbn; unfold Optional.value_of; by rewrite Hi|]. intros b w' Ho. cbn.
  rewrite <- Ho in Hi. rewrite (bind_Ret _ _ _ _ _ (data_box _ _ _ Hi)), (put_box _ _ _ _ Hi). cbn. by rewrite Ho.
Qed.

Lemma move_local_box v w : arg_at (Optional.move_local el v) w v (fun _ os => os).
Proof. split; [done|]. intros b w' <-. cbn. by destruct w'. Qed.

(** *** Each operation *)

Lemma wp_if_next {A} (m : M (store (optional T)) A) (b : bool) w1 a w2 (Q : A -> store (optional T) -> Prop) X w :
  m w = (if b then Throw w1 else Ret a w2) -> (b = true -> X w1) -> (b = false -> Q a w2) -> wp m Q X w.
Proof. unfold wp. intros ->. destruct b; auto. Qed.

Lemma assign_or_construct_wp i (a : arg (store (optional T)) T) c w v sp :
  objects w !! i = Some (box c) -> arg_at a w v sp -> (assignable = false -> arg_at a (upd i (box None) w) v sp) ->
  (forall b os, sp b os !! i = os !! i) -> (forall b x y os, <[i := x]> (sp b (<[i := y]> os)) = <[i := x]> (sp b os)) ->
  wp (Optional.assign_or_construct el assignable no_exceptions hook i a)
     (fun _ => ends w (<[i := box (Some v)]> (sp false (objects w))))
     (ends w (<[i := box (assignment_torn el assignable c)]> (sp true (objects w)))) w.
Proof.
  intros Hi Ha Ha' Hsp Hins. unfold Optional.assign_or_construct.
  eapply wp_bind_Ret; [by apply has_value_box|]. unfold assignment_torn. destruct c as [o|].
  - destruct assignable eqn:Eas.
    + eapply wp_if_next; [eapply assign_at_box; [done..|]; intros b; exists o; by rewrite Hsp| |]; intros ->;
        (split; [done|apply script_suffix]).
    + eapply wp_bind_Ret; [by eapply reset_box|]. specialize (Ha' eq_refl).
      eapply wp_if_next; [eapply (construct_box _ _ _ v sp); [done|]; intros b; rewrite Hsp; apply lookup_insert_eq| |];
        intros Eb; rewrite Eb; (split; [|apply script_suffix]); cbn; [|apply Hins].
      rewrite <- (Hins true _ (box None) (objects w)). symmetry. apply insert_id. rewrite Hsp. apply lookup_insert_eq.
  - eapply wp_if_next; [eapply (construct_box _ _ _ v sp); [done|]; intros b; by rewrite Hsp| |]; intros ->;
      (split; [|apply script_suffix]); [|done]. cbn.
    rewrite insert_id; [done|]. rewrite Hsp. by destruct assignable.
Qed.

Abbreviation optional_ok := (Programs.outcome_ok box (after el assignable) (thrown el assignable)
  (exec el assignable no_exceptions h hook)).

Lemma reset_ok i cs w c : oshows cs w -> cs !! i = Some c -> optional_ok (Reset i) cs w /\ optional_ok (AssignNull i) cs w.
Proof.
  intros Hw Hi. pose proof (Programs.shows_lookup _ _ _ _ _ Hw Hi) as Ho.
  split; unfold Programs.outcome_ok; cbn [exec after]; rewrite Hi; (eapply wp_Ret; [by eapply reset_box|]);
    eexists; (split; [done|]); by apply Programs.ends_shows.
Qed.

Lemma assign_value_ok i s cs w c v :
  assignable = true -> oshows cs w -> cs !! i = Some c -> resolve s cs = Some v -> optional_ok (AssignValue i s) cs w.
Proof.
  intros Has Hw Hi Hs. pose proof (Programs.shows_lookup _ _ _ _ _ Hw Hi) as Ho.
  unfold Programs.outcome_ok. cbn [exec after]. rewrite Hi. cbn [mbind option_bind]. rewrite Hs. cbn [mbind option_bind].
  eapply wp_mono; [apply (assign_or_construct_wp i _ c w v (fun _ os => os)); [done|by apply (argument_box s cs)|congruence|done|]| |].
  - intros b x y os. apply insert_insert_eq.
  - intros ? w' He. rewrite Has. eexists. split; [done|]. by apply Programs.ends_shows.
  - intros w' He. eexists. split; [by exists c|]. by apply Programs.ends_shows.
Qed.

Lemma copy_assign_ok i j cs w c d :
  oshows cs w -> cs !! i = Some c -> cs !! j = Some d -> optional_ok (CopyAssign i j) cs w.
Proof.
  intros Hw Hi Hj. pose proof (Programs.shows_lookup _ _ _ _ _ Hw Hi) as Oi. pose proof (Programs.shows_lookup _ _ _ _ _ Hw Hj) as Oj.
  unfold Programs.outcome_ok. cbn [exec after]. rewrite Hi, Hj. cbn [mbind option_bind]. unfold Optional.copy_assign.
  destruct (Nat.eqb_spec i j) as [->|Hne].
  { exists cs. simplify_eq. by rewrite insert_id. }
  eapply wp_bind_Ret; [by apply has_value_box|]. destruct d as [v|].
  - eapply wp_bind_Ret; [by apply value_box|].
    eapply wp_mono; [apply (assign_or_construct_wp i _ c w v (fun _ os => os)); [done|by apply copy_arg_box|intros _; apply copy_arg_box|done|]| |].
    + cbn. by rewrite lookup_insert_ne.
    + intros b x y os. apply insert_insert_eq.
    + intros ? w' He. eexists. split; [done|]. by apply Programs.ends_shows.
    + intros w' He. eexists. split; [by exists c|]. by apply Programs.ends_shows.
  - eapply wp_Ret; [by eapply reset_box|]. eexists. split; [done|]. by apply Programs.ends_shows.
Qed.

Lemma move_assign_ok i j cs w c d :
  oshows cs w -> cs !! i = Some c -> cs !! j = Some d -> optional_ok (MoveAssign i j) cs w.
Proof.
  intros Hw Hi Hj. pose proof (Programs.shows_lookup _ _ _ _ _ Hw Hi) as Oi. pose proof (Programs.shows_lookup _ _ _ _ _ Hw Hj) as Oj.
  unfold Programs.outcome_ok. cbn [exec after]. rewrite Hi, Hj. cbn [mbind option_bind]. unfold Optional.move_assign.
  destruct (Nat.eqb_spec i j) as [->|Hne].
  { by exists cs. }
  eapply wp_bind_Ret; [by apply has_value_box|]. destruct d as [v|].
  - eapply wp_bind_Ret; [by apply value_box|].
    eapply wp_mono; [eapply (assign_or_construct_wp i _ c w v); [done|by apply move_arg_box|intros _; apply move_arg_box| |]| |].
    + cbn. by rewrite lookup_insert_ne.
    + intros b os. cbn. by rewrite lookup_insert_ne.
    + intros b x y os. cbn. maps i j.
    + intros ? w' He. eexists. split; [done|]. by apply Programs.ends_shows_two.
    + intros w' He. eexists. split; [by exists c, (Some v)|]. by apply Programs.ends_shows_two.
  - eapply wp_Ret; [by eapply reset_box|]. exists (<[i := None]> cs).
    split; [by rewrite (insert_id cs j)|]. by apply Programs.ends_shows.
Qed.

Lemma emplace_ok i s cs w c v :
  movable el || negb (refers i s) = true -> oshows cs w -> cs !! i = Some c -> resolve s cs = Some v ->
  optional_ok (Emplace i s) cs w.
Proof.
  intros Hm Hw Hi Hs. pose proof (Programs.shows_lookup _ _ _ _ _ Hw Hi) as Ho.
  unfold Programs.outcome_ok. cbn [exec after]. rewrite Hi. cbn [mbind option_bind]. rewrite Hs. cbn [mbind option_bind]. rewrite Hm.
  assert (forall w', ends w (<[i := box (Some v)]> (objects w)) w' ->
    wp (Optional.data i ;;; ret tt) (fun _ w' => exists cs', Some (<[i := Some v]> cs) = Some cs' /\
      oshows cs' w' /\ throws w' `suffix_of` throws w) (fun w' => exists cs', thrown el assignable (Emplace i s) cs cs' /\
      oshows cs' w' /\ throws w' `suffix_of` throws w) w') as Hfin.
  { intros w' He. eapply wp_bind_Ret; [apply data_box; rewrite (proj1 He); apply lookup_insert_eq|].
    eexists. split; [done|]. by apply Programs.ends_shows. }
  unfold Optional.emplace. eapply wp_bind_Ret; [by apply has_value_box|]. apply wp_bind.
  assert (forall w', ends w (<[i := box None]> (objects w)) w' -> (c = None \/ movable el && nothrow_move el = false) ->
    exists cs', thrown el assignable (Emplace i s) cs cs' /\ oshows cs' w' /\ throws w' `suffix_of` throws w) as Hempty.
  { intros w' He [->|Hn].
    - exists cs. split; [by left|]. pose proof (Programs.ends_shows _ cs w w' i None Hw He) as Hr. by rewrite insert_id in Hr.
    - eexists. split; [by right|]. by apply Programs.ends_shows. }
  destruct (movable el && match c with Some _ => true | None => false end) eqn:Eb.
  - destruct c as [o|]; [|by rewrite andb_false_r in Eb]. rewrite andb_true_r in Eb.
    pose proof (argument_box s cs w v Hw Hs) as Ha. apply wp_bind. eapply wp_mono; [by eapply wp_make| |].
    + cbn beta. intros ? w1 (-> & Ho1 & Ht1). eapply wp_bind_Ret; [eapply reset_box; by rewrite Ho1|].
      eapply wp_if_next; [eapply construct_box; [apply move_local_box|]; intros b; apply lookup_insert_eq| |]; intros En.
      * apply Hempty; [split; cbn; [by rewrite Ho1|by etransitivity; [apply script_suffix|]]|right].
        destruct (nothrow_move el) eqn:Enm; [|apply andb_false_r]. cbn in En. rewrite Enm in En. unfold next_throw in En.
        by rewrite orb_true_r in En.
      * apply Hfin. split; cbn; [by rewrite Ho1, insert_insert_eq|]. by etransitivity; [apply script_suffix|].
    + cbn beta. intros w1 [Ho1 Ht1]. exists cs. split; [by left|]. split; [|done]. unfold Programs.shows. by rewrite Ho1.
  - assert (arg_at (argument s) (upd i (box None) w) v (fun _ os => os)) as Ha.
    { destruct (refers i s) eqn:Er; [|by apply (argument_elsewhere s cs)]. rewrite orb_false_r in Hm. rewrite Hm in Eb.
      destruct c as [o|]; [done|]. destruct s as [?|j f]; [done|]. apply Nat.eqb_eq in Er. subst j. cbn in Hs. by rewrite Hi in Hs. }
    eapply wp_bind_Ret; [by eapply reset_box|].
    eapply wp_if_next; [eapply construct_box; [exact Ha|]; intros b; apply lookup_insert_eq| |]; intros En.
    + apply Hempty; [split; [done|apply script_suffix]|]. destruct c; [right|by left]. by rewrite andb_true_r in Eb; rewrite Eb.
    + apply Hfin. split; cbn; [by rewrite insert_insert_eq|apply script_suffix].
Qed.

(** Both objects stay engaged. *)
Definition engaged_pair (i j : nat) w w' : Prop :=
  exists a b, ends w (<[i := box (Some a)]> (<[j := box (Some b)]> (objects w))) w'.

Lemma std_swap_box i j w a b :
  objects w !! i = Some (box (Some a)) -> objects w !! j = Some (box (Some b)) ->
  wp (Optional.std_swap el no_exceptions i j)
     (fun _ => ends w (<[i := box (Some b)]> (<[j := box (Some a)]> (objects w)))) (engaged_pair i j w) w.
Proof.
  intros Hi Hj. unfold Optional.std_swap. apply wp_bind. eapply wp_mono; [eapply wp_make; by apply move_arg_box| |]; cbn beta iota.
  2: { intros w1 [Ho1 Ht1]. exists (torn el a), b. split; [|done]. rewrite Ho1. maps i j. }
  intros ? w1 (-> & Ho1 & Ht1).
  assert (exists b', objects w1 !! j = Some (box (Some b')) /\ (i <> j -> b' = b)) as (b' & Hj1 & Hb').
  { rewrite Ho1. destruct (decide (i = j)) as [->|]; [by eexists; rewrite lookup_insert_eq|]. exists b.
    by rewrite lookup_insert_ne. }
  apply wp_bind. eapply wp_if_next; [eapply (assign_at_box i _ w1 (moved el a)); [by apply move_arg_box|by rewrite Ho1; apply lookup_insert_eq|]| |];
    cbn beta.
  { intros b0. destruct (decide (i = j)) as [->|]; eexists; [apply lookup_insert_eq|].
    rewrite lookup_insert_ne, Ho1 by done. apply lookup_insert_eq. }
  { intros ->. exists (torn el (moved el a)), (torn el b'). split; cbn; [rewrite Ho1; maps i j|].
    by etransitivity; [apply script_suffix|]. }
  intros ->. match goal with |- wp _ _ _ ?u => set (w2 := u) end.
  assert (exists b2, objects w2 !! j = Some (box (Some b2))) as (b2 & Hj2).
  { unfold w2. cbn. destruct (decide (i = j)) as [->|]; [by eexists; rewrite lookup_insert_eq|].
    rewrite lookup_insert_ne, lookup_insert_eq by done. by eexists. }
  assert (throws w2 `suffix_of` throws w) as Ht2 by (by etransitivity; [apply script_suffix|]).
  eapply wp_if_next; [eapply (assign_at_box j _ w2 b2); [apply local_arg_at|done|by eexists]| |]; intros En; rewrite ?En.
  - destruct (decide (i = j)) as [->|Hij]; [exists (torn el b2), b|exists b', (torn el b2)];
      (split; [cbn; rewrite Ho1|by etransitivity; [apply script_suffix|]]); [by rewrite !insert_insert_eq|maps i j].
  - split; [|by etransitivity; [apply script_suffix|]]. unfold w2. cbn. rewrite Ho1.
    destruct (decide (i = j)) as [->|Hij]; [|rewrite (Hb' Hij); maps i j].
    rewrite Hi in Hj. injection Hj as ->. by rewrite !insert_insert_eq.
Qed.

(** The value of [i] goes to [j], which has none. *)
Lemma hand_to_box i j w a :
  i <> j -> objects w !! i = Some (box (Some a)) -> objects w !! j = Some (box None) ->
  wp (let! _ := Optional.data i in Optional.construct no_exceptions j (Optional.move_arg el i) ;;; Optional.reset hook i)
     (fun _ => ends w (<[i := box None]> (<[j := box (Some a)]> (objects w))))
     (ends w (<[i := box (Some (torn el a))]> (<[j := box None]> (objects w)))) w.
Proof.
  intros Hne Hi Hj. eapply wp_bind_Ret; [by apply data_box|]. apply wp_bind.
  eapply wp_if_next; [eapply construct_box; [by apply move_arg_box|]; intros b; cbn; by rewrite lookup_insert_ne| |]; intros ->.
  - split; cbn; [maps i j|apply script_suffix].
  - eapply wp_Ret; [eapply (reset_box i (Some (moved el a))); cbn; rewrite lookup_insert_ne by done; apply lookup_insert_eq|].
    split; cbn; [maps i j|apply script_suffix].
Qed.

Lemma optional_swap_ok i j cs w c d :
  assignable = true -> oshows cs w -> cs !! i = Some c -> cs !! j = Some d -> optional_ok (Swap i j) cs w.
Proof.
  intros Has Hw Hi Hj. pose proof (Programs.shows_lookup _ _ _ _ _ Hw Hi) as Oi. pose proof (Programs.shows_lookup _ _ _ _ _ Hw Hj) as Oj.
  unfold Programs.outcome_ok. cbn [exec after]. rewrite Hi, Hj. cbn [mbind option_bind]. rewrite Has. unfold Optional.swap.
  assert (forall c' d' w', (is_Some c' <-> is_Some c) -> (is_Some d' <-> is_Some d) ->
    ends w (<[i := box c']> (<[j := box d']> (objects w))) w' ->
    exists cs', thrown el true (Swap i j) cs cs' /\ oshows cs' w' /\ throws w' `suffix_of` throws w) as Hthrown.
  { intros c' d' w' Hc Hd He. eexists. split; [exists c, d, c', d'; by split_and!|]. by apply Programs.ends_shows_two. }
  assert (forall w', ends w (<[i := box d]> (<[j := box c]> (objects w))) w' ->
    exists cs', Some (<[i := d]> (<[j := c]> cs)) = Some cs' /\ oshows cs' w' /\ throws w' `suffix_of` throws w) as Hret.
  { intros w' He. eexists. split; [done|]. by apply Programs.ends_shows_two. }
  assert (forall a b : T, is_Some (Some a) <-> is_Some (Some b)) as Hsome by (intros a b; split; by eexists).
  eapply wp_bind_Ret; [by apply has_value_box|]. eapply wp_bind_Ret; [by apply has_value_box|].
  destruct c as [a|], d as [b|]; cbn [andb negb].
  - eapply wp_mono; [by apply std_swap_box|by intros ? w'; apply Hret|]. intros w' (a' & b' & He).
    by apply (Hthrown (Some a') (Some b')).
  - eapply wp_mono; [by apply hand_to_box; [congruence|..]|by intros ? w'; apply Hret|]. intros w' He.
    by apply (Hthrown (Some (torn el a)) None).
  - eapply wp_mono; [by apply hand_to_box; [congruence|..]| |].
    + intros ? w' He. apply Hret. by rewrite insert_insert_ne by congruence.
    + intros w' He. apply (Hthrown None (Some (torn el b))); [done|done|]. by rewrite insert_insert_ne by congruence.
  - apply Hret. split; [|done]. rewrite (insert_id (objects w) j) by done. by rewrite insert_id.
Qed.

Lemma optional_exec_ok o cs w : oshows cs w -> after el assignable o cs <> None -> optional_ok o cs w.
Proof.
  intros Hw Hv. destruct o as [i s|i s|i|i|i j|i j|i j]; cbn [after] in Hv;
    (destruct (cs !! i) as [c|] eqn:Hi; [|done]); cbn in Hv.
  - destruct (resolve s cs) as [v|] eqn:Hs; [|done]. cbn in Hv. destruct (movable el || negb (refers i s)) eqn:Hm; [|done].
    by eapply emplace_ok.
  - destruct (resolve s cs) as [v|] eqn:Hs; [|done]. cbn in Hv. destruct assignable eqn:Ha; [|done]. rewrite <- Ha. by eapply assign_value_ok.
  - by eapply reset_ok.
  - by eapply reset_ok.
  - destruct (cs !! j) as [d|] eqn:Hj; [|done]. by eapply copy_assign_ok.
  - destruct (cs !! j) as [d|] eqn:Hj; [|done]. by eapply move_assign_ok.
  - destruct (cs !! j) as [d|] eqn:Hj; [|done]. cbn in Hv. destruct assignable eqn:Ha; [|done]. rewrite <- Ha. by eapply optional_swap_ok.
Qed.
End optional_facts.

(** ** Destructors that reach back *)

Section optional_hooks.
  Import OptionalSpec OptionalRun.
  Context {T : Type} (el : element T) (assignable no_exceptions : bool) (h : hardening).
  Implicit Types (w : store (optional T)).

(** The object is marked empty. *)
Definition disengaged i w : Prop := exists u, objects w !! i = Some (mk_optional u false).

(** Two destructors that cannot be told apart on an object that is marked empty. *)
Definition same_when_empty (h1 h2 : nat -> M (store (optional T)) unit) : Prop :=
  forall i w, disengaged i w -> h1 i w = h2 i w.

Context (h1 h2 : nat -> M (store (optional T)) unit) (Hh : same_when_empty h1 h2).

Lemma data_state i w v w' : Optional.data i w = Ret v w' -> w' = w.
Proof.
  unfold Optional.data, World.object, bind, ret. destruct (objects w !! i) as [x|]; [|done].
  destruct (union_ x); [|done]. by intros [= _ <-].
Qed.

Lemma reset_same i w : Optional.reset h1 i w = Optional.reset h2 i w.
Proof.
  unfold Optional.reset. apply bind_ext. intros b w1 _. destruct (negb b); [done|]. apply bind_ext. intros u w2 E2.
  assert (disengaged i w2) as Hd.
  { unfold Optional.set_has_value, World.object, World.set_object, bind, modify in E2. destruct (objects w1 !! i) as [x|]; [|done].
    injection E2 as _ <-. eexists. cbn. apply lookup_insert_eq. }
  apply bind_ext. intros v w3 E3. rewrite (data_state _ _ _ _ E3). apply bind_alike. by apply Hh.
Qed.

Lemma assign_or_construct_same i a w :
  Optional.assign_or_construct el assignable no_exceptions h1 i a w =
  Optional.assign_or_construct el assignable no_exceptions h2 i a w.
Proof.
  unfold Optional.assign_or_construct. apply bind_ext. intros [] w1 _; [|done]. destruct assignable; [done|].
  apply bind_alike, reset_same.
Qed.

Lemma optional_exec_same o w :
  exec el assignable no_exceptions h h1 o w = exec el assignable no_exceptions h h2 o w.
Proof.
  destruct o as [i s|i s|i|i|i j|i j|i j]; cbn [exec].
  - apply bind_ext. intros b w1 _. apply bind_alike. destruct (movable el && b).
    + apply bind_ext. intros v w2 _. apply bind_alike, reset_same.
    + apply bind_alike, reset_same.
  - apply assign_or_construct_same.
  - apply reset_same.
  - apply reset_same.
  - unfold Optional.copy_assign. destruct (Nat.eqb i j); [done|]. apply bind_ext. intros [] w1 _; [|apply reset_same].
    apply bind_ext. intros v w2 _. apply assign_or_construct_same.
  - unfold Optional.move_assign. destruct (Nat.eqb i j); [done|]. apply bind_ext. intros [] w1 _; [|apply reset_same].
    apply bind_ext. intros v w2 _. apply assign_or_construct_same.
  - apply bind_ext. intros [] w1 _; apply bind_ext; intros [] w2 _; cbn [andb negb]; try done;
      (apply bind_ext; intros v w3 _; apply bind_ext; intros u w4 _; apply reset_same).
Qed.
End optional_hooks.

(** What a destructor does to the object [i] whose value it ends: it asks whether
    there is a value, empties the object, destroys it, or asks for the value or a
    default. *)
Inductive glance : Set := AskValue | EmptyIt | NullIt | DestroyIt | AskDefault.

Section optional_reentry.
  Context {T : Type} (el : element T) (no_exceptions : bool) (default : T).
  Abbreviation quiet_destructor := (fun _ : nat => ret tt : M (store (optional T)) unit).

Definition glances (g : glance) (k : nat) : M (store (optional T)) unit :=
  match g with
  | AskValue => let! b := Optional.has_value k in if b then fault else ret tt
  | EmptyIt => Optional.reset quiet_destructor k
  | NullIt => Optional.assign_nullopt quiet_destructor k
  | DestroyIt => Optional.destroy quiet_destructor k
  | AskDefault =>
      let! v := Optional.value_or el true false k (mk_arg (fun _ => Some default) true (fun _ => ret tt)) in ret tt
  end.

Lemma glances_quiet g : same_when_empty (glances g) quiet_destructor.
Proof.
  intros k w (u & Hk). assert (Optional.has_value k w = Ret false w) as Eh
    by (unfold Optional.has_value, World.object, bind; by rewrite Hk).
  destruct g; cbn [glances]; unfold Optional.assign_nullopt, Optional.destroy, Optional.reset, Optional.value_or;
    rewrite ?bind_assoc; rewrite (bind_Ret _ _ _ _ _ Eh); try done.
Qed.
End optional_reentry.

(** ** Theorems *)

Import OptionalSpec OptionalRun.

(** C25. [optional] is a value or none, exceptions or not.  Whatever the operations, and
    whichever of the operations on elements throw, each ends with the contents that
    the abstract objects have after it, or throws and leaves its objects engaged with
    a live value or empty; arguments may refer into the object that changes, if its
    type can be moved; [emplace] that throws keeps the old value when the type's move
    cannot throw; nothing is destroyed twice, built over another or read when it is
    not there; and in the end every object can be destroyed. *)
Theorem optional_refines {T : Type} (el : element T) (assignable no_exceptions : bool) (h : hardening)
    (hook : nat -> M (store (optional T)) unit) (ops : list (op T)) (cs : gmap nat (option T)) (t : list bool) :
  (forall i w, hook i w = Ret tt w) ->
  exists rs cs' w',
    run el assignable no_exceptions h hook ops (mk_world (box <$> cs) t) = Ret rs w' /\
    steps el assignable ops cs rs cs' /\ objects w' = box <$> cs' /\
    forall i c, cs' !! i = Some c -> Optional.destroy hook i w' = Ret tt (upd i (box None) w').
Proof.
  intros Hq.
  destruct (Programs.run_steps box unbox (after el assignable) (thrown el assignable) (exec el assignable no_exceptions h hook)
    unbox_optional (fun _ => True) (fun _ _ _ _ => I)
    (fun o cs w _ => optional_exec_ok el assignable no_exceptions h hook Hq o cs w) ops cs (mk_world (box <$> cs) t) I eq_refl)
    as (rs & cs' & w' & Er & Hs & Hw). exists rs, cs', w'. split; [done|]. split; [done|]. split; [done|].
  intros i c Hi. apply (reset_box hook Hq i c). by apply (Programs.shows_lookup _ cs').
Qed.

Lemma optional_refines_witness :
  let el := mk_element true false (fun _ => 0) (fun _ => 99) in
  let ops := [Emplace 0 (OfValue 0 S); Swap 0 1; MoveAssign 0 1; Emplace 1 (OfValue 0 S)] in
  let cs := {[0 := Some 5; 1 := None]} : gmap nat (option nat) in
  exists rs cs' w',
    run el true false HARDENING_FAST (fun _ => ret tt) ops (mk_world (box <$> cs) [false; true; false; true; false]) = Ret rs w' /\
    steps el true ops cs rs cs' /\ objects w' = box <$> cs'.
Proof.
  intros el ops cs.
  destruct (optional_refines el true false HARDENING_FAST (fun _ => ret tt) ops cs [false; true; false; true; false] (fun _ _ => eq_refl))
    as (rs & cs' & w' & H1 & H2 & H3 & _). by exists rs, cs', w'.
Defined.

(** A destructor may reach back into its [optional].  The object is empty before the
    destructor of its value runs: one that asks for the value, empties the object or
    destroys it behaves, in any operation from any state, as one that does nothing.
    One that builds a value there does so over the value being destroyed. *)
Theorem optional_reentrancy {T : Type} (el : element T) (assignable no_exceptions : bool) (h : hardening)
    (g : glance) (default : T) (o : op T) (w : store (optional T)) (i : nat) :
  exec el assignable no_exceptions h (glances el default g) o w = exec el assignable no_exceptions h (fun _ => ret tt) o w /\
  Optional.destroy (glances el default g) i w = Optional.destroy (fun _ => ret tt) i w /\
  forall v v', objects w !! i = Some (box (Some v)) -> throws w = [] ->
    Optional.reset (fun k => Optional.emplace el no_exceptions (fun _ => ret tt) k (World.local_arg v')) i w = Fault.
Proof.
  pose proof (glances_quiet el default g) as Hg. split; [by apply optional_exec_same|]. split; [by apply reset_same|].
  intros v v' Hi Ht. unfold Optional.reset. rewrite (bind_Ret _ _ _ _ _ (has_value_box _ _ _ Hi)). cbn [negb].
  unfold Optional.set_has_value, Optional.destroy_at, Optional.data, World.object, World.set_object, bind, modify, ret. rewrite Hi. cbn.
  rewrite lookup_insert_eq. cbn. unfold Optional.emplace, Optional.has_value, World.object, bind. cbn. rewrite lookup_insert_eq. cbn.
  rewrite andb_false_r. unfold Optional.reset, Optional.has_value, World.object, bind. cbn. rewrite lookup_insert_eq. cbn.
  unfold Optional.construct, bind.
  match goal with |- context [World.make no_exceptions _ ?u] => rewrite (make_exact no_exceptions _ u v' _ (local_arg_at u v') Ht) end.
  unfold Optional.construct_at, World.object, bind. cbn.
  by rewrite lookup_insert_eq.
Qed.

(** Constructing an [optional] from another: the new object holds what the other
    did.  When the element's copy or move throws, nothing was built and nothing is
    destroyed; a move leaves the other one engaged. *)
Theorem optional_construct_exact {T : Type} (el : element T) (no_exceptions : bool) (h : hardening)
    (w : store (optional T)) (i j : nat) (d : option T) :
  i <> j -> objects w !! j = Some (box d) ->
  let made b os t : outcome (store (optional T)) unit :=
    if b : bool then Throw (mk_world (<[i := box None]> os) t) else Ret tt (mk_world (<[i := box d]> os) t) in
  let throws_if n := if d is Some _ then next_throw no_exceptions n (throws w) else false in
  let script n := if d is Some _ then script_after no_exceptions n (throws w) else throws w in
  Optional.copy_construct no_exceptions h i j w = made (throws_if false) (objects w) (script false) /\
  Optional.move_construct el no_exceptions h i j w =
    made (throws_if (nothrow_move el))
      (<[j := box ((if throws_if (nothrow_move el) then torn el else moved el) <$> d)]> (objects w)) (script (nothrow_move el)).
Proof.
  intros Hne Hj made throws_if script. set (w0 := upd i (box None) w).
  assert (objects w0 !! j = Some (box d)) as Hj0 by (cbn; by rewrite lookup_insert_ne).
  unfold Optional.copy_construct, Optional.move_construct, Optional.construct_empty, made, throws_if, script.
  change (World.set_object i (mk_optional None false)) with (modify (S := store (optional T)) (upd i (box None))).
  split; mstep; fold w0; rewrite (bind_Ret _ _ _ _ _ (has_value_box _ _ _ Hj0)); destruct d as [v|];
    try rewrite (bind_Ret _ _ _ _ _ (value_box h _ _ _ Hj0)).
  - rewrite (construct_box no_exceptions i _ w0 v _ (copy_arg_box j v w0 Hj0)) by (intros b; apply lookup_insert_eq).
    cbn. destruct (next_throw _ _ _); [done|]. by rewrite insert_insert_eq.
  - done.
  - rewrite (construct_box no_exceptions i _ w0 v _ (move_arg_box el j v w0 Hj0))
      by (intros b; cbn; rewrite lookup_insert_ne by done; apply lookup_insert_eq).
    cbn. destruct (next_throw _ _ _); do 2 f_equal; maps i j.
  - cbn. unfold w0, ret, upd. by rewrite (insert_id (objects w) j).
Qed.

Lemma optional_construct_exact_witness :
  let el := mk_element true false (fun _ => 0) (fun _ => 99) in
  let w := mk_world {[0 := box (Some 5)]} [true] : store (optional nat) in
  1 <> 0 /\ Optional.copy_construct false HARDENING_FAST 1 0 w = Throw (mk_world (<[1 := box None]> (objects w)) []).
Proof.
  intros el w. assert (1 <> 0) as Hne by done. split; [exact Hne|].
  exact (proj1 (optional_construct_exact el false HARDENING_FAST w 1 0 (Some 5) Hne eq_refl)).
Defined.

Lemma optional_reentrancy_witness :
  let el := mk_element true true (fun _ => 0) (fun _ => 99) in
  let w := mk_world {[0 := box (Some 5)]} [] : store (optional nat) in
  objects w !! 0 = Some (box (Some 5)) /\
  Optional.reset (fun k => Optional.emplace el false (fun _ => ret tt) k (World.local_arg 7)) 0 w = Fault.
Proof.
  intros el w. split; [reflexivity|].
  destruct (optional_reentrancy el true false HARDENING_FAST EmptyIt 3 (Reset 0) w 0) as (_ & _ & H). exact (H 5 7 eq_refl eq_refl).
Defined.

(** The observers and the monadic operations of [optional] are those of [option], at
    every hardening level: access to a value that is not there stops the program when
    checks are on; [and_then] and [transform] call their callable on a value only and
    [or_else] only without one; a value is copied out of an lvalue, which stays as it
    is, and moved out of an rvalue, which stays engaged. *)
Theorem optional_observers {T U : Type} (el : element T) (no_exceptions : bool) (h : hardening) (rvalue : bool)
    (os : gmap nat (optional T)) (i : nat) (c : option T) (v0 : T)
    (f : nat -> M (store (optional T)) (optional U)) (g : nat -> M (store (optional T)) U) (f' : M (store (optional T)) (optional T)) :
  os !! i = Some (box c) ->
  let w := mk_world os [] in
  let w' := mk_world (if rvalue then <[i := box (moved el <$> c)]> os else os) [] in
  Optional.value h i w = match c with Some v => Ret v w | None => if decide (h = HARDENING_NONE) then Fault else Trap end /\
  Optional.value_or el no_exceptions rvalue i (World.local_arg v0) w = match c with Some v => Ret v w' | None => Ret v0 w end /\
  Optional.and_then h i f w = match c with Some _ => f i w | None => Ret (box None) w end /\
  Optional.transform h i g w = match c with Some _ => (let! u := g i in ret (box (Some u))) w | None => Ret (box None) w end /\
  Optional.or_else el no_exceptions h rvalue i f' w = match c with Some v => Ret (box (Some v)) w' | None => f' w end.
Proof.
  intros Hi w w'. assert (objects w !! i = Some (box c)) as Ho by done.
  unfold Optional.value_or, Optional.and_then, Optional.transform, Optional.or_else.
  rewrite !(bind_Ret _ _ _ _ _ (has_value_box _ _ _ Ho)). destruct c as [v|].
  - assert (World.make no_exceptions (Optional.value_arg el rvalue i) w = Ret v w') as Em.
    { destruct rvalue; cbn [Optional.value_arg].
      - by rewrite (make_exact no_exceptions _ w v _ (move_arg_box el i v w Ho) eq_refl).
      - by rewrite (make_exact no_exceptions _ w v _ (copy_arg_box i v w Ho) eq_refl). }
    rewrite !(bind_Ret _ _ _ _ _ (value_box h _ _ _ Ho)), (value_box h _ _ _ Ho), Em. by rewrite (bind_Ret _ _ _ _ _ Em).
  - rewrite (make_exact no_exceptions _ w v0 _ (local_arg_at w v0) eq_refl). split; [|done].
    unfold Optional.value. rewrite (bind_Ret _ _ _ _ _ (has_value_box _ _ _ Ho)).
    destruct (decide (h = HARDENING_NONE)) as [->|Hh]; [|by rewrite (bind_Trap _ _ _ (metl_assert_false h w Hh))].
    mstep. unfold Optional.data, World.object, bind. by rewrite Ho.
Qed.

Lemma optional_observers_witness :
  let el := mk_element true true (fun _ => 0) (fun _ => 99) in
  let os := {[0 := box (Some 5)]} : gmap nat (optional nat) in
  Optional.or_else el false HARDENING_FAST true 0 (ret (box None)) (mk_world os []) =
    Ret (box (Some 5)) (mk_world (<[0 := box (Some 0)]> os) []).
Proof.
  intros el os.
  destruct (optional_observers (U := nat) el false HARDENING_FAST true os 0 (Some 5) 3
    (fun _ => ret (box None)) (fun _ => ret 1) (ret (box None)) eq_refl) as (_ & _ & _ & _ & H). exact H.
Defined.

(** The comparison of [option]s in which nothing is before everything. *)
Definition compare_options {T U} (cmp : T -> U -> comparison) (c : option T) (d : option U) : comparison :=
  match c, d with
  | None, None => Eq
  | None, Some _ => Lt
  | Some _, None => Gt
  | Some a, Some b => cmp a b
  end.

Definition is_eq (r : comparison) : bool := match r with Eq => true | _ => false end.
Definition is_lt (r : comparison) : bool := match r with Lt => true | _ => false end.
Definition is_gt (r : comparison) : bool := match r with Gt => true | _ => false end.

(** The six operators of the values are those of [cmp]. *)
Record agree {T U} (cmp : T -> U -> comparison) (eq ne lt le gt ge : T -> U -> bool) : Prop := {
  agree_eq : forall a b, eq a b = is_eq (cmp a b);
  agree_ne : forall a b, ne a b = negb (is_eq (cmp a b));
  agree_lt : forall a b, lt a b = is_lt (cmp a b);
  agree_le : forall a b, le a b = negb (is_gt (cmp a b));
  agree_gt : forall a b, gt a b = is_gt (cmp a b);
  agree_ge : forall a b, ge a b = negb (is_lt (cmp a b))
}.

(** The comparisons of [optional]s are those of one order.  When the operators of the
    values are those of a three-way comparison, all six operators on two [optional]s,
    on an [optional] and a value, and on an [optional] and [nullopt] are the ones of the
    order that puts an empty object before every value, [<=>] is that order, and equal
    objects have equal hashes. *)
Theorem optional_comparison {S T U : Type} (h : hardening) (cmp : T -> U -> comparison) (eq ne lt le gt ge : T -> U -> bool)
    (hash_T : T -> Z) (hash_U : U -> Z) (c : option T) (d : option U) (a : T) (b : U) (s : S) :
  agree cmp eq ne lt le gt ge -> (forall x y, cmp x y = Eq -> hash_T x = hash_U y) ->
  let r := compare_options cmp c d in
  let against_value := compare_options cmp c (Some b) in
  let value_against := compare_options cmp (Some a) d in
  (Optional.equal h eq (box c) (box d) s = Ret (is_eq r) s /\ Optional.not_equal h ne (box c) (box d) s = Ret (negb (is_eq r)) s /\
   Optional.less_than h lt (box c) (box d) s = Ret (is_lt r) s /\ Optional.less_equal h le (box c) (box d) s = Ret (negb (is_gt r)) s /\
   Optional.greater h gt (box c) (box d) s = Ret (is_gt r) s /\ Optional.greater_equal h ge (box c) (box d) s = Ret (negb (is_lt r)) s /\
   Optional.three_way h cmp (box c) (box d) s = Ret r s) /\
  (Optional.eq_value h eq (box c) b s = Ret (is_eq against_value) s /\ Optional.ne_value h ne (box c) b s = Ret (negb (is_eq against_value)) s /\
   Optional.lt_value h lt (box c) b s = Ret (is_lt against_value) s /\ Optional.le_value h le (box c) b s = Ret (negb (is_gt against_value)) s /\
   Optional.gt_value h gt (box c) b s = Ret (is_gt against_value) s /\ Optional.ge_value h ge (box c) b s = Ret (negb (is_lt against_value)) s) /\
  (Optional.value_eq h eq a (box d) s = Ret (is_eq value_against) s /\ Optional.value_ne h ne a (box d) s = Ret (negb (is_eq value_against)) s /\
   Optional.value_lt h lt a (box d) s = Ret (is_lt value_against) s /\ Optional.value_le h le a (box d) s = Ret (negb (is_gt value_against)) s /\
   Optional.value_gt h gt a (box d) s = Ret (is_gt value_against) s /\ Optional.value_ge h ge a (box d) s = Ret (negb (is_lt value_against)) s) /\
  (let n := compare_options cmp c None in let n' := compare_options cmp None d in
   Optional.null_three_way (box c) = n /\ Optional.eq_null (box c) = is_eq n /\ Optional.ne_null (box c) = negb (is_eq n) /\
   Optional.lt_null (box c) = is_lt n /\ Optional.null_lt (box d) = is_lt n' /\ Optional.le_null (box c) = negb (is_gt n) /\
   Optional.null_le (box d) = negb (is_gt n') /\ Optional.gt_null (box c) = is_gt n /\ Optional.null_gt (box d) = is_gt n' /\
   Optional.ge_null (box c) = negb (is_lt n) /\ Optional.null_ge (box d) = negb (is_lt n')) /\
  (r = Eq -> exists k, Optional.hash h hash_T (box c) s = Ret k s /\ Optional.hash h hash_U (box d) s = Ret k s).
Proof.
  intros [He Hn Hlt Hle Hgt Hge] Hhash. cbv zeta.
  assert (forall A (v : A), Optional.deref h (box (Some v)) s = Ret v s) as Hd.
  { intros A v. unfold Optional.deref. cbn. by mstep. }
  split; [|split; [|split; [|split]]].
  1-3: unfold Optional.equal, Optional.not_equal, Optional.less_than, Optional.less_equal, Optional.greater, Optional.greater_equal,
      Optional.three_way, Optional.eq_value, Optional.ne_value, Optional.lt_value, Optional.le_value, Optional.gt_value,
      Optional.ge_value, Optional.value_eq, Optional.value_ne, Optional.value_lt, Optional.value_le, Optional.value_gt,
      Optional.value_ge, Optional.with_value, Optional.value_with, Optional.both;
    destruct c as [x|], d as [y|]; cbn; rewrite ?(bind_Ret _ _ _ _ _ (Hd _ _)), ?He, ?Hn, ?Hlt, ?Hle, ?Hgt, ?Hge;
    split_and?; try reflexivity; by rewrite !(bind_Ret _ _ _ _ _ (Hd _ _)), ?He, ?Hn, ?Hlt, ?Hle, ?Hgt, ?Hge.
  - destruct c, d; by split_and!.
  - intros Hr. unfold Optional.hash. destruct c as [x|], d as [y|]; try done; [|by exists 0%Z].
    exists (hash_T x). cbn. by rewrite !(bind_Ret _ _ _ _ _ (Hd _ _)), (Hhash x y Hr).
Qed.

Lemma optional_comparison_witness :
  Optional.less_than HARDENING_FAST Z.ltb (box None) (box (Some 3%Z)) tt = Ret true tt.
Proof.
  assert (agree Z.compare Z.eqb (fun a b => negb (Z.eqb a b)) Z.ltb Z.leb Z.gtb Z.geb) as Ha.
  { split; intros a b; unfold Z.eqb, Z.ltb, Z.leb, Z.gtb, Z.geb, is_eq, is_lt, is_gt.
    - destruct (Z.compare_spec a b); [by subst; destruct b; cbn; rewrite ?Pos.eqb_refl|..]; apply Z.eqb_neq; lia.
    - f_equal. destruct (Z.compare_spec a b); [by subst; destruct b; cbn; rewrite ?Pos.eqb_refl|..]; apply Z.eqb_neq; lia.
    - reflexivity.
    - by destruct (a ?= b)%Z.
    - reflexivity.
    - by destruct (a ?= b)%Z. }
  assert (forall x y, (x ?= y)%Z = Eq -> x = y) as Hh by (intros x y; apply Z.compare_eq).
  exact (proj1 (proj2 (proj2 (proj1 (optional_comparison HARDENING_FAST Z.compare _ _ _ _ _ _ (fun x => x) (fun x => x) None (Some 3%Z) 0%Z 0%Z tt Ha Hh))))).
Defined.
