(* ===== verification/Expected.v ===== *)
(** * [expected]

    [include/metl/expected.hpp]: a value or an error in one piece of storage.

    The objects and the operations on elements are those of [World.v].  Destroying a
    member that is not alive, building one over another, and reading one that is not
    there are [Fault]s.  [on_destroy i] is what the destructor of a member of object
    [i] does besides; a destructor of a local does nothing. *)

From Stdlib Require Import ZArith Lia.
From stdpp Require Import base numbers list option gmap tactics.
From S2P Require Import Prelude World.

Inductive expected_state : Set := St_error | St_value | St_switching.

#[export] Instance expected_state_eq_dec : EqDecision expected_state.
Proof. solve_decision. Defined.

Inductive cell (T E : Type) : Type := Raw | Value (v : T) | Error (e : E).
Arguments Raw {T E}.
Arguments Value {T E} v.
Arguments Error {T E} e.

Record expected (T E : Type) : Type := mk_expected { storage_ : cell T E; state_ : expected_state }.
Arguments mk_expected {T E} _ _.
Arguments storage_ {T E} _.
Arguments state_ {T E} _.

Abbreviation world T E := (store (expected T E)).

Module Expected.
Section expected.
  Context {T E : Type} (elT : element T) (elE : element E) (no_exceptions : bool).
  Context (on_destroy : nat -> M (world T E) unit).
  Abbreviation W := (world T E).

  Abbreviation object := (World.object (O := expected T E)).
  Abbreviation set_object := (World.set_object (O := expected T E)).
  Abbreviation may_throw := (World.may_throw (O := expected T E) no_exceptions).
  Abbreviation make := (World.make (O := expected T E) no_exceptions).
  Abbreviation move_local := (World.move_local (O := expected T E) no_exceptions).

(** *** Objects and their members *)

Definition state (i : nat) : M W expected_state := let! x := object i in ret (state_ x).
Definition set_state (i : nat) (st : expected_state) : M W unit :=
  let! x := object i in set_object i (mk_expected (storage_ x) st).

Definition holds_value (i : nat) : M W bool := let! st := state i in ret (bool_decide (st = St_value)).
Definition holds_error (i : nat) : M W bool := let! st := state i in ret (bool_decide (st = St_error)).
Definition settled (i : nat) : M W bool := let! st := state i in ret (negb (bool_decide (st = St_switching))).
Definition require_settled (i : nat) : M W unit := let! b := settled i in metl_harden b.

(** One of the two members: how it lies in the union, the discriminant that names
    it, and its type. *)
Record slot (A : Type) : Type := mk_slot {
  wrap_member : A -> cell T E;
  unwrap_member : cell T E -> option A;
  name_member : expected_state;
  element_of : element A
}.
Arguments mk_slot {A} _ _ _ _.
Arguments wrap_member {A} _ _.
Arguments unwrap_member {A} _ _.
Arguments name_member {A} _.
Arguments element_of {A} _.

Definition value_slot : slot T :=
  mk_slot Value (fun c => match c with Value v => Some v | _ => None end) St_value elT.
Definition error_slot : slot E :=
  mk_slot Error (fun c => match c with Error e => Some e | _ => None end) St_error elE.

Section member.
  Context {A : Type} (m : slot A).

(** [*value_ptr()], [*error_ptr()]. *)
Definition member_ref (i : nat) : M W A :=
  let! x := object i in match unwrap_member m (storage_ x) with Some a => ret a | None => fault end.
Definition put_member (i : nat) (a : A) : M W unit :=
  let! x := object i in
  match unwrap_member m (storage_ x) with
  | Some _ => set_object i (mk_expected (wrap_member m a) (state_ x))
  | None => fault
  end.
Definition construct_member (i : nat) (a : A) : M W unit :=
  let! x := object i in
  match storage_ x with Raw => set_object i (mk_expected (wrap_member m a) (state_ x)) | _ => fault end.
(** [value_ptr()->~T()], [error_ptr()->~E()]. *)
Definition destroy_member (i : nat) : M W unit :=
  let! _ := member_ref i in
  on_destroy i ;;;
  let! _ := member_ref i in
  let! x := object i in
  set_object i (mk_expected Raw (state_ x)).
End member.

Definition construct_value : nat -> T -> M W unit := construct_member value_slot.
Definition construct_error : nat -> E -> M W unit := construct_member error_slot.

(** *** Operations on elements *)

(** [A x(static_cast<A&&>( *ptr))] for a member. *)
Definition move_member {A} (m : slot A) (i : nat) : M W A :=
  let! v := member_ref m i in
  let! b := may_throw (nothrow_move (element_of m)) in
  put_member m i (if b then torn (element_of m) v else moved (element_of m) v) ;;;
  if b then throw else ret v.

(** [*ptr = std::forward<U>(value)] for a member. *)
Definition assign_member {A} (m : slot A) (i : nat) (a : arg W A) : M W unit :=
  let! x := get (look a) in
  match x with
  | None => fault
  | Some v =>
      let! old := member_ref m i in
      let! b := may_throw false in
      spend a b ;;;
      put_member m i (if b then torn (element_of m) old else v) ;;;
      if b then throw else ret tt
  end.

(** The member of an object given as an argument, to copy or to move from. *)
Definition member_of {A} (m : slot A) (i : nat) (w : W) : option A :=
  match objects w !! i with Some x => unwrap_member m (storage_ x) | None => None end.
Definition copy_arg {A} (m : slot A) (i : nat) : arg W A := mk_arg (member_of m i) false (fun _ => ret tt).
Definition move_arg {A} (m : slot A) (i : nat) : arg W A :=
  mk_arg (member_of m i) (nothrow_move (element_of m)) (fun b =>
    let! v := member_ref m i in
    put_member m i (if b then torn (element_of m) v else moved (element_of m) v)).

(** *** Replacing a member *)

Definition replace_live {A} (m : slot A) (i : nat) (a : arg W A) : M W unit :=
  if negb (movable (element_of m)) then
    set_state i St_switching ;;;
    destroy_member m i ;;;
    let! v := make a in
    construct_member m i v ;;;
    set_state i (name_member m)
  else if nothrow_move (element_of m) || no_exceptions then
    let! incoming := make a in
    set_state i St_switching ;;;
    destroy_member m i ;;;
    let! v := move_local (element_of m) incoming in
    construct_member m i v ;;;
    set_state i (name_member m)
  else
    let! incoming := make a in
    let! backup := move_member m i in
    set_state i St_switching ;;;
    destroy_member m i ;;;
    catching (let! v := move_local (element_of m) incoming in construct_member m i v)
      (let! v := move_local (element_of m) backup in construct_member m i v ;;; set_state i (name_member m)) ;;;
    set_state i (name_member m).

(** [commit_value] and [commit_error]: [old] is the member that goes. *)
Definition commit {A B} (old : slot A) (new : slot B) (i : nat) (incoming : B) : M W unit :=
  let build := let! v := move_local (element_of new) incoming in construct_member new i v in
  if nothrow_move (element_of new) || no_exceptions then
    set_state i St_switching ;;;
    destroy_member old i ;;;
    build
  else
    let! backup := move_member old i in
    set_state i St_switching ;;;
    destroy_member old i ;;;
    catching build
      (let! v := move_local (element_of old) backup in construct_member old i v ;;; set_state i (name_member old)).

(** [reinit_as_value] and [reinit_as_error]. *)
Definition reinit {A B} (old : slot A) (new : slot B) (i : nat) (a : arg W B) : M W unit :=
  let build := let! v := make a in construct_member new i v in
  (if movable (element_of new) then
     let! incoming := make a in commit old new i incoming
   else if nothrow a || no_exceptions then
     set_state i St_switching ;;;
     destroy_member old i ;;;
     build
   else
     let! backup := move_member old i in
     set_state i St_switching ;;;
     destroy_member old i ;;;
     catching build
       (let! v := move_local (element_of old) backup in construct_member old i v ;;; set_state i (name_member old))) ;;;
  set_state i (name_member new).

Definition commit_value : nat -> T -> M W unit := commit error_slot value_slot.
Definition commit_error : nat -> E -> M W unit := commit value_slot error_slot.
Definition reinit_as_value : nat -> arg W T -> M W unit := reinit error_slot value_slot.
Definition reinit_as_error : nat -> arg W E -> M W unit := reinit value_slot error_slot.

Definition assign_value_or_rebind (i : nat) (a : arg W T) : M W unit :=
  require_settled i ;;;
  let! b := holds_value i in
  if b then assign_member value_slot i a else reinit_as_value i a.
Definition assign_error_or_rebind (i : nat) (a : arg W E) : M W unit :=
  require_settled i ;;;
  let! b := holds_value i in
  if negb b then assign_member error_slot i a else reinit_as_error i a.

(** *** Assignment, replacement and exchange *)

Definition copy_assign (i j : nat) : M W unit :=
  require_settled i ;;;
  require_settled j ;;;
  if Nat.eqb i j then ret tt
  else
    let! b := holds_value j in
    if b then assign_value_or_rebind i (copy_arg value_slot j)
    else assign_error_or_rebind i (copy_arg error_slot j).
Definition move_assign (i j : nat) : M W unit :=
  require_settled i ;;;
  require_settled j ;;;
  if Nat.eqb i j then ret tt
  else
    let! b := holds_value j in
    if b then assign_value_or_rebind i (move_arg value_slot j)
    else assign_error_or_rebind i (move_arg error_slot j).
Definition assign_value (i : nat) (a : arg W T) : M W unit := assign_value_or_rebind i a.
Definition assign_unexpected (i : nat) (a : arg W E) : M W unit := assign_error_or_rebind i a.

Definition emplace (i : nat) (a : arg W T) : M W unit :=
  require_settled i ;;;
  let! b := holds_value i in
  (if b then replace_live value_slot i a else reinit_as_value i a) ;;;
  let! _ := member_ref value_slot i in ret tt.
Definition emplace_error (i : nat) (a : arg W E) : M W unit :=
  require_settled i ;;;
  let! b := holds_value i in
  (if b then reinit_as_error i a else replace_live error_slot i a) ;;;
  let! _ := member_ref error_slot i in ret tt.

(** [std::swap] of two members: [A tmp(move(a)); a = move(b); b = move(tmp);]. *)
Definition std_swap {A} (m : slot A) (i j : nat) : M W unit :=
  let! tmp := move_member m i in
  assign_member m i (move_arg m j) ;;;
  assign_member m j (World.local_arg tmp).

(** [v] holds a value, [e] an error. *)
Definition swap_value_error (v e : nat) : M W unit :=
  set_state v St_switching ;;;
  set_state e St_switching ;;;
  (if nothrow_move elE then
     let! tmp := move_member error_slot e in
     destroy_member error_slot e ;;;
     let build := let! x := move_member value_slot v in construct_value e x in
     (if no_exceptions || nothrow_move elT then build
      else catching build
        (let! x := move_local elE tmp in
         construct_error e x ;;;
         set_state v St_value ;;;
         set_state e St_error)) ;;;
     destroy_member value_slot v ;;;
     let! x := move_local elE tmp in
     construct_error v x
   else
     let! tmp := move_member value_slot v in
     destroy_member value_slot v ;;;
     let build := let! x := move_member error_slot e in construct_error v x in
     (if no_exceptions then build
      else catching build
        (let! x := move_local elT tmp in
         construct_value v x ;;;
         set_state v St_value ;;;
         set_state e St_error)) ;;;
     destroy_member error_slot e ;;;
     let! x := move_local elT tmp in
     construct_value e x) ;;;
  set_state v St_error ;;;
  set_state e St_value.

Definition swap (i j : nat) : M W unit :=
  require_settled i ;;;
  require_settled j ;;;
  let! a := holds_value i in
  let! b := holds_value j in
  if a && b then std_swap value_slot i j
  else if negb a && negb b then std_swap error_slot i j
  else if a && negb b then swap_value_error i j
  else swap_value_error j i.

(** *** Construction and destruction *)

(** [~expected_members()]; with [trivial], [T] and [E] are trivially destructible. *)
Definition destroy (trivial : bool) (i : nat) : M W unit :=
  if trivial then ret tt
  else
    require_settled i ;;;
    let! st := state i in
    let had_value := bool_decide (st = St_value) in
    set_state i St_switching ;;;
    if had_value then destroy_member value_slot i else destroy_member error_slot i.

(** The constructor of the base, at the address [i]. *)
Definition members (i : nat) (c : cell T E) (st : expected_state) : M W unit :=
  set_object i (mk_expected c st).

(** The constructors from a value or an error, [unexpected] or in place. *)
Definition construct_with {A} (m : slot A) (i : nat) (a : arg W A) : M W unit :=
  let! v := make a in members i (wrap_member m v) (name_member m).

(** The copy and the move constructor.  The base is complete when the body runs, so
    that an exception there destroys it. *)
Definition construct_from (trivial : bool) (value_arg : arg W T) (error_arg : arg W E) (i j : nat) : M W unit :=
  let! st := state j in
  members i Raw st ;;;
  catching
    (require_settled j ;;;
     let! b := holds_value i in
     if b then (let! v := make value_arg in construct_value i v)
     else (let! e := make error_arg in construct_error i e))
    (destroy trivial i).
Definition copy_construct (trivial : bool) (i j : nat) : M W unit :=
  construct_from trivial (copy_arg value_slot j) (copy_arg error_slot j) i j.
Definition move_construct (trivial : bool) (i j : nat) : M W unit :=
  construct_from trivial (move_arg value_slot j) (move_arg error_slot j) i j.

(** *** Observers *)

  Context (h : hardening).

(** [operator*], [operator->] and [value()]; [error()]. *)
Definition value (i : nat) : M W T :=
  let! b := holds_value i in metl_assert h b ;;; member_ref value_slot i.
Definition error (i : nat) : M W E :=
  let! b := holds_error i in metl_assert h b ;;; member_ref error_slot i.

(** Whether the object is given as an rvalue that may be moved from; the forms for
    a [const] one copy. *)
Definition value_arg (rvalue : bool) (i : nat) : arg W T :=
  if rvalue then move_arg value_slot i else copy_arg value_slot i.
Definition error_arg (rvalue : bool) (i : nat) : arg W E :=
  if rvalue then move_arg error_slot i else copy_arg error_slot i.

Definition value_or (rvalue : bool) (i : nat) (default : arg W T) : M W T :=
  let! b := holds_value i in if b then make (value_arg rvalue i) else make default.
Definition error_or (rvalue : bool) (i : nat) (default : arg W E) : M W E :=
  let! b := holds_error i in if b then make (error_arg rvalue i) else make default.

(** A callable is given the member through a reference, here the object's name; what
    it returns is placed into the result by the same step. *)
Definition and_then {U} (rvalue : bool) (i : nat) (f : nat -> M W (expected U E)) : M W (expected U E) :=
  let! b := holds_value i in
  if b then (let! _ := value i in f i)
  else
    let! b := holds_error i in
    metl_assert h b ;;;
    let! u := make (error_arg rvalue i) in
    let! e := move_local elE u in
    ret (mk_expected (Error e) St_error).
Definition transform {U} (rvalue : bool) (i : nat) (f : nat -> M W U) : M W (expected U E) :=
  let! b := holds_value i in
  if b then (let! _ := value i in let! u := f i in ret (mk_expected (Value u) St_value))
  else
    let! b := holds_error i in
    metl_assert h b ;;;
    let! e := make (error_arg rvalue i) in
    ret (mk_expected (Error e) St_error).
Definition or_else {G} (rvalue : bool) (i : nat) (f : nat -> M W (expected T G)) : M W (expected T G) :=
  let! b := holds_value i in
  if b then (let! v := make (value_arg rvalue i) in ret (mk_expected (Value v) St_value))
  else
    let! b := holds_error i in
    metl_assert h b ;;;
    let! _ := member_ref error_slot i in
    f i.
Definition transform_error {G} (rvalue : bool) (i : nat) (f : nat -> M W G) : M W (expected T G) :=
  let! b := holds_value i in
  if b then (let! v := make (value_arg rvalue i) in ret (mk_expected (Value v) St_value))
  else
    let! b := holds_error i in
    metl_assert h b ;;;
    let! _ := member_ref error_slot i in
    let! g := f i in
    ret (mk_expected (Error g) St_error).

(** *** Comparison *)

  (** [==] and [!=] of the elements. *)
  Context (eqT neT : T -> T -> bool) (eqE neE : E -> E -> bool).

Definition equal (i j : nat) : M W bool :=
  let! a := holds_value i in
  let! b := holds_value j in
  if negb (Bool.eqb a b) then ret false
  else if a then (let! x := value i in let! y := value j in ret (eqT x y))
  else (let! x := error i in let! y := error j in ret (eqE x y)).
Definition not_equal (i j : nat) : M W bool := let! b := equal i j in ret (negb b).
Definition equal_value (i : nat) (rhs : T) : M W bool :=
  let! a := holds_value i in if a then (let! x := value i in ret (eqT x rhs)) else ret false.
Definition value_equal (lhs : T) (i : nat) : M W bool :=
  let! a := holds_value i in if a then (let! x := value i in ret (eqT lhs x)) else ret false.
Definition not_equal_value (i : nat) (rhs : T) : M W bool :=
  let! a := holds_value i in if negb a then ret true else (let! x := value i in ret (neT x rhs)).
Definition value_not_equal (lhs : T) (i : nat) : M W bool :=
  let! a := holds_value i in if negb a then ret true else (let! x := value i in ret (neT lhs x)).
Definition equal_unexpected (i : nat) (rhs : E) : M W bool :=
  let! a := holds_value i in if negb a then (let! x := error i in ret (eqE x rhs)) else ret false.
Definition unexpected_equal (lhs : E) (i : nat) : M W bool :=
  let! a := holds_value i in if negb a then (let! x := error i in ret (eqE lhs x)) else ret false.
Definition not_equal_unexpected (i : nat) (rhs : E) : M W bool :=
  let! a := holds_value i in if a then ret true else (let! x := error i in ret (neE x rhs)).
Definition unexpected_not_equal (lhs : E) (i : nat) : M W bool :=
  let! a := holds_value i in if a then ret true else (let! x := error i in ret (neE lhs x)).
End expected.
Arguments slot T E A : clear implicits.
Arguments wrap_member {T E A} _ _.
Arguments unwrap_member {T E A} _ _.
Arguments name_member {T E A} _.
Arguments element_of {T E A} _.
End Expected.

(** ** [expected<void, E>]

    The success state has nothing in the union. *)

Module ExpectedVoid.
Section expected_void.
  Context {T E : Type} (elE : element E) (no_exceptions : bool).
  Context (on_destroy : nat -> M (world T E) unit).
  Abbreviation W := (world T E).
  Abbreviation error_slot := (Expected.error_slot (T := T) elE).
  Abbreviation holds_value := (Expected.holds_value (T := T) (E := E)).
  Abbreviation holds_error := (Expected.holds_error (T := T) (E := E)).
  Abbreviation require_settled := (Expected.require_settled (T := T) (E := E)).
  Abbreviation set_state := (Expected.set_state (T := T) (E := E)).
  Abbreviation make := (World.make (O := expected T E) no_exceptions).

Definition construct_error : nat -> E -> M W unit := Expected.construct_member error_slot.

(** The error goes, in the statements that more than one member has. *)
Definition drop_error (i : nat) : M W unit :=
  set_state i St_switching ;;;
  Expected.destroy_member on_destroy error_slot i ;;;
  set_state i St_value.

Definition add_error (i : nat) (a : arg W E) : M W unit :=
  let! e := make a in
  construct_error i e ;;;
  set_state i St_error.

Definition assign_from (a : arg W E) (i j : nat) : M W unit :=
  require_settled i ;;;
  require_settled j ;;;
  if Nat.eqb i j then ret tt
  else
    let! theirs := holds_value j in
    let! mine := holds_value i in
    if theirs then (if negb mine then drop_error i else ret tt)
    else if mine then add_error i a
    else Expected.assign_member no_exceptions error_slot i a.
Definition copy_assign (i j : nat) : M W unit := assign_from (Expected.copy_arg error_slot j) i j.
Definition move_assign (i j : nat) : M W unit := assign_from (Expected.move_arg error_slot j) i j.

Definition assign_unexpected (i : nat) (a : arg W E) : M W unit :=
  require_settled i ;;;
  let! mine := holds_value i in
  if mine then add_error i a else Expected.assign_member no_exceptions error_slot i a.

Definition emplace (i : nat) : M W unit :=
  require_settled i ;;;
  let! mine := holds_value i in
  if negb mine then drop_error i else ret tt.
Definition emplace_error (i : nat) (a : arg W E) : M W unit :=
  require_settled i ;;;
  let! mine := holds_value i in
  (if mine then add_error i a else Expected.replace_live no_exceptions on_destroy error_slot i a) ;;;
  let! _ := Expected.member_ref error_slot i in ret tt.

(** [i] succeeds, [j] holds an error. *)
Definition hand_over (i j : nat) : M W unit :=
  add_error i (Expected.move_arg error_slot j) ;;;
  drop_error j.
Definition swap (i j : nat) : M W unit :=
  require_settled i ;;;
  require_settled j ;;;
  let! a := holds_value i in
  let! b := holds_value j in
  if a && b then ret tt
  else if negb a && negb b then Expected.std_swap no_exceptions error_slot i j
  else if a && negb b then hand_over i j
  else (require_settled j ;;; require_settled i ;;; hand_over j i).

(** [~expected_void_members()]. *)
Definition destroy (trivial : bool) (i : nat) : M W unit :=
  if trivial then ret tt
  else
    require_settled i ;;;
    let! mine := holds_value i in
    if negb mine then set_state i St_switching ;;; Expected.destroy_member on_destroy error_slot i else ret tt.

Definition construct_from (trivial : bool) (a : arg W E) (i j : nat) : M W unit :=
  let! st := Expected.state j in
  Expected.members i Raw st ;;;
  catching
    (require_settled j ;;;
     let! mine := holds_value i in
     if negb mine then (let! e := make a in construct_error i e) else ret tt)
    (destroy trivial i).
Definition copy_construct (trivial : bool) (i j : nat) : M W unit :=
  construct_from trivial (Expected.copy_arg error_slot j) i j.
Definition move_construct (trivial : bool) (i j : nat) : M W unit :=
  construct_from trivial (Expected.move_arg error_slot j) i j.

(** The constructors of a success and of an error. *)
Definition construct_success (i : nat) : M W unit := Expected.members i Raw St_value.
Definition construct_unexpected (i : nat) (a : arg W E) : M W unit :=
  Expected.construct_with no_exceptions error_slot i a.

  Context (h : hardening).

Definition value (i : nat) : M W unit := let! b := holds_value i in metl_assert h b.
Definition error (i : nat) : M W E :=
  let! b := holds_error i in metl_assert h b ;;; Expected.member_ref error_slot i.
Definition error_arg (rvalue : bool) (i : nat) : arg W E :=
  if rvalue then Expected.move_arg error_slot i else Expected.copy_arg error_slot i.
Definition error_or (rvalue : bool) (i : nat) (default : arg W E) : M W E :=
  let! b := holds_error i in if b then make (error_arg rvalue i) else make default.

Definition and_then {U} (rvalue : bool) (i : nat) (f : M W (expected U E)) : M W (expected U E) :=
  let! b := holds_value i in
  if b then f
  else
    let! b := holds_error i in
    metl_assert h b ;;;
    let! u := make (error_arg rvalue i) in
    let! e := World.move_local no_exceptions elE u in
    ret (mk_expected (Error e) St_error).
(** The result of a callable that returns nothing is a success without a value. *)
Definition transform {U} (rvalue : bool) (i : nat) (f : M W (option U)) : M W (expected U E) :=
  let! b := holds_value i in
  if b then (let! u := f in ret (mk_expected (match u with Some u => Value u | None => Raw end) St_value))
  else
    let! b := holds_error i in
    metl_assert h b ;;;
    let! e := make (error_arg rvalue i) in
    ret (mk_expected (Error e) St_error).
Definition or_else {G} (i : nat) (f : nat -> M W (expected T G)) : M W (expected T G) :=
  let! b := holds_value i in
  if b then ret (mk_expected Raw St_value)
  else
    let! b := holds_error i in
    metl_assert h b ;;;
    let! _ := Expected.member_ref error_slot i in
    f i.
Definition transform_error {G} (i : nat) (f : nat -> M W G) : M W (expected T G) :=
  let! b := holds_value i in
  if b then ret (mk_expected Raw St_value)
  else
    let! b := holds_error i in
    metl_assert h b ;;;
    let! _ := Expected.member_ref error_slot i in
    let! g := f i in
    ret (mk_expected (Error g) St_error).

Definition equal (eqE : E -> E -> bool) (i j : nat) : M W bool :=
  let! a := holds_value i in
  let! b := holds_value j in
  if negb (Bool.eqb a b) then ret false
  else if a then ret true
  else (let! x := error i in let! y := error j in ret (eqE x y)).
Definition not_equal (eqE : E -> E -> bool) (i j : nat) : M W bool :=
  let! b := equal eqE i j in ret (negb b).
End expected_void.
End ExpectedVoid.
