(* ===== verification/ExpectedFacts.v ===== *)
(** * Running [expected]

    What each step of the operations of [Expected.v] does to a world, as rules for
    [wp], and a tactic that runs a body with them.  Destructors are quiet here. *)

From Stdlib Require Import ZArith Lia.
From stdpp Require Import base numbers list option gmap tactics.
From S2P Require Import Prelude World Expected.

Section member_rules.
  Context {T E : Type}.
  Implicit Types (w : world T E) (x : expected T E).
  Context (Q : unit -> world T E -> Prop) (X : world T E -> Prop).

Lemma wp_state i x (R : expected_state -> world T E -> Prop) w :
  objects w !! i = Some x -> R (state_ x) w -> wp (Expected.state i) R X w.
Proof. intros Hi HR. unfold wp, Expected.state, World.object, bind. by rewrite Hi. Qed.

Lemma wp_holds_value i x (R : bool -> world T E -> Prop) w :
  objects w !! i = Some x -> R (bool_decide (state_ x = St_value)) w -> wp (Expected.holds_value i) R X w.
Proof. intros Hi HR. apply wp_bind. by eapply wp_state. Qed.

Lemma wp_holds_error i x (R : bool -> world T E -> Prop) w :
  objects w !! i = Some x -> R (bool_decide (state_ x = St_error)) w -> wp (Expected.holds_error i) R X w.
Proof. intros Hi HR. apply wp_bind. by eapply wp_state. Qed.

Lemma wp_require_settled i x w :
  objects w !! i = Some x -> state_ x <> St_switching -> Q tt w -> wp (Expected.require_settled i) Q X w.
Proof.
  intros Hi Hx HQ. apply wp_bind, wp_bind. eapply wp_state; [done|]. apply wp_harden; [|done].
  by rewrite bool_decide_eq_false_2.
Qed.

Lemma wp_set_state i st x w :
  objects w !! i = Some x -> Q tt (upd i (mk_expected (storage_ x) st) w) -> wp (Expected.set_state i st) Q X w.
Proof. intros Hi HQ. unfold wp, Expected.set_state, World.object, bind. by rewrite Hi. Qed.

Lemma wp_members i c st w : Q tt (upd i (mk_expected c st) w) -> wp (Expected.members i c st) Q X w.
Proof. done. Qed.

Context {A : Type} (m : Expected.slot T E A).

Lemma wp_member_ref i x a (R : A -> world T E -> Prop) w :
  objects w !! i = Some x -> Expected.unwrap_member m (storage_ x) = Some a -> R a w ->
  wp (Expected.member_ref m i) R X w.
Proof. intros Hi Ha HR. unfold wp, Expected.member_ref, World.object, bind. by rewrite Hi, Ha. Qed.

Lemma wp_put_member i x a b w :
  objects w !! i = Some x -> Expected.unwrap_member m (storage_ x) = Some b ->
  Q tt (upd i (mk_expected (Expected.wrap_member m a) (state_ x)) w) -> wp (Expected.put_member m i a) Q X w.
Proof. intros Hi Ha HQ. unfold wp, Expected.put_member, World.object, bind. by rewrite Hi, Ha. Qed.

Lemma wp_construct_member i x a w :
  objects w !! i = Some x -> storage_ x = Raw ->
  Q tt (upd i (mk_expected (Expected.wrap_member m a) (state_ x)) w) -> wp (Expected.construct_member m i a) Q X w.
Proof. intros Hi Ha HQ. unfold wp, Expected.construct_member, World.object, bind. by rewrite Hi, Ha. Qed.

Lemma wp_destroy_member hook i x a w :
  (forall i w, hook i w = Ret tt w) ->
  objects w !! i = Some x -> Expected.unwrap_member m (storage_ x) = Some a ->
  Q tt (upd i (mk_expected Raw (state_ x)) w) -> wp (Expected.destroy_member hook m i) Q X w.
Proof.
  intros Hq Hi Ha HQ. apply wp_bind. eapply wp_member_ref; [done..|]. apply wp_bind.
  eapply wp_Ret; [apply Hq|]. apply wp_bind. eapply wp_member_ref; [done..|].
  unfold wp, World.object, bind. by rewrite Hi.
Qed.
End member_rules.

(** What is stored as a member is found again as that member. *)
Definition lawful {T E A} (m : Expected.slot T E A) : Prop :=
  forall a, Expected.unwrap_member m (Expected.wrap_member m a) = Some a.

(** Finds the member that lives in a union. *)
Ltac live := first [reflexivity | cbn [storage_]; match goal with H : lawful _ |- _ => apply H end].

(** Runs the first step of a body. *)
Ltac wstep :=
  match goal with
  | |- wp (if ?b then _ else _) _ _ _ => destruct b eqn:?
  | |- wp (bind _ _) _ _ _ => apply wp_bind
  | |- wp (catching _ _) _ _ _ => apply wp_catching
  | |- wp (ret _) _ _ _ => apply wp_ret
  | |- wp throw _ _ _ => apply wp_throw
  | |- wp (get _) _ _ _ => apply wp_get
  | |- wp (World.move_local _ _ _) _ _ _ => unfold World.move_local
  | |- wp (Expected.move_member _ _ _) _ _ _ => unfold Expected.move_member
  | |- wp (World.may_throw _ _) _ _ _ => apply wp_may_fail; intros
  | |- wp (Expected.state _) _ _ _ => eapply wp_state; [lk|]
  | |- wp (Expected.holds_value _) _ _ _ => eapply wp_holds_value; [lk|]
  | |- wp (Expected.holds_error _) _ _ _ => eapply wp_holds_error; [lk|]
  | |- wp (Expected.require_settled _) _ _ _ => eapply wp_require_settled; [lk|done|]
  | |- wp (Expected.set_state _ _) _ _ _ => eapply wp_set_state; [lk|]
  | |- wp (Expected.members _ _ _) _ _ _ => apply wp_members
  | |- wp (Expected.member_ref _ _) _ _ _ => eapply wp_member_ref; [lk|live|]
  | |- wp (Expected.put_member _ _ _) _ _ _ => eapply wp_put_member; [lk|live|]
  | |- wp (Expected.construct_member _ _ _) _ _ _ => eapply wp_construct_member; [lk|reflexivity|]
  | |- wp (Expected.destroy_member _ _ _) _ _ _ => eapply wp_destroy_member; [eassumption|lk|live|]
  end; cbn [storage_ state_].

(** ** Replacing a member *)

(** An object that holds a member. *)
Definition boxed {T E A} (m : Expected.slot T E A) (a : A) : expected T E :=
  mk_expected (Expected.wrap_member m a) (Expected.name_member m).

Section replacing.
  Context {T E : Type} (no_exceptions : bool) (hook : nat -> M (world T E) unit).
  Hypothesis quiet : forall i w, hook i w = Ret tt w.
  Implicit Types (w : world T E) (x : expected T E) (sp : bool -> gmap nat (expected T E) -> gmap nat (expected T E)).

Context {A B : Type} (m : Expected.slot T E A) (m' : Expected.slot T E B).
Hypothesis (Hm : lawful m) (Hm' : lawful m').


(** A throw leaves the old member, or what a throwing move made of it. *)
Definition rolled_back (i : nat) (o : A) (os : gmap nat (expected T E)) w w' : Prop :=
  ends w (<[i := boxed m o]> os) w' \/ ends w (<[i := boxed m (torn (Expected.element_of m) o)]> os) w'.

Lemma replace_live_wp i (a : arg (world T E) A) w o v sp :
  calm (throws w) -> movable (Expected.element_of m) = true ->
  objects w !! i = Some (boxed m o) -> (forall b, sp b (objects w) !! i = Some (boxed m o)) -> arg_at a w v sp ->
  wp (Expected.replace_live no_exceptions hook m i a)
     (fun _ w' => ends w (<[i := boxed m v]> (sp false (objects w))) w')
     (fun w' => exists b, rolled_back i o (sp b (objects w)) w w') w.
Proof.
  intros Hc Hmv Hi Hsp Ha. pose proof (Hsp true) as Hst. pose proof (Hsp false) as Hsf. unfold Expected.replace_live. rewrite Hmv. cbn [negb].
  destruct (nothrow_move (Expected.element_of m) || no_exceptions) eqn:Hn.
  - apply wp_bind. eapply wp_mono; [by apply wp_make| |]; [intros ? w1 (-> & Ho & Ht)|intros w1 Hw1; exists true; left].
    + repeat wstep; [by destruct (drew_cannot _ _ _ _ H)|]. split; [by objs|sfx].
    + destruct Hw1 as [Ho Ht]. split; [|done]. by rewrite Ho, insert_id.
  - apply wp_bind. eapply wp_mono; [by apply wp_make| |]; [intros ? w1 (-> & Ho & Ht)|intros w1 Hw1; exists true; left].
    2: { destruct Hw1 as [Ho Ht]. split; [|done]. by rewrite Ho, insert_id. }
    repeat wstep; cbn [throws upd] in *; [exists false; right|twice|exists false; left|]; (split; [by objs|sfx]).
Qed.

Lemma commit_wp i w o v :
  calm (throws w) -> objects w !! i = Some (boxed m o) ->
  wp (Expected.commit no_exceptions hook m m' i v)
     (fun _ w' => ends w (<[i := mk_expected (Expected.wrap_member m' v) St_switching]> (objects w)) w')
     (rolled_back i o (objects w) w) w.
Proof.
  intros Hc Hi. unfold Expected.commit. destruct (nothrow_move (Expected.element_of m') || no_exceptions) eqn:Hn.
  - repeat wstep; [by destruct (drew_cannot _ _ _ _ H)|]. split; [by objs|sfx].
  - repeat wstep; cbn [throws upd] in *; [right|twice|left|]; (split; [by objs|sfx]).
Qed.

Lemma reinit_wp i (a : arg (world T E) B) w o v sp :
  calm (throws w) -> movable (Expected.element_of m') = true ->
  objects w !! i = Some (boxed m o) -> (forall b, sp b (objects w) !! i = Some (boxed m o)) -> arg_at a w v sp ->
  wp (Expected.reinit no_exceptions hook m m' i a)
     (fun _ w' => ends w (<[i := boxed m' v]> (sp false (objects w))) w')
     (fun w' => exists b, rolled_back i o (sp b (objects w)) w w') w.
Proof.
  intros Hc Hmv Hi Hsp Ha. pose proof (Hsp true) as Hst. pose proof (Hsp false) as Hsf. unfold Expected.reinit. rewrite Hmv.
  apply wp_bind, wp_bind. eapply wp_mono; [by apply wp_make| |]; [intros ? w1 (-> & Ho & Ht)|intros w1 [Ho Ht]; exists true; left].
  2: { split; [|done]. by rewrite Ho, insert_id. }
  eapply wp_mono; [apply (commit_wp i w1 o v)| |]; [by eapply calm_suffix|by rewrite Ho| |].
  - intros _ w2 [Ho2 Ht2]. wstep. split; [by objs|sfx].
  - intros w2 [[Ho2 Ht2]|[Ho2 Ht2]]; exists false; [left|right]; (split; [by rewrite Ho2, Ho|sfx]).
Qed.

Lemma assign_member_wp i (a : arg (world T E) A) w o v sp :
  objects w !! i = Some (boxed m o) -> (forall b, exists o', sp b (objects w) !! i = Some (boxed m o')) ->
  arg_at a w v sp ->
  wp (Expected.assign_member no_exceptions m i a)
     (fun _ w' => ends w (<[i := boxed m v]> (sp false (objects w))) w')
     (fun w' => ends w (<[i := boxed m (torn (Expected.element_of m) o)]> (sp true (objects w))) w') w.
Proof.
  intros Hi Hsp [Hl Hs]. destruct (Hsp true) as (o1 & Hst). destruct (Hsp false) as (o2 & Hsf).
  unfold Expected.assign_member. do 2 wstep. rewrite Hl. do 4 wstep.
  apply wp_bind. eapply wp_Ret; [apply Hs, (drew_objects _ _ _ _ _ H)|].
  destruct b; repeat wstep; (split; [by objs|sfx]).
Qed.

(** *** Arguments *)

Lemma copy_arg_at i w o : objects w !! i = Some (boxed m o) -> arg_at (Expected.copy_arg m i) w o (fun _ os => os).
Proof.
  intros Hi. split; [cbn; unfold Expected.member_of; rewrite Hi; apply Hm|]. intros b w' <-. cbn. by destruct w'.
Qed.

Lemma move_arg_at i w o :
  objects w !! i = Some (boxed m o) ->
  arg_at (Expected.move_arg m i) w o (fun b os =>
    <[i := boxed m (if b then torn (Expected.element_of m) o else moved (Expected.element_of m) o)]> os).
Proof.
  intros Hi. split; [cbn; unfold Expected.member_of; rewrite Hi; apply Hm|]. intros b w' Ho. cbn.
  unfold Expected.member_ref, Expected.put_member, World.object, bind. rewrite Ho, Hi. cbn. rewrite Hm. cbn.
  rewrite Ho, Hi. cbn. rewrite Hm. unfold World.set_object, modify. by rewrite Ho.
Qed.

(** *** Exchanging two members *)

Definition sided (i j : nat) (os : gmap nat (expected T E)) w w' : Prop :=
  exists oi oj, ends w (<[i := boxed m oi]> (<[j := boxed m oj]> os)) w'.

Lemma std_swap_wp i j w oi oj :
  objects w !! i = Some (boxed m oi) -> objects w !! j = Some (boxed m oj) ->
  wp (Expected.std_swap no_exceptions m i j)
     (fun _ w' => ends w (<[i := boxed m oj]> (<[j := boxed m oi]> (objects w))) w')
     (sided i j (objects w) w) w.
Proof.
  intros Hi Hj. assert (i = j -> oi = oj) as Heq.
  { intros ->. rewrite Hi in Hj. injection Hj as Hj. pose proof (Hm oi) as H1. rewrite Hj, Hm in H1. by injection H1. }
  unfold Expected.std_swap. do 7 wstep.
  destruct b; repeat wstep; [exists (torn (Expected.element_of m) oi), oj; split; [objs; maps i j|sfx]|].
  match goal with |- wp _ _ _ ?u => set (w1 := u) end.
  assert (exists oj', objects w1 !! j = Some (boxed m oj') /\ (i <> j -> oj' = oj)) as (oj' & Hj1 & Hne).
  { unfold w1. cbn. destruct (decide (i = j)) as [->|]; [by eexists; rewrite lookup_insert_eq|].
    exists oj. rewrite lookup_insert_ne by done. split; [lk|done]. }
  assert (objects w1 = <[i := boxed m (moved (Expected.element_of m) oi)]> (objects w)) as Ho1 by (unfold w1; by objs).
  assert (throws w1 `suffix_of` throws w) as Ht1 by (unfold w1; sfx). clearbody w1.
  eapply wp_mono; [eapply (assign_member_wp i (Expected.move_arg m j) w1); [| |by apply move_arg_at]| |].
  - rewrite Ho1. apply lookup_insert_eq.
  - intros b. destruct (decide (i = j)) as [->|]; eexists; [apply lookup_insert_eq|].
    rewrite lookup_insert_ne, Ho1 by done. apply lookup_insert_eq.
  - intros _ w2 [Ho2 Ht2]. cbn in Ho2.
    assert (exists o2, objects w2 !! j = Some (boxed m o2)) as (o2 & Hj2).
    { rewrite Ho2. destruct (decide (i = j)) as [->|]; [by eexists; rewrite lookup_insert_eq|].
      rewrite lookup_insert_ne, lookup_insert_eq by done. by eexists. }
    eapply wp_mono; [apply (assign_member_wp j (World.local_arg oi) w2 o2 oi (fun _ os => os) Hj2); [by eexists|apply local_arg_at]| |].
    + intros _ w3 [Ho3 Ht3]. split; [|sfx]. rewrite Ho3, Ho2, Ho1. destruct (decide (i = j)) as [->|Hij].
      * by rewrite !insert_insert_eq, (Heq eq_refl).
      * rewrite (Hne Hij). maps i j.
    + intros w3 [Ho3 Ht3]. destruct (decide (i = j)) as [->|Hij].
      * exists (torn (Expected.element_of m) o2), oj. split; [|sfx]. rewrite Ho3, Ho2, Ho1. by rewrite !insert_insert_eq.
      * exists oj', (torn (Expected.element_of m) o2). split; [|sfx]. rewrite Ho3, Ho2, Ho1. maps i j.
  - intros w2 [Ho2 Ht2]. exists (torn (Expected.element_of m) (moved (Expected.element_of m) oi)), (torn (Expected.element_of m) oj').
    split; [|sfx]. rewrite Ho2, Ho1. maps i j.
Qed.
End replacing.

Lemma value_lawful {T E} (el : element T) : lawful (Expected.value_slot (E := E) el).
Proof. done. Qed.

Lemma error_lawful {T E} (el : element E) : lawful (Expected.error_slot (T := T) el).
Proof. done. Qed.

Section swapping.
  Context {T E : Type} (elT : element T) (elE : element E) (no_exceptions : bool) (hook : nat -> M (world T E) unit).
  Hypothesis quiet : forall i w, hook i w = Ret tt w.
  Implicit Types (w : world T E).
  Abbreviation vbox := (boxed (Expected.value_slot (E := E) elT)).
  Abbreviation ebox := (boxed (Expected.error_slot (T := T) elE)).

Lemma swap_value_error_wp i j w v e :
  nothrow_move elT || nothrow_move elE = true -> i <> j ->
  objects w !! i = Some (vbox v) -> objects w !! j = Some (ebox e) ->
  wp (Expected.swap_value_error elT elE no_exceptions hook i j)
     (fun _ w' => ends w (<[i := ebox e]> (<[j := vbox v]> (objects w))) w')
     (fun w' => exists v' e', ends w (<[i := vbox v']> (<[j := ebox e']> (objects w))) w') w.
Proof.
  intros Hn Hne Hi Hj. unfold Expected.swap_value_error, Expected.construct_value, Expected.construct_error.
  destruct (nothrow_move elE) eqn:HE; [destruct (no_exceptions || nothrow_move elT) eqn:Hno|
    rewrite orb_false_r in Hn; destruct no_exceptions eqn:Hno].
  - repeat wstep; try cannot. split; [objs; maps i j|sfx].
  - repeat wstep; try cannot; [exists (torn elT v), e|]; (split; [objs; maps i j|sfx]).
  - repeat wstep; try cannot. split; [objs; maps i j|sfx].
  - repeat wstep; try cannot; [exists v, (torn elE e)|]; (split; [objs; maps i j|sfx]).
Qed.
End swapping.
