(* ===== verification/ExpectedClaims.v ===== *)
(** * What [expected] promises

    The abstract object is a value or an error.  An operation that returns has
    replaced it by what was asked for; one that throws has left the old one, or what
    an element's own throwing move made of it. *)

From Stdlib Require Import ZArith Lia.
From stdpp Require Import base numbers list option gmap tactics.
From S2P Require Import Prelude World Expected ExpectedFacts.

(** ** The abstract objects *)

Module ExpectedSpec.
Section spec.
  Context {T E : Type} (elT : element T) (elE : element E).
  Abbreviation contents := (gmap nat (T + E)).

(** Where an argument comes from: elsewhere, or out of the value or the error of an
    object. *)
Inductive source (A : Type) : Type :=
  | Given (v : A) | OfValue (j : nat) (f : T -> A) | OfError (j : nat) (f : E -> A).
Arguments Given {A} v.
Arguments OfValue {A} j f.
Arguments OfError {A} j f.

Inductive op : Type :=
  | Emplace (i : nat) (s : source T) | EmplaceError (i : nat) (s : source E)
  | AssignValue (i : nat) (s : source T) | AssignError (i : nat) (s : source E)
  | CopyAssign (i j : nat) | MoveAssign (i j : nat) | Swap (i j : nat).

Definition resolve {A} (s : source A) (cs : contents) : option A :=
  match s with
  | Given v => Some v
  | OfValue j f => match cs !! j with Some (inl v) => Some (f v) | _ => None end
  | OfError j f => match cs !! j with Some (inr e) => Some (f e) | _ => None end
  end.

Definition moved_from (c : T + E) : T + E := match c with inl v => inl (moved elT v) | inr e => inr (moved elE e) end.
Definition torn_from (c : T + E) : T + E := match c with inl v => inl (torn elT v) | inr e => inr (torn elE e) end.
Definition same_side (c d : T + E) : Prop := match c, d with inl _, inl _ | inr _, inr _ => True | _, _ => False end.

(** What an operation that returns leaves; [None] if it names what is not there. *)
Definition after (o : op) (cs : contents) : option contents :=
  match o with
  | Emplace i s | AssignValue i s => c ← cs !! i; v ← resolve s cs; Some (<[i := inl v]> cs)
  | EmplaceError i s | AssignError i s => c ← cs !! i; e ← resolve s cs; Some (<[i := inr e]> cs)
  | CopyAssign i j => c ← cs !! i; d ← cs !! j; Some (<[i := d]> cs)
  | MoveAssign i j =>
      c ← cs !! i; d ← cs !! j; Some (if Nat.eqb i j then cs else <[i := d]> (<[j := moved_from d]> cs))
  | Swap i j => c ← cs !! i; d ← cs !! j; Some (<[i := d]> (<[j := c]> cs))
  end.

(** What an operation that throws may leave. *)
Definition thrown (o : op) (cs cs' : contents) : Prop :=
  match o with
  | Emplace i _ | AssignValue i _ | EmplaceError i _ | AssignError i _ | CopyAssign i _ =>
      cs' = cs \/ exists c, cs !! i = Some c /\ cs' = <[i := torn_from c]> cs
  | MoveAssign i j =>
      exists c d, cs !! i = Some c /\ cs !! j = Some d /\
      exists c' d', (c' = c \/ c' = torn_from c) /\ (d' = moved_from d \/ d' = torn_from d) /\
      cs' = <[i := c']> (<[j := d']> cs)
  | Swap i j =>
      exists c d, cs !! i = Some c /\ cs !! j = Some d /\
      exists c' d', same_side c c' /\ same_side d d' /\ cs' = <[i := c']> (<[j := d']> cs)
  end.

(** A program that catches every exception: which operations returned. *)
Definition steps : list op -> contents -> list bool -> contents -> Prop := Programs.steps after thrown.
End spec.
End ExpectedSpec.
Arguments ExpectedSpec.Given {T E A} v.
Arguments ExpectedSpec.OfValue {T E A} j f.
Arguments ExpectedSpec.OfError {T E A} j f.
Arguments ExpectedSpec.Emplace {T E} i s.
Arguments ExpectedSpec.EmplaceError {T E} i s.
Arguments ExpectedSpec.AssignValue {T E} i s.
Arguments ExpectedSpec.AssignError {T E} i s.
Arguments ExpectedSpec.CopyAssign {T E} i j.
Arguments ExpectedSpec.MoveAssign {T E} i j.
Arguments ExpectedSpec.Swap {T E} i j.

(** ** The objects, run the same way *)

Module ExpectedRun.
Import ExpectedSpec.
Section run.
  Context {T E : Type} (elT : element T) (elE : element E) (no_exceptions : bool).
  Context (hook : nat -> M (world T E) unit).
  Abbreviation W := (world T E).

Definition box (c : T + E) : expected T E :=
  match c with inl v => mk_expected (Value v) St_value | inr e => mk_expected (Error e) St_error end.

(** An argument that a source gives: it reads the members that are alive. *)
Definition argument {A} (s : source A) : arg W A :=
  mk_arg (fun w => match s with
    | Given v => Some v
    | OfValue j f => f <$> Expected.member_of (Expected.value_slot elT) j w
    | OfError j f => f <$> Expected.member_of (Expected.error_slot elE) j w
    end) false (fun _ => ret tt).

Definition exec (o : op) : M W unit :=
  match o with
  | Emplace i s => Expected.emplace elT elE no_exceptions hook i (argument s)
  | EmplaceError i s => Expected.emplace_error elT elE no_exceptions hook i (argument s)
  | AssignValue i s => Expected.assign_value elT elE no_exceptions hook i (argument s)
  | AssignError i s => Expected.assign_unexpected elT elE no_exceptions hook i (argument s)
  | CopyAssign i j => Expected.copy_assign elT elE no_exceptions hook i j
  | MoveAssign i j => Expected.move_assign elT elE no_exceptions hook i j
  | Swap i j => Expected.swap elT elE no_exceptions hook i j
  end.

(** What the objects that are settled hold. *)
Definition unbox (x : expected T E) : option (T + E) :=
  match x with
  | mk_expected (Value v) St_value => Some (inl v)
  | mk_expected (Error e) St_error => Some (inr e)
  | _ => None
  end.

Definition run : list op -> M W (list bool) := Programs.run unbox (after elT elE) exec.
End run.
End ExpectedRun.

(** ** Facts *)

Abbreviation shows := (Programs.shows ExpectedRun.box).

Section spec_facts.
  Import ExpectedSpec ExpectedRun.
  Context {T E : Type} (elT : element T) (elE : element E) (no_exceptions : bool).
  Context (hook : nat -> M (world T E) unit).
  Hypothesis quiet : forall i w, hook i w = Ret tt w.
  Hypothesis (movT : movable elT = true) (movE : movable elE = true).
  Implicit Types (cs : gmap nat (T + E)) (w : world T E).
  Abbreviation vslot := (Expected.value_slot (E := E) elT).
  Abbreviation eslot := (Expected.error_slot (T := T) elE).

Lemma argument_at {A} (s : source A) cs w v :
  shows cs w -> resolve s cs = Some v -> arg_at (argument elT elE s) w v (fun _ os => os).
Proof.
  intros Hw Hs. split; [|intros b w' <-; cbn; by destruct w'].
  destruct s as [v'|j f|j f]; cbn in *; [done|..]; unfold Expected.member_of; rewrite Hw, lookup_fmap;
    destruct (cs !! j) as [[u|u]|]; cbn; by simplify_eq.
Qed.

(** How an operation ends. *)
  Abbreviation outcome_ok := (Programs.outcome_ok box (after elT elE) (thrown elT elE) (exec elT elE no_exceptions hook)).

(** What throws within one object leaves it as it was, or torn. *)
Lemma rolled_shows cs w w' i c :
  shows cs w -> cs !! i = Some c ->
  (ends w (<[i := box c]> (objects w)) w' \/ ends w (<[i := box (torn_from elT elE c)]> (objects w)) w') ->
  exists cs', (cs' = cs \/ exists c, cs !! i = Some c /\ cs' = <[i := torn_from elT elE c]> cs) /\
    shows cs' w' /\ throws w' `suffix_of` throws w.
Proof.
  intros Hw Hi [He|He]; destruct (Programs.ends_shows _ _ _ _ _ _ Hw He) as [Hs Ht].
  - exists cs. rewrite insert_id in Hs by done. split; [by left|done].
  - eexists. split; [right; exists c; done|]. done.
Qed.

(** The body of an assignment of a value or an error to object [i]. *)
Definition rebinds {A} (inject : A -> T + E) (m : nat -> arg (world T E) A -> M (world T E) unit) : Prop :=
  forall i a cs w c v sp, calm (throws w) -> shows cs w -> cs !! i = Some c ->
  (forall b, sp b (objects w) !! i = Some (box c)) -> arg_at a w v sp ->
  wp (m i a) (fun _ w' => ends w (<[i := box (inject v)]> (sp false (objects w))) w')
     (fun w' => exists b, ends w (<[i := box c]> (sp b (objects w))) w' \/
                          ends w (<[i := box (torn_from elT elE c)]> (sp b (objects w))) w') w.

Lemma assign_value_rebinds :
  rebinds inl (Expected.assign_value_or_rebind elT elE no_exceptions hook).
Proof.
  intros i a cs w c v sp Hc Hw Hi Hsp Ha. pose proof (Programs.shows_lookup _ _ _ _ _ Hw Hi) as Ho.
  unfold Expected.assign_value_or_rebind. destruct c as [o|o]; cbn [box] in *.
  - do 4 wstep. rewrite bool_decide_eq_true_2 by done.
    eapply wp_mono; [eapply (assign_member_wp no_exceptions vslot); [done|done|intros b; eexists; apply Hsp|exact Ha]|done|].
    intros w' He. exists true. by right.
  - do 4 wstep. rewrite bool_decide_eq_false_2 by done.
    by apply (reinit_wp no_exceptions hook quiet eslot vslot (error_lawful elE) i a w o v sp).
Qed.

Lemma assign_error_rebinds :
  rebinds inr (Expected.assign_error_or_rebind elT elE no_exceptions hook).
Proof.
  intros i a cs w c v sp Hc Hw Hi Hsp Ha. pose proof (Programs.shows_lookup _ _ _ _ _ Hw Hi) as Ho.
  unfold Expected.assign_error_or_rebind. destruct c as [o|o]; cbn [box] in *.
  - do 4 wstep. rewrite bool_decide_eq_true_2 by done. cbn [negb].
    by apply (reinit_wp no_exceptions hook quiet vslot eslot (value_lawful elT) i a w o v sp).
  - do 4 wstep. rewrite bool_decide_eq_false_2 by done. cbn [negb].
    eapply wp_mono; [eapply (assign_member_wp no_exceptions eslot); [done|done|intros b; eexists; apply Hsp|exact Ha]|done|].
    intros w' He. exists true. by right.
Qed.

Lemma emplace_rebinds : rebinds inl (Expected.emplace elT elE no_exceptions hook).
Proof.
  intros i a cs w c v sp Hc Hw Hi Hsp Ha. pose proof (Programs.shows_lookup _ _ _ _ _ Hw Hi) as Ho.
  unfold Expected.emplace. destruct c as [o|o]; cbn [box] in *; do 4 wstep;
    [rewrite bool_decide_eq_true_2 by done|rewrite bool_decide_eq_false_2 by done]; apply wp_bind.
  - eapply wp_mono; [by apply (replace_live_wp no_exceptions hook quiet vslot (value_lawful elT) i a w o v sp)| |done].
    intros _ w' [Ho' Ht']. cbn. repeat wstep. by split.
  - eapply wp_mono; [by apply (reinit_wp no_exceptions hook quiet eslot vslot (error_lawful elE) i a w o v sp)| |done].
    intros _ w' [Ho' Ht']. cbn. repeat wstep. by split.
Qed.

Lemma emplace_error_rebinds : rebinds inr (Expected.emplace_error elT elE no_exceptions hook).
Proof.
  intros i a cs w c v sp Hc Hw Hi Hsp Ha. pose proof (Programs.shows_lookup _ _ _ _ _ Hw Hi) as Ho.
  unfold Expected.emplace_error. destruct c as [o|o]; cbn [box] in *; do 4 wstep;
    [rewrite bool_decide_eq_true_2 by done|rewrite bool_decide_eq_false_2 by done]; apply wp_bind.
  - eapply wp_mono; [by apply (reinit_wp no_exceptions hook quiet vslot eslot (value_lawful elT) i a w o v sp)| |done].
    intros _ w' [Ho' Ht']. cbn. repeat wstep. by split.
  - eapply wp_mono; [by apply (replace_live_wp no_exceptions hook quiet eslot (error_lawful elE) i a w o v sp)| |done].
    intros _ w' [Ho' Ht']. cbn. repeat wstep. by split.
Qed.

(** An operation on one object, with an argument that a source gives. *)
Lemma single_ok {A} (inject : A -> T + E) m i (s : source A) cs w c v :
  rebinds inject m -> calm (throws w) -> shows cs w -> cs !! i = Some c -> resolve s cs = Some v ->
  wp (m i (argument elT elE s))
     (fun _ w' => shows (<[i := inject v]> cs) w' /\ throws w' `suffix_of` throws w)
     (fun w' => exists cs', (cs' = cs \/ exists c, cs !! i = Some c /\ cs' = <[i := torn_from elT elE c]> cs) /\
       shows cs' w' /\ throws w' `suffix_of` throws w) w.
Proof.
  intros Hm Hc Hw Hi Hs. pose proof (Programs.shows_lookup _ _ _ _ _ Hw Hi) as Ho.
  eapply wp_mono; [apply (Hm i _ cs w c v (fun _ os => os)); [done|done|done|done|by apply (argument_at _ cs)]| |].
  - intros ? w' He. by apply Programs.ends_shows.
  - intros w' (b & He). by eapply rolled_shows.
Qed.

(** The member of object [j], copied or moved into object [i]. *)
Lemma from_other_ok {A} (m : Expected.slot T E A) (inject : A -> T + E) f i j cs w c o :
  rebinds inject f -> lawful m -> calm (throws w) -> shows cs w -> i <> j ->
  cs !! i = Some c -> cs !! j = Some (inject o) -> box (inject o) = boxed m o ->
  inject (moved (Expected.element_of m) o) = moved_from elT elE (inject o) ->
  inject (torn (Expected.element_of m) o) = torn_from elT elE (inject o) ->
  (forall a, boxed m a = box (inject a)) ->
  wp (f i (Expected.copy_arg m j))
     (fun _ w' => shows (<[i := inject o]> cs) w' /\ throws w' `suffix_of` throws w)
     (fun w' => exists cs', thrown elT elE (CopyAssign i j) cs cs' /\ shows cs' w' /\ throws w' `suffix_of` throws w) w /\
  wp (f i (Expected.move_arg m j))
     (fun _ w' => shows (<[i := inject o]> (<[j := moved_from elT elE (inject o)]> cs)) w' /\ throws w' `suffix_of` throws w)
     (fun w' => exists cs', thrown elT elE (MoveAssign i j) cs cs' /\ shows cs' w' /\ throws w' `suffix_of` throws w) w.
Proof.
  intros Hf Hm Hc Hw Hne Hi Hj Hb Hmv Htn Hbox. pose proof (Programs.shows_lookup _ _ _ _ _ Hw Hi) as Oi.
  pose proof (Programs.shows_lookup _ _ _ _ _ Hw Hj) as Oj. rewrite Hb in Oj. split.
  - eapply wp_mono; [apply (Hf i _ cs w c o (fun _ os => os)); [done|done|done|done|by apply copy_arg_at]| |].
    + intros ? w' He. by apply Programs.ends_shows.
    + intros w' (b & He). cbn. by eapply rolled_shows.
  - eapply wp_mono; [eapply (Hf i _ cs w c o); [done|done|done| |by apply move_arg_at]| |].
    + intros b. cbn. by rewrite lookup_insert_ne.
    + cbn. intros ? w' He. rewrite Hbox, Hmv in He. by apply Programs.ends_shows_two.
    + cbn. intros w' (b & He). rewrite Hbox in He.
      set (d := if b then torn_from elT elE (inject o) else moved_from elT elE (inject o)).
      assert (inject (if b then torn (Expected.element_of m) o else moved (Expected.element_of m) o) = d) as Hd
        by (unfold d; by destruct b). rewrite Hd in He.
      assert (d = moved_from elT elE (inject o) \/ d = torn_from elT elE (inject o)) as Hd' by (unfold d; destruct b; auto).
      destruct He as [He|He]; destruct (Programs.ends_shows_two _ _ _ _ _ _ _ _ Hw He) as [Hs Ht]; eexists;
        (split; [exists c, (inject o); split; [done|]; split; [done|]; eexists _, d; split; [|split; [exact Hd'|reflexivity]]|by split]);
        auto.
Qed.

Lemma settled_ok cs w i c (Q : unit -> world T E -> Prop) X :
  shows cs w -> cs !! i = Some c -> Q tt w -> wp (Expected.require_settled i) Q X w.
Proof.
  intros Hw Hi HQ. eapply wp_require_settled; [by eapply Programs.shows_lookup| |done]. by destruct c.
Qed.

Lemma holds_value_ok cs w i c (Q : bool -> world T E -> Prop) X :
  shows cs w -> cs !! i = Some c -> Q (match c with inl _ => true | inr _ => false end) w ->
  wp (Expected.holds_value i) Q X w.
Proof. intros Hw Hi HQ. eapply wp_holds_value; [by eapply Programs.shows_lookup|]. by destruct c. Qed.

Lemma assign_ok i j cs w c d :
  calm (throws w) -> shows cs w -> cs !! i = Some c -> cs !! j = Some d ->
  outcome_ok (CopyAssign i j) cs w /\ outcome_ok (MoveAssign i j) cs w.
Proof.
  intros Hc Hw Hi Hj. split; unfold Programs.outcome_ok; cbn [exec after]; rewrite Hi, Hj; cbn [mbind option_bind];
    unfold Expected.copy_assign, Expected.move_assign;
    (apply wp_bind; eapply settled_ok; [exact Hw|exact Hi|]); (apply wp_bind; eapply settled_ok; [exact Hw|exact Hj|]);
    destruct (Nat.eqb_spec i j) as [->|Hne].
  - wstep. exists cs. simplify_eq. by rewrite insert_id.
  - wstep. eapply holds_value_ok; [exact Hw|exact Hj|]. destruct d as [o|o].
    + eapply wp_mono; [apply (from_other_ok vslot inl _ i j cs w c o assign_value_rebinds); done| |done]. cbn. eauto.
    + eapply wp_mono; [apply (from_other_ok eslot inr _ i j cs w c o assign_error_rebinds); done| |done]. cbn. eauto.
  - wstep. exists cs. split; [done|]. by split.
  - wstep. eapply holds_value_ok; [exact Hw|exact Hj|]. destruct d as [o|o].
    + eapply wp_mono; [apply (from_other_ok vslot inl _ i j cs w c o assign_value_rebinds); done| |done]. cbn. eauto.
    + eapply wp_mono; [apply (from_other_ok eslot inr _ i j cs w c o assign_error_rebinds); done| |done]. cbn. eauto.
Qed.

Lemma swap_ok i j cs w c d :
  nothrow_move elT || nothrow_move elE = true ->
  shows cs w -> cs !! i = Some c -> cs !! j = Some d -> outcome_ok (Swap i j) cs w.
Proof.
  intros Hn Hw Hi Hj. unfold Programs.outcome_ok. cbn [exec after]. rewrite Hi, Hj. cbn [mbind option_bind].
  pose proof (Programs.shows_lookup _ _ _ _ _ Hw Hi) as Oi. pose proof (Programs.shows_lookup _ _ _ _ _ Hw Hj) as Oj.
  assert (forall c' d' w', same_side c c' -> same_side d d' ->
    ends w (<[i := box c']> (<[j := box d']> (objects w))) w' ->
    exists cs', thrown elT elE (Swap i j) cs cs' /\ shows cs' w' /\ throws w' `suffix_of` throws w) as Hthrown.
  { intros c' d' w' Hc' Hd' He. eexists. split; [exists c, d; split; [done|]; split; [done|]; by exists c', d'|].
    by apply Programs.ends_shows_two. }
  assert (forall w', ends w (<[i := box d]> (<[j := box c]> (objects w))) w' ->
    exists cs', Some (<[i := d]> (<[j := c]> cs)) = Some cs' /\ shows cs' w' /\ throws w' `suffix_of` throws w) as Hret.
  { intros w' He. eexists. split; [done|]. by apply Programs.ends_shows_two. }
  unfold Expected.swap. do 2 (apply wp_bind; eapply settled_ok; [exact Hw|done|]).
  do 2 (apply wp_bind; eapply holds_value_ok; [exact Hw|done|]).
  destruct c as [a|a], d as [b|b]; cbn [andb negb].
  - eapply wp_mono; [by apply (std_swap_wp no_exceptions vslot (value_lawful elT) i j w a b)|by intros ? w'; apply Hret|].
    intros w' (a' & b' & He). by apply (Hthrown (inl a') (inl b')).
  - assert (i <> j) by congruence.
    eapply wp_mono; [by apply (swap_value_error_wp elT elE no_exceptions hook quiet i j w a b)|by intros ? w'; apply Hret|].
    intros w' (a' & b' & He). by apply (Hthrown (inl a') (inr b')).
  - assert (j <> i) by congruence.
    eapply wp_mono; [by apply (swap_value_error_wp elT elE no_exceptions hook quiet j i w b a)| |].
    + intros ? w' He. apply Hret. by rewrite insert_insert_ne.
    + intros w' (b' & a' & He). apply (Hthrown (inr a') (inl b')); [done|done|]. by rewrite insert_insert_ne.
  - eapply wp_mono; [by apply (std_swap_wp no_exceptions eslot (error_lawful elE) i j w a b)|by intros ? w'; apply Hret|].
    intros w' (a' & b' & He). by apply (Hthrown (inr a') (inr b')).
Qed.

Lemma exec_ok o cs w :
  nothrow_move elT || nothrow_move elE = true ->
  calm (throws w) -> shows cs w -> after elT elE o cs <> None -> outcome_ok o cs w.
Proof.
  intros Hn Hc Hw Hv. destruct o as [i s|i s|i s|i s|i j|i j|i j]; cbn [after] in Hv;
    (destruct (cs !! i) as [c|] eqn:Hi; [|done]); cbn in Hv.
  1-4: destruct (resolve s cs) as [v|] eqn:Hs; [|done]; unfold Programs.outcome_ok; cbn [exec after];
    rewrite Hi; cbn [mbind option_bind]; rewrite Hs; cbn [mbind option_bind].
  - eapply wp_mono; [by apply (single_ok _ _ i s cs w c v emplace_rebinds)|cbn; eauto|cbn; auto].
  - eapply wp_mono; [by apply (single_ok _ _ i s cs w c v emplace_error_rebinds)|cbn; eauto|cbn; auto].
  - eapply wp_mono; [by apply (single_ok _ _ i s cs w c v assign_value_rebinds)|cbn; eauto|cbn; auto].
  - eapply wp_mono; [by apply (single_ok _ _ i s cs w c v assign_error_rebinds)|cbn; eauto|cbn; auto].
  - destruct (cs !! j) as [d|] eqn:Hj; [|done]. by eapply assign_ok.
  - destruct (cs !! j) as [d|] eqn:Hj; [|done]. by eapply assign_ok.
  - destruct (cs !! j) as [d|] eqn:Hj; [|done]. by eapply swap_ok.
Qed.

Lemma unbox_box (c : T + E) : unbox (box c) = Some c.
Proof. by destruct c. Qed.

Lemma destroy_ok i cs w c :
  shows cs w -> cs !! i = Some c ->
  exists w', Expected.destroy elT elE hook false i w = Ret tt w' /\
    objects w' = <[i := mk_expected Raw St_switching]> (objects w).
Proof.
  intros Hw Hi. pose proof (Programs.shows_lookup _ _ _ _ _ Hw Hi) as Ho.
  assert (wp (Expected.destroy elT elE hook false i)
    (fun _ w' => objects w' = <[i := mk_expected Raw St_switching]> (objects w)) (fun _ => False) w) as Hwp.
  { unfold Expected.destroy. destruct c as [v|e]; cbn [box] in *; do 4 wstep; cbv zeta; do 2 wstep;
      [rewrite bool_decide_eq_true_2 by done|rewrite bool_decide_eq_false_2 by done]; wstep; by objs. }
  destruct (wp_no_throw _ _ _ _ Hwp (fun _ H => H)) as ([] & w' & E1 & E2). by exists w'.
Qed.

(** The body of the copy and of the move constructor of object [i] from object [j]
    builds the member there is, or throws. *)
Lemma construct_body {A} (m : Expected.slot T E A) (a : arg (world T E) A) i w x v sp :
  objects w !! i = Some (mk_expected Raw x) -> (forall b, sp b (objects w) !! i = Some (mk_expected Raw x)) ->
  arg_at a w v sp ->
  let b := next_throw no_exceptions (nothrow a) (throws w) in
  let w' := mk_world (sp b (objects w)) (script_after no_exceptions (nothrow a) (throws w)) in
  (let! v := World.make no_exceptions a in Expected.construct_member m i v) w =
    if b then Throw w' else Ret tt (upd i (mk_expected (Expected.wrap_member m v) x) w').
Proof.
  intros Hi Hsp Ha b w'. pose proof (make_next no_exceptions a w v sp Ha) as Em. cbn zeta in Em. fold b w' in Em.
  destruct b; [by rewrite (bind_Throw _ _ _ _ Em)|]. rewrite (bind_Ret _ _ _ _ _ Em).
  unfold Expected.construct_member, World.object, bind, w'. cbn. by rewrite Hsp.
Qed.

(** A constructor whose body throws destroys the base, in which nothing lives. *)
Lemma destroy_raw trivial i w st :
  objects w !! i = Some (mk_expected Raw st) -> st <> St_switching ->
  Expected.destroy elT elE hook trivial i w = if trivial then Ret tt w else Fault.
Proof.
  intros Hi Hst. unfold Expected.destroy. destruct trivial; [done|].
  unfold Expected.require_settled, Expected.settled, Expected.state, Expected.set_state, Expected.destroy_member,
    Expected.member_ref, World.object, World.set_object, modify, bind, ret, metl_harden.
  rewrite Hi. cbn. rewrite bool_decide_eq_false_2 by done. cbn. rewrite Hi. cbn. rewrite Hi. cbn.
  destruct st; case_bool_decide; try done; cbn; by rewrite lookup_insert_eq.
Qed.

Lemma construct_from_exact trivial va ea i j cs w d sp n :
  shows cs w -> i <> j -> cs !! j = Some d ->
  let w0 := upd i (mk_expected Raw (state_ (box d))) w in
  match d with inl v => arg_at va w0 v sp /\ nothrow va = n | inr e => arg_at ea w0 e sp /\ nothrow ea = n end ->
  (forall b, sp b (objects w0) !! i = Some (mk_expected Raw (state_ (box d)))) ->
  let b := next_throw no_exceptions n (throws w) in
  let w' := mk_world (sp b (objects w0)) (script_after no_exceptions n (throws w)) in
  Expected.construct_from elT elE no_exceptions hook trivial va ea i j w =
    if b then (if trivial then Throw w' else Fault) else Ret tt (upd i (box d) w').
Proof.
  intros Hw Hne Hj w0 Ha Hsp b w'. pose proof (Programs.shows_lookup _ _ _ _ _ Hw Hj) as Oj.
  assert (objects w0 !! i = Some (mk_expected Raw (state_ (box d)))) as Hi by apply lookup_insert_eq.
  assert (objects w0 !! j = Some (box d)) as Hj0 by (cbn; by rewrite lookup_insert_ne).
  unfold Expected.construct_from.
  assert (Expected.state j w = Ret (state_ (box d)) w) as Es by (unfold Expected.state, World.object, bind; by rewrite Oj).
  rewrite (bind_Ret _ _ _ _ _ Es). change (Expected.members i Raw (state_ (box d))) with
    (modify (S := world T E) (upd i (mk_expected Raw (state_ (box d))))). mstep. fold w0. unfold catching.
  assert (Expected.require_settled j w0 = Ret tt w0) as Er.
  { unfold Expected.require_settled, Expected.settled, Expected.state, World.object, bind. rewrite Hj0. by destruct d. }
  rewrite (bind_Ret _ _ _ _ _ Er).
  assert (Expected.holds_value i w0 = Ret (bool_decide (state_ (box d) = St_value)) w0) as Eh.
  { unfold Expected.holds_value, Expected.state, World.object, bind. by rewrite Hi. }
  rewrite (bind_Ret _ _ _ _ _ Eh).
  assert (b = true -> (bind (Expected.destroy elT elE hook trivial i) (fun _ => throw) w' : outcome (world T E) unit) =
    if trivial then Throw w' else Fault) as Hd.
  { intros Hb. unfold bind. rewrite (destroy_raw trivial i w' (state_ (box d))); [by destruct trivial|apply Hsp|by destruct d]. }
  destruct d as [v|e]; cbn [box state_] in *; destruct Ha as [Ha <-].
  - rewrite bool_decide_eq_true_2 by done.
    pose proof (construct_body (Expected.value_slot elT) va i w0 St_value v sp Hi Hsp Ha) as Eb. cbn zeta in Eb.
    change (throws w0) with (throws w) in Eb. fold b in Eb. fold w' in Eb. unfold Expected.construct_value. rewrite Eb. destruct b; [exact (Hd eq_refl)|done].
  - rewrite bool_decide_eq_false_2 by done.
    pose proof (construct_body (Expected.error_slot elE) ea i w0 St_error e sp Hi Hsp Ha) as Eb. cbn zeta in Eb.
    change (throws w0) with (throws w) in Eb. fold b in Eb. fold w' in Eb. unfold Expected.construct_error. rewrite Eb. destruct b; [exact (Hd eq_refl)|done].
Qed.
End spec_facts.

(** ** Destructors that reach back *)

Section hook_facts.
  Import ExpectedSpec ExpectedRun.
  Context {T E : Type} (elT : element T) (elE : element E) (no_exceptions : bool).
  Implicit Types (w : world T E).

Definition switching i w : Prop := exists c, objects w !! i = Some (mk_expected c St_switching).

Lemma switching_upd i j c w : switching i w -> switching i (upd j (mk_expected c St_switching) w).
Proof.
  intros (c' & Hi). unfold switching. cbn. destruct (decide (i = j)) as [->|]; [eexists; apply lookup_insert_eq|].
  rewrite lookup_insert_ne by done. by eexists.
Qed.

(** Two destructors that cannot be told apart while the object is switching, and
    that leave it alone or stop the program. *)
Definition alike (h1 h2 : nat -> M (world T E) unit) : Prop :=
  forall i w, switching i w -> h1 i w = h2 i w /\ (h1 i w = Ret tt w \/ h1 i w = Trap).

Context (h1 h2 : nat -> M (world T E) unit) (Hh : alike h1 h2).

(** A step that keeps objects switching which are. *)
Definition keeps {A} (m : M (world T E) A) w : Prop :=
  forall a w', m w = Ret a w' -> forall i, switching i w -> switching i w'.

Lemma destroy_alike {A} (m : Expected.slot T E A) i w :
  switching i w -> Expected.destroy_member h1 m i w = Expected.destroy_member h2 m i w.
Proof.
  intros Hi. unfold Expected.destroy_member. apply bind_ext. intros a w' Ea.
  assert (w' = w) as ->.
  { unfold Expected.member_ref, World.object, bind, ret in Ea. destruct (objects w !! i) as [x|]; [|done].
    by destruct (Expected.unwrap_member m (storage_ x)); simplify_eq/=. }
  unfold bind. by rewrite (proj1 (Hh i w Hi)).
Qed.

Lemma destroy_keeps {A} (m : Expected.slot T E A) i w : switching i w -> keeps (Expected.destroy_member h1 m i) w.
Proof.
  intros Hi a w' Ea j Hj. unfold Expected.destroy_member, Expected.member_ref, World.object, bind, ret in Ea.
  destruct Hi as (c & Hc). rewrite Hc in Ea. cbn in Ea.
  destruct (Expected.unwrap_member m c) eqn:Eu; [|done]. cbn in Ea.
  destruct (Hh i w ltac:(by eexists)) as [_ [Er|Er]]; rewrite Er in Ea; [|done].
  rewrite Hc in Ea. cbn in Ea. rewrite Eu in Ea. cbn in Ea. rewrite Hc in Ea. cbn in Ea.
  injection Ea as _ <-. by apply (switching_upd j i).
Qed.

Lemma set_switching i w w' a : Expected.set_state i St_switching w = Ret a w' ->
  switching i w' /\ forall j, switching j w -> switching j w'.
Proof.
  unfold Expected.set_state, World.object, bind. destruct (objects w !! i) as [x|] eqn:Hi; [|done]. intros [= <- <-].
  split; [eexists; cbn; apply lookup_insert_eq|]. intros j Hj. by apply switching_upd.
Qed.

(** The three statements that end a member. *)
Lemma switch_destroy_alike {A} (m : Expected.slot T E A) i (k : M (world T E) unit) w :
  (Expected.set_state i St_switching ;;; Expected.destroy_member h1 m i ;;; k) w =
  (Expected.set_state i St_switching ;;; Expected.destroy_member h2 m i ;;; k) w.
Proof.
  apply bind_ext. intros a w' Ea. destruct (set_switching _ _ _ _ Ea) as [Hi _].
  unfold bind. by rewrite (destroy_alike m i w' Hi).
Qed.

Lemma replace_live_alike {A} (m : Expected.slot T E A) i a w :
  Expected.replace_live no_exceptions h1 m i a w = Expected.replace_live no_exceptions h2 m i a w.
Proof.
  unfold Expected.replace_live. destruct (negb _); [apply switch_destroy_alike|]. destruct (_ || _).
  - apply bind_ext. intros incoming w' _. apply switch_destroy_alike.
  - apply bind_ext. intros incoming w' _. apply bind_ext. intros backup w'' _. apply switch_destroy_alike.
Qed.

Lemma commit_alike {A B} (old : Expected.slot T E A) (new : Expected.slot T E B) i b w :
  Expected.commit no_exceptions h1 old new i b w = Expected.commit no_exceptions h2 old new i b w.
Proof.
  unfold Expected.commit. destruct (_ || _); [apply switch_destroy_alike|].
  apply bind_ext. intros backup w' _. apply switch_destroy_alike.
Qed.

Lemma reinit_alike {A B} (old : Expected.slot T E A) (new : Expected.slot T E B) i a w :
  Expected.reinit no_exceptions h1 old new i a w = Expected.reinit no_exceptions h2 old new i a w.
Proof.
  unfold Expected.reinit. apply bind_alike. destruct (movable _).
  - apply bind_ext. intros incoming w' _. apply commit_alike.
  - destruct (_ || _); [apply switch_destroy_alike|]. apply bind_ext. intros backup w' _. apply switch_destroy_alike.
Qed.

(** *** The steps of a swap between a value and an error *)

Lemma put_keeps {A} (m : Expected.slot T E A) i (v : A) w : keeps (Expected.put_member m i v) w.
Proof.
  intros a w' Ea j (c & Hj). unfold Expected.put_member, World.object, bind in Ea.
  destruct (objects w !! i) as [x|] eqn:Hi; [|done]. destruct (Expected.unwrap_member m (storage_ x)); [|done].
  injection Ea as _ <-. destruct (decide (j = i)) as [->|Hne].
  - rewrite Hj in Hi. injection Hi as <-. eexists. apply lookup_insert_eq.
  - exists c. cbn. by rewrite lookup_insert_ne.
Qed.

Lemma construct_keeps {A} (m : Expected.slot T E A) i (v : A) w : keeps (Expected.construct_member m i v) w.
Proof.
  intros a w' Ea j (c & Hj). unfold Expected.construct_member, World.object, bind in Ea.
  destruct (objects w !! i) as [x|] eqn:Hi; [|done]. destruct (storage_ x); try done.
  injection Ea as _ <-. destruct (decide (j = i)) as [->|Hne].
  - rewrite Hj in Hi. injection Hi as <-. eexists. apply lookup_insert_eq.
  - exists c. cbn. by rewrite lookup_insert_ne.
Qed.

Lemma bind_keeps {A B} (m : M (world T E) A) (k : A -> M (world T E) B) w :
  keeps m w -> (forall a w', m w = Ret a w' -> keeps (k a) w') -> keeps (bind m k) w.
Proof.
  intros Hm Hk b w' Eb i Hi. unfold bind in Eb. destruct (m w) as [a w1|w1| | |] eqn:E1; try done.
  by apply (Hk a w1 eq_refl b w' Eb), (Hm a w1).
Qed.

Lemma catching_keeps {A} (m : M (world T E) A) handler w : keeps m w -> keeps (catching m handler) w.
Proof.
  intros Hm a w' Ea. unfold catching in Ea. destruct (m w) as [b w1|w1| | |] eqn:E1; try done.
  - simplify_eq. by apply (Hm a).
  - unfold bind, throw in Ea. by destruct (handler w1).
Qed.

Lemma move_keeps {A} (m : Expected.slot T E A) i w : keeps (Expected.move_member no_exceptions m i) w.
Proof.
  unfold Expected.move_member. apply bind_keeps.
  { intros a w' Ea j Hj. unfold Expected.member_ref, World.object, bind, ret in Ea.
    destruct (objects w !! i) as [x|]; [|done]. by destruct (Expected.unwrap_member m (storage_ x)); simplify_eq/=. }
  intros v w' _. apply bind_keeps.
  { intros b w'' Eb j Hj. rewrite may_throw_next in Eb. by simplify_eq. }
  intros b w'' _. apply bind_keeps; [apply put_keeps|]. intros _ w3 _ a w4 Ea j Hj. destruct b; [done|]. by injection Ea as _ <-.
Qed.

Lemma swap_value_error_alike i j w :
  Expected.swap_value_error elT elE no_exceptions h1 i j w = Expected.swap_value_error elT elE no_exceptions h2 i j w.
Proof.
  unfold Expected.swap_value_error. apply bind_ext. intros a1 w1 E1. apply bind_ext. intros a2 w2 E2. apply bind_alike.
  destruct (set_switching _ _ _ _ E1) as [Hi1 _]. destruct (set_switching _ _ _ _ E2) as [Hj Hk]. pose proof (Hk i Hi1) as Hi.
  assert (forall {A B} (m : Expected.slot T E A) (m' : Expected.slot T E B) x y (build k : M (world T E) unit) w3,
    switching x w3 -> switching y w3 -> (forall w, keeps build w) ->
    (Expected.destroy_member h1 m x ;;; build ;;; Expected.destroy_member h1 m' y ;;; k) w3 =
    (Expected.destroy_member h2 m x ;;; build ;;; Expected.destroy_member h2 m' y ;;; k) w3) as Hboth.
  { intros A B m m' x y build k w3 Hx Hy Hb. transitivity ((Expected.destroy_member h1 m x ;;; build ;;; Expected.destroy_member h2 m' y ;;; k) w3).
    - apply bind_ext. intros a w4 E4. apply bind_ext. intros a' w5 E5. apply bind_alike, destroy_alike.
      apply (Hb w4 a' w5 E5), (destroy_keeps m x w3 Hx a w4 E4), Hy.
    - by apply bind_alike, destroy_alike. }
  destruct (nothrow_move elE); apply bind_ext; intros tmp w3 E3; pose proof (move_keeps _ _ _ _ _ E3) as Hk3;
    (apply Hboth; [by apply Hk3|by apply Hk3|]).
  - intros w4. assert (forall w, keeps (let! x := Expected.move_member no_exceptions (Expected.value_slot elT) i in
      Expected.construct_value elT j x) w) as Hb.
    { intros w5. apply bind_keeps; [apply move_keeps|]. intros x w6 _. apply construct_keeps. }
    destruct (_ || _); [apply Hb|]. apply catching_keeps, Hb.
  - intros w4. assert (forall w, keeps (let! x := Expected.move_member no_exceptions (Expected.error_slot elE) j in
      Expected.construct_error elE i x) w) as Hb.
    { intros w5. apply bind_keeps; [apply move_keeps|]. intros x w6 _. apply construct_keeps. }
    destruct no_exceptions; [apply Hb|]. apply catching_keeps, Hb.
Qed.

Lemma exec_alike o w : exec elT elE no_exceptions h1 o w = exec elT elE no_exceptions h2 o w.
Proof.
  assert (forall i a w, Expected.assign_value_or_rebind elT elE no_exceptions h1 i a w =
    Expected.assign_value_or_rebind elT elE no_exceptions h2 i a w) as Hav.
  { intros i a w0. apply bind_ext. intros _ w1 _. apply bind_ext. intros [] w2 _; [done|]. apply reinit_alike. }
  assert (forall i a w, Expected.assign_error_or_rebind elT elE no_exceptions h1 i a w =
    Expected.assign_error_or_rebind elT elE no_exceptions h2 i a w) as Hae.
  { intros i a w0. apply bind_ext. intros _ w1 _. apply bind_ext. intros [] w2 _; [|done]. apply reinit_alike. }
  destruct o as [i s|i s|i s|i s|i j|i j|i j]; cbn [exec].
  - apply bind_ext. intros _ w1 _. apply bind_ext. intros [] w2 _; apply bind_alike; [apply replace_live_alike|apply reinit_alike].
  - apply bind_ext. intros _ w1 _. apply bind_ext. intros [] w2 _; apply bind_alike; [apply reinit_alike|apply replace_live_alike].
  - apply Hav.
  - apply Hae.
  - do 2 (apply bind_ext; intros _ ? _). destruct (Nat.eqb i j); [done|].
    apply bind_ext. intros [] w' _; [apply Hav|apply Hae].
  - do 2 (apply bind_ext; intros _ ? _). destruct (Nat.eqb i j); [done|].
    apply bind_ext. intros [] w' _; [apply Hav|apply Hae].
  - do 2 (apply bind_ext; intros _ ? _). do 2 (apply bind_ext; intros [] ? _); try done; apply swap_value_error_alike.
Qed.

Lemma destroy_object_alike i w :
  Expected.destroy elT elE h1 false i w = Expected.destroy elT elE h2 false i w.
Proof.
  unfold Expected.destroy. apply bind_ext. intros _ w1 _. apply bind_ext. intros st w2 _. cbv zeta.
  apply bind_ext. intros a w3 E3. destruct (set_switching _ _ _ _ E3) as [Hi _].
  destruct (bool_decide _); by apply destroy_alike.
Qed.
End hook_facts.

(** ** Theorems *)

Import ExpectedSpec ExpectedRun.

(** C24. [expected] keeps exactly one live member, exceptions or not, as long as no two
    element operations throw in a row (a rollback whose own move throws is excluded:
    [expected_double_throw]).  It is assumed that both types can be moved, one of them
    without throwing, and that destructors of elements do not reach back
    ([expected_reentrancy] is about those that do).  Whatever the operations, each ends with the contents that the abstract objects have after it, or throws
    and leaves its objects with what they held or what an element's own throwing move
    made of that; arguments may refer into the objects that change; no member is
    destroyed twice, built over another or read when it is not there; and in the end
    every object can be destroyed. *)
Theorem expected_refines {T E : Type} (elT : element T) (elE : element E) (no_exceptions : bool)
    (hook : nat -> M (world T E) unit) (ops : list op) (cs : gmap nat (T + E)) (t : list bool) :
  (forall i w, hook i w = Ret tt w) ->
  movable elT = true -> movable elE = true -> nothrow_move elT || nothrow_move elE = true -> calm t ->
  exists rs cs' w',
    run elT elE no_exceptions hook ops (mk_world (box <$> cs) t) = Ret rs w' /\
    steps elT elE ops cs rs cs' /\ objects w' = box <$> cs' /\
    forall i c, cs' !! i = Some c ->
      exists w'', Expected.destroy elT elE hook false i w' = Ret tt w'' /\
        objects w'' = <[i := mk_expected Raw St_switching]> (objects w').
Proof.
  intros Hq HT HE Hn Ht.
  destruct (Programs.run_steps box unbox (after elT elE) (thrown elT elE) (exec elT elE no_exceptions hook) unbox_box
    calm calm_suffix (fun o cs w => exec_ok elT elE no_exceptions hook Hq HT HE o cs w Hn) ops cs (mk_world (box <$> cs) t) Ht eq_refl)
    as (rs & cs' & w' & Er & Hs & Hw). exists rs, cs', w'. split; [done|]. split; [done|]. split; [done|].
  intros i c Hi. by apply (destroy_ok elT elE hook Hq i cs' w' c).
Qed.

Lemma expected_refines_witness :
  let el := mk_element true false (fun _ => 0) (fun _ => 99) in
  let el' := mk_element true true (fun _ => 0) (fun _ => 99) in
  let ops := [AssignError 1 (OfValue 0 S); Emplace 0 (OfValue 0 S); Swap 0 1; MoveAssign 0 1] in
  let cs := {[0 := inl 5; 1 := inr 7]} : gmap nat (nat + nat) in
  calm [true; false; false; true; false; true] /\
  exists rs cs' w',
    run el el' false (fun _ => ret tt) ops (mk_world (box <$> cs) [true; false; false; true; false; true]) = Ret rs w' /\
    steps el el' ops cs rs cs' /\ objects w' = box <$> cs'.
Proof.
  intros el el' ops cs. assert (calm [true; false; false; true; false; true]) as Hc by (cbn; intuition discriminate).
  split; [exact Hc|].
  destruct (expected_refines el el' false (fun _ => ret tt) ops cs _ (fun _ _ => eq_refl) eq_refl eq_refl eq_refl Hc)
    as (rs & cs' & w' & H1 & H2 & H3 & _). by exists rs, cs', w'.
Defined.

(** C35. Copying and moving an [expected] into a new one.  When no element operation
    throws, the new object holds what the other one held.  When the element's copy
    or move throws, the exception gets out only if both types are trivially
    destructible: otherwise the base, whose constructor has returned, is destroyed,
    and its destructor destroys a member that was never built. *)
Theorem expected_construct_exact {T E : Type} (elT : element T) (elE : element E) (no_exceptions trivial : bool)
    (hook : nat -> M (world T E) unit) (cs : gmap nat (T + E)) (t : list bool) (i j : nat) (d : T + E) :
  i <> j -> cs !! j = Some d ->
  let raw := mk_expected Raw (state_ (box d)) in
  let n := match d with inl _ => nothrow_move elT | inr _ => nothrow_move elE end in
  let built b os t' : outcome (world T E) unit :=
    if b : bool then (if trivial then Throw (mk_world (<[i := raw]> os) t') else Fault)
    else Ret tt (mk_world (<[i := box d]> os) t') in
  Expected.copy_construct elT elE no_exceptions hook trivial i j (mk_world (box <$> cs) t) =
    built (next_throw no_exceptions false t) (box <$> cs) (script_after no_exceptions false t) /\
  Expected.move_construct elT elE no_exceptions hook trivial i j (mk_world (box <$> cs) t) =
    built (next_throw no_exceptions n t)
      (<[j := box (if next_throw no_exceptions n t then torn_from elT elE d else moved_from elT elE d)]> (box <$> cs))
      (script_after no_exceptions n t).
Proof.
  intros Hne Hj raw n built. set (w := mk_world (box <$> cs) t).
  assert (objects (upd i raw w) !! j = Some (box d)) as Hj0 by (cbn; rewrite lookup_insert_ne, lookup_fmap, Hj by done; done).
  split; unfold Expected.copy_construct, Expected.move_construct.
  - rewrite (construct_from_exact elT elE no_exceptions hook trivial _ _ i j cs w d (fun _ os => os) false eq_refl Hne Hj);
      cycle 1.
    { destruct d as [v|e]; (split; [|done]).
      - exact (copy_arg_at (Expected.value_slot elT) (value_lawful elT) j (upd i raw w) v Hj0).
      - exact (copy_arg_at (Expected.error_slot elE) (error_lawful elE) j (upd i raw w) e Hj0). }
    { intros b. apply lookup_insert_eq. }
    unfold built. destruct (next_throw _ _ _); [done|]. cbn. by rewrite insert_insert_eq.
  - rewrite (construct_from_exact elT elE no_exceptions hook trivial _ _ i j cs w d
      (fun b os => <[j := box (if b then torn_from elT elE d else moved_from elT elE d)]> os) n eq_refl Hne Hj); cycle 1.
    { unfold n. destruct d as [v|e]; (split; [|done]); [pose proof (move_arg_at (Expected.value_slot elT) (value_lawful elT) j (upd i raw w) v Hj0) as [Hl Hs]
        |pose proof (move_arg_at (Expected.error_slot elE) (error_lawful elE) j (upd i raw w) e Hj0) as [Hl Hs]];
        (split; [done|]); intros b w' Hw'; rewrite (Hs b w' Hw'); by destruct b. }
    { intros b. cbn. rewrite lookup_insert_ne by done. apply lookup_insert_eq. }
    unfold built. destruct (next_throw _ _ _); [destruct trivial; [|done]|]; cbn; do 2 f_equal; maps i j.
Qed.

Lemma expected_construct_exact_witness :
  let el := mk_element true false (fun _ => 0) (fun _ => 99) in
  let cs := {[0 := inl 5]} : gmap nat (nat + nat) in
  1 <> 0 /\ cs !! 0 = Some (inl 5) /\
  Expected.copy_construct el el false (fun _ => ret tt) false 1 0 (mk_world (box <$> cs) [true]) = Fault.
Proof.
  intros el cs. assert (1 <> 0) as Hne by done. assert (cs !! 0 = Some (inl 5)) as Hj by reflexivity.
  split; [exact Hne|]. split; [exact Hj|].
  destruct (expected_construct_exact el el false false (fun _ => ret tt) cs [true] 1 0 (inl 5) Hne Hj) as [H _]. exact H.
Defined.

Ltac nstep :=
  first [ match goal with |- wp (World.may_throw _ _) _ _ _ => apply wp_may_next end | wstep ];
  cbn [throws objects upd next_throw script_after negb orb andb list.head list.tail default from_option id spend look nothrow].

(** Two throws in a row defeat the rollback.  When the move of the new value
    throws and the move of the backup does too, [emplace] throws and leaves an object
    that holds neither member and still reads as switching, so that destroying it
    stops the program. *)
Theorem expected_double_throw {T E : Type} (elT : element T) (elE : element E)
    (hook : nat -> M (world T E) unit) (o v : T) (i : nat) (t : list bool) :
  (forall i w, hook i w = Ret tt w) -> movable elT = true -> nothrow_move elT = false ->
  let left_over := mk_world {[i := mk_expected Raw St_switching]} t : world T E in
  exec elT elE false hook (Emplace i (Given v)) (mk_world (box <$> {[i := inl o]}) (false :: false :: true :: true :: t)) =
    Throw left_over /\
  Expected.destroy elT elE hook false i left_over = Trap.
Proof.
  intros Hq Hm Hn left_over. split.
  - assert (wp (exec elT elE false hook (Emplace i (Given v))) (fun _ _ => False) (fun w => w = left_over)
      (mk_world (box <$> {[i := inl o]}) (false :: false :: true :: true :: t))) as Hwp.
    { cbn [exec]. unfold Expected.emplace, Expected.replace_live, World.make, argument. cbn [Expected.element_of Expected.value_slot].
      rewrite map_fmap_singleton, Hm, Hn, <- insert_empty. cbn [negb orb box argument].
      do 4 nstep. rewrite bool_decide_eq_true_2 by done. repeat (nstep; cbn [Expected.element_of Expected.value_slot]; rewrite ?Hn).
      unfold left_over. by rewrite !insert_insert_eq, insert_empty. }
    unfold wp in Hwp. destruct (exec _ _ _ _ _ _); try done. by subst.
  - unfold Expected.destroy, Expected.require_settled, Expected.settled, Expected.state, World.object, bind.
    cbn. by rewrite lookup_singleton_eq.
Qed.

Lemma expected_double_throw_witness :
  let el := mk_element true false (fun _ => 0) (fun _ => 99) in
  let w := mk_world {[0 := mk_expected Raw St_switching]} [] : world nat nat in
  exec el el false (fun _ => ret tt) (Emplace 0 (Given 6)) (mk_world (box <$> {[0 := inl 5]}) [false; false; true; true]) = Throw w /\
  Expected.destroy el el (fun _ => ret tt) false 0 w = Trap.
Proof. intros el w. exact (expected_double_throw el el (fun _ => ret tt) 5 6 0 [] (fun _ _ => eq_refl) eq_refl eq_refl). Defined.

(** What a member's destructor does to the object [i] that it is a member of: an
    operation that changes it, a copy or a move out of it into a new object, or its
    destruction. *)
Inductive touch (T E : Type) : Type :=
  | Change (o : op (T := T) (E := E)) | CopyOut (k : nat) | MoveOut (k : nat) | Destroy.
Arguments Change {T E} o.
Arguments CopyOut {T E} k.
Arguments MoveOut {T E} k.
Arguments Destroy {T E}.

Definition target {T E} (o : op (T := T) (E := E)) : nat :=
  match o with
  | Emplace i _ | EmplaceError i _ | AssignValue i _ | AssignError i _ => i
  | CopyAssign i _ | MoveAssign i _ | Swap i _ => i
  end.

Section reentrancy.
  Context {T E : Type} (elT : element T) (elE : element E) (no_exceptions : bool).
  Abbreviation quiet := (fun _ : nat => ret tt : M (world T E) unit).

(** The destructor of a member of [i] reaches back; it stops the program; it looks. *)
Definition reaches_back (i : nat) (t : touch T E) (k : nat) : M (world T E) unit :=
  if negb (Nat.eqb k i) then ret tt
  else match t with
       | Change o => exec elT elE no_exceptions quiet o
       | CopyOut j => Expected.copy_construct elT elE no_exceptions quiet false j i
       | MoveOut j => Expected.move_construct elT elE no_exceptions quiet false j i
       | Destroy => Expected.destroy elT elE quiet false i
       end.
Definition stops (i k : nat) : M (world T E) unit := if negb (Nat.eqb k i) then ret tt else trap.
Definition looks (k : nat) : M (world T E) unit :=
  let! b := Expected.holds_value k in if b then fault else ret tt.

Lemma unsettled_trap i (w : world T E) {A} (k : M (world T E) A) :
  switching i w -> (Expected.require_settled i ;;; k) w = Trap.
Proof.
  intros (c & Hi). apply bind_Trap.
  unfold Expected.require_settled, Expected.settled, Expected.state, World.object, bind. by rewrite Hi.
Qed.

Lemma construct_unsettled va ea (i j : nat) (w : world T E) :
  switching i w -> Expected.construct_from elT elE no_exceptions quiet false va ea j i w = Trap.
Proof.
  intros Hs. pose proof Hs as (c & Hi). unfold Expected.construct_from.
  assert (Expected.state i w = Ret St_switching w) as Es by (unfold Expected.state, World.object, bind; by rewrite Hi).
  rewrite (bind_Ret _ _ _ _ _ Es). change (Expected.members j Raw St_switching) with
    (modify (S := world T E) (upd j (mk_expected Raw St_switching))). mstep. unfold catching.
  by rewrite (unsettled_trap i) by (by apply switching_upd).
Qed.

Lemma reaches_back_traps i t (w : world T E) :
  (forall o, t = Change o -> target o = i) -> switching i w -> reaches_back i t i w = Trap.
Proof.
  intros Ht Hs. unfold reaches_back. rewrite Nat.eqb_refl. cbn [negb]. destruct t as [o|k|k|].
  - specialize (Ht o eq_refl).
    destruct o; cbn in Ht |- *; subst; by apply unsettled_trap.
  - by apply construct_unsettled.
  - by apply construct_unsettled.
  - by apply unsettled_trap.
Qed.

Lemma reaches_back_alike i t :
  (forall o, t = Change o -> target o = i) -> alike (reaches_back i t) (stops i).
Proof.
  intros Ht k w Hs. destruct (decide (k = i)) as [->|Hne].
  - rewrite reaches_back_traps by done. unfold stops. rewrite Nat.eqb_refl. by split; [|right].
  - unfold reaches_back, stops. rewrite (proj2 (Nat.eqb_neq _ _) Hne). by split; [|left].
Qed.

Lemma looks_alike : alike looks quiet.
Proof.
  intros k w (c & Hk). unfold looks, Expected.holds_value, Expected.state, World.object, bind. rewrite Hk. cbn. by split; [|left].
Qed.
End reentrancy.

(** Destructors that reach back into their [expected] are caught.  While a member
    is destroyed, in any operation from any state, its object holds no value as
    [has_value()] has it, so a destructor that only looks changes nothing; and one that
    changes the object, copies it, moves from it or destroys it behaves as if it
    stopped the program: nothing is destroyed twice. *)
Theorem expected_reentrancy {T E : Type} (elT : element T) (elE : element E) (no_exceptions : bool)
    (i : nat) (t : touch T E) (o : op) (w : world T E) :
  (forall o', t = Change o' -> target o' = i) ->
  exec elT elE no_exceptions (reaches_back elT elE no_exceptions i t) o w = exec elT elE no_exceptions (stops i) o w /\
  (forall k, Expected.destroy elT elE (reaches_back elT elE no_exceptions i t) false k w =
             Expected.destroy elT elE (stops i) false k w) /\
  exec elT elE no_exceptions looks o w = exec elT elE no_exceptions (fun _ => ret tt) o w /\
  (forall k, Expected.destroy elT elE looks false k w = Expected.destroy elT elE (fun _ => ret tt) false k w).
Proof.
  intros Ht. pose proof (reaches_back_alike elT elE no_exceptions i t Ht) as Ha. pose proof (looks_alike (T := T) (E := E)) as Hl.
  split; [by apply exec_alike|]. split; [intros k; by apply destroy_object_alike|].
  split; [by apply exec_alike|]. intros k. by apply destroy_object_alike.
Qed.

Lemma expected_reentrancy_witness :
  let el := mk_element true true (fun _ => 0) (fun _ => 99) in
  let w := mk_world (box <$> {[0 := inl 5]}) [] : world nat nat in
  exec el el false (reaches_back el el false 0 (Change (Emplace 0 (Given 3)))) (AssignError 0 (Given 2)) w = Trap.
Proof.
  intros el w.
  assert (forall o', Change (Emplace 0 (Given 3)) = Change o' -> target (T := nat) (E := nat) o' = 0) as Ht
    by (intros o' [= <-]; reflexivity).
  rewrite (proj1 (expected_reentrancy el el false 0 _ (AssignError 0 (Given 2)) w Ht)). vm_compute. reflexivity.
Defined.

(** *** Observers *)

Section observer_facts.
  Context {T E : Type} (elT : element T) (elE : element E) (no_exceptions : bool) (h : hardening).
  Implicit Types (w : world T E) (cs : gmap nat (T + E)).

Lemma holds_exact i c cs w :
  shows cs w -> cs !! i = Some c ->
  Expected.holds_value i w = Ret (match c with inl _ => true | inr _ => false end) w /\
  Expected.holds_error i w = Ret (match c with inl _ => false | inr _ => true end) w.
Proof.
  intros Hw Hi. pose proof (Programs.shows_lookup _ _ _ _ _ Hw Hi) as Ho.
  unfold Expected.holds_value, Expected.holds_error, Expected.state, World.object, bind. rewrite Ho. by destruct c.
Qed.

Lemma member_exact {A} (m : Expected.slot T E A) i o w :
  lawful m -> objects w !! i = Some (boxed m o) -> Expected.member_ref m i w = Ret o w.
Proof. intros Hm Hi. unfold Expected.member_ref, World.object, bind. rewrite Hi. cbn. by rewrite Hm. Qed.

(** What is left of an object that was taken as an lvalue or an rvalue. *)
Definition taken (rvalue : bool) (i : nat) (c : T + E) cs : world T E :=
  mk_world (if rvalue then <[i := box (moved_from elT elE c)]> (box <$> cs) else box <$> cs) [].

Lemma take_value i v cs rvalue :
  cs !! i = Some (inl v) ->
  World.make no_exceptions (Expected.value_arg elT rvalue i) (mk_world (box <$> cs) []) = Ret v (taken rvalue i (inl v) cs).
Proof.
  intros Hi. set (w := mk_world (box <$> cs) []).
  assert (objects w !! i = Some (boxed (Expected.value_slot elT) v)) as Ho by (cbn; by rewrite lookup_fmap, Hi).
  destruct rvalue; cbn [Expected.value_arg].
  - by rewrite (make_exact no_exceptions _ w v _ (move_arg_at _ (value_lawful elT) i w v Ho) eq_refl).
  - by rewrite (make_exact no_exceptions _ w v _ (copy_arg_at _ (value_lawful elT) i w v Ho) eq_refl).
Qed.

Lemma take_error i e cs rvalue :
  cs !! i = Some (inr e) ->
  World.make no_exceptions (Expected.error_arg elE rvalue i) (mk_world (box <$> cs) []) = Ret e (taken rvalue i (inr e) cs).
Proof.
  intros Hi. set (w := mk_world (box <$> cs) []).
  assert (objects w !! i = Some (boxed (Expected.error_slot elE) e)) as Ho by (cbn; by rewrite lookup_fmap, Hi).
  destruct rvalue; cbn [Expected.error_arg].
  - by rewrite (make_exact no_exceptions _ w e _ (move_arg_at _ (error_lawful elE) i w e Ho) eq_refl).
  - by rewrite (make_exact no_exceptions _ w e _ (copy_arg_at _ (error_lawful elE) i w e Ho) eq_refl).
Qed.

Lemma access_exact i c cs :
  cs !! i = Some c ->
  let w := mk_world (box <$> cs) [] in
  Expected.value elT h i w = match c with inl v => Ret v w | inr _ => if decide (h = HARDENING_NONE) then Fault else Trap end /\
  Expected.error elE h i w = match c with inr e => Ret e w | inl _ => if decide (h = HARDENING_NONE) then Fault else Trap end.
Proof.
  intros Hi w. assert (shows cs w) as Hw by done. destruct (holds_exact i c cs w Hw Hi) as [Ev Ee].
  pose proof (Programs.shows_lookup _ _ _ _ _ Hw Hi) as Ho. unfold Expected.value, Expected.error.
  rewrite (bind_Ret _ _ _ _ _ Ev), (bind_Ret _ _ _ _ _ Ee).
  assert (forall A (m : Expected.slot T E A), Expected.unwrap_member m (storage_ (box c)) = None ->
    (metl_assert h false ;;; Expected.member_ref m i) w = if decide (h = HARDENING_NONE) then Fault else Trap) as Hwrong.
  { intros A m Hm. destruct (decide (h = HARDENING_NONE)) as [->|Hh].
    - mstep. unfold Expected.member_ref, World.object, bind. by rewrite Ho, Hm.
    - by rewrite (bind_Trap _ _ _ (metl_assert_false h w Hh)). }
  destruct c as [v|e]; (split; [|]).
  - mstep. by apply (member_exact (Expected.value_slot elT)).
  - by apply Hwrong.
  - by apply Hwrong.
  - mstep. by apply (member_exact (Expected.error_slot elE)).
Qed.
End observer_facts.

(** The observers and the monadic operations of [expected] are those of the type
    of values and errors, at every hardening level.  Access to the member that is not
    there stops the program when checks are on; [and_then] and [transform] call
    their callable on a value only and pass an error on, [or_else] and
    [transform_error] the other way round; a member is copied out of an lvalue, which
    stays as it is, and moved out of an rvalue; and two objects are equal when they
    hold equal members of one kind. *)
Theorem expected_monadic {T E U G : Type} (elT : element T) (elE : element E) (no_exceptions : bool) (h : hardening)
    (eqT neT : T -> T -> bool) (eqE neE : E -> E -> bool) (cs : gmap nat (T + E)) (i j : nat) (c d : T + E) (rvalue : bool)
    (f : nat -> M (world T E) (expected U E)) (g : nat -> M (world T E) U)
    (f' : nat -> M (world T E) (expected T G)) (g' : nat -> M (world T E) G) (v0 : T) (e0 : E) :
  cs !! i = Some c -> cs !! j = Some d ->
  let w := mk_world (box <$> cs) [] in
  let w' := taken elT elE rvalue i c cs in
  let wrong {A} : outcome (world T E) A := if decide (h = HARDENING_NONE) then Fault else Trap in
  Expected.value elT h i w = match c with inl v => Ret v w | inr _ => wrong end /\
  Expected.error elE h i w = match c with inl _ => wrong | inr e => Ret e w end /\
  Expected.value_or elT no_exceptions rvalue i (World.local_arg v0) w =
    match c with inl v => Ret v w' | inr _ => Ret v0 w end /\
  Expected.error_or elE no_exceptions rvalue i (World.local_arg e0) w =
    match c with inl _ => Ret e0 w | inr e => Ret e w' end /\
  Expected.and_then elT elE no_exceptions h rvalue i f w =
    match c with inl _ => f i w | inr e => Ret (box (inr e)) w' end /\
  Expected.transform elT elE no_exceptions h rvalue i g w =
    match c with inl _ => (let! u := g i in ret (box (inl u))) w | inr e => Ret (box (inr e)) w' end /\
  Expected.or_else elT elE no_exceptions h rvalue i f' w =
    match c with inl v => Ret (box (inl v)) w' | inr _ => f' i w end /\
  Expected.transform_error elT elE no_exceptions h rvalue i g' w =
    match c with inl v => Ret (box (inl v)) w' | inr _ => (let! x := g' i in ret (box (inr x))) w end /\
  Expected.equal elT elE h eqT eqE i j w =
    Ret (match c, d with inl x, inl y => eqT x y | inr x, inr y => eqE x y | _, _ => false end) w /\
  Expected.not_equal elT elE h eqT eqE i j w =
    Ret (match c, d with inl x, inl y => negb (eqT x y) | inr x, inr y => negb (eqE x y) | _, _ => true end) w /\
  Expected.equal_value elT h eqT i v0 w = Ret (match c with inl x => eqT x v0 | inr _ => false end) w /\
  Expected.value_equal elT h eqT v0 i w = Ret (match c with inl x => eqT v0 x | inr _ => false end) w /\
  Expected.not_equal_value elT h neT i v0 w = Ret (match c with inl x => neT x v0 | inr _ => true end) w /\
  Expected.value_not_equal elT h neT v0 i w = Ret (match c with inl x => neT v0 x | inr _ => true end) w /\
  Expected.equal_unexpected elE h eqE i e0 w = Ret (match c with inr x => eqE x e0 | inl _ => false end) w /\
  Expected.unexpected_equal elE h eqE e0 i w = Ret (match c with inr x => eqE e0 x | inl _ => false end) w /\
  Expected.not_equal_unexpected elE h neE i e0 w = Ret (match c with inr x => neE x e0 | inl _ => true end) w /\
  Expected.unexpected_not_equal elE h neE e0 i w = Ret (match c with inr x => neE e0 x | inl _ => true end) w.
Proof.
  intros Hi Hj w w' wrong. assert (shows cs w) as Hw by done.
  destruct (holds_exact i c cs w Hw Hi) as [Ev Ee]. destruct (holds_exact j d cs w Hw Hj) as [Ev' Ee'].
  destruct (access_exact elT elE h i c cs Hi) as [Av Ae]. destruct (access_exact elT elE h j d cs Hj) as [Av' Ae'].
  fold w in Av, Ae, Av', Ae'.
  assert (forall {A} (x : A), World.make no_exceptions (World.local_arg x) w = Ret x w) as Hloc.
  { intros A x. by rewrite (make_exact no_exceptions _ w x _ (local_arg_at w x) eq_refl). }
  assert (forall e, World.move_local no_exceptions elE e w' = Ret e w') as Hmv.
  { intros e. by apply move_local_exact. }
  split; [done|]. split; [by destruct c|].
  unfold Expected.value_or, Expected.error_or, Expected.and_then, Expected.transform, Expected.or_else,
    Expected.transform_error, Expected.not_equal, Expected.equal_value, Expected.value_equal, Expected.not_equal_value,
    Expected.value_not_equal, Expected.equal_unexpected, Expected.unexpected_equal, Expected.not_equal_unexpected,
    Expected.unexpected_not_equal.
  assert (Expected.equal elT elE h eqT eqE i j w =
    Ret (match c, d with inl x, inl y => eqT x y | inr x, inr y => eqE x y | _, _ => false end) w) as Heq.
  { unfold Expected.equal. rewrite (bind_Ret _ _ _ _ _ Ev), (bind_Ret _ _ _ _ _ Ev'). destruct c, d; cbn [negb Bool.eqb]; try done.
    - by rewrite (bind_Ret _ _ _ _ _ Av), (bind_Ret _ _ _ _ _ Av').
    - by rewrite (bind_Ret _ _ _ _ _ Ae), (bind_Ret _ _ _ _ _ Ae'). }
  rewrite !(bind_Ret _ _ _ _ _ Ev), (bind_Ret _ _ _ _ _ Heq), (bind_Ret _ _ _ _ _ Ee).
  destruct c as [v|e].
  - pose proof (take_value elT elE no_exceptions i v cs rvalue Hi) as Htk. fold w w' in Htk.
    rewrite !(bind_Ret _ _ _ _ _ Av), !(bind_Ret _ _ _ _ _ Htk), Htk, Hloc.
    repeat (split; [done|]). cbn [negb]. rewrite !(bind_Ret _ _ _ _ _ Av).
    split; [by destruct d|]. by repeat split.
  - pose proof (take_error elT elE no_exceptions i e cs rvalue Hi) as Htk. fold w w' in Htk.
    pose proof (Programs.shows_lookup _ _ _ _ _ Hw Hi) as Ho.
    assert (Expected.member_ref (Expected.error_slot elE) i w = Ret e w) as Em by (by apply member_exact).
    rewrite !(bind_Ret _ _ _ _ _ Ee). rewrite !(bind_Ret _ _ _ _ _ (metl_assert_true h w)).
    rewrite !(bind_Ret _ _ _ _ _ Em), !(bind_Ret _ _ _ _ _ Htk), (bind_Ret _ _ _ _ _ (Hmv e)), Htk, Hloc.
    cbn [negb]. rewrite !(bind_Ret _ _ _ _ _ Ae). repeat (split; [done|]). split; [by destruct d|]. by repeat split.
Qed.

Lemma expected_monadic_witness :
  let el := mk_element true true (fun _ => 0) (fun _ => 99) in
  let cs := {[0 := inr 5; 1 := inl 3]} : gmap nat (nat + nat) in
  Expected.and_then el el false HARDENING_FAST true 0 (fun _ => ret (box (inl 1))) (mk_world (box <$> cs) []) =
    Ret (box (inr 5)) (mk_world (<[0 := box (inr 0)]> (box <$> cs)) []).
Proof.
  intros el cs. assert (cs !! 0 = Some (inr 5)) as H0 by reflexivity. assert (cs !! 1 = Some (inl 3)) as H1 by reflexivity.
  destruct (expected_monadic (U := nat) (G := nat) el el false HARDENING_FAST Nat.eqb Nat.eqb Nat.eqb Nat.eqb cs 0 1 _ _ true
    (fun _ => ret (box (inl 1))) (fun _ => ret 1) (fun _ => ret (box (inl 1))) (fun _ => ret 1) 0 0 H0 H1)
    as (_ & _ & _ & _ & H & _). exact H.
Defined.
