(* ===== verification/ExpectedVoidClaims.v ===== *)
(** * What [expected<void, E>] promises

    The abstract object is a success or an error: [None] or [Some e]. *)

From Stdlib Require Import ZArith Lia.
From stdpp Require Import base numbers list option gmap tactics.
From S2P Require Import Prelude World Expected ExpectedFacts.

Module VoidSpec.
Section spec.
  Context {E : Type} (elE : element E).
  Abbreviation contents := (gmap nat (option E)).

(** Where an argument comes from: elsewhere, or out of the error of an object. *)
Inductive source : Type := Given (e : E) | OfError (j : nat) (f : E -> E).

Inductive op : Type :=
  | Emplace (i : nat) | EmplaceError (i : nat) (s : source) | AssignError (i : nat) (s : source)
  | CopyAssign (i j : nat) | MoveAssign (i j : nat) | Swap (i j : nat).

Definition resolve (s : source) (cs : contents) : option E :=
  match s with
  | Given e => Some e
  | OfError j f => match cs !! j with Some (Some e) => Some (f e) | _ => None end
  end.

Definition moved_from (c : option E) : option E := moved elE <$> c.
Definition torn_from (c : option E) : option E := torn elE <$> c.
Definition same_side (c d : option E) : Prop := is_Some c <-> is_Some d.

(** What an operation that returns leaves. *)
Definition after (o : op) (cs : contents) : option contents :=
  match o with
  | Emplace i => c ← cs !! i; Some (<[i := None]> cs)
  | EmplaceError i s | AssignError i s => c ← cs !! i; e ← resolve s cs; Some (<[i := Some e]> cs)
  | CopyAssign i j => c ← cs !! i; d ← cs !! j; Some (<[i := d]> cs)
  | MoveAssign i j =>
      c ← cs !! i; d ← cs !! j; Some (if Nat.eqb i j then cs else <[i := d]> (<[j := moved_from d]> cs))
  | Swap i j => c ← cs !! i; d ← cs !! j; Some (<[i := d]> (<[j := c]> cs))
  end.

(** What an operation that throws may leave. *)
Definition thrown (o : op) (cs cs' : contents) : Prop :=
  match o with
  | Emplace _ => False
  | EmplaceError i _ | AssignError i _ | CopyAssign i _ =>
      cs' = cs \/ exists c, cs !! i = Some c /\ cs' = <[i := torn_from c]> cs
  | MoveAssign i j =>
      exists c d, cs !! i = Some c /\ cs !! j = Some d /\
      exists c', (c' = c \/ c' = torn_from c) /\ cs' = <[i := c']> (<[j := torn_from d]> cs)
  | Swap i j =>
      exists c d, cs !! i = Some c /\ cs !! j = Some d /\
      exists c' d', same_side c c' /\ same_side d d' /\ cs' = <[i := c']> (<[j := d']> cs)
  end.

(** A program that catches every exception: which operations returned. *)
Definition steps : list op -> contents -> list bool -> contents -> Prop := Programs.steps after thrown.
End spec.
Arguments source E : clear implicits.
Arguments op E : clear implicits.
End VoidSpec.

Module VoidRun.
Import VoidSpec.
Section run.
  Context {T E : Type} (elE : element E) (no_exceptions : bool) (hook : nat -> M (world T E) unit).
  Abbreviation W := (world T E).

Definition box (c : option E) : expected T E :=
  match c with None => mk_expected Raw St_value | Some e => mk_expected (Error e) St_error end.

Definition argument (s : source E) : arg W E :=
  mk_arg (fun w => match s with
    | Given e => Some e
    | OfError j f => f <$> Expected.member_of (Expected.error_slot elE) j w
    end) false (fun _ => ret tt).

Definition exec (o : op E) : M W unit :=
  match o with
  | Emplace i => ExpectedVoid.emplace elE hook i
  | EmplaceError i s => ExpectedVoid.emplace_error elE no_exceptions hook i (argument s)
  | AssignError i s => ExpectedVoid.assign_unexpected elE no_exceptions i (argument s)
  | CopyAssign i j => ExpectedVoid.copy_assign elE no_exceptions hook i j
  | MoveAssign i j => ExpectedVoid.move_assign elE no_exceptions hook i j
  | Swap i j => ExpectedVoid.swap elE no_exceptions hook i j
  end.

Definition unbox (x : expected T E) : option (option E) :=
  match x with
  | mk_expected Raw St_value => Some None
  | mk_expected (Error e) St_error => Some (Some e)
  | _ => None
  end.

Definition run : list (op E) -> M W (list bool) := Programs.run unbox (after elE) exec.
End run.
End VoidRun.

(** ** Facts *)

Section void_facts.
  Import VoidSpec VoidRun.
  Context {T E : Type} (elE : element E) (no_exceptions : bool) (hook : nat -> M (world T E) unit).
  Hypothesis quiet : forall i w, hook i w = Ret tt w.
  Hypothesis movE : movable elE = true.
  Implicit Types (cs : gmap nat (option E)) (w : world T E).
  Abbreviation eslot := (Expected.error_slot (T := T) elE).

  Abbreviation void_shows := (Programs.shows (box (T := T) (E := E))).
  Abbreviation void_ok := (Programs.outcome_ok box (after elE) (thrown elE) (exec elE no_exceptions hook)).

Lemma void_argument_at (s : source E) cs w e :
  void_shows cs w -> resolve s cs = Some e -> arg_at (argument elE s) w e (fun _ os => os).
Proof.
  intros Hw Hs. split; [|intros b w' <-; cbn; by destruct w'].
  destruct s as [e'|j f]; cbn in *; [done|]. unfold Expected.member_of. rewrite Hw, lookup_fmap.
  destruct (cs !! j) as [[u|]|]; cbn; by simplify_eq.
Qed.

Lemma drop_error_wp i e w :
  objects w !! i = Some (boxed eslot e) ->
  wp (ExpectedVoid.drop_error elE hook i) (fun _ => ends w (<[i := box None]> (objects w))) (fun _ => False) w.
Proof. intros Hi. unfold ExpectedVoid.drop_error. repeat wstep. split; [by objs|sfx]. Qed.

Lemma add_error_wp i (a : arg (world T E) E) w e sp :
  (forall b, sp b (objects w) !! i = Some (box None)) -> arg_at a w e sp ->
  wp (ExpectedVoid.add_error elE no_exceptions i a)
     (fun _ => ends w (<[i := box (Some e)]> (sp false (objects w)))) (ends w (sp true (objects w))) w.
Proof.
  intros Hsp Ha. pose proof (Hsp false) as Hsf. unfold ExpectedVoid.add_error, ExpectedVoid.construct_error.
  apply wp_bind. eapply wp_mono; [by apply wp_make| |done]. cbn beta. intros r w1 (-> & Ho & Ht).
  repeat wstep. split; [by objs|sfx].
Qed.

(** An error goes into an object, whatever it holds. *)
Lemma set_error_wp i (a : arg (world T E) E) w c e sp :
  objects w !! i = Some (box c) -> (forall b, sp b (objects w) !! i = Some (box c)) -> arg_at a w e sp ->
  wp (if match c with None => true | _ => false end then ExpectedVoid.add_error elE no_exceptions i a
      else Expected.assign_member no_exceptions eslot i a)
     (fun _ => ends w (<[i := box (Some e)]> (sp false (objects w))))
     (fun w' => ends w (<[i := box (torn_from elE c)]> (sp true (objects w))) w') w.
Proof.
  intros Hi Hsp Ha. destruct c as [o|].
  - by apply (assign_member_wp no_exceptions eslot (error_lawful elE) i a w o e sp); [|intros b; eexists; apply Hsp|].
  - eapply wp_mono; [by apply (add_error_wp i a w e sp)|done|]. intros w' [Ho Ht]. split; [|done].
    by rewrite Ho, insert_id.
Qed.

Lemma void_settled cs w i c (Q : unit -> world T E -> Prop) X :
  void_shows cs w -> cs !! i = Some c -> Q tt w -> wp (Expected.require_settled i) Q X w.
Proof. intros Hw Hi HQ. eapply wp_require_settled; [by eapply Programs.shows_lookup| |done]. by destruct c. Qed.

Lemma void_holds cs w i c (Q : bool -> world T E -> Prop) X :
  void_shows cs w -> cs !! i = Some c -> Q (match c with None => true | _ => false end) w ->
  wp (Expected.holds_value i) Q X w.
Proof. intros Hw Hi HQ. eapply wp_holds_value; [by eapply Programs.shows_lookup|]. by destruct c. Qed.

Lemma void_emplace_ok i cs w c : void_shows cs w -> cs !! i = Some c -> void_ok (Emplace i) cs w.
Proof.
  intros Hw Hi. pose proof (Programs.shows_lookup _ _ _ _ _ Hw Hi) as Ho. unfold Programs.outcome_ok. cbn [exec after]. rewrite Hi. cbn [mbind option_bind].
  unfold ExpectedVoid.emplace. apply wp_bind. eapply void_settled; [done..|]. apply wp_bind. eapply void_holds; [done..|].
  destruct c as [e|]; cbn [negb].
  - eapply wp_mono; [by apply (drop_error_wp i e)| |done]. cbn beta. intros ? w' He. eexists. split; [done|]. by apply Programs.ends_shows.
  - wstep. eexists. split; [done|]. rewrite insert_id by done. by split.
Qed.

Lemma void_assign_error_ok i s cs w c e :
  void_shows cs w -> cs !! i = Some c -> resolve s cs = Some e -> void_ok (AssignError i s) cs w.
Proof.
  intros Hw Hi Hs. pose proof (Programs.shows_lookup _ _ _ _ _ Hw Hi) as Ho. unfold Programs.outcome_ok. cbn [exec after]. rewrite Hi. cbn [mbind option_bind].
  rewrite Hs. cbn [mbind option_bind].
  unfold ExpectedVoid.assign_unexpected. apply wp_bind. eapply void_settled; [done..|]. apply wp_bind. eapply void_holds; [done..|].
  eapply wp_mono; [apply (set_error_wp i _ w c e (fun _ os => os)); [done|done|by apply (void_argument_at s cs)]| |].
  - cbn beta. intros ? w' He. eexists. split; [done|]. by apply Programs.ends_shows.
  - cbn beta. intros w' He. eexists. split; [right; by exists c|]. by apply Programs.ends_shows.
Qed.

Lemma void_emplace_error_ok i s cs w c e :
  calm (throws w) -> void_shows cs w -> cs !! i = Some c -> resolve s cs = Some e -> void_ok (EmplaceError i s) cs w.
Proof.
  intros Hc Hw Hi Hs. pose proof (Programs.shows_lookup _ _ _ _ _ Hw Hi) as Ho. unfold Programs.outcome_ok. cbn [exec after]. rewrite Hi. cbn [mbind option_bind].
  rewrite Hs. cbn [mbind option_bind].
  unfold ExpectedVoid.emplace_error. apply wp_bind. eapply void_settled; [done..|]. apply wp_bind. eapply void_holds; [done..|].
  pose proof (void_argument_at s cs w e Hw Hs) as Ha. apply wp_bind.
  assert (forall w', ends w (<[i := box (Some e)]> (objects w)) w' ->
    wp (Expected.member_ref eslot i ;;; ret tt) (fun _ w' => exists cs', Some (<[i := Some e]> cs) = Some cs' /\
      void_shows cs' w' /\ throws w' `suffix_of` throws w) (fun w' => exists cs', thrown elE (EmplaceError i s) cs cs' /\
      void_shows cs' w' /\ throws w' `suffix_of` throws w) w') as Hfin.
  { intros w' [Ho' Ht']. repeat wstep. eexists. split; [done|]. by apply Programs.ends_shows. }
  destruct c as [o|]; cbn beta iota.
  - eapply wp_mono; [by apply (replace_live_wp no_exceptions hook quiet eslot (error_lawful elE) i _ w o e (fun _ os => os))| |].
    + intros ? w' He. by apply Hfin.
    + intros w' (_ & [He|He]); [|eexists; split; [right; by exists (Some o)|]; by apply (Programs.ends_shows _ cs w w' i (torn_from elE (Some o)))].
      exists cs. split; [by left|]. pose proof (Programs.ends_shows _ cs w w' i (Some o) Hw He) as Hr. by rewrite insert_id in Hr.
  - eapply wp_mono; [by apply (add_error_wp i _ w e (fun _ os => os))| |].
    + intros ? w' He. by apply Hfin.
    + intros w' [Ho' Ht']. exists cs. split; [by left|]. split; [|done]. unfold Programs.shows. by rewrite Ho'.
Qed.

Lemma void_assign_ok i j cs w c d :
  void_shows cs w -> cs !! i = Some c -> cs !! j = Some d ->
  void_ok (CopyAssign i j) cs w /\ void_ok (MoveAssign i j) cs w.
Proof.
  intros Hw Hi Hj. pose proof (Programs.shows_lookup _ _ _ _ _ Hw Hi) as Oi. pose proof (Programs.shows_lookup _ _ _ _ _ Hw Hj) as Oj.
  split; unfold Programs.outcome_ok; cbn [exec after]; rewrite Hi, Hj; cbn [mbind option_bind];
    unfold ExpectedVoid.copy_assign, ExpectedVoid.move_assign, ExpectedVoid.assign_from;
    (apply wp_bind; eapply void_settled; [exact Hw|exact Hi|]); (apply wp_bind; eapply void_settled; [exact Hw|exact Hj|]);
    destruct (Nat.eqb_spec i j) as [->|Hne].
  - wstep. exists cs. simplify_eq. by rewrite insert_id.
  - apply wp_bind. eapply void_holds; [exact Hw|exact Hj|]. apply wp_bind. eapply void_holds; [exact Hw|exact Hi|].
    destruct d as [e|]; cbn beta iota.
    + eapply wp_mono; [apply (set_error_wp i _ w c e (fun _ os => os)); [done|done|by apply copy_arg_at]| |]; cbn beta.
      * intros ? w' He. eexists. split; [done|]. by apply Programs.ends_shows.
      * intros w' He. eexists. split; [right; by exists c|]. by apply Programs.ends_shows.
    + destruct c as [o|]; cbn [negb].
      * eapply wp_mono; [by apply (drop_error_wp i o)| |done]. cbn beta. intros ? w' He. eexists. split; [done|]. by apply Programs.ends_shows.
      * wstep. eexists. split; [done|]. rewrite insert_id by done. by split.
  - wstep. exists cs. split; [done|]. by split.
  - apply wp_bind. eapply void_holds; [exact Hw|exact Hj|]. apply wp_bind. eapply void_holds; [exact Hw|exact Hi|].
    destruct d as [e|]; cbn beta iota.
    + eapply wp_mono; [eapply (set_error_wp i _ w c e); [done| |by apply move_arg_at]| |]; cbn beta.
      * intros b. by rewrite lookup_insert_ne.
      * intros ? w' He. eexists. split; [done|]. by apply (Programs.ends_shows_two _ cs w w' i j (Some e) (Some (moved elE e))).
      * intros w' He. eexists. split; [exists c, (Some e); split; [done|]; split; [done|]; exists (torn_from elE c); auto|].
        by apply (Programs.ends_shows_two _ cs w w' i j (torn_from elE c) (Some (torn elE e))).
    + destruct c as [o|]; cbn [negb].
      * eapply wp_mono; [by apply (drop_error_wp i o)| |done]. cbn beta. intros ? w' He. eexists. split; [done|].
        rewrite (insert_id cs j) by done. by apply Programs.ends_shows.
      * wstep. eexists. split; [done|]. rewrite (insert_id cs j), insert_id by done. by split.
Qed.

Lemma hand_over_wp i j e w :
  i <> j -> objects w !! i = Some (box None) -> objects w !! j = Some (box (Some e)) ->
  wp (ExpectedVoid.hand_over elE no_exceptions hook i j)
     (fun _ => ends w (<[i := box (Some e)]> (<[j := box None]> (objects w))))
     (fun w' => ends w (<[i := box None]> (<[j := box (Some (torn elE e))]> (objects w))) w') w.
Proof.
  intros Hne Hi Hj. unfold ExpectedVoid.hand_over. apply wp_bind.
  eapply wp_mono; [eapply (add_error_wp i _ w e); [|by apply move_arg_at]| |]; cbn beta iota.
  - intros b. by rewrite lookup_insert_ne.
  - intros ? w1 [Ho Ht]. eapply wp_mono; [apply (drop_error_wp j (moved elE e) w1)| |done].
    + rewrite Ho, lookup_insert_ne by done. apply lookup_insert_eq.
    + cbn beta. intros ? w' [Ho' Ht']. split; [|sfx]. rewrite Ho', Ho. maps i j.
  - intros w' [Ho Ht]. split; [|done]. rewrite Ho. maps i j.
Qed.

Lemma void_swap_ok i j cs w c d :
  void_shows cs w -> cs !! i = Some c -> cs !! j = Some d -> void_ok (Swap i j) cs w.
Proof.
  intros Hw Hi Hj. unfold Programs.outcome_ok. cbn [exec after]. rewrite Hi, Hj. cbn [mbind option_bind].
  pose proof (Programs.shows_lookup _ _ _ _ _ Hw Hi) as Oi. pose proof (Programs.shows_lookup _ _ _ _ _ Hw Hj) as Oj.
  assert (forall c' d' w', same_side c c' -> same_side d d' ->
    ends w (<[i := box c']> (<[j := box d']> (objects w))) w' ->
    exists cs', thrown elE (Swap i j) cs cs' /\ void_shows cs' w' /\ throws w' `suffix_of` throws w) as Hthrown.
  { intros c' d' w' Hc' Hd' He. eexists. split; [exists c, d; split; [done|]; split; [done|]; by exists c', d'|].
    by apply Programs.ends_shows_two. }
  assert (forall w', ends w (<[i := box d]> (<[j := box c]> (objects w))) w' ->
    exists cs', Some (<[i := d]> (<[j := c]> cs)) = Some cs' /\ void_shows cs' w' /\ throws w' `suffix_of` throws w) as Hret.
  { intros w' He. eexists. split; [done|]. by apply Programs.ends_shows_two. }
  assert (forall a b : E, same_side (Some a) (Some b)) as Hsome by (intros a b; split; by eexists).
  unfold ExpectedVoid.swap. (apply wp_bind; eapply void_settled; [exact Hw|exact Hi|]); (apply wp_bind; eapply void_settled; [exact Hw|exact Hj|]).
  (apply wp_bind; eapply void_holds; [exact Hw|exact Hi|]); (apply wp_bind; eapply void_holds; [exact Hw|exact Hj|]).
  destruct c as [a|], d as [b|]; cbn [andb negb].
  - eapply wp_mono; [by apply (std_swap_wp no_exceptions eslot (error_lawful elE) i j w a b)|by intros ? w'; apply Hret|].
    intros w' (a' & b' & He). by apply (Hthrown (Some a') (Some b')).
  - assert (j <> i) by congruence.
    (apply wp_bind; eapply void_settled; [exact Hw|exact Hj|]); (apply wp_bind; eapply void_settled; [exact Hw|exact Hi|]).
    eapply wp_mono; [by apply (hand_over_wp j i a w)| |]; cbn beta.
    + intros ? w' He. apply Hret. by rewrite insert_insert_ne.
    + intros w' He. apply (Hthrown (Some (torn elE a)) None); [done|done|]. by rewrite insert_insert_ne.
  - assert (i <> j) by congruence.
    eapply wp_mono; [by apply (hand_over_wp i j b w)|by intros ? w'; apply Hret|]; cbn beta.
    intros w' He. by apply (Hthrown None (Some (torn elE b))).
  - wstep. apply Hret. split; [|reflexivity]. rewrite (insert_id (objects w) j) by done. by rewrite insert_id.
Qed.

Lemma void_exec_ok o cs w :
  calm (throws w) -> void_shows cs w -> after elE o cs <> None -> void_ok o cs w.
Proof.
  intros Hc Hw Hv. destruct o as [i|i s|i s|i j|i j|i j]; cbn [after] in Hv;
    (destruct (cs !! i) as [c|] eqn:Hi; [|done]); cbn in Hv.
  - by eapply void_emplace_ok.
  - destruct (resolve s cs) as [e|] eqn:Hs; [|done]. by eapply void_emplace_error_ok.
  - destruct (resolve s cs) as [e|] eqn:Hs; [|done]. by eapply void_assign_error_ok.
  - destruct (cs !! j) as [d|] eqn:Hj; [|done]. by eapply void_assign_ok.
  - destruct (cs !! j) as [d|] eqn:Hj; [|done]. by eapply void_assign_ok.
  - destruct (cs !! j) as [d|] eqn:Hj; [|done]. by eapply void_swap_ok.
Qed.

Lemma void_unbox (c : option E) : unbox (T := T) (box c) = Some c.
Proof. by destruct c. Qed.

Lemma void_destroy_ok i cs w c :
  void_shows cs w -> cs !! i = Some c ->
  exists w', ExpectedVoid.destroy elE hook false i w = Ret tt w' /\
    exists st, objects w' !! i = Some (mk_expected Raw st).
Proof.
  intros Hw Hi. pose proof (Programs.shows_lookup _ _ _ _ _ Hw Hi) as Ho.
  assert (wp (ExpectedVoid.destroy elE hook false i)
    (fun _ w' => exists st, objects w' !! i = Some (mk_expected Raw st)) (fun _ => False) w) as Hwp.
  { unfold ExpectedVoid.destroy. apply wp_bind. eapply void_settled; [done..|]. apply wp_bind. eapply void_holds; [done..|].
    destruct c as [e|]; cbn [negb box] in *; repeat wstep; eexists; [lk|done]. }
  destruct (wp_no_throw _ _ _ _ Hwp (fun _ H => H)) as ([] & w' & E1 & E2). by exists w'.
Qed.
End void_facts.

(** C34. [expected<void, E>] is a success or one live error, exceptions or not, as long
    as no two element operations throw in a row, the error type can be moved, and
    destructors of errors do not reach back.  Each of any sequence of operations ends
    with the contents that the abstract objects have after it, or throws and leaves its
    objects with what they held or what an error's own throwing move made of that; no
    error is destroyed twice, built over another or read when it is not there; and in
    the end every object can be destroyed. *)
Theorem expected_void_refines {T E : Type} (elE : element E) (no_exceptions : bool)
    (hook : nat -> M (world T E) unit) (ops : list (VoidSpec.op E)) (cs : gmap nat (option E)) (t : list bool) :
  (forall i w, hook i w = Ret tt w) -> movable elE = true -> calm t ->
  exists rs cs' w',
    VoidRun.run elE no_exceptions hook ops (mk_world (VoidRun.box <$> cs) t) = Ret rs w' /\
    VoidSpec.steps elE ops cs rs cs' /\ objects w' = VoidRun.box <$> cs' /\
    forall i c, cs' !! i = Some c ->
      exists w'', ExpectedVoid.destroy elE hook false i w' = Ret tt w'' /\
        exists st, objects w'' !! i = Some (mk_expected Raw st).
Proof.
  intros Hq HE Ht.
  destruct (Programs.run_steps VoidRun.box VoidRun.unbox (VoidSpec.after elE) (VoidSpec.thrown elE) (VoidRun.exec elE no_exceptions hook) void_unbox
    calm calm_suffix (void_exec_ok elE no_exceptions hook Hq HE) ops cs (mk_world (VoidRun.box <$> cs) t) Ht eq_refl)
    as (rs & cs' & w' & Er & Hs & Hw). exists rs, cs', w'. split; [done|]. split; [done|]. split; [done|].
  intros i c Hi. by apply (void_destroy_ok elE hook Hq i cs' w' c).
Qed.

Lemma expected_void_refines_witness :
  let el := mk_element true false (fun _ => 0) (fun _ => 99) in
  let ops := [VoidSpec.EmplaceError 0 (VoidSpec.OfError 1 S); VoidSpec.Swap 0 1; VoidSpec.Emplace 1] in
  let cs := {[0 := None; 1 := Some 7]} : gmap nat (option nat) in
  calm [false; true; false] /\
  exists rs cs' w',
    VoidRun.run (T := nat) el false (fun _ => ret tt) ops (mk_world (VoidRun.box <$> cs) [false; true; false]) = Ret rs w' /\
    VoidSpec.steps el ops cs rs cs' /\ objects w' = VoidRun.box <$> cs'.
Proof.
  intros el ops cs. assert (calm [false; true; false]) as Hc by (cbn; intuition discriminate). split; [exact Hc|].
  destruct (expected_void_refines (T := nat) el false (fun _ => ret tt) ops cs _ (fun _ _ => eq_refl) eq_refl Hc)
    as (rs & cs' & w' & H1 & H2 & H3 & _). by exists rs, cs', w'.
Defined.
